(* ===== verification/_CoqProject ===== *)
-Q . S2P
Prelude.v
Partition.v
EvenPartition.v
PartitionTable.v
KeyMap.v
WorkerManager.v
Coordinator.v
Rescale.v
Protocol.v
Lifecycle.v
Codec.v
WorkUnit.v
StateType.v
Backend.v
StateService.v
StateCache.v
StateClient.v
StateBatch.v
Chunks.v
Cluster.v
NoMigration.v
BucketMigration.v
StateApi.v
TcpFrames.v
MemoryAlias.v
ByKey.v
ByKeyRead.v
ByKeyWrite.v
ByKeyMigration.v
ByKeyTasks.v
ByKeyApi.v
Window.v
WindowIndex.v
WindowStore.v
WindowRun.v
TumblingWindow.v
SlidingWindow.v
SlidingExact.v
WindowBounds.v
Tuples.v
Keyed.v
Operators.v
RingBuffer.v
Supplier.v
SupplierTime.v
SupplierMerge.v
SupplierReconfig.v
Network.v
Collector.v
CollectorSpec.v
CollectorTime.v
RoundRobin.v
Task.v
TaskForward.v
TaskTime.v
WindowMigration.v
CustomJoin.v
StopRestart.v
ControlPlane.v
Pipeline.v
