(* ===== verification/Prelude.v ===== *)
(** * Koala: a verification development for the stream processing runtime

    Koala is a distributed dataflow runtime: a coordinator places the tasks of
    a job on workers, partitions the key space of each stateful operator among
    them, and rescales running operators.  Stateful operators keep their state
    in per-worker stores behind a state service, which during a lazy rescale
    fetches state from the former owners when it is needed.

    ** The parts and where they are modelled

    Key space ([internal/keyby])
    - [Partition.v]: bucket types, the policy interface ([PartitionPolicy],
      [PolicyLaws]), the uniform policy, bucket generation of the even policy,
      both consistent-hashing policies, [hash/hash.go];
    - [EvenPartition.v]: repartition of [evenPartitionPolicy.go];
    - [PartitionTable.v]: [partitionTable.go] and [keyLookupTable.go], proved
      against [PolicyLaws];
    - [KeyMap.v]: [keyLookupTableV2.go] with the byte format in which key maps
      migrate ([internal/buffer/workUnit.go]).

    Coordinator ([coordinator], [api/dataflow/dataflow.go])
    - [WorkerManager.v]: [workerManager.go]; worker pointers are indices into
      a heap;
    - [Coordinator.v]: the coordinator's state, placement
      ([taskPlacement.go]), job start and both rescale protocols
      ([apiService.go], [apiServiceUtil.go]).  What is sent is a trace of
      rounds of control messages;
    - [Rescale.v], [Protocol.v], [Lifecycle.v]: their correctness.

    State of an operator ([api], [internal/network/codec.go])
    - [Codec.v]: tuple encoder, decoder and sizer;
    - [Tuples.v]: the tuple operations ([tuple.go], [tuple_gen.go]);
    - [StateType.v]: value and list states ([api/stateClient/stateType]);
    - [StateCache.v]: the per-batch caches ([api/stateClient/stateCache]);
    - [StateClient.v]: [stateClient.go], [stateClientUtils.go];
    - [StateBatch.v]: the fetch, update, flush cycle.

    State service ([state], [worker])
    - [Backend.v]: the backend interface, the in-memory and the Pebble backend
      ([state/stateBackend]);
    - [StateService.v]: the contract of the service towards the client
      ([ServiceLaws]) and the local path of [stateServiceApi.go];
    - [Chunks.v]: chunked streams ([stateCommRpcUtil.go]) and bucket ranges;
    - [Cluster.v]: the services of all workers of an operator, with the client
      ([stateServiceUtil.go], [lazyOptUtils.go]) and server
      ([stateCommRpcApi.go]) sides of lazy migration and remote access;
    - [NoMigration.v], [BucketMigration.v], [StateApi.v]: correctness of remote
      access, of lazy bucket migration and of the API under both;
    - [TcpFrames.v]: the TCP frames of per-key fetches
      ([lazyBykeyTcpUtil.go], [stateCommTcpUtil.go], [stateCommTcpApi.go]);
    - [MemoryAlias.v]: values that share the connection's buffer;
    - [ByKey.v]: the by-key service with the eventual migration from leaving
      workers ([lazyByKeyUtil.go], [lazyByKeyRpcUtil.go], [stateService.go]);
      [ByKeyRead.v], [ByKeyWrite.v], [ByKeyMigration.v], [ByKeyTasks.v],
      [ByKeyApi.v]: its correctness;
    - [StopRestart.v]: the state and the windows that workers pull from each
      other under stop-and-restart ([controlUtil.go], [stateCommRpcApi.go]).

    Data plane ([internal/buffer], [internal/network], [internal/supplier],
    [internal/watermark], [api/collector])
    - [WorkUnit.v]: work units, watermarks and batches;
    - [RingBuffer.v]: [ringBuffer.go] and [batchPool.go], as the memory accesses
      of two threads;
    - [Network.v]: the bytes of a connection ([downstream.go], [upstream.go],
      the connection setup of [supplier.go]);
    - [Supplier.v]: the input side of a task ([supplier.go],
      [subSupplier.go] and their round-robin versions); [SupplierTime.v],
      [SupplierMerge.v], [SupplierReconfig.v]: its correctness;
    - [Collector.v]: the output side ([collector.go], [keybyCollector.go],
      [periodicGenerator.go]); [CollectorSpec.v], [CollectorTime.v]: its
      correctness;
    - [RoundRobin.v]: [roundRobinCollector.go] and its correctness.

    Tasks ([worker], [api/dataflow], [internal/lazy])
    - [Window.v]: [tumblingWindow.go], [slidingWindow.go], [aggregator.go];
      [WindowIndex.v], [WindowStore.v], [WindowRun.v], [TumblingWindow.v],
      [SlidingWindow.v], [SlidingExact.v], [WindowBounds.v]: their
      correctness, over the state client's contract;
    - [WindowMigration.v]: the migration of the window indices of reassigned
      keys in a lazy rescale;
    - [Keyed.v]: the fetch, visit, flush cycle of keyed operators;
    - [Operators.v]: [map.go], [flatmap.go], [filter.go], [statefulMap.go],
      [statefulMap2State.go], [statefulFlatmap.go] and [join.go];
    - [CustomJoin.v]: [customWindowJoin.go], with the migration of its timers;
    - [Task.v]: the main loop ([worker.go]) and fast forwarding to peers
      ([peerCollector.go], [statefulOperatorBase.go]); [TaskForward.v],
      [TaskTime.v]: its correctness;
    - [ControlPlane.v]: the handlers of the coordinator's messages
      ([controlPlane.go]) over the methods of all operators ([operator.go]).

    The whole
    - [Pipeline.v]: a job from its sources over the collectors, channels,
      suppliers and main loops to the results of its window operators.

    The interfaces between the parts are classes: [PolicyLaws] (policy to
    table), [StateBackendLaws] and [RangeQueryLaws] (backend to service),
    [ServiceLaws] (service to state client), [TransportLaws] (gRPC or TCP to
    the by-key service).  Clients are proved against the class, implementations
    are its instances.

    ** How Go code is rendered

    Outcomes are [res]: a value, or [Crash] with [log.Fatal], a panic, waiting
    for ever, or fuel used up.  Integers are [Z] with the wrap-around of their
    width where the code computes with them ([u16], [u32], ...).  Maps are
    [gmap]; iterating one uses [go_range], an arbitrary order ([GoRange]);
    goroutines that a call starts and awaits run in the arbitrary order of a
    [Schedule], and theorems hold for all of them.  [sort.Slice], which is not
    stable, is any sorting function ([SortTokens], [SortWorkers]).  A field of a
    tuple carries its type, predeclared or defined ([GoType], [FNamed]); the
    operators, the network and the state client are stated for tuples of
    predeclared types, which are given by the list of their kinds.  Go maps
    whose keys are fields (caches, timers, window indices) compare them by
    their bits, so that float keys that are NaN or zeros of both signs are
    outside the model.

    Libraries outside the repository are parameters with their documented
    behaviour as laws: the murmur3 hash and the mus-go encoding of a uint16
    (plain arguments), the mus-go codecs ([Mus], [MusLaws], and [RawMus],
    [RawMusLaws] for its fixed-width numbers), the Pebble
    database ([PebbleDB], [PebbleLaws]), and [encoding/json] for the maps of
    windows and timers ([GoJson], [GoJsonLaws]).  The functions a user passes to
    an operator (mappers, filters, key and timestamp assigners, aggregators,
    joins) are arguments of its definitions.  The witnesses instantiate them with
    concrete functions.

    Loops without a structural measure have fuel: [transfer] of the even
    policy (needed buckets times donors), [batch_bounds] (number of keys), the
    memory iterator (number of keys), list-state decoding (number of bytes),
    the frames of a TCP response (number of keys or bytes), the units of a
    connection (number of bytes), the windows of a record (duration of a
    window).  The theorems show that a result is reached, so that the fuel is
    enough.

    ** What the theorems show

    - Partitioning: generation is balanced, even repartition reaches exact
      shares with minimal moves and always ends for appended or dropped
      workers, consistent hashing moves only to added workers; tables route
      every key, survive their range encoding and reconfigure as reported.
    - Key maps: serialization at the sender and decoding at the receiver, in
      any goroutine order, move exactly the reassigned key maps.
    - Coordinator: in every reachable state each key goes to a busy worker that
      runs a task of the operator; the lazy protocol's rounds come in the
      order, go to the workers and carry the counts, tables and peers that the
      workers rely on; the migration plan and the eventual-migration notices
      are exact.
    - State client: keys encode injectively, codecs round trip, a batch cycle
      refines a map from slots to states.
    - State service: writes and reads over several workers refine one store;
      the values after a lazy migration of buckets are exact, and unchanged when
      the requesting worker holds no copy of a key that its owner has deleted;
      by-key reads are correct in every order of their goroutines, but for a
      race with a leaving worker that was done before, and the eventual
      migration ends; stop-and-restart, over a backend with range queries,
      moves exactly the records and the windows of the pulled buckets.
    - Control plane: a deployed task routes keys and looks up owners as the
      coordinator planned; the handlers send the acknowledgements that the
      coordinator waits for.
    - Windows: without late records, a tumbling or sliding operator emits
      exactly one record per closed window, the aggregate of all its records;
      with late records it still refines a map of windows; the starts of the
      windows of a record are bounded as the code intends for times that are
      not negative; the indices of windows and the timers of custom joins move
      exactly with their keys.
    - Keyed operators: the output and the states do not depend on how the
      input is cut into batches, unless a state is cleared; the incremental
      join emits every pair of equal keys once; the custom join refines a set of
      timers fired in the order of time; a tuple holds what was last set with
      the very type of the field, and two are equal exactly if their values are.
    - Channels: the ring buffer and its batch pool deliver what was sent under
      every interleaving; a connection decodes to what was written to it,
      whatever part has arrived.
    - Collectors: batching is invisible, the round-robin collector is balanced;
      the channels of a source whose events are at most the allowed delay out
      of order are on time.
    - Suppliers: the input of a task interleaves its channels, each in its
      order and without loss, starves none and is on time when they are; the
      counters of a lazy reconfiguration are exact.
    - Jobs: the workers of a window operator together emit what one operator
      would compute from the whole stream, for any batching, interleaving and
      number of workers and sources, when records are at most the allowed delay
      late and have event times of at least that delay.
    - Fast forwarding: a task in transition, whose peers are the receivers of its
      buckets, splits its input exactly by the new owners, and its channels to
      the peers are on time again.
    - Errors: the branches that end the process, panic or wait for ever are
      characterised where an operation has them; several of them are
      defects of the code and stated as such ([append_nothing_fatal],
      [oversized_record_lost], [deleted_key_reappears], [done_worker_race],
      [fetched_value_overwritten], [pebble_get_many], [early_watermark_fatal],
      [cleared_then_set_lost], [unsupported_key_fatal], [returned_bucket_stale],
      [terminate_outcomes] for sinks, [window_bounds] for negative times, and
      [tuple_codec_roundtrip] for fields of defined types).

    ** What is not modelled

    Sockets, gRPC servers and streams (a request is the server's handler run
    on the server's state), YAML configuration, metrics and Kafka: I/O.  The
    gRPC stubs ([internal/grpc]) are generated; the generated tuple types
    ([tuple_gen.go]) are one record of fields with the list of their types.
    Mutexes: the code under a lock is one step.  The sharded remote Pebble and
    TiKV backends are clients of databases.  Of the lazy-optimized protocol the
    read path is defined in [Cluster.v], without theorems.  The sleeps of
    polling loops: a waiting routine takes no step.  The stateful operator base
    with two upstreams differs from the one modelled by its second peer
    collector.  Of the worker's control plane, the registration, the warm-up
    file and the opening of connections are I/O.  The skip list is used by no
    part of the runtime. *)

From stdpp Require Import prelude gmap strings list sorting.
From Stdlib Require Import ZArith Lia.

Declare Scope koala_scope.
Delimit Scope koala_scope with koala.
Open Scope koala_scope.

(** ** Outcomes of Go code

    A Go function of this program either returns, ends the process through
    [log.Fatalf]/[log.Fatalln] (constructor [Fatal], with the message's text),
    or panics in the runtime (an index out of range, a write to a nil map, a
    nil dereference, a negative [make] size: constructor [Panic]), or waits
    for ever on a wait group or a flag ([Blocked]).  [Diverge] is what a
    fuelled loop returns when its fuel is used up; theorems show that it is
    never the outcome where the code's loops end. *)

Inductive crash : Type :=
  | Fatal (msg : string)
  | Panic
  | Blocked
  | Diverge.

Inductive res (A : Type) : Type :=
  | Ok (a : A)
  | Crash (c : crash).
Arguments Ok {A} a.
Arguments Crash {A} c.

#[export] Instance crash_eq_dec : EqDecision crash.
Proof. solve_decision. Defined.

#[export] Instance res_ret : MRet res := @Ok.
#[export] Instance res_bind : MBind res := λ A B f m,
  match m with Ok a => f a | Crash c => Crash c end.

(** [fatal_if b msg] is [if b { log.Fatalf(msg) }]. *)
Definition fatal_if (b : bool) (msg : string) : res unit :=
  if b then Crash (Fatal msg) else Ok tt.

(** [panic_if b] is an operation of the Go runtime that panics under [b]. *)
Definition panic_if (b : bool) : res unit := if b then Crash Panic else Ok tt.

Definition is_ok {A} (r : res A) : bool :=
  match r with Ok _ => true | Crash _ => false end.

Lemma bind_Ok_inv {A B} (m : res A) (f : A → res B) b :
  m ≫= f = Ok b → ∃ a, m = Ok a ∧ f a = Ok b.
Proof. destruct m; naive_solver. Qed.

Lemma bind_Ok {A B} (a : A) (f : A → res B) : Ok a ≫= f = f a.
Proof. done. Qed.

Lemma bind_fatal_false {B} msg (f : unit → res B) : fatal_if false msg ≫= f = f tt.
Proof. done. Qed.

Lemma Ok_pair_inj {A B} (a a' : A) (b b' : B) : Ok (a, b) = Ok (a', b') → a = a' ∧ b = b'.
Proof. by intros [= -> ->]. Qed.

Lemma fatal_if_Ok b msg u : fatal_if b msg = Ok u ↔ b = false.
Proof. destruct b, u; naive_solver. Qed.

Lemma panic_if_Ok b u : panic_if b = Ok u ↔ b = false.
Proof. destruct b, u; naive_solver. Qed.

(** [foldM]: the code's [for _, x := range xs { ... }] loops whose
    body may end the process. *)
Fixpoint foldM {A S} (f : S → A → res S) (s : S) (l : list A) : res S :=
  match l with
  | [] => Ok s
  | x :: l => s' ← f s x; foldM f s' l
  end.

Lemma foldM_app {A S} (f : S → A → res S) s l1 l2 :
  foldM f s (l1 ++ l2) = (s' ← foldM f s l1; foldM f s' l2).
Proof. revert s; induction l1 as [|x l1 IH]; intros s; simpl; [done|].
  destruct (f s x); simpl; [apply IH | done]. Qed.

(** A loop in a loop is one loop over the flattened list. *)
Lemma foldM_bind {A B S} (f : S → B → res S) (g : A → list B) s l :
  foldM f s (l ≫= g) = foldM (λ s x, foldM f s (g x)) s l.
Proof.
  revert s. induction l as [|x l IH]; intros s; simpl; [done|].
  rewrite foldM_app. destruct (foldM f s (g x)); simpl; [apply IH|done].
Qed.

Lemma foldM_fmap {A B S} (f : S → B → res S) (g : A → B) s l :
  foldM f s (g <$> l) = foldM (λ s x, f s (g x)) s l.
Proof.
  revert s. induction l as [|x l IH]; intros s; simpl; [done|].
  destruct (f s (g x)); simpl; [apply IH|done].
Qed.

Lemma foldM_ext {A S} (f g : S → A → res S) s l :
  (∀ s x, x ∈ l → f s x = g s x) → foldM f s l = foldM g s l.
Proof.
  revert s. induction l as [|x l IH]; intros s Hfg; simpl; [done|].
  rewrite Hfg by set_solver. destruct (g s x); simpl; [apply IH; set_solver|done].
Qed.

(** A loop that appends one result per element. *)
Fixpoint mapR {A B} (f : A → res B) (l : list A) : res (list B) :=
  match l with
  | [] => Ok []
  | x :: l => y ← f x; ys ← mapR f l; Ok (y :: ys)
  end.

Lemma mapR_Ok {A B} (f : A → res B) l ys :
  mapR f l = Ok ys ↔ Forall2 (λ x y, f x = Ok y) l ys.
Proof.
  revert ys. induction l as [|x l IH]; intros ys; simpl.
  - split; [intros [= <-]; constructor|by inversion 1].
  - split.
    + intros (y & Hy & (ys' & Hys & [= <-])%bind_Ok_inv)%bind_Ok_inv.
      constructor; [done|by apply IH].
    + inversion 1 as [|? y ? ys' Hy Hys]; subst. apply IH in Hys. by rewrite Hy, bind_Ok, Hys.
Qed.

Lemma mapR_total {A B} (f : A → res B) (g : A → B) l :
  (∀ x, x ∈ l → f x = Ok (g x)) → mapR f l = Ok (g <$> l).
Proof.
  intros Hf. apply mapR_Ok. apply Forall2_fmap_r, Forall_Forall2_diag, Forall_forall.
  intros x Hx. by apply Hf.
Qed.

(** Rule of invariants for a loop: what the body preserves, the loop does. *)
Lemma foldM_inv {A S} (f : S → A → res S) (P : list A → S → Prop) l s s' :
  P [] s →
  (∀ done x s1 s2, (done ++ [x]) `prefix_of` l → P done s1 → f s1 x = Ok s2 →
     P (done ++ [x]) s2) →
  foldM f s l = Ok s' → P l s'.
Proof.
  intros H0 Hstep.
  cut (∀ rest done s1, done ++ rest = l → P done s1 →
         foldM f s1 rest = Ok s' → P l s').
  { intros Hcut. apply (Hcut l []); done. }
  induction rest as [|x rest IH]; intros pre s1 Hl HP; simpl.
  - rewrite app_nil_r in Hl. subst. naive_solver.
  - intros (s2 & Hs2 & Hrest)%bind_Ok_inv.
    apply (IH (pre ++ [x]) s2); [by rewrite <-app_assoc | | done].
    eapply Hstep; [|done|done]. exists rest. by rewrite <-app_assoc.
Qed.

(** Total correctness of a loop: the body succeeds under the invariant. *)
Lemma foldM_total {A S} (f : S → A → res S) (P : list A → S → Prop) l s :
  P [] s →
  (∀ done x s1, (done ++ [x]) `prefix_of` l → P done s1 →
     ∃ s2, f s1 x = Ok s2 ∧ P (done ++ [x]) s2) →
  ∃ s', foldM f s l = Ok s' ∧ P l s'.
Proof.
  intros H0 Hstep.
  cut (∀ rest done s1, done ++ rest = l → P done s1 →
         ∃ s', foldM f s1 rest = Ok s' ∧ P l s').
  { intros Hcut. by apply (Hcut l []). }
  induction rest as [|x rest IH]; intros pre s1 Hl HP; simpl.
  - rewrite app_nil_r in Hl. subst. eauto.
  - destruct (Hstep pre x s1) as (s2 & Hf & HP2); [|done|].
    { exists rest. by rewrite <-app_assoc. }
    rewrite Hf. simpl. apply (IH (pre ++ [x])); [by rewrite <-app_assoc | done].
Qed.

(** The same of a loop that may panic, for a reason [Q]. *)
Lemma foldM_total_or {A S} (f : S → A → res S) (P : list A → S → Prop) (Q : Prop) l s :
  P [] s →
  (∀ done x s1, (done ++ [x]) `prefix_of` l → P done s1 →
     (∃ s2, f s1 x = Ok s2 ∧ P (done ++ [x]) s2) ∨ f s1 x = Crash Panic ∧ Q) →
  (∃ s', foldM f s l = Ok s' ∧ P l s') ∨ foldM f s l = Crash Panic ∧ Q.
Proof.
  intros H0 Hstep.
  cut (∀ rest done s1, done ++ rest = l → P done s1 →
         (∃ s', foldM f s1 rest = Ok s' ∧ P l s') ∨ foldM f s1 rest = Crash Panic ∧ Q).
  { intros Hcut. by apply (Hcut l []). }
  induction rest as [|x rest IH]; intros pre s1 Hl HP; simpl.
  - rewrite app_nil_r in Hl. subst. eauto.
  - destruct (Hstep pre x s1) as [(s2 & Hf & HP2)|[Hf HQ]]; [|done|..].
    { exists rest. by rewrite <-app_assoc. }
    + rewrite Hf. simpl. apply (IH (pre ++ [x])); [by rewrite <-app_assoc | done].
    + rewrite Hf. by right.
Qed.

(** ** Go slices

    Slice indices that come from a [range] loop or a length are [nat]; an
    index read from data is a [Z] and goes through the [Z] variants.  An
    access outside the slice panics. *)

Definition idx {A} (l : list A) (i : nat) : res A :=
  match l !! i with Some x => Ok x | None => Crash Panic end.

Definition set_idx {A} (l : list A) (i : nat) (x : A) : res (list A) :=
  if bool_decide (i < length l) then Ok (<[i:=x]> l) else Crash Panic.

Definition idxZ {A} (l : list A) (i : Z) : res A :=
  if (i <? 0)%Z then Crash Panic else idx l (Z.to_nat i).

Definition set_idxZ {A} (l : list A) (i : Z) (x : A) : res (list A) :=
  if (i <? 0)%Z then Crash Panic else set_idx l (Z.to_nat i) x.

(** [l[i:j]] on a slice whose capacity is its length. *)
Definition go_slice {A} (l : list A) (i j : nat) : res (list A) :=
  if bool_decide (i ≤ j ∧ j ≤ length l) then Ok (take (j - i) (drop i l))
  else Crash Panic.

(** [make([]T, n)]: [n] copies of the zero value, a panic for a negative [n]. *)
Definition go_make {A} (zero : A) (n : Z) : res (list A) :=
  if (n <? 0)%Z then Crash Panic else Ok (replicate (Z.to_nat n) zero).

Lemma idx_Ok {A} (l : list A) i x : idx l i = Ok x ↔ l !! i = Some x.
Proof. unfold idx. destruct (l !! i); naive_solver. Qed.

Lemma set_idx_Ok {A} (l : list A) i x l' :
  set_idx l i x = Ok l' ↔ i < length l ∧ l' = <[i:=x]> l.
Proof. unfold set_idx. case_bool_decide; naive_solver. Qed.

Lemma idxZ_Ok {A} (l : list A) i x :
  idxZ l i = Ok x ↔ (0 ≤ i)%Z ∧ l !! Z.to_nat i = Some x.
Proof.
  unfold idxZ. destruct (Z.ltb_spec i 0).
  - split; [done|]. intros [? ?]. lia.
  - rewrite idx_Ok. naive_solver lia.
Qed.

Lemma set_idxZ_Ok {A} (l : list A) i x l' :
  set_idxZ l i x = Ok l' ↔
  (0 ≤ i)%Z ∧ Z.to_nat i < length l ∧ l' = <[Z.to_nat i:=x]> l.
Proof.
  unfold set_idxZ. destruct (Z.ltb_spec i 0).
  - split; [done|]. intros [? ?]. lia.
  - rewrite set_idx_Ok. naive_solver lia.
Qed.

Lemma go_make_Ok {A} (zero : A) n l :
  go_make zero n = Ok l ↔ (0 ≤ n)%Z ∧ l = replicate (Z.to_nat n) zero.
Proof.
  unfold go_make. destruct (Z.ltb_spec n 0).
  - split; [done|]. intros [? ?]. lia.
  - naive_solver lia.
Qed.

Lemma go_slice_Ok {A} (l : list A) i j l' :
  go_slice l i j = Ok l' ↔
  i ≤ j ∧ j ≤ length l ∧ l' = take (j - i) (drop i l).
Proof. unfold go_slice. case_bool_decide; naive_solver. Qed.

Lemma go_slice_app {A} (data a b c : list A) i j :
  data = a ++ b ++ c → i = length a → j = length a + length b →
  go_slice data i j = Ok b.
Proof.
  intros -> -> ->. apply go_slice_Ok. rewrite !length_app. split_and!; [lia..|].
  rewrite drop_app_length. replace (_ - _) with (length b) by lia.
  by rewrite take_app_length.
Qed.

(** [l[lo], l[lo+1], ..., l[hi-1] = x] : the counting loops that fill a
    slice. *)
Fixpoint fill {A} (l : list A) (lo n : nat) (x : A) : res (list A) :=
  match n with
  | 0 => Ok l
  | S n => l' ← set_idx l lo x; fill l' (S lo) n x
  end.

Lemma fill_Ok {A} (l : list A) lo n x :
  lo + n ≤ length l →
  fill l lo n x = Ok (take lo l ++ replicate n x ++ drop (lo + n) l).
Proof.
  revert l lo. induction n as [|n IH]; intros l lo Hle; simpl.
  - by rewrite Nat.add_0_r, take_drop.
  - unfold set_idx. rewrite bool_decide_true by lia. simpl.
    rewrite IH by (rewrite length_insert; lia). f_equal.
    rewrite (insert_take_drop l lo x) by lia.
    rewrite take_app, length_take, Nat.min_l by lia.
    rewrite take_ge by (rewrite length_take; lia).
    rewrite drop_app, length_take, Nat.min_l by lia.
    rewrite (drop_ge (take lo l)) by (rewrite length_take; lia).
    replace (S lo - lo) with 1 by lia. replace (S lo + n - lo) with (S n) by lia.
    simpl. rewrite <-app_assoc, drop_drop. simpl.
    by replace (lo + S n) with (S (lo + n)) by lia.
Qed.

Lemma fill_lookup {A} (l l' : list A) lo n x i :
  fill l lo n x = Ok l' →
  l' !! i = if bool_decide (lo ≤ i < lo + n) then Some x else l !! i.
Proof.
  revert l lo. induction n as [|n IH]; intros l lo; simpl.
  - intros [= ->]. case_bool_decide; [lia|done].
  - intros (l1 & [? ->]%set_idx_Ok & Hfill)%bind_Ok_inv.
    rewrite (IH _ _ Hfill). repeat case_bool_decide; try lia; try done.
    + destruct (decide (i = lo)) as [->|]; [by apply list_lookup_insert_eq | lia].
    + rewrite list_lookup_insert_ne by lia. done.
Qed.

Lemma fill_length {A} (l l' : list A) lo n x :
  fill l lo n x = Ok l' → length l' = length l.
Proof.
  revert l lo. induction n as [|n IH]; intros l lo; simpl; [naive_solver|].
  intros (l1 & [? ->]%set_idx_Ok & Hfill)%bind_Ok_inv.
  apply IH in Hfill. by rewrite length_insert in Hfill.
Qed.

Lemma fill_total {A} (l : list A) lo n x :
  lo + n ≤ length l → ∃ l', fill l lo n x = Ok l'.
Proof. intros. rewrite fill_Ok by done. eauto. Qed.

(** ** Machine integers

    A Go integer is the [Z] it denotes; conversions and arithmetic that can
    leave the type's range go through these wraps.  Go's [/] and [%] truncate
    toward zero: they are [Z.quot] and [Z.rem]. *)

Definition u16 (z : Z) : Z := z mod 2 ^ 16.
Definition u32 (z : Z) : Z := z mod 2 ^ 32.
Definition u64 (z : Z) : Z := z mod 2 ^ 64.
Definition i64 (z : Z) : Z := (z + 2 ^ 63) mod 2 ^ 64 - 2 ^ 63.
Definition i32 (z : Z) : Z := (z + 2 ^ 31) mod 2 ^ 32 - 2 ^ 31.

Definition is_u8 (z : Z) : Prop := (0 ≤ z < 2 ^ 8)%Z.
Definition is_u16 (z : Z) : Prop := (0 ≤ z < 2 ^ 16)%Z.
Definition is_u32 (z : Z) : Prop := (0 ≤ z < 2 ^ 32)%Z.
Definition is_u64 (z : Z) : Prop := (0 ≤ z < 2 ^ 64)%Z.
Definition is_i64 (z : Z) : Prop := (- 2 ^ 63 ≤ z < 2 ^ 63)%Z.

Lemma u16_id z : is_u16 z → u16 z = z.
Proof. unfold is_u16, u16. intros. by apply Z.mod_small. Qed.

Lemma u32_id z : is_u32 z → u32 z = z.
Proof. unfold is_u32, u32. intros. by apply Z.mod_small. Qed.

Lemma u64_id z : is_u64 z → u64 z = z.
Proof. unfold is_u64, u64. intros. by apply Z.mod_small. Qed.

Lemma i64_id z : is_i64 z → i64 z = z.
Proof. unfold is_i64, i64. intros. rewrite Z.mod_small; lia. Qed.

Lemma u16_range z : is_u16 (u16 z).
Proof. unfold is_u16, u16. apply Z.mod_pos_bound. lia. Qed.

Lemma i64_range z : is_i64 (i64 z).
Proof. unfold is_i64, i64. pose proof (Z.mod_pos_bound (z + 2 ^ 63) (2 ^ 64)). lia. Qed.

Lemma i64_add_l z z' : i64 (i64 z + z') = i64 (z + z').
Proof.
  unfold i64. replace ((z + 2 ^ 63) `mod` 2 ^ 64 - 2 ^ 63 + z' + 2 ^ 63)%Z with ((z + 2 ^ 63) `mod` 2 ^ 64 + z')%Z by ring.
  rewrite Z.add_mod_idemp_l by done. by replace (z + z' + 2 ^ 63)%Z with (z + 2 ^ 63 + z')%Z by ring.
Qed.

(** ** Big-endian byte strings

    A byte is a [Z] of [0, 256); [binary.BigEndian.PutUintN] writes
    [be_encode], [binary.BigEndian.UintN] reads [be_decode]. *)

Definition is_byte (b : Z) : Prop := (0 ≤ b < 256)%Z.

Abbreviation bytes := (list Z) (only parsing).

Fixpoint be_encode (n : nat) (z : Z) : bytes :=
  match n with
  | 0 => []
  | S n => be_encode n (z / 256) ++ [z mod 256]%Z
  end.

Definition be_decode (l : bytes) : Z := foldl (λ acc b, acc * 256 + b)%Z 0%Z l.

Lemma length_be_encode n z : length (be_encode n z) = n.
Proof. revert z; induction n; intros; simpl; [done|].
  rewrite length_app, IHn. simpl. lia. Qed.

Lemma be_decode_snoc l b : be_decode (l ++ [b]) = (be_decode l * 256 + b)%Z.
Proof. unfold be_decode. by rewrite foldl_app. Qed.

Lemma be_decode_encode n z :
  (0 ≤ z < 256 ^ Z.of_nat n)%Z → be_decode (be_encode n z) = z.
Proof.
  revert z; induction n as [|n IH]; intros z Hz; simpl.
  - unfold be_decode. simpl in *. lia.
  - rewrite be_decode_snoc, IH.
    + pose proof (Z.div_mod z 256). lia.
    + rewrite Nat2Z.inj_succ, Z.pow_succ_r in Hz by lia.
      split; [apply Z.div_pos; lia|]. apply Z.div_lt_upper_bound; lia.
Qed.

Lemma be_encode_bytes n z : Forall is_byte (be_encode n z).
Proof.
  revert z; induction n as [|n IH]; intros z; simpl; [constructor|].
  apply Forall_app; split; [apply IH|]. constructor; [|constructor].
  unfold is_byte. apply Z.mod_pos_bound. lia.
Qed.

Lemma be_encode_decode n l :
  length l = n → Forall is_byte l → be_encode n (be_decode l) = l.
Proof.
  revert n. induction l as [|b l IH] using rev_ind; intros n Hn Hl.
  - by subst.
  - rewrite length_app in Hn. simpl in Hn.
    apply Forall_app in Hl as [Hl Hb]. rewrite Forall_singleton in Hb.
    unfold is_byte in Hb. destruct n as [|n]; [lia|]. simpl.
    rewrite be_decode_snoc. rewrite (Z.div_add_l _ 256 b) by lia. rewrite (Z.div_small b 256) by lia.
    rewrite Z.add_0_r.
    rewrite IH by (done || lia). f_equal.
    rewrite Z.add_comm, Z_mod_plus_full, Z.mod_small by lia. done.
Qed.

Lemma be_decode_range l :
  Forall is_byte l → (0 ≤ be_decode l < 256 ^ Z.of_nat (length l))%Z.
Proof.
  induction l as [|b l IH] using rev_ind; intros Hl; [done|].
  apply Forall_app in Hl as [Hl Hb]. rewrite Forall_singleton in Hb.
  unfold is_byte in Hb. specialize (IH Hl). rewrite be_decode_snoc, length_app.
  simpl. rewrite Nat.add_1_r, Nat2Z.inj_succ, Z.pow_succ_r by lia. nia.
Qed.

Lemma be_decode_encode16 z : is_u16 z → be_decode (be_encode 2 z) = z.
Proof. intros [??]. by apply be_decode_encode. Qed.

Lemma be_decode_encode32 z : is_u32 z → be_decode (be_encode 4 z) = z.
Proof. intros [??]. by apply be_decode_encode. Qed.

(** ** Iteration over Go maps

    A [range] over a Go map visits every entry once in an order the language
    leaves open.  The development is parametric in that order: [go_range] is
    any enumeration of the map, the theorems hold for each, and the witnesses
    use [map_to_list]. *)

Class GoRange := {
  go_range : ∀ {K A} `{Countable K}, gmap K A → list (K * A);
  go_range_perm : ∀ {K A} `{Countable K} (m : gmap K A),
    go_range m ≡ₚ map_to_list m
}.

#[export] Instance go_range_elements : GoRange.
Proof.
  refine {| go_range := λ K A _ _ m, map_to_list m |}. done.
Defined.

(** A loop over entries with distinct keys that updates a map at each key. *)
Lemma foldM_modify {K A C} `{Countable K} (g : K → A → option C → res C) (m : gmap K C)
    (l : list (K * A)) :
  NoDup l.*1 → (∀ k x, (k, x) ∈ l → ∃ y, g k x (m !! k) = Ok y) →
  ∃ m', foldM (λ m' '(k, x), y ← g k x (m' !! k); Ok (<[k := y]> m')) m l = Ok m' ∧
    (∀ k x, (k, x) ∈ l → ∃ y, g k x (m !! k) = Ok y ∧ m' !! k = Some y) ∧
    ∀ k, k ∉ l.*1 → m' !! k = m !! k.
Proof.
  revert m. induction l as [|[k0 x0] l IH]; intros m Hnd Hg.
  { exists m. split_and!; [done| |done]. by intros k x ?%elem_of_nil. }
  apply NoDup_cons in Hnd as [Hk0 Hnd].
  destruct (Hg k0 x0) as [y Hy]; [by left|]. simpl. rewrite Hy. simpl.
  assert (Hne : ∀ k x, (k, x) ∈ l → k ≠ k0).
  { intros k x Hx ->. apply Hk0, list_elem_of_fmap. by exists (k0, x). }
  destruct (IH (<[k0 := y]> m) Hnd) as (m' & Hm' & Hin & Hout).
  { intros k x Hx. rewrite lookup_insert_ne by (symmetry; by eapply Hne). apply Hg. by right. }
  exists m'. split_and!; [done| |].
  - intros k x [[= -> ->]|Hx]%elem_of_cons.
    + exists y. split; [done|]. by rewrite Hout, lookup_insert_eq.
    + destruct (Hin k x Hx) as (z & Hz & Hm). rewrite lookup_insert_ne in Hz by (symmetry; by eapply Hne).
      by exists z.
  - intros k Hk. simpl in Hk. apply not_elem_of_cons in Hk as [Hk1 Hk2].
    rewrite Hout by done. by apply lookup_insert_ne.
Qed.

Section GoRange.
Context `{GoRange} {K A : Type} `{Countable K}.
Implicit Types m : gmap K A.

Lemma elem_of_go_range m k x : (k, x) ∈ go_range m ↔ m !! k = Some x.
Proof. by rewrite go_range_perm, elem_of_map_to_list. Qed.

Lemma NoDup_go_range m : NoDup (go_range m).*1.
Proof. rewrite go_range_perm. apply NoDup_fst_map_to_list. Qed.

Lemma go_range_keys m k : k ∈ (go_range m).*1 ↔ is_Some (m !! k).
Proof.
  rewrite list_elem_of_fmap. split.
  - intros ([k' x] & -> & Hin). apply elem_of_go_range in Hin. eauto.
  - intros [x Hx]. exists (k, x). by rewrite elem_of_go_range.
Qed.

Lemma length_go_range m : length (go_range m) = size m.
Proof. by rewrite go_range_perm, length_map_to_list. Qed.

(** A loop that replaces every entry of the map it ranges over. *)
Lemma range_update (g : K → A → res A) m :
  (∀ k x, m !! k = Some x → ∃ y, g k x = Ok y) →
  ∃ m', foldM (λ m' '(k, x), y ← g k x; Ok (<[k := y]> m')) m (go_range m) = Ok m' ∧
    ∀ k, match m !! k with
         | None => m' !! k = None
         | Some x => ∃ y, g k x = Ok y ∧ m' !! k = Some y
         end.
Proof.
  intros Hg. destruct (foldM_modify (λ k x _, g k x) m (go_range m)) as (m' & Hm' & Hin & Hout).
  - apply NoDup_go_range.
  - intros k x Hk%elem_of_go_range. by apply Hg.
  - exists m'. split; [done|]. intros k. destruct (m !! k) as [x|] eqn:E.
    + by apply Hin, elem_of_go_range.
    + rewrite Hout; [done|]. rewrite go_range_keys, E. by intros [? [=]].
Qed.

(** The same into another map, when each turn is a function of the entry and
    of what the map holds for the key. *)
Lemma range_modify {C} (g : K → A → option C → res C) (h : K → A → option C → C)
    m (m0 : gmap K C) :
  (∀ k x, m !! k = Some x → g k x (m0 !! k) = Ok (h k x (m0 !! k))) →
  ∃ r : gmap K C,
    foldM (λ acc '(k, x), y ← g k x (acc !! k); Ok (<[k := y]> acc)) m0 (go_range m) = Ok r ∧
    ∀ k, r !! k = match m !! k with Some x => Some (h k x (m0 !! k)) | None => m0 !! k end.
Proof.
  intros Hg. destruct (foldM_modify g m0 (go_range m)) as (m' & Hm' & Hin & Hout).
  - apply NoDup_go_range.
  - intros k x Hk%elem_of_go_range. eauto.
  - exists m'. split; [done|]. intros k. destruct (m !! k) as [x|] eqn:E.
    + destruct (Hin k x) as (y & Hy & ->); [by apply elem_of_go_range|]. rewrite Hg in Hy by done. congruence.
    + rewrite Hout; [done|]. rewrite go_range_keys, E. by intros [? [=]].
Qed.
End GoRange.

(** ** Goroutines

    Goroutines that are started together and awaited together, and that touch
    separate parts of the state, run in an order the scheduler chooses. *)

Class Schedule := {
  schedule : ∀ {A}, list A → list A;
  schedule_perm : ∀ {A} (l : list A), schedule l ≡ₚ l
}.

#[export] Instance schedule_in_order : Schedule :=
  {| schedule := λ A l, l; schedule_perm := λ A l, reflexivity l |}.

(** ** Automation *)

Create HintDb koala.
Create Rewrite HintDb koala.
#[export] Hint Resolve u16_range i64_range be_encode_bytes : koala.
#[export] Hint Rewrite length_be_encode @length_insert @length_replicate
  @length_app @length_fmap : koala.

(** Split every successful computation of the context into its steps. *)
Ltac inv_res :=
  repeat match goal with
  | H : mbind _ _ = Ok _ |- _ => apply bind_Ok_inv in H as (? & ? & ?)
  | H : fatal_if _ _ = Ok _ |- _ => apply fatal_if_Ok in H
  | H : panic_if _ = Ok _ |- _ => apply panic_if_Ok in H
  | H : idx _ _ = Ok _ |- _ => apply idx_Ok in H
  | H : set_idx _ _ _ = Ok _ |- _ => apply set_idx_Ok in H as [? ?]
  | H : go_make _ _ = Ok _ |- _ => apply go_make_Ok in H as [? ?]
  | H : Ok _ = Ok _ |- _ => injection H as H
  | H : Crash _ = Ok _ |- _ => discriminate H
  | H : mret _ = Ok _ |- _ => injection H as H
  end.

(** ** List lemmas the components share *)

Lemma Forall_choice {A B} (P : A → B → Prop) l :
  Forall (λ x, ∃ y, P x y) l → ∃ ys, Forall2 P l ys.
Proof.
  induction 1 as [|x l [y Hy] _ [ys Hys]]; [by exists []|]. exists (y :: ys). by constructor.
Qed.

Lemma elem_of_concat {A} (x : A) (ls : list (list A)) : x ∈ concat ls ↔ ∃ l, x ∈ l ∧ l ∈ ls.
Proof. induction ls as [|l ls IH]; simpl; set_solver. Qed.

Lemma NoDup_drop {A} (l : list A) n : NoDup l → NoDup (drop n l).
Proof. rewrite <-(take_drop n l) at 1. rewrite NoDup_app. naive_solver. Qed.

Lemma list_filter_ext {A} (P Q : A → Prop) `{!∀ x, Decision (P x), !∀ x, Decision (Q x)}
    (l : list A) :
  (∀ x, x ∈ l → P x ↔ Q x) → filter P l = filter Q l.
Proof.
  induction l as [|x l IH]; intros HPQ; [done|]. rewrite !filter_cons.
  rewrite IH by set_solver. pose proof (HPQ x ltac:(set_solver)).
  repeat case_decide; naive_solver.
Qed.

Lemma list_filter_fmap {A B} (P : B → Prop) `{!∀ x, Decision (P x)} (f : A → B) (l : list A) :
  filter P (f <$> l) = f <$> filter (λ x, P (f x)) l.
Proof.
  induction l as [|x l IH]; [done|]. rewrite fmap_cons, !filter_cons, IH.
  by case_decide.
Qed.

Lemma list_filter_bind {A B} (P : B → Prop) `{!∀ x, Decision (P x)} (f : A → list B) (l : list A) :
  filter P (l ≫= f) = l ≫= λ x, filter P (f x).
Proof.
  induction l as [|x l IH]; [done|]. by rewrite !bind_cons, filter_app, IH.
Qed.

(** A key occurs once in a list of entries with distinct keys. *)
Lemma filter_key_none {K A} `{EqDecision K} (l : list (K * A)) k :
  k ∉ l.*1 → filter (λ e, e.1 = k) l = [].
Proof.
  induction l as [|[k' x] l IH]; intros Hk; [done|]. simpl in Hk.
  rewrite filter_cons, decide_False by set_solver. apply IH. set_solver.
Qed.

Lemma filter_key {K A} `{EqDecision K} (l : list (K * A)) k x :
  NoDup l.*1 → (k, x) ∈ l → filter (λ e, e.1 = k) l = [(k, x)].
Proof.
  induction l as [|[k' x'] l IH]; intros Hnd Hin; [by apply elem_of_nil in Hin|].
  simpl in Hnd. apply NoDup_cons in Hnd as [Hk Hnd]. rewrite filter_cons. simpl.
  apply elem_of_cons in Hin as [Heq|Hin].
  - simplify_eq. by rewrite decide_True, filter_key_none.
  - rewrite decide_False; [by apply IH|]. intros ->. apply Hk.
    apply list_elem_of_fmap. by exists (k, x).
Qed.

Lemma NoDup_filter_keys {K A} (P : K * A → Prop) `{!∀ x, Decision (P x)} (l : list (K * A)) :
  NoDup l.*1 → NoDup (filter P l).*1.
Proof.
  induction l as [|[k x] l IH]; [done|]. intros [Hk Hnd]%NoDup_cons. rewrite filter_cons.
  case_decide; [|by apply IH]. apply NoDup_cons. split; [|by apply IH].
  intros (e & Hke & He)%list_elem_of_fmap. apply Hk, list_elem_of_fmap.
  exists e. by apply list_elem_of_filter in He as [_ He].
Qed.

Lemma sum_list_with_ext {A} (f g : A → nat) l :
  (∀ x, x ∈ l → f x = g x) → sum_list_with f l = sum_list_with g l.
Proof.
  induction l as [|x l IH]; intros Hfg; simpl; [done|].
  rewrite (Hfg x), IH; set_solver.
Qed.

Lemma sum_list_with_le {A} (f g : A → nat) l :
  (∀ x, x ∈ l → f x ≤ g x) → sum_list_with f l ≤ sum_list_with g l.
Proof.
  induction l as [|x l IH]; intros Hfg; simpl; [done|].
  pose proof (Hfg x ltac:(set_solver)). specialize (IH ltac:(set_solver)). lia.
Qed.

(** Pointwise below and equal in sum: equal everywhere. *)
Lemma sum_list_with_le_eq {A} (f g : A → nat) l :
  (∀ x, x ∈ l → f x ≤ g x) → sum_list_with f l = sum_list_with g l →
  ∀ x, x ∈ l → f x = g x.
Proof.
  induction l as [|x l IH]; intros Hle Heq y Hy; [set_solver|]. simpl in Heq.
  pose proof (Hle x ltac:(set_solver)).
  pose proof (sum_list_with_le f g l ltac:(set_solver)).
  apply elem_of_cons in Hy as [->|Hy]; [lia|]. apply IH; [set_solver|lia|done].
Qed.

(** Sums do not depend on the order a map is ranged over. *)
#[export] Instance foldr_Zadd_proper : Proper ((≡ₚ) ==> (=)) (foldr Z.add 0%Z).
Proof. induction 1; simpl; lia. Qed.

(** How often a worker (or any value) occurs. *)
Definition occ {A} `{EqDecision A} (x : A) (l : list A) : nat :=
  length (filter (x =.) l).

Section occ.
Context {A : Type} `{EqDecision A}.
Implicit Types (x y : A) (l : list A).

Lemma occ_nil x : occ x [] = 0.
Proof. done. Qed.

Lemma occ_cons x y l :
  occ x (y :: l) = (if decide (x = y) then 1 else 0) + occ x l.
Proof. unfold occ. rewrite filter_cons. by case_decide. Qed.

Lemma occ_app x l1 l2 : occ x (l1 ++ l2) = occ x l1 + occ x l2.
Proof. unfold occ. by rewrite filter_app, length_app. Qed.

Lemma occ_replicate x y n :
  occ x (replicate n y) = if decide (x = y) then n else 0.
Proof.
  induction n as [|n IH]; simpl; [by case_decide|].
  rewrite occ_cons, IH. by case_decide.
Qed.

Lemma occ_pos x l : 0 < occ x l ↔ x ∈ l.
Proof.
  induction l as [|y l IH]; [rewrite occ_nil; split; [lia|by intros ?%elem_of_nil]|].
  rewrite occ_cons, elem_of_cons, <-IH. case_decide; naive_solver lia.
Qed.

Lemma occ_0 x l : occ x l = 0 ↔ x ∉ l.
Proof. rewrite <-occ_pos. lia. Qed.

Lemma occ_insert x y z l i :
  l !! i = Some z →
  occ x (<[i:=y]> l) + (if decide (x = z) then 1 else 0) =
  occ x l + (if decide (x = y) then 1 else 0).
Proof.
  revert i; induction l as [|w l IH]; intros [|i] Hi; simplify_eq/=.
  - rewrite !occ_cons. lia.
  - rewrite !occ_cons. specialize (IH _ Hi). lia.
Qed.

(** Every element of [l] is one of [ws]: the occurrences add up. *)
Lemma sum_occ ws l :
  NoDup ws → (∀ x, x ∈ l → x ∈ ws) →
  sum_list_with (λ w, occ w l) ws = length l.
Proof.
  intros Hnd. induction l as [|y l IH]; intros Hin.
  - clear Hin Hnd. by induction ws.
  - assert (Hy : y ∈ ws) by set_solver.
    specialize (IH ltac:(set_solver)). simpl. rewrite <-IH.
    clear IH Hin. induction Hnd as [|w ws Hw Hnd IH]; [by apply elem_of_nil in Hy|].
    simpl. rewrite occ_cons. apply elem_of_cons in Hy as [->|Hy].
    + rewrite decide_True by done.
      rewrite (sum_list_with_ext (λ w0, occ w0 (w :: l)) (λ w0, occ w0 l)).
      * lia.
      * intros w' Hw'. rewrite occ_cons, decide_False; [done|set_solver].
    + rewrite decide_False by set_solver. rewrite IH by done. lia.
Qed.
End occ.
