(* ===== verification/Partition.v ===== *)
(** * Key-space partitioning policies

    The bucket tables of [internal/keyby/partition]: the bucket types, the
    shared policy base, the uniform policy, the bucket generation of the even
    policy, and the two consistent-hashing policies.  The policy interface is
    the record [PartitionPolicy] with the laws of [PolicyLaws]. *)

From stdpp Require Import prelude gmap strings list sorting.
From Stdlib Require Import ZArith Lia.
From S2P Require Import Prelude.

(** ** Buckets *)

(** [partition.Bucket]; a [[]*Bucket] is a list of [option Bucket], [None]
    being the nil pointer [make] leaves.  No two entries of a table point to
    the same bucket: every store of the code allocates. *)
Record Bucket := MkBucket { Bucket_WorkerID : Z }.

(** [partition.BucketV2]; the [Map] is nil or a key-to-worker map. *)
Record BucketV2 := MkBucketV2 {
  WorkerID : Z;
  Map : option (gmap bytes Z)
}.

#[export] Instance Bucket_eq_dec : EqDecision Bucket.
Proof. solve_decision. Defined.
#[export] Instance BucketV2_eq_dec : EqDecision BucketV2.
Proof. solve_decision. Defined.

(** Zero value of a [BucketV2]. *)
Definition BucketV2_zero : BucketV2 := MkBucketV2 0 None.

(** [constant.BucketIdxSize]. *)
Definition BucketIdxSize : Z := 4.

(** [MaxSupportedBuckets]: one bucket index is kept back so that the range
    end [bucketIdx+1] of a bucket never overflows the 4-byte field. *)
Definition MaxSupportedBuckets : res Z :=
  r ← (if (BucketIdxSize =? 4)%Z then Ok (2 ^ 32)%Z
       else Crash (Fatal "Unsupported bucket idx size"));
  Ok (r - 1)%Z.

(** [PartitionPolicyBase] and its constructor (the config's [NumBuckets]). *)
Record PartitionPolicyBase := MkPolicyBase { NumBuckets : Z }.

Definition NewPartitionPolicyBase (numBuckets : Z) : res PartitionPolicyBase :=
  fatal_if (numBuckets <=? 0)%Z "Invalid number of buckets";;
  m ← MaxSupportedBuckets;
  fatal_if (m <? numBuckets)%Z
    "Configured num of buckets exceeds the maximum supported value";;
  Ok (MkPolicyBase numBuckets).

(** ** Bucket owner changes

    [map[source worker]map[dest worker][]bucket indices]. *)

Abbreviation OwnerChanges := (gmap Z (gmap Z (list nat))) (only parsing).

Definition get_changes (ch : OwnerChanges) (s d : Z) : list nat :=
  default [] (default ∅ (ch !! s) !! d).

(** The two statements that record one movement: create the inner map when it
    is missing, then append. *)
Definition record_change (ch : OwnerChanges) (s d : Z) (i : nat) : OwnerChanges :=
  let ch' := match ch !! s with Some _ => ch | None => <[s:=∅]> ch end in
  let inner := default ∅ (ch' !! s) in
  <[s:=<[d:=default [] (inner !! d) ++ [i]]> inner]> ch'.

(** The loop over [oldBuckets]; [own] reads a bucket's worker (it panics on a
    nil [*Bucket]). *)
Fixpoint owner_changes_loop {B} (own : B → res Z) (i : nat)
    (oldBuckets newBuckets : list B) (ch : OwnerChanges) : res OwnerChanges :=
  match oldBuckets with
  | [] => Ok ch
  | ob :: old' =>
      o ← own ob;
      nb ← idx newBuckets i;
      n ← own nb;
      owner_changes_loop own (S i) old' newBuckets
        (if (o =? n)%Z then ch else record_change ch o n i)
  end.

Definition deref_WorkerID (b : option Bucket) : res Z :=
  match b with Some b => Ok (Bucket_WorkerID b) | None => Crash Panic end.

(** [PartitionPolicyBase.computeBucketOwnerChanges]. *)
Definition computeBucketOwnerChanges (oldBuckets newBuckets : list (option Bucket))
    : res OwnerChanges :=
  owner_changes_loop deref_WorkerID 0 oldBuckets newBuckets ∅.

(** The same loop written out in the V2 entry points. *)
Definition ownerChangesV2 (oldBuckets newBuckets : list BucketV2)
    : res OwnerChanges :=
  owner_changes_loop (λ b, Ok (WorkerID b)) 0 oldBuckets newBuckets ∅.

(** ** The interface of a policy *)

Record PartitionPolicy := {
  GenerateBuckets : list Z → res (list (option Bucket));
  RePartition : list Z → list (option Bucket) →
    res (list (option Bucket) * OwnerChanges);
  GenerateBucketsV2 : list Z → res (list BucketV2);
  RePartitionV2 : list Z → list BucketV2 → res (list BucketV2 * OwnerChanges)
}.

(** ** Uniform policy, and bucket generation of the even policy *)

(** [for i, workerID := range workers { ... }]: worker [i] gets [base] buckets,
    one more for [i < rem], starting where the previous one ended. *)
Fixpoint assign_ranges {B} (mk : Z → B) (base rem i start : nat)
    (workers : list Z) (buckets : list B) : res (list B) :=
  match workers with
  | [] => Ok buckets
  | workerID :: workers' =>
      let size := if i <? rem then base + 1 else base in
      buckets' ← fill buckets start size (mk workerID);
      assign_ranges mk base rem (S i) (start + size) workers' buckets'
  end.

Definition generate_ranges {B} (zero : B) (mk : Z → B) (nb : Z)
    (workers : list Z) : res (list B) :=
  fatal_if (length workers =? 0) "No worker to generate buckets";;
  fatal_if (nb <? Z.of_nat (length workers))%Z
    "Number of buckets is less than number of workers";;
  buckets ← go_make zero nb;
  let total := Z.to_nat nb in
  let n := length workers in
  assign_ranges mk (total `div` n) (total `mod` n) 0 0 workers buckets.

Definition mkBucket (w : Z) : option Bucket := Some (MkBucket w).
Definition mkBucketV2 (w : Z) : BucketV2 := MkBucketV2 w None.

Definition uniform_GenerateBuckets (p : PartitionPolicyBase) (workers : list Z)
    : res (list (option Bucket)) :=
  generate_ranges None mkBucket (NumBuckets p) workers.

Definition uniform_GenerateBucketsV2 (p : PartitionPolicyBase) (workers : list Z)
    : res (list BucketV2) :=
  generate_ranges BucketV2_zero mkBucketV2 (NumBuckets p) workers.

(** The guards shared by the [RePartition] entry points.  A nil [oldBuckets]
    has length 0, which differs from the positive [NumBuckets]. *)
Definition repartition_guard {B} (p : PartitionPolicyBase)
    (updatedWorkers : list Z) (oldBuckets : list B) : res unit :=
  fatal_if (length updatedWorkers =? 0) "New worker list invalid";;
  fatal_if (negb (Z.of_nat (length oldBuckets) =? NumBuckets p)%Z)
    "Existing bucket list invalid".

Definition uniform_RePartition (p : PartitionPolicyBase)
    (updatedWorkers : list Z) (oldBuckets : list (option Bucket))
    : res (list (option Bucket) * OwnerChanges) :=
  repartition_guard p updatedWorkers oldBuckets;;
  newBuckets ← uniform_GenerateBuckets p updatedWorkers;
  ch ← computeBucketOwnerChanges oldBuckets newBuckets;
  Ok (newBuckets, ch).

Definition uniform_RePartitionV2 (p : PartitionPolicyBase)
    (updatedWorkers : list Z) (oldBuckets : list BucketV2)
    : res (list BucketV2 * OwnerChanges) :=
  repartition_guard p updatedWorkers oldBuckets;;
  newBuckets ← uniform_GenerateBucketsV2 p updatedWorkers;
  ch ← ownerChangesV2 oldBuckets newBuckets;
  Ok (newBuckets, ch).

Definition UniformPartitionPolicy (p : PartitionPolicyBase) : PartitionPolicy := {|
  GenerateBuckets := uniform_GenerateBuckets p;
  RePartition := uniform_RePartition p;
  GenerateBucketsV2 := uniform_GenerateBucketsV2 p;
  RePartitionV2 := uniform_RePartitionV2 p
|}.

Definition even_GenerateBuckets (p : PartitionPolicyBase) (workers : list Z)
    : res (list (option Bucket)) :=
  generate_ranges None mkBucket (NumBuckets p) workers.

Definition even_GenerateBucketsV2 (p : PartitionPolicyBase) (workers : list Z)
    : res (list BucketV2) :=
  generate_ranges BucketV2_zero mkBucketV2 (NumBuckets p) workers.

(** ** Consistent-hashing policies *)

(** [hash.HashFunc]: murmur3 is a third-party package, so a hash function is
    any function from byte strings to 64-bit values. *)
Record HashFunc := MkHashFunc { Hash : bytes → Z }.

Definition hash_ok (h : HashFunc) : Prop := ∀ b, is_u64 (Hash h b).

Record Token := MkToken {
  HashValue : Z;
  BucketIdx : nat;
  Token_WorkerID : Z
}.

#[export] Instance Token_eq_dec : EqDecision Token.
Proof. solve_decision. Defined.

(** The [less] function the code gives to [sort.Slice]. *)
Definition token_less (t1 t2 : Token) : bool :=
  if BucketIdx t1 =? BucketIdx t2 then (HashValue t1 <? HashValue t2)%Z
  else BucketIdx t1 <? BucketIdx t2.

Definition token_le (t1 t2 : Token) : Prop := token_less t2 t1 = false.

(** [sort.Slice] orders its slice by [less] and may place equal elements in
    any order: any function with these two laws is a behaviour of it. *)
Class SortTokens := {
  sort_tokens : list Token → list Token;
  sort_tokens_perm : ∀ l, sort_tokens l ≡ₚ l;
  sort_tokens_sorted : ∀ l, Sorted token_le (sort_tokens l)
}.

(** The third loop over the tokens: [tokens[k]] owns the buckets after it up
    to and including the next token's bucket. *)
Fixpoint assign_tokens {B} (mk : Z → B) (tokens : list Token) (buckets : list B)
    : res (list B) :=
  match tokens with
  | t1 :: ((t2 :: _) as rest) =>
      buckets' ← fill buckets (BucketIdx t1 + 1)
                   (BucketIdx t2 + 1 - (BucketIdx t1 + 1))
                   (mk (Token_WorkerID t1));
      assign_tokens mk rest buckets'
  | _ => Ok buckets
  end.

(** From the unsorted tokens to the bucket slice. *)
Definition buckets_of_tokens `{SortTokens} {B} (zero : B) (mk : Z → B) (nb : Z)
    (unsorted : list Token) : res (list B) :=
  let tokens := sort_tokens unsorted in
  buckets ← go_make zero nb;
  lastT ← (match last tokens with Some t => Ok t | None => Crash Panic end);
  let owner := Token_WorkerID lastT in
  buckets ← fill buckets (BucketIdx lastT + 1)
              (Z.to_nat nb - (BucketIdx lastT + 1)) (mk owner);
  firstT ← idx tokens 0;
  buckets ← fill buckets 0 (BucketIdx firstT + 1) (mk owner);
  assign_tokens mk tokens buckets.

Definition hash_guard (nb : Z) (workers : list Z) : res unit :=
  fatal_if (length workers =? 0) "No worker to generate tokens";;
  fatal_if (nb <? Z.of_nat (length workers))%Z
    "Number of buckets is less than number of workers".

Definition mk_token (nb : Z) (workerID hashValue : Z) : Token :=
  MkToken hashValue (Z.to_nat (hashValue mod nb)) workerID.

Section HashPolicies.
Context `{SortTokens}.
(** [varint.MarshalUint16] of the mus-go package: the bytes of a worker id. *)
Variable marshalUint16 : Z → bytes.

(** [HashPartitionPolicy]: a list of hash functions, one token each. *)
Record HashPartitionPolicy := MkHashPolicy {
  hp_base : PartitionPolicyBase;
  HashFuncs : list HashFunc
}.

Definition hash_tokens (hp : HashPartitionPolicy) (workers : list Z) : list Token :=
  workers ≫= λ workerID,
    (λ h, mk_token (NumBuckets (hp_base hp)) workerID
            (Hash h (marshalUint16 workerID))) <$> HashFuncs hp.

Definition hash_GenerateBuckets (hp : HashPartitionPolicy) (workers : list Z)
    : res (list (option Bucket)) :=
  hash_guard (NumBuckets (hp_base hp)) workers;;
  buckets_of_tokens None mkBucket (NumBuckets (hp_base hp)) (hash_tokens hp workers).

Definition hash_GenerateBucketsV2 (hp : HashPartitionPolicy) (workers : list Z)
    : res (list BucketV2) :=
  hash_guard (NumBuckets (hp_base hp)) workers;;
  buckets_of_tokens BucketV2_zero mkBucketV2 (NumBuckets (hp_base hp))
    (hash_tokens hp workers).

Definition hash_RePartition (hp : HashPartitionPolicy) (updatedWorkers : list Z)
    (oldBuckets : list (option Bucket))
    : res (list (option Bucket) * OwnerChanges) :=
  repartition_guard (hp_base hp) updatedWorkers oldBuckets;;
  newBuckets ← hash_GenerateBuckets hp updatedWorkers;
  ch ← computeBucketOwnerChanges oldBuckets newBuckets;
  Ok (newBuckets, ch).

Definition hash_RePartitionV2 (hp : HashPartitionPolicy) (updatedWorkers : list Z)
    (oldBuckets : list BucketV2) : res (list BucketV2 * OwnerChanges) :=
  repartition_guard (hp_base hp) updatedWorkers oldBuckets;;
  newBuckets ← hash_GenerateBucketsV2 hp updatedWorkers;
  ch ← ownerChangesV2 oldBuckets newBuckets;
  Ok (newBuckets, ch).

(** [HashPartitionPolicyV2]: one hash function; token [i] of a worker hashes
    the 12-byte buffer made of the worker's own hash and [i], both little
    endian. *)
Record HashPartitionPolicyV2 := MkHashPolicyV2 {
  hp2_base : PartitionPolicyBase;
  hp2_HashFunc : HashFunc;
  NumTokens : nat
}.

Definition le_encode (n : nat) (z : Z) : bytes := reverse (be_encode n z).

Definition hash_tokensV2 (hp : HashPartitionPolicyV2) (workers : list Z)
    : list Token :=
  workers ≫= λ workerID,
    let h1 := Hash (hp2_HashFunc hp) (marshalUint16 workerID) in
    (λ i, mk_token (NumBuckets (hp2_base hp)) workerID
            (Hash (hp2_HashFunc hp)
               (le_encode 8 h1 ++ le_encode 4 (u32 (Z.of_nat i)))))
      <$> seq 0 (NumTokens hp).

Definition hash2_GenerateBuckets (hp : HashPartitionPolicyV2) (workers : list Z)
    : res (list (option Bucket)) :=
  hash_guard (NumBuckets (hp2_base hp)) workers;;
  buckets_of_tokens None mkBucket (NumBuckets (hp2_base hp))
    (hash_tokensV2 hp workers).

Definition hash2_GenerateBucketsV2 (hp : HashPartitionPolicyV2) (workers : list Z)
    : res (list BucketV2) :=
  hash_guard (NumBuckets (hp2_base hp)) workers;;
  buckets_of_tokens BucketV2_zero mkBucketV2 (NumBuckets (hp2_base hp))
    (hash_tokensV2 hp workers).

Definition hash2_RePartition (hp : HashPartitionPolicyV2)
    (updatedWorkers : list Z) (oldBuckets : list (option Bucket))
    : res (list (option Bucket) * OwnerChanges) :=
  repartition_guard (hp2_base hp) updatedWorkers oldBuckets;;
  newBuckets ← hash2_GenerateBuckets hp updatedWorkers;
  ch ← computeBucketOwnerChanges oldBuckets newBuckets;
  Ok (newBuckets, ch).

Definition hash2_RePartitionV2 (hp : HashPartitionPolicyV2)
    (updatedWorkers : list Z) (oldBuckets : list BucketV2)
    : res (list BucketV2 * OwnerChanges) :=
  repartition_guard (hp2_base hp) updatedWorkers oldBuckets;;
  newBuckets ← hash2_GenerateBucketsV2 hp updatedWorkers;
  ch ← ownerChangesV2 oldBuckets newBuckets;
  Ok (newBuckets, ch).

(** [NewHashPartitionPolicy]: validation of the token count against the
    seeds, one murmur hash per seed. *)
Definition NewHashPartitionPolicy (murmur : Z → HashFunc) (hashFuncType : string)
    (numTokens : Z) (seeds : list Z) (numBuckets : Z) : res HashPartitionPolicy :=
  fatal_if (numTokens <=? 0)%Z "Invalid number of tokens";;
  fatal_if (negb (numTokens =? Z.of_nat (length seeds))%Z)
    "Number of tokens does not match number of seeds";;
  fatal_if (negb (bool_decide (hashFuncType = "murmurhash")))
    "Unsupported hash function type";;
  base ← NewPartitionPolicyBase numBuckets;
  Ok (MkHashPolicy base (murmur <$> take (Z.to_nat numTokens) seeds)).

Definition NewHashPartitionPolicyV2 (murmur : Z → HashFunc) (hashFuncType : string)
    (numTokens : Z) (seeds : list Z) (numBuckets : Z) : res HashPartitionPolicyV2 :=
  fatal_if (numTokens <=? 0)%Z "Invalid number of tokens";;
  fatal_if (negb (bool_decide (hashFuncType = "murmurhash")))
    "Unsupported hash function type";;
  seed ← (match seeds with
          | s :: _ => Ok s
          | [] => Crash (Fatal "No hash seeds provided for murmurhash")
          end);
  base ← NewPartitionPolicyBase numBuckets;
  Ok (MkHashPolicyV2 base (murmur seed) (Z.to_nat numTokens)).

Definition HashPolicy (hp : HashPartitionPolicy) : PartitionPolicy := {|
  GenerateBuckets := hash_GenerateBuckets hp;
  RePartition := hash_RePartition hp;
  GenerateBucketsV2 := hash_GenerateBucketsV2 hp;
  RePartitionV2 := hash_RePartitionV2 hp
|}.

Definition HashPolicyV2 (hp : HashPartitionPolicyV2) : PartitionPolicy := {|
  GenerateBuckets := hash2_GenerateBuckets hp;
  RePartition := hash2_RePartition hp;
  GenerateBucketsV2 := hash2_GenerateBucketsV2 hp;
  RePartitionV2 := hash2_RePartitionV2 hp
|}.
End HashPolicies.

(** ** Owner changes: the recorded movements are exactly the differences *)

(** [changes_exact old new ch]: bucket [i] is listed under [s] and [d] iff it
    was owned by [s], is owned by [d], and the two differ; every list is in
    increasing order, and no empty list or map is left in the result. *)
Record changes_exact (old new : list Z) (ch : OwnerChanges) : Prop := {
  changes_iff : ∀ s d i,
    i ∈ get_changes ch s d ↔ old !! i = Some s ∧ new !! i = Some d ∧ s ≠ d;
  changes_sorted : ∀ s d, StronglySorted lt (get_changes ch s d);
  changes_nonempty : ∀ s inner, ch !! s = Some inner →
    inner ≠ ∅ ∧ ∀ d l, inner !! d = Some l → l ≠ []
}.

(** Some bucket of [w] goes to [d]. *)
Definition bucket_moved (old new : list Z) (w d : Z) : Prop :=
  ∃ i, old !! i = Some w ∧ new !! i = Some d ∧ w ≠ d.

(** The reported changes list exactly the moves. *)
Lemma changes_moved old new ch w d :
  changes_exact old new ch → (∃ m l, ch !! w = Some m ∧ m !! d = Some l) ↔ bucket_moved old new w d.
Proof.
  intros [Hiff _ Hne]. unfold get_changes in Hiff. split.
  - intros (m & l & Hm & Hl). destruct l as [|i l]; [by destruct (proj2 (Hne w m Hm) d [])|].
    exists i. apply Hiff. rewrite Hm. simpl. rewrite Hl. left.
  - intros (i & Hi%Hiff). destruct (ch !! w) as [m|]; simpl in Hi; [|rewrite lookup_empty in Hi; by apply elem_of_nil in Hi].
    destruct (m !! d) as [l|] eqn:Hl; [eauto|by apply elem_of_nil in Hi].
Qed.

Lemma get_record_change ch s d i s' d' :
  get_changes (record_change ch s d i) s' d' =
  if decide (s = s' ∧ d = d') then get_changes ch s d ++ [i]
  else get_changes ch s' d'.
Proof.
  unfold get_changes, record_change.
  assert (Hin : default ∅ ((match ch !! s with Some _ => ch
                            | None => <[s:=∅]> ch end) !! s) = default ∅ (ch !! s)).
  { destruct (ch !! s) eqn:E; [by rewrite E | by rewrite lookup_insert_eq]. }
  rewrite Hin. destruct (decide (s = s')) as [<-|Hne].
  - rewrite lookup_insert_eq. simpl. destruct (decide (d = d')) as [<-|].
    + rewrite lookup_insert_eq. by rewrite decide_True.
    + rewrite lookup_insert_ne by done. by rewrite decide_False by naive_solver.
  - rewrite lookup_insert_ne by done. rewrite decide_False by naive_solver.
    destruct (ch !! s); [done|]. by rewrite lookup_insert_ne.
Qed.

Lemma record_change_nonempty ch s d i :
  (∀ s' inner, ch !! s' = Some inner →
     inner ≠ ∅ ∧ ∀ d' l, inner !! d' = Some l → l ≠ []) →
  ∀ s' inner, record_change ch s d i !! s' = Some inner →
    inner ≠ ∅ ∧ ∀ d' l, inner !! d' = Some l → l ≠ [].
Proof.
  intros Hne s' inner. unfold record_change.
  destruct (decide (s = s')) as [->|Hs].
  - rewrite lookup_insert_eq. intros [= <-]. split; [apply insert_non_empty|].
    intros d' l. destruct (decide (d = d')) as [->|].
    + rewrite lookup_insert_eq. intros [= <-]. by destruct (default _ _).
    + rewrite lookup_insert_ne by done.
      destruct (ch !! s') as [inner|] eqn:Hch; simpl; rewrite ?Hch, ?lookup_insert_eq;
        simpl; [|done]. by apply (Hne s' inner).
  - rewrite lookup_insert_ne by done.
    destruct (ch !! s) eqn:?; [|rewrite lookup_insert_ne by done]; apply Hne.
Qed.

Lemma StronglySorted_snoc (l : list nat) i :
  StronglySorted lt l → Forall (λ j, j < i) l → StronglySorted lt (l ++ [i]).
Proof.
  induction 1 as [|x l Hl IH Hx]; intros Hi; simpl; [repeat constructor|].
  inversion Hi; subst. constructor; [by apply IH|].
  apply Forall_app. split; [done|]. by repeat constructor.
Qed.

(** Recording the movement of bucket [i], the next one of the loop. *)
Lemma changes_exact_snoc old new ch s d :
  length old = length new →
  changes_exact old new ch →
  changes_exact (old ++ [s]) (new ++ [d])
    (if (s =? d)%Z then ch else record_change ch s d (length old)).
Proof.
  intros Hlen [Hiff Hsort Hne].
  assert (Hlt : ∀ s' d' i, i ∈ get_changes ch s' d' → i < length old).
  { intros s' d' i (Ho & _)%Hiff. by eapply lookup_lt_Some. }
  assert (Hsnoc : ∀ s' d' i,
    (old ++ [s]) !! i = Some s' ∧ (new ++ [d]) !! i = Some d' ∧ s' ≠ d' ↔
    i ∈ get_changes ch s' d' ∨ (i = length old ∧ s' = s ∧ d' = d ∧ s ≠ d)).
  { intros s' d' i. rewrite Hiff.
    destruct (Nat.lt_trichotomy i (length old)) as [Hi|[->|Hi]].
    - rewrite !lookup_app_l by lia. naive_solver lia.
    - rewrite lookup_app_r, Nat.sub_diag by lia.
      rewrite (lookup_app_r new), <-Hlen, Nat.sub_diag by lia.
      rewrite (lookup_ge_None_2 old) by lia. naive_solver.
    - rewrite (lookup_ge_None_2 (old ++ [s])) by (rewrite length_app; simpl; lia).
      rewrite (lookup_ge_None_2 old) by lia. naive_solver lia. }
  destruct (Z.eqb_spec s d) as [->|Hsd].
  - split; [|done|done]. intros s' d' i. rewrite Hsnoc. naive_solver.
  - split.
    + intros s' d' i. rewrite Hsnoc, get_record_change.
      case_decide as Hd; [destruct Hd as [-> ->]|]; [|naive_solver].
      rewrite elem_of_app, list_elem_of_singleton. naive_solver.
    + intros s' d'. rewrite get_record_change. case_decide; [|done].
      apply StronglySorted_snoc; [done|]. apply Forall_forall. eauto.
    + by apply record_change_nonempty.
Qed.

Lemma changes_exact_nil : changes_exact [] [] ∅.
Proof.
  split; intros; unfold get_changes in *; rewrite ?lookup_empty in *; simpl in *;
    rewrite ?lookup_empty in *; simpl; [|constructor|done]. set_solver.
Qed.

(** The loop of [computeBucketOwnerChanges] and of the V2 entry points. *)
Lemma owner_changes_loop_spec {B} (own : B → res Z) old new oldW newW :
  mapM (λ b, match own b with Ok w => Some w | _ => None end) old = Some oldW →
  mapM (λ b, match own b with Ok w => Some w | _ => None end) new = Some newW →
  length old = length new →
  ∃ ch, owner_changes_loop own 0 old new ∅ = Ok ch ∧ changes_exact oldW newW ch.
Proof.
  intros Hold Hnew Hlen.
  apply mapM_Some in Hold. apply mapM_Some in Hnew.
  pose proof (Forall2_length _ _ _ Hold). pose proof (Forall2_length _ _ _ Hnew).
  assert (Hgen : ∀ rest restW i ch,
    drop i old = rest → drop i oldW = restW → i ≤ length old →
    changes_exact (take i oldW) (take i newW) ch →
    ∃ ch', owner_changes_loop own i rest new ch = Ok ch' ∧
           changes_exact oldW newW ch').
  { induction rest as [|ob rest IH]; intros restW i ch Hd Hdw Hi Hex; simpl.
    - assert (i = length old) as ->.
      { apply (f_equal length) in Hd. rewrite length_drop in Hd. simpl in Hd. lia. }
      exists ch. split; [done|].
      rewrite !take_ge in Hex by lia. done.
    - assert (Hob : old !! i = Some ob).
      { rewrite <-(Nat.add_0_r i), <-lookup_drop, Hd. done. }
      assert (Hilt : i < length old) by (by eapply lookup_lt_Some).
      destruct (lookup_lt_is_Some_2 new i) as [nb Hnb]; [lia|].
      destruct (Forall2_lookup_l _ _ _ _ _ Hold Hob) as (ow & How & Hown).
      destruct (Forall2_lookup_l _ _ _ _ _ Hnew Hnb) as (nw & Hnw & Hnwn).
      destruct (own ob) as [|]; simplify_eq/=.
      unfold idx. rewrite Hnb. simpl. destruct (own nb) as [|]; simplify_eq/=.
      apply (IH (drop (S i) oldW)); [|done|lia|].
      + rewrite (drop_S _ _ _ Hob) in Hd. by simplify_eq.
      + erewrite !take_S_r by done.
        assert (Hli : i = length (take i oldW)) by (rewrite length_take; lia).
        rewrite Hli at 3.
        apply changes_exact_snoc; [rewrite !length_take; lia|done]. }
  apply (Hgen old oldW 0 ∅); [done|done|lia|]. apply changes_exact_nil.
Qed.

Lemma mapM_WorkerID (l : list BucketV2) :
  mapM (λ b, match Ok (WorkerID b) with Ok w => Some w | _ => None end) l =
  Some (WorkerID <$> l).
Proof. simpl. induction l as [|b l IH]; [done|]. simpl. by rewrite IH. Qed.

Lemma ownerChangesV2_spec old new :
  length old = length new →
  ∃ ch, ownerChangesV2 old new = Ok ch ∧
        changes_exact (WorkerID <$> old) (WorkerID <$> new) ch.
Proof.
  intros. apply owner_changes_loop_spec; [apply mapM_WorkerID..|done].
Qed.

Lemma mapM_mkBucket (ws : list Z) :
  mapM (λ b, match deref_WorkerID b with Ok w => Some w | _ => None end)
    (mkBucket <$> ws) = Some ws.
Proof. apply mapM_Some. induction ws; by constructor. Qed.

Lemma computeBucketOwnerChanges_spec old new :
  length old = length new →
  ∃ ch, computeBucketOwnerChanges (mkBucket <$> old) (mkBucket <$> new) = Ok ch ∧
        changes_exact old new ch.
Proof.
  intros. apply owner_changes_loop_spec; [apply mapM_mkBucket..|].
  by rewrite !length_fmap.
Qed.

(** ** Range assignment: contiguous blocks of almost equal size *)

(** Bucket count of the [i]-th of [n] workers: the first [total mod n] workers
    get one bucket more. *)
Definition share (total n i : nat) : nat :=
  total `div` n + (if i <? total `mod` n then 1 else 0).

(** The reference table: one block per worker, in list order; the [k]-th block
    has length [f k]. *)
Fixpoint blocks {A} (f : nat → nat) (i : nat) (ws : list A) : list A :=
  match ws with
  | [] => []
  | w :: ws => replicate (f i) w ++ blocks f (S i) ws
  end.

Definition range_owners (total : nat) (ws : list Z) : list Z :=
  blocks (share total (length ws)) 0 ws.

Lemma sum_share_from base rem i n :
  sum_list_with (λ k, base + (if k <? rem then 1 else 0)) (seq i n) =
  n * base + (rem `min` (i + n) - rem `min` i).
Proof.
  revert i; induction n as [|n IH]; intros i; simpl; [lia|].
  rewrite IH. destruct (Nat.ltb_spec i rem); lia.
Qed.

Lemma sum_share total n :
  0 < n → sum_list_with (share total n) (seq 0 n) = total.
Proof.
  intros Hn. unfold share. rewrite sum_share_from. simpl.
  pose proof (Nat.mod_upper_bound total n). pose proof (Nat.div_mod_eq total n).
  rewrite Nat.min_l, Nat.min_0_r by lia. lia.
Qed.

Lemma share_pos total n i : 0 < n → n ≤ total → 0 < share total n i.
Proof.
  intros. unfold share.
  assert (0 < total `div` n) by (apply Nat.div_str_pos; lia). lia.
Qed.

(** Any two shares differ by at most one. *)
Lemma share_balanced total n i j : share total n i ≤ share total n j + 1.
Proof. unfold share. repeat case_match; lia. Qed.

Lemma length_blocks {A} f i (ws : list A) :
  length (blocks f i ws) = sum_list_with f (seq i (length ws)).
Proof.
  revert i; induction ws as [|w ws IH]; intros i; simpl; [done|].
  by rewrite length_app, length_replicate, IH.
Qed.

Lemma fmap_blocks {A B} (g : A → B) f i ws :
  g <$> blocks f i ws = blocks f i (g <$> ws).
Proof.
  revert i; induction ws as [|w ws IH]; intros i; csimpl; [done|].
  by rewrite fmap_app, fmap_replicate, IH.
Qed.

Lemma blocks_elem_of {A} f i (ws : list A) x : x ∈ blocks f i ws → x ∈ ws.
Proof.
  revert i; induction ws as [|w ws IH]; intros i; simpl; [done|].
  rewrite elem_of_app, elem_of_replicate. set_solver.
Qed.

Lemma occ_blocks f i (ws : list Z) k w :
  NoDup ws → ws !! k = Some w → occ w (blocks f i ws) = f (i + k).
Proof.
  intros Hnd. revert i k. induction Hnd as [|w' ws Hw Hnd IH]; intros i k Hk; [done|].
  simpl. rewrite occ_app, occ_replicate. destruct k as [|k]; simplify_eq/=.
  - rewrite decide_True, Nat.add_0_r by done.
    assert (occ w (blocks f (S i) ws) = 0) as ->; [|lia].
    apply occ_0. by intros ?%blocks_elem_of.
  - rewrite decide_False; [|by intros ->; apply Hw; eapply list_elem_of_lookup_2].
    rewrite (IH (S i) k Hk). simpl. f_equal. lia.
Qed.

Lemma assign_ranges_spec {B} (mk : Z → B) base rem workers i start buckets :
  start + sum_list_with (λ k, base + (if k <? rem then 1 else 0))
            (seq i (length workers)) = length buckets →
  assign_ranges mk base rem i start workers buckets =
  Ok (take start buckets ++
      blocks (λ k, base + (if k <? rem then 1 else 0)) i (mk <$> workers)).
Proof.
  revert i start buckets.
  induction workers as [|w ws IH]; intros i start buckets Hlen; csimpl in *.
  - rewrite app_nil_r, take_ge by lia. done.
  - assert (Hsz : (if i <? rem then base + 1 else base) =
                  base + (if i <? rem then 1 else 0)) by (case_match; lia).
    rewrite Hsz. simpl in Hlen. rewrite fill_Ok by lia. rewrite bind_Ok, IH.
    + f_equal. rewrite (app_assoc (take start buckets)).
      rewrite take_app_length' by
        (rewrite length_app, length_take, length_replicate; lia).
      by rewrite <-app_assoc.
    + rewrite !length_app, length_take, length_replicate, length_drop. lia.
Qed.

Lemma generate_ranges_spec {B} (zero : B) mk nb ws :
  ws ≠ [] → (Z.of_nat (length ws) ≤ nb)%Z →
  generate_ranges zero mk nb ws = Ok (mk <$> range_owners (Z.to_nat nb) ws).
Proof.
  intros Hws Hnb. assert (Hl : 0 < length ws) by (destruct ws; [done|simpl; lia]).
  unfold generate_ranges.
  rewrite (proj2 (Nat.eqb_neq _ _)), (proj2 (Z.ltb_ge _ _)) by lia.
  unfold fatal_if, go_make. rewrite (proj2 (Z.ltb_ge nb 0)) by lia. rewrite !bind_Ok.
  rewrite assign_ranges_spec; [by rewrite take_0, <-fmap_blocks|].
  rewrite length_replicate. by apply sum_share.
Qed.

(** A successful call satisfied the two guards. *)
Lemma generate_ranges_inv {B} (zero : B) mk nb ws bs :
  generate_ranges zero mk nb ws = Ok bs →
  ws ≠ [] ∧ (Z.of_nat (length ws) ≤ nb)%Z ∧
  bs = mk <$> range_owners (Z.to_nat nb) ws.
Proof.
  intros Hgen. assert (Hguard : ws ≠ [] ∧ (Z.of_nat (length ws) ≤ nb)%Z).
  { unfold generate_ranges in Hgen. inv_res. split; [by destruct ws|].
    by apply Z.ltb_ge. }
  split_and!; [naive_solver..|].
  rewrite generate_ranges_spec in Hgen by naive_solver. naive_solver.
Qed.

Lemma length_range_owners total ws :
  ws ≠ [] → length (range_owners total ws) = total.
Proof.
  intros. unfold range_owners. rewrite length_blocks. apply sum_share.
  by destruct ws; [|simpl; lia].
Qed.

Lemma range_owners_elem_of total ws w : w ∈ range_owners total ws → w ∈ ws.
Proof. apply blocks_elem_of. Qed.

Lemma occ_range_owners total ws k w :
  NoDup ws → ws !! k = Some w →
  occ w (range_owners total ws) = share total (length ws) k.
Proof. apply occ_blocks. Qed.

(** ** Consistent hashing: every bucket belongs to the token before it *)

(** The reference: the owner of bucket [i] is the worker of the last token
    placed strictly before [i] on the ring, going round to the last token of
    all when there is none. *)
Definition ring_token (tokens : list Token) (i : nat) : option Token :=
  match last (filter (λ t, BucketIdx t < i) tokens) with
  | Some t => Some t
  | None => last tokens
  end.

Lemma token_le_spec t1 t2 :
  token_le t1 t2 ↔ BucketIdx t1 < BucketIdx t2 ∨
    BucketIdx t1 = BucketIdx t2 ∧ (HashValue t1 ≤ HashValue t2)%Z.
Proof.
  unfold token_le, token_less. destruct (Nat.eqb_spec (BucketIdx t2) (BucketIdx t1)).
  - rewrite Z.ltb_ge. lia.
  - rewrite Nat.ltb_ge. lia.
Qed.

#[export] Instance token_le_dec : RelDecision token_le.
Proof. intros t1 t2. unfold token_le. apply _. Defined.
#[export] Instance token_le_trans : Transitive token_le.
Proof. intros t1 t2 t3. rewrite !token_le_spec. lia. Qed.
#[export] Instance token_le_total : Total token_le.
Proof. intros t1 t2. rewrite !token_le_spec. lia. Qed.

(** A concrete behaviour of [sort.Slice]. *)
#[export] Instance merge_sort_tokens : SortTokens.
Proof.
  refine {| sort_tokens := merge_sort token_le |}.
  - intros l. apply merge_sort_Permutation.
  - intros l. apply Sorted_merge_sort. apply _.
Defined.

Lemma token_le_bucket t1 t2 : token_le t1 t2 → BucketIdx t1 ≤ BucketIdx t2.
Proof. rewrite token_le_spec. lia. Qed.

Lemma filter_none {A} (P : A → Prop) `{∀ x, Decision (P x)} (l : list A) :
  Forall (λ x, ¬ P x) l → filter P l = [].
Proof. induction 1; [done|]. by rewrite filter_cons_False. Qed.

Lemma filter_all {A} (P : A → Prop) `{∀ x, Decision (P x)} (l : list A) :
  Forall P l → filter P l = l.
Proof. induction 1; [done|]. rewrite filter_cons_True by done. by f_equal. Qed.

Lemma last_sorted_max ts t tl :
  Sorted token_le ts → last ts = Some tl → t ∈ ts → token_le t tl.
Proof.
  intros Hs%Sorted_StronglySorted Hl Hin; [|apply _].
  apply last_Some in Hl as [l' ->].
  apply elem_of_app in Hin as [Hin|Hin%list_elem_of_singleton].
  - apply StronglySorted_app_1_elem_of with (l1 := l') (l2 := [tl]); [done..|set_solver].
  - subst. apply token_le_spec. lia.
Qed.

(** The third loop: the buckets after the first token up to the last one. *)
Lemma assign_tokens_spec {B} (mk : Z → B) t ts bs tl :
  Sorted token_le (t :: ts) →
  Forall (λ t, BucketIdx t < length bs) (t :: ts) →
  last (t :: ts) = Some tl →
  ∃ bs', assign_tokens mk (t :: ts) bs = Ok bs' ∧ length bs' = length bs ∧
    ∀ i, bs' !! i =
      if bool_decide (BucketIdx t < i ≤ BucketIdx tl)
      then mk ∘ Token_WorkerID <$> last (filter (λ t, BucketIdx t < i) (t :: ts))
      else bs !! i.
Proof.
  revert t bs. induction ts as [|t2 ts IH]; intros t bs Hs Hin Hl.
  - simplify_eq/=. exists bs. split_and!; [done..|].
    intros i. rewrite bool_decide_false by lia. done.
  - inversion Hs as [|?? Hs2 Hhd]; subst. inversion Hhd as [|?? Hle]; subst.
    apply token_le_bucket in Hle. inversion Hin as [|?? Ht Hin2]; subst.
    inversion Hin2 as [|?? Ht2 _]; subst.
    cbn [assign_tokens].
    destruct (fill_total bs (BucketIdx t + 1)
                (BucketIdx t2 + 1 - (BucketIdx t + 1)) (mk (Token_WorkerID t)))
      as [bs1 Hfill]; [lia|].
    pose proof (fill_length _ _ _ _ _ Hfill) as Hlen1.
    rewrite Hfill, bind_Ok.
    destruct (IH t2 bs1) as (bs' & Hbs' & Hlen & Hlook); [done|by rewrite Hlen1|done|].
    exists bs'. split_and!; [done|by rewrite Hlen|]. intros i. rewrite Hlook.
    rewrite (fill_lookup _ _ _ _ _ i Hfill).
    assert (Htl : BucketIdx t2 ≤ BucketIdx tl).
    { rewrite last_cons_cons in Hl. apply token_le_bucket.
      eapply last_sorted_max; [done..|set_solver]. }
    destruct (decide (BucketIdx t2 < i ≤ BucketIdx tl)) as [Hi|Hi].
    + rewrite !bool_decide_true by lia. f_equal.
      rewrite (filter_cons_True _ t), (filter_cons_True _ t2) by lia.
      rewrite (last_cons_cons t). done.
    + rewrite (bool_decide_false (BucketIdx t2 < i ≤ _)) by done.
      destruct (decide (BucketIdx t < i ≤ BucketIdx t2)) as [Hi2|Hi2].
      * rewrite !bool_decide_true by lia.
        rewrite filter_cons_True by lia. rewrite filter_none; [done|].
        apply Sorted_StronglySorted in Hs2; [|apply _].
        inversion Hs2 as [|?? _ Hall]; subst. constructor; [lia|].
        eapply Forall_impl; [done|]. intros x Hx%token_le_bucket. lia.
      * rewrite !bool_decide_false by lia. done.
Qed.

Lemma Sorted_filter_tokens (P : Token → Prop) `{∀ x, Decision (P x)} ts :
  Sorted token_le ts → Sorted token_le (filter P ts).
Proof.
  intros Hs%Sorted_StronglySorted; [|apply _].
  apply StronglySorted_Sorted. induction Hs as [|t ts Hs IH Hall]; [constructor|].
  rewrite filter_cons. case_decide; [|done]. constructor; [done|].
  apply Forall_forall. intros x [_ Hx]%list_elem_of_filter.
  rewrite Forall_forall in Hall. by apply Hall.
Qed.

Lemma buckets_of_tokens_spec `{SortTokens} {B} (zero : B) mk nb unsorted :
  unsorted ≠ [] → (0 ≤ nb)%Z →
  Forall (λ t, BucketIdx t < Z.to_nat nb) unsorted →
  ∃ bs, buckets_of_tokens zero mk nb unsorted = Ok bs ∧
    length bs = Z.to_nat nb ∧
    ∀ i, i < Z.to_nat nb →
      bs !! i = mk ∘ Token_WorkerID <$> ring_token (sort_tokens unsorted) i.
Proof.
  intros Hne Hnb Hall. unfold buckets_of_tokens.
  pose proof (sort_tokens_perm unsorted) as Hperm.
  pose proof (sort_tokens_sorted unsorted) as Hsort.
  assert (Hall' : Forall (λ t, BucketIdx t < Z.to_nat nb) (sort_tokens unsorted))
    by (by rewrite Hperm).
  destruct (sort_tokens unsorted) as [|t ts] eqn:Ets.
  { apply Permutation_nil_l in Hperm. done. }
  destruct (last (t :: ts)) as [tl|] eqn:Hlast; [|by apply last_None in Hlast].
  assert (Hin_tl : tl ∈ t :: ts).
  { apply last_Some in Hlast as [l' ->]. set_solver. }
  rewrite Forall_forall in Hall'.
  pose proof (Hall' tl Hin_tl) as Htl. pose proof (Hall' t ltac:(set_solver)) as Ht.
  unfold go_make. rewrite (proj2 (Z.ltb_ge _ _)) by lia. rewrite !bind_Ok.
  destruct (fill_total (replicate (Z.to_nat nb) zero) (BucketIdx tl + 1)
    (Z.to_nat nb - (BucketIdx tl + 1)) (mk (Token_WorkerID tl))) as [b1 Hb1].
  { rewrite length_replicate. lia. }
  rewrite Hb1, bind_Ok. cbn [idx lookup list_lookup]. rewrite bind_Ok.
  pose proof (fill_length _ _ _ _ _ Hb1) as Hl1. rewrite length_replicate in Hl1.
  destruct (fill_total b1 0 (BucketIdx t + 1) (mk (Token_WorkerID tl))) as [b2 Hb2].
  { lia. }
  rewrite Hb2, bind_Ok. pose proof (fill_length _ _ _ _ _ Hb2) as Hl2.
  destruct (assign_tokens_spec mk t ts b2 tl) as (bs & Hbs & Hlen & Hlook); [done| |done|].
  { apply Forall_forall. intros x Hx. rewrite Hl2, Hl1. by apply Hall'. }
  exists bs. split_and!; [done|congruence|]. intros i Hi. rewrite Hlook.
  assert (Hmax : ∀ x, x ∈ t :: ts → BucketIdx x ≤ BucketIdx tl).
  { intros x Hx. apply token_le_bucket. by eapply last_sorted_max. }
  assert (Hmin : Forall (λ x, BucketIdx t ≤ BucketIdx x) (t :: ts)).
  { apply Sorted_StronglySorted in Hsort; [|apply _].
    inversion Hsort as [|?? _ Hh]; subst. constructor; [done|].
    eapply Forall_impl; [done|]. intros ? ?%token_le_bucket. done. }
  unfold ring_token. case_bool_decide as Hcase.
  - destruct (last (filter _ (t :: ts))) as [x|] eqn:Hf; [done|].
    apply last_None in Hf. rewrite filter_cons_True in Hf by lia. done.
  - rewrite (fill_lookup _ _ _ _ _ i Hb2), (fill_lookup _ _ _ _ _ i Hb1).
    destruct (decide (i ≤ BucketIdx t)).
    + rewrite bool_decide_true by lia. rewrite filter_none, Hlast; [done|].
      eapply Forall_impl; [exact Hmin|]. simpl. intros. lia.
    + rewrite (bool_decide_false (0 ≤ i < _)) by lia.
      rewrite bool_decide_true by lia.
      rewrite filter_all, Hlast; [done|]. apply Forall_forall.
      intros x ?%Hmax. lia.
Qed.

(** Distinct hash values order the tokens strictly. *)
Lemma token_le_antisym ts t1 t2 :
  NoDup (HashValue <$> ts) → t1 ∈ ts → t2 ∈ ts →
  token_le t1 t2 → token_le t2 t1 → t1 = t2.
Proof.
  intros Hnd [i1 H1]%list_elem_of_lookup [i2 H2]%list_elem_of_lookup.
  rewrite !token_le_spec. intros Hle1 Hle2.
  assert (HashValue t1 = HashValue t2) as Heq by lia.
  assert (i1 = i2) as ->; [|naive_solver].
  apply (NoDup_lookup (HashValue <$> ts) i1 i2 (HashValue t1));
    [done|by rewrite list_lookup_fmap, H1|].
  rewrite list_lookup_fmap, H2. simpl. by rewrite Heq.
Qed.

Lemma last_filter_max (P : Token → Prop) `{∀ x, Decision (P x)} ts t :
  Sorted token_le ts → last (filter P ts) = Some t →
  t ∈ ts ∧ P t ∧ ∀ t', t' ∈ ts → P t' → token_le t' t.
Proof.
  intros Hs Hl. assert (Hin : t ∈ filter P ts).
  { apply last_Some in Hl as [l' ->]. set_solver. }
  apply list_elem_of_filter in Hin as [HP Hin]. split_and!; [done..|].
  intros t' Hin' HP'. apply (last_sorted_max (filter P ts));
    [by apply Sorted_filter_tokens|done|by apply list_elem_of_filter].
Qed.

(** Order-free description of the ring owner. *)
Lemma ring_token_inv ts i t :
  Sorted token_le ts → ring_token ts i = Some t →
  t ∈ ts ∧
  ((BucketIdx t < i ∧ ∀ t', t' ∈ ts → BucketIdx t' < i → token_le t' t) ∨
   ((∀ t', t' ∈ ts → i ≤ BucketIdx t') ∧ ∀ t', t' ∈ ts → token_le t' t)).
Proof.
  unfold ring_token. intros Hs.
  destruct (last (filter _ ts)) as [x|] eqn:Hf; intros Ht.
  - simplify_eq. apply last_filter_max in Hf; naive_solver.
  - apply last_None in Hf. split.
    { apply last_Some in Ht as [l' ->]. set_solver. }
    right. split; [|by intros; eapply last_sorted_max].
    intros t' Hin. destruct (decide (BucketIdx t' < i)); [|lia].
    assert (t' ∈ filter (λ t, BucketIdx t < i) ts) as Hin' by by apply list_elem_of_filter.
    rewrite Hf in Hin'. set_solver.
Qed.

(** Adding tokens moves a bucket only to a worker of an added token. *)
Lemma ring_token_superset T T' ts ts' i t t' :
  Sorted token_le ts → Sorted token_le ts' → ts ≡ₚ T → ts' ≡ₚ T ++ T' →
  NoDup (HashValue <$> (T ++ T')) →
  ring_token ts i = Some t → ring_token ts' i = Some t' → t = t' ∨ t' ∈ T'.
Proof.
  intros Hs Hs' Hp Hp' Hnd Ht Ht'.
  apply ring_token_inv in Ht as [Hin Ht]; [|done].
  apply ring_token_inv in Ht' as [Hin' Ht']; [|done].
  setoid_rewrite Hp in Ht. setoid_rewrite Hp' in Ht'.
  rewrite Hp in Hin. rewrite Hp' in Hin'. setoid_rewrite elem_of_app in Ht'.
  apply elem_of_app in Hin' as [Hin'|?]; [|by right]. left.
  eapply token_le_antisym; [exact Hnd|set_solver|set_solver| |].
  - destruct Ht' as [[? Hm]|[Hno Hm]]; [|by apply Hm; left]. apply Hm; [by left|].
    destruct Ht as [[??]|[Hno _]]; [done|]. specialize (Hno t' Hin'). lia.
  - destruct Ht as [[? Hm]|[Hno Hm]]; [|by apply Hm]. apply Hm; [done|].
    destruct Ht' as [[??]|[Hno _]]; [done|]. specialize (Hno t (or_introl Hin)). lia.
Qed.

Lemma buckets_of_tokens_consistent `{SortTokens} nb T T' bs bs' i w w' :
  (0 ≤ nb)%Z → T ≠ [] → Forall (λ t, BucketIdx t < Z.to_nat nb) (T ++ T') →
  NoDup (HashValue <$> (T ++ T')) →
  buckets_of_tokens BucketV2_zero mkBucketV2 nb T = Ok bs →
  buckets_of_tokens BucketV2_zero mkBucketV2 nb (T ++ T') = Ok bs' →
  (WorkerID <$> bs) !! i = Some w → (WorkerID <$> bs') !! i = Some w' →
  w ≠ w' → w' ∈ Token_WorkerID <$> T'.
Proof.
  intros Hnb Hne Hall Hnd Hbs Hbs' Hw Hw' Hww.
  pose proof Hall as [Hall1 Hall2]%Forall_app.
  destruct (buckets_of_tokens_spec BucketV2_zero mkBucketV2 nb T)
    as (b & Hb & Hl & Hlook); [done..|].
  destruct (buckets_of_tokens_spec BucketV2_zero mkBucketV2 nb (T ++ T'))
    as (b' & Hb' & Hl' & Hlook'); [by destruct T|done..|].
  rewrite Hbs in Hb. rewrite Hbs' in Hb'. injection Hb as <-. injection Hb' as <-.
  rewrite list_lookup_fmap in Hw, Hw'.
  assert (i < Z.to_nat nb) as Hi.
  { rewrite <-Hl. apply lookup_lt_is_Some. destruct (bs !! i); [eauto|discriminate]. }
  rewrite Hlook in Hw by done. rewrite Hlook' in Hw' by done.
  destruct (ring_token (sort_tokens T) i) as [t|] eqn:Ht; [|discriminate].
  destruct (ring_token (sort_tokens (T ++ T')) i) as [t'|] eqn:Ht'; [|discriminate].
  simplify_eq/=.
  destruct (ring_token_superset T T' (sort_tokens T) (sort_tokens (T ++ T')) i t t')
    as [->|Hin]; auto using sort_tokens_sorted, sort_tokens_perm; [done|].
  by apply list_elem_of_fmap_2.
Qed.

(** The table of a ring as a list of owners. *)
Definition ring_owners (tokens : list Token) (nb : nat) : list Z :=
  (λ i, default 0%Z (Token_WorkerID <$> ring_token tokens i)) <$> seq 0 nb.

Lemma buckets_of_tokens_owners `{SortTokens} {B} (zero : B) mk nb T :
  T ≠ [] → (0 ≤ nb)%Z → Forall (λ t, BucketIdx t < Z.to_nat nb) T →
  buckets_of_tokens zero mk nb T =
  Ok (mk <$> ring_owners (sort_tokens T) (Z.to_nat nb)).
Proof.
  intros Hne Hnb Hall.
  destruct (buckets_of_tokens_spec zero mk nb T) as (bs & Hbs & Hl & Hlook); [done..|].
  rewrite Hbs. f_equal. apply list_eq_same_length with (n := Z.to_nat nb);
    [unfold ring_owners; by rewrite !length_fmap, length_seq|done|].
  intros i x y Hi Hx Hy. rewrite Hlook in Hx by done.
  unfold ring_owners in Hy. rewrite !list_lookup_fmap, lookup_seq_lt in Hy by done.
  simpl in Hy. destruct (ring_token _ i); simplify_eq/=. done.
Qed.

Lemma ring_owners_elem_of T nb w :
  T ≠ [] → w ∈ ring_owners T nb → w ∈ Token_WorkerID <$> T.
Proof.
  intros Hne (i & -> & _)%list_elem_of_fmap.
  assert (∃ t, ring_token T i = Some t ∧ t ∈ T) as (t & -> & Hin);
    [|simpl; by apply list_elem_of_fmap_2].
  unfold ring_token. destruct (last (filter _ T)) as [t|] eqn:Hf.
  - exists t. split; [done|]. apply last_Some_elem_of in Hf.
    by apply list_elem_of_filter in Hf as [_ ?].
  - destruct (last T) as [t|] eqn:Hl; [|by apply last_None in Hl].
    exists t. split; [done|]. by apply last_Some_elem_of.
Qed.

(** ** The laws every policy keeps

    What [PartitionTable] and [KeyLookupTable] rely on: a generated or
    repartitioned table has [NumBuckets] entries owned by the given workers,
    the recorded movements are exactly the differences between the tables,
    and the pointer-based (V1) entry points agree with the V2 ones. *)
Definition v1_of_v2 (bs : list BucketV2) : list (option Bucket) :=
  (λ b, mkBucket (WorkerID b)) <$> bs.

Class PolicyLaws (P : PartitionPolicy) (nb : nat) : Prop := {
  generate_shape : ∀ ws bs, GenerateBucketsV2 P ws = Ok bs →
    ws ≠ [] ∧ length bs = nb ∧ Forall (λ b, WorkerID b ∈ ws ∧ Map b = None) bs;
  repartition_shape : ∀ ws old new ch,
    length old = nb → RePartitionV2 P ws old = Ok (new, ch) →
    ws ≠ [] ∧ length new = nb ∧ Forall (λ b, WorkerID b ∈ ws) new ∧
    changes_exact (WorkerID <$> old) (WorkerID <$> new) ch;
  generate_v1_v2 : ∀ ws, GenerateBuckets P ws =
    match GenerateBucketsV2 P ws with
    | Ok bs => Ok (v1_of_v2 bs) | Crash c => Crash c
    end;
  repartition_v1_v2 : ∀ ws (old : list Z),
    RePartition P ws (mkBucket <$> old) =
    match RePartitionV2 P ws (mkBucketV2 <$> old) with
    | Ok (new, ch) => Ok (v1_of_v2 new, ch) | Crash c => Crash c
    end
}.

(** Policies that regenerate the table and diff it, as uniform and hash do. *)
Section Regenerate.
Context (p : PartitionPolicyBase).
Context (gen1 : list Z → res (list (option Bucket))).
Context (gen2 : list Z → res (list BucketV2)).
Context (owners : list Z → list Z).
Hypothesis gen_owners : ∀ ws bs, gen2 ws = Ok bs →
  ws ≠ [] ∧ bs = mkBucketV2 <$> owners ws ∧
  length (owners ws) = Z.to_nat (NumBuckets p) ∧ ∀ w, w ∈ owners ws → w ∈ ws.
Hypothesis gen_agree : ∀ ws, gen1 ws =
  match gen2 ws with Ok bs => Ok (v1_of_v2 bs) | Crash c => Crash c end.

Definition regenerate : PartitionPolicy := {|
  GenerateBuckets := gen1;
  RePartition := λ ws old,
    repartition_guard p ws old;;
    new ← gen1 ws; ch ← computeBucketOwnerChanges old new; Ok (new, ch);
  GenerateBucketsV2 := gen2;
  RePartitionV2 := λ ws old,
    repartition_guard p ws old;;
    new ← gen2 ws; ch ← ownerChangesV2 old new; Ok (new, ch)
|}.

Lemma v1_of_mkBucketV2 ws : v1_of_v2 (mkBucketV2 <$> ws) = mkBucket <$> ws.
Proof. unfold v1_of_v2. by rewrite <-list_fmap_compose. Qed.

(** The loop of the two entry points only reads owners. *)
Lemma owner_changes_v1_v2 old new :
  computeBucketOwnerChanges (mkBucket <$> old) (mkBucket <$> new) =
  ownerChangesV2 (mkBucketV2 <$> old) (mkBucketV2 <$> new).
Proof.
  unfold computeBucketOwnerChanges, ownerChangesV2.
  generalize (∅ : OwnerChanges) as ch. generalize 0 as i.
  induction old as [|o old IH]; intros i ch; csimpl; [done|].
  unfold idx. rewrite !list_lookup_fmap. destruct (new !! i) as [n|]; csimpl; [|done].
  apply IH.
Qed.

Lemma regenerate_laws : PolicyLaws regenerate (Z.to_nat (NumBuckets p)).
Proof.
  split; simpl.
  - intros ws bs Hgen. apply gen_owners in Hgen as (? & -> & ? & ?).
    rewrite length_fmap. split_and!; [done..|].
    apply Forall_fmap, Forall_forall. naive_solver.
  - intros ws old new ch Hlen (u & _ & (bs & Hgen & (ch' & Hch & [= <- <-])%bind_Ok_inv)
      %bind_Ok_inv)%bind_Ok_inv.
    apply gen_owners in Hgen as (? & -> & ? & ?).
    rewrite length_fmap. split_and!; [done..| |].
    + apply Forall_fmap, Forall_forall. naive_solver.
    + destruct (ownerChangesV2_spec old (mkBucketV2 <$> owners ws)) as (? & Hch' & ?);
        [rewrite length_fmap; lia|]. rewrite Hch in Hch'. by injection Hch' as <-.
  - apply gen_agree.
  - intros ws old. unfold repartition_guard. rewrite !length_fmap.
    destruct (fatal_if (length ws =? 0) _); [|done]. csimpl.
    destruct (fatal_if (negb _) _); [|done]. csimpl. rewrite gen_agree.
    destruct (gen2 ws) as [bs|] eqn:Hg; [|done]. csimpl.
    apply gen_owners in Hg as (_ & -> & _ & _).
    rewrite v1_of_mkBucketV2, owner_changes_v1_v2.
    destruct (ownerChangesV2 _ _); csimpl; by rewrite ?v1_of_mkBucketV2.
Qed.
End Regenerate.

Lemma generate_ranges_agree nb ws :
  generate_ranges None mkBucket nb ws =
  match generate_ranges BucketV2_zero mkBucketV2 nb ws with
  | Ok bs => Ok (v1_of_v2 bs) | Crash c => Crash c
  end.
Proof.
  destruct (decide (ws ≠ [] ∧ (Z.of_nat (length ws) ≤ nb)%Z)) as [[??]|Hno].
  - rewrite !generate_ranges_spec by done. by rewrite v1_of_mkBucketV2.
  - unfold generate_ranges. destruct ws as [|w ws]; [done|]. csimpl.
    destruct (Z.ltb_spec nb (Z.of_nat (S (length ws)))); [done|].
    exfalso. apply Hno. split; [done|]. simpl. lia.
Qed.

Lemma generate_ranges_shape nb ws bs :
  generate_ranges BucketV2_zero mkBucketV2 nb ws = Ok bs →
  ws ≠ [] ∧ bs = mkBucketV2 <$> range_owners (Z.to_nat nb) ws ∧
  length (range_owners (Z.to_nat nb) ws) = Z.to_nat nb ∧
  ∀ w, w ∈ range_owners (Z.to_nat nb) ws → w ∈ ws.
Proof.
  intros (? & ? & ->)%generate_ranges_inv.
  split_and!; [done..|by apply length_range_owners|apply range_owners_elem_of].
Qed.

#[export] Instance uniform_laws p :
  PolicyLaws (UniformPartitionPolicy p) (Z.to_nat (NumBuckets p)).
Proof.
  apply (regenerate_laws p _ _ (range_owners (Z.to_nat (NumBuckets p)))).
  - intros ws bs. apply generate_ranges_shape.
  - intros ws. apply generate_ranges_agree.
Qed.

(** *** The hash policies keep the laws *)

Section HashLaws.
Context `{SortTokens} (marshalUint16 : Z → bytes).

Lemma mk_token_in_range nb w h : (0 < nb)%Z → BucketIdx (mk_token nb w h) < Z.to_nat nb.
Proof. intros. simpl. pose proof (Z.mod_pos_bound h nb). lia. Qed.

(** A policy given by its tokens: the two hash policies differ in nothing else. *)
Context (p : PartitionPolicyBase) (tokens : list Z → list Token).
Hypothesis tokens_nonempty : ∀ ws, ws ≠ [] → tokens ws ≠ [].
Hypothesis tokens_range : ∀ ws, (0 < NumBuckets p)%Z →
  Forall (λ t, BucketIdx t < Z.to_nat (NumBuckets p)) (tokens ws).
Hypothesis tokens_workers : ∀ ws t, t ∈ tokens ws → Token_WorkerID t ∈ ws.

Definition token_generate {B} (zero : B) (mk : Z → B) (ws : list Z) : res (list B) :=
  hash_guard (NumBuckets p) ws;;
  buckets_of_tokens zero mk (NumBuckets p) (tokens ws).

Definition token_owners (ws : list Z) : list Z :=
  ring_owners (sort_tokens (tokens ws)) (Z.to_nat (NumBuckets p)).

Lemma hash_guard_Ok ws u :
  hash_guard (NumBuckets p) ws = Ok u ↔
  ws ≠ [] ∧ (Z.of_nat (length ws) ≤ NumBuckets p)%Z.
Proof.
  unfold hash_guard. split.
  - intros ([] & Hu & Hf%fatal_if_Ok)%bind_Ok_inv. apply fatal_if_Ok in Hu.
    split; [by destruct ws|]. by apply Z.ltb_ge.
  - intros [Hne Hle]. destruct u. destruct ws; [done|]. simpl in *.
    by rewrite (proj2 (Z.ltb_ge _ _)) by lia.
Qed.

Lemma token_generate_spec {B} (zero : B) mk ws :
  ws ≠ [] → (Z.of_nat (length ws) ≤ NumBuckets p)%Z →
  token_generate zero mk ws = Ok (mk <$> token_owners ws).
Proof.
  intros Hne Hle. unfold token_generate.
  assert (0 < NumBuckets p)%Z by (destruct ws; simpl in *; [done|lia]).
  rewrite (proj2 (hash_guard_Ok ws tt)) by done. rewrite bind_Ok.
  apply buckets_of_tokens_owners; auto with lia.
Qed.

Lemma token_generate_inv ws bs :
  token_generate BucketV2_zero mkBucketV2 ws = Ok bs →
  ws ≠ [] ∧ bs = mkBucketV2 <$> token_owners ws ∧
  length (token_owners ws) = Z.to_nat (NumBuckets p) ∧
  ∀ w, w ∈ token_owners ws → w ∈ ws.
Proof.
  intros Hgen. assert (Hgen' := Hgen). unfold token_generate in Hgen.
  apply bind_Ok_inv in Hgen as ([] & [Hne Hle]%hash_guard_Ok & _).
  rewrite token_generate_spec in Hgen' by done. injection Hgen' as <-.
  split_and!; [done..| |].
  - unfold token_owners, ring_owners. by rewrite length_fmap, length_seq.
  - intros w Hw. unfold token_owners in Hw. apply ring_owners_elem_of in Hw.
    + rewrite sort_tokens_perm in Hw. apply list_elem_of_fmap in Hw as (t & -> & Ht).
      by apply tokens_workers.
    + intros Hnil. apply (tokens_nonempty ws Hne).
      apply Permutation_nil_r. by rewrite <-Hnil, sort_tokens_perm.
Qed.

Lemma token_generate_agree ws :
  token_generate None mkBucket ws =
  match token_generate BucketV2_zero mkBucketV2 ws with
  | Ok bs => Ok (v1_of_v2 bs) | Crash c => Crash c
  end.
Proof.
  destruct (hash_guard (NumBuckets p) ws) as [u|] eqn:Hg.
  - apply hash_guard_Ok in Hg as [??]. rewrite !token_generate_spec by done.
    by rewrite v1_of_mkBucketV2.
  - unfold token_generate. by rewrite Hg.
Qed.

Lemma token_laws :
  PolicyLaws (regenerate p (token_generate None mkBucket)
    (token_generate BucketV2_zero mkBucketV2)) (Z.to_nat (NumBuckets p)).
Proof.
  apply (regenerate_laws p _ _ token_owners).
  - apply token_generate_inv.
  - apply token_generate_agree.
Qed.
End HashLaws.

Section HashInstances.
Context `{SortTokens} (marshalUint16 : Z → bytes).

Lemma hash_tokens_workers hp ws t :
  t ∈ hash_tokens marshalUint16 hp ws → Token_WorkerID t ∈ ws.
Proof.
  intros (w & Ht & Hw)%list_elem_of_bind.
  apply list_elem_of_fmap in Ht as (h & -> & _). done.
Qed.

Lemma hash_tokens_range hp ws :
  (0 < NumBuckets (hp_base hp))%Z →
  Forall (λ t, BucketIdx t < Z.to_nat (NumBuckets (hp_base hp)))
    (hash_tokens marshalUint16 hp ws).
Proof.
  intros. apply Forall_forall. intros t (w & Ht & Hw)%list_elem_of_bind.
  apply list_elem_of_fmap in Ht as (h & -> & _). by apply mk_token_in_range.
Qed.

Lemma hash_tokens_nonempty hp ws :
  HashFuncs hp ≠ [] → ws ≠ [] → hash_tokens marshalUint16 hp ws ≠ [].
Proof. destruct ws, (HashFuncs hp) eqn:E; unfold hash_tokens; csimpl; rewrite ?E; done. Qed.

Lemma hash_tokensV2_workers hp ws t :
  t ∈ hash_tokensV2 marshalUint16 hp ws → Token_WorkerID t ∈ ws.
Proof.
  intros (w & Ht & Hw)%list_elem_of_bind.
  apply list_elem_of_fmap in Ht as (h & -> & _). done.
Qed.

Lemma hash_tokensV2_range hp ws :
  (0 < NumBuckets (hp2_base hp))%Z →
  Forall (λ t, BucketIdx t < Z.to_nat (NumBuckets (hp2_base hp)))
    (hash_tokensV2 marshalUint16 hp ws).
Proof.
  intros. apply Forall_forall. intros t (w & Ht & Hw)%list_elem_of_bind.
  apply list_elem_of_fmap in Ht as (h & -> & _). by apply mk_token_in_range.
Qed.

Lemma hash_tokensV2_nonempty hp ws :
  0 < NumTokens hp → ws ≠ [] → hash_tokensV2 marshalUint16 hp ws ≠ [].
Proof. destruct ws, (NumTokens hp) eqn:E; unfold hash_tokensV2; csimpl; rewrite ?E;
  [done|done|lia|done]. Qed.

Lemma hash_laws hp : HashFuncs hp ≠ [] →
  PolicyLaws (HashPolicy marshalUint16 hp) (Z.to_nat (NumBuckets (hp_base hp))).
Proof.
  intros. apply (token_laws (hp_base hp) (hash_tokens marshalUint16 hp)).
  - intros. by apply hash_tokens_nonempty.
  - intros. by apply hash_tokens_range.
  - apply hash_tokens_workers.
Qed.

Lemma hash2_laws hp : 0 < NumTokens hp →
  PolicyLaws (HashPolicyV2 marshalUint16 hp) (Z.to_nat (NumBuckets (hp2_base hp))).
Proof.
  intros. apply (token_laws (hp2_base hp) (hash_tokensV2 marshalUint16 hp)).
  - intros. by apply hash_tokensV2_nonempty.
  - intros. by apply hash_tokensV2_range.
  - apply hash_tokensV2_workers.
Qed.
End HashInstances.

(** ** Properties *)

(** Bucket generation of the uniform policy succeeds exactly when there is
    at least one and at most [NumBuckets] workers, and then assigns contiguous
    blocks in list order, worker [k] receiving [NumBuckets/n] buckets and one
    more when [k < NumBuckets mod n]; two workers' counts differ by at most
    one. *)
Theorem uniform_generate_balanced p ws (Hnd : NoDup ws) :
  (is_ok (uniform_GenerateBucketsV2 p ws) = true ↔
     ws ≠ [] ∧ (Z.of_nat (length ws) ≤ NumBuckets p)%Z) ∧
  ∀ bs, uniform_GenerateBucketsV2 p ws = Ok bs →
    WorkerID <$> bs = range_owners (Z.to_nat (NumBuckets p)) ws ∧
    length bs = Z.to_nat (NumBuckets p) ∧
    (∀ k w, ws !! k = Some w →
       occ w (WorkerID <$> bs) = share (Z.to_nat (NumBuckets p)) (length ws) k) ∧
    ∀ w w', w ∈ ws → w' ∈ ws →
      occ w (WorkerID <$> bs) ≤ occ w' (WorkerID <$> bs) + 1.
Proof.
  unfold uniform_GenerateBucketsV2. split.
  - split; [|intros [??]; by rewrite generate_ranges_spec].
    destruct (generate_ranges _ _ _ _) as [bs|] eqn:Hg; [|done]. intros _.
    apply generate_ranges_inv in Hg as (? & ? & _). done.
  - intros bs (Hne & Hle & ->)%generate_ranges_inv.
    rewrite <-list_fmap_compose. change (WorkerID ∘ mkBucketV2) with (@id Z).
    rewrite list_fmap_id, length_fmap, length_range_owners by done.
    assert (Hocc : ∀ k w, ws !! k = Some w →
      occ w (range_owners (Z.to_nat (NumBuckets p)) ws) =
      share (Z.to_nat (NumBuckets p)) (length ws) k) by (by intros; apply occ_range_owners).
    split_and!; [done..|].
    intros w w' [k Hk]%list_elem_of_lookup [k' Hk']%list_elem_of_lookup.
    rewrite (Hocc k w Hk), (Hocc k' w' Hk'). apply share_balanced.
Qed.

Lemma uniform_generate_balanced_witness :
  is_ok (uniform_GenerateBucketsV2 (MkPolicyBase 7) [10; 20; 30]%Z) = true ∧
  range_owners 7 [10; 20; 30]%Z = [10; 10; 10; 20; 20; 30; 30]%Z.
Proof.
  split; [|reflexivity].
  apply (uniform_generate_balanced (MkPolicyBase 7) [10; 20; 30]%Z).
  - apply (bool_decide_unpack _). vm_compute. done.
  - split; [done|]. vm_compute. discriminate.
Defined.

(** In a table of the consistent-hashing policy, bucket [i] is owned by the
    worker of the last token placed strictly before [i] in the sorted ring, or
    of the very last token when no token lies before [i]; generation succeeds
    whenever the guards hold. *)
Theorem hash_generate_ring `{SortTokens} marshalUint16 hp ws
    (Hfuncs : HashFuncs hp ≠ []) (Hws : ws ≠ [])
    (Hnb : (Z.of_nat (length ws) ≤ NumBuckets (hp_base hp))%Z) :
  ∃ bs, hash_GenerateBucketsV2 marshalUint16 hp ws = Ok bs ∧
    length bs = Z.to_nat (NumBuckets (hp_base hp)) ∧
    ∀ i, i < length bs →
      ∃ t, ring_token (sort_tokens (hash_tokens marshalUint16 hp ws)) i = Some t ∧
           bs !! i = Some (mkBucketV2 (Token_WorkerID t)) ∧ Token_WorkerID t ∈ ws.
Proof.
  assert (0 < NumBuckets (hp_base hp))%Z by (destruct ws; simpl in *; [done|lia]).
  destruct (buckets_of_tokens_spec BucketV2_zero mkBucketV2 (NumBuckets (hp_base hp))
    (hash_tokens marshalUint16 hp ws)) as (bs & Hbs & Hl & Hlook);
    [by apply hash_tokens_nonempty|lia|by apply hash_tokens_range|].
  exists bs. split_and!; [|done|].
  - unfold hash_GenerateBucketsV2.
    by rewrite (proj2 (hash_guard_Ok (hp_base hp) ws tt)), bind_Ok.
  - intros i Hi. rewrite Hlook by lia.
    destruct (ring_token _ i) as [t|] eqn:Ht.
    + exists t. split_and!; [done..|].
      apply ring_token_inv in Ht as [Hin _]; [|apply sort_tokens_sorted].
      rewrite sort_tokens_perm in Hin. by eapply hash_tokens_workers.
    + exfalso. assert (is_Some (bs !! i)) as [x Hx] by (by apply lookup_lt_is_Some).
      rewrite Hlook, Ht in Hx by lia. done.
Qed.

(** A toy hash for the witnesses: the byte string's value times 37. *)
Definition toy_hash (seed : Z) : HashFunc :=
  MkHashFunc (λ b, u64 (37 * be_decode b + seed)).
Definition toy_marshal (w : Z) : bytes := be_encode 2 w.
Definition toy_hp : HashPartitionPolicy := MkHashPolicy (MkPolicyBase 16) [toy_hash 1; toy_hash 5].

Lemma hash_generate_ring_witness :
  ∃ bs, hash_GenerateBucketsV2 toy_marshal toy_hp [3; 4]%Z = Ok bs ∧ length bs = 16.
Proof.
  destruct (hash_generate_ring toy_marshal toy_hp [3; 4]%Z) as (bs & Hbs & Hl & _);
    [done|done|vm_compute; discriminate|].
  exists bs. split; [exact Hbs|exact Hl].
Defined.

(** Consistent hashing: when no two tokens collide on their hash value, the
    tables of [ws] and of [ws ++ added] differ only on buckets that the larger
    table gives to an added worker, so a rescale moves nothing between the
    workers that stay. *)
Theorem hash_rescale_consistent `{SortTokens} marshalUint16 hp ws added bs bs' i w w'
    (Hfuncs : HashFuncs hp ≠ [])
    (Hcoll : NoDup (HashValue <$> hash_tokens marshalUint16 hp (ws ++ added)))
    (Hbs : hash_GenerateBucketsV2 marshalUint16 hp ws = Ok bs)
    (Hbs' : hash_GenerateBucketsV2 marshalUint16 hp (ws ++ added) = Ok bs')
    (Hw : (WorkerID <$> bs) !! i = Some w) (Hw' : (WorkerID <$> bs') !! i = Some w') :
  w ≠ w' → w' ∈ added.
Proof.
  unfold hash_GenerateBucketsV2 in *.
  apply bind_Ok_inv in Hbs as ([] & [Hne Hle]%hash_guard_Ok & Hbs).
  apply bind_Ok_inv in Hbs' as ([] & [Hne' Hle']%hash_guard_Ok & Hbs').
  assert (Happ : hash_tokens marshalUint16 hp (ws ++ added) =
    hash_tokens marshalUint16 hp ws ++ hash_tokens marshalUint16 hp added)
    by apply bind_app.
  assert (0 < NumBuckets (hp_base hp))%Z by (destruct ws; simpl in *; [done|lia]).
  pose proof (hash_tokens_range marshalUint16 hp (ws ++ added)) as Hrange.
  rewrite Happ in Hcoll, Hbs', Hrange. intros Hww.
  eapply (buckets_of_tokens_consistent (NumBuckets (hp_base hp))
    (hash_tokens marshalUint16 hp ws) (hash_tokens marshalUint16 hp added)) in Hww;
    [|lia|by apply hash_tokens_nonempty|by apply Hrange|done..].
  apply list_elem_of_fmap in Hww as (t & -> & Ht). by eapply hash_tokens_workers.
Qed.

Lemma hash_rescale_consistent_witness :
  ∃ bs bs', hash_GenerateBucketsV2 toy_marshal toy_hp [3; 4]%Z = Ok bs ∧
    hash_GenerateBucketsV2 toy_marshal toy_hp [3; 4; 6]%Z = Ok bs' ∧
    ∀ i w w', (WorkerID <$> bs) !! i = Some w → (WorkerID <$> bs') !! i = Some w' →
      w ≠ w' → w' ∈ [6]%Z.
Proof.
  destruct (hash_GenerateBucketsV2 toy_marshal toy_hp [3; 4]%Z) as [bs|] eqn:Hbs;
    [|vm_compute in Hbs; discriminate].
  destruct (hash_GenerateBucketsV2 toy_marshal toy_hp [3; 4; 6]%Z) as [bs'|] eqn:Hbs';
    [|vm_compute in Hbs'; discriminate].
  exists bs, bs'. split; [reflexivity|]. split; [reflexivity|]. intros i w w' Hw Hw'.
  apply (hash_rescale_consistent toy_marshal toy_hp [3; 4]%Z [6]%Z bs bs' i w w').
  - done.
  - apply (bool_decide_unpack _). vm_compute. done.
  - exact Hbs.
  - exact Hbs'.
  - exact Hw.
  - exact Hw'.
Defined.
