(* ===== verification/EvenPartition.v ===== *)
(** * The even partition policy

    [EvenPartitionPolicy] of [internal/keyby/partition/evenPartitionPolicy.go]:
    repartitioning that keeps every worker's bucket count as even as possible
    and moves buckets only to added or from removed workers. *)

From stdpp Require Import prelude gmap strings list sorting.
From Stdlib Require Import ZArith Lia.
From S2P Require Import Prelude Partition.

(** ** Validation and preparation *)

(** Duplicate check while the updated worker set is built. *)
Definition updated_set (updatedWorkers : list Z) : res (gset Z) :=
  foldM (λ s workerID,
    fatal_if (bool_decide (workerID ∈ s))
      "Updated worker list invalid: duplicate worker";;
    Ok ({[workerID]} ∪ s)) ∅ updatedWorkers.

(** One iteration of the loop over [oldBuckets]: the workers in the order they
    are first seen, and each worker's bucket indices. *)
Definition group_bucket (st : list Z * gmap Z (list nat)) (i : nat) (b : BucketV2)
    : list Z * gmap Z (list nat) :=
  let '(order, groups) := st in
  match groups !! WorkerID b with
  | None => (order ++ [WorkerID b], <[WorkerID b := [i]]> groups)
  | Some l => (order, <[WorkerID b := l ++ [i]]> groups)
  end.

Fixpoint group_buckets (st : list Z * gmap Z (list nat)) (i : nat)
    (oldBuckets : list BucketV2) : list Z * gmap Z (list nat) :=
  match oldBuckets with
  | [] => st
  | b :: rest => group_buckets (group_bucket st i b) (S i) rest
  end.

Definition validateAndPrepareRepartition (p : PartitionPolicyBase)
    (updatedWorkers : list Z) (oldBuckets : list BucketV2)
    : res (gset Z * list Z * gmap Z (list nat)) :=
  fatal_if (length updatedWorkers =? 0) "New worker list invalid";;
  fatal_if (NumBuckets p <? Z.of_nat (length updatedWorkers))%Z
    "Number of buckets is less than number of workers";;
  updatedWorkerSet ← updated_set updatedWorkers;
  let '(existingWorkerList, groups) := group_buckets ([], ∅) 0 oldBuckets in
  fatal_if (size updatedWorkerSet =? size groups)
    "Updated worker list invalid: number of workers unchanged";;
  (if size groups <? size updatedWorkerSet
   then fatal_if (bool_decide (¬ dom groups ⊆ updatedWorkerSet))
          "Scale-up invalid: existing worker missing in updated list"
   else fatal_if (bool_decide (¬ updatedWorkerSet ⊆ dom groups))
          "Scale-down invalid: updated list contains new worker");;
  Ok (updatedWorkerSet, existingWorkerList, groups).

(** [getDesiredCountsPerWorker]. *)
Fixpoint desired_from (base rem i : nat) (workers : list Z) (m : gmap Z nat)
    : gmap Z nat :=
  match workers with
  | [] => m
  | w :: workers =>
      desired_from base rem (S i) workers
        (<[w := if i <? rem then base + 1 else base]> m)
  end.

Definition getDesiredCountsPerWorker (p : PartitionPolicyBase)
    (updatedWorkers : list Z) : res (gmap Z nat) :=
  fatal_if (length updatedWorkers =? 0)
    "No worker to generate desired bucket distribution";;
  let total := Z.to_nat (NumBuckets p) in
  let n := length updatedWorkers in
  Ok (desired_from (total `div` n) (total `mod` n) 0 updatedWorkers ∅).

(** ** Moving buckets from donors to a recipient *)

(** What the two repartition loops update: the cursor into the donor list, the
    buckets each donor still gives away, the new assignment, the movements. *)
Record TransferState := MkTransfer {
  donorIdx : nat;
  donorBuckets : gmap Z (list nat);
  newBuckets : list BucketV2;
  bucketOwnerChanges : OwnerChanges
}.

(** Pop the donor's last bucket and give it to [recipient]. *)
Definition give_bucket (st : TransferState) (next : nat) (donor recipient : Z)
    (buckets : list nat) (bucketID : nat) : res TransferState :=
  b ← idx (newBuckets st) bucketID;
  nb ← set_idx (newBuckets st) bucketID (MkBucketV2 recipient (Map b));
  Ok (MkTransfer next
        (<[donor := take (length buckets - 1) buckets]> (donorBuckets st)) nb
        (record_change (bucketOwnerChanges st) donor recipient bucketID)).

(** [for need > 0 { ... }]: take the donors round-robin, one bucket per visit,
    skipping those with nothing left. *)
Fixpoint transfer (fuel : nat) (donorList : list Z) (recipient : Z) (need : nat)
    (st : TransferState) : res TransferState :=
  match need with
  | 0 => Ok st
  | S need' =>
      match fuel with
      | 0 => Crash Diverge
      | S fuel' =>
          donor ← idx donorList (donorIdx st);
          let next := (donorIdx st + 1) `mod` length donorList in
          let buckets := default [] (donorBuckets st !! donor) in
          match last buckets with
          | None =>
              transfer fuel' donorList recipient need
                (MkTransfer next (donorBuckets st) (newBuckets st)
                   (bucketOwnerChanges st))
          | Some bucketID =>
              st' ← give_bucket st next donor recipient buckets bucketID;
              transfer fuel' donorList recipient need' st'
          end
      end
  end.

(** One pass over the donors finds a bucket: [need] passes are enough. *)
Definition transfer_fuel (donorList : list Z) (need : nat) : nat :=
  need * length donorList.

(** ** Scale-up *)

(** The loop over the existing workers: how many buckets each gives away. *)
Definition donate_step (desiredCounts : gmap Z nat)
    (st : gmap Z (list nat) * nat) (e : Z * list nat)
    : res (gmap Z (list nat) * nat) :=
  let '(donors, remainingDonation) := st in
  let '(workerID, bucketList) := e in
  let curBucketCnt := length bucketList in
  match desiredCounts !! workerID with
  | None => Crash (Fatal "Scale-up invalid: existing worker missing desired count")
  | Some desired =>
      fatal_if (curBucketCnt <? desired)
        "Scale-up invalid: existing worker desires more buckets than it owns";;
      let excess := curBucketCnt - desired in
      if excess =? 0 then Ok st
      else Ok (<[workerID := drop (curBucketCnt - excess) bucketList]> donors,
               remainingDonation + excess)
  end.

(** The body of the loop over the new workers; the second component is
    [remainingDonation], which the inner loop decrements with [need]. *)
Definition scale_up_step (desiredCounts : gmap Z nat) (existingWorkerList : list Z)
    (st : TransferState * nat) (newWorkerID : Z) : res (TransferState * nat) :=
  let '(ts, remainingDonation) := st in
  match desiredCounts !! newWorkerID with
  | None => Crash (Fatal "Scale-up invalid: new worker missing desired count")
  | Some need =>
      fatal_if (need =? 0) "Scale-up invalid: new worker desires 0 buckets";;
      fatal_if (remainingDonation <? need)
        "Scale-up invalid: not enough donated buckets for new worker";;
      ts' ← transfer (transfer_fuel existingWorkerList need) existingWorkerList
              newWorkerID need ts;
      Ok (ts', remainingDonation - need)
  end.

Section EvenRepartition.
Context `{GoRange}.

Definition repartitionScaleUp (updatedWorkers : list Z) (desiredCounts : gmap Z nat)
    (existingWorkerList : list Z) (groups : gmap Z (list nat))
    (newB : list BucketV2) (ch : OwnerChanges)
    : res (list BucketV2 * OwnerChanges) :=
  let newWorkers := filter (λ w, groups !! w = None) updatedWorkers in
  fatal_if (length newWorkers =? 0) "Scale-up invalid: no new worker found";;
  '(donors, remainingDonation) ←
    foldM (donate_step desiredCounts) (∅, 0) (go_range groups);
  fatal_if (remainingDonation =? 0) "Scale-up invalid: no donor bucket found";;
  '(ts, _) ← foldM (scale_up_step desiredCounts existingWorkerList)
               (MkTransfer 0 donors newB ch, remainingDonation) newWorkers;
  Ok (newBuckets ts, bucketOwnerChanges ts).

(** ** Scale-down *)

Definition donate_all_step (groups : gmap Z (list nat))
    (st : gmap Z (list nat) * nat) (donorWorkerID : Z)
    : res (gmap Z (list nat) * nat) :=
  let '(donors, totalDonation) := st in
  match groups !! donorWorkerID with
  | None => Crash (Fatal "Scale-down invalid: removed worker not found in existing buckets")
  | Some bucketList =>
      Ok (<[donorWorkerID := bucketList]> donors, totalDonation + length bucketList)
  end.

Definition need_step (desiredCounts : gmap Z nat) (groups : gmap Z (list nat))
    (st : gmap Z nat * nat) (workerID : Z) : res (gmap Z nat * nat) :=
  let '(recipientNeeds, totalNeed) := st in
  let oldCount := length (default [] (groups !! workerID)) in
  match desiredCounts !! workerID with
  | None => Crash (Fatal "Scale-down invalid: remaining worker missing desired count")
  | Some desired =>
      fatal_if (desired <? oldCount)
        "Scale-down invalid: remaining worker desires less buckets than it owns";;
      let need := desired - oldCount in
      if need =? 0 then Ok st
      else Ok (<[workerID := need]> recipientNeeds, totalNeed + need)
  end.

Definition scale_down_step (recipientNeeds : gmap Z nat) (removedWorkers : list Z)
    (ts : TransferState) (recipient : Z) : res TransferState :=
  let need := default 0 (recipientNeeds !! recipient) in
  transfer (transfer_fuel removedWorkers need) removedWorkers recipient need ts.

Definition repartitionScaleDown (updatedWorkers : list Z)
    (updatedWorkerSet : gset Z) (desiredCounts : gmap Z nat)
    (existingWorkerList : list Z) (groups : gmap Z (list nat))
    (newB : list BucketV2) (ch : OwnerChanges)
    : res (list BucketV2 * OwnerChanges) :=
  let removedWorkers := filter (λ w, w ∉ updatedWorkerSet) existingWorkerList in
  fatal_if (length removedWorkers =? 0) "Scale-down invalid: no removed worker found";;
  '(donors, totalDonation) ← foldM (donate_all_step groups) (∅, 0) removedWorkers;
  '(recipientNeeds, totalNeed) ←
    foldM (need_step desiredCounts groups) (∅, 0) updatedWorkers;
  fatal_if (negb (totalNeed =? totalDonation)) "Scale-down invalid: donation != need";;
  ts ← foldM (scale_down_step recipientNeeds removedWorkers)
         (MkTransfer 0 donors newB ch) updatedWorkers;
  Ok (newBuckets ts, bucketOwnerChanges ts).

(** ** The entry points *)

(** [newBuckets := make([]BucketV2, n); copy(newBuckets, oldBuckets)]. *)
Definition copy_buckets (n : Z) (oldBuckets : list BucketV2) : res (list BucketV2) :=
  zeros ← go_make BucketV2_zero n;
  Ok (take (length zeros) oldBuckets ++ drop (length oldBuckets) zeros).

(** [sort.Ints] on every list of the result. *)
Definition sort_ints (l : list nat) : list nat := merge_sort (≤) l.

Definition sort_changes (ch : OwnerChanges) : OwnerChanges :=
  (λ inner : gmap Z (list nat), sort_ints <$> inner) <$> ch.

Definition even_RePartitionV2 (p : PartitionPolicyBase) (updatedWorkers : list Z)
    (oldBuckets : list BucketV2) : res (list BucketV2 * OwnerChanges) :=
  '(updatedWorkerSet, existingWorkerList, groups) ←
    validateAndPrepareRepartition p updatedWorkers oldBuckets;
  desiredCounts ← getDesiredCountsPerWorker p updatedWorkers;
  newB ← copy_buckets (NumBuckets p) oldBuckets;
  '(newB', ch) ←
    (if length existingWorkerList <? size updatedWorkerSet
     then repartitionScaleUp updatedWorkers desiredCounts existingWorkerList
            groups newB ∅
     else repartitionScaleDown updatedWorkers updatedWorkerSet desiredCounts
            existingWorkerList groups newB ∅);
  Ok (newB', sort_changes ch).

Fixpoint deref_buckets (oldBuckets : list (option Bucket)) : res (list BucketV2) :=
  match oldBuckets with
  | [] => Ok []
  | b :: rest =>
      w ← deref_WorkerID b;
      rest' ← deref_buckets rest;
      Ok (MkBucketV2 w None :: rest')
  end.

Definition even_RePartition (p : PartitionPolicyBase) (updatedWorkers : list Z)
    (oldBuckets : list (option Bucket)) : res (list (option Bucket) * OwnerChanges) :=
  oldBucketsV2 ← deref_buckets oldBuckets;
  '(newBucketsV2, ch) ← even_RePartitionV2 p updatedWorkers oldBucketsV2;
  Ok (v1_of_v2 newBucketsV2, ch).

Definition EvenPartitionPolicy (p : PartitionPolicyBase) : PartitionPolicy := {|
  GenerateBuckets := even_GenerateBuckets p;
  RePartition := even_RePartition p;
  GenerateBucketsV2 := even_GenerateBucketsV2 p;
  RePartitionV2 := even_RePartitionV2 p
|}.

End EvenRepartition.

(** ** Facts about the preparation *)

(** What [group_buckets] computes from the owners [ow] of the old table. *)
Record grouped (ow order : list Z) (groups : gmap Z (list nat)) : Prop := {
  grouped_order : NoDup order ∧ ∀ w, w ∈ order ↔ w ∈ ow;
  grouped_dom : ∀ w, is_Some (groups !! w) ↔ w ∈ ow;
  grouped_indices : ∀ w l, groups !! w = Some l →
    NoDup l ∧ length l = occ w ow ∧ ∀ i, i ∈ l ↔ ow !! i = Some w
}.

Lemma grouped_nil : grouped [] [] ∅.
Proof. split; [split; [constructor|done]|intros w|done].
  rewrite lookup_empty. split; [by intros []|by intros ?%elem_of_nil]. Qed.

Lemma lookup_snoc_iff {A} (l : list A) x i y :
  (l ++ [x]) !! i = Some y ↔ l !! i = Some y ∨ (i = length l ∧ x = y).
Proof.
  rewrite lookup_app_Some, list_lookup_singleton_Some. split.
  - intros [?|(? & ? & ?)]; [by left|right]. split; [lia|done].
  - intros [?|[-> ->]]; [by left|right]. split; [lia|]. split; [lia|done].
Qed.

Lemma grouped_snoc ow order groups b :
  grouped ow order groups →
  let '(order', groups') := group_bucket (order, groups) (length ow) b in
  grouped (ow ++ [WorkerID b]) order' groups'.
Proof.
  intros [[Hnd Hord] Hdom Hidx]. unfold group_bucket.
  destruct (groups !! WorkerID b) as [l|] eqn:Hl.
  - assert (Hin : WorkerID b ∈ ow) by (apply Hdom; eauto).
    destruct (Hidx _ _ Hl) as (Hndl & Hlen & Hil). split.
    + split; [done|]. intros w. rewrite Hord. set_solver.
    + intros w. destruct (decide (w = WorkerID b)) as [->|Hne].
      * rewrite lookup_insert_eq. set_solver.
      * rewrite lookup_insert_ne, Hdom by done. set_solver.
    + intros w l'. destruct (decide (w = WorkerID b)) as [->|Hne].
      * rewrite lookup_insert_eq. intros [= <-].
        assert (length ow ∉ l).
        { rewrite Hil. by rewrite lookup_ge_None_2 by lia. }
        split_and!.
        -- apply NoDup_app. split_and!; [done| |apply NoDup_singleton]. set_solver.
        -- rewrite length_app, occ_app, occ_cons, occ_nil, decide_True by done.
           simpl. lia.
        -- intros i. rewrite elem_of_app, Hil, lookup_snoc_iff, list_elem_of_singleton.
           naive_solver.
      * rewrite lookup_insert_ne by done. intros (? & Hlen' & Hil')%Hidx.
        split_and!; [done| |].
        -- by rewrite occ_app, occ_cons, occ_nil, decide_False, Nat.add_0_r.
        -- intros i. rewrite Hil', lookup_snoc_iff. naive_solver.
  - assert (Hnin : WorkerID b ∉ ow).
    { rewrite <-Hdom, Hl. by intros []. }
    split.
    + split.
      * apply NoDup_app. split_and!; [done| |apply NoDup_singleton]. set_solver.
      * intros w. rewrite !elem_of_app, Hord. set_solver.
    + intros w. destruct (decide (w = WorkerID b)) as [->|Hne].
      * rewrite lookup_insert_eq. set_solver.
      * rewrite lookup_insert_ne, Hdom by done. set_solver.
    + intros w l'. destruct (decide (w = WorkerID b)) as [->|Hne].
      * rewrite lookup_insert_eq. intros [= <-]. split_and!.
        -- apply NoDup_singleton.
        -- rewrite occ_app, occ_cons, occ_nil, decide_True by done.
           by rewrite (proj2 (occ_0 _ _)).
        -- intros i. rewrite lookup_snoc_iff, list_elem_of_singleton.
           split; [naive_solver|]. intros [Hi|[-> _]]; [|done].
           by apply list_elem_of_lookup_2 in Hi.
      * rewrite lookup_insert_ne by done. intros (? & Hlen' & Hil')%Hidx.
        split_and!; [done| |].
        -- by rewrite occ_app, occ_cons, occ_nil, decide_False, Nat.add_0_r.
        -- intros i. rewrite Hil', lookup_snoc_iff. naive_solver.
Qed.

Lemma group_buckets_spec bs order groups :
  group_buckets ([], ∅) 0 bs = (order, groups) →
  grouped (WorkerID <$> bs) order groups.
Proof.
  cut (∀ rest done st, grouped (WorkerID <$> done) st.1 st.2 →
    let '(order', groups') := group_buckets st (length done) rest in
    grouped (WorkerID <$> (done ++ rest)) order' groups').
  { intros Hcut Heq. specialize (Hcut bs [] ([], ∅) grouped_nil). simpl in Hcut.
    by rewrite Heq in Hcut. }
  induction rest as [|b rest IH]; intros pre [order' groups'] Hpre.
  - by rewrite app_nil_r.
  - cbn [group_buckets]. pose proof (grouped_snoc _ _ _ b Hpre) as Hs.
    rewrite length_fmap in Hs. cbn [fst snd] in Hs.
    destruct (group_bucket (order', groups') (length pre) b) as [o g] eqn:Hg.
    specialize (IH (pre ++ [b]) (o, g)). rewrite fmap_app in IH. specialize (IH Hs).
    rewrite length_app, Nat.add_1_r, <-app_assoc in IH. exact IH.
Qed.

Lemma grouped_length ow order groups : grouped ow order groups → length order = size groups.
Proof.
  intros [[Hnd Hord] Hdom _].
  replace (size groups) with (size (dom groups)) by apply size_dom.
  rewrite <-(size_list_to_set (C := gset Z) order) by done. f_equal.
  apply set_eq. intros w. by rewrite elem_of_list_to_set, elem_of_dom, Hord, Hdom.
Qed.

Lemma updated_set_spec ws s :
  updated_set ws = Ok s → NoDup ws ∧ s = list_to_set ws.
Proof.
  unfold updated_set. intros Hf.
  apply (foldM_inv _ (λ done s, NoDup done ∧ s = list_to_set done)) in Hf; [done| |].
  - split; [constructor|done].
  - intros done x s1 s2 _ [Hnd ->] Hs.
    apply bind_Ok_inv in Hs as (u & Hu%fatal_if_Ok & [= <-]).
    apply bool_decide_eq_false in Hu. rewrite elem_of_list_to_set in Hu. split.
    + apply NoDup_app. split_and!; [done|set_solver|apply NoDup_singleton].
    + rewrite list_to_set_app_L. set_solver.
Qed.

Lemma updated_set_total ws : NoDup ws → updated_set ws = Ok (list_to_set ws).
Proof.
  intros Hnd. unfold updated_set.
  destruct (foldM_total (λ s workerID,
    fatal_if (bool_decide (workerID ∈ s))
      "Updated worker list invalid: duplicate worker";;
    Ok ({[workerID]} ∪ s)) (λ done (s : gset Z), s = list_to_set done) ws ∅)
    as (s' & Hs' & ->); [done| |done].
  intros done x s1 [rest ->] ->. rewrite bool_decide_eq_false_2.
  - eexists. split; [done|]. rewrite list_to_set_app_L. set_solver.
  - rewrite <-app_assoc in Hnd. apply NoDup_app in Hnd as (_ & Hd & _).
    rewrite elem_of_list_to_set. intros Hx%Hd. set_solver.
Qed.

Lemma desired_from_lookup base rem ws i m w :
  NoDup ws →
  desired_from base rem i ws m !! w =
  match list_find (w =.) ws with
  | Some (k, _) => Some (base + (if i + k <? rem then 1 else 0))
  | None => m !! w
  end.
Proof.
  intros Hnd. revert i m. induction Hnd as [|x ws Hx Hnd IH]; intros i m; simpl; [done|].
  rewrite IH. destruct (decide (w = x)) as [->|Hne].
  - destruct (list_find (x =.) ws) as [[k y]|] eqn:Hf.
    + apply list_find_Some in Hf as (Hk & <- & _).
      by apply list_elem_of_lookup_2 in Hk.
    + rewrite lookup_insert_eq, Nat.add_0_r. case_match; f_equal; lia.
  - rewrite lookup_insert_ne by done.
    destruct (list_find (w =.) ws) as [[k y]|] eqn:Hf; simpl; [|done].
    by rewrite Nat.add_succ_r.
Qed.

(** The desired counts are the shares by position in the list. *)
Lemma desired_spec p ws desired :
  getDesiredCountsPerWorker p ws = Ok desired → NoDup ws →
  ∀ w, desired !! w =
    match list_find (w =.) ws with
    | Some (k, _) => Some (share (Z.to_nat (NumBuckets p)) (length ws) k)
    | None => None
    end.
Proof.
  unfold getDesiredCountsPerWorker. intros (u & _ & [= <-])%bind_Ok_inv Hnd w.
  by rewrite desired_from_lookup.
Qed.

(** ** The transfer loop *)

Definition owners_of (st : TransferState) : list Z := WorkerID <$> newBuckets st.

(** Buckets a worker still has to give away. *)
Definition to_give (st : TransferState) (d : Z) : list nat :=
  default [] (donorBuckets st !! d).

(** The invariant of both repartition loops, relative to the old table: the
    lists still to be given away hold buckets that have not moved, and the
    recorded movements are the differences so far. *)
Record TInv (old : list BucketV2) (st : TransferState) : Prop := {
  ti_length : length (newBuckets st) = length old;
  ti_maps : Map <$> newBuckets st = Map <$> old;
  ti_donors : ∀ d i, i ∈ to_give st d →
    (WorkerID <$> old) !! i = Some d ∧ owners_of st !! i = Some d;
  ti_nodup : ∀ d, NoDup (to_give st d);
  ti_changes : ∀ s d i, i ∈ get_changes (bucketOwnerChanges st) s d ↔
    (WorkerID <$> old) !! i = Some s ∧ owners_of st !! i = Some d ∧ s ≠ d;
  ti_changes_nodup : ∀ s d, NoDup (get_changes (bucketOwnerChanges st) s d);
  ti_nonempty : ∀ s inner, bucketOwnerChanges st !! s = Some inner →
    inner ≠ ∅ ∧ ∀ d l, inner !! d = Some l → l ≠ []
}.

(** The effect of moving [n] buckets to [r]. *)
Record moved (donorList : list Z) (r : Z) (n : nat) (st st' : TransferState) : Prop := {
  mv_counts : ∀ w, w ≠ r →
    occ w (owners_of st') + length (to_give st w) =
    occ w (owners_of st) + length (to_give st' w);
  mv_recv : occ r (owners_of st') = occ r (owners_of st) + n;
  mv_total :
    sum_list_with (λ d, length (to_give st' d)) donorList + n =
    sum_list_with (λ d, length (to_give st d)) donorList;
  mv_keep : ∀ j, owners_of st' !! j = owners_of st !! j ∨
    owners_of st' !! j = Some r ∧ ∃ d, d ∈ donorList ∧ owners_of st !! j = Some d;
  mv_sub : ∀ d i, i ∈ to_give st' d → i ∈ to_give st d
}.

Lemma moved_refl dl r st : moved dl r 0 st st.
Proof. split; auto with lia. Qed.

Lemma moved_trans dl r n1 n2 st1 st2 st3 :
  moved dl r n1 st1 st2 → moved dl r n2 st2 st3 → moved dl r (n1 + n2) st1 st3.
Proof.
  intros [A1 B1 C1 D1 E1] [A2 B2 C2 D2 E2]. split; [| lia | lia | |auto].
  - intros w Hw. specialize (A1 w Hw). specialize (A2 w Hw). lia.
  - intros j. destruct (D2 j) as [H2|(H2 & d & Hd & Hj)].
    + rewrite H2. apply D1.
    + right. split; [done|]. destruct (D1 j) as [H1|(H1 & d' & Hd' & Hj')];
        [rewrite <-H1|]; eauto.
Qed.

Lemma sum_list_with_change {A} (f g : A → nat) (l : list A) x n :
  NoDup l → x ∈ l → f x + n = g x → (∀ y, y ≠ x → f y = g y) →
  sum_list_with f l + n = sum_list_with g l.
Proof.
  intros Hnd Hx Hfx Hfy. induction Hnd as [|y l Hy Hnd IH]; [set_solver|]. simpl.
  apply elem_of_cons in Hx as [->|Hx].
  - rewrite (sum_list_with_ext f g l); [lia|]. intros z Hz. apply Hfy. set_solver.
  - specialize (IH Hx). rewrite (Hfy y) by set_solver. lia.
Qed.

Lemma give_bucket_spec old st next dl d r buckets i :
  TInv old st → NoDup dl → d ∈ dl → r ≠ d → buckets = to_give st d →
  last buckets = Some i →
  ∃ st', give_bucket st next d r buckets i = Ok st' ∧ TInv old st' ∧
         donorIdx st' = next ∧ moved dl r 1 st st'.
Proof.
  intros [Hlen Hmaps Hdon Hndd Hch Hchnd Hne] Hnd Hd Hr -> Hlast.
  apply last_Some in Hlast as [l' Hl'].
  assert (Hi : i ∈ to_give st d) by (rewrite Hl'; set_solver).
  destruct (Hdon d i Hi) as [Hold Hnew]. pose proof (Hndd d) as Hndl.
  unfold owners_of in Hnew. rewrite list_lookup_fmap in Hnew.
  destruct (newBuckets st !! i) as [b|] eqn:Hb; [|done]. simpl in Hnew.
  injection Hnew as Hbw. pose proof (lookup_lt_Some _ _ _ Hb) as Hlt.
  unfold give_bucket, idx. rewrite Hb, bind_Ok. unfold set_idx.
  rewrite bool_decide_true, bind_Ok by done. eexists. split; [done|].
  set (st' := MkTransfer _ _ _ _).
  assert (Hg : ∀ w, to_give st' w = if decide (w = d) then l' else to_give st w).
  { intros w. unfold to_give at 1, st'. simpl. case_decide as Hw.
    - subst. rewrite lookup_insert_eq. simpl. rewrite Hl', length_app. simpl.
      replace (length l' + 1 - 1) with (length l') by lia. apply take_app_length.
    - by rewrite lookup_insert_ne. }
  assert (How : owners_of st' = <[i:=r]> (owners_of st)).
  { unfold owners_of, st'. simpl. by rewrite list_fmap_insert. }
  assert (Hoi : owners_of st !! i = Some d).
  { unfold owners_of. rewrite list_lookup_fmap, Hb. simpl. by f_equal. }
  assert (Hlto : i < length (owners_of st)) by (by eapply lookup_lt_Some).
  rewrite Hl' in Hndl. apply NoDup_app in Hndl as (Hndl & Hdisj & _).
  assert (Hil : i ∉ l') by (intros ?%Hdisj; set_solver).
  assert (Hsub : ∀ w j, j ∈ to_give st' w → j ∈ to_give st w ∧ j ≠ i).
  { intros w j. rewrite Hg. case_decide as Hw; [subst; rewrite Hl'; set_solver|].
    intros Hj. split; [done|]. intros ->. destruct (Hdon w i Hj) as [Ho _]. congruence. }
  split; [|split; [done|]].
  - split.
    + unfold st'. simpl. by rewrite length_insert.
    + unfold st'. simpl. rewrite list_fmap_insert, <-Hmaps. simpl.
      apply list_insert_id. by rewrite list_lookup_fmap, Hb.
    + intros w j [Hj Hji]%Hsub. destruct (Hdon w j Hj). split; [done|].
      rewrite How, list_lookup_insert_ne by done. done.
    + intros w. rewrite Hg. case_decide; [done|apply Hndd].
    + intros s t j. rewrite How. unfold st'. simpl. rewrite get_record_change.
      destruct (decide (j = i)) as [->|Hji].
      * rewrite list_lookup_insert_eq by done.
        assert (Hno : ∀ s t, i ∉ get_changes (bucketOwnerChanges st) s t).
        { intros s' t' (?&?&?)%Hch. congruence. }
        case_decide as Hst.
        -- destruct Hst as [-> ->]. split; [|set_solver]. intros _. done.
        -- split; [intros ?%Hno; done|]. intros (? & ? & ?). destruct Hst. naive_solver.
      * rewrite list_lookup_insert_ne by done. rewrite <-Hch.
        case_decide as Hst; [|done]. destruct Hst as [-> ->]. set_solver.
    + intros s t. unfold st'. simpl. rewrite get_record_change. case_decide; [|done].
      apply NoDup_app. split_and!; [done| |apply NoDup_singleton].
      intros j (?&?&?)%Hch ->%list_elem_of_singleton. congruence.
    + unfold st'. simpl. by apply record_change_nonempty.
  - pose proof (λ w, occ_insert w r d (owners_of st) i Hoi) as Hocc.
    assert (Hdlen : length (to_give st' d) + 1 = length (to_give st d)).
    { rewrite Hg, decide_True, Hl', length_app by done. done. }
    split.
    + intros w Hw. specialize (Hocc w). rewrite How.
      rewrite (decide_False (P := w = r)) in Hocc by done.
      destruct (decide (w = d)) as [->|]; [lia|]. rewrite Hg, decide_False by done. lia.
    + specialize (Hocc r). rewrite How. rewrite (decide_False (P := r = d)) in Hocc by done.
      rewrite decide_True in Hocc by done. lia.
    + eapply sum_list_with_change; [done|done|done|]. intros y Hy.
      by rewrite Hg, decide_False.
    + intros j. destruct (decide (j = i)) as [->|Hji].
      * right. rewrite How, list_lookup_insert_eq by done. eauto.
      * left. by rewrite How, list_lookup_insert_ne.
    + intros w j [??]%Hsub. done.
Qed.

(** A donor with buckets left is at most one round away from the cursor. *)
Lemma donor_ahead (dl : list Z) c (f : Z → list nat) :
  c < length dl → 0 < sum_list_with (λ d, length (f d)) dl →
  ∃ k d, k < length dl ∧ dl !! ((c + k) `mod` length dl) = Some d ∧ f d ≠ [].
Proof.
  intros Hc Hsum.
  assert (∃ p d, dl !! p = Some d ∧ f d ≠ []) as (p & d & Hp & Hf).
  { clear Hc. induction dl as [|d dl IH]; simpl in Hsum; [lia|].
    destruct (decide (f d = [])) as [Hd|Hd].
    - rewrite Hd in Hsum. destruct (IH Hsum) as (p & d' & ? & ?). by exists (S p), d'.
    - by exists 0, d. }
  pose proof (lookup_lt_Some _ _ _ Hp) as Hlt.
  exists ((p + (length dl - c)) `mod` length dl), d.
  split; [apply Nat.mod_upper_bound; lia|]. split; [|done].
  rewrite Nat.Div0.add_mod_idemp_r.
  replace (c + (p + (length dl - c))) with (p + 1 * length dl) by lia.
  by rewrite Nat.Div0.mod_add, Nat.mod_small.
Qed.

(** Total correctness of the loop: with [need] buckets available, it ends
    within its fuel and has moved exactly [need] buckets to the recipient. *)
Lemma transfer_spec old dl r need fuel st :
  TInv old st → NoDup dl → r ∉ dl → donorIdx st < length dl →
  need ≤ sum_list_with (λ d, length (to_give st d)) dl →
  need * length dl ≤ fuel →
  ∃ st', transfer fuel dl r need st = Ok st' ∧ TInv old st' ∧
         donorIdx st' < length dl ∧ moved dl r need st st'.
Proof.
  revert fuel st. induction need as [|need IHneed]; intros fuel st HI Hnd Hr Hc Hsum Hfuel.
  { exists st. destruct fuel; split_and!; auto using moved_refl. }
  destruct (donor_ahead dl (donorIdx st) (to_give st)) as (k & d & Hk & Hd & Hg);
    [done|lia|].
  assert (Hfk : k + 1 + need * length dl ≤ fuel) by (simpl in Hfuel; lia).
  clear Hfuel. revert fuel st HI Hc Hsum Hd Hg Hk Hfk.
  induction k as [k IHk] using lt_wf_ind; intros fuel st HI Hc Hsum Hd Hg Hk Hfk.
  destruct fuel as [|fuel]; [lia|]. cbn [transfer].
  destruct (lookup_lt_is_Some_2 dl (donorIdx st)) as [d0 Hd0]; [done|].
  unfold idx. rewrite Hd0, bind_Ok. fold (to_give st d0).
  set (next := (donorIdx st + 1) `mod` length dl).
  assert (Hnext : next < length dl) by (apply Nat.mod_upper_bound; lia).
  destruct (last (to_give st d0)) as [i|] eqn:Hlast.
  - destruct (give_bucket_spec old st next dl d0 r (to_give st d0) i)
      as (st1 & Hst1 & HI1 & Hidx1 & Hm1);
      [done|done|by eapply list_elem_of_lookup_2| |done|done|].
    { intros ->. apply Hr. by eapply list_elem_of_lookup_2. }
    rewrite Hst1, bind_Ok. pose proof (mv_total _ _ _ _ _ Hm1).
    destruct (IHneed fuel st1) as (st2 & Hst2 & HI2 & Hidx2 & Hm2);
      [done..|by rewrite Hidx1|lia|lia|].
    exists st2. split_and!; [done..|].
    change (S need) with (1 + need). by eapply moved_trans.
  - destruct k as [|k].
    { rewrite Nat.add_0_r, Nat.mod_small in Hd by done.
      apply last_None in Hlast. congruence. }
    set (st1 := MkTransfer next _ _ _).
    destruct (IHk k ltac:(lia) fuel st1) as (st2 & Hst2 & HI2 & Hidx2 & Hm2);
      [by destruct HI; split|done|done| |done|lia|lia|].
    { unfold st1, next. simpl. rewrite Nat.Div0.add_mod_idemp_l, <-Nat.add_assoc. done. }
    exists st2. split_and!; [done..|]. by destruct Hm2; split.
Qed.

(** ** Scale-up *)

(** The shares of a worker list by position. *)
Definition share_of (p : PartitionPolicyBase) (ws : list Z) (w : Z) : nat :=
  match list_find (w =.) ws with
  | Some (k, _) => share (Z.to_nat (NumBuckets p)) (length ws) k
  | None => 0
  end.

Lemma list_find_self (ws : list Z) k w :
  NoDup ws → ws !! k = Some w → list_find (w =.) ws = Some (k, w).
Proof.
  intros Hnd Hk. apply list_find_Some. split_and!; [done..|].
  intros j y Hj Hlt <-. pose proof (NoDup_lookup _ _ _ _ Hnd Hj Hk). lia.
Qed.

Lemma share_of_lookup p ws k w :
  NoDup ws → ws !! k = Some w →
  share_of p ws w = share (Z.to_nat (NumBuckets p)) (length ws) k.
Proof. intros Hnd Hk. unfold share_of. by rewrite (list_find_self _ k w). Qed.

Lemma desired_lookup p ws desired w :
  getDesiredCountsPerWorker p ws = Ok desired → NoDup ws → w ∈ ws →
  desired !! w = Some (share_of p ws w).
Proof.
  intros Hd Hnd [k Hk]%list_elem_of_lookup. rewrite (desired_spec _ _ _ Hd Hnd).
  unfold share_of. by rewrite (list_find_self _ k w).
Qed.

Lemma sum_share_of p ws :
  NoDup ws → ws ≠ [] → sum_list_with (share_of p ws) ws = Z.to_nat (NumBuckets p).
Proof.
  intros Hnd Hne. transitivity
    (sum_list_with (share (Z.to_nat (NumBuckets p)) (length ws)) (seq 0 (length ws))).
  2: { apply sum_share. destruct ws; [done|simpl; lia]. }
  cut (∀ l i, (∀ k w, l !! k = Some w →
      share_of p ws w = share (Z.to_nat (NumBuckets p)) (length ws) (i + k)) →
    sum_list_with (share_of p ws) l =
    sum_list_with (share (Z.to_nat (NumBuckets p)) (length ws)) (seq i (length l))).
  { intros Hcut. apply (Hcut ws 0). intros k w Hk. by apply share_of_lookup. }
  induction l as [|w l IH]; intros i Hl; simpl; [done|].
  rewrite (Hl 0 w), Nat.add_0_r by done. f_equal. apply IH.
  intros k w' Hk. rewrite (Hl (S k) w' Hk). f_equal. lia.
Qed.

Lemma share_of_pos p ws w :
  w ∈ ws → (Z.of_nat (length ws) ≤ NumBuckets p)%Z → NoDup ws → 0 < share_of p ws w.
Proof.
  intros [k Hk]%list_elem_of_lookup Hle Hnd. rewrite (share_of_lookup _ _ k) by done.
  apply lookup_lt_Some in Hk. apply share_pos; lia.
Qed.

(** Donations: an existing worker gives away its last [count - desired] buckets. *)
Definition donation (desired : gmap Z nat) (groups : gmap Z (list nat)) (w : Z)
    : list nat :=
  let l := default [] (groups !! w) in
  drop (default 0 (desired !! w)) l.

Definition donate_inv (desired : gmap Z nat) (groups : gmap Z (list nat))
    (done : list (Z * list nat)) (st : gmap Z (list nat) * nat) : Prop :=
  (∀ w, default [] (st.1 !! w) =
    if decide (w ∈ done.*1) then donation desired groups w else []) ∧
  st.2 = sum_list_with (λ w, length (donation desired groups w)) done.*1 ∧
  ∀ w, w ∈ done.*1 → ∃ n, desired !! w = Some n ∧
    n ≤ length (default [] (groups !! w)).

Lemma donate_step_spec desired groups done w l st st' :
  NoDup ((done ++ [(w, l)]).*1) → groups !! w = Some l →
  donate_inv desired groups done st → donate_step desired st (w, l) = Ok st' →
  donate_inv desired groups (done ++ [(w, l)]) st'.
Proof.
  intros Hnd Hw (Hdon & Hsum & Hle) Hstep. destruct st as [donors rem]. simpl in *.
  destruct (desired !! w) as [n|] eqn:Hn; [|done].
  apply bind_Ok_inv in Hstep as (u & Hge%fatal_if_Ok & Hst).
  apply Nat.ltb_ge in Hge.
  rewrite fmap_app in *. simpl in *. apply NoDup_app in Hnd as (_ & Hwd & _).
  assert (Hwn : w ∉ done.*1) by (intros ?%Hwd; set_solver).
  assert (Hdw : donation desired groups w = drop n l)
    by (unfold donation; by rewrite Hw, Hn).
  assert (Hsum' : sum_list_with (λ w, length (donation desired groups w))
    (done.*1 ++ [w]) = rem + (length l - n)).
  { rewrite sum_list_with_app. simpl. rewrite Hdw, length_drop. lia. }
  assert (Hle' : ∀ w', w' ∈ done.*1 ++ [w] → ∃ n, desired !! w' = Some n ∧
    n ≤ length (default [] (groups !! w'))).
  { intros w' [?| ->%list_elem_of_singleton]%elem_of_app; [auto|]. rewrite Hw. eauto. }
  destruct (Nat.eqb_spec (length l - n) 0) as [H0|H0]; injection Hst as <-; unfold donate_inv;
    rewrite fmap_app; simpl.
  - split_and!; [|simpl; lia|done]. intros w'. simpl. rewrite Hdon.
    destruct (decide (w' = w)) as [->|].
    + rewrite decide_False, decide_True by set_solver. rewrite Hdw, drop_ge by lia. done.
    + repeat case_decide; set_solver.
  - split_and!; [|simpl; lia|done]. intros w'. simpl. destruct (decide (w' = w)) as [->|].
    + rewrite lookup_insert_eq, decide_True, Hdw by set_solver. simpl. f_equal. lia.
    + rewrite lookup_insert_ne, Hdon by done. repeat case_decide; set_solver.
Qed.

Section ScaleUp.
Context `{GoRange}.
Context (p : PartitionPolicyBase) (updated order : list Z) (old : list BucketV2).
Context (groups : gmap Z (list nat)) (desired : gmap Z nat).
Local Abbreviation ow := (WorkerID <$> old).
Hypothesis Hlen : length old = Z.to_nat (NumBuckets p).
Hypothesis Hgr : grouped ow order groups.
Hypothesis Hnd : NoDup updated.
Hypothesis Hsz : (Z.of_nat (length updated) ≤ NumBuckets p)%Z.
Hypothesis Hdes : getDesiredCountsPerWorker p updated = Ok desired.

Lemma go_range_prefix_lookup (done : list (Z * list nat)) w l :
  (done ++ [(w, l)]) `prefix_of` go_range groups →
  groups !! w = Some l ∧ NoDup ((done ++ [(w, l)]).*1).
Proof.
  intros [rest Hrest]. split.
  - apply elem_of_go_range. rewrite Hrest. set_solver.
  - pose proof (NoDup_go_range groups) as Hn. rewrite Hrest, fmap_app in Hn.
    by apply NoDup_app in Hn as (? & _).
Qed.

Lemma donate_inv_nil : donate_inv desired groups [] (∅, 0).
Proof. split_and!; [|done|set_solver]. intros w. by rewrite decide_False by set_solver. Qed.

Lemma donate_fold_inv st :
  foldM (donate_step desired) (∅, 0) (go_range groups) = Ok st →
  donate_inv desired groups (go_range groups) st.
Proof.
  apply foldM_inv; [apply donate_inv_nil|].
  intros done [w l] s1 s2 [??]%go_range_prefix_lookup ? ?. by eapply donate_step_spec.
Qed.

Lemma donate_fold_total :
  (∀ w, w ∈ order → w ∈ updated ∧ share_of p updated w ≤ occ w ow) →
  ∃ st, foldM (donate_step desired) (∅, 0) (go_range groups) = Ok st ∧
        donate_inv desired groups (go_range groups) st.
Proof.
  intros Hle. apply foldM_total; [apply donate_inv_nil|].
  intros done [w l] s1 [Hw Hn]%go_range_prefix_lookup HI.
  destruct (grouped_indices _ _ _ Hgr w l Hw) as (_ & Hll & _).
  destruct (Hle w) as [Hin Hs].
  { apply (grouped_order _ _ _ Hgr), (grouped_dom _ _ _ Hgr). eauto. }
  assert (∃ st', donate_step desired s1 (w, l) = Ok st') as [st' Hst'].
  { destruct s1 as [donors rem]. simpl.
    rewrite (desired_lookup _ _ _ _ Hdes Hnd Hin).
    rewrite (proj2 (Nat.ltb_ge _ _)) by lia. simpl. case_match; eauto. }
  exists st'. split; [done|]. by eapply donate_step_spec.
Qed.

(** From here on: the existing workers are all kept. *)
Hypothesis Hsup : ∀ w, w ∈ ow → w ∈ updated.
Local Abbreviation newW := (filter (λ w, groups !! w = None) updated).

Lemma elem_of_newW w : w ∈ newW ↔ w ∈ updated ∧ w ∉ ow.
Proof.
  rewrite list_elem_of_filter, <-(grouped_dom _ _ _ Hgr), <-eq_None_not_Some. naive_solver.
Qed.

Lemma updated_perm : updated ≡ₚ order ++ newW.
Proof.
  destruct (grouped_order _ _ _ Hgr) as [Hno Hord].
  apply NoDup_Permutation; [done| |].
  - apply NoDup_app. split_and!; [done| |by apply NoDup_filter].
    intros w Hw%Hord [_ ?]%elem_of_newW. done.
  - intros w. rewrite elem_of_app, Hord, elem_of_newW.
    destruct (decide (w ∈ ow)); naive_solver.
Qed.

(** The donations of all existing workers are what the new workers need. *)
Lemma donations_cover st :
  donate_inv desired groups (go_range groups) st →
  (∀ w, w ∈ order → share_of p updated w ≤ occ w ow ∧
     length (donation desired groups w) = occ w ow - share_of p updated w) ∧
  sum_list_with (λ w, length (donation desired groups w)) order =
  sum_list_with (share_of p updated) newW ∧
  st.2 = sum_list_with (λ w, length (donation desired groups w)) order.
Proof.
  intros (Hdon & Hsum & Hle). destruct (grouped_order _ _ _ Hgr) as [Hno Hord].
  assert (Hper : order ≡ₚ (go_range groups).*1).
  { apply NoDup_Permutation; [done|apply NoDup_go_range|].
    intros w. by rewrite Hord, go_range_keys, (grouped_dom _ _ _ Hgr). }
  assert (Hone : ∀ w, w ∈ order → share_of p updated w ≤ occ w ow ∧
     length (donation desired groups w) = occ w ow - share_of p updated w).
  { intros w Hw. destruct (Hle w) as (n & Hn & Hnl); [by rewrite <-Hper|].
    rewrite (desired_lookup p updated desired w) in Hn by (try apply Hsup, Hord; done).
    injection Hn as <-.
    destruct (proj2 (grouped_dom _ _ _ Hgr w)) as [l Hl]; [by apply Hord|].
    unfold donation. rewrite Hl in *. simpl in *.
    rewrite (desired_lookup p updated desired w) by (try apply Hsup, Hord; done).
    destruct (grouped_indices _ _ _ Hgr w l Hl) as (_ & Hll & _). simpl.
    rewrite length_drop. lia. }
  split_and!; [done| |by rewrite Hsum, <-Hper].
  assert (Hall : sum_list_with (share_of p updated) updated =
                 sum_list_with (λ w, occ w ow) order).
  { rewrite sum_share_of; [|done|].
    - rewrite sum_occ, length_fmap; [lia|done|]. intros w. apply Hord.
    - intros ->. simpl in Hdes. done. }
  pose proof (sum_list_with_Permutation_proper (share_of p updated) _ _ updated_perm)
    as Hp. rewrite sum_list_with_app in Hp.
  assert (Hsplit : sum_list_with (λ w, occ w ow) order =
    sum_list_with (λ w, length (donation desired groups w)) order +
    sum_list_with (share_of p updated) order).
  { clear -Hone. induction order as [|w l IH]; simpl; [done|].
    destruct (Hone w) as [? ->]; [set_solver|]. rewrite IH by set_solver. lia. }
  lia.
Qed.

(** Invariant of the loop over the new workers. *)
Record up_inv (done : list Z) (st : TransferState * nat) : Prop := {
  up_tinv : TInv old st.1;
  up_idx : donorIdx st.1 < length order;
  up_rem : st.2 = sum_list_with (λ d, length (to_give st.1 d)) order;
  up_bal : st.2 + sum_list_with (share_of p updated) done =
           sum_list_with (share_of p updated) newW;
  up_old : ∀ w, w ∈ order →
    occ w (owners_of st.1) + length (donation desired groups w) =
    occ w ow + length (to_give st.1 w);
  up_new : ∀ w, w ∈ newW →
    occ w (owners_of st.1) = if decide (w ∈ done) then share_of p updated w else 0;
  up_keep : ∀ j, owners_of st.1 !! j = ow !! j ∨
    ∃ w, w ∈ done ∧ owners_of st.1 !! j = Some w
}.

Lemma up_inv_init donors rem :
  donate_inv desired groups (go_range groups) (donors, rem) → 0 < rem →
  up_inv [] (MkTransfer 0 donors old ∅, rem).
Proof.
  intros HD Hrem. pose proof (donations_cover _ HD) as (Hone & Hcov & Hr).
  destruct HD as (Hdon & _ & _). simpl in *.
  destruct (grouped_order _ _ _ Hgr) as [Hno Hord].
  assert (Hg : ∀ w, to_give (MkTransfer 0 donors old ∅) w =
    if decide (w ∈ order) then donation desired groups w else []).
  { intros w. unfold to_give. simpl. rewrite Hdon. apply decide_ext.
    by rewrite go_range_keys, (grouped_dom _ _ _ Hgr), Hord. }
  assert (Hdonsub : ∀ w i, i ∈ donation desired groups w → ow !! i = Some w).
  { intros w i Hi. unfold donation in Hi.
    destruct (groups !! w) as [l|] eqn:Hl; simpl in Hi; [|rewrite drop_nil in Hi; set_solver].
    apply (grouped_indices _ _ _ Hgr w l Hl).
    rewrite <-(take_drop (default 0 (desired !! w)) l). set_solver. }
  split; simpl.
  - split; simpl; [done|done| | | |intros s d; unfold get_changes; simpl; constructor|done].
    + intros d i. rewrite Hg. case_decide; [|set_solver]. intros ?%Hdonsub.
      unfold owners_of. simpl. done.
    + intros d. rewrite Hg. case_decide; [|constructor]. unfold donation.
      destruct (groups !! d) as [l|] eqn:Hl; simpl; [|by rewrite drop_nil; constructor].
      apply NoDup_drop. by apply (grouped_indices _ _ _ Hgr d l Hl).
    + intros s d i. unfold get_changes. rewrite lookup_empty. simpl.
      rewrite lookup_empty. simpl. unfold owners_of. simpl. set_unfold. naive_solver.
  - destruct order; simpl; [|lia]. simpl in Hr. lia.
  - rewrite Hr. apply sum_list_with_ext. intros w Hw. by rewrite Hg, decide_True.
  - lia.
  - intros w Hw. rewrite Hg, decide_True by done. done.
  - intros w [_ Hw]%elem_of_newW. unfold owners_of. simpl.
    by apply occ_0.
  - intros j. by left.
Qed.

Lemma scale_up_step_spec donors0 x st :
  (donors0 ++ [x]) `prefix_of` newW → up_inv donors0 st →
  ∃ st', scale_up_step desired order st x = Ok st' ∧ up_inv (donors0 ++ [x]) st'.
Proof.
  intros [rest Hrest] [HT Hi Hr Hb Ho Hn Hk]. destruct st as [ts rem]. simpl in *.
  assert (Hx : x ∈ newW) by (rewrite Hrest; set_solver).
  assert (Hndn : NoDup newW) by (by apply NoDup_filter).
  rewrite Hrest in Hndn. rewrite <-app_assoc in Hndn.
  apply NoDup_app in Hndn as (_ & Hxd & _).
  assert (Hxn : x ∉ donors0) by (intros ?%Hxd; set_solver).
  pose proof Hx as [Hxu Hxo]%elem_of_newW.
  rewrite (desired_lookup _ _ _ _ Hdes Hnd Hxu).
  pose proof (share_of_pos p updated x Hxu Hsz Hnd) as Hpos.
  assert (Hneed : share_of p updated x ≤ rem).
  { rewrite Hrest, <-app_assoc, !sum_list_with_app in Hb. simpl in Hb. lia. }
  rewrite (proj2 (Nat.eqb_neq _ _)), (proj2 (Nat.ltb_ge _ _)) by lia. simpl.
  destruct (grouped_order _ _ _ Hgr) as [Hno Hord].
  destruct (transfer_spec old order x (share_of p updated x)
    (transfer_fuel order (share_of p updated x)) ts) as (ts' & Hts' & HT' & Hi' & Hm);
    [done|done|by rewrite Hord|done|lia|done|].
  rewrite Hts', bind_Ok. eexists. split; [done|].
  destruct Hm as [Mc Mr Mt Mk Ms].
  split; simpl; [done|done|lia| | | |].
  - rewrite sum_list_with_app. simpl. lia.
  - intros w Hw. specialize (Ho w Hw). specialize (Mc w). 
    assert (w ≠ x) by (intros ->; apply Hxo, Hord; done). specialize (Mc ltac:(done)). lia.
  - intros w Hw. destruct (decide (w = x)) as [->|Hwx].
    + rewrite Mr, Hn, decide_False, decide_True by set_solver. done.
    + specialize (Mc w Hwx). specialize (Hn w Hw).
      assert (Hgw : to_give ts w = []).
      { destruct (to_give ts w) as [|i l] eqn:Hg; [done|].
        destruct (ti_donors _ _ HT w i) as [Hoi _]; [rewrite Hg; set_solver|].
        apply elem_of_newW in Hw as [_ Hwo].
        by apply list_elem_of_lookup_2 in Hoi. }
      assert (Hgw' : to_give ts' w = []).
      { destruct (to_give ts' w) as [|i l] eqn:Hg; [done|].
        specialize (Ms w i). rewrite Hg, Hgw in Ms. set_solver. }
      rewrite Hgw, Hgw' in Mc. simpl in Mc.
      replace (occ w (owners_of ts')) with (occ w (owners_of ts)) by lia.
      rewrite Hn. apply decide_ext. set_solver.
  - intros j. destruct (Mk j) as [Hj|[Hj _]].
    + rewrite Hj. destruct (Hk j) as [?|(w & ? & ?)]; [by left|right].
      exists w. set_solver.
    + right. exists x. set_solver.
Qed.

(** The whole second phase of a scale-up. *)
Lemma scale_up_fold donors rem :
  donate_inv desired groups (go_range groups) (donors, rem) → 0 < rem →
  ∃ ts, foldM (scale_up_step desired order) (MkTransfer 0 donors old ∅, rem) newW
          = Ok (ts, 0) ∧ up_inv newW (ts, 0).
Proof.
  intros HD Hrem.
  destruct (foldM_total (scale_up_step desired order) up_inv newW
    (MkTransfer 0 donors old ∅, rem)) as ([ts r] & Hf & HI).
  - by apply up_inv_init.
  - apply scale_up_step_spec.
  - assert (r = 0) as -> by (pose proof (up_bal _ _ HI); simpl in *; lia).
    by exists ts.
Qed.

(** What a repartition promises, for the owners before and after: the shares
    of the updated list, movements recorded exactly, everything else kept. *)
Record even_result (nb : list BucketV2) (ch : OwnerChanges) : Prop := {
  er_length : length nb = length old;
  er_maps : Map <$> nb = Map <$> old;
  er_share : ∀ w, w ∈ updated → occ w (WorkerID <$> nb) = share_of p updated w;
  er_changes : ∀ s d i, i ∈ get_changes ch s d ↔
    ow !! i = Some s ∧ (WorkerID <$> nb) !! i = Some d ∧ s ≠ d;
  er_nodup : ∀ s d, NoDup (get_changes ch s d);
  er_nonempty : ∀ s inner, ch !! s = Some inner →
    inner ≠ ∅ ∧ ∀ d l, inner !! d = Some l → l ≠ []
}.

Lemma scale_up_counts donors rem ts :
  donate_inv desired groups (go_range groups) (donors, rem) →
  up_inv newW (ts, 0) → ∀ w, w ∈ updated → occ w (owners_of ts) = share_of p updated w.
Proof.
  intros HD [HT Hi Hr Hb Ho Hn Hk] w Hw. simpl in *.
  destruct (decide (w ∈ ow)) as [Hin|Hnin].
  - apply (grouped_order _ _ _ Hgr) in Hin. specialize (Ho w Hin).
    pose proof (sum_list_with_in w (λ d, length (to_give ts d)) order Hin). simpl in *.
    destruct (donations_cover _ HD) as (Hone & _). destruct (Hone w Hin). lia.
  - assert (w ∈ newW) by (by apply elem_of_newW). by rewrite Hn, decide_True.
Qed.

Lemma repartitionScaleUp_from donors rem :
  newW ≠ [] →
  foldM (donate_step desired) (∅, 0) (go_range groups) = Ok (donors, rem) →
  ∃ nb ch, repartitionScaleUp updated desired order groups old ∅ = Ok (nb, ch) ∧
    even_result nb ch ∧
    ∀ j, (WorkerID <$> nb) !! j = ow !! j ∨
         ∃ w, w ∉ ow ∧ (WorkerID <$> nb) !! j = Some w.
Proof.
  intros Hnew Hfold. pose proof (donate_fold_inv _ Hfold) as HD.
  assert (Hrem : 0 < rem).
  { destruct (donations_cover _ HD) as (_ & Hcov & Hr). simpl in Hr.
    destruct newW as [|x l] eqn:Hx; [done|]. simpl in Hcov.
    assert (x ∈ newW) as [Hxu _]%elem_of_newW by (rewrite Hx; set_solver).
    pose proof (share_of_pos p updated x Hxu Hsz Hnd). lia. }
  destruct (scale_up_fold donors rem HD Hrem) as (ts & Hts & HI).
  exists (newBuckets ts), (bucketOwnerChanges ts).
  pose proof (up_tinv _ _ HI) as HT. simpl in HT. split_and!.
  - unfold repartitionScaleUp.
    replace (length newW =? 0) with false by (by destruct newW). simpl.
    rewrite Hfold, bind_Ok. rewrite (proj2 (Nat.eqb_neq _ _)) by lia. simpl.
    by rewrite Hts, bind_Ok.
  - destruct HT. split; [done|done| |done|done|done].
    by apply (scale_up_counts donors rem).
  - intros j. destruct (up_keep _ _ HI j) as [?|(w & Hw & ?)]; [by left|right].
    apply elem_of_newW in Hw as [_ ?]. eauto.
Qed.

Lemma repartitionScaleUp_inv nb ch :
  repartitionScaleUp updated desired order groups old ∅ = Ok (nb, ch) →
  even_result nb ch ∧
  ∀ j, (WorkerID <$> nb) !! j = ow !! j ∨
       ∃ w, w ∉ ow ∧ (WorkerID <$> nb) !! j = Some w.
Proof.
  intros Hrep. assert (Hrep' := Hrep). unfold repartitionScaleUp in Hrep'.
  apply bind_Ok_inv in Hrep' as (u & Hu%fatal_if_Ok & Hrep').
  apply bind_Ok_inv in Hrep' as ([donors rem] & Hfold & _).
  destruct (repartitionScaleUp_from donors rem) as (nb' & ch' & Hok & Hres);
    [by destruct newW|done|]. rewrite Hrep in Hok. by injection Hok as <- <-.
Qed.

(** A scale-up goes through when no existing worker would have to grow. *)
Lemma repartitionScaleUp_total :
  newW ≠ [] → (∀ w, w ∈ order → share_of p updated w ≤ occ w ow) →
  ∃ nb ch, repartitionScaleUp updated desired order groups old ∅ = Ok (nb, ch).
Proof.
  intros Hnew Hle. destruct donate_fold_total as ([donors rem] & Hfold & _).
  { intros w Hw. split; [|auto]. by apply Hsup, (grouped_order _ _ _ Hgr). }
  destruct (repartitionScaleUp_from donors rem) as (nb & ch & ? & _); eauto.
Qed.
End ScaleUp.

(** ** Scale-down *)

Section ScaleDown.
Context (p : PartitionPolicyBase) (updated order : list Z) (old : list BucketV2).
Context (groups : gmap Z (list nat)) (desired : gmap Z nat).
Local Abbreviation ow := (WorkerID <$> old).
Hypothesis Hlen : length old = Z.to_nat (NumBuckets p).
Hypothesis Hgr : grouped ow order groups.
Hypothesis Hnd : NoDup updated.
Hypothesis Hne : updated ≠ [].
Hypothesis Hdes : getDesiredCountsPerWorker p updated = Ok desired.
Hypothesis Hsub : ∀ w, w ∈ updated → w ∈ ow.
Local Abbreviation upset := (list_to_set updated : gset Z).
Local Abbreviation removed := (filter (λ w, w ∉ upset) order).

Lemma elem_of_removed w : w ∈ removed ↔ w ∈ ow ∧ w ∉ updated.
Proof.
  rewrite list_elem_of_filter, elem_of_list_to_set.
  destruct (grouped_order _ _ _ Hgr) as [_ ->]. naive_solver.
Qed.

Lemma NoDup_removed : NoDup removed.
Proof. apply NoDup_filter, (grouped_order _ _ _ Hgr). Qed.

Lemma order_perm : order ≡ₚ removed ++ updated.
Proof.
  destruct (grouped_order _ _ _ Hgr) as [Hno Hord].
  apply NoDup_Permutation; [done| |].
  - apply NoDup_app. split_and!; [apply NoDup_removed| |done].
    intros w [_ ?]%elem_of_removed. done.
  - intros w. rewrite elem_of_app, Hord, elem_of_removed.
    destruct (decide (w ∈ updated)); naive_solver.
Qed.

Lemma groups_occ w : length (default [] (groups !! w)) = occ w ow.
Proof.
  destruct (groups !! w) as [l|] eqn:Hl; simpl.
  - by apply (grouped_indices _ _ _ Hgr w l Hl).
  - symmetry. apply occ_0. rewrite <-(grouped_dom _ _ _ Hgr), Hl. by intros [].
Qed.

(** First loop: the removed workers give away everything. *)
Lemma donate_all_fold :
  ∃ donors, foldM (donate_all_step groups) (∅, 0) removed =
    Ok (donors, sum_list_with (λ w, occ w ow) removed) ∧
    ∀ w, default [] (donors !! w) =
      if decide (w ∈ removed) then default [] (groups !! w) else [].
Proof.
  destruct (foldM_total (donate_all_step groups) (λ done st,
    st.2 = sum_list_with (λ w, occ w ow) done ∧
    ∀ w, default [] (st.1 !! w) =
      if decide (w ∈ done) then default [] (groups !! w) else []) removed (∅, 0))
    as ([donors n] & Hf & Hn & Hd).
  - split; [done|]. intros w. by rewrite decide_False by set_solver.
  - intros done x [donors n] [rest Hrest] [Hn Hd]. simpl in *.
    assert (x ∈ removed) as [Hx _]%elem_of_removed by (rewrite Hrest; set_solver).
    apply (grouped_dom _ _ _ Hgr) in Hx as [l Hl]. rewrite Hl.
    eexists. split; [done|]. simpl. split.
    + rewrite sum_list_with_app, <-Hn. simpl. rewrite <-groups_occ, Hl. simpl. lia.
    + intros w. destruct (decide (w = x)) as [->|Hwx].
      * rewrite lookup_insert_eq, decide_True, Hl by set_solver. done.
      * rewrite lookup_insert_ne, Hd by done. apply decide_ext. set_solver.
  - simpl in *. subst. eauto.
Qed.

Definition need_inv (done : list Z) (st : gmap Z nat * nat) : Prop :=
  st.2 = sum_list_with (λ w, share_of p updated w - occ w ow) done ∧
  (∀ w, default 0 (st.1 !! w) =
    if decide (w ∈ done) then share_of p updated w - occ w ow else 0) ∧
  ∀ w, w ∈ done → occ w ow ≤ share_of p updated w.

Lemma need_step_spec done x st st' :
  (done ++ [x]) `prefix_of` updated → need_inv done st →
  need_step desired groups st x = Ok st' → need_inv (done ++ [x]) st'.
Proof.
  intros [rest Hrest] (Hn & Hd & Hle) Hst. destruct st as [needs n]. simpl in *.
  assert (Hx : x ∈ updated) by (rewrite Hrest; set_solver).
  assert (Hxn : x ∉ done).
  { rewrite Hrest, <-app_assoc in Hnd. apply NoDup_app in Hnd as (_ & Hdj & _).
    intros ?%Hdj. set_solver. }
  rewrite (desired_lookup _ _ _ _ Hdes Hnd Hx), groups_occ in Hst.
  apply bind_Ok_inv in Hst as (u & Hge%fatal_if_Ok & Hst). apply Nat.ltb_ge in Hge.
  assert (Hle' : ∀ w, w ∈ done ++ [x] → occ w ow ≤ share_of p updated w) by set_solver.
  assert (Hsum : sum_list_with (λ w, share_of p updated w - occ w ow) (done ++ [x]) =
    n + (share_of p updated x - occ x ow)) by (rewrite sum_list_with_app; simpl; lia).
  destruct (Nat.eqb_spec (share_of p updated x - occ x ow) 0) as [H0|H0];
    injection Hst as <-; (split_and!; [simpl; lia| |done]); intros w; simpl.
  - rewrite Hd. destruct (decide (w = x)) as [->|]; [|apply decide_ext; set_solver].
    rewrite decide_False, decide_True by set_solver. done.
  - destruct (decide (w = x)) as [->|].
    + rewrite lookup_insert_eq, decide_True by set_solver. done.
    + rewrite lookup_insert_ne, Hd by done. apply decide_ext. set_solver.
Qed.

Lemma need_inv_nil : need_inv [] (∅, 0).
Proof. split_and!; [done| |set_solver]. intros w. by rewrite decide_False by set_solver. Qed.

Lemma need_fold_inv st :
  foldM (need_step desired groups) (∅, 0) updated = Ok st → need_inv updated st.
Proof. apply foldM_inv; [apply need_inv_nil|]. intros. by eapply need_step_spec. Qed.

Lemma need_fold_total :
  (∀ w, w ∈ updated → occ w ow ≤ share_of p updated w) →
  ∃ st, foldM (need_step desired groups) (∅, 0) updated = Ok st ∧ need_inv updated st.
Proof.
  intros Hle. apply foldM_total; [apply need_inv_nil|].
  intros done x st Hpre HI.
  assert (Hx : x ∈ updated) by (destruct Hpre as [rest ->]; set_solver).
  assert (∃ st', need_step desired groups st x = Ok st') as [st' Hst'].
  { destruct st as [needs n]. unfold need_step.
    rewrite (desired_lookup _ _ _ _ Hdes Hnd Hx), groups_occ.
    rewrite (proj2 (Nat.ltb_ge _ _)) by auto. simpl. case_match; eauto. }
  exists st'. split; [done|]. by eapply need_step_spec.
Qed.

(** What the removed workers give is what the remaining ones need. *)
Lemma needs_cover st :
  need_inv updated st → st.2 = sum_list_with (λ w, occ w ow) removed.
Proof.
  intros (-> & _ & Hle). destruct (grouped_order _ _ _ Hgr) as [Hno Hord].
  assert (Hall : sum_list_with (share_of p updated) updated =
                 sum_list_with (λ w, occ w ow) order).
  { rewrite sum_share_of by done. rewrite sum_occ, length_fmap; [lia|done|].
    intros w. apply Hord. }
  pose proof (sum_list_with_Permutation_proper (λ w, occ w ow) _ _ order_perm) as Hp.
  rewrite sum_list_with_app in Hp.
  assert (Hsplit : sum_list_with (share_of p updated) updated =
    sum_list_with (λ w, share_of p updated w - occ w ow) updated +
    sum_list_with (λ w, occ w ow) updated).
  { clear -Hle. generalize (share_of p updated) as f, Hle. clear Hle. intros f.
    induction updated as [|w l IH]; simpl; intros Hle; [done|].
    rewrite IH by set_solver. specialize (Hle w). set_solver by lia. }
  lia.
Qed.

(** Invariant of the loop over the remaining workers. *)
Record down_inv (done : list Z) (ts : TransferState) : Prop := {
  dn_tinv : TInv old ts;
  dn_idx : donorIdx ts < length removed;
  dn_bal : sum_list_with (λ d, length (to_give ts d)) removed +
           sum_list_with (λ w, share_of p updated w - occ w ow) done =
           sum_list_with (λ w, occ w ow) removed;
  dn_share : ∀ w, w ∈ updated → occ w (owners_of ts) =
    if decide (w ∈ done) then share_of p updated w else occ w ow;
  dn_only : ∀ w, w ∉ removed → to_give ts w = [];
  dn_keep : ∀ j, owners_of ts !! j = ow !! j ∨
    ∃ d, d ∉ updated ∧ ow !! j = Some d
}.

Lemma down_inv_init donors :
  removed ≠ [] →
  (∀ w, default [] (donors !! w) =
      if decide (w ∈ removed) then default [] (groups !! w) else []) →
  down_inv [] (MkTransfer 0 donors old ∅).
Proof.
  intros Hr Hd. assert (Hg : ∀ w, to_give (MkTransfer 0 donors old ∅) w =
    if decide (w ∈ removed) then default [] (groups !! w) else []) by done.
  split; simpl.
  - split; simpl; [done|done| | | |intros s d; unfold get_changes; simpl; constructor|done].
    + intros d i. rewrite Hg. case_decide; [|set_solver].
      destruct (groups !! d) as [l|] eqn:Hl; simpl; [|set_solver].
      intros Hi. by apply (grouped_indices _ _ _ Hgr d l Hl) in Hi.
    + intros d. rewrite Hg. case_decide; [|constructor].
      destruct (groups !! d) as [l|] eqn:Hl; simpl; [|constructor].
      by apply (grouped_indices _ _ _ Hgr d l Hl).
    + intros s d i. unfold get_changes. rewrite lookup_empty. simpl.
      rewrite lookup_empty. simpl. unfold owners_of. simpl. set_unfold. naive_solver.
  - destruct removed; [done|simpl; lia].
  - rewrite Nat.add_0_r. apply sum_list_with_ext. intros w Hw.
    by rewrite Hg, decide_True, groups_occ.
  - done.
  - intros w Hw. by rewrite Hg, decide_False.
  - intros j. by left.
Qed.

Lemma scale_down_step_spec needs n done x ts :
  need_inv updated (needs, n) →
  (done ++ [x]) `prefix_of` updated → down_inv done ts →
  ∃ ts', scale_down_step needs removed ts x = Ok ts' ∧ down_inv (done ++ [x]) ts'.
Proof.
  intros HN [rest Hrest] [HT Hi Hb Hs Hon Hk].
  pose proof (needs_cover _ HN) as Hcov. destruct HN as (Hn & Hd & Hle). simpl in *.
  assert (Hx : x ∈ updated) by (rewrite Hrest; set_solver).
  assert (Hxn : x ∉ done).
  { rewrite Hrest, <-app_assoc in Hnd. apply NoDup_app in Hnd as (_ & Hdj & _).
    intros ?%Hdj. set_solver. }
  assert (Hxr : x ∉ removed) by (rewrite elem_of_removed; naive_solver).
  unfold scale_down_step. rewrite Hd, decide_True by done.
  set (need := share_of p updated x - occ x ow) in *.
  assert (Hneed : need ≤ sum_list_with (λ d, length (to_give ts d)) removed).
  { assert (∀ f : Z → nat, sum_list_with f done + f x ≤ sum_list_with f updated) as Hf.
    { intros f. rewrite Hrest, !sum_list_with_app. simpl. lia. }
    specialize (Hf (λ w, share_of p updated w - occ w ow)). simpl in Hf.
    fold need in Hf. lia. }
  destruct (transfer_spec old removed x need (transfer_fuel removed need) ts)
    as (ts' & Hts' & HT' & Hi' & [Mc Mr Mt Mk Ms]); [done|apply NoDup_removed|done..|].
  assert (Hon' : ∀ w, w ∉ removed → to_give ts' w = []).
  { intros w Hw. destruct (to_give ts' w) as [|i l] eqn:Hg; [done|].
    specialize (Ms w i). rewrite Hg, (Hon w Hw) in Ms. set_solver. }
  exists ts'. split; [done|]. split; [done|done| | |done|].
  - rewrite sum_list_with_app. simpl. fold need. lia.
  - intros w Hw. destruct (decide (w = x)) as [->|Hwx].
    + rewrite Mr, Hs, decide_False, decide_True by set_solver.
      specialize (Hle x Hx). lia.
    + specialize (Mc w Hwx).
      assert (w ∉ removed) by (rewrite elem_of_removed; naive_solver).
      rewrite Hon, Hon', Hs in Mc by done. simpl in Mc.
      replace (occ w (owners_of ts')) with
        (if decide (w ∈ done) then share_of p updated w else occ w ow) by lia.
      apply decide_ext. set_solver.
  - intros j. destruct (Mk j) as [Hj|(Hj & d & Hdr & Hoj)].
    + rewrite Hj. apply Hk.
    + destruct (Hk j) as [Hkj|?]; [|by right]. right. exists d.
      apply elem_of_removed in Hdr as [_ ?]. split; [done|congruence].
Qed.

Lemma repartitionScaleDown_from needs n :
  removed ≠ [] →
  foldM (need_step desired groups) (∅, 0) updated = Ok (needs, n) →
  ∃ nb ch, repartitionScaleDown updated upset desired order groups old ∅ = Ok (nb, ch) ∧
    even_result p updated old nb ch ∧
    ∀ j, (WorkerID <$> nb) !! j = ow !! j ∨ ∃ d, d ∉ updated ∧ ow !! j = Some d.
Proof.
  intros Hr Hfold. pose proof (need_fold_inv _ Hfold) as HN.
  pose proof (needs_cover _ HN) as Hcov. simpl in Hcov.
  destruct donate_all_fold as (donors & Hdon & Hd).
  destruct (foldM_total (scale_down_step needs removed) down_inv updated
    (MkTransfer 0 donors old ∅)) as (ts & Hts & HI).
  { by apply down_inv_init. }
  { intros. by eapply scale_down_step_spec. }
  exists (newBuckets ts), (bucketOwnerChanges ts).
  pose proof (dn_tinv _ _ HI) as HT. split_and!.
  - unfold repartitionScaleDown.
    replace (length removed =? 0) with false by (by destruct removed). simpl.
    rewrite Hdon, bind_Ok, Hfold, bind_Ok, <-Hcov, Nat.eqb_refl. simpl.
    by rewrite Hts, bind_Ok.
  - destruct HT. split; [done|done| |done|done|done].
    intros w Hw. pose proof (dn_share _ _ HI w Hw) as Hs.
    by rewrite decide_True in Hs.
  - apply (dn_keep _ _ HI).
Qed.

Lemma repartitionScaleDown_inv nb ch :
  repartitionScaleDown updated upset desired order groups old ∅ = Ok (nb, ch) →
  even_result p updated old nb ch ∧
  ∀ j, (WorkerID <$> nb) !! j = ow !! j ∨ ∃ d, d ∉ updated ∧ ow !! j = Some d.
Proof.
  intros Hrep. assert (Hrep' := Hrep). unfold repartitionScaleDown in Hrep'.
  apply bind_Ok_inv in Hrep' as (u & Hu%fatal_if_Ok & Hrep').
  apply bind_Ok_inv in Hrep' as ([donors m] & _ & Hrep').
  apply bind_Ok_inv in Hrep' as ([needs n] & Hfold & _).
  destruct (repartitionScaleDown_from needs n) as (nb' & ch' & Hok & Hres);
    [by destruct removed|done|]. rewrite Hrep in Hok. by injection Hok as <- <-.
Qed.

(** A scale-down goes through when no remaining worker would have to shrink. *)
Lemma repartitionScaleDown_total :
  removed ≠ [] → (∀ w, w ∈ updated → occ w ow ≤ share_of p updated w) →
  ∃ nb ch, repartitionScaleDown updated upset desired order groups old ∅ = Ok (nb, ch).
Proof.
  intros Hr Hle. destruct (need_fold_total Hle) as ([needs n] & Hfold & _).
  destruct (repartitionScaleDown_from needs n) as (nb & ch & ? & _); eauto.
Qed.
End ScaleDown.

(** ** The whole repartition *)

Lemma sum_occ_cover (ws l : list Z) :
  NoDup ws → sum_list_with (λ w, occ w l) ws = length l → ∀ x, x ∈ l → x ∈ ws.
Proof.
  intros Hnd Hsum x Hx. destruct (decide (x ∈ ws)) as [|Hn]; [done|exfalso].
  assert (Hf : sum_list_with (λ w, occ w (filter (.∈ ws) l)) ws =
               length (filter (.∈ ws) l)).
  { apply sum_occ; [done|]. by intros y [? _]%list_elem_of_filter. }
  rewrite (sum_list_with_ext _ (λ w, occ w l)) in Hf.
  - rewrite Hsum in Hf. pose proof (length_filter_lt (.∈ ws) l x Hx Hn). lia.
  - intros w Hw. unfold occ. rewrite list_filter_filter. f_equal.
    apply list_filter_iff. naive_solver.
Qed.

Lemma get_sort_changes ch s d :
  get_changes (sort_changes ch) s d = sort_ints (get_changes ch s d).
Proof.
  unfold get_changes, sort_changes. rewrite lookup_fmap.
  destruct (ch !! s) as [inner|]; simpl; [|by rewrite !lookup_empty].
  rewrite lookup_fmap. by destruct (inner !! d).
Qed.

Lemma sort_ints_perm l : sort_ints l ≡ₚ l.
Proof. apply merge_sort_Permutation. Qed.

Lemma sort_ints_sorted l : NoDup l → StronglySorted lt (sort_ints l).
Proof.
  intros Hnd. assert (Hs : StronglySorted le (sort_ints l)).
  { apply (StronglySorted_merge_sort (≤)). }
  rewrite <-(sort_ints_perm l) in Hnd. revert Hs Hnd. generalize (sort_ints l) as l'.
  induction l' as [|x l' IH]; intros Hs Hnd; [constructor|].
  inversion Hs as [|?? Hs' Hall]; subst. apply NoDup_cons in Hnd as [Hx Hnd].
  constructor; [by apply IH|]. rewrite Forall_forall in Hall |- *.
  intros y Hy. specialize (Hall y Hy). assert (x ≠ y) by (by intros ->). lia.
Qed.

Lemma even_result_exact p updated old nb ch :
  even_result p updated old nb ch →
  changes_exact (WorkerID <$> old) (WorkerID <$> nb) (sort_changes ch).
Proof.
  intros [_ _ _ Hiff Hnd Hne]. split.
  - intros s d i. rewrite get_sort_changes, sort_ints_perm. apply Hiff.
  - intros s d. rewrite get_sort_changes. by apply sort_ints_sorted.
  - intros s inner. unfold sort_changes. rewrite lookup_fmap.
    destruct (ch !! s) as [i0|] eqn:Hi; simpl; [|done]. intros [= <-].
    destruct (Hne s i0 Hi) as [He Hl]. split.
    + by intros ?%fmap_empty_inv.
    + intros d l. rewrite lookup_fmap. destruct (i0 !! d) as [l0|] eqn:Hd; [|done].
      intros [= <-] Hnil. apply (Hl d l0 Hd). apply Permutation_nil_r.
      by rewrite <-Hnil, sort_ints_perm.
Qed.

Lemma copy_buckets_full n old :
  (0 ≤ n)%Z → length old = Z.to_nat n → copy_buckets n old = Ok old.
Proof.
  intros Hn Hlen. unfold copy_buckets, go_make. rewrite (proj2 (Z.ltb_ge _ _)) by lia.
  rewrite bind_Ok, length_replicate, take_ge, drop_ge, app_nil_r; [done| |lia].
  rewrite length_replicate. lia.
Qed.

(** What a successful validation has established. *)
Record validated (p : PartitionPolicyBase) (updated order : list Z)
    (old : list BucketV2) (s : gset Z) (groups : gmap Z (list nat)) : Prop := {
  va_grouped : grouped (WorkerID <$> old) order groups;
  va_nodup : NoDup updated;
  va_nonempty : updated ≠ [];
  va_size : (Z.of_nat (length updated) ≤ NumBuckets p)%Z;
  va_set : s = list_to_set updated;
  va_kind :
    (length order < length updated ∧ ∀ w, w ∈ WorkerID <$> old → w ∈ updated) ∨
    (length updated < length order ∧ ∀ w, w ∈ updated → w ∈ WorkerID <$> old)
}.

Lemma validate_inv p updated old s order groups :
  validateAndPrepareRepartition p updated old = Ok (s, order, groups) →
  validated p updated order old s groups.
Proof.
  unfold validateAndPrepareRepartition.
  intros (u1 & Hne%fatal_if_Ok & Hv)%bind_Ok_inv.
  apply bind_Ok_inv in Hv as (u2 & Hsz%fatal_if_Ok & Hv). apply Z.ltb_ge in Hsz.
  apply bind_Ok_inv in Hv as (s' & Hset & Hv).
  apply updated_set_spec in Hset as [Hnd ->].
  destruct (group_buckets ([], ∅) 0 old) as [order' groups'] eqn:Hg.
  apply group_buckets_spec in Hg.
  apply bind_Ok_inv in Hv as (u3 & Heq%fatal_if_Ok & Hv).
  apply bind_Ok_inv in Hv as (u4 & Hk & Hv). injection Hv as <- <- <-.
  pose proof (grouped_length _ _ _ Hg) as Hlo.
  rewrite size_list_to_set in * by done. apply Nat.eqb_neq in Heq.
  split; [done|done|by destruct updated|done|done|].
  destruct (Nat.ltb_spec (size groups') (length updated)); apply fatal_if_Ok in Hk;
    apply bool_decide_eq_false in Hk; apply dec_stable in Hk.
  - left. split; [lia|]. intros w Hw. apply (grouped_dom _ _ _ Hg) in Hw.
    apply elem_of_dom in Hw. set_solver.
  - right. split; [lia|]. intros w Hw. apply (grouped_dom _ _ _ Hg).
    apply elem_of_dom. set_solver.
Qed.

Lemma validate_total p updated old :
  NoDup updated → updated ≠ [] → (Z.of_nat (length updated) ≤ NumBuckets p)%Z →
  let '(order, groups) := group_buckets ([], ∅) 0 old in
  (length order < length updated ∧ (∀ w, w ∈ WorkerID <$> old → w ∈ updated)) ∨
  (length updated < length order ∧ (∀ w, w ∈ updated → w ∈ WorkerID <$> old)) →
  validateAndPrepareRepartition p updated old =
  Ok (list_to_set updated, order, groups).
Proof.
  intros Hnd Hne Hsz. unfold validateAndPrepareRepartition.
  destruct (group_buckets ([], ∅) 0 old) as [order groups] eqn:Hg. intros Hk.
  apply group_buckets_spec in Hg. pose proof (grouped_length _ _ _ Hg) as Hlo.
  replace (length updated =? 0) with false by (by destruct updated).
  rewrite (proj2 (Z.ltb_ge _ _)) by done. rewrite !bind_fatal_false.
  rewrite updated_set_total, bind_Ok, size_list_to_set by done.
  rewrite (proj2 (Nat.eqb_neq _ _)) by lia. rewrite bind_fatal_false.
  destruct Hk as [[Hl Hs]|[Hl Hs]].
  - rewrite (proj2 (Nat.ltb_lt _ _)) by lia. rewrite bool_decide_eq_false_2; [done|].
    intros Hn. apply Hn. intros w Hw%elem_of_dom.
    apply (grouped_dom _ _ _ Hg), Hs in Hw. by apply elem_of_list_to_set.
  - rewrite (proj2 (Nat.ltb_ge _ _)) by lia. rewrite bool_decide_eq_false_2; [done|].
    intros Hn. apply Hn. intros w Hw%elem_of_list_to_set. apply elem_of_dom.
    by apply (grouped_dom _ _ _ Hg), Hs.
Qed.

(** A table over the worker list [ws] in which the worker at position [k] has
    exactly the [k]-th share. *)
Record even_table (p : PartitionPolicyBase) (ws : list Z) (bs : list BucketV2) : Prop := {
  et_length : length bs = Z.to_nat (NumBuckets p);
  et_nodup : NoDup ws;
  et_nonempty : ws ≠ [];
  et_size : (Z.of_nat (length ws) ≤ NumBuckets p)%Z;
  et_share : ∀ k w, ws !! k = Some w →
    occ w (WorkerID <$> bs) = share (Z.to_nat (NumBuckets p)) (length ws) k
}.

Lemma even_table_owners p ws bs :
  even_table p ws bs → ∀ w, w ∈ WorkerID <$> bs ↔ w ∈ ws.
Proof.
  intros [Hl Hnd Hne Hsz Hs] w. split.
  - apply sum_occ_cover; [done|]. rewrite length_fmap, Hl, <-(sum_share_of p ws) by done.
    apply sum_list_with_ext. intros x [k Hk]%list_elem_of_lookup.
    by rewrite (Hs k), (share_of_lookup p ws k).
  - intros [k Hk]%list_elem_of_lookup. apply occ_pos. rewrite (Hs k w Hk).
    apply lookup_lt_Some in Hk. apply share_pos; lia.
Qed.

Section EvenTop.
Context `{GoRange}.

Lemma even_RePartitionV2_inv p updated old new ch :
  length old = Z.to_nat (NumBuckets p) →
  even_RePartitionV2 p updated old = Ok (new, ch) →
  even_table p updated new ∧ Map <$> new = Map <$> old ∧
  changes_exact (WorkerID <$> old) (WorkerID <$> new) ch ∧
  ((∀ w, w ∈ WorkerID <$> old → w ∈ updated) ∧
   (∀ j, (WorkerID <$> new) !! j = (WorkerID <$> old) !! j ∨
      ∃ w, w ∉ WorkerID <$> old ∧ (WorkerID <$> new) !! j = Some w) ∨
   (∀ w, w ∈ updated → w ∈ WorkerID <$> old) ∧
   (∀ j, (WorkerID <$> new) !! j = (WorkerID <$> old) !! j ∨
      ∃ d, d ∉ updated ∧ (WorkerID <$> old) !! j = Some d)).
Proof.
  intros Hlen Hrep. unfold even_RePartitionV2 in Hrep.
  apply bind_Ok_inv in Hrep as ([[s order] groups] & [Hg Hnd Hne Hsz -> Hk]%validate_inv & Hrep).
  apply bind_Ok_inv in Hrep as (desired & Hdes & Hrep).
  rewrite copy_buckets_full, bind_Ok, size_list_to_set in Hrep by (done || lia).
  apply bind_Ok_inv in Hrep as ([nb ch0] & Hup & Hfin). injection Hfin as <- <-.
  assert (Hfinish : even_result p updated old nb ch0 →
    even_table p updated nb ∧ Map <$> nb = Map <$> old ∧
    changes_exact (WorkerID <$> old) (WorkerID <$> nb) (sort_changes ch0)).
  { intros Her. split_and!; [|apply Her|by eapply even_result_exact].
    split; [rewrite (er_length _ _ _ _ _ Her); done|done|done|done|].
    intros k w Hkw. rewrite (er_share _ _ _ _ _ Her) by (by eapply list_elem_of_lookup_2).
    by apply share_of_lookup. }
  destruct Hk as [[Hl Hs]|[Hl Hs]].
  - rewrite (proj2 (Nat.ltb_lt _ _)) in Hup by lia.
    edestruct repartitionScaleUp_inv as [Her Hmv]; [done..|]. naive_solver.
  - rewrite (proj2 (Nat.ltb_ge _ _)) in Hup by lia.
    edestruct repartitionScaleDown_inv as [Her Hmv]; [done..|]. naive_solver.
Qed.

(** Fewer shares on a longer list, position by position. *)
Lemma share_anti total n m k :
  0 < n → n ≤ m → share total m k ≤ share total n k.
Proof.
  intros Hn Hm. unfold share.
  pose proof (Nat.div_le_compat_l total n m ltac:(lia)) as Hd.
  destruct (Nat.ltb_spec k (total `mod` m)); destruct (Nat.ltb_spec k (total `mod` n));
    try lia.
  destruct (decide (total `div` m = total `div` n)) as [He|]; [|lia].
  pose proof (Nat.div_mod_eq total n). pose proof (Nat.div_mod_eq total m). nia.
Qed.

(** The scale-up of the coordinator: new workers are appended. *)
Lemma even_scale_up_ok p ws fresh old :
  even_table p ws old → fresh ≠ [] → NoDup (ws ++ fresh) →
  (Z.of_nat (length (ws ++ fresh)) ≤ NumBuckets p)%Z →
  ∃ new ch, even_RePartitionV2 p (ws ++ fresh) old = Ok (new, ch).
Proof.
  intros Het Hf Hnd Hsz. pose proof (even_table_owners _ _ _ Het) as Hown.
  destruct Het as [Hl Hndw Hne Hszw Hs].
  assert (Hlf : 0 < length fresh) by (destruct fresh; [done|simpl; lia]).
  pose proof (validate_total p (ws ++ fresh) old Hnd ltac:(by destruct ws) Hsz) as Hv.
  destruct (group_buckets ([], ∅) 0 old) as [order groups] eqn:Hg.
  apply group_buckets_spec in Hg. destruct (grouped_order _ _ _ Hg) as [Hno Hord].
  assert (Hlo : length order = length ws).
  { apply Permutation_length, NoDup_Permutation; [done..|]. intros w. by rewrite Hord, Hown. }
  unfold even_RePartitionV2. rewrite Hv; clear Hv.
  2: { left. split; [rewrite length_app; lia|]. intros w Hw%Hown. set_solver. }
  rewrite bind_Ok. destruct (getDesiredCountsPerWorker p (ws ++ fresh)) as [desired|] eqn:Hdes.
  2: { by destruct ws. }
  rewrite bind_Ok, copy_buckets_full, bind_Ok, size_list_to_set by (done || lia).
  rewrite (proj2 (Nat.ltb_lt _ _)) by (rewrite length_app; lia).
  destruct (repartitionScaleUp_total p (ws ++ fresh) order old groups desired)
    as (nb & ch & ->); [done..| | | |by eexists _, _].
  - intros w Hw%Hown. set_solver.
  - destruct fresh as [|x fresh]; [done|]. intros Hnil.
    assert (x ∈ filter (λ w, groups !! w = None) (ws ++ x :: fresh)) as Hx.
    { apply list_elem_of_filter. split; [|set_solver]. apply eq_None_not_Some.
      rewrite (grouped_dom _ _ _ Hg), Hown. apply NoDup_app in Hnd as (_ & Hd & _).
      intros ?%Hd. set_solver. }
    rewrite Hnil in Hx. set_solver.
  - intros w Hw%Hord%Hown. apply list_elem_of_lookup in Hw as [k Hk].
    rewrite (Hs k w Hk). rewrite (share_of_lookup _ _ k);
      [|done|by apply lookup_app_l_Some].
    apply share_anti; [destruct ws; [done|simpl; lia]|rewrite length_app; lia].
Qed.

(** The scale-down of the coordinator: the last workers are dropped. *)
Lemma even_scale_down_ok p ws m old :
  even_table p ws old → 0 < m < length ws →
  ∃ new ch, even_RePartitionV2 p (take m ws) old = Ok (new, ch).
Proof.
  intros Het Hm. pose proof (even_table_owners _ _ _ Het) as Hown.
  destruct Het as [Hl Hndw Hne Hszw Hs].
  assert (Hlt : length (take m ws) = m) by (rewrite length_take; lia).
  assert (Hnd : NoDup (take m ws)).
  { rewrite <-(take_drop m ws) in Hndw. by apply NoDup_app in Hndw as (? & _). }
  assert (Hnet : take m ws ≠ []) by (intros Hnil; rewrite Hnil in Hlt; simpl in Hlt; lia).
  assert (Hsz : (Z.of_nat (length (take m ws)) ≤ NumBuckets p)%Z) by lia.
  assert (Hsub : ∀ w, w ∈ take m ws → w ∈ WorkerID <$> old).
  { intros w Hw. apply Hown. rewrite <-(take_drop m ws). set_solver. }
  pose proof (validate_total p (take m ws) old Hnd Hnet Hsz) as Hv.
  destruct (group_buckets ([], ∅) 0 old) as [order groups] eqn:Hg.
  apply group_buckets_spec in Hg. destruct (grouped_order _ _ _ Hg) as [Hno Hord].
  assert (Hper : order ≡ₚ ws).
  { apply NoDup_Permutation; [done..|]. intros w. by rewrite Hord, Hown. }
  assert (Hlo : length order = length ws) by (by apply Permutation_length).
  unfold even_RePartitionV2. rewrite Hv; clear Hv; [|right; split; [lia|done]].
  rewrite bind_Ok.
  destruct (getDesiredCountsPerWorker p (take m ws)) as [desired|] eqn:Hdes.
  2: { by destruct (take m ws). }
  rewrite bind_Ok, copy_buckets_full, bind_Ok, size_list_to_set by (done || lia).
  rewrite (proj2 (Nat.ltb_ge _ _)) by lia.
  destruct (repartitionScaleDown_total p (take m ws) order old groups desired)
    as (nb & ch & ->); [done..| | |by eexists _, _].
  - destruct (lookup_lt_is_Some_2 ws m) as [x Hx]; [lia|]. intros Hnil.
    assert (x ∈ filter (λ w, w ∉ (list_to_set (take m ws) : gset Z)) order) as Hin.
    { apply list_elem_of_filter. rewrite elem_of_list_to_set. split.
      - intros [j Hj]%list_elem_of_lookup. apply lookup_take_Some in Hj as [Hj ?].
        pose proof (NoDup_lookup _ _ _ _ Hndw Hj Hx). lia.
      - rewrite Hper. by eapply list_elem_of_lookup_2. }
    rewrite Hnil in Hin. set_solver.
  - intros w [k Hk]%list_elem_of_lookup. rewrite (share_of_lookup _ _ k) by done.
    pose proof Hk as [Hkw ?]%lookup_take_Some. rewrite (Hs k w Hkw), Hlt.
    apply share_anti; lia.
Qed.
End EvenTop.

(** ** The even policy keeps the laws of the interface *)

Lemma deref_mkBucket (ws : list Z) : deref_buckets (mkBucket <$> ws) = Ok (mkBucketV2 <$> ws).
Proof. induction ws as [|w ws IH]; [done|]. csimpl. by rewrite IH. Qed.

#[export] Instance even_laws `{GoRange} p :
  PolicyLaws (EvenPartitionPolicy p) (Z.to_nat (NumBuckets p)).
Proof.
  split; simpl.
  - intros ws bs (? & -> & Hl & Hin)%generate_ranges_shape.
    rewrite length_fmap. split_and!; [done..|].
    apply Forall_fmap, Forall_forall. naive_solver.
  - intros ws old new ch Hlen Hrep.
    destruct (even_RePartitionV2_inv p ws old new ch) as (Het & _ & Hex & _); [done..|].
    pose proof (even_table_owners _ _ _ Het) as Hown. destruct Het.
    split_and!; [done..| |done]. apply Forall_forall. intros b Hb.
    apply Hown. by apply list_elem_of_fmap_2.
  - intros ws. apply generate_ranges_agree.
  - intros ws old. unfold even_RePartition. rewrite deref_mkBucket, bind_Ok.
    by destruct (even_RePartitionV2 _ _ _) as [[??]|].
Qed.

Lemma even_GenerateBucketsV2_table p ws bs :
  NoDup ws → even_GenerateBucketsV2 p ws = Ok bs → even_table p ws bs.
Proof.
  intros Hnd (Hne & Hle & ->)%generate_ranges_inv.
  assert (Hid : WorkerID <$> (mkBucketV2 <$> range_owners (Z.to_nat (NumBuckets p)) ws) =
    range_owners (Z.to_nat (NumBuckets p)) ws).
  { rewrite <-list_fmap_compose. apply list_fmap_id. }
  split; [|done..|].
  - by rewrite length_fmap, length_range_owners.
  - intros k w Hk. rewrite Hid. by apply occ_range_owners.
Qed.

(** ** Properties *)

(** C25: a successful repartition of the even policy returns a table with one
    entry per bucket in which the worker at position [k] of the updated list
    owns exactly its share ([NumBuckets/n] buckets, one more for the first
    [NumBuckets mod n] workers), reports exactly the buckets whose owner
    changed, and moves buckets only to added workers (scale-up) or only away
    from removed workers (scale-down). *)
Theorem even_repartition_correct `{GoRange} p updated old new ch
    (Hlen : length old = Z.to_nat (NumBuckets p))
    (Hok : even_RePartitionV2 p updated old = Ok (new, ch)) :
  even_table p updated new ∧
  changes_exact (WorkerID <$> old) (WorkerID <$> new) ch ∧
  ∀ i s d, (WorkerID <$> old) !! i = Some s → (WorkerID <$> new) !! i = Some d →
    s ≠ d →
    (d ∈ updated ∧ d ∉ WorkerID <$> old ∧ ∀ w, w ∈ WorkerID <$> old → w ∈ updated) ∨
    (s ∉ updated ∧ ∀ w, w ∈ updated → w ∈ WorkerID <$> old).
Proof.
  destruct (even_RePartitionV2_inv p updated old new ch) as (Het & _ & Hex & Hmv); [done..|].
  split_and!; [done..|]. intros i s d Hs Hd Hsd.
  assert (Hdu : d ∈ updated).
  { apply (even_table_owners _ _ _ Het). by eapply list_elem_of_lookup_2. }
  destruct Hmv as [[Hall Hm]|[Hall Hm]]; destruct (Hm i) as [?|(x & ? & ?)];
    [congruence|left|congruence|right].
  - assert (x = d) as -> by congruence. done.
  - assert (x = s) as -> by congruence. done.
Qed.

Definition ev_p7 : PartitionPolicyBase := MkPolicyBase 7.
Definition ev_old : list BucketV2 := mkBucketV2 <$> range_owners 7 [10; 20]%Z.
Definition ev_new : list BucketV2 := mkBucketV2 <$> [10; 10; 10; 30; 20; 20; 30]%Z.
Definition ev_ch : OwnerChanges := {[10%Z := {[30%Z := [3]]}; 20%Z := {[30%Z := [6]]}]}.

Lemma even_repartition_correct_witness :
  even_RePartitionV2 ev_p7 [10; 20; 30]%Z ev_old = Ok (ev_new, ev_ch) ∧
  even_table ev_p7 [10; 20; 30]%Z ev_new.
Proof.
  assert (Hrun : even_RePartitionV2 ev_p7 [10; 20; 30]%Z ev_old = Ok (ev_new, ev_ch))
    by (vm_compute; reflexivity).
  split; [exact Hrun|].
  exact (proj1 (even_repartition_correct ev_p7 [10; 20; 30]%Z ev_old ev_new ev_ch
                  eq_refl Hrun)).
Defined.

(** The two rescalings the coordinator issues never fail: appending fresh
    workers to, or dropping a suffix of, the worker list of an even table. *)
Theorem even_rescale_total `{GoRange} p ws old
    (Hold : even_table p ws old) :
  (∀ fresh, fresh ≠ [] → NoDup (ws ++ fresh) →
     (Z.of_nat (length (ws ++ fresh)) ≤ NumBuckets p)%Z →
     ∃ new ch, even_RePartitionV2 p (ws ++ fresh) old = Ok (new, ch)) ∧
  (∀ m, 0 < m < length ws →
     ∃ new ch, even_RePartitionV2 p (take m ws) old = Ok (new, ch)).
Proof.
  split; intros; [by apply even_scale_up_ok|by apply even_scale_down_ok].
Qed.

Lemma ev_old_table : even_table ev_p7 [10; 20]%Z ev_old.
Proof.
  apply even_GenerateBucketsV2_table; [|vm_compute; reflexivity].
  apply (bool_decide_unpack _). vm_compute. done.
Defined.

Lemma even_rescale_total_witness :
  ∃ new ch, even_RePartitionV2 ev_p7 [10; 20; 30]%Z ev_old = Ok (new, ch).
Proof.
  apply (proj1 (even_rescale_total ev_p7 [10; 20]%Z ev_old ev_old_table) [30]%Z).
  - done.
  - apply (bool_decide_unpack _). vm_compute. done.
  - vm_compute. discriminate.
Defined.

(** Not every strict superset is accepted as a scale-up: when the updated
    list puts an existing worker at a position with a larger share than it
    owns, the repartition ends the process.  Five buckets over 10, 20, 30 and
    then 30, 10, 20, 40. *)
Theorem even_reordered_superset_fatal :
  let p := MkPolicyBase 5 in
  ∃ old, even_GenerateBucketsV2 p [10; 20; 30]%Z = Ok old ∧
    (∀ w, w ∈ [10; 20; 30]%Z → w ∈ [30; 10; 20; 40]%Z) ∧
    even_RePartitionV2 p [30; 10; 20; 40]%Z old =
      Crash (Fatal "Scale-up invalid: existing worker desires more buckets than it owns").
Proof.
  eexists. split; [vm_compute; reflexivity|]. split; [set_solver|]. vm_compute. reflexivity.
Qed.
