(* ===== verification/PartitionTable.v ===== *)
(** * Partition tables

    [PartitionTable] ([internal/keyby/partitionTable.go]) and the pointer-based
    [KeyLookupTable] ([internal/keyby/keyLookupTable.go]): routing of a key to
    its worker, the range encoding sent over gRPC, and reconfiguration through
    a partition policy. *)

From stdpp Require Import prelude gmap strings list sorting.
From Stdlib Require Import ZArith Lia.
From S2P Require Import Prelude Partition.

(** [grpc.BucketRange]: consecutive buckets of one worker, both ends included. *)
Record BucketRange := MkRange {
  WorkerId : Z;
  LowerBucketIdx : Z;
  UpperBucketIdx : Z
}.

#[export] Instance BucketRange_eq_dec : EqDecision BucketRange.
Proof. solve_decision. Defined.

(** [for i := Lower; i <= Upper; i++ { buckets[i] = x }]. *)
Definition range_fill {B} (buckets : list B) (lower upper : Z) (x : B) : res (list B) :=
  if (upper <? lower)%Z then Ok buckets
  else if (lower <? 0)%Z then Crash Panic
  else fill buckets (Z.to_nat lower) (Z.to_nat (upper - lower + 1)) x.

(** ** PartitionTable *)

Record PartitionTable := MkTable {
  H : HashFunc;
  Buckets : list Z
}.

Definition NewPartitionTable (h : HashFunc) (policy : PartitionPolicy)
    (workers : list Z) : res PartitionTable :=
  bucketV2List ← GenerateBucketsV2 policy workers;
  Ok (MkTable h (WorkerID <$> bucketV2List)).

(** [DeserializePartitionTable]; the final length check of the code compares
    the slice with the size it was made with. *)
Definition DeserializePartitionTable (h : HashFunc) (numBuckets : Z)
    (bucketRanges : list BucketRange) : res PartitionTable :=
  buckets ← go_make 0%Z numBuckets;
  buckets ← foldM (λ bs r,
      range_fill bs (LowerBucketIdx r) (UpperBucketIdx r) (u16 (WorkerId r)))
    buckets bucketRanges;
  fatal_if (negb (Z.of_nat (length buckets) =? numBuckets)%Z)
    "Deserialized bucket length is not equal to NumBuckets";;
  Ok (MkTable h buckets).

(** [hashValue % uint64(len(table.Buckets))]: an empty table panics. *)
Definition bucket_of_key (h : HashFunc) (numBuckets : nat) (key : bytes) : res nat :=
  panic_if (numBuckets =? 0);;
  Ok (Z.to_nat (Hash h key mod Z.of_nat numBuckets)).

Definition KeyToWorkerID (table : PartitionTable) (key : bytes) : res Z :=
  bucketIdx ← bucket_of_key (H table) (length (Buckets table)) key;
  idx (Buckets table) bucketIdx.

(** The loop of [Serialize]: [cur] is the range under construction. *)
Fixpoint serialize_loop (i : nat) (cur : BucketRange) (lastOwner : Z)
    (buckets : list Z) : list BucketRange :=
  match buckets with
  | [] => [cur]
  | b :: rest =>
      if (b =? lastOwner)%Z
      then serialize_loop (S i)
             (MkRange (WorkerId cur) (LowerBucketIdx cur) (Z.of_nat i)) lastOwner rest
      else cur :: serialize_loop (S i)
             (MkRange (u32 b) (Z.of_nat i) (Z.of_nat i)) b rest
  end.

Definition serialize_owners (buckets : list Z) : res (list BucketRange) :=
  lastOwner ← idx buckets 0;
  Ok (serialize_loop 0 (MkRange (u32 lastOwner) 0 0) lastOwner buckets).

Definition Serialize (table : PartitionTable) : res (list BucketRange) :=
  serialize_owners (Buckets table).

(** [Reconfigure]: replace the bucket list by the policy's new one. *)
Definition Reconfigure (table : PartitionTable) (updatedWorkers : list Z)
    (policy : PartitionPolicy) : res (PartitionTable * OwnerChanges) :=
  fatal_if (length updatedWorkers =? 0) "No worker to reconfigure";;
  '(newBuckets, bucketOwnerChanges) ←
    RePartitionV2 policy updatedWorkers (mkBucketV2 <$> Buckets table);
  Ok (MkTable (H table) (WorkerID <$> newBuckets), bucketOwnerChanges).

(** ** KeyLookupTable *)

Record KeyLookupTable := MkKeyTable {
  klt_H : HashFunc;
  klt_Buckets : list (option Bucket)
}.

Definition NewKeyLookupTable (h : HashFunc) (policy : PartitionPolicy)
    (workers : list Z) : res KeyLookupTable :=
  buckets ← GenerateBuckets policy workers;
  Ok (MkKeyTable h buckets).

(** [DeserializeKeyLookupTable] appends bucket after bucket. *)
Definition DeserializeKeyLookupTable (h : HashFunc) (numBuckets : Z)
    (bucketRanges : list BucketRange) : res KeyLookupTable :=
  let buckets := foldl (λ bs r,
    bs ++ replicate (Z.to_nat (UpperBucketIdx r - LowerBucketIdx r + 1))
            (mkBucket (u16 (WorkerId r)))) [] bucketRanges in
  fatal_if (negb (Z.of_nat (length buckets) =? numBuckets)%Z)
    "Deserialized bucket length is not equal to NumBuckets";;
  Ok (MkKeyTable h buckets).

Definition klt_KeyToBucketIdxAndWorkerID (table : KeyLookupTable) (key : bytes)
    : res (nat * Z) :=
  bucketIdx ← bucket_of_key (klt_H table) (length (klt_Buckets table)) key;
  b ← idx (klt_Buckets table) bucketIdx;
  w ← deref_WorkerID b;
  Ok (bucketIdx, w).

Definition klt_KeyToWorkerID (table : KeyLookupTable) (key : bytes) : res Z :=
  bucketIdx ← bucket_of_key (klt_H table) (length (klt_Buckets table)) key;
  b ← idx (klt_Buckets table) bucketIdx;
  deref_WorkerID b.

Definition BucketIdxToWorkerID (table : KeyLookupTable) (bucketIdx : Z) : res Z :=
  fatal_if ((bucketIdx <? 0) || (Z.of_nat (length (klt_Buckets table)) <=? bucketIdx))%Z
    "Invalid bucket index";;
  b ← idxZ (klt_Buckets table) bucketIdx;
  deref_WorkerID b.

Definition ChangeBucketOwner (table : KeyLookupTable) (bucketIdx workerID : Z)
    : res KeyLookupTable :=
  fatal_if ((bucketIdx <? 0) || (Z.of_nat (length (klt_Buckets table)) <=? bucketIdx))%Z
    "Invalid bucket index";;
  b ← idxZ (klt_Buckets table) bucketIdx;
  _ ← deref_WorkerID b;
  bs ← set_idxZ (klt_Buckets table) bucketIdx (mkBucket workerID);
  Ok (MkKeyTable (klt_H table) bs).

Fixpoint deref_all (bs : list (option Bucket)) : res (list Z) :=
  match bs with
  | [] => Ok []
  | b :: rest => w ← deref_WorkerID b; ws ← deref_all rest; Ok (w :: ws)
  end.

(** [KeyLookupTable.Serialize]: the same loop on the owners read through the
    bucket pointers. *)
Definition klt_Serialize (table : KeyLookupTable) : res (list BucketRange) :=
  owners ← deref_all (klt_Buckets table);
  serialize_owners owners.

Definition klt_Reconfigure (table : KeyLookupTable) (updatedWorkers : list Z)
    (policy : PartitionPolicy) : res (KeyLookupTable * OwnerChanges) :=
  fatal_if (length updatedWorkers =? 0) "No worker to reconfigure";;
  '(newBuckets, bucketOwnerChanges) ←
    RePartition policy updatedWorkers (klt_Buckets table);
  Ok (MkKeyTable (klt_H table) newBuckets, bucketOwnerChanges).

(** ** The range encoding *)

(** [runs lo rs owners]: the ranges [rs] describe the owners of the buckets
    [lo], [lo + 1], ... as maximal runs, in order and without gaps. *)
Inductive runs : nat → list BucketRange → list Z → Prop :=
  | runs_last lo w n : 0 < n →
      runs lo [MkRange w (Z.of_nat lo) (Z.of_nat (lo + n) - 1)] (replicate n w)
  | runs_cons lo w n rs owners : 0 < n → head owners ≠ Some w →
      runs (lo + n) rs owners →
      runs lo (MkRange w (Z.of_nat lo) (Z.of_nat (lo + n) - 1) :: rs)
        (replicate n w ++ owners).

Lemma u32_of_u16 z : is_u16 z → u32 z = z.
Proof. unfold is_u16, u32. intros. apply Z.mod_small. lia. Qed.

Lemma serialize_loop_runs rest w lo n :
  0 < n → is_u16 w → Forall is_u16 rest →
  runs lo (serialize_loop (lo + n) (MkRange w (Z.of_nat lo) (Z.of_nat (lo + n) - 1)) w rest)
    (replicate n w ++ rest).
Proof.
  revert w lo n. induction rest as [|b rest IH]; intros w lo n Hn Hw Hall; simpl.
  - rewrite app_nil_r. by constructor.
  - apply Forall_cons in Hall as [Hb Hall]. destruct (Z.eqb_spec b w) as [->|Hne].
    + specialize (IH w lo (S n) ltac:(lia) Hw Hall).
      replace (Z.of_nat (lo + S n) - 1)%Z with (Z.of_nat (lo + n)) in IH by lia.
      rewrite Nat.add_succ_r in IH. rewrite replicate_S_end, <-app_assoc in IH. exact IH.
    + rewrite u32_of_u16 by done.
      constructor; [done|simpl; naive_solver|].
      specialize (IH b (lo + n) 1 ltac:(lia) Hb Hall).
      replace (Z.of_nat (lo + n + 1) - 1)%Z with (Z.of_nat (lo + n)) in IH by lia.
      by rewrite Nat.add_1_r in IH.
Qed.

Lemma serialize_owners_runs owners :
  owners ≠ [] → Forall is_u16 owners →
  ∃ rs, serialize_owners owners = Ok rs ∧ runs 0 rs owners.
Proof.
  destruct owners as [|w rest]; [done|]. intros _ [Hw Hall]%Forall_cons.
  eexists. split; [reflexivity|]. simpl. rewrite Z.eqb_refl, u32_of_u16 by done.
  apply (serialize_loop_runs rest w 0 1); [lia|done..].
Qed.

Lemma runs_nonempty lo rs owners : runs lo rs owners → owners ≠ [].
Proof. destruct 1; destruct n; (lia || done). Qed.

(** The ranges cover every bucket: the last one ends at the last bucket. *)
Lemma runs_upper lo rs owners :
  runs lo rs owners →
  ∃ r, last rs = Some r ∧ UpperBucketIdx r = (Z.of_nat (lo + length owners) - 1)%Z.
Proof.
  induction 1 as [lo w n|lo w n rs owners Hn Hh Hr (r & Hl & Hu)].
  - eexists. split; [done|]. simpl. by rewrite length_replicate.
  - exists r. rewrite last_cons, Hl. split; [done|].
    rewrite Hu, length_app, length_replicate. lia.
Qed.

(** Adjacent ranges of a serialized table belong to different workers. *)
Lemma runs_adjacent lo rs owners i r r' :
  runs lo rs owners → rs !! i = Some r → rs !! S i = Some r' →
  WorkerId r ≠ WorkerId r' ∧ LowerBucketIdx r' = (UpperBucketIdx r + 1)%Z.
Proof.
  intros Hr. revert i. induction Hr as [|lo w n rs owners Hn Hh Hr IH]; intros i; [done|].
  destruct i as [|i]; simpl; [|apply IH].
  intros [= <-] Hr'. destruct Hr as [lo' w' n' Hn'|lo' w' n' rs' o' Hn' _ _];
    destruct n'; try lia; simpl in *; simplify_eq; simpl; split; (naive_solver || lia).
Qed.

(** ** Reading the ranges back *)

Lemma Forall_replicate_inv {A} (P : A → Prop) n x :
  Forall P (replicate n x) → 0 < n → P x.
Proof. destruct n; [lia|]. by intros [? _]%Forall_cons. Qed.

Lemma range_fill_run {B} (done todo : list B) n x lo :
  lo = length done → n ≤ length todo → 0 < n →
  range_fill (done ++ todo) (Z.of_nat lo) (Z.of_nat (lo + n) - 1) x =
  Ok ((done ++ replicate n x) ++ drop n todo).
Proof.
  intros -> Hn Hpos. unfold range_fill.
  destruct (Z.ltb_spec (Z.of_nat (length done + n) - 1) (Z.of_nat (length done))); [lia|].
  destruct (Z.ltb_spec (Z.of_nat (length done)) 0); [lia|].
  rewrite Nat2Z.id.
  replace (Z.to_nat _) with n by lia.
  rewrite fill_Ok by (rewrite length_app; lia).
  rewrite take_app_length, drop_app, (drop_ge done) by lia.
  replace (length done + n - length done) with n by lia.
  by rewrite <-app_assoc.
Qed.

Lemma deserialize_runs {B} (mk : Z → B) rs done todo owners :
  runs (length done) rs owners → Forall is_u16 owners → length todo = length owners →
  foldM (λ bs r, range_fill bs (LowerBucketIdx r) (UpperBucketIdx r) (mk (u16 (WorkerId r))))
    (done ++ todo) rs = Ok (done ++ (mk <$> owners)).
Proof.
  revert done todo owners.
  induction rs as [|r rs IH]; intros done todo owners Hr Hall Hlen; inv Hr.
  - rewrite length_replicate in Hlen. cbn [foldM LowerBucketIdx UpperBucketIdx WorkerId].
    apply Forall_replicate_inv in Hall as Hw; [|done].
    rewrite u16_id, (range_fill_run done) by (done || lia). simpl.
    by rewrite drop_ge, app_nil_r, fmap_replicate by lia.
  - rewrite length_app, length_replicate in Hlen.
    apply Forall_app in Hall as [Hw Hall].
    apply Forall_replicate_inv in Hw; [|done].
    cbn [foldM LowerBucketIdx UpperBucketIdx WorkerId].
    rewrite u16_id, (range_fill_run done), bind_Ok by (done || lia).
    rewrite (IH _ _ owners0);
      [by rewrite fmap_app, fmap_replicate, <-app_assoc|..|done|rewrite length_drop; lia].
    by rewrite length_app, length_replicate.
Qed.

Lemma append_runs rs lo acc owners :
  runs lo rs owners → Forall is_u16 owners →
  foldl (λ bs r, bs ++ replicate (Z.to_nat (UpperBucketIdx r - LowerBucketIdx r + 1))
            (mkBucket (u16 (WorkerId r)))) acc rs = acc ++ (mkBucket <$> owners).
Proof.
  intros Hr. revert acc. induction Hr as [lo w n Hn|lo w n rs owners Hn Hh Hr IH];
    intros acc Hall; cbn [foldl LowerBucketIdx UpperBucketIdx WorkerId].
  - apply Forall_replicate_inv in Hall; [|done].
    rewrite u16_id, fmap_replicate by done. do 2 f_equal. lia.
  - apply Forall_app in Hall as [Hw Hall]. apply Forall_replicate_inv in Hw; [|done].
    rewrite IH, u16_id, fmap_app, fmap_replicate, <-app_assoc by done.
    do 3 f_equal. lia.
Qed.

Lemma deref_all_mkBucket owners : deref_all (mkBucket <$> owners) = Ok owners.
Proof.
  induction owners as [|w ws IH]; [done|]. rewrite fmap_cons. cbn [deref_all].
  by rewrite IH.
Qed.

(** The range encoding of a table loses nothing: serializing a non-empty
    table of 16-bit owners succeeds, the ranges are the maximal runs of its
    owners in order and without gaps, and both worker-side decoders rebuild
    exactly the coordinator's owners. *)
Theorem partition_table_roundtrip h owners
    (Hne : owners ≠ []) (Hu16 : Forall is_u16 owners) :
  ∃ rs, Serialize (MkTable h owners) = Ok rs ∧
    klt_Serialize (MkKeyTable h (mkBucket <$> owners)) = Ok rs ∧
    runs 0 rs owners ∧
    DeserializePartitionTable h (Z.of_nat (length owners)) rs = Ok (MkTable h owners) ∧
    DeserializeKeyLookupTable h (Z.of_nat (length owners)) rs =
      Ok (MkKeyTable h (mkBucket <$> owners)).
Proof.
  destruct (serialize_owners_runs owners) as (rs & Hs & Hr); [done..|].
  exists rs. split_and!; [done| |done|..].
  - unfold klt_Serialize. simpl. by rewrite deref_all_mkBucket.
  - unfold DeserializePartitionTable, go_make.
    destruct (Z.ltb_spec (Z.of_nat (length owners)) 0); [lia|]. rewrite bind_Ok, Nat2Z.id.
    pose proof (deserialize_runs id rs [] (replicate (length owners) 0%Z) owners) as Hd.
    simpl in Hd. rewrite Hd by (done || by rewrite length_replicate).
    by rewrite list_fmap_id, bind_Ok, Z.eqb_refl.
  - unfold DeserializeKeyLookupTable. rewrite (append_runs _ 0 _ owners) by done.
    simpl. by rewrite length_fmap, Z.eqb_refl.
Qed.

Lemma partition_table_roundtrip_witness :
  ∃ rs, Serialize (MkTable (toy_hash 1) [4; 4; 7; 4; 4]%Z) = Ok rs ∧
    rs = [MkRange 4 0 1; MkRange 7 2 2; MkRange 4 3 4]%Z ∧
    DeserializePartitionTable (toy_hash 1) 5 rs = Ok (MkTable (toy_hash 1) [4; 4; 7; 4; 4]%Z).
Proof.
  destruct (partition_table_roundtrip (toy_hash 1) [4; 4; 7; 4; 4]%Z)
    as (rs & Hs & _ & _ & Hd & _).
  - done.
  - unfold is_u16. repeat constructor; lia.
  - exists rs. split; [exact Hs|]. split; [|exact Hd].
    vm_compute in Hs. injection Hs as <-. reflexivity.
Defined.

(** ** Routing *)

Lemma bucket_of_key_Ok h n key :
  0 < n → ∃ i, bucket_of_key h n key = Ok i ∧ i < n ∧
               Z.of_nat i = (Hash h key mod Z.of_nat n)%Z.
Proof.
  intros Hn. unfold bucket_of_key. destruct n as [|n]; [lia|].
  pose proof (Z.mod_pos_bound (Hash h key) (Z.of_nat (S n))).
  eexists. split; [reflexivity|]. lia.
Qed.

(** A key of a non-empty table routes to the owner of its bucket. *)
Lemma KeyToWorkerID_Ok h owners key :
  owners ≠ [] → ∃ i w, bucket_of_key h (length owners) key = Ok i ∧
    owners !! i = Some w ∧ KeyToWorkerID (MkTable h owners) key = Ok w.
Proof.
  intros Hne. assert (0 < length owners) by (destruct owners; simpl; [done|lia]).
  destruct (bucket_of_key_Ok h (length owners) key) as (i & Hi & Hlt & _); [done|].
  destruct (lookup_lt_is_Some_2 owners i Hlt) as [w Hw].
  exists i, w. split_and!; [done..|]. unfold KeyToWorkerID. simpl.
  by rewrite Hi, bind_Ok, idx_Ok.
Qed.

(** The pointer table of the same owners routes identically. *)
Lemma klt_KeyToBucketIdx_Ok h owners key i w :
  bucket_of_key h (length owners) key = Ok i → owners !! i = Some w →
  klt_KeyToBucketIdxAndWorkerID (MkKeyTable h (mkBucket <$> owners)) key = Ok (i, w) ∧
  klt_KeyToWorkerID (MkKeyTable h (mkBucket <$> owners)) key = Ok w.
Proof.
  intros Hi Hw.
  unfold klt_KeyToBucketIdxAndWorkerID, klt_KeyToWorkerID. simpl.
  assert (idx (mkBucket <$> owners) i = Ok (mkBucket w)) as Hix
    by (apply idx_Ok; by rewrite list_lookup_fmap, Hw).
  by rewrite length_fmap, Hi, !bind_Ok, Hix, !bind_Ok.
Qed.

Section PolicyClient.
Context (P : PartitionPolicy) (nb : nat) `{!PolicyLaws P nb}.

Lemma NewPartitionTable_shape h ws t :
  NewPartitionTable h P ws = Ok t →
  H t = h ∧ length (Buckets t) = nb ∧ Forall (.∈ ws) (Buckets t).
Proof.
  unfold NewPartitionTable. intros (bs & Hbs & [= <-])%bind_Ok_inv.
  apply generate_shape in Hbs as (_ & Hl & Hall). simpl.
  rewrite length_fmap, Forall_fmap. split_and!; [done..|].
  eapply Forall_impl; [exact Hall|]. by intros b [? _].
Qed.

Lemma NewKeyLookupTable_of_new h ws t :
  NewPartitionTable h P ws = Ok t →
  NewKeyLookupTable h P ws = Ok (MkKeyTable h (mkBucket <$> Buckets t)).
Proof.
  unfold NewPartitionTable, NewKeyLookupTable.
  intros (bs & Hbs & [= <-])%bind_Ok_inv. rewrite generate_v1_v2, Hbs. simpl.
  unfold v1_of_v2. by rewrite <-list_fmap_compose.
Qed.

(** Whatever policy implements the interface, a new table sends every key
    to a worker of the list it was built for, and the two table
    implementations built from the same arguments route every key alike. *)
Theorem routing_total h ws t key (Hnb : 0 < nb)
    (Hnew : NewPartitionTable h P ws = Ok t) :
  ∃ i w kt, KeyToWorkerID t key = Ok w ∧ w ∈ ws ∧
    NewKeyLookupTable h P ws = Ok kt ∧
    klt_KeyToBucketIdxAndWorkerID kt key = Ok (i, w) ∧
    klt_KeyToWorkerID kt key = Ok w ∧
    Z.of_nat i = (Hash h key mod Z.of_nat nb)%Z.
Proof.
  pose proof (NewPartitionTable_shape _ _ _ Hnew) as (<- & Hl & Hall).
  destruct (KeyToWorkerID_Ok (H t) (Buckets t) key) as (i & w & Hi & Hw & Hk).
  { intros E. rewrite E in Hl. simpl in Hl. lia. }
  destruct (bucket_of_key_Ok (H t) (length (Buckets t)) key) as (i' & Hi' & _ & Hz); [lia|].
  rewrite Hi in Hi'. injection Hi' as <-.
  pose proof (klt_KeyToBucketIdx_Ok (H t) (Buckets t) key i w Hi Hw) as [Hk1 Hk2].
  exists i, w, (MkKeyTable (H t) (mkBucket <$> Buckets t)).
  split_and!; [by destruct t| |by apply NewKeyLookupTable_of_new|done..|by rewrite Hz, Hl].
  rewrite Forall_forall in Hall. apply Hall. by eapply list_elem_of_lookup_2.
Qed.

(** A successful reconfiguration, against the interface. *)
Lemma Reconfigure_shape t ws t' ch :
  length (Buckets t) = nb → Reconfigure t ws P = Ok (t', ch) →
  ws ≠ [] ∧ H t' = H t ∧ length (Buckets t') = nb ∧ Forall (.∈ ws) (Buckets t') ∧
  changes_exact (Buckets t) (Buckets t') ch ∧
  ∃ new, RePartitionV2 P ws (mkBucketV2 <$> Buckets t) = Ok (new, ch) ∧
         Buckets t' = WorkerID <$> new.
Proof.
  unfold Reconfigure.
  intros Hlen ([] & Hws & ([new ch'] & Hre & Heq)%bind_Ok_inv)%bind_Ok_inv. simplify_eq.
  pose proof Hre as Hshape. apply repartition_shape in Hshape as (Hne & Hl & Hall & Hch);
    [|by rewrite length_fmap].
  rewrite <-list_fmap_compose in Hch. unfold compose in Hch. simpl in Hch.
  rewrite list_fmap_id in Hch. simpl. rewrite length_fmap, Forall_fmap.
  split_and!; [done..|]. by exists new.
Qed.

(** After a reconfiguration every key goes to a worker of the updated list;
    a key changes worker exactly when its bucket is reported as moved from its
    old to its new worker; the pointer-based table, reconfigured the same way,
    ends with the same owners and reports the same changes. *)
Theorem reconfigure_routing t ws t' ch key (Hnb : 0 < nb)
    (Hlen : length (Buckets t) = nb) (Hrec : Reconfigure t ws P = Ok (t', ch)) :
  (∃ i w w', bucket_of_key (H t) nb key = Ok i ∧
     KeyToWorkerID t key = Ok w ∧ KeyToWorkerID t' key = Ok w' ∧ w' ∈ ws ∧
     (w ≠ w' → i ∈ get_changes ch w w') ∧
     (∀ s d, i ∈ get_changes ch s d → s = w ∧ d = w' ∧ w ≠ w')) ∧
  klt_Reconfigure (MkKeyTable (H t) (mkBucket <$> Buckets t)) ws P =
    Ok (MkKeyTable (H t') (mkBucket <$> Buckets t'), ch).
Proof.
  pose proof (Reconfigure_shape _ _ _ _ Hlen Hrec)
    as (Hws & HH & Hl & Hall & Hch & new & Hre & Hnew). split.
  - destruct (KeyToWorkerID_Ok (H t) (Buckets t) key) as (i & w & Hi & Hw & Hk).
    { intros E. rewrite E in Hlen. simpl in Hlen. lia. }
    destruct (KeyToWorkerID_Ok (H t) (Buckets t') key) as (i' & w' & Hi' & Hw' & Hk').
    { intros E. rewrite E in Hl. simpl in Hl. lia. }
    rewrite Hlen in Hi. rewrite Hl, Hi in Hi'. injection Hi' as <-.
    exists i, w, w'. split_and!; [done|by destruct t|by destruct t'; simpl in *; subst|..].
    + rewrite Forall_forall in Hall. apply Hall. by eapply list_elem_of_lookup_2.
    + intros Hww. by apply (changes_iff _ _ _ Hch).
    + intros s d (Hs & Hd & Hsd)%(changes_iff _ _ _ Hch). naive_solver.
  - unfold klt_Reconfigure. destruct ws as [|w0 ws]; [done|]. cbn [length Nat.eqb].
    rewrite bind_fatal_false. cbn [klt_Buckets klt_H]. rewrite repartition_v1_v2, Hre.
    simpl. unfold v1_of_v2. rewrite HH, Hnew. by rewrite <-list_fmap_compose.
Qed.
End PolicyClient.

Lemma routing_total_witness :
  ∃ w, KeyToWorkerID (MkTable (toy_hash 1) [10; 10; 10; 20; 20; 30; 30]%Z) [1; 2]%Z = Ok w ∧
       w ∈ [10; 20; 30]%Z.
Proof.
  destruct (routing_total (UniformPartitionPolicy (MkPolicyBase 7)) 7 (toy_hash 1)
    [10; 20; 30]%Z (MkTable (toy_hash 1) [10; 10; 10; 20; 20; 30; 30]%Z) [1; 2]%Z)
    as (i & w & kt & Hk & Hw & _).
  - lia.
  - reflexivity.
  - exists w. split; [exact Hk|exact Hw].
Defined.

Lemma reconfigure_routing_witness :
  ∃ t' ch w', Reconfigure (MkTable (toy_hash 1) [10; 10; 10; 20; 20; 30; 30]%Z) [10; 40]%Z
      (UniformPartitionPolicy (MkPolicyBase 7)) = Ok (t', ch) ∧
    KeyToWorkerID t' [1; 2]%Z = Ok w' ∧ w' ∈ [10; 40]%Z.
Proof.
  destruct (Reconfigure (MkTable (toy_hash 1) [10; 10; 10; 20; 20; 30; 30]%Z) [10; 40]%Z
      (UniformPartitionPolicy (MkPolicyBase 7))) as [[t' ch]|] eqn:Hr;
    [|apply (f_equal is_ok) in Hr; vm_compute in Hr; discriminate].
  destruct (reconfigure_routing (UniformPartitionPolicy (MkPolicyBase 7)) 7
    (MkTable (toy_hash 1) [10; 10; 10; 20; 20; 30; 30]%Z) [10; 40]%Z t' ch [1; 2]%Z)
    as [(i & w & w' & _ & _ & Hk & Hw & _) _].
  - lia.
  - reflexivity.
  - exact Hr.
  - exists t', ch, w'. split; [reflexivity|]. split; [exact Hk|exact Hw].
Defined.

(** ** Changing one bucket's owner *)

(** [ChangeBucketOwner] is an update at one index: it fails exactly on an
    index outside the table, after it [BucketIdxToWorkerID] returns the new
    owner for that bucket and the old one for every other, and no other bucket
    or key of another bucket is rerouted. *)
Theorem change_bucket_owner_spec h owners b w :
  match ChangeBucketOwner (MkKeyTable h (mkBucket <$> owners)) b w with
  | Ok t =>
      (0 ≤ b < Z.of_nat (length owners))%Z ∧
      t = MkKeyTable h (mkBucket <$> <[Z.to_nat b := w]> owners) ∧
      (∀ j, BucketIdxToWorkerID t j =
        if (j =? b)%Z then Ok w
        else BucketIdxToWorkerID (MkKeyTable h (mkBucket <$> owners)) j)
  | Crash c => c = Fatal "Invalid bucket index" ∧
      ¬ (0 ≤ b < Z.of_nat (length owners))%Z
  end.
Proof.
  unfold ChangeBucketOwner. cbn [klt_Buckets klt_H]. rewrite length_fmap.
  destruct (Z.ltb_spec b 0); [simpl; split; [done|lia]|].
  destruct (Z.leb_spec (Z.of_nat (length owners)) b); [simpl; split; [done|lia]|].
  destruct (lookup_lt_is_Some_2 owners (Z.to_nat b)) as [w0 Hw0]; [lia|].
  assert (Hix : idxZ (mkBucket <$> owners) b = Ok (mkBucket w0)).
  { apply idxZ_Ok. by rewrite list_lookup_fmap, Hw0. }
  rewrite bind_fatal_false, Hix, bind_Ok. simpl.
  assert (Hset : set_idxZ (mkBucket <$> owners) b (mkBucket w) =
                 Ok (mkBucket <$> <[Z.to_nat b:=w]> owners)).
  { apply set_idxZ_Ok. rewrite length_fmap, list_fmap_insert. split; [done|]. split; [lia|done]. }
  rewrite Hset. simpl. split_and!; [done..|]. intros j.
  unfold BucketIdxToWorkerID. cbn [klt_Buckets]. rewrite !length_fmap, length_insert.
  destruct (Z.ltb_spec j 0); destruct (Z.leb_spec (Z.of_nat (length owners)) j);
    destruct (Z.eqb_spec j b); try lia; simpl; try done.
  - subst j. unfold idxZ, idx. rewrite (proj2 (Z.ltb_ge b 0)) by done.
    rewrite list_lookup_fmap, list_lookup_insert_eq by lia. done.
  - unfold idxZ, idx. rewrite (proj2 (Z.ltb_ge j 0)) by done.
    rewrite !list_lookup_fmap, list_lookup_insert_ne by lia. done.
Qed.
