(* ===== verification/KeyMap.v ===== *)
(** * Key lookup table with per-key owners, and its migration codec

    [KeyLookupTableV2] ([internal/keyby/keyLookupTableV2.go]): every bucket of
    the local worker has a map from key to the worker that holds the key's
    state; a rescale sends the maps of reassigned buckets to their new owners
    as one serialized work unit per destination. *)

From stdpp Require Import prelude gmap strings list sorting.
From Stdlib Require Import ZArith Lia.
From S2P Require Import Prelude Partition PartitionTable.

(** ** The table *)

Record KeyLookupTableV2 := MkTableV2 {
  t2_H : HashFunc;
  t2_Buckets : list BucketV2
}.

Definition NewKeyLookupTableV2 (h : HashFunc) (policy : PartitionPolicy)
    (workers : list Z) : res KeyLookupTableV2 :=
  buckets ← GenerateBucketsV2 policy workers;
  Ok (MkTableV2 h buckets).

(** [DeserializeKeyLookupTableV2]: buckets of the local worker get an empty
    key map, the others a nil one. *)
Definition DeserializeKeyLookupTableV2 (h : HashFunc) (numBuckets : Z)
    (bucketRanges : list BucketRange) (localWorkerId : Z) : res KeyLookupTableV2 :=
  buckets ← go_make BucketV2_zero numBuckets;
  buckets ← foldM (λ bs r,
      let workerId := u16 (WorkerId r) in
      let keyMap := if (workerId =? localWorkerId)%Z then Some ∅ else None in
      range_fill bs (LowerBucketIdx r) (UpperBucketIdx r) (MkBucketV2 workerId keyMap))
    buckets bucketRanges;
  fatal_if (negb (Z.of_nat (length buckets) =? numBuckets)%Z)
    "Deserialized bucket length is not equal to NumBuckets";;
  Ok (MkTableV2 h buckets).

(** [bucket.Map == nil] ends the process. *)
Definition require_map (bucket : BucketV2) (msg : string) : res (gmap bytes Z) :=
  match Map bucket with
  | None => Crash (Fatal msg)
  | Some m => Ok m
  end.

Definition GetWorkerID (table : KeyLookupTableV2) (key : bytes) (bucketId : Z) : res Z :=
  bucket ← idxZ (t2_Buckets table) bucketId;
  m ← require_map bucket "Key map nil for requesting key";
  Ok (match m !! key with
      | Some ownerWorkerId => ownerWorkerId
      | None => WorkerID bucket
      end).

(** Assignment to the bucket's map: the map is shared by the copy [bucket] and
    the table's entry. *)
Definition store_map (table : KeyLookupTableV2) (bucketId : Z) (bucket : BucketV2)
    (m : gmap bytes Z) : res KeyLookupTableV2 :=
  bs ← set_idxZ (t2_Buckets table) bucketId (MkBucketV2 (WorkerID bucket) (Some m));
  Ok (MkTableV2 (t2_H table) bs).

Definition UpdateKey (table : KeyLookupTableV2) (key : bytes) (bucketId updatedWorkerId : Z)
    : res KeyLookupTableV2 :=
  bucket ← idxZ (t2_Buckets table) bucketId;
  m ← require_map bucket "Key map nil for updating key";
  fatal_if (bool_decide (m !! key = None)) "Key not found in key map for updating key";;
  store_map table bucketId bucket (<[key := updatedWorkerId]> m).

Definition InsertOrUpdateKey (table : KeyLookupTableV2) (key : bytes) (bucketId workerId : Z)
    : res KeyLookupTableV2 :=
  bucket ← idxZ (t2_Buckets table) bucketId;
  m ← require_map bucket "Key map nil for inserting/updating key";
  store_map table bucketId bucket (<[key := workerId]> m).

Definition RemoveKey (table : KeyLookupTableV2) (key : bytes) (bucketId : Z)
    : res KeyLookupTableV2 :=
  bucket ← idxZ (t2_Buckets table) bucketId;
  m ← require_map bucket "Key map nil for removing key";
  fatal_if (bool_decide (m !! key = None)) "Key not found in key map for removing key";;
  store_map table bucketId bucket (delete key m).

(** ** Serialized key maps *)

Definition MaxKeyMapSize : Z := 20 * 1024 * 1024.

(** [buffer.MigratingKeyMapWorkUnit]: the eighth work unit type. *)
Definition MigratingKeyMapWorkUnit : Z := 8.

(** [SerializedKepMap]: [skm_data] is [data[:offset]], so [offset] is its
    length; the bytes past the offset are the zeros of [make] and are neither
    read nor sent. *)
Record SerializedKepMap := MkSkm {
  numBuckets : Z;
  skm_data : bytes
}.

Definition skm_offset (skm : SerializedKepMap) : Z := Z.of_nat (length (skm_data skm)).

(** A write of [bs] at the offset, which advances over it; the slice
    expression panics past the end of the 20 MB array. *)
Definition put (skm : SerializedKepMap) (bs : bytes) : res SerializedKepMap :=
  panic_if (MaxKeyMapSize <? skm_offset skm + Z.of_nat (length bs))%Z;;
  Ok (MkSkm (numBuckets skm) (skm_data skm ++ bs)).

(** [skm.offset += n] with nothing written yet. *)
Definition reserve (skm : SerializedKepMap) (n : nat) : SerializedKepMap :=
  MkSkm (numBuckets skm) (skm_data skm ++ replicate n 0%Z).

(** A write of [bs] at an earlier position. *)
Definition patch (skm : SerializedKepMap) (off : nat) (bs : bytes) : res SerializedKepMap :=
  panic_if (MaxKeyMapSize <? Z.of_nat (off + length bs))%Z;;
  Ok (MkSkm (numBuckets skm)
       (take off (skm_data skm) ++ bs ++ drop (off + length bs) (skm_data skm))).

Section KeyMapCodec.
(** [raw.MarshalUint16] of mus-go: writes a 16-bit number in two bytes. *)
Context (marshalUint16 : Z → bytes).
(** The two [range] loops over the same map need not agree on the order. *)
Context (R1 R2 : GoRange).

Definition NewSerializedKeyMap : res SerializedKepMap :=
  skm ← put (MkSkm 0 []) (marshalUint16 (u16 MigratingKeyMapWorkUnit));
  Ok (reserve (reserve skm 4) 4).

(** One turn of the key loop of [AddBucket]: the map under construction and
    [totalBucketLenInBytes]. *)
Definition add_key (st : SerializedKepMap * Z) (kv : bytes * Z)
    : res (SerializedKepMap * Z) :=
  let '(skm, total) := st in
  let '(key, val) := kv in
  let keyLen := (Z.of_nat (length key) - 6)%Z in
  skm ← put skm (be_encode 2 (u16 keyLen));
  panic_if (keyLen <? 0)%Z;;
  skm ← put skm (drop 6 key);
  skm ← put skm (be_encode 2 val);
  Ok (skm, total + keyLen)%Z.

(** The operator id: the first two bytes of any key, zeros for an empty map. *)
Definition operator_id (keyMap : gmap bytes Z) : res bytes :=
  match @go_range R1 _ _ _ _ keyMap with
  | [] => Ok [0; 0]%Z
  | (key, _) :: _ => go_slice key 0 2
  end.

Definition AddBucket (skm : SerializedKepMap) (bucketId : Z) (keyMap : gmap bytes Z)
    : res SerializedKepMap :=
  let numKeys := Z.of_nat (size keyMap) in
  let bucketLengthOffset := length (skm_data skm) in
  let skm := reserve skm 4 in
  let total := (2 + 4 + 4 + numKeys * (2 + 2))%Z in
  op ← operator_id keyMap;
  skm ← put skm op;
  skm ← put skm (be_encode 4 bucketId);
  skm ← put skm (be_encode 4 (u32 numKeys));
  '(skm, total) ← foldM add_key (skm, total) (@go_range R2 _ _ _ _ keyMap);
  skm ← patch skm bucketLengthOffset (be_encode 4 (u32 total));
  let skm := MkSkm (numBuckets skm + 1) (skm_data skm) in
  fatal_if (MaxKeyMapSize <? skm_offset skm)%Z
    "Serialized key map size exceeds the max allowed size";;
  Ok skm.

Definition skm_Done (skm : SerializedKepMap) : res bytes :=
  skm ← patch skm 2 (be_encode 4 (u32 (skm_offset skm - 6)));
  skm ← patch skm 6 (be_encode 4 (u32 (numBuckets skm)));
  Ok (skm_data skm).

(** [SerializedKeyMapFactory]: one serialized map per destination. *)
Abbreviation KeyMapFactory := (gmap Z SerializedKepMap) (only parsing).

Definition SerializeBucket (skmf : KeyMapFactory) (bucketId destWorkerId : Z)
    (keyMap : option (gmap bytes Z)) : res KeyMapFactory :=
  m ← match keyMap with
      | None => Crash (Fatal "Bucket key map should not be nil")
      | Some m => Ok m
      end;
  skm ← match skmf !! destWorkerId with
        | Some skm => Ok skm
        | None => NewSerializedKeyMap
        end;
  skm ← AddBucket skm bucketId m;
  Ok (<[destWorkerId := skm]> skmf).

Definition factory_Done (skmf : KeyMapFactory) : res (gmap Z bytes) :=
  foldM (λ result '(workerId, skm),
      d ← skm_Done skm; Ok (<[workerId := d]> result))
    ∅ (@go_range R1 _ _ _ _ skmf).

(** One turn of the bucket loop of [SerializeMigratingKeyMaps]. *)
Definition migrate_step (localWorkerId : Z) (routing : list Z)
    (st : list BucketV2 * KeyMapFactory) (bucketId : nat)
    : res (list BucketV2 * KeyMapFactory) :=
  let '(localBuckets, skmf) := st in
  b ← idx localBuckets bucketId;
  if (WorkerID b =? localWorkerId)%Z then
    newOwner ← idx routing bucketId;
    if (newOwner =? localWorkerId)%Z then Ok st
    else
      skmf ← SerializeBucket skmf (u32 (Z.of_nat bucketId)) newOwner (Map b);
      bs ← set_idx localBuckets bucketId (MkBucketV2 newOwner None);
      Ok (bs, skmf)
  else Ok st.

Definition SerializeMigratingKeyMaps (table : KeyLookupTableV2) (localWorkerId : Z)
    (fastForwardRoutingTable : PartitionTable)
    : res (KeyLookupTableV2 * gmap Z bytes) :=
  '(bs, skmf) ← foldM (migrate_step localWorkerId (Buckets fastForwardRoutingTable))
    (t2_Buckets table, ∅) (seq 0 (length (t2_Buckets table)));
  out ← factory_Done skmf;
  Ok (MkTableV2 (t2_H table) bs, out).
End KeyMapCodec.

(** ** Receiving *)

(** A goroutine is started per bucket: they run in any order, each on the
    bucket its payload names. *)

Definition slice_uint (data : bytes) (lo hi : nat) : res Z :=
  bs ← go_slice data lo hi; Ok (be_decode bs).

(** The loop that cuts the message into one payload per bucket. *)
Fixpoint split_buckets (n : nat) (data : bytes) (offset : nat) : res (list bytes) :=
  match n with
  | 0 => Ok []
  | S n =>
      bucketLen ← slice_uint data offset (offset + 4);
      let offset := offset + 4 in
      bucketBytes ← go_slice data offset (offset + Z.to_nat bucketLen);
      rest ← split_buckets n data (offset + Z.to_nat bucketLen);
      Ok (bucketBytes :: rest)
  end.

Fixpoint parse_keys (n : nat) (data : bytes) (dataOffset : nat) (keyMap : gmap bytes Z)
    : res (gmap bytes Z) :=
  match n with
  | 0 => Ok keyMap
  | S n =>
      keyLen ← slice_uint data dataOffset (dataOffset + 2);
      let keyLen := Z.to_nat keyLen in
      let dataOffset := dataOffset + 2 in
      prefix ← go_slice data 0 6;
      suffix ← go_slice data dataOffset (dataOffset + keyLen);
      let dataOffset := dataOffset + keyLen in
      owner ← slice_uint data dataOffset (dataOffset + 2);
      parse_keys n data (dataOffset + 2) (<[prefix ++ suffix := owner]> keyMap)
  end.

(** The body of one goroutine. *)
Definition receive_bucket (localWorkerId : Z) (buckets : list BucketV2) (data : bytes)
    : res (list BucketV2) :=
  bucketID ← slice_uint data 2 6;
  numKeys ← slice_uint data 6 10;
  b ← idxZ buckets bucketID;
  fatal_if (match Map b with Some m => negb (size m =? 0) | None => false end)
    "Bucket already has a non-empty key map when receiving migrating keys";;
  keyMap ← parse_keys (Z.to_nat numKeys) data 10 ∅;
  set_idxZ buckets bucketID (MkBucketV2 localWorkerId (Some keyMap)).

Definition DeserializeMigratingKeyMaps `{Schedule} (table : KeyLookupTableV2)
    (serializedKeyMaps : bytes) (localWorkerId : Z) : res KeyLookupTableV2 :=
  n ← slice_uint serializedKeyMaps 0 4;
  payloads ← split_buckets (Z.to_nat n) serializedKeyMaps 4;
  bs ← foldM (receive_bucket localWorkerId) (t2_Buckets table) (schedule payloads);
  Ok (MkTableV2 (t2_H table) bs).

(** ** Layout of the wire format *)

Lemma slice_uint_app data a b c i j z :
  data = a ++ b ++ c → i = length a → j = length a + length b → be_decode b = z →
  slice_uint data i j = Ok z.
Proof. intros Hd Hi Hj <-. unfold slice_uint. by rewrite (go_slice_app _ a b c). Qed.

Definition entry_bytes (kv : bytes * Z) : bytes :=
  be_encode 2 (Z.of_nat (length kv.1) - 6) ++ drop 6 kv.1 ++ be_encode 2 kv.2.

Definition payload (op : bytes) (id : Z) (kvs : list (bytes * Z)) : bytes :=
  op ++ be_encode 4 id ++ be_encode 4 (Z.of_nat (length kvs)) ++ (kvs ≫= entry_bytes).

Definition bucket_bytes (op : bytes) (id : Z) (kvs : list (bytes * Z)) : bytes :=
  be_encode 4 (Z.of_nat (length (payload op id kvs))) ++ payload op id kvs.

(** A key of the state store: six bytes of operator id and bucket id, then at
    most 65535 bytes; its owner is a worker id. *)
Definition wf_entry (pre : bytes) (kv : bytes * Z) : Prop :=
  length pre = 6 ∧ take 6 kv.1 = pre ∧
  (Z.of_nat (length kv.1) - 6 < 2 ^ 16)%Z ∧ is_u16 kv.2.

(** Bytes the key loop adds to [totalBucketLenInBytes]. *)
Definition key_bytes (kvs : list (bytes * Z)) : nat :=
  sum_list_with (λ kv, length kv.1 - 6) kvs.

Lemma wf_entry_length pre kv : wf_entry pre kv → 6 ≤ length kv.1.
Proof. intros (Hl & Ht & _). rewrite <-Ht, length_take in Hl. lia. Qed.

Lemma length_entries kvs :
  length (kvs ≫= entry_bytes) = 4 * length kvs + key_bytes kvs.
Proof.
  unfold key_bytes. induction kvs as [|kv kvs IH]; [done|].
  rewrite bind_cons, length_app, IH. unfold entry_bytes.
  rewrite !length_app, !length_be_encode, length_drop. cbn [length sum_list_with]. lia.
Qed.

Lemma length_payload op id kvs :
  length op = 2 → length (payload op id kvs) = 10 + 4 * length kvs + key_bytes kvs.
Proof.
  intros Hop. unfold payload. rewrite !length_app, !length_be_encode, length_entries. lia.
Qed.

Lemma length_bucket_bytes op id kvs :
  length (bucket_bytes op id kvs) = 4 + length (payload op id kvs).
Proof. unfold bucket_bytes. by rewrite length_app, length_be_encode. Qed.

(** ** Writing *)

Lemma put_Ok skm bs :
  (skm_offset skm + Z.of_nat (length bs) ≤ MaxKeyMapSize)%Z →
  put skm bs = Ok (MkSkm (numBuckets skm) (skm_data skm ++ bs)).
Proof. intros. unfold put. rewrite (proj2 (Z.ltb_ge _ _)) by done. done. Qed.

Lemma patch_Ok skm off old bs pre post :
  skm_data skm = pre ++ old ++ post → off = length pre → length old = length bs →
  (skm_offset skm ≤ MaxKeyMapSize)%Z →
  patch skm off bs = Ok (MkSkm (numBuckets skm) (pre ++ bs ++ post)).
Proof.
  intros Hd -> Hl Hmax. unfold patch, skm_offset in *. rewrite Hd in *.
  rewrite !length_app in Hmax. rewrite (proj2 (Z.ltb_ge _ _)) by lia. simpl.
  rewrite take_app_length, <-Hl, <-length_app, (app_assoc pre old post), drop_app_length.
  done.
Qed.

Lemma add_key_Ok pre skm total kv :
  wf_entry pre kv →
  (skm_offset skm + Z.of_nat (length (entry_bytes kv)) ≤ MaxKeyMapSize)%Z →
  add_key (skm, total) kv =
  Ok (MkSkm (numBuckets skm) (skm_data skm ++ entry_bytes kv),
      total + Z.of_nat (length kv.1 - 6))%Z.
Proof.
  intros Hwf Hmax. pose proof (wf_entry_length _ _ Hwf) as Hlen.
  destruct Hwf as (_ & _ & Hlt & _). destruct kv as [key val].
  unfold entry_bytes, skm_offset in *. cbn [fst snd] in *.
  rewrite !length_app, !length_be_encode, length_drop in Hmax.
  unfold add_key. rewrite u16_id by (unfold is_u16; lia).
  rewrite put_Ok by (unfold skm_offset; rewrite length_be_encode; lia). rewrite bind_Ok.
  rewrite (proj2 (Z.ltb_ge _ _)) by lia. cbn [panic_if]. rewrite bind_Ok.
  rewrite put_Ok by (unfold skm_offset; cbn [skm_data];
    rewrite !length_app, length_be_encode, length_drop; lia). rewrite bind_Ok.
  rewrite put_Ok by (unfold skm_offset; cbn [skm_data];
    rewrite !length_app, !length_be_encode, length_drop; lia). rewrite bind_Ok.
  cbn [skm_data numBuckets]. rewrite <-!app_assoc. do 2 f_equal. lia.
Qed.

Lemma add_keys_Ok pre kvs skm total :
  Forall (wf_entry pre) kvs →
  (skm_offset skm + Z.of_nat (length (kvs ≫= entry_bytes)) ≤ MaxKeyMapSize)%Z →
  foldM add_key (skm, total) kvs =
  Ok (MkSkm (numBuckets skm) (skm_data skm ++ (kvs ≫= entry_bytes)),
      total + Z.of_nat (key_bytes kvs))%Z.
Proof.
  revert skm total. induction kvs as [|kv kvs IH]; intros skm total Hwf Hmax.
  - simpl. rewrite app_nil_r, Z.add_0_r. by destruct skm.
  - apply Forall_cons in Hwf as [Hkv Hwf].
    rewrite bind_cons, length_app in Hmax. cbn [foldM].
    rewrite (add_key_Ok pre) by (done || lia). rewrite bind_Ok, IH; [|done|].
    + rewrite bind_cons. cbn [numBuckets skm_data]. rewrite <-app_assoc.
      unfold key_bytes. cbn [sum_list_with]. do 2 f_equal. lia.
    + unfold skm_offset in *. cbn [skm_data]. rewrite length_app. lia.
Qed.

Definition wf_keymap (pre : bytes) (m : gmap bytes Z) : Prop :=
  map_Forall (λ k v, wf_entry pre (k, v)) m.

(** The operator field of a bucket's payload. *)
Definition op_field (op : bytes) (m : gmap bytes Z) : bytes :=
  if bool_decide (m = ∅) then [0; 0]%Z else op.

Lemma wf_keymap_range (R : GoRange) pre m :
  wf_keymap pre m → Forall (wf_entry pre) (go_range m).
Proof.
  intros Hwf. apply Forall_forall. intros [k v] Hin. apply Hwf.
  by apply elem_of_go_range.
Qed.

Lemma length_op_field op m : length op = 2 → length (op_field op m) = 2.
Proof. unfold op_field. by case_bool_decide. Qed.

Lemma operator_id_Ok R1 op id m :
  length op = 2 → wf_keymap (op ++ be_encode 4 id) m →
  operator_id R1 m = Ok (op_field op m).
Proof.
  intros Hop Hwf%(wf_keymap_range R1). unfold operator_id, op_field.
  pose proof (length_go_range (H:=R1) m) as Hsize.
  destruct (go_range m) as [|[k v] kvs] eqn:E.
  - rewrite bool_decide_true; [done|]. by apply map_size_empty_iff.
  - rewrite bool_decide_false by (intros ->; by rewrite map_size_empty in Hsize).
    apply Forall_cons in Hwf as [(_ & Ht & _) _]. cbn [fst] in Ht.
    apply (go_slice_app _ [] op (be_encode 4 id ++ drop 6 k)); [|done|simpl; lia].
    rewrite <-(take_drop 6 k) at 1. by rewrite Ht, <-app_assoc.
Qed.

Lemma AddBucket_Ok R1 R2 op id m skm :
  length op = 2 → wf_keymap (op ++ be_encode 4 id) m →
  (skm_offset skm +
   Z.of_nat (length (bucket_bytes (op_field op m) id (@go_range R2 _ _ _ _ m)))
     ≤ MaxKeyMapSize)%Z →
  AddBucket R1 R2 skm id m =
  Ok (MkSkm (numBuckets skm + 1)
       (skm_data skm ++ bucket_bytes (op_field op m) id (@go_range R2 _ _ _ _ m))).
Proof.
  intros Hop Hwf Hmax. set (kvs := @go_range R2 _ _ _ _ m) in *.
  pose proof (length_op_field op m Hop) as Hf.
  pose proof (length_go_range (H:=R2) m) as Hsize. fold kvs in Hsize.
  pose proof (length_payload (op_field op m) id kvs Hf) as Hpl.
  rewrite length_bucket_bytes in Hmax. unfold skm_offset, MaxKeyMapSize in *.
  unfold AddBucket. rewrite (operator_id_Ok R1 op id m Hop Hwf), bind_Ok.
  rewrite put_Ok; [rewrite bind_Ok|unfold skm_offset, MaxKeyMapSize; cbn;
    rewrite !length_app; cbn; lia].
  rewrite put_Ok; [rewrite bind_Ok|unfold skm_offset, MaxKeyMapSize; cbn;
    rewrite !length_app; cbn; lia].
  rewrite put_Ok; [rewrite bind_Ok|unfold skm_offset, MaxKeyMapSize; cbn;
    rewrite !length_app; cbn; lia].
  fold kvs. pose proof (length_entries kvs) as He.
  rewrite (add_keys_Ok (op ++ be_encode 4 id));
    [rewrite bind_Ok|by apply wf_keymap_range|unfold skm_offset, MaxKeyMapSize;
     cbn [numBuckets skm_data reserve]; autorewrite with koala; lia].
  cbn [numBuckets skm_data reserve].
  rewrite (patch_Ok _ _ (replicate 4 0%Z) _ (skm_data skm)
    (op_field op m ++ be_encode 4 id ++ be_encode 4 (u32 (Z.of_nat (size m))) ++
     (kvs ≫= entry_bytes)));
    [rewrite bind_Ok|cbn [skm_data]; by rewrite <-!app_assoc|reflexivity
    |by rewrite length_replicate, length_be_encode
    |unfold skm_offset, MaxKeyMapSize; cbn [skm_data]; autorewrite with koala; lia].
  unfold skm_offset, MaxKeyMapSize. cbn [numBuckets skm_data].
  rewrite (proj2 (Z.ltb_ge _ _)) by (autorewrite with koala; lia). cbn [fatal_if].
  rewrite bind_Ok. unfold bucket_bytes, payload. rewrite Hsize.
  rewrite !u32_id by (unfold is_u32; lia). do 5 f_equal.
  unfold payload in Hpl. rewrite <-Hsize, Hpl. lia.
Qed.

(** ** Reading *)

Lemma parse_keys_entries pre kvs data done post acc :
  Forall (wf_entry pre) kvs → NoDup kvs.*1 →
  data = done ++ (kvs ≫= entry_bytes) ++ post → take 6 data = pre →
  parse_keys (length kvs) data (length done) acc = Ok (list_to_map kvs ∪ acc).
Proof.
  revert done acc. induction kvs as [|[key val] kvs IH]; intros done acc Hwf Hnd Hd Hpre.
  { simpl. by rewrite map_empty_union. }
  apply Forall_cons in Hwf as [Hkv Hwf]. apply NoDup_cons in Hnd as [Hin Hnd].
  pose proof (wf_entry_length _ _ Hkv) as Hlen.
  destruct Hkv as (Hp6 & Ht & Hlt & Hu). cbn [fst snd] in *.
  rewrite bind_cons in Hd. unfold entry_bytes at 1 in Hd. cbn [fst snd] in Hd.
  rewrite <-!app_assoc in Hd. cbn [length parse_keys].
  rewrite (slice_uint_app data done (be_encode 2 (Z.of_nat (length key) - 6))
    (drop 6 key ++ be_encode 2 val ++ (kvs ≫= entry_bytes) ++ post)
    _ _ (Z.of_nat (length key) - 6)%Z), bind_Ok
    by (done || apply be_decode_encode16; unfold is_u16; lia).
  assert (H6 : go_slice data 0 6 = Ok pre).
  { apply go_slice_Ok. rewrite <-Hpre in Hp6. rewrite length_take in Hp6.
    split_and!; [lia..|]. by rewrite drop_0, Nat.sub_0_r. }
  rewrite H6, bind_Ok.
  rewrite (go_slice_app data (done ++ be_encode 2 (Z.of_nat (length key) - 6)) (drop 6 key)
    (be_encode 2 val ++ (kvs ≫= entry_bytes) ++ post)), bind_Ok;
    [|by rewrite <-!app_assoc|by rewrite length_app, length_be_encode
     |rewrite length_app, length_be_encode, length_drop; lia].
  rewrite (slice_uint_app data (done ++ be_encode 2 (Z.of_nat (length key) - 6) ++ drop 6 key)
    (be_encode 2 val) ((kvs ≫= entry_bytes) ++ post) _ _ val), bind_Ok;
    [|by rewrite <-!app_assoc|rewrite !length_app, length_be_encode, length_drop; lia
     |rewrite !length_app, !length_be_encode, length_drop; lia|by apply be_decode_encode16].
  assert (Hkey : pre ++ drop 6 key = key) by (by rewrite <-Ht, take_drop). rewrite Hkey.
  pose proof (IH (done ++ be_encode 2 (Z.of_nat (length key) - 6) ++ drop 6 key ++
    be_encode 2 val) (<[key:=val]> acc)) as IH'.
  rewrite !length_app, !length_be_encode, length_drop in IH'.
  replace (length done + 2 + Z.to_nat (Z.of_nat (length key) - 6) + 2)
    with (length done + (2 + (length key - 6 + 2))) by lia.
  rewrite IH'; [|done..|by rewrite <-!app_assoc|done].
  rewrite list_to_map_cons, <-insert_union_l, insert_union_r; [done|].
  by apply not_elem_of_list_to_map.
Qed.

Lemma payload_prefix op id kvs :
  length op = 2 → take 6 (payload op id kvs) = op ++ be_encode 4 id.
Proof.
  intros Hop. unfold payload. rewrite app_assoc.
  apply take_app_length'. by rewrite length_app, length_be_encode, Hop.
Qed.

(** What a goroutine does with the payload of bucket [id]. *)
Lemma receive_bucket_Ok d buckets op id kvs m b :
  length op = 2 → is_u32 id → kvs ≡ₚ map_to_list m →
  (m = ∅ ∨ wf_keymap (op ++ be_encode 4 id) m) →
  (Z.of_nat (length (payload op id kvs)) ≤ MaxKeyMapSize)%Z →
  buckets !! Z.to_nat id = Some b → (Map b = None ∨ Map b = Some ∅) →
  receive_bucket d buckets (payload op id kvs) =
  Ok (<[Z.to_nat id := MkBucketV2 d (Some m)]> buckets).
Proof.
  intros Hop Hid Hperm Hwf Hmax Hb Hmap. unfold MaxKeyMapSize in Hmax.
  pose proof (length_payload op id kvs Hop) as Hpl.
  assert (Hwf' : Forall (wf_entry (op ++ be_encode 4 id)) kvs).
  { rewrite Hperm. destruct Hwf as [->|Hwf]; [by rewrite map_to_list_empty|].
    apply Forall_forall. intros [k v] Hin. apply Hwf. by apply elem_of_map_to_list. }
  unfold receive_bucket.
  rewrite (slice_uint_app _ op (be_encode 4 id)
    (be_encode 4 (Z.of_nat (length kvs)) ++ (kvs ≫= entry_bytes)) 2 6 id), bind_Ok;
    [|done|lia|rewrite length_be_encode; lia|by apply be_decode_encode32].
  rewrite (slice_uint_app _ (op ++ be_encode 4 id) (be_encode 4 (Z.of_nat (length kvs)))
    (kvs ≫= entry_bytes) 6 10 (Z.of_nat (length kvs))), bind_Ok;
    [|unfold payload; by rewrite <-app_assoc|rewrite length_app, length_be_encode; lia
     |rewrite length_app, !length_be_encode; lia
     |apply be_decode_encode32; unfold is_u32; lia].
  rewrite (proj2 (idxZ_Ok buckets id b)), bind_Ok by (destruct Hid; done).
  assert (Hf : match Map b with Some m0 => negb (size m0 =? 0) | None => false end = false).
  { destruct Hmap as [-> | ->]; [done|]. by rewrite map_size_empty. }
  rewrite Hf, bind_fatal_false, Nat2Z.id.
  assert (H10 : 10 = length (op ++ be_encode 4 id ++ be_encode 4 (Z.of_nat (length kvs))))
    by (rewrite !length_app, !length_be_encode; lia).
  rewrite H10.
  rewrite (parse_keys_entries (op ++ be_encode 4 id) kvs _ _ [] ∅); first last.
  - by apply payload_prefix.
  - unfold payload. by rewrite app_nil_r, <-!app_assoc.
  - rewrite Hperm. apply NoDup_fst_map_to_list.
  - done.
  - rewrite bind_Ok, map_union_empty.
    assert (list_to_map kvs = m) as ->.
    { rewrite <-(list_to_map_to_list m). apply list_to_map_proper; [|done].
      rewrite Hperm. apply NoDup_fst_map_to_list. }
    apply set_idxZ_Ok. split_and!; [destruct Hid; done| |done].
    by eapply lookup_lt_Some.
Qed.

Lemma split_buckets_app (items : list (bytes * Z * list (bytes * Z))) data front post :
  let body := λ it : bytes * Z * list (bytes * Z), payload it.1.1 it.1.2 it.2 in
  let framed := λ it : bytes * Z * list (bytes * Z), bucket_bytes it.1.1 it.1.2 it.2 in
  Forall (λ it, is_u32 (Z.of_nat (length (body it)))) items →
  data = front ++ (items ≫= framed) ++ post →
  split_buckets (length items) data (length front) = Ok (body <$> items).
Proof.
  intros body framed. revert front. induction items as [|it items IH]; intros front Hu Hd;
    [done|].
  apply Forall_cons in Hu as [Hit Hu]. rewrite bind_cons in Hd.
  assert (Hf : framed it = be_encode 4 (Z.of_nat (length (body it))) ++ body it) by done.
  rewrite Hf, <-!app_assoc in Hd. cbn [length split_buckets].
  rewrite (slice_uint_app data front (be_encode 4 (Z.of_nat (length (body it))))
    (body it ++ (items ≫= framed) ++ post) _ _ (Z.of_nat (length (body it)))), bind_Ok;
    [|done|done|by rewrite length_be_encode|by apply be_decode_encode32].
  rewrite Nat2Z.id.
  rewrite (go_slice_app data (front ++ be_encode 4 (Z.of_nat (length (body it)))) (body it)
    ((items ≫= framed) ++ post)), bind_Ok;
    [|by rewrite <-app_assoc|by rewrite length_app, length_be_encode
     |by rewrite length_app, length_be_encode].
  pose proof (IH (front ++ be_encode 4 (Z.of_nat (length (body it))) ++ body it)) as IH'.
  rewrite !length_app, length_be_encode, Nat.add_assoc in IH'.
  rewrite IH'; [done|done|]. by rewrite <-!app_assoc.
Qed.

(** ** Migration between two tables *)

Section Migration.
Context (marshalUint16 : Z → bytes).
Hypothesis marshal_length : ∀ z, length (marshalUint16 z) = 2.
Context (R1 R2 : GoRange).
(** The operator id of the keys of each bucket. *)
Context (op : nat → bytes).
Hypothesis op_length : ∀ i, length (op i) = 2.

Definition item_bytes (it : nat * gmap bytes Z) : bytes :=
  bucket_bytes (op_field (op it.1) it.2) (Z.of_nat it.1) (@go_range R2 _ _ _ _ it.2).

(** The buckets that worker [a] sends to [d]: its own, whose new owner is [d]. *)
Definition sent_bucket (a : Z) (routing : list Z) (bs : list BucketV2) (d : Z) (i : nat)
    : option (nat * gmap bytes Z) :=
  b ← bs !! i; w ← routing !! i;
  if bool_decide (WorkerID b = a ∧ w = d ∧ d ≠ a) then (i,.) <$> Map b else None.

Definition sent (a : Z) (routing : list Z) (bs : list BucketV2) (k : nat) (d : Z)
    : list (nat * gmap bytes Z) :=
  omap (sent_bucket a routing bs d) (seq 0 k).

(** A serialized map under construction, and the finished message. *)
Definition skm_of (items : list (nat * gmap bytes Z)) : SerializedKepMap :=
  MkSkm (Z.of_nat (length items))
    (marshalUint16 MigratingKeyMapWorkUnit ++ replicate 8 0%Z ++ (items ≫= item_bytes)).

Definition message (items : list (nat * gmap bytes Z)) : bytes :=
  marshalUint16 MigratingKeyMapWorkUnit ++
  be_encode 4 (Z.of_nat (length (items ≫= item_bytes)) + 4) ++
  be_encode 4 (Z.of_nat (length items)) ++ (items ≫= item_bytes).

Definition fits (items : list (nat * gmap bytes Z)) : Prop :=
  (Z.of_nat (10 + length (items ≫= item_bytes)) ≤ MaxKeyMapSize)%Z.

Definition wf_item (it : nat * gmap bytes Z) : Prop :=
  wf_keymap (op it.1 ++ be_encode 4 (Z.of_nat it.1)) it.2 ∧ is_u32 (Z.of_nat it.1).

Lemma skm_of_offset items :
  skm_offset (skm_of items) = Z.of_nat (10 + length (items ≫= item_bytes)).
Proof.
  unfold skm_offset, skm_of. cbn [skm_data]. rewrite !length_app, marshal_length.
  rewrite length_replicate. done.
Qed.

Lemma NewSerializedKeyMap_Ok : NewSerializedKeyMap marshalUint16 = Ok (skm_of []).
Proof.
  unfold NewSerializedKeyMap.
  rewrite put_Ok by (unfold skm_offset; rewrite marshal_length; done).
  rewrite bind_Ok. unfold reserve, skm_of. cbn [numBuckets skm_data].
  rewrite app_nil_l, <-app_assoc. done.
Qed.

Lemma AddBucket_skm_of items it :
  wf_item it → fits (items ++ [it]) →
  AddBucket R1 R2 (skm_of items) (Z.of_nat it.1) it.2 = Ok (skm_of (items ++ [it])).
Proof.
  intros [Hwf Hu] Hfit. unfold fits in Hfit.
  rewrite bind_app, bind_singleton, length_app in Hfit. unfold item_bytes at 2 in Hfit.
  rewrite (AddBucket_Ok R1 R2 (op it.1)); [|done|done|rewrite skm_of_offset; lia].
  unfold skm_of. cbn [skm_data numBuckets]. rewrite bind_app, bind_singleton, length_app.
  rewrite <-!app_assoc. do 2 f_equal. simpl. lia.
Qed.

Lemma length_message_items items :
  fits items → is_u32 (Z.of_nat (length items)).
Proof.
  intros Hfit. unfold fits, MaxKeyMapSize in Hfit. unfold is_u32. split; [lia|].
  assert (length items ≤ length (items ≫= item_bytes)); [|lia].
  clear Hfit. induction items as [|it items IH]; [done|].
  rewrite bind_cons, length_app. unfold item_bytes at 1. rewrite length_bucket_bytes.
  simpl. lia.
Qed.

Lemma skm_Done_Ok items :
  fits items → skm_Done (skm_of items) = Ok (message items).
Proof.
  intros Hfit. pose proof (length_message_items items Hfit) as Hn.
  unfold fits in Hfit. unfold skm_Done. rewrite skm_of_offset.
  rewrite (patch_Ok _ 2 (replicate 4 0%Z) _ (marshalUint16 MigratingKeyMapWorkUnit)
    (replicate 4 0%Z ++ (items ≫= item_bytes)));
    [|done|by rewrite marshal_length|by rewrite length_be_encode
     |rewrite skm_of_offset; lia].
  rewrite bind_Ok. cbn [numBuckets skm_of].
  rewrite (patch_Ok _ 6 (replicate 4 0%Z) _ (marshalUint16 MigratingKeyMapWorkUnit ++
    be_encode 4 (u32 (Z.of_nat (10 + length (items ≫= item_bytes)) - 6)))
    (items ≫= item_bytes)); [|cbn [skm_data]; by rewrite <-app_assoc
    |by rewrite length_app, marshal_length, length_be_encode|by rewrite length_be_encode
    |unfold skm_offset; cbn [skm_data]; autorewrite with koala;
     rewrite marshal_length; lia].
  rewrite bind_Ok. cbn [skm_data]. unfold message. rewrite <-app_assoc.
  unfold MaxKeyMapSize in Hfit. rewrite !u32_id by (done || unfold is_u32; lia).
  do 4 f_equal. lia.
Qed.

(** The buckets of worker [a] have well-formed key maps. *)
Definition wf_sender (a : Z) (bs : list BucketV2) : Prop :=
  ∀ i b, bs !! i = Some b → WorkerID b = a → ∃ m, Map b = Some m ∧ wf_item (i, m).

(** Bucket [i] of the sender after the loop reached [k]. *)
Definition after_bucket (a : Z) (routing : list Z) (k i : nat) (b : BucketV2) : BucketV2 :=
  match routing !! i with
  | Some w => if bool_decide (i < k ∧ WorkerID b = a ∧ w ≠ a) then MkBucketV2 w None else b
  | None => b
  end.

Definition factory_of (items : Z → list (nat * gmap bytes Z)) (d : Z)
    : option SerializedKepMap :=
  match items d with [] => None | _ => Some (skm_of (items d)) end.

Lemma sent_S a r bs k d :
  sent a r bs (S k) d = sent a r bs k d ++ option_list (sent_bucket a r bs d k).
Proof.
  unfold sent. rewrite seq_S, omap_app. simpl. by destruct (sent_bucket a r bs d k).
Qed.

Lemma fits_sent_le a r bs k n d :
  k ≤ n → fits (sent a r bs n d) → fits (sent a r bs k d).
Proof.
  intros Hk. unfold fits, sent. replace n with (k + (n - k)) by lia.
  rewrite seq_app, omap_app, bind_app, length_app. lia.
Qed.

Lemma sent_bucket_ne a r bs d k b w :
  bs !! k = Some b → r !! k = Some w → (WorkerID b ≠ a ∨ w = a ∨ w ≠ d) →
  sent_bucket a r bs d k = None.
Proof.
  intros Hb Hw Hne. unfold sent_bucket. rewrite Hb, Hw. simpl.
  rewrite bool_decide_false; [done|]. naive_solver.
Qed.

Lemma sent_bucket_eq a r bs k b w m :
  bs !! k = Some b → r !! k = Some w → WorkerID b = a → w ≠ a → Map b = Some m →
  sent_bucket a r bs w k = Some (k, m).
Proof.
  intros Hb Hw Ha Hne Hm. unfold sent_bucket. rewrite Hb, Hw. simpl.
  by rewrite bool_decide_true, Hm by done.
Qed.

Lemma SerializeBucket_Ok skmf items k m w :
  wf_item (k, m) → (∀ d, skmf !! d = factory_of items d) → fits (items w ++ [(k, m)]) →
  SerializeBucket marshalUint16 R1 R2 skmf (u32 (Z.of_nat k)) w (Some m) =
  Ok (<[w := skm_of (items w ++ [(k, m)])]> skmf).
Proof.
  intros Hwf Hf Hfit. unfold SerializeBucket. rewrite bind_Ok, Hf. unfold factory_of.
  rewrite u32_id by (by destruct Hwf).
  pose proof (AddBucket_skm_of (items w) (k, m) Hwf Hfit) as Hadd. cbn [fst snd] in Hadd.
  destruct (items w) as [|it its]; [rewrite NewSerializedKeyMap_Ok|];
    by rewrite bind_Ok, Hadd.
Qed.

Lemma after_bucket_S a r k i b :
  i ≠ k → after_bucket a r (S k) i b = after_bucket a r k i b.
Proof.
  intros Hik. unfold after_bucket. destruct (r !! i) as [w|]; [|done].
  repeat case_bool_decide; (done || lia).
Qed.

(** The sender's state after the loop reached [k]. *)
Definition migrate_inv (a : Z) (r : list Z) (bs : list BucketV2) (k : nat)
    (st : list BucketV2 * gmap Z SerializedKepMap) : Prop :=
  (∀ i, st.1 !! i = after_bucket a r k i <$> (bs !! i)) ∧
  (∀ d, st.2 !! d = factory_of (sent a r bs k) d).

Lemma migrate_inv_lookup a r bs k st b w :
  migrate_inv a r bs k st → bs !! k = Some b → r !! k = Some w → st.1 !! k = Some b.
Proof.
  intros [Hbs _] Hb Hw. rewrite Hbs, Hb. simpl. unfold after_bucket. rewrite Hw.
  by rewrite bool_decide_false by lia.
Qed.

Lemma migrate_step_send a r bs k st b w m :
  migrate_inv a r bs k st → bs !! k = Some b → r !! k = Some w →
  WorkerID b = a → w ≠ a → Map b = Some m → wf_item (k, m) →
  fits (sent a r bs (S k) w) →
  ∃ st', migrate_step marshalUint16 R1 R2 a r st k = Ok st' ∧ migrate_inv a r bs (S k) st'.
Proof.
  intros Hinv Hb Hw Ha Hne Hm Hitem Hfit.
  pose proof (migrate_inv_lookup _ _ _ _ _ _ _ Hinv Hb Hw) as Hb'.
  destruct st as [bs' skmf], Hinv as [Hbs Hskm]. cbn [fst snd] in *.
  assert (Hs : sent a r bs (S k) w = sent a r bs k w ++ [(k, m)]).
  { rewrite sent_S. by rewrite (sent_bucket_eq a r bs k b w m). }
  rewrite Hs in Hfit. unfold migrate_step.
  rewrite (proj2 (idx_Ok _ _ _) Hb'), bind_Ok, (proj2 (Z.eqb_eq _ _) Ha).
  rewrite (proj2 (idx_Ok _ _ _) Hw), bind_Ok, (proj2 (Z.eqb_neq _ _) Hne), Hm.
  rewrite (SerializeBucket_Ok skmf (sent a r bs k)), bind_Ok by done.
  pose proof (lookup_lt_Some _ _ _ Hb') as Hlt. unfold set_idx.
  rewrite bool_decide_true, bind_Ok by done.
  eexists. split; [reflexivity|]. split; cbn [fst snd].
  - intros i. destruct (decide (i = k)) as [->|Hik].
    + rewrite list_lookup_insert_eq, Hb by done. simpl. unfold after_bucket.
      rewrite Hw. by rewrite bool_decide_true by (split; [lia|done]).
    + rewrite list_lookup_insert_ne, Hbs by done.
      destruct (bs !! i); [|done]. simpl. by rewrite after_bucket_S.
  - intros d. destruct (decide (d = w)) as [->|Hd].
    + rewrite lookup_insert_eq. unfold factory_of. rewrite Hs. by destruct (sent a r bs k w).
    + rewrite lookup_insert_ne, Hskm by done. unfold factory_of.
      rewrite sent_S, (sent_bucket_ne a r bs d k b w), app_nil_r by naive_solver. done.
Qed.

Lemma migrate_step_keep a r bs k st b w :
  migrate_inv a r bs k st → bs !! k = Some b → r !! k = Some w →
  (WorkerID b ≠ a ∨ w = a) →
  migrate_step marshalUint16 R1 R2 a r st k = Ok st ∧ migrate_inv a r bs (S k) st.
Proof.
  intros Hinv Hb Hw Hstay.
  pose proof (migrate_inv_lookup _ _ _ _ _ _ _ Hinv Hb Hw) as Hb'.
  destruct st as [bs' skmf], Hinv as [Hbs Hskm]. cbn [fst snd] in *.
  assert (Hnone : ∀ d, sent_bucket a r bs d k = None).
  { intros d. eapply sent_bucket_ne; [done..|]. naive_solver. }
  split; [|split; cbn [fst snd]].
  - unfold migrate_step. rewrite (proj2 (idx_Ok _ _ _) Hb'), bind_Ok.
    destruct (Z.eqb_spec (WorkerID b) a); [|done].
    rewrite (proj2 (idx_Ok _ _ _) Hw), bind_Ok.
    destruct (Z.eqb_spec w a); [done|naive_solver].
  - intros i. rewrite Hbs. destruct (bs !! i) as [b0|] eqn:Hi; [|done]. simpl.
    destruct (decide (i = k)) as [->|Hik]; [|by rewrite after_bucket_S].
    unfold after_bucket. rewrite Hw, !bool_decide_false; [done|..]; naive_solver lia.
  - intros d. rewrite Hskm. unfold factory_of. by rewrite sent_S, Hnone, app_nil_r.
Qed.

(** The sender's loop: total, with the tables and messages of its prefix. *)
Lemma migrate_loop a r bs k :
  wf_sender a bs → k ≤ length bs → length r = length bs →
  (∀ d, fits (sent a r bs (length bs) d)) →
  ∃ st, foldM (migrate_step marshalUint16 R1 R2 a r) (bs, ∅) (seq 0 k) = Ok st ∧
    migrate_inv a r bs k st.
Proof.
  intros Hwf Hk Hr Hfit. induction k as [|k IH].
  { exists (bs, ∅). split_and!; [done|]. split; [|done]. intros i. cbn [fst].
    destruct (bs !! i) as [b|]; [|done]. simpl. unfold after_bucket.
    destruct (r !! i); [|done]. by rewrite bool_decide_false by lia. }
  destruct IH as (st & Hloop & Hinv); [lia|].
  rewrite seq_S, foldM_app, Hloop, bind_Ok. cbn [foldM Nat.add].
  destruct (lookup_lt_is_Some_2 bs k) as [b Hb]; [lia|].
  destruct (lookup_lt_is_Some_2 r k) as [w Hw]; [lia|].
  destruct (decide (WorkerID b = a)) as [Ha|Ha]; [destruct (decide (w = a)) as [Hwa|Hwa]|].
  - destruct (migrate_step_keep a r bs k st b w) as [-> ?]; eauto.
  - destruct (Hwf k b Hb Ha) as (m & Hm & Hitem).
    destruct (migrate_step_send a r bs k st b w m) as (st' & -> & ?);
      [done..|apply (fits_sent_le _ _ _ _ (length bs)); [lia|done]|]. eauto.
  - destruct (migrate_step_keep a r bs k st b w) as [-> ?]; eauto.
Qed.

(** [Done] of the factory: the finished message of every destination. *)
Lemma factory_Done_Ok skmf items :
  (∀ d, skmf !! d = factory_of items d) → (∀ d, fits (items d)) →
  ∃ out, factory_Done R1 skmf = Ok out ∧
    ∀ d, out !! d = match items d with [] => None | _ => Some (message (items d)) end.
Proof.
  intros Hskm Hfit. unfold factory_Done.
  destruct (foldM_total (λ result '(workerId, skm), d ← skm_Done skm;
      Ok (<[workerId := d]> result))
    (λ pre (out : gmap Z bytes), ∀ d,
       out !! d = if bool_decide (d ∈ pre.*1) then Some (message (items d)) else None)
    (@go_range R1 _ _ _ _ skmf) ∅) as (out & Hout & Hspec).
  - intros d. by rewrite bool_decide_false by set_solver.
  - intros pre [w skm] out Hpre Hout.
    assert (Hin : (w, skm) ∈ @go_range R1 _ _ _ _ skmf).
    { destruct Hpre as [rest ->]. set_solver. }
    apply elem_of_go_range in Hin. rewrite Hskm in Hin. unfold factory_of in Hin.
    assert (skm = skm_of (items w)) as -> by (destruct (items w); naive_solver).
    rewrite skm_Done_Ok, bind_Ok by done. eexists. split; [done|]. intros d.
    rewrite fmap_app. simpl. destruct (decide (d = w)) as [->|Hd].
    + rewrite lookup_insert_eq, bool_decide_true by set_solver. done.
    + rewrite lookup_insert_ne, Hout by done. do 2 case_bool_decide; set_solver.
  - exists out. split; [done|]. intros d. rewrite Hspec.
    pose proof (go_range_keys (H:=R1) skmf d) as Hkeys. rewrite Hskm in Hkeys.
    unfold factory_of in Hkeys. destruct (items d); case_bool_decide;
      naive_solver eauto using is_Some_None.
Qed.

Definition item_payload (it : nat * gmap bytes Z) : bytes :=
  payload (op_field (op it.1) it.2) (Z.of_nat it.1) (@go_range R2 _ _ _ _ it.2).

Definition receivable (bs : list BucketV2) (it : nat * gmap bytes Z) : Prop :=
  ∃ b, bs !! it.1 = Some b ∧ (Map b = None ∨ Map b = Some ∅).

Lemma receive_item d bs it :
  wf_item it → (Z.of_nat (length (item_payload it)) ≤ MaxKeyMapSize)%Z →
  receivable bs it →
  receive_bucket d bs (item_payload it) =
  Ok (<[it.1 := MkBucketV2 d (Some it.2)]> bs).
Proof.
  intros [Hwf Hu] Hmax (b & Hb & Hmap). unfold item_payload in *.
  rewrite (receive_bucket_Ok d bs _ _ _ it.2 b); rewrite ?Nat2Z.id; try done.
  - by apply length_op_field.
  - apply go_range_perm.
  - unfold op_field. case_bool_decide; [by left|by right].
Qed.

(** The goroutines of one message, in any order of distinct buckets. *)
Lemma receive_items d items bs :
  NoDup items.*1 → Forall wf_item items →
  Forall (λ it, (Z.of_nat (length (item_payload it)) ≤ MaxKeyMapSize)%Z) items →
  Forall (receivable bs) items →
  ∃ bs', foldM (receive_bucket d) bs (item_payload <$> items) = Ok bs' ∧
    (∀ i m, (i, m) ∈ items → bs' !! i = Some (MkBucketV2 d (Some m))) ∧
    (∀ i, i ∉ items.*1 → bs' !! i = bs !! i).
Proof.
  revert bs. induction items as [|[k m] items IH]; intros bs Hnd Hwf Hmax Hrec.
  { exists bs. split_and!; [done|set_solver|done]. }
  apply NoDup_cons in Hnd as [Hk Hnd]. apply Forall_cons in Hwf as [Hit Hwf].
  apply Forall_cons in Hmax as [Hm Hmax]. apply Forall_cons in Hrec as [Hr Hrec].
  rewrite fmap_cons. cbn [foldM]. rewrite receive_item, bind_Ok by done. cbn [fst snd] in *.
  destruct (IH (<[k := MkBucketV2 d (Some m)]> bs)) as (bs' & Hf & Hin & Hout); [done..| |].
  { apply Forall_forall. intros [k' m'] Hk'. rewrite Forall_forall in Hrec.
    destruct (Hrec _ Hk') as (b & Hb & Hmap). exists b. split; [|done]. cbn [fst] in *.
    rewrite list_lookup_insert_ne; [done|]. intros ->. apply Hk.
    apply list_elem_of_fmap. by exists (k', m'). }
  exists bs'. split_and!; [done|..].
  - intros i m' [Heq|Hi]%elem_of_cons; [|by apply Hin]. simplify_eq.
    rewrite Hout by done. destruct Hr as (b & Hb & _).
    apply list_lookup_insert_eq. by eapply lookup_lt_Some.
  - intros i Hi. rewrite Hout by set_solver. apply list_lookup_insert_ne. set_solver.
Qed.

Lemma length_item_le items it :
  it ∈ items → length (item_bytes it) ≤ length (items ≫= item_bytes).
Proof.
  induction items as [|it' items IH]; [set_solver|]. rewrite bind_cons, length_app.
  intros [->|Hin]%elem_of_cons; [lia|]. specialize (IH Hin). lia.
Qed.

(** Receiving a message. *)
Lemma receive_message `{Schedule} d items h bs :
  fits items → NoDup items.*1 → Forall wf_item items → Forall (receivable bs) items →
  ∃ bs', DeserializeMigratingKeyMaps (MkTableV2 h bs) (drop 6 (message items)) d =
      Ok (MkTableV2 h bs') ∧
    (∀ i m, (i, m) ∈ items → bs' !! i = Some (MkBucketV2 d (Some m))) ∧
    (∀ i, i ∉ items.*1 → bs' !! i = bs !! i).
Proof.
  intros Hfit Hnd Hwf Hrec.
  pose proof (length_message_items items Hfit) as Hn.
  assert (Hpay : Forall (λ it, (Z.of_nat (length (item_payload it)) ≤ MaxKeyMapSize)%Z) items).
  { apply Forall_forall. intros it Hit. pose proof (length_item_le items it Hit) as Hle.
    unfold item_bytes in Hle at 1. rewrite length_bucket_bytes in Hle.
    unfold fits in Hfit. unfold item_payload. lia. }
  assert (Hdrop : drop 6 (message items) =
    be_encode 4 (Z.of_nat (length items)) ++ (items ≫= item_bytes)).
  { unfold message. rewrite app_assoc. apply drop_app_length'.
    by rewrite length_app, marshal_length, length_be_encode. }
  unfold DeserializeMigratingKeyMaps. rewrite Hdrop.
  rewrite (slice_uint_app _ [] (be_encode 4 (Z.of_nat (length items)))
    (items ≫= item_bytes) _ _ (Z.of_nat (length items))), bind_Ok;
    [|done|done|by rewrite length_be_encode|by apply be_decode_encode32].
  set (raw := (λ it, (op_field (op it.1) it.2, Z.of_nat it.1, @go_range R2 _ _ _ _ it.2))
    <$> items : list (bytes * Z * list (bytes * Z))).
  pose proof (split_buckets_app raw (be_encode 4 (Z.of_nat (length items)) ++
    (items ≫= item_bytes)) (be_encode 4 (Z.of_nat (length items))) []) as Hsplit.
  unfold raw in Hsplit. rewrite length_fmap, length_be_encode in Hsplit.
  rewrite Nat2Z.id, Hsplit, bind_Ok; clear Hsplit.
  - rewrite <-list_fmap_compose.
    fold raw. change (compose _ _) with item_payload.
    pose proof (schedule_perm (item_payload <$> items)) as Hsched.
    apply Permutation_map_inv in Hsched as (items' & -> & Hp).
    destruct (receive_items d items' bs) as (bs' & Hf & Hin & Hout);
      [by rewrite <-Hp..|].
    cbn [t2_Buckets t2_H]. change (map item_payload items') with (item_payload <$> items').
    rewrite Hf, bind_Ok. exists bs'. split_and!; [done|..].
    + intros i m Hi. apply Hin. by rewrite <-Hp.
    + intros i Hi. apply Hout. by rewrite <-Hp.
  - apply Forall_fmap. eapply Forall_impl; [exact Hpay|]. intros it Hit.
    unfold is_u32, compose, item_payload, MaxKeyMapSize in *. cbn [fst snd] in *. lia.
  - rewrite app_nil_r. f_equal. unfold raw. clear.
    induction items as [|it items IH]; [done|].
    rewrite fmap_cons, !bind_cons. by rewrite <-IH.
Qed.

Lemma elem_of_sent a r bs d i m :
  (i, m) ∈ sent a r bs (length bs) d ↔
  ∃ b, bs !! i = Some b ∧ r !! i = Some d ∧ WorkerID b = a ∧ d ≠ a ∧ Map b = Some m.
Proof.
  unfold sent. rewrite list_elem_of_omap. unfold sent_bucket. split.
  - intros (j & _ & Hj). destruct (bs !! j) as [b|] eqn:Hb; [|done]. simpl in Hj.
    destruct (r !! j) as [w|] eqn:Hw; [|done]. simpl in Hj.
    case_bool_decide; [|done]. destruct (Map b) eqn:Hm; [|done].
    simplify_eq/=. exists b. naive_solver.
  - intros (b & Hb & Hr & Ha & Hd & Hm). exists i. split.
    + apply elem_of_seq. pose proof (lookup_lt_Some _ _ _ Hb). lia.
    + rewrite Hb, Hr. simpl. by rewrite bool_decide_true, Hm by done.
Qed.

Lemma NoDup_sent a r bs k d : NoDup (sent a r bs k d).*1.
Proof.
  induction k as [|k IH]; [constructor|]. rewrite sent_S, fmap_app.
  assert (Hlt : ∀ i, i ∈ (sent a r bs k d).*1 → i < k).
  { intros i (it & -> & (j & Hj & Hs)%list_elem_of_omap)%list_elem_of_fmap.
    apply elem_of_seq in Hj. unfold sent_bucket in Hs.
    destruct (bs !! j) as [b|]; [|done]. simpl in Hs. destruct (r !! j); [|done].
    simpl in Hs. case_bool_decide; [|done]. destruct (Map b); simplify_eq/=. lia. }
  destruct (sent_bucket a r bs d k) as [[j m]|] eqn:Hs; simpl; [|by rewrite app_nil_r].
  assert (j = k) as ->.
  { unfold sent_bucket in Hs. destruct (bs !! k) as [b|]; [|done]. simpl in Hs.
    destruct (r !! k); [|done]. simpl in Hs. case_bool_decide; [|done].
    destruct (Map b); by simplify_eq/=. }
  apply NoDup_app. split_and!; [done| |apply NoDup_singleton].
  intros i Hi%Hlt Hk%list_elem_of_singleton. lia.
Qed.

(** A destination that reads its message. *)
Lemma receive_sent `{Schedule} a r bs d h' rbs :
  wf_sender a bs → d ≠ a → fits (sent a r bs (length bs) d) →
  (∀ i b, bs !! i = Some b → WorkerID b = a → r !! i = Some d → receivable rbs (i, ∅)) →
  ∃ rbs', DeserializeMigratingKeyMaps (MkTableV2 h' rbs)
      (drop 6 (message (sent a r bs (length bs) d))) d = Ok (MkTableV2 h' rbs') ∧
    ∀ i, rbs' !! i =
      match bs !! i, r !! i with
      | Some b, Some w =>
          if bool_decide (WorkerID b = a ∧ w = d) then Some (MkBucketV2 d (Map b))
          else rbs !! i
      | _, _ => rbs !! i
      end.
Proof.
  intros Hwf Hda Hfit Hrec.
  destruct (receive_message d (sent a r bs (length bs) d) h' rbs)
    as (rbs' & Hde & Hin & Hnot).
  - done.
  - apply NoDup_sent.
  - apply Forall_forall. intros [i m] (b & Hb & _ & Ha & _ & Hm)%elem_of_sent.
    destruct (Hwf i b Hb Ha) as (m' & Hm' & Hit). by simplify_eq.
  - apply Forall_forall. intros [i m] (b & Hb & Hw & Ha & _ & Hm)%elem_of_sent.
    by eapply (Hrec i b).
  - exists rbs'. split; [done|]. intros i.
    assert (Hkeep : ¬ (∃ b, bs !! i = Some b ∧ WorkerID b = a ∧ r !! i = Some d) →
      rbs' !! i = rbs !! i).
    { intros Hno. apply Hnot. intros ([i' m] & -> & Hi)%list_elem_of_fmap.
      apply elem_of_sent in Hi. naive_solver. }
    destruct (bs !! i) as [b|] eqn:Hb; [|naive_solver].
    destruct (r !! i) as [w|] eqn:Hw; [|naive_solver].
    case_bool_decide as Hc; [|naive_solver].
    destruct Hc as [Ha ->]. destruct (Hwf i b Hb Ha) as (m & Hm & _).
    rewrite (Hin i m), Hm; [done|]. apply elem_of_sent. naive_solver.
Qed.

(** Messages go only to the new owners of buckets the sender had. *)
Lemma serialize_dom a table routing table' out d :
  SerializeMigratingKeyMaps marshalUint16 R1 R2 table a routing = Ok (table', out) → is_Some (out !! d) →
  ∃ i b, t2_Buckets table !! i = Some b ∧ WorkerID b = a ∧ Buckets routing !! i = Some d ∧ d ≠ a.
Proof.
  clear marshal_length op op_length. unfold SerializeMigratingKeyMaps. intros ([bs skmf] & Hloop & Hrest)%bind_Ok_inv.
  apply bind_Ok_inv in Hrest as (out' & Hdone & [= <- <-]). intros Hd.
  assert (is_Some (skmf !! d)) as Hs.
  { apply (@go_range_keys R1). revert Hd.
    refine (foldM_inv _ (λ seen (m : gmap Z bytes), is_Some (m !! d) → d ∈ seen.*1) _ _ _ _ _ Hdone).
    - rewrite lookup_empty. by intros [? ?].
    - intros seen [w skm] m m' _ IH (x & _ & [= <-])%bind_Ok_inv. rewrite fmap_app, lookup_insert_is_Some'. set_solver. }
  revert Hs. refine (proj2 (foldM_inv _ (λ _ st, (∀ i b, st.1 !! i = Some b → WorkerID b = a → t2_Buckets table !! i = Some b) ∧
    (is_Some (st.2 !! d) → ∃ i b, t2_Buckets table !! i = Some b ∧ WorkerID b = a ∧ Buckets routing !! i = Some d ∧ d ≠ a)) _ _ _ _ _ Hloop));
    [split; [done|]; simpl; rewrite lookup_empty; by intros [? ?]|].
  intros seen i [bs1 f1] st2 _ [Hbs Hf]. simpl in Hbs, Hf. unfold migrate_step.
  intros (b & Hb%idx_Ok & Hstep)%bind_Ok_inv. destruct (Z.eqb_spec (WorkerID b) a) as [Ha|Ha]; [|by injection Hstep as <-].
  apply bind_Ok_inv in Hstep as (w & Hw%idx_Ok & Hstep). destruct (Z.eqb_spec w a) as [->|Hwa]; [by injection Hstep as <-|].
  apply bind_Ok_inv in Hstep as (f2 & Hser & Hstep). apply bind_Ok_inv in Hstep as (bs2 & [_ ->]%set_idx_Ok & [= <-]). simpl. split.
  - intros j b' Hj Hb'. destruct (decide (i = j)) as [<-|Hne]; [|rewrite list_lookup_insert_ne in Hj by done; by apply Hbs].
    apply list_lookup_insert_Some in Hj as [(_ & <- & _)|[? _]]; done.
  - unfold SerializeBucket in Hser. apply bind_Ok_inv in Hser as (m & _ & Hser). apply bind_Ok_inv in Hser as (skm & _ & Hser).
    apply bind_Ok_inv in Hser as (skm' & _ & [= <-]). rewrite lookup_insert_is_Some'. intros [<-|Hd']; [|by apply Hf].
    exists i, b. split_and!; [by apply Hbs|done..].
Qed.

(** C24: migration of key maps.  From a sender whose own buckets have
    well-formed key maps, serializing against the new routing table succeeds
    when every destination's message fits in the 20 MB limit; the sender gives
    up exactly its reassigned buckets (new owner, nil map) and keeps the rest;
    there is one message per destination that gets a bucket; and a destination
    whose own copies of those buckets are nil or empty, reading the message in
    any order of its goroutines, ends with exactly the sender's key maps for
    them and everything else unchanged. *)
Theorem migrate_key_maps `{Schedule} a h bs routing
    (Hwf : wf_sender a bs) (Hr : length (Buckets routing) = length bs)
    (Hfit : ∀ d, fits (sent a (Buckets routing) bs (length bs) d)) :
  ∃ bs' out,
    SerializeMigratingKeyMaps marshalUint16 R1 R2 (MkTableV2 h bs) a routing =
      Ok (MkTableV2 h bs', out) ∧
    (∀ i b w, bs !! i = Some b → Buckets routing !! i = Some w →
       bs' !! i = Some (if bool_decide (WorkerID b = a ∧ w ≠ a)
                        then MkBucketV2 w None else b)) ∧
    (∀ d, is_Some (out !! d) ↔ ∃ i b, bs !! i = Some b ∧ WorkerID b = a ∧
                                       Buckets routing !! i = Some d ∧ d ≠ a) ∧
    (∀ d msg h' rbs,
       out !! d = Some msg →
       (∀ i b, bs !! i = Some b → WorkerID b = a → Buckets routing !! i = Some d →
          receivable rbs (i, ∅)) →
       ∃ rbs', DeserializeMigratingKeyMaps (MkTableV2 h' rbs) (drop 6 msg) d =
           Ok (MkTableV2 h' rbs') ∧
         ∀ i, rbs' !! i =
           match bs !! i, Buckets routing !! i with
           | Some b, Some w =>
               if bool_decide (WorkerID b = a ∧ w = d) then Some (MkBucketV2 d (Map b))
               else rbs !! i
           | _, _ => rbs !! i
           end).
Proof.
  set (r := Buckets routing) in *. set (items := sent a r bs (length bs)) in *.
  destruct (migrate_loop a r bs (length bs)) as ([bs' skmf] & Hloop & Hbs & Hskm); [done..|].
  destruct (factory_Done_Ok skmf items) as (out & Hdone & Hout); [done..|].
  exists bs', out. cbn [fst snd] in *. split_and!.
  - unfold SerializeMigratingKeyMaps. cbn [t2_Buckets t2_H]. fold r.
    by rewrite Hloop, bind_Ok, Hdone.
  - intros i b w Hb Hw. rewrite Hbs, Hb. simpl. unfold after_bucket. rewrite Hw.
    pose proof (lookup_lt_Some _ _ _ Hb). f_equal. repeat case_bool_decide; naive_solver.
  - intros d. rewrite Hout. split.
    + intros Hd. destruct (items d) as [|[i m] its] eqn:E; [by destruct Hd|].
      assert (Hin : (i, m) ∈ items d) by (rewrite E; left).
      apply elem_of_sent in Hin. naive_solver.
    + intros (i & b & Hb & Ha & Hw & Hd). destruct (Hwf i b Hb Ha) as (m & Hm & _).
      assert (Hin : (i, m) ∈ items d) by (apply elem_of_sent; naive_solver).
      destruct (items d); [by apply elem_of_nil in Hin|eauto].
  - intros d msg h' rbs Hmsg Hrec. rewrite Hout in Hmsg.
    assert (d ≠ a ∧ msg = message (items d)) as [Hda ->].
    { destruct (items d) as [|[i m] its] eqn:E; [done|].
      assert (Hin : (i, m) ∈ items d) by (rewrite E; left).
      apply elem_of_sent in Hin. naive_solver. }
    by apply receive_sent.
Qed.
End Migration.

Definition mig_map : gmap bytes Z := {[ [0; 7; 0; 0; 0; 0; 65]%Z := 1%Z ]}.
Definition mig_sender : list BucketV2 := [MkBucketV2 1 (Some mig_map); MkBucketV2 2 None].

Lemma migrate_key_maps_witness :
  ∃ bs' out, SerializeMigratingKeyMaps toy_marshal go_range_elements go_range_elements
      (MkTableV2 (toy_hash 1) mig_sender) 1 (MkTable (toy_hash 1) [2; 2]%Z) =
      Ok (MkTableV2 (toy_hash 1) bs', out) ∧
    bs' !! 0 = Some (MkBucketV2 2 None) ∧
    ∃ msg rbs', out !! 2%Z = Some msg ∧
      DeserializeMigratingKeyMaps (MkTableV2 (toy_hash 1)
        [MkBucketV2 1 None; MkBucketV2 2 (Some ∅)]) (drop 6 msg) 2 =
        Ok (MkTableV2 (toy_hash 1) rbs') ∧
      rbs' !! 0 = Some (MkBucketV2 2 (Some mig_map)).
Proof.
  destruct (migrate_key_maps toy_marshal ltac:(done) go_range_elements go_range_elements
    (λ _, [0; 7]%Z) ltac:(done) 1 (toy_hash 1) mig_sender (MkTable (toy_hash 1) [2; 2]%Z))
    as (bs' & out & Hser & Hbs & Hout & Hrecv).
  - intros [|[|i]] b Hb Ha; simplify_eq/=. exists mig_map. split; [done|].
    split; [|unfold is_u32; simpl; lia]. apply map_Forall_singleton.
    unfold wf_entry, is_u16. simpl. split_and!; (done || lia).
  - done.
  - intros d. destruct (decide (d = 2%Z)) as [->|Hd].
    + unfold fits. vm_compute. discriminate.
    + unfold fits, sent. simpl. unfold sent_bucket. simpl.
      rewrite !bool_decide_false by naive_solver. vm_compute. discriminate.
  - destruct (proj2 (Hout 2%Z)) as [msg Hmsg].
    { exists 0, (MkBucketV2 1 (Some mig_map)). split_and!; [reflexivity..|lia]. }
    destruct (Hrecv 2%Z msg (toy_hash 1) [MkBucketV2 1 None; MkBucketV2 2 (Some ∅)] Hmsg)
      as (rbs' & Hde & Hr).
    { clear. intros [|[|i]] b Hb Ha Hw; simplify_eq/=. eexists. split; [done|]. by left. }
    exists bs', out. split; [exact Hser|]. split.
    { apply (Hbs 0 (MkBucketV2 1 (Some mig_map)) 2%Z); reflexivity. }
    exists msg, rbs'. split; [exact Hmsg|]. split; [exact Hde|].
    rewrite Hr. reflexivity.
Defined.

(** ** Local operations *)

Lemma idxZ_set_idxZ {A} (l l' : list A) i x j :
  set_idxZ l i x = Ok l' → idxZ l' j = if (j =? i)%Z then Ok x else idxZ l j.
Proof.
  intros (Hi & Hlt & ->)%set_idxZ_Ok. unfold idxZ, idx.
  destruct (Z.ltb_spec j 0); destruct (Z.eqb_spec j i) as [->|Hne]; try lia; try done.
  - by rewrite list_lookup_insert_eq.
  - by rewrite list_lookup_insert_ne by lia.
Qed.

(** Reading any key after the map of bucket [b] was replaced. *)
Lemma GetWorkerID_store t b bucket m t' key' b' :
  store_map t b bucket m = Ok t' →
  GetWorkerID t' key' b' =
  if (b' =? b)%Z then Ok (default (WorkerID bucket) (m !! key')) else GetWorkerID t key' b'.
Proof.
  unfold store_map. intros (bs & Hset & [= <-])%bind_Ok_inv.
  unfold GetWorkerID. cbn [t2_Buckets]. rewrite (idxZ_set_idxZ _ _ _ _ _ Hset).
  destruct (Z.eqb_spec b' b) as [->|]; [|done]. simpl. by destruct (m !! key').
Qed.

Lemma GetWorkerID_Ok t key b w bucket m :
  idxZ (t2_Buckets t) b = Ok bucket → Map bucket = Some m →
  GetWorkerID t key b = Ok w ↔ default (WorkerID bucket) (m !! key) = w.
Proof.
  intros Hb Hm. unfold GetWorkerID. rewrite Hb, bind_Ok. unfold require_map. rewrite Hm.
  simpl. destruct (m !! key); naive_solver.
Qed.

Lemma store_map_Ok t b bucket m :
  idxZ (t2_Buckets t) b = Ok bucket →
  ∃ t', store_map t b bucket m = Ok t'.
Proof.
  intros (Hb & Hl)%idxZ_Ok. unfold store_map.
  erewrite (proj2 (set_idxZ_Ok _ _ _ _)); [eauto|]. split_and!; [done| |done].
  by eapply lookup_lt_Some.
Qed.

(** The key table is a map from (bucket, key) to worker whose default is
    the bucket's owner.  On a local bucket an insertion succeeds and is
    what the next lookup of that key returns; [UpdateKey] does the same but
    ends the process for a key that is not recorded; [RemoveKey] reverts the
    key to the bucket's owner; no other key or bucket is affected. *)
Theorem key_table_ops t key b w bucket m
    (Hb : idxZ (t2_Buckets t) b = Ok bucket) (Hm : Map bucket = Some m) :
  (∃ t', InsertOrUpdateKey t key b w = Ok t' ∧
     (∀ key' b', GetWorkerID t' key' b' =
        if bool_decide (key' = key ∧ b' = b) then Ok w else GetWorkerID t key' b') ∧
     UpdateKey t key b w =
       (if bool_decide (is_Some (m !! key)) then Ok t'
        else Crash (Fatal "Key not found in key map for updating key"))) ∧
  (if bool_decide (is_Some (m !! key))
   then ∃ t', RemoveKey t key b = Ok t' ∧
     (∀ key' b', GetWorkerID t' key' b' =
        if bool_decide (key' = key ∧ b' = b) then Ok (WorkerID bucket)
        else GetWorkerID t key' b')
   else RemoveKey t key b = Crash (Fatal "Key not found in key map for removing key")).
Proof.
  unfold InsertOrUpdateKey, UpdateKey, RemoveKey. rewrite !Hb, !bind_Ok.
  unfold require_map. rewrite !Hm, !bind_Ok.
  assert (Hget : ∀ key', GetWorkerID t key' b = Ok (default (WorkerID bucket) (m !! key'))).
  { intros key'. by eapply GetWorkerID_Ok. }
  split.
  - destruct (store_map_Ok t b bucket (<[key:=w]> m) Hb) as [t' Ht']. exists t'.
    split_and!; [done|..].
    + intros key' b'. rewrite (GetWorkerID_store _ _ _ _ _ key' b' Ht').
      destruct (Z.eqb_spec b' b) as [->|Hne].
      * rewrite Hget. destruct (decide (key' = key)) as [->|Hk].
        { by rewrite lookup_insert_eq, bool_decide_true. }
        rewrite lookup_insert_ne, bool_decide_false by naive_solver. done.
      * rewrite bool_decide_false by naive_solver. done.
    + destruct (m !! key); simpl; [|done]. done.
  - destruct (m !! key) as [v|] eqn:Hk; simpl; [|done].
    destruct (store_map_Ok t b bucket (delete key m) Hb) as [t' Ht']. exists t'.
    split; [done|]. intros key' b'. rewrite (GetWorkerID_store _ _ _ _ _ key' b' Ht').
    destruct (Z.eqb_spec b' b) as [->|Hne].
    + rewrite Hget. destruct (decide (key' = key)) as [->|Hk'].
      { by rewrite lookup_delete_eq, bool_decide_true. }
      rewrite lookup_delete_ne, bool_decide_false by naive_solver. done.
    + rewrite bool_decide_false by naive_solver. done.
Qed.

Lemma key_table_ops_witness :
  ∃ t', InsertOrUpdateKey (MkTableV2 (toy_hash 1) mig_sender) [9]%Z 0 5 = Ok t' ∧
    GetWorkerID t' [9]%Z 0 = Ok 5%Z.
Proof.
  destruct (key_table_ops (MkTableV2 (toy_hash 1) mig_sender) [9]%Z 0 5
    (MkBucketV2 1 (Some mig_map)) mig_map) as [(t' & Hins & Hget & _) _].
  - reflexivity.
  - reflexivity.
  - exists t'. split; [exact Hins|]. rewrite Hget. reflexivity.
Defined.

(** A worker that decodes the coordinator's ranges gets the coordinator's
    owners, with an empty key map exactly for its own buckets: it can look up
    keys of those and of no other bucket. *)
Theorem key_table_deserialize h owners local
    (Hne : owners ≠ []) (Hu16 : Forall is_u16 owners) :
  ∃ rs t, serialize_owners owners = Ok rs ∧
    DeserializeKeyLookupTableV2 h (Z.of_nat (length owners)) rs local = Ok t ∧
    WorkerID <$> t2_Buckets t = owners ∧
    ∀ i w key, owners !! i = Some w →
      GetWorkerID t key (Z.of_nat i) =
        if (w =? local)%Z then Ok local
        else Crash (Fatal "Key map nil for requesting key").
Proof.
  destruct (serialize_owners_runs owners) as (rs & Hs & Hr); [done..|].
  set (mk := λ w, MkBucketV2 w (if (w =? local)%Z then Some ∅ else None)).
  exists rs, (MkTableV2 h (mk <$> owners)). split_and!; [done|..].
  - unfold DeserializeKeyLookupTableV2, go_make.
    destruct (Z.ltb_spec (Z.of_nat (length owners)) 0); [lia|]. rewrite bind_Ok, Nat2Z.id.
    pose proof (deserialize_runs mk rs [] (replicate (length owners) BucketV2_zero) owners)
      as Hd. simpl in Hd. unfold mk in Hd at 1.
    rewrite Hd by (done || by rewrite length_replicate).
    by rewrite bind_Ok, length_fmap, Z.eqb_refl.
  - cbn [t2_Buckets]. rewrite <-list_fmap_compose. unfold compose, mk. simpl.
    apply list_fmap_id.
  - intros i w key Hi. unfold GetWorkerID. cbn [t2_Buckets].
    rewrite (proj2 (idxZ_Ok _ _ (mk w))), bind_Ok
      by (rewrite Nat2Z.id, list_lookup_fmap, Hi; split; [lia|done]).
    unfold require_map, mk. simpl. destruct (Z.eqb_spec w local) as [->|]; [|done].
    simpl. by rewrite lookup_empty.
Qed.

Lemma key_table_deserialize_witness :
  ∃ rs t, serialize_owners [4; 4; 7]%Z = Ok rs ∧
    DeserializeKeyLookupTableV2 (toy_hash 1) 3 rs 7 = Ok t ∧
    GetWorkerID t [1]%Z 2 = Ok 7%Z.
Proof.
  destruct (key_table_deserialize (toy_hash 1) [4; 4; 7]%Z 7)
    as (rs & t & Hs & Hd & _ & Hget).
  - done.
  - unfold is_u16. repeat constructor; lia.
  - exists rs, t. split; [exact Hs|]. split; [exact Hd|].
    apply (Hget 2 7%Z [1]%Z). reflexivity.
Defined.
