(* ===== verification/WorkerManager.v ===== *)
(** * Worker manager of the coordinator

    [coordinator/workerManager.go]: registration of workers and their
    allocation to tasks.  A [*ManagedWorker] is a pointer: an index into the
    append-only list [heap] of worker objects, so that the id view [Workers],
    the address view [WorkersByIP] and every placement plan share the objects
    the way the code does. *)

From stdpp Require Import prelude gmap strings list sorting.
From Stdlib Require Import ZArith Lia Ascii.
From S2P Require Import Prelude.

(** ** Worker objects *)

(** [ManagedWorker], without the gRPC stream. *)
Record ManagedWorker := MkWorker {
  mw_WorkerId : Z;
  DataPlaneAddr : string;
  StateCommAddr : string;
  IsAvailable : bool
}.

Abbreviation ptr := nat (only parsing).

Record WorkerManager := MkWM {
  heap : list ManagedWorker;
  Workers : gmap Z ptr;
  WorkersByIP : gmap string (list ptr);
  NextWorkerId : Z
}.

Definition NewWorkerManager : WorkerManager := MkWM [] ∅ ∅ 0.

(** ** Strings *)

(** [strings.Split(s, ":")]. *)
Fixpoint split_colon (s : string) : list string :=
  match s with
  | EmptyString => [EmptyString]
  | String a r =>
      if Ascii.eqb a ":"%char then EmptyString :: split_colon r
      else match split_colon r with
           | h :: t => String a h :: t
           | [] => [String a EmptyString]
           end
  end.

Definition digit (a : ascii) : option Z :=
  let n := Z.of_nat (Ascii.nat_of_ascii a) in
  if ((48 <=? n) && (n <=? 57))%Z then Some (n - 48)%Z else None.

Fixpoint digits (acc : Z) (s : string) : option Z :=
  match s with
  | EmptyString => Some acc
  | String a r => d ← digit a; digits (10 * acc + d)%Z r
  end.

(** [strconv.Atoi] with its error dropped: zero for a malformed number, the
    nearest 64-bit integer for one out of range. *)
Definition Atoi (s : string) : Z :=
  let clamp z := Z.max (- 2 ^ 63) (Z.min (2 ^ 63 - 1) z) in
  let number r := match r with EmptyString => None | _ => digits 0 r end in
  match s with
  | String "-"%char r => match number r with Some z => clamp (- z)%Z | None => 0%Z end
  | String "+"%char r => match number r with Some z => clamp z | None => 0%Z end
  | r => match number r with Some z => clamp z | None => 0%Z end
  end.

(** ** Operations *)

Definition GetNumWorkers (w : WorkerManager) : nat := size (Workers w).

(** [AddWorker] on the object the registration handler allocated; the id
    counter is a [uint16]. *)
Definition AddWorker (w : WorkerManager) (worker : ManagedWorker) : WorkerManager :=
  let p := length (heap w) in
  let worker := MkWorker (NextWorkerId w) (DataPlaneAddr worker)
                  (StateCommAddr worker) (IsAvailable worker) in
  let workerIP := default EmptyString (head (split_colon (DataPlaneAddr worker))) in
  MkWM (heap w ++ [worker])
    (<[NextWorkerId w := p]> (Workers w))
    (<[workerIP := default [] (WorkersByIP w !! workerIP) ++ [p]]> (WorkersByIP w))
    (u16 (NextWorkerId w + 1)).

(** [RegisterToCoordinator]: a new object, available, whose addresses are
    built from the peer's IP and the ports of the message. *)
Definition RegisterToCoordinator (w : WorkerManager)
    (workerIP dataPlanePort stateCommPort : string) : WorkerManager :=
  AddWorker w (MkWorker 0 (workerIP +:+ ":" +:+ dataPlanePort)
                 (workerIP +:+ ":" +:+ stateCommPort) true).

Definition available (w : WorkerManager) (p : ptr) : bool :=
  match heap w !! p with Some m => IsAvailable m | None => false end.

(** [worker.IsAvailable = false] through the pointer. *)
Definition mark_busy (h : list ManagedWorker) (p : ptr) : list ManagedWorker :=
  alter (λ m, MkWorker (mw_WorkerId m) (DataPlaneAddr m) (StateCommAddr m) false) p h.

Definition set_heap (w : WorkerManager) (h : list ManagedWorker) : WorkerManager :=
  MkWM h (Workers w) (WorkersByIP w) (NextWorkerId w).

(** The port a comparison of [AllocateRandomWorkers] reads; [None] is its
    fatal branch. *)
Definition worker_port (w : WorkerManager) (p : ptr) : option Z :=
  m ← heap w !! p;
  match split_colon (DataPlaneAddr m) with
  | [_; port] => Some (Atoi port)
  | _ => None
  end.

Definition port_le (w : WorkerManager) (p q : ptr) : Prop :=
  (default 0%Z (worker_port w p) ≤ default 0%Z (worker_port w q))%Z.

#[export] Instance port_le_dec w : RelDecision (port_le w).
Proof. unfold port_le. intros ??. apply _. Defined.

(** [sort.Slice] leaves workers of equal port in any order. *)
Class SortWorkers := {
  sort_workers : WorkerManager → list ptr → list ptr;
  sort_workers_perm : ∀ w l, sort_workers w l ≡ₚ l;
  sort_workers_sorted : ∀ w l, Sorted (port_le w) (sort_workers w l)
}.

#[export] Instance port_le_total w : Total (port_le w).
Proof. unfold Total, port_le. intros. lia. Qed.
#[export] Instance port_le_trans w : Transitive (port_le w).
Proof. unfold Transitive, port_le. intros. lia. Qed.

#[export] Instance merge_sort_workers : SortWorkers.
Proof.
  refine {| sort_workers := λ w, merge_sort (port_le w) |}.
  - intros. apply merge_sort_Permutation.
  - intros. apply (Sorted_merge_sort _).
Defined.

Section Allocation.
Context `{GoRange, SortWorkers}.

(** The workers a scan of the id map finds available. *)
Definition availableWorkers (w : WorkerManager) : list ptr :=
  filter (λ p, available w p) (go_range (Workers w)).*2.

(** [AllocateRandomWorkers].  Every worker takes part in some comparison as
    soon as there are two, so the sort is fatal iff there are at least two and
    one of them has a malformed address. *)
Definition AllocateRandomWorkers (w : WorkerManager) (numRequiredWorkers : Z)
    : res (WorkerManager * list ptr) :=
  panic_if (numRequiredWorkers <? 0)%Z;;
  let avail := availableWorkers w in
  fatal_if (bool_decide (2 ≤ length avail) &&
            existsb (λ p, bool_decide (worker_port w p = None)) avail)
    "Invalid DataPlaneAddr format";;
  let sorted := sort_workers w avail in
  let selected := if (numRequiredWorkers <? Z.of_nat (length sorted))%Z
                  then take (Z.to_nat numRequiredWorkers) sorted else sorted in
  let w := set_heap w (foldl mark_busy (heap w) selected) in
  fatal_if (negb (Z.of_nat (length selected) =? numRequiredWorkers)%Z)
    "Need more workers than available";;
  Ok (w, selected).

(** The inner loop of [AllocateSpecifiedWorkers] over the workers of one
    address; it breaks when the remaining count reaches zero. *)
Fixpoint take_available (w : WorkerManager) (ps : list ptr) (selected : list ptr)
    (remaining : Z) : WorkerManager * list ptr * Z :=
  match ps with
  | [] => (w, selected, remaining)
  | p :: ps =>
      if available w p then
        let w := set_heap w (mark_busy (heap w) p) in
        if (remaining - 1 =? 0)%Z then (w, selected ++ [p], (remaining - 1)%Z)
        else take_available w ps (selected ++ [p]) (remaining - 1)
      else take_available w ps selected remaining
  end.

Definition allocate_ip (targetAddrs : gmap string Z)
    (st : WorkerManager * list ptr) (ip : string) : res (WorkerManager * list ptr) :=
  let '(w, selected) := st in
  let totalCount := default 0%Z (targetAddrs !! ip) in
  workerListByIP ← match WorkersByIP w !! ip with
                   | Some l => Ok l
                   | None => Crash (Fatal "no worker registered on this IP")
                   end;
  let '(w, selected, remaining) := take_available w workerListByIP selected totalCount in
  fatal_if (0 <? remaining)%Z "not enough available workers left";;
  Ok (w, selected).

(** [sort.Strings] on distinct keys of a map: the one sorted order. *)
Definition AllocateSpecifiedWorkers (w : WorkerManager) (parallelism : Z)
    (targetAddrs : gmap string Z) : res (WorkerManager * list ptr) :=
  panic_if (parallelism <? 0)%Z;;
  fatal_if (negb (foldr Z.add 0%Z (go_range targetAddrs).*2 =? parallelism)%Z)
    "placement plan does not match the operator parallelism";;
  let targetAddrsList := merge_sort String.le (go_range targetAddrs).*1 in
  foldM (allocate_ip targetAddrs) (w, []) targetAddrsList.
End Allocation.

Definition GetWorker (w : WorkerManager) (workerId : Z) : res ptr :=
  match Workers w !! workerId with
  | Some p => Ok p
  | None => Crash (Fatal "Worker not found")
  end.

Definition deref (w : WorkerManager) (p : ptr) : res ManagedWorker := idx (heap w) p.

Definition GetWorkerDataPlaneAddr (w : WorkerManager) (workerId : Z) : res string :=
  p ← GetWorker w workerId; m ← deref w p; Ok (DataPlaneAddr m).

Definition GetWorkerStateCommAddr (w : WorkerManager) (workerId : Z) : res string :=
  p ← GetWorker w workerId; m ← deref w p; Ok (StateCommAddr m).

(** ** Invariant *)

(** Both views point to live objects; the id view maps each id to an object
    that carries it; while fewer than 2^16 workers have registered, ids are
    registration numbers and no worker is lost from either view. *)
Record wm_wf (w : WorkerManager) : Prop := {
  wf_ids : ∀ id p, Workers w !! id = Some p →
    ∃ m, heap w !! p = Some m ∧ mw_WorkerId m = id;
  wf_ips : ∀ ip ps, WorkersByIP w !! ip = Some ps → NoDup ps ∧
    ∀ p, p ∈ ps → ∃ m, heap w !! p = Some m ∧
      head (split_colon (DataPlaneAddr m)) = Some ip;
  wf_next : is_u16 (NextWorkerId w);
  wf_u16 : ∀ p m, heap w !! p = Some m → is_u16 (mw_WorkerId m);
  wf_registered : (Z.of_nat (length (heap w)) < 2 ^ 16)%Z →
    NextWorkerId w = Z.of_nat (length (heap w)) ∧
    ∀ p m, heap w !! p = Some m →
      mw_WorkerId m = Z.of_nat p ∧ Workers w !! Z.of_nat p = Some p
}.

Lemma NewWorkerManager_wf : wm_wf NewWorkerManager.
Proof.
  split; simpl; try done.
Qed.

Lemma split_colon_head s : ∃ h t, split_colon s = h :: t.
Proof.
  induction s as [|a s (h & t & IH)]; simpl; [eauto|].
  destruct (Ascii.eqb a ":"%char); [eauto|]. rewrite IH. eauto.
Qed.

Lemma AddWorker_wf w m : wm_wf w → wm_wf (AddWorker w m).
Proof.
  intros [Hids Hips Hnext Hu16 Hreg]. unfold AddWorker. split; simpl.
  - intros id p. destruct (decide (id = NextWorkerId w)) as [->|Hne].
    + rewrite lookup_insert_eq. intros [= <-].
      eexists. by rewrite list_lookup_middle.
    + rewrite lookup_insert_ne by done. intros (m' & Hm' & Hid)%Hids.
      exists m'. split; [by apply lookup_app_l_Some|done].
  - set (ip := default EmptyString (head (split_colon (DataPlaneAddr m)))) in *.
    assert (Hip : head (split_colon (DataPlaneAddr m)) = Some ip).
    { subst ip. by destruct (split_colon_head (DataPlaneAddr m)) as (h & t & ->). }
    intros ip' ps. destruct (decide (ip' = ip)) as [->|Hne].
    + rewrite lookup_insert_eq. intros [= <-].
      destruct (WorkersByIP w !! ip) as [ps|] eqn:Hps; simpl.
      * destruct (Hips _ _ Hps) as [Hnd Hin]. split.
        { apply NoDup_app. split_and!; [done| |apply NoDup_singleton].
          intros p Hp ->%list_elem_of_singleton. destruct (Hin _ Hp) as (m' & Hm' & _).
          apply lookup_lt_Some in Hm'. lia. }
        intros p [Hp|Hp]%elem_of_app.
        { destruct (Hin _ Hp) as (m' & Hm' & ?). exists m'.
          split; [by apply lookup_app_l_Some|done]. }
        apply list_elem_of_singleton in Hp as ->. eexists.
        by rewrite list_lookup_middle.
      * split; [apply NoDup_singleton|]. intros p ->%list_elem_of_singleton.
        eexists. by rewrite list_lookup_middle.
    + rewrite lookup_insert_ne by done. intros Hps.
      destruct (Hips _ _ Hps) as [Hnd Hin]. split; [done|]. intros p Hp.
      destruct (Hin _ Hp) as (m' & Hm' & ?). exists m'.
      split; [by apply lookup_app_l_Some|done].
  - apply u16_range.
  - intros p m' Hm'. apply lookup_app_Some in Hm' as [Hm'|[_ Hm']]; [by eapply Hu16|].
    by apply list_lookup_singleton_Some in Hm' as [_ <-].
  - rewrite length_app. simpl. intros Hlen. destruct Hreg as [Hn Hall]; [lia|].
    rewrite Hn. split; [rewrite u16_id; [lia|unfold is_u16; lia]|].
    intros p m'. destruct (decide (p = length (heap w))) as [->|Hp].
    + rewrite list_lookup_middle by done. intros [= <-]. simpl.
      by rewrite lookup_insert_eq.
    + intros Hm'. pose proof (lookup_lt_Some _ _ _ Hm') as Hlt.
      rewrite length_app in Hlt. simpl in Hlt.
      rewrite lookup_app_l in Hm' by lia. rewrite lookup_insert_ne by lia. by apply Hall.
Qed.

(** ** Allocation marks exactly the selected workers *)

Definition busy (m : ManagedWorker) : ManagedWorker :=
  MkWorker (mw_WorkerId m) (DataPlaneAddr m) (StateCommAddr m) false.

Lemma mark_busy_lookup h p q :
  mark_busy h p !! q = (if decide (q = p) then busy <$> h !! q else h !! q).
Proof.
  unfold mark_busy. case_decide as Hq; [subst q|].
  - by rewrite list_lookup_alter_eq.
  - by rewrite list_lookup_alter_ne.
Qed.

Lemma mark_all_lookup h ps q :
  foldl mark_busy h ps !! q = (if decide (q ∈ ps) then busy <$> h !! q else h !! q).
Proof.
  revert h. induction ps as [|p ps IH]; intros h; cbn [foldl].
  { rewrite decide_False by set_solver. done. }
  rewrite IH, mark_busy_lookup. destruct (h !! q) as [m|] eqn:Hm;
    repeat case_decide; simpl; try done; set_solver.
Qed.

Lemma mark_all_available w ps q :
  available (set_heap w (foldl mark_busy (heap w) ps)) q =
  available w q && negb (bool_decide (q ∈ ps)).
Proof.
  unfold available, set_heap. simpl. rewrite mark_all_lookup.
  destruct (heap w !! q) as [m|], (decide (q ∈ ps));
    [rewrite bool_decide_true by done|rewrite bool_decide_false by done|..];
    simpl; rewrite ?andb_false_r, ?andb_true_r; done.
Qed.

Lemma mark_all_wf w ps : wm_wf w → wm_wf (set_heap w (foldl mark_busy (heap w) ps)).
Proof.
  intros [Hids Hips Hnext Hu16 Hreg].
  assert (Hlook : ∀ q m, heap w !! q = Some m → ∃ m',
    foldl mark_busy (heap w) ps !! q = Some m' ∧ mw_WorkerId m' = mw_WorkerId m ∧
    DataPlaneAddr m' = DataPlaneAddr m).
  { intros q m Hm. rewrite mark_all_lookup, Hm. case_decide; simpl; eauto. }
  assert (Hlen : ∀ h, length (foldl mark_busy h ps) = length h).
  { clear. induction ps as [|p ps IH]; intros h; simpl; [done|].
    rewrite IH. unfold mark_busy. apply length_alter. }
  unfold set_heap. split; simpl.
  - intros id p (m & Hm & Hid)%Hids. destruct (Hlook _ _ Hm) as (m' & ? & ? & ?).
    exists m'. split; [done|congruence].
  - intros ip qs Hqs. destruct (Hips _ _ Hqs) as [Hnd Hin]. split; [done|].
    intros p (m & Hm & Hh)%Hin. destruct (Hlook _ _ Hm) as (m' & ? & ? & Ha).
    exists m'. split; [done|by rewrite Ha].
  - done.
  - intros p m'. rewrite mark_all_lookup. destruct (heap w !! p) as [m|] eqn:Hm;
      [|by case_decide]. pose proof (Hu16 _ _ Hm). by case_decide; intros [= <-].
  - rewrite Hlen. intros Hlt. destruct (Hreg Hlt) as [Hn Hall]. split; [done|].
    intros p m'. rewrite mark_all_lookup. destruct (heap w !! p) as [m|] eqn:Hm;
      [|by case_decide]. destruct (Hall _ _ Hm) as [Hid Hw].
    case_decide; intros [= <-]; done.
Qed.

Section AllocationSpec.
Context `{GoRange, SortWorkers}.

Lemma elem_of_availableWorkers w p :
  p ∈ availableWorkers w ↔ available w p = true ∧ ∃ id, Workers w !! id = Some p.
Proof.
  unfold availableWorkers. rewrite list_elem_of_filter, list_elem_of_fmap.
  split.
  - intros (Ha & [id q] & -> & Hin%elem_of_go_range).
    split; [by apply Is_true_true|]. by exists id.
  - intros (Ha & id & Hid). split; [by apply Is_true_true|].
    exists (id, p). by rewrite elem_of_go_range.
Qed.

Lemma NoDup_availableWorkers w : wm_wf w → NoDup (availableWorkers w).
Proof.
  intros Hwf. apply NoDup_filter.
  pose proof (NoDup_go_range (Workers w)) as Hnd.
  assert (Hinj : ∀ id id' p, (id, p) ∈ go_range (Workers w) →
    (id', p) ∈ go_range (Workers w) → id = id').
  { intros id id' p Hp%elem_of_go_range Hp'%elem_of_go_range.
    destruct (wf_ids _ Hwf _ _ Hp) as (m & Hm & <-).
    destruct (wf_ids _ Hwf _ _ Hp') as (m' & Hm' & <-). by simplify_eq. }
  induction (go_range (Workers w)) as [|[id p] l IH]; [constructor|].
  apply NoDup_cons in Hnd as [Hid Hnd]. simpl. constructor.
  - intros ([id' p'] & Hpp & Hin)%list_elem_of_fmap. simpl in Hpp. subst p'.
    assert (id = id') as -> by (eapply Hinj; [left|by right]).
    apply Hid. apply list_elem_of_fmap. by exists (id', p).
  - apply IH; [done|]. intros id1 id2 q H1 H2. eapply Hinj; by right.
Qed.

(** In a sorted list, the chosen prefix is below what is left. *)
Lemma sorted_take_drop w n l p q :
  Sorted (port_le w) l → p ∈ take n l → q ∈ drop n l → port_le w p q.
Proof.
  intros Hs%Sorted_StronglySorted Hp Hq; [|apply _].
  rewrite <-(take_drop n l) in Hs. by eapply StronglySorted_app_1_elem_of.
Qed.

(** A successful allocation, with no assumption on the addresses. *)
Lemma AllocateRandomWorkers_inv w n w' sel :
  wm_wf w → AllocateRandomWorkers w n = Ok (w', sel) →
  w' = set_heap w (foldl mark_busy (heap w) sel) ∧ Z.of_nat (length sel) = n ∧
  NoDup sel ∧ ∀ p, p ∈ sel → p ∈ availableWorkers w.
Proof.
  intros Hwf. unfold AllocateRandomWorkers.
  intros ([] & _ & ([] & _ & ([] & Hlen%fatal_if_Ok & Heq)%bind_Ok_inv)%bind_Ok_inv)%bind_Ok_inv.
  apply negb_false_iff, Z.eqb_eq in Hlen. simplify_eq.
  pose proof (sort_workers_perm w (availableWorkers w)) as Hperm.
  assert (Hnd : NoDup (sort_workers w (availableWorkers w)))
    by (rewrite Hperm; by apply NoDup_availableWorkers).
  split_and!; [done|done|..].
  - destruct (_ <? _)%Z; [|done]. rewrite <-(take_drop (Z.to_nat n) _) in Hnd.
    by apply NoDup_app in Hnd as [? _].
  - intros p Hp. rewrite <-Hperm. destruct (_ <? _)%Z; [|done].
    apply elem_of_take in Hp as (? & ? & ?). by eapply list_elem_of_lookup_2.
Qed.

(** What a successful allocation promises: [n] distinct registered workers
    that were available and are no longer, every other worker untouched. *)
Definition allocated (w w' : WorkerManager) (sel : list ptr) (n : Z) : Prop :=
  Z.of_nat (length sel) = n ∧ NoDup sel ∧
  (∀ p, p ∈ sel → available w p = true ∧ ∃ id, Workers w !! id = Some p) ∧
  heap w' = foldl mark_busy (heap w) sel ∧
  Workers w' = Workers w ∧ WorkersByIP w' = WorkersByIP w ∧ NextWorkerId w' = NextWorkerId w.

(** Random allocation.  With well-formed addresses it succeeds exactly when
    at least [n] registered workers are available; it then returns [n]
    distinct workers that were available, marks exactly those busy, prefers
    lower ports, and keeps the manager's invariant; otherwise the process
    ends. *)
Theorem allocate_random_spec w n
    (Hwf : wm_wf w) (Hn : (0 ≤ n)%Z)
    (Hports : ∀ p, p ∈ availableWorkers w → is_Some (worker_port w p)) :
  match AllocateRandomWorkers w n with
  | Ok (w', sel) =>
      (n ≤ Z.of_nat (length (availableWorkers w)))%Z ∧
      allocated w w' sel n ∧ wm_wf w' ∧
      (∀ q, available w' q = available w q && negb (bool_decide (q ∈ sel))) ∧
      (∀ p q, p ∈ sel → q ∈ availableWorkers w → q ∉ sel → port_le w p q)
  | Crash c => c = Fatal "Need more workers than available" ∧
      (Z.of_nat (length (availableWorkers w)) < n)%Z
  end.
Proof.
  unfold AllocateRandomWorkers. rewrite (proj2 (Z.ltb_ge n 0)) by done. cbn [panic_if].
  rewrite bind_Ok. set (avail := availableWorkers w) in *.
  assert (Hbad : existsb (λ p, bool_decide (worker_port w p = None)) avail = false).
  { apply not_true_iff_false. intros (p & Hp & Hb)%existsb_exists.
    apply bool_decide_eq_true in Hb. apply list_elem_of_In in Hp.
    destruct (Hports p Hp) as [z Hz]. congruence. }
  rewrite Hbad, andb_false_r, bind_fatal_false.
  pose proof (sort_workers_perm w avail) as Hperm.
  pose proof (sort_workers_sorted w avail) as Hsorted.
  set (s := sort_workers w avail) in *.
  assert (Hlen : length s = length avail) by (by rewrite Hperm).
  assert (Hsel : (if (n <? Z.of_nat (length s))%Z then take (Z.to_nat n) s else s) =
                 take (Z.to_nat n) s).
  { destruct (Z.ltb_spec n (Z.of_nat (length s))); [done|]. by rewrite take_ge by lia. }
  rewrite Hsel. set (sel := take (Z.to_nat n) s) in *.
  assert (Hsl : length sel = min (Z.to_nat n) (length avail))
    by (subst sel; rewrite length_take; lia).
  destruct (Z.eqb_spec (Z.of_nat (length sel)) n) as [Heq|Hne]; simpl; [|split; [done|lia]].
  assert (Hnds : NoDup s) by (rewrite Hperm; by apply NoDup_availableWorkers).
  assert (Hin : ∀ p, p ∈ sel → p ∈ avail).
  { intros p Hp. rewrite <-Hperm. apply elem_of_take in Hp as (? & ? & ?).
    by eapply list_elem_of_lookup_2. }
  split_and!; [lia| | | |].
  - split_and!; [done| | |done..].
    + subst sel. rewrite <-(take_drop (Z.to_nat n) s) in Hnds.
      by apply NoDup_app in Hnds as [? _].
    + intros p Hp%Hin. by apply elem_of_availableWorkers.
  - by apply mark_all_wf.
  - intros q. apply mark_all_available.
  - intros p q Hp Hq Hnq. apply (sorted_take_drop w (Z.to_nat n) s); [done..|].
    rewrite <-Hperm, <-(take_drop (Z.to_nat n) s) in Hq.
    by apply elem_of_app in Hq as [?|?].
Qed.
End AllocationSpec.

(** ** Allocation by address *)

Section SpecifiedSpec.
Context `{GoRange}.

Lemma set_heap_set_heap w h1 h2 : set_heap (set_heap w h1) h2 = set_heap w h2.
Proof. done. Qed.

(** The inner loop takes the first available workers of the address. *)
Lemma take_available_spec w ps sel (n : nat) :
  NoDup ps → 0 < n →
  let ex := take n (filter (λ p, available w p) ps) in
  take_available w ps sel (Z.of_nat n) =
  (set_heap w (foldl mark_busy (heap w) ex), sel ++ ex, (Z.of_nat n - Z.of_nat (length ex))%Z).
Proof.
  revert w sel n. induction ps as [|p ps IH]; intros w sel n Hnd Hn; cbn zeta.
  { rewrite filter_nil, take_nil. simpl. rewrite app_nil_r, Z.sub_0_r. by destruct w. }
  apply NoDup_cons in Hnd as [Hp Hnd]. cbn [take_available]. rewrite filter_cons.
  destruct (available w p) eqn:Ha.
  2:{ destruct (decide false) as [[]|_]. by apply IH. }
  destruct (decide true) as [_|[]]; [|exact I]. destruct n as [|n]; [lia|].
  replace (Z.of_nat (S n) - 1)%Z with (Z.of_nat n) by lia.
  destruct (Z.eqb_spec (Z.of_nat n) 0) as [Hz|Hz].
  - assert (n = 0) as -> by lia. done.
  - rewrite IH by (done || lia).
    assert (Hf : filter (λ q, available (set_heap w (mark_busy (heap w) p)) q) ps =
                 filter (λ q, available w q) ps).
    { apply list_filter_ext. intros q Hq.
      pose proof (mark_all_available w [p] q) as Hm. simpl in Hm. rewrite Hm.
      rewrite bool_decide_false by set_solver. by rewrite andb_true_r. }
    rewrite Hf. cbn [take]. rewrite set_heap_set_heap. cbn [heap set_heap foldl length].
    rewrite <-app_assoc. simpl. f_equal. lia.
Qed.

(** The workers of address [ip] that can still be used. *)
Definition available_at (w : WorkerManager) (ip : string) : list ptr :=
  filter (λ p, available w p) (default [] (WorkersByIP w !! ip)).

(** The state of [AllocateSpecifiedWorkers] after the addresses [pre]. *)
Definition specified_inv (w : WorkerManager) (addrs : gmap string Z) (pre : list string)
    (st : WorkerManager * list ptr) : Prop :=
  st.1 = set_heap w (foldl mark_busy (heap w) st.2) ∧
  st.2 = pre ≫= λ ip, take (Z.to_nat (default 0%Z (addrs !! ip))) (available_at w ip).

Lemma available_at_ip w ip p :
  wm_wf w → p ∈ available_at w ip →
  ∃ m, heap w !! p = Some m ∧ IsAvailable m = true ∧
       head (split_colon (DataPlaneAddr m)) = Some ip.
Proof.
  intros Hwf [Ha Hin]%list_elem_of_filter.
  destruct (WorkersByIP w !! ip) as [ps|] eqn:Hps; simpl in Hin; [|by apply elem_of_nil in Hin].
  destruct (wf_ips _ Hwf _ _ Hps) as [_ Hall]. destruct (Hall _ Hin) as (m & Hm & Hh).
  exists m. split_and!; [done| |done]. unfold available in Ha. rewrite Hm in Ha.
  by apply Is_true_true.
Qed.

Lemma NoDup_available_at w ip : wm_wf w → NoDup (available_at w ip).
Proof.
  intros Hwf. apply NoDup_filter. destruct (WorkersByIP w !! ip) as [ps|] eqn:Hps; simpl;
    [|constructor]. by destruct (wf_ips _ Hwf _ _ Hps).
Qed.

Lemma allocate_ip_Ok w addrs pre st ip c :
  wm_wf w → ip ∉ pre → is_Some (WorkersByIP w !! ip) → addrs !! ip = Some c → (0 < c)%Z →
  (c ≤ Z.of_nat (length (available_at w ip)))%Z →
  specified_inv w addrs pre st →
  ∃ st', allocate_ip addrs st ip = Ok st' ∧ specified_inv w addrs (pre ++ [ip]) st'.
Proof.
  intros Hwf Hpre [ps Hps] Hc Hpos Hle [Hw Hsel]. destruct st as [w1 sel]. cbn [fst snd] in *.
  destruct (wf_ips _ Hwf _ _ Hps) as [Hnd _].
  assert (Hav : filter (λ p, available w1 p) ps = available_at w ip).
  { unfold available_at. rewrite Hps. simpl. apply list_filter_ext.
    intros p Hp. rewrite Hw, mark_all_available, bool_decide_false; [by rewrite andb_true_r|].
    rewrite Hsel. intros (ip' & Hip' & Hin)%list_elem_of_bind.
    apply elem_of_take in Hip' as (i & Hi & _). apply list_elem_of_lookup_2 in Hi.
    destruct (available_at_ip _ _ _ Hwf Hi) as (m & Hm & _ & Hh).
    destruct (proj2 (wf_ips _ Hwf _ _ Hps) _ Hp) as (m' & Hm' & Hh'). by simplify_eq. }
  unfold allocate_ip. rewrite Hc. cbn [default from_option id].
  assert (WorkersByIP w1 !! ip = Some ps) as -> by (by rewrite Hw). rewrite bind_Ok.
  pose proof (take_available_spec w1 ps sel (Z.to_nat c) Hnd ltac:(lia)) as Ht.
  cbn zeta in Ht. rewrite Z2Nat.id, Hav in Ht by lia. rewrite Ht.
  rewrite (proj2 (Z.ltb_ge 0 _)) by (rewrite length_take; lia).
  cbn [fatal_if]. rewrite bind_Ok. eexists. split; [done|]. split; cbn [fst snd].
  - rewrite Hw, set_heap_set_heap. cbn [heap set_heap]. by rewrite foldl_app.
  - rewrite bind_app, bind_singleton, Hc, <-Hsel. done.
Qed.

Lemma NoDup_specified w (addrs : gmap string Z) pre :
  wm_wf w → NoDup pre →
  NoDup (pre ≫= λ ip, take (Z.to_nat (default 0%Z (addrs !! ip))) (available_at w ip)).
Proof.
  intros Hwf. induction pre as [|ip pre IH]; [constructor|].
  intros [Hip Hnd]%NoDup_cons. rewrite bind_cons. apply NoDup_app. split_and!.
  - pose proof (NoDup_available_at w ip Hwf) as Hn.
    rewrite <-(take_drop (Z.to_nat (default 0%Z (addrs !! ip)))) in Hn.
    by apply NoDup_app in Hn as [? _].
  - intros p Hp (ip' & Hp' & Hin)%list_elem_of_bind.
    apply elem_of_take in Hp as (i & Hi%list_elem_of_lookup_2 & _).
    apply elem_of_take in Hp' as (j & Hj%list_elem_of_lookup_2 & _).
    destruct (available_at_ip _ _ _ Hwf Hi) as (m & Hm & _ & Hh).
    destruct (available_at_ip _ _ _ Hwf Hj) as (m' & Hm' & _ & Hh'). by simplify_eq.
  - by apply IH.
Qed.

Lemma length_specified w (addrs : gmap string Z) l :
  (∀ ip, ip ∈ l → (0 ≤ default 0 (addrs !! ip) ≤ Z.of_nat (length (available_at w ip)))%Z) →
  Z.of_nat (length (l ≫= λ ip,
    take (Z.to_nat (default 0%Z (addrs !! ip))) (available_at w ip))) =
  foldr Z.add 0%Z ((λ ip, default 0%Z (addrs !! ip)) <$> l).
Proof.
  induction l as [|ip l IH]; intros Hle; [done|].
  rewrite bind_cons, length_app, fmap_cons. cbn [foldr]. rewrite <-IH by set_solver.
  specialize (Hle ip ltac:(set_solver)). rewrite length_take. lia.
Qed.

(** Placement by address.  When the counts add up to the operator's
    parallelism, are positive, and every address has that many available
    workers, allocation succeeds: it takes, address by address in sorted
    order, the first available workers of each address, returns exactly the
    requested number of distinct workers, marks exactly those busy and keeps
    the invariant. *)
Theorem allocate_specified_spec w n addrs
    (Hwf : wm_wf w) (Hsum : foldr Z.add 0%Z (go_range addrs).*2 = n)
    (Hcounts : ∀ ip c, addrs !! ip = Some c → (0 < c)%Z ∧ is_Some (WorkersByIP w !! ip) ∧
       (c ≤ Z.of_nat (length (available_at w ip)))%Z) :
  ∃ w' sel, AllocateSpecifiedWorkers w n addrs = Ok (w', sel) ∧
    sel = (merge_sort String.le (go_range addrs).*1 ≫= λ ip,
             take (Z.to_nat (default 0%Z (addrs !! ip))) (available_at w ip)) ∧
    Z.of_nat (length sel) = n ∧ NoDup sel ∧
    (∀ q, available w' q = available w q && negb (bool_decide (q ∈ sel))) ∧ wm_wf w'.
Proof.
  assert (Hperm : merge_sort String.le (go_range addrs).*1 ≡ₚ (go_range addrs).*1)
    by apply merge_sort_Permutation.
  set (l := merge_sort String.le (go_range addrs).*1) in *.
  assert (Hnd : NoDup l) by (rewrite Hperm; apply NoDup_go_range).
  assert (Hin : ∀ ip, ip ∈ l → ∃ c, addrs !! ip = Some c).
  { intros ip. rewrite Hperm, go_range_keys. by intros [c ?]; exists c. }
  assert (Hn : (0 ≤ n)%Z).
  { rewrite <-Hsum. assert (Hpos : ∀ c, c ∈ (go_range addrs).*2 → (0 < c)%Z).
    { intros c ([ip c'] & -> & Hic%elem_of_go_range)%list_elem_of_fmap.
      by destruct (Hcounts _ _ Hic). }
    clear -Hpos. induction (go_range addrs).*2 as [|c cs IH]; simpl; [done|].
    pose proof (Hpos c ltac:(set_solver)). specialize (IH ltac:(set_solver)). lia. }
  unfold AllocateSpecifiedWorkers. rewrite (proj2 (Z.ltb_ge n 0)) by done. cbn [panic_if].
  rewrite bind_Ok, Hsum, Z.eqb_refl. cbn [negb]. rewrite bind_fatal_false. fold l.
  destruct (foldM_total (allocate_ip addrs) (specified_inv w addrs) l (w, []))
    as ([w' sel] & Hf & Hw' & Hsel).
  - split; [by destruct w|done].
  - intros pre ip st Hpre Hinv.
    assert (Hip : ip ∈ l) by (destruct Hpre as [rest ->]; set_solver).
    destruct (Hin _ Hip) as [c Hc]. destruct (Hcounts _ _ Hc) as (Hpos & Hreg & Hle).
    eapply allocate_ip_Ok; [done| |done..]. intros Hp. destruct Hpre as [rest ->].
    rewrite <-app_assoc in Hnd. apply NoDup_app in Hnd as (_ & Hdis & _).
    apply (Hdis ip Hp). set_solver.
  - cbn [fst snd] in *. exists w', sel. rewrite Hf. split_and!; [done|done|..].
    + rewrite Hsel, <-Hsum, length_specified.
      * rewrite Hperm, <-list_fmap_compose. f_equal.
        apply list_fmap_ext. intros i [ip c] Hi. simpl.
        apply list_elem_of_lookup_2, elem_of_go_range in Hi. by rewrite Hi.
      * intros ip (c & Hc)%Hin. rewrite Hc. destruct (Hcounts _ _ Hc) as (? & _ & ?).
        simpl. lia.
    + rewrite Hsel. by apply NoDup_specified.
    + intros q. rewrite Hw'. apply mark_all_available.
    + rewrite Hw'. by apply mark_all_wf.
Qed.
End SpecifiedSpec.

(** ** Registration *)

Definition register (w : WorkerManager) (r : string * string * string) : WorkerManager :=
  let '(ip, dataPort, statePort) := r in RegisterToCoordinator w ip dataPort statePort.

Lemma register_wf regs w : wm_wf w → wm_wf (foldl register w regs).
Proof.
  revert w. induction regs as [|[[ip dp] sp] regs IH]; intros w Hw; simpl; [done|].
  by apply IH, AddWorker_wf.
Qed.

(** The object of the [i]-th registration. *)
Lemma register_lookup regs w i ip dp sp :
  regs !! i = Some (ip, dp, sp) →
  ∃ m, heap (foldl register w regs) !! (length (heap w) + i) = Some m ∧
    DataPlaneAddr m = ip +:+ ":" +:+ dp ∧ StateCommAddr m = ip +:+ ":" +:+ sp ∧
    IsAvailable m = true.
Proof.
  revert w i. induction regs as [|[[ip' dp'] sp'] regs IH]; intros w i; [done|].
  destruct i as [|i]; simpl.
  - intros [= -> -> ->].
    assert (Hkeep : ∀ regs w p m, heap w !! p = Some m →
      heap (foldl register w regs) !! p = Some m).
    { clear. induction regs as [|[[ip dp] sp] regs IH]; intros w p m Hm; simpl; [done|].
      apply IH. simpl. by apply lookup_app_l_Some. }
    eexists. split; [apply Hkeep; simpl; by rewrite list_lookup_middle by lia|done].
  - intros Hi. destruct (IH (RegisterToCoordinator w ip' dp' sp') i Hi) as (m & Hm & ?).
    exists m. split; [|done]. rewrite <-Hm. simpl. rewrite length_app. f_equal. simpl. lia.
Qed.

Lemma register_length regs w :
  length (heap (foldl register w regs)) = length (heap w) + length regs.
Proof.
  revert w. induction regs as [|[[ip dp] sp] regs IH]; intros w; simpl; [lia|].
  rewrite IH. simpl. rewrite length_app. simpl. lia.
Qed.

(** As long as fewer than 2^16 workers register, the [i]-th registration
    gets id [i], and looking that id up returns exactly the addresses it
    registered with; the manager's invariant holds throughout. *)
Theorem registration_lookup regs i ip dp sp
    (Hi : regs !! i = Some (ip, dp, sp)) (Hlt : (Z.of_nat (length regs) < 2 ^ 16)%Z) :
  let w := foldl register NewWorkerManager regs in
  wm_wf w ∧
  GetWorker w (Z.of_nat i) = Ok i ∧
  GetWorkerDataPlaneAddr w (Z.of_nat i) = Ok (ip +:+ ":" +:+ dp) ∧
  GetWorkerStateCommAddr w (Z.of_nat i) = Ok (ip +:+ ":" +:+ sp).
Proof.
  intros w. assert (Hwf : wm_wf w) by apply register_wf, NewWorkerManager_wf.
  destruct (register_lookup regs NewWorkerManager i ip dp sp Hi)
    as (m & Hm & Hd & Hs & _). simpl in Hm.
  destruct (wf_registered w Hwf) as [_ Hall].
  { subst w. by rewrite register_length. }
  destruct (Hall i m Hm) as [_ Hw].
  assert (Hget : GetWorker w (Z.of_nat i) = Ok i) by (unfold GetWorker; by rewrite Hw).
  assert (Hderef : deref w i = Ok m) by (by apply idx_Ok).
  split_and!; [done|done|..].
  - unfold GetWorkerDataPlaneAddr. rewrite Hget, bind_Ok, Hderef. simpl. by rewrite Hd.
  - unfold GetWorkerStateCommAddr. rewrite Hget, bind_Ok, Hderef. simpl. by rewrite Hs.
Qed.

Definition demo_regs : list (string * string * string) :=
  [("10.0.0.1", "9001", "9101"); ("10.0.0.2", "8001", "8101"); ("10.0.0.1", "7001", "7101")].
Definition demo_wm : WorkerManager := foldl register NewWorkerManager demo_regs.

Lemma demo_wm_wf : wm_wf demo_wm.
Proof. apply register_wf, NewWorkerManager_wf. Defined.

Lemma registration_lookup_witness :
  GetWorkerDataPlaneAddr demo_wm 1 = Ok "10.0.0.2:8001".
Proof.
  apply (registration_lookup demo_regs 1 "10.0.0.2" "8001" "8101"); [reflexivity|].
  vm_compute. reflexivity.
Defined.

Lemma allocate_random_spec_witness :
  ∃ w', AllocateRandomWorkers demo_wm 2 = Ok (w', [2; 1]) ∧ wm_wf w'.
Proof.
  pose proof (allocate_random_spec demo_wm 2 demo_wm_wf) as H.
  destruct (AllocateRandomWorkers demo_wm 2) as [[w' sel]|c] eqn:E;
    [|apply (f_equal is_ok) in E; vm_compute in E; discriminate].
  destruct H as (_ & _ & Hwf & _).
  - lia.
  - intros p Hp. apply elem_of_availableWorkers in Hp as [_ [id Hid]].
    destruct (wf_ids _ demo_wm_wf _ _ Hid) as (m & Hm & _).
    destruct p as [|[|[|p]]]; [vm_compute; eauto..|]. discriminate Hm.
  - exists w'. split; [|exact Hwf]. vm_compute in E. injection E as <- <-. reflexivity.
Defined.

Lemma allocate_specified_spec_witness :
  ∃ w' sel, AllocateSpecifiedWorkers demo_wm 2 {[ "10.0.0.1" := 2%Z ]} = Ok (w', sel) ∧
    Z.of_nat (length sel) = 2%Z.
Proof.
  destruct (allocate_specified_spec demo_wm 2 {[ "10.0.0.1" := 2%Z ]} demo_wm_wf)
    as (w' & sel & Hok & _ & Hlen & _).
  - reflexivity.
  - intros ip c [<- <-]%lookup_singleton_Some. split; [lia|].
    split; [vm_compute; eauto|vm_compute; discriminate].
  - exists w', sel. split; [exact Hok|exact Hlen].
Defined.
