(* ===== verification/Coordinator.v ===== *)
(** * Coordinator: placement, partitioning and the two rescale protocols

    [coordinator/coordinator.go], [taskPlacement.go], [apiService.go] and
    [apiServiceUtil.go].  The coordinator's fields are the record
    [Coordinator]; what it sends is a trace of rounds: a round is the group of
    control messages one [sync.WaitGroup] covers, each of them acknowledged by
    its worker before the next round starts, in no particular order inside the
    round. *)

From stdpp Require Import prelude gmap strings list sorting.
From Stdlib Require Import ZArith Lia.
From S2P Require Import Prelude Partition EvenPartition PartitionTable WorkerManager.

(** ** Configuration and dataflow *)

(** The configuration fields the coordinator reads. *)
Record Configuration := MkConfig {
  PartitionPolicyName : string;
  ReconfigProtocol : string;
  LazyProtocolVersion : string;
  CancellingTaskMigrationMode : string;
  TaskPlacementPolicy : string;
  HashFuncType : string;
  KeyHashSeed : Z;
  HashPartitionNumTokens : Z;
  HashPartitionSeeds : list Z;
  cfg_NumBuckets : Z
}.

Record Operator := MkOperator {
  op_Name : string;
  op_Parallelism : Z;
  op_Stateful : bool;
  op_Source : bool
}.

Record Dependency := MkDependency {
  UpstreamOperators : list string;
  DownstreamOperators : list string
}.

Record Dataflow := MkDataflow {
  Operators : gmap string Operator;
  Streams : gmap string Dependency
}.

Definition NewDataflow : Dataflow := MkDataflow ∅ ∅.

Definition AddOperator (df : Dataflow) (op : Operator) : res Dataflow :=
  fatal_if (bool_decide (is_Some (Operators df !! op_Name op)))
    "Operator Name already exists";;
  Ok (MkDataflow (<[op_Name op := op]> (Operators df)) (Streams df)).

Definition GetTotalNumTasks `{GoRange} (df : Dataflow) : Z :=
  foldr Z.add 0%Z (op_Parallelism <$> (go_range (Operators df)).*2).

(** [ConnectUpstreamToDownstream]. *)
Definition ConnectUpstreamToDownstream (df : Dataflow) (upstream downstream : Operator)
    : res Dataflow :=
  streams ← match Streams df !! op_Name upstream with
    | Some dep =>
        let ds := DownstreamOperators dep ++ [op_Name downstream] in
        fatal_if (bool_decide (1 < length ds))
          "We do not support operator with more than one downstream operators";;
        Ok (<[op_Name upstream := MkDependency (UpstreamOperators dep) ds]> (Streams df))
    | None =>
        Ok (<[op_Name upstream := MkDependency [] [op_Name downstream]]> (Streams df))
    end;
  let streams := match streams !! op_Name downstream with
    | Some dep => <[op_Name downstream :=
        MkDependency (UpstreamOperators dep ++ [op_Name upstream])
          (DownstreamOperators dep)]> streams
    | None => <[op_Name downstream := MkDependency [op_Name upstream] []]> streams
    end in
  Ok (MkDataflow (Operators df) streams).

(** ** Control messages *)

Record DownstreamInfo := MkDownstreamInfo { di_WorkerId : Z; di_DataPlaneAddr : string }.
Record PeerStateServiceInfo := MkPeerInfo { ps_WorkerId : Z; ps_StateServiceAddr : string }.
Record MigrationInfo := MkMigrationInfo {
  TargetWorkerAddr : string;
  mi_BucketRanges : list BucketRange
}.
Record AffectedBucketInfo := MkAffected {
  BucketId : Z;
  CancellingWorkerIds : list Z
}.

Record TaskAssignment := MkTaskAssignment {
  TaskId : string;
  DownstreamInfoList : list DownstreamInfo;
  ExpectedNumUpstream : Z;
  KeybyCollectorRoutingTable : option (list BucketRange);
  ta_StateLookupTable : option (list BucketRange);
  ta_PeerStateService : option (list PeerStateServiceInfo);
  ta_ExpectedDrainBarriers : option Z;
  ta_ExpectedInboundPeers : option Z;
  SourceReplicaId : option Z
}.

(** The messages of [managedWorker.go], each with the worker it goes to;
    [WaitDataDrain] only awaits a notification. *)
Inductive ControlMsg : Type :=
  | DeployTask (w : Z) (msg : TaskAssignment)
  | StopTask (w : Z)
  | Pause (w : Z)
  | Resume (w : Z)
  | WaitDataDrain (w : Z)
  | StateMigration (w : Z) (migrationInfoList : list MigrationInfo)
  | UpdateDownstreamRouting (w : Z) (DownstreamsToAdd DownstreamsToRemove : list DownstreamInfo)
      (routing : option (list BucketRange))
  | InitLazyReconfig (w : Z) (ExpectedDrainBarriers ExpectedInboundPeers : Z)
      (IsShuttingDown : bool) (peers : list PeerStateServiceInfo)
  | FastForward (w : Z) (UpdatedRoutingTable : list BucketRange)
      (PeerInfoList : list DownstreamInfo)
  | WaitAllInboundPeersToConnect (w : Z)
  | EventualStateMigration (w : Z) (AffectedBuckets : list AffectedBucketInfo)
  | WaitAllTasksReconfigDone (w : Z).

(** The acknowledgement each method of [ManagedWorker] waits for. *)
Definition expectedAckMsg (m : ControlMsg) : string :=
  match m with
  | DeployTask _ _ => "Task ready to run"
  | StopTask _ => "Task terminated"
  | Pause _ => "Task successfully paused"
  | Resume _ => "Task restarted"
  | WaitDataDrain _ => "Data drained"
  | StateMigration _ _ => "State migration done"
  | UpdateDownstreamRouting _ _ _ _ => "Downstream routing updated"
  | InitLazyReconfig _ _ _ _ _ => "Lazy reconfiguration initialized"
  | FastForward _ _ _ => "Fast forward started"
  | WaitAllInboundPeersToConnect _ => "All inbound peers connected"
  | EventualStateMigration _ _ => "Eventual state migration done"
  | WaitAllTasksReconfigDone _ => "Reconfiguration done"
  end.

(** ** Coordinator state *)

Record Coordinator := MkCoordinator {
  Config : Configuration;
  DF : Dataflow;
  WM : WorkerManager;
  TaskPlacementPlan : option (gmap string (list ptr));
  RemovedWorkers : gmap string (list ptr);
  KeyPartitions : gmap string PartitionTable;
  StateLookupTables : option (gmap string PartitionTable);
  BucketOwnerHistory : gmap string (list (gset Z));
  ReconfigInProgress : bool;
  Trace : list (list ControlMsg)
}.

Definition NewCoordinator (config : Configuration) (df : Dataflow) : Coordinator :=
  MkCoordinator config df NewWorkerManager None ∅ ∅
    (if bool_decide (ReconfigProtocol config = "lazy") then Some ∅ else None) ∅ false [].

Definition set_WM (c : Coordinator) (wm : WorkerManager) : Coordinator :=
  MkCoordinator (Config c) (DF c) wm (TaskPlacementPlan c) (RemovedWorkers c)
    (KeyPartitions c) (StateLookupTables c) (BucketOwnerHistory c)
    (ReconfigInProgress c) (Trace c).
Definition set_Plan (c : Coordinator) (p : gmap string (list ptr)) : Coordinator :=
  MkCoordinator (Config c) (DF c) (WM c) (Some p) (RemovedWorkers c)
    (KeyPartitions c) (StateLookupTables c) (BucketOwnerHistory c)
    (ReconfigInProgress c) (Trace c).
Definition set_Removed (c : Coordinator) (r : gmap string (list ptr)) : Coordinator :=
  MkCoordinator (Config c) (DF c) (WM c) (TaskPlacementPlan c) r
    (KeyPartitions c) (StateLookupTables c) (BucketOwnerHistory c)
    (ReconfigInProgress c) (Trace c).
Definition set_Partitions (c : Coordinator) (k : gmap string PartitionTable)
    (h : gmap string (list (gset Z))) : Coordinator :=
  MkCoordinator (Config c) (DF c) (WM c) (TaskPlacementPlan c) (RemovedWorkers c)
    k (StateLookupTables c) h (ReconfigInProgress c) (Trace c).
Definition set_Lookup (c : Coordinator) (t : gmap string PartitionTable) : Coordinator :=
  MkCoordinator (Config c) (DF c) (WM c) (TaskPlacementPlan c) (RemovedWorkers c)
    (KeyPartitions c) (Some t) (BucketOwnerHistory c) (ReconfigInProgress c) (Trace c).
Definition set_InProgress (c : Coordinator) (b : bool) : Coordinator :=
  MkCoordinator (Config c) (DF c) (WM c) (TaskPlacementPlan c) (RemovedWorkers c)
    (KeyPartitions c) (StateLookupTables c) (BucketOwnerHistory c) b (Trace c).
Definition send_round (c : Coordinator) (msgs : list ControlMsg) : Coordinator :=
  MkCoordinator (Config c) (DF c) (WM c) (TaskPlacementPlan c) (RemovedWorkers c)
    (KeyPartitions c) (StateLookupTables c) (BucketOwnerHistory c)
    (ReconfigInProgress c) (Trace c ++ [msgs]).

(** Reading a Go map entry whose zero value is dereferenced at once. *)
Definition must {K A} `{Countable K} (m : gmap K A) (k : K) : res A :=
  match m !! k with Some x => Ok x | None => Crash Panic end.
Definition must_or {K A} `{Countable K} (m : gmap K A) (k : K) (msg : string) : res A :=
  match m !! k with Some x => Ok x | None => Crash (Fatal msg) end.

(** Reading a nil map finds nothing. *)
Definition plan_of (c : Coordinator) : gmap string (list ptr) :=
  default ∅ (TaskPlacementPlan c).

Section Coordinator.
(** External code: murmur3 and the 16-bit marshaller of mus-go. *)
Context (murmur : Z → HashFunc) (marshalUint16 : Z → bytes).
Context `{GoRange, SortTokens, SortWorkers}.

(** [hash.GetKeyHashFunc]. *)
Definition GetKeyHashFunc (config : Configuration) : res HashFunc :=
  fatal_if (negb (bool_decide (HashFuncType config = "murmurhash")))
    "Unsupported hash function type";;
  Ok (murmur (KeyHashSeed config)).

(** The policy switch of [InitKeyPartitions] and [updateKeyPartition]. *)
Definition select_policy (config : Configuration) : res PartitionPolicy :=
  if bool_decide (PartitionPolicyName config = "consistent-hashing") then
    hp ← NewHashPartitionPolicy murmur (HashFuncType config)
           (HashPartitionNumTokens config) (HashPartitionSeeds config) (cfg_NumBuckets config);
    Ok (HashPolicy marshalUint16 hp)
  else if bool_decide (PartitionPolicyName config = "uniform") then
    p ← NewPartitionPolicyBase (cfg_NumBuckets config); Ok (UniformPartitionPolicy p)
  else if bool_decide (PartitionPolicyName config = "consistent-even") then
    p ← NewPartitionPolicyBase (cfg_NumBuckets config); Ok (EvenPartitionPolicy p)
  else Crash (Fatal "Unsupported partition policy").

(** Worker fields read through the pointers of a plan. *)
Definition worker_id (wm : WorkerManager) (p : ptr) : res Z :=
  m ← deref wm p; Ok (mw_WorkerId m).
Definition downstream_info (wm : WorkerManager) (p : ptr) : res DownstreamInfo :=
  m ← deref wm p; Ok (MkDownstreamInfo (u32 (mw_WorkerId m)) (DataPlaneAddr m)).
Definition peer_info (wm : WorkerManager) (p : ptr) : res PeerStateServiceInfo :=
  m ← deref wm p; Ok (MkPeerInfo (u32 (mw_WorkerId m)) (StateCommAddr m)).

(** ** Job start *)

(** [setRandomTaskPlacementPlan]. *)
Definition setRandomTaskPlacementPlan (c : Coordinator) : res Coordinator :=
  '(wm, plan) ← foldM (λ '(wm, plan) '(id, op),
      '(wm, ws) ← AllocateRandomWorkers wm (op_Parallelism op);
      Ok (wm, <[id := ws]> plan))
    (WM c, ∅) (go_range (Operators (DF c)));
  Ok (set_Plan (set_WM c wm) plan).

(** [setCustomTaskPlacementPlan] on the plan [loadCustomTaskPlacementPlan]
    read from its file. *)
Definition setCustomTaskPlacementPlan (loadedPlan : gmap string (gmap string Z))
    (c : Coordinator) : res Coordinator :=
  '(wm, plan) ← foldM (λ '(wm, plan) operatorName,
      op ← must (Operators (DF c)) operatorName;
      targetAddrs ← must_or loadedPlan operatorName
        "Custom task placement plan is not available for operator";
      '(wm, ws) ← AllocateSpecifiedWorkers wm (op_Parallelism op) targetAddrs;
      Ok (wm, <[operatorName := ws]> plan))
    (WM c, ∅) (merge_sort String.le (go_range (Operators (DF c))).*1);
  Ok (set_Plan (set_WM c wm) plan).

Definition GetTaskPlacementPlan (loadedPlan : gmap string (gmap string Z))
    (c : Coordinator) : res Coordinator :=
  if bool_decide (TaskPlacementPolicy (Config c) = "random") then
    setRandomTaskPlacementPlan c
  else if bool_decide (TaskPlacementPolicy (Config c) = "custom") then
    setCustomTaskPlacementPlan loadedPlan c
  else Crash (Fatal "Invalid task placement policy").

(** One operator of the loop of [InitKeyPartitions]. *)
Definition init_key_partition (c : Coordinator) (entry : string * list ptr)
    : res Coordinator :=
  let '(operatorId, workers) := entry in
  op ← must (Operators (DF c)) operatorId;
  if op_Stateful op then
    workerIds ← mapR (worker_id (WM c)) workers;
    policy ← select_policy (Config c);
    h ← GetKeyHashFunc (Config c);
    table ← NewPartitionTable h policy workerIds;
    let history := (λ owner, {[ owner ]} : gset Z) <$> Buckets table in
    let c := set_Partitions c (<[operatorId := table]> (KeyPartitions c))
               (<[operatorId := history]> (BucketOwnerHistory c)) in
    if bool_decide (ReconfigProtocol (Config c) = "lazy") then
      lookup ← match StateLookupTables c with Some t => Ok t | None => Crash Panic end;
      table2 ← NewPartitionTable h policy workerIds;
      Ok (set_Lookup c (<[operatorId := table2]> lookup))
    else Ok c
  else Ok c.

Definition InitKeyPartitions (c : Coordinator) : res Coordinator :=
  plan ← match TaskPlacementPlan c with
         | Some p => Ok p
         | None => Crash (Fatal "Task placement plan is not available")
         end;
  foldM init_key_partition c (go_range plan).

(** [StartJob]: the assignments of one operator. *)
Definition start_operator (c : Coordinator) (entry : string * list ptr)
    : res (list ControlMsg) :=
  let '(operatorId, workers) := entry in
  let plan := plan_of c in
  dep ← must (Streams (DF c)) operatorId;
  upOps ← mapR (must (Operators (DF c))) (UpstreamOperators dep);
  let numUpstream := foldl (λ n op, i32 (n + i32 (op_Parallelism op))) 0%Z upOps in
  '(downstreamInfoList, downstreamKeyPartition) ←
    match DownstreamOperators dep with
    | [] => Ok ([], None)
    | downstreamOpId :: _ =>
        infos ← mapR (downstream_info (WM c)) (default [] (plan !! downstreamOpId));
        dop ← must (Operators (DF c)) downstreamOpId;
        if op_Stateful dop then
          keyPartition ← must_or (KeyPartitions c) downstreamOpId
            "KeyPartition is not available for downstream stateful operator";
          ranges ← Serialize keyPartition;
          Ok (infos, Some ranges)
        else Ok (infos, None)
    end;
  op ← must (Operators (DF c)) operatorId;
  '(stateLookupTable, peerStateService) ←
    (if bool_decide (ReconfigProtocol (Config c) = "lazy") && op_Stateful op then
       t ← must (default ∅ (StateLookupTables c)) operatorId;
       ranges ← Serialize t;
       peers ← mapR (peer_info (WM c)) workers;
       Ok (Some ranges, Some peers)
     else Ok (None, None));
  ids ← mapR (worker_id (WM c)) workers;
  Ok (imap (λ i w, DeployTask w (MkTaskAssignment operatorId downstreamInfoList numUpstream
         downstreamKeyPartition stateLookupTable peerStateService None None
         (if op_Source op then Some (Z.of_nat i) else None))) ids).

Definition StartJob (c : Coordinator) : res Coordinator :=
  msgs ← mapR (start_operator c) (go_range (plan_of c));
  Ok (send_round c (mjoin (M:=list) msgs)).

(** [RunJob]; an error response is [inl]. *)
Definition RunJob (loadedPlan : gmap string (gmap string Z)) (c : Coordinator)
    : res (string + Coordinator) :=
  if (Z.of_nat (GetNumWorkers (WM c)) <? GetTotalNumTasks (DF c))%Z
  then Ok (inl "Number of tasks exceeds the number of workers")
  else
    c ← GetTaskPlacementPlan loadedPlan c;
    c ← InitKeyPartitions c;
    c ← StartJob c;
    Ok (inr c).

(** ** Preparing a rescale *)

Record RescaleConfig := MkRescale {
  TargetRescaleOp : string;
  TargetParallelism : Z
}.

(** Result of [prepareReconfiguration]. *)
Record Prepared := MkPrepared {
  updatedWorkers : list ptr;
  newWorkers : list ptr;
  removedWorkers : list ptr;
  targetOperator : Operator
}.

Definition prepareReconfiguration (c : Coordinator) (rc : RescaleConfig)
    : res (Coordinator * Prepared) :=
  op ← must_or (Operators (DF c)) (TargetRescaleOp rc) "Target operator does not exist";
  curWorkerList ← must_or (plan_of c) (TargetRescaleOp rc)
    "Target operator placement plan does not exist";
  let targetPara := TargetParallelism rc in
  fatal_if (targetPara <=? 0)%Z "Invalid target parallelism";;
  let curPara := Z.of_nat (length curWorkerList) in
  fatal_if (targetPara =? curPara)%Z "Invalid rescale config";;
  if (curPara <? targetPara)%Z then
    '(wm, new) ← AllocateRandomWorkers (WM c) (targetPara - curPara);
    Ok (set_WM c wm, MkPrepared (curWorkerList ++ new) new [] op)
  else
    Ok (c, MkPrepared (take (Z.to_nat targetPara) curWorkerList) []
             (drop (Z.to_nat targetPara) curWorkerList) op).

(** ** Repartitioning *)

(** The loop that turns sorted bucket indices into ranges. *)
Fixpoint range_loop (start last : nat) (rest : list nat) : list (nat * nat) :=
  match rest with
  | [] => [(start, last)]
  | i :: rest =>
      if i =? last + 1 then range_loop start i rest
      else (start, last) :: range_loop i i rest
  end.

Definition bucket_ranges (bucketIndices : list nat) : res (list (nat * nat)) :=
  match bucketIndices with
  | [] => Crash Panic
  | i :: rest => Ok (range_loop i i rest)
  end.

(** [history[bucketIdx][destWorker] = true]. *)
Definition record_owner (destWorker : Z) (history : list (gset Z)) (bucketIdx : nat)
    : res (list (gset Z)) :=
  s ← idx history bucketIdx;
  set_idx history bucketIdx ({[ destWorker ]} ∪ s).

Definition record_history (history : list (gset Z)) (changes : OwnerChanges)
    : res (list (gset Z)) :=
  foldM (λ hist '(_, destMap),
      foldM (λ hist '(destWorker, bucketIndices),
          foldM (record_owner destWorker) hist bucketIndices)
        hist (go_range destMap))
    history (go_range changes).

(** [updateKeyPartition]; the ranges it logs are computed and dropped.  The
    history's sets are updated in place. *)
Definition updateKeyPartition (c : Coordinator) (op : Operator) (updated : list ptr)
    : res (Coordinator * OwnerChanges) :=
  updatedWorkerIds ← mapR (worker_id (WM c)) updated;
  policy ← select_policy (Config c);
  cur ← must_or (KeyPartitions c) (op_Name op) "Key partition for operator does not exist";
  '(table, changes) ← Reconfigure cur updatedWorkerIds policy;
  fatal_if (size changes =? 0) "Repartition has no effect";;
  let history := default [] (BucketOwnerHistory c !! op_Name op) in
  history ← record_history history changes;
  _ ← mapR (λ '(_, destMap), mapR (λ '(_, l), bucket_ranges l) (go_range destMap))
        (go_range changes);
  let histories := <[op_Name op := history]> (BucketOwnerHistory c) in
  Ok (set_Partitions c (<[op_Name op := table]> (KeyPartitions c)) histories, changes).

(** [GenerateMigrationPlan]: from source-based to destination-based. *)
Definition migration_entry (wm : WorkerManager) (sourceWorker : Z)
    (plan : gmap Z (list MigrationInfo)) (entry : Z * list nat)
    : res (gmap Z (list MigrationInfo)) :=
  let '(destWorker, bucketIndices) := entry in
  let migrationInfoList := default [] (plan !! destWorker) in
  ranges ← bucket_ranges bucketIndices;
  addr ← GetWorkerStateCommAddr wm sourceWorker;
  let info := MkMigrationInfo addr
    ((λ '(s, e), MkRange 0 (Z.of_nat s) (Z.of_nat e)) <$> ranges) in
  Ok (<[destWorker := migrationInfoList ++ [info]]> plan).

Definition GenerateMigrationPlan (wm : WorkerManager) (changes : OwnerChanges)
    : res (gmap Z (list MigrationInfo)) :=
  foldM (λ plan '(sourceWorker, destWorkerMap),
      foldM (migration_entry wm sourceWorker) plan (go_range destWorkerMap))
    ∅ (go_range changes).

(** ** Routing information *)

Definition getDownstreamInfoList (c : Coordinator) (targetOperatorId : string)
    : res (list DownstreamInfo * option (list BucketRange)) :=
  dep ← must (Streams (DF c)) targetOperatorId;
  match DownstreamOperators dep with
  | [d] =>
      infos ← mapR (downstream_info (WM c)) (default [] (plan_of c !! d));
      dop ← must (Operators (DF c)) d;
      if op_Stateful dop then
        t ← must (KeyPartitions c) d;
        ranges ← Serialize t;
        Ok (infos, Some ranges)
      else Ok (infos, None)
  | _ => Crash (Fatal "We do not support operators with multiple downstream operators")
  end.

Definition getUpstreamList (c : Coordinator) (targetOperatorName : string)
    : res (list ptr * nat) :=
  dep ← must (Streams (DF c)) targetOperatorName;
  fatal_if (length (UpstreamOperators dep) =? 0) "Invalid empty upstream operators";;
  tasks ← mapR (λ up, must_or (plan_of c) up "Upstream operator placement plan does not exist")
            (UpstreamOperators dep);
  Ok (mjoin (M:=list) tasks, length (UpstreamOperators dep)).

Definition notifyUpstreamTasks (c : Coordinator) (p : Prepared) (upstreamTasks : list ptr)
    : res Coordinator :=
  add ← mapR (downstream_info (WM c)) (newWorkers p);
  remove ← mapR (downstream_info (WM c)) (removedWorkers p);
  routing ← (if op_Stateful (targetOperator p) then
               t ← must (KeyPartitions c) (op_Name (targetOperator p));
               ranges ← Serialize t; Ok (Some ranges)
             else Ok None);
  ids ← mapR (worker_id (WM c)) upstreamTasks;
  Ok (send_round c ((λ w, UpdateDownstreamRouting w add remove routing) <$> ids)).

(** ** Stop-and-restart *)

Definition drainInflightData (c : Coordinator) (op : Operator) : res (Coordinator * list ptr) :=
  '(upstreamTasks, _) ← getUpstreamList c (op_Name op);
  ups ← mapR (worker_id (WM c)) upstreamTasks;
  let c := send_round c (Pause <$> ups) in
  targets ← mapR (worker_id (WM c)) (default [] (plan_of c !! op_Name op));
  let c := send_round c (WaitDataDrain <$> targets) in
  Ok (c, upstreamTasks).

Definition migrateState (c : Coordinator) (plan : gmap Z (list MigrationInfo))
    : res Coordinator :=
  msgs ← mapR (λ '(destWorkerId, infos),
      p ← GetWorker (WM c) destWorkerId;
      w ← worker_id (WM c) p;
      Ok (StateMigration w infos)) (go_range plan);
  Ok (send_round c msgs).

Definition reconfigureStatefulOp (c : Coordinator) (op : Operator) (updated : list ptr)
    : res Coordinator :=
  '(c, changes) ← updateKeyPartition c op updated;
  plan ← GenerateMigrationPlan (WM c) changes;
  migrateState c plan.

Definition rescaleTasksStopAndRestart (c : Coordinator) (p : Prepared)
    (expectedNumUpstreams : Z) : res Coordinator :=
  let name := op_Name (targetOperator p) in
  '(infos, routing) ← getDownstreamInfoList c name;
  new ← mapR (worker_id (WM c)) (newWorkers p);
  removed ← mapR (worker_id (WM c)) (removedWorkers p);
  let c := send_round c
    (((λ w, DeployTask w (MkTaskAssignment name infos expectedNumUpstreams routing
               None None None None None)) <$> new) ++ (StopTask <$> removed)) in
  Ok (set_Plan c (<[name := updatedWorkers p]> (plan_of c))).

Definition resumeUpstreams (c : Coordinator) (upstreamTasks : list ptr) : res Coordinator :=
  ups ← mapR (worker_id (WM c)) upstreamTasks;
  Ok (send_round c (Resume <$> ups)).

Definition rescaleStopAndRestart (c : Coordinator) (rc : RescaleConfig) : res Coordinator :=
  '(c, p) ← prepareReconfiguration c rc;
  '(c, upstreamTasks) ← drainInflightData c (targetOperator p);
  c ← (if op_Stateful (targetOperator p)
       then reconfigureStatefulOp c (targetOperator p) (updatedWorkers p)
       else Ok c);
  c ← rescaleTasksStopAndRestart c p (i32 (Z.of_nat (length upstreamTasks)));
  c ← notifyUpstreamTasks c p upstreamTasks;
  resumeUpstreams c upstreamTasks.

(** ** Lazy protocol *)

(** Result of [initializeTargetTasksLazy]. *)
Record LazyInit := MkLazyInit {
  li_upstreamTasks : list ptr;
  li_changes : OwnerChanges;
  li_receivers : list Z
}.

(** The expected number of inbound peer connections of a receiver: one per
    source task and logical upstream operator. *)
Definition expected_inbound (sources : list MigrationInfo) (numUpstreamOperators : nat) : Z :=
  i32 (Z.of_nat (length sources * numUpstreamOperators)).

(** Step 1: the assignment of one new task. *)
Definition deploy_lazy (plan : gmap Z (list MigrationInfo)) (numUpstreamOperators : nat)
    (expectedDrainBarriers : Z) (ta : Z → Z → TaskAssignment) (w : Z) : res ControlMsg :=
  sources ← must_or plan w "No key space partitioned to new task";
  let inbound := expected_inbound sources numUpstreamOperators in
  Ok (DeployTask w (ta (i32 (expectedDrainBarriers + inbound)) inbound)).

(** Step 2: the message for one existing task. *)
Definition init_existing (plan : gmap Z (list MigrationInfo)) (numUpstreamOperators : nat)
    (expectedDrainBarriers : Z) (removedIds : list Z) (newPeers : list PeerStateServiceInfo)
    (w : Z) : ControlMsg :=
  let inbound := match plan !! w with
                 | Some sources => expected_inbound sources numUpstreamOperators
                 | None => (-1)%Z
                 end in
  InitLazyReconfig w expectedDrainBarriers inbound (bool_decide (w ∈ removedIds)) newPeers.

Definition initializeTargetTasksLazy (c : Coordinator) (p : Prepared)
    : res (Coordinator * LazyInit) :=
  let name := op_Name (targetOperator p) in
  '(c, changes) ← updateKeyPartition c (targetOperator p) (updatedWorkers p);
  migrationPlan ← GenerateMigrationPlan (WM c) changes;
  t ← must (KeyPartitions c) name;
  stateLookupTable ← Serialize t;
  stateLookupTable ← (if bool_decide (LazyProtocolVersion (Config c) = "by-key")
    then Ok stateLookupTable
    else t2 ← must (default ∅ (StateLookupTables c)) name; Serialize t2);
  peersUpdated ← mapR (peer_info (WM c)) (updatedWorkers p);
  peersRemoved ← mapR (peer_info (WM c)) (removedWorkers p);
  peersPrevious ← mapR (peer_info (WM c)) (default [] (RemovedWorkers c !! name));
  let allPeers := peersUpdated ++ peersRemoved ++ peersPrevious in
  '(infos, routing) ← getDownstreamInfoList c name;
  '(upstreamTasks, numUpstreamOperators) ← getUpstreamList c name;
  let expectedDrainBarriers := i32 (Z.of_nat (length upstreamTasks)) in
  newIds ← mapR (worker_id (WM c)) (newWorkers p);
  let ta := λ expectedNumUpstreams inbound,
    MkTaskAssignment name infos expectedNumUpstreams routing (Some stateLookupTable)
      (Some allPeers) (Some expectedDrainBarriers) (Some inbound) None in
  deployMsgs ← mapR (deploy_lazy migrationPlan numUpstreamOperators expectedDrainBarriers ta)
                 newIds;
  removedIds ← mapR (worker_id (WM c)) (removedWorkers p);
  newPeers ← mapR (peer_info (WM c)) (newWorkers p);
  curIds ← mapR (worker_id (WM c)) (default [] (plan_of c !! name));
  let initMsgs := init_existing migrationPlan numUpstreamOperators expectedDrainBarriers
                    removedIds newPeers <$> curIds in
  let c := send_round c (deployMsgs ++ initMsgs) in
  Ok (c, MkLazyInit upstreamTasks changes (go_range migrationPlan).*1).

(** [fastForward]: the message for one source worker. *)
Definition fast_forward_msg (wm : WorkerManager) (routing : list BucketRange)
    (entry : Z * gmap Z (list nat)) : res ControlMsg :=
  let '(srcWorkerId, destMap) := entry in
  peers ← mapR (λ '(destWorkerId, _),
      addr ← GetWorkerDataPlaneAddr wm destWorkerId;
      Ok (MkDownstreamInfo (u32 destWorkerId) addr)) (go_range destMap);
  p ← GetWorker wm srcWorkerId;
  w ← worker_id wm p;
  Ok (FastForward w routing peers).

Definition fastForward (c : Coordinator) (op : Operator) (changes : OwnerChanges)
    : res Coordinator :=
  fatal_if (size changes =? 0) "Bucket owner changes not initialized";;
  t ← must (KeyPartitions c) (op_Name op);
  routing ← Serialize t;
  msgs ← mapR (fast_forward_msg (WM c) routing) (go_range changes);
  Ok (send_round c msgs).

Definition waitAllInboundPeersToConnect (c : Coordinator) (receivers : list Z)
    : res Coordinator :=
  msgs ← mapR (λ id, p ← GetWorker (WM c) id; w ← worker_id (WM c) p;
                     Ok (WaitAllInboundPeersToConnect w)) receivers;
  Ok (send_round c msgs).

(** [notifyEventualStateMigration]: one bucket of the history loop. *)
Definition affected_bucket (cancelling : list Z) (owners : list Z)
    (acc : gmap Z (list AffectedBucketInfo)) (entry : nat * gset Z)
    : res (gmap Z (list AffectedBucketInfo)) :=
  let '(bucketIdx, ownerHistorySet) := entry in
  let ids := filter (.∈ cancelling) (go_range (gset_to_gmap true ownerHistorySet)).*1 in
  match ids with
  | [] => Ok acc
  | _ =>
      currentOwner ← idx owners bucketIdx;
      Ok (<[currentOwner := default [] (acc !! currentOwner) ++
             [MkAffected (Z.of_nat bucketIdx) (u32 <$> ids)]]> acc)
  end.

Definition affected_by_owner (cancelling owners : list Z) (history : list (gset Z))
    : res (gmap Z (list AffectedBucketInfo)) :=
  foldM (affected_bucket cancelling owners) ∅ (imap pair history).

Definition notifyEventualStateMigration (c : Coordinator) (op : Operator)
    (removed : list ptr) : res Coordinator :=
  cancelling ← mapR (worker_id (WM c)) removed;
  let history := default [] (BucketOwnerHistory c !! op_Name op) in
  let owners := match KeyPartitions c !! op_Name op with
                | Some t => Buckets t | None => [] end in
  affected ← affected_by_owner cancelling owners history;
  fatal_if (size affected =? 0) "No affected buckets found but removed workers exist";;
  msgs ← mapR (λ '(id, buckets), p ← GetWorker (WM c) id; w ← worker_id (WM c) p;
                                 Ok (EventualStateMigration w buckets)) (go_range affected);
  Ok (send_round c msgs).

Definition waitAllTasksReconfigDone (c : Coordinator) (p : Prepared) : res Coordinator :=
  up ← mapR (worker_id (WM c)) (updatedWorkers p);
  rem ← mapR (worker_id (WM c)) (removedWorkers p);
  Ok (send_round c (WaitAllTasksReconfigDone <$> up ++ rem)).

Definition terminateTasks (c : Coordinator) (p : Prepared) : res Coordinator :=
  let name := op_Name (targetOperator p) in
  removed ← mapR (worker_id (WM c)) (removedWorkers p);
  let c := send_round c (StopTask <$> removed) in
  let c := set_Plan c (<[name := updatedWorkers p]> (plan_of c)) in
  Ok (match removedWorkers p with
      | [] => c
      | _ => set_Removed c (<[name := default [] (RemovedWorkers c !! name) ++
                                       removedWorkers p]> (RemovedWorkers c))
      end).

Definition rescaleLazy (c : Coordinator) (rc : RescaleConfig) : res Coordinator :=
  '(c, p) ← prepareReconfiguration c rc;
  fatal_if (negb (op_Stateful (targetOperator p)))
    "Lazy reconfiguration protocol is only supported for stateful operators currently";;
  '(c, li) ← initializeTargetTasksLazy c p;
  c ← fastForward c (targetOperator p) (li_changes li);
  c ← waitAllInboundPeersToConnect c (li_receivers li);
  c ← notifyUpstreamTasks c p (li_upstreamTasks li);
  c ← (if bool_decide (0 < length (removedWorkers p)) &&
          bool_decide (CancellingTaskMigrationMode (Config c) = "eventual")
       then notifyEventualStateMigration c (targetOperator p) (removedWorkers p)
       else Ok c);
  c ← waitAllTasksReconfigDone c p;
  terminateTasks c p.

(** ** The API call *)

(** [Rescale]; an error response is [inl], and leaves the flag as the deferred
    store does. *)
Definition Rescale (c : Coordinator) (rc : RescaleConfig) : res (string + unit) * Coordinator :=
  if ReconfigInProgress c
  then (Ok (inl "Another reconfiguration is in progress, please retry later"), c)
  else
    let c1 := set_InProgress c true in
    match TaskPlacementPlan c1 with
    | None => (Ok (inl "No deployed job to rescale"), set_InProgress c1 false)
    | Some _ =>
        let run := λ r : res Coordinator,
          match r with
          | Ok c2 => (Ok (inr tt), set_InProgress c2 false)
          | Crash e => (Crash e, c1)
          end in
        if bool_decide (ReconfigProtocol (Config c) = "stop-and-restart")
        then run (rescaleStopAndRestart c1 rc)
        else if bool_decide (ReconfigProtocol (Config c) = "lazy")
        then run (rescaleLazy c1 rc)
        else (Ok (inl "Unsupported reconfiguration protocol"), set_InProgress c1 false)
    end.
End Coordinator.
