(* ===== verification/Rescale.v ===== *)
(** * Correctness of rescaling

    Properties of the coordinator's rescale code ([Coordinator.v]): the
    migration plan regroups the recorded owner changes without loss, both
    protocols keep the coordinator's invariant, the rounds of the lazy
    protocol come in the order its safety needs, and the numbers it announces
    to workers agree with each other. *)

From stdpp Require Import prelude gmap strings list sorting.
From Stdlib Require Import ZArith Lia.
From S2P Require Import Prelude Partition EvenPartition PartitionTable WorkerManager Coordinator.

(** ** Owner changes as a flat list of moves *)

Section Moves.
Context `{GoRange}.

(** A move: source, destination, bucket indices. *)
Abbreviation Move := (Z * Z * list nat)%type.

Definition moves_of (e : Z * gmap Z (list nat)) : list Move :=
  (λ '(d, l), (e.1, d, l)) <$> go_range e.2.

Definition moves (ch : OwnerChanges) : list Move := go_range ch ≫= moves_of.

Lemma elem_of_moves ch s d l :
  (s, d, l) ∈ moves ch ↔ ∃ m, ch !! s = Some m ∧ m !! d = Some l.
Proof.
  unfold moves. rewrite list_elem_of_bind. split.
  - intros ([s' m] & Hin & Hs). unfold moves_of in Hin. simpl in Hin.
    apply list_elem_of_fmap in Hin as ([d' l'] & Heq & Hd). simplify_eq.
    exists m. by rewrite <-!elem_of_go_range.
  - intros (m & Hs & Hd). exists (s, m). rewrite elem_of_go_range. split; [|done].
    unfold moves_of. apply list_elem_of_fmap. exists (d, l). by rewrite elem_of_go_range.
Qed.

(** The moves to one destination. *)
Definition moves_to (ch : OwnerChanges) (d : Z) : list Move :=
  filter (λ e, e.1.2 = d) (moves ch).

(** At most one move per source and destination. *)
Lemma moves_of_to e d :
  filter (λ x : Move, x.1.2 = d) (moves_of e) =
  match e.2 !! d with Some l => [(e.1, d, l)] | None => [] end.
Proof.
  destruct e as [s m]. unfold moves_of. cbn [fst snd].
  rewrite list_filter_fmap.
  rewrite (list_filter_ext _ (λ x : Z * list nat, x.1 = d)) by (by intros [? ?]).
  destruct (m !! d) as [l|] eqn:E.
  - rewrite (filter_key _ d l); [done|apply NoDup_go_range|by apply elem_of_go_range].
  - rewrite filter_key_none; [done|]. rewrite go_range_keys, E. by intros [? ?].
Qed.
(** A destination gets at most one move from each source. *)
Lemma NoDup_moves_sources ch d : NoDup ((λ e, e.1.1) <$> moves_to ch d).
Proof.
  unfold moves_to, moves. rewrite list_filter_bind.
  pose proof (NoDup_go_range ch) as Hnd.
  induction (go_range ch) as [|[s m] es IH]; [constructor|].
  simpl in Hnd. apply NoDup_cons in Hnd as [Hs Hnd].
  rewrite bind_cons, fmap_app, moves_of_to. cbn [fst snd].
  destruct (m !! d) as [l|]; simpl; [|by apply IH]. constructor; [|by apply IH].
  intros (e & -> & ([s' m'] & He & Hin)%list_elem_of_bind)%list_elem_of_fmap. apply Hs.
  rewrite moves_of_to in He. cbn [fst snd] in He. destruct (m' !! d); [|set_solver].
  apply list_elem_of_singleton in He as ->. apply list_elem_of_fmap. by exists (s', m').
Qed.
End Moves.

(** ** The migration plan *)

(** The buckets a list of ranges stands for. *)
Definition expand (rs : list BucketRange) : list nat :=
  rs ≫= λ r, seq (Z.to_nat (LowerBucketIdx r))
                 (Z.to_nat (UpperBucketIdx r - LowerBucketIdx r + 1)).

Definition pair_range (p : nat * nat) : BucketRange :=
  let '(s, e) := p in MkRange 0 (Z.of_nat s) (Z.of_nat e).

Lemma range_loop_expand start last rest :
  start ≤ last →
  expand (pair_range <$> range_loop start last rest) =
  seq start (last + 1 - start) ++ rest.
Proof.
  assert (Hone : ∀ s e rs, s ≤ e → expand (pair_range (s, e) :: rs) =
    seq s (e + 1 - s) ++ expand rs).
  { intros s e rs Hse. unfold expand. rewrite bind_cons. cbn [pair_range LowerBucketIdx UpperBucketIdx].
    rewrite Nat2Z.id. do 2 f_equal. lia. }
  revert start last. induction rest as [|i rest IH]; intros start last Hle; cbn [range_loop].
  - rewrite fmap_cons, Hone by done. done.
  - destruct (Nat.eqb_spec i (last + 1)) as [->|Hi].
    + rewrite IH by lia. replace (last + 1 + 1 - start) with (S (last + 1 - start)) by lia.
      rewrite seq_S, <-app_assoc. simpl. do 2 f_equal. lia.
    + rewrite fmap_cons, Hone, IH by lia. f_equal.
      replace (i + 1 - i) with 1 by lia. done.
Qed.

(** Adjacent ranges of the loop never touch: each range is a maximal run. *)
Lemma range_loop_maximal start last rest i p q :
  range_loop start last rest !! i = Some p →
  range_loop start last rest !! S i = Some q → q.1 ≠ p.2 + 1.
Proof.
  assert (Hhead : ∀ rest s l, ∃ e rs, range_loop s l rest = (s, e) :: rs).
  { clear. induction rest as [|i rest IH]; intros s l; simpl; [eauto|].
    destruct (i =? l + 1); eauto. }
  revert start last i. induction rest as [|j rest IH]; intros start last i; cbn [range_loop].
  - by destruct i.
  - destruct (Nat.eqb_spec j (last + 1)) as [Hj|Hj]; [apply IH|].
    destruct i as [|i]; [|apply IH]. simpl.
    destruct (Hhead rest j j) as (e & rs & ->). by intros [= <-] [= <-].
Qed.

Section Plan.
Context `{GoRange}.
Variable wm : WorkerManager.

(** What [GenerateMigrationPlan] records for one move. *)
Definition info_of (e : Z * Z * list nat) : MigrationInfo :=
  MkMigrationInfo
    (match GetWorkerStateCommAddr wm e.1.1 with Ok a => a | Crash _ => EmptyString end)
    (match e.2 with i :: rest => pair_range <$> range_loop i i rest | [] => [] end).

Lemma migration_entry_Ok s d l plan addr :
  l ≠ [] → GetWorkerStateCommAddr wm s = Ok addr →
  migration_entry wm s plan (d, l) =
  Ok (<[d := default [] (plan !! d) ++ [info_of (s, d, l)]]> plan).
Proof.
  intros Hl Ha. unfold migration_entry, info_of. destruct l as [|i rest]; [done|].
  cbn [bucket_ranges fst snd]. by rewrite bind_Ok, Ha.
Qed.

Definition sources_known (ch : OwnerChanges) : Prop :=
  ∀ s m, ch !! s = Some m → ∃ addr, GetWorkerStateCommAddr wm s = Ok addr.

Lemma GenerateMigrationPlan_Ok ch :
  sources_known ch → (∀ s d l, (s, d, l) ∈ moves ch → l ≠ []) →
  ∃ plan, GenerateMigrationPlan wm ch = Ok plan ∧
    ∀ d, plan !! d =
      match moves_to ch d with [] => None | es => Some (info_of <$> es) end.
Proof.
  intros Hknown Hne. unfold GenerateMigrationPlan.
  set (f := λ plan (e : Z * Z * list nat), migration_entry wm e.1.1 plan (e.1.2, e.2)).
  assert (Hflat : ∀ l plan, foldM (λ plan '(s, m), foldM (migration_entry wm s) plan (go_range m))
      plan l = foldM f plan (l ≫= moves_of)).
  { intros l plan. rewrite foldM_bind. apply foldM_ext. intros pl [s m] _.
    unfold moves_of. cbn [fst snd]. rewrite foldM_fmap. apply foldM_ext.
    by intros pl' [d' l'] _. }
  rewrite Hflat. fold (moves ch). clear Hflat.
  destruct (foldM_total f (λ pre (plan : gmap Z (list MigrationInfo)), ∀ d, plan !! d =
      match filter (λ e, e.1.2 = d) pre with [] => None | es => Some (info_of <$> es) end)
    (moves ch) ∅) as (plan & Hplan & Hspec).
  - done.
  - intros pre [[s d] l] plan Hpre Hplan.
    assert (Hin : (s, d, l) ∈ moves ch) by (destruct Hpre as [rest ->]; set_solver).
    pose proof (Hne _ _ _ Hin) as Hl. apply elem_of_moves in Hin as (m & Hs & _).
    destruct (Hknown _ _ Hs) as [addr Ha].
    unfold f. cbn [fst snd]. rewrite (migration_entry_Ok s d l plan addr) by done.
    eexists. split; [done|]. intros d'. rewrite filter_app.
    destruct (decide (d' = d)) as [->|Hd].
    + rewrite lookup_insert_eq, Hplan. rewrite (filter_cons _ (s, d, l)), decide_True by done.
      rewrite filter_nil.
      destruct (filter _ pre) as [|e es]; simpl; [done|]. by rewrite fmap_app.
    + rewrite lookup_insert_ne, Hplan by done.
      rewrite (filter_cons _ (s, d, l)), decide_False by naive_solver.
      by rewrite filter_nil, app_nil_r.
  - exists plan. split; [done|]. intros d. by rewrite Hspec.
Qed.

Lemma expand_info e : e.2 ≠ [] → expand (mi_BucketRanges (info_of e)) = e.2.
Proof.
  destruct e as [[s d] l]. unfold info_of. simpl. destruct l as [|i rest]; [done|].
  intros _. rewrite range_loop_expand by lia.
  replace (i + 1 - i) with 1 by lia. done.
Qed.

(** The migration plan is the recorded owner changes, regrouped by
    destination: it has an entry for exactly the destinations of some move,
    with one migration per source, whose address is that source's state
    service and whose ranges expand to exactly the buckets that move from that
    source to that destination. *)
Theorem migration_plan_exact old new ch
    (Hch : changes_exact old new ch) (Hknown : sources_known ch) :
  ∃ plan, GenerateMigrationPlan wm ch = Ok plan ∧
    ∀ d, match plan !! d with
         | None => ∀ s, get_changes ch s d = []
         | Some infos => infos ≠ [] ∧ ∃ srcs, NoDup srcs ∧
             (∀ s, s ∈ srcs ↔ get_changes ch s d ≠ []) ∧
             Forall2 (λ s info, GetWorkerStateCommAddr wm s = Ok (TargetWorkerAddr info) ∧
                 expand (mi_BucketRanges info) = get_changes ch s d) srcs infos
         end.
Proof.
  assert (Hne : ∀ s d l, (s, d, l) ∈ moves ch → l ≠ []).
  { intros s d l (m & Hs & Hd)%elem_of_moves.
    by apply (proj2 (changes_nonempty _ _ _ Hch s m Hs) d l). }
  assert (Hget : ∀ s d l, (s, d, l) ∈ moves ch ↔ get_changes ch s d = l ∧ l ≠ []).
  { intros s d l. split.
    - intros Hin. split; [|by eapply Hne]. apply elem_of_moves in Hin as (m & Hs & Hd).
      unfold get_changes. rewrite Hs. simpl. by rewrite Hd.
    - intros [Hg Hl]. apply elem_of_moves. unfold get_changes in Hg.
      destruct (ch !! s) as [m|] eqn:Hs; simpl in Hg.
      + exists m. split; [done|]. destruct (m !! d); simpl in Hg; congruence.
      + rewrite lookup_empty in Hg. simpl in Hg. congruence. }
  destruct (GenerateMigrationPlan_Ok ch) as (plan & Hplan & Hspec); [done..|].
  exists plan. split; [done|]. intros d. rewrite Hspec.
  assert (Hto : ∀ s l, (s, d, l) ∈ moves_to ch d ↔ get_changes ch s d = l ∧ l ≠ []).
  { intros s l. unfold moves_to. rewrite list_elem_of_filter, Hget. naive_solver. }
  assert (Hd : ∀ e, e ∈ moves_to ch d → e = (e.1.1, d, e.2)).
  { intros [[s d'] l]. unfold moves_to. rewrite list_elem_of_filter. simpl. naive_solver. }
  destruct (moves_to ch d) as [|e es] eqn:E.
  - intros s. destruct (get_changes ch s d) as [|i l] eqn:G; [done|].
    assert (Hin : (s, d, i :: l) ∈ @nil (Z * Z * list nat)) by (by apply Hto).
    by apply elem_of_nil in Hin.
  - split; [done|]. exists ((λ e, e.1.1) <$> (e :: es)). split_and!.
    + rewrite <-E. apply NoDup_moves_sources.
    + intros s. rewrite list_elem_of_fmap. split.
      * intros (e' & -> & He'). pose proof (Hd _ He') as Heq. rewrite Heq in He'.
        apply Hto in He' as [-> ?]. done.
      * intros Hg. exists (s, d, get_changes ch s d). split; [done|]. by apply Hto.
    + apply Forall2_fmap, Forall_Forall2_diag, Forall_forall. intros e' He'.
      pose proof (Hd _ He') as Heq. assert (Hin := He'). rewrite Heq in Hin.
      apply Hto in Hin as [Hg Hl]. split.
      * assert (Hm : e' ∈ moves ch).
        { rewrite <-E in He'. unfold moves_to in He'. by apply list_elem_of_filter in He' as [_ ?]. }
        rewrite Heq in Hm. apply elem_of_moves in Hm as (m & Hs & _).
        destruct (Hknown _ _ Hs) as [addr Ha]. unfold info_of. simpl. by rewrite Ha.
      * by rewrite expand_info, Hg.
Qed.
End Plan.

(** ** Eventual migration away from cancelled tasks *)

Section Eventual.
Context `{GoRange}.
Variables cancelling owners : list Z.

(** The cancelling workers of a bucket's history. *)
Definition cancelled (h : gset Z) : list Z :=
  filter (.∈ cancelling) (go_range (gset_to_gmap true h)).*1.

Lemma elem_of_cancelled h w : w ∈ cancelled h ↔ w ∈ h ∧ w ∈ cancelling.
Proof.
  unfold cancelled. rewrite list_elem_of_filter, go_range_keys, lookup_gset_to_gmap.
  rewrite option_guard_bool_decide. case_bool_decide; simpl; naive_solver.
Qed.

(** What owner [o] is told about bucket [i]. *)
Definition affected_entry (o : Z) (e : nat * gset Z) : option AffectedBucketInfo :=
  if bool_decide (owners !! e.1 = Some o ∧ cancelled e.2 ≠ [])
  then Some (MkAffected (Z.of_nat e.1) (u32 <$> cancelled e.2)) else None.

Lemma affected_by_owner_Ok history :
  length owners = length history →
  ∃ acc, affected_by_owner cancelling owners history = Ok acc ∧
    ∀ o, acc !! o = match omap (affected_entry o) (imap pair history) with
                    | [] => None | l => Some l end.
Proof.
  intros Hlen. unfold affected_by_owner.
  destruct (foldM_total (affected_bucket cancelling owners)
    (λ pre (acc : gmap Z (list AffectedBucketInfo)), ∀ o, acc !! o =
       match omap (affected_entry o) pre with [] => None | l => Some l end)
    (imap pair history) ∅) as (acc & Hacc & Hspec); [done| |eauto].
  intros pre [i h] acc Hpre Hacc.
  assert (Hi : (i, h) ∈ imap pair history) by (destruct Hpre as [rest ->]; set_solver).
  apply elem_of_lookup_imap in Hi as (j & h' & [= -> ->] & Hj).
  apply lookup_lt_Some in Hj as Hlt.
  destruct (lookup_lt_is_Some_2 owners j) as [o Ho]; [lia|].
  cbn [affected_bucket]. fold (cancelled h').
  assert (Homap : ∀ o', omap (affected_entry o') (pre ++ [(j, h')]) =
    omap (affected_entry o') pre ++ option_list (affected_entry o' (j, h'))).
  { intros o'. rewrite omap_app. simpl. by destruct (affected_entry o' (j, h')). }
  destruct (cancelled h') as [|w ws] eqn:Hc.
  - exists acc. split; [done|]. intros o'. rewrite Homap, Hacc. unfold affected_entry at 3.
    rewrite bool_decide_false by naive_solver. by rewrite app_nil_r.
  - rewrite (proj2 (idx_Ok _ _ _) Ho), bind_Ok. eexists. split; [done|]. intros o'.
    rewrite Homap. unfold affected_entry at 2. cbn [fst snd]. rewrite Hc.
    destruct (decide (o' = o)) as [->|Hne].
    + rewrite lookup_insert_eq, Hacc, bool_decide_true by done. simpl.
      by destruct (omap (affected_entry o) pre).
    + rewrite lookup_insert_ne, Hacc by done. rewrite bool_decide_false by naive_solver.
      by rewrite app_nil_r.
Qed.

Lemma omap_imap_cons o k h l :
  omap (affected_entry o) (imap (λ i, pair (k + i)) (h :: l)) =
  option_list (affected_entry o (k, h)) ++
  omap (affected_entry o) (imap (λ i, pair (S k + i)) l).
Proof.
  rewrite imap_cons, Nat.add_0_r.
  assert (imap ((λ i, pair (k + i)) ∘ S) l = imap (λ i, pair (S k + i)) l) as ->.
  { apply imap_ext. intros. simpl. f_equal. lia. }
  change (omap (affected_entry o) ((k, h) :: ?l)) with
    (match affected_entry o (k, h) with
     | Some y => y :: omap (affected_entry o) l | None => omap (affected_entry o) l end).
  by destruct (affected_entry o (k, h)).
Qed.

Lemma affected_ids o l k x :
  x ∈ BucketId <$> omap (affected_entry o) (imap (λ i, pair (k + i)) l) → (Z.of_nat k ≤ x)%Z.
Proof.
  revert k. induction l as [|h l IH]; intros k; [set_solver|].
  rewrite omap_imap_cons, fmap_app, elem_of_app. intros [Hx|Hx%IH]; [|lia].
  unfold affected_entry in Hx. cbn [fst snd] in Hx. case_bool_decide; set_solver by lia.
Qed.

Lemma NoDup_affected o history :
  NoDup (BucketId <$> omap (affected_entry o) (imap pair history)).
Proof.
  assert (Hgen : ∀ l k, NoDup (BucketId <$> omap (affected_entry o) (imap (λ i, pair (k + i)) l))).
  { induction l as [|h l IH]; intros k; [constructor|].
    rewrite omap_imap_cons, fmap_app. apply NoDup_app. split_and!; [|..|apply IH].
    - destruct (affected_entry o (k, h)); [apply NoDup_singleton|constructor].
    - intros x Hx Hx'%affected_ids. unfold affected_entry in Hx. cbn [fst snd] in Hx.
      case_bool_decide; simpl in Hx; [apply list_elem_of_singleton in Hx; lia|set_solver]. }
  apply (Hgen history 0).
Qed.

(** When tasks are cancelled, the current owner of a bucket, and nobody
    else, is told exactly the cancelled workers that ever owned the bucket,
    once per bucket: no state left on a cancelled worker is forgotten. *)
Theorem eventual_migration_complete history
    (Hlen : length owners = length history) (Hu16 : Forall is_u16 cancelling) :
  ∃ acc, affected_by_owner cancelling owners history = Ok acc ∧
    (∀ i w, (∃ h, history !! i = Some h ∧ w ∈ h ∧ w ∈ cancelling) ↔
       ∃ o l a, owners !! i = Some o ∧ acc !! o = Some l ∧ a ∈ l ∧
                BucketId a = Z.of_nat i ∧ w ∈ CancellingWorkerIds a) ∧
    (∀ o l, acc !! o = Some l → NoDup (BucketId <$> l) ∧
       ∀ a, a ∈ l → CancellingWorkerIds a ≠ [] ∧ owners !! Z.to_nat (BucketId a) = Some o).
Proof.
  destruct (affected_by_owner_Ok history Hlen) as (acc & Hacc & Hspec).
  assert (Hu32 : ∀ h, u32 <$> cancelled h = cancelled h).
  { intros h. rewrite <-(list_fmap_id (cancelled h)) at 2. apply list_fmap_ext.
    intros j w Hw. apply list_elem_of_lookup_2, elem_of_cancelled in Hw as [_ Hw].
    rewrite Forall_forall in Hu16. by apply u32_of_u16, Hu16. }
  assert (Hin : ∀ o a, a ∈ omap (affected_entry o) (imap pair history) ↔
    ∃ i h, history !! i = Some h ∧ owners !! i = Some o ∧ cancelled h ≠ [] ∧
      a = MkAffected (Z.of_nat i) (cancelled h)).
  { intros o a. rewrite list_elem_of_omap. split.
    - intros ([i h] & Hi & Ha). apply elem_of_lookup_imap in Hi as (j & h' & [= -> ->] & Hj).
      unfold affected_entry in Ha. cbn [fst snd] in Ha. case_bool_decide as Hc; [|done].
      rewrite Hu32 in Ha. exists j, h'. naive_solver.
    - intros (i & h & Hh & Ho & Hc & ->). exists (i, h). split.
      + apply elem_of_lookup_imap. by exists i, h.
      + unfold affected_entry. cbn [fst snd]. by rewrite bool_decide_true, Hu32 by done. }
  exists acc. split_and!; [done|..].
  - intros i w. split.
    + intros (h & Hh & Hw & Hc). apply lookup_lt_Some in Hh as Hlt.
      destruct (lookup_lt_is_Some_2 owners i) as [o Ho]; [lia|].
      assert (Hwc : w ∈ cancelled h) by (by apply elem_of_cancelled).
      assert (Ha : MkAffected (Z.of_nat i) (cancelled h) ∈
        omap (affected_entry o) (imap pair history)).
      { apply Hin. exists i, h. split_and!; try done. intros E. rewrite E in Hwc. set_solver. }
      exists o, (omap (affected_entry o) (imap pair history)), (MkAffected (Z.of_nat i) (cancelled h)).
      split_and!; [done| |done|done|done]. rewrite Hspec.
      destruct (omap _ _); [set_solver|done].
    + intros (o & l & a & Ho & Hl & Ha & Hb & Hw). rewrite Hspec in Hl.
      assert (Hal : a ∈ omap (affected_entry o) (imap pair history))
        by (destruct (omap _ _); by simplify_eq).
      apply Hin in Hal as (j & h & Hh & _ & _ & ->). simpl in Hb, Hw.
      assert (j = i) as -> by lia. exists h. split; [done|]. by apply elem_of_cancelled.
  - intros o l Hl. rewrite Hspec in Hl.
    assert (l = omap (affected_entry o) (imap pair history)) as -> by
      (destruct (omap _ _); by simplify_eq).
    split.
    + apply NoDup_affected.
    + intros a (i & h & Hh & Ho & Hc & ->)%Hin. simpl. by rewrite Nat2Z.id.
Qed.
End Eventual.

(** ** Witnesses *)

Lemma migration_plan_exact_witness :
  ∃ ch plan, ownerChangesV2 (mkBucketV2 <$> [0; 0; 0; 1]%Z) (mkBucketV2 <$> [0; 2; 2; 2]%Z) = Ok ch ∧
    GenerateMigrationPlan demo_wm ch = Ok plan ∧ is_Some (plan !! 2%Z).
Proof.
  destruct (ownerChangesV2 (mkBucketV2 <$> [0; 0; 0; 1]%Z) (mkBucketV2 <$> [0; 2; 2; 2]%Z))
    as [ch|] eqn:E; [|vm_compute in E; discriminate].
  destruct (ownerChangesV2_spec (mkBucketV2 <$> [0; 0; 0; 1]%Z) (mkBucketV2 <$> [0; 2; 2; 2]%Z))
    as (ch' & E' & Hex); [done|]. rewrite E in E'. injection E' as <-.
  destruct (migration_plan_exact demo_wm [0; 0; 0; 1]%Z [0; 2; 2; 2]%Z ch) as (plan & Hplan & Hd).
  - exact Hex.
  - intros s m Hs. assert (Hc : s = 0%Z ∨ s = 1%Z).
    { assert (Hall : Forall (λ e : Z * gmap Z (list nat), e.1 = 0%Z ∨ e.1 = 1%Z) (map_to_list ch)).
      { vm_compute in E. injection E as <-. vm_compute.
        constructor; [by right|]. constructor; [by left|]. constructor. }
      rewrite Forall_forall in Hall. apply (Hall (s, m)). by apply elem_of_map_to_list. }
    destruct Hc as [->| ->]; vm_compute; eauto.
  - exists ch, plan. split; [reflexivity|]. split; [exact Hplan|].
    specialize (Hd 2%Z). destruct (plan !! 2%Z); [eauto|].
    specialize (Hd 0%Z). vm_compute in E. injection E as <-. discriminate Hd.
Defined.

Lemma eventual_migration_complete_witness :
  ∃ acc, affected_by_owner [5]%Z [1; 2]%Z [{[ 1; 5 ]}; {[ 2 ]}]%Z = Ok acc ∧
    ∃ o l a, [1; 2]%Z !! 0 = Some o ∧ acc !! o = Some l ∧ a ∈ l ∧
      BucketId a = 0%Z ∧ 5%Z ∈ CancellingWorkerIds a.
Proof.
  destruct (eventual_migration_complete [5]%Z [1; 2]%Z [{[ 1; 5 ]}; {[ 2 ]}]%Z)
    as (acc & Hacc & Hiff & _).
  - reflexivity.
  - unfold is_u16. repeat constructor; lia.
  - exists acc. split; [exact Hacc|]. apply (Hiff 0 5%Z).
    exists {[ 1; 5 ]}%Z. split; [reflexivity|]. split; set_solver.
Defined.
