(* ===== verification/Protocol.v ===== *)
(** * Invariant of the coordinator and the rounds of its protocols

    The state the coordinator is in between two API calls, and that job start,
    registration and both rescale protocols keep it; the order and content of
    the control messages of the lazy protocol. *)

From stdpp Require Import prelude gmap strings list sorting.
From Stdlib Require Import ZArith Lia.
From S2P Require Import Prelude Partition EvenPartition PartitionTable WorkerManager Coordinator Rescale.

Section Protocol.
Context (murmur : Z → HashFunc) (marshalUint16 : Z → bytes).
Context `{GoRange, SortTokens, SortWorkers}.

(** ** The selected policy obeys the policy laws *)

Lemma select_policy_laws config P :
  select_policy murmur marshalUint16 config = Ok P →
  PolicyLaws P (Z.to_nat (cfg_NumBuckets config)) ∧ (0 < cfg_NumBuckets config)%Z.
Proof.
  assert (Hbase : ∀ nb p, NewPartitionPolicyBase nb = Ok p → NumBuckets p = nb ∧ (0 < nb)%Z).
  { intros nb p. unfold NewPartitionPolicyBase.
    intros ([] & Hpos%fatal_if_Ok & (m & _ & ([] & _ & [= <-])%bind_Ok_inv)%bind_Ok_inv)%bind_Ok_inv.
    split; [done|]. by apply Z.leb_gt in Hpos. }
  unfold select_policy. repeat case_bool_decide; try done.
  - intros (hp & Hhp & [= <-])%bind_Ok_inv. unfold NewHashPartitionPolicy in Hhp.
    apply bind_Ok_inv in Hhp as ([] & Hpos%fatal_if_Ok & Hhp).
    apply bind_Ok_inv in Hhp as ([] & Hlen%fatal_if_Ok & Hhp).
    apply bind_Ok_inv in Hhp as ([] & _ & Hhp).
    apply bind_Ok_inv in Hhp as (base & [Hnb Hnb0]%Hbase & [= <-]).
    split; [|done]. rewrite <-Hnb. apply hash_laws. simpl.
    apply negb_false_iff, Z.eqb_eq in Hlen. apply Z.leb_gt in Hpos.
    destruct (HashPartitionSeeds config); simpl in *; [lia|].
    destruct (Z.to_nat (HashPartitionNumTokens config)) eqn:E; [lia|done].
  - intros (p & [Hnb Hnb0]%Hbase & [= <-])%bind_Ok_inv. split; [|done]. rewrite <-Hnb. apply _.
  - intros (p & [Hnb Hnb0]%Hbase & [= <-])%bind_Ok_inv. split; [|done]. rewrite <-Hnb. apply _.
Qed.

(** ** The owner history *)

Lemma record_owner_Ok d history i h :
  history !! i = Some h →
  record_owner d history i = Ok (<[i := {[ d ]} ∪ h]> history).
Proof.
  intros Hi. unfold record_owner. rewrite (proj2 (idx_Ok _ _ _) Hi), bind_Ok.
  apply set_idx_Ok. split; [by eapply lookup_lt_Some|done].
Qed.

(** Every bucket of a move gets the destination added to its history. *)
Lemma record_history_spec history ch :
  (∀ s d i, i ∈ get_changes ch s d → i < length history) →
  ∃ history', record_history history ch = Ok history' ∧ length history' = length history ∧
    ∀ i h, history !! i = Some h → ∃ h', history' !! i = Some h' ∧
      ∀ w, w ∈ h' ↔ w ∈ h ∨ ∃ s, i ∈ get_changes ch s w.
Proof.
  intros Hlt. unfold record_history.
  set (ops := moves ch ≫= λ e : Z * Z * list nat, (λ i, (e.1.2, i)) <$> e.2).
  assert (Hflat : ∀ hist, foldM (λ hist '(_, destMap),
      foldM (λ hist '(destWorker, bucketIndices), foldM (record_owner destWorker) hist bucketIndices)
        hist (go_range destMap)) hist (go_range ch) =
    foldM (λ hist (e : Z * nat), record_owner e.1 hist e.2) hist ops).
  { intros hist. unfold ops, moves. rewrite foldM_bind, foldM_bind.
    apply foldM_ext. intros hs [s m] _. unfold moves_of. cbn [fst snd]. rewrite foldM_fmap.
    apply foldM_ext. intros hs' [d l] _. rewrite foldM_fmap. by apply foldM_ext. }
  rewrite Hflat. clear Hflat.
  assert (Hops : ∀ d i, (d, i) ∈ ops ↔ ∃ s, i ∈ get_changes ch s d).
  { intros d i. unfold ops. rewrite list_elem_of_bind. split.
    - intros ([[s d'] l] & Hin & (m & Hs & Hd)%elem_of_moves).
      apply list_elem_of_fmap in Hin as (i' & Heq & Hi). cbn [fst snd] in *. simplify_eq.
      exists s. unfold get_changes. rewrite Hs. simpl. by rewrite Hd.
    - intros (s & Hi). unfold get_changes in Hi.
      destruct (ch !! s) as [m|] eqn:Hs; simpl in Hi; [|rewrite lookup_empty in Hi; set_solver].
      destruct (m !! d) as [l|] eqn:Hd; simpl in Hi; [|set_solver].
      exists (s, d, l). split; [|apply elem_of_moves; eauto].
      apply list_elem_of_fmap. by exists i. }
  destruct (foldM_total (λ hist (e : Z * nat), record_owner e.1 hist e.2)
    (λ pre hist', length hist' = length history ∧
       ∀ i h, history !! i = Some h → ∃ h', hist' !! i = Some h' ∧
         ∀ w, w ∈ h' ↔ w ∈ h ∨ (w, i) ∈ pre) ops history) as (hist' & Hf & Hlen & Hspec).
  - split; [done|]. intros i h Hi. exists h. split; [done|]. set_solver.
  - intros pre [d i] hist1 Hpre [Hl Hh].
    assert (Hi : i < length history).
    { assert ((d, i) ∈ ops) as Hin by (destruct Hpre as [rest ->]; set_solver).
      apply Hops in Hin as [s Hin]. by eapply Hlt. }
    destruct (lookup_lt_is_Some_2 hist1 i) as [h1 Hh1]; [lia|]. cbn [fst snd].
    rewrite (record_owner_Ok d hist1 i h1 Hh1). eexists. split; [done|].
    rewrite length_insert. split; [done|]. intros j h Hj.
    destruct (Hh j h Hj) as (h' & Hh' & Hw). destruct (decide (j = i)) as [->|Hji].
    + rewrite Hh1 in Hh'. injection Hh' as <-. exists ({[d]} ∪ h1). rewrite list_lookup_insert_eq by lia.
      split; [done|]. intros w. rewrite elem_of_union, Hw, elem_of_app. set_solver.
    + exists h'. rewrite list_lookup_insert_ne by done. split; [done|].
      intros w. rewrite Hw, elem_of_app. set_solver.
  - exists hist'. split_and!; [done|done|]. intros i h Hi.
    destruct (Hspec i h Hi) as (h' & Hh' & Hw). exists h'. split; [done|].
    intros w. by rewrite Hw, Hops.
Qed.

(** ** Repartitioning keeps the table and its history in step *)

Definition nbuckets (c : Coordinator) : nat := Z.to_nat (cfg_NumBuckets (Config c)).

(** The partition of an operator: one owner per bucket, each one of [ids], and
    a history that contains at least the present owner. *)
Definition part_ok (c : Coordinator) (name : string) (ids : list Z) : Prop :=
  ∃ t hist, KeyPartitions c !! name = Some t ∧ BucketOwnerHistory c !! name = Some hist ∧
    length (Buckets t) = nbuckets c ∧ length hist = nbuckets c ∧
    Forall (.∈ ids) (Buckets t) ∧
    ∀ i w h, Buckets t !! i = Some w → hist !! i = Some h → w ∈ h.

(** What [updateKeyPartition] changes. *)
Record partition_updated (c : Coordinator) (name : string) (ids : list Z)
    (ch : OwnerChanges) (c' : Coordinator) : Prop := {
  pu_state : ∃ t hist t' hist',
    KeyPartitions c !! name = Some t ∧ BucketOwnerHistory c !! name = Some hist ∧
    c' = set_Partitions c (<[name := t']> (KeyPartitions c))
           (<[name := hist']> (BucketOwnerHistory c)) ∧
    H t' = H t ∧ changes_exact (Buckets t) (Buckets t') ch ∧
    (∀ i h, hist !! i = Some h → ∃ h', hist' !! i = Some h' ∧ h ⊆ h');
  pu_part : part_ok c' name ids;
  pu_changes : ch ≠ ∅
}.

Lemma updateKeyPartition_spec c op updated ids0 c' ch :
  part_ok c (op_Name op) ids0 →
  updateKeyPartition murmur marshalUint16 c op updated = Ok (c', ch) →
  ∃ ids, mapR (worker_id (WM c)) updated = Ok ids ∧
    partition_updated c (op_Name op) ids ch c'.
Proof.
  intros (t & hist & Ht & Hhist & Hlen & Hhl & Hown & Hin). unfold updateKeyPartition.
  intros (ids & Hids & Hrun)%bind_Ok_inv. exists ids. split; [done|].
  apply bind_Ok_inv in Hrun as (P & HP & Hrun).
  apply select_policy_laws in HP as [Hlaws Hnb]. fold (nbuckets c) in Hlaws.
  unfold must_or in Hrun. rewrite Ht, bind_Ok in Hrun.
  apply bind_Ok_inv in Hrun as ([t' ch'] & Hrec & Hrun).
  apply bind_Ok_inv in Hrun as ([] & Hsize%fatal_if_Ok & Hrun).
  apply bind_Ok_inv in Hrun as (hist' & Hrh & Hrun).
  apply bind_Ok_inv in Hrun as (logged & _ & Hrun). simplify_eq.
  pose proof (Reconfigure_shape P (nbuckets c) t ids t' ch Hlen Hrec)
    as (Hne & HH & Hl' & Hall & Hch & _).
  rewrite Hhist in Hrh. cbn [default from_option id] in Hrh.
  destruct (record_history_spec hist ch) as (hist2 & Hr2 & Hl2 & Hspec).
  { intros s d i (Ho & _)%(changes_iff _ _ _ Hch). apply lookup_lt_Some in Ho. lia. }
  rewrite Hrh in Hr2. injection Hr2 as <-.
  split.
  - exists t, hist, t', hist'. split_and!; [done..|]. intros i h Hi.
    destruct (Hspec i h Hi) as (h' & Hh' & Hw). exists h'. split; [done|].
    intros w Hww. apply Hw. by left.
  - exists t', hist'. simpl. rewrite !lookup_insert_eq. split_and!; [done..|by rewrite Hl2|done|].
    intros i w h' Hw Hh'.
    destruct (lookup_lt_is_Some_2 hist i) as [h Hh].
    { apply lookup_lt_Some in Hh'. lia. }
    destruct (Hspec i h Hh) as (h2 & Hh2 & Hiff). simplify_eq. apply Hiff.
    destruct (lookup_lt_is_Some_2 (Buckets t) i) as [w0 Hw0].
    { apply lookup_lt_Some in Hw. lia. }
    destruct (decide (w0 = w)) as [->|Hww]; [left; by eapply Hin|].
    right. exists w0. by apply (changes_iff _ _ _ Hch).
  - intros ->. by rewrite map_size_empty in Hsize.
Qed.

(** ** The invariant *)

(** A worker of a plan: registered under its id and not available. *)
Definition placed (wm : WorkerManager) (p : ptr) : Prop :=
  available wm p = false ∧ ∃ m, heap wm !! p = Some m ∧ Workers wm !! mw_WorkerId m = Some p.

Lemma placed_id wm p : placed wm p → ∃ id, worker_id wm p = Ok id ∧ Workers wm !! id = Some p.
Proof.
  intros [_ (m & Hm & Hw)]. exists (mw_WorkerId m). split; [|done].
  unfold worker_id, deref. by rewrite (proj2 (idx_Ok _ _ _) Hm).
Qed.

Lemma placed_ids wm ws :
  Forall (placed wm) ws → NoDup ws →
  ∃ ids, mapR (worker_id wm) ws = Ok ids ∧ NoDup ids ∧
    ∀ id, id ∈ ids ↔ ∃ p, p ∈ ws ∧ worker_id wm p = Ok id.
Proof.
  clear murmur marshalUint16.
  induction 1 as [|p ws Hp Hws IH]; intros Hnd.
  { exists []. split_and!; [done|constructor|set_solver]. }
  apply NoDup_cons in Hnd as [Hnp Hnd]. destruct (IH Hnd) as (ids & Hids & Hndi & Hin).
  destruct (placed_id _ _ Hp) as (id & Hid & Hw). exists (id :: ids). simpl.
  rewrite Hid, bind_Ok, Hids. split_and!; [done|constructor; [|done]|].
  - intros (q & Hq & Hqid)%Hin. rewrite Forall_forall in Hws.
    destruct (placed_id _ _ (Hws q Hq)) as (id' & Hid' & Hw').
    rewrite Hqid in Hid'. by simplify_eq.
  - intros id'. rewrite elem_of_cons, Hin. split.
    + intros [->|(q & Hq & Hqi)]; [exists p; split; [left|done]|].
      exists q. split; [by right|done].
    + intros (q & [->|Hq]%elem_of_cons & Hqi); [left; congruence|right; eauto].
Qed.

Record coord_inv (c : Coordinator) : Prop := {
  ci_wm : wm_wf (WM c);
  ci_names : ∀ n op, Operators (DF c) !! n = Some op → op_Name op = n;
  ci_plan : ∀ n ws, plan_of c !! n = Some ws → NoDup ws ∧ Forall (placed (WM c)) ws;
  ci_part : ∀ n op ws ids, Operators (DF c) !! n = Some op → op_Stateful op = true →
    plan_of c !! n = Some ws → mapR (worker_id (WM c)) ws = Ok ids → part_ok c n ids
}.

(** ** Steps that only send *)

(** The state after some more rounds. *)
Definition with_rounds (c : Coordinator) (rs : list (list ControlMsg)) : Coordinator :=
  MkCoordinator (Config c) (DF c) (WM c) (TaskPlacementPlan c) (RemovedWorkers c)
    (KeyPartitions c) (StateLookupTables c) (BucketOwnerHistory c)
    (ReconfigInProgress c) (Trace c ++ rs).

Lemma with_rounds_app c r1 r2 : with_rounds (with_rounds c r1) r2 = with_rounds c (r1 ++ r2).
Proof. unfold with_rounds. simpl. by rewrite <-app_assoc. Qed.

Lemma send_round_with c r : send_round c r = with_rounds c [r].
Proof. done. Qed.

(** ** Preparing a rescale *)

Lemma worker_id_mark w ps q :
  worker_id (set_heap w (foldl mark_busy (heap w) ps)) q = worker_id w q.
Proof.
  unfold worker_id, deref, idx, set_heap. cbn [heap]. rewrite mark_all_lookup.
  case_decide; [|done]. by destruct (heap w !! q).
Qed.

Lemma mapR_worker_id_mark w ps l :
  mapR (worker_id (set_heap w (foldl mark_busy (heap w) ps))) l = mapR (worker_id w) l.
Proof.
  induction l as [|q l IH]; cbn [mapR]; [done|]. by rewrite worker_id_mark, IH.
Qed.

Lemma placed_mark w ps q :
  placed w q → placed (set_heap w (foldl mark_busy (heap w) ps)) q.
Proof.
  intros [Ha (m & Hm & Hw)]. split.
  - by rewrite mark_all_available, Ha.
  - cbn [heap set_heap Workers]. rewrite mark_all_lookup, Hm. case_decide; simpl; eauto.
Qed.

Lemma placed_selected w sel p :
  wm_wf w → (∀ q, q ∈ sel → q ∈ availableWorkers w) → p ∈ sel →
  placed (set_heap w (foldl mark_busy (heap w) sel)) p.
Proof.
  intros Hwf Hsel Hp. split.
  - rewrite mark_all_available, bool_decide_true by done. apply andb_false_r.
  - destruct (proj1 (elem_of_availableWorkers w p) (Hsel p Hp)) as (_ & id & Hid).
    destruct (wf_ids _ Hwf _ _ Hid) as (m & Hm & <-).
    cbn [heap set_heap Workers]. rewrite mark_all_lookup, Hm.
    rewrite decide_True by done. simpl. eauto.
Qed.

(** What [prepareReconfiguration] returns: the target's workers extended by
    fresh ones, or cut to a prefix. *)
Record prepared_ok (c c1 : Coordinator) (p : Prepared) : Prop := {
  po_op : Operators (DF c) !! op_Name (targetOperator p) = Some (targetOperator p);
  po_wm : ∃ sel, c1 = set_WM c (set_heap (WM c) (foldl mark_busy (heap (WM c)) sel));
  po_wf : wm_wf (WM c1);
  po_cur : ∃ cur, plan_of c !! op_Name (targetOperator p) = Some cur ∧
    ((newWorkers p ≠ [] ∧ removedWorkers p = [] ∧ updatedWorkers p = cur ++ newWorkers p) ∨
     (newWorkers p = [] ∧ removedWorkers p ≠ [] ∧ updatedWorkers p ≠ [] ∧
      cur = updatedWorkers p ++ removedWorkers p));
  po_updated : NoDup (updatedWorkers p ++ removedWorkers p) ∧
    Forall (placed (WM c1)) (updatedWorkers p ++ removedWorkers p)
}.

Lemma prepareReconfiguration_spec c rc c1 p :
  coord_inv c → prepareReconfiguration c rc = Ok (c1, p) →
  (op_Name (targetOperator p) = TargetRescaleOp rc ∧
   Z.of_nat (length (updatedWorkers p)) = TargetParallelism rc) ∧ prepared_ok c c1 p.
Proof.
  intros [Hwm Hnames Hplan _]. unfold prepareReconfiguration, must_or.
  destruct (Operators (DF c) !! TargetRescaleOp rc) as [op|] eqn:Hop; [|done].
  rewrite bind_Ok. pose proof (Hnames _ _ Hop) as Hn.
  destruct (plan_of c !! TargetRescaleOp rc) as [cur|] eqn:Hcur; [|done].
  rewrite bind_Ok. destruct (Hplan _ _ Hcur) as [Hnd Hplaced].
  intros ([] & Hpos%fatal_if_Ok & ([] & Hne%fatal_if_Ok & Hrun)%bind_Ok_inv)%bind_Ok_inv.
  apply Z.leb_gt in Hpos. apply Z.eqb_neq in Hne.
  destruct (Z.ltb_spec (Z.of_nat (length cur)) (TargetParallelism rc)) as [Hup|Hdown].
  - apply bind_Ok_inv in Hrun as ([wm new] & Halloc & [= <- <-]).
    destruct (AllocateRandomWorkers_inv _ _ _ _ Hwm Halloc) as (-> & Hlen & Hndn & Hav).
    cbn [targetOperator newWorkers removedWorkers updatedWorkers].
    split; [split; [done|rewrite length_app; lia]|].
    assert (Hdis : ∀ q, q ∈ cur → q ∉ new).
    { intros q Hq Hq'. rewrite Forall_forall in Hplaced. destruct (Hplaced q Hq) as [Ha _].
      destruct (proj1 (elem_of_availableWorkers _ _) (Hav q Hq')) as [Ha' _]. congruence. }
    split; cbn [targetOperator newWorkers removedWorkers updatedWorkers]; rewrite ?Hn.
    + done.
    + by exists new.
    + by apply mark_all_wf.
    + exists cur. split; [done|]. left. split_and!; [|done|done].
      intros ->. simpl in Hlen. lia.
    + rewrite app_nil_r. split; [by apply NoDup_app|]. apply Forall_app. split.
      * eapply Forall_impl; [exact Hplaced|]. intros. by apply placed_mark.
      * apply Forall_forall. intros q Hq. by apply placed_selected.
  - injection Hrun as <- <-. split; [split; [done|cbn [updatedWorkers]; rewrite length_take; lia]|].
    split; cbn [targetOperator newWorkers removedWorkers updatedWorkers]; rewrite ?Hn.
    + done.
    + exists []. by destruct c as [? ? []].
    + done.
    + exists cur. split; [done|]. right. rewrite take_drop. split_and!; [done| | |done].
      * intros E%(f_equal length). rewrite length_drop in E. simpl in E. lia.
      * intros E%(f_equal length). rewrite length_take in E. simpl in E. lia.
    + by rewrite take_drop.
Qed.

Lemma prepared_inv c c1 p : coord_inv c → prepared_ok c c1 p → coord_inv c1.
Proof.
  intros [Hwm Hnames Hplan Hpart] [_ [sel ->] Hwf _ _]. split; cbn [WM set_WM DF]; [done|done|..].
  - intros n ws Hws. destruct (Hplan n ws Hws) as [Hnd Hpl]. split; [done|].
    eapply Forall_impl; [exact Hpl|]. intros. by apply placed_mark.
  - intros n op ws ids Hop Hst Hws. rewrite mapR_worker_id_mark. by apply (Hpart n op ws ids).
Qed.

(** ** The rounds of each step *)

Lemma drain_rounds c op c' ups :
  drainInflightData c op = Ok (c', ups) →
  ∃ a b, mapR (worker_id (WM c)) ups = Ok a ∧ c' = with_rounds c [Pause <$> a; WaitDataDrain <$> b].
Proof.
  unfold drainInflightData. intros ([us n] & _ & Hrun)%bind_Ok_inv.
  apply bind_Ok_inv in Hrun as (a & Ha & Hrun). apply bind_Ok_inv in Hrun as (b & Hb & Hrun).
  simplify_eq. exists a, b. split; [done|]. by rewrite !send_round_with, with_rounds_app.
Qed.

Lemma migrateState_rounds c plan c' :
  migrateState c plan = Ok c' → ∃ r, c' = with_rounds c [r].
Proof. unfold migrateState. intros (r & _ & [= <-])%bind_Ok_inv. by exists r. Qed.

(** What the upstream tasks are told, and which these are. *)
Record routing_update (c : Coordinator) (p : Prepared) (ups : list ptr) (ids : list Z)
    (add remove : list DownstreamInfo) (routing : option (list BucketRange)) : Prop := {
  ru_ids : mapR (worker_id (WM c)) ups = Ok ids;
  ru_add : mapR (downstream_info (WM c)) (newWorkers p) = Ok add;
  ru_remove : mapR (downstream_info (WM c)) (removedWorkers p) = Ok remove;
  ru_routing : op_Stateful (targetOperator p) = true →
    ∃ t ranges, KeyPartitions c !! op_Name (targetOperator p) = Some t ∧
      Serialize t = Ok ranges ∧ routing = Some ranges
}.

Lemma notify_rounds c p ups c' :
  notifyUpstreamTasks c p ups = Ok c' →
  ∃ ids add remove routing, routing_update c p ups ids add remove routing ∧
    c' = with_rounds c [(λ w, UpdateDownstreamRouting w add remove routing) <$> ids].
Proof.
  unfold notifyUpstreamTasks. intros (add & Hadd & Hrun)%bind_Ok_inv.
  apply bind_Ok_inv in Hrun as (remove & Hremove & Hrun).
  apply bind_Ok_inv in Hrun as (routing & Hrouting & Hrun).
  apply bind_Ok_inv in Hrun as (ids & Hids & [= <-]). exists ids, add, remove, routing.
  split; [split; try done|done]. intros Hst. rewrite Hst in Hrouting.
  apply bind_Ok_inv in Hrouting as (t & Ht & (ranges & Hr & [= <-])%bind_Ok_inv).
  exists t, ranges. unfold must, must_or in Ht. destruct (_ !! _); [|done]. by injection Ht as ->.
Qed.

Lemma resume_rounds c ups c' :
  resumeUpstreams c ups = Ok c' →
  ∃ ids, mapR (worker_id (WM c)) ups = Ok ids ∧ c' = with_rounds c [Resume <$> ids].
Proof. unfold resumeUpstreams. intros (ids & ? & [= <-])%bind_Ok_inv. by exists ids. Qed.

Lemma rescaleTasks_state c p n c' :
  rescaleTasksStopAndRestart c p n = Ok c' →
  ∃ r, c' = set_Plan (with_rounds c [r])
              (<[op_Name (targetOperator p) := updatedWorkers p]> (plan_of c)).
Proof.
  unfold rescaleTasksStopAndRestart. intros ([infos routing] & _ & Hrun)%bind_Ok_inv.
  apply bind_Ok_inv in Hrun as (new & _ & Hrun).
  apply bind_Ok_inv in Hrun as (rem & _ & [= <-]). eexists. by rewrite send_round_with.
Qed.

Lemma fastForward_rounds c op ch c' :
  fastForward c op ch = Ok c' →
  ∃ t routing msgs, KeyPartitions c !! op_Name op = Some t ∧ Serialize t = Ok routing ∧
    mapR (fast_forward_msg (WM c) routing) (go_range ch) = Ok msgs ∧ c' = with_rounds c [msgs].
Proof.
  unfold fastForward. intros ([] & _ & Hrun)%bind_Ok_inv.
  apply bind_Ok_inv in Hrun as (t & Ht & Hrun). apply bind_Ok_inv in Hrun as (routing & Hr & Hrun).
  apply bind_Ok_inv in Hrun as (msgs & Hm & [= <-]). exists t, routing, msgs.
  unfold must, must_or in Ht. destruct (_ !! _); [|done]. by injection Ht as ->.
Qed.

Lemma waitInbound_rounds c receivers c' :
  waitAllInboundPeersToConnect c receivers = Ok c' →
  ∃ r, Forall2 (λ id m, ∃ p, GetWorker (WM c) id = Ok p ∧ ∃ w, worker_id (WM c) p = Ok w ∧
                       m = WaitAllInboundPeersToConnect w) receivers r ∧
    c' = with_rounds c [r].
Proof.
  unfold waitAllInboundPeersToConnect. intros (r & Hr%mapR_Ok & [= <-])%bind_Ok_inv.
  exists r. split; [|done]. eapply Forall2_impl; [exact Hr|]. intros id m Hm.
  apply bind_Ok_inv in Hm as (p & Hp & (w & Hw & [= <-])%bind_Ok_inv). eauto.
Qed.

Lemma eventual_rounds c op removed c' :
  notifyEventualStateMigration c op removed = Ok c' →
  ∃ r, Forall (λ m, ∃ w l, m = EventualStateMigration w l) r ∧ c' = with_rounds c [r].
Proof.
  unfold notifyEventualStateMigration. intros (cs & _ & Hrun)%bind_Ok_inv.
  apply bind_Ok_inv in Hrun as (aff & _ & Hrun). apply bind_Ok_inv in Hrun as ([] & _ & Hrun).
  apply bind_Ok_inv in Hrun as (r & Hr%mapR_Ok & [= <-]). exists r. split; [|done].
  apply Forall_forall. intros m Hm. apply list_elem_of_lookup in Hm as [i Hi].
  destruct (Forall2_lookup_r _ _ _ _ _ Hr Hi) as ([id l] & _ & Hf).
  apply bind_Ok_inv in Hf as (q & _ & (w & _ & [= <-])%bind_Ok_inv). eauto.
Qed.

Lemma waitDone_rounds c p c' :
  waitAllTasksReconfigDone c p = Ok c' →
  ∃ up rem, mapR (worker_id (WM c)) (updatedWorkers p) = Ok up ∧
    mapR (worker_id (WM c)) (removedWorkers p) = Ok rem ∧
    c' = with_rounds c [WaitAllTasksReconfigDone <$> up ++ rem].
Proof.
  unfold waitAllTasksReconfigDone. intros (up & Hup & Hrun)%bind_Ok_inv.
  apply bind_Ok_inv in Hrun as (rem & Hrem & [= <-]). by exists up, rem.
Qed.

Lemma terminate_state c p c' :
  terminateTasks c p = Ok c' →
  ∃ rem, mapR (worker_id (WM c)) (removedWorkers p) = Ok rem ∧
    Config c' = Config c ∧ DF c' = DF c ∧ WM c' = WM c ∧
    KeyPartitions c' = KeyPartitions c ∧ BucketOwnerHistory c' = BucketOwnerHistory c ∧
    plan_of c' = <[op_Name (targetOperator p) := updatedWorkers p]> (plan_of c) ∧
    default [] (RemovedWorkers c' !! op_Name (targetOperator p)) =
      default [] (RemovedWorkers c !! op_Name (targetOperator p)) ++ removedWorkers p ∧
    Trace c' = Trace c ++ [StopTask <$> rem].
Proof.
  unfold terminateTasks. intros (rem & Hrem & [= <-])%bind_Ok_inv. exists rem.
  split; [done|]. destruct (removedWorkers p); simpl.
  - rewrite app_nil_r. done.
  - rewrite lookup_insert_eq. done.
Qed.

(** ** Settling the plan re-establishes the invariant *)

Record settled (c2 : Coordinator) (name : string) (updated : list ptr) (c' : Coordinator)
    : Prop := {
  st_config : Config c' = Config c2;
  st_df : DF c' = DF c2;
  st_wm : WM c' = WM c2;
  st_key : KeyPartitions c' = KeyPartitions c2;
  st_hist : BucketOwnerHistory c' = BucketOwnerHistory c2;
  st_plan : plan_of c' = <[name := updated]> (plan_of c2)
}.

Lemma part_ok_ext c c' name ids :
  Config c' = Config c → KeyPartitions c' !! name = KeyPartitions c !! name →
  BucketOwnerHistory c' !! name = BucketOwnerHistory c !! name →
  part_ok c name ids → part_ok c' name ids.
Proof.
  intros Hc Hk Hh (t & hist & Ht & Hhist & ?). exists t, hist.
  rewrite Hk, Hh. unfold nbuckets in *. rewrite Hc. done.
Qed.

(** Stateless target: only the plan changes. *)
Lemma settled_inv_stateless c1 name op updated c' :
  coord_inv c1 → Operators (DF c1) !! name = Some op → op_Stateful op = false →
  NoDup updated → Forall (placed (WM c1)) updated →
  settled c1 name updated c' → coord_inv c'.
Proof.
  intros [Hwm Hnames Hplan Hpart] Hop Hst Hnd Hpl [Hc Hdf Hw Hk Hh Hp].
  split; rewrite ?Hw, ?Hdf; [done|done|..].
  - intros n ws. rewrite Hp. destruct (decide (n = name)) as [->|Hn].
    + rewrite lookup_insert_eq. by intros [= <-].
    + rewrite lookup_insert_ne by done. apply Hplan.
  - intros n op' ws ids Hop' Hst'. rewrite Hp. destruct (decide (n = name)) as [->|Hn].
    + rewrite Hop in Hop'. simplify_eq. congruence.
    + rewrite lookup_insert_ne by done. intros Hws Hids.
      eapply part_ok_ext; [done| | |by eapply Hpart]; by rewrite ?Hk, ?Hh.
Qed.

(** Stateful target: the new table's owners are the new plan's workers. *)
Lemma settled_inv c1 name op updated ids ch c2 c' :
  coord_inv c1 → Operators (DF c1) !! name = Some op →
  NoDup updated → Forall (placed (WM c1)) updated →
  mapR (worker_id (WM c1)) updated = Ok ids →
  partition_updated c1 name ids ch c2 → settled c2 name updated c' → coord_inv c'.
Proof.
  intros [Hwm Hnames Hplan Hpart] Hop Hnd Hpl Hids [Hst Hpart2 _] [Hc Hdf Hw Hk Hh Hp].
  destruct Hst as (t & hist & t' & hist' & _ & _ & -> & _).
  cbn [Config DF WM KeyPartitions BucketOwnerHistory set_Partitions] in *.
  change (plan_of (set_Partitions _ _ _)) with (plan_of c1) in Hp.
  split; rewrite ?Hw, ?Hdf; [done|done|..].
  - intros n ws. rewrite Hp. destruct (decide (n = name)) as [->|Hn].
    + rewrite lookup_insert_eq. by intros [= <-].
    + rewrite lookup_insert_ne by done. apply Hplan.
  - intros n op' ws ids' Hop' Hst'. rewrite Hp. destruct (decide (n = name)) as [->|Hn].
    + rewrite lookup_insert_eq. intros [= <-] Hids'. rewrite Hids in Hids'. simplify_eq.
      eapply part_ok_ext; [| | |exact Hpart2]; by rewrite ?Hc, ?Hk, ?Hh.
    + rewrite lookup_insert_ne by done. intros Hws Hids'.
      eapply part_ok_ext; [exact Hc| | |by eapply Hpart];
        rewrite ?Hk, ?Hh; by rewrite lookup_insert_ne.
Qed.

Lemma with_rounds_inv c rs : coord_inv c → coord_inv (with_rounds c rs).
Proof. intros [Hwm Hnames Hplan Hpart]. split; done. Qed.

Lemma NoDup_app_l {A} (l k : list A) : NoDup (l ++ k) → NoDup l.
Proof. by intros [? _]%NoDup_app. Qed.

(** The partition of a stateful target before the rescale. *)
Lemma target_part c p :
  coord_inv c → Operators (DF c) !! op_Name (targetOperator p) = Some (targetOperator p) →
  op_Stateful (targetOperator p) = true →
  is_Some (plan_of c !! op_Name (targetOperator p)) →
  ∃ cur ids, plan_of c !! op_Name (targetOperator p) = Some cur ∧
    mapR (worker_id (WM c)) cur = Ok ids ∧ part_ok c (op_Name (targetOperator p)) ids.
Proof.
  intros Hinv Hop Hst [cur Hcur]. destruct (ci_plan _ Hinv _ _ Hcur) as [Hnd Hpl].
  destruct (placed_ids _ _ Hpl Hnd) as (ids & Hids & _).
  exists cur, ids. split_and!; [done|done|]. by eapply ci_part.
Qed.

(** Both protocols end with the new plan in force over the new partition. *)
Lemma stop_and_restart_inv c rc c' :
  coord_inv c → rescaleStopAndRestart murmur marshalUint16 c rc = Ok c' → coord_inv c'.
Proof.
  intros Hinv. unfold rescaleStopAndRestart.
  intros ([c1 p] & Hprep & Hrun)%bind_Ok_inv.
  destruct (prepareReconfiguration_spec _ _ _ _ Hinv Hprep) as [_ Hpo].
  pose proof (prepared_inv _ _ _ Hinv Hpo) as Hinv1.
  destruct Hpo as [Hop Hwm _ (cur & Hcur & _) [Hnd Hpl]].
  assert (Hop1 : Operators (DF c1) !! op_Name (targetOperator p) = Some (targetOperator p))
    by (by destruct Hwm as [? ->]).
  assert (Hcur1 : plan_of c1 !! op_Name (targetOperator p) = Some cur)
    by (by destruct Hwm as [? ->]).
  apply NoDup_app_l in Hnd. apply Forall_app in Hpl as [Hpl _].
  apply bind_Ok_inv in Hrun as ([cd ups] & Hdrain & Hrun).
  apply drain_rounds in Hdrain as (a & b & _ & ->).
  apply bind_Ok_inv in Hrun as (c3 & Hrec & Hrun).
  apply bind_Ok_inv in Hrun as (c4 & (r4 & ->)%rescaleTasks_state & Hrun).
  apply bind_Ok_inv in Hrun as (c5 & (ids5 & ? & ? & ? & _ & ->)%notify_rounds & Hrun).
  apply resume_rounds in Hrun as (ids6 & _ & ->).
  destruct (op_Stateful (targetOperator p)) eqn:Hst.
  - unfold reconfigureStatefulOp in Hrec.
    apply bind_Ok_inv in Hrec as ([c2 ch] & Hupd & Hrec).
    apply bind_Ok_inv in Hrec as (plan & _ & (r3 & ->)%migrateState_rounds).
    destruct (target_part _ _ (with_rounds_inv c1 [Pause <$> a; WaitDataDrain <$> b] Hinv1)
      Hop1 Hst ltac:(by exists cur)) as (cur' & ids0 & _ & _ & Hpart).
    destruct (updateKeyPartition_spec _ _ _ _ _ _ Hpart Hupd) as (ids & Hids & Hpu).
    apply (settled_inv (with_rounds c1 [Pause <$> a; WaitDataDrain <$> b])
      (op_Name (targetOperator p)) (targetOperator p) (updatedWorkers p) ids ch c2);
      [by apply with_rounds_inv|exact Hop1|exact Hnd|exact Hpl|exact Hids|exact Hpu|by split].
  - injection Hrec as <-.
    eapply (settled_inv_stateless _ _ _ (updatedWorkers p)); [exact Hinv1|exact Hop1|..];
      [done..|]. by split.
Qed.

Lemma init_lazy_spec c p c' li :
  initializeTargetTasksLazy murmur marshalUint16 c p = Ok (c', li) →
  ∃ c2 plan ups numUp newIds removedIds curIds ta deploys newPeers,
    let barriers := i32 (Z.of_nat (length ups)) in
    updateKeyPartition murmur marshalUint16 c (targetOperator p) (updatedWorkers p) =
      Ok (c2, li_changes li) ∧
    GenerateMigrationPlan (WM c2) (li_changes li) = Ok plan ∧
    getUpstreamList c2 (op_Name (targetOperator p)) = Ok (ups, numUp) ∧
    mapR (worker_id (WM c2)) (newWorkers p) = Ok newIds ∧
    mapR (worker_id (WM c2)) (removedWorkers p) = Ok removedIds ∧
    mapR (worker_id (WM c2)) (default [] (plan_of c2 !! op_Name (targetOperator p))) = Ok curIds ∧
    (∀ a b, ta_ExpectedInboundPeers (ta a b) = Some b ∧ ExpectedNumUpstream (ta a b) = a ∧
            ta_ExpectedDrainBarriers (ta a b) = Some barriers) ∧
    mapR (deploy_lazy plan numUp barriers ta) newIds = Ok deploys ∧
    li = MkLazyInit ups (li_changes li) (go_range plan).*1 ∧
    c' = with_rounds c2 [deploys ++
           (init_existing plan numUp barriers removedIds newPeers <$> curIds)].
Proof.
  unfold initializeTargetTasksLazy. intros ([c2 ch] & Hupd & Hrun)%bind_Ok_inv.
  apply bind_Ok_inv in Hrun as (plan & Hplan & Hrun).
  apply bind_Ok_inv in Hrun as (t & _ & Hrun). apply bind_Ok_inv in Hrun as (s1 & _ & Hrun).
  apply bind_Ok_inv in Hrun as (s2 & _ & Hrun). apply bind_Ok_inv in Hrun as (pu & _ & Hrun).
  apply bind_Ok_inv in Hrun as (pr & _ & Hrun). apply bind_Ok_inv in Hrun as (pp & _ & Hrun).
  apply bind_Ok_inv in Hrun as ([infos routing] & _ & Hrun).
  apply bind_Ok_inv in Hrun as ([ups numUp] & Hups & Hrun).
  apply bind_Ok_inv in Hrun as (newIds & Hnew & Hrun).
  apply bind_Ok_inv in Hrun as (deploys & Hdep & Hrun).
  apply bind_Ok_inv in Hrun as (removedIds & Hrem & Hrun).
  apply bind_Ok_inv in Hrun as (newPeers & _ & Hrun).
  apply bind_Ok_inv in Hrun as (curIds & Hcur & Hrun). simplify_eq. cbn [li_changes].
  do 10 eexists. split_and!; [done..| | | |by rewrite send_round_with]; [|exact Hdep|done].
  by intros.
Qed.

(** ** Announced peers and opened peers *)

(** How many fast-forward messages of a round name [w] as a peer. *)
Definition lists_peer (w : Z) (m : ControlMsg) : bool :=
  match m with FastForward _ _ ps => bool_decide (w ∈ di_WorkerId <$> ps) | _ => false end.
Definition inbound_of (r : list ControlMsg) (w : Z) : nat :=
  length (filter (λ m, lists_peer w m) r).

(** The worker registered under an id has that id. *)
Lemma GetWorker_id wm id p w : wm_wf wm → GetWorker wm id = Ok p → worker_id wm p = Ok w → w = id.
Proof.
  intros Hwf Hp Hw. unfold GetWorker in Hp.
  destruct (Workers wm !! id) as [p'|] eqn:Hid; [|done]. injection Hp as ->.
  destruct (wf_ids _ Hwf _ _ Hid) as (mw & Hmw & <-). unfold worker_id, deref in Hw.
  rewrite (proj2 (idx_Ok _ _ _) Hmw) in Hw. by injection Hw as <-.
Qed.

Lemma fast_forward_peers wm routing s (m : gmap Z (list nat)) msg :
  wm_wf wm → (∀ d, is_Some (m !! d) → is_u16 d) →
  fast_forward_msg wm routing (s, m) = Ok msg →
  ∃ ps, msg = FastForward s routing ps ∧ di_WorkerId <$> ps = (go_range m).*1.
Proof.
  intros Hwf Hu. unfold fast_forward_msg. intros (ps & Hps%mapR_Ok & Hrun)%bind_Ok_inv.
  apply bind_Ok_inv in Hrun as (p & Hp & (w' & Hw & [= <-])%bind_Ok_inv).
  rewrite (GetWorker_id wm s p w' Hwf Hp Hw). exists ps. split; [done|].
  assert (Hall : ∀ d, d ∈ (go_range m).*1 → is_u16 d).
  { intros d Hd. apply Hu. by apply go_range_keys. }
  clear -Hps Hall. induction Hps as [|[d l] info es ps Hd Hps IH]; [done|].
  apply bind_Ok_inv in Hd as (addr & _ & [= <-]). simpl in *.
  rewrite u32_of_u16 by (apply Hall; set_solver). f_equal. apply IH. set_solver.
Qed.

Lemma fast_forward_round wm routing ch msgs :
  wm_wf wm → (∀ s d l, (s, d, l) ∈ moves ch → is_u16 d) →
  mapR (fast_forward_msg wm routing) (go_range ch) = Ok msgs →
  Forall2 (λ e m, ∃ ps, m = FastForward e.1 routing ps ∧ di_WorkerId <$> ps = (go_range e.2).*1)
    (go_range ch) msgs.
Proof.
  intros Hwf Hu Hmsgs%mapR_Ok.
  assert (Hin : ∀ e d, e ∈ go_range ch → is_Some (e.2 !! d) → is_u16 d).
  { intros [s m] d Hs%elem_of_go_range [l Hl]. apply (Hu s d l), elem_of_moves. eauto. }
  clear Hu. induction Hmsgs as [|[s m] msg es msgs Hf _ IH]; constructor.
  - eapply fast_forward_peers; [done| |exact Hf]. intros d. apply (Hin (s, m)). left.
  - apply IH. intros e d He. apply Hin. by right.
Qed.

Lemma fast_forward_count routing ch msgs w :
  Forall2 (λ e m, ∃ ps, m = FastForward e.1 routing ps ∧ di_WorkerId <$> ps = (go_range e.2).*1)
    (go_range ch) msgs →
  inbound_of msgs w = length (moves_to ch w).
Proof.
  unfold inbound_of, moves_to, moves. rewrite list_filter_bind.
  induction 1 as [|[s m] msg es msgs (ps & -> & Hps) Hmsgs IH]; [done|].
  rewrite filter_cons, bind_cons, length_app, moves_of_to. cbn [fst snd lists_peer] in *.
  rewrite <-IH, Hps. destruct (m !! w) as [l|] eqn:Hl.
  - rewrite decide_True; [done|]. apply bool_decide_pack, go_range_keys. by exists l.
  - rewrite decide_False; [done|]. intros [? Hc]%bool_decide_unpack%go_range_keys. by simplify_eq.
Qed.

(** The worker a message goes to. *)
Definition msg_worker (m : ControlMsg) : Z :=
  match m with
  | DeployTask w _ | StopTask w | Pause w | Resume w | WaitDataDrain w
  | StateMigration w _ | UpdateDownstreamRouting w _ _ _ | InitLazyReconfig w _ _ _ _
  | FastForward w _ _ | WaitAllInboundPeersToConnect w | EventualStateMigration w _
  | WaitAllTasksReconfigDone w => w
  end.

Lemma deploy_lazy_msgs plan numUp barriers ta newIds deploys :
  mapR (deploy_lazy plan numUp barriers ta) newIds = Ok deploys →
  msg_worker <$> deploys = newIds ∧
  Forall (λ m, ∃ w sources, plan !! w = Some sources ∧
    m = DeployTask w (ta (i32 (barriers + expected_inbound sources numUp))
                         (expected_inbound sources numUp))) deploys.
Proof.
  intros Hd%mapR_Ok. induction Hd as [|w m newIds deploys Hm Hd [IH1 IH2]]; [done|].
  unfold deploy_lazy, must_or in Hm. destruct (plan !! w) as [sources|] eqn:Hs; [|done].
  rewrite bind_Ok in Hm. injection Hm as <-. split; [simpl; by f_equal|].
  constructor; [|done]. by exists w, sources.
Qed.

(** Receivers are waited for under the ids the plan names. *)
Lemma wait_inbound_msgs wm ids r :
  wm_wf wm →
  Forall2 (λ id m, ∃ p, GetWorker wm id = Ok p ∧ ∃ w, worker_id wm p = Ok w ∧
             m = WaitAllInboundPeersToConnect w) ids r →
  r = WaitAllInboundPeersToConnect <$> ids.
Proof.
  intros Hwf. induction 1 as [|id m ids r (p & Hp & w & Hw & ->) Hr IH]; [done|].
  by rewrite fmap_cons, <-IH, (GetWorker_id wm id p w).
Qed.

Lemma placed_ids_registered wm ws ids id :
  Forall (placed wm) ws → mapR (worker_id wm) ws = Ok ids → id ∈ ids →
  ∃ p, Workers wm !! id = Some p.
Proof.
  intros Hpl Hids%mapR_Ok Hin. apply list_elem_of_lookup in Hin as [i Hi].
  destruct (Forall2_lookup_r _ _ _ _ _ Hids Hi) as (q & Hq & Hid).
  rewrite Forall_forall in Hpl.
  destruct (placed_id wm q) as (id' & Hid' & Hw); [by eapply Hpl, list_elem_of_lookup_2|].
  exists q. congruence.
Qed.

Lemma registered_addr wm id p :
  wm_wf wm → Workers wm !! id = Some p →
  (∃ addr, GetWorkerStateCommAddr wm id = Ok addr) ∧ is_u16 id.
Proof.
  intros Hwf Hid. destruct (wf_ids _ Hwf _ _ Hid) as (m & Hm & <-).
  split; [|by eapply wf_u16].
  exists (StateCommAddr m). unfold GetWorkerStateCommAddr, GetWorker. rewrite Hid, bind_Ok.
  unfold deref. by rewrite (proj2 (idx_Ok _ _ _) Hm).
Qed.

(** The moves of a repartition go between registered workers, and are never
    empty. *)
Lemma moves_registered c name ids0 ids ch c2 ws0 ws :
  wm_wf (WM c) → part_ok c name ids0 → partition_updated c name ids ch c2 →
  Forall (placed (WM c)) ws0 → mapR (worker_id (WM c)) ws0 = Ok ids0 →
  Forall (placed (WM c)) ws → mapR (worker_id (WM c)) ws = Ok ids →
  sources_known (WM c) ch ∧
  ∀ s d l, (s, d, l) ∈ moves ch → l ≠ [] ∧ is_u16 d.
Proof.
  clear murmur marshalUint16.
  intros Hwf (t0 & hist0 & Ht0 & _ & _ & _ & Hown0 & _) [Hst Hpart _] Hpl0 Hids0 Hpl Hids.
  destruct Hst as (t & hist & t' & hist' & Ht & _ & Hc2 & _ & Hch & _).
  destruct Hpart as (t2 & hist2 & Ht2 & _ & _ & _ & Hown & _).
  rewrite Hc2 in Ht2. cbn [KeyPartitions set_Partitions] in Ht2.
  rewrite lookup_insert_eq in Ht2. rewrite Ht in Ht0. simplify_eq.
  rewrite Forall_forall in Hown0. rewrite Forall_forall in Hown.
  assert (Hmove : ∀ s d l, (s, d, l) ∈ moves ch → l ≠ [] ∧
    ∃ i, Buckets t0 !! i = Some s ∧ Buckets t2 !! i = Some d).
  { intros s d l (m & Hs & Hd)%elem_of_moves.
    assert (Hl : l ≠ []) by (by eapply (proj2 (changes_nonempty _ _ _ Hch s m Hs))).
    split; [done|]. destruct l as [|i l]; [done|]. exists i.
    destruct (proj1 (changes_iff _ _ _ Hch s d i)) as (? & ? & _); [|done].
    unfold get_changes. rewrite Hs. simpl. rewrite Hd. simpl. set_solver. }
  split.
  - intros s m Hs. destruct (map_choose m) as (d & l & Hd).
    { intros ->. by destruct (proj1 (changes_nonempty _ _ _ Hch s ∅ Hs)). }
    destruct (Hmove s d l) as (_ & i & Hi & _); [apply elem_of_moves; eauto|].
    destruct (placed_ids_registered _ _ _ s Hpl0 Hids0) as [q Hq];
      [by eapply Hown0, list_elem_of_lookup_2|].
    by eapply registered_addr.
  - intros s d l Hin. destruct (Hmove s d l Hin) as (Hl & i & _ & Hi). split; [done|].
    destruct (placed_ids_registered _ _ _ d Hpl Hids) as [q Hq];
      [by eapply Hown, list_elem_of_lookup_2|].
    by eapply registered_addr.
Qed.

(** ** A run of the lazy protocol, taken apart *)

Record lazy_run (c c' : Coordinator) (p : Prepared) (c1 c2 : Coordinator)
    (ch : OwnerChanges) (plan : gmap Z (list MigrationInfo)) (numUp : nat) (ups : list ptr)
    (ranges : list BucketRange) (updatedIds newIds removedIds curIds : list Z)
    (init ff recv upd : list ControlMsg) (ev : list (list ControlMsg)) : Prop := {
  lr_prepared : prepared_ok c c1 p;
  lr_inv1 : coord_inv c1;
  lr_stateful : op_Stateful (targetOperator p) = true;
  lr_updated : mapR (worker_id (WM c1)) (updatedWorkers p) = Ok updatedIds;
  lr_new : mapR (worker_id (WM c1)) (newWorkers p) = Ok newIds;
  lr_removed : mapR (worker_id (WM c1)) (removedWorkers p) = Ok removedIds;
  lr_cur : mapR (worker_id (WM c1))
    (default [] (plan_of c1 !! op_Name (targetOperator p))) = Ok curIds;
  lr_partition : partition_updated c1 (op_Name (targetOperator p)) updatedIds ch c2;
  lr_settled : settled c2 (op_Name (targetOperator p)) (updatedWorkers p) c';
  lr_plan : GenerateMigrationPlan (WM c1) ch = Ok plan;
  lr_ups : getUpstreamList c2 (op_Name (targetOperator p)) = Ok (ups, numUp);
  lr_ranges : ∃ t, KeyPartitions c2 !! op_Name (targetOperator p) = Some t ∧ Serialize t = Ok ranges;
  lr_init : ∃ ta deploys newPeers, let barriers := i32 (Z.of_nat (length ups)) in
    (∀ a b, ta_ExpectedInboundPeers (ta a b) = Some b ∧ ExpectedNumUpstream (ta a b) = a ∧
            ta_ExpectedDrainBarriers (ta a b) = Some barriers) ∧
    mapR (deploy_lazy plan numUp barriers ta) newIds = Ok deploys ∧
    init = deploys ++ (init_existing plan numUp barriers removedIds newPeers <$> curIds);
  lr_ff : mapR (fast_forward_msg (WM c1) ranges) (go_range ch) = Ok ff;
  lr_recv : recv = WaitAllInboundPeersToConnect <$> (go_range plan).*1;
  lr_upd : ∃ upIds add rm, routing_update c2 p ups upIds add rm (Some ranges) ∧
    upd = (λ w, UpdateDownstreamRouting w add rm (Some ranges)) <$> upIds;
  lr_ev : if bool_decide (0 < length (removedWorkers p)) &&
             bool_decide (CancellingTaskMigrationMode (Config c) = "eventual"%string)
    then ∃ r, ev = [r] ∧ Forall (λ m, ∃ w l, m = EventualStateMigration w l) r else ev = [];
  lr_trace : Trace c' = Trace c ++ [init; ff; recv; upd] ++ ev ++
    [WaitAllTasksReconfigDone <$> updatedIds ++ removedIds; StopTask <$> removedIds]
}.

Lemma lazy_decompose c rc c' :
  coord_inv c → rescaleLazy murmur marshalUint16 c rc = Ok c' →
  ∃ p c1 c2 ch plan numUp ups ranges updatedIds newIds removedIds curIds init ff recv upd ev,
    (op_Name (targetOperator p) = TargetRescaleOp rc ∧
     Z.of_nat (length (updatedWorkers p)) = TargetParallelism rc) ∧
    lazy_run c c' p c1 c2 ch plan numUp ups ranges updatedIds newIds removedIds curIds init ff recv upd ev.
Proof.
  intros Hinv. unfold rescaleLazy. intros ([c1 p] & Hprep & Hrun)%bind_Ok_inv.
  destruct (prepareReconfiguration_spec _ _ _ _ Hinv Hprep) as [Hname Hpo].
  pose proof (prepared_inv _ _ _ Hinv Hpo) as Hinv1.
  assert (Hop1 : Operators (DF c1) !! op_Name (targetOperator p) = Some (targetOperator p) ∧
    is_Some (plan_of c1 !! op_Name (targetOperator p)) ∧ Trace c1 = Trace c ∧ Config c1 = Config c).
  { destruct Hpo as [Hop [? ->] _ (cur & Hcur & _) _]. split_and!; [done| |done|done]. by exists cur. }
  destruct Hop1 as (Hop1 & Hcur1 & Htr1 & Hcfg1).
  apply bind_Ok_inv in Hrun as ([] & Hst%fatal_if_Ok & Hrun). apply negb_false_iff in Hst.
  apply bind_Ok_inv in Hrun as ([ci li] & Hinit & Hrun).
  destruct (init_lazy_spec _ _ _ _ Hinit) as (c2 & plan & ups & numUp & newIds & removedIds &
    curIds & ta & deploys & newPeers & Hupd & Hplan & Hups & Hnew & Hrem & Hcur & Hta &
    Hdep & Hli & ->). clear Hinit.
  destruct (target_part _ _ Hinv1 Hop1 Hst Hcur1) as (cur & ids0 & _ & _ & Hpart).
  destruct (updateKeyPartition_spec _ _ _ _ _ _ Hpart Hupd) as (ids & Hids & Hpu).
  assert (Hc2 : WM c2 = WM c1 ∧ plan_of c2 = plan_of c1 ∧ Trace c2 = Trace c1 ∧ Config c2 = Config c1)
    by (destruct Hpu as [(? & ? & ? & ? & _ & _ & -> & _) _ _]; done).
  destruct Hc2 as (Hwm2 & Hplan2 & Htr2 & Hcfg2). rewrite Hwm2 in *. rewrite Hplan2 in Hcur.
  apply bind_Ok_inv in Hrun as (c3 & (t & ranges & ff & Ht & Hranges & Hff & ->)%fastForward_rounds & Hrun).
  apply bind_Ok_inv in Hrun as (c4 & (recv & Hrecv & ->)%waitInbound_rounds & Hrun).
  apply bind_Ok_inv in Hrun as (c5 & (upIds & add & rm & rt & Hru & ->)%notify_rounds & Hrun).
  assert (Hrt : rt = Some ranges).
  { destruct (ru_routing _ _ _ _ _ _ _ Hru Hst) as (t' & ranges' & Ht' & Hr' & ->).
    cbn [KeyPartitions with_rounds] in *. congruence. }
  subst rt. assert (Hru2 : routing_update c2 p ups upIds add rm (Some ranges)) by (rewrite Hli in Hru; by destruct Hru).
  apply bind_Ok_inv in Hrun as (c6 & Hev & Hrun).
  apply bind_Ok_inv in Hrun as (c7 & (u7 & r7 & Hu7 & Hr7 & ->)%waitDone_rounds & Hrun).
  apply terminate_state in Hrun as (r8 & Hr8 & Hcfg & Hdf & Hwm & Hk & Hh & Hp & _ & Htr).
  rewrite !with_rounds_app in *. cbn [WM with_rounds] in *. rewrite Hwm2 in *.
  cbn [Config with_rounds] in Hev. rewrite Hcfg2, Hcfg1 in Hev.
  assert (Hevs : ∃ ev, c6 = with_rounds c2 ([deploys ++ (init_existing plan numUp
      (i32 (Z.of_nat (length ups))) removedIds newPeers <$> curIds); ff; recv;
      (λ w, UpdateDownstreamRouting w add rm (Some ranges)) <$> upIds] ++ ev) ∧
    if bool_decide (0 < length (removedWorkers p)) &&
       bool_decide (CancellingTaskMigrationMode (Config c) = "eventual"%string)
    then ∃ r, ev = [r] ∧ Forall (λ m, ∃ w l, m = EventualStateMigration w l) r else ev = []).
  { destruct (_ && _); [|injection Hev as <-; exists []; rewrite app_nil_r; auto].
    apply eventual_rounds in Hev as (r & Hr & ->). rewrite with_rounds_app. exists [r]. eauto. }
  destruct Hevs as (ev & -> & Hevs). cbn [WM with_rounds plan_of TaskPlacementPlan] in *.
  rewrite ?with_rounds_app in *. cbn [WM with_rounds] in *. rewrite Hwm2 in *.
  rewrite Hids in Hu7. injection Hu7 as <-. rewrite Hrem in Hr7. injection Hr7 as <-.
  rewrite Hrem in Hr8. injection Hr8 as <-.
  exists p, c1, c2, (li_changes li), plan, numUp, ups, ranges, ids, newIds, removedIds, curIds,
    (deploys ++ (init_existing plan numUp (i32 (Z.of_nat (length ups))) removedIds newPeers <$> curIds)), ff, recv,
    ((λ w, UpdateDownstreamRouting w add rm (Some ranges)) <$> upIds), ev.
  split; [exact Hname|]. split; try eassumption.
  - split; [exact Hcfg|exact Hdf|by rewrite Hwm2|exact Hk|exact Hh|exact Hp].
  - by exists t.
  - exists ta, deploys, newPeers. split_and!; [exact Hta|exact Hdep|reflexivity].
  - rewrite Hli in Hrecv. cbn [li_receivers] in Hrecv. apply (wait_inbound_msgs (WM c1)); [|exact Hrecv].
    by apply ci_wm.
  - by exists upIds, add, rm.
  - rewrite Htr. cbn [Trace with_rounds]. rewrite Htr2, Htr1, <-!app_assoc. done.
Qed.

Lemma lazy_inv c rc c' :
  coord_inv c → rescaleLazy murmur marshalUint16 c rc = Ok c' → coord_inv c'.
Proof.
  intros Hinv Hrun.
  destruct (lazy_decompose _ _ _ Hinv Hrun) as (p & c1 & c2 & ch & plan & numUp & ups & ranges & updatedIds &
    newIds & removedIds & curIds & init & ff & recv & upd & ev & _ & Hlr).
  destruct (lr_prepared _ _ _ _ _ _ _ _ _ _ _ _ _ _ _ _ _ _ _ Hlr) as [Hop Hwm _ _ [Hnd Hpl]].
  apply NoDup_app_l in Hnd. apply Forall_app in Hpl as [Hpl _].
  destruct Hlr. eapply (settled_inv c1 _ (targetOperator p)); try eassumption.
  by destruct Hwm as [? ->].
Qed.

(** ** Who takes part and what is sent *)

(** The tasks of the target before and after, those added and those removed. *)
Definition participants (c : Coordinator) (rc : RescaleConfig) (c' : Coordinator)
    (curIds newIds removedIds updatedIds : list Z) : Prop :=
  (∃ cur, plan_of c !! TargetRescaleOp rc = Some cur ∧ mapR (worker_id (WM c)) cur = Ok curIds) ∧
  (∃ ws, plan_of c' !! TargetRescaleOp rc = Some ws ∧ mapR (worker_id (WM c')) ws = Ok updatedIds) ∧
  Z.of_nat (length updatedIds) = TargetParallelism rc ∧
  (removedIds = [] ∧ updatedIds = curIds ++ newIds ∨ newIds = [] ∧ curIds = updatedIds ++ removedIds).

(** All tasks of all upstream operators of the target. *)
Definition upstream_tasks (c : Coordinator) (name : string) (upstreamOperators : list string)
    (upIds : list Z) : Prop :=
  (∃ dep, Streams (DF c) !! name = Some dep ∧ UpstreamOperators dep = upstreamOperators) ∧
  ∃ tasks, Forall2 (λ up ws, plan_of c !! up = Some ws) upstreamOperators tasks ∧
    mapR (worker_id (WM c)) (mjoin (M:=list) tasks) = Ok upIds.

(** One order to every worker that loses a bucket, with the new table and, as
    peers, the workers that get buckets from it. *)
Definition fast_forwards (old new : list Z) (ranges : list BucketRange) (ff : list ControlMsg) : Prop :=
  NoDup (msg_worker <$> ff) ∧
  (∀ w, w ∈ msg_worker <$> ff ↔ ∃ d, bucket_moved old new w d) ∧
  ∀ m, m ∈ ff → ∃ w ps, m = FastForward w ranges ps ∧
    ∀ d, d ∈ di_WorkerId <$> ps ↔ bucket_moved old new w d.

(** What a task is told: the drain barriers and the peers to expect, given the
    fast-forward round [ff] and the upstream operators and tasks. *)
Definition announces (ff : list ControlMsg) (numUp : nat) (barriers : Z)
    (newIds curIds removedIds : list Z) (m : ControlMsg) : Prop :=
  match m with
  | DeployTask w ta => w ∈ newIds ∧ 0 < inbound_of ff w ∧
      let inbound := i32 (Z.of_nat (inbound_of ff w * numUp)) in
      ta_ExpectedInboundPeers ta = Some inbound ∧ ta_ExpectedDrainBarriers ta = Some barriers ∧
      ExpectedNumUpstream ta = i32 (barriers + inbound)
  | InitLazyReconfig w drain inbound shutdown _ => w ∈ curIds ∧ drain = barriers ∧
      inbound = (if inbound_of ff w =? 0 then (-1)%Z
                 else i32 (Z.of_nat (inbound_of ff w * numUp))) ∧
      shutdown = bool_decide (w ∈ removedIds)
  | _ => False
  end.

Lemma plan_inbound ch (plan : gmap Z (list MigrationInfo)) ff wm w :
  (∀ d, plan !! d = match moves_to ch d with [] => None | es => Some (info_of wm <$> es) end) →
  inbound_of ff w = length (moves_to ch w) →
  match plan !! w with
  | Some sources => length sources = inbound_of ff w ∧ 0 < inbound_of ff w
  | None => inbound_of ff w = 0
  end.
Proof.
  intros Hplan Hff. rewrite Hplan, Hff. destruct (moves_to ch w); simpl; [done|].
  rewrite length_fmap. lia.
Qed.

Lemma fast_forwards_round old new routing ch msgs :
  changes_exact old new ch →
  Forall2 (λ e m, ∃ ps, m = FastForward e.1 routing ps ∧ di_WorkerId <$> ps = (go_range e.2).*1)
    (go_range ch) msgs →
  fast_forwards old new routing msgs.
Proof.
  intros Hch Hmsgs. pose proof (changes_moved old new ch) as Hmv.
  assert (Hids : msg_worker <$> msgs = (go_range ch).*1).
  { clear -Hmsgs. induction Hmsgs as [|e m es msgs (ps & -> & _) _ IH]; [done|]. by rewrite !fmap_cons, IH. }
  split_and!.
  - rewrite Hids. apply NoDup_go_range.
  - intros w. rewrite Hids, go_range_keys. split.
    + intros [m Hm]. destruct (map_choose m) as (d & l & Hl); [by apply (changes_nonempty _ _ _ Hch w)|].
      exists d. apply Hmv; eauto.
    + intros (d & (m & l & Hm & _)%Hmv); [by exists m|done].
  - intros m Hm. apply list_elem_of_lookup in Hm as [i Hi].
    destruct (Forall2_lookup_r _ _ _ _ _ Hmsgs Hi) as ([w inner] & He & ps & -> & Hps).
    apply list_elem_of_lookup_2, elem_of_go_range in He. exists w, ps. split; [done|].
    intros d. rewrite Hps. cbn [snd]. rewrite go_range_keys, <-Hmv by done. split.
    + intros [l Hl]. eauto.
    + intros (m & l & Hm & Hl). rewrite He in Hm. injection Hm as <-. by exists l.
Qed.

Lemma downstream_ids wm ws ids infos :
  wm_wf wm → mapR (worker_id wm) ws = Ok ids → mapR (downstream_info wm) ws = Ok infos →
  di_WorkerId <$> infos = ids.
Proof.
  clear murmur marshalUint16.
  intros Hwf Hids%mapR_Ok Hinfos%mapR_Ok. revert infos Hinfos.
  induction Hids as [|q id ws ids Hid _ IH]; intros infos Hinfos; inversion Hinfos as [|? info ? infos' Hi Hr]; subst; [done|].
  rewrite fmap_cons, (IH infos') by done. f_equal. unfold worker_id, downstream_info, deref in *.
  apply bind_Ok_inv in Hid as (m & Hm & [= <-]). rewrite Hm, bind_Ok in Hi. injection Hi as <-. simpl.
  apply idx_Ok in Hm. apply u32_of_u16. by eapply wf_u16.
Qed.

Lemma getUpstreamList_inv c name ups numUp upIds :
  getUpstreamList c name = Ok (ups, numUp) → mapR (worker_id (WM c)) ups = Ok upIds →
  ∃ upOps, upstream_tasks c name upOps upIds ∧ numUp = length upOps.
Proof.
  clear murmur marshalUint16.
  unfold getUpstreamList, must, must_or. destruct (Streams (DF c) !! name) as [dep|] eqn:Hdep; [|done]. rewrite bind_Ok.
  intros ([] & _ & (tasks & Htasks%mapR_Ok & [= <- <-])%bind_Ok_inv)%bind_Ok_inv Hids.
  exists (UpstreamOperators dep). split; [|done]. split; [by exists dep|]. exists tasks. split; [|done].
  eapply Forall2_impl; [exact Htasks|]. intros up ws Hw. cbv beta in Hw. destruct (plan_of c !! up); [|done]. by injection Hw as ->.
Qed.

(** In a run, the plan's entry of a worker counts the fast-forward orders that
    name it. *)
Lemma lazy_inbound c c' p c1 c2 ch plan numUp ups ranges updatedIds newIds removedIds curIds init ff recv upd ev :
  lazy_run c c' p c1 c2 ch plan numUp ups ranges updatedIds newIds removedIds curIds init ff recv upd ev →
  Forall2 (λ e m, ∃ ps, m = FastForward e.1 ranges ps ∧ di_WorkerId <$> ps = (go_range e.2).*1) (go_range ch) ff ∧
  ∀ w, match plan !! w with
       | Some sources => length sources = inbound_of ff w ∧ 0 < inbound_of ff w
       | None => inbound_of ff w = 0
       end.
Proof.
  intros [Hpo Hinv1 Hst Hupd _ _ _ Hpu _ Hplan _ _ _ Hff _ _ _ _].
  destruct Hpo as [Hop Hwm _ (cur & Hcur0 & _) [_ Hpl]]. apply Forall_app in Hpl as [Hpl _].
  assert (Hc1 : Operators (DF c1) !! op_Name (targetOperator p) = Some (targetOperator p) ∧
    is_Some (plan_of c1 !! op_Name (targetOperator p)))
    by (destruct Hwm as [? ->]; split; [done|by exists cur]).
  destruct (target_part c1 p Hinv1 (proj1 Hc1) Hst (proj2 Hc1)) as (cur1 & ids0 & Hcur1 & Hids0 & Hpart).
  destruct (ci_plan _ Hinv1 _ _ Hcur1) as [_ Hpl1].
  destruct (moves_registered c1 (op_Name (targetOperator p)) ids0 updatedIds ch c2 cur1
    (updatedWorkers p)) as [Hknown Hmoves]; try eassumption; [by apply ci_wm|].
  assert (Hround := fast_forward_round (WM c1) ranges ch ff (ci_wm _ Hinv1) (λ s d l Hin, proj2 (Hmoves s d l Hin)) Hff).
  destruct (GenerateMigrationPlan_Ok (WM c1) ch) as (plan' & Hp' & Hspec); [done| |].
  { intros s d l Hin. by apply (Hmoves s d l). }
  rewrite Hplan in Hp'. injection Hp' as <-. split; [done|].
  intros w. eapply plan_inbound; [exact Hspec|by eapply fast_forward_count].
Qed.

Lemma lazy_participants c rc c' p c1 c2 ch plan numUp ups ranges updatedIds newIds removedIds curIds init ff recv upd ev :
  op_Name (targetOperator p) = TargetRescaleOp rc → Z.of_nat (length (updatedWorkers p)) = TargetParallelism rc →
  lazy_run c c' p c1 c2 ch plan numUp ups ranges updatedIds newIds removedIds curIds init ff recv upd ev →
  participants c rc c' curIds newIds removedIds updatedIds.
Proof.
  intros Hname Hlen [Hpo _ _ Hupd Hnew Hrem Hcur Hpu Hset _ _ _ _ _ _ _ _ _].
  destruct Hpo as [_ [sel Hc1] _ (cur & Hc & Hcases) _].
  assert (plan_of c1 !! op_Name (targetOperator p) = Some cur) as E by (by rewrite Hc1).
  rewrite E in Hcur. cbn [default from_option id] in Hcur. unfold participants. rewrite <-Hname. split_and!.
  - exists cur. split; [done|]. rewrite Hc1 in Hcur. cbn [WM set_WM] in Hcur. by rewrite mapR_worker_id_mark in Hcur.
  - exists (updatedWorkers p). destruct Hset as [_ _ Hw _ _ Hp]. rewrite Hp, lookup_insert_eq, Hw. split; [done|].
    destruct Hpu as [(? & ? & ? & ? & _ & _ & -> & _) _ _]. done.
  - rewrite <-Hlen. apply mapR_Ok, Forall2_length in Hupd. lia.
  - assert (Happ : ∀ l k a b, mapR (worker_id (WM c1)) l = Ok a →
      mapR (worker_id (WM c1)) k = Ok b → mapR (worker_id (WM c1)) (l ++ k) = Ok (a ++ b)).
    { intros l k a b Ha%mapR_Ok Hb%mapR_Ok. apply mapR_Ok. by apply Forall2_app. }
    destruct Hcases as [(_ & Hr & Hu)|(Hn & _ & _ & Hu)].
    + left. rewrite Hr in Hrem. injection Hrem as <-. rewrite Hu, (Happ _ _ _ _ Hcur Hnew) in Hupd. by injection Hupd as <-.
    + right. rewrite Hn in Hnew. injection Hnew as <-. rewrite Hu, (Happ _ _ _ _ Hupd Hrem) in Hcur. by injection Hcur as <-.
Qed.

Lemma lazy_announced c c' p c1 c2 ch plan numUp ups ranges updatedIds newIds removedIds curIds init ff recv upd ev :
  lazy_run c c' p c1 c2 ch plan numUp ups ranges updatedIds newIds removedIds curIds init ff recv upd ev →
  msg_worker <$> init = newIds ++ curIds ∧
  Forall (announces ff numUp (i32 (Z.of_nat (length ups))) newIds curIds removedIds) init.
Proof.
  intros Hlr. pose proof (lazy_inbound _ _ _ _ _ _ _ _ _ _ _ _ _ _ _ _ _ _ _ Hlr) as [_ Hin].
  destruct Hlr as [_ _ _ _ _ _ _ _ _ _ _ _ (ta & deploys & peers & Hta & [Hd Hda]%deploy_lazy_msgs & ->) _ _ _ _ _].
  split; [rewrite fmap_app, Hd, <-list_fmap_compose; f_equal; apply list_fmap_id|]. apply Forall_app. split.
  - apply Forall_forall. intros m Hm. rewrite Forall_forall in Hda. destruct (Hda m Hm) as (w & sources & Hs & ->). simpl.
    pose proof (Hin w) as Hw. rewrite Hs in Hw. destruct Hw as [Hlen Hpos]. destruct (Hta (i32 (i32 (Z.of_nat (length ups)) + expected_inbound sources numUp)) (expected_inbound sources numUp)) as (-> & -> & ->).
    unfold expected_inbound. rewrite Hlen. split_and!; [|done..]. rewrite <-Hd. apply (list_elem_of_fmap_2 msg_worker) in Hm. exact Hm.
  - apply Forall_fmap, Forall_forall. intros w Hw. simpl. split_and!; [done|done| |done].
    pose proof (Hin w) as Hi. destruct (plan !! w) as [sources|].
    + destruct Hi as [Hlen Hpos]. destruct (Nat.eqb_spec (inbound_of ff w) 0); [lia|]. unfold expected_inbound. by rewrite Hlen.
    + by rewrite Hi.
Qed.

(** C1: the rounds of the lazy rescale protocol.  A completed rescale sends,
    in this order and each round acknowledged before the next: one
    initialization message to every present and every added task; the
    fast-forward orders; the wait for peer connections; the routing update, to
    all tasks of all upstream operators; the eventual-migration orders, if tasks
    are removed and the mode is eventual; the wait for every old and new task to
    finish; and only then the termination of exactly the removed tasks.  The
    tasks afterwards are the present ones and those added, or the present ones
    without those removed, in the demanded number.  A task is told to expect a
    drain barrier from every upstream task, and as many inbound peers as
    fast-forward orders name it times the number of upstream operators (-1 when
    none does; every added task is named).  Exactly the workers that lose a
    bucket get a fast-forward order, with the new table and the receivers of
    their buckets as peers; exactly the receivers are waited for; and the
    routing update carries the new table and the added and removed tasks. *)
Theorem lazy_rescale_rounds c rc c'
    (Hinv : coord_inv c) (Hrun : rescaleLazy murmur marshalUint16 c rc = Ok c') :
  ∃ curIds newIds removedIds updatedIds upOps upIds t t' ranges init ff recv add remove ev,
    let numUp := length upOps in
    let barriers := i32 (Z.of_nat (length upIds)) in
    let upd := (λ w, UpdateDownstreamRouting w add remove (Some ranges)) <$> upIds in
    Trace c' = Trace c ++ [init; ff; recv; upd] ++ ev ++
      [WaitAllTasksReconfigDone <$> updatedIds ++ removedIds; StopTask <$> removedIds] ∧
    participants c rc c' curIds newIds removedIds updatedIds ∧
    upstream_tasks c (TargetRescaleOp rc) upOps upIds ∧
    KeyPartitions c !! TargetRescaleOp rc = Some t ∧ KeyPartitions c' !! TargetRescaleOp rc = Some t' ∧
    Serialize t' = Ok ranges ∧
    msg_worker <$> init = newIds ++ curIds ∧
    Forall (announces ff numUp barriers newIds curIds removedIds) init ∧
    fast_forwards (Buckets t) (Buckets t') ranges ff ∧
    (∀ m, m ∈ recv ↔ ∃ w, m = WaitAllInboundPeersToConnect w ∧ 0 < inbound_of ff w) ∧
    di_WorkerId <$> add = newIds ∧ di_WorkerId <$> remove = removedIds ∧
    (if bool_decide (removedIds ≠ []) && bool_decide (CancellingTaskMigrationMode (Config c) = "eventual"%string)
     then ∃ r, ev = [r] ∧ Forall (λ m, ∃ w l, m = EventualStateMigration w l) r else ev = []).
Proof.
  destruct (lazy_decompose _ _ _ Hinv Hrun) as (p & c1 & c2 & ch & plan & numUp & ups & ranges & updatedIds &
    newIds & removedIds & curIds & init & ff & recv & upd & ev & [Hname Hlen] & Hlr).
  pose proof (lazy_participants _ _ _ _ _ _ _ _ _ _ _ _ _ _ _ _ _ _ _ _ Hname Hlen Hlr) as Hpar.
  pose proof (lazy_announced _ _ _ _ _ _ _ _ _ _ _ _ _ _ _ _ _ _ _ Hlr) as [Hworkers Hann].
  pose proof (lazy_inbound _ _ _ _ _ _ _ _ _ _ _ _ _ _ _ _ _ _ _ Hlr) as [Hround Hin].
  destruct Hlr as [Hpo Hinv1 Hst Hupd Hnew Hrem _ Hpu Hset _ Hups (t2 & Ht2 & Hranges) _ _ -> (upIds & add & rm & [Hids Hadd Hrm _] & ->) Hev Htr].
  destruct Hpu as [(t & hist & t' & hist' & Ht & _ & Hc2 & _ & Hch & _) _ _]. destruct Hpo as [_ [sel Hc1] _ _ _].
  destruct (getUpstreamList_inv _ _ _ _ _ Hups Hids) as (upOps & [Hdep (tasks & Htasks & Htids)] & ->). rewrite Hname in *.
  assert (Hwm : WM c2 = WM c1 ∧ t2 = t') by (rewrite Hc2 in Ht2 |- *; cbn [KeyPartitions set_Partitions] in Ht2; rewrite lookup_insert_eq in Ht2; by injection Ht2).
  destruct Hwm as [Hwm ->]. rewrite Hwm in *.
  exists curIds, newIds, removedIds, updatedIds, upOps, upIds, t, t', ranges, init, ff,
    (WaitAllInboundPeersToConnect <$> (go_range plan).*1), add, rm, ev.
  assert (Hl : length ups = length upIds) by (by apply mapR_Ok, Forall2_length in Hids). rewrite Hl in Hann.
  split_and!; try done.
  - rewrite Hc2, Hc1 in Hdep. split; [exact Hdep|]. exists tasks. rewrite Hc2, Hc1 in Htasks. split; [exact Htasks|].
    rewrite Hc1 in Htids. cbn [WM set_WM] in Htids. by rewrite mapR_worker_id_mark in Htids.
  - by rewrite Hc1 in Ht.
  - destruct Hset as [_ _ _ Hk _ _]. by rewrite Hk.
  - by eapply fast_forwards_round.
  - intros m. rewrite list_elem_of_fmap. split.
    + intros (w & -> & Hw%go_range_keys). exists w. split; [done|].
      pose proof (Hin w) as Hi. destruct Hw as [? Hw]. rewrite Hw in Hi. by destruct Hi.
    + intros (w & -> & Hw). exists w. split; [done|]. apply go_range_keys.
      pose proof (Hin w) as Hi. destruct (plan !! w); [eauto|lia].
  - eapply downstream_ids; [by apply ci_wm|exact Hnew|exact Hadd].
  - eapply downstream_ids; [by apply ci_wm|exact Hrem|exact Hrm].
  - assert (bool_decide (removedIds ≠ []) = bool_decide (0 < length (removedWorkers p))) as ->; [|exact Hev].
    apply bool_decide_ext. apply mapR_Ok, Forall2_length in Hrem. rewrite Hrem. destruct removedIds; simpl; split; (lia || done).
Qed.
End Protocol.
