(* ===== verification/Lifecycle.v ===== *)
(** * Life cycle of a job

    From registration and job start through any sequence of further
    registrations and rescales: every state the coordinator reaches satisfies
    its invariant, so every key of a stateful operator is routed to a worker
    that currently runs one of the operator's tasks. *)

From stdpp Require Import prelude gmap strings list sorting.
From Stdlib Require Import ZArith Lia.
From S2P Require Import Prelude Partition EvenPartition PartitionTable WorkerManager Coordinator Rescale Protocol.

(** ** Placement by address, with no assumption on the counts *)

Lemma take_available_inv w ps sel r :
  ∃ ex r', take_available w ps sel r = (set_heap w (foldl mark_busy (heap w) ex), sel ++ ex, r') ∧
    NoDup ex ∧ ∀ p, p ∈ ex → available w p = true ∧ p ∈ ps.
Proof.
  revert w sel r. induction ps as [|p ps IH]; intros w sel r; cbn [take_available].
  { exists [], r. rewrite app_nil_r. split_and!; [by destruct w|constructor|set_solver]. }
  destruct (available w p) eqn:Ha.
  - destruct (Z.eqb_spec (r - 1) 0).
    + exists [p], (r - 1)%Z. split_and!; [done|apply NoDup_singleton|].
      intros q ->%list_elem_of_singleton. split; [done|by left].
    + destruct (IH (set_heap w (mark_busy (heap w) p)) (sel ++ [p]) (r - 1)%Z)
        as (ex & r' & Heq & Hnd & Hin).
      assert (Hav : ∀ q, q ∈ ex → available w q = true ∧ q ≠ p).
      { intros q [Hq _]%Hin. pose proof (mark_all_available w [p] q) as Hm.
        cbn [foldl] in Hm. rewrite Hq in Hm. symmetry in Hm.
        apply andb_true_iff in Hm as [Hq1 Hq2]. split; [done|].
        apply negb_true_iff, bool_decide_eq_false in Hq2. set_solver. }
      exists (p :: ex), r'. split_and!.
      * rewrite Heq, <-app_assoc. done.
      * constructor; [|done]. intros [_ ?]%Hav. done.
      * intros q [->|Hq]%elem_of_cons; [split; [done|by left]|].
        split; [by apply Hav|]. right. by apply Hin.
  - destruct (IH w sel r) as (ex & r' & Heq & Hnd & Hin). exists ex, r'.
    split_and!; [done..|]. intros q Hq. split; [by apply Hin|]. right. by apply Hin.
Qed.

Lemma AllocateSpecifiedWorkers_inv `{GoRange} w n addrs w' sel :
  AllocateSpecifiedWorkers w n addrs = Ok (w', sel) →
  w' = set_heap w (foldl mark_busy (heap w) sel) ∧ NoDup sel ∧
  ∀ p, p ∈ sel → available w p = true ∧ ∃ ip ps, WorkersByIP w !! ip = Some ps ∧ p ∈ ps.
Proof.
  unfold AllocateSpecifiedWorkers. intros ([] & _ & ([] & _ & Hf)%bind_Ok_inv)%bind_Ok_inv.
  revert Hf. apply (foldM_inv (allocate_ip addrs) (λ _ st,
    st.1 = set_heap w (foldl mark_busy (heap w) st.2) ∧ NoDup st.2 ∧
    ∀ p, p ∈ st.2 → available w p = true ∧ ∃ ip ps, WorkersByIP w !! ip = Some ps ∧ p ∈ ps)).
  { split_and!; [by destruct w|constructor|set_solver]. }
  intros pre ip [w1 s1] [w2 s2] _ (Hw1 & Hnd & Hin). unfold allocate_ip. cbn [fst snd] in *.
  destruct (WorkersByIP w1 !! ip) as [ps|] eqn:Hps; [|done]. rewrite bind_Ok.
  destruct (take_available_inv w1 ps s1 (default 0%Z (addrs !! ip)))
    as (ex & r' & -> & Hndx & Hinx).
  intros ([] & _ & [= <- <-])%bind_Ok_inv.
  assert (Hav : ∀ p, p ∈ ex → available w p = true ∧ p ∉ s1 ∧ p ∈ ps).
  { intros p [Ha Hp]%Hinx. rewrite Hw1, mark_all_available in Ha.
    apply andb_true_iff in Ha as [Ha Hn]. apply negb_true_iff, bool_decide_eq_false in Hn. done. }
  split_and!.
  - rewrite Hw1. cbn [heap set_heap]. by rewrite foldl_app.
  - apply NoDup_app. split_and!; [done| |done]. intros p Hp Hx. by apply (Hav p Hx).
  - intros p [Hp|Hp]%elem_of_app; [by apply Hin|]. destruct (Hav p Hp) as (Ha & _ & Hpp).
    split; [done|]. exists ip, ps. by rewrite Hw1 in Hps.
Qed.

(** ** Job start *)

Section Lifecycle.
Context (murmur : Z → HashFunc) (marshalUint16 : Z → bytes).
Context `{GoRange, SortTokens, SortWorkers}.

Definition small (w : WorkerManager) : Prop := (Z.of_nat (length (heap w)) < 2 ^ 16)%Z.

(** A manager and a plan under construction. *)
Definition plan_ok (st : WorkerManager * gmap string (list ptr)) : Prop :=
  wm_wf st.1 ∧ small st.1 ∧
  ∀ n ws, st.2 !! n = Some ws → NoDup ws ∧ Forall (placed st.1) ws.

Lemma small_mark w ps : small w → small (set_heap w (foldl mark_busy (heap w) ps)).
Proof.
  unfold small, set_heap. cbn [heap]. generalize (heap w).
  induction ps as [|p ps IH]; intros h Hh; simpl; [done|]. apply IH. unfold mark_busy.
  by rewrite length_alter.
Qed.

Lemma plan_ok_insert w plan id sel :
  plan_ok (w, plan) → NoDup sel →
  (∀ p, p ∈ sel → placed (set_heap w (foldl mark_busy (heap w) sel)) p) →
  plan_ok (set_heap w (foldl mark_busy (heap w) sel), <[id := sel]> plan).
Proof.
  intros (Hwf & Hsm & Hplan) Hnd Hsel. split_and!; cbn [fst snd] in *.
  - by apply mark_all_wf.
  - by apply small_mark.
  - intros n ws. destruct (decide (n = id)) as [->|Hn].
    + rewrite lookup_insert_eq. intros [= <-]. split; [done|]. by apply Forall_forall.
    + rewrite lookup_insert_ne by done. intros (Hnd' & Hpl)%Hplan. split; [done|].
      eapply Forall_impl; [exact Hpl|]. intros. by apply placed_mark.
Qed.

Lemma placement_ok loadedPlan c c' :
  wm_wf (WM c) → small (WM c) → GetTaskPlacementPlan loadedPlan c = Ok c' →
  ∃ wm plan, c' = set_Plan (set_WM c wm) plan ∧ plan_ok (wm, plan).
Proof.
  intros Hwf Hsm. assert (Hempty : plan_ok (WM c, ∅)) by (split_and!; done).
  unfold GetTaskPlacementPlan. case_bool_decide; [|case_bool_decide; [|done]].
  - unfold setRandomTaskPlacementPlan. intros ([wm plan] & Hf & [= <-])%bind_Ok_inv.
    exists wm, plan. split; [done|]. revert Hf. apply (foldM_inv _ (λ _, plan_ok)); [done|].
    intros pre [id op] [w1 p1] st2 _ Hok. intros ([w2 ws] & Ha & [= <-])%bind_Ok_inv.
    destruct (AllocateRandomWorkers_inv _ _ _ _ (proj1 Hok) Ha) as (-> & _ & Hnd & Hav).
    apply plan_ok_insert; [done..|]. intros p Hp. apply placed_selected; [apply Hok|done|done].
  - unfold setCustomTaskPlacementPlan. intros ([wm plan] & Hf & [= <-])%bind_Ok_inv.
    exists wm, plan. split; [done|]. revert Hf. apply (foldM_inv _ (λ _, plan_ok)); [done|].
    intros pre name [w1 p1] st2 _ Hok. intros (op & _ & Hrun)%bind_Ok_inv.
    apply bind_Ok_inv in Hrun as (addrs & _ & Hrun).
    apply bind_Ok_inv in Hrun as ([w2 ws] & Ha & [= <-]).
    apply AllocateSpecifiedWorkers_inv in Ha as (-> & Hnd & Hav).
    apply plan_ok_insert; [done..|]. intros p Hp. apply placed_selected; [apply Hok| |done].
    intros q Hq. destruct (Hav q Hq) as (Haq & ip & ps & Hps & Hin).
    apply elem_of_availableWorkers. split; [done|].
    destruct Hok as (Hwf1 & Hsm1 & _). cbn [fst] in *.
    destruct (proj2 (wf_ips _ Hwf1 _ _ Hps) q Hin) as (m & Hm & _).
    destruct (proj2 (wf_registered _ Hwf1 Hsm1) q m Hm) as [_ Hw]. eauto.
Qed.

Lemma init_key_partition_Ok c n ws c' :
  init_key_partition murmur marshalUint16 c (n, ws) = Ok c' →
  Config c' = Config c ∧ DF c' = DF c ∧ WM c' = WM c ∧ plan_of c' = plan_of c ∧
  (∀ n', n' ≠ n → KeyPartitions c' !! n' = KeyPartitions c !! n' ∧
     BucketOwnerHistory c' !! n' = BucketOwnerHistory c !! n') ∧
  (∀ op ids, Operators (DF c) !! n = Some op → op_Stateful op = true →
     mapR (worker_id (WM c)) ws = Ok ids → part_ok c' n ids).
Proof.
  unfold init_key_partition, must. destruct (Operators (DF c) !! n) as [op|] eqn:Hop; [|done].
  rewrite bind_Ok. destruct (op_Stateful op) eqn:Hst.
  2:{ intros [= <-]. split_and!; [done..|]. intros op' ids [= <-]. congruence. }
  intros (ids & Hids & Hrun)%bind_Ok_inv. apply bind_Ok_inv in Hrun as (P & HP & Hrun).
  apply select_policy_laws in HP as [Hlaws _].
  apply bind_Ok_inv in Hrun as (h & _ & Hrun). apply bind_Ok_inv in Hrun as (t & Ht & Hrun).
  pose proof (NewPartitionTable_shape _ _ _ _ _ Ht) as (_ & Hlen & Hown).
  set (hist := (λ owner, {[ owner ]} : gset Z) <$> Buckets t) in *.
  set (c1 := set_Partitions c (<[n := t]> (KeyPartitions c)) (<[n := hist]> (BucketOwnerHistory c))) in *.
  assert (Hpart : part_ok c1 n ids).
  { exists t, hist. cbn [KeyPartitions BucketOwnerHistory c1 set_Partitions].
    rewrite !lookup_insert_eq. unfold hist. rewrite length_fmap. split_and!; [done..|].
    intros i w h' Hw Hh'. rewrite list_lookup_fmap, Hw in Hh'. injection Hh' as <-. set_solver. }
  assert (Hc' : c' = c1 ∨ ∃ l, c' = set_Lookup c1 l).
  { case_bool_decide; [|injection Hrun as <-; by left]. right.
    apply bind_Ok_inv in Hrun as (lk & _ & Hrun).
    apply bind_Ok_inv in Hrun as (t2 & _ & [= <-]). eauto. }
  destruct Hc' as [->|[l ->]]; (split_and!; [done..| |]);
    try (intros n' Hn'; cbn [KeyPartitions BucketOwnerHistory c1 set_Partitions set_Lookup];
         by rewrite !lookup_insert_ne by done);
    intros op' ids' [= <-] _ Hids'; rewrite Hids in Hids'; injection Hids' as <-; exact Hpart.
Qed.

(** Job start establishes the invariant. *)
Lemma RunJob_inv loadedPlan c c' :
  wm_wf (WM c) → small (WM c) →
  (∀ n op, Operators (DF c) !! n = Some op → op_Name op = n) →
  RunJob murmur marshalUint16 loadedPlan c = Ok (inr c') → coord_inv c'.
Proof.
  intros Hwf Hsm Hnames. unfold RunJob. destruct (_ <? _)%Z; [done|].
  intros (c1 & Hp & Hrun)%bind_Ok_inv.
  destruct (placement_ok _ _ _ Hwf Hsm Hp) as (wm & plan & -> & Hwm & _ & Hplan). clear Hp.
  apply bind_Ok_inv in Hrun as (c2 & Hinit & Hrun).
  apply bind_Ok_inv in Hrun as (c3 & Hstart & [= <-]). unfold StartJob in Hstart.
  apply bind_Ok_inv in Hstart as (msgs & _ & [= <-]). rewrite send_round_with.
  apply with_rounds_inv. unfold InitKeyPartitions in Hinit.
  cbn [TaskPlacementPlan set_Plan] in Hinit. rewrite bind_Ok in Hinit.
  set (c1 := set_Plan (set_WM c wm) plan) in *.
  assert (Hinv : (Config c2 = Config c1 ∧ DF c2 = DF c1 ∧ WM c2 = WM c1 ∧ plan_of c2 = plan_of c1) ∧
    ∀ n ws op ids, (n, ws) ∈ go_range plan → Operators (DF c) !! n = Some op →
      op_Stateful op = true → mapR (worker_id wm) ws = Ok ids → part_ok c2 n ids).
  { revert Hinit. apply (foldM_inv (init_key_partition murmur marshalUint16) (λ pre c2,
      (Config c2 = Config c1 ∧ DF c2 = DF c1 ∧ WM c2 = WM c1 ∧ plan_of c2 = plan_of c1) ∧
      ∀ n ws op ids, (n, ws) ∈ pre → Operators (DF c) !! n = Some op →
        op_Stateful op = true → mapR (worker_id wm) ws = Ok ids → part_ok c2 n ids)).
    { split; [done|]. set_solver. }
    intros pre [n ws] s1 s2 Hpre [(Hc & Hdf & Hw & Hpl) Hparts] Hstep.
    destruct (init_key_partition_Ok _ _ _ _ Hstep) as (Hc' & Hdf' & Hw' & Hpl' & Hother & Hnew).
    split; [split_and!; congruence|]. intros n' ws' op ids Hin Hop Hst Hids.
    apply elem_of_app in Hin as [Hin|Hin].
    - assert (Hne : n' ≠ n).
      { intros ->. pose proof (NoDup_go_range plan) as Hnd. destruct Hpre as [rest Hr].
        rewrite Hr, fmap_app, fmap_app in Hnd. apply NoDup_app_l in Hnd.
        apply NoDup_app in Hnd as (_ & Hdis & _). apply (Hdis n); [|set_solver].
        apply list_elem_of_fmap. by exists (n, ws'). }
      destruct (Hother n' Hne) as [Hk Hh].
      eapply part_ok_ext; [exact Hc'|exact Hk|exact Hh|]. by eapply Hparts.
    - apply list_elem_of_singleton in Hin as [= -> ->]. eapply Hnew; [|exact Hst|].
      + by rewrite Hdf.
      + by rewrite Hw. }
  destruct Hinv as [(Hc & Hdf & Hw & Hpl) Hparts].
  split; rewrite ?Hw, ?Hdf, ?Hpl; cbn [WM DF c1 set_Plan set_WM plan_of TaskPlacementPlan default from_option id].
  - done.
  - done.
  - exact Hplan.
  - intros n op ws ids Hop Hst Hws Hids. eapply Hparts; [by apply elem_of_go_range|done..].
Qed.

(** ** Steps between API calls *)

Lemma set_InProgress_inv c b : coord_inv c → coord_inv (set_InProgress c b).
Proof. intros [? ? ? ?]. by split. Qed.

Lemma Rescale_inv c rc c' :
  coord_inv c → Rescale murmur marshalUint16 c rc = (Ok (inr tt), c') → coord_inv c'.
Proof.
  intros Hinv. unfold Rescale. destruct (ReconfigInProgress c); [done|].
  cbn [TaskPlacementPlan set_InProgress].
  destruct (TaskPlacementPlan c); [|done].
  pose proof (set_InProgress_inv c true Hinv) as Hinv1.
  case_bool_decide; [|case_bool_decide; [|done]].
  - destruct (rescaleStopAndRestart _ _ _ _) as [c2|] eqn:E; [|done]. intros [= <-].
    apply set_InProgress_inv. by eapply stop_and_restart_inv.
  - destruct (rescaleLazy _ _ _ _) as [c2|] eqn:E; [|done]. intros [= <-].
    apply set_InProgress_inv. by eapply lazy_inv.
Qed.

(** Registration of another worker while a job runs. *)
Lemma register_placed w m p :
  wm_wf w → small w → placed w p → placed (AddWorker w m) p.
Proof.
  intros Hwf Hsm [Ha (mw & Hm & Hw)]. pose proof (lookup_lt_Some _ _ _ Hm) as Hlt. split.
  - unfold available, AddWorker in *. cbn [heap] in *. by rewrite lookup_app_l by done.
  - exists mw. unfold AddWorker. cbn [heap Workers]. split; [by apply lookup_app_l_Some|].
    destruct (wf_registered _ Hwf Hsm) as [Hn Hall]. destruct (Hall _ _ Hm) as [Hid _].
    rewrite lookup_insert_ne; [done|]. rewrite Hn, Hid. lia.
Qed.

Lemma register_ids w m ws :
  Forall (placed w) ws →
  mapR (worker_id (AddWorker w m)) ws = mapR (worker_id w) ws.
Proof.
  induction 1 as [|p ws (_ & mw & Hm & _) _ IH]; cbn [mapR]; [done|].
  assert (worker_id (AddWorker w m) p = worker_id w p) as ->; [|by rewrite IH].
  unfold worker_id, deref, idx, AddWorker. cbn [heap].
  by rewrite (lookup_app_l_Some _ _ _ _ Hm), Hm.
Qed.

Lemma register_inv c m :
  coord_inv c → small (WM c) → coord_inv (set_WM c (AddWorker (WM c) m)).
Proof.
  intros [Hwm Hnames Hplan Hpart] Hsm. split; cbn [WM DF set_WM].
  - by apply AddWorker_wf.
  - done.
  - intros n ws (Hnd & Hpl)%Hplan. split; [done|]. eapply Forall_impl; [exact Hpl|].
    intros. by apply register_placed.
  - intros n op ws ids Hop Hst Hws. destruct (Hplan n ws Hws) as [_ Hpl].
    rewrite register_ids by done. by apply (Hpart n op ws ids).
Qed.

(** ** Reachable states *)

(** A job is started on a coordinator with some registered workers; then
    workers register (fewer than 2^16 in all) and rescales are requested, in
    any order. *)
Inductive reachable : Coordinator → Prop :=
  | reach_run config df regs loadedPlan c' :
      (∀ n op, Operators df !! n = Some op → op_Name op = n) →
      (Z.of_nat (length regs) < 2 ^ 16)%Z →
      RunJob murmur marshalUint16 loadedPlan
        (set_WM (NewCoordinator config df) (foldl register NewWorkerManager regs)) =
        Ok (inr c') →
      reachable c'
  | reach_register c ip dp sp :
      reachable c → small (WM c) →
      reachable (set_WM c (RegisterToCoordinator (WM c) ip dp sp))
  | reach_rescale c rc c' :
      reachable c → Rescale murmur marshalUint16 c rc = (Ok (inr tt), c') → reachable c'.

Lemma reachable_inv c : reachable c → coord_inv c.
Proof.
  induction 1 as [config df regs lp c' Hn Hl Hrun|c ip dp sp _ IH Hsm|c rc c' _ IH Hr].
  - eapply RunJob_inv; [| | |exact Hrun]; cbn [WM DF set_WM NewCoordinator].
    + apply register_wf, NewWorkerManager_wf.
    + unfold small. by rewrite register_length.
    + exact Hn.
  - by apply register_inv.
  - by eapply Rescale_inv.
Qed.

(** C2: in every state reachable by starting a job, registering workers and
    completing rescales of either protocol, a stateful operator's partition
    table routes every key, and the worker it routes to is registered and
    currently runs one of the operator's tasks; it also stands in the owner
    history of the key's bucket. *)
Theorem reachable_routing c n op ws key
    (Hreach : reachable c) (Hop : Operators (DF c) !! n = Some op)
    (Hst : op_Stateful op = true) (Hws : plan_of c !! n = Some ws)
    (Hnb : 0 < nbuckets c) :
  ∃ t hist i w p h,
    KeyPartitions c !! n = Some t ∧ BucketOwnerHistory c !! n = Some hist ∧
    bucket_of_key (H t) (nbuckets c) key = Ok i ∧ KeyToWorkerID t key = Ok w ∧
    GetWorker (WM c) w = Ok p ∧ p ∈ ws ∧ available (WM c) p = false ∧
    hist !! i = Some h ∧ w ∈ h.
Proof.
  pose proof (reachable_inv _ Hreach) as Hinv.
  destruct (ci_plan _ Hinv _ _ Hws) as [Hnd Hpl].
  destruct (placed_ids _ _ Hpl Hnd) as (ids & Hids & _ & Hin).
  destruct (ci_part _ Hinv _ _ _ _ Hop Hst Hws Hids)
    as (t & hist & Ht & Hh & Hlen & Hhl & Hown & Hhist).
  destruct (KeyToWorkerID_Ok (H t) (Buckets t) key) as (i & w & Hi & Hw & Hk).
  { intros E. rewrite E in Hlen. simpl in Hlen. lia. }
  destruct (lookup_lt_is_Some_2 hist i) as [h Hhi].
  { apply lookup_lt_Some in Hw. lia. }
  rewrite Forall_forall in Hown.
  destruct (proj1 (Hin w)) as (p & Hp & Hid); [by eapply Hown, list_elem_of_lookup_2|].
  rewrite Forall_forall in Hpl. destruct (placed_id _ _ (Hpl p Hp)) as (id & Hid' & Hwk).
  assert (id = w) as -> by congruence.
  exists t, hist, i, w, p, h. rewrite Hlen in Hi.
  split_and!; [done|done|done|by destruct t| |done| |done|by eapply Hhist].
  - unfold GetWorker. by rewrite Hwk.
  - by apply (Hpl p Hp).
Qed.
End Lifecycle.

(** ** A concrete job *)

Definition demo_config : Configuration :=
  MkConfig "consistent-even" "lazy" "by-key" "eventual" "random" "murmurhash" 1 1 [1]%Z 8.

Definition demo_df : Dataflow := MkDataflow
  (<["src" := MkOperator "src" 1 false true]>
   (<["count" := MkOperator "count" 2 true false]>
    (<["sink" := MkOperator "sink" 1 false false]> ∅)))
  (<["src" := MkDependency [] ["count"]]>
   (<["count" := MkDependency ["src"] ["sink"]]>
    (<["sink" := MkDependency ["count"] []]> ∅))).

Definition job_regs : list (string * string * string) :=
  [("h", "1", "101"); ("h", "2", "102"); ("h", "3", "103");
   ("h", "4", "104"); ("h", "5", "105"); ("h", "6", "106")].

Definition job_start : Coordinator :=
  set_WM (NewCoordinator demo_config demo_df) (foldl register NewWorkerManager job_regs).

(** The state after job start, and after a scale-up and a scale-down. *)
Definition job_run : Coordinator :=
  match RunJob toy_hash toy_marshal ∅ job_start with
  | Ok (inr c) => c | _ => job_start
  end.
Definition job_up : Coordinator :=
  match rescaleLazy toy_hash toy_marshal job_run (MkRescale "count" 3) with
  | Ok c => c | _ => job_run
  end.
Definition job_down : Coordinator :=
  (Rescale toy_hash toy_marshal job_run (MkRescale "count" 1)).2.

Example job_run_ok : is_ok (RunJob toy_hash toy_marshal ∅ job_start) = true.
Proof. vm_compute. reflexivity. Qed.
Example job_up_trace :
  length (Trace job_up) = 7 ∧ length (Trace job_down) = 8.
Proof. vm_compute. split; reflexivity. Qed.

Lemma demo_df_names n op : Operators demo_df !! n = Some op → op_Name op = n.
Proof.
  unfold demo_df. cbn [Operators].
  intros [[<- <-]|[_ Hn]]%lookup_insert_Some; [done|].
  apply lookup_insert_Some in Hn as [[<- <-]|[_ Hn]]; [done|].
  apply lookup_insert_Some in Hn as [[<- <-]|[_ Hn]]; [done|]. by rewrite lookup_empty in Hn.
Qed.

Lemma job_run_eq : RunJob toy_hash toy_marshal ∅ job_start = Ok (inr job_run).
Proof.
  unfold job_run. destruct (RunJob toy_hash toy_marshal ∅ job_start) as [[e|c]|e] eqn:E;
    [|done|].
  - assert (Hc : match RunJob toy_hash toy_marshal ∅ job_start with
      | Ok (inr _) => true | _ => false end = true) by (vm_compute; reflexivity).
    rewrite E in Hc. discriminate.
  - apply (f_equal is_ok) in E. vm_compute in E. discriminate.
Qed.

Lemma job_run_reachable : reachable toy_hash toy_marshal job_run.
Proof.
  apply (reach_run _ _ demo_config demo_df job_regs ∅).
  - apply demo_df_names.
  - vm_compute. reflexivity.
  - apply job_run_eq.
Qed.

Lemma job_down_reachable : reachable toy_hash toy_marshal job_down.
Proof.
  apply (reach_rescale _ _ job_run (MkRescale "count" 1)); [apply job_run_reachable|].
  unfold job_down.
  destruct (Rescale toy_hash toy_marshal job_run (MkRescale "count" 1)) as [r c] eqn:E. simpl.
  f_equal. assert (Hc : match (Rescale toy_hash toy_marshal job_run (MkRescale "count" 1)).1 with
    | Ok (inr tt) => true | _ => false end = true) by (vm_compute; reflexivity).
  rewrite E in Hc. simpl in Hc. destruct r as [[?|[]]|?]; done.
Qed.

Lemma job_up_eq :
  rescaleLazy toy_hash toy_marshal job_run (MkRescale "count" 3) = Ok job_up.
Proof.
  unfold job_up.
  destruct (rescaleLazy toy_hash toy_marshal job_run (MkRescale "count" 3)) eqn:E; [done|].
  apply (f_equal is_ok) in E. vm_compute in E. discriminate.
Qed.

Lemma reachable_routing_witness :
  ∃ t w p, KeyPartitions job_down !! "count" = Some t ∧
    KeyToWorkerID t [1; 2; 3]%Z = Ok w ∧ GetWorker (WM job_down) w = Ok p ∧ p ∈ [2].
Proof.
  destruct (reachable_routing toy_hash toy_marshal job_down "count"
    (MkOperator "count" 2 true false) [2] [1; 2; 3]%Z job_down_reachable)
    as (t & hist & i & w & p & h & Ht & _ & _ & Hk & Hg & Hp & _).
  - vm_compute. reflexivity.
  - reflexivity.
  - vm_compute. reflexivity.
  - vm_compute. lia.
  - exists t, w, p. split; [exact Ht|]. split; [exact Hk|]. split; [exact Hg|exact Hp].
Defined.

Lemma lazy_rescale_rounds_witness :
  ∃ curIds newIds init ff t t' ranges, msg_worker <$> init = newIds ++ curIds ∧ length (curIds ++ newIds) = 3 ∧
    fast_forwards (Buckets t) (Buckets t') ranges ff ∧ init ∈ Trace job_up ∧ ff ∈ Trace job_up.
Proof.
  destruct (lazy_rescale_rounds toy_hash toy_marshal job_run (MkRescale "count" 3) job_up
    (reachable_inv _ _ _ job_run_reachable) job_up_eq)
    as (cur & new & rem & up & upOps & upIds & t & t' & ranges & init & ff & recv & add & remove & ev &
        Htr & (_ & _ & Hlen & Hcases) & _ & _ & _ & _ & Hinit & _ & Hff & _).
  exists cur, new, init, ff, t, t', ranges.
  assert (Hlast : last (Trace job_up) = Some []) by (vm_compute; reflexivity).
  rewrite Htr, !last_app in Hlast. simpl in Hlast. destruct rem; [|discriminate Hlast].
  assert (up = cur ++ new) as Hup by (destruct Hcases as [[_ ->]|[-> ->]]; [reflexivity|by rewrite !app_nil_r]).
  split; [exact Hinit|]. split; [rewrite <-Hup; simpl in Hlen; lia|]. split; [exact Hff|]. rewrite Htr.
  split; apply elem_of_app; right; apply elem_of_app; left; [left|right; left].
Defined.
