(* ===== verification/Codec.v ===== *)
(** * Tuple codec

    [internal/network/codec.go]: an encoder, a decoder and a sizer are built
    once per tuple type from its field kinds, and then run per tuple.  The
    primitive encodings are those of the mus-go library, a parameter with the
    documented behaviour as laws ([Mus], [MusLaws]).  The main result is that
    the three functions agree: the sizer gives the exact length, the encoder
    writes that many bytes, the decoder reads the tuple back whatever
    follows. *)

From stdpp Require Import prelude gmap strings list.
From Stdlib Require Import ZArith Lia.
From S2P Require Import Prelude.

(** ** Kinds and tuples *)

(** [reflect.Kind]: the kinds the code distinguishes, and one for the rest. *)
Inductive Kind :=
  | KBool | KInt | KInt8 | KInt16 | KInt32 | KInt64
  | KUint | KUint8 | KUint16 | KUint32 | KUint64
  | KFloat32 | KFloat64 | KString
  | KOther (name : string).

#[export] Instance Kind_eq_dec : EqDecision Kind.
Proof. solve_decision. Defined.

Definition SupportedKind (kind : Kind) : bool :=
  match kind with KOther _ => false | _ => true end.

(** The number types and their ranges; a float is its IEEE bit pattern. *)
Definition num_range (kind : Kind) : option (Z * Z) :=
  match kind with
  | KInt | KInt64 => Some (- 2 ^ 63, 2 ^ 63)%Z
  | KInt8 => Some (- 2 ^ 7, 2 ^ 7)%Z
  | KInt16 => Some (- 2 ^ 15, 2 ^ 15)%Z
  | KInt32 => Some (- 2 ^ 31, 2 ^ 31)%Z
  | KUint | KUint64 | KFloat64 => Some (0, 2 ^ 64)%Z
  | KUint8 => Some (0, 2 ^ 8)%Z
  | KUint16 => Some (0, 2 ^ 16)%Z
  | KUint32 | KFloat32 => Some (0, 2 ^ 32)%Z
  | KBool | KString | KOther _ => None
  end.

(** A Go type of a field: the predeclared type of its kind, or a defined type
    such as [time.Duration] with its name. *)
Record GoType := MkGoType { gt_Name : option string; gt_Kind : Kind }.

#[export] Instance GoType_eq_dec : EqDecision GoType.
Proof. solve_decision. Defined.

Definition predeclared (kind : Kind) : GoType := MkGoType None kind.

(** A field's value, with its dynamic type; [FNamed] is a value of a defined
    type. *)
Inductive field :=
  | FBool (b : bool)
  | FNum (kind : Kind) (z : Z)
  | FString (s : bytes)
  | FNamed (name : string) (f : field).

#[export] Instance field_eq_dec : EqDecision field.
Proof. solve_decision. Defined.

#[export] Instance Kind_countable : Countable Kind.
Proof.
  refine (inj_countable' (λ k, match k with
    | KBool => inl 0 | KInt => inl 1 | KInt8 => inl 2 | KInt16 => inl 3
    | KInt32 => inl 4 | KInt64 => inl 5 | KUint => inl 6 | KUint8 => inl 7
    | KUint16 => inl 8 | KUint32 => inl 9 | KUint64 => inl 10 | KFloat32 => inl 11
    | KFloat64 => inl 12 | KString => inl 13 | KOther n => inr n end)
   (λ x, match x with
    | inl 0 => KBool | inl 1 => KInt | inl 2 => KInt8 | inl 3 => KInt16
    | inl 4 => KInt32 | inl 5 => KInt64 | inl 6 => KUint | inl 7 => KUint8
    | inl 8 => KUint16 | inl 9 => KUint32 | inl 10 => KUint64 | inl 11 => KFloat32
    | inl 12 => KFloat64 | inl _ => KString | inr n => KOther n end) _).
  by intros [].
Defined.

#[export] Instance field_countable : Countable field.
Proof.
  refine (inj_countable' (fix enc f := match f with
    | FBool b => ([], inl b) | FNum k z => ([], inr (inl (k, z))) | FString s => ([], inr (inr s))
    | FNamed n f => (n :: (enc f).1, (enc f).2) end)
   (λ x, foldr FNamed (match x.2 with
    | inl b => FBool b | inr (inl (k, z)) => FNum k z | inr (inr s) => FString s end) x.1) _).
  intros f. induction f as [| | |n f IH]; [done..|]. simpl. by f_equal.
Defined.

(** The value is one of the kind's predeclared type; a Go string is shorter than
    2^63. *)
Definition has_kind (kind : Kind) (f : field) : bool :=
  match f with
  | FBool _ => bool_decide (kind = KBool)
  | FNum k z => bool_decide (k = kind) &&
      match num_range kind with
      | Some (lo, hi) => (lo <=? z)%Z && (z <? hi)%Z
      | None => false
      end
  | FString s => bool_decide (kind = KString) && (Z.of_nat (length s) <? 2 ^ 63)%Z
  | FNamed _ _ => false
  end.

Definition has_type (ty : GoType) (f : field) : bool :=
  match gt_Name ty, f with
  | None, f => has_kind (gt_Kind ty) f
  | Some n, FNamed n' f => bool_decide (n = n') && has_kind (gt_Kind ty) f
  | Some _, _ => false
  end.

(** The memory of a value is that of its underlying type. *)
Fixpoint underlying (f : field) : field :=
  match f with FNamed _ f => underlying f | f => f end.

(** A tuple struct: its fields and the timestamp.  Its type is the list of its
    field types; [reflect] also lists the timestamp, which the codec counts
    off ([NumField() - 1]). *)
Record Tuple := MkTuple { fields : list field; timestamp : Z }.

Definition typed (tupleType : list GoType) (t : Tuple) : Prop :=
  Forall2 (λ ty f, has_type ty f = true) tupleType (fields t) ∧ is_i64 (timestamp t).

(** A tuple whose field types are predeclared, given by their kinds. *)
Definition well_typed (tupleType : list Kind) (t : Tuple) : Prop :=
  Forall2 (λ k f, has_kind k f = true) tupleType (fields t) ∧ is_i64 (timestamp t).

(** [Tuple.GetField]: out of range ends the process. *)
Definition GetField (t : Tuple) (i : nat) : res field :=
  match fields t !! i with
  | Some f => Ok f
  | None => Crash (Fatal "Tuple index out of range")
  end.

(** The field's static type, which a typed value carries along. *)
Fixpoint kind_of (f : field) : Kind :=
  match f with FBool _ => KBool | FNum k _ => k | FString _ => KString | FNamed _ f => kind_of f end.

Definition type_of (f : field) : GoType :=
  match f with FNamed n f => MkGoType (Some n) (kind_of f) | f => predeclared (kind_of f) end.

(** [Tuple.SetField]: the type assertion [val.(T)] asks for the field's very
    type; a wrong type or index is an error, which the decoder ignores; the
    tuple is then unchanged. *)
Definition SetField (t : Tuple) (i : nat) (v : field) : Tuple :=
  match fields t !! i with
  | Some f => if bool_decide (type_of f = type_of v)
              then MkTuple (<[i := v]> (fields t)) (timestamp t) else t
  | None => t
  end.

(** [Tuple.New]: the zero value of the type. *)
Definition zero_field (kind : Kind) : field :=
  match kind with
  | KBool => FBool false
  | KString => FString []
  | k => FNum k 0
  end.

Definition Tuple_New (tupleType : list Kind) : Tuple :=
  MkTuple (zero_field <$> tupleType) 0.

(** ** mus-go *)

(** [varint.Marshal<Kind>] and [ord.MarshalString] write the bytes they return
    here to the front of the buffer; the unmarshal functions return the value,
    the number of bytes read and the error. *)
Class Mus := {
  MarshalNum : Kind → Z → bytes;
  UnmarshalNum : Kind → bytes → Z * nat * option string;
  SizeNum : Kind → Z → nat;
  MarshalString : bytes → bytes;
  UnmarshalString : bytes → bytes * nat * option string;
  mus_SizeString : bytes → nat
}.

Definition in_range (kind : Kind) (z : Z) : Prop :=
  ∃ lo hi, num_range kind = Some (lo, hi) ∧ (lo ≤ z < hi)%Z.

(** Documented behaviour of the library: unmarshalling inverts marshalling and
    ignores what follows, the size functions are exact, a number takes at
    least one byte, an unmarshal reads no more than the buffer and, for a
    number, at least one byte when it succeeds. *)
Class MusLaws `{Mus} := {
  num_roundtrip : ∀ k z rest, in_range k z →
    UnmarshalNum k (MarshalNum k z ++ rest) = (z, length (MarshalNum k z), None);
  num_size : ∀ k z, in_range k z → SizeNum k z = length (MarshalNum k z);
  num_nonempty : ∀ k z, in_range k z → MarshalNum k z ≠ [];
  string_roundtrip : ∀ s rest, (Z.of_nat (length s) < 2 ^ 63)%Z →
    UnmarshalString (MarshalString s ++ rest) = (s, length (MarshalString s), None);
  string_size : ∀ s, (Z.of_nat (length s) < 2 ^ 63)%Z →
    mus_SizeString s = length (MarshalString s);
  num_reads : ∀ k l z n e, UnmarshalNum k l = (z, n, e) → n ≤ length l;
  num_progress : ∀ k l z n, UnmarshalNum k l = (z, n, None) → 0 < n;
  string_reads : ∀ l s n e, UnmarshalString l = (s, n, e) → n ≤ length l
}.

Section Codec.
Context `{Mus}.

(** ** Field functions

    The function for a kind casts the field's pointer to the predeclared type
    of that kind; a field of another kind would be reinterpreted memory, which
    the model does not follow ([Panic]).  What is decoded has the predeclared
    type. *)

Definition EncodeFunc : Type := field → res bytes.
Definition DecodeFunc : Type := bytes → field * nat * option string.
Definition SizeFunc : Type := field → res nat.

Definition EncodeBool : EncodeFunc := λ f,
  match underlying f with
  | FBool b => Ok (MarshalNum KUint8 (if b then 1 else 0)%Z)
  | _ => Crash Panic
  end.

Definition EncodeNum (kind : Kind) : EncodeFunc := λ f,
  match underlying f with
  | FNum k z => if bool_decide (k = kind) then Ok (MarshalNum kind z) else Crash Panic
  | _ => Crash Panic
  end.

Definition EncodeString : EncodeFunc := λ f,
  match underlying f with FString s => Ok (MarshalString s) | _ => Crash Panic end.

Definition EncodeFuncFromKind (kind : Kind) : res EncodeFunc :=
  match kind with
  | KBool => Ok EncodeBool
  | KString => Ok EncodeString
  | KOther _ => Crash Panic
  | k => Ok (EncodeNum k)
  end.

Definition DecodeBool : DecodeFunc := λ buf,
  let '(v, n, err) := UnmarshalNum KUint8 buf in (FBool (v =? 1)%Z, n, err).

Definition DecodeNum (kind : Kind) : DecodeFunc := λ buf,
  let '(v, n, err) := UnmarshalNum kind buf in (FNum kind v, n, err).

Definition DecodeString : DecodeFunc := λ buf,
  let '(v, n, err) := UnmarshalString buf in (FString v, n, err).

Definition DecodeFuncFromKind (kind : Kind) : res DecodeFunc :=
  match kind with
  | KBool => Ok DecodeBool
  | KString => Ok DecodeString
  | KOther _ => Crash Panic
  | k => Ok (DecodeNum k)
  end.

(** A [bool] is one byte, 0 or 1, read as a [uint8]. *)
Definition SizeBool : SizeFunc := λ f,
  match underlying f with
  | FBool b => Ok (SizeNum KUint8 (if b then 1 else 0)%Z)
  | _ => Crash Panic
  end.

Definition SizeNumFunc (kind : Kind) : SizeFunc := λ f,
  match underlying f with
  | FNum k z => if bool_decide (k = kind) then Ok (SizeNum kind z) else Crash Panic
  | _ => Crash Panic
  end.

Definition SizeString : SizeFunc := λ f,
  match underlying f with FString s => Ok (mus_SizeString s) | _ => Crash Panic end.

Definition TupleSizeFuncFromKind (kind : Kind) : res SizeFunc :=
  match kind with
  | KBool => Ok SizeBool
  | KString => Ok SizeString
  | KOther _ => Crash Panic
  | k => Ok (SizeNumFunc k)
  end.

(** ** Tuple functions *)

(** [f(ptr, buf[offset:])]: the bytes land at the offset; the slice expression
    or the write panics past the end of the buffer. *)
Definition write_at (buf : bytes) (offset : nat) (bs : bytes) : res bytes :=
  panic_if (bool_decide (length buf < offset + length bs));;
  Ok (take offset buf ++ bs ++ drop (offset + length bs) buf).

Definition TupleEncoder : Type := Tuple → bytes → res (bytes * nat).
Definition TupleDecoder : Type := Tuple → bytes → res (Tuple * nat * option string).
Definition TupleSizer : Type := Tuple → res nat.

(** One function per field kind; an unsupported kind ends the process. *)
Definition field_funcs {F} (fromKind : Kind → res F) (tupleType : list Kind) : res (list F) :=
  mapR (λ kind,
    fatal_if (negb (SupportedKind kind)) "Unsupported field type";;
    fromKind kind) tupleType.

Definition encode_field (t : Tuple) (st : bytes * nat) (x : nat * EncodeFunc)
    : res (bytes * nat) :=
  let '(buf, offset) := st in
  p ← GetField t x.1;
  bs ← x.2 p;
  buf ← write_at buf offset bs;
  Ok (buf, offset + length bs).

Definition CreateEncoder (tupleType : list Kind) : res TupleEncoder :=
  encodeFuncs ← field_funcs EncodeFuncFromKind tupleType;
  Ok (λ t buf,
    '(buf, offset) ← foldM (encode_field t) (buf, 0) (imap pair encodeFuncs);
    let bs := MarshalNum KInt64 (timestamp t) in
    buf ← write_at buf offset bs;
    Ok (buf, offset + length bs)).

(** The field loop of the decoder, with its early return on an error. *)
Fixpoint decode_fields (t : Tuple) (buf : bytes) (offset : nat) (i : nat)
    (decodeFuncs : list DecodeFunc) : res (Tuple * nat * option string) :=
  match decodeFuncs with
  | [] => Ok (t, offset, None)
  | f :: decodeFuncs =>
      rest ← go_slice buf offset (length buf);
      let '(v, n, err) := f rest in
      let offset := offset + n in
      match err with
      | Some e => Ok (t, offset, Some e)
      | None => decode_fields (SetField t i v) buf offset (S i) decodeFuncs
      end
  end.

Definition CreateDecoder (tupleType : list Kind) : res TupleDecoder :=
  decodeFuncs ← field_funcs DecodeFuncFromKind tupleType;
  Ok (λ t buf,
    '(t, offset, err) ← decode_fields t buf 0 0 decodeFuncs;
    match err with
    | Some e => Ok (t, offset, Some e)
    | None =>
        rest ← go_slice buf offset (length buf);
        let '(ts, n, err) := UnmarshalNum KInt64 rest in
        match err with
        | Some e => Ok (t, offset + n, Some e)
        | None => Ok (MkTuple (fields t) ts, offset + n, None)
        end
    end).

Definition size_field (t : Tuple) (size : nat) (x : nat * SizeFunc) : res nat :=
  p ← GetField t x.1;
  n ← x.2 p;
  Ok (size + n).

Definition CreateSizer (tupleType : list Kind) : res TupleSizer :=
  sizeFuncs ← field_funcs TupleSizeFuncFromKind tupleType;
  Ok (λ t,
    size ← foldM (size_field t) 0 (imap pair sizeFuncs);
    Ok (size + SizeNum KInt64 (timestamp t))).
End Codec.

(** ** What the functions compute *)

Section CodecFacts.
Context `{MusLaws}.

Fixpoint field_bytes (f : field) : bytes :=
  match f with
  | FBool b => MarshalNum KUint8 (if b then 1 else 0)%Z
  | FNum k z => MarshalNum k z
  | FString s => MarshalString s
  | FNamed _ f => field_bytes f
  end.

Definition tuple_bytes (t : Tuple) : bytes :=
  (fields t ≫= field_bytes) ++ MarshalNum KInt64 (timestamp t).

Lemma in_range_bool (b : bool) : in_range KUint8 (if b then 1 else 0)%Z.
Proof. exists 0%Z, (2 ^ 8)%Z. split; [done|]. destruct b; lia. Qed.

Lemma in_range_ts z : is_i64 z → in_range KInt64 z.
Proof. intros Hz. by exists (- 2 ^ 63)%Z, (2 ^ 63)%Z. Qed.

Lemma has_kind_num k k' z : has_kind k (FNum k' z) = true → k' = k ∧ in_range k z.
Proof.
  simpl. rewrite andb_true_iff, bool_decide_eq_true. intros [-> Hr]. split; [done|].
  destruct (num_range k) as [[lo hi]|] eqn:E; [|done].
  exists lo, hi. split; [done|]. lia.
Qed.

Lemma has_kind_string k s :
  has_kind k (FString s) = true → k = KString ∧ (Z.of_nat (length s) < 2 ^ 63)%Z.
Proof. simpl. rewrite andb_true_iff, bool_decide_eq_true. intros [-> ?]. split; [done|lia]. Qed.

Lemma kind_of_has_kind k f : has_kind k f = true → kind_of f = k.
Proof.
  destruct f as [b|k' z|s|n f]; intros Hk; [..|done].
  - simpl in Hk. by apply bool_decide_eq_true in Hk as ->.
  - by apply has_kind_num in Hk as [-> _].
  - by apply has_kind_string in Hk as [-> _].
Qed.

(** A value of a kind, of whatever type. *)
Definition carries (k : Kind) (f : field) : Prop := has_kind k (underlying f) = true.

Lemma has_kind_carries k f : has_kind k f = true → carries k f ∧ underlying f = f.
Proof. by destruct f. Qed.

Lemma has_type_carries ty f : has_type ty f = true → carries (gt_Kind ty) f ∧ type_of f = ty.
Proof.
  destruct ty as [[n|] k]; unfold has_type, carries; simpl.
  - destruct f as [| | |n' f]; try done. rewrite andb_true_iff, bool_decide_eq_true. intros [-> Hk].
    simpl. rewrite (proj2 (has_kind_carries _ _ Hk)), (kind_of_has_kind _ _ Hk). done.
  - intros Hk. rewrite (proj2 (has_kind_carries _ _ Hk)). split; [done|]. rewrite <-(kind_of_has_kind _ _ Hk). by destruct f.
Qed.

(** The three functions of a field's kind agree on its bytes; what is decoded
    has the predeclared type. *)
Lemma carries_codec k f :
  carries k f →
  (∃ e, EncodeFuncFromKind k = Ok e ∧ e f = Ok (field_bytes f)) ∧
  (∃ d, DecodeFuncFromKind k = Ok d ∧
     ∀ rest, d (field_bytes f ++ rest) = (underlying f, length (field_bytes f), None)) ∧
  (∃ sz, TupleSizeFuncFromKind k = Ok sz ∧ sz f = Ok (length (field_bytes f))).
Proof.
  unfold carries. assert (field_bytes f = field_bytes (underlying f)) as -> by (clear; induction f; done).
  enough (has_kind k (underlying f) = true →
    (∃ e, EncodeFuncFromKind k = Ok e ∧ e (underlying f) = Ok (field_bytes (underlying f))) ∧
    (∃ d, DecodeFuncFromKind k = Ok d ∧ ∀ rest, d (field_bytes (underlying f) ++ rest) = (underlying f, length (field_bytes (underlying f)), None)) ∧
    (∃ sz, TupleSizeFuncFromKind k = Ok sz ∧ sz (underlying f) = Ok (length (field_bytes (underlying f))))) as Hu.
  { assert (underlying (underlying f) = underlying f) as Huu by (clear; induction f; done).
    intros Hk. destruct (Hu Hk) as ((e & He & Hef) & Hd & (sz & Hsz & Hsf)). clear Hu.
    split_and!; [exists e|exact Hd|exists sz]; (split; [done|]).
    - rewrite <-Hef. clear -He Huu. destruct k; simpl in He; simplify_eq; unfold EncodeBool, EncodeNum, EncodeString; by rewrite Huu.
    - rewrite <-Hsf. clear -Hsz Huu. destruct k; simpl in Hsz; simplify_eq; unfold SizeBool, SizeNumFunc, SizeString; by rewrite Huu. }
  generalize (underlying f). clear f. intros f. destruct f as [b|k' z|s|n f]; intros Hk; [..|done].
  - simpl in Hk. apply bool_decide_eq_true in Hk as ->. split_and!; eexists; (split; [done|]).
    + done.
    + intros rest. unfold DecodeBool. simpl. rewrite num_roundtrip by apply in_range_bool.
      by destruct b.
    + unfold SizeBool. simpl. f_equal. apply num_size, in_range_bool.
  - apply has_kind_num in Hk as [-> Hr].
    assert (Hn : ∃ r, num_range k = Some r) by (destruct Hr as (? & ? & ? & _); eauto).
    assert (He : EncodeFuncFromKind k = Ok (EncodeNum k) ∧
                 DecodeFuncFromKind k = Ok (DecodeNum k) ∧
                 TupleSizeFuncFromKind k = Ok (SizeNumFunc k)).
    { destruct Hn as [? Hn]. by destruct k. }
    destruct He as (-> & -> & ->). split_and!; eexists; (split; [done|]).
    + unfold EncodeNum. simpl. by rewrite bool_decide_true.
    + intros rest. unfold DecodeNum. simpl. by rewrite num_roundtrip.
    + unfold SizeNumFunc. simpl. rewrite bool_decide_true by done. f_equal. by apply num_size.
  - apply has_kind_string in Hk as [-> Hs]. split_and!; eexists; (split; [done|]).
    + done.
    + intros rest. unfold DecodeString. simpl. by rewrite string_roundtrip.
    + unfold SizeString. simpl. f_equal. by apply string_size.
Qed.

Lemma field_codec k f :
  has_kind k f = true →
  (∃ e, EncodeFuncFromKind k = Ok e ∧ e f = Ok (field_bytes f)) ∧
  (∃ d, DecodeFuncFromKind k = Ok d ∧
     ∀ rest, d (field_bytes f ++ rest) = (f, length (field_bytes f), None)) ∧
  (∃ sz, TupleSizeFuncFromKind k = Ok sz ∧ sz f = Ok (length (field_bytes f))).
Proof. intros [Hc Hu]%has_kind_carries. pose proof (carries_codec k f Hc) as Hcodec. by rewrite Hu in Hcodec. Qed.

Lemma supported_has_kind k : SupportedKind k = true → ∃ f, has_kind k f = true.
Proof.
  destruct k; intros Hk; try done;
    try (eexists (FNum _ 0); simpl; by rewrite bool_decide_true).
  - by exists (FBool false).
  - by exists (FString []).
Qed.

Lemma zero_has_kind k : SupportedKind k = true → has_kind k (zero_field k) = true.
Proof. by destruct k. Qed.

Lemma has_kind_supported k f : has_kind k f = true → SupportedKind k = true.
Proof.
  destruct f as [b|k' z|s|n f]; intros Hk; [..|done].
  - simpl in Hk. by apply bool_decide_eq_true in Hk as ->.
  - apply has_kind_num in Hk as [-> (? & ? & Hr & _)]. by destruct k.
  - by apply has_kind_string in Hk as [-> _].
Qed.

Lemma field_funcs_Ok {F} (fromKind : Kind → res F) tys :
  (∀ k, SupportedKind k = true → ∃ f, fromKind k = Ok f) →
  Forall (λ k, SupportedKind k = true) tys →
  ∃ fs, field_funcs fromKind tys = Ok fs ∧ Forall2 (λ k f, fromKind k = Ok f) tys fs.
Proof.
  intros Hf. induction 1 as [|k tys Hk Htys IH]; [by exists []|].
  destruct IH as (fs & Hfs & Hall). destruct (Hf k Hk) as [f Hkf].
  exists (f :: fs). split; [|by constructor].
  unfold field_funcs in *. simpl. rewrite Hk. simpl. rewrite Hkf. simpl. by rewrite Hfs.
Qed.

Lemma write_at_app (pre bs tl : bytes) :
  length bs ≤ length tl →
  write_at (pre ++ tl) (length pre) bs = Ok (pre ++ bs ++ drop (length bs) tl).
Proof.
  intros Hle. unfold write_at. rewrite bool_decide_false by (rewrite length_app; lia).
  simpl. f_equal. rewrite take_app_length. f_equal. f_equal.
  by rewrite <-drop_drop, drop_app_length.
Qed.

Lemma encode_fields_Ok t tys es :
  Forall2 (λ k e, EncodeFuncFromKind k = Ok e) tys es →
  ∀ j fs pre tl,
  Forall2 carries tys fs → drop j (fields t) = fs →
  length (fs ≫= field_bytes) ≤ length tl →
  foldM (encode_field t) (pre ++ tl, length pre) (imap (λ i, pair (j + i)) es) =
    Ok (pre ++ (fs ≫= field_bytes) ++ drop (length (fs ≫= field_bytes)) tl,
        length pre + length (fs ≫= field_bytes)).
Proof.
  induction 1 as [|k e tys es He Hes IH]; intros j fs pre tl Hfs Hj Hle.
  - apply Forall2_nil_inv_l in Hfs as ->. simpl. by rewrite Nat.add_0_r.
  - apply Forall2_cons_inv_l in Hfs as (f & fs' & Hf & Hfs' & ->).
    assert (Hjf : fields t !! j = Some f).
    { rewrite <-(Nat.add_0_r j), <-lookup_drop, Hj. done. }
    destruct (carries_codec k f Hf) as ((e' & He' & Hef) & _ & _).
    assert (e' = e) as -> by congruence.
    rewrite bind_cons, length_app in Hle. cbn [imap foldM]. unfold encode_field at 2. cbn [fst snd].
    unfold GetField. rewrite Nat.add_0_r, Hjf. simpl. rewrite Hef. simpl.
    rewrite write_at_app by lia. simpl.
    specialize (IH (S j) fs' (pre ++ field_bytes f) (drop (length (field_bytes f)) tl) Hfs').
    rewrite length_app, <-app_assoc in IH.
    rewrite (imap_ext _ (λ i, pair (S j + i))) by (intros; simpl; f_equal; lia).
    rewrite IH; [|by rewrite (drop_S _ f j Hjf) in Hj; injection Hj|rewrite length_drop; lia].
    by rewrite drop_drop, length_app, <-!app_assoc, Nat.add_assoc.
Qed.

Lemma size_fields_Ok t tys ss :
  Forall2 (λ k e, TupleSizeFuncFromKind k = Ok e) tys ss →
  ∀ j fs n,
  Forall2 carries tys fs → drop j (fields t) = fs →
  foldM (size_field t) n (imap (λ i, pair (j + i)) ss) = Ok (n + length (fs ≫= field_bytes)).
Proof.
  induction 1 as [|k e tys es He Hes IH]; intros j fs n Hfs Hj.
  - apply Forall2_nil_inv_l in Hfs as ->. simpl. by rewrite Nat.add_0_r.
  - apply Forall2_cons_inv_l in Hfs as (f & fs' & Hf & Hfs' & ->).
    assert (Hjf : fields t !! j = Some f).
    { rewrite <-(Nat.add_0_r j), <-lookup_drop, Hj. done. }
    destruct (carries_codec k f Hf) as (_ & _ & (e' & He' & Hef)).
    assert (e' = e) as -> by congruence.
    cbn [imap foldM]. unfold size_field at 2. cbn [fst snd].
    unfold GetField. rewrite Nat.add_0_r, Hjf. simpl. rewrite Hef. simpl.
    rewrite (imap_ext _ (λ i, pair (S j + i))) by (intros; simpl; f_equal; lia).
    rewrite (IH (S j) fs'); [|done|by rewrite (drop_S _ f j Hjf) in Hj; injection Hj].
    by rewrite length_app, Nat.add_assoc.
Qed.

Lemma go_slice_tail (a b : bytes) : go_slice (a ++ b) (length a) (length (a ++ b)) = Ok b.
Proof.
  apply go_slice_Ok. rewrite length_app, drop_app_length. split_and!; [lia..|].
  by rewrite take_ge by lia.
Qed.

(** What a field is after its bytes have been decoded into a tuple that had the
    value [o]: [SetField] refuses the decoded value for a defined type. *)
Definition read_back (o f : field) : field := match f with FNamed _ _ => o | _ => f end.

Lemma set_read_back t acc o os f k : fields t = acc ++ o :: os → carries k f → type_of o = type_of f →
  SetField t (length acc) (underlying f) = MkTuple (acc ++ read_back o f :: os) (timestamp t).
Proof.
  intros Ht Hk Ho. unfold SetField. rewrite Ht, list_lookup_middle, Ho by done.
  destruct f as [| | |n f]; cbn [underlying read_back];
    [rewrite bool_decide_true by done; by rewrite insert_app_r_alt, Nat.sub_diag by lia..|].
  rewrite bool_decide_false; [destruct t; simpl in *; by subst|]. unfold carries in Hk. simpl in Hk. simpl.
  by destruct (underlying f).
Qed.

Lemma decode_fields_Ok tys ds :
  Forall2 (λ k e, DecodeFuncFromKind k = Ok e) tys ds →
  ∀ fs acc olds t0 ts pre rest,
  Forall2 carries tys fs → Forall2 (λ o f, type_of o = type_of f) olds fs →
  fields t0 = acc ++ olds → timestamp t0 = ts →
  decode_fields t0 (pre ++ (fs ≫= field_bytes) ++ rest) (length pre) (length acc) ds =
    Ok (MkTuple (acc ++ zip_with read_back olds fs) ts, length pre + length (fs ≫= field_bytes), None).
Proof.
  induction 1 as [|k d tys ds Hd Hds IH]; intros fs acc olds t0 ts pre rest Hfs Hos Ht Hts.
  - apply Forall2_nil_inv_l in Hfs as ->. apply Forall2_nil_inv_r in Hos as ->.
    simpl. rewrite Nat.add_0_r. destruct t0. simpl in *. by subst.
  - apply Forall2_cons_inv_l in Hfs as (f & fs' & Hf & Hfs' & ->).
    apply Forall2_cons_inv_r in Hos as (o & os' & Ho & Hos' & ->).
    destruct (carries_codec k f Hf) as (_ & (d' & Hd' & Hdf) & _).
    assert (d' = d) as -> by congruence.
    rewrite bind_cons. simpl. rewrite go_slice_tail. simpl. rewrite <-app_assoc, Hdf.
    specialize (IH fs' (acc ++ [read_back o f]) os' (SetField t0 (length acc) (underlying f)) ts
                  (pre ++ field_bytes f) rest Hfs' Hos').
    rewrite !length_app in IH. simpl in IH. rewrite Nat.add_1_r, <-!app_assoc in IH.
    pose proof (set_read_back t0 acc o os' f k Ht Hf Ho) as Hset.
    rewrite IH; [|by rewrite Hset..]. by rewrite length_app, Nat.add_assoc.
Qed.

Lemma decode_func_reads k d l v n e :
  DecodeFuncFromKind k = Ok d → d l = (v, n, e) → n ≤ length l.
Proof.
  intros Hk Hd.
  assert (d = DecodeBool ∨ d = DecodeNum k ∨ d = DecodeString) as [->|[->| ->]].
  { destruct k; simpl in Hk; naive_solver. }
  - unfold DecodeBool in Hd. destruct (UnmarshalNum KUint8 l) as [[v' n'] e'] eqn:E.
    apply num_reads in E. congruence.
  - unfold DecodeNum in Hd. destruct (UnmarshalNum k l) as [[v' n'] e'] eqn:E.
    apply num_reads in E. congruence.
  - unfold DecodeString in Hd. destruct (UnmarshalString l) as [[v' n'] e'] eqn:E.
    apply string_reads in E. congruence.
Qed.

Lemma decode_fields_total tys ds buf :
  Forall2 (λ k e, DecodeFuncFromKind k = Ok e) tys ds →
  ∀ t0 offset i, offset ≤ length buf →
  ∃ t n e, decode_fields t0 buf offset i ds = Ok (t, n, e) ∧ n ≤ length buf.
Proof.
  induction 1 as [|k d tys ds Hd Hds IH]; intros t0 offset i Hle; simpl; [by eauto 10|].
  unfold go_slice. rewrite bool_decide_true by lia. simpl.
  destruct (d _) as [[v n] e] eqn:E. apply (decode_func_reads k) in E; [|done].
  rewrite length_take, length_drop in E.
  destruct e; [|apply IH; lia]. do 3 eexists. split; [done|]. lia.
Qed.

(** A tuple whose fields are of these kinds. *)
Definition kinded (tys : list Kind) (t : Tuple) : Prop := Forall2 carries tys (fields t) ∧ is_i64 (timestamp t).

Lemma well_typed_kinded tys t : well_typed tys t → kinded tys t.
Proof. intros [Hf Hts]. split; [|done]. eapply Forall2_impl; [exact Hf|]. intros k f Hk. by apply has_kind_carries. Qed.

Lemma typed_kinded tys t : typed tys t → kinded (gt_Kind <$> tys) t.
Proof. intros [Hf Hts]. split; [|done]. apply Forall2_fmap_l. eapply Forall2_impl; [exact Hf|]. intros ty f Hk. by apply has_type_carries. Qed.

Lemma carries_supported k f : carries k f → SupportedKind k = true.
Proof. apply has_kind_supported. Qed.

Lemma kinded_supported tys t :
  kinded tys t → Forall (λ k, SupportedKind k = true) tys.
Proof.
  intros [Hfs _]. induction Hfs as [|k f tys fs Hk Hfs IH]; constructor; [|done].
  by eapply carries_supported.
Qed.

Lemma wt_supported tys t : well_typed tys t → Forall (λ k, SupportedKind k = true) tys.
Proof. intros Ht. by eapply kinded_supported, well_typed_kinded. Qed.

Lemma fromKind_supported k :
  SupportedKind k = true →
  (∃ e, EncodeFuncFromKind k = Ok e) ∧ (∃ d, DecodeFuncFromKind k = Ok d) ∧
  (∃ s, TupleSizeFuncFromKind k = Ok s).
Proof.
  intros (f & Hf)%supported_has_kind.
  apply has_kind_carries in Hf as [Hf _].
  destruct (carries_codec k f Hf) as ((e & ? & _) & (d & ? & _) & (s & ? & _)).
  split_and!; eauto.
Qed.

(** The three functions of a type whose kinds are supported, and what they do
    on its tuples. *)
Record codec_of (tys : list Kind) (enc : TupleEncoder) (dec : TupleDecoder) (siz : TupleSizer)
    : Prop := {
  codec_enc : CreateEncoder tys = Ok enc;
  codec_dec : CreateDecoder tys = Ok dec;
  codec_siz : CreateSizer tys = Ok siz
}.

Lemma codec_exists tys :
  Forall (λ k, SupportedKind k = true) tys → ∃ enc dec siz, codec_of tys enc dec siz.
Proof.
  intros Htys.
  destruct (field_funcs_Ok EncodeFuncFromKind tys) as (es & Hes & _); [|done|].
  { intros k Hk. apply (fromKind_supported k Hk). }
  destruct (field_funcs_Ok DecodeFuncFromKind tys) as (ds & Hds & _); [|done|].
  { intros k Hk. apply (fromKind_supported k Hk). }
  destruct (field_funcs_Ok TupleSizeFuncFromKind tys) as (ss & Hss & _); [|done|].
  { intros k Hk. apply (fromKind_supported k Hk). }
  do 3 eexists. split.
  - unfold CreateEncoder. by rewrite Hes.
  - unfold CreateDecoder. by rewrite Hds.
  - unfold CreateSizer. by rewrite Hss.
Qed.

Section Created.
Context {tys : list Kind} {enc : TupleEncoder} {dec : TupleDecoder} {siz : TupleSizer}.
Context (Hcodec : codec_of tys enc dec siz).

Lemma kinded_size t : kinded tys t → siz t = Ok (length (tuple_bytes t)).
Proof.
  intros Ht. pose proof (codec_siz _ _ _ _ Hcodec) as Hs. unfold CreateSizer in Hs.
  destruct (field_funcs_Ok TupleSizeFuncFromKind tys) as (ss & Hss & Hall).
  { intros k Hk. apply (fromKind_supported k Hk). }
  { by eapply kinded_supported. }
  rewrite Hss in Hs. simpl in Hs. injection Hs as <-.
  rewrite (imap_ext _ (λ i, pair (0 + i))) by done.
  destruct Ht as [Hfs Hts].
  rewrite (size_fields_Ok t tys ss Hall 0 (fields t)) by done. simpl. unfold tuple_bytes.
  rewrite length_app, num_size by by apply in_range_ts. done.
Qed.

Lemma codec_size t : well_typed tys t → siz t = Ok (length (tuple_bytes t)).
Proof. intros Ht. by apply kinded_size, well_typed_kinded. Qed.

Lemma kinded_encode t buf :
  kinded tys t → length (tuple_bytes t) ≤ length buf →
  enc t buf = Ok (tuple_bytes t ++ drop (length (tuple_bytes t)) buf, length (tuple_bytes t)).
Proof.
  intros Ht Hle. pose proof (codec_enc _ _ _ _ Hcodec) as Hs. unfold CreateEncoder in Hs.
  destruct (field_funcs_Ok EncodeFuncFromKind tys) as (es & Hes & Hall).
  { intros k Hk. apply (fromKind_supported k Hk). }
  { by eapply kinded_supported. }
  rewrite Hes in Hs. simpl in Hs. injection Hs as <-.
  rewrite (imap_ext _ (λ i, pair (0 + i))) by done.
  destruct Ht as [Hfs Hts]. unfold tuple_bytes in *. rewrite length_app in Hle.
  change (buf, 0) with ([] ++ buf, length (@nil Z)).
  rewrite (encode_fields_Ok t tys es Hall 0 (fields t)) by (done || lia).
  rewrite bind_Ok, app_nil_l. simpl.
  rewrite write_at_app by (rewrite length_drop; lia). simpl.
  by rewrite length_app, drop_drop, <-app_assoc.
Qed.

Lemma codec_encode t buf :
  well_typed tys t → length (tuple_bytes t) ≤ length buf →
  enc t buf = Ok (tuple_bytes t ++ drop (length (tuple_bytes t)) buf, length (tuple_bytes t)).
Proof. intros Ht. by apply kinded_encode, well_typed_kinded. Qed.

(** The decoder may be given any tuple of the type to decode into. *)
Lemma kinded_decode t t0 rest :
  kinded tys t → Forall2 (λ o f, type_of o = type_of f) (fields t0) (fields t) →
  dec t0 (tuple_bytes t ++ rest) = Ok (MkTuple (zip_with read_back (fields t0) (fields t)) (timestamp t), length (tuple_bytes t), None).
Proof.
  intros Ht H0'. pose proof (codec_dec _ _ _ _ Hcodec) as Hs. unfold CreateDecoder in Hs.
  destruct (field_funcs_Ok DecodeFuncFromKind tys) as (ds & Hds & Hall).
  { intros k Hk. apply (fromKind_supported k Hk). }
  { by eapply kinded_supported. }
  rewrite Hds in Hs. simpl in Hs. injection Hs as <-.
  destruct Ht as [Hfs Hts]. unfold tuple_bytes. rewrite <-app_assoc.
  pose proof (decode_fields_Ok tys ds Hall (fields t) [] (fields t0) t0 (timestamp t0) []
    (MarshalNum KInt64 (timestamp t) ++ rest) Hfs H0' eq_refl eq_refl) as Hdec.
  rewrite !app_nil_l in Hdec. cbn [length] in Hdec. rewrite Hdec. simpl.
  rewrite go_slice_tail. simpl. rewrite num_roundtrip by by apply in_range_ts.
  by rewrite length_app.
Qed.

(** Fields of predeclared types are read back. *)
Lemma read_back_well_typed t0 t : well_typed tys t → length (fields t0) = length (fields t) →
  MkTuple (zip_with read_back (fields t0) (fields t)) (timestamp t) = t.
Proof.
  intros [Hf _] Hlen. destruct t as [fs ts]. simpl in *. f_equal. clear Hcodec. revert fs Hf Hlen.
  generalize (fields t0). induction tys as [|k ks IH]; intros os fs Hf Hlen.
  - apply Forall2_nil_inv_l in Hf as ->. by destruct os.
  - apply Forall2_cons_inv_l in Hf as (f & fs' & Hk & Hf & ->). destruct os as [|o os]; [done|]. simpl in *.
    rewrite IH by (done || lia). f_equal. by destruct f.
Qed.

Lemma codec_decode t t0 rest :
  well_typed tys t → Forall2 (λ k o, type_of o = predeclared k) tys (fields t0) →
  dec t0 (tuple_bytes t ++ rest) = Ok (t, length (tuple_bytes t), None).
Proof.
  intros Ht H0'. rewrite kinded_decode; [|by apply well_typed_kinded|].
  - rewrite read_back_well_typed; [done|done|]. destruct Ht as [Hf _].
    by rewrite <-(Forall2_length _ _ _ Hf), (Forall2_length _ _ _ H0').
  - destruct Ht as [Hf _]. apply Forall2_same_length_lookup. split.
    { by rewrite <-(Forall2_length _ _ _ Hf), (Forall2_length _ _ _ H0'). }
    intros i o f Ho Hfi. destruct (Forall2_lookup_r _ _ _ _ _ Hf Hfi) as (k & Hk & Hkf).
    destruct (Forall2_lookup_r _ _ _ _ _ H0' Ho) as (k' & Hk' & ->). assert (k' = k) as -> by congruence.
    rewrite <-(kind_of_has_kind _ _ Hkf). by destruct f.
Qed.

(** On any bytes the decoder returns, with an error or a tuple, and has read
    no more than there was. *)
Lemma codec_decode_total t0 buf :
  Forall (λ k, SupportedKind k = true) tys →
  ∃ t n e, dec t0 buf = Ok (t, n, e) ∧ n ≤ length buf ∧ (e = None → 0 < n).
Proof.
  intros Htys. pose proof (codec_dec _ _ _ _ Hcodec) as Hs. unfold CreateDecoder in Hs.
  destruct (field_funcs_Ok DecodeFuncFromKind tys) as (ds & Hds & Hall); [|done|].
  { intros k Hk. apply (fromKind_supported k Hk). }
  rewrite Hds in Hs. simpl in Hs. injection Hs as <-.
  destruct (decode_fields_total tys ds buf Hall t0 0 0) as (t & n & e & -> & Hn); [lia|].
  simpl. destruct e; [do 3 eexists; by split_and!|].
  unfold go_slice. rewrite bool_decide_true by lia. simpl.
  destruct (UnmarshalNum KInt64 _) as [[v m] e] eqn:Eu. pose proof Eu as E. apply num_reads in E.
  rewrite length_take, length_drop in E. destruct e; do 3 eexists; (split; [done|]).
  - split; [lia|done].
  - split; [lia|]. intros _. apply num_progress in Eu. lia.
Qed.
End Created.

Lemma kinds_New tys : 
  Forall (λ k, SupportedKind k = true) tys →
  Forall2 (λ k o, type_of o = predeclared k) tys (fields (Tuple_New tys)).
Proof. simpl. induction 1 as [|k tys Hk Htys IH]; constructor; [by destruct k|done]. Qed.

Lemma wt_kinds tys t : well_typed tys t → Forall2 (λ k o, type_of o = predeclared k) tys (fields t).
Proof. intros [Hfs _]. eapply Forall2_impl; [done|]. intros k f Hk. rewrite <-(kind_of_has_kind _ _ Hk). by destruct f. Qed.

Lemma typed_same tys t t0 : typed tys t → typed tys t0 → Forall2 (λ o f, type_of o = type_of f) (fields t0) (fields t).
Proof.
  intros [Hf _] [Hf0 _]. apply Forall2_same_length_lookup.
  split; [by rewrite <-(Forall2_length _ _ _ Hf), (Forall2_length _ _ _ Hf0)|]. intros i o f Ho Hfi.
  destruct (Forall2_lookup_r _ _ _ _ _ Hf Hfi) as (k & Hk & [_ ->]%has_type_carries).
  destruct (Forall2_lookup_r _ _ _ _ _ Hf0 Ho) as (k' & Hk' & [_ ->]%has_type_carries). congruence.
Qed.

Lemma typed_well_typed tys t : typed tys t → Forall (λ ty, gt_Name ty = None) tys → well_typed (gt_Kind <$> tys) t.
Proof.
  intros [Hf Hts] Hall. split; [|done]. apply Forall2_fmap_l. rewrite Forall_forall in Hall.
  apply Forall2_same_length_lookup. split; [by eapply Forall2_length|]. intros i ty f Hi Hfi.
  destruct (Forall2_lookup_l _ _ _ _ _ Hf Hi) as (f' & Hf' & Hty). assert (f' = f) as -> by congruence.
  unfold has_type in Hty. by rewrite (Hall ty) in Hty by by eapply list_elem_of_lookup_2.
Qed.

Lemma tuple_bytes_nonempty t : is_i64 (timestamp t) → 0 < length (tuple_bytes t).
Proof.
  intros Hts. unfold tuple_bytes. rewrite length_app.
  pose proof (num_nonempty _ _ (in_range_ts _ Hts)) as Hne.
  destruct (MarshalNum KInt64 (timestamp t)); [done|]. simpl. lia.
Qed.

Lemma field_funcs_unsupported {F} (fromKind : Kind → res F) tys :
  (∀ k, SupportedKind k = true → ∃ f, fromKind k = Ok f) →
  ¬ Forall (λ k, SupportedKind k = true) tys →
  field_funcs fromKind tys = Crash (Fatal "Unsupported field type").
Proof.
  intros Hf. unfold field_funcs. induction tys as [|k tys IH]; intros Hn.
  - destruct Hn. constructor.
  - simpl. destruct (SupportedKind k) eqn:Ek; simpl; [|done].
    destruct (Hf k Ek) as [f ->]. simpl. rewrite IH; [done|]. intros Hall. apply Hn.
    by constructor.
Qed.

(** C30: the codec of a tuple type.  When every field kind is supported, the
    encoder, decoder and sizer exist and agree on every tuple of the type: the
    size is the exact number of bytes; encoding into any buffer at least that
    long fills exactly that prefix and leaves the rest; decoding those bytes,
    whatever follows and whatever tuple of the type they are decoded into,
    consumes exactly them and gives back the timestamp and every field of a
    predeclared type, hence the tuple if all field types are predeclared.  A
    field of a defined type (such as [time.Duration]) is not read back: it keeps
    the value it had in the tuple that is decoded into, and no error is
    reported.  On arbitrary bytes the
    decoder returns a tuple or an error and reads no further than they go, and
    at least one byte for a tuple.  With an unsupported kind
    all three constructors end the process. *)
Theorem tuple_codec_roundtrip (tys : list GoType) :
  let kinds := gt_Kind <$> tys in
  if forallb SupportedKind kinds then
    ∃ enc dec siz, CreateEncoder kinds = Ok enc ∧ CreateDecoder kinds = Ok dec ∧
      CreateSizer kinds = Ok siz ∧
      (∀ t, typed tys t → ∃ n, siz t = Ok n ∧
        ∀ buf, n ≤ length buf → ∃ bs, length bs = n ∧
          enc t buf = Ok (bs ++ drop n buf, n) ∧
          ∀ t0 rest, typed tys t0 → ∃ t', dec t0 (bs ++ rest) = Ok (t', n, None) ∧
            timestamp t' = timestamp t ∧ length (fields t') = length tys ∧
            (∀ i ty, tys !! i = Some ty →
               fields t' !! i = match gt_Name ty with None => fields t !! i | Some _ => fields t0 !! i end) ∧
            (Forall (λ ty, gt_Name ty = None) tys → t' = t)) ∧
      ∀ t0 buf, ∃ t n e, dec t0 buf = Ok (t, n, e) ∧ n ≤ length buf ∧ (e = None → 0 < n)
  else
    CreateEncoder kinds = Crash (Fatal "Unsupported field type") ∧
    CreateDecoder kinds = Crash (Fatal "Unsupported field type") ∧
    CreateSizer kinds = Crash (Fatal "Unsupported field type").
Proof.
  cbv zeta. destruct (forallb SupportedKind (gt_Kind <$> tys)) eqn:E.
  - assert (Htys : Forall (λ k, SupportedKind k = true) (gt_Kind <$> tys)).
    { apply Forall_forall. intros k Hk. rewrite forallb_forall in E. apply E.
      by apply list_elem_of_In. }
    destruct (codec_exists _ Htys) as (enc & dec & siz & Hc).
    exists enc, dec, siz. split_and!; [apply Hc..| |].
    2: { intros t0 buf. by apply (codec_decode_total Hc). }
    intros t Ht. pose proof (typed_kinded _ _ Ht) as Hk.
    exists (length (tuple_bytes t)). split; [by apply (kinded_size Hc)|].
    intros buf Hbuf. exists (tuple_bytes t). split_and!; [done|by apply (kinded_encode Hc)|].
    intros t0 rest Ht0. pose proof (typed_same _ _ _ Ht Ht0) as Hsame. eexists. split; [by apply (kinded_decode Hc)|].
    pose proof (Forall2_length _ _ _ Hsame) as Hlen. destruct (Ht) as [Hf _].
    split_and!; [done|simpl; rewrite length_zip_with, Hlen, Nat.min_id; symmetry; by eapply Forall2_length| |].
    + intros i ty Hi. simpl. destruct (Forall2_lookup_l _ _ _ _ _ Hf Hi) as (f & Hfi & Hty).
      destruct (Forall2_lookup_r _ _ _ _ _ Hsame Hfi) as (o & Ho & _). rewrite lookup_zip_with, Ho, Hfi. simpl.
      destruct ty as [[n|] k]; unfold has_type in Hty; simpl in Hty |- *; by destruct f.
    + intros Hall. apply (read_back_well_typed (tys := gt_Kind <$> tys)); [by apply typed_well_typed|done].
  - assert (Hn : ¬ Forall (λ k, SupportedKind k = true) (gt_Kind <$> tys)).
    { intros Hall. rewrite Forall_forall in Hall.
      assert (forallb SupportedKind (gt_Kind <$> tys) = true); [|congruence]. apply forallb_forall.
      intros k Hk%list_elem_of_In. by apply Hall. }
    unfold CreateEncoder, CreateDecoder, CreateSizer.
    rewrite !field_funcs_unsupported; try done; intros k Hk; apply (fromKind_supported k Hk).
Qed.
End CodecFacts.

(** ** A concrete library

    Eight-byte numbers and length-prefixed strings: the laws can hold. *)

Definition fixed_signed (kind : Kind) : bool :=
  match num_range kind with Some (lo, _) => (lo <? 0)%Z | None => false end.

#[export] Instance fixed_mus : Mus := {|
  MarshalNum kind z := be_encode 8 (u64 z);
  UnmarshalNum kind l :=
    if bool_decide (8 ≤ length l) then
      let v := be_decode (take 8 l) in
      (if fixed_signed kind then i64 v else v, 8, None)
    else (0%Z, 0, Some "too small");
  SizeNum kind z := 8;
  MarshalString s := be_encode 8 (Z.of_nat (length s)) ++ s;
  UnmarshalString l :=
    let n := Z.to_nat (be_decode (take 8 l)) in
    if bool_decide (8 + n ≤ length l) then (take n (drop 8 l), 8 + n, None)
    else ([], 0, Some "too small");
  mus_SizeString s := 8 + length s
|}.

Lemma in_range_u64 k z : in_range k z →
  (if fixed_signed k then i64 (u64 z) else u64 z) = z.
Proof.
  intros (lo & hi & Hr & Hz). unfold fixed_signed. rewrite Hr. unfold i64, u64.
  assert (Hb : (lo < 0 ∧ - 2 ^ 63 ≤ lo ∧ hi ≤ 2 ^ 63)%Z ∨ (lo = 0 ∧ hi ≤ 2 ^ 64)%Z).
  { destruct k; try discriminate Hr; simpl in Hr; apply (inj Some) in Hr;
      apply pair_equal_spec in Hr as [<- <-]; lia. }
  destruct (Z.ltb_spec lo 0); destruct Hb as [Hb|Hb]; try lia.
  - rewrite Z.add_mod_idemp_l, Z.mod_small; lia.
  - rewrite Z.mod_small; lia.
Qed.

#[export] Instance fixed_mus_laws : MusLaws.
Proof.
  split.
  - intros k z rest Hz. cbn [UnmarshalNum MarshalNum fixed_mus].
    rewrite length_be_encode, length_app, length_be_encode, bool_decide_true by lia.
    rewrite (take_app_le _ _ 8), take_ge by (rewrite length_be_encode; lia).
    rewrite be_decode_encode by (apply Z.mod_pos_bound; lia). by rewrite in_range_u64.
  - intros. cbn [SizeNum MarshalNum fixed_mus]. by rewrite length_be_encode.
  - intros k z _ Hnil. apply (f_equal length) in Hnil.
    cbn [MarshalNum fixed_mus] in Hnil. by rewrite length_be_encode in Hnil.
  - intros s rest Hs. cbn [UnmarshalString MarshalString fixed_mus].
    rewrite <-app_assoc, (take_app_le _ _ 8), take_ge by (rewrite length_be_encode; lia).
    rewrite be_decode_encode by lia. rewrite Nat2Z.id.
    rewrite !length_app, length_be_encode, bool_decide_true by lia.
    rewrite (drop_app_length' (be_encode 8 _)) by (by rewrite length_be_encode).
    by rewrite take_app_length.
  - intros. cbn [mus_SizeString MarshalString fixed_mus]. by rewrite length_app, length_be_encode.
  - intros k l z n e. cbn [UnmarshalNum fixed_mus]. case_bool_decide; intros [= <- <- <-]; lia.
  - intros k l z n. cbn [UnmarshalNum fixed_mus]. case_bool_decide; intros Heq; [|done].
    injection Heq as <- <-. lia.
  - intros l s n e. cbn [UnmarshalString fixed_mus].
    case_bool_decide; intros Heq; injection Heq as <- <- <-; lia.
Qed.

Definition demo_type : list Kind := [KInt64; KString; KBool].
Definition demo_tuple : Tuple := MkTuple [FNum KInt64 (-5); FString [104; 105]%Z; FBool true] 7.

Lemma demo_tuple_typed : well_typed demo_type demo_tuple.
Proof. split; [repeat constructor|]. vm_compute. split; congruence. Qed.

(** A number and a duration. *)
Definition timed_type : list GoType := [predeclared KInt64; MkGoType (Some "time.Duration"%string) KInt64].
Definition timed_tuple (z d : Z) : Tuple := MkTuple [FNum KInt64 z; FNamed "time.Duration" (FNum KInt64 d)] 7.

Lemma tuple_codec_roundtrip_witness :
  ∃ enc dec siz n bs t', CreateEncoder [KInt64; KInt64] = Ok enc ∧ CreateDecoder [KInt64; KInt64] = Ok dec ∧
    CreateSizer [KInt64; KInt64] = Ok siz ∧ siz (timed_tuple (-5) 30) = Ok n ∧
    enc (timed_tuple (-5) 30) (replicate n 0%Z) = Ok (bs ++ drop n (replicate n 0%Z), n) ∧
    dec (timed_tuple 0 0) (bs ++ [1; 2]%Z) = Ok (t', n, None) ∧ fields t' !! 0 = Some (FNum KInt64 (-5)) ∧
    fields t' !! 1 = Some (FNamed "time.Duration" (FNum KInt64 0)).
Proof.
  pose proof (tuple_codec_roundtrip timed_type) as Hc. cbv zeta in Hc.
  change (forallb SupportedKind (gt_Kind <$> timed_type)) with true in Hc. cbv iota in Hc.
  destruct Hc as (enc & dec & siz & He & Hd & Hs & Ht & _).
  assert (Hty : ∀ z d, (-10 ≤ z < 100)%Z → (-10 ≤ d < 100)%Z → typed timed_type (timed_tuple z d)).
  { intros z d Hz Hd'. split; [|vm_compute; split; congruence].
    repeat (apply Forall2_cons; split; [unfold has_type; simpl; rewrite (proj2 (Z.leb_le _ _)), (proj2 (Z.ltb_lt _ _)) by lia; reflexivity|]).
    constructor. }
  destruct (Ht (timed_tuple (-5) 30)) as (n & Hn & Hbuf); [apply Hty; lia|].
  destruct (Hbuf (replicate n 0%Z)) as (bs & _ & Henc & Hdec).
  { by rewrite length_replicate. }
  destruct (Hdec (timed_tuple 0 0) [1; 2]%Z) as (t' & Ht' & _ & _ & Hf & _); [apply Hty; lia|].
  exists enc, dec, siz, n, bs, t'. split_and!; try assumption.
  - rewrite (Hf 0 (predeclared KInt64)); reflexivity.
  - rewrite (Hf 1 (MkGoType (Some "time.Duration"%string) KInt64)); reflexivity.
Defined.
