(* ===== verification/WorkUnit.v ===== *)
(** * Work units

    [internal/buffer]: the elements of the channels between tasks, watermarks
    and batches.  A batch of a channel's input side is memory that is used
    again ([RingBuffer.v]); what it holds is the list of its records. *)

From stdpp Require Import prelude strings list.
From Stdlib Require Import ZArith Lia.
From S2P Require Import Prelude Codec.

(** A work unit, with the contents it carries. *)
Inductive WorkUnit :=
  | BatchUnit (records : list Tuple)
  | DrainBarrier
  | WatermarkUnit (ts : Z)
  | CheckpointBarrier
  | InflightBarrier
  | TerminationSignal (isPeer : bool)
  | FastForwardMetadata (SerializedMetadata : bytes)
  | MigratingKeyMap (SerializedKeyMap : bytes).

(** The values of [WorkUnitType], counted from one. *)
Definition GetType (w : WorkUnit) : Z :=
  match w with
  | BatchUnit _ => 1
  | DrainBarrier => 2
  | WatermarkUnit _ => 3
  | CheckpointBarrier => 4
  | InflightBarrier => 5
  | TerminationSignal _ => 6
  | FastForwardMetadata _ => 7
  | MigratingKeyMap _ => 8
  end.

(** ** Watermarks: a timestamp, -1 when unset *)

Definition wm_Unset (w : Z) : bool := (w =? -1)%Z.

Definition wm_Update (w newWM : Z) : res Z :=
  fatal_if (newWM <=? w)%Z "Watermark timestamp should only increase";;
  Ok newWM.

Definition wm_SetMin (w newWM : Z) : Z := if (newWM <? w)%Z then newWM else w.

Definition wm_LargerThan (w other : Z) : bool := (other <? w)%Z.

Definition MaxInt64 : Z := 2 ^ 63 - 1.

(** ** Batches *)

(** The slots of an input batch are allocated in advance: [Records] may be
    longer than the number of records it holds. *)
Record Batch := MkBatch {
  TotalNumBytes : Z;
  TotalNumRecords : nat;
  Capacity : nat;
  Records : list Tuple
}.

Definition PreAllocateBatch (tys : list Kind) (initialCapacity : nat) : Batch :=
  MkBatch 0 0 initialCapacity (replicate initialCapacity (Tuple_New tys)).

Definition ExpandBatchCapacity (tys : list Kind) (b : Batch) (num : nat) : Batch :=
  MkBatch (TotalNumBytes b) (TotalNumRecords b) (Capacity b + num)
    (Records b ++ replicate num (Tuple_New tys)).

Definition AllocateOutputBatch : Batch := MkBatch 0 0 0 [].

Definition AddRecord (b : Batch) (record : Tuple) (recordSize : Z) : Batch :=
  MkBatch (u64 (TotalNumBytes b + u64 recordSize)) (S (TotalNumRecords b)) (Capacity b)
    (Records b ++ [record]).

(** The records a batch holds: [Records[0:TotalNumRecords]]. *)
Definition batch_records (b : Batch) : list Tuple := take (TotalNumRecords b) (Records b).

(** A batch that only [AddRecord] has filled holds all its records. *)
Definition output_batch (b : Batch) : Prop := TotalNumRecords b = length (Records b).

Lemma output_batch_records b : output_batch b → batch_records b = Records b.
Proof. unfold output_batch, batch_records. intros ->. apply firstn_all. Qed.

Lemma AddRecord_output b r n : output_batch b → output_batch (AddRecord b r n).
Proof. unfold output_batch. intros Hb. simpl. rewrite length_app, Hb. simpl. lia. Qed.
