(* ===== verification/StateType.v ===== *)
(** * State types

    [api/stateClient/stateType]: the value and list states a stateful operator
    reads and updates through its per-batch cache, with the flags that decide
    at flush time whether a state is left alone, overwritten, merged or
    deleted, and their byte encodings. *)

From stdpp Require Import prelude gmap strings list.
From Stdlib Require Import ZArith Lia.
From S2P Require Import Prelude Codec.

Record StateTypeBase := MkBase { hasValue : bool; updated : bool; deleted : bool }.

(** The two implementations of the interface.  The [state] of a value state is
    a tuple pointer, nil in an empty one. *)
Inductive StateType :=
  | ValueState (base : StateTypeBase) (state : option Tuple)
  | ListState (base : StateTypeBase) (state : list Tuple) (appended : bool)
      (appendStartIdx : nat).

(** The static type of a state: which implementation. *)
Inductive state_kind := SValue | SList.

Definition st_base (s : StateType) : StateTypeBase :=
  match s with ValueState b _ => b | ListState b _ _ _ => b end.

Definition HasValue (s : StateType) : bool := hasValue (st_base s).
Definition IsUpdated (s : StateType) : bool := updated (st_base s).
Definition IsDeleted (s : StateType) : bool := deleted (st_base s).
Definition IsAppended (s : StateType) : bool :=
  match s with ValueState _ _ => false | ListState _ _ a _ => a end.

(** ** User operations *)

Definition NewValueState (val : Tuple) : StateType :=
  ValueState (MkBase true true false) (Some val).

(** [None] is a nil slice. *)
Definition NewListState (vals : option (list Tuple)) : res StateType :=
  match vals with
  | None => Crash (Fatal "ListState must be initialized with non-nil list")
  | Some vals => Ok (ListState (MkBase true true false) vals false (length vals))
  end.

Definition with_base (s : StateType) (b : StateTypeBase) : StateType :=
  match s with
  | ValueState _ v => ValueState b v
  | ListState _ l a i => ListState b l a i
  end.

Definition Clear (s : StateType) : StateType :=
  with_base s (MkBase (HasValue s) (IsUpdated s) true).

Definition vs_Get (s : StateType) : option (option Tuple * bool) :=
  match s with
  | ValueState b v => Some (if hasValue b then (v, true) else (None, false))
  | ListState _ _ _ _ => None
  end.

Definition vs_Set (b : StateTypeBase) (value : Tuple) : StateType :=
  ValueState (MkBase true true (deleted b)) (Some value).

Definition ls_Update (b : StateTypeBase) (vals : list Tuple) (a : bool) (i : nat) : StateType :=
  ListState (MkBase true true (deleted b)) vals a i.

Definition ls_AddAll (b : StateTypeBase) (state : list Tuple) (i : nat) (vals : list Tuple)
    : StateType :=
  ListState (MkBase true (updated b) (deleted b)) (state ++ vals) true i.

Definition ls_Add (b : StateTypeBase) (state : list Tuple) (i : nat) (val : Tuple) : StateType :=
  ListState (MkBase true (updated b) (deleted b)) (state ++ [val]) true i.

(** [v.CopyFrom(other)] *)
Definition CopyFrom (v other : StateType) : res StateType :=
  match v, other with
  | ValueState _ _, ValueState b s => Ok (ValueState b s)
  | ValueState _ _, _ => Crash (Fatal "CopyFrom: other is not ValueState")
  | ListState _ _ _ _, ListState b s a i => Ok (ListState b s a i)
  | ListState _ _ _ _, _ => Crash (Fatal "CopyFrom: other is not ListState")
  end.

(** What user code may do to a state it got from the cache. *)
Inductive state_op :=
  | OSet (value : Tuple)
  | OUpdate (vals : list Tuple)
  | OAdd (val : Tuple)
  | OAddAll (vals : list Tuple)
  | OClear
  | OCopyFrom (other : StateType).

(** The methods of one type do not exist on the other (a compile error, here
    [Panic]). *)
Definition apply_op (s : StateType) (op : state_op) : res StateType :=
  match op, s with
  | OClear, _ => Ok (Clear s)
  | OCopyFrom other, _ => CopyFrom s other
  | OSet v, ValueState b _ => Ok (vs_Set b v)
  | OUpdate l, ListState b _ a i => Ok (ls_Update b l a i)
  | OAdd v, ListState b l _ i => Ok (ls_Add b l i v)
  | OAddAll vs, ListState b l _ i => Ok (ls_AddAll b l i vs)
  | _, _ => Crash Panic
  end.

(** ** Encoding *)

Definition StateType_New (k : state_kind) : StateType :=
  match k with
  | SValue => ValueState (MkBase false false false) None
  | SList => ListState (MkBase false false false) [] false 0
  end.

Section Encoding.
(** The codec functions a cache holds for its tuple type. *)
Context (tupleType : list Kind) (enc : TupleEncoder) (dec : TupleDecoder) (siz : TupleSizer).

(** The decoding loop of a list state; [fuel] bounds its turns. *)
Fixpoint decode_list (fuel : nat) (bs : bytes) (currPos : nat) (acc : list Tuple)
    : res (list Tuple) :=
  if bool_decide (length bs ≤ currPos) then Ok acc
  else match fuel with
  | 0 => Crash Diverge
  | S fuel =>
      rest ← go_slice bs currPos (length bs);
      '(t, usedBytes, err) ← dec (Tuple_New tupleType) rest;
      match err with
      | Some _ => Crash (Fatal "Failed to decode ListState")
      | None => decode_list fuel bs (currPos + usedBytes) (acc ++ [t])
      end
  end.

Definition Deserialize (v : StateType) (stateInBytes : bytes) : res StateType :=
  match v with
  | ValueState b _ =>
      '(t, _, err) ← dec (Tuple_New tupleType) stateInBytes;
      match err with
      | Some _ => Crash (Fatal "Failed to decode value")
      | None => Ok (ValueState (MkBase true (updated b) (deleted b)) (Some t))
      end
  | ListState b l a _ =>
      l ← decode_list (length stateInBytes) stateInBytes 0 l;
      Ok (ListState (MkBase true (updated b) (deleted b)) l a (length l))
  end.

(** One turn of the encoding loop: [tupleEncoder(val, buf[currPos:])]. *)
Definition encode_step (st : bytes * nat) (val : Tuple) : res (bytes * nat) :=
  let '(buf, currPos) := st in
  tl ← go_slice buf currPos (length buf);
  '(tl, usedBytes) ← enc val tl;
  Ok (take currPos buf ++ tl, currPos + usedBytes).

Definition serializeFromIndex (state : list Tuple) (startIdx : nat) : res bytes :=
  fatal_if (bool_decide (length state ≤ startIdx)) "[ListState] startIdx >= len(state)";;
  vals ← go_slice state startIdx (length state);
  totalSize ← foldM (λ n val, m ← siz val; Ok (n + m)) 0 vals;
  '(buf, _) ← foldM encode_step (replicate totalSize 0%Z, 0) vals;
  Ok buf.

Definition st_Serialize (v : StateType) : res bytes :=
  match v with
  | ValueState _ None => Crash Panic
  | ValueState _ (Some t) =>
      n ← siz t;
      '(buf, _) ← enc t (replicate n 0%Z);
      Ok buf
  | ListState _ l _ _ => serializeFromIndex l 0
  end.

Definition SerializeInc (v : StateType) : res bytes :=
  match v with
  | ValueState _ _ =>
      Crash (Fatal "ValueState does not support incremental serialization")
  | ListState _ l _ i => serializeFromIndex l i
  end.
End Encoding.

(** ** Encodings of well-typed states *)

Definition state_tuples (s : StateType) : list Tuple :=
  match s with ValueState _ v => option_list v | ListState _ l _ _ => l end.

Definition list_bytes `{Mus} (l : list Tuple) : bytes := l ≫= tuple_bytes.
Arguments list_bytes : simpl never.

Lemma list_bytes_cons `{Mus} t l : list_bytes (t :: l) = tuple_bytes t ++ list_bytes l.
Proof. done. Qed.

Definition kind_of_state (s : StateType) : state_kind :=
  match s with ValueState _ _ => SValue | ListState _ _ _ _ => SList end.

Section EncodingFacts.
Context `{MusLaws}.
Context {tys : list Kind} {enc : TupleEncoder} {dec : TupleDecoder} {siz : TupleSizer}.
Context (Hcodec : codec_of tys enc dec siz).

Lemma total_size l n :
  Forall (well_typed tys) l →
  foldM (λ n val, m ← siz val; Ok (n + m)) n l = Ok (n + length (list_bytes l)).
Proof.
  intros Hl. revert n. induction Hl as [|t l Ht Hl IH]; intros n; simpl; [by rewrite Nat.add_0_r|].
  rewrite (codec_size Hcodec) by done. simpl. rewrite IH.
  by rewrite list_bytes_cons, length_app, Nat.add_assoc.
Qed.

Lemma encode_steps l pre tl :
  Forall (well_typed tys) l → length (list_bytes l) ≤ length tl →
  foldM (encode_step enc) (pre ++ tl, length pre) l =
    Ok (pre ++ list_bytes l ++ drop (length (list_bytes l)) tl,
        length pre + length (list_bytes l)).
Proof.
  intros Hl. revert pre tl. induction Hl as [|t l Ht Hl IH]; intros pre tl Hle.
  { simpl. by rewrite Nat.add_0_r. }
  rewrite list_bytes_cons, length_app in *. cbn [foldM]. unfold encode_step at 2.
  rewrite go_slice_tail. simpl. rewrite (codec_encode Hcodec) by (done || lia). simpl.
  rewrite take_app_length, app_assoc, <-length_app.
  rewrite IH by (rewrite length_drop; lia).
  by rewrite drop_drop, length_app, <-!app_assoc, Nat.add_assoc.
Qed.

Lemma serializeFromIndex_Ok l i :
  Forall (well_typed tys) l → i < length l →
  serializeFromIndex enc siz l i = Ok (list_bytes (drop i l)).
Proof.
  intros Hl Hi. unfold serializeFromIndex. rewrite bool_decide_false by lia. simpl.
  unfold go_slice. rewrite bool_decide_true by lia. simpl.
  rewrite take_ge by (rewrite length_drop; lia).
  assert (Hd : Forall (well_typed tys) (drop i l)) by by apply Forall_drop.
  rewrite (total_size _ 0 Hd). cbn [Nat.add mbind res_bind].
  set (n := length _). pose proof (encode_steps (drop i l) [] (replicate n 0%Z) Hd) as He.
  rewrite length_replicate in He. specialize (He (le_n _)).
  rewrite !app_nil_l in He. cbn [length Nat.add] in He. rewrite He. simpl.
  by rewrite drop_replicate, Nat.sub_diag, app_nil_r.
Qed.

Lemma st_Serialize_Ok s :
  Forall (well_typed tys) (state_tuples s) → state_tuples s ≠ [] →
  st_Serialize enc siz s = Ok (list_bytes (state_tuples s)).
Proof.
  destruct s as [b [t|]|b l a i]; simpl; intros Ht Hne; [|done|].
  - apply Forall_cons in Ht as [Ht _]. rewrite (codec_size Hcodec) by done. simpl.
    rewrite (codec_encode Hcodec) by (done || by rewrite length_replicate). simpl.
    rewrite drop_replicate, Nat.sub_diag. unfold list_bytes. simpl. by rewrite !app_nil_r.
  - rewrite serializeFromIndex_Ok; [by rewrite drop_0|done|]. destruct l; [done|]. simpl. lia.
Qed.

Lemma list_bytes_nil l : Forall (well_typed tys) l → l ≠ [] → list_bytes l ≠ [].
Proof.
  intros Hl Hne Hb. destruct Hl as [|t l Ht Hl]; [done|].
  apply (f_equal length) in Hb. rewrite list_bytes_cons, length_app in Hb. simpl in Hb.
  pose proof (tuple_bytes_nonempty t (proj2 Ht)). lia.
Qed.

Lemma list_bytes_app l1 l2 : list_bytes (l1 ++ l2) = list_bytes l1 ++ list_bytes l2.
Proof. unfold list_bytes. apply bind_app. Qed.

Context (Htys : Forall (λ k, SupportedKind k = true) tys).

Lemma decode_list_Ok l fuel pre acc :
  Forall (well_typed tys) l → length (list_bytes l) ≤ fuel →
  decode_list tys dec fuel (pre ++ list_bytes l) (length pre) acc = Ok (acc ++ l).
Proof.
  intros Hl. revert fuel pre acc.
  induction Hl as [|t l Ht Hl IH]; intros fuel pre acc Hfuel.
  - change (list_bytes []) with (@nil Z). rewrite !app_nil_r. destruct fuel; simpl; by rewrite bool_decide_true.
  - rewrite list_bytes_cons, length_app in *.
    pose proof (tuple_bytes_nonempty t (proj2 Ht)).
    destruct fuel as [|fuel]; [lia|]. cbn [decode_list].
    rewrite bool_decide_false by (rewrite !length_app; lia).
    rewrite go_slice_tail. simpl.
    rewrite (codec_decode Hcodec t (Tuple_New tys)) by (done || by apply kinds_New). simpl.
    specialize (IH fuel (pre ++ tuple_bytes t) (acc ++ [t]) ltac:(lia)).
    by rewrite <-!app_assoc, length_app in IH.
Qed.

Lemma list_bytes_inj l l' :
  Forall (well_typed tys) l → Forall (well_typed tys) l' → list_bytes l = list_bytes l' → l = l'.
Proof.
  intros Hl Hl' Heq.
  pose proof (decode_list_Ok l (length (list_bytes l)) [] [] Hl (le_n _)) as Hd.
  rewrite Heq, decode_list_Ok in Hd by done. simpl in Hd. congruence.
Qed.

(** The decoding loop ends on every input. *)
Lemma decode_list_terminates bs fuel pos acc :
  length bs ≤ pos + fuel → decode_list tys dec fuel bs pos acc ≠ Crash Diverge.
Proof.
  revert pos acc. induction fuel as [|fuel IH]; intros pos acc Hle; cbn [decode_list];
    case_bool_decide as Hpos; try done; [lia|].
  unfold go_slice. rewrite bool_decide_true by lia. simpl.
  destruct (codec_decode_total Hcodec (Tuple_New tys)
    (take (length bs - pos) (drop pos bs)) Htys) as (t & n & e & -> & Hn & Hpr). simpl.
  destruct e; [done|]. apply IH. specialize (Hpr eq_refl). lia.
Qed.

(** Reading back what a flush wrote. *)
Lemma Deserialize_Ok k l :
  Forall (well_typed tys) l → l ≠ [] → (k = SValue → length l = 1) →
  ∃ s, Deserialize tys dec (StateType_New k) (list_bytes l) = Ok s ∧
    state_tuples s = l ∧ kind_of_state s = k ∧
    st_base s = MkBase true false false ∧ IsAppended s = false ∧
    (∀ b l' a i, s = ListState b l' a i → i = length l).
Proof.
  intros Hl Hne Hk. destruct k; simpl.
  - destruct l as [|t [|]]; try (specialize (Hk eq_refl); simpl in *; lia).
    apply Forall_cons in Hl as [Ht _]. rewrite list_bytes_cons.
    rewrite (codec_decode Hcodec t) by (done || by apply kinds_New). simpl.
    eexists. split_and!; [done..|]. discriminate.
  - pose proof (decode_list_Ok l (length (list_bytes l)) [] [] Hl (le_n _)) as Hd.
    rewrite !app_nil_l in Hd. cbn [length] in Hd. rewrite Hd. simpl.
    eexists. split_and!; [done..|]. by intros ???? [= <- <- <- <-].
Qed.
End EncodingFacts.
