(* ===== verification/Backend.v ===== *)
(** * State backends: the byte stores of a worker

    [state/stateBackend/stateBackend.go] and its implementations: the
    in-memory map ([memory.go], [memoryIterator.go]) and the embedded Pebble
    database ([pebble.go]).  [StateBackendOps] is the interface,
    [StateBackendLaws] what its clients rely on; both implementations obey
    it.  The Pebble library is a parameter ([PebbleDB], [PebbleLaws]). *)

From stdpp Require Import prelude gmap strings list.
From Stdlib Require Import ZArith Lia.
From S2P Require Import Prelude.

(** ** The interface *)

(** The order of keys: bytewise, a proper prefix first. *)
Fixpoint bytes_ltb (k1 k2 : bytes) : bool :=
  match k1, k2 with
  | [], [] => false
  | [], _ :: _ => true
  | _ :: _, [] => false
  | b1 :: k1, b2 :: k2 => (b1 <? b2)%Z || ((b1 =? b2)%Z && bytes_ltb k1 k2)
  end.

(** [lower <= k < upper]. *)
Definition in_range (lower upper k : bytes) : bool :=
  negb (bytes_ltb k lower) && bytes_ltb k upper.

(** An absent key reads as [None] (a nil slice).  Keys and values are never
    nil here: the code ends the process on a nil list, turns a nil value into
    an empty one. *)
Class StateBackendOps (B : Type) := {
  sb_GetMany : B → list bytes → res (list (option bytes));
  sb_SetMany : B → list bytes → list bytes → res B;
  sb_MergeMany : B → list bytes → list bytes → res B;
  sb_DeleteMany : B → list bytes → res B;
  sb_RangeQuery : B → bytes → bytes → res (list bytes * list bytes)
}.

Abbreviation store := (gmap bytes bytes) (only parsing).

Definition read_all (data : store) (keys : list bytes) : list (option bytes) :=
  (λ k, data !! k) <$> keys.

Definition write_pair (data : store) (kv : bytes * bytes) : store := <[kv.1 := kv.2]> data.

Definition merge_pair (data : store) (kv : bytes * bytes) : store :=
  match data !! kv.1 with
  | Some existingValue => <[kv.1 := existingValue ++ kv.2]> data
  | None => <[kv.1 := kv.2]> data
  end.

Definition delete_key (data : store) (key : bytes) : store := delete key data.

(** A backend is a map from key to value; [backend_ok] is what its
    configuration has to satisfy. *)
Class StateBackendLaws (B : Type) `{StateBackendOps B} := {
  data_of : B → store;
  backend_ok : B → Prop;
  GetMany_law : ∀ b keys, backend_ok b →
    sb_GetMany b keys = Ok (read_all (data_of b) keys);
  SetMany_law : ∀ b keys values, backend_ok b → length keys = length values →
    ∃ b', sb_SetMany b keys values = Ok b' ∧ backend_ok b' ∧
      data_of b' = foldl write_pair (data_of b) (zip keys values);
  MergeMany_law : ∀ b keys values, backend_ok b → length keys = length values →
    ∃ b', sb_MergeMany b keys values = Ok b' ∧ backend_ok b' ∧
      data_of b' = foldl merge_pair (data_of b) (zip keys values);
  DeleteMany_law : ∀ b keys, backend_ok b →
    ∃ b', sb_DeleteMany b keys = Ok b' ∧ backend_ok b' ∧
      data_of b' = foldl delete_key (data_of b) keys
}.

(** Backends that support range queries, which migration needs. *)
Class RangeQueryLaws (B : Type) `{StateBackendLaws B} := {
  RangeQuery_law : ∀ b lower upper, backend_ok b →
    ∃ keys values, sb_RangeQuery b lower upper = Ok (keys, values) ∧
      length keys = length values ∧ NoDup keys ∧
      ∀ k v, (k, v) ∈ zip keys values ↔
        data_of b !! k = Some v ∧ in_range lower upper k = true
}.

(** *** Writing lists of pairs *)

Lemma foldl_write (l : list (bytes * bytes)) (d : store) :
  NoDup l.*1 → foldl write_pair d l = list_to_map l ∪ d.
Proof.
  revert d. induction l as [|[k v] l IH]; intros d Hnd; simpl; [by rewrite map_empty_union|].
  apply NoDup_cons in Hnd as [Hk Hnd]. rewrite IH by done. unfold write_pair.
  rewrite <-insert_union_r, insert_union_l; [done|]. by apply not_elem_of_list_to_map_1.
Qed.

Lemma foldl_merge (l : list (bytes * bytes)) (d : store) k :
  NoDup l.*1 →
  foldl merge_pair d l !! k =
  match list_to_map (M := store) l !! k with
  | Some v => Some (default [] (d !! k) ++ v)
  | None => d !! k
  end.
Proof.
  revert d. induction l as [|[k' v] l IH]; intros d Hnd; [done|].
  apply NoDup_cons in Hnd as [Hk Hnd]. cbn [foldl list_to_map foldr fst snd]. rewrite IH by done.
  unfold merge_pair. cbn [fst snd]. destruct (decide (k = k')) as [->|Hne].
  - rewrite (not_elem_of_list_to_map_1 l k') by done. rewrite lookup_insert_eq.
    by destruct (d !! k'); simpl; rewrite lookup_insert_eq.
  - rewrite (lookup_insert_ne _ k' k) by done.
    by destruct (d !! k'); rewrite lookup_insert_ne.
Qed.

Lemma foldl_delete (ks : list bytes) (d : store) k :
  foldl delete_key d ks !! k = if bool_decide (k ∈ ks) then None else d !! k.
Proof.
  revert d. induction ks as [|k' ks IH]; intros d; [done|].
  simpl. rewrite IH. unfold delete_key. destruct (decide (k = k')) as [->|Hne].
  - rewrite lookup_delete_eq. by repeat case_bool_decide; set_solver.
  - rewrite lookup_delete_ne by done. by repeat case_bool_decide; set_solver.
Qed.

(** ** In-memory backend

    [MemoryStateBackend.data]; a Go map from string, here from bytes. *)

Record MemoryStateBackend := MkMem { data : store }.

Definition NewMemoryStateBackend : MemoryStateBackend := MkMem ∅.

Definition mem_Get (m : MemoryStateBackend) (key : bytes) : option bytes := data m !! key.

Definition mem_Set (m : MemoryStateBackend) (key value : bytes) : MemoryStateBackend :=
  MkMem (<[key := value]> (data m)).

Definition mem_GetMany (m : MemoryStateBackend) (keys : list bytes) : list (option bytes) :=
  mem_Get m <$> keys.

Definition mem_SetMany (m : MemoryStateBackend) (keys values : list bytes)
    : res MemoryStateBackend :=
  fatal_if (negb (length keys =? length values)) "SetMany(): len(keys) != len(values)";;
  Ok (MkMem (foldl write_pair (data m) (zip keys values))).

Definition mem_MergeMany (m : MemoryStateBackend) (keys values : list bytes)
    : res MemoryStateBackend :=
  fatal_if (negb (length keys =? length values)) "MergeMany(): len(keys) != len(values)";;
  Ok (MkMem (foldl merge_pair (data m) (zip keys values))).

Definition mem_DeleteMany (m : MemoryStateBackend) (keys : list bytes) : MemoryStateBackend :=
  MkMem (foldl delete_key (data m) keys).

Definition mem_RangeQuery (m : MemoryStateBackend) (start finish : bytes)
    : res (list bytes * list bytes) :=
  Crash (Fatal "MemoryStateBackend doesn't support RangeQuery yet").

#[export] Instance memory_ops : StateBackendOps MemoryStateBackend := {|
  sb_GetMany m keys := Ok (mem_GetMany m keys);
  sb_SetMany := mem_SetMany;
  sb_MergeMany := mem_MergeMany;
  sb_DeleteMany m keys := Ok (mem_DeleteMany m keys);
  sb_RangeQuery := mem_RangeQuery
|}.

(** The laws for callers that do not write to the slices they passed to
    [SetMany]: the code keeps those slices as values ([MemoryAlias.v] has what
    happens otherwise). *)
#[export] Instance memory_laws : StateBackendLaws MemoryStateBackend.
Proof.
  refine {| data_of := data; backend_ok := λ _, True |}.
  - done.
  - intros b keys values _ Hlen. simpl. unfold mem_SetMany. rewrite Hlen, Nat.eqb_refl. simpl. eauto.
  - intros b keys values _ Hlen. simpl. unfold mem_MergeMany. rewrite Hlen, Nat.eqb_refl. simpl. eauto.
  - intros b keys _. simpl. eauto.
Defined.

(** *** Its iterator *)

(** [MemoryStateIterator]: the keys at creation, the backend, the position. *)
Record MemoryStateIterator := MkIter {
  it_keys : list bytes;
  it_backend : MemoryStateBackend;
  it_idx : Z
}.

Definition NewMemoryStateIterator `{GoRange} (ss : MemoryStateBackend) : MemoryStateIterator :=
  MkIter (go_range (data ss)).*1 ss 0.

Definition it_First (m : MemoryStateIterator) : MemoryStateIterator * bool :=
  (MkIter (it_keys m) (it_backend m) 0, negb (length (it_keys m) =? 0)).

Definition it_Valid (m : MemoryStateIterator) : bool :=
  (0 <=? it_idx m)%Z && (it_idx m <? Z.of_nat (length (it_keys m)))%Z.

Definition it_Next (m : MemoryStateIterator) : MemoryStateIterator * bool :=
  let idx := (it_idx m + 1)%Z in
  (MkIter (it_keys m) (it_backend m) idx, (idx <? Z.of_nat (length (it_keys m)))%Z).

Definition it_Key (m : MemoryStateIterator) : res bytes :=
  fatal_if (negb (it_Valid m)) "MemoryStateIterator: invalid idx";;
  idxZ (it_keys m) (it_idx m).

Definition it_Value (m : MemoryStateIterator) : res (option bytes) :=
  fatal_if (negb (it_Valid m)) "MemoryStateIterator: invalid idx";;
  k ← idxZ (it_keys m) (it_idx m);
  Ok (mem_Get (it_backend m) k).

(** [for it.First(); it.Valid(); it.Next()]: the entries an iterator yields. *)
Fixpoint it_collect (fuel : nat) (m : MemoryStateIterator)
    : res (list (bytes * option bytes)) :=
  if it_Valid m then
    match fuel with
    | 0 => Crash Diverge
    | S fuel =>
        k ← it_Key m;
        v ← it_Value m;
        rest ← it_collect fuel (it_Next m).1;
        Ok ((k, v) :: rest)
    end
  else Ok [].

Lemma it_collect_from (keys : list bytes) (ss : MemoryStateBackend) i fuel :
  length keys ≤ i + fuel →
  it_collect fuel (MkIter keys ss (Z.of_nat i)) =
    Ok ((λ k, (k, mem_Get ss k)) <$> drop i keys).
Proof.
  revert i. induction fuel as [|fuel IH]; intros i Hle; cbn [it_collect];
    destruct (it_Valid (MkIter keys ss (Z.of_nat i))) eqn:Hv;
    pose proof Hv as Hv'; unfold it_Valid in Hv'; simpl in Hv'.
  - lia.
  - by rewrite drop_ge by lia.
  - assert (i < length keys) as [k Hk]%lookup_lt_is_Some_2 by lia.
    assert (Hidx : idxZ keys (Z.of_nat i) = Ok k).
    { apply idxZ_Ok. rewrite Nat2Z.id. split; [lia|done]. }
    unfold it_Key, it_Value. rewrite Hv. simpl. rewrite Hidx. simpl. unfold it_Next. simpl.
    replace (Z.of_nat i + 1)%Z with (Z.of_nat (S i)) by lia.
    rewrite IH by lia. simpl. by rewrite (drop_S keys k i).
  - by rewrite drop_ge by lia.
Qed.

(** An iterator of the in-memory backend, run from [First] until it is no
    longer [Valid], ends and yields every entry of the backend exactly once
    with its value. *)
Theorem memory_iterator_complete `{GoRange} (ss : MemoryStateBackend) :
  ∃ entries, it_collect (size (data ss)) (it_First (NewMemoryStateIterator ss)).1 = Ok entries ∧
    NoDup entries.*1 ∧
    ∀ k v, (k, v) ∈ entries ↔ ∃ val, v = Some val ∧ data ss !! k = Some val.
Proof.
  exists ((λ k, (k, mem_Get ss k)) <$> (go_range (data ss)).*1). split_and!.
  - change (it_First _).1 with (MkIter (go_range (data ss)).*1 ss (Z.of_nat 0)).
    rewrite it_collect_from; [by rewrite drop_0|].
    by rewrite length_fmap, length_go_range.
  - rewrite <-list_fmap_compose, (list_fmap_ext _ id), list_fmap_id; [|done].
    apply NoDup_go_range.
  - intros k v. rewrite list_elem_of_fmap. unfold mem_Get. split.
    + intros (k' & [= -> ->] & [x Hx]%go_range_keys). eauto.
    + intros (val & -> & Hk). exists k. rewrite Hk, go_range_keys. eauto.
Qed.

(** ** Pebble

    The library as the backend uses it: point reads, atomic batches and
    bounded iterators.  A failing disk ends the process and is not modelled. *)

Inductive batch_op :=
  | BatchSet (key value : bytes)
  | BatchMerge (key value : bytes)
  | BatchDelete (key : bytes).

(** A batch applies its operations in order; the default merger of Pebble
    appends. *)
Definition apply_batch_op (d : store) (op : batch_op) : store :=
  match op with
  | BatchSet k v => write_pair d (k, v)
  | BatchMerge k v => merge_pair d (k, v)
  | BatchDelete k => delete_key d k
  end.

Class PebbleDB (D : Type) := {
  db_Get : D → bytes → option bytes;
  db_Commit : D → list batch_op → D;
  db_Scan : D → bytes → bytes → list (bytes * bytes)
}.

Class PebbleLaws (D : Type) `{PebbleDB D} := {
  db_view : D → store;
  db_Get_view : ∀ d k, db_Get d k = db_view d !! k;
  db_Commit_view : ∀ d ops, db_view (db_Commit d ops) = foldl apply_batch_op (db_view d) ops;
  db_Scan_NoDup : ∀ d lower upper, NoDup (db_Scan d lower upper).*1;
  db_Scan_view : ∀ d lower upper k v, (k, v) ∈ db_Scan d lower upper ↔
    db_view d !! k = Some v ∧ in_range lower upper k = true
}.

Record PebbleStateBackend (D : Type) := MkPebble {
  db : D;
  enableConcurrentRead : bool;
  getManyMaxConcurrency : Z;
  getManyBatchSize : Z
}.
Arguments MkPebble {D}.
Arguments db {D}.
Arguments enableConcurrentRead {D}.
Arguments getManyMaxConcurrency {D}.
Arguments getManyBatchSize {D}.

(** The loop [for i := 0; i < len(keys); i += batchSize], as the bounds of the
    tasks it submits. *)
Fixpoint batch_bounds (fuel i n batchSize : nat) : res (list (nat * nat)) :=
  if i <? n then
    match fuel with
    | 0 => Crash Diverge
    | S fuel =>
        rest ← batch_bounds fuel (i + batchSize) n batchSize;
        Ok ((i, Nat.min (i + batchSize) n) :: rest)
    end
  else Ok [].

(** [wg.Wait()] for a counter that was raised by [added] and lowered once by
    each of [finished] tasks. *)
Definition wait_group (added finished : Z) : res unit :=
  if (finished <? added)%Z then Crash Blocked
  else if (added <? finished)%Z then Crash Panic
  else Ok tt.

Section Pebble.
Context `{PebbleLaws D} `{Schedule}.
Implicit Types (p : PebbleStateBackend D).

Definition NewPebbleStateBackend (d : D) (concurrent : bool) (maxConcurrency batchSize : Z)
    : res (PebbleStateBackend D) :=
  fatal_if (concurrent && (maxConcurrency <=? 0)%Z) "Invalid PebbleGetManyMaxConcurrency";;
  fatal_if (concurrent && (batchSize <=? 0)%Z) "Invalid PebbleGetManyBatchSize";;
  Ok (if concurrent then MkPebble d true maxConcurrency batchSize else MkPebble d false 0 0).

Definition peb_Get p (key : bytes) : option bytes := db_Get (db p) key.

Definition peb_Set p (key value : bytes) : PebbleStateBackend D :=
  MkPebble (db_Commit (db p) [BatchSet key value]) (enableConcurrentRead p)
    (getManyMaxConcurrency p) (getManyBatchSize p).

(** The task of one batch: its indices of the shared result slice. *)
Definition read_batch p (keys : list bytes) (result : list (option bytes)) (b : nat * nat)
    : res (list (option bytes)) :=
  foldM (λ result j, k ← idx keys j; set_idx result j (peb_Get p k))
    result (seq b.1 (b.2 - b.1)).

Definition num_batches p (n : Z) : Z :=
  Z.min (Z.quot (n + getManyBatchSize p - 1) (getManyBatchSize p)) (getManyMaxConcurrency p).

Definition batch_size p (n : Z) : Z := Z.quot (n + num_batches p n - 1) (num_batches p n).

Definition peb_GetMany p (keys : list bytes) : res (list (option bytes)) :=
  let n := length keys in
  if n =? 0 then Ok []
  else if enableConcurrentRead p then
    let numBatches := num_batches p (Z.of_nat n) in
    bounds ← batch_bounds n 0 n (Z.to_nat (batch_size p (Z.of_nat n)));
    result ← foldM (read_batch p keys) (replicate n None) (schedule bounds);
    wait_group numBatches (Z.of_nat (length bounds));;
    Ok result
  else Ok (peb_Get p <$> keys).

Definition with_db p (d : D) : PebbleStateBackend D :=
  MkPebble d (enableConcurrentRead p) (getManyMaxConcurrency p) (getManyBatchSize p).

Definition peb_SetMany p (keys values : list bytes) : res (PebbleStateBackend D) :=
  fatal_if (negb (length keys =? length values)) "SetMany(): len(keys) != len(values)";;
  Ok (with_db p (db_Commit (db p) ((λ kv, BatchSet kv.1 kv.2) <$> zip keys values))).

Definition peb_MergeMany p (keys values : list bytes) : res (PebbleStateBackend D) :=
  fatal_if (negb (length keys =? length values)) "MergeMany(): len(keys) != len(values)";;
  Ok (with_db p (db_Commit (db p) ((λ kv, BatchMerge kv.1 kv.2) <$> zip keys values))).

Definition peb_DeleteMany p (keys : list bytes) : res (PebbleStateBackend D) :=
  Ok (with_db p (db_Commit (db p) (BatchDelete <$> keys))).

Definition peb_RangeQuery p (lower upper : bytes) : res (list bytes * list bytes) :=
  let entries := db_Scan (db p) lower upper in Ok (entries.*1, entries.*2).

(** *** Concurrent reads *)

Lemma batch_bounds_Ok n bs i fuel :
  0 < bs → n ≤ i + fuel * bs →
  ∃ l, batch_bounds fuel i n bs = Ok l ∧
    l ≫= (λ b, seq b.1 (b.2 - b.1)) = seq i (n - i) ∧
    Z.of_nat (length l) = ((Z.of_nat (n - i) + Z.of_nat bs - 1) / Z.of_nat bs)%Z.
Proof.
  intros Hbs. revert i. induction fuel as [|fuel IH]; intros i Hle; cbn [batch_bounds];
    destruct (Nat.ltb_spec i n) as [Hlt|Hge].
  - lia.
  - exists []. replace (n - i) with 0 by lia. split_and!; [done..|]. simpl.
    rewrite Z.div_small; lia.
  - destruct (IH (i + bs)) as (l & -> & Hl & Hn); [lia|]. eexists. split; [done|]. split.
    + rewrite bind_cons, Hl. simpl. destruct (Nat.min_spec (i + bs) n) as [[? ->]|[? ->]].
      * replace (i + bs - i) with bs by lia. rewrite <-seq_app. f_equal. lia.
      * replace (n - (i + bs)) with 0 by lia. apply app_nil_r.
    + cbn [length]. rewrite Nat2Z.inj_succ, Hn. destruct (decide (bs ≤ n - i)).
      * replace (Z.of_nat (n - i) + Z.of_nat bs - 1)%Z
          with (Z.of_nat (n - (i + bs)) + Z.of_nat bs - 1 + 1 * Z.of_nat bs)%Z by lia.
        rewrite Z.div_add; lia.
      * replace (n - (i + bs)) with 0 by lia. rewrite (Z.div_small (_ + _ - 1)) by lia.
        apply (Z.div_unique _ _ 1 (Z.of_nat (n - i) - 1)); lia.
  - exists []. replace (n - i) with 0 by lia. split_and!; [done..|]. simpl.
    rewrite Z.div_small; lia.
Qed.


(** Writes of a function's values at distinct indices, in any order. *)
Lemma fill_at {A B} (f : A → B) (keys : list A) l (result : list B) :
  length result = length keys → (∀ j, j ∈ l → j < length keys) →
  ∃ result', foldM (λ result j, k ← idx keys j; set_idx result j (f k)) result l = Ok result' ∧
    length result' = length keys ∧
    ∀ j, result' !! j = if decide (j ∈ l) then f <$> keys !! j else result !! j.
Proof.
  revert result. induction l as [|i l IH]; intros result Hlen Hl.
  { exists result. split_and!; [done..|]. intros j. by rewrite decide_False by set_solver. }
  assert (Hi : i < length keys) by (apply Hl; by left).
  destruct (lookup_lt_is_Some_2 keys i Hi) as [k Hk]. cbn [foldM].
  rewrite (proj2 (idx_Ok _ _ _) Hk), bind_Ok.
  rewrite (proj2 (set_idx_Ok result i (f k) _) (conj (eq_ind_r (λ n, i < n) Hi Hlen) eq_refl)), bind_Ok.
  destruct (IH (<[i := f k]> result)) as (r' & -> & Hr' & Hspec).
  { by rewrite length_insert. }
  { intros j Hj. apply Hl. by right. }
  exists r'. split_and!; [done..|]. intros j. rewrite Hspec.
  destruct (decide (j ∈ l)) as [Hj|Hj]; [by rewrite decide_True by (by right)|].
  destruct (decide (j = i)) as [->|Hne].
  - rewrite decide_True by by left. rewrite list_lookup_insert_eq by lia. by rewrite Hk.
  - rewrite decide_False by set_solver. by apply list_lookup_insert_ne.
Qed.

Lemma fill_all {A B} (f : A → B) (keys : list A) l (result : list B) :
  length result = length keys → l ≡ₚ seq 0 (length keys) →
  foldM (λ result j, k ← idx keys j; set_idx result j (f k)) result l = Ok (f <$> keys).
Proof.
  intros Hlen Hl. destruct (fill_at f keys l result Hlen) as (r & -> & Hr & Hspec).
  { intros j. rewrite Hl, elem_of_seq. lia. }
  f_equal. apply list_eq. intros j. rewrite Hspec, list_lookup_fmap.
  destruct (decide (j ∈ l)) as [Hj|Hj]; [done|].
  rewrite Hl, elem_of_seq in Hj. rewrite (lookup_ge_None_2 result), (lookup_ge_None_2 keys); [done|lia..].
Qed.

Lemma read_batches p keys bounds n :
  bounds ≫= (λ b, seq b.1 (b.2 - b.1)) = seq 0 n → n = length keys →
  foldM (read_batch p keys) (replicate n None) (schedule bounds) = Ok (peb_Get p <$> keys).
Proof.
  intros Hb ->. unfold read_batch. rewrite <-(foldM_bind _ (λ b, seq b.1 (b.2 - b.1))).
  apply fill_all; [by rewrite length_replicate|]. by rewrite schedule_perm, Hb.
Qed.

(** The tasks a read of [n] keys submits. *)
Definition submitted p (n : Z) : Z := ((n + batch_size p n - 1) / batch_size p n)%Z.

Definition valid_config p : Prop :=
  enableConcurrentRead p = true → (0 < getManyMaxConcurrency p ∧ 0 < getManyBatchSize p)%Z.

Lemma num_batches_div p n :
  enableConcurrentRead p = true → valid_config p → (0 < n)%Z →
  num_batches p n = Z.min ((n + getManyBatchSize p - 1) / getManyBatchSize p) (getManyMaxConcurrency p) ∧
  (0 < num_batches p n)%Z ∧
  batch_size p n = ((n + num_batches p n - 1) / num_batches p n)%Z ∧ (0 < batch_size p n)%Z.
Proof.
  intros Hc Hv Hn. destruct (Hv Hc) as [Hm He].
  assert (Hnb : num_batches p n = Z.min ((n + getManyBatchSize p - 1) / getManyBatchSize p)
    (getManyMaxConcurrency p)) by (unfold num_batches; rewrite Z.quot_div_nonneg; lia).
  assert (Hpos : (0 < num_batches p n)%Z).
  { rewrite Hnb. apply Z.min_glb_lt; [|done]. apply Z.div_str_pos. lia. }
  assert (Hbs : batch_size p n = ((n + num_batches p n - 1) / num_batches p n)%Z).
  { unfold batch_size. apply Z.quot_div_nonneg; lia. }
  split_and!; try done. rewrite Hbs. apply Z.div_str_pos. lia.
Qed.

(** Ceiling division. *)
Lemma ceil_bounds n d : (0 < d)%Z → (n ≤ d * ((n + d - 1) / d) < n + d)%Z.
Proof. intros Hd. pose proof (Z.div_mod (n + d - 1) d). pose proof (Z.mod_pos_bound (n + d - 1) d). lia. Qed.

Lemma ceil_unique n d q : (0 < d)%Z → (d * (q - 1) < n ≤ d * q)%Z → ((n + d - 1) / d)%Z = q.
Proof.
  intros Hd Hq. symmetry. apply (Z.div_unique _ _ _ (n + d - 1 - d * q)); lia.
Qed.

Lemma submitted_le p n :
  enableConcurrentRead p = true → valid_config p → (0 < n)%Z → (submitted p n ≤ num_batches p n)%Z.
Proof.
  intros Hc Hv Hn. destruct (num_batches_div p n Hc Hv Hn) as (_ & Hp & Hbs & Hb).
  unfold submitted. pose proof (ceil_bounds n (num_batches p n) Hp) as Hc1. rewrite <-Hbs in Hc1.
  apply Z.lt_succ_r, Z.div_lt_upper_bound; lia.
Qed.

(** Enough keys per batch for the number of tasks: every reserved task is
    submitted. *)
Lemma submitted_all p n :
  enableConcurrentRead p = true → valid_config p → (0 < n)%Z →
  (getManyMaxConcurrency p ≤ getManyBatchSize p + 1)%Z → submitted p n = num_batches p n.
Proof.
  intros Hc Hv Hn Hcfg. destruct (num_batches_div p n Hc Hv Hn) as (Hnb & Hp & Hbs & Hb).
  destruct (Hv Hc) as [Hm He]. unfold submitted.
  pose proof (ceil_bounds n (num_batches p n) Hp) as Hc1. rewrite <-Hbs in Hc1.
  pose proof (ceil_bounds n (getManyBatchSize p) He) as Hc2.
  apply ceil_unique; [done|].
  assert ((num_batches p n - 1) * (num_batches p n - 1) < n)%Z.
  { assert (num_batches p n - 1 ≤ getManyBatchSize p)%Z by lia.
    assert ((num_batches p n - 1) * getManyBatchSize p < n)%Z by nia. nia. }
  nia.
Qed.

Lemma peb_GetMany_result p keys :
  valid_config p →
  peb_GetMany p keys =
    if enableConcurrentRead p && (submitted p (Z.of_nat (length keys)) <? num_batches p (Z.of_nat (length keys)))%Z &&
       negb (length keys =? 0)
    then Crash Blocked else Ok (peb_Get p <$> keys).
Proof.
  intros Hv. unfold peb_GetMany. destruct (Nat.eqb_spec (length keys) 0) as [Hz|Hz].
  { rewrite andb_false_r. by destruct keys. }
  rewrite andb_true_r. destruct (enableConcurrentRead p) eqn:Hc; [|done]. cbn [andb].
  set (n := Z.of_nat (length keys)).
  destruct (num_batches_div p n Hc Hv ltac:(lia)) as (_ & _ & _ & Hb).
  destruct (batch_bounds_Ok (length keys) (Z.to_nat (batch_size p n)) 0 (length keys))
    as (l & -> & Hseq & Hlen); [lia|assert (1 ≤ Z.to_nat (batch_size p n)) by lia; nia|].
  rewrite bind_Ok, Nat.sub_0_r in *. rewrite (read_batches p keys) by done. rewrite bind_Ok, Hlen.
  rewrite Z2Nat.id by lia. change (_ / _)%Z with (submitted p n).
  pose proof (submitted_le p n Hc Hv ltac:(lia)). unfold wait_group.
  destruct (Z.ltb_spec (submitted p n) (num_batches p n)); [done|].
  by destruct (Z.ltb_spec (num_batches p n) (submitted p n)); [lia|].
Qed.

#[export] Instance pebble_ops : StateBackendOps (PebbleStateBackend D) := {|
  sb_GetMany := peb_GetMany;
  sb_SetMany := peb_SetMany;
  sb_MergeMany := peb_MergeMany;
  sb_DeleteMany := peb_DeleteMany;
  sb_RangeQuery := peb_RangeQuery
|}.

Definition pebble_ok p : Prop :=
  valid_config p ∧
  (enableConcurrentRead p = true → (getManyMaxConcurrency p ≤ getManyBatchSize p + 1)%Z).

Lemma peb_GetMany_ok p keys : pebble_ok p → peb_GetMany p keys = Ok (peb_Get p <$> keys).
Proof.
  intros [Hv Hcfg]. rewrite peb_GetMany_result by done.
  destruct (enableConcurrentRead p) eqn:Hc; [|done]. cbn [andb].
  destruct (Nat.eqb_spec (length keys) 0) as [Hz|Hz]; [by rewrite andb_false_r|].
  rewrite submitted_all by (done || lia || by apply Hcfg). by rewrite Z.ltb_irrefl.
Qed.

Lemma commit_fmap {A} (f : A → batch_op) (g : store → A → store) d (l : list A) :
  (∀ s x, apply_batch_op s (f x) = g s x) →
  db_view (db_Commit d (f <$> l)) = foldl g (db_view d) l.
Proof.
  intros Hfg. rewrite db_Commit_view. generalize (db_view d) as s.
  induction l as [|x l IH]; intros s; [done|]. simpl. by rewrite Hfg, IH.
Qed.

#[export] Instance pebble_laws : StateBackendLaws (PebbleStateBackend D).
Proof.
  refine {| data_of := λ p, db_view (db p); backend_ok := pebble_ok |}.
  - intros p keys Hp. simpl. rewrite peb_GetMany_ok by done. f_equal.
    apply list_fmap_ext. intros _ k _. apply db_Get_view.
  - intros p keys values Hp Hlen. simpl. unfold peb_SetMany. rewrite Hlen, Nat.eqb_refl. simpl.
    eexists. split; [done|]. split; [done|]. simpl. by apply commit_fmap; intros ? [].
  - intros p keys values Hp Hlen. simpl. unfold peb_MergeMany. rewrite Hlen, Nat.eqb_refl. simpl.
    eexists. split; [done|]. split; [done|]. simpl. by apply commit_fmap; intros ? [].
  - intros p keys Hp. simpl. eexists. split; [done|]. split; [done|]. simpl. by apply commit_fmap.
Defined.

#[export] Instance pebble_range : RangeQueryLaws (PebbleStateBackend D).
Proof.
  split. intros p lower upper _. eexists _, _. split; [done|]. split_and!.
  - by rewrite !length_fmap.
  - apply db_Scan_NoDup.
  - intros k v. rewrite zip_fst_snd. apply db_Scan_view.
Qed.

(** C31: concurrent reads of the Pebble backend.  Whatever order the pool runs
    the tasks in, a [GetMany] with a valid configuration returns the value of
    every key in request order, or waits for ever: it waits exactly when the
    tasks that cover the keys are fewer than the tasks the wait group was
    raised by.  When the pool has at most one task more than keys per batch,
    as in the shipped configuration, it always returns. *)
Theorem pebble_get_many p keys (Hv : valid_config p) :
  peb_GetMany p keys =
    (if enableConcurrentRead p && (submitted p (Z.of_nat (length keys)) <? num_batches p (Z.of_nat (length keys)))%Z &&
        negb (length keys =? 0)
     then Crash Blocked else Ok (peb_Get p <$> keys)) ∧
  ((getManyMaxConcurrency p ≤ getManyBatchSize p + 1)%Z →
     peb_GetMany p keys = Ok (peb_Get p <$> keys)).
Proof.
  split; [by apply peb_GetMany_result|]. intros Hcfg. by apply peb_GetMany_ok.
Qed.
End Pebble.

(** *** A database in memory *)

#[export] Instance map_db : PebbleDB store := {|
  db_Get d k := d !! k;
  db_Commit := foldl apply_batch_op;
  db_Scan d lower upper := filter (λ kv, in_range lower upper kv.1 = true) (map_to_list d)
|}.

#[export] Instance map_db_laws : PebbleLaws store.
Proof.
  refine {| db_view := λ d, d |}; [done..| |].
  - intros d lower upper. simpl. apply NoDup_filter_keys, NoDup_fst_map_to_list.
  - intros d lower upper k v. simpl. rewrite list_elem_of_filter, elem_of_map_to_list. naive_solver.
Defined.

Definition demo_pebble : PebbleStateBackend store :=
  MkPebble {[ [1]%Z := [7]%Z; [2]%Z := [8; 9]%Z ]} true 4 1.

(** Five keys over at most four tasks of expected size one: three tasks are
    submitted and four are awaited. *)
Lemma pebble_get_many_witness :
  peb_GetMany demo_pebble [[1]; [2]; [3]; [1]; [2]]%Z = Crash Blocked ∧
  peb_GetMany demo_pebble [[2]; [3]; [1]]%Z = Ok [Some [8; 9]%Z; None; Some [7]%Z].
Proof.
  assert (Hv : valid_config demo_pebble) by (intros _; simpl; lia).
  split.
  - rewrite (proj1 (pebble_get_many demo_pebble [[1]; [2]; [3]; [1]; [2]]%Z Hv)). vm_compute. reflexivity.
  - rewrite (proj1 (pebble_get_many demo_pebble [[2]; [3]; [1]]%Z Hv)). vm_compute. reflexivity.
Defined.
