(* ===== verification/StateService.v ===== *)
(** * State service: what a state client relies on, and the local path

    [state/stateServiceApi.go]: the batched requests of an operator's state
    client.  [ServiceLaws] is the contract of the service; here the local path
    (the local helpers of [state/stateServiceUtil.go] over any backend)
    discharges it, later the remote protocols do. *)

From stdpp Require Import prelude gmap strings list.
From Stdlib Require Import ZArith Lia.
From S2P Require Import Prelude Backend.

(** ** Requests *)

Abbreviation keyed A := (gmap Z (list A)) (only parsing).

(** [m[k] = append(m[k], x)] *)
Definition append_at {A} (m : keyed A) (k : Z) (x : A) : keyed A :=
  <[k := default [] (m !! k) ++ [x]]> m.

Lemma append_at_lookup {A} (m : keyed A) k x j :
  append_at m k x !! j = if decide (j = k) then Some (default [] (m !! k) ++ [x]) else m !! j.
Proof. unfold append_at. case_decide as Hj; [subst; by rewrite lookup_insert_eq|by rewrite lookup_insert_ne]. Qed.

(** The requests of a batch, flattened over the states. *)
Definition request_pairs (keys values : keyed bytes) : list (bytes * bytes) :=
  map_to_list keys ≫= λ e, zip e.2 (default [] (values !! e.1)).

Definition request_keys (keys : keyed bytes) : list bytes := map_to_list keys ≫= snd.

(** Values come with the keys, one each. *)
Definition matches {A B} (keys : keyed A) (xs : keyed B) : Prop :=
  ∀ id ks, keys !! id = Some ks → ∃ vs, xs !! id = Some vs ∧ length vs = length ks.

(** A state key starts with the operator id and the bucket of the user's key. *)
Definition key_at (op n : Z) (k : bytes) (b : Z) : Prop :=
  (0 ≤ b < n)%Z ∧ ∃ rest, k = be_encode 2 op ++ be_encode 4 b ++ rest.

(** Bucket ids come with the keys and are theirs. *)
Definition addressed (op n : Z) (keys : keyed bytes) (bids : keyed Z) : Prop :=
  ∀ id ks, keys !! id = Some ks → ∃ bs, bids !! id = Some bs ∧ Forall2 (key_at op n) ks bs.

Lemma addressed_matches op n keys bids : addressed op n keys bids → matches keys bids.
Proof.
  intros Ha id ks Hks. destruct (Ha id ks Hks) as (bs & Hbs & Hall).
  exists bs. split; [done|]. symmetry. by eapply Forall2_length.
Qed.

(** ** The contract

    The service is a total map from key bytes to value bytes, an absent key
    and an empty value being alike: reads return it in request order; writes,
    merges and deletes update it at the requested keys only.  [serves s op n]
    is what lets [s] serve the [n] buckets of operator [op].  A client writes
    only keys it has read since: [held s k] is what a read establishes. *)

Class StateServiceOps (S : Type) := {
  GetManyMultiState : S → Z → keyed bytes → list Z → res (S * keyed (option bytes));
  SetManyMultiState : S → keyed bytes → keyed bytes → keyed Z → res S;
  MergeManyMultiState : S → keyed bytes → keyed bytes → keyed Z → res S;
  DeleteMany : S → keyed bytes → keyed Z → res S
}.

Class ServiceView (S : Type) := {
  value_of : S → bytes → bytes;
  serves : S → Z → Z → Prop;
  held : S → bytes → Prop
}.

(** The value a write request leaves at a key. *)
Definition written (keys values : keyed bytes) (k : bytes) : option bytes :=
  list_to_map (M := store) (request_pairs keys values) !! k.

(** After a request the service still serves the operator and still holds
    what it held. *)
Definition still_serves {S : Type} `{ServiceView S} (op n : Z) (s s' : S) : Prop :=
  serves s' op n ∧ ∀ k, held s k → held s' k.

(** A request the service can be asked to write. *)
Record writable {S : Type} `{ServiceView S} (op n : Z) (s : S) (keys : keyed bytes) (bids : keyed Z) : Prop := {
  wr_serves : serves s op n;
  wr_some : keys ≠ ∅;
  wr_addressed : addressed op n keys bids;
  wr_held : ∀ k, k ∈ request_keys keys → held s k
}.

Class ServiceLaws (S : Type) `{StateServiceOps S} `{ServiceView S} := {
  get_law : ∀ (s : S) op n keys bids, serves s op n → Forall (λ b, 0 ≤ b < n)%Z bids →
    (∀ id ks, keys !! id = Some ks → Forall2 (key_at op n) ks bids) →
    ∃ s' vals, GetManyMultiState s op keys bids = Ok (s', vals) ∧ still_serves op n s s' ∧
      (∀ k, value_of s' k = value_of s k) ∧ (∀ k, k ∈ request_keys keys → held s' k) ∧
      (∀ id, is_Some (vals !! id) ↔ is_Some (keys !! id)) ∧
      ∀ id ks vs, keys !! id = Some ks → vals !! id = Some vs →
        Forall2 (λ k v, default [] v = value_of s k) ks vs;
  set_law : ∀ (s : S) op n keys values bids, writable op n s keys bids →
    matches keys values → NoDup (request_keys keys) →
    ∃ s', SetManyMultiState s keys values bids = Ok s' ∧ still_serves op n s s' ∧
      ∀ k, value_of s' k = default (value_of s k) (written keys values k);
  merge_law : ∀ (s : S) op n keys values bids, writable op n s keys bids →
    matches keys values → NoDup (request_keys keys) →
    ∃ s', MergeManyMultiState s keys values bids = Ok s' ∧ still_serves op n s s' ∧
      ∀ k, value_of s' k = value_of s k ++ default [] (written keys values k);
  delete_law : ∀ (s : S) op n keys bids, writable op n s keys bids →
    ∃ s', DeleteMany s keys bids = Ok s' ∧ still_serves op n s s' ∧
      ∀ k, value_of s' k = if bool_decide (k ∈ request_keys keys) then [] else value_of s k
}.

(** *** Flattened requests *)

Lemma zip_keys {A} (keys : keyed bytes) (values : keyed A) (l : list (Z * list bytes)) :
  matches keys values → (∀ e, e ∈ l → keys !! e.1 = Some e.2) →
  (l ≫= λ e, zip e.2 (default [] (values !! e.1))).*1 = l ≫= snd.
Proof.
  intros Hm. induction l as [|[id ks] l IH]; intros Hl; [done|].
  rewrite !bind_cons, fmap_app, IH by set_solver. f_equal. simpl.
  destruct (Hm id ks) as (vs & Hvs & Hlen); [by apply (Hl (id, ks)); left|].
  rewrite Hvs. simpl. apply fst_zip. lia.
Qed.

Lemma NoDup_pairs (keys values : keyed bytes) :
  matches keys values → NoDup (request_keys keys) → NoDup (request_pairs keys values).*1.
Proof.
  intros Hm Hnd. unfold request_pairs. rewrite (zip_keys keys); [done|done|].
  intros [id ks] Hin. by apply elem_of_map_to_list in Hin.
Qed.

Lemma elem_of_request_keys (keys : keyed bytes) k :
  k ∈ request_keys keys ↔ ∃ id kl, keys !! id = Some kl ∧ k ∈ kl.
Proof.
  unfold request_keys. rewrite list_elem_of_bind. split.
  - intros ([id kl] & Hk & Hin%elem_of_map_to_list). eauto.
  - intros (id & kl & Hkl & Hk). exists (id, kl). by rewrite elem_of_map_to_list.
Qed.

Lemma elem_of_request_pairs (keys values : keyed bytes) p :
  p ∈ request_pairs keys values ↔ ∃ id kl, keys !! id = Some kl ∧ p ∈ zip kl (default [] (values !! id)).
Proof.
  unfold request_pairs. rewrite list_elem_of_bind. split.
  - intros ([id kl] & Hk & Hin%elem_of_map_to_list). eauto.
  - intros (id & kl & Hkl & Hk). exists (id, kl). by rewrite elem_of_map_to_list.
Qed.

(** No key occurs twice in a request: in no list and in no two of them. *)
Lemma NoDup_request_keys (keys : keyed bytes) :
  NoDup (request_keys keys) ↔ (∀ id kl, keys !! id = Some kl → NoDup kl) ∧
    ∀ id1 kl1 id2 kl2 k, keys !! id1 = Some kl1 → keys !! id2 = Some kl2 → k ∈ kl1 → k ∈ kl2 → id1 = id2.
Proof.
  split.
  - intros Hnd. unfold request_keys in Hnd. split.
    + intros id kl Hin%elem_of_map_to_list. apply list_elem_of_split in Hin as (l1 & l2 & E).
      rewrite E, bind_app, bind_cons in Hnd. apply NoDup_app in Hnd as (_ & _ & Hnd). by apply NoDup_app in Hnd as [? _].
    + intros id1 kl1 id2 kl2 k H1%elem_of_map_to_list H2%elem_of_map_to_list Hk1 Hk2.
      destruct (decide (id1 = id2)) as [|Hne]; [done|]. exfalso.
      apply list_elem_of_split in H1 as (l1 & l2 & E). rewrite E in Hnd, H2.
      rewrite bind_app, bind_cons in Hnd. apply NoDup_app in Hnd as (_ & Hd1 & Hnd).
      apply NoDup_app in Hnd as (_ & Hd2 & _). simpl in *.
      rewrite elem_of_app, elem_of_cons in H2. destruct H2 as [H2|[H2|H2]]; [|by injection H2 as ? ?|].
      * apply (Hd1 k); [apply list_elem_of_bind; by exists (id2, kl2)|]. by apply elem_of_app; left.
      * apply (Hd2 k); [done|]. apply list_elem_of_bind. by exists (id2, kl2).
  - intros [Hnd Hdis]. apply NoDup_bind.
    + intros [id1 kl1] [id2 kl2] k H1%elem_of_map_to_list H2%elem_of_map_to_list Hk1 Hk2. simpl in *.
      assert (id1 = id2) as -> by eauto. congruence.
    + intros [id kl] Hin%elem_of_map_to_list. eauto.
    + apply NoDup_map_to_list.
Qed.

Lemma size_eqb {A} (keys : gmap Z A) : keys ≠ ∅ → (size keys =? 0) = false.
Proof. intros Hne. apply Nat.eqb_neq. by rewrite map_size_empty_iff. Qed.

(** ** The local helpers *)

Section LocalHelpers.
Context `{GoRange} `{StateBackendLaws B}.
Implicit Types (b : B) (keys values : keyed bytes).

Definition readLocalState b keys : res (keyed (option bytes)) :=
  foldM (λ vals '(stateID, ks), vs ← sb_GetMany b ks; Ok (<[stateID := vs]> vals))
    ∅ (go_range keys).

(** A loop over the states that hands their keys and values to the backend. *)
Definition write_states (f : B → list bytes → list bytes → res B) (missing : string)
    b keys values : res B :=
  foldM (λ b '(stateID, ks),
      match values !! stateID with
      | Some vals => f b ks vals
      | None => Crash (Fatal missing)
      end) b (go_range keys).

Definition overwriteLocalState := write_states sb_SetMany "Values for state ID not found".
Definition mergeLocalState := write_states sb_MergeMany "Values for state ID not found".

Definition deleteLocalState b keys : res B :=
  foldM (λ b '(_, ks), sb_DeleteMany b ks) b (go_range keys).

(** *** What they do to the store *)

Lemma readLocalState_Ok b keys :
  backend_ok b → readLocalState b keys = Ok (read_all (data_of b) <$> keys : keyed (option bytes)).
Proof.
  intros Hb. unfold readLocalState.
  cut (∀ l (m : keyed (option bytes)), NoDup l.*1 →
    foldM (λ vals '(stateID, ks), vs ← sb_GetMany b ks; Ok (<[stateID := vs]> vals)) m l =
    Ok ((read_all (data_of b) <$> list_to_map (M := gmap Z (list bytes)) l) ∪ m)).
  { intros Hcut. rewrite Hcut by apply NoDup_go_range. rewrite map_union_empty. do 2 f_equal.
    rewrite (list_to_map_proper (go_range keys) (map_to_list keys));
      [apply list_to_map_to_list|apply NoDup_go_range|apply go_range_perm]. }
  induction l as [|[id ks] l IH]; intros m Hnd; [simpl; by rewrite fmap_empty, map_empty_union|].
  apply NoDup_cons in Hnd as [Hid Hnd]. cbn [foldM]. rewrite GetMany_law, bind_Ok by done.
  rewrite bind_Ok, IH by done. f_equal. cbn [list_to_map foldr]. simpl.
  rewrite fmap_insert, <-insert_union_l, <-insert_union_r; [done|].
  rewrite lookup_fmap, (not_elem_of_list_to_map_1 l id) by done. done.
Qed.

Lemma write_states_Ok f missing g b keys values :
  (∀ b ks vs, backend_ok b → length ks = length vs →
     ∃ b', f b ks vs = Ok b' ∧ backend_ok b' ∧ data_of b' = foldl g (data_of b) (zip ks vs)) →
  backend_ok b → matches keys values →
  ∃ b' l, write_states f missing b keys values = Ok b' ∧ backend_ok b' ∧
    l ≡ₚ request_pairs keys values ∧ data_of b' = foldl g (data_of b) l.
Proof.
  intros Hf Hb Hm.
  cut (∀ l b, backend_ok b → (∀ e, e ∈ l → keys !! e.1 = Some e.2) → ∃ b',
    foldM (λ b '(stateID, ks), match values !! stateID with
      | Some vals => f b ks vals | None => Crash (Fatal missing) end) b l = Ok b' ∧ backend_ok b' ∧
    data_of b' = foldl g (data_of b) (l ≫= λ e, zip e.2 (default [] (values !! e.1)))).
  { intros Hcut. destruct (Hcut (go_range keys) b Hb) as (b' & Hrun & Hb' & Hd).
    { intros [id ks] Hin. by apply elem_of_go_range in Hin. }
    eexists b', _. split_and!; [done..| |exact Hd].
    unfold request_pairs. by rewrite go_range_perm. }
  clear b Hb. induction l as [|[id ks] l IH]; intros b Hb Hl; [by exists b|].
  destruct (Hm id ks) as (vs & Hvs & Hlen); [by apply (Hl (id, ks)); left|].
  cbn [foldM]. rewrite Hvs. destruct (Hf b ks vs Hb ltac:(done)) as (b1 & -> & Hb1 & Hd1).
  rewrite bind_Ok. destruct (IH b1 Hb1) as (b' & -> & Hb' & Hd'); [set_solver|].
  exists b'. split_and!; [done..|]. rewrite Hd', Hd1, bind_cons, foldl_app. simpl. by rewrite Hvs.
Qed.

Lemma set_states_Ok missing b keys values :
  backend_ok b → matches keys values → NoDup (request_keys keys) →
  ∃ b', write_states sb_SetMany missing b keys values = Ok b' ∧ backend_ok b' ∧
    ∀ k, data_of b' !! k = from_option Some (data_of b !! k) (written keys values k).
Proof.
  intros Hb Hm Hnd.
  destruct (write_states_Ok sb_SetMany missing write_pair b keys values)
    as (b' & l & Hrun & Hb' & Hl & Hd); [by intros; apply SetMany_law|done..|].
  exists b'. split_and!; [done..|]. intros k.
  assert (Hnd' : NoDup l.*1) by (rewrite Hl; by apply NoDup_pairs).
  rewrite Hd, foldl_write by done. unfold written.
  rewrite (list_to_map_proper l (request_pairs keys values)) by done.
  rewrite lookup_union. by destruct (list_to_map _ !! k), (data_of b !! k).
Qed.

Lemma merge_states_Ok missing b keys values :
  backend_ok b → matches keys values → NoDup (request_keys keys) →
  ∃ b', write_states sb_MergeMany missing b keys values = Ok b' ∧ backend_ok b' ∧
    ∀ k, data_of b' !! k = from_option (λ v, Some (default [] (data_of b !! k) ++ v))
                             (data_of b !! k) (written keys values k).
Proof.
  intros Hb Hm Hnd.
  destruct (write_states_Ok sb_MergeMany missing merge_pair b keys values)
    as (b' & l & Hrun & Hb' & Hl & Hd); [by intros; apply MergeMany_law|done..|].
  exists b'. split_and!; [done..|]. intros k.
  assert (Hnd' : NoDup l.*1) by (rewrite Hl; by apply NoDup_pairs).
  rewrite Hd, foldl_merge by done. unfold written.
  rewrite (list_to_map_proper l (request_pairs keys values)) by done.
  by destruct (list_to_map _ !! k).
Qed.

Lemma deleteLocalState_Ok b keys :
  backend_ok b →
  ∃ b', deleteLocalState b keys = Ok b' ∧ backend_ok b' ∧
    ∀ k, data_of b' !! k = if bool_decide (k ∈ request_keys keys) then None else data_of b !! k.
Proof.
  intros Hb. unfold deleteLocalState.
  cut (∀ l b, backend_ok b → ∃ b',
    foldM (λ b '(_, ks), sb_DeleteMany b ks) b l = Ok b' ∧ backend_ok b' ∧
    data_of b' = foldl delete_key (data_of b) (l ≫= snd (A := Z))).
  { intros Hcut. destruct (Hcut (go_range keys) b Hb) as (b' & -> & Hb' & Hd).
    exists b'. split_and!; [done..|]. intros k. rewrite Hd, foldl_delete. unfold request_keys.
    by rewrite (bool_decide_ext (k ∈ (map_to_list keys ≫= snd)) (k ∈ (go_range keys ≫= snd)))
      by by rewrite go_range_perm. }
  clear b Hb. induction l as [|[id ks] l IH]; intros b Hb; [by exists b|].
  cbn [foldM]. destruct (DeleteMany_law b ks Hb) as (b1 & -> & Hb1 & Hd1). rewrite bind_Ok.
  destruct (IH b1 Hb1) as (b' & -> & Hb' & Hd'). exists b'. split_and!; [done..|].
  by rewrite Hd', Hd1, bind_cons, foldl_app.
Qed.
End LocalHelpers.

(** ** The local service *)

(** The part of [StateService] the local path uses. *)
Record LocalService (B : Type) := MkLocal { StateBackendImpl : B }.
Arguments MkLocal {B}.
Arguments StateBackendImpl {B}.

Section Local.
Context `{GoRange} `{StateBackendLaws B}.
Implicit Types (s : LocalService B) (keys values : keyed bytes).

(** The API functions under a protocol other than lazy. *)
Definition local_GetManyMultiState s keys : res (LocalService B * keyed (option bytes)) :=
  vals ← readLocalState (StateBackendImpl s) keys; Ok (s, vals).

Definition local_SetManyMultiState s keys values : res (LocalService B) :=
  fatal_if (size keys =? 0) "No keys to set";;
  b ← overwriteLocalState (StateBackendImpl s) keys values; Ok (MkLocal b).

Definition local_MergeManyMultiState s keys values : res (LocalService B) :=
  fatal_if (size keys =? 0) "No keys to merge";;
  b ← mergeLocalState (StateBackendImpl s) keys values; Ok (MkLocal b).

Definition local_DeleteMany s keys : res (LocalService B) :=
  fatal_if (size keys =? 0) "No keys to delete";;
  b ← deleteLocalState (StateBackendImpl s) keys; Ok (MkLocal b).

#[export] Instance local_ops : StateServiceOps (LocalService B) := {|
  GetManyMultiState s _ keys _ := local_GetManyMultiState s keys;
  SetManyMultiState s keys values _ := local_SetManyMultiState s keys values;
  MergeManyMultiState s keys values _ := local_MergeManyMultiState s keys values;
  DeleteMany s keys _ := local_DeleteMany s keys
|}.

Definition local_value s (k : bytes) : bytes := default [] (data_of (StateBackendImpl s) !! k).

#[export] Instance local_view : ServiceView (LocalService B) := {|
  value_of := local_value;
  serves s _ _ := backend_ok (StateBackendImpl s);
  held _ _ := True
|}.

#[export] Instance local_laws : ServiceLaws (LocalService B).
Proof.
  split.
  - intros s op n keys bids Hb _ Hk. simpl. unfold local_GetManyMultiState.
    rewrite readLocalState_Ok by done. eexists _, _. split; [done|]. split_and!; try done.
    + intros id. by rewrite lookup_fmap, fmap_is_Some.
    + intros id ks vs Hks. rewrite lookup_fmap, Hks. intros [= <-].
      apply Forall2_fmap_r, Forall_Forall2_diag, Forall_true. done.
  - intros s op n keys values bids [Hb Hne _ _] Hm Hnd. simpl. unfold local_SetManyMultiState.
    rewrite size_eqb by done. rewrite bind_fatal_false.
    unfold overwriteLocalState.
    destruct (set_states_Ok "Values for state ID not found" (StateBackendImpl s) keys values) as (b' & -> & Hb' & Hd); [done..|].
    rewrite bind_Ok. eexists. split; [done|]. split; [done|]. intros k. unfold local_value. simpl.
    rewrite Hd. by destruct (written keys values k).
  - intros s op n keys values bids [Hb Hne _ _] Hm Hnd. simpl. unfold local_MergeManyMultiState.
    rewrite size_eqb by done. rewrite bind_fatal_false.
    unfold mergeLocalState.
    destruct (merge_states_Ok "Values for state ID not found" (StateBackendImpl s) keys values) as (b' & -> & Hb' & Hd); [done..|].
    rewrite bind_Ok. eexists. split; [done|]. split; [done|]. intros k. unfold local_value. simpl.
    rewrite Hd. destruct (written keys values k); simpl; [done|]. by rewrite app_nil_r.
  - intros s op n keys bids [Hb Hne _ _]. simpl. unfold local_DeleteMany.
    rewrite size_eqb by done. rewrite bind_fatal_false.
    destruct (deleteLocalState_Ok (StateBackendImpl s) keys) as (b' & -> & Hb' & Hd); [done..|].
    rewrite bind_Ok. eexists. split; [done|]. split; [done|]. intros k. unfold local_value. simpl.
    rewrite Hd. by case_bool_decide.
Qed.
End Local.
