(* ===== verification/StateCache.v ===== *)
(** * State caches

    [api/stateClient/stateCache]: the per-batch cache of one state of an
    operator, by key or by key and window start.  A cache entry is a pointer
    the operator updates in place, fresh for every entry, so the model keeps
    the pointed-to state in the cache's map.  The flush data of a cache are
    the requests that bring the state service up to date; the facts at the end
    say which request every entry gives rise to. *)

From stdpp Require Import prelude gmap strings list.
From Stdlib Require Import ZArith Lia.
From S2P Require Import Prelude Codec StateType.

(** ** Data *)

(** [StateCacheBase[V]]: the flag, the type parameter [V] (which kind of state
    over which tuple type) and the codec, nil before [Setup]. *)
Record StateCacheBase := MkCacheBase {
  allowIncrementalSerialization : bool;
  valueKind : state_kind;
  valueType : list Kind;
  valueCodec : option (TupleEncoder * TupleDecoder * TupleSizer)
}.

(** The two implementations of the interface; [None] is a nil cache map.  Keys
    are values of a field kind. *)
Inductive StateCache :=
  | SimpleStateCache (base : StateCacheBase) (cache : option (gmap field StateType))
  | WindowStateCache (base : StateCacheBase) (cache : option (gmap field (gmap Z StateType))).

Definition newStateCacheBase (k : state_kind) (tys : list Kind) : StateCacheBase :=
  MkCacheBase false k tys None.

Definition NewSimpleStateCache (k : state_kind) (tys : list Kind) : StateCache :=
  SimpleStateCache (newStateCacheBase k tys) None.

Definition NewWindowStateCache (k : state_kind) (tys : list Kind) : StateCache :=
  WindowStateCache (newStateCacheBase k tys) None.

Definition cache_base (c : StateCache) : StateCacheBase :=
  match c with SimpleStateCache b _ => b | WindowStateCache b _ => b end.

Definition CleanUp (c : StateCache) : StateCache :=
  match c with
  | SimpleStateCache b _ => SimpleStateCache b None
  | WindowStateCache b _ => WindowStateCache b None
  end.

Definition IsUnset (c : StateCache) : bool :=
  match c with
  | SimpleStateCache _ m => bool_decide (m = None)
  | WindowStateCache _ m => bool_decide (m = None)
  end.

(** The eight lists of the flush data, three requests in parallel lists. *)
Record FlushData := MkFlush {
  KeysToWrite : list bytes; BucketIDsToWrite : list Z; ValuesToWrite : list bytes;
  KeysToMerge : list bytes; BucketIDsToMerge : list Z; ValuesToMerge : list bytes;
  KeysToDelete : list bytes; BucketIDsToDelete : list Z
}.

Definition FlushData_empty : FlushData := MkFlush [] [] [] [] [] [] [] [].

Section Cache.
Context `{Mus}.

(** [StateCacheBase.setup] *)
Definition cache_setup (b : StateCacheBase) (allowIncSerialization : bool) : res StateCacheBase :=
  enc ← CreateEncoder (valueType b);
  dec ← CreateDecoder (valueType b);
  siz ← CreateSizer (valueType b);
  Ok (MkCacheBase allowIncSerialization (valueKind b) (valueType b) (Some (enc, dec, siz))).

Definition cache_Setup (c : StateCache) (allowIncSerialization : bool) : res StateCache :=
  match c with
  | SimpleStateCache b m =>
      b ← cache_setup b allowIncSerialization; Ok (SimpleStateCache b m)
  | WindowStateCache b m =>
      b ← cache_setup b allowIncSerialization; Ok (WindowStateCache b m)
  end.

(** A call through a nil function panics. *)
Definition the_codec (b : StateCacheBase) : res (TupleEncoder * TupleDecoder * TupleSizer) :=
  match valueCodec b with Some c => Ok c | None => Crash Panic end.

Definition deserializeValue (b : StateCacheBase) (serializedValue : option bytes)
    : res StateType :=
  let value := StateType_New (valueKind b) in
  match serializedValue with
  | Some ((_ :: _) as bs) =>
      '(_, dec, _) ← the_codec b;
      Deserialize (valueType b) dec value bs
  | _ => Ok value
  end.

Definition SetSimpleStateCache (c : StateCache) (keys : list field)
    (serializedValues : list (option bytes)) : res StateCache :=
  match c with
  | SimpleStateCache b _ =>
      m ← foldM (λ m '(i, key),
          v ← idx serializedValues i;
          stateVal ← deserializeValue b v;
          Ok (<[key := stateVal]> m)) ∅ (imap pair keys);
      Ok (SimpleStateCache b (Some m))
  | WindowStateCache _ _ => Crash (Fatal "SetSimpleStateCache not implemented")
  end.

Definition SetWindowStateCache (c : StateCache) (keys : list field) (timestamps : list Z)
    (serializedValues : list (option bytes)) : res StateCache :=
  match c with
  | SimpleStateCache _ _ => Crash (Fatal "SetWindowStateCache not implemented")
  | WindowStateCache b _ =>
      m ← foldM (λ m '(i, key),
          v ← idx serializedValues i;
          stateVal ← deserializeValue b v;
          ts ← idx timestamps i;
          Ok (<[key := <[ts := stateVal]> (default ∅ (m !! key))]> m)) ∅ (imap pair keys);
      Ok (WindowStateCache b (Some m))
  end.

(** The body of both flush loops once [val] is looked up. *)
Definition flush_step (b : StateCacheBase) (fd : FlushData) (val : StateType)
    (serializedKeys : list bytes) (bucketIDs : list Z) (i : nat) : res FlushData :=
  if negb (HasValue val) then Ok fd
  else if IsDeleted val then
    serializedKey ← idx serializedKeys i;
    bucketID ← idx bucketIDs i;
    Ok (MkFlush (KeysToWrite fd) (BucketIDsToWrite fd) (ValuesToWrite fd)
          (KeysToMerge fd) (BucketIDsToMerge fd) (ValuesToMerge fd)
          (KeysToDelete fd ++ [serializedKey]) (BucketIDsToDelete fd ++ [bucketID]))
  else if IsUpdated val || (negb (allowIncrementalSerialization b) && IsAppended val) then
    serializedKey ← idx serializedKeys i;
    bucketID ← idx bucketIDs i;
    '(enc, _, siz) ← the_codec b;
    serializedValue ← st_Serialize enc siz val;
    Ok (MkFlush (KeysToWrite fd ++ [serializedKey]) (BucketIDsToWrite fd ++ [bucketID])
          (ValuesToWrite fd ++ [serializedValue])
          (KeysToMerge fd) (BucketIDsToMerge fd) (ValuesToMerge fd)
          (KeysToDelete fd) (BucketIDsToDelete fd))
  else if IsAppended val then
    serializedKey ← idx serializedKeys i;
    bucketID ← idx bucketIDs i;
    '(enc, _, siz) ← the_codec b;
    serializedValue ← SerializeInc enc siz val;
    Ok (MkFlush (KeysToWrite fd) (BucketIDsToWrite fd) (ValuesToWrite fd)
          (KeysToMerge fd ++ [serializedKey]) (BucketIDsToMerge fd ++ [bucketID])
          (ValuesToMerge fd ++ [serializedValue])
          (KeysToDelete fd) (BucketIDsToDelete fd))
  else Ok fd.

(** A lookup that misses gives a nil state, whose methods panic. *)
Definition found (v : option StateType) : res StateType :=
  match v with Some s => Ok s | None => Crash Panic end.

Definition GetSimpleStateFlushData (c : StateCache) (keys : list field)
    (serializedKeys : list bytes) (bucketIDs : list Z) : res FlushData :=
  match c with
  | SimpleStateCache b m =>
      fatal_if (negb (length keys =? length serializedKeys))
        "keys and serializedKeys must have the same length";;
      foldM (λ fd '(i, key),
          val ← found (default ∅ m !! key);
          flush_step b fd val serializedKeys bucketIDs i) FlushData_empty (imap pair keys)
  | WindowStateCache _ _ => Crash (Fatal "GetSimpleStateFlushData not implemented")
  end.

Definition GetWindowStateFlushData (c : StateCache) (keys : list field) (timestamps : list Z)
    (serializedKeys : list bytes) (bucketIDs : list Z) : res FlushData :=
  match c with
  | SimpleStateCache _ _ => Crash (Fatal "GetWindowStateFlushData not implemented")
  | WindowStateCache b m =>
      fatal_if (negb (length keys =? length timestamps) ||
                negb (length timestamps =? length serializedKeys))
        "keys, timestamps, and serializedKeys must have the same length";;
      foldM (λ fd '(i, key),
          ts ← idx timestamps i;
          val ← found (default ∅ (default ∅ m !! key) !! ts);
          flush_step b fd val serializedKeys bucketIDs i) FlushData_empty (imap pair keys)
  end.

Definition cache_GetSimpleState (c : StateCache) (key : field) : res StateType :=
  match c with
  | SimpleStateCache _ m =>
      match default ∅ m !! key with
      | Some val => Ok val
      | None => Crash (Fatal "[Simple state cache] All requested key must exist in cache")
      end
  | WindowStateCache _ _ => Crash (Fatal "GetSimpleState not implemented")
  end.

Definition cache_GetWindowState (c : StateCache) (key : field) (timestamp : Z) : res StateType :=
  match c with
  | SimpleStateCache _ _ => Crash (Fatal "GetWindowState not implemented")
  | WindowStateCache _ m =>
      match default ∅ m !! key with
      | Some windows =>
          match windows !! timestamp with
          | Some val => Ok val
          | None => Crash (Fatal "[Window state cache] All requested key must exist in cache")
          end
      | None => Crash (Fatal "[Window state cache] All requested key must exist in cache")
      end
  end.
End Cache.

(** ** Which request an entry gives rise to *)

Inductive flush_action := Skip | Overwrite | Merge | Remove.

#[export] Instance flush_action_eq_dec : EqDecision flush_action.
Proof. solve_decision. Defined.

Definition action_of (allowInc : bool) (val : StateType) : flush_action :=
  if negb (HasValue val) then Skip
  else if IsDeleted val then Remove
  else if IsUpdated val || (negb allowInc && IsAppended val) then Overwrite
  else if IsAppended val then Merge
  else Skip.

Definition append_start (s : StateType) : nat :=
  match s with ValueState _ _ => 0 | ListState _ _ _ i => i end.

(** An entry of the flush: a state, its key and its bucket. *)
Record entry := MkEntry { e_state : StateType; e_key : bytes; e_bucket : Z }.

Section FlushFacts.
Context `{MusLaws}.

Definition write_bytes (s : StateType) : bytes := list_bytes (state_tuples s).
Definition merge_bytes (s : StateType) : bytes :=
  list_bytes (drop (append_start s) (state_tuples s)).

(** The request of an entry, if it is the given one. *)
Definition request (allowInc : bool) (a : flush_action) (value : StateType → bytes) (e : entry)
    : option (bytes * Z * bytes) :=
  match action_of allowInc (e_state e), a with
  | Overwrite, Overwrite | Merge, Merge | Remove, Remove =>
      Some (e_key e, e_bucket e, value (e_state e))
  | _, _ => None
  end.

Definition writes (allowInc : bool) : list entry → list (bytes * Z * bytes) :=
  omap (request allowInc Overwrite write_bytes).
Definition merges (allowInc : bool) : list entry → list (bytes * Z * bytes) :=
  omap (request allowInc Merge merge_bytes).
Definition deletes (allowInc : bool) : list entry → list (bytes * Z * bytes) :=
  omap (request allowInc Remove (λ _, [])).

Definition flush_of (allowInc : bool) (es : list entry) : FlushData :=
  MkFlush (writes allowInc es).*1.*1 (writes allowInc es).*1.*2 (writes allowInc es).*2
    (merges allowInc es).*1.*1 (merges allowInc es).*1.*2 (merges allowInc es).*2
    (deletes allowInc es).*1.*1 (deletes allowInc es).*1.*2.

(** The state can be serialized the way its flags ask for. *)
Definition flushable (tys : list Kind) (allowInc : bool) (s : StateType) : Prop :=
  Forall (well_typed tys) (state_tuples s) ∧
  (action_of allowInc s = Overwrite → state_tuples s ≠ []) ∧
  (action_of allowInc s = Merge → append_start s < length (state_tuples s)).

Definition cache_ready (b : StateCacheBase) : Prop :=
  ∃ enc dec siz, valueCodec b = Some (enc, dec, siz) ∧ codec_of (valueType b) enc dec siz.

Lemma flush_of_snoc allowInc es e :
  flush_of allowInc (es ++ [e]) =
  let fd := flush_of allowInc es in
  match action_of allowInc (e_state e) with
  | Skip => fd
  | Overwrite => MkFlush (KeysToWrite fd ++ [e_key e]) (BucketIDsToWrite fd ++ [e_bucket e])
      (ValuesToWrite fd ++ [write_bytes (e_state e)])
      (KeysToMerge fd) (BucketIDsToMerge fd) (ValuesToMerge fd)
      (KeysToDelete fd) (BucketIDsToDelete fd)
  | Merge => MkFlush (KeysToWrite fd) (BucketIDsToWrite fd) (ValuesToWrite fd)
      (KeysToMerge fd ++ [e_key e]) (BucketIDsToMerge fd ++ [e_bucket e])
      (ValuesToMerge fd ++ [merge_bytes (e_state e)])
      (KeysToDelete fd) (BucketIDsToDelete fd)
  | Remove => MkFlush (KeysToWrite fd) (BucketIDsToWrite fd) (ValuesToWrite fd)
      (KeysToMerge fd) (BucketIDsToMerge fd) (ValuesToMerge fd)
      (KeysToDelete fd ++ [e_key e]) (BucketIDsToDelete fd ++ [e_bucket e])
  end.
Proof.
  unfold flush_of, writes, merges, deletes. rewrite !omap_app. simpl.
  unfold request. destruct (action_of allowInc (e_state e)); simpl;
    rewrite ?app_nil_r, ?fmap_app; done.
Qed.

Lemma flush_step_Ok b es val keys bids i k bid :
  cache_ready b → flushable (valueType b) (allowIncrementalSerialization b) val →
  keys !! i = Some k → bids !! i = Some bid →
  flush_step b (flush_of (allowIncrementalSerialization b) es) val keys bids i =
    Ok (flush_of (allowIncrementalSerialization b) (es ++ [MkEntry val k bid])).
Proof.
  intros (enc & dec & siz & Hc & Hcodec) (Hwt & Hw & Hm) Hk Hb.
  rewrite flush_of_snoc. unfold flush_step. unfold action_of in *. simpl in *.
  unfold idx, the_codec. rewrite Hk, Hb, Hc.
  destruct (HasValue val); simpl in *; [|done].
  destruct (IsDeleted val); simpl in *; [done|].
  destruct (IsUpdated val || _); simpl in *.
  - rewrite (st_Serialize_Ok Hcodec) by auto. done.
  - destruct (IsAppended val) eqn:Ea; simpl in *; [|done].
    destruct val as [|vb l a j]; [done|]. simpl in *.
    rewrite (serializeFromIndex_Ok Hcodec) by auto. done.
Qed.

(** Both flush loops, once every lookup succeeds. *)
Lemma flush_loop_Ok b (lookup : nat → field → res StateType) keys skeys bids vals :
  cache_ready b →
  Forall (flushable (valueType b) (allowIncrementalSerialization b)) vals →
  length vals = length keys → length skeys = length keys → length bids = length keys →
  (∀ i key, keys !! i = Some key → ∃ v, vals !! i = Some v ∧ lookup i key = Ok v) →
  foldM (λ fd '(i, key), val ← lookup i key; flush_step b fd val skeys bids i)
    FlushData_empty (imap pair keys) =
    Ok (flush_of (allowIncrementalSerialization b)
          (zip_with (λ v kb, MkEntry v kb.1 kb.2) vals (zip skeys bids))).
Proof.
  intros Hready Hfl Hlv Hls Hlb Hlook.
  set (es := zip_with _ vals (zip skeys bids)).
  destruct (foldM_total (λ fd '(i, key), val ← lookup i key; flush_step b fd val skeys bids i)
    (λ pre fd, fd = flush_of (allowIncrementalSerialization b) (take (length pre) es))
    (imap pair keys) FlushData_empty) as (fd & Hfd & ->); [done| |].
  - intros pre [i key] fd [suf Hpre] ->.
    assert (Hi : imap pair keys !! length pre = Some (i, key)).
    { rewrite Hpre, lookup_app_l, list_lookup_middle by (rewrite ?length_app; simpl; lia || done).
      done. }
    rewrite list_lookup_imap in Hi. destruct (keys !! length pre) as [key'|] eqn:Ek; [|done].
    simpl in Hi. injection Hi as <- <-.
    destruct (Hlook _ _ Ek) as (v & Hv & ->). rewrite bind_Ok.
    pose proof (lookup_lt_Some _ _ _ Ek) as Hlt.
    destruct (lookup_lt_is_Some_2 skeys (length pre) ltac:(lia)) as [k Hk].
    destruct (lookup_lt_is_Some_2 bids (length pre) ltac:(lia)) as [bid Hb].
    rewrite (flush_step_Ok b _ _ _ _ _ k bid) by (done || by eapply Forall_lookup_1).
    eexists. split; [done|]. f_equal. rewrite length_app. simpl. rewrite Nat.add_1_r.
    symmetry. apply take_S_r. unfold es. rewrite lookup_zip_with, Hv. simpl.
    by rewrite lookup_zip_with, Hk, Hb.
  - rewrite Hfd. f_equal. f_equal. apply take_ge. unfold es.
    rewrite length_zip_with, length_zip, length_imap. lia.
Qed.

(** *** States that remember what they were fetched from *)

(** What the service holds under the key once the entry is flushed. *)
Definition new_value (allowInc : bool) (old : bytes) (s : StateType) : bytes :=
  match action_of allowInc s with
  | Skip => old
  | Overwrite => write_bytes s
  | Merge => old ++ merge_bytes s
  | Remove => []
  end.

(** [s] was fetched with the tuples [l0] and updated through its methods: as
    long as it is not marked updated, it still starts with [l0] and its append
    index points past it. *)
Definition tracks (l0 : list Tuple) (s : StateType) : Prop :=
  (if HasValue s then state_tuples s ≠ []
   else state_tuples s = [] ∧ l0 = [] ∧ IsUpdated s = false ∧ IsAppended s = false) ∧
  (IsUpdated s = false →
   match s with
   | ValueState _ v => option_list v = l0
   | ListState _ l a i =>
       i = length l0 ∧ take i l = l0 ∧ (a = false → l = l0) ∧ (a = true → i < length l)
   end).

(** Calls that leave a state serializable: no empty list is written. *)
Definition op_ok (tys : list Kind) (l0 : list Tuple) (op : state_op) : Prop :=
  match op with
  | OSet v | OAdd v => well_typed tys v
  | OUpdate l | OAddAll l => l ≠ [] ∧ Forall (well_typed tys) l
  | OClear => True
  | OCopyFrom other => tracks l0 other ∧ Forall (well_typed tys) (state_tuples other)
  end.

Lemma apply_op_tracks tys l0 s op s' :
  tracks l0 s → Forall (well_typed tys) (state_tuples s) → op_ok tys l0 op →
  apply_op s op = Ok s' → tracks l0 s' ∧ Forall (well_typed tys) (state_tuples s').
Proof.
  intros [Hv Ht] Hwt Hop. unfold tracks, HasValue, IsUpdated, IsAppended in *.
  destruct op as [v|l|v|l| |other], s as [b o|b l' a i]; simpl in *; try discriminate.
  - intros [= <-]. split; [|by constructor]. by split.
  - intros [= <-]. split; [|naive_solver]. split; [naive_solver|done].
  - intros [= <-]. split; [|apply Forall_app; by rewrite Forall_singleton].
    split; [by destruct l'|]. simpl. intros Hu. specialize (Ht Hu) as (-> & Hl & _ & _).
    split_and!; [done| |done|].
    + rewrite take_app_le; [done|]. apply (f_equal length) in Hl. rewrite length_take in Hl. lia.
    + intros _. apply (f_equal length) in Hl. rewrite length_take in Hl. rewrite length_app.
      simpl. lia.
  - intros [= <-]. destruct Hop as [Hne Hwl]. split; [|by apply Forall_app].
    split; [simpl; by destruct l', l|]. simpl. intros Hu. specialize (Ht Hu) as (-> & Hl & _ & _).
    apply (f_equal length) in Hl as Hlen. rewrite length_take in Hlen.
    split_and!; [done| |done|].
    + rewrite take_app_le; [done|lia].
    + intros _. rewrite length_app. destruct l; [done|]. simpl. lia.
  - intros [= <-]. by split.
  - intros [= <-]. by split.
  - destruct other; [|discriminate]. intros [= <-]. naive_solver.
  - destruct other; [discriminate|]. intros [= <-]. naive_solver.
Qed.

Lemma tracks_flushable tys allowInc l0 s :
  tracks l0 s → Forall (well_typed tys) (state_tuples s) → flushable tys allowInc s.
Proof.
  intros [Hv Ht] Hwt. unfold flushable, action_of. split; [done|].
  destruct (HasValue s); simpl; [|done]. destruct (IsDeleted s); simpl; [done|].
  destruct (IsUpdated s) eqn:Hu; simpl; [by split|].
  specialize (Ht eq_refl). destruct s as [b o|b l a i]; simpl in *.
  - by rewrite andb_false_r.
  - destruct Ht as (-> & Hl & Hna & Ha). destruct a, (negb allowInc); simpl; split; try done; auto.
Qed.

(** The flush makes the service hold exactly the state: nothing for a cleared
    or empty one, all its tuples otherwise, however little was sent. *)
Lemma new_value_tracks allowInc l0 old s :
  tracks l0 s → old = list_bytes l0 →
  new_value allowInc old s =
    if HasValue s && negb (IsDeleted s) then list_bytes (state_tuples s) else [].
Proof.
  intros [Hv Ht] Hold. unfold new_value, action_of, merge_bytes, write_bytes.
  destruct (HasValue s); simpl.
  - destruct (IsDeleted s); simpl; [done|].
    destruct (IsUpdated s) eqn:Hu; simpl; [done|]. specialize (Ht eq_refl).
    destruct s as [b o|b l a i]; simpl in *.
    + rewrite andb_false_r. by rewrite Hold, Ht.
    + destruct Ht as (-> & Hl & Hna & Ha). destruct a; [|rewrite andb_false_r; by rewrite Hold, Hna].
      destruct allowInc; simpl; [|done].
      rewrite Hold, <-list_bytes_app. f_equal.
      rewrite <-(take_drop (length l0) l) at 2. by rewrite Hl.
  - destruct Hv as (_ & -> & _). by rewrite Hold.
Qed.

(** Appending nothing is not a no-op.  A list state fetched with the tuples
    [l], on which [AddAll] is called with an empty slice and nothing else,
    makes the flush end the process: under incremental serialization
    whatever [l] is, without it when [l] is empty. *)
Theorem append_nothing_fatal b fd l keys bids i k bid
    (Hready : cache_ready b) (Hk : keys !! i = Some k) (Hb : bids !! i = Some bid)
    (Hmode : allowIncrementalSerialization b = true ∨ l = []) :
  ∃ s, apply_op (ListState (MkBase (bool_decide (l ≠ [])) false false) l false (length l))
         (OAddAll []) = Ok s ∧
    flush_step b fd s keys bids i = Crash (Fatal "[ListState] startIdx >= len(state)").
Proof.
  destruct Hready as (enc & dec & siz & Hc & _).
  eexists. split; [done|]. unfold flush_step. simpl. unfold idx. rewrite Hk, Hb.
  unfold the_codec. rewrite Hc, andb_true_r, app_nil_r.
  destruct (allowIncrementalSerialization b) eqn:Ea; simpl.
  - unfold serializeFromIndex. by rewrite bool_decide_true.
  - destruct Hmode as [?| ->]; [done|]. done.
Qed.
End FlushFacts.

Lemma append_nothing_fatal_witness :
  ∃ b s, apply_op (ListState (MkBase true false false) [demo_tuple] false 1) (OAddAll []) = Ok s ∧
    flush_step b FlushData_empty s [[1%Z]] [0%Z] 0 =
      Crash (Fatal "[ListState] startIdx >= len(state)").
Proof.
  destruct (codec_exists demo_type) as (enc & dec & siz & Hc); [by repeat constructor|].
  exists (MkCacheBase true SList demo_type (Some (enc, dec, siz))).
  destruct (append_nothing_fatal (MkCacheBase true SList demo_type (Some (enc, dec, siz)))
    FlushData_empty [demo_tuple] [[1%Z]] [0%Z] 0 [1%Z] 0%Z) as (s & Hs & Hf).
  - exists enc, dec, siz. split; [reflexivity|exact Hc].
  - reflexivity.
  - reflexivity.
  - left. reflexivity.
  - exists s. split; [exact Hs|exact Hf].
Defined.
