(* ===== verification/StateClient.v ===== *)
(** * State client

    [api/stateClient/stateClient.go] and [stateClientUtils.go]: between a
    stateful operator and the state service.  A batch fetches the states of
    its keys into the caches, the operator updates them there, and the flush
    sends what changed.  Keys are encoded as

      operator id (2 bytes) | bucket (4) | state id (2) | key | [window start]

    The theorems: keys of different states, buckets, user keys or windows
    never share an encoding; a fetch fills the caches with exactly what the
    service holds; after a flush the service holds exactly the cached states,
    and nothing else of it has changed. *)

From stdpp Require Import prelude gmap strings list.
From Stdlib Require Import ZArith Lia.
From S2P Require Import Prelude Partition Codec StateType StateCache Backend StateService.

Inductive StateClientType := SimpleStateClient | WindowStateClient.

#[export] Instance StateClientType_eq_dec : EqDecision StateClientType.
Proof. solve_decision. Defined.

(** [internal/constant]: sizes of the key prefix, and the offsets they give. *)
Definition OperatorIDSize : nat := 2.
Definition StateIDSize : nat := 2.
Definition KeyPrefixSize : nat := OperatorIDSize + StateIDSize + Z.to_nat BucketIdxSize.
Definition BucketIDOffset : nat := OperatorIDSize.
Definition StateIDOffset : nat := OperatorIDSize + Z.to_nat BucketIdxSize.

(** A client while the job graph is built: the states registered so far.
    [cd_keyKind] is the type parameter [K]. *)
Record ClientDecl := MkDecl {
  curStateIdCounter : Z;
  cd_type : StateClientType;
  cd_keyKind : Kind;
  cd_cache : gmap Z StateCache
}.

(** A client after [Setup], with the fields of a running task. *)
Record StateClient (S : Type) := MkClient {
  operatorID : Z;
  stateService : S;
  stateClientType : StateClientType;
  keyHashFunc : HashFunc;
  sc_numBuckets : Z;
  keyKind : Kind;
  keyEncoder : EncodeFunc;
  keySizer : SizeFunc;
  sc_cache : gmap Z StateCache;
  dedupedKeys : list field;
  bucketIDs : list Z;
  serializedKeys : keyed bytes;
  dedupedWindowStartTimes : list Z
}.
Arguments MkClient {S}.
Arguments operatorID {S}.
Arguments stateService {S}.
Arguments stateClientType {S}.
Arguments keyHashFunc {S}.
Arguments sc_numBuckets {S}.
Arguments keyKind {S}.
Arguments keyEncoder {S}.
Arguments keySizer {S}.
Arguments sc_cache {S}.
Arguments dedupedKeys {S}.
Arguments bucketIDs {S}.
Arguments serializedKeys {S}.
Arguments dedupedWindowStartTimes {S}.

Section Client.
Context `{Mus} `{GoRange} {S : Type} `{StateServiceOps S}.
Implicit Types sc : StateClient S.

(** ** Setters *)

Definition set_caches sc (m : gmap Z StateCache) : StateClient S :=
  MkClient (operatorID sc) (stateService sc) (stateClientType sc)
    (keyHashFunc sc) (sc_numBuckets sc) (keyKind sc) (keyEncoder sc) (keySizer sc)
    m (dedupedKeys sc) (bucketIDs sc) (serializedKeys sc) (dedupedWindowStartTimes sc).

Definition set_service sc (s : S) : StateClient S :=
  MkClient (operatorID sc) s (stateClientType sc)
    (keyHashFunc sc) (sc_numBuckets sc) (keyKind sc) (keyEncoder sc) (keySizer sc)
    (sc_cache sc) (dedupedKeys sc) (bucketIDs sc) (serializedKeys sc)
    (dedupedWindowStartTimes sc).

Definition set_batch sc (keys : list field) (starts bids : list Z) (skeys : keyed bytes)
    : StateClient S :=
  MkClient (operatorID sc) (stateService sc) (stateClientType sc)
    (keyHashFunc sc) (sc_numBuckets sc) (keyKind sc) (keyEncoder sc) (keySizer sc)
    (sc_cache sc) keys bids skeys starts.

(** ** Registration and setup *)

Definition NewStateClient (t : StateClientType) (keyKind : Kind) : ClientDecl :=
  MkDecl 0 t keyKind ∅.

(** [RegisterState[T]]: [k] and [tys] are the state type [T]. *)
Definition RegisterState (d : ClientDecl) (k : state_kind) (tys : list Kind) : ClientDecl * Z :=
  let curStateID := curStateIdCounter d in
  let c := match cd_type d with
           | SimpleStateClient => NewSimpleStateCache k tys
           | WindowStateClient => NewWindowStateCache k tys
           end in
  (MkDecl (u16 (curStateID + 1)) (cd_type d) (cd_keyKind d) (<[curStateID := c]> (cd_cache d)),
   curStateID).

Definition allows_incremental (stateBackendType : string) : bool :=
  negb (bool_decide (stateBackendType = "tikv") ||
        bool_decide (stateBackendType = "memory") ||
        bool_decide (stateBackendType = "remote-pebble")).

(** [Setup]: the configuration is the hash function (already chosen), the
    number of buckets and the backend type. *)
Definition Setup (d : ClientDecl) (opID : Z) (service : S) (h : HashFunc) (numBuckets : Z)
    (stateBackendType : string) : res (StateClient S) :=
  ke ← EncodeFuncFromKind (cd_keyKind d);
  _ ← DecodeFuncFromKind (cd_keyKind d);
  ks ← TupleSizeFuncFromKind (cd_keyKind d);
  fatal_if (size (cd_cache d) =? 0)
    "Check operator implementation: no state registered in state client";;
  m ← foldM (λ m '(id, c),
        c ← cache_Setup c (allows_incremental stateBackendType); Ok (<[id := c]> m))
      (cd_cache d) (go_range (cd_cache d));
  Ok (MkClient opID service (cd_type d) h numBuckets (cd_keyKind d) ke ks m [] [] ∅ []).

(** ** Key encoding *)

Definition encodeStateID (buf : bytes) (stateID : Z) : res bytes :=
  write_at buf StateIDOffset (be_encode 2 stateID).

Definition encodeKeyPrefix sc (buf key : bytes) (stateID : Z) : res (bytes * Z) :=
  buf ← write_at buf 0 (be_encode 2 (operatorID sc));
  panic_if (u64 (sc_numBuckets sc) =? 0)%Z;;
  let bucketIdx := (Hash (keyHashFunc sc) key mod u64 (sc_numBuckets sc))%Z in
  buf ← write_at buf BucketIDOffset (be_encode 4 (u32 bucketIdx));
  buf ← encodeStateID buf stateID;
  Ok (buf, i64 bucketIdx).

Definition encodeSimpleKey sc (key : field) (stateID : Z) : res (bytes * Z) :=
  n ← keySizer sc key;
  let buf := replicate (KeyPrefixSize + n) 0%Z in
  bs ← keyEncoder sc key;
  buf ← write_at buf KeyPrefixSize bs;
  tl ← go_slice buf KeyPrefixSize (length buf);
  encodeKeyPrefix sc buf tl stateID.

Definition encodeWindowKey sc (key : field) (windowStartTime stateID : Z) : res (bytes * Z) :=
  n ← keySizer sc key;
  let buf := replicate (KeyPrefixSize + n + SizeNum KInt64 windowStartTime) 0%Z in
  bs ← keyEncoder sc key;
  buf ← write_at buf KeyPrefixSize bs;
  let windowStartTimeOffset := KeyPrefixSize + length bs in
  buf ← write_at buf windowStartTimeOffset (MarshalNum KInt64 windowStartTime);
  tl ← go_slice buf KeyPrefixSize windowStartTimeOffset;
  encodeKeyPrefix sc buf tl stateID.

Definition validateStateIDs sc (stateIDs : list Z) : res unit :=
  fatal_if (length stateIDs =? 0) "Empty state IDs to fetch";;
  foldM (λ _ stateID,
      fatal_if (bool_decide (sc_cache sc !! stateID = None))
        "[Wrong state ID] requested State ID not registered in state client") tt stateIDs.

Definition serializeMultiStateKeys (template : bytes) (stateIDs : list Z) (skeys : keyed bytes)
    : res (keyed bytes) :=
  foldM (λ skeys stateID,
      copy ← encodeStateID template stateID;
      Ok (append_at skeys stateID copy)) skeys stateIDs.

(** The key loop of both fetches: [encode] is the key's encoding for the first
    state. *)
Definition serialize_key (encode : nat → field → Z → res (bytes * Z)) (stateIDs : list Z)
    (st : list Z * keyed bytes) (x : nat * field) : res (list Z * keyed bytes) :=
  let '(bids, skeys) := st in
  stateID ← idx stateIDs 0;
  '(serializedKey, bucketId) ← encode x.1 x.2 stateID;
  skeys ← serializeMultiStateKeys serializedKey (drop 1 stateIDs)
            (append_at skeys stateID serializedKey);
  Ok (bids ++ [bucketId], skeys).

(** The caches after a fetch: filled for the requested states, cleaned for the
    others. *)
Definition fill_caches (set : StateCache → list (option bytes) → res StateCache)
    (values : keyed (option bytes)) (caches : gmap Z StateCache) : res (gmap Z StateCache) :=
  foldM (λ m '(stateID, c),
      c ← match values !! stateID with
          | Some vs => set c vs
          | None => Ok (CleanUp c)
          end;
      Ok (<[stateID := c]> m)) caches (go_range caches).

Definition count_values {A} (values : keyed A) : nat :=
  foldl (λ n e, n + length e.2) 0 (go_range values).

(** ** Simple state *)

(** Keys in order of first occurrence. *)
Definition dedup_keys (keys : list field) : list field :=
  (foldl (λ st key, if decide (key ∈ st.1) then st
                    else ({[key]} ∪ st.1, st.2 ++ [key]))
    (∅ : gset field, []) keys).2.

Definition FetchSimpleState sc (keys : list field) (stateIDs : list Z)
    : res (StateClient S * nat) :=
  fatal_if (bool_decide (stateClientType sc = WindowStateClient))
    "For window state client, use FetchWindowState()";;
  fatal_if (length keys =? 0) "Empty keys to fetch";;
  validateStateIDs sc stateIDs;;
  let deduped := dedup_keys keys in
  let skeys0 := foldl (λ m id, <[id := []]> m) (∅ : keyed bytes) stateIDs in
  '(bids, skeys) ← foldM (serialize_key (λ _ key id, encodeSimpleKey sc key id) stateIDs)
                     ([], skeys0) (imap pair deduped);
  '(s, values) ← GetManyMultiState (stateService sc) (operatorID sc) skeys bids;
  caches ← fill_caches (λ c vs, SetSimpleStateCache c deduped vs) values (sc_cache sc);
  Ok (set_caches (set_service
        (set_batch sc deduped (dedupedWindowStartTimes sc) bids skeys) s) caches,
      count_values values).

(** The eight maps of a flush, by state. *)
Record AllFlush := MkAll {
  allKeysToWrite : keyed bytes; allBucketsToWrite : keyed Z; allValuesToWrite : keyed bytes;
  allKeysToMerge : keyed bytes; allBucketsToMerge : keyed Z; allValuesToMerge : keyed bytes;
  allKeysToDelete : keyed bytes; allBucketsToDelete : keyed Z
}.

(** [if len(xs) > 0 { all[stateID] = ys }] *)
Definition put_if {A B} (xs : list A) (id : Z) (ys : list B) (m : keyed B) : keyed B :=
  if length xs =? 0 then m else <[id := ys]> m.

Definition collect_step (flush : StateCache → list bytes → res FlushData)
    (caches : gmap Z StateCache) (all : AllFlush) (x : Z * list bytes) : res AllFlush :=
  let '(id, skeys) := x in
  c ← match caches !! id with Some c => Ok c | None => Crash Panic end;
  fd ← flush c skeys;
  Ok (MkAll
    (put_if (KeysToWrite fd) id (KeysToWrite fd) (allKeysToWrite all))
    (put_if (KeysToWrite fd) id (BucketIDsToWrite fd) (allBucketsToWrite all))
    (put_if (KeysToWrite fd) id (ValuesToWrite fd) (allValuesToWrite all))
    (put_if (KeysToMerge fd) id (KeysToMerge fd) (allKeysToMerge all))
    (put_if (KeysToMerge fd) id (BucketIDsToMerge fd) (allBucketsToMerge all))
    (put_if (KeysToMerge fd) id (ValuesToMerge fd) (allValuesToMerge all))
    (put_if (KeysToDelete fd) id (KeysToDelete fd) (allKeysToDelete all))
    (put_if (KeysToDelete fd) id (BucketIDsToDelete fd) (allBucketsToDelete all))).

Definition send_flush (s : S) (all : AllFlush) : res S :=
  s ← (if size (allKeysToWrite all) =? 0 then Ok s
       else SetManyMultiState s (allKeysToWrite all) (allValuesToWrite all)
              (allBucketsToWrite all));
  s ← (if size (allKeysToMerge all) =? 0 then Ok s
       else MergeManyMultiState s (allKeysToMerge all) (allValuesToMerge all)
              (allBucketsToMerge all));
  (if size (allKeysToDelete all) =? 0 then Ok s
   else DeleteMany s (allKeysToDelete all) (allBucketsToDelete all)).

(** The common body of both flushes. *)
Definition flush_all sc (flush : StateCache → list bytes → res FlushData)
    : res (StateClient S * (nat * nat * nat)) :=
  all ← foldM (collect_step flush (sc_cache sc)) (MkAll ∅ ∅ ∅ ∅ ∅ ∅ ∅ ∅)
          (go_range (serializedKeys sc));
  s ← send_flush (stateService sc) all;
  Ok (set_service sc s, (count_values (allKeysToWrite all), count_values (allKeysToMerge all),
                         count_values (allKeysToDelete all))).

Definition FlushSimpleState sc : res (StateClient S * (nat * nat * nat)) :=
  fatal_if (bool_decide (stateClientType sc = WindowStateClient))
    "For window state client, use FlushWindowState()";;
  flush_all sc (λ c skeys, GetSimpleStateFlushData c (dedupedKeys sc) skeys (bucketIDs sc)).

(** A registered cache that a fetch has filled. *)
Definition set_cache_of sc (stateID : Z) : res StateCache :=
  match sc_cache sc !! stateID with
  | None => Crash (Fatal "state ID not registered in state client")
  | Some c =>
      fatal_if (IsUnset c) "state ID cache is unset - Fetch is not called properly";;
      Ok c
  end.

Definition GetSimpleState sc (stateID : Z) (key : field) : res StateType :=
  c ← set_cache_of sc stateID;
  cache_GetSimpleState c key.

(** ** Window state *)

Definition dedup_windows (pairs : list (field * Z)) : list (field * Z) :=
  (foldl (λ st p,
      match st.1 !! p.1 with
      | Some windowsPerKey =>
          if decide (p.2 ∈ windowsPerKey) then st
          else (<[p.1 := {[p.2]} ∪ windowsPerKey]> st.1, st.2 ++ [p])
      | None => (<[p.1 := {[p.2]}]> st.1, st.2 ++ [p])
      end) (∅ : gmap field (gset Z), []) pairs).2.

Definition FetchWindowState sc (keys : list field) (timestamps : list Z) (stateIDs : list Z)
    : res (StateClient S * nat) :=
  fatal_if (bool_decide (stateClientType sc = SimpleStateClient))
    "For Simple state client, use FetchSimpleState()";;
  fatal_if (length keys =? 0) "Empty keys to fetch";;
  fatal_if (negb (length keys =? length timestamps))
    "Keys and timestamps must have the same length";;
  validateStateIDs sc stateIDs;;
  let deduped := dedup_windows (zip keys timestamps) in
  let skeys0 := foldl (λ m id, <[id := []]> m) (∅ : keyed bytes) stateIDs in
  '(bids, skeys) ← foldM (serialize_key (λ i key id,
                       ts ← idx deduped.*2 i; encodeWindowKey sc key ts id) stateIDs)
                     ([], skeys0) (imap pair deduped.*1);
  '(s, values) ← GetManyMultiState (stateService sc) (operatorID sc) skeys bids;
  caches ← fill_caches (λ c vs, SetWindowStateCache c deduped.*1 deduped.*2 vs)
             values (sc_cache sc);
  Ok (set_caches (set_service (set_batch sc deduped.*1 deduped.*2 bids skeys) s) caches,
      count_values values).

Definition FlushWindowState sc : res (StateClient S * (nat * nat * nat)) :=
  fatal_if (bool_decide (stateClientType sc = SimpleStateClient))
    "For Simple state client, use FlushSimpleState()";;
  flush_all sc (λ c skeys, GetWindowStateFlushData c (dedupedKeys sc)
                             (dedupedWindowStartTimes sc) skeys (bucketIDs sc)).

Definition GetWindowState sc (stateID : Z) (key : field) (timestamp : Z) : res StateType :=
  c ← set_cache_of sc stateID;
  cache_GetWindowState c key timestamp.

Definition DeleteAllAndFlush sc : res (StateClient S) :=
  let allBucketIDsToDelete := (λ _, bucketIDs sc) <$> serializedKeys sc in
  s ← DeleteMany (stateService sc) (serializedKeys sc) allBucketIDsToDelete;
  Ok (set_service sc s).

(** One turn of the loop of [DeleteManyAndFlush]: the pairs not found yet and
    the two maps under construction. *)
Definition delete_step sc (st : gset (field * Z) * (keyed bytes * keyed Z)) (x : nat * field)
    : res (gset (field * Z) * (keyed bytes * keyed Z)) :=
  let '(pairs, (dkeys, dbids)) := st in
  startTime ← idx (dedupedWindowStartTimes sc) x.1;
  let pair := (x.2, startTime) in
  if decide (pair ∈ pairs) then
    '(dkeys, dbids) ← foldM (λ '(dkeys, dbids) '(stateID, skeys),
        k ← idx skeys x.1;
        b ← idx (bucketIDs sc) x.1;
        Ok (append_at dkeys stateID k, append_at dbids stateID b))
      (dkeys, dbids) (go_range (serializedKeys sc));
    Ok (pairs ∖ {[pair]}, (dkeys, dbids))
  else Ok st.

Definition DeleteManyAndFlush sc (pairs : gset (field * Z)) : res (StateClient S) :=
  '(pairs, (dkeys, dbids)) ← foldM (delete_step sc) (pairs, (∅, ∅))
                               (imap pair (dedupedKeys sc));
  fatal_if (negb (size pairs =? 0))
    "DeleteManyAndFlush: Not all pairs to be deleted exists from the previous Fetch().";;
  s ← DeleteMany (stateService sc) dkeys dbids;
  Ok (set_service sc s).

Definition GetBucketIdx sc (key : field) : res Z :=
  n ← keySizer sc key;
  bs ← keyEncoder sc key;
  buf ← write_at (replicate n 0%Z) 0 bs;
  panic_if (u64 (sc_numBuckets sc) =? 0)%Z;;
  Ok (Hash (keyHashFunc sc) buf mod u64 (sc_numBuckets sc))%Z.
End Client.

(** ** Slots: the states a batch works on *)

(** A key, with its window start in a window client. *)
Abbreviation slot := (field * option Z)%type (only parsing).

Definition slot_suffix `{Mus} (sl : slot) : bytes :=
  field_bytes sl.1 ++ match sl.2 with Some ts => MarshalNum KInt64 ts | None => [] end.

(** The documented key layout. *)
Definition key_layout `{Mus} (opID bucket stateID : Z) (sl : slot) : bytes :=
  be_encode 2 opID ++ be_encode 4 bucket ++ be_encode 2 stateID ++ slot_suffix sl.

Definition slot_ok (kind : Kind) (sl : slot) : Prop :=
  has_kind kind sl.1 = true ∧ match sl.2 with Some ts => is_i64 ts | None => True end.

Section KeyFacts.
Context `{MusLaws} `{GoRange} {S : Type} `{StateServiceOps S}.
Implicit Types sc : StateClient S.

(** A client after [Setup] with a valid configuration. *)
Record client_ok sc : Prop := {
  ok_op : is_u16 (operatorID sc);
  ok_nb : (0 < sc_numBuckets sc ≤ 2 ^ 32)%Z;
  ok_hash : hash_ok (keyHashFunc sc);
  ok_enc : EncodeFuncFromKind (keyKind sc) = Ok (keyEncoder sc);
  ok_siz : TupleSizeFuncFromKind (keyKind sc) = Ok (keySizer sc);
  ok_caches : ∀ id c, sc_cache sc !! id = Some c →
    is_u16 id ∧ cache_ready (cache_base c) ∧
    Forall (λ k, SupportedKind k = true) (valueType (cache_base c)) ∧
    match c with
    | SimpleStateCache _ _ => stateClientType sc = SimpleStateClient
    | WindowStateCache _ _ => stateClientType sc = WindowStateClient
    end
}.

Definition bucket_of sc (key : field) : Z :=
  (Hash (keyHashFunc sc) (field_bytes key) mod sc_numBuckets sc)%Z.

Definition slot_bytes sc (stateID : Z) (sl : slot) : bytes :=
  key_layout (operatorID sc) (bucket_of sc sl.1) stateID sl.

Lemma bucket_of_range sc key : client_ok sc → (0 ≤ bucket_of sc key < sc_numBuckets sc)%Z.
Proof. intros Hok. apply Z.mod_pos_bound. apply Hok. Qed.

Lemma write_at_spec (buf bs : bytes) off :
  off + length bs ≤ length buf →
  write_at buf off bs = Ok (take off buf ++ bs ++ drop (off + length bs) buf).
Proof. intros Hle. unfold write_at. by rewrite bool_decide_false by lia. Qed.

(** The prefix is written over the first eight bytes. *)
Lemma encodeKeyPrefix_Ok sc (pre tl key : bytes) stateID :
  client_ok sc → length pre = 8 →
  encodeKeyPrefix sc (pre ++ tl) key stateID =
    let b := (Hash (keyHashFunc sc) key mod sc_numBuckets sc)%Z in
    Ok (be_encode 2 (operatorID sc) ++ be_encode 4 b ++ be_encode 2 stateID ++ tl, b).
Proof.
  intros Hok Hpre. pose proof (ok_nb _ Hok). unfold encodeKeyPrefix, encodeStateID.
  rewrite u64_id by (unfold is_u64; lia).
  set (b := (Hash (keyHashFunc sc) key mod sc_numBuckets sc)%Z).
  assert (Hb : (0 ≤ b < sc_numBuckets sc)%Z) by (apply Z.mod_pos_bound; lia).
  rewrite u32_id by (unfold is_u32; lia). rewrite i64_id by (unfold is_i64; lia).
  do 8 (destruct pre as [|? pre]; [discriminate Hpre|]). destruct pre; [|discriminate Hpre].
  rewrite write_at_spec by (rewrite length_be_encode, length_app; simpl; lia).
  rewrite bind_Ok, length_be_encode. replace (_ =? 0)%Z with false by lia.
  change (panic_if false ≫= ?f) with (f tt). cbv beta. cbn [take drop app Nat.add].
  destruct (be_encode 2 (operatorID sc)) as [|o1 [|o2 [|]]] eqn:E1;
    try (apply (f_equal length) in E1; rewrite length_be_encode in E1; discriminate E1).
  rewrite write_at_spec by (rewrite length_be_encode; simpl; lia).
  rewrite bind_Ok, length_be_encode. unfold BucketIDOffset, OperatorIDSize.
  cbn [take drop app Nat.add].
  destruct (be_encode 4 b) as [|b1 [|b2 [|b3 [|b4 [|]]]]] eqn:E2;
    try (apply (f_equal length) in E2; rewrite length_be_encode in E2; discriminate E2).
  unfold StateIDOffset, OperatorIDSize. change (Z.to_nat BucketIdxSize) with 4.
  rewrite write_at_spec by (rewrite length_be_encode; simpl; lia).
  rewrite bind_Ok, length_be_encode. done.
Qed.

Lemma key_codec_Ok sc key :
  client_ok sc → has_kind (keyKind sc) key = true →
  keySizer sc key = Ok (length (field_bytes key)) ∧ keyEncoder sc key = Ok (field_bytes key).
Proof.
  intros Hok Hk. destruct (field_codec _ _ Hk) as ((e & He & Hef) & _ & (z & Hz & Hzf)).
  pose proof (ok_enc _ Hok). pose proof (ok_siz _ Hok). split; congruence.
Qed.

Lemma encodeSimpleKey_Ok sc key stateID :
  client_ok sc → has_kind (keyKind sc) key = true →
  encodeSimpleKey sc key stateID = Ok (slot_bytes sc stateID (key, None), bucket_of sc key).
Proof.
  intros Hok Hk. destruct (key_codec_Ok sc key Hok Hk) as [Hs He].
  unfold encodeSimpleKey. rewrite Hs, bind_Ok, He, bind_Ok.
  set (pre := replicate KeyPrefixSize 0%Z). rewrite replicate_add. fold pre.
  assert (Hp : KeyPrefixSize = length pre) by (unfold pre; by rewrite length_replicate).
  rewrite Hp at 1. rewrite write_at_app by by rewrite length_replicate.
  rewrite bind_Ok, drop_replicate, Nat.sub_diag, app_nil_r.
  rewrite Hp at 1. rewrite go_slice_tail, bind_Ok.
  rewrite encodeKeyPrefix_Ok by done. unfold slot_bytes, key_layout, slot_suffix. simpl.
  by rewrite app_nil_r.
Qed.

Lemma encodeWindowKey_Ok sc key ts stateID :
  client_ok sc → has_kind (keyKind sc) key = true → is_i64 ts →
  encodeWindowKey sc key ts stateID =
    Ok (slot_bytes sc stateID (key, Some ts), bucket_of sc key).
Proof.
  intros Hok Hk Hts. destruct (key_codec_Ok sc key Hok Hk) as [Hs He].
  unfold encodeWindowKey. rewrite Hs, bind_Ok, He, bind_Ok.
  rewrite num_size by by apply in_range_ts. set (w := MarshalNum KInt64 ts).
  set (kb := field_bytes key). set (pre := replicate KeyPrefixSize 0%Z).
  rewrite <-Nat.add_assoc, !replicate_add. fold pre.
  assert (Hp : KeyPrefixSize = length pre) by (unfold pre; by rewrite length_replicate).
  rewrite Hp at 1. rewrite write_at_app by (rewrite length_app, !length_replicate; lia).
  rewrite bind_Ok, drop_app_length' by by rewrite length_replicate.
  rewrite Hp at 1. rewrite <-length_app, (app_assoc pre).
  rewrite write_at_app by by rewrite length_replicate. rewrite bind_Ok.
  rewrite drop_replicate, Nat.sub_diag, app_nil_r, <-app_assoc.
  assert (Hsl : go_slice (pre ++ kb ++ w) KeyPrefixSize (KeyPrefixSize + length kb) = Ok kb).
  { apply go_slice_Ok. rewrite !length_app, <-Hp. split_and!; [lia..|].
    rewrite Hp, drop_app_length. replace (_ - _) with (length kb) by lia.
    by rewrite take_app_length. }
  rewrite Hsl, bind_Ok, encodeKeyPrefix_Ok by done. done.
Qed.

Lemma be_encode_inj n z z' :
  (0 ≤ z < 256 ^ Z.of_nat n)%Z → (0 ≤ z' < 256 ^ Z.of_nat n)%Z →
  be_encode n z = be_encode n z' → z = z'.
Proof.
  intros Hz Hz' Heq. rewrite <-(be_decode_encode n z), <-(be_decode_encode n z') by done.
  by rewrite Heq.
Qed.

Lemma be_encode_app_inj n z z' (l l' : bytes) :
  be_encode n z ++ l = be_encode n z' ++ l' → be_encode n z = be_encode n z' ∧ l = l'.
Proof. intros Heq. apply app_inj_1 in Heq; [done|]. by rewrite !length_be_encode. Qed.

(** Field encodings delimit themselves. *)
Lemma field_bytes_inj kind f f' (l l' : bytes) :
  has_kind kind f = true → has_kind kind f' = true →
  field_bytes f ++ l = field_bytes f' ++ l' → f = f' ∧ l = l'.
Proof.
  intros Hf Hf' Heq.
  destruct (field_codec _ _ Hf) as (_ & (d & Hd & Hdf) & _).
  destruct (field_codec _ _ Hf') as (_ & (d' & Hd' & Hdf') & _).
  assert (d' = d) as -> by congruence.
  pose proof (Hdf l) as Hl. rewrite Heq, Hdf' in Hl. injection Hl as -> _.
  split; [done|]. by apply app_inv_head in Heq.
Qed.

Lemma key_layout_inj kind opID b b' id id' sl sl' :
  slot_ok kind sl → slot_ok kind sl' → (sl.2 = None ↔ sl'.2 = None) →
  is_u16 id → is_u16 id' →
  key_layout opID b id sl = key_layout opID b' id' sl' → id = id' ∧ sl = sl'.
Proof.
  intros [Hk Ht] [Hk' Ht'] Hsame Hid Hid'. unfold key_layout, slot_suffix.
  destruct sl as [k ts], sl' as [k' ts']. cbn [fst snd] in *.
  intros (_ & (_ & (Hids & Hsuf)%be_encode_app_inj)%be_encode_app_inj)%be_encode_app_inj.
  apply be_encode_inj in Hids; [|unfold is_u16 in *; lia..]. split; [done|].
  apply (field_bytes_inj kind) in Hsuf as [-> Htail]; [|done..]. f_equal.
  destruct ts as [ts|], ts' as [ts'|]; try naive_solver.
  f_equal. pose proof (num_roundtrip KInt64 ts [] (in_range_ts _ Ht)) as Hrt.
  rewrite app_nil_r, Htail, <-(app_nil_r (MarshalNum _ ts')) in Hrt.
  rewrite num_roundtrip in Hrt by by apply in_range_ts. congruence.
Qed.

Lemma GetBucketIdx_Ok sc key :
  client_ok sc → has_kind (keyKind sc) key = true → GetBucketIdx sc key = Ok (bucket_of sc key).
Proof.
  intros Hok Hk. destruct (key_codec_Ok sc key Hok Hk) as [Hs He]. pose proof (ok_nb _ Hok).
  unfold GetBucketIdx. rewrite Hs, bind_Ok, He, bind_Ok.
  rewrite write_at_spec by (rewrite length_replicate; lia). rewrite bind_Ok.
  rewrite u64_id by (unfold is_u64; lia). replace (_ =? 0)%Z with false by lia. simpl.
  by rewrite drop_replicate, Nat.sub_diag, app_nil_r.
Qed.

(** Encoding of state keys.  For every key of the client's key type the
    encoding succeeds, its bucket is the one [GetBucketIdx] computes and lies
    below the number of buckets, and the operator id, bucket and state id
    stand in its first eight bytes where the key tables and the range reads of
    a migration look for them; no two windows, keys or states of a client
    share an encoding. *)
Theorem state_key_encoding sc k ts id k' ts' id'
    (Hok : client_ok sc) (Hk : has_kind (keyKind sc) k = true)
    (Hk' : has_kind (keyKind sc) k' = true) (Hts : is_i64 ts) (Hts' : is_i64 ts')
    (Hid : is_u16 id) (Hid' : is_u16 id') :
  (∃ bs b, encodeWindowKey sc k ts id = Ok (bs, b) ∧ GetBucketIdx sc k = Ok b ∧
     (0 ≤ b < sc_numBuckets sc)%Z ∧ be_decode (take 2 bs) = operatorID sc ∧
     be_decode (take 4 (drop 2 bs)) = b ∧ be_decode (take 2 (drop 6 bs)) = id) ∧
  (∃ bs b, encodeSimpleKey sc k id = Ok (bs, b) ∧ GetBucketIdx sc k = Ok b ∧
     take 6 bs = be_encode 2 (operatorID sc) ++ be_encode 4 b) ∧
  (encodeWindowKey sc k ts id = encodeWindowKey sc k' ts' id' → k = k' ∧ ts = ts' ∧ id = id') ∧
  (encodeSimpleKey sc k id = encodeSimpleKey sc k' id' → k = k' ∧ id = id').
Proof.
  rewrite !encodeWindowKey_Ok, !encodeSimpleKey_Ok, !GetBucketIdx_Ok by done.
  pose proof (bucket_of_range sc k Hok) as Hb. pose proof (ok_nb _ Hok) as Hnb.
  assert (Hop : is_u16 (operatorID sc)) by apply Hok.
  assert (H6 : ∀ a b c d : bytes, length a = 2 → length b = 4 → length c = 2 →
    take 2 (a ++ b ++ c ++ d) = a ∧ take 4 (drop 2 (a ++ b ++ c ++ d)) = b ∧
    take 2 (drop 6 (a ++ b ++ c ++ d)) = c ∧ take 6 (a ++ b ++ c ++ d) = a ++ b).
  { intros a b c d Ha Hbl Hc.
    destruct a as [|? [|? [|]]]; try discriminate Ha.
    destruct b as [|? [|? [|? [|? [|]]]]]; try discriminate Hbl.
    by destruct c as [|? [|? [|]]]; try discriminate Hc. }
  destruct (H6 (be_encode 2 (operatorID sc)) (be_encode 4 (bucket_of sc k)) (be_encode 2 id)
    (slot_suffix (k, Some ts)) (length_be_encode _ _) (length_be_encode _ _)
    (length_be_encode _ _)) as (E1 & E2 & E3 & _).
  destruct (H6 (be_encode 2 (operatorID sc)) (be_encode 4 (bucket_of sc k)) (be_encode 2 id)
    (slot_suffix (k, None)) (length_be_encode _ _) (length_be_encode _ _)
    (length_be_encode _ _)) as (_ & _ & _ & E4).
  split_and!.
  - do 2 eexists. split; [done|]. unfold slot_bytes, key_layout. cbn [fst].
    rewrite E1, E2, E3. rewrite !be_decode_encode by (unfold is_u16 in *; lia).
    by split_and!; try lia.
  - do 2 eexists. split; [done|]. split; [done|]. exact E4.
  - intros [Heq _]%Ok_pair_inj. by apply (key_layout_inj (keyKind sc)) in Heq as [-> [= -> ->]].
  - intros [Heq _]%Ok_pair_inj. by apply (key_layout_inj (keyKind sc)) in Heq as [-> [= ->]].
Qed.

(** ** Registration and setup give a working client *)

Definition new_cache (t : StateClientType) (spec : state_kind * list Kind) : StateCache :=
  match t with
  | SimpleStateClient => NewSimpleStateCache spec.1 spec.2
  | WindowStateClient => NewWindowStateCache spec.1 spec.2
  end.

Definition declare (t : StateClientType) (kind : Kind) (specs : list (state_kind * list Kind))
    : ClientDecl :=
  foldl (λ d spec, (RegisterState d spec.1 spec.2).1) (NewStateClient t kind) specs.

Lemma declare_spec t kind specs :
  (Z.of_nat (length specs) ≤ 2 ^ 16)%Z →
  let d := declare t kind specs in
  curStateIdCounter d = u16 (Z.of_nat (length specs)) ∧ cd_type d = t ∧ cd_keyKind d = kind ∧
  ∀ id c, cd_cache d !! id = Some c ↔
    ∃ i spec, id = Z.of_nat i ∧ specs !! i = Some spec ∧ c = new_cache t spec.
Proof.
  unfold declare. induction specs as [|spec specs IH] using rev_ind; intros Hlen; cbn zeta.
  { split_and!; try done. intros id c. simpl. rewrite lookup_empty. split; [done|].
    intros (i & x & _ & Hi & _). by rewrite lookup_nil in Hi. }
  rewrite length_app in Hlen. simpl in Hlen. destruct IH as (Hc & Ht & Hk & Hm); [lia|].
  rewrite foldl_app. cbn [foldl]. set (d := foldl _ _ specs) in *. clearbody d.
  unfold RegisterState. cbn [fst curStateIdCounter cd_type cd_keyKind cd_cache].
  rewrite Ht, Hk, Hc, (u16_id (Z.of_nat (length specs))) by (unfold is_u16; lia). split_and!; try done.
  { by rewrite length_app, Nat2Z.inj_add. }
  intros id c. fold (new_cache t spec).
  destruct (decide (id = Z.of_nat (length specs))) as [->|Hne].
  - rewrite lookup_insert_eq. split.
    + intros [= <-]. exists (length specs), spec. by rewrite list_lookup_middle.
    + intros (i & x & Hi%Nat2Z.inj & Hx & ->). subst i. rewrite list_lookup_middle in Hx by done.
      by simplify_eq.
  - rewrite lookup_insert_ne, Hm by done. split; intros (i & x & -> & Hx & ->); exists i, x;
      (split; [done|]); (split; [|done]).
    + by apply lookup_app_l_Some.
    + apply lookup_app_Some in Hx as [Hx|[Hge Hx]]; [done|].
      apply list_lookup_singleton_Some in Hx as [Hi _]. destruct Hne. f_equal. lia.
Qed.

Lemma cache_Setup_Ok t spec inc :
  Forall (λ k, SupportedKind k = true) spec.2 →
  ∃ c, cache_Setup (new_cache t spec) inc = Ok c ∧ cache_ready (cache_base c) ∧
    valueKind (cache_base c) = spec.1 ∧ valueType (cache_base c) = spec.2 ∧
    allowIncrementalSerialization (cache_base c) = inc ∧
    match c with
    | SimpleStateCache _ _ => t = SimpleStateClient
    | WindowStateCache _ _ => t = WindowStateClient
    end.
Proof.
  intros Hsup. destruct (codec_exists _ Hsup) as (enc & dec & siz & Hc).
  assert (Hset : ∀ b, valueType b = spec.2 → cache_setup b inc =
    Ok (MkCacheBase inc (valueKind b) (valueType b) (Some (enc, dec, siz)))).
  { intros b Hb. unfold cache_setup. rewrite Hb, (codec_enc _ _ _ _ Hc), bind_Ok,
      (codec_dec _ _ _ _ Hc), bind_Ok, (codec_siz _ _ _ _ Hc). done. }
  unfold cache_Setup. destruct t; simpl; rewrite Hset by done;
    (eexists; split; [done|]); split_and!; try done; by exists enc, dec, siz.
Qed.

Lemma Setup_Ok t kind specs opID (s : S) h numBuckets backend
    (Hne : specs ≠ []) (Hlen : (Z.of_nat (length specs) ≤ 2 ^ 16)%Z)
    (Hkind : SupportedKind kind = true)
    (Hsup : Forall (λ spec, Forall (λ k, SupportedKind k = true) spec.2) specs)
    (Hop : is_u16 opID) (Hnb : (0 < numBuckets ≤ 2 ^ 32)%Z) (Hh : hash_ok h) :
  ∃ sc, Setup (declare t kind specs) opID s h numBuckets backend = Ok sc ∧
    client_ok sc ∧ stateService sc = s ∧ operatorID sc = opID ∧ stateClientType sc = t ∧
    keyKind sc = kind ∧
    (∀ id, is_Some (sc_cache sc !! id) → ∃ i, i < length specs ∧ id = Z.of_nat i) ∧
    ∀ i spec, specs !! i = Some spec → ∃ c, sc_cache sc !! Z.of_nat i = Some c ∧
      valueKind (cache_base c) = spec.1 ∧ valueType (cache_base c) = spec.2 ∧
      allowIncrementalSerialization (cache_base c) = allows_incremental backend.
Proof.
  destruct (declare_spec t kind specs Hlen) as (_ & Ht & Hk & Hm).
  set (d := declare t kind specs) in *. clearbody d.
  destruct (fromKind_supported kind Hkind) as ([e He] & [x Hx] & [z Hz]).
  unfold Setup. rewrite Hk, He, bind_Ok, Hx, bind_Ok, Hz, bind_Ok.
  destruct specs as [|spec0 specs0] eqn:Especs; [done|]. rewrite <-Especs in *.
  rewrite size_eqb, bind_fatal_false.
  2: { intros E. assert (Hc : cd_cache d !! 0%Z = Some (new_cache t spec0)).
       { apply Hm. exists 0, spec0. by rewrite Especs. } by rewrite E in Hc. }
  destruct (range_update (λ _ c, cache_Setup c (allows_incremental backend)) (cd_cache d))
    as (m & Hrun & Hspec).
  { intros id c (i & spec & -> & Hi & ->)%Hm.
    destruct (cache_Setup_Ok t spec (allows_incremental backend)) as (c & ? & _);
      [by eapply (Forall_lookup_1 _ _ _ _ Hsup Hi)|]. eauto. }
  assert (Hcache : ∀ id c, m !! id = Some c → ∃ i spec, id = Z.of_nat i ∧ specs !! i = Some spec ∧
    cache_Setup (new_cache t spec) (allows_incremental backend) = Ok c).
  { intros id c Hc. specialize (Hspec id). destruct (cd_cache d !! id) as [c0|] eqn:E; [|congruence].
    destruct Hspec as (c' & Hc' & Hm'). apply Hm in E as (i & spec & -> & Hi & ->).
    exists i, spec. split_and!; [done..|]. congruence. }
  rewrite Hrun, bind_Ok. eexists. split; [done|]. split_and!; try done; simpl.
  - split; simpl; try done. intros id c (i & spec & -> & Hi & Hc)%Hcache.
    destruct (cache_Setup_Ok t spec (allows_incremental backend)) as (c' & Hc' & Hr & _ & Hty & _ & Ht');
      [by eapply (Forall_lookup_1 _ _ _ _ Hsup Hi)|].
    assert (c' = c) as -> by congruence. apply lookup_lt_Some in Hi as Hlt.
    split_and!; [unfold is_u16; lia|done| |by rewrite Ht; destruct c].
    rewrite Hty. by eapply (Forall_lookup_1 _ _ _ _ Hsup Hi).
  - intros id [c (i & spec & -> & Hi & _)%Hcache]. exists i. split; [by eapply lookup_lt_Some|done].
  - intros i spec Hi. assert (Hc : cd_cache d !! Z.of_nat i = Some (new_cache t spec)).
    { apply Hm. by exists i, spec. }
    specialize (Hspec (Z.of_nat i)). rewrite Hc in Hspec. destruct Hspec as (c & Hset & Hmi).
    destruct (cache_Setup_Ok t spec (allows_incremental backend)) as (c' & Hc' & _ & Hvk & Hvt & Ha & _);
      [by eapply (Forall_lookup_1 _ _ _ _ Hsup Hi)|].
    exists c. assert (c' = c) as -> by congruence. by split_and!.
Qed.

(** A client whose operator registered at least one and at most 2^16
    states, all over supported kinds, is set up successfully: the [i]-th
    registration is state [i], with its own cache of its own type over a
    working codec, and incremental serialization is allowed exactly for the
    backends that can merge.  An operator that registered no state is
    refused. *)
Theorem client_setup_ok t kind specs opID (s : S) h numBuckets backend
    (Hlen : (Z.of_nat (length specs) ≤ 2 ^ 16)%Z) (Hkind : SupportedKind kind = true)
    (Hsup : Forall (λ spec, Forall (λ k, SupportedKind k = true) spec.2) specs)
    (Hop : is_u16 opID) (Hnb : (0 < numBuckets ≤ 2 ^ 32)%Z) (Hh : hash_ok h) :
  match Setup (declare t kind specs) opID s h numBuckets backend with
  | Ok sc => specs ≠ [] ∧ client_ok sc ∧ stateService sc = s ∧ operatorID sc = opID ∧
      stateClientType sc = t ∧ keyKind sc = kind ∧
      (∀ id, is_Some (sc_cache sc !! id) → ∃ i, i < length specs ∧ id = Z.of_nat i) ∧
      ∀ i spec, specs !! i = Some spec → ∃ c, sc_cache sc !! Z.of_nat i = Some c ∧
        valueKind (cache_base c) = spec.1 ∧ valueType (cache_base c) = spec.2 ∧
        allowIncrementalSerialization (cache_base c) = allows_incremental backend
  | Crash e => specs = [] ∧
      e = Fatal "Check operator implementation: no state registered in state client"
  end.
Proof.
  destruct (decide (specs = [])) as [->|Hne].
  - destruct (fromKind_supported kind Hkind) as ([e He] & [x Hx] & [z Hz]).
    unfold Setup. simpl. by rewrite He, bind_Ok, Hx, bind_Ok, Hz, bind_Ok.
  - destruct (Setup_Ok t kind specs opID s h numBuckets backend) as (sc & -> & Hrest); done.
Qed.
End KeyFacts.

(** ** A concrete client

    Integer keys, one value state and one list state over a service in
    memory. *)

Definition demo_specs : list (state_kind * list Kind) :=
  [(SValue, [KInt64]); (SList, [KInt64; KBool])].

Lemma toy_hash_ok seed : hash_ok (toy_hash seed).
Proof. intros b. unfold toy_hash. simpl. unfold is_u64, u64. apply Z.mod_pos_bound. lia. Qed.

Lemma demo_specs_supported :
  Forall (λ spec : state_kind * list Kind, Forall (λ k, SupportedKind k = true) spec.2) demo_specs.
Proof. by repeat constructor. Qed.

Lemma client_setup_ok_witness :
  ∃ sc : StateClient (LocalService MemoryStateBackend),
    Setup (declare WindowStateClient KInt64 demo_specs) 3 (MkLocal NewMemoryStateBackend) (toy_hash 5) 128 "pebble" =
      Ok sc ∧ client_ok sc ∧
    ∃ c, sc_cache sc !! 1%Z = Some c ∧ allowIncrementalSerialization (cache_base c) = true.
Proof.
  assert (Hset := client_setup_ok (S := LocalService MemoryStateBackend) WindowStateClient KInt64 demo_specs 3
    (MkLocal NewMemoryStateBackend) (toy_hash 5) 128 "pebble").
  destruct (Setup _ _ _ _ _ _) as [sc|e].
  - destruct Hset as (_ & Hok & _ & _ & _ & _ & _ & Hcaches).
    + simpl. lia.
    + reflexivity.
    + apply demo_specs_supported.
    + unfold is_u16. lia.
    + lia.
    + apply toy_hash_ok.
    + exists sc. split; [reflexivity|]. split; [exact Hok|].
      destruct (Hcaches 1 (SList, [KInt64; KBool]) eq_refl) as (c & Hc & _ & _ & Ha).
      exists c. split; [exact Hc|]. rewrite Ha. reflexivity.
  - exfalso. destruct Hset as [Hnil _]; try discriminate Hnil.
    + simpl. lia.
    + reflexivity.
    + apply demo_specs_supported.
    + unfold is_u16. lia.
    + lia.
    + apply toy_hash_ok.
Defined.

Lemma demo_setup :
  ∃ sc : StateClient (LocalService MemoryStateBackend),
    Setup (declare WindowStateClient KInt64 demo_specs) 3 (MkLocal NewMemoryStateBackend) (toy_hash 5) 128 "pebble" =
      Ok sc ∧ client_ok sc ∧ stateService sc = MkLocal NewMemoryStateBackend ∧ stateClientType sc = WindowStateClient ∧
    keyKind sc = KInt64 ∧ is_Some (sc_cache sc !! 0%Z) ∧ is_Some (sc_cache sc !! 1%Z).
Proof.
  destruct (Setup_Ok (S := LocalService MemoryStateBackend) WindowStateClient KInt64 demo_specs 3 (MkLocal NewMemoryStateBackend)
    (toy_hash 5) 128 "pebble") as (sc & Hsc & Hok & Hs & _ & Ht & Hk & _ & Hcaches);
    [done|simpl; lia|done|apply demo_specs_supported|unfold is_u16; lia|lia|apply toy_hash_ok|].
  exists sc. split_and!; try done.
  - destruct (Hcaches 0 (SValue, [KInt64]) eq_refl) as (c & Hc & _). by exists c.
  - destruct (Hcaches 1 (SList, [KInt64; KBool]) eq_refl) as (c & Hc & _). by exists c.
Qed.

Lemma state_key_encoding_witness :
  ∃ (sc : StateClient (LocalService MemoryStateBackend)) bs b,
    encodeWindowKey sc (FNum KInt64 7) 1000 1 = Ok (bs, b) ∧ be_decode (take 2 (drop 6 bs)) = 1%Z.
Proof.
  destruct demo_setup as (sc & _ & Hok & _ & _ & Hk & _).
  destruct (state_key_encoding sc (FNum KInt64 7) 1000 1 (FNum KInt64 8) 1000 1)
    as ((bs & b & Henc & _ & _ & _ & _ & Hid) & _).
  - exact Hok.
  - rewrite Hk. reflexivity.
  - rewrite Hk. reflexivity.
  - unfold is_i64. lia.
  - unfold is_i64. lia.
  - unfold is_u16. lia.
  - unfold is_u16. lia.
  - exists sc, bs, b. split; [exact Henc|exact Hid].
Defined.
