(* ===== verification/StateBatch.v ===== *)
(** * The batch cycle: fetch, update, flush

    The contract of the state client towards the operators, against any state
    service that obeys [ServiceLaws]: a fetch fills the caches with what the
    service holds for the batch's keys, the operator's calls change only the
    cached states, and the flush makes the service hold exactly those states,
    whichever of overwrite, merge and delete it chose to send. *)

From stdpp Require Import prelude gmap strings list.
From Stdlib Require Import ZArith Lia.
From S2P Require Import Prelude Partition Codec StateType StateCache Backend StateService StateClient.

(** ** Batches as slots *)

(** The cached state of a slot. *)
Definition cached (c : StateCache) (sl : slot) : option StateType :=
  match c, sl.2 with
  | SimpleStateCache _ m, None => default ∅ m !! sl.1
  | WindowStateCache _ m, Some ts => default ∅ (default ∅ m !! sl.1) !! ts
  | _, _ => None
  end.

(** Updating the state behind a cached pointer. *)
Definition set_cached (c : StateCache) (sl : slot) (s : StateType) : StateCache :=
  match c, sl.2 with
  | SimpleStateCache b m, None => SimpleStateCache b (Some (<[sl.1 := s]> (default ∅ m)))
  | WindowStateCache b m, Some ts =>
      WindowStateCache b (Some (<[sl.1 := <[ts := s]> (default ∅ (default ∅ m !! sl.1))]>
                                  (default ∅ m)))
  | _, _ => c
  end.

Section Batch.
Context `{MusLaws} `{GoRange} {S : Type} `{ServiceLaws S}.
Implicit Types sc : StateClient S.

(** A slot of the client's kind: with a window start exactly in a window
    client. *)
Definition slot_for sc (sl : slot) : Prop :=
  slot_ok (keyKind sc) sl ∧
  match stateClientType sc with
  | SimpleStateClient => sl.2 = None
  | WindowStateClient => is_Some sl.2
  end.

(** Both kinds of clients behind one interface. *)
Definition fetch sc (sls : list slot) (ids : list Z) : res (StateClient S * nat) :=
  match stateClientType sc with
  | SimpleStateClient => FetchSimpleState sc sls.*1 ids
  | WindowStateClient => FetchWindowState sc sls.*1 (default 0%Z <$> sls.*2) ids
  end.

Definition flush sc : res (StateClient S * (nat * nat * nat)) :=
  match stateClientType sc with
  | SimpleStateClient => FlushSimpleState sc
  | WindowStateClient => FlushWindowState sc
  end.

Definition get_state sc (id : Z) (sl : slot) : res StateType :=
  match sl.2 with
  | None => GetSimpleState sc id sl.1
  | Some ts => GetWindowState sc id sl.1 ts
  end.

(** The operator gets a state and calls a method on it. *)
Definition user_op sc (x : Z * slot * state_op) : res (StateClient S) :=
  let '(id, sl, op) := x in
  s ← get_state sc id sl;
  s ← apply_op s op;
  match sc_cache sc !! id with
  | Some c => Ok (set_caches sc (<[id := set_cached c sl s]> (sc_cache sc)))
  | None => Crash Panic
  end.

(** The slots of the current batch. *)
Definition slots sc : list slot :=
  match stateClientType sc with
  | SimpleStateClient => (λ k, (k, None)) <$> dedupedKeys sc
  | WindowStateClient => zip_with (λ k t, (k, Some t)) (dedupedKeys sc) (dedupedWindowStartTimes sc)
  end.

(** ** Serializing the keys *)

Lemma encodeStateID_Ok opID b id id' sl :
  encodeStateID (key_layout opID b id sl) id' = Ok (key_layout opID b id' sl).
Proof.
  unfold encodeStateID, key_layout.
  rewrite write_at_spec by (rewrite !length_app, !length_be_encode; unfold StateIDOffset; simpl; lia).
  reflexivity.
Qed.

Lemma serializeMultiStateKeys_Ok opID b id sl ids (m : keyed bytes) :
  NoDup ids →
  ∃ m', serializeMultiStateKeys (key_layout opID b id sl) ids m = Ok m' ∧
    ∀ j, m' !! j = if decide (j ∈ ids)
                   then Some (default [] (m !! j) ++ [key_layout opID b j sl]) else m !! j.
Proof.
  unfold serializeMultiStateKeys. revert m. induction ids as [|i ids IH]; intros m Hnd; cbn [foldM].
  { exists m. split; [done|]. intros j. by rewrite decide_False by by apply not_elem_of_nil. }
  apply NoDup_cons in Hnd as [Hi Hnd]. rewrite encodeStateID_Ok, !bind_Ok.
  destruct (IH (append_at m i (key_layout opID b i sl)) Hnd) as (m' & -> & Hm').
  exists m'. split; [done|]. intros j. rewrite Hm', append_at_lookup.
  destruct (decide (j = i)) as [->|Hne].
  - rewrite decide_False, decide_True by set_solver. done.
  - destruct (decide (j ∈ ids)); [rewrite decide_True by set_solver; done|].
    rewrite decide_False by set_solver. done.
Qed.

(** What the key loop of a fetch produces. *)
Definition serialized sc (ids : list Z) (sls : list slot) (skeys : keyed bytes) : Prop :=
  ∀ j, skeys !! j = if decide (j ∈ ids) then Some (slot_bytes sc j <$> sls) else None.

Lemma serialized_keys sc ids sls skeys k :
  serialized sc ids sls skeys →
  k ∈ request_keys skeys ↔ ∃ id sl, id ∈ ids ∧ sl ∈ sls ∧ k = slot_bytes sc id sl.
Proof.
  intros Hser. unfold request_keys. rewrite list_elem_of_bind. split.
  - intros ([id ks] & Hk & Hin). apply elem_of_map_to_list in Hin.
    rewrite (Hser id) in Hin. case_decide; [|done]. injection Hin as <-.
    apply list_elem_of_fmap in Hk as (sl & -> & Hsl). exists id, sl. by split_and!.
  - intros (id & sl & Hid & Hsl & ->). exists (id, slot_bytes sc id <$> sls). split.
    + apply list_elem_of_fmap. by exists sl.
    + apply elem_of_map_to_list. by rewrite (Hser id), decide_True.
Qed.

Lemma serialize_step sc encode ids n sls skeys sl :
  NoDup ids → ids ≠ [] → sls !! n = Some sl →
  (∀ id, encode n sl.1 id = Ok (slot_bytes sc id sl, bucket_of sc sl.1)) →
  serialized sc ids (take n sls) skeys →
  ∃ skeys', serialize_key encode ids ((λ sl, bucket_of sc sl.1) <$> take n sls, skeys) (n, sl.1) =
      Ok ((λ sl, bucket_of sc sl.1) <$> take (1 + n) sls, skeys') ∧
    serialized sc ids (take (1 + n) sls) skeys'.
Proof.
  intros Hnd Hne Hn Henc Hsk. destruct ids as [|id ids]; [done|].
  apply NoDup_cons in Hnd as [Hid Hnd].
  unfold serialize_key. cbn [idx lookup list_lookup fst snd drop].
  rewrite bind_Ok, Henc, bind_Ok.
  destruct (serializeMultiStateKeys_Ok (operatorID sc) (bucket_of sc sl.1) id sl ids
    (append_at skeys id (slot_bytes sc id sl)) Hnd) as (m' & Hser & Hm').
  change (key_layout (operatorID sc) (bucket_of sc sl.1) id sl) with (slot_bytes sc id sl) in Hser.
  rewrite drop_0, Hser. exists m'. rewrite bind_Ok. split.
  { f_equal. f_equal. simpl. by rewrite (take_S_r _ _ sl), fmap_app. }
  intros j. rewrite Hm', append_at_lookup, !(Hsk j), (Hsk id). simpl.
  rewrite (take_S_r _ _ sl), fmap_app by done. simpl.
  destruct (decide (j = id)) as [->|Hji].
  - rewrite decide_False, !decide_True by set_solver. done.
  - destruct (decide (j ∈ ids)); [rewrite !decide_True by set_solver; done|].
    rewrite !decide_False by set_solver. done.
Qed.

Lemma serialize_keys_Ok sc encode ids sls skeys0 :
  NoDup ids → ids ≠ [] →
  (∀ n sl id, sls !! n = Some sl → encode n sl.1 id = Ok (slot_bytes sc id sl, bucket_of sc sl.1)) →
  serialized sc ids [] skeys0 →
  ∃ skeys, foldM (serialize_key encode ids) ([], skeys0) (imap pair sls.*1) =
      Ok ((λ sl, bucket_of sc sl.1) <$> sls, skeys) ∧ serialized sc ids sls skeys.
Proof.
  intros Hnd Hne Henc H0'.
  destruct (foldM_total (serialize_key encode ids)
    (λ pre st, st.1 = (λ sl, bucket_of sc sl.1) <$> take (length pre) sls ∧
               serialized sc ids (take (length pre) sls) st.2)
    (imap pair sls.*1) ([], skeys0)) as ([bids skeys] & Hf & Hb & Hs); [by rewrite take_0| |].
  - intros pre [i k] [bids skeys] [suf Hpre] [Hb Hs]. simpl in Hb, Hs. subst bids.
    assert (Hi : imap pair sls.*1 !! length pre = Some (i, k)).
    { rewrite Hpre, <-app_assoc. by apply list_lookup_middle. }
    rewrite list_lookup_imap, list_lookup_fmap in Hi.
    destruct (sls !! length pre) as [sl|] eqn:Esl; [|done]. simpl in Hi. injection Hi as <- <-.
    destruct (serialize_step sc encode ids (length pre) sls skeys sl)
      as (skeys' & Hstep & Hs'); try done; [by intros; apply Henc|].
    exists ((λ sl, bucket_of sc sl.1) <$> take (1 + length pre) sls, skeys').
    rewrite length_app, (Nat.add_comm (length pre)). simpl in *. by split_and!.
  - rewrite length_imap, length_fmap, firstn_all in *. simpl in Hb, Hs. subst. eauto.
Qed.

(** ** Deduplication *)

Lemma dedup_keys_spec keys :
  NoDup (dedup_keys keys) ∧ ∀ k, k ∈ dedup_keys keys ↔ k ∈ keys.
Proof.
  unfold dedup_keys.
  cut (let st := foldl (λ st key, if decide (key ∈ st.1) then st
                        else ({[key]} ∪ st.1, st.2 ++ [key])) (∅ : gset field, []) keys in
       NoDup st.2 ∧ (∀ k, k ∈ st.2 ↔ k ∈ keys) ∧ ∀ k, k ∈ st.1 ↔ k ∈ keys).
  { simpl. naive_solver. }
  induction keys as [|key keys IH] using rev_ind; simpl.
  { split_and!; [constructor|set_solver..]. }
  rewrite foldl_app. simpl. destruct IH as (Hnd & Hin & Hset).
  case_decide as Hd; simpl.
  - split_and!; [done|..]; intros k; rewrite ?Hin, ?Hset; set_solver.
  - split_and!.
    + apply NoDup_app. split_and!; [done| |apply NoDup_singleton]. set_solver.
    + intros k. rewrite !elem_of_app, Hin. done.
    + intros k. set_solver.
Qed.

Lemma dedup_windows_spec ps :
  NoDup (dedup_windows ps) ∧ ∀ p, p ∈ dedup_windows ps ↔ p ∈ ps.
Proof.
  unfold dedup_windows.
  match goal with |- context [foldl ?g ?a ps] =>
    cut (let st := foldl g a ps in NoDup st.2 ∧ (∀ p, p ∈ st.2 ↔ p ∈ ps) ∧
         ∀ p, p.2 ∈ default ∅ (st.1 !! p.1) ↔ p ∈ ps) end.
  { simpl. naive_solver. }
  induction ps as [|p ps IH] using rev_ind; cbn zeta.
  { simpl. split_and!; [constructor|set_solver|]. intros p. rewrite lookup_empty. set_solver. }
  rewrite foldl_app. cbn [foldl]. destruct IH as (Hnd & Hin & Hset).
  match goal with |- context [foldl ?g ?a ps] => set (st := foldl g a ps) in * end.
  clearbody st. destruct st as [seen out]. cbn [fst snd] in *.
  assert (Hnew : p ∉ ps → NoDup (out ++ [p]) ∧ ∀ q, q ∈ out ++ [p] ↔ q ∈ ps ++ [p]).
  { intros Hp. split.
    - apply NoDup_app. split_and!; [done| |apply NoDup_singleton]. intros q Hq Hq'.
      apply list_elem_of_singleton in Hq' as ->. naive_solver.
    - intros q. by rewrite !elem_of_app, Hin. }
  pose proof (Hset p) as Hp. destruct (seen !! p.1) as [w|] eqn:Ew; simpl in Hp.
  - destruct (decide (p.2 ∈ w)) as [Hw|Hw]; cbn [fst snd].
    + apply Hp in Hw. split_and!; [done|..]; intros q; rewrite ?Hin, ?Hset; set_solver.
    + destruct Hnew as [? ?]; [naive_solver|]. split_and!; [done..|]. intros q.
      destruct (decide (q.1 = p.1)) as [E|E].
      * rewrite E, lookup_insert_eq. simpl. specialize (Hset q). rewrite E, Ew in Hset. simpl in Hset.
        rewrite elem_of_union, elem_of_singleton, Hset, elem_of_app, list_elem_of_singleton.
        destruct p, q; simpl in *; naive_solver.
      * rewrite lookup_insert_ne, Hset, elem_of_app, list_elem_of_singleton by done. naive_solver.
  - destruct Hnew as [? ?]; [set_solver|]. cbn [fst snd]. split_and!; [done..|]. intros q.
    destruct (decide (q.1 = p.1)) as [E|E].
    + rewrite E, lookup_insert_eq. simpl. specialize (Hset q). rewrite E, Ew in Hset. simpl in Hset.
      rewrite elem_of_singleton, elem_of_app, list_elem_of_singleton.
      destruct p, q; simpl in *; set_solver.
    + rewrite lookup_insert_ne, Hset, elem_of_app, list_elem_of_singleton by done. naive_solver.
Qed.

(** ** Filling the caches *)

(** A state as a fetch leaves it: the stored tuples, no flag set. *)
Definition fetched (k : state_kind) (l : list Tuple) (s : StateType) : Prop :=
  state_tuples s = l ∧ kind_of_state s = k ∧
  st_base s = MkBase (bool_decide (l ≠ [])) false false ∧ IsAppended s = false ∧
  (k = SList → append_start s = length l).

Lemma fetched_tracks k l s : fetched k l s → tracks l s.
Proof.
  intros (Hl & Hk & Hb & Ha & Hi). unfold tracks, HasValue, IsUpdated. rewrite Hb, Ha. simpl.
  split.
  - case_bool_decide as Hne; [by rewrite Hl|naive_solver].
  - intros _. destruct s as [b o|b l' a i]; simpl in *; [done|].
    subst. rewrite (Hi eq_refl). split_and!; [done|by rewrite firstn_all|done|done].
Qed.

(** Tuples a state of the cache can hold. *)
Definition storable (b : StateCacheBase) (l : list Tuple) : Prop :=
  Forall (well_typed (valueType b)) l ∧ (valueKind b = SValue → length l ≤ 1).

Lemma deserializeValue_Ok b v l :
  cache_ready b → Forall (λ k, SupportedKind k = true) (valueType b) → storable b l →
  default [] v = list_bytes l →
  ∃ s, deserializeValue b v = Ok s ∧ fetched (valueKind b) l s.
Proof.
  intros (enc & dec & siz & Hc & Hcodec) Hsup [Hwt Hlen] Hv. unfold deserializeValue, the_codec.
  rewrite Hc. destruct (decide (l = [])) as [->|Hne].
  - change (list_bytes []) with (@nil Z) in Hv.
    exists (StateType_New (valueKind b)). split.
    + destruct v as [[|]|]; done.
    + by destruct (valueKind b).
  - destruct (Deserialize_Ok Hcodec Hsup (valueKind b) l Hwt Hne) as (s & Hs & H1' & H2' & H3' & H4' & H5').
    { intros Hk. specialize (Hlen Hk). destruct l as [|? []]; simpl in *; [done|done|lia]. }
    pose proof (list_bytes_nil l Hwt Hne) as Hbne. rewrite <-Hv in Hbne.
    exists s. split.
    + destruct v as [[|x bs]|]; try done. simpl in Hv.
      change (Deserialize (valueType b) dec (StateType_New (valueKind b)) (x :: bs) = Ok s).
      by rewrite Hv.
    + unfold fetched. rewrite bool_decide_true by done. split_and!; [done..|].
      intros Hk. destruct s; [by rewrite Hk in H2'|]. by eapply H5'.
Qed.

Definition set_slots (c : StateCache) (sls : list slot) (vs : list (option bytes))
    : res StateCache :=
  match c with
  | SimpleStateCache _ _ => SetSimpleStateCache c sls.*1 vs
  | WindowStateCache _ _ => SetWindowStateCache c sls.*1 (default 0%Z <$> sls.*2) vs
  end.

Definition slot_shape (c : StateCache) (sl : slot) : Prop :=
  match c with
  | SimpleStateCache _ _ => sl.2 = None
  | WindowStateCache _ _ => is_Some sl.2
  end.

(** The loop that deserializes values into a map, for any map with the laws of
    insertion. *)
Lemma fill_loop {M} (ins : M → slot → StateType → M) (look : M → slot → option StateType)
    b (sls : list slot) vs ls (f : M → nat * field → res M) (m0 : M) :
  cache_ready b → Forall (λ k, SupportedKind k = true) (valueType b) → NoDup sls →
  Forall (storable b) ls → Forall2 (λ v l, default [] v = list_bytes l) vs ls →
  length vs = length sls →
  (∀ m sl s, sl ∈ sls → look (ins m sl s) sl = Some s) →
  (∀ m sl sl' s, sl ∈ sls → sl' ∈ sls → sl ≠ sl' → look (ins m sl s) sl' = look m sl') →
  (∀ m i sl v s, sls !! i = Some sl → vs !! i = Some v → deserializeValue b v = Ok s →
     f m (i, sl.1) = Ok (ins m sl s)) →
  ∃ m, foldM f m0 (imap pair sls.*1) = Ok m ∧
    ∀ i sl l, sls !! i = Some sl → ls !! i = Some l →
      ∃ s, look m sl = Some s ∧ fetched (valueKind b) l s.
Proof.
  intros Hr Hsup Hnd Hst Hvs Hlen Hself Hother Hf.
  destruct (foldM_total f
    (λ pre m, ∀ i sl l, i < length pre → sls !! i = Some sl → ls !! i = Some l →
      ∃ s, look m sl = Some s ∧ fetched (valueKind b) l s) (imap pair sls.*1) m0)
    as (m & Hm & HP).
  - intros i sl l Hi. simpl in Hi. lia.
  - intros pre [n k] m [suf Hpre] HP.
    assert (Hn : imap pair sls.*1 !! length pre = Some (n, k)).
    { rewrite Hpre, <-app_assoc. by apply list_lookup_middle. }
    rewrite list_lookup_imap, list_lookup_fmap in Hn.
    destruct (sls !! length pre) as [sl|] eqn:Esl; [|done]. simpl in Hn. injection Hn as <- <-.
    pose proof (lookup_lt_Some _ _ _ Esl) as Hlt.
    destruct (lookup_lt_is_Some_2 vs (length pre) ltac:(lia)) as [v Hv].
    destruct (Forall2_lookup_l _ _ _ _ _ Hvs Hv) as (l & Hl & Hvl).
    destruct (deserializeValue_Ok b v l) as (s & Hs & Hfet); try done.
    { by eapply Forall_lookup_1. }
    exists (ins m sl s). split; [by eapply Hf|].
    intros i sl' l' Hi Hsl' Hl'. rewrite length_app in Hi. simpl in Hi.
    destruct (decide (i = length pre)) as [->|Hne].
    + simplify_eq. exists s. split; [|done]. apply Hself. by eapply list_elem_of_lookup_2.
    + rewrite Hother; [apply (HP i); [lia|done..]|by eapply list_elem_of_lookup_2..|].
      intros ->. apply Hne. by eapply NoDup_lookup.
  - exists m. split; [done|]. intros i sl l Hi. apply HP; [|done].
    rewrite length_imap, length_fmap. by eapply lookup_lt_Some.
Qed.

Lemma set_slots_Ok c sls vs ls :
  cache_ready (cache_base c) →
  Forall (λ k, SupportedKind k = true) (valueType (cache_base c)) →
  NoDup sls → Forall (slot_shape c) sls →
  Forall (storable (cache_base c)) ls →
  Forall2 (λ v l, default [] v = list_bytes l) vs ls → length vs = length sls →
  ∃ c', set_slots c sls vs = Ok c' ∧ cache_base c' = cache_base c ∧ IsUnset c' = false ∧
    (∀ sl, slot_shape c' sl ↔ slot_shape c sl) ∧
    ∀ i sl l, sls !! i = Some sl → ls !! i = Some l →
      ∃ s, cached c' sl = Some s ∧ fetched (valueKind (cache_base c)) l s.
Proof.
  intros Hr Hsup Hnd Hshape Hst Hvs Hlen. rewrite Forall_forall in Hshape.
  destruct c as [b m0|b m0]; simpl in *.
  - destruct (fill_loop (λ m sl s, <[sl.1 := s]> m) (λ m sl, m !! sl.1) b sls vs ls
      (λ m '(i, key), v ← idx vs i; stateVal ← deserializeValue b v; Ok (<[key := stateVal]> m))
      (∅ : gmap field StateType)) as (m & Hm & Hlook); try done.
    + intros m sl s _. apply lookup_insert_eq.
    + intros m [k ts] [k' ts'] s Hsl%Hshape Hsl'%Hshape Hne. simpl in *. subst.
      apply lookup_insert_ne. congruence.
    + intros m i sl v s _ Hv Hs. unfold idx. by rewrite Hv, bind_Ok, Hs.
    + rewrite Hm. eexists. split; [done|]. split_and!; [done..|].
      intros i sl l Hi Hl. unfold cached.
      rewrite (Hshape sl) by by eapply list_elem_of_lookup_2. by eapply Hlook.
  - destruct (fill_loop (λ (m : gmap field (gmap Z StateType)) sl s,
        <[sl.1 := <[default 0%Z sl.2 := s]> (default ∅ (m !! sl.1))]> m)
      (λ m sl, default ∅ (m !! sl.1) !! default 0%Z sl.2) b sls vs ls
      (λ m '(i, key), v ← idx vs i; stateVal ← deserializeValue b v;
        ts ← idx (default 0%Z <$> sls.*2) i;
        Ok (<[key := <[ts := stateVal]> (default ∅ (m !! key))]> m))
      (∅ : gmap field (gmap Z StateType))) as (m & Hm & Hlook); try done.
    + intros m sl s _. rewrite lookup_insert_eq. apply lookup_insert_eq.
    + intros m [k ts] [k' ts'] s [t Ht]%Hshape [t' Ht']%Hshape Hne. simpl in *. subst. simpl.
      destruct (decide (k = k')) as [->|Hk]; [|by rewrite lookup_insert_ne].
      rewrite lookup_insert_eq. simpl. apply lookup_insert_ne. congruence.
    + intros m i sl v s Hi Hv Hs. unfold idx. rewrite Hv, bind_Ok, Hs, bind_Ok.
      by rewrite !list_lookup_fmap, Hi.
    + rewrite Hm. eexists. split; [done|]. split_and!; [done..|].
      intros i sl l Hi Hl. unfold cached.
      destruct (Hshape sl) as [t Ht]; [by eapply list_elem_of_lookup_2|]. rewrite Ht.
      destruct (Hlook i sl l Hi Hl) as (s & Hs & ?). rewrite Ht in Hs. eauto.
Qed.

(** ** Fetch *)

(** Everything but the batch data, the caches and the service. *)
Definition same_conf sc sc' : Prop :=
  operatorID sc' = operatorID sc ∧ stateClientType sc' = stateClientType sc ∧
  keyHashFunc sc' = keyHashFunc sc ∧ sc_numBuckets sc' = sc_numBuckets sc ∧
  keyKind sc' = keyKind sc ∧ keyEncoder sc' = keyEncoder sc ∧ keySizer sc' = keySizer sc.

Lemma same_conf_bytes sc sc' id sl : same_conf sc sc' → slot_bytes sc' id sl = slot_bytes sc id sl.
Proof.
  intros (Hop & _ & Hh & Hn & _). unfold slot_bytes, bucket_of. by rewrite Hop, Hh, Hn.
Qed.

Lemma same_conf_slot sc sc' sl : same_conf sc sc' → slot_for sc' sl ↔ slot_for sc sl.
Proof. intros (_ & Ht & _ & _ & Hk & _). unfold slot_for. by rewrite Ht, Hk. Qed.

(** Two caches that differ in their maps only. *)
Definition same_cache (c c' : StateCache) : Prop :=
  cache_base c' = cache_base c ∧ ∀ sl, slot_shape c' sl ↔ slot_shape c sl.

Lemma same_cache_CleanUp c : same_cache c (CleanUp c).
Proof. by destruct c. Qed.

Definition same_caches sc sc' : Prop :=
  ∀ id, match sc_cache sc !! id with
        | None => sc_cache sc' !! id = None
        | Some c => ∃ c', sc_cache sc' !! id = Some c' ∧ same_cache c c'
        end.

Lemma client_ok_same sc sc' :
  client_ok sc → same_conf sc sc' → same_caches sc sc' → client_ok sc'.
Proof.
  intros Hok (Hop & Ht & Hh & Hn & Hk & He & Hz) Hc. split; rewrite ?Hop, ?Ht, ?Hh, ?Hn, ?Hk, ?He, ?Hz.
  1-5: apply Hok.
  intros id c' Hc'. specialize (Hc id). destruct (sc_cache sc !! id) as [c|] eqn:E; [|congruence].
  destruct Hc as (c'' & Hc'' & Hb & Hs). assert (c'' = c') as -> by congruence.
  destruct (ok_caches _ Hok id c E) as (Hid & Hr & Hsup & Hty). rewrite Hb. split_and!; [done..|].
  specialize (Hs (FBool true, None)). destruct c, c'; simpl in *; try done;
    destruct Hs as [Hs1 Hs2]; [by destruct (Hs2 eq_refl)|by destruct (Hs1 eq_refl)].
Qed.

(** The tuples the service holds for a slot. *)
Definition stored sc (id : Z) (sl : slot) (l : list Tuple) : Prop :=
  value_of (stateService sc) (slot_bytes sc id sl) = list_bytes l.

(** The service serves the client's operator, and under the keys of this
    client it holds states of its types. *)
Definition serving sc : Prop := serves (stateService sc) (operatorID sc) (sc_numBuckets sc).

Record store_typed sc : Prop := {
  st_serving : serving sc;
  st_states : ∀ id c sl, sc_cache sc !! id = Some c → slot_for sc sl →
    ∃ l, storable (cache_base c) l ∧ stored sc id sl l
}.

(** Two services that hold the same values. *)
Definition same_values (s s' : S) : Prop := ∀ k, value_of s' k = value_of s k.

Lemma slot_key_at sc id sl :
  client_ok sc → key_at (operatorID sc) (sc_numBuckets sc) (slot_bytes sc id sl) (bucket_of sc sl.1).
Proof. intros Hok. split; [by apply bucket_of_range|]. by eexists. Qed.

Lemma slot_shape_for sc id c sl :
  client_ok sc → sc_cache sc !! id = Some c → slot_for sc sl → slot_shape c sl.
Proof.
  intros Hok Hc [_ Hsl]. destruct (ok_caches _ Hok id c Hc) as (_ & _ & _ & Hty).
  destruct c; simpl in *; by rewrite Hty in Hsl.
Qed.

(** What the caches hold after a fetch of [sls]. *)
Definition filled sc sc' (ids : list Z) (sls : list slot) : Prop :=
  ∀ id, id ∈ ids → ∃ c c', sc_cache sc !! id = Some c ∧ sc_cache sc' !! id = Some c' ∧
    same_cache c c' ∧ IsUnset c' = false ∧
    ∀ sl l, sl ∈ sls → storable (cache_base c) l → stored sc id sl l →
      ∃ s, cached c' sl = Some s ∧ fetched (valueKind (cache_base c)) l s.

Lemma fill_caches_Ok sc (set : StateCache → list (option bytes) → res StateCache)
    ids sls skeys (values : keyed (option bytes)) :
  client_ok sc → store_typed sc → Forall (slot_for sc) sls → NoDup sls →
  serialized sc ids sls skeys →
  (∀ id, is_Some (values !! id) ↔ is_Some (skeys !! id)) →
  (∀ id ks vs, skeys !! id = Some ks → values !! id = Some vs →
     Forall2 (λ k v, default [] v = value_of (stateService sc) k) ks vs) →
  (∀ id c vs, sc_cache sc !! id = Some c → set c vs = set_slots c sls vs) →
  (∀ id, id ∈ ids → is_Some (sc_cache sc !! id)) →
  ∃ m, fill_caches set values (sc_cache sc) = Ok m ∧
    same_caches sc (set_caches sc m) ∧ filled sc (set_caches sc m) ids sls.
Proof.
  intros Hok Hst Hsls Hnd Hser Hdom Hval Hset Hreg.
  set (g := λ (id : Z) c, match values !! id with Some vs => set c vs | None => Ok (CleanUp c) end).
  assert (Hg : ∀ id c, sc_cache sc !! id = Some c → ∃ c', g id c = Ok c' ∧ same_cache c c' ∧
    (id ∈ ids → IsUnset c' = false ∧
      ∀ sl l, sl ∈ sls → storable (cache_base c) l → stored sc id sl l →
        ∃ s, cached c' sl = Some s ∧ fetched (valueKind (cache_base c)) l s)).
  { intros id c Hc. unfold g. destruct (values !! id) as [vs|] eqn:Ev.
    - assert (Hk : is_Some (skeys !! id)) by (apply Hdom; eauto).
      rewrite (Hser id) in Hk. destruct (decide (id ∈ ids)) as [Hid|]; [|by destruct Hk].
      assert (Hks : skeys !! id = Some (slot_bytes sc id <$> sls)) by by rewrite (Hser id), decide_True.
      pose proof (Hval _ _ _ Hks Ev) as Hvs. apply Forall2_fmap_l in Hvs.
      destruct (Forall_choice (λ sl l, storable (cache_base c) l ∧ stored sc id sl l) sls) as [ls Hls].
      { eapply Forall_impl; [exact Hsls|]. intros sl Hsl. by apply (st_states _ Hst id). }
      destruct (ok_caches _ Hok id c Hc) as (_ & Hr & Hsup & _).
      destruct (set_slots_Ok c sls vs ls) as (c' & Hc' & Hb & Hu & Hsh & Hlook); try done.
      { eapply Forall_impl; [exact Hsls|]. intros sl Hsl. by eapply slot_shape_for. }
      { apply Forall_forall. intros l [i Hi]%list_elem_of_lookup_1.
        by destruct (Forall2_lookup_r _ _ _ _ _ Hls Hi) as (? & _ & ? & _). }
      { apply Forall2_same_length_lookup. split.
        - rewrite <-(Forall2_length _ _ _ Hvs). by eapply Forall2_length.
        - intros i v l Hi Hl. destruct (Forall2_lookup_r _ _ _ _ _ Hvs Hi) as (sl & Hsl & ->).
          destruct (Forall2_lookup_lr _ _ _ _ _ _ Hls Hsl Hl) as [_ Hstored]. exact Hstored. }
      { symmetry. by eapply Forall2_length. }
      exists c'. rewrite Hset with (id := id) by done. split; [done|]. split; [done|]. intros _.
      split; [done|]. intros sl l [i Hi]%list_elem_of_lookup_1 Hsl Hl.
      destruct (Forall2_lookup_l _ _ _ _ _ Hls Hi) as (l' & Hl' & [Hwt' _] & Hstored').
      destruct Hr as (enc & dec & siz & _ & Hcodec). destruct Hsl as [Hwt _].
      assert (l' = l) as ->; [|by eapply Hlook].
      eapply (list_bytes_inj Hcodec Hsup); [done..|]. congruence.
    - exists (CleanUp c). split; [done|]. split; [apply same_cache_CleanUp|]. intros Hid.
      assert (Hk : is_Some (values !! id)); [|rewrite Ev in Hk; by destruct Hk].
      apply Hdom. rewrite (Hser id), decide_True by done. eauto. }
  destruct (range_update g (sc_cache sc)) as (m & Hm & Hspec).
  { intros id c Hc. destruct (Hg id c Hc) as (c' & ? & _). eauto. }
  exists m. split; [exact Hm|]. split.
  - intros id. specialize (Hspec id). simpl. destruct (sc_cache sc !! id) as [c|] eqn:E; [|done].
    destruct Hspec as (c' & Hc' & Hm'). destruct (Hg id c E) as (c'' & Hc'' & Hsame & _).
    exists c'. split; [done|]. congruence.
  - intros id Hid. destruct (Hreg id Hid) as [c Hc]. specialize (Hspec id). rewrite Hc in Hspec.
    destruct Hspec as (c' & Hc' & Hm'). destruct (Hg id c Hc) as (c'' & Hc'' & Hsame & Hfill).
    assert (c'' = c') as -> by congruence. destruct (Hfill Hid). exists c, c'. by split_and!.
Qed.

Lemma init_keys_Ok sc ids :
  serialized sc ids [] (foldl (λ m id, <[id := []]> m) (∅ : keyed bytes) ids).
Proof.
  intros j. induction ids as [|id ids IH] using rev_ind; [done|].
  rewrite foldl_app. simpl. destruct (decide (j = id)) as [->|Hne].
  - by rewrite lookup_insert_eq, decide_True by set_solver.
  - rewrite lookup_insert_ne, IH by done. by repeat case_decide; set_solver.
Qed.

Lemma validate_Ok sc ids :
  ids ≠ [] → (∀ id, id ∈ ids → is_Some (sc_cache sc !! id)) → validateStateIDs sc ids = Ok tt.
Proof.
  intros Hne Hreg. unfold validateStateIDs. replace (length ids =? 0) with false by (by destruct ids).
  rewrite bind_fatal_false. clear Hne. induction ids as [|id ids IH]; [done|]. simpl.
  destruct (Hreg id) as [c Hc]; [by left|]. rewrite Hc, bool_decide_false by done. simpl.
  apply IH. intros id' Hid'. apply Hreg. by right.
Qed.

(** The client after a fetch of [sls]. *)
Definition after_fetch sc sc' (ids : list Z) (sls : list slot) : Prop :=
  same_conf sc sc' ∧ same_caches sc sc' ∧ filled sc sc' ids sls ∧
  same_values (stateService sc) (stateService sc') ∧ serving sc' ∧
  (∀ id sl, id ∈ ids → sl ∈ sls → held (stateService sc') (slot_bytes sc id sl)) ∧
  bucketIDs sc' = (λ sl, bucket_of sc sl.1) <$> sls ∧
  serialized sc ids sls (serializedKeys sc') ∧ dedupedKeys sc' = sls.*1.

(** The common tail of both fetches. *)
Lemma fetch_core sc encode set ids sls starts :
  client_ok sc → store_typed sc → Forall (slot_for sc) sls → NoDup sls →
  ids ≠ [] → NoDup ids → (∀ id, id ∈ ids → is_Some (sc_cache sc !! id)) →
  (∀ n sl id, sls !! n = Some sl → encode n sl.1 id = Ok (slot_bytes sc id sl, bucket_of sc sl.1)) →
  (∀ id c vs, sc_cache sc !! id = Some c → set c vs = set_slots c sls vs) →
  ∃ sc' n,
    ('(bids, skeys) ← foldM (serialize_key encode ids)
        ([], foldl (λ m id, <[id := []]> m) (∅ : keyed bytes) ids) (imap pair sls.*1);
     '(s, values) ← GetManyMultiState (stateService sc) (operatorID sc) skeys bids;
     caches ← fill_caches set values (sc_cache sc);
     Ok (set_caches (set_service (set_batch sc sls.*1 starts bids skeys) s) caches,
         count_values values)) = Ok (sc', n) ∧
    after_fetch sc sc' ids sls ∧ dedupedWindowStartTimes sc' = starts.
Proof.
  intros Hok Hst Hsls Hnd Hne Hndi Hreg Henc Hset.
  destruct (serialize_keys_Ok sc encode ids sls _ Hndi Hne Henc (init_keys_Ok sc ids))
    as (skeys & -> & Hser). rewrite bind_Ok.
  destruct (get_law (stateService sc) (operatorID sc) (sc_numBuckets sc) skeys
    ((λ sl, bucket_of sc sl.1) <$> sls)) as (s' & values & Hget & [Hsv _] & Hcont & Hheld & Hdom & Hval).
  { apply Hst. }
  { apply Forall_fmap, Forall_true. intros sl. by destruct (slot_key_at sc 0 sl) as [? _]. }
  { intros id ks Hks. rewrite (Hser id) in Hks. case_decide; [|done]. injection Hks as <-.
    apply Forall2_fmap_2, Forall_Forall2_diag, Forall_true. intros sl. by apply slot_key_at. }
  rewrite Hget, bind_Ok.
  destruct (fill_caches_Ok sc set ids sls skeys values) as (m & Hm & Hsame & Hfill); try done.
  rewrite Hm, bind_Ok. do 2 eexists. split; [done|]. split; [|done]. split_and!; try done.
  intros id sl Hid Hsl. simpl. apply Hheld, (serialized_keys sc ids sls skeys); [done|]. by exists id, sl.
Qed.

Lemma slots_simple (sls : list slot) :
  Forall (λ sl, sl.2 = None) sls → (λ k, (k, None)) <$> sls.*1 = sls.
Proof.
  induction 1 as [|[k ts] sls Hts _ IH]; [done|]. rewrite !fmap_cons, IH. simpl in *. by subst.
Qed.

Lemma slots_window (sls : list slot) :
  Forall (λ sl, is_Some sl.2) sls →
  zip_with (λ k t, (k, Some t)) sls.*1 (default 0%Z <$> sls.*2) = sls.
Proof.
  induction 1 as [|[k ts] sls [t Ht] _ IH]; [done|]. rewrite !fmap_cons. cbn [zip_with].
  rewrite IH. simpl in *. by subst.
Qed.

Lemma zip_slots (sls : list slot) :
  zip sls.*1 (default 0%Z <$> sls.*2) = (λ sl, (sl.1, default 0%Z sl.2)) <$> sls.
Proof. induction sls as [|sl sls IH]; [done|]. rewrite !fmap_cons, <-IH. done. Qed.

Lemma elem_of_simple (sls : list slot) (d : list field) (sl : slot) :
  (∀ k, k ∈ d ↔ k ∈ sls.*1) → Forall (λ sl, sl.2 = None) sls →
  sl ∈ ((λ k, (k, None)) <$> d) ↔ sl ∈ sls.
Proof.
  intros Hd Hn. rewrite Forall_forall in Hn. rewrite list_elem_of_fmap. split.
  - intros (k & -> & Hk). apply Hd, list_elem_of_fmap in Hk as ([k' ts] & -> & Hsl).
    specialize (Hn _ Hsl). simpl in *. by subst.
  - intros Hsl. exists sl.1. specialize (Hn _ Hsl). destruct sl as [k ts]. simpl in *. subst.
    split; [done|]. apply Hd, list_elem_of_fmap. by exists (k, None).
Qed.

Lemma elem_of_window (sls : list slot) (ps : list (field * Z)) (sl : slot) :
  (∀ p, p ∈ ps ↔ p ∈ zip sls.*1 (default 0%Z <$> sls.*2)) → Forall (λ sl, is_Some sl.2) sls →
  sl ∈ ((λ p, (p.1, Some p.2)) <$> ps) ↔ sl ∈ sls.
Proof.
  intros Hd Hn. rewrite Forall_forall in Hn. rewrite zip_slots in Hd.
  rewrite list_elem_of_fmap. split.
  - intros (p & -> & Hp). apply Hd, list_elem_of_fmap in Hp as ([k' ts] & -> & Hsl).
    destruct (Hn _ Hsl) as [t Ht]. simpl in *. by subst.
  - intros Hsl. exists (sl.1, default 0%Z sl.2). destruct (Hn _ Hsl) as [t Ht].
    destruct sl as [k ts]. simpl in *. subst. split; [done|].
    apply Hd, list_elem_of_fmap. by exists (k, Some t).
Qed.

(** A fetch succeeds and leaves the client with the distinct slots of the
    request, filled. *)
Definition fetch_result sc (sls : list slot) (ids : list Z) (r : res (StateClient S * nat)) : Prop :=
  ∃ sc' n, r = Ok (sc', n) ∧ after_fetch sc sc' ids (slots sc') ∧
    NoDup (slots sc') ∧ (∀ sl, sl ∈ slots sc' ↔ sl ∈ sls) ∧
    (stateClientType sc = WindowStateClient →
       length (dedupedKeys sc') = length (dedupedWindowStartTimes sc')).

Section Fetch.
Context sc (sls : list slot) (ids : list Z) (Hok : client_ok sc) (Hst : store_typed sc) (Hne : sls ≠ [])
  (Hsls : Forall (slot_for sc) sls) (Hidne : ids ≠ []) (Hndi : NoDup ids)
  (Hreg : ∀ id, id ∈ ids → is_Some (sc_cache sc !! id)).

Lemma fetch_simple_Ok :
  stateClientType sc = SimpleStateClient →
  fetch_result sc sls ids (FetchSimpleState sc sls.*1 ids).
Proof.
  intros Ety. assert (Hlen : (length sls.*1 =? 0) = false) by (by destruct sls).
  assert (Hn2 : Forall (λ sl : slot, sl.2 = None) sls).
  { eapply Forall_impl; [exact Hsls|]. intros sl [_ Hsl]. by rewrite Ety in Hsl. }
  unfold FetchSimpleState. rewrite Ety, Hlen, validate_Ok by done.
  rewrite bool_decide_false by done. rewrite !bind_fatal_false, bind_Ok.
  destruct (dedup_keys_spec sls.*1) as [Hdn Hdin]. set (d := dedup_keys sls.*1) in *. clearbody d.
  set (sls' := (λ k, (k, None) : slot) <$> d).
  assert (Hin : ∀ sl, sl ∈ sls' ↔ sl ∈ sls) by (intros sl; by apply elem_of_simple).
  assert (Hd : d = sls'.*1).
  { unfold sls'. rewrite <-list_fmap_compose. symmetry. apply list_fmap_id. }
  assert (Hnd' : NoDup sls') by (apply NoDup_fmap_2; [by intros k k' [= ->]|done]).
  rewrite Forall_forall in Hsls, Hn2. rewrite Hd.
  destruct (fetch_core sc (λ _ key id, encodeSimpleKey sc key id)
    (λ c vs, SetSimpleStateCache c sls'.*1 vs) ids sls' (dedupedWindowStartTimes sc))
    as (sc' & n & Hrun & Haf & Hstarts); try done.
  - apply Forall_forall. intros sl Hsl%Hin. by apply Hsls.
  - intros i sl id Hi. assert (Hsl : sl ∈ sls) by by eapply Hin, list_elem_of_lookup_2.
    destruct (Hsls _ Hsl) as [[Hk _] _]. destruct sl as [k ts]. pose proof (Hn2 _ Hsl) as Hts.
    simpl in Hts. subst ts. by apply encodeSimpleKey_Ok.
  - intros id c vs Hc. destruct (ok_caches _ Hok id c Hc) as (_ & _ & _ & Hty).
    destruct c; [done|]. congruence.
  - exists sc', n. split; [done|].
    assert (Hslots : slots sc' = sls').
    { unfold slots. destruct Haf as ((_ & Hty & _) & _ & _ & _ & _ & _ & _ & _ & Hdk).
      rewrite Hty, Ety, Hdk, slots_simple; [done|]. apply Forall_forall.
      intros sl Hsl%Hin. by apply Hn2. }
    rewrite Hslots. split_and!; [done..|congruence].
Qed.

Lemma fetch_window_Ok :
  stateClientType sc = WindowStateClient →
  fetch_result sc sls ids (FetchWindowState sc sls.*1 (default 0%Z <$> sls.*2) ids).
Proof.
  intros Ety. assert (Hlen : (length sls.*1 =? 0) = false) by (by destruct sls).
  assert (Hn2 : Forall (λ sl : slot, is_Some sl.2) sls).
  { eapply Forall_impl; [exact Hsls|]. intros sl [_ Hsl]. by rewrite Ety in Hsl. }
  unfold FetchWindowState. rewrite Ety, Hlen, validate_Ok by done.
  rewrite !length_fmap, Nat.eqb_refl, bool_decide_false by done.
  rewrite !bind_fatal_false, bind_Ok.
  destruct (dedup_windows_spec (zip sls.*1 (default 0%Z <$> sls.*2))) as [Hdn Hdin].
  set (d := dedup_windows _) in *. clearbody d.
  set (sls' := (λ p, (p.1, Some p.2) : slot) <$> d).
  assert (Hin : ∀ sl, sl ∈ sls' ↔ sl ∈ sls) by (intros sl; by apply elem_of_window).
  assert (Hd : d.*1 = sls'.*1) by (unfold sls'; by rewrite <-list_fmap_compose).
  assert (Hd2 : d.*2 = default 0%Z <$> sls'.*2) by (unfold sls'; by rewrite <-!list_fmap_compose).
  assert (Hnd' : NoDup sls').
  { apply NoDup_fmap_2; [|done]. by intros [k t] [k' t'] [= -> ->]. }
  rewrite Forall_forall in Hsls, Hn2. rewrite Hd, Hd2.
  destruct (fetch_core sc (λ i key id, ts ← idx (default 0%Z <$> sls'.*2) i; encodeWindowKey sc key ts id)
    (λ c vs, SetWindowStateCache c sls'.*1 (default 0%Z <$> sls'.*2) vs) ids sls'
    (default 0%Z <$> sls'.*2)) as (sc' & n & Hrun & Haf & Hstarts); try done.
  - apply Forall_forall. intros sl Hsl%Hin. by apply Hsls.
  - intros i sl id Hi. assert (Hsl : sl ∈ sls) by by eapply Hin, list_elem_of_lookup_2.
    destruct (Hsls _ Hsl) as [[Hk Ht] _]. destruct (Hn2 _ Hsl) as [t Hts].
    unfold idx. rewrite !list_lookup_fmap, Hi. destruct sl as [k ts]. simpl in *. subst ts. simpl.
    by apply encodeWindowKey_Ok.
  - intros id c vs Hc. destruct (ok_caches _ Hok id c Hc) as (_ & _ & _ & Hty).
    destruct c; [|done]. congruence.
  - exists sc', n. split; [done|].
    assert (Hslots : slots sc' = sls').
    { unfold slots. destruct Haf as ((_ & Hty & _) & _ & _ & _ & _ & _ & _ & _ & Hdk).
      rewrite Hty, Ety, Hdk, Hstarts, slots_window; [done|]. apply Forall_forall.
      intros sl Hsl%Hin. by apply Hn2. }
    rewrite Hslots. split_and!; [done..|]. intros _. destruct Haf as (_ & _ & _ & _ & _ & _ & _ & _ & ->).
    by rewrite Hstarts, !length_fmap.
Qed.

Lemma fetch_Ok : fetch_result sc sls ids (fetch sc sls ids).
Proof.
  unfold fetch. destruct (stateClientType sc) eqn:Ety;
    [by apply fetch_simple_Ok|by apply fetch_window_Ok].
Qed.
End Fetch.

(** ** Between fetch and flush *)

(** A cached state: it tracks what the service holds, its tuples are typed and
    it is of the cache's kind. *)
Definition live sc (id : Z) (c : StateCache) (sl : slot) : Prop :=
  ∃ s l0, cached c sl = Some s ∧ tracks l0 s ∧
    Forall (well_typed (valueType (cache_base c))) (state_tuples s) ∧
    kind_of_state s = valueKind (cache_base c) ∧ storable (cache_base c) l0 ∧ stored sc id sl l0.

Record batch_inv sc (ids : list Z) : Prop := {
  bi_ok : client_ok sc;
  bi_typed : store_typed sc;
  bi_slots : Forall (slot_for sc) (slots sc);
  bi_nodup : NoDup (slots sc);
  bi_len : stateClientType sc = WindowStateClient →
    length (dedupedKeys sc) = length (dedupedWindowStartTimes sc);
  bi_bids : bucketIDs sc = (λ sl, bucket_of sc sl.1) <$> slots sc;
  bi_skeys : serialized sc ids (slots sc) (serializedKeys sc);
  bi_held : ∀ id sl, id ∈ ids → sl ∈ slots sc → held (stateService sc) (slot_bytes sc id sl);
  bi_caches : ∀ id, id ∈ ids → ∃ c, sc_cache sc !! id = Some c ∧ IsUnset c = false ∧
    ∀ sl, sl ∈ slots sc → live sc id c sl
}.

Lemma stored_same sc sc' id sl l :
  same_conf sc sc' → same_values (stateService sc) (stateService sc') →
  stored sc' id sl l ↔ stored sc id sl l.
Proof. intros Hc Hs. unfold stored. by rewrite (same_conf_bytes sc sc'), Hs. Qed.

Lemma store_typed_same sc sc' :
  same_conf sc sc' → same_caches sc sc' → serving sc' →
  same_values (stateService sc) (stateService sc') → store_typed sc → store_typed sc'.
Proof.
  intros Hconf Hcs Hsv Hcont [_ Hst]. split; [done|]. intros id c' sl Hc' Hsl. specialize (Hcs id).
  destruct (sc_cache sc !! id) as [c|] eqn:E; [|congruence].
  destruct Hcs as (c'' & Hc'' & Hb & _). assert (c'' = c') as -> by congruence.
  destruct (Hst id c sl E) as (l & Hl & Hs); [by apply (same_conf_slot sc sc')|].
  exists l. rewrite Hb. split; [done|]. by apply (stored_same sc sc').
Qed.

Lemma fetch_batch_inv sc sls ids :
  client_ok sc → store_typed sc → sls ≠ [] → Forall (slot_for sc) sls →
  ids ≠ [] → NoDup ids → (∀ id, id ∈ ids → is_Some (sc_cache sc !! id)) →
  ∃ sc' n, fetch sc sls ids = Ok (sc', n) ∧ batch_inv sc' ids ∧ after_fetch sc sc' ids (slots sc') ∧
    ∀ sl, sl ∈ slots sc' ↔ sl ∈ sls.
Proof.
  intros Hok Hst Hne Hsls Hidne Hndi Hreg.
  destruct (fetch_Ok sc sls ids Hok Hst Hne Hsls Hidne Hndi Hreg)
    as (sc' & n & Hrun & Haf & Hnd & Hin & Hlen).
  exists sc', n. split; [done|]. split; [|done].
  pose proof Haf as (Hconf & Hcs & Hfill & Hcont & Hsv & Hheld & Hbids & Hser & Hdk).
  assert (Hsls' : Forall (slot_for sc') (slots sc')).
  { apply Forall_forall. intros sl Hsl%Hin. apply (same_conf_slot sc sc' sl Hconf).
    by rewrite Forall_forall in Hsls; apply Hsls. }
  split.
  - by eapply client_ok_same.
  - by eapply store_typed_same.
  - done.
  - done.
  - destruct Hconf as (_ & Hty & _). by rewrite Hty.
  - rewrite Hbids. apply list_fmap_ext. intros _ sl _. unfold bucket_of.
    by destruct Hconf as (_ & _ & -> & -> & _).
  - intros j. rewrite (Hser j). case_decide; [|done]. f_equal. apply list_fmap_ext.
    intros _ sl _. symmetry. by apply same_conf_bytes.
  - intros id sl Hid Hsl. rewrite (same_conf_bytes sc sc') by done. by apply Hheld.
  - intros id Hid. destruct (Hfill id Hid) as (c & c' & Hc & Hc' & [Hb Hsh] & Hu & Hlook).
    exists c'. split; [done|]. split; [done|]. intros sl Hsl.
    destruct (st_states _ Hst id c sl Hc) as (l & Hl & Hs).
    { by rewrite Forall_forall in Hsls; apply Hsls, Hin. }
    destruct (Hlook sl l Hsl Hl Hs) as (s & Hcs' & Hf).
    exists s, l. rewrite Hb. split_and!; [done|by eapply fetched_tracks| | |done|].
    + destruct Hf as (-> & _). apply Hl.
    + by destruct Hf as (_ & -> & _).
    + by apply (stored_same sc sc').
Qed.

Lemma cached_set c sl s :
  slot_shape c sl → cached (set_cached c sl s) sl = Some s ∧
  (∀ sl', slot_shape c sl' → sl' ≠ sl → cached (set_cached c sl s) sl' = cached c sl') ∧
  same_cache c (set_cached c sl s) ∧ IsUnset (set_cached c sl s) = false.
Proof.
  destruct sl as [k ts], c as [b m|b m]; simpl; intros Hsh.
  - subst. unfold cached. simpl. split_and!; [apply lookup_insert_eq| |done|done].
    intros [k' ts'] Hsh' Hne. simpl in *. subst. apply lookup_insert_ne. congruence.
  - destruct Hsh as [t ->]. unfold cached. simpl.
    split_and!; [by rewrite lookup_insert_eq; apply lookup_insert_eq| |done|done].
    intros [k' ts'] [t' Ht'] Hne. simpl in *. subst.
    destruct (decide (k' = k)) as [->|Hk]; [|by rewrite lookup_insert_ne].
    rewrite lookup_insert_eq. simpl. apply lookup_insert_ne. congruence.
Qed.

Lemma get_state_Ok sc id c sl s :
  client_ok sc → slot_for sc sl → sc_cache sc !! id = Some c → IsUnset c = false →
  cached c sl = Some s → get_state sc id sl = Ok s.
Proof.
  intros Hok Hsl Hc Hu Hs. pose proof (slot_shape_for sc id c sl Hok Hc Hsl) as Hsh.
  unfold get_state, GetSimpleState, GetWindowState, set_cache_of. rewrite Hc, Hu.
  destruct sl as [k ts], c as [b m|b m]; simpl in *.
  - subst ts. simpl. unfold cached in Hs. simpl in Hs. by rewrite Hs.
  - destruct Hsh as [t ->]. simpl. unfold cached in Hs. simpl in Hs.
    destruct (default ∅ m !! k) as [w|]; simpl in *; [by rewrite Hs|]. by rewrite lookup_empty in Hs.
Qed.

Lemma apply_op_kind s op s' : apply_op s op = Ok s' → kind_of_state s' = kind_of_state s.
Proof.
  destruct op as [| | | | |o], s; simpl; try discriminate; try (by intros [= <-]);
    destruct o; simpl; try discriminate; by intros [= <-].
Qed.

(** A call that suits the state it is made on. *)
Definition call_ok sc (x : Z * slot * state_op) : Prop :=
  let '(id, sl, op) := x in
  ∀ c l0, sc_cache sc !! id = Some c → storable (cache_base c) l0 → stored sc id sl l0 →
    op_ok (valueType (cache_base c)) l0 op.

Lemma user_op_inv sc ids id sl op sc' :
  batch_inv sc ids → id ∈ ids → sl ∈ slots sc → call_ok sc (id, sl, op) →
  user_op sc (id, sl, op) = Ok sc' →
  batch_inv sc' ids ∧ slots sc' = slots sc ∧ same_conf sc sc' ∧ same_caches sc sc' ∧
  stateService sc' = stateService sc ∧
  ∃ s s', get_state sc id sl = Ok s ∧ apply_op s op = Ok s' ∧ get_state sc' id sl = Ok s' ∧
    ∀ id' sl', id' ∈ ids → sl' ∈ slots sc → (id', sl') ≠ (id, sl) →
      get_state sc' id' sl' = get_state sc id' sl'.
Proof.
  intros Hbi Hid Hsl Hcall.
  destruct (bi_caches _ _ Hbi id Hid) as (c & Hc & Hu & Hlive).
  destruct (Hlive sl Hsl) as (s & l0 & Hs & Htr & Hwt & Hk & Hl0 & Hst0).
  pose proof (bi_slots _ _ Hbi) as Hfor. rewrite Forall_forall in Hfor.
  pose proof (bi_ok _ _ Hbi) as Hok.
  assert (Hget : get_state sc id sl = Ok s) by (eapply get_state_Ok; eauto).
  unfold user_op. rewrite Hget, bind_Ok, Hc. intros (s' & Hop & [= <-])%bind_Ok_inv.
  destruct (apply_op_tracks (valueType (cache_base c)) l0 s op s') as [Htr' Hwt']; try done.
  { by eapply Hcall. }
  assert (Hsh : ∀ sl', sl' ∈ slots sc → slot_shape c sl') by (intros; eapply slot_shape_for; eauto).
  destruct (cached_set c sl s' (Hsh sl Hsl)) as (Hself & Hother & Hsame & Hun).
  set (c' := set_cached c sl s') in *. set (sc' := set_caches sc (<[id := c']> (sc_cache sc))).
  assert (Hconf : same_conf sc sc') by done.
  assert (Hcs : same_caches sc sc').
  { intros j. unfold sc'. simpl. destruct (decide (j = id)) as [->|Hne].
    - rewrite Hc, lookup_insert_eq. eauto.
    - rewrite lookup_insert_ne by done. destruct (sc_cache sc !! j) as [x|]; [|done].
      exists x. by split. }
  assert (Hok' : client_ok sc') by by eapply client_ok_same.
  assert (Hcache' : ∀ id' sl', id' ∈ ids → sl' ∈ slots sc → ∃ x x', sc_cache sc !! id' = Some x ∧
    sc_cache sc' !! id' = Some x' ∧ IsUnset x = false ∧ IsUnset x' = false ∧
    cache_base x' = cache_base x ∧
    ((id', sl') ≠ (id, sl) → cached x' sl' = cached x sl')).
  { intros id' sl' Hid' Hsl'. unfold sc'. simpl. destruct (decide (id' = id)) as [->|Hne].
    - exists c, c'. rewrite lookup_insert_eq. split_and!; try done; [apply Hsame|].
      intros Hneq. apply Hother; [by apply Hsh|congruence].
    - destruct (bi_caches _ _ Hbi id' Hid') as (x & Hx & Hux & _). exists x, x.
      rewrite lookup_insert_ne by done. by split_and!. }
  split; [|split_and!; try done].
  - split; try apply Hbi; try done;
      [by eapply (store_typed_same sc); try done; [apply (st_serving _ (bi_typed _ _ Hbi))|apply Hbi]|].
    intros id' Hid'. destruct (bi_caches _ _ Hbi id' Hid') as (x & Hx & Hux & Hlx).
    destruct (Hcache' id' sl Hid' Hsl) as (y & x' & Hy & Hx' & _ & Hux' & _ & _).
    exists x'. split; [done|]. split; [done|]. intros sl' Hsl'.
    destruct (Hcache' id' sl' Hid' Hsl') as (y' & x'' & Hy' & Hx'' & _ & _ & Hb & Hsame').
    assert (x'' = x') as -> by congruence. assert (y' = x) as -> by congruence.
    destruct (decide ((id', sl') = (id, sl))) as [[= -> ->]|Hne].
    + assert (x = c) as -> by congruence. unfold sc' in Hx'. simpl in Hx'.
      rewrite lookup_insert_eq in Hx'. injection Hx' as <-.
      exists s', l0. rewrite Hb. split_and!; try done. rewrite <-Hk. by eapply apply_op_kind.
    + destruct (Hlx sl' Hsl') as (t & l & Ht & Hrest). exists t, l. rewrite Hb, Hsame' by done.
      by split.
  - exists s, s'. split_and!; try done.
    + eapply (get_state_Ok sc' id c'); try done; [by apply Hfor|].
      unfold sc'. simpl. by rewrite lookup_insert_eq.
    + intros id' sl' Hid' Hsl' Hne.
      destruct (Hcache' id' sl' Hid' Hsl') as (x & x' & Hx & Hx' & Hux & Hux' & _ & Hsame').
      destruct (bi_caches _ _ Hbi id' Hid') as (y & Hy & _ & Hly).
      assert (y = x) as -> by congruence. destruct (Hly sl' Hsl') as (t & _ & Ht & _).
      rewrite (get_state_Ok sc id' x sl' t), (get_state_Ok sc' id' x' sl' t); try done;
        [by apply Hfor| |by apply Hfor]. by rewrite Hsame'.
Qed.

(** ** Flush *)

Definition empty_state : StateType := StateType_New SValue.

(** The entries the flush of one state goes through. *)
Definition entries sc (id : Z) : list entry :=
  match sc_cache sc !! id with
  | Some c => (λ sl, MkEntry (default empty_state (cached c sl)) (slot_bytes sc id sl)
                       (bucket_of sc sl.1)) <$> slots sc
  | None => []
  end.

Definition allow sc (id : Z) : bool :=
  match sc_cache sc !! id with
  | Some c => allowIncrementalSerialization (cache_base c)
  | None => false
  end.

Definition flush_data sc (c : StateCache) (skeys : list bytes) : res FlushData :=
  match stateClientType sc with
  | SimpleStateClient => GetSimpleStateFlushData c (dedupedKeys sc) skeys (bucketIDs sc)
  | WindowStateClient => GetWindowStateFlushData c (dedupedKeys sc)
                           (dedupedWindowStartTimes sc) skeys (bucketIDs sc)
  end.

Lemma flush_flush_all sc : flush sc = flush_all sc (flush_data sc).
Proof.
  unfold flush, FlushSimpleState, FlushWindowState, flush_data. destruct (stateClientType sc);
    by rewrite bool_decide_false.
Qed.

Lemma zip_entries sc id c (sls : list slot) :
  zip_with (λ v kb, MkEntry v kb.1 kb.2) ((λ sl, default empty_state (cached c sl)) <$> sls)
    (zip (slot_bytes sc id <$> sls) ((λ sl, bucket_of sc sl.1) <$> sls)) =
  (λ sl, MkEntry (default empty_state (cached c sl)) (slot_bytes sc id sl)
           (bucket_of sc sl.1)) <$> sls.
Proof. induction sls as [|sl sls IH]; [done|]. rewrite !fmap_cons, <-IH. done. Qed.

Lemma flush_data_Ok sc ids id c :
  batch_inv sc ids → id ∈ ids → sc_cache sc !! id = Some c →
  flush_data sc c (slot_bytes sc id <$> slots sc) = Ok (flush_of (allow sc id) (entries sc id)).
Proof.
  intros Hbi Hid Hc. destruct (bi_caches _ _ Hbi id Hid) as (c' & Hc' & _ & Hlive).
  assert (c' = c) as -> by congruence.
  pose proof (bi_ok _ _ Hbi) as Hok. destruct (ok_caches _ Hok id c Hc) as (_ & Hr & _ & Hty).
  unfold entries, allow. rewrite Hc, <-zip_entries.
  set (vals := (λ sl, default empty_state (cached c sl)) <$> slots sc).
  assert (Hfl : Forall (flushable (valueType (cache_base c))
                  (allowIncrementalSerialization (cache_base c))) vals).
  { apply Forall_fmap, Forall_forall. intros sl Hsl. simpl.
    destruct (Hlive sl Hsl) as (s & l0 & -> & Htr & Hwt & _). by eapply tracks_flushable. }
  assert (Hlk : length (dedupedKeys sc) = length (slots sc)).
  { unfold slots. destruct (stateClientType sc) eqn:E; [by rewrite length_fmap|].
    rewrite length_zip_with, (bi_len _ _ Hbi E). lia. }
  assert (Hlv : length vals = length (dedupedKeys sc)) by (unfold vals; by rewrite length_fmap).
  unfold flush_data. rewrite (bi_bids _ _ Hbi). destruct c as [b m|b m]; simpl in Hty, Hr.
  - rewrite Hty. simpl. rewrite length_fmap, Hlk, Nat.eqb_refl. simpl.
    apply flush_loop_Ok; rewrite ?length_fmap; try done.
    intros i key Hi. assert (Hsl : slots sc !! i = Some (key, None)).
    { unfold slots. by rewrite Hty, list_lookup_fmap, Hi. }
    unfold vals. rewrite list_lookup_fmap, Hsl. eexists. split; [done|].
    destruct (Hlive (key, None)) as (s & l0 & Hs & _); [by eapply list_elem_of_lookup_2|].
    rewrite Hs. change (default ∅ m !! key = Some s) in Hs. by rewrite Hs.
  - rewrite Hty. simpl. rewrite length_fmap, <-(bi_len _ _ Hbi Hty), Hlk, Nat.eqb_refl. simpl.
    rewrite (foldM_ext _ (λ fd '(i, key),
      val ← (ts ← idx (dedupedWindowStartTimes sc) i;
             found (default ∅ (default ∅ m !! key) !! ts));
      flush_step b fd val (slot_bytes sc id <$> slots sc)
        ((λ sl, bucket_of sc sl.1) <$> slots sc) i))
      by (intros fd [i key] _; by destruct (idx (dedupedWindowStartTimes sc) i)).
    apply (flush_loop_Ok b (λ i key, ts ← idx (dedupedWindowStartTimes sc) i;
      found (default ∅ (default ∅ m !! key) !! ts))); rewrite ?length_fmap; try done.
    intros i key Hi. destruct (lookup_lt_is_Some_2 (dedupedWindowStartTimes sc) i) as [ts Hts].
    { rewrite <-(bi_len _ _ Hbi Hty). by eapply lookup_lt_Some. }
    assert (Hsl : slots sc !! i = Some (key, Some ts)).
    { unfold slots. by rewrite Hty, lookup_zip_with, Hi, Hts. }
    unfold vals. rewrite list_lookup_fmap, Hsl. eexists. split; [done|].
    destruct (Hlive (key, Some ts)) as (s & l0 & Hs & _); [by eapply list_elem_of_lookup_2|].
    rewrite Hs. unfold idx. rewrite Hts, bind_Ok.
    change (default ∅ (default ∅ m !! key) !! ts = Some s) in Hs. by rewrite Hs.
Qed.

(** A map that holds, for every state with requests, one field of them. *)
Definition family {A B} (f : A → B) (W : Z → list A) (ids : list Z) (m : keyed B) : Prop :=
  ∀ id, m !! id = if decide (id ∈ ids ∧ W id ≠ []) then Some (f <$> W id) else None.

Lemma put_if_family {A B C} (f : A → B) (g : A → C) W ids id (m : keyed B) :
  id ∉ ids → family f W ids m →
  family f W (ids ++ [id]) (put_if (g <$> W id) id (f <$> W id) m).
Proof.
  intros Hid Hm j. unfold put_if. rewrite length_fmap.
  destruct (decide (j = id)) as [->|Hne].
  - destruct (W id) as [|x l] eqn:E; simpl.
    + rewrite (Hm id), !decide_False; [done|naive_solver|naive_solver].
    + by rewrite lookup_insert_eq, decide_True by set_solver.
  - assert (Hl : (if length (W id) =? 0 then m else <[id := f <$> W id]> m) !! j = m !! j).
    { case_match; [done|]. by rewrite lookup_insert_ne. }
    rewrite Hl, (Hm j). by repeat case_decide; set_solver.
Qed.

(** The eight maps of a flush of the batch. *)
Definition collected sc (ids : list Z) (all : AllFlush) : Prop :=
  let W id := writes (allow sc id) (entries sc id) in
  let M id := merges (allow sc id) (entries sc id) in
  let D id := deletes (allow sc id) (entries sc id) in
  family (λ r, r.1.1) W ids (allKeysToWrite all) ∧ family (λ r, r.1.2) W ids (allBucketsToWrite all) ∧
  family snd W ids (allValuesToWrite all) ∧
  family (λ r, r.1.1) M ids (allKeysToMerge all) ∧ family (λ r, r.1.2) M ids (allBucketsToMerge all) ∧
  family snd M ids (allValuesToMerge all) ∧
  family (λ r, r.1.1) D ids (allKeysToDelete all) ∧ family (λ r, r.1.2) D ids (allBucketsToDelete all).

Lemma family_nil {A B} (f : A → B) W : family f W [] ∅.
Proof. intros id. by rewrite decide_False by (intros [?%elem_of_nil _]; done). Qed.

Lemma family_perm {A B} (f : A → B) W ids ids' (m : keyed B) :
  (∀ id, id ∈ ids ↔ id ∈ ids') → family f W ids m → family f W ids' m.
Proof. intros Hp Hm id. rewrite (Hm id). by repeat case_decide; set_solver. Qed.

Lemma collect_Ok sc ids :
  batch_inv sc ids →
  ∃ all, foldM (collect_step (flush_data sc) (sc_cache sc)) (MkAll ∅ ∅ ∅ ∅ ∅ ∅ ∅ ∅)
           (go_range (serializedKeys sc)) = Ok all ∧ collected sc ids all.
Proof.
  intros Hbi.
  assert (Hkeys : ∀ id ks, (id, ks) ∈ go_range (serializedKeys sc) ↔
                           id ∈ ids ∧ ks = slot_bytes sc id <$> slots sc).
  { intros id ks. rewrite elem_of_go_range, (bi_skeys _ _ Hbi id). case_decide; naive_solver. }
  destruct (foldM_total (collect_step (flush_data sc) (sc_cache sc))
    (λ pre all, collected sc pre.*1 all) (go_range (serializedKeys sc))
    (MkAll ∅ ∅ ∅ ∅ ∅ ∅ ∅ ∅)) as (all & Hall & Hcol).
  - split_and!; apply family_nil.
  - intros pre [id ks] all [suf Hpre] Hcol.
    assert (Hin : (id, ks) ∈ go_range (serializedKeys sc)) by (rewrite Hpre; set_solver).
    apply Hkeys in Hin as [Hid ->].
    assert (Hnew : id ∉ pre.*1).
    { pose proof (NoDup_go_range (serializedKeys sc)) as Hnd. rewrite Hpre in Hnd.
      rewrite !fmap_app, <-app_assoc in Hnd. apply NoDup_app in Hnd as (_ & Hdis & _).
      intros Hx. apply (Hdis _ Hx). set_solver. }
    destruct (bi_caches _ _ Hbi id Hid) as (c & Hc & _).
    unfold collect_step. rewrite Hc, bind_Ok, (flush_data_Ok sc ids id c) by done. rewrite bind_Ok.
    eexists. split; [done|]. rewrite fmap_app.
    destruct Hcol as (H1' & H2' & H3' & H4' & H5' & H6' & H7' & H8').
    unfold collected. cbn [allKeysToWrite allBucketsToWrite allValuesToWrite allKeysToMerge
      allBucketsToMerge allValuesToMerge allKeysToDelete allBucketsToDelete flush_of
      KeysToWrite BucketIDsToWrite ValuesToWrite KeysToMerge BucketIDsToMerge ValuesToMerge
      KeysToDelete BucketIDsToDelete]. rewrite <-!list_fmap_compose.
    split_and!;
      [ exact (put_if_family _ (λ r, r.1.1) (λ id, writes (allow sc id) (entries sc id)) _ id _ Hnew H1')
      | exact (put_if_family _ (λ r, r.1.1) (λ id, writes (allow sc id) (entries sc id)) _ id _ Hnew H2')
      | exact (put_if_family _ (λ r, r.1.1) (λ id, writes (allow sc id) (entries sc id)) _ id _ Hnew H3')
      | exact (put_if_family _ (λ r, r.1.1) (λ id, merges (allow sc id) (entries sc id)) _ id _ Hnew H4')
      | exact (put_if_family _ (λ r, r.1.1) (λ id, merges (allow sc id) (entries sc id)) _ id _ Hnew H5')
      | exact (put_if_family _ (λ r, r.1.1) (λ id, merges (allow sc id) (entries sc id)) _ id _ Hnew H6')
      | exact (put_if_family _ (λ r, r.1.1) (λ id, deletes (allow sc id) (entries sc id)) _ id _ Hnew H7')
      | exact (put_if_family _ (λ r, r.1.1) (λ id, deletes (allow sc id) (entries sc id)) _ id _ Hnew H8') ].
  - exists all. split; [done|].
    assert (Hids : ∀ id, id ∈ (go_range (serializedKeys sc)).*1 ↔ id ∈ ids).
    { intros id. rewrite go_range_keys, (bi_skeys _ _ Hbi id). case_decide; split; try done; eauto. }
    destruct Hcol as (H1' & H2' & H3' & H4' & H5' & H6' & H7' & H8').
    split_and!; by eapply family_perm.
Qed.

Section Families.
Context {W : Z → list (bytes * Z * bytes)} {ids : list Z} {K V : keyed bytes} {B : keyed Z}.
Context (HK : family (λ r, r.1.1) W ids K).

Lemma family_keys k :
  k ∈ request_keys K ↔ ∃ id r, id ∈ ids ∧ r ∈ W id ∧ r.1.1 = k.
Proof.
  unfold request_keys. rewrite list_elem_of_bind. split.
  - intros ([id ks] & Hk & Hin). apply elem_of_map_to_list in Hin. rewrite (HK id) in Hin.
    case_decide as Hd; [|done]. injection Hin as <-. simpl in Hk.
    apply list_elem_of_fmap in Hk as (r & -> & Hr). exists id, r. naive_solver.
  - intros (id & r & Hid & Hr & <-). exists (id, (λ r, r.1.1) <$> W id). split.
    + simpl. apply list_elem_of_fmap. eauto.
    + apply elem_of_map_to_list. rewrite (HK id), decide_True; [done|]. split; [done|].
      intros E. rewrite E in Hr. by apply elem_of_nil in Hr.
Qed.

Lemma family_NoDup :
  (∀ id, id ∈ ids → NoDup ((λ r, r.1.1) <$> W id)) →
  (∀ id id' r r', id ∈ ids → id' ∈ ids → r ∈ W id → r' ∈ W id' → r.1.1 = r'.1.1 → id = id') →
  NoDup (request_keys K).
Proof.
  intros Hnd Hdis. unfold request_keys. apply NoDup_bind.
  - intros [i ks] [j ks'] k Hi Hj Hk Hk'.
    apply elem_of_map_to_list in Hi, Hj. pose proof Hi as Hi'. pose proof Hj as Hj'.
    rewrite (HK i) in Hi'. rewrite (HK j) in Hj'. repeat case_decide; try done.
    injection Hi' as <-. injection Hj' as <-. simpl in *.
    apply list_elem_of_fmap in Hk as (r & -> & Hr). apply list_elem_of_fmap in Hk' as (r' & Heq & Hr').
    assert (i = j) as -> by (eapply Hdis; naive_solver). done.
  - intros [i ks] Hi%elem_of_map_to_list. rewrite (HK i) in Hi. case_decide; [|done].
    injection Hi as <-. simpl. naive_solver.
  - apply NoDup_map_to_list.
Qed.

Lemma family_matches {C} (f : bytes * Z * bytes → C) (X : keyed C) :
  family f W ids X → matches K X.
Proof.
  intros HX id ks Hks. rewrite (HK id) in Hks. case_decide as Hd; [|done]. injection Hks as <-.
  exists (f <$> W id). rewrite (HX id), decide_True by done. by rewrite !length_fmap.
Qed.

Lemma family_addressed op n (B' : keyed Z) :
  family (λ r, r.1.2) W ids B' →
  (∀ id r, id ∈ ids → r ∈ W id → key_at op n r.1.1 r.1.2) → addressed op n K B'.
Proof.
  intros HB Hat id ks Hks. rewrite (HK id) in Hks. case_decide as Hid; [|done]. injection Hks as <-.
  exists ((λ r, r.1.2) <$> W id). rewrite (HB id), decide_True by done. split; [done|].
  apply Forall2_fmap_2, Forall_Forall2_diag, Forall_forall. intros r Hr. apply (Hat id); [|done].
  by destruct Hid.
Qed.

Context (HV : family snd W ids V).

Lemma family_pairs k v :
  (k, v) ∈ request_pairs K V ↔ ∃ id r, id ∈ ids ∧ r ∈ W id ∧ k = r.1.1 ∧ v = r.2.
Proof.
  assert (Hzip : ∀ l : list (bytes * Z * bytes),
    zip ((λ r, r.1.1) <$> l) l.*2 = (λ r, (r.1.1, r.2)) <$> l).
  { induction l as [|r l IH]; [done|]. rewrite !fmap_cons, <-IH. done. }
  unfold request_pairs. rewrite list_elem_of_bind. split.
  - intros ([id ks] & Hk & Hin). apply elem_of_map_to_list in Hin. cbn [fst snd] in Hk.
    rewrite (HK id) in Hin. rewrite (HV id) in Hk. case_decide as Hd; [|done].
    injection Hin as <-. simpl in Hk. rewrite Hzip in Hk.
    apply list_elem_of_fmap in Hk as (r & [= -> ->] & Hr). exists id, r. naive_solver.
  - intros (id & r & Hid & Hr & -> & ->).
    assert (Hd : id ∈ ids ∧ W id ≠ []).
    { split; [done|]. intros E. rewrite E in Hr. by apply elem_of_nil in Hr. }
    exists (id, (λ r, r.1.1) <$> W id). split.
    + cbn [fst snd]. rewrite (HV id), decide_True by done. simpl. rewrite Hzip.
      apply list_elem_of_fmap. eauto.
    + apply elem_of_map_to_list. by rewrite (HK id), decide_True.
Qed.
End Families.

(** The service after each of the three requests, sent only when there is
    something to send. *)
Lemma size_empty_keyed {A} (m : keyed A) : (size m =? 0) = bool_decide (m = ∅).
Proof.
  destruct (decide (m = ∅)) as [->|Hne]; [done|]. rewrite bool_decide_false by done.
  apply Nat.eqb_neq. by rewrite map_size_empty_iff.
Qed.

Section Stages.
Context (op n : Z).

Definition sendable (s : S) (keys : keyed bytes) (bids : keyed Z) : Prop :=
  serves s op n ∧ addressed op n keys bids ∧ ∀ k, k ∈ request_keys keys → held s k.

Lemma sendable_writable s keys bids : sendable s keys bids → keys ≠ ∅ → writable op n s keys bids.
Proof. by intros (? & ? & ?); split. Qed.

Lemma write_stage (s : S) (keys values : keyed bytes) bids :
  sendable s keys bids → matches keys values → NoDup (request_keys keys) →
  ∃ s', (if size keys =? 0 then Ok s else SetManyMultiState s keys values bids) = Ok s' ∧
    still_serves op n s s' ∧ ∀ k, value_of s' k = default (value_of s k) (written keys values k).
Proof.
  intros Hs Hv Hnd. rewrite size_empty_keyed.
  case_bool_decide as Hk; [|eapply set_law; [by apply sendable_writable|done..]].
  subst. exists s. split; [done|]. split; [by destruct Hs|]. intros k. unfold written, request_pairs.
  by rewrite map_to_list_empty.
Qed.

Lemma merge_stage (s : S) (keys values : keyed bytes) bids :
  sendable s keys bids → matches keys values → NoDup (request_keys keys) →
  ∃ s', (if size keys =? 0 then Ok s else MergeManyMultiState s keys values bids) = Ok s' ∧
    still_serves op n s s' ∧ ∀ k, value_of s' k = value_of s k ++ default [] (written keys values k).
Proof.
  intros Hs Hv Hnd. rewrite size_empty_keyed.
  case_bool_decide as Hk; [|eapply merge_law; [by apply sendable_writable|done..]].
  subst. exists s. split; [done|]. split; [by destruct Hs|]. intros k. unfold written, request_pairs.
  rewrite map_to_list_empty. symmetry. apply app_nil_r.
Qed.

Lemma delete_stage (s : S) (keys : keyed bytes) bids :
  sendable s keys bids →
  ∃ s', (if size keys =? 0 then Ok s else DeleteMany s keys bids) = Ok s' ∧ still_serves op n s s' ∧
    ∀ k, value_of s' k = if bool_decide (k ∈ request_keys keys) then [] else value_of s k.
Proof.
  intros Hs. rewrite size_empty_keyed.
  case_bool_decide as Hk; [|eapply delete_law; by apply sendable_writable].
  subst. exists s. split; [done|]. split; [by destruct Hs|]. intros k. unfold request_keys. by rewrite map_to_list_empty.
Qed.
End Stages.

Section FlushBatch.
Context sc (ids : list Z) (Hbi : batch_inv sc ids).

Lemma ids_u16 id : id ∈ ids → is_u16 id.
Proof.
  intros Hid. destruct (bi_caches _ _ Hbi id Hid) as (c & Hc & _).
  by destruct (ok_caches _ (bi_ok _ _ Hbi) id c Hc).
Qed.

Lemma slot_bytes_inj id id' sl sl' :
  is_u16 id → is_u16 id' → slot_for sc sl → slot_for sc sl' →
  slot_bytes sc id sl = slot_bytes sc id' sl' → id = id' ∧ sl = sl'.
Proof.
  intros Hid Hid' [Hs Ht] [Hs' Ht'] Heq. eapply (key_layout_inj (keyKind sc)); try done.
  destruct (stateClientType sc); [by rewrite Ht, Ht'|]. destruct Ht as [? ->], Ht' as [? ->]. done.
Qed.

Lemma slots_for sl : sl ∈ slots sc → slot_for sc sl.
Proof. pose proof (bi_slots _ _ Hbi) as Hs. rewrite Forall_forall in Hs. apply Hs. Qed.

Lemma batch_key_inj id id' sl sl' :
  id ∈ ids → id' ∈ ids → sl ∈ slots sc → sl' ∈ slots sc →
  slot_bytes sc id sl = slot_bytes sc id' sl' → id = id' ∧ sl = sl'.
Proof.
  intros ????. by apply slot_bytes_inj; [apply ids_u16|apply ids_u16|apply slots_for|apply slots_for].
Qed.

Lemma get_cached id sl :
  id ∈ ids → sl ∈ slots sc →
  ∃ c s, sc_cache sc !! id = Some c ∧ cached c sl = Some s ∧ get_state sc id sl = Ok s ∧
    live sc id c sl.
Proof.
  intros Hid Hsl. destruct (bi_caches _ _ Hbi id Hid) as (c & Hc & Hu & Hlive).
  destruct (Hlive sl Hsl) as (s & l0 & Hs & Hrest). exists c, s. split_and!; try done.
  - eapply get_state_Ok; try done; [apply Hbi|by apply slots_for].
  - by exists s, l0.
Qed.

Definition reqs (a : flush_action) (value : StateType → bytes) (id : Z) : list (bytes * Z * bytes) :=
  omap (request (allow sc id) a value) (entries sc id).

Lemma elem_of_reqs a value id r :
  id ∈ ids → r ∈ reqs a value id ↔
  a ≠ Skip ∧ ∃ sl s, sl ∈ slots sc ∧ get_state sc id sl = Ok s ∧ action_of (allow sc id) s = a ∧
    r = (slot_bytes sc id sl, bucket_of sc sl.1, value s).
Proof.
  intros Hid. destruct (bi_caches _ _ Hbi id Hid) as (c & Hc & _).
  unfold reqs, entries. rewrite Hc, list_elem_of_omap. split.
  - intros (e & He & Hr). apply list_elem_of_fmap in He as (sl & -> & Hsl).
    destruct (get_cached id sl Hid Hsl) as (c' & s & Hc' & Hs & Hget & _).
    assert (c' = c) as -> by congruence. unfold request in Hr. cbn [e_state e_key e_bucket] in Hr.
    rewrite Hs in Hr. simpl in Hr.
    destruct (action_of (allow sc id) s) eqn:Ea, a; try discriminate;
      injection Hr as <-; (split; [done|]); exists sl, s; by split_and!.
  - intros (Hne & sl & s & Hsl & Hget & Ha & ->).
    destruct (get_cached id sl Hid Hsl) as (c' & s' & Hc' & Hs & Hget' & _).
    assert (c' = c) as -> by congruence. assert (s' = s) as -> by congruence.
    eexists. split; [apply list_elem_of_fmap; eauto|]. unfold request. cbn [e_state e_key e_bucket].
    rewrite Hs. simpl. by rewrite Ha; destruct a.
Qed.

Lemma NoDup_omap_key {A R C} (f : A → option R) (g : R → C) (l : list A) :
  NoDup l →
  (∀ x y r r', x ∈ l → y ∈ l → f x = Some r → f y = Some r' → g r = g r' → x = y) →
  NoDup (g <$> omap f l).
Proof.
  induction 1 as [|x l Hx Hl IH]; intros Hinj; [constructor|]. simpl.
  assert (IH' : NoDup (g <$> omap f l)) by (apply IH; intros; eapply Hinj; eauto; by right).
  destruct (f x) as [r|] eqn:E; [|done]. rewrite fmap_cons. constructor; [|done].
  intros (r' & Heq & (y & Hy & Er')%list_elem_of_omap)%list_elem_of_fmap.
  apply Hx. assert (x = y) as -> by (eapply Hinj; eauto; [by left|by right]). done.
Qed.

Lemma NoDup_reqs a value id : id ∈ ids → NoDup ((λ r, r.1.1) <$> reqs a value id).
Proof.
  intros Hid. destruct (bi_caches _ _ Hbi id Hid) as (c & Hc & _).
  unfold reqs, entries. rewrite Hc. apply NoDup_omap_key.
  - apply NoDup_fmap_2_strong; [|apply Hbi]. intros sl sl' Hsl Hsl' Heq.
    apply (f_equal e_key) in Heq. by apply batch_key_inj in Heq as [_ ->].
  - intros e e' r r' (sl & -> & Hsl)%list_elem_of_fmap (sl' & -> & Hsl')%list_elem_of_fmap Hr Hr' Heq.
    assert (Hkey : ∀ e r, request (allow sc id) a value e = Some r → r.1.1 = e_key e).
    { intros e r0. unfold request. destruct (action_of _ _), a; try done; by intros [= <-]. }
    rewrite (Hkey _ _ Hr), (Hkey _ _ Hr') in Heq. cbn [e_key] in Heq.
    by apply batch_key_inj in Heq as [_ ->].
Qed.

Lemma reqs_disjoint a value id id' r r' :
  id ∈ ids → id' ∈ ids → r ∈ reqs a value id → r' ∈ reqs a value id' → r.1.1 = r'.1.1 → id = id'.
Proof.
  intros Hid Hid' (_ & sl & s & Hsl & _ & _ & ->)%elem_of_reqs
    (_ & sl' & s' & Hsl' & _ & _ & ->)%elem_of_reqs Heq; [|done..]. cbn [fst] in Heq.
  by apply batch_key_inj in Heq as [-> _].
Qed.

Lemma reqs_addressed a value (K : keyed bytes) (B : keyed Z) :
  a ≠ Skip → family (λ r, r.1.1) (reqs a value) ids K → family (λ r, r.1.2) (reqs a value) ids B →
  addressed (operatorID sc) (sc_numBuckets sc) K B.
Proof.
  intros Ha HK HB. eapply family_addressed; [done..|]. intros id r Hid Hr.
  apply elem_of_reqs in Hr as (_ & sl & s & Hsl & _ & _ & ->); [|done].
  apply slot_key_at. apply Hbi.
Qed.

Lemma reqs_sendable a value (s : S) (K : keyed bytes) (B : keyed Z) :
  a ≠ Skip → family (λ r, r.1.1) (reqs a value) ids K → family (λ r, r.1.2) (reqs a value) ids B →
  serves s (operatorID sc) (sc_numBuckets sc) →
  (∀ id sl, id ∈ ids → sl ∈ slots sc → held s (slot_bytes sc id sl)) →
  sendable (operatorID sc) (sc_numBuckets sc) s K B.
Proof.
  intros Ha HK HB Hs Hh. split; [done|]. split; [by apply (reqs_addressed a value)|].
  intros k (id & r & Hid & Hr & <-)%(family_keys HK).
  apply elem_of_reqs in Hr as (_ & sl & st & Hsl & _ & _ & ->); [|done]. by apply Hh.
Qed.

(** The value requested for a slot's key, if any. *)
Lemma pairs_lookup a value (K V : keyed bytes) id sl s :
  family (λ r, r.1.1) (reqs a value) ids K → family snd (reqs a value) ids V →
  id ∈ ids → sl ∈ slots sc → get_state sc id sl = Ok s → a ≠ Skip →
  written K V (slot_bytes sc id sl) =
    if bool_decide (action_of (allow sc id) s = a) then Some (value s) else None.
Proof.
  intros HK HV Hid Hsl Hget Ha. unfold written.
  destruct (list_to_map (M := gmap bytes bytes) (request_pairs K V) !! slot_bytes sc id sl)
    as [v|] eqn:E.
  - apply elem_of_list_to_map_2 in E.
    apply (family_pairs HK HV) in E as (id' & r & Hid' & Hr & Hk & ->).
    apply elem_of_reqs in Hr as (_ & sl' & s' & Hsl' & Hget' & Hact & ->); [|done].
    cbn [fst snd] in *. apply batch_key_inj in Hk as [-> ->]; [|done..].
    assert (s' = s) as -> by congruence. by rewrite bool_decide_true.
  - case_bool_decide as Hact; [|done]. apply not_elem_of_list_to_map_2 in E.
    destruct E. apply list_elem_of_fmap. exists (slot_bytes sc id sl, value s). split; [done|].
    apply (family_pairs HK HV). exists id, (slot_bytes sc id sl, bucket_of sc sl.1, value s).
    split_and!; try done. apply elem_of_reqs; [done|]. split; [done|]. exists sl, s. by split_and!.
Qed.

(** No request touches a key outside the batch. *)
Lemma pairs_outside a value (K V : keyed bytes) k :
  family (λ r, r.1.1) (reqs a value) ids K → family snd (reqs a value) ids V →
  (∀ id sl, id ∈ ids → sl ∈ slots sc → k ≠ slot_bytes sc id sl) →
  written K V k = None.
Proof.
  intros HK HV Hout. unfold written. apply eq_None_not_Some. intros [v Hv].
  apply elem_of_list_to_map_2, (family_pairs HK HV) in Hv as (id & r & Hid & Hr & -> & _).
  apply elem_of_reqs in Hr as (_ & sl & s & Hsl & _ & _ & ->); [|done].
  by eapply Hout.
Qed.

Lemma keys_lookup (K : keyed bytes) k :
  family (λ r, r.1.1) (reqs Remove (λ _, [])) ids K →
  k ∈ request_keys K ↔ ∃ id sl s, id ∈ ids ∧ sl ∈ slots sc ∧ get_state sc id sl = Ok s ∧
    action_of (allow sc id) s = Remove ∧ k = slot_bytes sc id sl.
Proof.
  intros HK. rewrite (family_keys HK). split.
  - intros (id & r & Hid & Hr & <-).
    apply elem_of_reqs in Hr as (_ & sl & s & Hsl & Hget & Hact & ->); [|done].
    exists id, sl, s. by split_and!.
  - intros (id & sl & s & Hid & Hsl & Hget & Hact & ->).
    exists id, (slot_bytes sc id sl, bucket_of sc sl.1, []). split; [done|]. split; [|done].
    apply elem_of_reqs; [done|]. split; [done|]. exists sl, s. by split_and!.
Qed.

(** A flush succeeds; a slot's key then holds its [new_value], every other key
    what it held. *)
Lemma flush_Ok :
  ∃ s' cnt, flush sc = Ok (set_service sc s', cnt) ∧ serving (set_service sc s') ∧
    (∀ id sl s, id ∈ ids → sl ∈ slots sc → get_state sc id sl = Ok s →
       value_of s' (slot_bytes sc id sl) =
         new_value (allow sc id) (value_of (stateService sc) (slot_bytes sc id sl)) s) ∧
    (∀ k, (∀ id sl, id ∈ ids → sl ∈ slots sc → k ≠ slot_bytes sc id sl) →
       value_of s' k = value_of (stateService sc) k).
Proof.
  rewrite flush_flush_all. unfold flush_all.
  destruct (collect_Ok sc ids Hbi) as (all & -> & HKw & HBw & HVw & HKm & HBm & HVm & HKd & HBd).
  rewrite bind_Ok. unfold send_flush.
  change (λ id, writes (allow sc id) (entries sc id)) with (reqs Overwrite write_bytes) in *.
  change (λ id, merges (allow sc id) (entries sc id)) with (reqs Merge merge_bytes) in *.
  change (λ id, deletes (allow sc id) (entries sc id)) with (reqs Remove (λ _, [])) in *.
  pose proof (st_serving _ (bi_typed _ _ Hbi)) as Hs0. unfold serving in Hs0.
  pose proof (bi_held _ _ Hbi) as Hh0.
  destruct (write_stage (operatorID sc) (sc_numBuckets sc) (stateService sc) (allKeysToWrite all)
    (allValuesToWrite all) (allBucketsToWrite all)) as (s1 & -> & [Hs1 Hh1] & Hv1);
    [by apply (reqs_sendable Overwrite write_bytes)|by eapply family_matches|
     eapply family_NoDup; [done|apply NoDup_reqs|apply reqs_disjoint]|].
  rewrite bind_Ok.
  destruct (merge_stage (operatorID sc) (sc_numBuckets sc) s1 (allKeysToMerge all)
    (allValuesToMerge all) (allBucketsToMerge all)) as (s2 & -> & [Hs2 Hh2] & Hv2);
    [apply (reqs_sendable Merge merge_bytes); eauto|by eapply family_matches|
     eapply family_NoDup; [done|apply NoDup_reqs|apply reqs_disjoint]|].
  rewrite bind_Ok.
  destruct (delete_stage (operatorID sc) (sc_numBuckets sc) s2 (allKeysToDelete all)
    (allBucketsToDelete all)) as (s3 & -> & [Hs3 Hh3] & Hv3);
    [apply (reqs_sendable Remove (λ _, [])); eauto|].
  rewrite bind_Ok. do 2 eexists. split; [done|]. split; [done|]. split.
  - intros id sl s Hid Hsl Hget. rewrite Hv3, Hv2, Hv1.
    rewrite (pairs_lookup Overwrite write_bytes
      (allKeysToWrite all) (allValuesToWrite all) id sl s),
      (pairs_lookup Merge merge_bytes (allKeysToMerge all) (allValuesToMerge all) id sl s) by done.
    rewrite (bool_decide_ext _ (action_of (allow sc id) s = Remove)).
    + unfold new_value. destruct (action_of (allow sc id) s); simpl; by rewrite ?app_nil_r.
    + rewrite keys_lookup by done. split.
      * intros (id' & sl' & s' & Hid' & Hsl' & Hget' & Hact & Hk).
        apply batch_key_inj in Hk as [-> ->]; [|done..]. congruence.
      * intros Hact. exists id, sl, s. by split_and!.
  - intros k Hout. rewrite Hv3, Hv2, Hv1. rewrite bool_decide_false.
    + rewrite (pairs_outside Overwrite write_bytes (allKeysToWrite all)),
        (pairs_outside Merge merge_bytes (allKeysToMerge all)) by done. apply app_nil_r.
    + rewrite keys_lookup by done. intros (id & sl & s & Hid & Hsl & _ & _ & ->). by eapply Hout.
Qed.
End FlushBatch.

(** ** Deleting windows *)

Section Deletes.
Context sc (ids : list Z) (Hbi : batch_inv sc ids) (Hids : ids ≠ []) (Hslots : slots sc ≠ []).

Lemma skeys_keys k :
  k ∈ request_keys (serializedKeys sc) ↔ ∃ id sl, id ∈ ids ∧ sl ∈ slots sc ∧ k = slot_bytes sc id sl.
Proof. apply serialized_keys, Hbi. Qed.

Lemma skeys_nonempty : serializedKeys sc ≠ ∅.
Proof.
  destruct ids as [|id ids'] eqn:E; [done|]. intros Hemp.
  pose proof (bi_skeys _ _ Hbi id) as Hk. rewrite Hemp, lookup_empty, decide_True in Hk by (by left).
  done.
Qed.

(** [DeleteAllAndFlush] removes the batch's keys. *)
Lemma DeleteAllAndFlush_Ok :
  ∃ s', DeleteAllAndFlush sc = Ok (set_service sc s') ∧
    serving (set_service sc s') ∧
    ∀ k, value_of s' k = if bool_decide (k ∈ request_keys (serializedKeys sc)) then []
                         else value_of (stateService sc) k.
Proof.
  unfold DeleteAllAndFlush.
  destruct (delete_law (stateService sc) (operatorID sc) (sc_numBuckets sc) (serializedKeys sc)
    ((λ _, bucketIDs sc) <$> serializedKeys sc)) as (s' & -> & [Hsv _] & Hs').
  - split; [apply (st_serving _ (bi_typed _ _ Hbi))|apply skeys_nonempty| |].
    2: { intros k (id & sl & Hid & Hsl & ->)%skeys_keys. by apply (bi_held _ _ Hbi). }
    intros id ks Hks. exists (bucketIDs sc). rewrite lookup_fmap, Hks. split; [done|].
    rewrite (bi_skeys _ _ Hbi id) in Hks. case_decide; [|done]. injection Hks as <-.
    rewrite (bi_bids _ _ Hbi). apply Forall2_fmap_2, Forall_Forall2_diag, Forall_true.
    intros sl. apply slot_key_at, Hbi.
  - by exists s'.
Qed.

(** *** [DeleteManyAndFlush] *)

Definition slot_pair (sl : slot) : field * Z := (sl.1, default 0%Z sl.2).

(** The deletions collected from [sls]. *)
Definition chosen (pairs : gset (field * Z)) (id : Z) (sls : list slot) : list (bytes * Z * bytes) :=
  omap (λ sl, if decide (slot_pair sl ∈ pairs)
              then Some (slot_bytes sc id sl, bucket_of sc sl.1, []) else None) sls.

Lemma append_states_Ok i sl (dk : keyed bytes) (db : keyed Z) :
  slots sc !! i = Some sl →
  ∃ dk' db', foldM (λ '(dkeys, dbids) '(stateID, skeys),
        k ← idx skeys i; b ← idx (bucketIDs sc) i;
        Ok (append_at dkeys stateID k, append_at dbids stateID b))
      (dk, db) (go_range (serializedKeys sc)) = Ok (dk', db') ∧
    (∀ id, dk' !! id = if decide (id ∈ ids)
       then Some (default [] (dk !! id) ++ [slot_bytes sc id sl]) else dk !! id) ∧
    (∀ id, db' !! id = if decide (id ∈ ids)
       then Some (default [] (db !! id) ++ [bucket_of sc sl.1]) else db !! id).
Proof.
  intros Hsl.
  destruct (foldM_total (λ '(dkeys, dbids) '(stateID, skeys),
        k ← idx skeys i; b ← idx (bucketIDs sc) i;
        Ok (append_at dkeys stateID k, append_at dbids stateID b))
    (λ pre st,
      (∀ id, st.1 !! id = if decide (id ∈ pre.*1)
         then Some (default [] (dk !! id) ++ [slot_bytes sc id sl]) else dk !! id) ∧
      (∀ id, st.2 !! id = if decide (id ∈ pre.*1)
         then Some (default [] (db !! id) ++ [bucket_of sc sl.1]) else db !! id))
    (go_range (serializedKeys sc)) (dk, db)) as ([dk' db'] & Hrun & Hk & Hb).
  - split; intros id; by rewrite decide_False by apply not_elem_of_nil.
  - intros pre [id ks] [dk1 db1] [suf Hpre] [Hk Hb]. cbn [fst snd] in Hk, Hb.
    assert (Hin : (id, ks) ∈ go_range (serializedKeys sc)) by (rewrite Hpre; set_solver).
    assert (Hnew : id ∉ pre.*1).
    { pose proof (NoDup_go_range (serializedKeys sc)) as Hnd. rewrite Hpre in Hnd.
      rewrite !fmap_app, <-app_assoc in Hnd. apply NoDup_app in Hnd as (_ & Hdis & _).
      intros Hx. apply (Hdis _ Hx). set_solver. }
    apply elem_of_go_range in Hin. rewrite (bi_skeys _ _ Hbi id) in Hin.
    case_decide; [|done]. injection Hin as <-.
    unfold idx. rewrite (bi_bids _ _ Hbi), !list_lookup_fmap, Hsl. simpl.
    eexists. split; [done|]. rewrite fmap_app. cbn [fst snd fmap list_fmap].
    split; intros j; rewrite append_at_lookup; destruct (decide (j = id)) as [->|Hne].
    + by rewrite (Hk id), decide_False, decide_True by set_solver.
    + rewrite (Hk j). by repeat case_decide; set_solver.
    + by rewrite (Hb id), decide_False, decide_True by set_solver.
    + rewrite (Hb j). by repeat case_decide; set_solver.
  - exists dk', db'. split; [done|]. cbn [fst snd] in Hk, Hb.
    assert (Hids' : ∀ id, id ∈ (go_range (serializedKeys sc)).*1 ↔ id ∈ ids).
    { intros id. rewrite go_range_keys, (bi_skeys _ _ Hbi id). case_decide; split; try done; eauto. }
    split; intros id; rewrite ?Hk, ?Hb; by repeat case_decide; set_solver.
Qed.

Lemma family_snoc {C} (f : bytes * Z * bytes → C) (W W' : Z → list (bytes * Z * bytes))
    (m m' : keyed C) r :
  family f W ids m → (∀ id, W' id = W id ++ [r id]) →
  (∀ id, m' !! id = if decide (id ∈ ids) then Some (default [] (m !! id) ++ [f (r id)]) else m !! id) →
  family f W' ids m'.
Proof.
  intros Hm HW Hm' id. rewrite Hm', (Hm id), HW. destruct (decide (id ∈ ids)) as [Hid|Hid].
  - rewrite (decide_True (P := id ∈ ids ∧ W id ++ [r id] ≠ [])) by (split; [done|]; by destruct (W id)).
    rewrite fmap_app. destruct (decide (id ∈ ids ∧ W id ≠ [])) as [_|Hn]; [done|].
    destruct (W id) as [|x l]; [done|]. by destruct Hn.
  - by rewrite !decide_False by naive_solver.
Qed.

Lemma difference_snoc_in (X : gset (field * Z)) l p ps :
  ps = X ∖ list_to_set l → ps ∖ {[p]} = X ∖ list_to_set (l ++ [p]).
Proof.
  intros ->. apply set_eq. intros q.
  rewrite !elem_of_difference, !elem_of_list_to_set, elem_of_singleton, elem_of_app, list_elem_of_singleton.
  tauto.
Qed.

Lemma difference_snoc_out (X : gset (field * Z)) l p :
  p ∉ X → X ∖ list_to_set l = X ∖ list_to_set (l ++ [p]).
Proof.
  intros Hp. apply set_eq. intros q.
  rewrite !elem_of_difference, !elem_of_list_to_set, elem_of_app, list_elem_of_singleton.
  split; [|tauto]. intros [Hq Hl]. split; [done|]. intros [?| ->]; done.
Qed.

Lemma delete_loop_Ok (pairs : gset (field * Z)) :
  stateClientType sc = WindowStateClient →
  ∃ dk db, foldM (delete_step sc) (pairs, (∅, ∅)) (imap pair (dedupedKeys sc)) =
      Ok (pairs ∖ list_to_set (slot_pair <$> slots sc), (dk, db)) ∧
    family (λ r, r.1.1) (λ id, chosen pairs id (slots sc)) ids dk ∧
    family (λ r, r.1.2) (λ id, chosen pairs id (slots sc)) ids db.
Proof.
  intros Hty. pose proof (bi_len _ _ Hbi Hty) as Hlen.
  assert (Hsl : ∀ i key, dedupedKeys sc !! i = Some key → ∃ ts,
    dedupedWindowStartTimes sc !! i = Some ts ∧ slots sc !! i = Some (key, Some ts)).
  { intros i key Hi. destruct (lookup_lt_is_Some_2 (dedupedWindowStartTimes sc) i) as [ts Hts].
    { rewrite <-Hlen. by eapply lookup_lt_Some. }
    exists ts. split; [done|]. unfold slots. by rewrite Hty, lookup_zip_with, Hi, Hts. }
  destruct (foldM_total (delete_step sc)
    (λ pre st, st.1 = pairs ∖ list_to_set (slot_pair <$> take (length pre) (slots sc)) ∧
       family (λ r, r.1.1) (λ id, chosen pairs id (take (length pre) (slots sc))) ids st.2.1 ∧
       family (λ r, r.1.2) (λ id, chosen pairs id (take (length pre) (slots sc))) ids st.2.2)
    (imap pair (dedupedKeys sc)) (pairs, (∅, ∅))) as ([ps [dk db]] & Hrun & Hps & Hk & Hb).
  - cbn [length take fmap list_fmap fst snd]. split; [symmetry; apply difference_empty_L|].
    split; intros id; by rewrite decide_False by (intros [_ Hn]; done).
  - intros pre [i key] [ps [dk db]] [suf Hpre] (Hps & Hk & Hb). cbn [fst snd] in Hps, Hk, Hb.
    assert (Hi : imap pair (dedupedKeys sc) !! length pre = Some (i, key)).
    { rewrite Hpre, <-app_assoc. by apply list_lookup_middle. }
    rewrite list_lookup_imap in Hi. destruct (dedupedKeys sc !! length pre) as [key'|] eqn:Ekey; [|done].
    simpl in Hi. injection Hi as <- <-. destruct (Hsl _ _ Ekey) as (ts & Hts & Hslot).
    assert (Hnotin : slot_pair (key', Some ts) ∉ slot_pair <$> take (length pre) (slots sc)).
    { intros (sl & Heq & Hin)%list_elem_of_fmap. apply list_elem_of_lookup_1 in Hin as [j Hj].
      apply lookup_take_Some in Hj as [Hj Hlt].
      destruct (slots_for sc ids Hbi sl) as [_ Hsome]; [by eapply list_elem_of_lookup_2|].
      rewrite Hty in Hsome. destruct Hsome as [t Ht]. destruct sl as [k o]. simpl in Ht. subst o.
      unfold slot_pair in Heq. simpl in Heq. injection Heq as -> ->.
      pose proof (NoDup_lookup _ _ _ _ (bi_nodup _ _ Hbi) Hj Hslot). lia. }
    rewrite length_app, Nat.add_1_r. generalize (take_S_r _ _ _ Hslot).
    generalize (take (Datatypes.S (length pre)) (slots sc)). intros ? ->.
    unfold delete_step. cbn [fst snd].
    rewrite (proj2 (idx_Ok _ _ _) Hts), bind_Ok.
    change (key', ts) with (slot_pair (key', Some ts)).
    assert (Hin : slot_pair (key', Some ts) ∈ ps ↔ slot_pair (key', Some ts) ∈ pairs).
    { rewrite Hps, elem_of_difference, elem_of_list_to_set. naive_solver. }
    assert (Hch : ∀ id, chosen pairs id (take (length pre) (slots sc) ++ [(key', Some ts)]) =
      chosen pairs id (take (length pre) (slots sc)) ++
      if decide (slot_pair (key', Some ts) ∈ pairs)
      then [(slot_bytes sc id (key', Some ts), bucket_of sc key', [])] else []).
    { intros id. unfold chosen. rewrite omap_app. f_equal. simpl. by case_decide. }
    destruct (decide (slot_pair (key', Some ts) ∈ pairs)) as [Hp|Hp].
    + rewrite decide_True by naive_solver.
      destruct (append_states_Ok _ _ dk db Hslot) as (dk' & db' & -> & Hdk & Hdb). rewrite bind_Ok.
      eexists. split; [done|]. cbn [fst snd]. split; [|split].
      * rewrite fmap_app. by apply difference_snoc_in.
      * eapply (family_snoc _ _ _ dk dk'); [done|exact Hch|done].
      * eapply (family_snoc _ _ _ db db'); [done|exact Hch|done].
    + rewrite decide_False by naive_solver. eexists. split; [done|]. cbn [fst snd]. split; [|split].
      * rewrite Hps, fmap_app. by apply difference_snoc_out.
      * intros id. by rewrite (Hk id), Hch, app_nil_r.
      * intros id. by rewrite (Hb id), Hch, app_nil_r.
  - cbn [fst snd] in *. rewrite length_imap in Hps, Hk, Hb.
    assert (Hfull : take (length (dedupedKeys sc)) (slots sc) = slots sc).
    { apply take_ge. unfold slots. rewrite Hty, length_zip_with. lia. }
    rewrite Hfull in Hps, Hk, Hb. exists dk, db. subst ps. by split_and!.
Qed.

(** The pairs of the batch are deleted, nothing else; a pair that was not
    fetched ends the process. *)
Lemma DeleteManyAndFlush_Ok (pairs : gset (field * Z)) :
  stateClientType sc = WindowStateClient → pairs ≠ ∅ →
  if decide (pairs ⊆ list_to_set (slot_pair <$> slots sc)) then
    ∃ s', DeleteManyAndFlush sc pairs = Ok (set_service sc s') ∧ serving (set_service sc s') ∧
      (∀ id sl, id ∈ ids → sl ∈ slots sc → value_of s' (slot_bytes sc id sl) =
         if decide (slot_pair sl ∈ pairs) then []
         else value_of (stateService sc) (slot_bytes sc id sl)) ∧
      (∀ k, (∀ id sl, id ∈ ids → sl ∈ slots sc → k ≠ slot_bytes sc id sl) →
         value_of s' k = value_of (stateService sc) k)
  else DeleteManyAndFlush sc pairs = Crash (Fatal
    "DeleteManyAndFlush: Not all pairs to be deleted exists from the previous Fetch().").
Proof.
  intros Hty Hne. destruct (delete_loop_Ok pairs Hty) as (dk & db & Hrun & Hk & Hb).
  unfold DeleteManyAndFlush. rewrite Hrun, bind_Ok. case_decide as Hsub.
  - assert (Hemp : pairs ∖ list_to_set (slot_pair <$> slots sc) = ∅) by set_solver.
    rewrite Hemp, size_empty. simpl.
    assert (Hkeys : ∀ k, k ∈ request_keys dk ↔ ∃ id sl, id ∈ ids ∧ sl ∈ slots sc ∧
      slot_pair sl ∈ pairs ∧ k = slot_bytes sc id sl).
    { intros k. rewrite (family_keys Hk). unfold chosen. setoid_rewrite list_elem_of_omap. split.
      - intros (id & r & Hid & (sl & Hsl & Hr) & <-). case_decide; [|done]. injection Hr as <-.
        exists id, sl. by split_and!.
      - intros (id & sl & Hid & Hsl & Hp & ->).
        exists id, (slot_bytes sc id sl, bucket_of sc sl.1, []). split; [done|]. split; [|done].
        exists sl. split; [done|]. by rewrite decide_True. }
    assert (Hnonempty : dk ≠ ∅).
    { intros ->. apply set_choose_L in Hne as [p Hp].
      pose proof Hp as (sl & -> & Hsl)%Hsub%elem_of_list_to_set%list_elem_of_fmap.
      destruct (head ids) as [id|] eqn:Hhd; [|by destruct ids].
      apply head_Some_elem_of in Hhd.
      assert (Hx : slot_bytes sc id sl ∈ request_keys (∅ : keyed bytes)) by (apply Hkeys; by exists id, sl).
      unfold request_keys in Hx. rewrite map_to_list_empty in Hx. by apply elem_of_nil in Hx. }
    destruct (delete_law (stateService sc) (operatorID sc) (sc_numBuckets sc) dk db) as (s' & -> & [Hsv _] & Hs').
    + split; [apply (st_serving _ (bi_typed _ _ Hbi))|apply Hnonempty| |].
      * eapply (family_addressed Hk); [done|]. unfold chosen.
        intros id r Hid (sl & Hsl & Hr)%list_elem_of_omap.
        case_decide; [|done]. injection Hr as <-. apply slot_key_at, Hbi.
      * intros k (id & sl & Hid & Hsl & _ & ->)%Hkeys. by apply (bi_held _ _ Hbi).
    + exists s'. split; [done|]. split; [done|]. split.
      * intros id sl Hid Hsl. rewrite Hs'. case_decide as Hp; [rewrite bool_decide_true|rewrite bool_decide_false];
          try done; rewrite Hkeys; [by exists id, sl|].
        intros (id' & sl' & Hid' & Hsl' & Hp' & Heq).
        apply (batch_key_inj sc ids Hbi) in Heq as [_ ->]; done.
      * intros k Hout. rewrite Hs', bool_decide_false; [done|]. rewrite Hkeys.
        intros (id & sl & Hid & Hsl & _ & ->). by eapply Hout.
  - unfold fatal_if. destruct (Nat.eqb_spec (size (pairs ∖ list_to_set (slot_pair <$> slots sc))) 0)
      as [Hz|Hz]; [|done].
    destruct Hsub. apply empty_difference_subseteq_L, leibniz_equiv, size_empty_inv. done.
Qed.
End Deletes.

(** ** The cycle *)

(** The calls made on one slot. *)
Definition calls_on (id : Z) (sl : slot) (calls : list (Z * slot * state_op)) : list state_op :=
  omap (λ x, if decide (x.1 = (id, sl)) then Some x.2 else None) calls.

Definition valid_call sc (ids : list Z) (sls : list slot) (x : Z * slot * state_op) : Prop :=
  x.1.1 ∈ ids ∧ x.1.2 ∈ sls ∧ call_ok sc x.

Lemma call_ok_same sc sc' x :
  same_conf sc sc' → same_caches sc sc' →
  same_values (stateService sc) (stateService sc') → call_ok sc x → call_ok sc' x.
Proof.
  intros Hconf Hcs Hcont. destruct x as [[id sl] op]. intros Hcall c' l0 Hc' Hl0 Hst.
  specialize (Hcs id). destruct (sc_cache sc !! id) as [c|] eqn:E; [|congruence].
  destruct Hcs as (c'' & Hc'' & Hb & _). assert (c'' = c') as -> by congruence.
  rewrite Hb in *. eapply Hcall; [done..|]. by apply (stored_same sc sc').
Qed.

(** A sequence of valid calls keeps the batch, and every slot's state is the
    result of the calls made on it. *)
Lemma user_ops_inv sc ids calls sc' :
  batch_inv sc ids → Forall (valid_call sc ids (slots sc)) calls →
  foldM user_op sc calls = Ok sc' →
  batch_inv sc' ids ∧ slots sc' = slots sc ∧ same_conf sc sc' ∧
  stateService sc' = stateService sc ∧
  ∀ id sl s, id ∈ ids → sl ∈ slots sc → get_state sc id sl = Ok s →
    get_state sc' id sl = foldM apply_op s (calls_on id sl calls).
Proof.
  revert sc. induction calls as [|[[id sl] op] calls IH]; intros sc Hbi Hv; cbn [foldM].
  { intros [= <-]. by split_and!. }
  apply Forall_cons in Hv as [(Hid & Hsl & Hcall) Hv]. simpl in Hid, Hsl.
  intros (sc1 & Hop & Hrest)%bind_Ok_inv.
  destruct (user_op_inv sc ids id sl op sc1 Hbi Hid Hsl Hcall Hop)
    as (Hbi1 & Hsl1 & Hconf1 & Hcs1 & Hsv1 & s & s' & Hget & Happ & Hget1 & Hother).
  destruct (IH sc1 Hbi1) as (Hbi' & Hsl' & Hconf' & Hsv' & Hst'); [|done|].
  { rewrite Hsl1. eapply Forall_impl; [exact Hv|]. intros x (? & ? & Hx). split_and!; [done..|].
    eapply call_ok_same; try done. intros k. by rewrite Hsv1. }
  split_and!; [done|congruence| |congruence|].
  - destruct Hconf1 as (?&?&?&?&?&?&?), Hconf' as (?&?&?&?&?&?&?). split_and!; congruence.
  - intros id' sl' t Hid' Hslt Hgett. unfold calls_on. simpl.
    destruct (decide ((id, sl) = (id', sl'))) as [[= <- <-]|Hne].
    + assert (t = s) as -> by congruence. cbn [foldM]. rewrite Happ, bind_Ok.
      apply Hst'; [done|by rewrite Hsl1|done].
    + apply Hst'; [done|by rewrite Hsl1|]. rewrite Hother by (done || congruence). done.
Qed.

Lemma flush_typed sc ids s' cnt :
  batch_inv sc ids → flush sc = Ok (set_service sc s', cnt) → serving (set_service sc s') →
  (∀ id sl s, id ∈ ids → sl ∈ slots sc → get_state sc id sl = Ok s →
     stored (set_service sc s') id sl
       (if HasValue s && negb (IsDeleted s) then state_tuples s else [])) →
  (∀ k, (∀ id sl, id ∈ ids → sl ∈ slots sc → k ≠ slot_bytes sc id sl) →
     value_of s' k = value_of (stateService sc) k) →
  store_typed (set_service sc s').
Proof.
  intros Hbi _ Hsv Hin Hout. split; [done|]. intros id c sl Hc Hsl. simpl in Hc.
  destruct (decide (id ∈ ids ∧ sl ∈ slots sc)) as [[Hid Hs]|Hn].
  - destruct (get_cached sc ids Hbi id sl Hid Hs) as (c' & s & Hc' & Hcs & Hget & Hlive).
    assert (c' = c) as -> by congruence. eexists. split; [|by eapply Hin].
    destruct Hlive as (s2 & l0 & Hs2 & _ & Hwt & Hk & _). assert (s2 = s) as -> by congruence.
    destruct (HasValue s && _); [|by split; [constructor|simpl; lia]]. split; [done|].
    intros Hkv. destruct s as [b o|]; simpl in *; [by destruct o; simpl; lia|congruence].
  - destruct (st_states _ (bi_typed _ _ Hbi) id c sl Hc Hsl) as (l & Hl & Hst). exists l. split; [done|].
    unfold stored in *. simpl. change (slot_bytes (set_service sc s')) with (slot_bytes sc).
    rewrite Hout; [done|]. intros id' sl' Hid' Hsl' Heq.
    apply (slot_bytes_inj sc) in Heq as [-> ->]; [by destruct Hn| | |done|].
    + by destruct (ok_caches _ (bi_ok _ _ Hbi) id c Hc).
    + by apply (ids_u16 sc ids Hbi).
    + by apply (slots_for sc ids Hbi).
Qed.

(** After the flush the service holds exactly the cached states of the batch,
    and nothing else has changed. *)
Lemma flush_stored sc ids :
  batch_inv sc ids →
  ∃ s' cnt, flush sc = Ok (set_service sc s', cnt) ∧
    client_ok (set_service sc s') ∧ store_typed (set_service sc s') ∧
    (∀ id sl s, id ∈ ids → sl ∈ slots sc → get_state sc id sl = Ok s →
       stored (set_service sc s') id sl (if HasValue s && negb (IsDeleted s) then state_tuples s else [])) ∧
    (∀ k, (∀ id sl, id ∈ ids → sl ∈ slots sc → k ≠ slot_bytes sc id sl) →
       value_of s' k = value_of (stateService sc) k).
Proof.
  intros Hbi. destruct (flush_Ok sc ids Hbi) as (s' & cnt & Hfl & Hsv' & Hval & Hout).
  assert (Hstored : ∀ id sl s, id ∈ ids → sl ∈ slots sc → get_state sc id sl = Ok s →
    stored (set_service sc s') id sl (if HasValue s && negb (IsDeleted s) then state_tuples s else [])).
  { intros id sl s Hid Hsl Hget. unfold stored. simpl.
    change (slot_bytes (set_service sc s')) with (slot_bytes sc). rewrite (Hval id sl s) by done.
    destruct (get_cached sc ids Hbi id sl Hid Hsl) as (c & s2 & Hc & Hcs & Hg & Hlive).
    assert (s2 = s) as -> by congruence. destruct Hlive as (s2 & l0 & Hs2 & Htr & _ & _ & _ & Hl0).
    assert (s2 = s) as -> by congruence. rewrite (new_value_tracks _ l0) by done.
    by destruct (_ && _). }
  exists s', cnt. split_and!; try done; [|by eapply flush_typed].
  eapply (client_ok_same sc); [apply Hbi|done|]. intros id. simpl.
  destruct (sc_cache sc !! id) as [c|]; [|done]. exists c. by split.
Qed.

(** Fetching a batch.  From a client set up over a store of states of its
    types, a fetch of any non-empty batch for registered states succeeds,
    changes nothing in the store, and leaves every requested slot readable in
    the cache as exactly the tuples the store holds for it, empty when it
    holds none, with no update pending. *)
Theorem fetch_reads_store sc sls ids
    (Hok : client_ok sc) (Hst : store_typed sc) (Hne : sls ≠ [])
    (Hsls : Forall (slot_for sc) sls) (Hidne : ids ≠ []) (Hndi : NoDup ids)
    (Hreg : ∀ id, id ∈ ids → is_Some (sc_cache sc !! id)) :
  ∃ sc' n, fetch sc sls ids = Ok (sc', n) ∧
    same_values (stateService sc) (stateService sc') ∧
    NoDup (slots sc') ∧ (∀ sl, sl ∈ slots sc' ↔ sl ∈ sls) ∧
    ∀ id sl, id ∈ ids → sl ∈ sls → ∃ s l, get_state sc' id sl = Ok s ∧
      stored sc id sl l ∧ state_tuples s = l ∧ HasValue s = bool_decide (l ≠ []) ∧
      IsUpdated s = false ∧ IsDeleted s = false ∧ IsAppended s = false.
Proof.
  destruct (fetch_batch_inv sc sls ids) as (sc' & n & Hrun & Hbi & Haf & Hin); try done.
  exists sc', n. pose proof Haf as (Hconf & _ & Hfill & Hcont & _).
  split_and!; try done; [apply Hbi|]. intros id sl Hid Hsl.
  destruct (Hfill id Hid) as (c & c' & Hc & Hc' & _ & Hu & Hlook).
  rewrite Forall_forall in Hsls. destruct (st_states _ Hst id c sl Hc (Hsls _ Hsl)) as (l & Hl & Hs).
  apply Hin in Hsl as Hsl'. destruct (Hlook sl l Hsl' Hl Hs) as (s & Hcs & Hf).
  exists s, l. destruct Hf as (Htup & _ & Hbase & Ha & _).
  unfold HasValue, IsUpdated, IsDeleted. rewrite Hbase. split_and!; try done.
  eapply get_state_Ok; try done; [apply Hbi|]. by eapply slots_for.
Qed.

(** C4: the batch cycle.  After a fetch, whatever valid calls the operator
    makes on the cached states, the flush succeeds; the store then holds for
    every slot of the batch exactly the tuples of its final state, which is
    the fetched state after the calls made on that slot (nothing when it was
    cleared or never had a value), although appends are sent as merges of the
    new tuples only; no other key of the store changes, and the store is again
    one of states of the client's types. *)
Theorem batch_cycle sc sls ids
    (Hok : client_ok sc) (Hst : store_typed sc) (Hne : sls ≠ [])
    (Hsls : Forall (slot_for sc) sls) (Hidne : ids ≠ []) (Hndi : NoDup ids)
    (Hreg : ∀ id, id ∈ ids → is_Some (sc_cache sc !! id)) :
  ∃ sc1 n, fetch sc sls ids = Ok (sc1, n) ∧
    ∀ calls sc2, Forall (valid_call sc1 ids sls) calls → foldM user_op sc1 calls = Ok sc2 →
    ∃ sc3 cnt, flush sc2 = Ok (sc3, cnt) ∧ client_ok sc3 ∧ store_typed sc3 ∧
      (∀ id sl, id ∈ ids → sl ∈ sls → ∃ s0 s, get_state sc1 id sl = Ok s0 ∧
         foldM apply_op s0 (calls_on id sl calls) = Ok s ∧
         stored sc3 id sl (if HasValue s && negb (IsDeleted s) then state_tuples s else [])) ∧
      (∀ k, (∀ id sl, id ∈ ids → sl ∈ sls → k ≠ slot_bytes sc id sl) →
         value_of (stateService sc3) k = value_of (stateService sc) k).
Proof.
  destruct (fetch_batch_inv sc sls ids) as (sc1 & n & Hrun & Hbi1 & Haf & Hin); try done.
  pose proof Haf as (Hconf1 & _ & _ & Hcont1 & _).
  exists sc1, n. split; [done|]. intros calls sc2 Hcalls Hops.
  destruct (user_ops_inv sc1 ids calls sc2 Hbi1) as (Hbi2 & Hsl2 & Hconf2 & Hsv2 & Hget2); [|done|].
  { eapply Forall_impl; [exact Hcalls|]. intros x (? & ? & ?). split_and!; [done| |done]. by apply Hin. }
  destruct (flush_stored sc2 ids Hbi2) as (s' & cnt & Hfl & Hok' & Hst' & Hstored & Hout).
  exists (set_service sc2 s'), cnt. split_and!; [done..| |].
  - intros id sl Hid Hsl. apply Hin in Hsl as Hsl1.
    destruct (get_cached sc1 ids Hbi1 id sl Hid Hsl1) as (_ & s0 & _ & _ & Hg0 & _).
    assert (Hsl2' : sl ∈ slots sc2) by by rewrite Hsl2.
    destruct (get_cached sc2 ids Hbi2 id sl Hid Hsl2') as (_ & s & _ & _ & Hg & _).
    exists s0, s. split_and!; [done| |by apply Hstored]. rewrite <-Hg. symmetry. by apply Hget2.
  - intros k Hk. simpl. rewrite Hout.
    + by rewrite Hsv2, Hcont1.
    + intros id sl Hid Hsl. rewrite Hsl2 in Hsl. rewrite (same_conf_bytes sc1 sc2) by done.
      rewrite (same_conf_bytes sc sc1) by done. apply Hk; [done|]. by apply Hin.
Qed.

(** Deletion of fired windows.  After a fetch of a batch of windows,
    [DeleteManyAndFlush] on a non-empty set of (key, start time) pairs removes
    every state of those windows, keeps the states of the other windows of the
    batch and touches no other key; when a pair was not part of the batch the
    process ends instead, before anything is deleted. *)
Theorem delete_windows sc (sls : list slot) (ids : list Z) (pairs : gset (field * Z))
    (Hok : client_ok sc) (Hst : store_typed sc) (Hne : sls ≠ [])
    (Hsls : Forall (slot_for sc) sls) (Hidne : ids ≠ []) (Hndi : NoDup ids)
    (Hreg : ∀ id, id ∈ ids → is_Some (sc_cache sc !! id))
    (Hty : stateClientType sc = WindowStateClient) (Hp : pairs ≠ ∅) :
  ∃ sc1 n, fetch sc sls ids = Ok (sc1, n) ∧
    if decide (pairs ⊆ list_to_set (C := gset (field * Z)) (slot_pair <$> sls)) then
      ∃ sc2, DeleteManyAndFlush sc1 pairs = Ok sc2 ∧
        (∀ id sl, id ∈ ids → sl ∈ sls → value_of (stateService sc2) (slot_bytes sc id sl) =
           if decide (slot_pair sl ∈ pairs) then []
           else value_of (stateService sc) (slot_bytes sc id sl)) ∧
        (∀ k, (∀ id sl, id ∈ ids → sl ∈ sls → k ≠ slot_bytes sc id sl) →
           value_of (stateService sc2) k = value_of (stateService sc) k)
    else DeleteManyAndFlush sc1 pairs = Crash (Fatal
      "DeleteManyAndFlush: Not all pairs to be deleted exists from the previous Fetch().").
Proof.
  destruct (fetch_batch_inv sc sls ids) as (sc1 & n & Hrun & Hbi & Haf & Hin); try done.
  destruct Haf as (Hconf & _ & _ & Hcont & _).
  exists sc1, n. split; [done|].
  assert (Hty1 : stateClientType sc1 = WindowStateClient) by (destruct Hconf as (?&?&?&?&?&?&?); congruence).
  assert (Hsne : slots sc1 ≠ []).
  { destruct sls as [|x sls']; [done|]. intros Hnil. specialize (Hin x). rewrite Hnil in Hin.
    apply (not_elem_of_nil x), Hin. by left. }
  assert (Hset : list_to_set (C := gset (field * Z)) (slot_pair <$> slots sc1) =
                 list_to_set (slot_pair <$> sls)).
  { apply set_eq. intros q. rewrite !elem_of_list_to_set, !list_elem_of_fmap. by setoid_rewrite Hin. }
  pose proof (DeleteManyAndFlush_Ok sc1 ids Hbi Hidne Hsne pairs Hty1 Hp) as Hdel. rewrite Hset in Hdel.
  case_decide; [|done]. destruct Hdel as (s' & Hd & _ & Hv & Ho). exists (set_service sc1 s').
  split; [done|]. simpl. split.
  - intros id sl Hid Hsl%Hin. rewrite <-Hcont, <-(same_conf_bytes sc sc1) by done. by apply Hv.
  - intros k Hk. rewrite <-Hcont. apply Ho. intros id sl Hid Hsl%Hin. rewrite (same_conf_bytes sc sc1) by done. by apply Hk.
Qed.
End Batch.

(** ** A concrete batch *)

Definition demo_batch : list slot :=
  [(FNum KInt64 7, Some 1000); (FNum KInt64 9, Some 2000); (FNum KInt64 7, Some 1000)]%Z.

Lemma demo_ready :
  ∃ sc : StateClient (LocalService MemoryStateBackend), client_ok sc ∧ store_typed sc ∧
    Forall (slot_for sc) demo_batch ∧ stateClientType sc = WindowStateClient ∧
    (∀ id, id ∈ [0; 1]%Z → is_Some (sc_cache sc !! id)) ∧
    stateService sc = MkLocal NewMemoryStateBackend.
Proof.
  destruct demo_setup as (sc & _ & Hok & Hs & Ht & Hk & H0 & H1). exists sc.
  split_and!; try done.
  - split; [done|]. intros id c sl _ _. exists []. split; [split; [constructor|]; simpl; lia|].
    unfold stored. by rewrite Hs.
  - unfold slot_for, slot_ok. rewrite Hk, Ht.
    repeat constructor; simpl; eauto; unfold is_i64; lia.
  - intros id Hid. repeat (apply elem_of_cons in Hid as [->|Hid]; [done|]).
    by apply elem_of_nil in Hid.
Qed.

Lemma fetch_reads_store_witness :
  ∃ (sc sc' : StateClient (LocalService MemoryStateBackend)) n s,
    fetch sc demo_batch [0; 1]%Z = Ok (sc', n) ∧
    get_state sc' 1 (FNum KInt64 9, Some 2000%Z) = Ok s ∧ HasValue s = false.
Proof.
  destruct demo_ready as (sc & Hok & Hst & Hsl & Hty & Hreg & Hempty).
  destruct (fetch_reads_store sc demo_batch [0; 1]%Z Hok Hst) as (sc' & n & Hf & _ & _ & _ & Hget).
  - discriminate.
  - exact Hsl.
  - discriminate.
  - apply (bool_decide_unpack _). vm_compute. exact I.
  - exact Hreg.
  - destruct (Hget 1%Z (FNum KInt64 9, Some 2000%Z)) as (s & l & Hs & Hstored & Htup & Hhas & _).
    + right. left.
    + right. left.
    + exists sc, sc', n, s. split; [exact Hf|]. split; [exact Hs|]. rewrite Hhas.
      unfold stored in Hstored. rewrite Hempty in Hstored.
      change (value_of (MkLocal NewMemoryStateBackend) ?k) with (@nil Z) in Hstored. destruct l as [|t l]; [reflexivity|].
      exfalso. apply (f_equal length) in Hstored. rewrite list_bytes_cons, length_app in Hstored.
      unfold tuple_bytes in Hstored. rewrite length_app in Hstored. cbn [MarshalNum fixed_mus] in Hstored.
      rewrite length_be_encode in Hstored. simpl in Hstored. lia.
Defined.

Definition demo_client : StateClient (LocalService MemoryStateBackend) :=
  match Setup (declare WindowStateClient KInt64 demo_specs) 3 (MkLocal NewMemoryStateBackend) (toy_hash 5) 128 "pebble" with
  | Ok sc => sc
  | Crash _ => MkClient 0 (MkLocal NewMemoryStateBackend) WindowStateClient (toy_hash 0) 0 KBool
                 (λ _, Crash Panic) (λ _, Crash Panic) ∅ [] [] ∅ []
  end.

Definition demo_fetched : StateClient (LocalService MemoryStateBackend) :=
  match fetch demo_client demo_batch [0; 1]%Z with Ok (sc, _) => sc | Crash _ => demo_client end.

(** Two appends to one window's list, a value set and cleared in another. *)
Definition demo_calls : list (Z * slot * state_op) :=
  [(1%Z, (FNum KInt64 9, Some 2000%Z), OAdd (MkTuple [FNum KInt64 4; FBool true] 5));
   (0%Z, (FNum KInt64 7, Some 1000%Z), OSet (MkTuple [FNum KInt64 6] 5));
   (1%Z, (FNum KInt64 9, Some 2000%Z), OAdd (MkTuple [FNum KInt64 (-1); FBool false] 8));
   (0%Z, (FNum KInt64 7, Some 1000%Z), OClear)].

Lemma demo_client_ready :
  client_ok demo_client ∧ store_typed demo_client ∧ Forall (slot_for demo_client) demo_batch ∧
  ∀ id, id ∈ [0; 1]%Z → is_Some (sc_cache demo_client !! id).
Proof.
  destruct demo_setup as (sc & Hset & Hok & Hs & Ht & Hk & H0 & H1).
  assert (Hd : demo_client = sc) by (unfold demo_client; by rewrite Hset). rewrite Hd.
  split_and!; try done.
  - split; [done|]. intros id c sl _ _. exists []. split; [split; [constructor|]; simpl; lia|].
    unfold stored. by rewrite Hs.
  - unfold slot_for, slot_ok. rewrite Hk, Ht.
    repeat constructor; simpl; eauto; unfold is_i64; lia.
  - intros id Hid. repeat (apply elem_of_cons in Hid as [->|Hid]; [done|]).
    by apply elem_of_nil in Hid.
Qed.

Lemma demo_types :
  (λ c, valueType (cache_base c)) <$> sc_cache demo_fetched !! 0%Z = Some [KInt64] ∧
  (λ c, valueType (cache_base c)) <$> sc_cache demo_fetched !! 1%Z = Some [KInt64; KBool].
Proof. by vm_compute. Qed.

Lemma demo_calls_valid : Forall (valid_call demo_fetched [0; 1]%Z demo_batch) demo_calls.
Proof.
  destruct demo_types as [Ht0 Ht1].
  assert (Hv : ∀ id sl op tys, id ∈ [0; 1]%Z → sl ∈ demo_batch →
    (λ c, valueType (cache_base c)) <$> sc_cache demo_fetched !! id = Some tys →
    (∀ l0, op_ok tys l0 op) → valid_call demo_fetched [0; 1]%Z demo_batch (id, sl, op)).
  { intros id sl op tys Hid Hsl Hty Hop. split_and!; [done..|]. intros c l0 Hc _ _.
    rewrite Hc in Hty. simpl in Hty. injection Hty as ->. apply Hop. }
  unfold demo_calls. repeat (apply Forall_cons; split); [..|constructor].
  - eapply Hv; [by right; left|by right; left|exact Ht1|]. intros l0. split; [by repeat constructor|].
    unfold is_i64. simpl. lia.
  - eapply Hv; [by left|by left|exact Ht0|]. intros l0. split; [by repeat constructor|].
    unfold is_i64. simpl. lia.
  - eapply Hv; [by right; left|by right; left|exact Ht1|]. intros l0. split; [by repeat constructor|].
    unfold is_i64. simpl. lia.
  - by eapply Hv; [by left|by left|exact Ht0|].
Qed.

Lemma batch_cycle_witness :
  ∃ sc2 sc3 cnt, foldM user_op demo_fetched demo_calls = Ok sc2 ∧ flush sc2 = Ok (sc3, cnt) ∧
    stored sc3 1 (FNum KInt64 9, Some 2000%Z)
      [MkTuple [FNum KInt64 4; FBool true] 5; MkTuple [FNum KInt64 (-1); FBool false] 8] ∧
    stored sc3 0 (FNum KInt64 7, Some 1000%Z) [].
Proof.
  destruct demo_client_ready as (Hok & Hst & Hsl & Hreg).
  destruct (batch_cycle demo_client demo_batch [0; 1]%Z Hok Hst) as (sc1 & n & Hf & Hcyc).
  - discriminate.
  - exact Hsl.
  - discriminate.
  - apply (bool_decide_unpack _). vm_compute. exact I.
  - exact Hreg.
  - assert (Hd : demo_fetched = sc1) by (unfold demo_fetched; rewrite Hf; reflexivity). rewrite <-Hd in *.
    destruct (foldM user_op demo_fetched demo_calls) as [sc2|] eqn:Eops.
    + destruct (Hcyc demo_calls sc2 demo_calls_valid Eops) as (sc3 & cnt & Hfl & _ & _ & Hin & _).
      exists sc2, sc3, cnt. split; [reflexivity|]. split; [exact Hfl|]. split.
      * destruct (Hin 1%Z (FNum KInt64 9, Some 2000%Z)) as (s0 & s & Hg & Ha & Hs);
          [right; left|right; left|].
        vm_compute in Hg. injection Hg as <-. vm_compute in Ha. injection Ha as <-. exact Hs.
      * destruct (Hin 0%Z (FNum KInt64 7, Some 1000%Z)) as (s0 & s & Hg & Ha & Hs); [left|left|].
        vm_compute in Hg. injection Hg as <-. vm_compute in Ha. injection Ha as <-. exact Hs.
    + exfalso. assert (Hok' : is_ok (foldM user_op demo_fetched demo_calls) = true)
        by (vm_compute; reflexivity). rewrite Eops in Hok'. discriminate Hok'.
Defined.

Lemma delete_windows_witness :
  ∃ sc1 sc2 n, fetch demo_client demo_batch [0; 1]%Z = Ok (sc1, n) ∧
    DeleteManyAndFlush sc1 {[ (FNum KInt64 7, 1000%Z) ]} = Ok sc2 ∧
    value_of (stateService sc2) (slot_bytes demo_client 0 (FNum KInt64 7, Some 1000%Z)) = [].
Proof.
  destruct demo_client_ready as (Hok & Hst & Hsl & Hreg).
  destruct (delete_windows demo_client demo_batch [0; 1]%Z {[ (FNum KInt64 7, 1000%Z) ]} Hok Hst)
    as (sc1 & n & Hf & Hd).
  - discriminate.
  - exact Hsl.
  - discriminate.
  - apply (bool_decide_unpack _). vm_compute. exact I.
  - exact Hreg.
  - vm_compute. reflexivity.
  - apply non_empty_singleton_L.
  - rewrite decide_True in Hd by (apply singleton_subseteq_l, elem_of_list_to_set; left).
    destruct Hd as (sc2 & Hdel & Hin & _). exists sc1, sc2, n. split; [exact Hf|]. split; [exact Hdel|].
    rewrite (Hin 0%Z (FNum KInt64 7, Some 1000%Z)) by left.
    rewrite decide_True by (apply elem_of_singleton; reflexivity). reflexivity.
Defined.
