(* ===== verification/Chunks.v ===== *)
(** * State chunks: how buckets travel between workers

    The range of keys of a bucket ([ReadLocalBucketRange] of
    [state/stateServiceApi.go]), the chunked stream in which a state
    communication server sends it
    ([worker/stateCommUtil/stateCommRpcUtil.go]), and the loop that receives
    it ([migrateRemoteBucketsFromWorker] of [state/stateServiceUtil.go]). *)

From stdpp Require Import prelude gmap strings list.
From Stdlib Require Import ZArith Lia.
From S2P Require Import Prelude Backend StateService.

(** ** The keys of a bucket *)

Definition bucket_bound (op b : Z) : bytes := be_encode 2 op ++ be_encode 4 (u32 b).

Definition ReadLocalBucketRange `{StateBackendOps B} (backend : B) (op lowerBucketIdx upperBucketIdx : Z)
    : res (list bytes * list bytes) :=
  sb_RangeQuery backend (bucket_bound op lowerBucketIdx) (bucket_bound op (upperBucketIdx + 1)).

Lemma bytes_ltb_irrefl k : bytes_ltb k k = false.
Proof. induction k as [|b k IH]; [done|]. simpl. by rewrite Z.ltb_irrefl, Z.eqb_refl, IH. Qed.

Lemma bytes_ltb_prefix p k1 k2 : bytes_ltb (p ++ k1) (p ++ k2) = bytes_ltb k1 k2.
Proof. induction p as [|b p IH]; [done|]. simpl. by rewrite Z.ltb_irrefl, Z.eqb_refl, IH. Qed.

(** A bound of the length of a key's prefix compares with the prefix. *)
Lemma bytes_ltb_suffix x y rest :
  length x = length y → bytes_ltb (x ++ rest) y = bytes_ltb x y.
Proof.
  revert y. induction x as [|b x IH]; intros [|c y] Hlen; try discriminate.
  - simpl. by destruct rest.
  - simpl in *. rewrite IH by lia. done.
Qed.

Lemma be_decode_cons b l : be_decode (b :: l) = (b * 256 ^ Z.of_nat (length l) + be_decode l)%Z.
Proof.
  induction l as [|c l IH] using rev_ind; [unfold be_decode; simpl; lia|].
  rewrite app_comm_cons, !be_decode_snoc, IH, length_app. simpl.
  rewrite Nat.add_1_r, Nat2Z.inj_succ, Z.pow_succ_r by lia. lia.
Qed.

(** Equally long byte strings are ordered as the numbers they denote. *)
Lemma bytes_ltb_decode x y :
  length x = length y → Forall is_byte x → Forall is_byte y →
  bytes_ltb x y = (be_decode x <? be_decode y)%Z.
Proof.
  revert y. induction x as [|b x IH]; intros [|c y] Hlen Hx Hy; try discriminate; [done|].
  simpl in Hlen. apply Forall_cons in Hx as [Hb Hx], Hy as [Hc Hy]. simpl.
  rewrite IH by (done || lia). rewrite !be_decode_cons.
  pose proof (be_decode_range x Hx). pose proof (be_decode_range y Hy).
  replace (length x) with (length y) in * by lia.
  set (w := (256 ^ Z.of_nat (length y))%Z) in *. unfold is_byte in *.
  destruct (Z.ltb_spec b c), (Z.eqb_spec b c), (Z.ltb_spec (be_decode x) (be_decode y)),
    (Z.ltb_spec (b * w + be_decode x) (c * w + be_decode y)); simpl; try done; nia.
Qed.

Lemma bytes_ltb_bucket op b c rest :
  is_u32 b → is_u32 c →
  bytes_ltb (be_encode 2 op ++ be_encode 4 b ++ rest) (bucket_bound op c) = (b <? c)%Z.
Proof.
  intros Hb Hc. unfold bucket_bound. rewrite bytes_ltb_prefix, bytes_ltb_suffix
    by by rewrite !length_be_encode.
  rewrite u32_id, bytes_ltb_decode by (done || by rewrite ?length_be_encode || apply be_encode_bytes).
  by rewrite !be_decode_encode32.
Qed.

(** A range of buckets holds exactly the keys of those buckets. *)
Lemma in_range_buckets op n k b lo hi :
  key_at op n k b → (n < 2 ^ 32)%Z → (0 ≤ lo)%Z → (hi < n)%Z → (lo ≤ hi)%Z →
  in_range (bucket_bound op lo) (bucket_bound op (hi + 1)) k = (lo <=? b)%Z && (b <=? hi)%Z.
Proof.
  intros [Hb [rest ->]] Hn Hlo Hhi Hle. unfold in_range.
  rewrite !bytes_ltb_bucket by (unfold is_u32; lia).
  destruct (Z.ltb_spec b lo), (Z.leb_spec lo b), (Z.ltb_spec b (hi + 1)), (Z.leb_spec b hi);
    simpl; try done; lia.
Qed.

(** ** The chunk sender *)

Record StateChunk := MkChunk {
  EndOfStream : bool;
  Keys : list bytes;
  Values : list bytes
}.

(** A nil list of keys makes the end-of-stream message. *)
Definition NewStateChunkMsg (keys : option (list bytes)) (values : list bytes) : StateChunk :=
  match keys with
  | None => MkChunk true [] []
  | Some keys => MkChunk false keys values
  end.

(** The sender with what it has sent so far; a fresh one has a nil chunk. *)
Record StateChunkSender := MkSender {
  sent_chunks : list StateChunk;
  maxChunkSize : Z;
  curChunkKeys : option (list bytes);
  curChunkValues : list bytes;
  curChunkSize : Z
}.

Definition NewStateChunkSender (maxChunkSize : Z) : StateChunkSender :=
  MkSender [] maxChunkSize None [] 0.

Definition stream_Send (s : StateChunkSender) (m : StateChunk) : StateChunkSender :=
  MkSender (sent_chunks s ++ [m]) (maxChunkSize s) (curChunkKeys s) (curChunkValues s)
    (curChunkSize s).

Definition resetChunk (s : StateChunkSender) : StateChunkSender :=
  MkSender (sent_chunks s) (maxChunkSize s) (Some []) [] 0.

Definition send_record (values : list bytes) (s : StateChunkSender) (x : nat * bytes)
    : res StateChunkSender :=
  let '(i, key) := x in
  v ← idx values i;
  let recSize := u64 (Z.of_nat (length key + length v)) in
  let s := if (maxChunkSize s <? u64 (curChunkSize s + recSize))%Z
           then resetChunk (stream_Send s (NewStateChunkMsg (curChunkKeys s) (curChunkValues s)))
           else s in
  Ok (MkSender (sent_chunks s) (maxChunkSize s)
        (Some (default [] (curChunkKeys s) ++ [key])) (curChunkValues s ++ [v])
        (u64 (curChunkSize s + recSize))).

Definition chunk_Send (s : StateChunkSender) (keys values : list bytes) : res StateChunkSender :=
  foldM (send_record values) s (imap pair keys).

Definition chunk_Flush (s : StateChunkSender) : StateChunkSender :=
  let s := if (0 <? length (default [] (curChunkKeys s)))
           then stream_Send s (NewStateChunkMsg (curChunkKeys s) (curChunkValues s)) else s in
  resetChunk (stream_Send s (NewStateChunkMsg None [])).

Definition dedup_record (transferredKeys : gset bytes) (values : list bytes)
    (st : list bytes * list bytes) (x : nat * bytes) : res (list bytes * list bytes) :=
  let '(i, key) := x in
  if decide (key ∈ transferredKeys) then Ok st
  else v ← idx values i; Ok (st.1 ++ [key], st.2 ++ [v]).

Definition DedupStates (keys values : list bytes) (transferredKeys : gset bytes)
    : res (list bytes * list bytes) :=
  foldM (dedup_record transferredKeys values) ([], []) (imap pair keys).

(** ** Receiving

    The receive loops over the messages of a stream; [check] is what each loop
    validates of a chunk.  The messages after the end-of-stream one stay in
    the stream, and a stream with no more messages blocks the receiver. *)
Fixpoint receive_loop `{StateBackendOps B} (check : StateChunk → res unit) (backend : B)
    (stream : list StateChunk) : res (B * list StateChunk) :=
  match stream with
  | [] => Crash Blocked
  | chunk :: stream =>
      if EndOfStream chunk then Ok (backend, stream)
      else
        check chunk;;
        backend ← sb_SetMany backend (Keys chunk) (Values chunk);
        receive_loop check backend stream
  end.

(** The loop of [migrateRemoteBucketsFromWorker]. *)
Definition receive_chunks `{StateBackendOps B} : B → list StateChunk → res (B * list StateChunk) :=
  receive_loop (λ chunk,
    fatal_if (negb (length (Keys chunk) =? length (Values chunk)) || (length (Keys chunk) =? 0))
      "Invalid bucket chunk").

(** The loop of [asyncStateFetchExecutor]: an empty list is nil once received. *)
Definition receive_chunks_async `{StateBackendOps B}
    : B → list StateChunk → res (B * list StateChunk) :=
  receive_loop (λ chunk,
    fatal_if (length (Keys chunk) =? 0) "SetMany(): keys or values is nil").

(** ** What a stream carries *)

Definition record_size (kv : bytes * bytes) : Z := Z.of_nat (length kv.1 + length kv.2).

Definition chunk_pairs (c : StateChunk) : list (bytes * bytes) := zip (Keys c) (Values c).

Definition records_size (l : list (bytes * bytes)) : Z := foldr Z.add 0%Z (record_size <$> l).

(** A chunk the receiver accepts and the limit allows. *)
Definition good_chunk (limit : Z) (c : StateChunk) : Prop :=
  EndOfStream c = false ∧ length (Keys c) = length (Values c) ∧ Keys c ≠ [] ∧
  (records_size (chunk_pairs c) ≤ limit)%Z.

Lemma records_size_snoc l kv : records_size (l ++ [kv]) = (records_size l + record_size kv)%Z.
Proof.
  unfold records_size. rewrite fmap_app, foldr_app. simpl.
  induction l as [|x l IH]; csimpl; [lia|]. rewrite IH. lia.
Qed.

Lemma records_size_nonneg l : (0 ≤ records_size l)%Z.
Proof.
  unfold records_size. induction l as [|x l IH]; csimpl; [done|].
  assert (0 ≤ record_size x)%Z by (unfold record_size; lia). lia.
Qed.

Lemma zip_snoc {A C} (l : list A) (k : list C) x y :
  length l = length k → zip (l ++ [x]) (k ++ [y]) = zip l k ++ [(x, y)].
Proof. intros Hlen. by rewrite zip_with_app. Qed.

(** The pending chunk. *)
Definition pending (s : StateChunkSender) : list (bytes * bytes) :=
  zip (default [] (curChunkKeys s)) (curChunkValues s).

(** A sender that accepted the records [l] since it had sent [base]. *)
Record accepted (limit : Z) (base : list StateChunk) (l : list (bytes * bytes))
    (s : StateChunkSender) : Prop := {
  acc_limit : maxChunkSize s = limit;
  acc_len : length (default [] (curChunkKeys s)) = length (curChunkValues s);
  acc_size : curChunkSize s = records_size (pending s);
  acc_small : (curChunkSize s ≤ limit)%Z;
  acc_sent : ∃ chunks, sent_chunks s = base ++ chunks ∧ Forall (good_chunk limit) chunks ∧
    l = (chunks ≫= chunk_pairs) ++ pending s
}.

(** A sender with nothing pending. *)
Definition idle (limit : Z) (s : StateChunkSender) : Prop :=
  maxChunkSize s = limit ∧ default [] (curChunkKeys s) = [] ∧ curChunkValues s = [] ∧
  curChunkSize s = 0%Z.

Section Sender.
Context (limit : Z) (Hlimit : (0 ≤ limit < 2 ^ 62)%Z).

Lemma idle_accepted s : idle limit s → accepted limit (sent_chunks s) [] s.
Proof.
  intros (Hm & Hk & Hv & Hz). split; try done.
  - by rewrite Hk, Hv.
  - rewrite Hz. unfold pending. by rewrite Hk.
  - lia.
  - exists []. rewrite app_nil_r. split_and!; [done..|]. unfold pending. by rewrite Hk.
Qed.

Lemma pending_good s : length (default [] (curChunkKeys s)) = length (curChunkValues s) →
  (0 < records_size (pending s) ≤ limit)%Z →
  good_chunk limit (NewStateChunkMsg (curChunkKeys s) (curChunkValues s)) ∧
  chunk_pairs (NewStateChunkMsg (curChunkKeys s) (curChunkValues s)) = pending s.
Proof.
  intros Hlen Hsz. unfold pending, good_chunk, chunk_pairs in *.
  destruct (curChunkKeys s) as [ks|]; simpl in *; [|unfold records_size in Hsz; simpl in Hsz; lia].
  split_and!; try done; [|lia]. intros ->. unfold records_size in Hsz. simpl in Hsz. lia.
Qed.

Lemma send_record_Ok base l s values i key v :
  accepted limit base l s → values !! i = Some v → (record_size (key, v) ≤ limit)%Z →
  ∃ s', send_record values s (i, key) = Ok s' ∧ accepted limit base (l ++ [(key, v)]) s'.
Proof.
  intros [Hm Hlen Hsz Hsmall (chunks & Hsent & Hgood & Hl)] Hv Hrec.
  unfold send_record. rewrite (proj2 (idx_Ok _ _ _) Hv), bind_Ok.
  pose proof (records_size_nonneg (pending s)).
  change (Z.of_nat (length key + length v)) with (record_size (key, v)).
  assert (0 ≤ record_size (key, v))%Z by (unfold record_size; lia).
  rewrite (u64_id (record_size _)) by (unfold is_u64; lia).
  rewrite (u64_id (curChunkSize s + _)) by (unfold is_u64; lia). rewrite Hm.
  destruct (Z.ltb_spec limit (curChunkSize s + record_size (key, v))) as [Hfull|Hfits].
  - destruct (pending_good s Hlen) as [Hg Hp]; [lia|]. eexists. split; [done|].
    rewrite u64_id by (unfold is_u64; simpl; lia). split; simpl; try done.
    + unfold pending, records_size. simpl. lia.
    + exists (chunks ++ [NewStateChunkMsg (curChunkKeys s) (curChunkValues s)]). split_and!.
      * by rewrite Hsent, <-app_assoc.
      * apply Forall_app. by rewrite Forall_singleton.
      * rewrite bind_app. cbn [mbind list_bind]. rewrite Hp, app_nil_r. unfold pending. simpl.
        by rewrite Hl.
  - eexists. split; [done|]. rewrite u64_id by (unfold is_u64; lia).
    assert (Hpend : ∀ m z, pending (MkSender (sent_chunks s) m
      (Some (default [] (curChunkKeys s) ++ [key])) (curChunkValues s ++ [v]) z) = pending s ++ [(key, v)]).
    { intros m z. unfold pending. simpl. by apply zip_snoc. }
    split; simpl; try done.
    + rewrite !length_app. simpl. lia.
    + rewrite Hpend, records_size_snoc. lia.
    + exists chunks. split_and!; [done..|]. rewrite Hpend, Hl, app_assoc. done.
Qed.

Lemma chunk_Send_Ok base l s keys values :
  accepted limit base l s → length keys = length values →
  Forall (λ kv, (record_size kv ≤ limit)%Z) (zip keys values) →
  ∃ s', chunk_Send s keys values = Ok s' ∧ accepted limit base (l ++ zip keys values) s'.
Proof.
  intros Hs Hlen Hsmall. unfold chunk_Send.
  destruct (foldM_total (send_record values)
    (λ pre s, accepted limit base (l ++ take (length pre) (zip keys values)) s)
    (imap pair keys) s) as (s' & Hrun & Hs').
  - simpl. by rewrite app_nil_r.
  - intros pre [i key] s1 [suf Hpre] Hs1.
    assert (Hi : imap pair keys !! length pre = Some (i, key)).
    { rewrite Hpre, <-app_assoc. by apply list_lookup_middle. }
    rewrite list_lookup_imap in Hi. destruct (keys !! length pre) as [k|] eqn:Ek; [|done].
    simpl in Hi. injection Hi as <- <-.
    destruct (lookup_lt_is_Some_2 values (length pre)) as [v Hv].
    { rewrite <-Hlen. by eapply lookup_lt_Some. }
    assert (Hkv : zip keys values !! length pre = Some (k, v)).
    { by rewrite lookup_zip_with, Ek, Hv. }
    destruct (send_record_Ok base _ s1 values (length pre) k v Hs1 Hv) as (s2 & Hs2 & Hacc).
    { by apply (Forall_lookup_1 _ _ _ _ Hsmall Hkv). }
    exists s2. split; [done|]. rewrite length_app, Nat.add_1_r, (take_S_r _ _ _ Hkv).
    by rewrite app_assoc.
  - exists s'. split; [done|]. rewrite length_imap, take_ge in Hs'; [done|].
    rewrite length_zip_with. lia.
Qed.

Lemma chunk_Flush_Ok base l s :
  accepted limit base l s → Forall (λ kv, (0 < record_size kv)%Z) l →
  idle limit (chunk_Flush s) ∧
  ∃ chunks, sent_chunks (chunk_Flush s) = base ++ chunks ++ [MkChunk true [] []] ∧
    Forall (good_chunk limit) chunks ∧ l = chunks ≫= chunk_pairs.
Proof.
  intros [Hm Hlen Hsz Hsmall (chunks & Hsent & Hgood & Hl)] Hpos. unfold chunk_Flush.
  destruct (Nat.ltb_spec 0 (length (default [] (curChunkKeys s)))) as [Hne|Hz].
  - split; [done|]. destruct (pending_good s Hlen) as [Hg Hp].
    { rewrite <-Hsz. split; [|done]. rewrite Hsz. rewrite Hl, Forall_app in Hpos. destruct Hpos as [_ Hpos].
      assert (pending s ≠ []).
      { unfold pending. intros E%(f_equal length). rewrite length_zip_with in E. simpl in E. lia. }
      destruct (pending s) as [|kv r]; [done|]. apply Forall_cons in Hpos as [Hkv _].
      change (records_size (kv :: r)) with (record_size kv + records_size r)%Z.
      pose proof (records_size_nonneg r). lia. }
    exists (chunks ++ [NewStateChunkMsg (curChunkKeys s) (curChunkValues s)]). simpl. split_and!.
    + by rewrite Hsent, <-!app_assoc.
    + apply Forall_app. by rewrite Forall_singleton.
    + rewrite bind_app. cbn [mbind list_bind]. by rewrite Hp, app_nil_r.
  - split; [done|]. exists chunks. simpl. split_and!; [by rewrite Hsent, <-app_assoc|done|].
    assert (Hp : pending s = []).
    { unfold pending. by destruct (default [] (curChunkKeys s)); [|simpl in Hz; lia]. }
    by rewrite Hl, Hp, app_nil_r.
Qed.
End Sender.

Section Transfer.
Context `{StateBackendLaws B}.

Lemma receive_loop_Ok limit check (b : B) chunks rest :
  (∀ c, good_chunk limit c → check c = Ok tt) →
  backend_ok b → Forall (good_chunk limit) chunks →
  ∃ b', receive_loop check b (chunks ++ MkChunk true [] [] :: rest) = Ok (b', rest) ∧ backend_ok b' ∧
    data_of b' = foldl write_pair (data_of b) (chunks ≫= chunk_pairs).
Proof.
  intros Hcheck Hb Hgood. revert b Hb. induction Hgood as [|c chunks Hc _ IH]; intros b Hb.
  { exists b. by split_and!. }
  pose proof Hc as (He & Hlen & _). cbn [app receive_loop]. rewrite He, Hcheck, bind_Ok by done.
  destruct (SetMany_law b (Keys c) (Values c) Hb Hlen) as (b1 & -> & Hb1 & Hd1).
  rewrite bind_Ok. destruct (IH b1 Hb1) as (b' & -> & Hb' & Hd').
  exists b'. split_and!; [done..|]. rewrite Hd', Hd1. symmetry. apply foldl_app.
Qed.

Lemma good_chunk_checks limit c :
  good_chunk limit c →
  fatal_if (negb (length (Keys c) =? length (Values c)) || (length (Keys c) =? 0))
    "Invalid bucket chunk" = Ok tt ∧
  fatal_if (length (Keys c) =? 0) "SetMany(): keys or values is nil" = Ok tt.
Proof.
  intros (_ & <- & Hne & _). rewrite Nat.eqb_refl. by destruct (Keys c).
Qed.

(** Sending any sequence of bucket reads and flushing. *)
Lemma send_all_Ok limit s (reads : list (list bytes * list bytes)) :
  (0 ≤ limit < 2 ^ 62)%Z → idle limit s → Forall (λ r, length r.1 = length r.2) reads →
  Forall (λ kv, (0 < record_size kv ≤ limit)%Z) (reads ≫= λ r, zip r.1 r.2) →
  ∃ s' chunks, foldM (λ s r, chunk_Send s r.1 r.2) s reads = Ok s' ∧ idle limit (chunk_Flush s') ∧
    sent_chunks (chunk_Flush s') = sent_chunks s ++ chunks ++ [MkChunk true [] []] ∧
    Forall (good_chunk limit) chunks ∧ (reads ≫= λ r, zip r.1 r.2) = chunks ≫= chunk_pairs.
Proof.
  intros Hlimit Hidle Hlen Hsmall.
  destruct (foldM_total (λ s r, chunk_Send s r.1 r.2)
    (λ pre s1, accepted limit (sent_chunks s) (pre ≫= λ r, zip r.1 r.2) s1) reads s)
    as (s' & Hrun & Hacc).
  - by apply idle_accepted.
  - intros pre r s1 [suf Hpre] Hs1. rewrite Hpre in Hlen, Hsmall.
    rewrite !Forall_app in Hlen. destruct Hlen as [[_ Hr] _]. rewrite Forall_singleton in Hr.
    rewrite !bind_app, !Forall_app in Hsmall. destruct Hsmall as [[_ Hkv] _].
    cbn [mbind list_bind] in Hkv. rewrite app_nil_r in Hkv.
    destruct (chunk_Send_Ok limit Hlimit _ _ s1 r.1 r.2 Hs1 Hr) as (s2 & Hs2 & Hacc2).
    { eapply Forall_impl; [exact Hkv|]. simpl. lia. }
    exists s2. split; [done|]. rewrite bind_app. cbn [mbind list_bind]. by rewrite app_nil_r.
  - destruct (chunk_Flush_Ok limit _ _ s' Hacc) as (Hidle' & chunks & Hsent & Hgood & Hl).
    { eapply Forall_impl; [exact Hsmall|]. simpl. lia. }
    by exists s', chunks.
Qed.

(** Transfer of state in chunks.  When no record exceeds the chunk limit,
    sending any sequence of bucket reads and flushing yields chunks that are
    non-empty and within the limit followed by one end-of-stream message, and
    leaves the sender ready for the next request; the receiver writes exactly
    the records sent, in order, and leaves nothing of them in the stream. *)
Theorem chunk_transfer limit s (reads : list (list bytes * list bytes)) (b : B) rest
    (Hlimit : (0 ≤ limit < 2 ^ 62)%Z) (Hidle : idle limit s) (Hb : backend_ok b)
    (Hlen : Forall (λ r, length r.1 = length r.2) reads)
    (Hsmall : Forall (λ kv, (0 < record_size kv ≤ limit)%Z) (reads ≫= λ r, zip r.1 r.2)) :
  ∃ s' chunks, foldM (λ s r, chunk_Send s r.1 r.2) s reads = Ok s' ∧
    idle limit (chunk_Flush s') ∧
    sent_chunks (chunk_Flush s') = sent_chunks s ++ chunks ++ [MkChunk true [] []] ∧
    Forall (good_chunk limit) chunks ∧
    ∃ b', receive_chunks b (chunks ++ [MkChunk true [] []] ++ rest) = Ok (b', rest) ∧ backend_ok b' ∧
      data_of b' = foldl write_pair (data_of b) (reads ≫= λ r, zip r.1 r.2).
Proof.
  destruct (send_all_Ok limit s reads Hlimit Hidle Hlen Hsmall) as (s' & chunks & Hrun & Hidle' & Hsent & Hgood & Hl).
  exists s', chunks. split_and!; try done. rewrite Hl.
  apply (receive_loop_Ok limit); try done. intros c Hc. by apply (good_chunk_checks limit).
Qed.
End Transfer.

Definition demo_reads : list (list bytes * list bytes) :=
  [([[1; 1]; [1; 2]], [[7; 7; 7]; [8]]); ([], []); ([[2; 1]], [[9; 9]])]%Z.

Lemma chunk_transfer_witness :
  ∃ s' chunks b', foldM (λ s r, chunk_Send s r.1 r.2) (NewStateChunkSender 6) demo_reads = Ok s' ∧
    sent_chunks (chunk_Flush s') = chunks ++ [MkChunk true [] []] ∧
    receive_chunks NewMemoryStateBackend (chunks ++ [MkChunk true [] []]) = Ok (b', []) ∧
    data b' !! [2; 1]%Z = Some [9; 9]%Z ∧ length chunks = 3.
Proof.
  destruct (chunk_transfer 6 (NewStateChunkSender 6) demo_reads NewMemoryStateBackend [])
    as (s' & chunks & Hrun & _ & Hsent & Hgood & b' & Hrecv & _ & Hd).
  - lia.
  - repeat split.
  - exact I.
  - repeat constructor.
  - repeat (constructor; [unfold record_size; simpl; lia|]). constructor.
  - exists s', chunks, b'. split; [exact Hrun|]. split; [exact Hsent|]. rewrite app_nil_r in Hrecv.
    split; [exact Hrecv|]. simpl in Hd. rewrite Hd. split; [reflexivity|].
    vm_compute in Hrun. injection Hrun as <-. vm_compute in Hsent.
    apply (f_equal length) in Hsent. rewrite length_app in Hsent. simpl in Hsent. lia.
Defined.

(** C32: a record larger than the chunk limit is lost.  When the first record a
    fresh sender is given exceeds the limit, the pending chunk is still nil
    and the sender announces the end of the stream before any data: a receiver
    stops at once with nothing written, and the record stays in the stream as
    the answer to the next request. *)
Theorem oversized_record_lost `{StateBackendOps B} limit k v (b : B)
    (Hlimit : (0 ≤ limit)%Z) (Hbig : (limit < record_size (k, v) < 2 ^ 64)%Z) :
  ∃ s', chunk_Send (NewStateChunkSender limit) [k] [v] = Ok s' ∧
    receive_chunks b (sent_chunks (chunk_Flush s')) =
      Ok (b, [MkChunk false [k] [v]; MkChunk true [] []]).
Proof.
  unfold chunk_Send. simpl. change (Z.of_nat (length k + length v)) with (record_size (k, v)).
  rewrite (u64_id (record_size (k, v))) by (unfold is_u64; lia). rewrite Z.add_0_l.
  rewrite (u64_id (record_size (k, v))) by (unfold is_u64; lia).
  destruct (Z.ltb_spec limit (record_size (k, v))); [|lia]. by eexists.
Qed.

Lemma oversized_record_lost_witness :
  ∃ s', chunk_Send (NewStateChunkSender 4) [[1; 2]]%Z [[3; 4; 5]]%Z = Ok s' ∧
    receive_chunks NewMemoryStateBackend (sent_chunks (chunk_Flush s')) =
      Ok (NewMemoryStateBackend, [MkChunk false [[1; 2]] [[3; 4; 5]]; MkChunk true [] []])%Z.
Proof.
  apply (oversized_record_lost 4 [1; 2]%Z [3; 4; 5]%Z NewMemoryStateBackend).
  - lia.
  - unfold record_size. simpl. lia.
Defined.
