(* ===== verification/Cluster.v ===== *)
(** * Remote state access: the state services of several workers

    The state service of one worker, [self], and the state communication
    servers of the workers it is connected to: lazy migration of buckets
    (basic and optimized) and remote access without migration.  The client
    side is [state/stateServiceUtil.go] and [state/lazyOptUtils.go], the
    server side [worker/stateCommRpcApi.go].  A request and its response over
    a gRPC stream are the server's handler run on the remote service; the
    goroutines that a call starts for the remote workers and awaits run in any
    order. *)

From stdpp Require Import prelude gmap strings list.
From Stdlib Require Import ZArith Lia.
From S2P Require Import Prelude Partition PartitionTable Backend StateService Chunks.

(** ** State *)

(** [StateService]: the part every protocol uses. *)
Record Service (B : Type) := MkService {
  svc_OperatorID : Z;
  svc_WorkerID : Z;
  svc_Backend : B;
  svc_Table : KeyLookupTable
}.
Arguments MkService {B}.
Arguments svc_OperatorID {B}.
Arguments svc_WorkerID {B}.
Arguments svc_Backend {B}.
Arguments svc_Table {B}.

(** The services by worker id, and the streams of [self] to the others: the
    server end of a stream is a chunk sender, whose sent chunks are the
    messages [self] has not received yet. *)
Record Cluster (B : Type) := MkCluster {
  services : gmap Z (Service B);
  self : Z;
  streams : gmap Z StateChunkSender
}.
Arguments MkCluster {B}.
Arguments services {B}.
Arguments self {B}.
Arguments streams {B}.

(** [m[w][k] = append(m[w][k], x)], with a new inner map where there is none. *)
Definition append_at2 {A} (m : gmap Z (keyed A)) (w k : Z) (x : A) : gmap Z (keyed A) :=
  <[w := append_at (default ∅ (m !! w)) k x]> m.

Section Defs.
Context {B : Type} `{StateBackendOps B} `{GoRange} `{Schedule}.
Implicit Types (cl : Cluster B) (svc : Service B) (keys values : keyed bytes).

Definition service_of cl (w : Z) : res (Service B) :=
  match services cl !! w with
  | Some svc => Ok svc
  | None => Crash (Fatal "Connection not found for worker")
  end.

Definition stream_of cl (w : Z) : res StateChunkSender :=
  match streams cl !! w with
  | Some s => Ok s
  | None => Crash (Fatal "Connection not found for worker")
  end.

Definition set_service_of cl (w : Z) svc : Cluster B :=
  MkCluster (<[w := svc]> (services cl)) (self cl) (streams cl).

Definition set_stream_of cl (w : Z) (s : StateChunkSender) : Cluster B :=
  MkCluster (services cl) (self cl) (<[w := s]> (streams cl)).

Definition with_backend svc (b : B) : Service B :=
  MkService (svc_OperatorID svc) (svc_WorkerID svc) b (svc_Table svc).

Definition with_table svc (t : KeyLookupTable) : Service B :=
  MkService (svc_OperatorID svc) (svc_WorkerID svc) (svc_Backend svc) t.

(** A received [bytes] field is never nil. *)
Definition on_wire (vs : list (option bytes)) : list bytes := default [] <$> vs.

(** ** Lazy-basic: bucket migration *)

(** One bucket of a [RemoteBucketMigration] request. *)
Definition migrate_bucket (source : Z) (st : Service B * StateChunkSender) (bucketIdx : Z)
    : res (Service B * StateChunkSender) :=
  let '(svc, snd) := st in
  w ← BucketIdxToWorkerID (svc_Table svc) bucketIdx;
  fatal_if (negb (w =? svc_WorkerID svc)%Z) "Requested bucket does not belong to the local worker";;
  '(resKeys, resValues) ←
    ReadLocalBucketRange (svc_Backend svc) (svc_OperatorID svc) bucketIdx bucketIdx;
  snd ← chunk_Send snd resKeys resValues;
  t ← ChangeBucketOwner (svc_Table svc) bucketIdx (u16 source);
  Ok (with_table svc t, snd).

(** The server's loop body for one request. *)
Definition RemoteBucketMigration svc (snd : StateChunkSender) (operatorID source : Z)
    (bucketIds : list Z) : res (Service B * StateChunkSender) :=
  fatal_if (negb (operatorID =? svc_OperatorID svc)%Z) "Invalid operator ID";;
  '(svc, snd) ← foldM (migrate_bucket source) (svc, snd) bucketIds;
  Ok (svc, chunk_Flush snd).

Definition migrateRemoteBucketsFromWorker (operatorID : Z) cl (req : Z * list Z) : res (Cluster B) :=
  let '(w, bucketIds) := req in
  stream ← stream_of cl w;
  svc ← service_of cl w;
  '(svc, stream) ← RemoteBucketMigration svc stream operatorID (self cl) bucketIds;
  let cl := set_service_of cl w svc in
  me ← service_of cl (self cl);
  '(b, rest) ← receive_chunks (svc_Backend me) (sent_chunks stream);
  Ok (set_stream_of (set_service_of cl (self cl) (with_backend me b)) w
        (MkSender rest (maxChunkSize stream) (curChunkKeys stream) (curChunkValues stream)
           (curChunkSize stream))).

(** One turn of the grouping loop: the requests by worker and the buckets
    requested so far. *)
Definition request_bucket (me : Service B) (st : keyed Z * gmap Z unit) (bucketID : Z)
    : res (keyed Z * gmap Z unit) :=
  let '(requests, requested) := st in
  w ← BucketIdxToWorkerID (svc_Table me) bucketID;
  if (w =? svc_WorkerID me)%Z then Ok st
  else if bool_decide (is_Some (requested !! bucketID)) then Ok st
  else Ok (append_at requests w bucketID, <[bucketID := tt]> requested).

(** [for bucketID := range ... { ChangeBucketOwner(bucketID, s.WorkerID) }] *)
Definition claim_buckets cl (bucketIDs : list Z) : res (Cluster B) :=
  me ← service_of cl (self cl);
  t ← foldM (λ t b, ChangeBucketOwner t b (svc_WorkerID me)) (svc_Table me) bucketIDs;
  Ok (set_service_of cl (self cl) (with_table me t)).

Definition migrateRemoteBuckets cl (operatorID : Z) (bucketIDs : list Z) : res (Cluster B) :=
  me ← service_of cl (self cl);
  '(requests, requested) ← foldM (request_bucket me) (∅, ∅) bucketIDs;
  if size requests =? 0 then Ok cl
  else
    cl ← foldM (migrateRemoteBucketsFromWorker operatorID) cl (schedule (go_range requests));
    claim_buckets cl (go_range requested).*1.

(** ** Lazy-no-migration: remote access by key *)

(** Reading the keys of one worker, local or remote: a request per state. *)
Definition read_from_worker cl (w : Z) (workerKeys : keyed bytes) : res (keyed (option bytes)) :=
  svc ← service_of cl w;
  if (w =? self cl)%Z then readLocalState (svc_Backend svc) workerKeys
  else
    _ ← stream_of cl w;
    foldM (λ vals '(stateID, ks),
        vs ← sb_GetMany (svc_Backend svc) ks;
        fatal_if (negb (length vs =? length ks)) "Invalid remote read response";;
        Ok (<[stateID := Some <$> on_wire vs]> vals))
      ∅ (go_range workerKeys).

(** The grouping loop of [remoteRead]: keys by worker and state, and the
    positions of each worker's keys in the request. *)
Definition group_read (t : KeyLookupTable) keys (st : gmap Z (keyed bytes) * keyed nat) (x : nat * Z)
    : res (gmap Z (keyed bytes) * keyed nat) :=
  let '(keysByWorker, indexTracker) := st in
  let '(i, bucketID) := x in
  w ← BucketIdxToWorkerID t bucketID;
  workerKeys ← foldM (λ wk '(stateID, keyList), k ← idx keyList i; Ok (append_at wk stateID k))
    (default ∅ (keysByWorker !! w)) (go_range keys);
  Ok (<[w := workerKeys]> keysByWorker, append_at indexTracker w i).

(** Values of one worker and state written to their positions. *)
Definition scatter_values (indices : list nat) (result : list (option bytes))
    (vals : list (option bytes)) : res (list (option bytes)) :=
  foldM (λ result '(i, v), j ← idx indices i; set_idx result j v) result (imap pair vals).

Definition scatter_worker (indexTracker : keyed nat) (result : keyed (option bytes))
    (x : Z * keyed (option bytes)) : res (keyed (option bytes)) :=
  let '(w, workerRes) := x in
  foldM (λ result '(stateID, vals),
      r ← scatter_values (default [] (indexTracker !! w)) (default [] (result !! stateID)) vals;
      Ok (<[stateID := r]> result))
    result (go_range workerRes).

Definition mergeResultsFromAllWorkers keys (resByWorker : gmap Z (keyed (option bytes)))
    (indexTracker : keyed nat) : res (keyed (option bytes)) :=
  foldM (scatter_worker indexTracker)
    ((λ keyList, replicate (length keyList) None) <$> keys : keyed (option bytes))
    (go_range resByWorker).

Definition remoteRead cl keys (bucketIDs : list Z) : res (keyed (option bytes)) :=
  me ← service_of cl (self cl);
  '(keysByWorker, indexTracker) ← foldM (group_read (svc_Table me) keys) (∅, ∅) (imap pair bucketIDs);
  resByWorker ← foldM (λ resByWorker '(w, workerKeys),
      vals ← read_from_worker cl w workerKeys;
      Ok (<[w := vals]> resByWorker))
    ∅ (schedule (go_range keysByWorker));
  mergeResultsFromAllWorkers keys resByWorker indexTracker.

(** The grouping loop of the write requests. *)
Definition group_write (t : KeyLookupTable) values (bucketIDs : keyed Z)
    (st : gmap Z (keyed bytes) * gmap Z (keyed bytes)) (x : Z * list bytes)
    : res (gmap Z (keyed bytes) * gmap Z (keyed bytes)) :=
  let '(stateID, keyList) := x in
  foldM (λ '(keysByWorker, valuesByWorker) '(i, key),
      b ← idx (default [] (bucketIDs !! stateID)) i;
      w ← BucketIdxToWorkerID t b;
      match values !! stateID with
      | None => Crash (Fatal "Values for state ID not found")
      | Some vals =>
          v ← idx vals i;
          Ok (append_at2 keysByWorker w stateID key, append_at2 valuesByWorker w stateID v)
      end)
    st (imap pair keyList).

Definition groupKeysAndValuesByWorker (t : KeyLookupTable) keys values (bucketIDs : keyed Z)
    : res (gmap Z (keyed bytes) * gmap Z (keyed bytes)) :=
  foldM (group_write t values bucketIDs) (∅, ∅) (go_range keys).

(** The write of one worker's keys, to the local backend or through the remote
    server, whose handlers hand the lists to its backend. *)
Definition write_to_worker (f : B → list bytes → list bytes → res B)
    (valuesByWorker : gmap Z (keyed bytes)) cl (x : Z * keyed bytes) : res (Cluster B) :=
  let '(w, workerKeys) := x in
  svc ← service_of cl w;
  _ ← (if (w =? self cl)%Z then Ok tt else _ ← stream_of cl w; Ok tt);
  b ← write_states f
        (if (w =? self cl)%Z then "Values for state ID not found" else "Missing values for state ID")
        (svc_Backend svc) workerKeys (default ∅ (valuesByWorker !! w));
  Ok (set_service_of cl w (with_backend svc b)).

Definition remote_write (f : B → list bytes → list bytes → res B) cl keys values (bucketIDs : keyed Z)
    : res (Cluster B) :=
  me ← service_of cl (self cl);
  '(keysByWorker, valuesByWorker) ← groupKeysAndValuesByWorker (svc_Table me) keys values bucketIDs;
  foldM (write_to_worker f valuesByWorker) cl (schedule (go_range keysByWorker)).

Definition remoteOverwrite := remote_write sb_SetMany.
Definition remoteMerge := remote_write sb_MergeMany.

Definition group_delete (t : KeyLookupTable) (bucketIDs : keyed Z)
    (st : gmap Z (keyed bytes)) (x : Z * list bytes) : res (gmap Z (keyed bytes)) :=
  let '(stateID, keyList) := x in
  foldM (λ keysByWorker '(i, key),
      b ← idx (default [] (bucketIDs !! stateID)) i;
      w ← BucketIdxToWorkerID t b;
      Ok (append_at2 keysByWorker w stateID key))
    st (imap pair keyList).

Definition delete_from_worker cl (x : Z * keyed bytes) : res (Cluster B) :=
  let '(w, workerKeys) := x in
  svc ← service_of cl w;
  _ ← (if (w =? self cl)%Z then Ok tt else _ ← stream_of cl w; Ok tt);
  b ← deleteLocalState (svc_Backend svc) workerKeys;
  Ok (set_service_of cl w (with_backend svc b)).

Definition remoteDelete cl keys (bucketIDs : keyed Z) : res (Cluster B) :=
  me ← service_of cl (self cl);
  keysByWorker ← foldM (group_delete (svc_Table me) bucketIDs) ∅ (go_range keys);
  foldM delete_from_worker cl (schedule (go_range keysByWorker)).

(** ** Lazy-optimized: reads with background bucket migration *)

(** One bucket of an optimized request: the keys already sent as the response
    to the read are left out. *)
Definition migrate_bucket_async (source : Z) (transferredKeys : gset bytes)
    (st : Service B * StateChunkSender) (bucketId : Z) : res (Service B * StateChunkSender) :=
  let '(svc, snd) := st in
  '(resKeys, resValues) ←
    ReadLocalBucketRange (svc_Backend svc) (svc_OperatorID svc) bucketId bucketId;
  '(resKeys, resValues) ← DedupStates resKeys resValues transferredKeys;
  snd ← chunk_Send snd resKeys resValues;
  t ← ChangeBucketOwner (svc_Table svc) bucketId (u16 source);
  Ok (with_table svc t, snd).

(** The server's loop body: the values of the requested keys, then the rest of
    the buckets through the stream. *)
Definition RemoteAsyncBucketMigration svc (sender : StateChunkSender) (operatorID source : Z)
    (stateKeyLists : list (Z * list bytes)) (bucketIds : list Z)
    : res (Service B * StateChunkSender * list (Z * list (option bytes))) :=
  fatal_if (negb (operatorID =? svc_OperatorID svc)%Z) "Invalid operator ID";;
  stateValueLists ← mapR (λ '(stateId, ks), vs ← sb_GetMany (svc_Backend svc) ks; Ok (stateId, vs))
    stateKeyLists;
  let transferredKeys : gset bytes := list_to_set (stateKeyLists ≫= snd) in
  foldM (λ _ bucketId,
      w ← BucketIdxToWorkerID (svc_Table svc) bucketId;
      fatal_if (negb (w =? svc_WorkerID svc)%Z)
        "Requested bucket does not belong to the local worker") tt bucketIds;;
  '(svc, sender) ← foldM (migrate_bucket_async source transferredKeys) (svc, sender) (schedule bucketIds);
  Ok (svc, chunk_Flush sender, stateValueLists).

(** [self] first receives the values, then the chunks; chunks left over from an
    earlier request are not what it expects. *)
Definition asyncStateFetchExecutor (operatorID : Z) cl (w : Z) (workerKeys : keyed bytes)
    (bucketIds : gmap Z unit) : res (Cluster B * keyed (option bytes)) :=
  stream ← stream_of cl w;
  svc ← service_of cl w;
  let stateKeyLists := go_range workerKeys in
  let bucketIdList := (go_range bucketIds).*1 in
  fatal_if (negb (length (sent_chunks stream) =? 0)) "Unexpected async state fetch response type";;
  '(svc, stream, lists) ←
    RemoteAsyncBucketMigration svc stream operatorID (self cl) stateKeyLists bucketIdList;
  let vals : keyed (option bytes) :=
    foldl (λ m e, <[e.1 := Some <$> on_wire e.2]> m) ∅ lists in
  let cl := set_service_of cl w svc in
  me ← service_of cl (self cl);
  b ← foldM (λ b '(stateId, keyList),
        sb_SetMany b keyList (on_wire (default [] (vals !! stateId))))
      (svc_Backend me) (schedule (go_range workerKeys));
  '(b, rest) ← receive_chunks_async b (sent_chunks stream);
  let cl := set_stream_of (set_service_of cl (self cl) (with_backend me b)) w
              (MkSender rest (maxChunkSize stream) (curChunkKeys stream) (curChunkValues stream)
                 (curChunkSize stream)) in
  cl ← claim_buckets cl bucketIdList;
  Ok (cl, vals).

(** The buckets a worker is asked for are those of the keys it is asked for. *)
Definition group_buckets_by_worker (me : Service B) (st : gmap Z (gmap Z unit)) (bucketID : Z)
    : res (gmap Z (gmap Z unit)) :=
  w ← BucketIdxToWorkerID (svc_Table me) bucketID;
  if (w =? svc_WorkerID me)%Z then Ok st
  else Ok (<[w := <[bucketID := tt]> (default ∅ (st !! w))]> st).

Definition groupKeysAndBucketsByWorker (me : Service B) keys (bucketIDs : list Z)
    : res (gmap Z (keyed bytes) * keyed nat * gmap Z (gmap Z unit)) :=
  '(keysByWorker, indexTracker) ← foldM (group_read (svc_Table me) keys) (∅, ∅) (imap pair bucketIDs);
  bucketsByWorker ← foldM (group_buckets_by_worker me) ∅ bucketIDs;
  Ok (keysByWorker, indexTracker, bucketsByWorker).

Definition remoteReadWithAsyncBucketMigration cl (operatorID : Z) keys (bucketIDs : list Z)
    : res (Cluster B * keyed (option bytes)) :=
  me ← service_of cl (self cl);
  '(keysByWorker, indexTracker, bucketsByWorker) ← groupKeysAndBucketsByWorker me keys bucketIDs;
  '(cl, resByWorker) ← foldM (λ '(cl, resByWorker) '(w, workerKeys),
      '(cl, vals) ← (if (w =? svc_WorkerID me)%Z
                     then svc ← service_of cl w; vals ← readLocalState (svc_Backend svc) workerKeys; Ok (cl, vals)
                     else asyncStateFetchExecutor operatorID cl w workerKeys (default ∅ (bucketsByWorker !! w)));
      Ok (cl, <[w := vals]> resByWorker))
    (cl, ∅) (schedule (go_range keysByWorker));
  vals ← mergeResultsFromAllWorkers keys resByWorker indexTracker;
  Ok (cl, vals).
End Defs.
