(* ===== verification/NoMigration.v ===== *)
(** * Well-formed clusters and remote access without migration

    What makes a cluster serve an operator ([cluster_wf]), the value a key has
    in it ([cluster_value]: the owner's), and the lazy protocol without
    migration as an implementation of the state service's contract. *)

From stdpp Require Import prelude gmap strings list.
From Stdlib Require Import ZArith Lia.
From S2P Require Import Prelude Partition PartitionTable Backend StateService Chunks Cluster.

(** ** Owners *)

(** The bucket a key carries. *)
Definition key_bucket (k : bytes) : nat := Z.to_nat (be_decode (take 4 (drop 2 k))).

Lemma key_bucket_at op n k b : key_at op n k b → (n ≤ 2 ^ 32)%Z → key_bucket k = Z.to_nat b.
Proof.
  intros [Hb [rest ->]] Hn. unfold key_bucket. rewrite drop_app_length' by by rewrite length_be_encode.
  rewrite take_app_length' by by rewrite length_be_encode.
  by rewrite be_decode_encode32 by (unfold is_u32; lia).
Qed.

Lemma key_at_inj op n k b b' : key_at op n k b → key_at op n k b' → (n ≤ 2 ^ 32)%Z → b = b'.
Proof.
  intros H1 H2 Hn. pose proof (key_bucket_at _ _ _ _ H1 Hn) as E1.
  pose proof (key_bucket_at _ _ _ _ H2 Hn) as E2. destruct H1 as [? _], H2 as [? _]. lia.
Qed.

(** A table all of whose buckets are set. *)
Definition table_owners (t : KeyLookupTable) (owners : list Z) : Prop :=
  klt_Buckets t = mkBucket <$> owners.

Lemma BucketIdxToWorkerID_Ok t owners b w :
  table_owners t owners → (0 ≤ b)%Z → owners !! Z.to_nat b = Some w → BucketIdxToWorkerID t b = Ok w.
Proof.
  intros Ht Hb Hw. pose proof (lookup_lt_Some _ _ _ Hw). unfold BucketIdxToWorkerID.
  rewrite !Ht, length_fmap.
  replace ((b <? 0) || (Z.of_nat (length owners) <=? b))%Z with false by lia. rewrite bind_fatal_false.
  assert (idxZ (mkBucket <$> owners) b = Ok (mkBucket w)) as ->; [|done].
  apply idxZ_Ok. split; [done|]. by rewrite list_lookup_fmap, Hw.
Qed.

Lemma ChangeBucketOwner_Ok t owners b w :
  table_owners t owners → (0 ≤ b < Z.of_nat (length owners))%Z →
  ∃ t', ChangeBucketOwner t b w = Ok t' ∧ table_owners t' (<[Z.to_nat b := w]> owners).
Proof.
  intros Ht Hb. unfold ChangeBucketOwner. rewrite !Ht, length_fmap.
  replace ((b <? 0) || (Z.of_nat (length owners) <=? b))%Z with false by lia. rewrite bind_fatal_false.
  destruct (lookup_lt_is_Some_2 owners (Z.to_nat b)) as [w0 Hw0]; [lia|].
  assert (idxZ (mkBucket <$> owners) b = Ok (mkBucket w0)) as ->.
  { apply idxZ_Ok. split; [lia|]. by rewrite list_lookup_fmap, Hw0. }
  assert (set_idxZ (mkBucket <$> owners) b (mkBucket w) = Ok (mkBucket <$> <[Z.to_nat b:=w]> owners)) as Hs.
  { apply set_idxZ_Ok. rewrite length_fmap, list_fmap_insert. split_and!; [lia|lia|done]. }
  simpl. rewrite Hs. simpl. eexists. split; [done|]. reflexivity.
Qed.

(** ** Well-formed clusters *)

Section Wf.
Context `{StateBackendLaws B}.
Implicit Types (cl : Cluster B) (svc : Service B).

(** [owners] is the table of [self]: every owner is a service [self] is
    connected to, and the stores hold keys of the operator only. *)
Record cluster_wf (op n : Z) (owners : list Z) cl : Prop := {
  wf_op : is_u16 op;
  wf_n : (0 < n < 2 ^ 32)%Z;
  wf_len : length owners = Z.to_nat n;
  wf_u16 : is_u16 (self cl);
  wf_self : ∃ me, services cl !! self cl = Some me ∧ table_owners (svc_Table me) owners;
  wf_svc : ∀ w svc, services cl !! w = Some svc →
    svc_WorkerID svc = w ∧ svc_OperatorID svc = op ∧ backend_ok (svc_Backend svc);
  wf_owner : ∀ i w, owners !! i = Some w →
    is_Some (services cl !! w) ∧ (w ≠ self cl → is_Some (streams cl !! w));
  wf_keys : ∀ w svc k v, services cl !! w = Some svc → data_of (svc_Backend svc) !! k = Some v →
    ∃ b, key_at op n k b
}.

(** What the store of a worker holds for a key. *)
Definition value_at cl (w : Z) (k : bytes) : bytes :=
  match services cl !! w with
  | Some svc => default [] (data_of (svc_Backend svc) !! k)
  | None => []
  end.

Definition owners_of cl : list Z :=
  match services cl !! self cl with
  | Some me => omap (λ b, match b with Some (MkBucket w) => Some w | None => None end) (klt_Buckets (svc_Table me))
  | None => []
  end.

Definition owner_at (owners : list Z) (b : Z) : Z := default 0%Z (owners !! Z.to_nat b).

(** A key's value is what its owner holds. *)
Definition cluster_value cl (k : bytes) : bytes :=
  match owners_of cl !! key_bucket k with
  | Some w => value_at cl w k
  | None => []
  end.

Section Facts.
Context {op n : Z} {owners : list Z} {cl : Cluster B} (Hwf : cluster_wf op n owners cl).

Lemma owners_of_wf : owners_of cl = owners.
Proof.
  destruct (wf_self _ _ _ _ Hwf) as (me & Hme & Ht). unfold owners_of. rewrite Hme, Ht.
  clear. induction owners as [|w ws IH]; [done|]. simpl. by f_equal.
Qed.

Lemma owner_lookup b : (0 ≤ b < n)%Z → owners !! Z.to_nat b = Some (owner_at owners b).
Proof.
  intros Hb. unfold owner_at. destruct (lookup_lt_is_Some_2 owners (Z.to_nat b)) as [w Hw].
  - rewrite (wf_len _ _ _ _ Hwf). lia.
  - by rewrite Hw.
Qed.

Lemma owner_found me b :
  services cl !! self cl = Some me → (0 ≤ b < n)%Z →
  BucketIdxToWorkerID (svc_Table me) b = Ok (owner_at owners b).
Proof.
  intros Hme Hb. destruct (wf_self _ _ _ _ Hwf) as (me' & Hme' & Ht).
  assert (me' = me) as -> by congruence. eapply BucketIdxToWorkerID_Ok; [done|lia|].
  by apply owner_lookup.
Qed.

Lemma cluster_value_at k b :
  key_at op n k b → cluster_value cl k = value_at cl (owner_at owners b) k.
Proof.
  intros Hk. unfold cluster_value. rewrite owners_of_wf.
  rewrite (key_bucket_at op n k b) by (done || pose proof (wf_n _ _ _ _ Hwf); lia).
  rewrite owner_lookup; [done|]. by destruct Hk.
Qed.

Lemma owner_service b : (0 ≤ b < n)%Z → ∃ svc, services cl !! owner_at owners b = Some svc ∧
  svc_WorkerID svc = owner_at owners b ∧ svc_OperatorID svc = op ∧ backend_ok (svc_Backend svc).
Proof.
  intros Hb. destruct (wf_owner _ _ _ _ Hwf _ _ (owner_lookup b Hb)) as [[svc Hsvc] _].
  exists svc. split; [done|]. by apply (wf_svc _ _ _ _ Hwf).
Qed.

Lemma service_of_Ok w svc : services cl !! w = Some svc → service_of cl w = Ok svc.
Proof. intros Hw. unfold service_of. by rewrite Hw. Qed.

(** A key no store can hold has no value. *)
Lemma cluster_value_other k : (∀ b, ¬ key_at op n k b) → cluster_value cl k = [].
Proof.
  intros Hk. unfold cluster_value. destruct (_ !! key_bucket k) as [w|]; [|done].
  unfold value_at. destruct (services cl !! w) as [svc|] eqn:E; [|done].
  destruct (data_of (svc_Backend svc) !! k) eqn:E'; [|done].
  by destruct (wf_keys _ _ _ _ Hwf _ _ _ _ E E') as [b ?%Hk].
Qed.
End Facts.
End Wf.

(** ** Grouping by owner: reads *)

(** The positions whose bucket belongs to a worker. *)
Definition positions (owners : list Z) (w : Z) (bids : list Z) : list nat :=
  (filter (λ x : nat * Z, owner_at owners x.2 = w) (imap pair bids)).*1.

Definition pick {A} (l : list A) (ps : list nat) : list A := omap (l !!.) ps.

Definition nonempty {A} (l : list A) : option (list A) := match l with [] => None | _ => Some l end.

Lemma elem_of_positions owners w bids i :
  i ∈ positions owners w bids ↔ ∃ b, bids !! i = Some b ∧ owner_at owners b = w.
Proof.
  unfold positions. rewrite list_elem_of_fmap. split.
  - intros ([j b] & -> & [Hw Hin]%list_elem_of_filter). apply elem_of_lookup_imap in Hin as (j' & b' & [= -> ->] & Hb).
    eauto.
  - intros (b & Hb & Hw). exists (i, b). split; [done|]. apply list_elem_of_filter. split; [done|].
    apply elem_of_lookup_imap. eauto.
Qed.

Lemma positions_snoc owners w bids b :
  positions owners w (bids ++ [b]) =
  positions owners w bids ++ (if decide (owner_at owners b = w) then [length bids] else []).
Proof.
  unfold positions. rewrite imap_app, filter_app, fmap_app. simpl. f_equal.
  rewrite filter_cons, Nat.add_0_r. simpl. by case_decide.
Qed.

Lemma pick_snoc {A} (l : list A) ps i x : l !! i = Some x → pick l (ps ++ [i]) = pick l ps ++ [x].
Proof. intros Hi. unfold pick. rewrite omap_app. simpl. by rewrite Hi. Qed.

Lemma nonempty_snoc {A} (l : list A) x : nonempty (l ++ [x]) = Some (l ++ [x]).
Proof. by destruct l. Qed.

Lemma default_nonempty {A} (l : list A) : default [] (nonempty l) = l.
Proof. by destruct l. Qed.

(** A loop over the entries of a map that are processed in any order. *)
Lemma schedule_modify `{GoRange} `{Schedule} {K A C} `{Countable K}
    (g : K → A → option C → res C) (h : K → A → option C → C) (m : gmap K A) (m0 : gmap K C) :
  (∀ k x, m !! k = Some x → g k x (m0 !! k) = Ok (h k x (m0 !! k))) →
  ∃ r : gmap K C,
    foldM (λ acc '(k, x), y ← g k x (acc !! k); Ok (<[k := y]> acc)) m0 (schedule (go_range m)) = Ok r ∧
    ∀ k, r !! k = match m !! k with Some x => Some (h k x (m0 !! k)) | None => m0 !! k end.
Proof.
  intros Hg. destruct (foldM_modify g m0 (schedule (go_range m))) as (m' & Hm' & Hin & Hout).
  - rewrite schedule_perm. apply NoDup_go_range.
  - intros k x. rewrite schedule_perm, elem_of_go_range. eauto.
  - exists m'. split; [done|]. intros k. destruct (m !! k) as [x|] eqn:E.
    + destruct (Hin k x) as (y & Hy & ->); [by rewrite schedule_perm, elem_of_go_range|].
      rewrite Hg in Hy by done. congruence.
    + rewrite Hout; [done|]. rewrite schedule_perm, go_range_keys, E. by intros [? [=]].
Qed.

Section GroupRead.
Context `{GoRange} (op n : Z) (owners : list Z) (t : KeyLookupTable).
Context (Hfind : ∀ b, (0 ≤ b < n)%Z → BucketIdxToWorkerID t b = Ok (owner_at owners b)).
Implicit Types (keys : keyed bytes) (bids : list Z).

(** The keys of one position are appended to the lists of its worker. *)
Lemma append_position keys (wk : keyed bytes) i :
  (∀ id kl, keys !! id = Some kl → i < length kl) →
  ∃ wk', foldM (λ wk '(stateID, keyList), k ← idx keyList i; Ok (append_at wk stateID k)) wk (go_range keys)
      = Ok wk' ∧
    ∀ id, wk' !! id = match keys !! id with
      | Some kl => Some (default [] (wk !! id) ++ pick kl [i]) | None => wk !! id end.
Proof.
  intros Hi.
  destruct (range_modify (λ _ kl old, k ← idx kl i; Ok (default [] old ++ [k]))
    (λ _ kl old, default [] old ++ pick kl [i]) keys wk) as (wk' & Hrun & Hspec).
  { intros id kl Hkl. destruct (lookup_lt_is_Some_2 kl i) as [k Hk]; [eauto|].
    rewrite (proj2 (idx_Ok _ _ _) Hk), bind_Ok. unfold pick. simpl. by rewrite Hk. }
  exists wk'. split; [|done]. rewrite <-Hrun. apply foldM_ext. intros m [id kl] _.
  by destruct (idx kl i).
Qed.

Lemma group_read_Ok keys bids :
  Forall (λ b, 0 ≤ b < n)%Z bids → (∀ id kl, keys !! id = Some kl → length kl = length bids) →
  ∃ KBW IT, foldM (group_read t keys) (∅, ∅) (imap pair bids) = Ok (KBW, IT) ∧
    ∀ w, KBW !! w = (λ ps, (λ kl, pick kl ps) <$> keys) <$> nonempty (positions owners w bids) ∧
         IT !! w = nonempty (positions owners w bids).
Proof.
  intros Hb Hlen.
  cut (∀ pre suf, bids = pre ++ suf →
    ∃ KBW IT, foldM (group_read t keys) (∅, ∅) (imap pair pre) = Ok (KBW, IT) ∧
    ∀ w, KBW !! w = (λ ps, (λ kl, pick kl ps) <$> keys) <$> nonempty (positions owners w pre) ∧
         IT !! w = nonempty (positions owners w pre)).
  { intros Hcut. apply (Hcut bids []). by rewrite app_nil_r. }
  induction pre as [|b pre IH] using rev_ind; intros suf Hsuf.
  { exists ∅, ∅. split; [done|]. intros w. by rewrite !lookup_empty. }
  destruct (IH (b :: suf)) as (KBW & IT & Hrun & Hspec); [by rewrite <-app_assoc in Hsuf|].
  rewrite imap_app, foldM_app, Hrun, bind_Ok. cbn [imap foldM]. simpl. rewrite Nat.add_0_r.
  rewrite Hfind, bind_Ok.
  2:{ rewrite Forall_lookup in Hb. apply (Hb (length pre)). rewrite Hsuf, <-app_assoc. by apply list_lookup_middle. }
  destruct (Hspec (owner_at owners b)) as [HK HI].
  destruct (append_position keys (default ∅ (KBW !! owner_at owners b)) (length pre)) as (wk' & -> & Hwk).
  { intros id kl Hkl. rewrite (Hlen id kl Hkl), Hsuf, !length_app. simpl. lia. }
  rewrite !bind_Ok. eexists _, _. split; [done|]. intros w. rewrite positions_snoc.
  destruct (decide (owner_at owners b = w)) as [<-|Hw].
  - rewrite lookup_insert_eq, append_at_lookup, decide_True, nonempty_snoc, HI, default_nonempty by done.
    split; [|done]. simpl. f_equal. apply map_eq. intros id. rewrite Hwk, lookup_fmap.
    destruct (keys !! id) as [kl|] eqn:Ekl; simpl.
    + f_equal. unfold pick. rewrite omap_app. f_equal. rewrite HK.
      destruct (positions owners (owner_at owners b) pre); simpl; [by rewrite lookup_empty|].
      by rewrite lookup_fmap, Ekl.
    + rewrite HK. destruct (positions _ _ pre); simpl; [done|]. by rewrite lookup_fmap, Ekl.
  - rewrite lookup_insert_ne, append_at_lookup, decide_False, app_nil_r by congruence. apply Hspec.
Qed.
End GroupRead.

(** Writing fetched values to their positions. *)
Lemma scatter_values_at {A} (f : A → option bytes) (kl : list A) ps r :
  length r = length kl → (∀ i, i ∈ ps → i < length kl) →
  ∃ r', scatter_values ps r (f <$> pick kl ps) = Ok r' ∧ length r' = length kl ∧
    ∀ j, r' !! j = if decide (j ∈ ps) then f <$> kl !! j else r !! j.
Proof.
  intros Hr Hps. destruct (fill_at f kl ps r Hr Hps) as (r' & Hrun & Hlen & Hspec).
  exists r'. split_and!; [|done..]. rewrite <-Hrun. unfold scatter_values.
  cut (∀ suf pre r, ps = pre ++ suf →
    foldM (λ result '(i, v), j ← idx ps i; set_idx result j v) r
      (imap (λ i v, (length pre + i, v)) (f <$> pick kl suf)) =
    foldM (λ result j, k ← idx kl j; set_idx result j (f k)) r suf).
  { intros Hcut. apply (Hcut ps [] r). done. }
  clear r r' Hr Hrun Hlen Hspec. induction suf as [|i suf IH]; intros pre r Hpre; [done|].
  destruct (lookup_lt_is_Some_2 kl i) as [k Hk]; [apply Hps; rewrite Hpre; set_solver|].
  unfold pick. simpl. rewrite Hk. simpl. rewrite Nat.add_0_r.
  assert (ps !! length pre = Some i) as Hi by (rewrite Hpre; by apply list_lookup_middle).
  rewrite (proj2 (idx_Ok _ _ _) Hi), (proj2 (idx_Ok _ _ _) Hk), !bind_Ok.
  destruct (set_idx r i (f k)) as [r'|]; [|done]. rewrite !bind_Ok.
  rewrite <-(IH (pre ++ [i]) r') by by rewrite <-app_assoc.
  f_equal. apply imap_ext. intros j v _. simpl. rewrite length_app. simpl. f_equal. lia.
Qed.

Section Read.
Context `{GoRange} `{Schedule} `{StateBackendLaws B}.
Implicit Types (cl : Cluster B) (svc : Service B) (keys : keyed bytes) (bids : list Z).

(** What reading a key from a worker returns: a received value is never nil. *)
Definition read_at cl (w : Z) (k : bytes) : option bytes :=
  match services cl !! w with
  | Some svc => if (w =? self cl)%Z then data_of (svc_Backend svc) !! k
                else Some (default [] (data_of (svc_Backend svc) !! k))
  | None => None
  end.

Lemma read_at_value cl w k : default [] (read_at cl w k) = value_at cl w k.
Proof. unfold read_at, value_at. destruct (services cl !! w); [|done]. by destruct (_ =? _)%Z. Qed.

Lemma read_from_worker_Ok cl w svc (wk : keyed bytes) :
  services cl !! w = Some svc → backend_ok (svc_Backend svc) →
  (w ≠ self cl → is_Some (streams cl !! w)) →
  read_from_worker cl w wk = Ok ((λ ks : list bytes, read_at cl w <$> ks) <$> wk : keyed (option bytes)).
Proof.
  intros Hw Hb Hs. unfold read_from_worker, service_of, read_at. rewrite Hw, bind_Ok.
  destruct (Z.eqb_spec w (self cl)) as [->|Hne]; [by rewrite readLocalState_Ok|].
  destruct (Hs Hne) as [s Hs']. unfold stream_of. rewrite Hs', bind_Ok.
  destruct (range_modify
    (λ _ ks (_ : option (list (option bytes))), Ok (Some <$> on_wire (read_all (data_of (svc_Backend svc)) ks)))
    (λ _ ks _, Some <$> on_wire (read_all (data_of (svc_Backend svc)) ks)) wk ∅) as (r & Hrun & Hr); [done|].
  transitivity (Ok r).
  - rewrite <-Hrun. apply foldM_ext. intros m [id ks] _. rewrite GetMany_law, bind_Ok by done.
    unfold read_all. rewrite length_fmap, Nat.eqb_refl. done.
  - f_equal. apply map_eq. intros id. rewrite Hr, lookup_fmap, lookup_empty.
    destruct (wk !! id) as [ks|]; [|done]. simpl. f_equal. unfold on_wire, read_all.
    by rewrite <-!list_fmap_compose.
Qed.

(** The values of one worker go to the positions of its keys. *)
Lemma scatter_worker_Ok (f : bytes → option bytes) keys (IT : keyed nat) w ps (result : keyed (option bytes)) :
  IT !! w = Some ps →
  (∀ id kl, keys !! id = Some kl → ∃ r, result !! id = Some r ∧ length r = length kl ∧
     ∀ i, i ∈ ps → i < length kl) →
  ∃ result', scatter_worker IT result (w, (λ kl : list bytes, f <$> pick kl ps) <$> keys) = Ok result' ∧
    (∀ id, keys !! id = None → result' !! id = result !! id) ∧
    ∀ id kl r, keys !! id = Some kl → result !! id = Some r → ∃ r', result' !! id = Some r' ∧
      length r' = length kl ∧ ∀ j, r' !! j = if decide (j ∈ ps) then f <$> kl !! j else r !! j.
Proof.
  intros HIT Hres. unfold scatter_worker. rewrite HIT. simpl.
  set (wr := _ <$> keys : keyed (option bytes)).
  destruct (foldM_modify (λ _ vals old, scatter_values ps (default [] old) vals) result (go_range wr))
    as (result' & Hrun & Hin & Hout).
  - apply NoDup_go_range.
  - intros id vals. rewrite elem_of_go_range. unfold wr. rewrite lookup_fmap_Some.
    intros (kl & <- & Hkl). destruct (Hres id kl Hkl) as (r & Hr & Hlen & Hps). rewrite Hr. simpl.
    destruct (scatter_values_at f kl ps r Hlen Hps) as (r' & Hrun & _). eauto.
  - exists result'. split; [exact Hrun|]. split.
    + intros id Hid. apply Hout. rewrite go_range_keys. unfold wr. rewrite lookup_fmap, Hid. by intros [? [=]].
    + intros id kl r Hkl Hr. destruct (Hin id (f <$> pick kl ps)) as (r' & Hs & Hr').
      { rewrite elem_of_go_range. unfold wr. by rewrite lookup_fmap, Hkl. }
      destruct (Hres id kl Hkl) as (r0 & Hr0 & Hlen & Hps). assert (r0 = r) as -> by congruence.
      rewrite Hr in Hs. simpl in Hs.
      destruct (scatter_values_at f kl ps r Hlen Hps) as (r1 & Hrun1 & Hlen1 & Hspec).
      assert (r1 = r') as -> by congruence. eauto.
Qed.

(** What is known of the result after the values of some workers are in. *)
Definition merged (rd : Z → bytes → option bytes) owners keys bids (ws : list Z) (result : keyed (option bytes)) : Prop :=
  (∀ id, keys !! id = None → result !! id = None) ∧
  ∀ id kl, keys !! id = Some kl → ∃ r, result !! id = Some r ∧ length r = length kl ∧
    ∀ i k b, kl !! i = Some k → bids !! i = Some b → owner_at owners b ∈ ws → r !! i = Some (rd (owner_at owners b) k).

Lemma mergeResults_Ok (rd : Z → bytes → option bytes) owners keys bids (RBW : gmap Z (keyed (option bytes))) (IT : keyed nat) :
  (∀ id kl, keys !! id = Some kl → length kl = length bids) →
  (∀ w, RBW !! w = (λ ps, (λ kl : list bytes, rd w <$> pick kl ps) <$> keys) <$> nonempty (positions owners w bids)) →
  (∀ w, IT !! w = nonempty (positions owners w bids)) →
  mergeResultsFromAllWorkers keys RBW IT =
    Ok ((λ kl, zip_with (λ k b, rd (owner_at owners b) k) kl bids) <$> keys).
Proof.
  intros Hlen HR HI. unfold mergeResultsFromAllWorkers.
  destruct (foldM_total (scatter_worker IT) (λ l, merged rd owners keys bids l.*1) (go_range RBW)
    ((λ keyList, replicate (length keyList) None) <$> keys)) as (result & -> & Hnone & Hsome).
  - split; [intros id Hid; by rewrite lookup_fmap, Hid|]. intros id kl Hkl. rewrite lookup_fmap, Hkl.
    eexists. split; [done|]. split; [by rewrite length_replicate|]. set_solver.
  - intros l [w wr] result Hpre [Hnone Hsome].
    assert (RBW !! w = Some wr) as Hw.
    { rewrite <-elem_of_go_range. destruct Hpre as [suf ->]. set_solver. }
    rewrite HR in Hw. destruct (nonempty _) as [ps|] eqn:Hps; [|done]. injection Hw as <-.
    assert (Hpos : ∀ i, i ∈ ps ↔ ∃ b, bids !! i = Some b ∧ owner_at owners b = w).
    { intros i. rewrite <-elem_of_positions. by destruct (positions owners w bids); simplify_eq/=. }
    destruct (scatter_worker_Ok (rd w) keys IT w ps result) as (result' & -> & Hnone' & Hsome').
    { by rewrite HI. }
    { intros id kl Hkl. destruct (Hsome id kl Hkl) as (r & Hr & Hl & _). exists r. split_and!; [done..|].
      intros i (b & Hb & _)%Hpos. rewrite (Hlen id kl Hkl). by eapply lookup_lt_Some. }
    eexists. split; [done|]. split; [intros id Hid; rewrite Hnone' by done; eauto|].
    intros id kl Hkl. destruct (Hsome id kl Hkl) as (r & Hr & Hl & Hin).
    destruct (Hsome' id kl r Hkl Hr) as (r' & Hr' & Hl' & Hspec). exists r'. split_and!; [done..|].
    intros i k b Hk Hb How. rewrite Hspec. rewrite fmap_app in How. simpl in How.
    case_decide as Hi.
    + apply Hpos in Hi as (b' & Hb' & Hw'). assert (b' = b) as -> by congruence. by rewrite Hk, Hw'.
    + apply (Hin i k b Hk Hb). apply elem_of_app in How as [?|Hw%list_elem_of_singleton]; [done|].
      destruct Hi. apply Hpos. eauto.
  - f_equal. apply map_eq. intros id. rewrite lookup_fmap. destruct (keys !! id) as [kl|] eqn:Hkl; [|by apply Hnone].
    destruct (Hsome id kl Hkl) as (r & -> & Hl & Hin). simpl. f_equal. apply list_eq. intros i.
    rewrite lookup_zip_with. destruct (kl !! i) as [k|] eqn:Hk; simpl.
    2:{ apply lookup_ge_None in Hk. apply lookup_ge_None. lia. }
    destruct (lookup_lt_is_Some_2 bids i) as [b Hb].
    { rewrite <-(Hlen id kl Hkl). by eapply lookup_lt_Some. }
    rewrite Hb. simpl. apply (Hin i k b Hk Hb). rewrite go_range_keys, HR.
    assert (i ∈ positions owners (owner_at owners b) bids) as Hpi by (rewrite elem_of_positions; eauto).
    destruct (positions _ _ bids); [by apply not_elem_of_nil in Hpi|]. simpl. eauto.
Qed.

(** A read returns what the owners hold. *)
Lemma remoteRead_Ok op n owners cl keys bids :
  cluster_wf op n owners cl → Forall (λ b, 0 ≤ b < n)%Z bids →
  (∀ id kl, keys !! id = Some kl → length kl = length bids) →
  remoteRead cl keys bids =
    Ok ((λ kl, zip_with (λ k b, read_at cl (owner_at owners b) k) kl bids) <$> keys).
Proof.
  intros Hwf Hb Hlen. destruct (wf_self _ _ _ _ Hwf) as (me & Hme & Ht).
  unfold remoteRead. rewrite (service_of_Ok _ _ Hme), bind_Ok.
  destruct (group_read_Ok n owners (svc_Table me) (λ b Hb, owner_found Hwf me b Hme Hb) keys bids Hb Hlen)
    as (KBW & IT & -> & HK). rewrite bind_Ok.
  set (res w wk := ((λ ks : list bytes, read_at cl w <$> ks) <$> wk : keyed (option bytes))).
  destruct (schedule_modify (λ w wk _, read_from_worker cl w wk) (λ w wk _, res w wk) KBW ∅) as (RBW & Hrun & HR).
  { intros w wk. rewrite (proj1 (HK w)).
    destruct (positions owners w bids) as [|i ps] eqn:Hps; [done|]. simpl. intros [= <-].
    assert (i ∈ positions owners w bids) as (b & Hbi & <-)%elem_of_positions by (rewrite Hps; by left).
    assert (0 ≤ b < n)%Z as Hbn by (rewrite Forall_lookup in Hb; eauto).
    destruct (owner_service Hwf b Hbn) as (svc & Hsvc & _ & _ & Hok).
    apply (read_from_worker_Ok cl _ svc); [done..|].
    apply (proj2 (wf_owner _ _ _ _ Hwf _ _ (owner_lookup Hwf b Hbn))). }
  rewrite Hrun, bind_Ok. apply mergeResults_Ok; [done| |by intros w; apply HK].
  intros w. rewrite HR, lookup_empty, (proj1 (HK w)). destruct (nonempty _) as [ps|]; [|done].
  simpl. f_equal. unfold res. by rewrite <-map_fmap_compose.
Qed.
End Read.

(** ** Grouping by owner: writes *)

(** The elements whose bucket belongs to a worker. *)
Definition select {A} (owners : list Z) (w : Z) (xs : list A) (bs : list Z) : list A :=
  (filter (λ p : A * Z, owner_at owners p.2 = w) (zip xs bs)).*1.

Definition at2 {A} (m : gmap Z (keyed A)) (w id : Z) : option (list A) := m !! w ≫= (.!! id).

Lemma append_at2_lookup {A} (m : gmap Z (keyed A)) w id x w' id' :
  at2 (append_at2 m w id x) w' id' =
    if decide (w' = w ∧ id' = id) then Some (default [] (at2 m w id) ++ [x]) else at2 m w' id'.
Proof.
  unfold at2, append_at2. destruct (decide (w' = w)) as [->|Hw].
  - rewrite lookup_insert_eq. simpl. rewrite append_at_lookup. destruct (m !! w) as [m'|]; simpl.
    + destruct (decide (id' = id)); [by rewrite decide_True|by rewrite decide_False by naive_solver].
    + rewrite lookup_empty. destruct (decide (id' = id)); [by rewrite decide_True|].
      by rewrite decide_False by naive_solver.
  - rewrite lookup_insert_ne by done. by rewrite decide_False by naive_solver.
Qed.

Lemma select_snoc {A} owners w (xs : list A) bs x b :
  length xs = length bs →
  select owners w (xs ++ [x]) (bs ++ [b]) =
  select owners w xs bs ++ (if decide (owner_at owners b = w) then [x] else []).
Proof.
  intros Hlen. unfold select. rewrite zip_with_app by done. rewrite filter_app, fmap_app. f_equal.
  simpl. rewrite filter_cons. simpl. by case_decide.
Qed.

Lemma elem_of_select {A} owners w (xs : list A) bs x :
  x ∈ select owners w xs bs ↔ ∃ i b, xs !! i = Some x ∧ bs !! i = Some b ∧ owner_at owners b = w.
Proof.
  unfold select. rewrite list_elem_of_fmap. split.
  - intros ([y b] & -> & [Hw Hin]%list_elem_of_filter). apply list_elem_of_lookup in Hin as [i Hi].
    apply lookup_zip_with_Some in Hi as (? & ? & [= <- <-] & ? & ?). eauto.
  - intros (i & b & Hx & Hb & Hw). exists (x, b). split; [done|]. apply list_elem_of_filter. split; [done|].
    apply list_elem_of_lookup. exists i. apply lookup_zip_with_Some. eauto 10.
Qed.

Section GroupWrite.
Context `{GoRange} (n : Z) (owners : list Z) (t : KeyLookupTable).
Context (Hfind : ∀ b, (0 ≤ b < n)%Z → BucketIdxToWorkerID t b = Ok (owner_at owners b)).
Implicit Types (keys values : keyed bytes) (bids : keyed Z).

(** Only owners are written to. *)
Definition to_owners {A} (m : gmap Z A) : Prop :=
  ∀ w, is_Some (m !! w) → ∃ b, (0 ≤ b < n)%Z ∧ owner_at owners b = w.

Lemma to_owners_append {A} (m : gmap Z (keyed A)) b id x :
  (0 ≤ b < n)%Z → to_owners m → to_owners (append_at2 m (owner_at owners b) id x).
Proof.
  intros Hb Hm w. unfold append_at2. destruct (decide (owner_at owners b = w)) as [<-|Hw]; [by exists b|].
  rewrite lookup_insert_ne by done. apply Hm.
Qed.

Lemma group_write_Ok values bids KBW VBW id kl vl bs :
  values !! id = Some vl → bids !! id = Some bs → length vl = length kl → length bs = length kl →
  Forall (λ b, 0 ≤ b < n)%Z bs → (∀ w, at2 KBW w id = None) → (∀ w, at2 VBW w id = None) →
  to_owners KBW →
  ∃ KBW' VBW', group_write t values bids (KBW, VBW) (id, kl) = Ok (KBW', VBW') ∧ to_owners KBW' ∧
    ∀ w id', at2 KBW' w id' = (if decide (id' = id) then nonempty (select owners w kl bs) else at2 KBW w id') ∧
             at2 VBW' w id' = (if decide (id' = id) then nonempty (select owners w vl bs) else at2 VBW w id').
Proof.
  intros Hvl Hbs Hlv Hlb Hb HK0 HV0 Hto. unfold group_write. rewrite Hbs, Hvl. simpl.
  cut (∀ m, m ≤ length kl → ∃ KBW' VBW',
    foldM (λ '(keysByWorker, valuesByWorker) '(i, key),
      b ← idx bs i; w ← BucketIdxToWorkerID t b; v ← idx vl i;
      Ok (append_at2 keysByWorker w id key, append_at2 valuesByWorker w id v))
      (KBW, VBW) (imap pair (take m kl)) = Ok (KBW', VBW') ∧ to_owners KBW' ∧
    ∀ w id', at2 KBW' w id' = (if decide (id' = id) then nonempty (select owners w (take m kl) (take m bs)) else at2 KBW w id') ∧
             at2 VBW' w id' = (if decide (id' = id) then nonempty (select owners w (take m vl) (take m bs)) else at2 VBW w id')).
  { intros Hcut. specialize (Hcut (length kl) ltac:(done)).
    by rewrite (take_ge kl), (take_ge vl), (take_ge bs) in Hcut by lia. }
  induction m as [|m IH]; intros Hm.
  { exists KBW, VBW. split_and!; [done..|]. intros w id'. case_decide as Hid; [|done]. subst id'.
    by rewrite HK0, HV0. }
  destruct IH as (K1 & V1 & Hrun & Hto1 & Hspec); [lia|].
  destruct (lookup_lt_is_Some_2 kl m) as [k Hk]; [lia|]. destruct (lookup_lt_is_Some_2 vl m) as [v Hv]; [lia|].
  destruct (lookup_lt_is_Some_2 bs m) as [b Hbm]; [lia|].
  assert (0 ≤ b < n)%Z as Hbn by (rewrite Forall_lookup in Hb; eauto).
  rewrite (take_S_r kl m k), (take_S_r vl m v), (take_S_r bs m b) by done.
  rewrite imap_app, foldM_app, Hrun, bind_Ok. cbn [imap foldM]. simpl. rewrite Nat.add_0_r, length_take_le by lia.
  rewrite (proj2 (idx_Ok _ _ _) Hbm), bind_Ok, Hfind, bind_Ok, (proj2 (idx_Ok _ _ _) Hv), !bind_Ok by done.
  eexists _, _. split; [done|]. split; [by apply to_owners_append|]. intros w id'.
  rewrite !append_at2_lookup, !select_snoc by (rewrite !length_take; lia).
  destruct (Hspec w id') as [HK HV]. destruct (decide (id' = id)) as [->|Hid].
  - destruct (decide (owner_at owners b = w)) as [<-|Hw].
    + rewrite !decide_True, !nonempty_snoc, HK, HV, !default_nonempty by done. done.
    + rewrite !decide_False, !app_nil_r by naive_solver. done.
  - by rewrite !decide_False by naive_solver.
Qed.

Lemma groupKeysAndValuesByWorker_Ok op keys values bids :
  matches keys values → addressed op n keys bids →
  ∃ KBW VBW, groupKeysAndValuesByWorker t keys values bids = Ok (KBW, VBW) ∧ to_owners KBW ∧
    ∀ w id, at2 KBW w id = (kl ← keys !! id; bs ← bids !! id; nonempty (select owners w kl bs)) ∧
            at2 VBW w id = (_ ← keys !! id; vl ← values !! id; bs ← bids !! id; nonempty (select owners w vl bs)).
Proof.
  intros Hm Ha. unfold groupKeysAndValuesByWorker.
  destruct (foldM_total (group_write t values bids) (λ l '(KBW, VBW), to_owners KBW ∧ ∀ w id,
      at2 KBW w id = (if decide (id ∈ l.*1) then kl ← keys !! id; bs ← bids !! id; nonempty (select owners w kl bs) else None) ∧
      at2 VBW w id = (if decide (id ∈ l.*1) then vl ← values !! id; bs ← bids !! id; nonempty (select owners w vl bs) else None))
    (go_range keys) (∅, ∅)) as ([KBW VBW] & -> & Hto & Hspec).
  - split; [intros w; rewrite lookup_empty; by intros [? [=]]|]. intros w id. by rewrite decide_False by set_solver.
  - intros l [id kl] [K1 V1] Hpre [Hto Hspec].
    assert (keys !! id = Some kl) as Hkl by (rewrite <-elem_of_go_range; destruct Hpre as [suf ->]; set_solver).
    assert (id ∉ l.*1) as Hid.
    { pose proof (NoDup_go_range keys) as Hnd. destruct Hpre as [suf Hpre]. rewrite Hpre, !fmap_app in Hnd.
      apply NoDup_app in Hnd as [Hnd _]. apply NoDup_app in Hnd as (_ & Hnd & _). intros Hin. apply (Hnd id Hin). set_solver. }
    destruct (Hm id kl Hkl) as (vl & Hvl & Hlv). destruct (Ha id kl Hkl) as (bs & Hbs & Hall).
    destruct (group_write_Ok values bids K1 V1 id kl vl bs) as (K2 & V2 & -> & Hto2 & Hspec2); try done.
    + symmetry. by eapply Forall2_length.
    + apply Forall_lookup. intros i b Hb. destruct (Forall2_lookup_r _ _ _ _ _ Hall Hb) as (k & _ & [? _]). done.
    + intros w. by rewrite (proj1 (Hspec w id)), decide_False.
    + intros w. by rewrite (proj2 (Hspec w id)), decide_False.
    + eexists. split; [done|]. split; [done|]. intros w id'. destruct (Hspec2 w id') as [-> ->].
      destruct (Hspec w id') as [-> ->]. rewrite fmap_app. simpl. destruct (decide (id' = id)) as [->|Hne].
      * by rewrite !(decide_True (P := id ∈ _)), Hkl, Hvl, Hbs by set_solver.
      * destruct (decide (id' ∈ l.*1)); [by rewrite !decide_True by set_solver|].
        by rewrite !decide_False by set_solver.
  - eexists _, _. split; [done|]. split; [done|]. intros w id. destruct (Hspec w id) as [-> ->].
    destruct (keys !! id) as [kl|] eqn:Hkl.
    + by rewrite !decide_True by (rewrite go_range_keys, Hkl; eauto).
    + by rewrite !decide_False by (rewrite go_range_keys, Hkl; by intros [? [=]]).
Qed.
End GroupWrite.

(** ** The part of a request that goes to one worker *)

Lemma select_cons {A} owners w (x : A) xs b bs :
  select owners w (x :: xs) (b :: bs) =
  if decide (owner_at owners b = w) then x :: select owners w xs bs else select owners w xs bs.
Proof. unfold select. simpl. rewrite filter_cons. simpl. by case_decide. Qed.

Lemma zip_select {A C} owners w (xs : list A) (ys : list C) bs :
  length xs = length bs → length ys = length bs →
  zip (select owners w xs bs) (select owners w ys bs) = select owners w (zip xs ys) bs ∧
  length (select owners w ys bs) = length (select owners w xs bs).
Proof.
  revert xs ys. induction bs as [|b bs IH]; intros [|x xs] [|y ys] Hx Hy; simplify_eq/=; [done|].
  destruct (IH xs ys) as [IHz IHl]; [done..|]. rewrite !select_cons. case_decide; simpl; [|done].
  split; [by rewrite IHz|by f_equal].
Qed.

Lemma NoDup_select {A} owners w (xs : list A) bs :
  length xs = length bs → NoDup xs → NoDup (select owners w xs bs).
Proof.
  intros Hlen Hnd. unfold select. apply NoDup_filter_keys. by rewrite fst_zip by lia.
Qed.

(** The owner of a key, by the bucket it carries. *)
Definition owner_of (owners : list Z) (k : bytes) : Z := owner_at owners (Z.of_nat (key_bucket k)).

Lemma owner_of_key op n owners k b :
  key_at op n k b → (n ≤ 2 ^ 32)%Z → owner_of owners k = owner_at owners b.
Proof.
  intros Hk Hn. unfold owner_of. rewrite (key_bucket_at op n k b) by done. destruct Hk as [? _].
  by rewrite Z2Nat.id by lia.
Qed.

Section Part.
Context (op n : Z) (owners : list Z) (keys values : keyed bytes) (bids : keyed Z) (Hn : (n ≤ 2 ^ 32)%Z).
Context (Hm : matches keys values) (Ha : addressed op n keys bids).
Context (w : Z) (wk vw : keyed bytes).
Context (Hwk : ∀ id, wk !! id = (kl ← keys !! id; bs ← bids !! id; nonempty (select owners w kl bs))).
Context (Hvw : ∀ id, vw !! id = (_ ← keys !! id; vl ← values !! id; bs ← bids !! id; nonempty (select owners w vl bs))).

Lemma part_lists id kl : keys !! id = Some kl → ∃ vl bs,
  values !! id = Some vl ∧ bids !! id = Some bs ∧ length kl = length bs ∧ length vl = length bs ∧
  Forall2 (key_at op n) kl bs ∧
  wk !! id = nonempty (select owners w kl bs) ∧ vw !! id = nonempty (select owners w vl bs).
Proof.
  intros Hkl. destruct (Hm id kl Hkl) as (vl & Hvl & Hlv). destruct (Ha id kl Hkl) as (bs & Hbs & Hall).
  pose proof (Forall2_length _ _ _ Hall). exists vl, bs. rewrite Hwk, Hvw, Hkl, Hvl, Hbs. split_and!; done || lia.
Qed.

Lemma part_list id l : wk !! id = Some l → ∃ kl vl bs, keys !! id = Some kl ∧
  values !! id = Some vl ∧ length kl = length bs ∧ length vl = length bs ∧ Forall2 (key_at op n) kl bs ∧
  l = select owners w kl bs ∧ default [] (vw !! id) = select owners w vl bs ∧ is_Some (vw !! id).
Proof.
  intros Hl. destruct (keys !! id) as [kl|] eqn:Hkl; [|by rewrite Hwk, Hkl in Hl].
  destruct (part_lists id kl Hkl) as (vl & bs & Hvl & Hbs & Hlk & Hlv & Hall & Hk & Hv).
  exists kl, vl, bs. rewrite Hk in Hl. rewrite Hv, default_nonempty. split_and!; try done.
  - by destruct (select owners w kl bs); simplify_eq/=.
  - destruct (zip_select owners w kl vl bs Hlk Hlv) as [_ Hlen].
    destruct (select owners w kl bs), (select owners w vl bs); simplify_eq/=; eauto.
Qed.

Lemma select_owner {A} kl bs (xs : list A) i k :
  Forall2 (key_at op n) kl bs → length xs = length kl → kl !! i = Some k → owner_of owners k = w →
  ∀ x, xs !! i = Some x → x ∈ select owners w xs bs.
Proof.
  intros Hall Hlen Hk Hw x Hx. destruct (Forall2_lookup_l _ _ _ _ _ Hall Hk) as (b & Hb & Hkb).
  apply elem_of_select. exists i, b. split_and!; [done..|]. by rewrite <-(owner_of_key op n owners k b).
Qed.

Lemma part_keys k : k ∈ request_keys wk ↔ k ∈ request_keys keys ∧ owner_of owners k = w.
Proof.
  rewrite !elem_of_request_keys. split.
  - intros (id & l & Hl & Hk). destruct (part_list id l Hl) as (kl & vl & bs & Hkl & _ & _ & _ & Hall & -> & _).
    apply elem_of_select in Hk as (i & b & Hk & Hb & <-). split; [eauto using list_elem_of_lookup_2|].
    destruct (Forall2_lookup_l _ _ _ _ _ Hall Hk) as (b' & Hb' & Hkb).
    assert (b' = b) as -> by congruence. by apply (owner_of_key op n).
  - intros ((id & kl & Hkl & Hk) & Hw). apply list_elem_of_lookup in Hk as [i Hi].
    destruct (part_lists id kl Hkl) as (vl & bs & _ & _ & Hlk & _ & Hall & E & _).
    pose proof (select_owner kl bs kl i k Hall eq_refl Hi Hw k Hi) as Hin.
    exists id, (select owners w kl bs). split; [|done]. rewrite E.
    by destruct (select owners w kl bs); [apply not_elem_of_nil in Hin|].
Qed.

Lemma part_matches : matches wk vw.
Proof.
  intros id l Hl. destruct (part_list id l Hl) as (kl & vl & bs & _ & _ & Hlk & Hlv & _ & -> & Hv & [vs Hvs]).
  exists vs. split; [done|]. rewrite Hvs in Hv. simpl in Hv. subst vs. by apply zip_select.
Qed.

Lemma part_nodup : NoDup (request_keys keys) → NoDup (request_keys wk).
Proof.
  rewrite !NoDup_request_keys. intros [Hnd Hdis]. split.
  - intros id l Hl. destruct (part_list id l Hl) as (kl & vl & bs & Hkl & _ & Hlk & _ & _ & -> & _).
    apply NoDup_select; [done|by eapply Hnd].
  - intros id1 l1 id2 l2 k Hl1 Hl2 Hk1 Hk2.
    destruct (part_list id1 l1 Hl1) as (kl1 & _ & bs1 & Hkl1 & _ & _ & _ & _ & -> & _).
    destruct (part_list id2 l2 Hl2) as (kl2 & _ & bs2 & Hkl2 & _ & _ & _ & _ & -> & _).
    apply elem_of_select in Hk1 as (i1 & _ & Hi1 & _). apply elem_of_select in Hk2 as (i2 & _ & Hi2 & _).
    eapply (Hdis id1 kl1 id2 kl2 k); eauto using list_elem_of_lookup_2.
Qed.

Lemma part_pairs k v :
  (k, v) ∈ request_pairs wk vw ↔ (k, v) ∈ request_pairs keys values ∧ owner_of owners k = w.
Proof.
  rewrite !elem_of_request_pairs. split.
  - intros (id & l & Hl & Hk).
    destruct (part_list id l Hl) as (kl & vl & bs & Hkl & Hvl & Hlk & Hlv & Hall & -> & Hv & _).
    rewrite Hv, (proj1 (zip_select owners w kl vl bs Hlk Hlv)) in Hk.
    apply elem_of_select in Hk as (i & b & Hk & Hb & <-). split.
    { exists id, kl. rewrite Hvl. eauto using list_elem_of_lookup_2. }
    apply lookup_zip_with_Some in Hk as (? & ? & [= <- <-] & Hk & _).
    destruct (Forall2_lookup_l _ _ _ _ _ Hall Hk) as (b' & Hb' & Hkb).
    assert (b' = b) as -> by congruence. by apply (owner_of_key op n).
  - intros ((id & kl & Hkl & Hp) & Hw).
    destruct (part_lists id kl Hkl) as (vl & bs & Hvl & _ & Hlk & Hlv & Hall & E & Ev).
    rewrite Hvl in Hp. simpl in Hp. apply list_elem_of_lookup in Hp as [i Hi].
    assert (kl !! i = Some k) as Hk by (apply lookup_zip_with_Some in Hi as (? & ? & [= <- <-] & ? & _); done).
    assert (length (zip kl vl) = length kl) as Hlz by (rewrite length_zip; lia).
    pose proof (select_owner kl bs (zip kl vl) i k Hall Hlz Hk Hw _ Hi) as Hin.
    rewrite <-(proj1 (zip_select owners w kl vl bs Hlk Hlv)) in Hin.
    exists id, (select owners w kl bs). rewrite E, Ev, default_nonempty. split; [|done].
    by destruct (select owners w kl bs); [apply not_elem_of_nil in Hin|].
Qed.

(** A worker is sent what the request writes to its keys. *)
Lemma part_written k : NoDup (request_keys keys) →
  written wk vw k = if decide (owner_of owners k = w) then written keys values k else None.
Proof.
  intros Hnd. unfold written. apply option_eq. intros v.
  rewrite <-elem_of_list_to_map by (apply NoDup_pairs; [apply part_matches|by apply part_nodup]).
  rewrite part_pairs. case_decide as Hw.
  - rewrite <-elem_of_list_to_map by by apply NoDup_pairs. naive_solver.
  - naive_solver.
Qed.
End Part.

(** A key outside the request is not written. *)
Lemma written_None (keys values : keyed bytes) k :
  matches keys values → k ∉ request_keys keys → written keys values k = None.
Proof.
  intros Hm Hk. unfold written. apply not_elem_of_list_to_map_1. unfold request_pairs.
  rewrite (zip_keys keys); [done|done|]. intros [id kl] Hin. by apply elem_of_map_to_list in Hin.
Qed.

(** ** Writes *)

Section Write.
Context `{GoRange} `{Schedule} `{StateBackendLaws B}.
Implicit Types (cl : Cluster B) (svc : Service B) (keys values : keyed bytes) (bids : keyed Z).

Definition store_at cl (w : Z) (k : bytes) : option bytes :=
  svc ← services cl !! w; data_of (svc_Backend svc) !! k.

Lemma value_at_store cl w k : value_at cl w k = default [] (store_at cl w k).
Proof. unfold value_at, store_at. by destruct (services cl !! w). Qed.

(** A loop in which each turn replaces the store of its worker. *)
Lemma update_workers {A} (step : Cluster B → Z * A → res (Cluster B)) (Q : Z → A → Service B → B → Prop) cl l :
  NoDup l.*1 →
  (∀ w x, (w, x) ∈ l → ∃ svc, services cl !! w = Some svc ∧ ∀ cl', services cl' !! w = Some svc →
     self cl' = self cl → streams cl' = streams cl →
     ∃ b', step cl' (w, x) = Ok (set_service_of cl' w (with_backend svc b')) ∧ Q w x svc b') →
  ∃ cl', foldM step cl l = Ok cl' ∧ self cl' = self cl ∧ streams cl' = streams cl ∧
    (∀ w x, (w, x) ∈ l → ∃ svc b', services cl !! w = Some svc ∧
       services cl' !! w = Some (with_backend svc b') ∧ Q w x svc b') ∧
    ∀ w, w ∉ l.*1 → services cl' !! w = services cl !! w.
Proof.
  intros Hnd Hstep.
  destruct (foldM_total step (λ l cl', self cl' = self cl ∧ streams cl' = streams cl ∧
    (∀ w x, (w, x) ∈ l → ∃ svc b', services cl !! w = Some svc ∧
       services cl' !! w = Some (with_backend svc b') ∧ Q w x svc b') ∧
    ∀ w, w ∉ l.*1 → services cl' !! w = services cl !! w) l cl) as (cl' & ? & ?).
  - split_and!; [done..|set_solver|done].
  - intros pre [w x] cl1 [suf Hl] (Hself & Hstr & Hin & Hout). rewrite Hl in Hnd, Hstep.
    rewrite !fmap_app in Hnd. apply NoDup_app in Hnd as [Hnd _]. apply NoDup_app in Hnd as (_ & Hnd & _).
    assert (w ∉ pre.*1) as Hw by (intros Hw; apply (Hnd w Hw); set_solver).
    destruct (Hstep w x) as (svc & Hsvc & Hrun); [set_solver|].
    destruct (Hrun cl1) as (b' & -> & HQ); [by rewrite Hout|done..|].
    eexists. split; [done|]. split_and!; [done..| |].
    + intros w' x' [Hin'|[= -> ->]%list_elem_of_singleton]%elem_of_app.
      * destruct (Hin w' x' Hin') as (svc' & b1 & ? & ? & ?). exists svc', b1. split_and!; [done| |done].
        simpl. rewrite lookup_insert_ne; [done|]. intros ->. apply Hw. apply list_elem_of_fmap. by exists (w', x').
      * exists svc, b'. split_and!; [done| |done]. simpl. by rewrite lookup_insert_eq.
    + intros w' Hw'. rewrite fmap_app in Hw'. simpl in *. rewrite lookup_insert_ne by set_solver.
      apply Hout. set_solver.
  - eauto.
Qed.

(** The stores of the owners are changed key by key, nothing else is. *)
Definition updated owners (F : bytes → option bytes → option bytes) cl cl' : Prop :=
  self cl' = self cl ∧ streams cl' = streams cl ∧
  ∀ w, match services cl !! w with
       | None => services cl' !! w = None
       | Some svc => ∃ b', services cl' !! w = Some (with_backend svc b') ∧ backend_ok b' ∧
           ∀ k, data_of b' !! k = if decide (owner_of owners k = w) then F k (data_of (svc_Backend svc) !! k)
                                  else data_of (svc_Backend svc) !! k
       end.

Lemma updated_store op n owners F cl cl' w k :
  cluster_wf op n owners cl → updated owners F cl cl' → is_Some (services cl !! w) →
  store_at cl' w k = if decide (owner_of owners k = w) then F k (store_at cl w k) else store_at cl w k.
Proof.
  intros Hwf (_ & _ & Hu) [svc Hsvc]. unfold store_at. specialize (Hu w). rewrite Hsvc in Hu.
  destruct Hu as (b' & -> & _ & Hd). rewrite Hsvc. simpl. apply Hd.
Qed.

Lemma updated_wf op n owners F cl cl' :
  cluster_wf op n owners cl → updated owners F cl cl' →
  (∀ k old v, F k old = Some v → old = None → ∃ b, key_at op n k b) → cluster_wf op n owners cl'.
Proof.
  intros Hwf (Hself & Hstr & Hu) HF.
  assert (Hback : ∀ w svc', services cl' !! w = Some svc' → ∃ svc b', services cl !! w = Some svc ∧
    svc' = with_backend svc b' ∧ backend_ok b' ∧
    ∀ k, data_of b' !! k = if decide (owner_of owners k = w) then F k (data_of (svc_Backend svc) !! k)
                           else data_of (svc_Backend svc) !! k).
  { intros w svc' Hw. specialize (Hu w). destruct (services cl !! w) as [svc|]; [|congruence].
    destruct Hu as (b' & Hw' & Hok & Hd). exists svc, b'. split_and!; [done|congruence|done..]. }
  assert (Hfwd : ∀ w, is_Some (services cl !! w) → is_Some (services cl' !! w)).
  { intros w [svc Hw]. specialize (Hu w). rewrite Hw in Hu. destruct Hu as (b' & -> & _). eauto. }
  split; try apply Hwf.
  - rewrite Hself. apply Hwf.
  - rewrite Hself. destruct (wf_self _ _ _ _ Hwf) as (me & Hme & Ht). destruct (Hfwd (self cl)) as [me' Hme']; [eauto|].
    exists me'. split; [done|]. destruct (Hback _ _ Hme') as (svc & b' & Hsvc & -> & _).
    assert (svc = me) as -> by congruence. done.
  - intros w svc' Hw. destruct (Hback _ _ Hw) as (svc & b' & Hsvc & -> & Hok & _).
    destruct (wf_svc _ _ _ _ Hwf _ _ Hsvc) as (? & ? & _). done.
  - intros i w Hw. rewrite Hself, Hstr. destruct (wf_owner _ _ _ _ Hwf i w Hw). eauto.
  - intros w svc' k v Hw Hk. destruct (Hback _ _ Hw) as (svc & b' & Hsvc & -> & _ & Hd). simpl in Hk.
    rewrite Hd in Hk. destruct (data_of (svc_Backend svc) !! k) as [v0|] eqn:E; [by eapply (wf_keys _ _ _ _ Hwf)|].
    case_decide; [by eapply HF|done].
Qed.

Lemma cluster_value_store op n owners cl k :
  cluster_wf op n owners cl →
  cluster_value cl k = default [] (w ← owners !! key_bucket k; store_at cl w k).
Proof.
  intros Hwf. unfold cluster_value. rewrite (owners_of_wf Hwf). destruct (owners !! key_bucket k) as [w|]; [|done].
  apply value_at_store.
Qed.

Lemma updated_value op n owners F cl cl' k :
  cluster_wf op n owners cl → updated owners F cl cl' → cluster_wf op n owners cl' →
  cluster_value cl' k = default [] (w ← owners !! key_bucket k; F k (store_at cl w k)).
Proof.
  intros Hwf Hu Hwf'. rewrite (cluster_value_store op n owners) by done. f_equal.
  destruct (owners !! key_bucket k) as [w|] eqn:E; [|done]. simpl.
  rewrite (updated_store op n owners F cl cl'); [|done..|by eapply (wf_owner _ _ _ _ Hwf)].
  rewrite decide_True; [done|]. unfold owner_of, owner_at. by rewrite Nat2Z.id, E.
Qed.

(** Every key of a request has an owner. *)
Lemma request_owner op n owners cl keys bids k :
  cluster_wf op n owners cl → addressed op n keys bids → k ∈ request_keys keys →
  ∃ b, key_at op n k b ∧ owners !! key_bucket k = Some (owner_at owners b).
Proof.
  intros Hwf Ha (id & kl & Hkl & [i Hi]%list_elem_of_lookup)%elem_of_request_keys.
  destruct (Ha id kl Hkl) as (bs & Hbs & Hall). destruct (Forall2_lookup_l _ _ _ _ _ Hall Hi) as (b & Hb & Hk).
  exists b. split; [done|]. rewrite (key_bucket_at op n k b) by (done || pose proof (wf_n _ _ _ _ Hwf); lia).
  apply (owner_lookup Hwf). by destruct Hk.
Qed.

(** The worker of a turn: it has a store, and a stream when it is remote. *)
Lemma owner_ready op n owners cl (m : gmap Z (keyed bytes)) w wk :
  cluster_wf op n owners cl → to_owners n owners m → m !! w = Some wk →
  ∃ svc, services cl !! w = Some svc ∧ backend_ok (svc_Backend svc) ∧ ∀ cl', services cl' !! w = Some svc →
    self cl' = self cl → streams cl' = streams cl →
    service_of cl' w = Ok svc ∧ (if (w =? self cl')%Z then Ok tt else _ ← stream_of cl' w; Ok tt) = Ok tt.
Proof.
  intros Hwf Hto Hw. destruct (Hto w) as (b & Hb & <-); [eauto|].
  destruct (owner_service Hwf b Hb) as (svc & Hsvc & _ & _ & Hok). exists svc. split_and!; [done..|].
  intros cl' Hsvc' Hself Hstr. split; [by apply service_of_Ok|].
  destruct (Z.eqb_spec (owner_at owners b) (self cl')) as [|Hne]; [done|].
  destruct (wf_owner _ _ _ _ Hwf _ _ (owner_lookup Hwf b Hb)) as [_ [s Hs]]; [congruence|].
  unfold stream_of. by rewrite Hstr, Hs.
Qed.

(** One turn per worker, each on the store of its worker. *)
Lemma update_owners (step : Cluster B → Z * keyed bytes → res (Cluster B)) F op n owners cl (KBW : gmap Z (keyed bytes)) :
  cluster_wf op n owners cl → to_owners n owners KBW →
  (∀ w wk svc, KBW !! w = Some wk → backend_ok (svc_Backend svc) →
     ∃ b', backend_ok b' ∧
       (∀ k, data_of b' !! k = if decide (owner_of owners k = w) then F k (data_of (svc_Backend svc) !! k)
                               else data_of (svc_Backend svc) !! k) ∧
       ∀ cl', self cl' = self cl → service_of cl' w = Ok svc → (if (w =? self cl')%Z then Ok tt else _ ← stream_of cl' w; Ok tt) = Ok tt →
         step cl' (w, wk) = Ok (set_service_of cl' w (with_backend svc b'))) →
  (∀ w k old, KBW !! w = None → owner_of owners k = w → F k old = old) →
  ∃ cl', foldM step cl (schedule (go_range KBW)) = Ok cl' ∧ updated owners F cl cl'.
Proof.
  intros Hwf Hto Hstep Hun.
  destruct (update_workers step (λ w wk svc b', backend_ok b' ∧ ∀ k, data_of b' !! k =
      if decide (owner_of owners k = w) then F k (data_of (svc_Backend svc) !! k)
      else data_of (svc_Backend svc) !! k) cl (schedule (go_range KBW))) as (cl' & Hrun & Hself & Hstr & Hin & Hout).
  - rewrite schedule_perm. apply NoDup_go_range.
  - intros w wk. rewrite schedule_perm, elem_of_go_range. intros Hw.
    destruct (owner_ready op n owners cl KBW w wk Hwf Hto Hw) as (svc & Hsvc & Hok & Hready).
    destruct (Hstep w wk svc Hw Hok) as (b' & Hok' & Hd & Hrun). exists svc. split; [done|].
    intros cl1 Hsvc1 Hs1 Hst1. exists b'. split; [|done]. by apply Hrun; [|apply (Hready cl1)..].
  - exists cl'. split; [done|]. split_and!; [done..|]. intros w.
    assert (KBW !! w = None → services cl' !! w = services cl !! w) as Hout'.
    { intros Hw. apply Hout. rewrite schedule_perm, go_range_keys, Hw. by intros [? [=]]. }
    destruct (services cl !! w) as [svc|] eqn:Hsvc.
    + destruct (KBW !! w) as [wk|] eqn:Hw.
      * destruct (Hin w wk) as (svc' & b' & Hsvc' & Hcl' & Hok & Hd); [by rewrite schedule_perm, elem_of_go_range|].
        assert (svc' = svc) as -> by congruence. eauto.
      * exists (svc_Backend svc). split_and!; [rewrite Hout' by done; by destruct svc|by destruct (wf_svc _ _ _ _ Hwf w svc Hsvc) as (_ & _ & ?)|].
        intros k. case_decide; [|done]. symmetry. eauto.
    + apply Hout'. destruct (KBW !! w) eqn:Hw; [|done]. destruct (Hto w) as (b & Hb & <-); [eauto|].
      destruct (owner_service Hwf b Hb) as (? & ? & _). congruence.
Qed.

(** A worker that is sent nothing owns no key of the request. *)
Lemma unsent op n owners keys bids (KBW : gmap Z (keyed bytes)) w k :
  (n ≤ 2 ^ 32)%Z → addressed op n keys bids →
  (∀ id, at2 KBW w id = (kl ← keys !! id; bs ← bids !! id; nonempty (select owners w kl bs))) →
  KBW !! w = None → owner_of owners k = w → k ∉ request_keys keys.
Proof.
  intros Hn Ha Hspec Hw Ho (id & kl & Hkl & [i Hi]%list_elem_of_lookup)%elem_of_request_keys.
  destruct (Ha id kl Hkl) as (bs & Hbs & Hall). specialize (Hspec id). unfold at2 in Hspec.
  rewrite Hw, Hkl, Hbs in Hspec. simpl in Hspec.
  pose proof (select_owner op n owners Hn w kl bs kl i k Hall eq_refl Hi Ho k Hi) as Hin.
  by destruct (select owners w kl bs); [apply not_elem_of_nil in Hin|].
Qed.

(** A write of [f], which leaves at a key what [G] makes of the old value and
    the value the request has for it, does so at the owners. *)
Lemma remote_write_Ok (f : B → list bytes → list bytes → res B) (G : option bytes → option bytes → option bytes)
    op n owners cl keys values bids :
  (∀ missing b keys values, backend_ok b → matches keys values → NoDup (request_keys keys) →
     ∃ b', write_states f missing b keys values = Ok b' ∧ backend_ok b' ∧
       ∀ k, data_of b' !! k = G (data_of b !! k) (written keys values k)) →
  (∀ old, G old None = old) →
  cluster_wf op n owners cl → matches keys values → addressed op n keys bids → NoDup (request_keys keys) →
  ∃ cl', remote_write f cl keys values bids = Ok cl' ∧ updated owners (λ k old, G old (written keys values k)) cl cl'.
Proof.
  intros Hf HG Hwf Hm Ha Hnd. destruct (wf_self _ _ _ _ Hwf) as (me & Hme & Ht).
  assert (Hn : (n ≤ 2 ^ 32)%Z) by (pose proof (wf_n _ _ _ _ Hwf); lia).
  unfold remote_write. rewrite (service_of_Ok _ _ Hme), bind_Ok.
  destruct (groupKeysAndValuesByWorker_Ok n owners (svc_Table me) (λ b Hb, owner_found Hwf me b Hme Hb) op
    keys values bids Hm Ha) as (KBW & VBW & -> & Hto & Hspec). rewrite bind_Ok.
  assert (Hwk : ∀ w wk, KBW !! w = Some wk → ∀ id, wk !! id =
    (kl ← keys !! id; bs ← bids !! id; nonempty (select owners w kl bs))).
  { intros w wk Hw id. rewrite <-(proj1 (Hspec w id)). unfold at2. by rewrite Hw. }
  assert (Hvw : ∀ w id, default ∅ (VBW !! w) !! id =
    (_ ← keys !! id; vl ← values !! id; bs ← bids !! id; nonempty (select owners w vl bs))).
  { intros w id. rewrite <-(proj2 (Hspec w id)). unfold at2. destruct (VBW !! w); [done|]. simpl. by rewrite lookup_empty. }
  apply (update_owners (write_to_worker f VBW) (λ k old, G old (written keys values k)) op n owners); [done..| |].
  - intros w wk svc Hw Hok.
    destruct (Hf (if (w =? self cl)%Z then "Values for state ID not found" else "Missing values for state ID")
      (svc_Backend svc) wk (default ∅ (VBW !! w))) as (b' & Hrun & Hok' & Hd); [done|..].
    + eapply (part_matches op n owners keys values bids Hm Ha w wk); eauto.
    + eapply (part_nodup op n owners keys values bids Hm Ha w wk); eauto.
    + exists b'. split_and!; [done| |].
      * intros k. rewrite Hd, (part_written op n owners keys values bids Hn Hm Ha w wk) by eauto.
        case_decide; [done|]. by rewrite HG.
      * intros cl' Hself Hsvc Hstr. unfold write_to_worker. by rewrite Hsvc, bind_Ok, Hstr, bind_Ok, Hself, Hrun.
  - intros w k old Hw Ho. rewrite written_None, HG; [done..|].
    eapply (unsent op n owners keys bids KBW w); [done..| |done|done]. intros id. apply Hspec.
Qed.

(** Deleting groups the keys as writing them would. *)
Lemma foldM_sim {A S S'} (f : S → A → res S) (g : S' → A → res S') (p : S → S') s l s' :
  (∀ s x s', x ∈ l → f s x = Ok s' → g (p s) x = Ok (p s')) →
  foldM f s l = Ok s' → foldM g (p s) l = Ok (p s').
Proof.
  revert s. induction l as [|x l IH]; intros s Hfg; simpl; [by intros [= ->]|].
  destruct (f s x) as [s1|] eqn:E; [|done]. rewrite (Hfg s x s1) by (done || set_solver). simpl.
  apply IH. set_solver.
Qed.

Lemma group_delete_Ok n owners t op keys bids :
  (∀ b, (0 ≤ b < n)%Z → BucketIdxToWorkerID t b = Ok (owner_at owners b)) → addressed op n keys bids →
  ∃ KBW, foldM (group_delete t bids) ∅ (go_range keys) = Ok KBW ∧ to_owners n owners KBW ∧
    ∀ w id, at2 KBW w id = (kl ← keys !! id; bs ← bids !! id; nonempty (select owners w kl bs)).
Proof.
  intros Hfind Ha.
  destruct (groupKeysAndValuesByWorker_Ok n owners t Hfind op keys keys bids) as (KBW & VBW & Hrun & Hto & Hspec).
  { intros id kl Hkl. eauto. } { done. }
  exists KBW. split_and!; [|done|intros w id; apply Hspec].
  refine (foldM_sim (group_write t keys bids) _ fst _ _ _ _ Hrun).
  intros [K V] [id kl] KV' _. unfold group_write, group_delete.
  refine (foldM_sim _ _ fst (K, V) (imap pair kl) KV' _). intros [K1 V1] [i k] [K2 V2] _. simpl.
  destruct (idx _ i) as [b|]; [|done]. simpl. destruct (BucketIdxToWorkerID t b) as [w|]; [|done]. simpl.
  destruct (keys !! id) as [vals|]; [|done]. destruct (idx vals i); [|done]. by intros [= <- <-].
Qed.

Lemma remoteDelete_Ok op n owners cl keys bids :
  cluster_wf op n owners cl → addressed op n keys bids →
  ∃ cl', remoteDelete cl keys bids = Ok cl' ∧
    updated owners (λ k old, if bool_decide (k ∈ request_keys keys) then None else old) cl cl'.
Proof.
  intros Hwf Ha. destruct (wf_self _ _ _ _ Hwf) as (me & Hme & Ht).
  assert (Hn : (n ≤ 2 ^ 32)%Z) by (pose proof (wf_n _ _ _ _ Hwf); lia).
  unfold remoteDelete. rewrite (service_of_Ok _ _ Hme), bind_Ok.
  destruct (group_delete_Ok n owners (svc_Table me) op keys bids (λ b Hb, owner_found Hwf me b Hme Hb) Ha)
    as (KBW & -> & Hto & Hspec). rewrite bind_Ok.
  apply (update_owners delete_from_worker _ op n owners); [done..| |].
  - intros w wk svc Hw Hok. destruct (deleteLocalState_Ok (svc_Backend svc) wk Hok) as (b' & Hrun & Hok' & Hd).
    exists b'. split_and!; [done| |].
    + intros k. rewrite Hd. assert (k ∈ request_keys wk ↔ k ∈ request_keys keys ∧ owner_of owners k = w) as Hk.
      { assert (∀ id, wk !! id = (kl ← keys !! id; bs ← bids !! id; nonempty (select owners w kl bs))) as Hwk.
        { intros id. rewrite <-(Hspec w id). unfold at2. by rewrite Hw. }
        refine (part_keys op n owners keys keys bids Hn _ Ha w wk wk Hwk _ k); [by intros id kl Hkl; eauto|].
        intros id. rewrite Hwk. by destruct (keys !! id). }
      rewrite (bool_decide_ext _ _ Hk). repeat case_bool_decide; case_decide; naive_solver.
    + intros cl' Hself Hsvc Hstr. unfold delete_from_worker. by rewrite Hsvc, Hstr, !bind_Ok, Hrun.
  - intros w k old Hw Ho. rewrite bool_decide_false; [done|]. by eapply (unsent op n owners keys bids KBW w).
Qed.
End Write.
