(* ===== verification/BucketMigration.v ===== *)
(** * Lazy migration of buckets

    The lazy-basic protocol: a read first moves the buckets it needs from
    their owners to the local worker, then everything is local.  The server's
    handler [RemoteBucketMigration], the client's
    [migrateRemoteBucketsFromWorker] and the whole [migrateRemoteBuckets] keep
    every value of the operator's state and make [self] the owner. *)

From stdpp Require Import prelude gmap strings list.
From Stdlib Require Import ZArith Lia.
From S2P Require Import Prelude Partition PartitionTable Backend StateService Chunks Cluster NoMigration.

(** ** Owners after a migration *)

Definition reown (owners : list Z) (bs : list Z) (w : Z) : list Z :=
  imap (λ i o, if decide (Z.of_nat i ∈ bs) then w else o) owners.

Lemma length_reown owners bs w : length (reown owners bs w) = length owners.
Proof. apply length_imap. Qed.

Lemma reown_lookup owners bs w i :
  reown owners bs w !! i = (λ o, if decide (Z.of_nat i ∈ bs) then w else o) <$> owners !! i.
Proof. apply list_lookup_imap. Qed.

Lemma reown_nil owners w : reown owners [] w = owners.
Proof.
  apply list_eq. intros i. rewrite reown_lookup. destruct (owners !! i); done.
Qed.

Lemma reown_snoc owners bs b w :
  (0 ≤ b)%Z → reown owners (bs ++ [b]) w = <[Z.to_nat b := w]> (reown owners bs w).
Proof.
  intros Hb. apply list_eq. intros i. rewrite reown_lookup. destruct (decide (i = Z.to_nat b)) as [->|Hi].
  - destruct (owners !! Z.to_nat b) as [o|] eqn:E; simpl.
    + rewrite list_lookup_insert_eq by (rewrite length_reown; by eapply lookup_lt_Some).
      rewrite decide_True; [done|]. rewrite Z2Nat.id by done. set_solver.
    + symmetry. apply lookup_ge_None_2. rewrite length_insert, length_reown. by apply lookup_ge_None.
  - rewrite list_lookup_insert_ne, reown_lookup by done. destruct (owners !! i) as [o|]; [|done]. simpl.
    f_equal. destruct (decide (Z.of_nat i ∈ bs)); [by rewrite decide_True by set_solver|].
    rewrite decide_False; [done|]. rewrite elem_of_app, list_elem_of_singleton. intros [?|?]; [done|lia].
Qed.

Lemma reown_owner owners bs w b :
  (0 ≤ b < Z.of_nat (length owners))%Z →
  owner_at (reown owners bs w) b = if decide (b ∈ bs) then w else owner_at owners b.
Proof.
  intros Hb. unfold owner_at. rewrite reown_lookup, Z2Nat.id by lia.
  destruct (lookup_lt_is_Some_2 owners (Z.to_nat b)) as [o ->]; [lia|]. simpl. done.
Qed.

(** ** The server *)

Section Server.
Context `{RangeQueryLaws B}.
Context (op n limit : Z) (Hop : is_u16 op) (Hn : (0 < n < 2 ^ 32)%Z) (Hlimit : (0 ≤ limit < 2 ^ 62)%Z).
Implicit Types (svc : Service B) (snd : StateChunkSender).

(** A range query of one bucket returns its records. *)
Lemma read_bucket (b : B) bucketIdx :
  backend_ok b → (0 ≤ bucketIdx < n)%Z → (∀ k v, data_of b !! k = Some v → ∃ b', key_at op n k b') →
  ∃ ks vs, ReadLocalBucketRange b op bucketIdx bucketIdx = Ok (ks, vs) ∧ length ks = length vs ∧ NoDup ks ∧
    ∀ k v, (k, v) ∈ zip ks vs ↔ data_of b !! k = Some v ∧ key_at op n k bucketIdx.
Proof.
  intros Hb Hi Hkeys. unfold ReadLocalBucketRange.
  destruct (RangeQuery_law b (bucket_bound op bucketIdx) (bucket_bound op (bucketIdx + 1)) Hb)
    as (ks & vs & -> & Hlen & Hnd & Hspec).
  exists ks, vs. split_and!; [done..|]. intros k v. rewrite Hspec. split.
  - intros [Hk Hr]. split; [done|]. destruct (Hkeys k v Hk) as [b' Hb'].
    rewrite (in_range_buckets op n k b' bucketIdx bucketIdx) in Hr by (done || lia).
    assert (b' = bucketIdx) as -> by (apply andb_true_iff in Hr; lia). done.
  - intros [Hk Hb']. split; [done|]. rewrite (in_range_buckets op n k bucketIdx bucketIdx bucketIdx) by (done || lia).
    apply andb_true_iff. lia.
Qed.

(** What the server can hand over: its own buckets, in records that fit. *)
Record offers svc (owners : list Z) (bs : list Z) : Prop := {
  of_op : svc_OperatorID svc = op;
  of_ok : backend_ok (svc_Backend svc);
  of_table : table_owners (svc_Table svc) owners;
  of_len : length owners = Z.to_nat n;
  of_keys : ∀ k v, data_of (svc_Backend svc) !! k = Some v → ∃ b, key_at op n k b;
  of_nodup : NoDup bs;
  of_own : ∀ b, b ∈ bs → (0 ≤ b < n)%Z ∧ owner_at owners b = svc_WorkerID svc;
  of_size : ∀ k v b, data_of (svc_Backend svc) !! k = Some v → b ∈ bs → key_at op n k b →
    (record_size (k, v) ≤ limit)%Z
}.

(** The records of some buckets. *)
Definition bucket_records svc (bs : list Z) (l : list (bytes * bytes)) : Prop :=
  NoDup l.*1 ∧ ∀ k v, (k, v) ∈ l ↔ data_of (svc_Backend svc) !! k = Some v ∧ ∃ b, b ∈ bs ∧ key_at op n k b.

Lemma bucket_records_app svc bs b l ks vs :
  bucket_records svc bs l → b ∉ bs → length ks = length vs → NoDup ks →
  (∀ k v, (k, v) ∈ zip ks vs ↔ data_of (svc_Backend svc) !! k = Some v ∧ key_at op n k b) →
  bucket_records svc (bs ++ [b]) (l ++ zip ks vs).
Proof.
  intros [Hnd Hl] Hb Hlen Hks Hz. split.
  - rewrite fmap_app, fst_zip by lia. apply NoDup_app. split_and!; [done| |done].
    intros k ([k' v] & -> & [_ (b' & Hb' & Hk)]%Hl)%list_elem_of_fmap Hin. simpl in *.
    apply list_elem_of_lookup in Hin as [i Hi]. destruct (lookup_lt_is_Some_2 vs i) as [v' Hv'].
    { rewrite <-Hlen. by eapply lookup_lt_Some. }
    assert ((k', v') ∈ zip ks vs) as [_ Hk']%Hz.
    { apply list_elem_of_lookup. exists i. by rewrite lookup_zip_with, Hi, Hv'. }
    rewrite (key_at_inj op n k' b b') in Hb by (done || lia). done.
  - intros k v. rewrite elem_of_app, Hl, Hz. set_solver.
Qed.

Lemma migrate_buckets_Ok svc snd owners source bs :
  offers svc owners bs → is_u16 source → svc_WorkerID svc ≠ source → idle limit snd →
  ∃ t snd' l, foldM (migrate_bucket source) (svc, snd) bs = Ok (with_table svc t, snd') ∧
    table_owners t (reown owners bs source) ∧ accepted limit (sent_chunks snd) l snd' ∧ bucket_records svc bs l.
Proof.
  intros Hof Hsrc Hne Hidle.
  destruct (foldM_total (migrate_bucket source) (λ bs '(svc', snd'), ∃ t l, svc' = with_table svc t ∧
      table_owners t (reown owners bs source) ∧ accepted limit (sent_chunks snd) l snd' ∧ bucket_records svc bs l)
    bs (svc, snd)) as ([svc' snd'] & Hrun & t & l & -> & ? & ? & ?).
  - exists (svc_Table svc), []. split_and!; [by destruct svc| |by apply idle_accepted|].
    + rewrite reown_nil. apply Hof.
    + split; [constructor|]. set_solver.
  - intros pre b [svc' snd'] [suf Hpre] (t & l & -> & Ht & Hacc & Hrec).
    destruct Hof as [Hsop Hok _ Hlen Hkeys Hnd Hown Hsize]. rewrite Hpre in Hnd, Hown, Hsize.
    destruct (Hown b) as [Hb Ho]; [set_solver|].
    assert (b ∉ pre) as Hbpre.
    { apply NoDup_app in Hnd as [Hnd _]. apply NoDup_app in Hnd as (_ & Hd & _). intros Hin. apply (Hd b Hin). set_solver. }
    unfold migrate_bucket. simpl.
    assert (reown owners pre source !! Z.to_nat b = Some (svc_WorkerID svc)) as Hlook.
    { unfold owner_at in Ho. rewrite reown_lookup. destruct (lookup_lt_is_Some_2 owners (Z.to_nat b)) as [o Eo]; [lia|].
      rewrite Eo in *. simpl in *. by rewrite Z2Nat.id, decide_False, Ho by (done || lia). }
    rewrite (BucketIdxToWorkerID_Ok t _ b _ Ht) by (done || lia). rewrite bind_Ok, Z.eqb_refl, bind_fatal_false, Hsop.
    destruct (read_bucket (svc_Backend svc) b Hok Hb Hkeys) as (ks & vs & -> & Hkv & Hks & Hz). rewrite bind_Ok.
    destruct (chunk_Send_Ok limit Hlimit _ _ snd' ks vs Hacc Hkv) as (snd2 & -> & Hacc2).
    { apply Forall_forall. intros [k v] [Hk Hkb]%Hz. eapply Hsize; [done| |done]. set_solver. }
    rewrite bind_Ok. destruct (ChangeBucketOwner_Ok t _ b (u16 source) Ht) as (t2 & -> & Ht2).
    { rewrite length_reown, Hlen. lia. }
    rewrite bind_Ok. eexists. split; [done|]. rewrite u16_id in Ht2 by done. exists t2, (l ++ zip ks vs). split_and!; [done| |done|].
    + by rewrite reown_snoc by lia.
    + by apply bucket_records_app.
  - eauto 10.
Qed.

Lemma record_size_pos k v b : key_at op n k b → (0 < record_size (k, v))%Z.
Proof. intros [_ [rest ->]]. unfold record_size. cbn [fst snd]. rewrite !length_app, !length_be_encode. lia. Qed.

Lemma RemoteBucketMigration_Ok svc snd owners source bs :
  offers svc owners bs → is_u16 source → svc_WorkerID svc ≠ source → idle limit snd →
  ∃ t snd' chunks, RemoteBucketMigration svc snd op source bs = Ok (with_table svc t, snd') ∧
    table_owners t (reown owners bs source) ∧ idle limit snd' ∧
    sent_chunks snd' = sent_chunks snd ++ chunks ++ [MkChunk true [] []] ∧
    Forall (good_chunk limit) chunks ∧ bucket_records svc bs (chunks ≫= chunk_pairs).
Proof.
  intros Hof Hsrc Hne Hidle. unfold RemoteBucketMigration. rewrite (of_op _ _ _ Hof), Z.eqb_refl, bind_fatal_false.
  destruct (migrate_buckets_Ok svc snd owners source bs Hof Hsrc Hne Hidle) as (t & snd' & l & -> & Ht & Hacc & Hrec).
  rewrite bind_Ok. destruct (chunk_Flush_Ok limit _ _ snd' Hacc) as (Hidle' & chunks & Hsent & Hgood & ->).
  { apply Forall_forall. intros [k v] (_ & b & _ & Hk)%Hrec. by eapply record_size_pos. }
  exists t, (chunk_Flush snd'), chunks. by split_and!.
Qed.
End Server.

(** ** The client *)

(** The first of two optional values. *)
Definition first_of {A} (x y : option A) : option A := match x with Some _ => x | None => y end.

Definition in_buckets (bs : list Z) (k : bytes) : Prop := Z.of_nat (key_bucket k) ∈ bs.
#[export] Instance in_buckets_dec bs k : Decision (in_buckets bs k).
Proof. unfold in_buckets. apply _. Defined.

Section Client.
Context `{RangeQueryLaws B}.
Context (op n limit : Z) (Hop : is_u16 op) (Hn : (0 < n < 2 ^ 32)%Z) (Hlimit : (0 ≤ limit < 2 ^ 62)%Z).
Implicit Types (cl : Cluster B) (svc me : Service B).

(** A stream between requests. *)
Definition quiet (s : StateChunkSender) : Prop := idle limit s ∧ sent_chunks s = [].

Lemma key_in_buckets k b bs : key_at op n k b → in_buckets bs k ↔ b ∈ bs.
Proof.
  intros Hk. unfold in_buckets. rewrite (key_bucket_at op n k b) by (done || lia). destruct Hk as [? _].
  by rewrite Z2Nat.id by lia.
Qed.

(** The store after the records of some buckets of another store came in. *)
Lemma records_received svc (bs : list Z) (chunks : list StateChunk) (d : store) (k : bytes) :
  (∀ k v, data_of (svc_Backend svc) !! k = Some v → ∃ b, key_at op n k b) →
  bucket_records op n svc bs (chunks ≫= chunk_pairs) →
  foldl write_pair d (chunks ≫= chunk_pairs) !! k =
    first_of (if decide (in_buckets bs k) then data_of (svc_Backend svc) !! k else None) (d !! k).
Proof.
  intros Hkeys [Hnd Hl]. rewrite foldl_write by done. rewrite lookup_union.
  assert (list_to_map (M := store) (chunks ≫= chunk_pairs) !! k =
    if decide (in_buckets bs k) then data_of (svc_Backend svc) !! k else None) as ->.
  { apply option_eq. intros v. rewrite <-elem_of_list_to_map, Hl by done. split.
    - intros (Hk & b & Hb & Hkb). rewrite decide_True by by apply (key_in_buckets k b). done.
    - case_decide as Hin; [|done]. intros Hk. split; [done|]. destruct (Hkeys k v Hk) as [b Hb].
      exists b. split; [|done]. by apply (key_in_buckets k b). }
  destruct (decide _), (data_of (svc_Backend svc) !! k), (d !! k); done.
Qed.

Lemma migrate_from_worker_Ok cl w bs svc me s owners :
  services cl !! w = Some svc → services cl !! self cl = Some me → streams cl !! w = Some s → quiet s →
  svc_WorkerID svc = w → w ≠ self cl → is_u16 (self cl) → backend_ok (svc_Backend me) →
  offers op n limit svc owners bs →
  ∃ t b' s', migrateRemoteBucketsFromWorker op cl (w, bs) =
      Ok (set_stream_of (set_service_of (set_service_of cl w (with_table svc t)) (self cl) (with_backend me b')) w s') ∧
    table_owners t (reown owners bs (self cl)) ∧ quiet s' ∧ backend_ok b' ∧
    ∀ k, data_of b' !! k = first_of (if decide (in_buckets bs k) then data_of (svc_Backend svc) !! k else None)
                             (data_of (svc_Backend me) !! k).
Proof.
  intros Hw Hme Hs [Hidle Hempty] Hid Hne Hu16 Hok Hof. unfold migrateRemoteBucketsFromWorker, stream_of.
  rewrite Hs, (service_of_Ok w svc Hw), !bind_Ok.
  destruct (RemoteBucketMigration_Ok op n limit Hop Hn Hlimit svc s owners (self cl) bs)
    as (t & s' & chunks & -> & Ht & Hidle' & Hsent & Hgood & Hrec); [done..|congruence|done|]. rewrite bind_Ok.
  assert (service_of (set_service_of cl w (with_table svc t)) (self cl) = Ok me) as Hme'.
  { apply service_of_Ok. simpl. by rewrite lookup_insert_ne. }
  simpl. rewrite Hme', bind_Ok, Hsent, Hempty. simpl.
  destruct (receive_loop_Ok limit (λ chunk, fatal_if (negb (length (Keys chunk) =? length (Values chunk))
    || (length (Keys chunk) =? 0)) "Invalid bucket chunk") (svc_Backend me) chunks []) as (b' & Hrecv & Hok' & Hd);
    [intros c Hc; by apply (good_chunk_checks limit c)|done..|].
  unfold receive_chunks. rewrite Hrecv, bind_Ok. do 3 eexists. split; [done|]. split_and!; try done.
  intros k. rewrite Hd. apply records_received; [apply Hof|done].
Qed.

(** *** Grouping the buckets *)

Lemma group_buckets_Ok owners me bids :
  (∀ b, (0 ≤ b < n)%Z → BucketIdxToWorkerID (svc_Table me) b = Ok (owner_at owners b)) →
  Forall (λ b, 0 ≤ b < n)%Z bids →
  ∃ requests requested, foldM (request_bucket me) (∅, ∅) bids = Ok (requests, requested) ∧
    (∀ b, is_Some (requested !! b) ↔ b ∈ bids ∧ owner_at owners b ≠ svc_WorkerID me) ∧
    ∀ w, requests !! w ≠ Some [] ∧ NoDup (default [] (requests !! w)) ∧
      ∀ b, b ∈ default [] (requests !! w) ↔ b ∈ bids ∧ owner_at owners b = w ∧ w ≠ svc_WorkerID me.
Proof.
  intros Hfind Hb.
  destruct (foldM_total (request_bucket me) (λ pre '(requests, requested),
    (∀ b, is_Some (requested !! b) ↔ b ∈ pre ∧ owner_at owners b ≠ svc_WorkerID me) ∧
    ∀ w, requests !! w ≠ Some [] ∧ NoDup (default [] (requests !! w)) ∧
      ∀ b, b ∈ default [] (requests !! w) ↔ b ∈ pre ∧ owner_at owners b = w ∧ w ≠ svc_WorkerID me) bids (∅, ∅))
    as ([requests requested] & Hrun & ? & ?); [| |eauto 10].
  - split; [intros b; rewrite lookup_empty; split; [by intros [? [=]]|set_solver]|].
    intros w. rewrite lookup_empty. split_and!; [done|constructor|set_solver].
  - intros pre b [requests requested] [suf Hpre] [Hreq Hgrp].
    assert (0 ≤ b < n)%Z as Hbn by (rewrite Forall_forall in Hb; apply Hb; rewrite Hpre; set_solver).
    unfold request_bucket. rewrite Hfind, bind_Ok by done.
    destruct (Z.eqb_spec (owner_at owners b) (svc_WorkerID me)) as [Ho|Ho].
    { eexists. split; [done|]. simpl. split; [|intros w; destruct (Hgrp w) as (? & ? & Hin); split_and!; [done..|]].
      - intros b'. rewrite Hreq. set_solver.
      - intros b'. rewrite Hin. set_solver. }
    case_bool_decide as Hdup.
    { apply Hreq in Hdup as [Hdup _]. eexists. split; [done|]. simpl.
      split; [|intros w; destruct (Hgrp w) as (? & ? & Hin); split_and!; [done..|]].
      - intros b'. rewrite Hreq. set_solver.
      - intros b'. rewrite Hin. set_solver. }
    assert (b ∉ pre) as Hbpre by (intros Hin; apply Hdup; rewrite Hreq; done).
    eexists. split; [done|]. simpl. split.
    + intros b'. destruct (decide (b' = b)) as [->|Hb'].
      * rewrite lookup_insert_eq. split; [set_solver|eauto].
      * rewrite lookup_insert_ne, Hreq by done. set_solver.
    + intros w. rewrite append_at_lookup. destruct (Hgrp w) as (Hne & Hnd & Hin).
      destruct (decide (w = owner_at owners b)) as [->|Hw].
      * simpl. split_and!; [by destruct (requests !! _) as [[|]|]| |].
        -- apply NoDup_app. split_and!; [done| |apply NoDup_singleton].
           intros b'. rewrite Hin. intros [? _]. set_solver.
        -- intros b'. rewrite elem_of_app, Hin, list_elem_of_singleton. set_solver.
      * split_and!; [done..|]. intros b'. rewrite Hin. set_solver.
Qed.

(** *** The whole request *)

(** A cluster whose buckets can migrate to [self]: the streams are quiet, the
    owners know that they own, and their records fit in chunks. *)
Record mig_wf owners cl : Prop := {
  mw_wf : cluster_wf op n owners cl;
  mw_stream : ∀ i w, owners !! i = Some w → w ≠ self cl → ∃ s, streams cl !! w = Some s ∧ quiet s;
  mw_table : ∀ i w svc, owners !! i = Some w → w ≠ self cl → services cl !! w = Some svc →
    ∃ ow, table_owners (svc_Table svc) ow ∧ length ow = length owners ∧
      ∀ j, owners !! j = Some w → ow !! j = Some w;
  mw_size : ∀ k v, owner_of owners k ≠ self cl → store_at cl (owner_of owners k) k = Some v →
    (record_size (k, v) ≤ limit)%Z
}.

(** No stale copies: what [self] still holds of a bucket it does not own, its
    owner holds too.  A bucket that was handed over, lost a key at its new
    owner and is asked back violates this. *)
Definition no_stale owners cl : Prop :=
  ∀ k, owner_of owners k ≠ self cl → is_Some (store_at cl (self cl) k) → is_Some (store_at cl (owner_of owners k) k).

(** After the buckets [req w] of the workers [ws] were moved. *)
Record moved owners (req : Z → list Z) (ws : list Z) cl cl' : Prop := {
  mv_self : self cl' = self cl;
  mv_remote : self cl ∉ ws;
  mv_me : ∃ me b', services cl !! self cl = Some me ∧ services cl' !! self cl = Some (with_backend me b') ∧
    backend_ok b' ∧ ∀ k, data_of b' !! k =
      first_of (if decide (owner_of owners k ∈ ws ∧ in_buckets (req (owner_of owners k)) k)
                then store_at cl (owner_of owners k) k else None) (data_of (svc_Backend me) !! k);
  mv_moved : ∀ w, w ∈ ws → ∃ svc t ow, services cl !! w = Some svc ∧ services cl' !! w = Some (with_table svc t) ∧
    table_owners (svc_Table svc) ow ∧ table_owners t (reown ow (req w) (self cl));
  mv_other : ∀ w, w ∉ ws → w ≠ self cl → services cl' !! w = services cl !! w;
  mv_stream : ∀ w, w ∈ ws → ∃ s, streams cl' !! w = Some s ∧ quiet s;
  mv_streams : ∀ w, w ∉ ws → streams cl' !! w = streams cl !! w
}.

Lemma mig_offers owners cl w svc bs :
  mig_wf owners cl → w ≠ self cl → services cl !! w = Some svc → bs ≠ [] → NoDup bs →
  (∀ b, b ∈ bs → (0 ≤ b < n)%Z ∧ owner_at owners b = w) →
  ∃ ow, table_owners (svc_Table svc) ow ∧ offers op n limit svc ow bs.
Proof.
  intros [Hwf _ Htab Hsize] Hne Hw Hbs Hnd Hown. destruct bs as [|b0 bs0] eqn:E; [done|]. rewrite <-E in *.
  destruct (Hown b0) as [Hb0 Ho0]; [subst; by left|].
  pose proof (owner_lookup Hwf b0 Hb0) as Hl0. rewrite Ho0 in Hl0.
  destruct (Htab _ w svc Hl0 Hne Hw) as (ow & Ht & Hlen & Hj). exists ow. split; [done|].
  destruct (wf_svc _ _ _ _ Hwf w svc Hw) as (Hid & Hsop & Hok).
  split; try done.
  - by rewrite Hlen, (wf_len _ _ _ _ Hwf).
  - intros k v Hk. by eapply (wf_keys _ _ _ _ Hwf).
  - intros b Hb. destruct (Hown b Hb) as [Hbn Ho]. split; [done|].
    pose proof (owner_lookup Hwf b Hbn) as Hl. rewrite Ho in Hl. unfold owner_at. by rewrite (Hj _ Hl).
  - intros k v b Hk Hb Hkb. destruct (Hown b Hb) as [Hbn Ho].
    assert (owner_of owners k = w) as Hok' by (rewrite (owner_of_key op n owners k b) by (done || lia); done).
    apply Hsize; rewrite Hok'; [done|]. unfold store_at. by rewrite Hw.
Qed.

Lemma moved_step owners req ws cl cl1 w svc bs :
  mig_wf owners cl → moved owners req ws cl cl1 → w ∉ ws → w ≠ self cl → services cl !! w = Some svc →
  req w = bs → bs ≠ [] → NoDup bs → (∀ b, b ∈ bs → (0 ≤ b < n)%Z ∧ owner_at owners b = w) →
  ∃ cl2, migrateRemoteBucketsFromWorker op cl1 (w, bs) = Ok cl2 ∧ moved owners req (ws ++ [w]) cl cl2.
Proof.
  intros Hmw Hmv Hws Hne Hsvc Hreq Hbs Hnd Hown.
  destruct (mig_offers owners cl w svc bs Hmw Hne Hsvc Hbs Hnd Hown) as (ow & How & Hof).
  destruct Hmv as [Hself Hremote (me & b1 & Hme & Hme1 & Hok1 & Hd1) Hmoved Hother Hstr Hstrs].
  destruct Hmw as [Hwf Hms _ _].
  assert (∃ s, streams cl !! w = Some s ∧ quiet s) as (s & Hs & Hq).
  { destruct bs as [|b bs0]; [done|]. destruct (Hown b) as [Hb Ho]; [by left|].
    pose proof (owner_lookup Hwf b Hb) as Hl. rewrite Ho in Hl. by apply (Hms _ w Hl). }
  destruct (migrate_from_worker_Ok cl1 w bs svc (with_backend me b1) s ow)
    as (t & b' & s' & Hrun & Ht & Hq' & Hok' & Hd').
  { by rewrite Hother. } { by rewrite Hself. } { by rewrite Hstrs. } { done. }
  { by apply (wf_svc _ _ _ _ Hwf). } { by rewrite Hself. } { rewrite Hself. apply Hwf. } { done. } { done. }
  rewrite Hrun, Hself in *. eexists. split; [done|]. split; simpl.
  - done.
  - set_solver.
  - exists me, b'. rewrite lookup_insert_eq. split_and!; [done..|]. intros k. rewrite Hd', Hd1.
    assert (in_buckets bs k → owner_of owners k = w) as Hin by (intros Hin; by apply Hown in Hin as [_ ?]).
    destruct (decide (owner_of owners k = w)) as [Ho|Ho].
    + rewrite Ho, Hreq, (decide_False (P := w ∈ ws ∧ _)) by tauto. unfold store_at. rewrite Hsvc.
      destruct (decide (in_buckets bs k)); [rewrite decide_True by set_solver|rewrite decide_False by tauto]; done.
    + rewrite (decide_False (P := in_buckets bs k)) by tauto. simpl.
      destruct (decide (owner_of owners k ∈ ws ∧ _)); [rewrite decide_True by set_solver; done|].
      rewrite decide_False by set_solver. done.
  - intros w' [Hw'| ->%list_elem_of_singleton]%elem_of_app.
    + assert (w' ≠ w) by congruence. destruct (Hmoved w' Hw') as (svc' & t' & ow' & ? & ? & ? & ?).
      assert (w' ≠ self cl) as Hs' by congruence.
      exists svc', t', ow'. rewrite !lookup_insert_ne by done. done.
    + exists svc, t, ow. rewrite lookup_insert_ne, lookup_insert_eq by done. by rewrite Hreq.
  - intros w' Hw' Hs'. rewrite !lookup_insert_ne by set_solver. apply Hother; set_solver.
  - intros w' Hw'. destruct (decide (w' = w)) as [->|]; [rewrite lookup_insert_eq; eauto|].
    rewrite lookup_insert_ne by done. apply Hstr. set_solver.
  - intros w' Hw'. rewrite lookup_insert_ne by set_solver. apply Hstrs. set_solver.
Qed.

Lemma move_workers `{GoRange} `{Schedule} owners cl bids (requests : keyed Z) :
  mig_wf owners cl → Forall (λ b, 0 ≤ b < n)%Z bids →
  (∀ w, requests !! w ≠ Some [] ∧ NoDup (default [] (requests !! w)) ∧
     ∀ b, b ∈ default [] (requests !! w) ↔ b ∈ bids ∧ owner_at owners b = w ∧ w ≠ self cl) →
  ∃ cl', foldM (migrateRemoteBucketsFromWorker op) cl (schedule (go_range requests)) = Ok cl' ∧
    moved owners (λ w, default [] (requests !! w)) (schedule (go_range requests)).*1 cl cl'.
Proof.
  intros Hmw Hb Hreq. pose proof (mw_wf _ _ Hmw) as Hwf. destruct (wf_self _ _ _ _ Hwf) as (me & Hme & Ht).
  apply (foldM_total (migrateRemoteBucketsFromWorker op)
    (λ pre, moved owners (λ w, default [] (requests !! w)) pre.*1 cl)).
  - split; try done; [apply not_elem_of_nil| |by intros w ?%not_elem_of_nil..].
    exists me, (svc_Backend me). split_and!; [done|by rewrite Hme; destruct me| |done].
    by apply (wf_svc _ _ _ _ Hwf _ _ Hme).
  - intros pre [w bs] cl1 [suf Hpre] Hmv.
    assert (requests !! w = Some bs) as Hw.
    { rewrite <-elem_of_go_range, <-(schedule_perm (go_range requests)), Hpre. set_solver. }
    assert (w ∉ pre.*1) as Hws.
    { assert (NoDup (schedule (go_range requests)).*1) as Hnd by (rewrite schedule_perm; apply NoDup_go_range).
      rewrite Hpre, !fmap_app in Hnd. apply NoDup_app in Hnd as [Hnd _]. apply NoDup_app in Hnd as (_ & Hd & _).
      intros Hin. apply (Hd w Hin). set_solver. }
    destruct (Hreq w) as (Hne & Hnd & Hin). rewrite Hw in Hne, Hnd, Hin. simpl in *.
    destruct bs as [|b bs0] eqn:E; [done|]. rewrite <-E in *.
    destruct (proj1 (Hin b)) as (Hbb & Ho & Hself); [subst; by left|].
    destruct (owner_service Hwf b) as (svc & Hsvc & _); [rewrite Forall_forall in Hb; by apply Hb|]. rewrite Ho in Hsvc.
    rewrite fmap_app. eapply (moved_step _ _ _ _ _ w svc bs); try done; [by rewrite Hw|congruence|].
    intros b' (Hb' & Ho' & _)%Hin. split; [|done]. rewrite Forall_forall in Hb. by apply Hb.
Qed.

(** What a request does to the cluster. *)
Record migrated owners (bids : list Z) cl cl' : Prop := {
  mi_self : self cl' = self cl;
  mi_me : ∃ me t b', services cl !! self cl = Some me ∧
    services cl' !! self cl = Some (with_table (with_backend me b') t) ∧
    table_owners t (reown owners bids (self cl)) ∧ backend_ok b' ∧ ∀ k, data_of b' !! k =
      first_of (if decide (in_buckets bids k ∧ owner_of owners k ≠ self cl)
                then store_at cl (owner_of owners k) k else None) (data_of (svc_Backend me) !! k);
  mi_other : ∀ w, w ≠ self cl → match services cl !! w with
    | None => services cl' !! w = None
    | Some svc => ∃ t, services cl' !! w = Some (with_table svc t) ∧ ∀ ow, table_owners (svc_Table svc) ow →
        ∃ bs, table_owners t (reown ow bs (self cl)) ∧ ∀ b, b ∈ bs ↔ b ∈ bids ∧ owner_at owners b = w
    end;
  mi_stream : ∀ i w, owners !! i = Some w → w ≠ self cl → ∃ s, streams cl' !! w = Some s ∧ quiet s
}.

Lemma ChangeBucketOwners_Ok t owners bs w :
  table_owners t owners → Forall (λ b, 0 ≤ b < Z.of_nat (length owners))%Z bs →
  ∃ t', foldM (λ t b, ChangeBucketOwner t b w) t bs = Ok t' ∧ table_owners t' (reown owners bs w).
Proof.
  intros Ht Hbs. apply (foldM_total _ (λ pre t', table_owners t' (reown owners pre w))); [by rewrite reown_nil|].
  intros pre b t' [suf Hpre] Ht'. rewrite Hpre, !Forall_app, Forall_singleton in Hbs. destruct Hbs as [[_ Hb] _].
  destruct (ChangeBucketOwner_Ok t' _ b w Ht') as (t2 & -> & Ht2); [by rewrite length_reown|].
  exists t2. split; [done|]. by rewrite reown_snoc by lia.
Qed.

Lemma reown_ext owners bs bs' w :
  (∀ b, (0 ≤ b < Z.of_nat (length owners))%Z → owner_at owners b ≠ w → b ∈ bs ↔ b ∈ bs') →
  reown owners bs w = reown owners bs' w.
Proof.
  intros Hext. apply list_eq. intros i. rewrite !reown_lookup. destruct (owners !! i) as [o|] eqn:Ho; [|done]. simpl.
  f_equal. destruct (decide (o = w)) as [->|Hne]; [by destruct (decide _), (decide _)|].
  specialize (Hext (Z.of_nat i)). unfold owner_at in Hext. rewrite Nat2Z.id, Ho in Hext. simpl in Hext.
  pose proof (lookup_lt_Some _ _ _ Ho). rewrite (decide_ext (Z.of_nat i ∈ bs) (Z.of_nat i ∈ bs')); [done|].
  apply Hext; [lia|done].
Qed.

Lemma moved_migrated owners req ws bids cl cl' t me' :
  mig_wf owners cl → moved owners req ws cl cl' → Forall (λ b, 0 ≤ b < n)%Z bids →
  (∀ w, w ∈ ws ↔ req w ≠ []) →
  (∀ w b, b ∈ req w ↔ b ∈ bids ∧ owner_at owners b = w ∧ w ≠ self cl) →
  services cl' !! self cl = Some me' → table_owners t (reown owners bids (self cl)) →
  migrated owners bids cl (set_service_of cl' (self cl) (with_table me' t)).
Proof.
  intros Hmw Hmv Hb Hws Hreq Hme' Ht.
  destruct Hmv as [Hself Hremote (me & b1 & Hme & Hme1 & Hok1 & Hd1) Hmoved Hother Hstr Hstrs].
  rewrite Hme1 in Hme'. injection Hme' as <-. split; simpl.
  - done.
  - exists me, t, b1. rewrite lookup_insert_eq. split_and!; [done..|]. intros k. rewrite Hd1. f_equal.
    assert (in_buckets (req (owner_of owners k)) k ↔ in_buckets bids k ∧ owner_of owners k ≠ self cl) as Hin.
    { unfold in_buckets. rewrite Hreq. unfold owner_of. tauto. }
    rewrite (decide_ext (owner_of owners k ∈ ws ∧ in_buckets (req (owner_of owners k)) k)
      (in_buckets bids k ∧ owner_of owners k ≠ self cl)); [done|].
    rewrite <-Hin, Hws. split; [tauto|]. intros Hk. split; [|done]. intros E. unfold in_buckets in Hk.
    rewrite E in Hk. by apply not_elem_of_nil in Hk.
  - intros w Hw. rewrite lookup_insert_ne by done. destruct (decide (w ∈ ws)) as [Hin|Hin].
    + destruct (Hmoved w Hin) as (svc & t' & ow & Hsvc & -> & How & Ht'). rewrite Hsvc. exists t'. split; [done|].
      intros ow' How'. exists (req w). split; [|intros b; rewrite Hreq; tauto].
      assert (ow' = ow) as ->; [|done]. unfold table_owners in *. rewrite How in How'.
      assert (Inj (=) (=) mkBucket) by (by intros ? ? [=]). by apply (inj (fmap mkBucket)) in How'.
    + rewrite Hother by done. destruct (services cl !! w) as [svc|]; [|done]. exists (svc_Table svc).
      split; [by destruct svc|]. intros ow How. exists []. rewrite reown_nil. split; [done|]. intros b.
      rewrite Hws in Hin. apply dec_stable in Hin. rewrite <-Hin, Hreq. tauto.
  - intros i w Hw Hne. destruct (decide (w ∈ ws)) as [Hin|Hin]; [by apply Hstr|]. rewrite Hstrs by done.
    by eapply (mw_stream _ _ Hmw).
Qed.

Lemma migrateRemoteBuckets_Ok `{GoRange} `{Schedule} owners cl bids :
  mig_wf owners cl → Forall (λ b, 0 ≤ b < n)%Z bids →
  ∃ cl', migrateRemoteBuckets cl op bids = Ok cl' ∧ migrated owners bids cl cl'.
Proof.
  intros Hmw Hb. pose proof (mw_wf _ _ Hmw) as Hwf. destruct (wf_self _ _ _ _ Hwf) as (me & Hme & Ht).
  assert (svc_WorkerID me = self cl) as Hid by by apply (wf_svc _ _ _ _ Hwf).
  unfold migrateRemoteBuckets. rewrite (service_of_Ok _ _ Hme), bind_Ok.
  destruct (group_buckets_Ok owners me bids (λ b Hb, owner_found Hwf me b Hme Hb) Hb)
    as (requests & requested & -> & Hreqd & Hreq). rewrite bind_Ok, Hid in *.
  assert (Hmem : ∀ w b, b ∈ default [] (requests !! w) ↔ b ∈ bids ∧ owner_at owners b = w ∧ w ≠ self cl).
  { intros w. apply Hreq. }
  assert (Hrown : reown owners (go_range requested).*1 (self cl) = reown owners bids (self cl)).
  { apply reown_ext. intros b _ Ho. rewrite go_range_keys, Hreqd. tauto. }
  destruct (size requests =? 0) eqn:Hsz.
  - exists cl. split; [done|]. apply Nat.eqb_eq, map_size_empty_iff in Hsz. subst requests.
    replace cl with (set_service_of cl (self cl) (with_table me (svc_Table me))) at 2.
    2:{ destruct cl as [svcs sf sts]. unfold set_service_of. simpl in *. f_equal. apply insert_id.
        rewrite Hme. by destruct me. }
    eapply (moved_migrated _ (λ w, default [] ((∅ : keyed Z) !! w)) []); try done.
    + split; try done; [apply not_elem_of_nil| |by intros w ?%not_elem_of_nil..].
      exists me, (svc_Backend me). split_and!; [done|by rewrite Hme; destruct me| |done].
      by apply (wf_svc _ _ _ _ Hwf _ _ Hme).
    + intros w. split; [by intros ?%not_elem_of_nil|done].
    + unfold table_owners. rewrite Ht. f_equal. rewrite <-(reown_nil owners (self cl)) at 1. apply reown_ext.
      intros b _ Ho. specialize (Hmem (owner_at owners b) b). rewrite lookup_empty in Hmem. simpl in Hmem. tauto.
  - destruct (move_workers owners cl bids requests Hmw Hb Hreq) as (cl' & -> & Hmv). rewrite bind_Ok.
    destruct (mv_me _ _ _ _ _ Hmv) as (me0 & b' & Hme0 & Hme' & _). assert (me0 = me) as -> by congruence.
    unfold claim_buckets. rewrite (mv_self _ _ _ _ _ Hmv), (service_of_Ok _ _ Hme'), bind_Ok. simpl. rewrite Hid.
    destruct (ChangeBucketOwners_Ok (svc_Table me) owners (go_range requested).*1 (self cl) Ht) as (t & -> & Ht').
    { apply Forall_forall. intros b [Hbb _]%go_range_keys%Hreqd. rewrite Forall_forall in Hb.
      rewrite (wf_len _ _ _ _ Hwf). specialize (Hb b Hbb). lia. }
    rewrite bind_Ok. eexists. split; [done|]. rewrite Hrown in Ht'.
    eapply (moved_migrated _ _ _ _ _ cl'); try done.
    intros w. rewrite schedule_perm, go_range_keys. destruct (Hreq w) as [Hne _].
    destruct (requests !! w) as [[|]|]; simpl; [done|naive_solver|]. split; [by intros [? [=]]|done].
Qed.

Section Migrated.
Context {owners bids : list Z} {cl cl' : Cluster B}.
Context (Hmw : mig_wf owners cl) (Hmi : migrated owners bids cl cl').

Lemma mi_store w k : w ≠ self cl → store_at cl' w k = store_at cl w k.
Proof.
  intros Hw. pose proof (mi_other _ _ _ _ Hmi w Hw) as Ho. unfold store_at.
  destruct (services cl !! w) as [svc|]; [|by rewrite Ho]. destruct Ho as (t & -> & _). done.
Qed.

Lemma mi_store_self k : store_at cl' (self cl) k =
  first_of (if decide (in_buckets bids k ∧ owner_of owners k ≠ self cl)
            then store_at cl (owner_of owners k) k else None) (store_at cl (self cl) k).
Proof.
  destruct (mi_me _ _ _ _ Hmi) as (me & t & b' & Hme & Hme' & _ & _ & Hd).
  unfold store_at at 1 3. rewrite Hme, Hme'. simpl. apply Hd.
Qed.

(** Back from the new cluster to the old one. *)
Lemma mi_back w svc' : services cl' !! w = Some svc' → ∃ svc, services cl !! w = Some svc ∧
  svc_WorkerID svc' = svc_WorkerID svc ∧ svc_OperatorID svc' = svc_OperatorID svc ∧
  (backend_ok (svc_Backend svc) → backend_ok (svc_Backend svc')).
Proof.
  intros Hw. destruct (decide (w = self cl)) as [->|Hne].
  - destruct (mi_me _ _ _ _ Hmi) as (me & t & b' & Hme & Hme' & _ & Hok & _).
    rewrite Hme' in Hw. injection Hw as <-. exists me. by split_and!.
  - pose proof (mi_other _ _ _ _ Hmi w Hne) as Ho. destruct (services cl !! w) as [svc|]; [|congruence].
    destruct Ho as (t & Ho & _). rewrite Ho in Hw. injection Hw as <-. by exists svc.
Qed.

Lemma mi_forth w : is_Some (services cl !! w) → is_Some (services cl' !! w).
Proof.
  intros [svc Hsvc]. destruct (decide (w = self cl)) as [->|Hne].
  - destruct (mi_me _ _ _ _ Hmi) as (me & t & b' & _ & -> & _). eauto.
  - pose proof (mi_other _ _ _ _ Hmi w Hne) as Ho. rewrite Hsvc in Ho. destruct Ho as (t & -> & _). eauto.
Qed.

Lemma mi_lookup i w : reown owners bids (self cl) !! i = Some w → w ≠ self cl →
  owners !! i = Some w ∧ Z.of_nat i ∉ bids.
Proof.
  rewrite reown_lookup. destruct (owners !! i) as [o|]; [|done]. simpl. case_decide; naive_solver.
Qed.

Lemma mi_owner_of k b : key_at op n k b →
  owner_of (reown owners bids (self cl)) k = if decide (in_buckets bids k) then self cl else owner_of owners k.
Proof.
  intros Hk. pose proof (mw_wf _ _ Hmw) as Hwf. rewrite !(owner_of_key op n _ k b) by (done || lia).
  rewrite reown_owner.
  - rewrite (decide_ext (in_buckets bids k) (b ∈ bids)); [done|]. by apply key_in_buckets.
  - rewrite (wf_len _ _ _ _ Hwf). destruct Hk as [? _]. lia.
Qed.

Lemma mi_cluster_wf : cluster_wf op n (reown owners bids (self cl)) cl'.
Proof.
  pose proof (mw_wf _ _ Hmw) as Hwf. pose proof (mi_self _ _ _ _ Hmi) as Hself.
  destruct (mi_me _ _ _ _ Hmi) as (me & t & b' & Hme & Hme' & Ht & Hok & Hd).
  split; try apply Hwf.
  - rewrite length_reown. apply Hwf.
  - rewrite Hself. apply Hwf.
  - rewrite Hself. eauto.
  - intros w svc' Hw. destruct (mi_back w svc' Hw) as (svc & Hsvc & -> & -> & Hok').
    destruct (wf_svc _ _ _ _ Hwf w svc Hsvc) as (? & ? & ?). auto.
  - intros i w Hw. rewrite Hself. destruct (decide (w = self cl)) as [->|Hne]; [split; [eauto|done]|].
    destruct (mi_lookup i w Hw Hne) as [Hi _]. split.
    + apply mi_forth. by eapply (wf_owner _ _ _ _ Hwf).
    + intros _. destruct (mi_stream _ _ _ _ Hmi i w Hi Hne) as (s & -> & _). eauto.
  - intros w svc' k v Hw Hk.
    assert (store_at cl' w k = Some v) as Hst by (unfold store_at; by rewrite Hw).
    assert (∃ w', store_at cl w' k = Some v) as [w' Hw'].
    { destruct (decide (w = self cl)) as [->|Hne]; [|rewrite mi_store in Hst by done; eauto].
      rewrite mi_store_self in Hst. case_decide; simpl in Hst; [|eauto].
      destruct (store_at cl (owner_of owners k) k) eqn:E; simpl in Hst; simplify_eq; eauto. }
    unfold store_at in Hw'. destruct (services cl !! w') as [svc0|] eqn:E; [|done]. by eapply (wf_keys _ _ _ _ Hwf).
Qed.

Lemma mi_key w k v : store_at cl' w k = Some v → ∃ b, key_at op n k b.
Proof.
  unfold store_at. destruct (services cl' !! w) as [svc|] eqn:E; [|done]. intros Hk. by eapply (wf_keys _ _ _ _ mi_cluster_wf).
Qed.

Lemma mi_mig_wf : mig_wf (reown owners bids (self cl)) cl'.
Proof.
  pose proof (mw_wf _ _ Hmw) as Hwf. pose proof (mi_self _ _ _ _ Hmi) as Hself.
  split; [apply mi_cluster_wf|rewrite Hself..].
  - intros i w Hw Hne. destruct (mi_lookup i w Hw Hne) as [Hi _]. by apply (mi_stream _ _ _ _ Hmi i).
  - intros i w svc' Hw Hne Hsvc'. destruct (mi_lookup i w Hw Hne) as [Hi _].
    pose proof (mi_other _ _ _ _ Hmi w Hne) as Ho. destruct (services cl !! w) as [svc|] eqn:Hsvc; [|congruence].
    destruct Ho as (t & Ho & Hbs). rewrite Ho in Hsvc'. injection Hsvc' as <-.
    destruct (mw_table _ _ Hmw i w svc Hi Hne Hsvc) as (ow & How & Hlen & Hj).
    destruct (Hbs ow How) as (bs & Ht & Hin). exists (reown ow bs (self cl)). rewrite !length_reown.
    split_and!; [done..|]. intros j Hjw. destruct (mi_lookup j w Hjw Hne) as [Hj' Hnin].
    rewrite reown_lookup, (Hj j Hj'). simpl. rewrite decide_False; [done|]. rewrite Hin. tauto.
  - intros k v Ho Hk. destruct (mi_key _ k v Hk) as [b Hb]. rewrite (mi_owner_of k b Hb) in *.
    case_decide as Hin; [done|]. rewrite mi_store in Hk by done. by apply (mw_size _ _ Hmw).
Qed.

(** After the request the value of a key is its owner's record or, where the
    owner has none, what the requester still held of a bucket that moved. *)
Lemma mi_value_exact k : cluster_value cl' k =
  default [] (w ← owners !! key_bucket k;
    first_of (store_at cl w k) (if decide (in_buckets bids k) then store_at cl (self cl) k else None)).
Proof.
  pose proof (mw_wf _ _ Hmw) as Hwf. pose proof mi_cluster_wf as Hwf'.
  unfold cluster_value. rewrite (owners_of_wf Hwf'), reown_lookup.
  assert (Ho : owner_of owners k = default 0%Z (owners !! key_bucket k))
    by (unfold owner_of, owner_at; by rewrite Nat2Z.id).
  destruct (owners !! key_bucket k) as [w|] eqn:E; [|done]. simpl in *. rewrite value_at_store. fold (in_buckets bids k).
  destruct (decide (w = self cl)) as [->|Hne].
  - assert (∀ x : Z, (if decide (in_buckets bids k) then x else x) = x) as -> by (intros; by case_decide).
    rewrite mi_store_self, decide_False by tauto. simpl. case_decide; by destruct (store_at cl (self cl) k).
  - destruct (decide (in_buckets bids k)) as [Hin|Hin]; [|rewrite mi_store by done; by destruct (store_at cl w k)].
    by rewrite mi_store_self, decide_True, Ho by (rewrite Ho; tauto).
Qed.

(** Without stale copies migration keeps every value, and leaves none. *)
Lemma mi_value k : no_stale owners cl → cluster_value cl' k = cluster_value cl k.
Proof.
  intros Hfresh. rewrite mi_value_exact. rewrite (cluster_value_store op n owners) by apply Hmw.
  assert (Ho : owner_of owners k = default 0%Z (owners !! key_bucket k))
    by (unfold owner_of, owner_at; by rewrite Nat2Z.id).
  destruct (owners !! key_bucket k) as [w|]; simpl in *; [|done].
  case_decide; [|by destruct (store_at cl w k)]. destruct (store_at cl w k) as [v|] eqn:Ev; [done|].
  simpl. destruct (store_at cl (self cl) k) as [v|] eqn:Es; [|done].
  destruct (Hfresh k) as [v' Hv']; [rewrite Ho; congruence|eauto|]. rewrite Ho in Hv'. congruence.
Qed.

Lemma mi_no_stale : no_stale owners cl → no_stale (reown owners bids (self cl)) cl'.
Proof.
  intros Hfresh k. rewrite (mi_self _ _ _ _ Hmi). intros Ho [v Hk].
  destruct (mi_key _ k v Hk) as [b Hb]. rewrite (mi_owner_of k b Hb) in *.
  case_decide as Hin; [done|]. rewrite mi_store by done. apply Hfresh; [done|].
  rewrite mi_store_self, decide_False in Hk by tauto. eauto.
Qed.
End Migrated.
End Client.
