(* ===== verification/StateApi.v ===== *)
(** * The lazy protocols behind the state service's API

    [GetManyMultiState], [SetManyMultiState], [MergeManyMultiState] and
    [DeleteMany] of [state/stateServiceApi.go] under lazy-basic (buckets move to
    the worker that reads them) and lazy-no-migration (keys are accessed at
    their owner).  Both implement the contract the state client is verified
    against, over any backend with range queries. *)

From stdpp Require Import prelude gmap strings list.
From Stdlib Require Import ZArith Lia.
From S2P Require Import Prelude Partition PartitionTable Backend StateService Chunks Cluster NoMigration BucketMigration.

(** ** Lazy-no-migration *)

Record NoMigrationService (B : Type) := MkNoMigration { nm_cluster : Cluster B }.
Arguments MkNoMigration {B}.
Arguments nm_cluster {B}.

Section NoMigration.
Context `{GoRange} `{Schedule} `{StateBackendLaws B}.
Implicit Types (s : NoMigrationService B) (keys values : keyed bytes).

Definition nm_GetManyMultiState s keys (bucketIDs : list Z) : res (NoMigrationService B * keyed (option bytes)) :=
  vals ← remoteRead (nm_cluster s) keys bucketIDs; Ok (s, vals).

Definition nm_SetManyMultiState s keys values (bucketIDs : keyed Z) : res (NoMigrationService B) :=
  fatal_if (size keys =? 0) "No keys to set";;
  cl ← remoteOverwrite (nm_cluster s) keys values bucketIDs; Ok (MkNoMigration cl).

Definition nm_MergeManyMultiState s keys values (bucketIDs : keyed Z) : res (NoMigrationService B) :=
  fatal_if (size keys =? 0) "No keys to merge";;
  cl ← remoteMerge (nm_cluster s) keys values bucketIDs; Ok (MkNoMigration cl).

Definition nm_DeleteMany s keys (bucketIDs : keyed Z) : res (NoMigrationService B) :=
  fatal_if (size keys =? 0) "No keys to delete";;
  cl ← remoteDelete (nm_cluster s) keys bucketIDs; Ok (MkNoMigration cl).

#[export] Instance nm_ops : StateServiceOps (NoMigrationService B) := {|
  GetManyMultiState s _ keys bucketIDs := nm_GetManyMultiState s keys bucketIDs;
  SetManyMultiState := nm_SetManyMultiState;
  MergeManyMultiState := nm_MergeManyMultiState;
  DeleteMany := nm_DeleteMany
|}.

#[export] Instance nm_view : ServiceView (NoMigrationService B) := {|
  value_of s := cluster_value (nm_cluster s);
  serves s op n := ∃ owners, cluster_wf op n owners (nm_cluster s);
  held _ _ := True
|}.

(** *** What the requests do *)

Lemma remoteRead_values op n owners (cl : Cluster B) keys bids :
  cluster_wf op n owners cl → Forall (λ b, 0 ≤ b < n)%Z bids →
  (∀ id kl, keys !! id = Some kl → Forall2 (key_at op n) kl bids) →
  ∃ vals, remoteRead cl keys bids = Ok vals ∧ (∀ id, is_Some (vals !! id) ↔ is_Some (keys !! id)) ∧
    ∀ id kl vs, keys !! id = Some kl → vals !! id = Some vs →
      Forall2 (λ k v, default [] v = cluster_value cl k) kl vs.
Proof.
  intros Hwf Hb Hk. rewrite (remoteRead_Ok op n owners) by eauto using Forall2_length. eexists. split; [done|]. split.
  - intros id. by rewrite lookup_fmap, fmap_is_Some.
  - intros id kl vs Hkl. rewrite lookup_fmap, Hkl. intros [= <-]. specialize (Hk id kl Hkl).
    clear Hb Hkl. induction Hk; simpl; constructor; [|done]. rewrite read_at_value.
    symmetry. by apply (cluster_value_at Hwf).
Qed.

(** A write leaves at a key what [G] makes of the value at its owner. *)
Lemma write_values f G (g : bytes → bytes → bytes) op n owners (cl : Cluster B) keys values bids :
  (∀ missing b keys values, backend_ok b → matches keys values → NoDup (request_keys keys) →
     ∃ b', write_states f missing b keys values = Ok b' ∧ backend_ok b' ∧
       ∀ k, data_of b' !! k = G (data_of b !! k) (written keys values k)) →
  (∀ old, G old None = old) → (∀ old v, default [] (G old (Some v)) = g (default [] old) v) →
  cluster_wf op n owners cl → matches keys values → addressed op n keys bids → NoDup (request_keys keys) →
  ∃ cl', remote_write f cl keys values bids = Ok cl' ∧ cluster_wf op n owners cl' ∧
    updated owners (λ k old, G old (written keys values k)) cl cl' ∧
    ∀ k, cluster_value cl' k =
      from_option (g (cluster_value cl k)) (cluster_value cl k) (written keys values k).
Proof.
  intros Hf HG Hg Hwf Hm Ha Hnd.
  destruct (remote_write_Ok f G op n owners cl keys values bids) as (cl' & Hrun & Hu); [done..|].
  assert (Hwr : ∀ k v, written keys values k = Some v → ∃ b, key_at op n k b ∧ owners !! key_bucket k = Some (owner_at owners b)).
  { intros k v Hk. apply (request_owner op n owners cl keys bids); [done..|]. apply dec_stable. intros Hnk.
    by rewrite (written_None keys values k Hm Hnk) in Hk. }
  assert (cluster_wf op n owners cl') as Hwf'.
  { apply (updated_wf op n owners _ cl cl' Hwf Hu). intros k old v Hv ->.
    destruct (written keys values k) as [v'|] eqn:E; [|by rewrite HG in Hv]. destruct (Hwr k v' E) as (b & ? & _). eauto. }
  exists cl'. split_and!; [done..|]. intros k.
  rewrite (updated_value op n owners _ cl cl'), (cluster_value_store op n owners) by done.
  destruct (written keys values k) as [v|] eqn:E; simpl.
  - destruct (Hwr k v E) as (b & _ & ->). simpl. apply Hg.
  - destruct (owners !! key_bucket k); simpl; [by rewrite HG|done].
Qed.

Lemma overwrite_values op n owners (cl : Cluster B) keys values bids :
  cluster_wf op n owners cl → matches keys values → addressed op n keys bids → NoDup (request_keys keys) →
  ∃ cl', remoteOverwrite cl keys values bids = Ok cl' ∧ cluster_wf op n owners cl' ∧
    updated owners (λ k old, from_option Some old (written keys values k)) cl cl' ∧
    ∀ k, cluster_value cl' k = default (cluster_value cl k) (written keys values k).
Proof.
  intros Hwf Hm Ha Hnd.
  apply (write_values sb_SetMany (λ old v, from_option Some old v) (λ _ v, v)); try done.
  intros; by apply set_states_Ok.
Qed.

Lemma merge_values op n owners (cl : Cluster B) keys values bids :
  cluster_wf op n owners cl → matches keys values → addressed op n keys bids → NoDup (request_keys keys) →
  ∃ cl', remoteMerge cl keys values bids = Ok cl' ∧ cluster_wf op n owners cl' ∧
    updated owners (λ k old, from_option (λ v, Some (default [] old ++ v)) old (written keys values k)) cl cl' ∧
    ∀ k, cluster_value cl' k = cluster_value cl k ++ default [] (written keys values k).
Proof.
  intros Hwf Hm Ha Hnd.
  destruct (write_values sb_MergeMany (λ old v, from_option (λ v, Some (default [] old ++ v)) old v) (λ old v, old ++ v)
    op n owners cl keys values bids) as (cl' & Hrun & ? & ? & Hv); try done; [by intros; apply merge_states_Ok|].
  exists cl'. split_and!; [done..|]. intros k. rewrite Hv.
  destruct (written keys values k); simpl; [done|by rewrite app_nil_r].
Qed.

Lemma delete_values op n owners (cl : Cluster B) keys bids :
  cluster_wf op n owners cl → addressed op n keys bids →
  ∃ cl', remoteDelete cl keys bids = Ok cl' ∧ cluster_wf op n owners cl' ∧
    updated owners (λ k old, if bool_decide (k ∈ request_keys keys) then None else old) cl cl' ∧
    ∀ k, cluster_value cl' k = if bool_decide (k ∈ request_keys keys) then [] else cluster_value cl k.
Proof.
  intros Hwf Ha. destruct (remoteDelete_Ok op n owners cl keys bids Hwf Ha) as (cl' & Hrun & Hu).
  assert (cluster_wf op n owners cl') as Hwf'.
  { apply (updated_wf op n owners _ cl cl' Hwf Hu). intros k old v Hv ->. by case_bool_decide. }
  exists cl'. split_and!; [done..|]. intros k.
  rewrite (updated_value op n owners _ cl cl'), (cluster_value_store op n owners) by done.
  case_bool_decide; [|done]. by destruct (owners !! key_bucket k).
Qed.

#[export] Instance nm_laws : ServiceLaws (NoMigrationService B).
Proof.
  split.
  - intros s op n keys bids [owners Hwf] Hb Hk. simpl. unfold nm_GetManyMultiState.
    destruct (remoteRead_values op n owners _ keys bids Hwf Hb Hk) as (vals & -> & Hdom & Hval). rewrite bind_Ok.
    eexists s, vals. split_and!; try done. split; [by exists owners|done].
  - intros s op n keys values bids [[owners Hwf] Hne Ha _] Hm Hnd. simpl. unfold nm_SetManyMultiState.
    rewrite size_eqb, bind_fatal_false by done.
    destruct (overwrite_values op n owners _ keys values bids Hwf Hm Ha Hnd) as (cl' & -> & Hwf' & _ & Hv).
    rewrite bind_Ok. eexists. split; [done|]. split; [split; [by exists owners|done]|done].
  - intros s op n keys values bids [[owners Hwf] Hne Ha _] Hm Hnd. simpl. unfold nm_MergeManyMultiState.
    rewrite size_eqb, bind_fatal_false by done.
    destruct (merge_values op n owners _ keys values bids Hwf Hm Ha Hnd) as (cl' & -> & Hwf' & _ & Hv).
    rewrite bind_Ok. eexists. split; [done|]. split; [split; [by exists owners|done]|done].
  - intros s op n keys bids [[owners Hwf] Hne Ha _]. simpl. unfold nm_DeleteMany.
    rewrite size_eqb, bind_fatal_false by done.
    destruct (delete_values op n owners _ keys bids Hwf Ha) as (cl' & -> & Hwf' & _ & Hv).
    rewrite bind_Ok. eexists. split; [done|]. split; [split; [by exists owners|done]|done].
Qed.
End NoMigration.

(** ** Lazy-basic *)

Record LazyBasicService (B : Type) := MkLazyBasic { lb_cluster : Cluster B }.
Arguments MkLazyBasic {B}.
Arguments lb_cluster {B}.

Section LazyBasic.
Context `{GoRange} `{Schedule} `{RangeQueryLaws B}.
Implicit Types (s : LazyBasicService B) (cl : Cluster B) (keys values : keyed bytes).

Definition lb_GetManyMultiState s (operatorID : Z) keys (bucketIDs : list Z)
    : res (LazyBasicService B * keyed (option bytes)) :=
  cl ← migrateRemoteBuckets (lb_cluster s) operatorID bucketIDs;
  me ← service_of cl (self cl);
  vals ← readLocalState (svc_Backend me) keys;
  Ok (MkLazyBasic cl, vals).

(** The other functions work on the local backend. *)
Definition on_local_backend (f : B → res B) cl : res (Cluster B) :=
  me ← service_of cl (self cl);
  b ← f (svc_Backend me);
  Ok (set_service_of cl (self cl) (with_backend me b)).

Definition lb_SetManyMultiState s keys values : res (LazyBasicService B) :=
  fatal_if (size keys =? 0) "No keys to set";;
  cl ← on_local_backend (λ b, overwriteLocalState b keys values) (lb_cluster s); Ok (MkLazyBasic cl).

Definition lb_MergeManyMultiState s keys values : res (LazyBasicService B) :=
  fatal_if (size keys =? 0) "No keys to merge";;
  cl ← on_local_backend (λ b, mergeLocalState b keys values) (lb_cluster s); Ok (MkLazyBasic cl).

Definition lb_DeleteMany s keys : res (LazyBasicService B) :=
  fatal_if (size keys =? 0) "No keys to delete";;
  cl ← on_local_backend (λ b, deleteLocalState b keys) (lb_cluster s); Ok (MkLazyBasic cl).

#[export] Instance lb_ops : StateServiceOps (LazyBasicService B) := {|
  GetManyMultiState := lb_GetManyMultiState;
  SetManyMultiState s keys values _ := lb_SetManyMultiState s keys values;
  MergeManyMultiState s keys values _ := lb_MergeManyMultiState s keys values;
  DeleteMany s keys _ := lb_DeleteMany s keys
|}.

(** What a worker has read it owns; it holds no stale copies of the buckets of
    others. *)
#[export] Instance lb_view : ServiceView (LazyBasicService B) := {|
  value_of s := cluster_value (lb_cluster s);
  serves s op n := ∃ limit owners, (0 ≤ limit < 2 ^ 62)%Z ∧ mig_wf op n limit owners (lb_cluster s) ∧
    no_stale owners (lb_cluster s);
  held s k := owner_of (owners_of (lb_cluster s)) k = self (lb_cluster s)
|}.

(** A change of the local store at keys [self] owns. *)
Lemma local_update op n limit owners cl (f : B → res B) (F : bytes → option bytes → option bytes) :
  mig_wf op n limit owners cl →
  (∀ b, backend_ok b → ∃ b', f b = Ok b' ∧ backend_ok b' ∧ ∀ k, data_of b' !! k = F k (data_of b !! k)) →
  (∀ k old, F k old ≠ old → ∃ b, key_at op n k b ∧ owner_of owners k = self cl) →
  ∃ cl', on_local_backend f cl = Ok cl' ∧ self cl' = self cl ∧ mig_wf op n limit owners cl' ∧
    (no_stale owners cl → no_stale owners cl') ∧
    (∀ w k, store_at cl' w k = if decide (w = self cl) then F k (store_at cl w k) else store_at cl w k) ∧
    (∀ w, services cl' !! w = if decide (w = self cl) then services cl' !! w else services cl !! w) ∧
    ∀ k, cluster_value cl' k = default [] (w ← owners !! key_bucket k; F k (store_at cl w k)).
Proof.
  intros Hmw Hf HF. pose proof (mw_wf _ _ _ _ _ Hmw) as Hwf.
  destruct (wf_self _ _ _ _ Hwf) as (me & Hme & Ht). destruct (wf_svc _ _ _ _ Hwf _ _ Hme) as (Hid & Hop & Hok).
  destruct (Hf (svc_Backend me) Hok) as (b' & Hrun & Hok' & Hd).
  set (cl' := set_service_of cl (self cl) (with_backend me b')).
  assert (Hu : updated owners F cl cl').
  { split_and!; [done..|]. intros w. simpl. destruct (decide (w = self cl)) as [->|Hne].
    - rewrite Hme. exists b'. rewrite lookup_insert_eq. split_and!; [done..|]. intros k. rewrite Hd.
      case_decide as Ho; [done|]. apply dec_stable. intros Hch. destruct (HF k _ Hch) as (_ & _ & ?). done.
    - rewrite lookup_insert_ne by done. destruct (services cl !! w) as [svc|] eqn:Hsvc; [|done].
      exists (svc_Backend svc). split_and!; [by destruct svc|by apply (wf_svc _ _ _ _ Hwf w)|].
      intros k. case_decide as Ho; [|done]. apply dec_stable. intros Hch.
      destruct (HF k (data_of (svc_Backend svc) !! k)) as (_ & _ & ?); congruence. }
  assert (cluster_wf op n owners cl') as Hwf'.
  { apply (updated_wf op n owners F cl cl' Hwf Hu). intros k old v Hv Hold.
    destruct (HF k old) as (b & ? & _); [congruence|eauto]. }
  assert (Hst : ∀ w k, owner_of owners k ≠ self cl → store_at cl' w k = store_at cl w k).
  { intros w k Ho. unfold store_at. simpl. destruct (decide (w = self cl)) as [->|Hne].
    - rewrite lookup_insert_eq, Hme. simpl. rewrite Hd. apply dec_stable. intros Hch.
      destruct (HF k _ Hch) as (_ & _ & ?). done.
    - by rewrite lookup_insert_ne by done. }
  exists cl'. split_and!; [|done|..].
  - unfold on_local_backend. by rewrite (service_of_Ok _ _ Hme), bind_Ok, Hrun.
  - destruct Hmw as [_ Hms Htab Hsize]. split; simpl; [done..| |].
    + intros i w svc Hi Hne. rewrite lookup_insert_ne by done. by apply (Htab i w svc).
    + intros k v Ho. rewrite Hst by done. by apply Hsize.
  - intros Hfresh k Ho. simpl in *. rewrite !Hst by done. by apply Hfresh.
  - intros w k. unfold store_at. simpl. case_decide as E; [subst w; by rewrite lookup_insert_eq, Hme; apply Hd|].
    by rewrite lookup_insert_ne by done.
  - intros w. simpl. case_decide; [done|]. by rewrite lookup_insert_ne by done.
  - intros k. by apply (updated_value op n owners F cl cl').
Qed.

(** A request [self] may write: its keys are the operator's and are [self]'s. *)
Lemma writable_owned op n limit owners s keys bids k :
  mig_wf op n limit owners (lb_cluster s) → writable op n s keys bids → k ∈ request_keys keys →
  ∃ b, key_at op n k b ∧ owner_of owners k = self (lb_cluster s) ∧ is_Some (owners !! key_bucket k).
Proof.
  intros Hmw Hwr Hk. pose proof (mw_wf _ _ _ _ _ Hmw) as Hwf.
  destruct (request_owner op n owners _ keys bids k Hwf (wr_addressed _ _ _ _ _ Hwr) Hk) as (b & Hb & Ho).
  exists b. split_and!; [done| |eauto]. pose proof (wr_held _ _ _ _ _ Hwr k Hk) as Hh. simpl in Hh.
  by rewrite (owners_of_wf Hwf) in Hh.
Qed.

(** Such a request, run on the local store. *)
Lemma local_request op n s keys bids (f : B → res B) (F : bytes → option bytes → option bytes) :
  writable op n s keys bids →
  (∀ b, backend_ok b → ∃ b', f b = Ok b' ∧ backend_ok b' ∧ ∀ k, data_of b' !! k = F k (data_of b !! k)) →
  (∀ k old, k ∉ request_keys keys → F k old = old) →
  ∃ cl', on_local_backend f (lb_cluster s) = Ok cl' ∧ still_serves op n s (MkLazyBasic cl') ∧
    ∀ k, ∃ old, default [] old = cluster_value (lb_cluster s) k ∧
      cluster_value cl' k = if bool_decide (k ∈ request_keys keys) then default [] (F k old) else default [] old.
Proof.
  intros Hwr Hf HF. destruct (wr_serves _ _ _ _ _ Hwr) as (limit & owners & Hlimit & Hmw & Hfresh).
  pose proof (mw_wf _ _ _ _ _ Hmw) as Hwf.
  destruct (local_update op n limit owners (lb_cluster s) f F Hmw Hf)
    as (cl' & Hrun & Hself & Hmw' & Hfresh' & _ & _ & Hval).
  { intros k old Hch. destruct (writable_owned op n limit owners s keys bids k Hmw Hwr) as (b & ? & ? & _); [|eauto].
    apply dec_stable. intros Hnk. by rewrite HF in Hch. }
  exists cl'. split; [done|]. split.
  - split; [exists limit, owners; auto|]. intros k. simpl. rewrite Hself, (owners_of_wf Hwf).
    by rewrite (owners_of_wf (mw_wf _ _ _ _ _ Hmw')).
  - intros k. exists (w ← owners !! key_bucket k; store_at (lb_cluster s) w k).
    rewrite (cluster_value_store op n owners), Hval by done. split; [done|]. case_bool_decide as Hk.
    + destruct (writable_owned op n limit owners s keys bids k Hmw Hwr Hk) as (_ & _ & _ & [w ->]). done.
    + destruct (owners !! key_bucket k); [|done]. simpl. by rewrite HF.
Qed.

(** A read first makes [self] the owner of the buckets it needs. *)
Lemma lb_read op n limit owners cl keys bids :
  (0 ≤ limit < 2 ^ 62)%Z → mig_wf op n limit owners cl → no_stale owners cl → Forall (λ b, 0 ≤ b < n)%Z bids →
  (∀ id ks, keys !! id = Some ks → Forall2 (key_at op n) ks bids) →
  ∃ cl' me, migrateRemoteBuckets cl op bids = Ok cl' ∧ self cl' = self cl ∧
    services cl' !! self cl' = Some me ∧ backend_ok (svc_Backend me) ∧
    mig_wf op n limit (reown owners bids (self cl)) cl' ∧ no_stale (reown owners bids (self cl)) cl' ∧
    (∀ k, cluster_value cl' k = cluster_value cl k) ∧
    ∀ k, k ∈ request_keys keys → owner_of (reown owners bids (self cl)) k = self cl ∧
      default [] (data_of (svc_Backend me) !! k) = cluster_value cl k.
Proof.
  intros Hlimit Hmw Hfresh Hb Hk. pose proof (mw_wf _ _ _ _ _ Hmw) as Hwf.
  pose proof (wf_op _ _ _ _ Hwf) as Hop. pose proof (wf_n _ _ _ _ Hwf) as Hn.
  destruct (migrateRemoteBuckets_Ok op n limit Hop Hn Hlimit owners cl bids Hmw Hb) as (cl' & Hrun & Hmi).
  pose proof (mi_mig_wf op n limit Hn Hlimit Hmw Hmi) as Hmw'. pose proof (mw_wf _ _ _ _ _ Hmw') as Hwf'.
  pose proof (mi_self _ _ _ _ _ Hmi) as Hself. destruct (wf_self _ _ _ _ Hwf') as (me & Hme & _).
  exists cl', me. split_and!; [done..|by apply (wf_svc _ _ _ _ Hwf' _ _ Hme)|done| | |].
  - by apply (mi_no_stale op n limit Hn Hlimit Hmw Hmi).
  - intros k. by apply (mi_value op n limit Hn Hlimit Hmw Hmi).
  - intros k (id & kl & Hkl & [i Hi]%list_elem_of_lookup)%elem_of_request_keys.
    destruct (Forall2_lookup_l _ _ _ _ _ (Hk id kl Hkl) Hi) as (b & Hbi & Hkb).
    assert (owner_of (reown owners bids (self cl)) k = self cl) as Ho.
    { rewrite (owner_of_key op n _ k b) by (done || lia). rewrite reown_owner.
      - rewrite decide_True; [done|]. by eapply list_elem_of_lookup_2.
      - rewrite (wf_len _ _ _ _ Hwf). destruct Hkb as [? _]. lia. }
    split; [done|]. rewrite <-(mi_value op n limit Hn Hlimit Hmw Hmi k Hfresh), (cluster_value_at Hwf' k b Hkb).
    rewrite <-(owner_of_key op n _ k b), Ho by (done || lia). unfold value_at. by rewrite <-Hself, Hme.
Qed.

#[export] Instance lb_laws : ServiceLaws (LazyBasicService B).
Proof.
  split.
  - intros s op n keys bids (limit & owners & Hlimit & Hmw & Hfresh) Hb Hk. simpl. unfold lb_GetManyMultiState.
    destruct (lb_read op n limit owners _ keys bids Hlimit Hmw Hfresh Hb Hk)
      as (cl' & me & -> & Hself & Hme & Hok & Hmw' & Hfresh' & Hval & Hin).
    rewrite bind_Ok, (service_of_Ok _ _ Hme), bind_Ok, readLocalState_Ok, bind_Ok by done.
    pose proof (mw_wf _ _ _ _ _ Hmw) as Hwf. pose proof (mw_wf _ _ _ _ _ Hmw') as Hwf'.
    eexists _, _. split; [done|]. split_and!; simpl.
    + split; [by exists limit, (reown owners bids (self (lb_cluster s)))|]. intros k. simpl.
      rewrite (owners_of_wf Hwf), (owners_of_wf Hwf'), Hself. unfold owner_of, owner_at. rewrite Nat2Z.id, reown_lookup.
      destruct (owners !! key_bucket k) as [w|]; simpl; [by case_decide|done].
    + done.
    + intros k Hk'. rewrite (owners_of_wf Hwf'), Hself. by apply Hin.
    + intros id. by rewrite lookup_fmap, fmap_is_Some.
    + intros id ks vs Hks. rewrite lookup_fmap, Hks. intros [= <-]. apply Forall2_fmap_r, Forall_Forall2_diag.
      apply Forall_forall. intros k Hk'. apply Hin. apply elem_of_request_keys. eauto.
  - intros s op n keys values bids Hwr Hm Hnd. simpl. unfold lb_SetManyMultiState.
    rewrite size_eqb, bind_fatal_false by apply Hwr.
    destruct (local_request op n s keys bids (λ b, overwriteLocalState b keys values)
      (λ k old, from_option Some old (written keys values k)) Hwr) as (cl' & -> & Hst & Hv).
    { intros b Hb. by apply set_states_Ok. } { intros k old Hk. by rewrite written_None. }
    rewrite bind_Ok. eexists. split; [done|]. split; [done|]. intros k. simpl.
    destruct (Hv k) as (old & <- & ->). case_bool_decide; [by destruct (written keys values k)|by rewrite written_None].
  - intros s op n keys values bids Hwr Hm Hnd. simpl. unfold lb_MergeManyMultiState.
    rewrite size_eqb, bind_fatal_false by apply Hwr.
    destruct (local_request op n s keys bids (λ b, mergeLocalState b keys values)
      (λ k old, from_option (λ v, Some (default [] old ++ v)) old (written keys values k)) Hwr) as (cl' & -> & Hst & Hv).
    { intros b Hb. by apply merge_states_Ok. } { intros k old Hk. by rewrite written_None. }
    rewrite bind_Ok. eexists. split; [done|]. split; [done|]. intros k. simpl.
    destruct (Hv k) as (old & <- & ->). case_bool_decide.
    + destruct (written keys values k); simpl; [done|by rewrite app_nil_r].
    + rewrite written_None by done. simpl. by rewrite app_nil_r.
  - intros s op n keys bids Hwr. simpl. unfold lb_DeleteMany.
    rewrite size_eqb, bind_fatal_false by apply Hwr.
    destruct (local_request op n s keys bids (λ b, deleteLocalState b keys)
      (λ k old, if bool_decide (k ∈ request_keys keys) then None else old) Hwr) as (cl' & -> & Hst & Hv).
    { intros b Hb. by apply deleteLocalState_Ok. } { intros k old Hk. by rewrite bool_decide_false. }
    rewrite bind_Ok. eexists. split; [done|]. split; [done|]. intros k. simpl.
    destruct (Hv k) as (old & <- & ->). by case_bool_decide.
Qed.
End LazyBasic.

(** ** Properties *)

Section Properties.
Context `{GoRange} `{Schedule} `{RangeQueryLaws B}.
Implicit Types (cl : Cluster B) (keys values : keyed bytes).

(** C6: remote writes without migration are read back.  A write request whose
    keys belong to several workers succeeds and changes the store of each
    worker at the keys it owns only; a read that follows, of any keys of the
    operator, returns in request order the written values and, for the other
    keys, the values the cluster had before, whichever order the per-worker
    requests run in. *)
Theorem remote_overwrite_read op n owners cl keys values (wbids : keyed Z) rkeys (rbids : list Z)
    (Hwf : cluster_wf op n owners cl) (Hm : matches keys values) (Ha : addressed op n keys wbids)
    (Hnd : NoDup (request_keys keys)) (Hrb : Forall (λ b, 0 ≤ b < n)%Z rbids)
    (Hr : ∀ id kl, rkeys !! id = Some kl → Forall2 (key_at op n) kl rbids) :
  ∃ cl' vals, remoteOverwrite cl keys values wbids = Ok cl' ∧ cluster_wf op n owners cl' ∧
    updated owners (λ k old, from_option Some old (written keys values k)) cl cl' ∧
    remoteRead cl' rkeys rbids = Ok vals ∧ (∀ id, is_Some (vals !! id) ↔ is_Some (rkeys !! id)) ∧
    ∀ id kl vs, rkeys !! id = Some kl → vals !! id = Some vs →
      Forall2 (λ k v, default [] v = default (cluster_value cl k) (written keys values k)) kl vs.
Proof.
  destruct (overwrite_values op n owners cl keys values wbids) as (cl' & Hrun & Hwf' & Hu & Hv); [done..|].
  destruct (remoteRead_values op n owners cl' rkeys rbids Hwf' Hrb Hr) as (vals & Hread & Hdom & Hval).
  exists cl', vals. split_and!; [done..|]. intros id kl vs Hkl Hvs.
  eapply Forall2_impl; [by apply (Hval id kl vs)|]. intros k v ->. apply Hv.
Qed.

(** Remote merges and deletes without migration.  Merging appends the
    given values to the values the owners hold, deleting removes exactly the
    requested keys, both at the owners only; other keys keep their values. *)
Theorem remote_merge_delete op n owners cl keys values (bids : keyed Z)
    (Hwf : cluster_wf op n owners cl) (Hm : matches keys values) (Ha : addressed op n keys bids)
    (Hnd : NoDup (request_keys keys)) :
  ∃ clm cld, remoteMerge cl keys values bids = Ok clm ∧ cluster_wf op n owners clm ∧
    updated owners (λ k old, from_option (λ v, Some (default [] old ++ v)) old (written keys values k)) cl clm ∧
    (∀ k, cluster_value clm k = cluster_value cl k ++ default [] (written keys values k)) ∧
    remoteDelete clm keys bids = Ok cld ∧ cluster_wf op n owners cld ∧
    updated owners (λ k old, if bool_decide (k ∈ request_keys keys) then None else old) clm cld ∧
    ∀ k, cluster_value cld k = if bool_decide (k ∈ request_keys keys) then [] else cluster_value cl k.
Proof.
  destruct (merge_values op n owners cl keys values bids) as (clm & Hrun & Hwf' & Hu & Hv); [done..|].
  destruct (delete_values op n owners clm keys bids) as (cld & Hrun' & Hwf'' & Hu' & Hv'); [done..|].
  exists clm, cld. split_and!; try done. intros k. rewrite Hv'. case_bool_decide; [done|].
  by rewrite Hv, written_None, app_nil_r by done.
Qed.

(** C5: lazy-basic migration.  A request moves every bucket it names to the
    requesting worker, from whichever workers own them: afterwards the table of
    the worker and the table of each former owner name the worker for these
    buckets, the streams are ready for the next request, and the local store
    answers for every key of the buckets.  The value of a key is then exactly
    what its former owner held or, where the owner holds no record of a key of
    these buckets, what the requesting worker itself still holds of it.  So no
    value changes, and this stays so for later requests, when the worker holds
    no record of a foreign bucket that the bucket's owner lacks ([no_stale]).
    The workers keep what they hand over, and a bucket that returns after a
    key was deleted violates this condition: see [deleted_key_reappears]. *)
Theorem lazy_basic_migration op n limit owners cl (bids : list Z)
    (Hlimit : (0 ≤ limit < 2 ^ 62)%Z) (Hmw : mig_wf op n limit owners cl)
    (Hb : Forall (λ b, 0 ≤ b < n)%Z bids) :
  ∃ cl' me, migrateRemoteBuckets cl op bids = Ok cl' ∧ self cl' = self cl ∧
    services cl' !! self cl = Some me ∧
    mig_wf op n limit (reown owners bids (self cl)) cl' ∧
    (∀ b, b ∈ bids → BucketIdxToWorkerID (svc_Table me) b = Ok (self cl)) ∧
    (∀ b, b ∈ bids → owner_at owners b ≠ self cl → ∃ svc, services cl' !! owner_at owners b = Some svc ∧
       BucketIdxToWorkerID (svc_Table svc) b = Ok (self cl)) ∧
    (∀ k b, b ∈ bids → key_at op n k b → default [] (data_of (svc_Backend me) !! k) = cluster_value cl' k) ∧
    (∀ k, cluster_value cl' k = default [] (w ← owners !! key_bucket k;
       first_of (store_at cl w k) (if decide (in_buckets bids k) then store_at cl (self cl) k else None))) ∧
    (no_stale owners cl → no_stale (reown owners bids (self cl)) cl' ∧
       ∀ k, cluster_value cl' k = cluster_value cl k).
Proof.
  pose proof (mw_wf _ _ _ _ _ Hmw) as Hwf. pose proof (wf_n _ _ _ _ Hwf) as Hn.
  destruct (migrateRemoteBuckets_Ok op n limit (wf_op _ _ _ _ Hwf) Hn Hlimit owners cl bids Hmw Hb) as (cl' & Hrun & Hmi).
  pose proof (mi_mig_wf op n limit Hn Hlimit Hmw Hmi) as Hmw'. pose proof (mw_wf _ _ _ _ _ Hmw') as Hwf'.
  pose proof (mi_self _ _ _ _ _ Hmi) as Hself. destruct (wf_self _ _ _ _ Hwf') as (me & Hme & _).
  rewrite Forall_forall in Hb. rewrite Hself in Hme.
  assert (Hown : ∀ b, b ∈ bids → owner_at (reown owners bids (self cl)) b = self cl).
  { intros b Hin. rewrite reown_owner, decide_True; [done..|]. rewrite (wf_len _ _ _ _ Hwf). specialize (Hb b Hin). lia. }
  exists cl', me. split_and!; try done.
  - intros b Hin. rewrite (owner_found Hwf') by (rewrite ?Hself; auto). by rewrite Hown.
  - intros b Hin Hne. pose proof (mi_other _ _ _ _ _ Hmi _ Hne) as Ho.
    destruct (owner_service Hwf b (Hb b Hin)) as (svc & Hsvc & _). rewrite Hsvc in Ho. destruct Ho as (t & Ht & Hbs).
    destruct (mw_table _ _ _ _ _ Hmw _ _ svc (owner_lookup Hwf b (Hb b Hin)) Hne Hsvc) as (ow & How & Hlen & _).
    destruct (Hbs ow How) as (bs & Ht' & Hin'). exists (with_table svc t). split; [done|].
    eapply BucketIdxToWorkerID_Ok; [done|specialize (Hb b Hin); lia|]. rewrite reown_lookup.
    destruct (lookup_lt_is_Some_2 ow (Z.to_nat b)) as [o ->].
    { rewrite Hlen, (wf_len _ _ _ _ Hwf). specialize (Hb b Hin). lia. }
    simpl. rewrite Z2Nat.id by (specialize (Hb b Hin); lia). rewrite decide_True; [done|]. by apply Hin'.
  - intros k b Hin Hk. rewrite (cluster_value_at Hwf' k b Hk), Hown by done.
    unfold value_at. by rewrite Hme.
  - apply (mi_value_exact op n limit Hn Hlimit Hmw Hmi).
  - intros Hfresh. split; [by apply (mi_no_stale op n limit Hn Hlimit Hmw Hmi)|].
    intros k. by apply (mi_value op n limit Hn Hlimit Hmw Hmi).
Qed.
End Properties.

(** ** Two workers *)

(** Operator 7 with two buckets: worker 1 owns the first and holds a record of
    it, worker 2 owns the second. *)
Definition demo_key (b x : Z) : bytes := be_encode 2 7 ++ be_encode 4 b ++ [x].

Definition demo_service (w : Z) (d : store) : Service (PebbleStateBackend store) :=
  MkService 7 w (MkPebble d false 1 1) (MkKeyTable (toy_hash 1) (mkBucket <$> [1; 2]%Z)).

Definition demo_services : gmap Z (Service (PebbleStateBackend store)) :=
  {[ 1 := demo_service 1 {[ demo_key 0 5 := [50; 51] ]}; 2 := demo_service 2 {[ demo_key 1 5 := [60] ]} ]}%Z.

(** As worker 2 sees it, with chunks of at most 16 bytes. *)
Definition demo_cluster : Cluster (PebbleStateBackend store) :=
  MkCluster demo_services 2 {[ 1%Z := NewStateChunkSender 16 ]}.

Lemma demo_services_inv w svc : demo_services !! w = Some svc →
  (w = 1%Z ∧ svc = demo_service 1 {[ demo_key 0 5 := [50; 51]%Z ]}) ∨
  (w = 2%Z ∧ svc = demo_service 2 {[ demo_key 1 5 := [60]%Z ]}).
Proof.
  unfold demo_services. intros [[<- <-]|[_ Hw]]%lookup_insert_Some; [by left|].
  apply lookup_singleton_Some in Hw as [<- <-]. by right.
Qed.

Lemma demo_owner i w : ([1; 2]%Z : list Z) !! i = Some w → (i = 0 ∧ w = 1%Z) ∨ (i = 1 ∧ w = 2%Z).
Proof. destruct i as [|[|i]]; simpl; intros [= <-]; auto. Qed.

Lemma demo_key_at b x : (0 ≤ b < 2)%Z → key_at 7 2 (demo_key b x) b.
Proof. intros Hb. split; [done|]. by exists [x]. Qed.

Lemma demo_wf : cluster_wf 7 2 [1; 2]%Z demo_cluster.
Proof.
  split; try done.
  - by eexists.
  - intros w svc [[-> ->]|[-> ->]]%demo_services_inv; by split_and!.
  - intros i w [[-> ->]|[-> ->]]%demo_owner; (split; [by eexists|]); [by eexists|done].
  - intros w svc k v [[-> ->]|[-> ->]]%demo_services_inv Hk; simpl in Hk;
      apply lookup_singleton_Some in Hk as [<- <-]; eexists; by apply demo_key_at.
Qed.

Lemma demo_mig_wf : mig_wf 7 2 16 [1; 2]%Z demo_cluster.
Proof.
  split; [apply demo_wf|..].
  - intros i w [[-> ->]|[-> ->]]%demo_owner Hne; [|done]. by eexists.
  - intros i w svc [[-> ->]|[-> ->]]%demo_owner Hne; [|done]. intros [= <-]. eexists. split_and!; done.
  - intros k v Hne Hk. unfold store_at in Hk. destruct (services demo_cluster !! _) as [svc|] eqn:E; [|done].
    apply demo_services_inv in E as [[_ ->]|[E ->]]; [|done]. simpl in Hk.
    apply lookup_singleton_Some in Hk as [<- <-]. unfold record_size. simpl. lia.
Qed.

Lemma demo_no_stale : no_stale [1; 2]%Z demo_cluster.
Proof.
  intros k Hne [v Hk]. unfold store_at in Hk.
  change (({[ demo_key 1 5 := [60]%Z ]} : store) !! k = Some v) in Hk. apply lookup_singleton_Some in Hk as [<- _].
  by destruct Hne.
Qed.

Lemma remote_overwrite_read_witness :
  ∃ cl' vals, remoteOverwrite demo_cluster {[ 3%Z := [demo_key 0 5; demo_key 1 6] ]}
      {[ 3%Z := [[8]; [9]]%Z ]} {[ 3%Z := [0; 1]%Z ]} = Ok cl' ∧
    remoteRead cl' {[ 3%Z := [demo_key 0 5; demo_key 1 5] ]} [0; 1]%Z = Ok vals ∧
    ∀ vs, vals !! 3%Z = Some vs →
      Forall2 (λ k v, default [] v = default (cluster_value demo_cluster k)
        (written {[ 3%Z := [demo_key 0 5; demo_key 1 6] ]} {[ 3%Z := [[8]; [9]]%Z ]} k))
        [demo_key 0 5; demo_key 1 5] vs.
Proof.
  destruct (remote_overwrite_read 7 2 [1; 2]%Z demo_cluster {[ 3%Z := [demo_key 0 5; demo_key 1 6] ]}
    {[ 3%Z := [[8]; [9]]%Z ]} {[ 3%Z := [0; 1]%Z ]} {[ 3%Z := [demo_key 0 5; demo_key 1 5] ]} [0; 1]%Z)
    as (cl' & vals & Hw & _ & _ & Hr & _ & Hv).
  - apply demo_wf.
  - intros id ks [<- <-]%lookup_singleton_Some. by eexists.
  - intros id ks [<- <-]%lookup_singleton_Some. eexists. split; [done|].
    repeat (constructor; [by apply demo_key_at|]). constructor.
  - vm_compute. repeat (constructor; [set_solver|]). constructor.
  - repeat (constructor; [lia|]). constructor.
  - intros id ks [<- <-]%lookup_singleton_Some. repeat (constructor; [by apply demo_key_at|]). constructor.
  - exists cl', vals. split; [exact Hw|]. split; [exact Hr|]. intros vs. by apply (Hv 3%Z).
Defined.

Lemma remote_merge_delete_witness :
  ∃ clm, remoteMerge demo_cluster {[ 3%Z := [demo_key 0 5; demo_key 1 6] ]}
      {[ 3%Z := [[8]; [9]]%Z ]} {[ 3%Z := [0; 1]%Z ]} = Ok clm ∧
    cluster_value clm (demo_key 0 5) = [50; 51; 8]%Z.
Proof.
  destruct (remote_merge_delete 7 2 [1; 2]%Z demo_cluster {[ 3%Z := [demo_key 0 5; demo_key 1 6] ]}
    {[ 3%Z := [[8]; [9]]%Z ]} {[ 3%Z := [0; 1]%Z ]}) as (clm & cld & Hm & _ & _ & Hv & _).
  - apply demo_wf.
  - intros id ks [<- <-]%lookup_singleton_Some. by eexists.
  - intros id ks [<- <-]%lookup_singleton_Some. eexists. split; [done|].
    repeat (constructor; [by apply demo_key_at|]). constructor.
  - vm_compute. repeat (constructor; [set_solver|]). constructor.
  - exists clm. split; [exact Hm|]. rewrite Hv. vm_compute. reflexivity.
Defined.

Lemma lazy_basic_migration_witness :
  ∃ cl' me, migrateRemoteBuckets demo_cluster 7 [0; 1; 0]%Z = Ok cl' ∧
    services cl' !! 2%Z = Some me ∧ BucketIdxToWorkerID (svc_Table me) 0 = Ok 2%Z ∧
    default [] (data_of (svc_Backend me) !! demo_key 0 5) = [50; 51]%Z.
Proof.
  destruct (lazy_basic_migration 7 2 16 [1; 2]%Z demo_cluster [0; 1; 0]%Z)
    as (cl' & me & Hrun & _ & Hme & _ & Ht & _ & Hl & _ & Hv).
  - lia.
  - apply demo_mig_wf.
  - repeat (constructor; [lia|]). constructor.
  - exists cl', me. split; [exact Hrun|]. split; [exact Hme|]. split; [apply Ht; left|].
    transitivity (cluster_value demo_cluster (demo_key 0 5)); [|vm_compute; reflexivity].
    rewrite (Hl (demo_key 0 5) 0%Z); [apply Hv, demo_no_stale|left|apply demo_key_at; lia].
Defined.

(** ** Buckets that return *)

(** The same workers, seen from worker [w] and its streams. *)
Definition seen_from {B} (w : Z) (sts : gmap Z StateChunkSender) (cl : Cluster B) : Cluster B :=
  MkCluster (services cl) w sts.

Section Returning.
Context `{GoRange} `{Schedule} `{RangeQueryLaws B}.
Context (op n limit : Z).
Implicit Types (cl : Cluster B) (svc : Service B).

(** Every record of the cluster fits in a chunk. *)
Definition all_fit cl : Prop := ∀ w k v, store_at cl w k = Some v → (record_size (k, v) ≤ limit)%Z.

(** Worker [w] has a quiet stream from every other worker. *)
Definition connected (w : Z) (sts : gmap Z StateChunkSender) cl : Prop :=
  ∀ w', is_Some (services cl !! w') → w' ≠ w → ∃ st, sts !! w' = Some st ∧ quiet limit st.

(** A worker that knows the owners can ask for buckets in its turn. *)
Lemma seen_from_mig_wf owners cl w svc sts :
  mig_wf op n limit owners cl → is_u16 w → services cl !! w = Some svc → table_owners (svc_Table svc) owners →
  connected w sts cl → all_fit cl → mig_wf op n limit owners (seen_from w sts cl).
Proof.
  intros [Hwf _ Htab _] Hw Hsvc Ht Hst Hfit.
  assert (Hstr : ∀ i w', owners !! i = Some w' → w' ≠ w → ∃ st, sts !! w' = Some st ∧ quiet limit st).
  { intros i w' Hi. apply Hst. by eapply (wf_owner _ _ _ _ Hwf). }
  split; simpl; [split; simpl; try apply Hwf; try done|done|..].
  - by exists svc.
  - intros i w' Hi. split; [by eapply (wf_owner _ _ _ _ Hwf)|]. intros Hne.
    destruct (Hstr i w' Hi Hne) as (st & -> & _). eauto.
  - intros i w' svc' Hi _ Hsvc'. destruct (decide (w' = self cl)) as [->|Hne]; [|by eapply Htab].
    destruct (wf_self _ _ _ _ Hwf) as (me & Hme & Hown). exists owners. by replace svc' with me by congruence.
  - intros k v _. apply Hfit.
Qed.

(** The store of a worker holds records of the migration's ends only. *)
Lemma migrated_fit owners bids cl cl' : migrated limit owners bids cl cl' → all_fit cl → all_fit cl'.
Proof.
  intros Hmi Hfit w k v Hk. destruct (decide (w = self cl)) as [->|Hne].
  - rewrite (mi_store_self limit Hmi) in Hk. case_decide; simpl in Hk; [|by eapply Hfit].
    destruct (store_at cl (owner_of owners k) k) eqn:E; simpl in Hk; simplify_eq; by eapply Hfit.
  - rewrite (mi_store limit Hmi) in Hk by done. by eapply Hfit.
Qed.

(** The former owner of a bucket learns the new one. *)
Lemma migrated_table owners b cl cl' w svc :
  migrated limit owners [b] cl cl' → w ≠ self cl → owner_at owners b = w → services cl !! w = Some svc →
  table_owners (svc_Table svc) owners →
  ∃ svc', services cl' !! w = Some svc' ∧ table_owners (svc_Table svc') (reown owners [b] (self cl)).
Proof.
  intros Hmi Hne Ho Hsvc Ht. pose proof (mi_other _ _ _ _ _ Hmi w Hne) as Hw. rewrite Hsvc in Hw.
  destruct Hw as (t & Hw & Hbs). destruct (Hbs owners Ht) as (bs & Ht' & Hin). exists (with_table svc t).
  split; [done|]. simpl. rewrite (reown_ext owners [b] bs); [done|]. intros b' _ _. rewrite Hin. set_solver.
Qed.

(** Deleting one key of an own bucket. *)
Lemma delete_own owners cl id k b :
  mig_wf op n limit owners cl → key_at op n k b → owner_of owners k = self cl →
  ∃ cl', lb_DeleteMany (MkLazyBasic cl) {[ id := [k] ]} = Ok (MkLazyBasic cl') ∧ self cl' = self cl ∧
    mig_wf op n limit owners cl' ∧ cluster_value cl' k = [] ∧
    (∀ w k', store_at cl' w k' = if decide (w = self cl ∧ k' = k) then None else store_at cl w k') ∧
    ∀ w, w ≠ self cl → services cl' !! w = services cl !! w.
Proof.
  intros Hmw Hk Ho.
  assert (Hkeys : ∀ k', k' ∈ request_keys ({[ id := [k] ]} : keyed bytes) ↔ k' = k).
  { intros k'. rewrite elem_of_request_keys. split.
    - intros (i & ks & [_ <-]%lookup_singleton_Some & Hin). by apply list_elem_of_singleton in Hin.
    - intros ->. exists id, [k]. rewrite lookup_singleton_eq. split; [done|by left]. }
  destruct (local_update op n limit owners cl (λ b, deleteLocalState b {[ id := [k] ]})
    (λ k' old, if bool_decide (k' ∈ request_keys {[ id := [k] ]}) then None else old) Hmw)
    as (cl' & Hrun & Hself & Hmw' & _ & Hst & Hsvc & Hv).
  { intros b' Hb'. by apply deleteLocalState_Ok. }
  { intros k' old Hch. case_bool_decide as Hin; [|done]. apply Hkeys in Hin as ->. eauto. }
  exists cl'. split_and!; try done.
  - unfold lb_DeleteMany. simpl. rewrite map_size_singleton. simpl. by rewrite Hrun.
  - rewrite Hv, bool_decide_true by by apply Hkeys. by destruct (owners !! key_bucket k).
  - intros w k'. rewrite Hst. case_decide as Hw.
    + case_bool_decide as Hin; rewrite Hkeys in Hin; [by rewrite decide_True|]. rewrite decide_False; [done|tauto].
    + rewrite decide_False; [done|tauto].
  - intros w Hw. rewrite Hsvc. by rewrite decide_False.
Qed.

Context (Hlimit : (0 ≤ limit < 2 ^ 62)%Z).

(** Reading one key of a foreign bucket. *)
Lemma read_foreign owners cl id k b :
  mig_wf op n limit owners cl → key_at op n k b → owner_of owners k ≠ self cl →
  ∃ cl', lb_GetManyMultiState (MkLazyBasic cl) op {[ id := [k] ]} [b] = Ok (MkLazyBasic cl',
      {[ id := [first_of (store_at cl (owner_of owners k) k) (store_at cl (self cl) k)] ]}) ∧
    migrated limit owners [b] cl cl'.
Proof.
  intros Hmw Hk Ho. pose proof (mw_wf _ _ _ _ _ Hmw) as Hwf. pose proof (wf_n _ _ _ _ Hwf) as Hn.
  assert (Forall (λ b, 0 ≤ b < n)%Z [b]) as Hb by (constructor; [apply Hk|constructor]).
  destruct (migrateRemoteBuckets_Ok op n limit (wf_op _ _ _ _ Hwf) Hn Hlimit owners cl [b] Hmw Hb) as (cl' & Hrun & Hmi).
  exists cl'. split; [|done]. unfold lb_GetManyMultiState. simpl. rewrite Hrun, bind_Ok, (mi_self _ _ _ _ _ Hmi).
  destruct (mi_me _ _ _ _ _ Hmi) as (me & t & b' & Hme & Hme' & _ & Hok & Hd).
  rewrite (service_of_Ok _ _ Hme'), bind_Ok, readLocalState_Ok, bind_Ok by done. simpl.
  rewrite map_fmap_singleton. unfold read_all. simpl. rewrite Hd, decide_True.
  - unfold store_at at 3. by rewrite Hme.
  - split; [|done]. rewrite (key_in_buckets op n Hn k b) by done. by left.
Qed.
End Returning.

(** C40: stale copies.  A worker that hands a bucket over keeps its records.
    When the new owner reads a record of such a bucket and deletes its key,
    the key has no value; when the former owner then asks for the bucket, its
    old record is the value again, and its read returns it.  This holds for
    every bucket, key and record of every well-formed cluster whose records fit
    in chunks, whose streams are quiet and in which both workers agree on the
    owners, whichever workers hold the other buckets and whatever else is
    stored. *)
Theorem deleted_key_reappears `{GoRange} `{Schedule} `{RangeQueryLaws B} op n limit owners (cl : Cluster B)
    w svc sts id k b v
    (Hlimit : (0 ≤ limit < 2 ^ 62)%Z) (Hmw : mig_wf op n limit owners cl) (Hfit : all_fit limit cl)
    (Hk : key_at op n k b) (Hw : owner_of owners k = w) (Hne : w ≠ self cl)
    (Hu16 : is_u16 w) (Hsvc : services cl !! w = Some svc) (Ht : table_owners (svc_Table svc) owners)
    (Hst : connected limit w sts cl) (Hv : store_at cl w k = Some v) :
  ∃ cl1 cl2 cl3,
    lb_GetManyMultiState (MkLazyBasic cl) op {[ id := [k] ]} [b] = Ok (MkLazyBasic cl1, {[ id := [Some v] ]}) ∧
    lb_DeleteMany (MkLazyBasic cl1) {[ id := [k] ]} = Ok (MkLazyBasic cl2) ∧ cluster_value cl2 k = [] ∧
    lb_GetManyMultiState (MkLazyBasic (seen_from w sts cl2)) op {[ id := [k] ]} [b] =
      Ok (MkLazyBasic cl3, {[ id := [Some v] ]}) ∧ cluster_value cl3 k = v.
Proof.
  pose proof (mw_wf _ _ _ _ _ Hmw) as Hwf. pose proof (wf_n _ _ _ _ Hwf) as Hn.
  assert (owner_of owners k ≠ self cl) as Hfar by congruence.
  assert (owner_at owners b = w) as Hb by (rewrite <-(owner_of_key op n _ k b) by (done || lia); done).
  destruct (read_foreign op n limit Hlimit owners cl id k b Hmw Hk Hfar) as (cl1 & Hrun1 & Hmi).
  rewrite Hw, Hv in Hrun1. pose proof (mi_mig_wf op n limit Hn Hlimit Hmw Hmi) as Hmw1.
  pose proof (mi_self _ _ _ _ _ Hmi) as Hself.
  assert (owner_of (reown owners [b] (self cl)) k = self cl) as Ho1.
  { rewrite (mi_owner_of op n limit Hn Hmw k b Hk), decide_True; [done|]. rewrite (key_in_buckets op n Hn k b) by done. by left. }
  destruct (delete_own op n limit _ cl1 id k b Hmw1 Hk) as (cl2 & Hrun2 & Hself2 & Hmw2 & Hnil & Hst2 & Hsvc2).
  { by rewrite Hself. }
  destruct (migrated_table limit owners b cl cl1 w svc Hmi Hne Hb Hsvc Ht) as (svc' & Hsvc' & Ht').
  rewrite Hself in Hst2, Hsvc2.
  assert (mig_wf op n limit (reown owners [b] (self cl)) (seen_from w sts cl2)) as Hmw3.
  { eapply (seen_from_mig_wf _ _ _ _ _ _ svc'); try done; [by rewrite Hsvc2| |].
    - intros w' [svc2 Hw'] Hne'. apply Hst; [|done].
      destruct (decide (w' = self cl)) as [->|Hw'ne]; [destruct (wf_self _ _ _ _ Hwf) as (me & -> & _); eauto|].
      rewrite Hsvc2 in Hw' by done. destruct (mi_back limit Hmi w' svc2 Hw') as (svc0 & -> & _). eauto.
    - intros w' k' v' Hk'. rewrite Hst2 in Hk'. case_decide; [done|]. by eapply (migrated_fit limit owners [b] cl cl1). }
  destruct (read_foreign op n limit Hlimit _ _ id k b Hmw3 Hk) as (cl3 & Hrun3 & Hmi3).
  { rewrite Ho1. simpl. congruence. }
  assert (Hback : first_of (store_at (seen_from w sts cl2) (self cl) k) (store_at (seen_from w sts cl2) w k) = Some v).
  { change (first_of (store_at cl2 (self cl) k) (store_at cl2 w k) = Some v).
    rewrite !Hst2, decide_True, decide_False by tauto. simpl. by rewrite (mi_store limit Hmi). }
  rewrite Ho1 in Hrun3. simpl in Hrun3. rewrite Hback in Hrun3. exists cl1, cl2, cl3. split_and!; try done.
  rewrite (mi_value_exact op n limit Hn Hlimit Hmw3 Hmi3).
  assert (reown owners [b] (self cl) !! key_bucket k = Some (self cl)) as ->.
  { rewrite reown_lookup, (key_bucket_at op n k b), (owner_lookup Hwf b) by (done || lia || apply Hk). simpl.
    rewrite Z2Nat.id, decide_True; [done|by left|apply Hk]. }
  rewrite decide_True by (rewrite (key_in_buckets op n Hn k b) by done; by left). simpl. by rewrite Hback.
Qed.

Lemma deleted_key_reappears_witness :
  ∃ cl1 cl2 cl3,
    lb_GetManyMultiState (MkLazyBasic demo_cluster) 7 {[ 3%Z := [demo_key 0 5] ]} [0]%Z =
      Ok (MkLazyBasic cl1, {[ 3%Z := [Some [50; 51]%Z] ]}) ∧
    lb_DeleteMany (MkLazyBasic cl1) {[ 3%Z := [demo_key 0 5] ]} = Ok (MkLazyBasic cl2) ∧
    cluster_value cl2 (demo_key 0 5) = [] ∧
    lb_GetManyMultiState (MkLazyBasic (seen_from 1 {[ 2%Z := NewStateChunkSender 16 ]} cl2)) 7
      {[ 3%Z := [demo_key 0 5] ]} [0]%Z = Ok (MkLazyBasic cl3, {[ 3%Z := [Some [50; 51]%Z] ]}) ∧
    cluster_value cl3 (demo_key 0 5) = [50; 51]%Z.
Proof.
  apply (deleted_key_reappears 7 2 16 [1; 2]%Z demo_cluster 1
    (demo_service 1 {[ demo_key 0 5 := [50; 51]%Z ]})); try done.
  - apply demo_mig_wf.
  - intros w k v Hk. unfold store_at in Hk. destruct (services demo_cluster !! w) as [svc|] eqn:E; [|done].
    apply demo_services_inv in E as [[_ ->]|[_ ->]]; simpl in Hk;
      apply lookup_singleton_Some in Hk as [<- <-]; by vm_compute.
  - by apply demo_key_at.
  - intros w [svc [[-> ->]|[-> ->]]%demo_services_inv] Hne; [done|]. by eexists.
Defined.
