(* ===== verification/TcpFrames.v ===== *)
(** * The TCP protocol of per-key state fetches

    The request and response frames that the client
    ([state/lazyBykeyTcpUtil.go]) and the server
    ([worker/stateCommTcpApi.go], [worker/stateCommUtil/stateCommTcpUtil.go])
    exchange: needed keys by state, and additional keys of the eventual
    migration, whose values come in several frames.  A fetch over the frames
    is a read of the server's backend. *)

From stdpp Require Import prelude gmap strings list.
From Stdlib Require Import ZArith Lia.
From S2P Require Import Prelude Backend StateService Cluster.

(** ** Constants *)

Definition MagicStart : Z := 0xABCDEF01.
Definition MagicEnd : Z := 0x10FEDCBA.
Definition TcpMaxMessageSize : Z := 50 * 1024 * 1024.
Definition TcpMsgTypeKeyedFetch : Z := 1.
Definition TcpMsgTypeAdditionalFetch : Z := 2.
Definition AdditionalKeyGetManyBatchSize : nat := 1000.

(** ** Writing a frame

    A frame is built in a buffer of [TcpMaxMessageSize] bytes; [data] is the
    buffer up to the offset.  An integer written past the end panics, [copy]
    truncates and panics only when it starts past the end: what a truncated
    copy leaves out is never sent, since the write of [MAGIC_END] follows. *)

Definition buf_put (data bs : bytes) : res bytes :=
  panic_if (TcpMaxMessageSize <? Z.of_nat (length data + length bs))%Z;; Ok (data ++ bs).

Definition buf_copy (data bs : bytes) : res bytes :=
  panic_if (TcpMaxMessageSize <? Z.of_nat (length data))%Z;; Ok (data ++ bs).

Definition write_entry (data e : bytes) : res bytes :=
  data ← buf_put data (be_encode 4 (u32 (Z.of_nat (length e)))); buf_copy data e.

Definition write_state (data : bytes) (x : Z * list bytes) : res bytes :=
  data ← buf_put data (be_encode 2 x.1);
  data ← buf_put data (be_encode 4 (u32 (Z.of_nat (length x.2))));
  foldM write_entry data x.2.

(** [MAGIC_END], then the header. *)
Definition finish_frame (data : bytes) : res bytes :=
  data ← buf_put data (be_encode 4 MagicEnd);
  Ok (be_encode 4 MagicStart ++ be_encode 4 (u32 (Z.of_nat (length data) - 8)) ++ drop 8 data).

Section Writers.
Context `{GoRange}.

(** The request of [fetchStateByTcp]. *)
Definition keyed_request (keys : keyed bytes) : res bytes :=
  data ← buf_put (replicate 8 0%Z) [TcpMsgTypeKeyedFetch];
  data ← buf_put data (be_encode 2 (u16 (Z.of_nat (size keys))));
  data ← foldM write_state data (go_range keys);
  finish_frame data.

Definition SendTcpResponse (valueMap : keyed (option bytes)) : res bytes :=
  data ← buf_put (replicate 8 0%Z) (be_encode 2 (u16 (Z.of_nat (size valueMap))));
  data ← foldM write_state data ((λ x, (x.1, on_wire x.2)) <$> go_range valueMap);
  finish_frame data.

Definition sendAdditionalKeysByTcp (keys : list bytes) : res bytes :=
  data ← buf_put (replicate 8 0%Z) [TcpMsgTypeAdditionalFetch];
  data ← buf_put data (be_encode 4 (u32 (Z.of_nat (length keys))));
  data ← foldM write_entry data keys;
  finish_frame data.
End Writers.

(** The values that fit in one frame; the first one must. *)
Fixpoint fill_chunk (start : bool) (data : bytes) (values : list bytes)
    : res (bytes * nat * list bytes) :=
  match values with
  | [] => Ok (data, 0, [])
  | v :: rest =>
      if (TcpMaxMessageSize - 4 <? Z.of_nat (length data + 4 + length v))%Z
      then if start then Crash (Fatal "Single value size exceeds max TCP message payload")
           else Ok (data, 0, values)
      else
        '(data, n, rest) ← fill_chunk false
          (data ++ be_encode 4 (u32 (Z.of_nat (length v))) ++ v) rest;
        Ok (data, S n, rest)
  end.

Fixpoint send_chunks (fuel : nat) (values : list bytes) : res bytes :=
  match fuel with
  | 0 => Crash Diverge
  | S fuel =>
      '(data, n, rest) ← fill_chunk true (replicate 12 0%Z) values;
      let frame := be_encode 4 MagicStart ++ be_encode 4 (u32 (Z.of_nat (length data) + 4 - 8)) ++
        be_encode 4 (u32 (Z.of_nat n)) ++ drop 12 data ++ be_encode 4 MagicEnd in
      if length rest =? 0 then Ok frame
      else more ← send_chunks fuel rest; Ok (frame ++ more)
  end.

Definition SendAdditionalKeysResponse (values : list (option bytes)) : res bytes :=
  send_chunks (S (length values)) (on_wire values).

(** ** Reading a frame *)

(** [network.ReadAll]: blocks until the bytes are there. *)
Definition ReadAll (conn : bytes) (n : nat) : res (bytes * bytes) :=
  if (length conn <? n) then Crash Blocked else Ok (take n conn, drop n conn).

Definition be_at (buf : bytes) (i j : nat) : res Z := b ← go_slice buf i j; Ok (be_decode b).

(** The header, the body and their validation; the bytes of the buffer past
    the frame are those of earlier messages. *)
Definition read_frame (buf conn : bytes) : res (bytes * bytes) :=
  '(header, conn) ← ReadAll conn 8;
  let buf := header ++ drop 8 buf in
  magic ← be_at buf 0 4;
  fatal_if (negb (magic =? MagicStart)%Z) "Invalid MAGIC_START";;
  len ← be_at buf 4 8;
  fatal_if (TcpMaxMessageSize - 8 <? len)%Z "TCP message length exceeds max message size";;
  '(body, conn) ← ReadAll conn (Z.to_nat len);
  let buf := take 8 buf ++ body ++ drop (8 + Z.to_nat len) buf in
  last ← be_at buf (8 + Z.to_nat len - 4) (8 + Z.to_nat len);
  fatal_if (negb (last =? MagicEnd)%Z) "Invalid MAGIC_END";;
  Ok (buf, conn).

Definition ReadTcpRequestHeader (buf conn : bytes) : res (Z * nat * bytes * bytes) :=
  '(buf, conn) ← read_frame buf conn;
  msgType ← idx buf 8;
  Ok (msgType, 9, buf, conn).

Fixpoint read_entries (n : nat) (buf : bytes) (offset : nat) : res (list bytes * nat) :=
  match n with
  | 0 => Ok ([], offset)
  | S n =>
      size ← be_at buf offset (offset + 4);
      e ← go_slice buf (offset + 4) (offset + 4 + Z.to_nat size);
      '(es, offset) ← read_entries n buf (offset + 4 + Z.to_nat size);
      Ok (e :: es, offset)
  end.

(** The loop over the states of a frame; a request with no keys is refused. *)
Fixpoint read_states (request : bool) (n : nat) (buf : bytes) (offset : nat) (m : keyed bytes)
    : res (keyed bytes) :=
  match n with
  | 0 => Ok m
  | S n =>
      stateID ← be_at buf offset (offset + 2);
      num ← be_at buf (offset + 2) (offset + 6);
      fatal_if (request && (num <=? 0)%Z) "Invalid number of keys in TCP request";;
      '(es, offset) ← read_entries (Z.to_nat num) buf (offset + 6);
      read_states request n buf offset (<[stateID := es]> m)
  end.

Definition DeserializeKeyedRequest (buf : bytes) (offset : nat) : res (keyed bytes) :=
  numStates ← be_at buf offset (offset + 2);
  read_states true (Z.to_nat numStates) buf (offset + 2) ∅.

Definition DeserializeAdditionalKeysRequest (buf : bytes) (offset : nat) : res (list bytes) :=
  numKeys ← be_at buf offset (offset + 4);
  '(keys, _) ← read_entries (Z.to_nat numKeys) buf (offset + 4);
  Ok keys.

(** The response part of [fetchStateByTcp]. *)
Definition receive_response (buf conn : bytes) : res (keyed bytes * bytes) :=
  '(buf, conn) ← read_frame buf conn;
  numStates ← be_at buf 8 10;
  m ← read_states false (Z.to_nat numStates) buf 10 ∅;
  Ok (m, conn).

Definition receiveAdditionalValueChunkByTcp (buf conn : bytes) : res (list bytes * bytes) :=
  '(buf, conn) ← read_frame buf conn;
  numValues ← be_at buf 8 12;
  '(values, _) ← read_entries (Z.to_nat numValues) buf 12;
  Ok (values, conn).

(** ** Server and client *)

Section Fetch.
Context `{GoRange} {B : Type} `{StateBackendOps B}.

(** The batched reads of an additional request: at most [size] keys each. *)
Fixpoint serve_batches (fuel : nat) (size : nat) (backend : B) (keys : list bytes) : res bytes :=
  match keys with
  | [] => Ok []
  | _ => match fuel with
         | 0 => Crash Diverge
         | S fuel =>
             values ← sb_GetMany backend (take size keys);
             response ← SendAdditionalKeysResponse values;
             more ← serve_batches fuel size backend (drop size keys);
             Ok (response ++ more)
         end
  end.

(** One turn of [handleStateCommTcpConnection]: the bytes it sends and the
    requests it has not read. *)
Definition handleStateCommTcpConnection (backend : B) (buf conn : bytes) : res (bytes * bytes) :=
  '(msgType, offset, buf, conn) ← ReadTcpRequestHeader buf conn;
  if (msgType =? TcpMsgTypeKeyedFetch)%Z then
    keyMap ← DeserializeKeyedRequest buf offset;
    valueMap ← readLocalState backend keyMap;
    response ← SendTcpResponse valueMap;
    Ok (response, conn)
  else if (msgType =? TcpMsgTypeAdditionalFetch)%Z then
    keys ← DeserializeAdditionalKeysRequest buf offset;
    response ← serve_batches (length keys) AdditionalKeyGetManyBatchSize backend keys;
    Ok (response, conn)
  else Crash (Fatal "Unknown TCP message type").

(** [fetchStateByTcp] against a server with nothing else to read: [buf] and
    [sbuf] are the buffers of the two ends as earlier messages left them. *)
Definition fetchStateByTcp (backend : B) (buf sbuf : bytes) (keys : keyed bytes) : res (keyed bytes) :=
  request ← keyed_request keys;
  '(response, _) ← handleStateCommTcpConnection backend sbuf request;
  '(values, _) ← receive_response buf response;
  Ok values.

(** The receive loop of [fetchAdditionalKeysByTcp]: each chunk's values with
    their keys. *)
Fixpoint receive_additional (fuel : nat) (buf conn : bytes) (keys : list bytes)
    : res (list (list bytes * list bytes)) :=
  match keys with
  | [] => Ok []
  | _ => match fuel with
         | 0 => Crash Diverge
         | S fuel =>
             '(values, conn) ← receiveAdditionalValueChunkByTcp buf conn;
             chunkKeys ← go_slice keys 0 (length values);
             chunks ← receive_additional fuel buf conn (drop (length values) keys);
             Ok ((chunkKeys, values) :: chunks)
         end
  end.

Definition fetch_additional (backend : B) (buf sbuf : bytes) (keys : list bytes)
    : res (list (list bytes * list bytes)) :=
  request ← sendAdditionalKeysByTcp keys;
  '(response, _) ← handleStateCommTcpConnection backend sbuf request;
  receive_additional (length keys) buf response keys.
End Fetch.

(** ** What the frames hold *)

Definition enc_entries (es : list bytes) : bytes := es ≫= λ e, be_encode 4 (Z.of_nat (length e)) ++ e.

Definition enc_states (xs : list (Z * list bytes)) : bytes :=
  xs ≫= λ x, be_encode 2 x.1 ++ be_encode 4 (Z.of_nat (length x.2)) ++ enc_entries x.2.

Definition enc_frame (body : bytes) : bytes :=
  be_encode 4 MagicStart ++ be_encode 4 (Z.of_nat (length body + 4)) ++ body ++ be_encode 4 MagicEnd.

(** A body whose frame fits in the buffer. *)
Definition fits (body : bytes) : Prop := (Z.of_nat (length body + 12) ≤ TcpMaxMessageSize)%Z.

Lemma fits_u32 body n : fits body → n ≤ length body + 12 → is_u32 (Z.of_nat n).
Proof. unfold fits, is_u32, TcpMaxMessageSize. lia. Qed.

Lemma buf_put_Ok data bs :
  (Z.of_nat (length (data ++ bs)) ≤ TcpMaxMessageSize)%Z → buf_put data bs = Ok (data ++ bs).
Proof.
  rewrite length_app. intros Hle. unfold buf_put. by rewrite (proj2 (Z.ltb_ge _ _)) by lia.
Qed.

Lemma buf_copy_Ok data bs :
  (Z.of_nat (length (data ++ bs)) ≤ TcpMaxMessageSize)%Z → buf_copy data bs = Ok (data ++ bs).
Proof.
  rewrite length_app. intros Hle. unfold buf_copy. by rewrite (proj2 (Z.ltb_ge _ _)) by lia.
Qed.

(** Writers append the encoding, or panic when it does not fit. *)
Definition writes (f : bytes → res bytes) (e : bytes) : Prop :=
  ∀ data, f data = Ok (data ++ e) ∨
    (f data = Crash Panic ∧ (TcpMaxMessageSize < Z.of_nat (length (data ++ e)))%Z).

Lemma writes_put bs : writes (λ data, buf_put data bs) bs.
Proof.
  intros data. unfold buf_put. rewrite length_app.
  destruct (Z.ltb_spec TcpMaxMessageSize (Z.of_nat (length data + length bs))); [right|left]; done.
Qed.

Lemma writes_seq f g ef eg : writes f ef → writes g eg → writes (λ data, f data ≫= g) (ef ++ eg).
Proof.
  intros Hf Hg data. rewrite app_assoc. destruct (Hf data) as [->|[-> Hbig]]; simpl; [apply Hg|].
  right. split; [done|]. rewrite !length_app in *. lia.
Qed.

Lemma writes_fold {A} (f : bytes → A → res bytes) (enc : A → bytes) l :
  (∀ x, x ∈ l → writes (λ data, f data x) (enc x)) → writes (λ data, foldM f data l) (l ≫= enc).
Proof.
  induction l as [|x l IH]; intros Hf; [intros data; left; simpl; by rewrite app_nil_r|].
  rewrite bind_cons. apply (writes_seq (λ data, f data x) (λ data, foldM f data l)); [apply Hf; by left|].
  apply IH. intros y Hy. apply Hf. by right.
Qed.

(** Lengths that can be in a frame at all are not wrapped. *)
Definition small (n : nat) : Prop := is_u32 (Z.of_nat n).

Lemma writes_entry e :
  small (length e) → writes (λ data, write_entry data e) (be_encode 4 (Z.of_nat (length e)) ++ e).
Proof.
  intros He data. unfold write_entry. rewrite u32_id by done. unfold buf_put.
  rewrite app_assoc, !length_app, !length_be_encode.
  destruct (Z.ltb_spec TcpMaxMessageSize (Z.of_nat (length data + 4))); cbn [panic_if mbind res_bind].
  { right. split; [done|]. lia. }
  unfold buf_copy. rewrite length_app, length_be_encode.
  rewrite (proj2 (Z.ltb_ge _ _)) by lia. by left.
Qed.

Lemma writes_entries es :
  Forall (λ e, small (length e)) es → writes (λ data, foldM write_entry data es) (enc_entries es).
Proof.
  intros Hes. apply (writes_fold write_entry). intros e He. apply writes_entry.
  rewrite Forall_forall in Hes. by apply Hes.
Qed.

Lemma writes_state x : small (length x.2) → Forall (λ e, small (length e)) x.2 →
  writes (λ data, write_state data x) (be_encode 2 x.1 ++ be_encode 4 (Z.of_nat (length x.2)) ++ enc_entries x.2).
Proof.
  intros Hx Hes. unfold write_state. rewrite u32_id by done. apply writes_seq; [apply writes_put|].
  apply writes_seq; [apply writes_put|]. by apply writes_entries.
Qed.

Lemma finish_frame_body body :
  finish_frame (replicate 8 0%Z ++ body) =
    if (TcpMaxMessageSize <? Z.of_nat (length body + 12))%Z then Crash Panic else Ok (enc_frame body).
Proof.
  unfold finish_frame, buf_put. rewrite !length_app, length_replicate, length_be_encode.
  replace (8 + length body + 4) with (length body + 12) by lia.
  destruct (Z.ltb_spec TcpMaxMessageSize (Z.of_nat (length body + 12))); [done|]. cbn [panic_if mbind res_bind].
  rewrite <-app_assoc, (drop_app_length' (replicate 8 0%Z)) by done. unfold enc_frame.
  rewrite !length_app, length_replicate, length_be_encode, u32_id by (unfold is_u32, TcpMaxMessageSize in *; lia).
  do 4 f_equal. lia.
Qed.

(** A frame is sent exactly when it fits. *)
Lemma write_frame f body :
  writes f body →
  f (replicate 8 0%Z) ≫= finish_frame =
    if (TcpMaxMessageSize <? Z.of_nat (length body + 12))%Z then Crash Panic else Ok (enc_frame body).
Proof.
  intros Hf. destruct (Hf (replicate 8 0%Z)) as [->|[-> Hbig]].
  - rewrite bind_Ok. apply finish_frame_body.
  - rewrite length_app, length_replicate in Hbig. by rewrite (proj2 (Z.ltb_lt _ _)) by lia.
Qed.

Section Frames.
Context `{GoRange}.

Definition keyed_body (keys : keyed bytes) : bytes :=
  [TcpMsgTypeKeyedFetch] ++ be_encode 2 (Z.of_nat (size keys)) ++ enc_states (go_range keys).

Definition response_body (values : keyed (option bytes)) : bytes :=
  be_encode 2 (Z.of_nat (size values)) ++ enc_states ((λ x, (x.1, on_wire x.2)) <$> go_range values).

Definition additional_body (keys : list bytes) : bytes :=
  [TcpMsgTypeAdditionalFetch] ++ be_encode 4 (Z.of_nat (length keys)) ++ enc_entries keys.

(** Maps by state id whose lists have representable lengths. *)
Definition wire_map {A} (len : A → nat) (m : keyed A) : Prop :=
  (Z.of_nat (size m) < 2 ^ 16)%Z ∧
  ∀ id l, m !! id = Some l → is_u16 id ∧ small (length l) ∧ Forall (λ x, small (len x)) l.

Lemma writes_states xs :
  (∀ x, x ∈ xs → small (length x.2) ∧ Forall (λ e, small (length e)) x.2) →
  writes (λ data, foldM write_state data xs) (enc_states xs).
Proof. intros Hxs. apply (writes_fold write_state). intros x Hx. destruct (Hxs x Hx). by apply writes_state. Qed.

Lemma res_bind_assoc {A C D} (m : res A) (f : A → res C) (g : C → res D) :
  m ≫= (λ x, f x ≫= g) = (m ≫= f) ≫= g.
Proof. by destruct m. Qed.

Lemma keyed_request_spec keys :
  wire_map length keys →
  keyed_request keys = if (TcpMaxMessageSize <? Z.of_nat (length (keyed_body keys) + 12))%Z
                       then Crash Panic else Ok (enc_frame (keyed_body keys)).
Proof.
  intros [Hsz Hm]. unfold keyed_request. rewrite u16_id by (unfold is_u16; lia). rewrite !res_bind_assoc.
  apply (write_frame (λ data, (buf_put data _ ≫= _) ≫= _)). intros data. rewrite <-!res_bind_assoc. revert data.
  apply writes_seq; [apply writes_put|]. apply writes_seq; [apply writes_put|].
  apply writes_states. intros [id l] Hin%elem_of_go_range. by destruct (Hm id l Hin) as (_ & ? & ?).
Qed.

Lemma SendTcpResponse_spec values :
  wire_map (λ v, length (default [] v)) values →
  SendTcpResponse values = if (TcpMaxMessageSize <? Z.of_nat (length (response_body values) + 12))%Z
                           then Crash Panic else Ok (enc_frame (response_body values)).
Proof.
  intros [Hsz Hm]. unfold SendTcpResponse. rewrite u16_id by (unfold is_u16; lia). rewrite !res_bind_assoc.
  apply (write_frame (λ data, buf_put data _ ≫= _)).
  apply writes_seq; [apply writes_put|]. apply writes_states.
  intros x ([id l] & -> & Hin%elem_of_go_range)%list_elem_of_fmap. simpl.
  destruct (Hm id l Hin) as (_ & ? & Hl). unfold on_wire. rewrite length_fmap. split; [done|]. by apply Forall_fmap.
Qed.

Lemma sendAdditionalKeys_spec keys :
  small (length keys) → Forall (λ k, small (length k)) keys →
  sendAdditionalKeysByTcp keys = if (TcpMaxMessageSize <? Z.of_nat (length (additional_body keys) + 12))%Z
                                 then Crash Panic else Ok (enc_frame (additional_body keys)).
Proof.
  intros Hn Hk. unfold sendAdditionalKeysByTcp. rewrite u32_id by done. rewrite !res_bind_assoc.
  apply (write_frame (λ data, (buf_put data _ ≫= _) ≫= _)). intros data. rewrite <-!res_bind_assoc. revert data.
  apply writes_seq; [apply writes_put|]. apply writes_seq; [apply writes_put|]. by apply writes_entries.
Qed.

(** *** Reading back *)

Lemma be_at_app pre k z post i j :
  i = length pre → j = i + k → (0 ≤ z < 256 ^ Z.of_nat k)%Z →
  be_at (pre ++ be_encode k z ++ post) i j = Ok z.
Proof.
  intros -> -> Hz. unfold be_at. rewrite (go_slice_app _ pre (be_encode k z) post) by (rewrite ?length_be_encode; done || lia).
  simpl. by rewrite be_decode_encode.
Qed.

Lemma be_at16 pre z post i j :
  i = length pre → j = i + 2 → is_u16 z → be_at (pre ++ be_encode 2 z ++ post) i j = Ok z.
Proof. intros. by apply be_at_app. Qed.

Lemma be_at32 pre z post i j :
  i = length pre → j = i + 4 → is_u32 z → be_at (pre ++ be_encode 4 z ++ post) i j = Ok z.
Proof. intros. by apply be_at_app. Qed.

Lemma read_entries_Ok es pre post off :
  off = length pre → Forall (λ e, small (length e)) es →
  read_entries (length es) (pre ++ enc_entries es ++ post) off = Ok (es, off + length (enc_entries es)).
Proof.
  intros Hoff Hes. revert pre off Hoff. induction Hes as [|e es He Hes IH]; intros pre off Hoff.
  { simpl. by rewrite Nat.add_0_r. }
  unfold enc_entries. rewrite bind_cons. fold (enc_entries es). cbn [length read_entries].
  rewrite <-!app_assoc, (be_at32 pre _ _ off) by done.
  rewrite bind_Ok, Nat2Z.id, (app_assoc pre).
  erewrite (go_slice_app _ (pre ++ be_encode 4 (Z.of_nat (length e))) e) by (reflexivity || rewrite ?length_app, ?length_be_encode; lia).
  rewrite bind_Ok, (app_assoc (pre ++ _)), IH by (rewrite !length_app, length_be_encode; lia).
  rewrite bind_Ok. do 2 f_equal. rewrite !length_app, length_be_encode. lia.
Qed.

Lemma read_states_Ok req xs pre post off m :
  off = length pre →
  (∀ x, x ∈ xs → is_u16 x.1 ∧ small (length x.2) ∧ Forall (λ e, small (length e)) x.2 ∧ (req = true → x.2 ≠ [])) →
  read_states req (length xs) (pre ++ enc_states xs ++ post) off m =
    Ok (foldl (λ m x, <[x.1 := x.2]> m) m xs).
Proof.
  intros Hoff Hxs. revert pre off m Hoff. induction xs as [|[id es] xs IH]; intros pre off m Hoff; [done|].
  destruct (Hxs (id, es)) as (Hid & Hn & Hes & Hne); [by left|]. simpl in Hid, Hn, Hes, Hne.
  unfold enc_states. rewrite bind_cons. fold (enc_states xs). cbn [length read_states fst snd].
  rewrite <-!app_assoc, (be_at16 pre id _ off) by done.
  rewrite bind_Ok, (app_assoc pre).
  rewrite (be_at32 (pre ++ be_encode 2 id)) by (rewrite ?length_app, ?length_be_encode; done || lia).
  rewrite bind_Ok, Nat2Z.id.
  replace (req && (Z.of_nat (length es) <=? 0)%Z) with false.
  2:{ destruct req; [|done]. destruct es; [by destruct (Hne eq_refl)|]. done. }
  rewrite bind_fatal_false, (app_assoc (pre ++ _)).
  rewrite read_entries_Ok by (rewrite ?length_app, ?length_be_encode; done || lia). rewrite bind_Ok.
  rewrite (app_assoc ((pre ++ _) ++ _)). rewrite IH; [done|intros x Hx; apply Hxs; by right|].
  rewrite !length_app, !length_be_encode. lia.
Qed.

Lemma foldl_insert_map {A} (m : keyed A) : foldl (λ m x, <[x.1 := x.2]> m) ∅ (go_range m) = m.
Proof.
  cut (∀ (l : list (Z * list A)) (m0 : keyed A), NoDup l.*1 → foldl (λ m x, <[x.1 := x.2]> m) m0 l = list_to_map l ∪ m0).
  { intros Hcut. rewrite Hcut by apply NoDup_go_range. rewrite map_union_empty.
    rewrite (list_to_map_proper (go_range m) (map_to_list m));
      [apply list_to_map_to_list|apply NoDup_go_range|apply go_range_perm]. }
  induction l as [|[k x] l IH]; intros m0 Hnd; simpl; [by rewrite map_empty_union|].
  apply NoDup_cons in Hnd as [Hk Hnd]. rewrite IH by done.
  rewrite <-insert_union_r, insert_union_l; [done|]. by apply not_elem_of_list_to_map_1.
Qed.

Lemma foldl_insert_fmap {A C} (f : list A → list C) (l : list (Z * list A)) (m0 : keyed A) :
  foldl (λ m x, <[x.1 := f x.2]> m) (f <$> m0) l = f <$> foldl (λ m x, <[x.1 := x.2]> m) m0 l.
Proof. revert m0. induction l as [|x l IH]; intros m0; [done|]. simpl. by rewrite <-IH, fmap_insert. Qed.

Lemma ReadAll_app a rest n : n = length a → ReadAll (a ++ rest) n = Ok (a, rest).
Proof.
  intros ->. unfold ReadAll. rewrite (proj2 (Nat.ltb_ge _ (length a))) by (rewrite length_app; lia).
  by rewrite take_app_length, drop_app_length.
Qed.

Lemma read_frame_Ok buf body rest :
  fits body → ∃ tail, read_frame buf (enc_frame body ++ rest) = Ok (enc_frame body ++ tail, rest).
Proof.
  intros Hfit. pose proof (fits_u32 body (length body + 4) Hfit ltac:(lia)) as Hu. unfold is_u32 in Hu.
  set (h := be_encode 4 MagicStart ++ be_encode 4 (Z.of_nat (length body + 4))).
  assert (length h = 8) as Hh by (unfold h; by rewrite length_app, !length_be_encode).
  assert (enc_frame body = h ++ body ++ be_encode 4 MagicEnd) as -> by (unfold enc_frame, h; by rewrite <-app_assoc).
  assert (∀ X, be_at (h ++ X) 0 4 = Ok MagicStart) as H0.
  { intros X. unfold h. rewrite <-app_assoc. by apply (be_at32 []). }
  assert (∀ X, be_at (h ++ X) 4 8 = Ok (Z.of_nat (length body + 4))) as H4.
  { intros X. unfold h. rewrite <-app_assoc. by apply (be_at32 (be_encode 4 MagicStart)). }
  unfold read_frame. rewrite <-!app_assoc, (ReadAll_app h), bind_Ok, H0 by done.
  rewrite bind_Ok, Z.eqb_refl, bind_fatal_false, H4.
  rewrite bind_Ok, (proj2 (Z.ltb_ge _ _)), bind_fatal_false by (unfold fits in Hfit; lia). rewrite Nat2Z.id.
  rewrite (app_assoc body), (ReadAll_app (body ++ be_encode 4 MagicEnd)), bind_Ok by by rewrite length_app, length_be_encode.
  rewrite (take_app_length' h) by done. set (tail := drop (8 + _) _). rewrite <-app_assoc, (app_assoc h).
  rewrite (be_at32 (h ++ body)) by (rewrite ?length_app, ?Hh; done || lia).
  rewrite bind_Ok, Z.eqb_refl, bind_fatal_false. exists tail. by rewrite <-!app_assoc.
Qed.

Lemma read_keyed_request keys buf rest :
  wire_map length keys → (∀ id kl, keys !! id = Some kl → kl ≠ []) → fits (keyed_body keys) →
  ∃ buf', ReadTcpRequestHeader buf (enc_frame (keyed_body keys) ++ rest) = Ok (TcpMsgTypeKeyedFetch, 9, buf', rest) ∧
    DeserializeKeyedRequest buf' 9 = Ok keys.
Proof.
  intros [Hsz Hm] Hne Hfit. destruct (read_frame_Ok buf (keyed_body keys) rest Hfit) as (tail & Hread).
  unfold ReadTcpRequestHeader. rewrite Hread, bind_Ok. unfold enc_frame, keyed_body.
  set (len := Z.of_nat _). set (h := be_encode 4 MagicStart ++ be_encode 4 len ++ [TcpMsgTypeKeyedFetch]).
  assert (length h = 9) as Hh by (unfold h; by rewrite !length_app, !length_be_encode).
  rewrite <-!app_assoc. replace (idx _ 8) with (Ok TcpMsgTypeKeyedFetch) by done. rewrite bind_Ok.
  eexists. split; [done|]. unfold DeserializeKeyedRequest.
  rewrite (app_assoc (be_encode 4 len)), (app_assoc (be_encode 4 MagicStart)). fold h.
  rewrite (be_at16 h) by (done || unfold is_u16; lia). rewrite bind_Ok, Nat2Z.id, (app_assoc h).
  rewrite <-length_go_range, read_states_Ok; [by rewrite foldl_insert_map|by rewrite length_app, length_be_encode, Hh|].
  intros [id kl] Hin%elem_of_go_range. simpl. destruct (Hm id kl Hin) as (? & ? & ?). split_and!; eauto.
Qed.

Lemma on_wire_map (values : keyed (option bytes)) :
  foldl (λ m x, <[x.1 := x.2]> m) ∅ ((λ x, (x.1, on_wire x.2)) <$> go_range values) =
    (on_wire <$> values : keyed bytes).
Proof.
  rewrite foldl_fmap, <-(fmap_empty on_wire). cbn [fst snd]. by rewrite foldl_insert_fmap, foldl_insert_map.
Qed.

Lemma read_response values buf rest :
  wire_map (λ v, length (default [] v)) values → fits (response_body values) →
  receive_response buf (enc_frame (response_body values) ++ rest) = Ok (on_wire <$> values, rest).
Proof.
  intros [Hsz Hm] Hfit. destruct (read_frame_Ok buf (response_body values) rest Hfit) as (tail & Hread).
  unfold receive_response. rewrite Hread, bind_Ok. unfold enc_frame, response_body.
  set (len := Z.of_nat _). set (h := be_encode 4 MagicStart ++ be_encode 4 len).
  assert (length h = 8) as Hh by (unfold h; by rewrite !length_app, !length_be_encode).
  rewrite <-!app_assoc, (app_assoc (be_encode 4 MagicStart)). fold h.
  rewrite (be_at16 h) by (done || unfold is_u16; lia). rewrite bind_Ok, Nat2Z.id, (app_assoc h).
  rewrite <-length_go_range, <-(length_fmap (λ x, (x.1, on_wire x.2))), read_states_Ok;
    [by rewrite on_wire_map|by rewrite length_app, length_be_encode, Hh|].
  intros x ([id kl] & -> & Hin%elem_of_go_range)%list_elem_of_fmap. simpl.
  destruct (Hm id kl Hin) as (? & ? & ?). unfold on_wire. rewrite length_fmap. split_and!; [done..|by apply Forall_fmap|done].
Qed.
End Frames.

(** *** Values in several frames *)

Definition chunk_body (c : list bytes) : bytes := be_encode 4 (Z.of_nat (length c)) ++ enc_entries c.

(** Frames of at least one value each. *)
Definition good_chunks (cs : list (list bytes)) : Prop := Forall (λ c, c ≠ [] ∧ fits (chunk_body c)) cs.

Definition stream_of_chunks (cs : list (list bytes)) : bytes := cs ≫= λ c, enc_frame (chunk_body c).

(** A value that fits in a frame of its own. *)
Definition sendable_value (v : bytes) : Prop := (Z.of_nat (length v) + 20 ≤ TcpMaxMessageSize)%Z.

Lemma sendable_small v : sendable_value v → small (length v).
Proof. unfold sendable_value, small, is_u32, TcpMaxMessageSize. lia. Qed.

Lemma length_enc_entries_ge es : 4 * length es ≤ length (enc_entries es).
Proof.
  induction es as [|e es IH]; [done|]. unfold enc_entries in *. rewrite bind_cons, !length_app, length_be_encode.
  cbn [length]. lia.
Qed.

Lemma fill_chunk_Ok start data vs :
  Forall sendable_value vs → (start = true → length data = 12) →
  (Z.of_nat (length data) ≤ TcpMaxMessageSize - 4)%Z →
  ∃ c rest, fill_chunk start data vs = Ok (data ++ enc_entries c, length c, rest) ∧ vs = c ++ rest ∧
    (Z.of_nat (length (data ++ enc_entries c)) ≤ TcpMaxMessageSize - 4)%Z ∧ (start = true → vs ≠ [] → c ≠ []).
Proof.
  revert start data. induction vs as [|v vs IH]; intros start data Hvs Hstart Hlen.
  { exists [], []. simpl. rewrite app_nil_r. split_and!; done. }
  apply Forall_cons in Hvs as [Hv Hvs]. cbn [fill_chunk].
  destruct (Z.ltb_spec (TcpMaxMessageSize - 4) (Z.of_nat (length data + 4 + length v))) as [Hbig|Hfit].
  - destruct start; [unfold sendable_value in Hv; specialize (Hstart eq_refl); lia|].
    exists [], (v :: vs). simpl. rewrite app_nil_r. split_and!; done.
  - rewrite u32_id by by apply sendable_small.
    destruct (IH false (data ++ be_encode 4 (Z.of_nat (length v)) ++ v)) as (c & rest & -> & -> & Hle & _); [done..| |].
    { rewrite !length_app, length_be_encode. lia. }
    rewrite bind_Ok. exists (v :: c), rest.
    assert (enc_entries (v :: c) = be_encode 4 (Z.of_nat (length v)) ++ v ++ enc_entries c) as ->.
    { unfold enc_entries. by rewrite bind_cons, <-app_assoc. }
    rewrite <-!app_assoc in *. split_and!; try done.
Qed.

Lemma chunk_frame c :
  (Z.of_nat (length (replicate 12 0%Z ++ enc_entries c)) ≤ TcpMaxMessageSize - 4)%Z →
  fits (chunk_body c) ∧
  be_encode 4 MagicStart ++ be_encode 4 (u32 (Z.of_nat (length (replicate 12 0%Z ++ enc_entries c)) + 4 - 8)) ++
    be_encode 4 (u32 (Z.of_nat (length c))) ++ drop 12 (replicate 12 0%Z ++ enc_entries c) ++ be_encode 4 MagicEnd =
  enc_frame (chunk_body c).
Proof.
  rewrite length_app, length_replicate. intros Hle. pose proof (length_enc_entries_ge c).
  rewrite drop_app_length' by done. unfold fits, enc_frame, chunk_body. rewrite length_app, length_be_encode.
  split; [lia|]. rewrite !u32_id by (unfold is_u32, TcpMaxMessageSize in *; lia). rewrite <-!app_assoc. do 3 f_equal. lia.
Qed.

Lemma send_chunks_Ok fuel vs :
  length vs < fuel → vs ≠ [] → Forall sendable_value vs →
  ∃ cs, send_chunks fuel vs = Ok (stream_of_chunks cs) ∧ mjoin cs = vs ∧ good_chunks cs.
Proof.
  revert vs. induction fuel as [|fuel IH]; intros vs Hfuel Hne Hvs; [lia|]. cbn [send_chunks].
  destruct (fill_chunk_Ok true (replicate 12 0%Z) vs) as (c & rest & -> & -> & Hle & Hc);
    [done..|unfold TcpMaxMessageSize; simpl; lia|].
  rewrite bind_Ok. destruct (chunk_frame c Hle) as [Hfit ->].
  specialize (Hc eq_refl Hne). destruct rest as [|v rest].
  - exists [c]. unfold stream_of_chunks. simpl. rewrite !app_nil_r. split_and!; [done..|]. by repeat constructor.
  - cbn [length Nat.eqb]. apply Forall_app in Hvs as [_ Hvs].
    destruct (IH (v :: rest)) as (cs & -> & Hj & Hg); [|done..|].
    { rewrite length_app in Hfuel. destruct c; [done|]. simpl in *. lia. }
    rewrite bind_Ok. exists (c :: cs). unfold stream_of_chunks. rewrite bind_cons. cbn [mjoin list_join].
    split_and!; [done|by rewrite <-Hj|]. by constructor.
Qed.

Lemma read_chunk c buf rest :
  Forall sendable_value c → fits (chunk_body c) →
  receiveAdditionalValueChunkByTcp buf (enc_frame (chunk_body c) ++ rest) = Ok (c, rest).
Proof.
  intros Hc Hfit. destruct (read_frame_Ok buf (chunk_body c) rest Hfit) as (tail & Hread).
  unfold receiveAdditionalValueChunkByTcp. rewrite Hread, bind_Ok. unfold enc_frame, chunk_body.
  set (len := Z.of_nat (length (_ ++ _) + 4)). set (h := be_encode 4 MagicStart ++ be_encode 4 len).
  assert (length h = 8) as Hh by (unfold h; by rewrite !length_app, !length_be_encode).
  rewrite <-!app_assoc, (app_assoc (be_encode 4 MagicStart)). fold h.
  rewrite (be_at32 h).
  - rewrite bind_Ok, Nat2Z.id, (app_assoc h), read_entries_Ok; [done|by rewrite length_app, length_be_encode, Hh|].
    eapply Forall_impl; [done|]. apply sendable_small.
  - done.
  - done.
  - pose proof (length_enc_entries_ge c). unfold fits, chunk_body, is_u32, TcpMaxMessageSize in *.
    rewrite length_app, length_be_encode in Hfit. lia.
Qed.

Lemma receive_additional_cons fuel buf conn keys :
  keys ≠ [] → receive_additional (S fuel) buf conn keys =
    ('(values, conn) ← receiveAdditionalValueChunkByTcp buf conn;
     chunkKeys ← go_slice keys 0 (length values);
     chunks ← receive_additional fuel buf conn (drop (length values) keys);
     Ok ((chunkKeys, values) :: chunks)).
Proof. by destruct keys. Qed.

Lemma receive_additional_Ok fuel buf cs keys :
  length keys ≤ fuel → good_chunks cs → Forall sendable_value (mjoin cs) → length (mjoin cs) = length keys →
  ∃ chunks, receive_additional fuel buf (stream_of_chunks cs) keys = Ok chunks ∧
    Forall (λ ch, length ch.1 = length ch.2) chunks ∧ chunks ≫= fst = keys ∧ chunks ≫= snd = mjoin cs.
Proof.
  revert keys fuel. induction cs as [|c cs IH]; intros keys fuel Hfuel Hg Hs Hlen.
  { destruct keys; [|done]. exists []. split_and!; [by destruct fuel|constructor|done..]. }
  apply Forall_cons in Hg as [[Hc Hfit] Hg]. change (mjoin (c :: cs)) with (c ++ mjoin cs) in *. apply Forall_app in Hs as [Hsc Hs].
  rewrite length_app in Hlen. assert (0 < length c) as Hpos by (destruct c; simpl; [done|lia]).
  assert (keys ≠ []) as Hk by (destruct keys; simpl in *; [lia|done]).
  destruct fuel as [|fuel]; [destruct keys; simpl in *; lia|]. rewrite receive_additional_cons by done.
  unfold stream_of_chunks. rewrite bind_cons. fold (stream_of_chunks cs). rewrite read_chunk, bind_Ok by done.
  assert (go_slice keys 0 (length c) = Ok (take (length c) keys)) as ->.
  { apply go_slice_Ok. rewrite Nat.sub_0_r, drop_0. split_and!; [lia..|done]. }
  rewrite bind_Ok. destruct (IH (drop (length c) keys) fuel) as (chunks & -> & Hch & Hkeys & Hvals);
    [rewrite length_drop; lia|done..|rewrite length_drop; lia|].
  rewrite bind_Ok. eexists. split; [done|]. split_and!.
  - constructor; [|done]. simpl. rewrite length_take. lia.
  - rewrite bind_cons, Hkeys. simpl. apply take_drop.
  - rewrite bind_cons, Hvals. done.
Qed.

Lemma serve_batches_Ok `{StateBackendLaws B} fuel size (b : B) keys :
  backend_ok b → 0 < size → length keys ≤ fuel → Forall sendable_value (on_wire (read_all (data_of b) keys)) →
  ∃ cs, serve_batches fuel size b keys = Ok (stream_of_chunks cs) ∧
    mjoin cs = on_wire (read_all (data_of b) keys) ∧ good_chunks cs.
Proof.
  intros Hb Hsize. revert keys. induction fuel as [|fuel IH]; intros keys Hfuel Hs.
  { destruct keys; [|simpl in Hfuel; lia]. exists []. split_and!; [done..|constructor]. }
  destruct keys as [|k keys]; [exists []; split_and!; [done..|constructor]|]. cbn [serve_batches].
  set (ks := k :: keys) in *. rewrite GetMany_law, bind_Ok by done.
  assert (on_wire (read_all (data_of b) ks) =
    on_wire (read_all (data_of b) (take size ks)) ++ on_wire (read_all (data_of b) (drop size ks))) as E.
  { unfold on_wire, read_all. by rewrite <-!fmap_app, take_drop. }
  rewrite E in Hs. apply Forall_app in Hs as [Hs1 Hs2].
  unfold SendAdditionalKeysResponse.
  destruct (send_chunks_Ok (S (length (read_all (data_of b) (take size ks)))) (on_wire (read_all (data_of b) (take size ks))))
    as (cs1 & -> & Hj1 & Hg1).
  { unfold on_wire. rewrite length_fmap. lia. }
  { destruct size; [lia|done]. }
  { done. }
  rewrite bind_Ok. destruct (IH (drop size ks)) as (cs2 & -> & Hj2 & Hg2).
  { rewrite length_drop. unfold ks in *. simpl in *. lia. } { done. }
  rewrite bind_Ok. exists (cs1 ++ cs2). unfold stream_of_chunks. rewrite bind_app, join_app, Hj1, Hj2, E.
  split_and!; [done..|]. by apply Forall_app.
Qed.

Lemma read_additional_request keys buf rest :
  Forall (λ k, small (length k)) keys → fits (additional_body keys) →
  ∃ buf', ReadTcpRequestHeader buf (enc_frame (additional_body keys) ++ rest) =
      Ok (TcpMsgTypeAdditionalFetch, 9, buf', rest) ∧ DeserializeAdditionalKeysRequest buf' 9 = Ok keys.
Proof.
  intros Hk Hfit. destruct (read_frame_Ok buf (additional_body keys) rest Hfit) as (tail & Hread).
  assert (is_u32 (Z.of_nat (length keys))) as Hn.
  { pose proof (length_enc_entries_ge keys). unfold fits, additional_body, is_u32, TcpMaxMessageSize in *.
    rewrite !length_app, length_be_encode in Hfit. lia. }
  unfold ReadTcpRequestHeader. rewrite Hread, bind_Ok. unfold enc_frame, additional_body.
  set (len := Z.of_nat (length (_ ++ _) + 4)).
  set (h := be_encode 4 MagicStart ++ be_encode 4 len ++ [TcpMsgTypeAdditionalFetch]).
  assert (length h = 9) as Hh by (unfold h; by rewrite !length_app, !length_be_encode).
  rewrite <-!app_assoc. replace (idx _ 8) with (Ok TcpMsgTypeAdditionalFetch) by done. rewrite bind_Ok.
  eexists. split; [done|]. unfold DeserializeAdditionalKeysRequest.
  rewrite (app_assoc (be_encode 4 len)), (app_assoc (be_encode 4 MagicStart)). fold h.
  rewrite (be_at32 h), bind_Ok, Nat2Z.id, (app_assoc h) by done.
  rewrite read_entries_Ok; [done|by rewrite length_app, length_be_encode, Hh|done].
Qed.

(** ** Properties *)

Section Properties.
Context `{GoRange} `{StateBackendLaws B}.

Lemma fetchStateByTcp_spec (b : B) buf sbuf keys (Hb : backend_ok b) (Hk : wire_map length keys)
    (Hne : ∀ id kl, keys !! id = Some kl → kl ≠ [])
    (Hv : wire_map (λ v, length (default [] v)) (read_all (data_of b) <$> keys)) :
  fetchStateByTcp b buf sbuf keys =
    if ((Z.of_nat (length (keyed_body keys) + 12) <=? TcpMaxMessageSize)%Z &&
        (Z.of_nat (length (response_body (read_all (data_of b) <$> keys)) + 12) <=? TcpMaxMessageSize)%Z)
    then Ok (on_wire <$> (read_all (data_of b) <$> keys)) else Crash Panic.
Proof.
  unfold fetchStateByTcp. rewrite keyed_request_spec, Z.ltb_antisym by done.
  destruct (Z.leb_spec (Z.of_nat (length (keyed_body keys) + 12)) TcpMaxMessageSize) as [Hfit|]; [|done].
  cbn [negb andb]. rewrite bind_Ok. unfold handleStateCommTcpConnection.
  destruct (read_keyed_request keys sbuf []) as (sbuf' & Hread & Hdes); [done..|].
  rewrite app_nil_r in Hread. rewrite Hread, bind_Ok, Z.eqb_refl, Hdes, bind_Ok, readLocalState_Ok, bind_Ok by done.
  rewrite SendTcpResponse_spec, Z.ltb_antisym by done.
  destruct (Z.leb_spec (Z.of_nat (length (response_body (read_all (data_of b) <$> keys)) + 12)) TcpMaxMessageSize)
    as [Hfit'|]; [|done].
  cbn [negb]. rewrite !bind_Ok. pose proof (read_response (read_all (data_of b) <$> keys) buf [] Hv Hfit') as Hr.
  rewrite app_nil_r in Hr. by rewrite Hr.
Qed.

Lemma fetch_additional_Ok (b : B) buf sbuf keys (Hb : backend_ok b)
    (Hk : Forall (λ k, small (length k)) keys) (Hfit : fits (additional_body keys))
    (Hv : Forall sendable_value (on_wire (read_all (data_of b) keys))) :
  ∃ chunks, fetch_additional b buf sbuf keys = Ok chunks ∧
    Forall (λ ch, length ch.1 = length ch.2) chunks ∧ chunks ≫= fst = keys ∧
    chunks ≫= snd = on_wire (read_all (data_of b) keys).
Proof.
  unfold fetch_additional.
  assert (small (length keys)) as Hn.
  { pose proof (length_enc_entries_ge keys). unfold fits, additional_body, small, is_u32, TcpMaxMessageSize in *.
    rewrite !length_app, length_be_encode in Hfit. lia. }
  rewrite sendAdditionalKeys_spec, (proj2 (Z.ltb_ge _ _)), bind_Ok by done.
  unfold handleStateCommTcpConnection. destruct (read_additional_request keys sbuf [] Hk Hfit) as (sbuf' & Hread & Hdes).
  rewrite app_nil_r in Hread. rewrite Hread, bind_Ok. cbn [Z.eqb TcpMsgTypeAdditionalFetch TcpMsgTypeKeyedFetch].
  rewrite Hdes, bind_Ok.
  destruct (serve_batches_Ok (length keys) AdditionalKeyGetManyBatchSize b keys) as (cs & -> & Hj & Hg);
    [done|unfold AdditionalKeyGetManyBatchSize; lia|done..|].
  rewrite !bind_Ok. rewrite <-Hj. apply receive_additional_Ok; [done..| |].
  - by rewrite Hj.
  - rewrite Hj. unfold on_wire, read_all. by rewrite !length_fmap.
Qed.

(** C27: a fetch over TCP is a read.  For requests with at least one key per
    state, the values the client decodes are those of the server's backend for
    the requested keys in order (an absent value is received as an empty one),
    whatever earlier messages left in the buffers of both ends; a request or a
    response frame larger than the 50 MB buffer ends the process with a panic. *)
Theorem tcp_fetch_reads (b : B) buf sbuf keys (Hb : backend_ok b) (Hk : wire_map length keys)
    (Hne : ∀ id kl, keys !! id = Some kl → kl ≠ [])
    (Hv : wire_map (λ v, length (default [] v)) (read_all (data_of b) <$> keys)) :
  fetchStateByTcp b buf sbuf keys =
    if ((Z.of_nat (length (keyed_body keys) + 12) <=? TcpMaxMessageSize)%Z &&
        (Z.of_nat (length (response_body (read_all (data_of b) <$> keys)) + 12) <=? TcpMaxMessageSize)%Z)
    then Ok (on_wire <$> (read_all (data_of b) <$> keys)) else Crash Panic.
Proof. by apply fetchStateByTcp_spec. Qed.

(** C28: additional keys of an eventual migration.  When the request frame and
    every single value fit in the buffer, a fetch of any number of keys
    terminates; the server answers in batches of at most 1000 keys and in as
    many frames as needed, and the chunks the client pairs up hold exactly the
    requested keys in order with the values of the server's backend. *)
Theorem tcp_additional_fetch (b : B) buf sbuf keys (Hb : backend_ok b)
    (Hk : Forall (λ k, small (length k)) keys) (Hfit : fits (additional_body keys))
    (Hv : Forall sendable_value (on_wire (read_all (data_of b) keys))) :
  ∃ chunks, fetch_additional b buf sbuf keys = Ok chunks ∧
    Forall (λ ch, length ch.1 = length ch.2) chunks ∧ chunks ≫= fst = keys ∧
    chunks ≫= snd = on_wire (read_all (data_of b) keys).
Proof. by apply fetch_additional_Ok. Qed.
End Properties.

Definition demo_mem : MemoryStateBackend := MkMem {[ [1; 2]%Z := [7]%Z; [1; 3]%Z := [8; 9]%Z ]}.

Lemma tcp_fetch_reads_witness :
  ∃ vals, fetchStateByTcp demo_mem [5]%Z (replicate 30 9%Z) {[ 3%Z := [[1; 3]; [4]]%Z ]} = Ok vals ∧
    vals !! 3%Z = Some [[8; 9]; []]%Z.
Proof.
  rewrite tcp_fetch_reads.
  - eexists. split; [vm_compute; reflexivity|vm_compute; reflexivity].
  - exact I.
  - split; [vm_compute; reflexivity|]. intros id l [<- <-]%lookup_singleton_Some.
    split_and!; [done..|]. by repeat constructor.
  - by intros id l [<- <-]%lookup_singleton_Some.
  - split; [vm_compute; reflexivity|]. intros id l. rewrite map_fmap_singleton.
    intros [<- <-]%lookup_singleton_Some. split_and!; [done..|]. by repeat constructor.
Defined.

Lemma tcp_additional_fetch_witness :
  ∃ chunks, fetch_additional demo_mem [5]%Z [] [[1; 3]; [4]; [1; 2]]%Z = Ok chunks ∧
    chunks ≫= snd = [[8; 9]; []; [7]]%Z.
Proof.
  destruct (tcp_additional_fetch demo_mem [5]%Z [] [[1; 3]; [4]; [1; 2]]%Z) as (chunks & Hrun & _ & _ & Hv).
  - exact I.
  - by repeat constructor.
  - done.
  - by repeat constructor.
  - exists chunks. split; [exact Hrun|]. rewrite Hv. vm_compute. reflexivity.
Defined.
