(* ===== verification/MemoryAlias.v ===== *)
(** * Values that share the connection's buffer

    A TCP fetch of the by-key protocol returns values as slices of the
    connection's buffer ([state/lazyBykeyTcpUtil.go]), which the next response
    on the connection overwrites.  The in-memory backend keeps the slices it
    is given ([state/stateBackend/memory.go]).  Here its map holds slices, and
    a read looks the bytes up in the buffer. *)

From stdpp Require Import prelude gmap strings list.
From Stdlib Require Import ZArith Lia.
From S2P Require Import Prelude Backend StateService Cluster TcpFrames.

(** A slice of the buffer: offset and length. *)
Definition slice : Type := nat * nat.

Definition slice_bytes (buf : bytes) (s : slice) : bytes := take s.2 (drop s.1 buf).

(** ** Receiving slices *)

Fixpoint read_slices (n : nat) (buf : bytes) (offset : nat) : res (list slice * nat) :=
  match n with
  | 0 => Ok ([], offset)
  | S n =>
      size ← be_at buf offset (offset + 4);
      _ ← go_slice buf (offset + 4) (offset + 4 + Z.to_nat size);
      '(ss, offset') ← read_slices n buf (offset + 4 + Z.to_nat size);
      Ok ((offset + 4, Z.to_nat size) :: ss, offset')
  end.

(** [receiveAdditionalValueChunkByTcp] with the buffer it fills. *)
Definition receive_slices (buf conn : bytes) : res (list slice * bytes * bytes) :=
  '(buf, conn) ← read_frame buf conn;
  numValues ← be_at buf 8 12;
  '(values, _) ← read_slices (Z.to_nat numValues) buf 12;
  Ok (values, buf, conn).

(** ** The in-memory backend *)

(** [SetMany] stores the slices themselves, [Get] clones what they show. *)
Definition alias_SetMany (m : gmap bytes slice) (keys : list bytes) (values : list slice) : res (gmap bytes slice) :=
  fatal_if (negb (length keys =? length values)) "SetMany(): len(keys) != len(values)";;
  Ok (foldl (λ m kv, <[kv.1 := kv.2]> m) m (zip keys values)).

Definition alias_Get (buf : bytes) (m : gmap bytes slice) (key : bytes) : option bytes := slice_bytes buf <$> m !! key.

Section Fetch.
Context `{GoRange} {B : Type} `{StateBackendOps B}.

(** The receive loop of [fetchAdditionalKeysByTcp] over that backend. *)
Fixpoint alias_receive (fuel : nat) (buf conn : bytes) (m : gmap bytes slice) (keys : list bytes)
    : res (gmap bytes slice * bytes) :=
  match keys with
  | [] => Ok (m, buf)
  | _ => match fuel with
         | 0 => Crash Diverge
         | S fuel =>
             '(values, buf, conn) ← receive_slices buf conn;
             chunkKeys ← go_slice keys 0 (length values);
             m ← alias_SetMany m chunkKeys values;
             alias_receive fuel buf conn m (drop (length values) keys)
         end
  end.

Definition alias_fetch (peer : B) (sbuf : bytes) (st : gmap bytes slice * bytes) (keys : list bytes)
    : res (gmap bytes slice * bytes) :=
  request ← sendAdditionalKeysByTcp keys;
  '(response, _) ← handleStateCommTcpConnection peer sbuf request;
  alias_receive (length keys) st.2 response st.1 keys.
End Fetch.

(** ** What is stored *)

Lemma read_slice_one pre v post :
  small (length v) →
  read_slices 1 (pre ++ enc_entries [v] ++ post) (length pre) =
    Ok ([(length pre + 4, length v)], length pre + 4 + length v).
Proof.
  intros Hv. unfold enc_entries. cbn [mbind list_bind]. rewrite app_nil_r, <-app_assoc. cbn [read_slices].
  rewrite (be_at32 pre) by done. rewrite bind_Ok, Nat2Z.id, (app_assoc pre).
  rewrite (go_slice_app _ (pre ++ be_encode 4 (Z.of_nat (length v))) v post);
    [done|done|by rewrite length_app, length_be_encode|by rewrite length_app, length_be_encode].
Qed.

Lemma receive_slice_one buf v rest :
  sendable_value v → fits (chunk_body [v]) →
  ∃ tail, receive_slices buf (enc_frame (chunk_body [v]) ++ rest) =
    Ok ([(16, length v)], enc_frame (chunk_body [v]) ++ tail, rest).
Proof.
  intros Hv Hfit. destruct (read_frame_Ok buf (chunk_body [v]) rest Hfit) as (tail & Hrf). exists tail.
  set (h := be_encode 4 MagicStart ++ be_encode 4 (Z.of_nat (length (chunk_body [v]) + 4))).
  assert (enc_frame (chunk_body [v]) ++ tail =
    h ++ be_encode 4 (Z.of_nat 1) ++ enc_entries [v] ++ be_encode 4 MagicEnd ++ tail) as Heq.
  { unfold enc_frame, h. unfold chunk_body at 2. by rewrite <-!app_assoc. }
  assert (length h = 8) as Hh by (unfold h; by rewrite !length_app, !length_be_encode).
  unfold receive_slices. rewrite Hrf, bind_Ok, Heq, (be_at32 h), bind_Ok, Nat2Z.id, (app_assoc h) by done.
  replace 12 with (length (h ++ be_encode 4 (Z.of_nat 1))) by by rewrite length_app, length_be_encode, Hh.
  rewrite read_slice_one, bind_Ok by by apply sendable_small. by rewrite length_app, length_be_encode, Hh.
Qed.

Section Stored.
Context `{GoRange} `{StateBackendLaws B}.

(** A fetch of one key stores a slice at a fixed place of the buffer. *)
Lemma alias_fetch_one (b : B) sbuf m buf k v :
  backend_ok b → small (length k) → fits (additional_body [k]) → data_of b !! k = Some v → sendable_value v →
  ∃ tail, alias_fetch b sbuf (m, buf) [k] =
    Ok (<[k := (16, length v)]> m, enc_frame (chunk_body [v]) ++ tail).
Proof.
  intros Hb Hk Hfit Hv Hs. unfold alias_fetch.
  rewrite sendAdditionalKeys_spec, (proj2 (Z.ltb_ge _ _)), bind_Ok by (done || by constructor).
  unfold handleStateCommTcpConnection.
  destruct (read_additional_request [k] sbuf []) as (sbuf' & Hread & Hdes); [by constructor|done|].
  rewrite app_nil_r in Hread. rewrite Hread, bind_Ok. cbn [Z.eqb Pos.eqb TcpMsgTypeAdditionalFetch TcpMsgTypeKeyedFetch].
  rewrite Hdes, bind_Ok. cbn [length].
  assert (on_wire (read_all (data_of b) [k]) = [v]) as Hw by (unfold on_wire, read_all; simpl; by rewrite Hv).
  destruct (serve_batches_Ok 1 AdditionalKeyGetManyBatchSize b [k]) as (cs & -> & Hj & Hg);
    [done|unfold AdditionalKeyGetManyBatchSize; lia|done|rewrite Hw; by constructor|].
  rewrite !bind_Ok. rewrite Hw in Hj.
  assert (cs = [[v]]) as ->.
  { destruct cs as [|[|v' c] cs]; [done|by apply Forall_cons in Hg as [[? _] _]|].
    change (mjoin ((v' :: c) :: cs)) with (v' :: c ++ mjoin cs) in Hj. injection Hj as -> Hj.
    apply app_eq_nil in Hj as [-> Hj]. destruct cs as [|c' cs]; [done|].
    apply Forall_cons in Hg as [_ Hg]. apply Forall_cons in Hg as [[Hc _] _].
    change (mjoin (c' :: cs)) with (c' ++ mjoin cs) in Hj. by apply app_eq_nil in Hj as [-> _]. }
  unfold stream_of_chunks. cbn [mbind list_bind]. cbn [alias_receive snd fst].
  apply Forall_cons in Hg as [[_ Hfc] _]. destruct (receive_slice_one buf v [] Hs Hfc) as (tail & Hrs).
  exists tail. by rewrite Hrs.
Qed.

Lemma slice_of_frame v tail : slice_bytes (enc_frame (chunk_body [v]) ++ tail) (16, length v) = v.
Proof.
  unfold slice_bytes, enc_frame, chunk_body, enc_entries. cbn [fst snd mbind list_bind]. rewrite app_nil_r.
  set (len := Z.of_nat (_ + 4)). set (h := be_encode 4 MagicStart ++ be_encode 4 len ++
    be_encode 4 (Z.of_nat (length [v])) ++ be_encode 4 (Z.of_nat (length v))).
  replace (_ ++ tail) with (h ++ v ++ be_encode 4 MagicEnd ++ tail) by (unfold h; by rewrite <-!app_assoc).
  rewrite drop_app_length' by (unfold h; by rewrite !length_app, !length_be_encode). by rewrite take_app_length.
Qed.

(** C36: a fetched value does not survive the next fetch.  Over the in-memory
    backend, a worker that takes the key [k1] over TCP and then the key [k2] from
    the same peer, with values of the same length, afterwards reads the value of
    [k2] for [k1]: the stored slice shows the connection's buffer. *)
Theorem fetched_value_overwritten (b : B) sbuf1 sbuf2 m buf k1 k2 v1 v2
    (Hb : backend_ok b) (Hne : k1 ≠ k2) (Hlen : length v1 = length v2)
    (Hk1 : small (length k1)) (Hf1 : fits (additional_body [k1])) (Hv1 : data_of b !! k1 = Some v1)
    (Hk2 : small (length k2)) (Hf2 : fits (additional_body [k2])) (Hv2 : data_of b !! k2 = Some v2)
    (Hs : sendable_value v1) :
  ∃ m1 buf1 m2 buf2, alias_fetch b sbuf1 (m, buf) [k1] = Ok (m1, buf1) ∧ alias_Get buf1 m1 k1 = Some v1 ∧
    alias_fetch b sbuf2 (m1, buf1) [k2] = Ok (m2, buf2) ∧ alias_Get buf2 m2 k1 = Some v2 ∧
    alias_Get buf2 m2 k2 = Some v2.
Proof.
  destruct (alias_fetch_one b sbuf1 m buf k1 v1) as (tail1 & Hrun1); [done..|].
  destruct (alias_fetch_one b sbuf2 (<[k1 := (16, length v1)]> m) (enc_frame (chunk_body [v1]) ++ tail1) k2 v2)
    as (tail2 & Hrun2); [done..|by unfold sendable_value in *; rewrite <-Hlen|].
  eexists _, _, _, _. split; [exact Hrun1|]. unfold alias_Get. split_and!.
  - rewrite lookup_insert_eq. cbn [fmap option_fmap option_map]. by rewrite slice_of_frame.
  - exact Hrun2.
  - rewrite lookup_insert_ne, lookup_insert_eq by done. cbn [fmap option_fmap option_map]. by rewrite Hlen, slice_of_frame.
  - rewrite lookup_insert_eq. cbn [fmap option_fmap option_map]. by rewrite slice_of_frame.
Qed.
End Stored.

Lemma fetched_value_overwritten_witness :
  ∃ m1 buf1 m2 buf2, alias_fetch (MkMem {[ [1]%Z := [10]%Z; [2]%Z := [20]%Z ]}) [] (∅, []) [[1]]%Z = Ok (m1, buf1) ∧
    alias_fetch (MkMem {[ [1]%Z := [10]%Z; [2]%Z := [20]%Z ]}) [] (m1, buf1) [[2]]%Z = Ok (m2, buf2) ∧
    alias_Get buf2 m2 [1]%Z = Some [20]%Z.
Proof.
  destruct (fetched_value_overwritten (MkMem {[ [1]%Z := [10]%Z; [2]%Z := [20]%Z ]}) [] [] ∅ [] [1]%Z [2]%Z [10]%Z [20]%Z)
    as (m1 & buf1 & m2 & buf2 & Hrun1 & _ & Hrun2 & Hget & _).
  - exact I.
  - discriminate.
  - reflexivity.
  - by vm_compute.
  - by vm_compute.
  - reflexivity.
  - by vm_compute.
  - by vm_compute.
  - reflexivity.
  - by vm_compute.
  - exists m1, buf1, m2, buf2. split; [exact Hrun1|]. split; [exact Hrun2|exact Hget].
Defined.
