(* ===== verification/ByKey.v ===== *)
(** * Lazy-by-key migration

    The per-key protocol of the state service ([state/lazyByKeyUtil.go],
    [state/lazyByKeyRpcUtil.go] and the by-key cases of
    [state/stateServiceApi.go]): every key of a local bucket is recorded with
    the worker that holds its state; a read fetches the keys held elsewhere,
    stores them locally and records the local worker for them.  The eventual
    migration from workers that leave the job takes further keys along with
    each read. *)

From stdpp Require Import prelude gmap strings list.
From Stdlib Require Import ZArith Lia.
From S2P Require Import Prelude Partition PartitionTable KeyMap Backend StateService Cluster NoMigration TcpFrames.

(** ** Transport *)

(** How keys are fetched from a peer: what the client decodes for a request
    [keys] to a peer with backend [b]; [additional] is the flat request of the
    eventual migration, answered in chunks.  The values a TCP fetch returns are
    slices of the connection's buffer; the model has their bytes, which is what
    a backend that copies them ([Pebble]) stores ([MemoryAlias.v] for the
    backend that does not). *)
Class StateTransport (B : Type) := {
  fetch : B → keyed bytes → res (keyed bytes);
  additional : B → list bytes → res (list (list bytes * list bytes))
}.

(** Over a transport that carries it, a request is a read of the peer. *)
Class TransportLaws (B : Type) `{StateBackendLaws B} `{StateTransport B} := {
  carries : B → keyed bytes → Prop;
  carries_all : B → list bytes → Prop;
  fetch_law : ∀ b keys, backend_ok b → carries b keys →
    fetch b keys = Ok (on_wire <$> (read_all (data_of b) <$> keys));
  additional_law : ∀ b keys, backend_ok b → carries_all b keys →
    ∃ chunks, additional b keys = Ok chunks ∧ Forall (λ ch, length ch.1 = length ch.2) chunks ∧
      chunks ≫= fst = keys ∧ chunks ≫= snd = on_wire (read_all (data_of b) keys)
}.

Section Transports.
Context `{GoRange} {B : Type} `{StateBackendOps B}.

(** [RemoteByKeyMigration] answers a list of states; [fetchStateByRpc] makes a
    map of it. *)
Definition RemoteByKeyMigration (b : B) (stateKeyLists : list (Z * list bytes))
    : res (list (Z * list (option bytes))) :=
  mapR (λ '(stateId, ks), vs ← sb_GetMany b ks; Ok (stateId, vs)) stateKeyLists.

Definition fetchStateByRpc (b : B) (keys : keyed bytes) : res (keyed bytes) :=
  lists ← RemoteByKeyMigration b (go_range keys);
  Ok (foldl (λ m e, <[e.1 := on_wire e.2]> m) ∅ lists).

Definition rpc_transport : StateTransport B := {|
  fetch := fetchStateByRpc;
  additional _ _ := Crash (Fatal "gRPC additional key fetch not implemented yet")
|}.

Definition tcp_transport (buf sbuf : bytes) : StateTransport B := {|
  fetch b := fetchStateByTcp b buf sbuf;
  additional b := fetch_additional b buf sbuf
|}.
End Transports.

(** gRPC carries any request, but no additional keys. *)
Definition rpc_laws `{GoRange} `{StateBackendLaws B} : @TransportLaws B _ _ rpc_transport.
Proof.
  refine (Build_TransportLaws B _ _ rpc_transport (λ _ _, True) (λ _ _, False) _ _); [|done].
  intros b keys Hb _. simpl. unfold fetchStateByRpc, RemoteByKeyMigration.
  rewrite (mapR_total _ (λ x, (x.1, read_all (data_of b) x.2))).
  2:{ intros [id kl] _. by rewrite GetMany_law. }
  rewrite bind_Ok, foldl_fmap. cbn [fst snd]. f_equal.
  set (f := on_wire ∘ read_all (data_of b)).
  transitivity (foldl (λ m x, <[x.1 := f x.2]> m) (f <$> (∅ : keyed bytes)) (go_range keys)); [by rewrite fmap_empty|].
  rewrite foldl_insert_fmap, foldl_insert_map. apply map_fmap_compose.
Defined.

(** TCP carries what fits in its frames. *)
Definition tcp_laws `{GoRange} `{StateBackendLaws B} (buf sbuf : bytes) : @TransportLaws B _ _ (tcp_transport buf sbuf).
Proof.
  refine (Build_TransportLaws B _ _ (tcp_transport buf sbuf)
    (λ b keys, wire_map length keys ∧ (∀ id kl, keys !! id = Some kl → kl ≠ []) ∧
       wire_map (λ v, length (default [] v)) (read_all (data_of b) <$> keys) ∧
       fits (keyed_body keys) ∧ fits (response_body (read_all (data_of b) <$> keys)))
    (λ b keys, Forall (λ k, small (length k)) keys ∧ fits (additional_body keys) ∧
       Forall sendable_value (on_wire (read_all (data_of b) keys))) _ _).
  - intros b keys Hb (Hk & Hne & Hv & Hf1 & Hf2). simpl. rewrite fetchStateByTcp_spec by done. unfold fits in *.
    by rewrite !(proj2 (Z.leb_le _ _)).
  - intros b keys Hb (Hk & Hf & Hv). by apply fetch_additional_Ok.
Defined.

(** ** State *)

(** The fields of [StateService] for an eventual migration: the lock map and
    the map of finished buckets are nil before and after it. *)
Record Eventual := MkEv {
  ev_Enabled : bool;
  ev_AffectedBuckets : gmap Z (list Z);
  ev_BucketLocks : option (gset Z);
  ev_FinishedBuckets : option (gmap Z (gset Z));
  ev_DoneWorkers : gset Z;
  ev_RemainingWorkers : Z;
  ev_Done : bool
}.

(** The part of [StateService] the protocol uses. *)
Record ByKeyService (B : Type) := MkByKey {
  bk_WorkerID : Z;
  bk_Backend : B;
  bk_Table : KeyLookupTableV2;
  bk_peers : gmap Z B;
  GradualMigrationBatchSize : Z;
  bk_ev : Eventual
}.
Arguments MkByKey {B}.
Arguments bk_WorkerID {B}.
Arguments bk_Backend {B}.
Arguments bk_Table {B}.
Arguments bk_peers {B}.
Arguments GradualMigrationBatchSize {B}.
Arguments bk_ev {B}.

Section Setters.
Context {B : Type}.
Implicit Types s : ByKeyService B.

Definition bk_set_backend s (b : B) : ByKeyService B :=
  MkByKey (bk_WorkerID s) b (bk_Table s) (bk_peers s) (GradualMigrationBatchSize s) (bk_ev s).

Definition bk_set_table s (t : KeyLookupTableV2) : ByKeyService B :=
  MkByKey (bk_WorkerID s) (bk_Backend s) t (bk_peers s) (GradualMigrationBatchSize s) (bk_ev s).

Definition bk_set_ev s (ev : Eventual) : ByKeyService B :=
  MkByKey (bk_WorkerID s) (bk_Backend s) (bk_Table s) (bk_peers s) (GradualMigrationBatchSize s) ev.
End Setters.

Definition ev_set_finished (ev : Eventual) (f : option (gmap Z (gset Z))) : Eventual :=
  MkEv (ev_Enabled ev) (ev_AffectedBuckets ev) (ev_BucketLocks ev) f (ev_DoneWorkers ev)
    (ev_RemainingWorkers ev) (ev_Done ev).

(** ** Eventual migration *)

Section Eventual.
Context `{GoRange} {B : Type} `{StateBackendOps B} `{StateTransport B}.
Implicit Types s : ByKeyService B.

(** [SetEventualMigrationMeta]: an affected bucket comes with the workers that
    leave and hold keys of it. *)
Definition group_affected (affected : keyed Z) (e : Z * list Z) : keyed Z :=
  foldl (λ affected wid, append_at affected (u16 wid) e.1) affected e.2.

Definition SetEventualMigrationMeta s (affectedBuckets : list (Z * list Z)) : res (ByKeyService B) :=
  fatal_if (length affectedBuckets =? 0) "No affected buckets to be migrated";;
  let affected := foldl group_affected ∅ affectedBuckets in
  fatal_if (negb (ev_RemainingWorkers (bk_ev s) =? 0)%Z) "eventualMigrationRemainingWorkers is not 0";;
  Ok (bk_set_ev s (MkEv true affected (Some (list_to_set affectedBuckets.*1)) (Some ((λ _, ∅) <$> affected)) ∅
        (i32 (Z.of_nat (size affected))) false)).

(** The scan of one bucket's key map, up to [left] keys ([None]: no limit):
    the keys held by the leaving worker, and whether the scan was cut short. *)
Fixpoint scan_keys (cancelling : Z) (dup : gset bytes) (left : option nat) (l : list (bytes * Z))
    : list bytes * bool :=
  match l with
  | [] => ([], false)
  | (key, w) :: l =>
      if negb (w =? cancelling)%Z || bool_decide (key ∈ dup) then scan_keys cancelling dup left l
      else match left with
           | Some 0 | Some 1 => ([key], true)
           | Some (S n) => let '(ks, cut) := scan_keys cancelling dup (Some n) l in (key :: ks, cut)
           | None => let '(ks, cut) := scan_keys cancelling dup None l in (key :: ks, cut)
           end
  end.

Definition is_finished (ev : Eventual) (cancelling bucketId : Z) : bool :=
  match ev_FinishedBuckets ev with
  | Some f => bool_decide (bucketId ∈ default ∅ (f !! cancelling))
  | None => false
  end.

(** [s.eventualMigrationFinishedBuckets[w][b] = true] panics on a nil map. *)
Definition mark_finished (ev : Eventual) (cancelling bucketId : Z) : res Eventual :=
  match ev_FinishedBuckets ev with
  | Some f => match f !! cancelling with
              | Some bs => Ok (ev_set_finished ev (Some (<[cancelling := {[bucketId]} ∪ bs]> f)))
              | None => Crash Panic
              end
  | None => Crash Panic
  end.

(** The read lock of a bucket: a missing lock is a nil pointer. *)
Definition bucket_lock (ev : Eventual) (bucketId : Z) : res unit :=
  panic_if (negb (bool_decide (bucketId ∈ default ∅ (ev_BucketLocks ev)))).

(** The loop over the affected buckets. *)
Fixpoint scan_buckets (t : KeyLookupTableV2) (ev : Eventual) (cancelling : Z) (dup : gset bytes)
    (left : option nat) (buckets : list Z) : res (Eventual * list (bytes * Z) * bool) :=
  match buckets with
  | [] => Ok (ev, [], true)
  | bucketId :: buckets =>
      if is_finished ev cancelling bucketId then scan_buckets t ev cancelling dup left buckets
      else
        bucket ← idxZ (t2_Buckets t) bucketId;
        m ← require_map bucket "Affected bucket has nil key map on current worker";
        bucket_lock ev bucketId;;
        let '(ks, cut) := scan_keys cancelling dup left (go_range m) in
        if cut then Ok (ev, (λ k, (k, bucketId)) <$> ks, false)
        else
          ev ← mark_finished ev cancelling bucketId;
          '(ev, more, allDone) ← scan_buckets t ev cancelling dup ((λ n, n - length ks) <$> left) buckets;
          Ok (ev, ((λ k, (k, bucketId)) <$> ks) ++ more, allDone)
  end.

(** The keys to fetch with their buckets; a non-positive limit is none. *)
Definition getKeysForEventualMigration s (cancelling : Z) (dup : gset bytes) (maxKeys : Z)
    : res (Eventual * list (bytes * Z) * bool) :=
  match ev_AffectedBuckets (bk_ev s) !! cancelling with
  | None => Crash (Fatal "No affected buckets found for cancelling worker")
  | Some buckets =>
      scan_buckets (bk_Table s) (bk_ev s) cancelling dup
        (if (0 <? maxKeys)%Z then Some (Z.to_nat maxKeys) else None) buckets
  end.

Definition peer s (w : Z) : res B :=
  match bk_peers s !! w with
  | Some b => Ok b
  | None => Crash (Fatal "Connection not found for worker")
  end.

(** One update of the table by [fetchAdditionalKeysByTcp]. *)
Definition update_additional (locks : option (gset Z)) (self : Z) (t : KeyLookupTableV2) (kb : bytes * Z)
    : res KeyLookupTableV2 :=
  fatal_if (negb (bool_decide (kb.2 ∈ default ∅ locks)))
    "Per-bucket lock not found for bucket during eventual migration";;
  UpdateKey t kb.1 kb.2 self.

(** Each received chunk is stored; the table is updated for its keys. *)
Definition fetchAdditionalKeysByTcp s (cancelling : Z) (keys : list (bytes * Z)) : res (ByKeyService B) :=
  b ← peer s cancelling;
  chunks ← additional b keys.*1;
  backend ← foldM (λ backend (ch : list bytes * list bytes), sb_SetMany backend ch.1 ch.2) (bk_Backend s) chunks;
  t ← foldM (update_additional (ev_BucketLocks (bk_ev s)) (bk_WorkerID s)) (bk_Table s) keys;
  Ok (bk_set_table (bk_set_backend s backend) t).

(** A worker that is done is counted once; the last one ends the migration. *)
Definition finish_worker (ev : Eventual) (cancelling : Z) : Eventual :=
  if bool_decide (cancelling ∈ ev_DoneWorkers ev) then ev
  else
    let remaining := i32 (ev_RemainingWorkers ev - 1) in
    let done := {[cancelling]} ∪ ev_DoneWorkers ev in
    if (remaining =? 0)%Z
    then MkEv false (ev_AffectedBuckets ev) None None done remaining true
    else MkEv (ev_Enabled ev) (ev_AffectedBuckets ev) (ev_BucketLocks ev) (ev_FinishedBuckets ev) done
           remaining (ev_Done ev).

Definition fetchAdditionalKeys s (cancelling : Z) (already : gset bytes) : res (ByKeyService B) :=
  '(ev, keys, allDone) ← getKeysForEventualMigration s cancelling already (GradualMigrationBatchSize s);
  let s := bk_set_ev s ev in
  s ← (if length keys =? 0 then Ok s else fetchAdditionalKeysByTcp s cancelling keys);
  Ok (if (allDone : bool) then bk_set_ev s (finish_worker (bk_ev s) cancelling) else s).
End Eventual.

(** ** Reads *)

Section Read.
Context `{GoRange} `{Schedule} {B : Type} `{StateBackendOps B} `{StateTransport B}.
Implicit Types (s : ByKeyService B) (keys values : keyed bytes).

(** The keys of a request by the worker that holds their state, and their
    positions in the request. *)
Definition group_key (t : KeyLookupTableV2) (bucketIDs : list Z) (stateID : Z)
    (st : gmap Z (keyed bytes) * gmap Z (keyed nat)) (x : nat * bytes)
    : res (gmap Z (keyed bytes) * gmap Z (keyed nat)) :=
  bucketID ← idx bucketIDs x.1;
  workerID ← GetWorkerID t x.2 bucketID;
  Ok (append_at2 st.1 workerID stateID x.2, append_at2 st.2 workerID stateID x.1).

Definition groupKeysByWorker s keys (bucketIDs : list Z)
    : res (gmap Z (keyed bytes) * gmap Z (keyed nat)) :=
  foldM (λ st '(stateID, keyList), foldM (group_key (bk_Table s) bucketIDs stateID) st (imap pair keyList))
    (∅, ∅) (go_range keys).

(** Fetch, flush, and further keys when the worker leaves the job. *)
Definition byKeyStateFetchExecutor s (remoteWorkerId : Z) keys (eventualMigrationTriggered : bool)
    : res (ByKeyService B * keyed bytes) :=
  b ← peer s remoteWorkerId;
  values ← fetch b keys;
  backend ← foldM (λ backend '(stateId, keyList), sb_SetMany backend keyList (default [] (values !! stateId)))
    (bk_Backend s) (go_range keys);
  let s := bk_set_backend s backend in
  s ← (if eventualMigrationTriggered && bool_decide (is_Some (ev_AffectedBuckets (bk_ev s) !! remoteWorkerId))
       then fetchAdditionalKeys s remoteWorkerId (list_to_set (request_keys keys))
       else Ok s);
  Ok (s, values).

(** The table updates of [updateAddrForFetchedNeededRemoteKeys]: the keys
    fetched from other workers, with their buckets. *)
Definition state_updates (bucketIDs : list Z) (indices : list nat) (keyList : list bytes) : res (list (bytes * Z)) :=
  mapR (λ x : nat * bytes, j ← idx indices x.1; bucketID ← idx bucketIDs j; Ok (x.2, bucketID)) (imap pair keyList).

Definition worker_updates (bucketIDs : list Z) (indexTracker : keyed nat) (workerKeys : keyed bytes)
    : res (list (bytes * Z)) :=
  lists ← mapR (λ x : Z * list bytes, state_updates bucketIDs (default [] (indexTracker !! x.1)) x.2)
    (go_range workerKeys);
  Ok (concat lists).

Definition updateAddrForFetchedNeededRemoteKeys s (keysByWorker : gmap Z (keyed bytes))
    (indexTrackerByWorker : gmap Z (keyed nat)) (bucketIDs : list Z) : res (list (bytes * Z)) :=
  lists ← mapR (λ x : Z * keyed bytes,
      if (x.1 =? bk_WorkerID s)%Z then Ok []
      else worker_updates bucketIDs (default ∅ (indexTrackerByWorker !! x.1)) x.2)
    (go_range keysByWorker);
  Ok (concat lists).

(** The goroutines of one read; the updates of the table are one goroutine,
    which interleaves with the others between two keys. *)
Inductive read_task :=
  | readLocalStateRoutine (workerKeys : keyed bytes)
  | fetch_from (workerID : Z) (workerKeys : keyed bytes)
  | fetch_further (cancelling : Z)
  | update_addr (key : bytes) (bucketID : Z).

(** A received value is never nil. *)
Definition received (vals : keyed bytes) : keyed (option bytes) := (λ vs : list bytes, Some <$> vs) <$> vals.

Definition run_task (triggered : bool) (st : ByKeyService B * gmap Z (keyed (option bytes))) (t : read_task)
    : res (ByKeyService B * gmap Z (keyed (option bytes))) :=
  let '(s, resByWorker) := st in
  match t with
  | readLocalStateRoutine workerKeys =>
      vals ← readLocalState (bk_Backend s) workerKeys;
      Ok (s, <[bk_WorkerID s := vals]> resByWorker)
  | fetch_from w workerKeys =>
      '(s, vals) ← byKeyStateFetchExecutor s w workerKeys triggered;
      Ok (s, <[w := received vals]> resByWorker)
  | fetch_further w =>
      s ← fetchAdditionalKeys s w ∅;
      Ok (s, resByWorker)
  | update_addr key bucketID =>
      t ← UpdateKey (bk_Table s) key bucketID (bk_WorkerID s);
      Ok (bk_set_table s t, resByWorker)
  end.

Definition worker_task (self : Z) (x : Z * keyed bytes) : read_task :=
  if (x.1 =? self)%Z then readLocalStateRoutine x.2 else fetch_from x.1 x.2.

Definition scatter_by_key (indexTrackers : gmap Z (keyed nat)) (result : keyed (option bytes))
    (x : Z * keyed (option bytes)) : res (keyed (option bytes)) :=
  foldM (λ result '(stateID, vals),
      r ← scatter_values (default [] (default ∅ (indexTrackers !! x.1) !! stateID))
            (default [] (result !! stateID)) vals;
      Ok (<[stateID := r]> result))
    result (go_range x.2).

Definition mergeResultsFromAllWorkersLazyByKey keys (resByWorker : gmap Z (keyed (option bytes)))
    (indexTrackers : gmap Z (keyed nat)) : res (keyed (option bytes)) :=
  foldM (scatter_by_key indexTrackers)
    ((λ keyList, replicate (length keyList) None) <$> keys : keyed (option bytes))
    (go_range resByWorker).

(** The read as a whole: the state is the one the next request finds, which
    waits for every goroutine. *)
Definition remoteReadWithByKeyMigration s keys (bucketIDs : list Z)
    : res (ByKeyService B * keyed (option bytes)) :=
  '(keysByWorker, indexTracker) ← groupKeysByWorker s keys bucketIDs;
  let triggered := ev_Enabled (bk_ev s) in
  updates ← updateAddrForFetchedNeededRemoteKeys s keysByWorker indexTracker bucketIDs;
  let tasks := (worker_task (bk_WorkerID s) <$> go_range keysByWorker) ++
    (if triggered
     then fetch_further <$> filter (λ w, keysByWorker !! w = None) (go_range (ev_AffectedBuckets (bk_ev s))).*1
     else []) ++
    ((λ u, update_addr u.1 u.2) <$> updates) in
  '(s, resByWorker) ← foldM (run_task triggered) (s, ∅) (schedule tasks);
  result ← mergeResultsFromAllWorkersLazyByKey keys resByWorker indexTracker;
  Ok (s, result).

(** ** Writes *)

(** A table operation for every key of a request. *)
Definition each_key (f : KeyLookupTableV2 → bytes → Z → res KeyLookupTableV2) (t : KeyLookupTableV2) keys
    (bucketIDs : keyed Z) : res KeyLookupTableV2 :=
  foldM (λ t '(stateID, keyList),
      foldM (λ t '(i, key), b ← idx (default [] (bucketIDs !! stateID)) i; f t key b) t (imap pair keyList))
    t (go_range keys).

Definition insertOrUpdateAddrForLocalKeys s keys (bucketIDs : keyed Z) : res KeyLookupTableV2 :=
  each_key (λ t key b, InsertOrUpdateKey t key b (bk_WorkerID s)) (bk_Table s) keys bucketIDs.

Definition deleteKeysFromLookupTable s keys (bucketIDs : keyed Z) : res KeyLookupTableV2 :=
  each_key RemoveKey (bk_Table s) keys bucketIDs.

(** ** The service's requests *)

Definition bk_GetManyMultiState s keys (bucketIDs : list Z) : res (ByKeyService B * keyed (option bytes)) :=
  remoteReadWithByKeyMigration s keys bucketIDs.

Definition bk_write (f : B → keyed bytes → keyed bytes → res B) (msg : string) s keys values (bucketIDs : keyed Z)
    : res (ByKeyService B) :=
  fatal_if (size keys =? 0) msg;;
  t ← insertOrUpdateAddrForLocalKeys s keys bucketIDs;
  backend ← f (bk_Backend s) keys values;
  Ok (bk_set_table (bk_set_backend s backend) t).

Definition bk_SetManyMultiState := bk_write overwriteLocalState "No keys to set".
Definition bk_MergeManyMultiState := bk_write mergeLocalState "No keys to merge".

Definition bk_DeleteMany s keys (bucketIDs : keyed Z) : res (ByKeyService B) :=
  fatal_if (size keys =? 0) "No keys to delete";;
  t ← deleteKeysFromLookupTable s keys bucketIDs;
  backend ← deleteLocalState (bk_Backend s) keys;
  Ok (bk_set_table (bk_set_backend s backend) t).
End Read.
