(* ===== verification/ByKeyRead.v ===== *)
(** * Lazy-by-key migration: the view of a service

    The value of a key in a worker's by-key service ([bk_value]: the value
    held where the table says), a read in progress ([progress]), and the
    grouping and merging of a read's keys by the worker that holds them. *)

From stdpp Require Import prelude gmap strings list.
From Stdlib Require Import ZArith Lia.
From S2P Require Import Prelude Partition PartitionTable KeyMap Backend StateService Cluster NoMigration ByKey.

(** ** Tables *)

Definition recorded_in (buckets : list BucketV2) (k : bytes) : option Z :=
  match buckets !! key_bucket k with
  | Some (MkBucketV2 _ (Some m)) => m !! k
  | _ => None
  end.

(** The bucket with the state of the keys of [U] moved to [self]. *)
Definition relocate_map (self : Z) (U : gset bytes) (m : gmap bytes Z) : gmap bytes Z :=
  map_imap (λ k w, Some (if bool_decide (k ∈ U) then self else w)) m.

Definition relocate (self : Z) (U : gset bytes) (bucket : BucketV2) : BucketV2 :=
  MkBucketV2 (WorkerID bucket) (relocate_map self U <$> Map bucket).

Lemma relocate_map_lookup self U m k :
  relocate_map self U m !! k = (λ w, if bool_decide (k ∈ U) then self else w) <$> m !! k.
Proof. unfold relocate_map. rewrite map_lookup_imap. by destruct (m !! k). Qed.

(** Every key of a bucket's map belongs to the bucket. *)
Definition keyed_buckets (op n : Z) (buckets : list BucketV2) : Prop :=
  ∀ i bucket m k w, buckets !! i = Some bucket → Map bucket = Some m → m !! k = Some w → key_at op n k (Z.of_nat i).

Lemma relocate_empty self (bs : list BucketV2) : relocate self ∅ <$> bs = bs.
Proof.
  rewrite <-(list_fmap_id bs) at 2. apply list_fmap_ext. intros _ [w [m|]] _; [|done].
  unfold relocate. simpl. do 2 f_equal. apply map_eq. intros k. rewrite relocate_map_lookup.
  by destruct (m !! k).
Qed.

Lemma recorded_relocate self U bs k :
  recorded_in (relocate self U <$> bs) k =
    (λ w, if bool_decide (k ∈ U) then self else w) <$> recorded_in bs k.
Proof.
  unfold recorded_in. rewrite list_lookup_fmap. destruct (bs !! key_bucket k) as [[w [m|]]|]; [|done..].
  simpl. by rewrite relocate_map_lookup.
Qed.

Lemma key_at_bucket op n k b : key_at op n k b → (n < 2 ^ 32)%Z → b = Z.of_nat (key_bucket k).
Proof. intros Hk Hn. rewrite (key_bucket_at op n k b) by (done || lia). destruct Hk. lia. Qed.

(** The map of the bucket that records a key. *)
Lemma recorded_Some bs k w : recorded_in bs k = Some w ↔
  ∃ bucket m, bs !! key_bucket k = Some bucket ∧ Map bucket = Some m ∧ m !! k = Some w.
Proof.
  unfold recorded_in. split.
  - destruct (bs !! _) as [[w' [m|]]|] eqn:E; [|done..]. intros Hk. eexists _, m. by split_and!.
  - intros ([w' o] & m & -> & Hm & Hk). simpl in Hm. by rewrite Hm.
Qed.

(** An update of a recorded key relocates it. *)
Lemma UpdateKey_relocate op n self U bs t k b w :
  keyed_buckets op n bs → (n < 2 ^ 32)%Z → t2_Buckets t = relocate self U <$> bs →
  key_at op n k b → recorded_in bs k = Some w →
  ∃ t', UpdateKey t k b self = Ok t' ∧ t2_Buckets t' = relocate self ({[k]} ∪ U) <$> bs.
Proof.
  intros Hkeys Hn Ht Hk (bucket & m & Hb & Hm & Hw)%recorded_Some.
  rewrite (key_at_bucket op n k b) by done. unfold UpdateKey, store_map. rewrite !Ht.
  set (m' := relocate_map self U m).
  rewrite (proj2 (idxZ_Ok _ _ (MkBucketV2 (WorkerID bucket) (Some m')))), bind_Ok.
  2:{ split; [lia|]. rewrite Nat2Z.id, list_lookup_fmap, Hb. simpl. unfold relocate. by rewrite Hm. }
  cbn [require_map Map]. rewrite bind_Ok, bool_decide_eq_false_2, bind_fatal_false
    by (unfold m'; by rewrite relocate_map_lookup, Hw).
  erewrite (proj2 (set_idxZ_Ok _ _ _ _)); [|split_and!; [lia| |reflexivity]].
  2:{ rewrite Nat2Z.id, length_fmap. by eapply lookup_lt_Some. }
  rewrite bind_Ok. eexists. split; [reflexivity|]. cbn [t2_Buckets]. rewrite Nat2Z.id.
  apply list_eq. intros i. destruct (decide (i = key_bucket k)) as [->|Hi].
  - rewrite list_lookup_insert_eq by (rewrite length_fmap; by eapply lookup_lt_Some).
    rewrite list_lookup_fmap, Hb. simpl. unfold relocate. rewrite Hm. simpl. do 3 f_equal.
    apply map_eq. intros k'. unfold m'. rewrite relocate_map_lookup. destruct (decide (k' = k)) as [->|Hne].
    + rewrite lookup_insert_eq, Hw. simpl. by rewrite bool_decide_eq_true_2 by set_solver.
    + rewrite lookup_insert_ne, relocate_map_lookup by done. destruct (m !! k'); [|done]. simpl.
      f_equal. by repeat case_bool_decide; set_solver.
  - rewrite list_lookup_insert_ne, !list_lookup_fmap by done.
    destruct (bs !! i) as [[w' [m1|]]|] eqn:Hbi; [|done..]. simpl. unfold relocate. simpl. do 3 f_equal.
    apply map_eq. intros k'. rewrite !relocate_map_lookup. destruct (m1 !! k') as [v|] eqn:Hv; [|done]. simpl.
    f_equal. assert (k' ≠ k); [|by repeat case_bool_decide; set_solver]. intros ->. apply Hi.
    pose proof (Hkeys i _ m1 k v Hbi eq_refl Hv) as Hat. rewrite (key_bucket_at op n k _ Hat); lia.
Qed.

(** ** The view of a service *)

Section View.
Context `{StateBackendLaws B}.
Implicit Types s : ByKeyService B.

Definition bk_buckets s : list BucketV2 := t2_Buckets (bk_Table s).

(** Where the state of a key is: at the recorded worker, at the local one if
    there is none. *)
Definition recorded s (k : bytes) : option Z := recorded_in (bk_buckets s) k.
Definition place s (k : bytes) : Z := default (bk_WorkerID s) (recorded s k).

Definition store_of s (w : Z) : store :=
  if (w =? bk_WorkerID s)%Z then data_of (bk_Backend s)
  else match bk_peers s !! w with Some b => data_of b | None => ∅ end.

Definition bk_value s (k : bytes) : bytes := default [] (store_of s (place s k) !! k).

Record bk_wf (op n : Z) s : Prop := {
  bw_n : (0 < n < 2 ^ 32)%Z;
  bw_len : length (bk_buckets s) = Z.to_nat n;
  bw_backend : backend_ok (bk_Backend s);
  bw_peers : ∀ w b, bk_peers s !! w = Some b → backend_ok b;
  bw_owner : ∀ i bucket m, bk_buckets s !! i = Some bucket → Map bucket = Some m → WorkerID bucket = bk_WorkerID s;
  bw_keys : keyed_buckets op n (bk_buckets s);
  bw_places : ∀ k w, recorded s k = Some w → w = bk_WorkerID s ∨ is_Some (bk_peers s !! w)
}.

(** A bucket the worker processes. *)
Definition is_local s (b : Z) : Prop :=
  (0 ≤ b)%Z ∧ ∃ bucket m, bk_buckets s !! Z.to_nat b = Some bucket ∧ Map bucket = Some m.

(** A key of a bucket the worker processes. *)
Definition own_key (op n : Z) s (k : bytes) (b : Z) : Prop := key_at op n k b ∧ is_local s b.

Lemma GetWorkerID_place op n s k b :
  bk_wf op n s → own_key op n s k b → GetWorkerID (bk_Table s) k b = Ok (place s k).
Proof.
  intros Hwf [Hk (Hb & bucket & m & Hbk & Hm)].
  assert (idxZ (bk_buckets s) b = Ok bucket) as Hidx by by apply idxZ_Ok.
  rewrite (GetWorkerID_Ok _ k b _ bucket m Hidx Hm). unfold place, recorded, recorded_in.
  rewrite (key_bucket_at op n k b) by (done || pose proof (bw_n _ _ _ Hwf); lia).
  rewrite Hbk, (bw_owner _ _ _ Hwf _ _ _ Hbk Hm). destruct bucket. simpl in Hm. by rewrite Hm.
Qed.

(** *** A read in progress

    From [s0] the values of the keys [F] have been copied to the local store
    and the keys [U] are recorded as local; both are keys of other workers. *)
Record progress s0 (F U : gset bytes) s : Prop := {
  pr_self : bk_WorkerID s = bk_WorkerID s0;
  pr_peers : bk_peers s = bk_peers s0;
  pr_batch : GradualMigrationBatchSize s = GradualMigrationBatchSize s0;
  pr_table : bk_buckets s = relocate (bk_WorkerID s0) U <$> bk_buckets s0;
  pr_ok : backend_ok (bk_Backend s);
  pr_data : ∀ k, data_of (bk_Backend s) !! k =
    if bool_decide (k ∈ F) then Some (bk_value s0 k) else data_of (bk_Backend s0) !! k;
  pr_F : ∀ k, k ∈ F → place s0 k ≠ bk_WorkerID s0;
  pr_U : ∀ k, k ∈ U → place s0 k ≠ bk_WorkerID s0
}.

Lemma progress_refl op n s : bk_wf op n s → progress s ∅ ∅ s.
Proof.
  intros Hwf. split; try done.
  - by rewrite relocate_empty.
  - apply (bw_backend _ _ _ Hwf).
Qed.

Lemma progress_recorded s0 F U s k : progress s0 F U s →
  recorded s k = (λ w, if bool_decide (k ∈ U) then bk_WorkerID s0 else w) <$> recorded s0 k.
Proof. intros Hp. unfold recorded. by rewrite (pr_table _ _ _ _ Hp), recorded_relocate. Qed.

Lemma progress_local s0 F U s b : progress s0 F U s → is_local s b ↔ is_local s0 b.
Proof.
  intros Hp. unfold is_local. rewrite (pr_table _ _ _ _ Hp).
  setoid_rewrite list_lookup_fmap. split; intros (Hb & bucket & m & Hl & Hm); (split; [done|]).
  - destruct (bk_buckets s0 !! _) as [[w [m0|]]|]; simplify_eq/=. eauto.
  - rewrite Hl. simpl. eexists _, _. split; [done|]. unfold relocate. by rewrite Hm.
Qed.

(** Once the copied keys are the relocated ones the values are as before. *)
Lemma progress_end op n s0 F s :
  bk_wf op n s0 → progress s0 F F s →
  bk_wf op n s ∧ (∀ k, bk_value s k = bk_value s0 k) ∧ ∀ k, k ∈ F → place s k = bk_WorkerID s.
Proof.
  intros Hwf Hp. pose proof (pr_self _ _ _ _ Hp) as Hs.
  assert (Hpl : ∀ k, place s k = if bool_decide (k ∈ F) then bk_WorkerID s0 else place s0 k).
  { intros k. unfold place. rewrite (progress_recorded _ _ _ _ _ Hp), Hs.
    destruct (recorded s0 k) eqn:E; [done|]. simpl. by case_bool_decide. }
  split; [|split].
  - destruct Hwf as [Hn Hlen Hb Hpe Hown Hk Hplaces]. split; try done.
    + by rewrite (pr_table _ _ _ _ Hp), length_fmap.
    + apply (pr_ok _ _ _ _ Hp).
    + by rewrite (pr_peers _ _ _ _ Hp).
    + intros i bucket m. rewrite (pr_table _ _ _ _ Hp), list_lookup_fmap, Hs.
      destruct (bk_buckets s0 !! i) as [[w [m0|]]|] eqn:E; intros [= <-] [= <-]. exact (Hown i _ m0 E eq_refl).
    + intros i bucket m k w. rewrite (pr_table _ _ _ _ Hp), list_lookup_fmap.
      destruct (bk_buckets s0 !! i) as [[w0 [m0|]]|] eqn:E; intros [= <-] [= <-].
      rewrite relocate_map_lookup. destruct (m0 !! k) as [v|] eqn:Hv; [|done]. intros _. exact (Hk i _ m0 k v E eq_refl Hv).
    + intros k w. rewrite (progress_recorded _ _ _ _ _ Hp), (pr_peers _ _ _ _ Hp), Hs.
      intros (w0 & Hw0 & ->)%fmap_Some. case_bool_decide; [by left|]. by apply (Hplaces k).
  - intros k. unfold bk_value at 1. rewrite Hpl. case_bool_decide as Hk.
    + unfold store_of. rewrite Hs, Z.eqb_refl, (pr_data _ _ _ _ Hp). by rewrite bool_decide_eq_true_2.
    + unfold store_of. rewrite Hs, (pr_peers _ _ _ _ Hp). unfold bk_value, store_of.
      destruct (_ =? _)%Z; [|done]. by rewrite (pr_data _ _ _ _ Hp), bool_decide_eq_false_2.
  - intros k Hk. by rewrite Hpl, bool_decide_eq_true_2, Hs.
Qed.

(** Copying keys of one other worker. *)
Lemma foldl_write_fmap (d : store) (g : bytes → bytes) keys k :
  foldl write_pair d (zip keys (g <$> keys)) !! k = if bool_decide (k ∈ keys) then Some (g k) else d !! k.
Proof.
  revert d. induction keys as [|k0 keys IH]; intros d; [done|]. simpl. rewrite IH. unfold write_pair. simpl.
  destruct (decide (k = k0)) as [->|Hne].
  - rewrite (bool_decide_eq_true_2 (k0 ∈ k0 :: keys)) by set_solver. case_bool_decide; [done|]. by rewrite lookup_insert_eq.
  - rewrite lookup_insert_ne by done. rewrite (bool_decide_ext (k ∈ k0 :: keys) (k ∈ keys)) by set_solver. done.
Qed.

Lemma progress_copy s0 F U s keys :
  progress s0 F U s → (∀ k, k ∈ keys → place s0 k ≠ bk_WorkerID s0) →
  ∃ b', sb_SetMany (bk_Backend s) keys (bk_value s0 <$> keys) = Ok b' ∧
    progress s0 (list_to_set keys ∪ F) U (bk_set_backend s b').
Proof.
  intros Hp Hk. destruct (SetMany_law (bk_Backend s) keys (bk_value s0 <$> keys)) as (b' & Hset & Hok & Hd).
  { apply (pr_ok _ _ _ _ Hp). } { by rewrite length_fmap. }
  exists b'. split; [done|]. destruct Hp as [? ? ? ? ? Hdata HF HU]. split; try done.
  - intros k. simpl. rewrite Hd, foldl_write_fmap, Hdata.
    repeat case_bool_decide; set_solver.
  - intros k [Hin%elem_of_list_to_set|Hin]%elem_of_union; eauto.
Qed.

Lemma progress_update op n s0 F U s k b w :
  bk_wf op n s0 → progress s0 F U s → key_at op n k b → recorded s0 k = Some w → w ≠ bk_WorkerID s0 →
  ∃ t, UpdateKey (bk_Table s) k b (bk_WorkerID s) = Ok t ∧ progress s0 F ({[k]} ∪ U) (bk_set_table s t).
Proof.
  intros Hwf Hp Hk Hw Hne.
  destruct (UpdateKey_relocate op n (bk_WorkerID s0) U (bk_buckets s0) (bk_Table s) k b w) as (t & Hup & Ht);
    [apply (bw_keys _ _ _ Hwf)|pose proof (bw_n _ _ _ Hwf); lia|apply (pr_table _ _ _ _ Hp)|done..|].
  exists t. rewrite (pr_self _ _ _ _ Hp). split; [done|].
  destruct Hp as [? ? ? ? ? Hdata HF HU]. split; try done.
  intros k' [->%elem_of_singleton|Hin]%elem_of_union; [|eauto]. unfold place. by rewrite Hw.
Qed.
End View.

(** ** Grouping by place *)

(** The keys a function sends to [w], and their positions. *)
Definition keys_at (f : bytes → Z) (w : Z) (kl : list bytes) : list bytes := filter (λ k, f k = w) kl.

Definition places_at (f : bytes → Z) (w : Z) (kl : list bytes) : list nat :=
  (filter (λ x : nat * bytes, f x.2 = w) (imap pair kl)).*1.

Definition grouped {A} (g : list bytes → list A) (keys : keyed bytes) (id : Z) : option (list A) :=
  match keys !! id with Some kl => nonempty (g kl) | None => None end.

Lemma elem_of_places_at f w kl i : i ∈ places_at f w kl ↔ ∃ k, kl !! i = Some k ∧ f k = w.
Proof.
  unfold places_at. rewrite list_elem_of_fmap. split.
  - intros ([j b] & -> & [Hw Hin]%list_elem_of_filter). apply elem_of_lookup_imap in Hin as (j' & b' & [= -> ->] & Hb).
    eauto.
  - intros (b & Hb & Hw). exists (i, b). split; [done|]. apply list_elem_of_filter. split; [done|].
    apply elem_of_lookup_imap. eauto.
Qed.

Lemma keys_at_snoc f w kl k : keys_at f w (kl ++ [k]) = keys_at f w kl ++ (if decide (f k = w) then [k] else []).
Proof. unfold keys_at. rewrite filter_app, filter_cons. by case_decide. Qed.

Lemma places_at_snoc f w kl k :
  places_at f w (kl ++ [k]) = places_at f w kl ++ (if decide (f k = w) then [length kl] else []).
Proof.
  unfold places_at. rewrite imap_app, filter_app, fmap_app. simpl. f_equal.
  rewrite filter_cons, Nat.add_0_r. simpl. by case_decide.
Qed.

Lemma pick_places_at f w kl : pick kl (places_at f w kl) = keys_at f w kl.
Proof.
  cut (∀ suf, pick (kl ++ suf) (places_at f w kl) = keys_at f w kl).
  { intros Hcut. rewrite <-(Hcut []). by rewrite app_nil_r. }
  induction kl as [|k kl IH] using rev_ind; intros suf; [done|].
  rewrite places_at_snoc, keys_at_snoc, <-(IH ([k] ++ suf)), <-app_assoc. unfold pick. rewrite omap_app.
  f_equal. case_decide; [|done]. simpl. rewrite lookup_app_r, Nat.sub_diag by done. done.
Qed.

(** The selected keys are those at the positions, in order. *)
Lemma keys_at_places f w kl : Forall2 (λ k i, kl !! i = Some k) (keys_at f w kl) (places_at f w kl).
Proof.
  cut (∀ suf, Forall2 (λ k i, (kl ++ suf) !! i = Some k) (keys_at f w kl) (places_at f w kl)).
  { intros Hcut. specialize (Hcut []). by rewrite app_nil_r in Hcut. }
  induction kl as [|k kl IH] using rev_ind; intros suf; [constructor|].
  rewrite keys_at_snoc, places_at_snoc, <-app_assoc. apply Forall2_app; [apply IH|].
  case_decide; [|constructor]. constructor; [|constructor]. by apply list_lookup_middle.
Qed.

Section Group.
Context `{GoRange} (t : KeyLookupTableV2) (f : bytes → Z) (bids : list Z).
Implicit Types keys : keyed bytes.
Abbreviation groups := (gmap Z (keyed bytes) * gmap Z (keyed nat))%type.

(** The groups that hold a key. *)
Definition used (st : groups) : Prop := ∀ w m, st.1 !! w = Some m → m ≠ ∅.

Lemma group_key_Ok (st : groups) id i k b :
  bids !! i = Some b → GetWorkerID t k b = Ok (f k) → used st →
  ∃ st', group_key t bids id st (i, k) = Ok st' ∧ used st' ∧
    (∀ w id', at2 st'.1 w id' =
       if decide (w = f k ∧ id' = id) then Some (default [] (at2 st.1 w id) ++ [k]) else at2 st.1 w id') ∧
    (∀ w id', at2 st'.2 w id' =
       if decide (w = f k ∧ id' = id) then Some (default [] (at2 st.2 w id) ++ [i]) else at2 st.2 w id').
Proof.
  intros Hb Hg Hu. unfold group_key. simpl. rewrite (proj2 (idx_Ok _ _ _) Hb), bind_Ok, Hg, bind_Ok.
  eexists. split; [done|]. cbn [fst snd]. split; [|split].
  - intros w m. simpl. unfold append_at2. rewrite lookup_insert_Some. intros [[<- <-]|[_ Hm]]; [|by apply (Hu w)].
    unfold append_at. apply insert_non_empty.
  - intros w id'. rewrite append_at2_lookup. case_decide as Hd; [|done]. by destruct Hd as [-> ->].
  - intros w id'. rewrite append_at2_lookup. case_decide as Hd; [|done]. by destruct Hd as [-> ->].
Qed.

(** The keys of one state. *)
Lemma group_state_Ok (st : groups) id kl :
  Forall2 (λ k b, GetWorkerID t k b = Ok (f k)) kl bids → used st →
  (∀ w, at2 st.1 w id = None ∧ at2 st.2 w id = None) →
  ∃ st', foldM (group_key t bids id) st (imap pair kl) = Ok st' ∧ used st' ∧
    (∀ w id', at2 st'.1 w id' = if decide (id' = id) then nonempty (keys_at f w kl) else at2 st.1 w id') ∧
    (∀ w id', at2 st'.2 w id' = if decide (id' = id) then nonempty (places_at f w kl) else at2 st.2 w id').
Proof.
  intros Hall Hu Hnone.
  cut (∀ pre suf, kl = pre ++ suf →
    ∃ st', foldM (group_key t bids id) st (imap pair pre) = Ok st' ∧ used st' ∧
    (∀ w id', at2 st'.1 w id' = if decide (id' = id) then nonempty (keys_at f w pre) else at2 st.1 w id') ∧
    (∀ w id', at2 st'.2 w id' = if decide (id' = id) then nonempty (places_at f w pre) else at2 st.2 w id')).
  { intros Hcut. apply (Hcut kl []). by rewrite app_nil_r. }
  induction pre as [|k pre IH] using rev_ind; intros suf Hsuf.
  { exists st. split_and!; [done..| |]; intros w id'; (case_decide; [subst; apply Hnone|done]). }
  destruct (IH (k :: suf)) as (st1 & Hrun & Hu1 & HK & HI); [by rewrite <-app_assoc in Hsuf|].
  assert (kl !! length pre = Some k) as Hk by (rewrite Hsuf, <-app_assoc; by apply list_lookup_middle).
  destruct (Forall2_lookup_l _ _ _ _ _ Hall Hk) as (b & Hb & Hg).
  destruct (group_key_Ok st1 id (length pre) k b Hb Hg Hu1) as (st2 & Hstep & Hu2 & HK2 & HI2).
  exists st2. rewrite imap_app, foldM_app, Hrun, bind_Ok. cbn [imap foldM]. simpl. rewrite Nat.add_0_r, Hstep.
  split_and!; [done..| |].
  - intros w id'. rewrite HK2, !HK, (decide_True (P := id = id)), keys_at_snoc, default_nonempty by done.
    destruct (decide (id' = id)) as [->|Hne]; [|by rewrite decide_False by naive_solver].
    destruct (decide (f k = w)) as [<-|Hw]; [|by rewrite decide_False, app_nil_r by naive_solver].
    rewrite (decide_True (P := f k = f k ∧ id = id)) by done. by rewrite nonempty_snoc.
  - intros w id'. rewrite HI2, !HI, (decide_True (P := id = id)), places_at_snoc, default_nonempty by done.
    destruct (decide (id' = id)) as [->|Hne]; [|by rewrite decide_False by naive_solver].
    destruct (decide (f k = w)) as [<-|Hw]; [|by rewrite decide_False, app_nil_r by naive_solver].
    rewrite (decide_True (P := f k = f k ∧ id = id)) by done. by rewrite nonempty_snoc.
Qed.
End Group.

Lemma groupKeysByWorker_Ok `{GoRange} {B} (s : ByKeyService B) (f : bytes → Z) (keys : keyed bytes) bids :
  (∀ id kl, keys !! id = Some kl → Forall2 (λ k b, GetWorkerID (bk_Table s) k b = Ok (f k)) kl bids) →
  ∃ KBW IT, groupKeysByWorker s keys bids = Ok (KBW, IT) ∧ used (KBW, IT) ∧
    ∀ w id, at2 KBW w id = grouped (keys_at f w) keys id ∧ at2 IT w id = grouped (places_at f w) keys id.
Proof.
  intros Hall. unfold groupKeysByWorker.
  destruct (foldM_total
    (λ st '(stateID, keyList), foldM (group_key (bk_Table s) bids stateID) st (imap pair keyList))
    (λ l st, used st ∧ ∀ w id,
       at2 st.1 w id = (if decide (id ∈ l.*1) then grouped (keys_at f w) keys id else None) ∧
       at2 st.2 w id = (if decide (id ∈ l.*1) then grouped (places_at f w) keys id else None))
    (go_range keys) (∅, ∅)) as ([KBW IT] & Hrun & Hu & Hspec).
  - split; [intros w m Hm; simpl in Hm; by apply lookup_empty_Some in Hm|]. intros w id. rewrite !decide_False by set_solver. done.
  - intros l [id kl] st Hpre [Hu Hspec].
    assert (keys !! id = Some kl) as Hkl by (rewrite <-elem_of_go_range; destruct Hpre as [suf ->]; set_solver).
    assert (id ∉ l.*1) as Hid.
    { pose proof (NoDup_go_range keys) as Hnd. destruct Hpre as [suf Heq]. rewrite Heq, !fmap_app in Hnd.
      simpl in Hnd. apply NoDup_app in Hnd as (Hnd & _ & _). apply NoDup_app in Hnd as (_ & Hnd & _).
      intros Hin. apply (Hnd id); set_solver. }
    destruct (group_state_Ok (bk_Table s) f bids st id kl) as (st' & Hrun & Hu' & HK & HI); [eauto|done| |].
    { intros w. destruct (Hspec w id) as [-> ->]. by rewrite !decide_False. }
    exists st'. split; [done|]. split; [done|]. intros w id'. rewrite HK, HI.
    destruct (Hspec w id') as [-> ->]. rewrite fmap_app. simpl.
    destruct (decide (id' = id)) as [->|Hne].
    + rewrite !decide_True by set_solver. unfold grouped. by rewrite Hkl.
    + split; (case_decide; [rewrite decide_True by set_solver|rewrite decide_False by set_solver]; done).
  - exists KBW, IT. split; [done|]. split; [done|]. intros w id. destruct (Hspec w id) as [HK HI]. cbn [fst snd] in HK, HI. rewrite HK, HI.
    case_decide as Hid; [done|]. unfold grouped. rewrite go_range_keys in Hid.
    destruct (keys !! id); [|done]. destruct Hid. eauto.
Qed.

(** ** Merging *)

Section Merge.
Context `{GoRange} (f : bytes → Z) (rd : Z → bytes → option bytes) (keys : keyed bytes) (IT : gmap Z (keyed nat)).
Context (HIT : ∀ w id, at2 IT w id = grouped (places_at f w) keys id).

(** What worker [w] returned: its values, state by state. *)
Definition answers (w : Z) (wr : keyed (option bytes)) : Prop :=
  ∀ id, wr !! id = (λ kl : list bytes, rd w <$> kl) <$> grouped (keys_at f w) keys id.

Definition merged_from (ws : list Z) (result : keyed (option bytes)) : Prop :=
  (∀ id, keys !! id = None → result !! id = None) ∧
  ∀ id kl, keys !! id = Some kl → ∃ r, result !! id = Some r ∧ length r = length kl ∧
    ∀ i k, kl !! i = Some k → f k ∈ ws → r !! i = Some (rd (f k) k).

Lemma grouped_places w id kl : keys !! id = Some kl →
  default [] (default ∅ (IT !! w) !! id) = places_at f w kl.
Proof.
  intros Hkl. specialize (HIT w id). unfold at2, grouped in HIT. rewrite Hkl in HIT.
  rewrite <-(default_nonempty (places_at f w kl)), <-HIT. destruct (IT !! w); simpl; [done|].
  by rewrite lookup_empty.
Qed.

Lemma scatter_by_key_Ok ws result w wr :
  merged_from ws result → answers w wr →
  ∃ result', scatter_by_key IT result (w, wr) = Ok result' ∧ merged_from (ws ++ [w]) result'.
Proof.
  intros [Hnone Hsome] Hwr. unfold scatter_by_key. cbn [fst snd].
  assert (Hvals : ∀ id vals, wr !! id = Some vals → ∃ kl r r', keys !! id = Some kl ∧ result !! id = Some r ∧
    scatter_values (default [] (default ∅ (IT !! w) !! id)) (default [] (result !! id)) vals = Ok r' ∧
    length r' = length kl ∧ ∀ j, r' !! j = if decide (j ∈ places_at f w kl) then rd w <$> kl !! j else r !! j).
  { intros id vals Hv. rewrite Hwr in Hv. unfold grouped in Hv. destruct (keys !! id) as [kl|] eqn:Hkl; [|done].
    destruct (Hsome id kl Hkl) as (r & Hr & Hl & _).
    assert (vals = rd w <$> pick kl (places_at f w kl)) as ->.
    { rewrite pick_places_at. by destruct (keys_at f w kl); simplify_eq/=. }
    destruct (scatter_values_at (rd w) kl (places_at f w kl) r Hl) as (r' & Hrun & Hl' & Hr').
    { intros i (k & Hk & _)%elem_of_places_at. by eapply lookup_lt_Some. }
    exists kl, r, r'. rewrite (grouped_places w id kl Hkl), Hr. done. }
  destruct (foldM_modify
    (λ id vals old, scatter_values (default [] (default ∅ (IT !! w) !! id)) (default [] old) vals) result (go_range wr))
    as (result' & Hrun & Hin & Hout).
  { apply NoDup_go_range. }
  { intros id vals Hv%elem_of_go_range. destruct (Hvals id vals Hv) as (kl & r & r' & _ & _ & Hrun & _). eauto. }
  exists result'. split; [done|]. split.
  - intros id Hid. rewrite Hout, Hnone; [done..|]. rewrite go_range_keys, Hwr. unfold grouped. rewrite Hid.
    by intros [? [=]].
  - intros id kl Hkl. destruct (Hsome id kl Hkl) as (r & Hr & Hl & Hold). destruct (wr !! id) as [vals|] eqn:Hv.
    + destruct (Hin id vals) as (r1 & Hs1 & Hr1); [by apply elem_of_go_range|].
      destruct (Hvals id vals Hv) as (kl' & r0 & r' & Hkl' & Hr0 & Hrun' & Hl' & Hspec). simplify_eq.
      rewrite Hrun' in Hs1. injection Hs1 as ->. exists r1. split_and!; [done..|]. intros i k Hk Hf. rewrite Hspec.
      case_decide as Hi; [apply elem_of_places_at in Hi as (k' & Hk' & <-); by simplify_eq; rewrite Hk|].
      apply Hold; [done|]. apply elem_of_app in Hf as [?|Hw%list_elem_of_singleton]; [done|].
      destruct Hi. apply elem_of_places_at. eauto.
    + exists r. rewrite Hout by (rewrite go_range_keys, Hv; by intros [? [=]]). split_and!; [done..|].
      intros i k Hk [Hf|Hw%list_elem_of_singleton]%elem_of_app; [by apply Hold|].
      rewrite Hwr in Hv. unfold grouped in Hv. rewrite Hkl in Hv.
      assert (k ∈ keys_at f w kl) as Hin'.
      { apply list_elem_of_filter. split; [done|]. by eapply list_elem_of_lookup_2. }
      destruct (keys_at f w kl); [by apply not_elem_of_nil in Hin'|done].
Qed.

Lemma mergeLazyByKey_Ok (RBW : gmap Z (keyed (option bytes))) :
  (∀ w wr, RBW !! w = Some wr → answers w wr) →
  (∀ id kl k, keys !! id = Some kl → k ∈ kl → is_Some (RBW !! f k)) →
  mergeResultsFromAllWorkersLazyByKey keys RBW IT =
    Ok ((λ kl : list bytes, (λ k, rd (f k) k) <$> kl) <$> keys : keyed (option bytes)).
Proof.
  intros HR Hall. unfold mergeResultsFromAllWorkersLazyByKey.
  destruct (foldM_total (scatter_by_key IT) (λ l, merged_from l.*1) (go_range RBW)
    ((λ keyList, replicate (length keyList) None) <$> keys)) as (result & -> & Hnone & Hsome).
  - split; [intros id Hid; by rewrite lookup_fmap, Hid|]. intros id kl Hkl. rewrite lookup_fmap, Hkl.
    eexists. split; [done|]. split; [by rewrite length_replicate|]. set_solver.
  - intros l [w wr] result Hpre Hm.
    assert (RBW !! w = Some wr) as Hw by (rewrite <-elem_of_go_range; destruct Hpre as [suf ->]; set_solver).
    destruct (scatter_by_key_Ok l.*1 result w wr) as (result' & Hrun & Hm'); [done|by apply HR|].
    exists result'. split; [done|]. by rewrite fmap_app.
  - f_equal. apply map_eq. intros id. rewrite lookup_fmap.
    destruct (keys !! id) as [kl|] eqn:Hkl; [|by apply Hnone].
    destruct (Hsome id kl Hkl) as (r & -> & Hl & Hin). simpl. f_equal. apply list_eq. intros i.
    rewrite list_lookup_fmap. destruct (kl !! i) as [k|] eqn:Hk; simpl.
    2:{ apply lookup_ge_None in Hk. apply lookup_ge_None. lia. }
    apply (Hin i k Hk). rewrite go_range_keys. eapply Hall; [done|]. by eapply list_elem_of_lookup_2.
Qed.
End Merge.

(** ** Examples *)

(** Worker 1 processes bucket 0 of two, with the key map [m]. *)
Definition small_backend (d : store) : PebbleStateBackend store := MkPebble d false 1 1.

Definition small_service (m : gmap bytes Z) (local : store) (peers : gmap Z store) (batch : Z) (ev : Eventual)
    : ByKeyService (PebbleStateBackend store) :=
  MkByKey 1 (small_backend local) (MkTableV2 (toy_hash 1) [MkBucketV2 1 (Some m); MkBucketV2 2 None])
    (small_backend <$> peers) batch ev.

Definition small_key (x : Z) : bytes := be_encode 2 7 ++ be_encode 4 0 ++ [x].

Definition no_migration : Eventual := MkEv false ∅ None None ∅ 0 false.

Lemma small_key_at x : key_at 7 2 (small_key x) 0.
Proof. split; [lia|]. by exists [x]. Qed.

Lemma small_own m local peers batch ev x : own_key 7 2 (small_service m local peers batch ev) (small_key x) 0.
Proof. split; [apply small_key_at|]. split; [done|]. by eexists _, _. Qed.

Lemma small_recorded m local peers batch ev x :
  recorded (small_service m local peers batch ev) (small_key x) = m !! small_key x.
Proof. reflexivity. Qed.

Lemma small_wf m local peers batch ev :
  (∀ k w, m !! k = Some w → key_at 7 2 k 0 ∧ (w = 1%Z ∨ is_Some (peers !! w))) →
  bk_wf 7 2 (small_service m local peers batch ev).
Proof.
  intros Hm. split; try done.
  - intros w b Hb. simpl in Hb. apply lookup_fmap_Some in Hb as (d & <- & _). done.
  - intros [|[|i]] bucket m'; simpl; intros [= <-]; [done|done].
  - intros [|[|i]] bucket m' k w; simpl; intros [= <-]; [|done]. intros [= <-] Hk. by apply (Hm k w).
  - intros k w (bucket & m' & Hb & Hm' & Hk)%recorded_Some. simpl. rewrite lookup_fmap, fmap_is_Some.
    unfold bk_buckets in Hb. destruct (key_bucket k) as [|[|i]]; simpl in Hb; [..|done]; injection Hb as <-; [|done].
    injection Hm' as <-. by apply (Hm k w).
Qed.
