(* ===== verification/ByKeyWrite.v ===== *)
(** * Lazy-by-key migration: writes

    Writes of the by-key service go to the local store and to the table of
    keys ([insertOrUpdateAddrForLocalKeys], [deleteKeysFromLookupTable]). *)

From stdpp Require Import prelude gmap strings list.
From Stdlib Require Import ZArith Lia.
From S2P Require Import Prelude Partition PartitionTable KeyMap Backend StateService Cluster NoMigration ByKey ByKeyRead.

(** ** One key *)

Section Key.
Context `{StateBackendLaws B}.
Implicit Types s : ByKeyService B.

(** The table [t] records [v] for the key [k] and is otherwise that of [s]. *)
Definition recorded_as (op n : Z) s (k : bytes) (v : option Z) (t : KeyLookupTableV2) : Prop :=
  bk_wf op n (bk_set_table s t) ∧
  (∀ k', recorded (bk_set_table s t) k' = if decide (k' = k) then v else recorded s k') ∧
  ∀ c, is_local (bk_set_table s t) c ↔ is_local s c.

Lemma store_key_Ok (op n : Z) s (k : bytes) (b : Z) (g : gmap bytes Z → gmap bytes Z) :
  bk_wf op n s → own_key op n s k b → (∀ m k', k' ≠ k → g m !! k' = m !! k') →
  (∀ m w, g m !! k = Some w → w = bk_WorkerID s) →
  ∃ bucket m t, idxZ (bk_buckets s) b = Ok bucket ∧ Map bucket = Some m ∧ recorded s k = m !! k ∧
    store_map (bk_Table s) b bucket (g m) = Ok t ∧ recorded_as op n s k (g m !! k) t.
Proof.
  intros Hwf [Hat (Hb & bucket & m & Hbk & Hm)] Hg Hw. pose proof (bw_n _ _ _ Hwf) as Hn.
  rewrite (key_at_bucket op n k b) in * by (done || lia). rewrite Nat2Z.id in Hbk.
  assert (Hrec : ∀ k', key_bucket k' = key_bucket k → recorded s k' = m !! k').
  { intros k' Hk'. unfold recorded, recorded_in. rewrite Hk', Hbk. destruct bucket. simpl in Hm. by rewrite Hm. }
  set (bs' := <[key_bucket k := MkBucketV2 (WorkerID bucket) (Some (g m))]> (bk_buckets s)).
  pose proof (lookup_lt_Some _ _ _ Hbk) as Hlt.
  assert (Hin : bs' !! key_bucket k = Some (MkBucketV2 (WorkerID bucket) (Some (g m)))) by by apply list_lookup_insert_eq.
  assert (Hout : ∀ i, i ≠ key_bucket k → bs' !! i = bk_buckets s !! i) by (intros i Hi; by apply list_lookup_insert_ne).
  assert (Hrec' : ∀ k', recorded_in bs' k' = if decide (k' = k) then g m !! k else recorded s k').
  { intros k'. unfold recorded_in. destruct (decide (key_bucket k' = key_bucket k)) as [Hk'|Hk'].
    - rewrite Hk', Hin. rewrite Hrec by done. destruct (decide (k' = k)) as [->|]; [done|by apply Hg].
    - rewrite Hout by done. rewrite decide_False by congruence. done. }
  exists bucket, m, (MkTableV2 (t2_H (bk_Table s)) bs'). split_and!; [|done|by apply Hrec|..].
  - apply idxZ_Ok. by rewrite Nat2Z.id.
  - unfold store_map. fold (bk_buckets s). erewrite (proj2 (set_idxZ_Ok _ _ _ _)); [|split_and!; [lia| |reflexivity]].
    + by rewrite bind_Ok, Nat2Z.id.
    + by rewrite Nat2Z.id.
  - destruct Hwf as [? Hlen ? ? Hown Hkeys Hplaces]. split_and!; [split; try done| |].
    + unfold bk_buckets. simpl. unfold bs'. by rewrite length_insert.
    + intros i bucket' m'. unfold bk_buckets. cbn [bk_set_table bk_Table t2_Buckets bk_WorkerID].
      destruct (decide (i = key_bucket k)) as [->|Hi]; [rewrite Hin|rewrite Hout by done; apply Hown].
      intros [= <-] _. exact (Hown _ _ m Hbk Hm).
    + intros i bucket' m' k' w. unfold bk_buckets. cbn [bk_set_table bk_Table t2_Buckets].
      destruct (decide (i = key_bucket k)) as [->|Hi]; [rewrite Hin|rewrite Hout by done; apply Hkeys].
      intros [= <-] [= <-] Hk'. destruct (decide (k' = k)) as [->|Hne]; [done|].
      rewrite Hg in Hk' by done. exact (Hkeys _ _ m k' w Hbk Hm Hk').
    + intros k' w. unfold recorded at 1, bk_buckets. cbn [bk_set_table bk_Table t2_Buckets bk_WorkerID bk_peers].
      rewrite Hrec'. destruct (decide (k' = k)) as [->|]; [intros ?%Hw; by left|apply Hplaces].
    + apply Hrec'.
    + intros c. unfold is_local, bk_buckets. cbn [bk_set_table bk_Table t2_Buckets].
      destruct (decide (Z.to_nat c = key_bucket k)) as [->|Hc]; [|by rewrite Hout].
      rewrite Hin. split; (intros [Hc0 _]; split; [done|]); [by eexists _, _|]. by eexists _, _.
Qed.

Lemma InsertOrUpdateKey_Ok op n s (k : bytes) (b : Z) :
  bk_wf op n s → own_key op n s k b →
  ∃ t, InsertOrUpdateKey (bk_Table s) k b (bk_WorkerID s) = Ok t ∧ recorded_as op n s k (Some (bk_WorkerID s)) t.
Proof.
  intros Hwf Hk. destruct (store_key_Ok op n s k b (insert k (bk_WorkerID s)) Hwf Hk)
    as (bucket & m & t & Hb & Hm & _ & Ht & Hrec).
  { intros m k' Hne. by apply lookup_insert_ne. } { intros m w. rewrite lookup_insert_eq. congruence. }
  exists t. unfold InsertOrUpdateKey. fold (bk_buckets s). rewrite Hb, bind_Ok. unfold require_map. rewrite Hm, bind_Ok.
  split; [done|]. by rewrite lookup_insert_eq in Hrec.
Qed.

Lemma RemoveKey_Ok op n s (k : bytes) (b : Z) :
  bk_wf op n s → own_key op n s k b →
  if decide (recorded s k = None)
  then RemoveKey (bk_Table s) k b = Crash (Fatal "Key not found in key map for removing key")
  else ∃ t, RemoveKey (bk_Table s) k b = Ok t ∧ recorded_as op n s k None t.
Proof.
  intros Hwf Hk. destruct (store_key_Ok op n s k b (delete k) Hwf Hk) as (bucket & m & t & Hb & Hm & Hr & Ht & Hrec).
  { intros m k' Hne. by apply lookup_delete_ne. } { intros m w. by rewrite lookup_delete_eq. }
  unfold RemoveKey. fold (bk_buckets s). rewrite Hb, bind_Ok. unfold require_map. rewrite Hm, bind_Ok, Hr.
  destruct (decide (m !! k = None)) as [Hnone|Hsome].
  - by rewrite bool_decide_eq_true_2.
  - rewrite bool_decide_eq_false_2, bind_fatal_false by done. exists t. split; [done|]. by rewrite lookup_delete_eq in Hrec.
Qed.
End Key.

(** ** All keys of a request *)

Section Request.
Context `{GoRange} `{StateBackendLaws B}.
Implicit Types (s : ByKeyService B) (keys values : keyed bytes).

Definition key_buckets keys (bids : keyed Z) : list (bytes * Z) :=
  go_range keys ≫= λ e, zip e.2 (default [] (bids !! e.1)).

Lemma each_key_flat f t keys bids : matches keys bids →
  each_key f t keys bids = foldM (λ t x, f t x.1 x.2) t (key_buckets keys bids).
Proof.
  intros Hm. unfold each_key, key_buckets. rewrite foldM_bind. apply foldM_ext. intros t' [id kl] Hin%elem_of_go_range.
  destruct (Hm id kl Hin) as (bs & Hbs & Hlen). cbn [fst snd]. rewrite !Hbs. simpl. clear -Hlen.
  cut (∀ suf pre bs', length bs' = length suf → bs = pre ++ bs' →
    foldM (λ t '(i, key), b ← idx bs i; f t key b) t' (imap (λ i k, (length pre + i, k)) suf) =
    foldM (λ t x, f t x.1 x.2) t' (zip suf bs')).
  { intros Hcut. by apply (Hcut kl [] bs). }
  intros suf. revert t'. induction suf as [|k suf IH]; intros t' pre bs' Hl Heq; [done|].
  destruct bs' as [|b bs']; [done|]. simpl. rewrite Nat.add_0_r.
  rewrite (proj2 (idx_Ok bs (length pre) b)) by (rewrite Heq; by apply list_lookup_middle). rewrite bind_Ok.
  destruct (f t' k b) as [t1|]; [|done]. rewrite !bind_Ok.
  rewrite <-(IH t1 (pre ++ [b]) bs'); [|simpl in Hl; lia|by rewrite Heq, <-app_assoc].
  f_equal. apply imap_ext. intros i x _. simpl. rewrite length_app. simpl. f_equal. lia.
Qed.

Definition own_keys (op n : Z) s keys (bids : keyed Z) : Prop :=
  ∀ id kl, keys !! id = Some kl → ∃ bs, bids !! id = Some bs ∧ Forall2 (own_key op n s) kl bs.

Lemma own_matches op n s keys bids : own_keys op n s keys bids → matches keys bids.
Proof.
  intros Ho id kl Hkl. destruct (Ho id kl Hkl) as (bs & Hbs & Hall). exists bs. split; [done|].
  symmetry. by eapply Forall2_length.
Qed.

Lemma key_buckets_own op n s keys bids : own_keys op n s keys bids →
  Forall (λ x, own_key op n s x.1 x.2) (key_buckets keys bids) ∧ (key_buckets keys bids).*1 ≡ₚ request_keys keys.
Proof.
  intros Ho. unfold key_buckets, request_keys. split.
  - apply Forall_forall. intros [k b] ([id kl] & Hin & Hkl%elem_of_go_range)%list_elem_of_bind.
    destruct (Ho id kl Hkl) as (bs & Hbs & Hall). simpl in *. rewrite Hbs in Hin. simpl in Hin.
    apply list_elem_of_lookup in Hin as [i Hi]. apply lookup_zip_with_Some in Hi as (k' & b' & [= <- <-] & Hk & Hb).
    exact (Forall2_lookup_lr _ _ _ _ _ _ Hall Hk Hb).
  - rewrite (zip_keys keys bids); [by rewrite go_range_perm|by eapply own_matches|].
    intros [id kl] Hin. by apply elem_of_go_range.
Qed.

(** The table [t] records [v] for the keys [ks] and is otherwise that of [s]. *)
Definition recorded_all (op n : Z) s (ks : list bytes) (v : option Z) (t : KeyLookupTableV2) : Prop :=
  bk_wf op n (bk_set_table s t) ∧
  (∀ k, recorded (bk_set_table s t) k = if decide (k ∈ ks) then v else recorded s k) ∧
  ∀ c, is_local (bk_set_table s t) c ↔ is_local s c.

Lemma recorded_all_cons op n s k ks v t1 t2 :
  recorded_as op n s k v t1 → recorded_all op n (bk_set_table s t1) ks v t2 → recorded_all op n s (k :: ks) v t2.
Proof.
  intros (_ & Hr1 & Hl1) (Hwf2 & Hr2 & Hl2). split_and!; [done| |].
  - intros k'. change (recorded (bk_set_table s t2) k') with (recorded (bk_set_table (bk_set_table s t1) t2) k').
    rewrite Hr2, Hr1.
    destruct (decide (k' ∈ ks)), (decide (k' = k)), (decide (k' ∈ k :: ks)); set_solver.
  - intros c. rewrite <-Hl1, <-Hl2. done.
Qed.

Lemma recorded_all_nil op n s v : bk_wf op n s → recorded_all op n s [] v (bk_Table s).
Proof. intros Hwf. assert (bk_set_table s (bk_Table s) = s) as Hs by by destruct s. unfold recorded_all. by rewrite Hs. Qed.

Lemma own_after op n s k v t (l : list (bytes * Z)) : recorded_as op n s k v t →
  Forall (λ x, own_key op n s x.1 x.2) l → Forall (λ x, own_key op n (bk_set_table s t) x.1 x.2) l.
Proof. intros (_ & _ & Hl) Hall. eapply Forall_impl; [exact Hall|]. intros x [? ?]. split; [done|]. by apply Hl. Qed.

Lemma insert_all op n s l :
  bk_wf op n s → Forall (λ x, own_key op n s x.1 x.2) l →
  ∃ t, foldM (λ t x, InsertOrUpdateKey t x.1 x.2 (bk_WorkerID s)) (bk_Table s) l = Ok t ∧
    recorded_all op n s l.*1 (Some (bk_WorkerID s)) t.
Proof.
  revert s. induction l as [|[k b] l IH]; intros s Hwf Hall; [by eexists; split; [|apply recorded_all_nil]|].
  apply Forall_cons in Hall as [Hk Hall]. destruct (InsertOrUpdateKey_Ok op n s k b Hwf Hk) as (t1 & Ht1 & Hr1).
  destruct (IH (bk_set_table s t1)) as (t2 & Ht2 & Hr2); [apply Hr1|by eapply own_after|].
  exists t2. cbn [foldM fst snd]. rewrite Ht1, bind_Ok. split; [exact Ht2|]. by eapply recorded_all_cons.
Qed.

Lemma remove_all op n s l :
  bk_wf op n s → Forall (λ x, own_key op n s x.1 x.2) l → NoDup l.*1 →
  if decide (Forall (λ k, is_Some (recorded s k)) l.*1)
  then ∃ t, foldM (λ t x, RemoveKey t x.1 x.2) (bk_Table s) l = Ok t ∧ recorded_all op n s l.*1 None t
  else foldM (λ t x, RemoveKey t x.1 x.2) (bk_Table s) l = Crash (Fatal "Key not found in key map for removing key").
Proof.
  revert s. induction l as [|[k b] l IH]; intros s Hwf Hall Hnd.
  { rewrite decide_True by constructor. eexists. split; [done|]. by apply recorded_all_nil. }
  apply Forall_cons in Hall as [Hk Hall]. rewrite fmap_cons in *. apply NoDup_cons in Hnd as [Hin Hnd].
  pose proof (RemoveKey_Ok op n s k b Hwf Hk) as Hrm. cbn [foldM fst snd] in *.
  destruct (decide (recorded s k = None)) as [Hnone|Hsome].
  { rewrite Hrm, decide_False; [done|]. intros [[w Hw] _]%Forall_cons. congruence. }
  destruct Hrm as (t1 & Ht1 & Hr1). rewrite Ht1, bind_Ok.
  specialize (IH (bk_set_table s t1) (proj1 Hr1) (own_after _ _ _ _ _ _ _ Hr1 Hall) Hnd).
  assert (Hiff : Forall (λ k, is_Some (recorded (bk_set_table s t1) k)) l.*1 ↔
    Forall (λ k, is_Some (recorded s k)) (k :: l.*1)).
  { rewrite Forall_cons, !Forall_forall. destruct Hr1 as (_ & Hr1 & _). split.
    - intros Hs. split; [by apply not_eq_None_Some|]. intros k' Hk'. specialize (Hs k' Hk'). rewrite Hr1 in Hs.
      by rewrite decide_False in Hs by congruence.
    - intros [_ Hs] k' Hk'. rewrite Hr1, decide_False by congruence. by apply Hs. }
  destruct (decide (Forall _ l.*1)) as [Hs|Hs].
  - rewrite decide_True by by apply Hiff. destruct IH as (t2 & Ht2 & Hr2). exists t2. split; [exact Ht2|].
    by eapply recorded_all_cons.
  - rewrite decide_False by by rewrite <-Hiff. exact IH.
Qed.

(** *** Values after a write *)

Lemma value_local s k : place s k = bk_WorkerID s → bk_value s k = default [] (data_of (bk_Backend s) !! k).
Proof. intros Hk. unfold bk_value, store_of. by rewrite Hk, Z.eqb_refl. Qed.

(** A request on local keys that records them as [v] and updates the local
    store at them by [F]. *)
Lemma by_key_values op n s keys v t b' (F : bytes → option bytes → option bytes) :
  bk_wf op n s → recorded_all op n s (request_keys keys) v t → default (bk_WorkerID s) v = bk_WorkerID s →
  (∀ k, k ∈ request_keys keys → place s k = bk_WorkerID s) → backend_ok b' →
  (∀ k, data_of b' !! k = if decide (k ∈ request_keys keys) then F k (data_of (bk_Backend s) !! k)
                          else data_of (bk_Backend s) !! k) →
  bk_wf op n (bk_set_table (bk_set_backend s b') t) ∧
  ∀ k, bk_value (bk_set_table (bk_set_backend s b') t) k =
    if decide (k ∈ request_keys keys) then default [] (F k (data_of (bk_Backend s) !! k)) else bk_value s k.
Proof.
  intros Hwf (Hwf' & Hrec & _) Hv Hl Hb Hd. split.
  { destruct Hwf' as [? ? ? ? ? ? ?]. by split. }
  intros k. specialize (Hrec k). unfold bk_value, place.
  change (recorded (bk_set_table (bk_set_backend s b') t) k) with (recorded (bk_set_table s t) k). rewrite Hrec.
  unfold store_of. cbn [bk_set_table bk_set_backend bk_WorkerID bk_Backend bk_peers].
  destruct (decide (k ∈ request_keys keys)) as [Hk|Hk].
  - rewrite Hv, Z.eqb_refl, Hd. by rewrite decide_True.
  - destruct (_ =? _)%Z; [|done]. by rewrite Hd, decide_False.
Qed.

(** What a write request needs: local keys that a read has made local. *)
Record writable_by_key (op n : Z) s keys (bids : keyed Z) : Prop := {
  wk_wf : bk_wf op n s;
  wk_some : keys ≠ ∅;
  wk_own : own_keys op n s keys bids;
  wk_nodup : NoDup (request_keys keys);
  wk_held : ∀ k, k ∈ request_keys keys → place s k = bk_WorkerID s
}.

Lemma recorded_all_perm op n s ks ks' v t : ks ≡ₚ ks' → recorded_all op n s ks v t → recorded_all op n s ks' v t.
Proof.
  intros Hp (Hwf & Hr & Hl). split_and!; [done| |done]. intros k. rewrite Hr.
  destruct (decide (k ∈ ks)) as [Hk|Hk]; rewrite Hp in Hk; [by rewrite decide_True|by rewrite decide_False].
Qed.

(** A write of the local store with the keys recorded. *)
Lemma bk_write_Ok op n s keys values bids (f : B → keyed bytes → keyed bytes → res B) msg
    (F : option bytes → option bytes → option bytes) :
  writable_by_key op n s keys bids → matches keys values → (∀ old, F old None = old) →
  (∃ b', f (bk_Backend s) keys values = Ok b' ∧ backend_ok b' ∧
     ∀ k, data_of b' !! k = F (data_of (bk_Backend s) !! k) (written keys values k)) →
  ∃ s', bk_write f msg s keys values bids = Ok s' ∧ bk_wf op n s' ∧
    (∀ k, recorded s' k = if decide (k ∈ request_keys keys) then Some (bk_WorkerID s) else recorded s k) ∧
    ∀ k, bk_value s' k = if decide (k ∈ request_keys keys)
                         then default [] (F (data_of (bk_Backend s) !! k) (written keys values k)) else bk_value s k.
Proof.
  intros [Hwf Hne Hown Hnd Hheld] Hm HF (b' & Hf & Hb' & Hd).
  destruct (key_buckets_own op n s keys bids Hown) as [Hall Hperm].
  destruct (insert_all op n s _ Hwf Hall) as (t & Ht & Hr). apply (recorded_all_perm _ _ _ _ _ _ _ Hperm) in Hr.
  unfold bk_write, insertOrUpdateAddrForLocalKeys. rewrite size_eqb, bind_fatal_false by done.
  rewrite (each_key_flat _ _ _ _ (own_matches _ _ _ _ _ Hown)), Ht, bind_Ok, Hf, bind_Ok.
  eexists. split; [done|].
  destruct (by_key_values op n s keys (Some (bk_WorkerID s)) t b' (λ k old, F old (written keys values k)))
    as [Hwf' Hval]; [done..| |].
  { intros k. rewrite Hd. destruct (decide (k ∈ request_keys keys)); [done|]. by rewrite written_None. }
  split_and!; [done| |done]. intros k. apply Hr.
Qed.

(** C26: writes of the by-key service.  For distinct keys of the worker's
    buckets whose state is local, an overwrite and a merge succeed, record the keys
    as local and leave exactly the written (for a merge: appended) values; a
    delete removes the values and the records if every key is recorded, and ends
    the process if one is not. *)
Theorem by_key_write op n s keys values bids
    (Hw : writable_by_key op n s keys bids) (Hm : matches keys values) :
  (∃ s', bk_SetManyMultiState s keys values bids = Ok s' ∧ bk_wf op n s' ∧
     (∀ k, recorded s' k = if decide (k ∈ request_keys keys) then Some (bk_WorkerID s) else recorded s k) ∧
     ∀ k, bk_value s' k = default (bk_value s k) (written keys values k)) ∧
  (∃ s', bk_MergeManyMultiState s keys values bids = Ok s' ∧ bk_wf op n s' ∧
     (∀ k, recorded s' k = if decide (k ∈ request_keys keys) then Some (bk_WorkerID s) else recorded s k) ∧
     ∀ k, bk_value s' k = bk_value s k ++ default [] (written keys values k)) ∧
  if decide (Forall (λ k, is_Some (recorded s k)) (request_keys keys))
  then ∃ s', bk_DeleteMany s keys bids = Ok s' ∧ bk_wf op n s' ∧
    (∀ k, recorded s' k = if decide (k ∈ request_keys keys) then None else recorded s k) ∧
    ∀ k, bk_value s' k = if decide (k ∈ request_keys keys) then [] else bk_value s k
  else bk_DeleteMany s keys bids = Crash (Fatal "Key not found in key map for removing key").
Proof.
  pose proof Hw as [Hwf Hne Hown Hnd Hheld]. pose proof (bw_backend _ _ _ Hwf) as Hb.
  assert (Hother : ∀ k, k ∉ request_keys keys → written keys values k = None) by (intros k Hk; by apply written_None).
  split_and!.
  - destruct (bk_write_Ok op n s keys values bids overwriteLocalState "No keys to set" (λ old v, from_option Some old v) Hw Hm)
      as (s' & Hrun & Hwf' & Hrec & Hval); [done|by apply set_states_Ok|].
    exists s'. split_and!; [done..|]. intros k. rewrite Hval. destruct (decide _) as [Hk|Hk].
    + rewrite value_local by by apply Hheld. by destruct (written keys values k).
    + by rewrite Hother.
  - destruct (bk_write_Ok op n s keys values bids mergeLocalState "No keys to merge"
      (λ old v, from_option (λ v, Some (default [] old ++ v)) old v) Hw Hm)
      as (s' & Hrun & Hwf' & Hrec & Hval); [done|by apply merge_states_Ok|].
    exists s'. split_and!; [done..|]. intros k. rewrite Hval. destruct (decide _) as [Hk|Hk].
    + rewrite value_local by by apply Hheld. destruct (written keys values k); simpl; [done|by rewrite app_nil_r].
    + rewrite Hother by done. simpl. by rewrite app_nil_r.
  - destruct (key_buckets_own op n s keys bids Hown) as [Hall Hperm].
    pose proof (remove_all op n s _ Hwf Hall) as Hrm. specialize (Hrm ltac:(by rewrite Hperm)).
    unfold bk_DeleteMany, deleteKeysFromLookupTable. rewrite size_eqb, bind_fatal_false by done.
    rewrite (each_key_flat _ _ _ _ (own_matches _ _ _ _ _ Hown)).
    destruct (decide (Forall _ (key_buckets keys bids).*1)) as [Hs|Hs]; rewrite Hperm in Hs.
    2:{ by rewrite decide_False, Hrm. }
    rewrite decide_True by done.
    destruct Hrm as (t & -> & Hr). apply (recorded_all_perm _ _ _ _ _ _ _ Hperm) in Hr. rewrite bind_Ok.
    destruct (deleteLocalState_Ok (bk_Backend s) keys Hb) as (b' & -> & Hb' & Hd). rewrite bind_Ok.
    eexists. split; [done|].
    destruct (by_key_values op n s keys None t b' (λ _ _, None)) as [Hwf' Hval]; [done..| |].
    { intros k. rewrite Hd. repeat (case_bool_decide || case_decide); done. }
    split_and!; [done| |done]. intros k. apply Hr.
Qed.
End Request.

(** Worker 1 holds one recorded key; another one is new. *)
Definition write_demo : ByKeyService (PebbleStateBackend store) :=
  small_service {[ small_key 65 := 1%Z ]} {[ small_key 65 := [9]%Z ]} ∅ 1 no_migration.

Lemma write_demo_wf : bk_wf 7 2 write_demo.
Proof. apply small_wf. intros k w [<- <-]%lookup_singleton_Some. split; [apply small_key_at|by left]. Qed.

Definition write_keys (x : Z) : keyed bytes := {[ 3%Z := [small_key x] ]}.

Lemma write_demo_writable x : place write_demo (small_key x) = 1%Z →
  writable_by_key 7 2 write_demo (write_keys x) {[ 3%Z := [0%Z] ]}.
Proof.
  intros Hx. split; [apply write_demo_wf|done|..].
  - unfold write_keys. intros id kl [<- <-]%lookup_singleton_Some. exists [0%Z]. rewrite lookup_singleton_eq. split; [done|].
    constructor; [apply small_own|constructor].
  - apply NoDup_singleton.
  - unfold write_keys. intros k (id & kl & [<- <-]%lookup_singleton_Some & Hk)%elem_of_request_keys.
    apply list_elem_of_singleton in Hk as ->. exact Hx.
Qed.

Lemma by_key_write_witness :
  (∃ s', bk_MergeManyMultiState write_demo (write_keys 65) {[ 3%Z := [[5]]%Z ]} {[ 3%Z := [0%Z] ]} = Ok s' ∧
     bk_value s' (small_key 65) = [9; 5]%Z) ∧
  bk_DeleteMany write_demo (write_keys 66) {[ 3%Z := [0%Z] ]} =
    Crash (Fatal "Key not found in key map for removing key").
Proof.
  split.
  - destruct (by_key_write 7 2 write_demo (write_keys 65) {[ 3%Z := [[5]]%Z ]} {[ 3%Z := [0%Z] ]})
      as (_ & (s' & Hrun & _ & _ & Hval) & _).
    + apply write_demo_writable. reflexivity.
    + unfold write_keys. intros id kl [<- <-]%lookup_singleton_Some. eexists. rewrite lookup_singleton_eq. split; reflexivity.
    + exists s'. split; [exact Hrun|]. rewrite Hval. vm_compute. reflexivity.
  - destruct (by_key_write 7 2 write_demo (write_keys 66) {[ 3%Z := [[5]]%Z ]} {[ 3%Z := [0%Z] ]}) as (_ & _ & Hdel).
    + apply write_demo_writable. reflexivity.
    + unfold write_keys. intros id kl [<- <-]%lookup_singleton_Some. eexists. rewrite lookup_singleton_eq. split; reflexivity.
    + rewrite decide_False in Hdel; [exact Hdel|]. intros [[w Hw] _]%Forall_cons. discriminate Hw.
Defined.
