(* ===== verification/ByKeyMigration.v ===== *)
(** * Lazy-by-key migration: the goroutines of a read

    What a scan of the table takes along for an eventual migration, what each
    goroutine of a by-key read does, and that in any order they leave every
    value unchanged; the migration from a leaving worker completes. *)

From stdpp Require Import prelude gmap strings list.
From Stdlib Require Import ZArith Lia.
From S2P Require Import Prelude Partition PartitionTable KeyMap Backend StateService Cluster NoMigration ByKey ByKeyRead.

(** ** Keys taken along *)

(** The scan of one bucket stops at the limit. *)
Lemma scan_keys_spec cancelling dup left (l : list (bytes * Z)) :
  let found := (filter (λ e : bytes * Z, e.2 = cancelling ∧ e.1 ∉ dup) l).*1 in
  scan_keys cancelling dup left l =
    match left with
    | None => (found, false)
    | Some n => if length found <? n `max` 1 then (found, false) else (take (n `max` 1) found, true)
    end.
Proof.
  revert left. induction l as [|[k w] l IH]; intros left; [by destruct left as [[|[]]|]|].
  cbn [scan_keys]. rewrite filter_cons. simpl.
  destruct (Z.eqb_spec w cancelling) as [->|Hw]; simpl.
  2:{ rewrite decide_False by naive_solver. apply IH. }
  case_bool_decide as Hk; [rewrite decide_False by naive_solver; apply IH|].
  rewrite decide_True, fmap_cons by done. cbn [fst]. cbv zeta in IH. revert IH. set (found := (filter _ l).*1). intros IH.
  destruct left as [[|[|n]]|]; [done..| |by rewrite IH]. rewrite IH. cbn [length Nat.max]. rewrite ?Nat.max_0_r.
  destruct (Nat.ltb_spec (length found) (S n)); destruct (Nat.ltb_spec (S (length found)) (S (S n))); try lia; done.
Qed.

Section Scan.
Context `{GoRange} (op n : Z) (t : KeyLookupTableV2) (w : Z) (dup : gset bytes).
Context (Hkeys : keyed_buckets op n (t2_Buckets t)) (Hn : (n < 2 ^ 32)%Z).

(** The keys of bucket [b] that are recorded at [w]. *)
Definition stays (b : Z) (k : bytes) : Prop :=
  b = Z.of_nat (key_bucket k) ∧ recorded_in (t2_Buckets t) k = Some w.

Lemma stays_in b bucket m k :
  (0 ≤ b)%Z → t2_Buckets t !! Z.to_nat b = Some bucket → Map bucket = Some m → stays b k ↔ m !! k = Some w.
Proof.
  intros Hb Hbk Hm. split.
  - intros [-> (bucket' & m' & Hb' & Hm' & Hk)%recorded_Some]. rewrite Nat2Z.id in Hbk. by simplify_eq.
  - intros Hk. pose proof (key_at_bucket _ _ _ _ (Hkeys _ _ _ _ _ Hbk Hm Hk) Hn) as Hkb.
    split; [lia|]. apply recorded_Some. exists bucket, m. replace (key_bucket k) with (Z.to_nat b) by lia. done.
Qed.

Definition scanned (buckets : list Z) (done done' : gset Z) (kbs : list (bytes * Z)) : Prop :=
  done ⊆ done' ∧ NoDup kbs.*1 ∧
  (∀ k b, (k, b) ∈ kbs → b ∈ buckets ∧ b ∉ done ∧ k ∉ dup ∧ stays b k) ∧
  ∀ b, b ∈ done' → b ∈ done ∨ ∀ k, stays b k → k ∈ dup ∨ k ∈ kbs.*1.

Lemma scan_bucket (b : Z) (m : gmap bytes Z) (bucket : BucketV2) :
  (0 ≤ b)%Z → t2_Buckets t !! Z.to_nat b = Some bucket → Map bucket = Some m →
  let found := (filter (λ e : bytes * Z, e.2 = w ∧ e.1 ∉ dup) (go_range m)).*1 in
  NoDup found ∧ ∀ k, k ∈ found ↔ stays b k ∧ k ∉ dup.
Proof.
  intros Hb Hbk Hm found. split.
  - apply NoDup_filter_keys, NoDup_go_range.
  - intros k. unfold found. rewrite (stays_in b bucket m) by done. rewrite list_elem_of_fmap. split.
    + intros ([k' w'] & -> & [[Hw Hd] Hin%elem_of_go_range]%list_elem_of_filter). simpl in *. by subst.
    + intros [Hk Hd]. exists (k, w). split; [done|]. apply list_elem_of_filter. by rewrite elem_of_go_range.
Qed.

Lemma scan_buckets_Ok buckets : ∀ ev L f done left,
  ev_BucketLocks ev = Some L → ev_FinishedBuckets ev = Some f → f !! w = Some done →
  (∀ b, b ∈ buckets → b ∈ L ∧ (0 ≤ b)%Z ∧
     ∃ bucket m, t2_Buckets t !! Z.to_nat b = Some bucket ∧ Map bucket = Some m) →
  left ≠ Some 0 →
  ∃ done' kbs allDone, scan_buckets t ev w dup left buckets =
      Ok (ev_set_finished ev (Some (<[w := done']> f)), kbs, allDone) ∧ scanned buckets done done' kbs ∧
    if allDone then ∀ b, b ∈ buckets → b ∈ done' else kbs ≠ [].
Proof.
  induction buckets as [|b buckets IH]; intros ev L f done left HL Hf Hdone Hbs Hleft.
  { exists done, [], true. rewrite insert_id by done. split_and!; [by destruct ev; simpl in *; subst| |set_solver].
    split_and!; [done|constructor|set_solver|set_solver]. }
  cbn [scan_buckets]. unfold is_finished. rewrite Hf, Hdone. simpl.
  case_bool_decide as Hb.
  { destruct (IH ev L f done left) as (done' & kbs & allDone & -> & (Hsub & Hnd & Hk & Hc) & Hall);
      [done..|set_solver|done|].
    exists done', kbs, allDone. split; [done|]. split.
    - split_and!; [done..| |done]. intros k b' (? & ? & ? & ?)%Hk. split_and!; set_solver.
    - destruct allDone; set_solver. }
  destruct (Hbs b) as (HbL & Hb0 & bucket & m & Hbk & Hm); [by left|].
  rewrite (proj2 (idxZ_Ok _ _ bucket)), bind_Ok by done. unfold require_map. rewrite Hm, bind_Ok.
  unfold bucket_lock. rewrite HL. simpl. rewrite bool_decide_eq_true_2 by done. cbn [negb panic_if]. rewrite bind_Ok.
  destruct (scan_bucket b m bucket Hb0 Hbk Hm) as [Hnd Hfound]. rewrite scan_keys_spec.
  set (found := (filter _ (go_range m)).*1) in *.
  assert (Hpairs : ∀ l : list bytes, ((λ k, (k, b)) <$> l).*1 = l).
  { intros l. rewrite <-list_fmap_compose. apply list_fmap_id. }
  destruct (match left with None => _ | _ => _ end) as [ks cut] eqn:Hscan.
  destruct cut.
  - (* the limit is reached in this bucket *)
    assert (∃ j, ks = take (S j) found ∧ j < length found) as (j & -> & Hj).
    { destruct left as [j|]; [|done]. destruct (Nat.ltb_spec (length found) (j `max` 1)); [done|].
      injection Hscan as <-. exists (j `max` 1 - 1). replace (S (j `max` 1 - 1)) with (j `max` 1) by lia. split; [done|lia]. }
    exists done, ((λ k, (k, b)) <$> take (S j) found), false. rewrite insert_id by done.
    split; [by destruct ev; simpl in *; subst|]. split; [|by destruct found; simpl in *; [lia|]].
    split_and!; [done| | |by left].
    + rewrite Hpairs. eapply sublist_NoDup; [done|apply sublist_take].
    + intros k b' (k' & [= -> ->] & Hin%elem_of_take)%list_elem_of_fmap.
      destruct Hin as (i & Hi & _). apply list_elem_of_lookup_2, Hfound in Hi as [??]. split_and!; set_solver.
  - (* every key of the bucket is taken *)
    assert (ks = found ∧ (λ i, i - length ks) <$> left ≠ Some 0) as [-> Hleft'].
    { destruct left as [j|]; simpl in *; [|by injection Hscan as <-].
      destruct (Nat.ltb_spec (length found) (j `max` 1)); [|done]. injection Hscan as <-.
      split; [done|]. intros [= ?]. assert (j ≠ 0) by congruence. lia. }
    unfold mark_finished. rewrite Hf, Hdone, bind_Ok.
    destruct (IH (ev_set_finished ev (Some (<[w := {[b]} ∪ done]> f))) L (<[w := {[b]} ∪ done]> f) ({[b]} ∪ done)
      ((λ i, i - length found) <$> left)) as (done' & kbs & allDone & -> & (Hsub & Hnd' & Hk & Hc) & Hall);
      [done|done|by rewrite lookup_insert_eq|set_solver|done|].
    rewrite bind_Ok. exists done', (((λ k, (k, b)) <$> found) ++ kbs), allDone.
    rewrite insert_insert_eq. split; [done|]. split; [split_and!|].
    + set_solver.
    + rewrite fmap_app, Hpairs. apply NoDup_app. split_and!; [done| |done].
      intros k [[-> _] _]%Hfound ([k' b'] & Heq & (_ & Hb' & _ & [-> _])%Hk)%list_elem_of_fmap. simpl in Heq. set_solver.
    + intros k b' [(k' & [= -> ->] & [??]%Hfound)%list_elem_of_fmap|(?&?&?&?)%Hk]%elem_of_app; split_and!; set_solver.
    + intros b' Hb'. rewrite fmap_app, Hpairs. destruct (Hc b' Hb') as [[->%elem_of_singleton|?]%elem_of_union|Hc'].
      * right. intros k Hs. destruct (decide (k ∈ dup)) as [?|Hd]; [by left|]. right. apply elem_of_app. left.
        by apply Hfound.
      * by left.
      * right. intros k Hs. destruct (Hc' k Hs); set_solver.
    + destruct allDone; [set_solver|]. intros [_ ->]%app_eq_nil. done.
Qed.
End Scan.

(** ** Additional keys *)

(** A request to a worker is a part of the requested keys. *)
Definition sub_request (part keys : keyed bytes) : Prop :=
  ∀ id kl, part !! id = Some kl → kl ≠ [] ∧ ∃ full, keys !! id = Some full ∧ kl `sublist_of` full.

Section Additional.
Context `{GoRange} `{TransportLaws B}.
Implicit Types (s : ByKeyService B) (ev : Eventual).

(** The peers answer any part of a request, and a fetch of any of the keys
    they hold. *)
Definition reachable_for s (keys : keyed bytes) : Prop :=
  ∀ w b part, bk_peers s !! w = Some b → part ≠ ∅ → sub_request part keys → carries b part.

Definition reachable_more s : Prop :=
  ∀ w b ks, is_Some (ev_AffectedBuckets (bk_ev s) !! w) → w ≠ bk_WorkerID s → bk_peers s !! w = Some b → NoDup ks →
    (∀ k, k ∈ ks → recorded s k = Some w) → carries_all b ks.

Lemma value_elsewhere s w b k :
  bk_peers s !! w = Some b → w ≠ bk_WorkerID s → place s k = w → bk_value s k = default [] (data_of b !! k).
Proof.
  intros Hb Hw Hk. unfold bk_value, store_of. rewrite Hk, Hb. by destruct (Z.eqb_spec w (bk_WorkerID s)).
Qed.

Lemma values_elsewhere s w b ks :
  bk_peers s !! w = Some b → w ≠ bk_WorkerID s → (∀ k, k ∈ ks → place s k = w) →
  on_wire (read_all (data_of b) ks) = bk_value s <$> ks.
Proof.
  intros Hb Hw Hk. unfold on_wire, read_all. rewrite <-list_fmap_compose. apply list_fmap_ext.
  intros i k Hi. symmetry. apply (value_elsewhere s w b); [done..|]. apply Hk. by eapply list_elem_of_lookup_2.
Qed.

Lemma progress_ev s0 F U s ev : progress s0 F U s → progress s0 F U (bk_set_ev s ev).
Proof. intros Hp. by destruct Hp. Qed.

Lemma progress_chunks s0 F U s (chunks : list (list bytes * list bytes)) :
  progress s0 F U s → Forall (λ ch, ch.2 = bk_value s0 <$> ch.1) chunks →
  (∀ k, k ∈ chunks ≫= fst → place s0 k ≠ bk_WorkerID s0) →
  ∃ b', foldM (λ backend (ch : list bytes * list bytes), sb_SetMany backend ch.1 ch.2) (bk_Backend s) chunks = Ok b' ∧
    progress s0 (list_to_set (chunks ≫= fst) ∪ F) U (bk_set_backend s b').
Proof.
  revert F s. induction chunks as [|[ks vs] chunks IH]; intros F s Hp Hall Hk.
  { exists (bk_Backend s). split; [done|]. replace (_ ∪ F) with F by set_solver. by destruct s. }
  apply Forall_cons in Hall as [Hvs Hall]. simpl in Hvs. subst vs. cbn [foldM fst snd]. rewrite bind_cons in Hk |- *.
  destruct (progress_copy s0 F U s ks Hp) as (b1 & -> & Hp1); [set_solver|]. rewrite bind_Ok.
  destruct (IH _ _ Hp1 Hall) as (b2 & Hrun & Hp2); [set_solver|]. exists b2. split; [done|].
  rewrite list_to_set_app_L. simpl. rewrite (union_comm_L (list_to_set ks)), <-(assoc_L _). exact Hp2.
Qed.

Lemma progress_updates op n s0 F U s w L (kbs : list (bytes * Z)) :
  bk_wf op n s0 → progress s0 F U s → w ≠ bk_WorkerID s0 →
  (∀ k b, (k, b) ∈ kbs → b ∈ L ∧ key_at op n k b ∧ recorded s0 k = Some w) →
  ∃ t, foldM (update_additional (Some L) (bk_WorkerID s)) (bk_Table s) kbs = Ok t ∧
    progress s0 F (list_to_set kbs.*1 ∪ U) (bk_set_table s t).
Proof.
  intros Hwf Hp Hw Hk. revert U s Hp. induction kbs as [|[k b] kbs IH]; intros U s Hp.
  { exists (bk_Table s). split; [done|]. replace (_ ∪ U) with U by set_solver. by destruct s. }
  destruct (Hk k b) as (HL & Hat & Hrec); [by left|].
  destruct (progress_update op n s0 F U s k b w) as (t & Hup & Hp1); [done..|].
  assert (update_additional (Some L) (bk_WorkerID s) (bk_Table s) (k, b) = Ok t) as Hstep.
  { unfold update_additional. simpl. by rewrite bool_decide_eq_true_2. }
  cbn [foldM]. rewrite Hstep, bind_Ok.
  destruct (IH (λ k' b' Hin, Hk k' b' (list_elem_of_further _ _ _ Hin)) _ _ Hp1) as (t' & Hrun & Hp2). exists t'. split; [done|].
  rewrite fmap_cons, list_to_set_cons. simpl. rewrite (union_comm_L {[k]}), <-(assoc_L _). exact Hp2.
Qed.

(** A fetch of additional keys moves them. *)
Lemma fetchAdditionalKeysByTcp_Ok op n s0 F U s w b L (kbs : list (bytes * Z)) :
  bk_wf op n s0 → progress s0 F U s → bk_peers s0 !! w = Some b → w ≠ bk_WorkerID s0 →
  ev_BucketLocks (bk_ev s) = Some L → carries_all b kbs.*1 →
  (∀ k c, (k, c) ∈ kbs → c ∈ L ∧ key_at op n k c ∧ recorded s0 k = Some w) →
  ∃ s', fetchAdditionalKeysByTcp s w kbs = Ok s' ∧ bk_ev s' = bk_ev s ∧
    progress s0 (list_to_set kbs.*1 ∪ F) (list_to_set kbs.*1 ∪ U) s'.
Proof.
  intros Hwf Hp Hb Hw HL Hc Hk. unfold fetchAdditionalKeysByTcp, peer.
  rewrite (pr_peers _ _ _ _ Hp), Hb, bind_Ok, HL.
  destruct (additional_law b kbs.*1 (bw_peers _ _ _ Hwf _ _ Hb) Hc) as (chunks & -> & Hlen & Hfst & Hsnd). rewrite bind_Ok.
  assert (Hpl : ∀ k, k ∈ kbs.*1 → place s0 k = w).
  { intros k ([k' c] & -> & (_ & _ & Hrec)%Hk)%list_elem_of_fmap. unfold place. simpl. by rewrite Hrec. }
  rewrite (values_elsewhere s0 w b) in Hsnd by done.
  destruct (progress_chunks s0 F U s chunks Hp) as (b' & -> & Hp1).
  { rewrite <-Hfst in Hsnd. clear -Hlen Hsnd. induction chunks as [|[ks vs] chunks IH]; [constructor|].
    apply Forall_cons in Hlen as [Hl Hlen]. simpl in Hl. rewrite !bind_cons, fmap_app in Hsnd.
    apply app_inj_1 in Hsnd as [Hvs Hrest]; [|by rewrite length_fmap]. constructor; [done|]. by apply IH. }
  { rewrite Hfst. intros k Hin. by rewrite Hpl. }
  rewrite bind_Ok, Hfst in *. destruct (progress_updates op n s0 _ U _ w L kbs Hwf Hp1 Hw Hk) as (t & Ht & Hp2).
  cbn [bk_set_backend bk_WorkerID bk_Table] in Ht. rewrite Ht, bind_Ok. eexists. split; [done|]. split; [done|]. exact Hp2.
Qed.

Lemma keyed_progress op n s0 F U s :
  bk_wf op n s0 → progress s0 F U s → keyed_buckets op n (bk_buckets s).
Proof.
  intros Hwf Hp i bucket m k w. rewrite (pr_table _ _ _ _ Hp), list_lookup_fmap.
  destruct (bk_buckets s0 !! i) as [[w0 [m0|]]|] eqn:E; intros [= <-] [= <-].
  rewrite relocate_map_lookup. intros (v & Hv & _)%fmap_Some. exact (bw_keys _ _ _ Hwf i _ m0 k v E eq_refl Hv).
Qed.

Lemma recorded_still s0 F U s k w : progress s0 F U s → w ≠ bk_WorkerID s0 →
  recorded s k = Some w ↔ recorded s0 k = Some w ∧ k ∉ U.
Proof.
  intros Hp Hw. rewrite (progress_recorded _ _ _ _ _ Hp). destruct (recorded s0 k) as [w0|]; simpl; [|naive_solver].
  case_bool_decide; naive_solver.
Qed.

(** The keys recorded at [w] in bucket [c] are all of [X]. *)
Definition covered s (w : Z) (X : gset bytes) (c : Z) : Prop :=
  ∀ k, c = Z.of_nat (key_bucket k) → recorded s k = Some w → k ∈ X.

(** One call for a leaving worker: the keys [K] move, [fin'] are the buckets
    that need not be scanned again. *)
Lemma fetchAdditionalKeys_Ok op n s0 F U s w b bs L f fin already :
  bk_wf op n s0 → reachable_more s0 → progress s0 F U s → bk_peers s0 !! w = Some b → w ≠ bk_WorkerID s0 →
  is_Some (ev_AffectedBuckets (bk_ev s0) !! w) → ev_AffectedBuckets (bk_ev s) !! w = Some bs →
  ev_BucketLocks (bk_ev s) = Some L → ev_FinishedBuckets (bk_ev s) = Some f → f !! w = Some fin →
  (∀ c, c ∈ bs → c ∈ L ∧ is_local s0 c) →
  ∃ s' K fin' (allDone : bool), fetchAdditionalKeys s w already = Ok s' ∧ progress s0 (K ∪ F) (K ∪ U) s' ∧
    (let ev' := ev_set_finished (bk_ev s) (Some (<[w := fin']> f)) in
     bk_ev s' = if allDone then finish_worker ev' w else ev') ∧
    fin ⊆ fin' ∧ (∀ k, k ∈ K → recorded s0 k = Some w) ∧
    (∀ c, c ∈ fin' → c ∈ fin ∨ covered s0 w (U ∪ already ∪ K) c) ∧
    if allDone then ∀ c, c ∈ bs → c ∈ fin' else K ≠ ∅.
Proof.
  intros Hwf Hreach Hp Hb Hw Haff Hbs HL Hf Hfin Hloc. unfold fetchAdditionalKeys, getKeysForEventualMigration.
  rewrite Hbs. pose proof (bw_n _ _ _ Hwf) as Hn.
  destruct (scan_buckets_Ok op n (bk_Table s) w already (keyed_progress _ _ _ _ _ _ Hwf Hp) ltac:(lia) bs (bk_ev s) L f fin
    (if (0 <? GradualMigrationBatchSize s)%Z then Some (Z.to_nat (GradualMigrationBatchSize s)) else None))
    as (fin' & kbs & allDone & -> & (Hsub & Hnd & Hk & Hcov) & Hall); [done..| | |].
  { intros c Hc. destruct (Hloc c Hc) as [? Hl]. apply (progress_local _ _ _ _ c Hp) in Hl as [? ?]. done. }
  { destruct (Z.ltb_spec 0 (GradualMigrationBatchSize s)); [|done]. intros [= ?]. lia. }
  rewrite bind_Ok.
  assert (Hrec : ∀ k c, (k, c) ∈ kbs → c ∈ L ∧ key_at op n k c ∧ recorded s0 k = Some w ∧ c ∈ bs).
  { intros k c Hin. destruct (Hk k c Hin) as (Hc & _ & _ & [-> Hst]). fold (recorded s k) in Hst.
    split_and!; [by apply Hloc| |by apply (recorded_still _ _ _ _ _ _ Hp Hw)|done].
    apply recorded_Some in Hst as (bucket & m & Hb' & Hm & Hkm).
    exact (keyed_progress _ _ _ _ _ _ Hwf Hp _ _ _ _ _ Hb' Hm Hkm). }
  set (ev' := ev_set_finished (bk_ev s) (Some (<[w := fin']> f))). set (K := list_to_set kbs.*1 : gset bytes).
  assert (∃ s1, (if length kbs =? 0 then Ok (bk_set_ev s ev') else fetchAdditionalKeysByTcp (bk_set_ev s ev') w kbs) = Ok s1 ∧
    bk_ev s1 = ev' ∧ progress s0 (K ∪ F) (K ∪ U) s1) as (s1 & -> & Hev & Hp1).
  { destruct kbs as [|kb kbs].
    - eexists. split; [done|]. split; [done|]. replace (K ∪ F) with F by set_solver.
      replace (K ∪ U) with U by set_solver. by apply progress_ev.
    - apply (fetchAdditionalKeysByTcp_Ok op n s0 F U (bk_set_ev s ev') w b L); [done|by apply progress_ev|done..| |].
      + apply (Hreach w b); [done..|]. intros k ([k' c] & -> & (_ & _ & ? & _)%Hrec)%list_elem_of_fmap. done.
      + intros k c Hin. destruct (Hrec k c Hin) as (? & ? & ? & _). done. }
  rewrite bind_Ok. eexists _, K, fin', allDone. split; [done|]. split; [|split].
  - destruct allDone; [by apply progress_ev|done].
  - destruct allDone; simpl; by rewrite Hev.
  - split_and!; [done| | |].
    + intros k ([k' c] & -> & (_ & _ & ? & _)%Hrec)%elem_of_list_to_set%list_elem_of_fmap. done.
    + intros c Hc. destruct (Hcov c Hc) as [?|Hst]; [by left|]. right. intros k -> Hk0.
      destruct (decide (k ∈ U)) as [?|HkU]; [set_solver|].
      destruct (Hst k) as [?|?]; [|set_solver|].
      { split; [done|]. fold (bk_buckets s). fold (recorded s k). by apply (recorded_still _ _ _ _ _ _ Hp Hw). }
      unfold K. set_solver.
    + destruct allDone; [done|]. destruct kbs as [|[k c] kbs]; [done|]. unfold K. simpl. set_solver.
Qed.
End Additional.

(** ** Migrations in progress *)

Section Active.
Context `{StateBackendLaws B}.
Implicit Types (s : ByKeyService B) (ev : Eventual) (X : gset bytes) (D : gset Z).

Abbreviation leaving s := (ev_AffectedBuckets (bk_ev s)).

(** The maps of a migration that is not over, when the keys [X] are moved or
    about to be: every affected bucket is local and has a lock, a finished one
    has no other key at the worker. *)
Definition ev_maps s X D ev : Prop :=
  ∃ L f, ev_BucketLocks ev = Some L ∧ ev_FinishedBuckets ev = Some f ∧
    ∀ w bs, leaving s !! w = Some bs →
      w ≠ bk_WorkerID s ∧ is_Some (bk_peers s !! w) ∧ (∀ c, c ∈ bs → c ∈ L ∧ is_local s c) ∧
      ∃ fin, f !! w = Some fin ∧ (∀ c, c ∈ fin → covered s w X c) ∧ (w ∈ D → ∀ c, c ∈ bs → c ∈ fin).

(** The fields of a migration in which the workers [D] are done; the maps are
    reset when all are. *)
Definition ev_state s X D ev : Prop :=
  ev_AffectedBuckets ev = leaving s ∧ ev_DoneWorkers ev = D ∧ D ⊆ dom (leaving s) ∧
  ev_RemainingWorkers ev = (Z.of_nat (size (leaving s)) - Z.of_nat (size D))%Z ∧
  (∀ w bs c, w ∈ D → leaving s !! w = Some bs → c ∈ bs → covered s w X c) ∧
  if decide (D = dom (leaving s))
  then ev_Enabled ev = false ∧ ev_Done ev = true ∧ ev_BucketLocks ev = None ∧ ev_FinishedBuckets ev = None
  else ev_Enabled ev = true ∧ ev_Done ev = false ∧ ev_maps s X D ev.

Definition ev_ok s : Prop :=
  ev_Enabled (bk_ev s) = true →
  (Z.of_nat (size (leaving s)) < 2 ^ 31)%Z ∧ ev_state s ∅ (ev_DoneWorkers (bk_ev s)) (bk_ev s).

Lemma covered_mono s w X X' c : covered s w X c → X ⊆ X' → covered s w X' c.
Proof. intros Hc HX k Hk Hw. apply HX. by apply Hc. Qed.

Lemma ev_state_mono s X X' D ev : ev_state s X D ev → X ⊆ X' → ev_state s X' D ev.
Proof.
  intros (HA & HD & Hsub & Hrem & Hdone & Hrest) HX. split_and!; [done..| |].
  - intros w bs c Hw Hbs Hc. eapply covered_mono; [by eapply Hdone|done].
  - case_decide; [done|]. destruct Hrest as (? & ? & L & f & HL & Hf & Hall). split_and!; [done..|].
    exists L, f. split_and!; [done..|]. intros w bs Hbs. destruct (Hall w bs Hbs) as (? & ? & ? & fin & ? & Hfin & ?).
    split_and!; [done..|]. exists fin. split_and!; [done| |done]. intros c Hc. eapply covered_mono; [by apply Hfin|done].
Qed.

Lemma ev_maps_finish s X D ev f w bs fin fin' (allDone : bool) :
  ev_maps s X D ev → ev_FinishedBuckets ev = Some f → leaving s !! w = Some bs → f !! w = Some fin →
  fin ⊆ fin' → (∀ c, c ∈ fin' → c ∈ fin ∨ covered s w X c) → (allDone → ∀ c, c ∈ bs → c ∈ fin') →
  ev_maps s X (if allDone then {[w]} ∪ D else D) (ev_set_finished ev (Some (<[w := fin']> f))).
Proof.
  intros (L & f' & HL & Hf' & Hall) Hf Hbs Hfin Hsub Hcov Hdone. assert (f' = f) as -> by congruence.
  exists L, (<[w := fin']> f). split_and!; [done..|]. intros w' bs' Hbs'.
  destruct (Hall w' bs' Hbs') as (Hs & Hpe & Hl & fin0 & Hf0 & Hc0 & HD0). split_and!; [done..|].
  destruct (decide (w' = w)) as [->|Hne].
  - simplify_eq. exists fin'. rewrite lookup_insert_eq. split_and!; [done| |].
    + intros c Hc. destruct (Hcov c Hc); [by apply Hc0|done].
    + intros HwD c Hc. destruct allDone; [by apply Hdone|]. apply Hsub. by apply HD0.
  - exists fin0. rewrite lookup_insert_ne by done. split_and!; [done..|]. intros HwD. apply HD0.
    destruct allDone; set_solver.
Qed.

(** A call for worker [w] keeps the migration's state. *)
Lemma ev_state_step s X D ev f w bs fin fin' (allDone : bool) :
  ev_state s X D ev → (Z.of_nat (size (leaving s)) < 2 ^ 31)%Z → w ∉ D →
  ev_FinishedBuckets ev = Some f → leaving s !! w = Some bs → f !! w = Some fin →
  fin ⊆ fin' → (∀ c, c ∈ fin' → c ∈ fin ∨ covered s w X c) → (allDone → ∀ c, c ∈ bs → c ∈ fin') →
  let ev' := ev_set_finished ev (Some (<[w := fin']> f)) in
  ev_state s X (if allDone then {[w]} ∪ D else D) (if allDone then finish_worker ev' w else ev').
Proof.
  intros (HA & HD & Hsub & Hrem & Hdone & Hrest) Hsize Hw Hf Hbs Hfin Hfin' Hcov Hall ev'.
  assert (w ∈ dom (leaving s)) as Hdom by (apply elem_of_dom; eauto).
  rewrite decide_False in Hrest by set_solver. destruct Hrest as (Hen & Hfl & Hmaps).
  pose proof (ev_maps_finish s X D ev f w bs fin fin' allDone Hmaps Hf Hbs Hfin Hfin' Hcov Hall) as Hmaps'.
  fold ev' in Hmaps'. destruct allDone.
  2:{ split_and!; [done..|]. rewrite decide_False by set_solver. done. }
  assert (size ({[w]} ∪ D) = S (size D)) as Hsz by (rewrite size_union, size_singleton by set_solver; done).
  assert (size ({[w]} ∪ D) ≤ size (dom (leaving s))) as Hle by (apply subseteq_size; set_solver).
  rewrite size_dom in Hle.
  assert (i32 (ev_RemainingWorkers ev' - 1) = (Z.of_nat (size (leaving s)) - Z.of_nat (size ({[w]} ∪ D)))%Z) as Hi.
  { change (ev_RemainingWorkers ev') with (ev_RemainingWorkers ev). rewrite Hrem, Hsz. unfold i32.
    rewrite Z.mod_small; lia. }
  assert (Hcov' : ∀ w' bs' c, w' ∈ {[w]} ∪ D → leaving s !! w' = Some bs' → c ∈ bs' → covered s w' X c).
  { intros w' bs' c [->%elem_of_singleton|Hw']%elem_of_union Hbs' Hc; [|by eapply Hdone]. simplify_eq.
    destruct Hmaps as (L & f' & _ & Hf' & Hm). destruct (Hm w bs Hbs) as (_ & _ & _ & fin0 & Hf0 & Hc0 & _).
    simplify_eq. destruct (Hcov c); [by apply Hall|by apply Hc0|done]. }
  unfold finish_worker. change (ev_DoneWorkers ev') with (ev_DoneWorkers ev).
  rewrite HD, bool_decide_eq_false_2, Hi by done.
  destruct (decide ({[w]} ∪ D = dom (leaving s))) as [Hfull|Hpart].
  - rewrite (proj2 (Z.eqb_eq _ _)) by (rewrite Hfull, size_dom; lia).
    split_and!; try done; [set_solver|]. by rewrite decide_True.
  - destruct (Z.eqb_spec (Z.of_nat (size (leaving s)) - Z.of_nat (size ({[w]} ∪ D))) 0) as [Hz|Hz].
    + destruct Hpart. apply set_subseteq_size_eq; [set_solver|]. rewrite size_dom. lia.
    + split_and!; try done; [set_solver|]. by rewrite decide_False.
Qed.
End Active.
