(* ===== verification/ByKeyTasks.v ===== *)
(** * Lazy-by-key reads: every order of the goroutines

    The goroutines of a by-key read, run in any order, fetch the requested
    keys and leave every value unchanged; with a leaving worker each read
    takes keys along until the migration is over. *)

From stdpp Require Import prelude gmap strings list.
From Stdlib Require Import ZArith Lia.
From S2P Require Import Prelude Partition PartitionTable KeyMap Backend StateService Cluster NoMigration TcpFrames ByKey ByKeyRead ByKeyMigration.

(** ** Fetching from one worker *)

Section Fetch.
Context `{GoRange} `{TransportLaws B}.
Implicit Types (s : ByKeyService B) (keys : keyed bytes).

Lemma go_range_request_keys keys k : k ∈ go_range keys ≫= snd ↔ k ∈ request_keys keys.
Proof.
  rewrite elem_of_request_keys, list_elem_of_bind. split.
  - intros ([id kl] & Hk & Hin%elem_of_go_range). eauto.
  - intros (id & kl & Hkl & Hk). exists (id, kl). by rewrite elem_of_go_range.
Qed.

(** The fetched values are written to the local store, state by state. *)
Lemma flush_fetched_Ok s0 F U s keys (values : keyed bytes) :
  progress s0 F U s → (∀ k, k ∈ request_keys keys → place s0 k ≠ bk_WorkerID s0) →
  (∀ id kl, keys !! id = Some kl → values !! id = Some (bk_value s0 <$> kl)) →
  ∃ b', foldM (λ backend '(stateId, keyList), sb_SetMany backend keyList (default [] (values !! stateId)))
      (bk_Backend s) (go_range keys) = Ok b' ∧
    progress s0 (list_to_set (request_keys keys) ∪ F) U (bk_set_backend s b').
Proof.
  intros Hp Hk Hv.
  destruct (foldM_total (λ backend '(stateId, keyList), sb_SetMany backend keyList (default [] (values !! stateId)))
    (λ l b, progress s0 (list_to_set (l ≫= snd) ∪ F) U (bk_set_backend s b)) (go_range keys) (bk_Backend s))
    as (b' & Hrun & Hp').
  - replace (_ ∪ F) with F by set_solver. by destruct s.
  - intros l [id kl] b1 Hpre Hp1.
    assert (keys !! id = Some kl) as Hkl by (rewrite <-elem_of_go_range; destruct Hpre as [suf ->]; set_solver).
    rewrite (Hv id kl Hkl). simpl.
    destruct (progress_copy s0 _ U _ kl Hp1) as (b2 & Hset & Hp2).
    { intros k Hin. apply Hk, elem_of_request_keys. eauto. }
    exists b2. split; [exact Hset|]. rewrite bind_app. cbn [mbind list_bind snd]. rewrite app_nil_r, list_to_set_app_L.
    rewrite (union_comm_L (list_to_set (l ≫= snd))), <-(assoc_L _). exact Hp2.
  - exists b'. split; [done|].
    replace (list_to_set (request_keys keys) : gset bytes) with (list_to_set (go_range keys ≫= snd) : gset bytes); [done|].
    apply set_eq. intros k. rewrite !elem_of_list_to_set. apply go_range_request_keys.
Qed.

(** What a worker's answer holds. *)
Definition rd s (w : Z) (k : bytes) : option bytes :=
  if (w =? bk_WorkerID s)%Z then data_of (bk_Backend s) !! k else Some (bk_value s k).

Lemma rd_value s k : default [] (rd s (place s k) k) = bk_value s k.
Proof. unfold rd, bk_value, store_of. by destruct (Z.eqb_spec (place s k) (bk_WorkerID s)). Qed.

(** The first two stages of the executor. *)
Lemma fetch_stage op n s0 F U s w keys b :
  bk_wf op n s0 → progress s0 F U s → bk_peers s0 !! w = Some b → w ≠ bk_WorkerID s0 → carries b keys →
  (∀ k, k ∈ request_keys keys → place s0 k = w) →
  ∃ values b', fetch b keys = Ok values ∧ received values = (λ kl : list bytes, rd s0 w <$> kl) <$> keys ∧
    foldM (λ backend '(stateId, keyList), sb_SetMany backend keyList (default [] (values !! stateId)))
      (bk_Backend s) (go_range keys) = Ok b' ∧
    progress s0 (list_to_set (request_keys keys) ∪ F) U (bk_set_backend s b').
Proof.
  intros Hwf Hp Hb Hw Hc Hk. rewrite (fetch_law b keys (bw_peers _ _ _ Hwf _ _ Hb) Hc).
  assert (Hv : ∀ id kl, keys !! id = Some kl →
    (on_wire <$> (read_all (data_of b) <$> keys) : keyed bytes) !! id = Some (bk_value s0 <$> kl)).
  { intros id kl Hkl. rewrite !lookup_fmap, Hkl. simpl. f_equal. apply (values_elsewhere s0 w b); [done..|].
    intros k Hin. apply Hk, elem_of_request_keys. eauto. }
  destruct (flush_fetched_Ok s0 F U s keys (on_wire <$> (read_all (data_of b) <$> keys))) as (b' & Hrun & Hp'); [done| |done|].
  { intros k Hin. by rewrite (Hk k Hin). }
  eexists _, b'. split; [done|]. split_and!; [|done..].
  apply map_eq. intros id. unfold received. rewrite lookup_fmap, (lookup_fmap (λ kl : list bytes, rd s0 w <$> kl)).
  destruct (keys !! id) as [kl|] eqn:Hkl; [|by rewrite !lookup_fmap, Hkl].
  rewrite (Hv id kl Hkl). simpl. f_equal. rewrite <-list_fmap_compose. apply list_fmap_ext. intros i k _.
  unfold rd. by destruct (Z.eqb_spec w (bk_WorkerID s0)).
Qed.
End Fetch.

(** ** Calls for workers that are done *)

Section Done.
Context `{GoRange} `{TransportLaws B}.
Implicit Types (s : ByKeyService B).

(** A call after the maps were reset dereferences a missing lock. *)
Lemma fetch_after_reset s w b bs dup :
  ev_BucketLocks (bk_ev s) = None → ev_FinishedBuckets (bk_ev s) = None → ev_AffectedBuckets (bk_ev s) !! w = Some (b :: bs) →
  is_local s b → fetchAdditionalKeys s w dup = Crash Panic.
Proof.
  intros HL Hf Hw (Hb & bucket & m & Hbk & Hm). unfold fetchAdditionalKeys, getKeysForEventualMigration. rewrite Hw.
  cbn [scan_buckets]. unfold is_finished. rewrite Hf.
  rewrite (proj2 (idxZ_Ok _ _ bucket)), bind_Ok by done. unfold require_map. rewrite Hm, bind_Ok.
  unfold bucket_lock. by rewrite HL.
Qed.

(** A call for a worker that is done changes nothing. *)
Lemma scan_finished (t : KeyLookupTableV2) (ev : Eventual) w dup left buckets f fin :
  ev_FinishedBuckets ev = Some f → f !! w = Some fin → (∀ c, c ∈ buckets → c ∈ fin) →
  scan_buckets t ev w dup left buckets = Ok (ev, [], true).
Proof.
  intros Hf Hfin. induction buckets as [|b buckets IH]; intros Hall; [done|]. cbn [scan_buckets]. unfold is_finished.
  rewrite Hf, Hfin. simpl. rewrite bool_decide_eq_true_2 by (apply Hall; by left). apply IH. set_solver.
Qed.

Lemma fetch_done s w bs f fin dup :
  ev_AffectedBuckets (bk_ev s) !! w = Some bs → ev_FinishedBuckets (bk_ev s) = Some f → f !! w = Some fin →
  (∀ c, c ∈ bs → c ∈ fin) → w ∈ ev_DoneWorkers (bk_ev s) → fetchAdditionalKeys s w dup = Ok s.
Proof.
  intros Hb Hf Hfin Hall Hd. unfold fetchAdditionalKeys, getKeysForEventualMigration.
  rewrite Hb, (scan_finished _ _ _ _ _ _ f fin Hf Hfin Hall), bind_Ok. cbn [length Nat.eqb]. rewrite bind_Ok.
  unfold finish_worker. simpl. rewrite bool_decide_eq_true_2 by done. by destruct s.
Qed.

Lemma fetch_no_bucket s w dup :
  ev_AffectedBuckets (bk_ev s) !! w = Some [] → w ∈ ev_DoneWorkers (bk_ev s) → fetchAdditionalKeys s w dup = Ok s.
Proof.
  intros Hb Hd. unfold fetchAdditionalKeys, getKeysForEventualMigration. rewrite Hb. cbn [scan_buckets].
  rewrite bind_Ok. cbn [length Nat.eqb]. rewrite bind_Ok.
  unfold finish_worker. simpl. rewrite bool_decide_eq_true_2 by done. by destruct s.
Qed.
End Done.

(** ** Tasks *)

(** The leaving worker a task calls [fetchAdditionalKeys] for, if it leaves. *)
Definition task_worker (t : read_task) : option Z :=
  match t with fetch_from w _ | fetch_further w => Some w | _ => None end.

Definition fetched_keys (t : read_task) : list bytes :=
  match t with fetch_from _ wk => request_keys wk | _ => [] end.

Definition updated_keys (t : read_task) : list bytes :=
  match t with update_addr k _ => [k] | _ => [] end.

Section Tasks.
Context `{GoRange} `{TransportLaws B}.
Context (op n : Z) (s0 : ByKeyService B) (keys : keyed bytes) (KBW : gmap Z (keyed bytes)).
Context (Hwf : bk_wf op n s0) (Hfor : reachable_for s0 keys) (Hmore : reachable_more s0) (Hev : ev_ok s0).
Context (HK : ∀ w id, at2 KBW w id = grouped (keys_at (place s0) w) keys id) (Hused : ∀ w wk, KBW !! w = Some wk → wk ≠ ∅).
Implicit Types (s : ByKeyService B) (P : list read_task) (A : gset bytes) (D : gset Z).

Abbreviation me := (bk_WorkerID s0).
Abbreviation trig := (ev_Enabled (bk_ev s0)).
Abbreviation leavers := (ev_AffectedBuckets (bk_ev s0)).

(** The requested keys held elsewhere. *)
Definition needed : gset bytes := filter (λ k, place s0 k ≠ me) (list_to_set (request_keys keys)).

Definition wf_task (t : read_task) : Prop :=
  match t with
  | readLocalStateRoutine wk => KBW !! me = Some wk
  | fetch_from w wk => w ≠ me ∧ KBW !! w = Some wk
  | fetch_further w => trig = true ∧ is_Some (leavers !! w)
  | update_addr k b => k ∈ needed ∧ key_at op n k b
  end.

Lemma group_lookup w wk id : KBW !! w = Some wk → wk !! id = grouped (keys_at (place s0) w) keys id.
Proof. intros Hw. rewrite <-HK. unfold at2. by rewrite Hw. Qed.

Lemma group_keys w wk k : KBW !! w = Some wk → k ∈ request_keys wk ↔ k ∈ request_keys keys ∧ place s0 k = w.
Proof.
  intros Hw. rewrite !elem_of_request_keys. split.
  - intros (id & kl & Hkl & Hk). rewrite (group_lookup w wk id Hw) in Hkl. unfold grouped in Hkl.
    destruct (keys !! id) as [full|] eqn:Hfull; [|done].
    assert (kl = keys_at (place s0) w full) as -> by (by destruct (keys_at _ _ full); simplify_eq/=).
    apply list_elem_of_filter in Hk as [??]. eauto.
  - intros [(id & full & Hfull & Hk) Hpl]. exists id, (keys_at (place s0) w full).
    assert (k ∈ keys_at (place s0) w full) as Hin by by apply list_elem_of_filter.
    rewrite (group_lookup w wk id Hw). unfold grouped. rewrite Hfull. split; [|done].
    by destruct (keys_at _ _ full); [apply not_elem_of_nil in Hin|].
Qed.

Lemma group_some k : k ∈ request_keys keys → ∃ wk, KBW !! place s0 k = Some wk ∧ k ∈ request_keys wk.
Proof.
  intros Hk. pose proof Hk as (id & kl & Hkl & Hin)%elem_of_request_keys.
  assert (is_Some (KBW !! place s0 k)) as [wk Hwk].
  { specialize (HK (place s0 k) id). unfold at2, grouped in HK. rewrite Hkl in HK.
    assert (k ∈ keys_at (place s0) (place s0 k) kl) as Hin' by by apply list_elem_of_filter.
    destruct (KBW !! place s0 k); [done|]. by destruct (keys_at _ _ kl); [apply not_elem_of_nil in Hin'|]. }
  exists wk. split; [done|]. by apply (group_keys _ wk k Hwk).
Qed.

Lemma group_sub w wk : KBW !! w = Some wk → sub_request wk keys.
Proof.
  intros Hw id kl. rewrite (group_lookup w wk id Hw). unfold grouped.
  destruct (keys !! id) as [full|]; [|done]. intros Hkl.
  assert (keys_at (place s0) w full = kl) as Heq by (by destruct (keys_at _ _ full); simplify_eq/=).
  split; [by destruct (keys_at _ _ full); simplify_eq/=|].
  exists full. split; [done|]. rewrite <-Heq. apply sublist_filter.
Qed.

Lemma group_answers w wk : KBW !! w = Some wk →
  answers (place s0) (rd s0) keys w ((λ kl : list bytes, rd s0 w <$> kl) <$> wk).
Proof. intros Hw id. by rewrite lookup_fmap, (group_lookup w wk id Hw). Qed.

(** The state of a worker's group is fetched and flushed. *)
Lemma peer_of w wk : KBW !! w = Some wk → w ≠ me → ∃ b, bk_peers s0 !! w = Some b ∧ carries b wk.
Proof.
  intros Hw Hne. assert (is_Some (bk_peers s0 !! w)) as [b Hb].
  { destruct (map_choose wk) as (id & kl & Hkl); [by apply (Hused w)|].
    destruct (group_sub w wk Hw id kl Hkl) as [Hkl0 _]. destruct kl as [|k kl]; [done|].
    assert (k ∈ request_keys wk) as Hk by (apply elem_of_request_keys; exists id, (k :: kl); split; [done|by left]).
    apply (group_keys w wk k Hw) in Hk as [_ Hpl]. unfold place in Hpl.
    destruct (recorded s0 k) as [w'|] eqn:Hrec; simpl in Hpl; [|congruence]. subst w'.
    by destruct (bw_places _ _ _ Hwf k w Hrec). }
  exists b. split; [done|]. apply (Hfor w b wk Hb); [by apply (Hused w)|by apply (group_sub w)].
Qed.

(** A call for a leaving worker. *)
Lemma leave_step_open A D F U s w bs already :
  trig = true → ev_state s0 (needed ∪ A) D (bk_ev s) → w ∉ D → leavers !! w = Some bs →
  progress s0 F U s → U ⊆ needed ∪ A → already ⊆ needed →
  ∃ s' K D', fetchAdditionalKeys s w already = Ok s' ∧ progress s0 (K ∪ F) (K ∪ U) s' ∧
    ev_state s0 (needed ∪ (K ∪ A)) D' (bk_ev s') ∧ (D' = D ∨ D' = {[w]} ∪ D) ∧
    (w ∉ D' → ∃ k, k ∈ K ∧ recorded s0 k = Some w).
Proof.
  intros Htr Hst Hw Hbs Hp HU Hal. destruct (Hev Htr) as [Hsize _].
  pose proof Hst as (HA & _ & _ & _ & _ & Hrest).
  rewrite decide_False in Hrest by (intros ->; apply Hw, elem_of_dom; eauto).
  destruct Hrest as (_ & _ & L & f & HL & Hf & Hall).
  destruct (Hall w bs Hbs) as (Hne & [b Hb] & Hloc & fin & Hfin & _ & _).
  destruct (fetchAdditionalKeys_Ok op n s0 F U s w b bs L f fin already)
    as (s' & K & fin' & allDone & Hrun & Hp' & Hev' & Hsub & HKrec & Hcov & Hdone); try done; [by rewrite HA|].
  exists s', K, (if allDone then {[w]} ∪ D else D). split_and!; [done..| | |].
  - rewrite Hev'. apply (ev_state_step s0 _ D (bk_ev s) f w bs fin fin'); try done.
    + apply (ev_state_mono _ _ _ _ _ Hst). set_solver.
    + intros c Hc. destruct (Hcov c Hc) as [?|Hc']; [by left|right]. eapply covered_mono; [exact Hc'|clear -HU Hal; set_solver].
    + by destruct allDone.
  - destruct allDone; auto.
  - destruct allDone; [clear; set_solver|]. intros _. apply set_choose_L in Hdone as [k Hk]. eauto.
Qed.

(** The same for any leaving worker.  A call for one that is done changes
    nothing while the migration is on, and panics when it is over. *)
Lemma leave_step A D F U s w bs already :
  trig = true → ev_state s0 (needed ∪ A) D (bk_ev s) → leavers !! w = Some bs →
  progress s0 F U s → U ⊆ needed ∪ A → already ⊆ needed →
  (∃ s' K D', fetchAdditionalKeys s w already = Ok s' ∧ progress s0 (K ∪ F) (K ∪ U) s' ∧
    ev_state s0 (needed ∪ (K ∪ A)) D' (bk_ev s') ∧ (D' = D ∨ D' = {[w]} ∪ D) ∧
    (w ∉ D' → ∃ k, k ∈ K ∧ recorded s0 k = Some w)) ∨
  fetchAdditionalKeys s w already = Crash Panic ∧ w ∈ D ∧ bs ≠ [].
Proof.
  intros Htr Hst Hbs Hp HU Hal. destruct (decide (w ∈ D)) as [Hw|Hw]; [|left; by eapply leave_step_open].
  assert (Hsame : fetchAdditionalKeys s w already = Ok s → ∃ s' K D', fetchAdditionalKeys s w already = Ok s' ∧
    progress s0 (K ∪ F) (K ∪ U) s' ∧ ev_state s0 (needed ∪ (K ∪ A)) D' (bk_ev s') ∧ (D' = D ∨ D' = {[w]} ∪ D) ∧
    (w ∉ D' → ∃ k, k ∈ K ∧ recorded s0 k = Some w)).
  { intros Hrun. exists s, ∅, D. rewrite !(union_empty_l_L (C := gset bytes)). split_and!; [done..|by left|done]. }
  pose proof Hst as (HA & HD & _ & _ & _ & Hrest). rewrite <-HA in Hbs. case_decide as Hall.
  - destruct Hrest as (_ & _ & HL & Hf). destruct bs as [|c bs]; [left; apply Hsame; apply fetch_no_bucket; congruence|].
    right. split_and!; [|done..]. apply (fetch_after_reset s w c bs); [done..|].
    apply (progress_local _ _ _ _ _ Hp). destruct (Hev Htr) as [_ (_ & _ & _ & _ & _ & Hrest0)].
    case_decide; [destruct Hrest0 as [Hoff _]; congruence|].
    destruct Hrest0 as (_ & _ & L & f & _ & _ & Hmaps). rewrite HA in Hbs.
    destruct (Hmaps w _ Hbs) as (_ & _ & Hloc & _). by apply Hloc; left.
  - left. apply Hsame. destruct Hrest as (_ & _ & L & f & _ & Hf & Hmaps).
    destruct (Hmaps w bs) as (_ & _ & _ & fin & Hfin & _ & Hdone); [by rewrite <-HA|].
    apply (fetch_done s w bs f fin); try done; [by apply Hdone|congruence].
Qed.

(** The workers done before the read. *)
Abbreviation done0 := (ev_DoneWorkers (bk_ev s0)).

(** Why a read may panic: a worker with affected buckets was done before. *)
Definition late_call : Prop := trig = true ∧ ∃ w bs, w ∈ done0 ∧ leavers !! w = Some bs ∧ bs ≠ [].

Definition tasks_inv P (st : ByKeyService B * gmap Z (keyed (option bytes))) : Prop :=
  ∃ A D,
    progress s0 (list_to_set (P ≫= fetched_keys) ∪ A) (list_to_set (P ≫= updated_keys) ∪ A) st.1 ∧
    (∀ w wr, st.2 !! w = Some wr → answers (place s0) (rd s0) keys w wr) ∧
    (∀ w wk, worker_task me (w, wk) ∈ P → is_Some (st.2 !! w)) ∧
    if trig
    then ev_state s0 (needed ∪ A) D (bk_ev st.1) ∧ (∀ w, w ∈ D → w ∈ done0 ∨ w ∈ omap task_worker P) ∧
      ∀ w, w ∈ omap task_worker P → is_Some (leavers !! w) → w ∉ D → ∃ k, k ∈ A ∧ recorded s0 k = Some w
    else A = ∅ ∧ bk_ev st.1 = bk_ev s0.

Lemma progress_eq F U F' U' s : progress s0 F U s → F = F' → U = U' → progress s0 F' U' s.
Proof. by intros Hp <- <-. Qed.

Lemma set_snoc (f : read_task → list bytes) P t A :
  list_to_set ((P ++ [t]) ≫= f) ∪ A = list_to_set (f t) ∪ (list_to_set (P ≫= f) ∪ A) :> gset bytes.
Proof. rewrite bind_app, list_to_set_app_L. cbn [mbind list_bind]. rewrite app_nil_r. set_solver. Qed.

Lemma updated_needed P : Forall wf_task P → list_to_set (P ≫= updated_keys) ⊆ needed.
Proof.
  intros HP k (t & Hk & Ht)%elem_of_list_to_set%list_elem_of_bind. rewrite Forall_forall in HP. specialize (HP t Ht).
  destruct t; simpl in *; [by apply not_elem_of_nil in Hk..|]. apply list_elem_of_singleton in Hk as ->. apply HP.
Qed.

(** Results of the workers so far. *)
Lemma answered P t (R R' : gmap Z (keyed (option bytes))) w wk :
  worker_task me (w, wk) = t → KBW !! w = Some wk → R' = <[w := (λ kl : list bytes, rd s0 w <$> kl) <$> wk]> R →
  (∀ w' wr, R !! w' = Some wr → answers (place s0) (rd s0) keys w' wr) →
  (∀ w' wk', worker_task me (w', wk') ∈ P → is_Some (R !! w')) →
  (∀ w' wr, R' !! w' = Some wr → answers (place s0) (rd s0) keys w' wr) ∧
  (∀ w' wk', worker_task me (w', wk') ∈ P ++ [t] → is_Some (R' !! w')).
Proof.
  intros Ht Hw -> HR HP. split.
  - intros w' wr. rewrite lookup_insert_Some. intros [[<- <-]|[_ ?]]; [by apply group_answers|eauto].
  - intros w' wk' [Hin|Hin%list_elem_of_singleton]%elem_of_app; rewrite lookup_insert_is_Some.
    + destruct (decide (w = w')); eauto.
    + left. rewrite <-Ht in Hin. unfold worker_task in Hin. simpl in Hin.
      destruct (Z.eqb_spec w' me), (Z.eqb_spec w me); congruence.
Qed.

Lemma unanswered P t (R : gmap Z (keyed (option bytes))) :
  (∀ w wk, worker_task me (w, wk) ≠ t) → (∀ w wk, worker_task me (w, wk) ∈ P → is_Some (R !! w)) →
  ∀ w wk, worker_task me (w, wk) ∈ P ++ [t] → is_Some (R !! w).
Proof. intros Ht HP w wk [?|?%list_elem_of_singleton]%elem_of_app; [eauto|]. by destruct (Ht w wk). Qed.

Lemma run_local P wk st :
  tasks_inv P st → KBW !! me = Some wk →
  ∃ st', run_task trig st (readLocalStateRoutine wk) = Ok st' ∧ tasks_inv (P ++ [readLocalStateRoutine wk]) st'.
Proof.
  destruct st as [s R]. intros (A & D & Hp & HR & HP & Hrest) Hwk. cbn [fst snd] in *. cbn [run_task].
  rewrite (readLocalState_Ok _ _ (pr_ok _ _ _ _ Hp)), bind_Ok. eexists. split; [done|].
  assert (read_all (data_of (bk_Backend s)) <$> wk = (λ kl : list bytes, rd s0 me <$> kl) <$> wk) as ->.
  { apply map_fmap_ext. intros id kl Hkl. unfold read_all, rd. rewrite Z.eqb_refl. apply list_fmap_ext. intros i k Hk.
    rewrite (pr_data _ _ _ _ Hp), bool_decide_eq_false_2; [done|]. intros HF.
    apply (pr_F _ _ _ _ Hp) in HF. destruct HF. apply (group_keys me wk k Hwk), elem_of_request_keys.
    exists id, kl. split; [done|]. by eapply list_elem_of_lookup_2. }
  rewrite (pr_self _ _ _ _ Hp : bk_WorkerID s = me).
  destruct (answered P (readLocalStateRoutine wk) R (<[me := (λ kl : list bytes, rd s0 me <$> kl) <$> wk]> R) me wk)
    as [HR' HP']; [unfold worker_task; simpl; by rewrite Z.eqb_refl|done..|].
  exists A, D. cbn [fst snd]. split_and!; [|done..|].
  - rewrite !set_snoc. eapply progress_eq; [exact Hp|set_solver..].
  - rewrite omap_app. cbn [omap list_omap task_worker]. by rewrite app_nil_r.
Qed.

Lemma run_update P k b st :
  tasks_inv P st → k ∈ needed → key_at op n k b →
  ∃ st', run_task trig st (update_addr k b) = Ok st' ∧ tasks_inv (P ++ [update_addr k b]) st'.
Proof.
  destruct st as [s R]. intros (A & D & Hp & HR & HP & Hrest) [Hpl Hk]%elem_of_filter Hat. cbn [fst snd] in *. cbn [run_task].
  unfold place in Hpl. destruct (recorded s0 k) as [w|] eqn:Hrec; simpl in Hpl; [|done].
  destruct (progress_update op n s0 _ _ s k b w Hwf Hp Hat Hrec Hpl) as (t & -> & Hp'). rewrite bind_Ok.
  eexists. split; [done|]. exists A, D. cbn [fst snd]. split_and!; [|done|apply unanswered; [|done]|].
  - rewrite !set_snoc. eapply progress_eq; [exact Hp'|set_solver..].
  - intros w' wk. unfold worker_task. by destruct (_ =? _)%Z.
  - rewrite omap_app. cbn [omap list_omap task_worker]. by rewrite app_nil_r.
Qed.

(** The workers a prefix of the tasks has called for. *)
Definition called P A D : Prop :=
  (∀ w, w ∈ D → w ∈ done0 ∨ w ∈ omap task_worker P) ∧
  ∀ w, w ∈ omap task_worker P → is_Some (leavers !! w) → w ∉ D → ∃ k, k ∈ A ∧ recorded s0 k = Some w.

Lemma omap_snoc P t w : task_worker t = Some w → omap task_worker (P ++ [t]) = omap task_worker P ++ [w].
Proof. intros Ht. rewrite omap_app. cbn [omap list_omap]. by rewrite Ht. Qed.

Lemma called_leave P t A D K D' w :
  called P A D → task_worker t = Some w → D' = D ∨ D' = {[w]} ∪ D →
  (w ∉ D' → ∃ k, k ∈ K ∧ recorded s0 k = Some w) → called (P ++ [t]) (K ∪ A) D'.
Proof.
  intros [HD HA] Ht HD' HK'. unfold called. rewrite (omap_snoc P t w Ht). split.
  - intros w' Hw'. rewrite elem_of_app, list_elem_of_singleton. specialize (HD w').
    destruct HD' as [->| ->]; [tauto|]. apply elem_of_union in Hw' as [->%elem_of_singleton|?]; tauto.
  - intros w' [Hin| ->%list_elem_of_singleton]%elem_of_app Hl Hw'.
    + destruct (HA w' Hin Hl) as (k & ? & ?); [destruct HD'; set_solver|]. exists k. set_solver.
    + destruct (HK' Hw') as (k & ? & ?). exists k. set_solver.
Qed.

Lemma called_other P t A D w :
  called P A D → task_worker t = Some w → leavers !! w = None → called (P ++ [t]) A D.
Proof.
  intros [HD HA] Ht Hw. unfold called. rewrite (omap_snoc P t w Ht). split.
  - intros w' Hw'. rewrite elem_of_app. destruct (HD w' Hw'); auto.
  - intros w' [Hin| ->%list_elem_of_singleton]%elem_of_app Hl Hw'; [by apply HA|]. rewrite Hw in Hl. by destruct Hl.
Qed.

Lemma run_further P w st :
  tasks_inv P st → Forall wf_task P → w ∉ omap task_worker P → wf_task (fetch_further w) →
  (∃ st', run_task trig st (fetch_further w) = Ok st' ∧ tasks_inv (P ++ [fetch_further w]) st') ∨
  run_task trig st (fetch_further w) = Crash Panic ∧ late_call.
Proof.
  destruct st as [s R]. intros (A & D & Hp & HR & HP & Hrest) HPwf Hw [Htr [bs Hbs]]. cbn [fst snd] in *.
  cbn [run_task]. rewrite Htr in Hrest. destruct Hrest as (Hst & HD & HA).
  destruct (leave_step A D _ _ s w bs ∅ Htr Hst Hbs Hp)
    as [(s' & K & D' & -> & Hp' & Hst' & HD' & HK')|(-> & HwD & Hbs0)]; [|done|..].
  { pose proof (updated_needed P HPwf). set_solver. }
  2:{ right. split; [done|]. split; [done|]. exists w, bs. destruct (HD w HwD); done. }
  left. rewrite bind_Ok. eexists. split; [done|]. exists (K ∪ A), D'. cbn [fst snd]. rewrite Htr.
  split_and!; [|done|apply unanswered; [|done]|done|..].
  - rewrite !set_snoc. eapply progress_eq; [exact Hp'|set_solver..].
  - intros w' wk. unfold worker_task. by destruct (_ =? _)%Z.
  - by apply (called_leave P (fetch_further w) A D K D' w).
  - by apply (called_leave P (fetch_further w) A D K D' w).
Qed.

(** The executor of another worker's group. *)
Lemma executor_Ok P A D s w wk :
  progress s0 (list_to_set (P ≫= fetched_keys) ∪ A) (list_to_set (P ≫= updated_keys) ∪ A) s →
  (if trig then ev_state s0 (needed ∪ A) D (bk_ev s) ∧ called P A D else A = ∅ ∧ bk_ev s = bk_ev s0) →
  Forall wf_task P → w ∉ omap task_worker P → wf_task (fetch_from w wk) →
  (∃ s' vals A' D', byKeyStateFetchExecutor s w wk trig = Ok (s', vals) ∧
    received vals = (λ kl : list bytes, rd s0 w <$> kl) <$> wk ∧
    progress s0 (list_to_set ((P ++ [fetch_from w wk]) ≫= fetched_keys) ∪ A')
      (list_to_set ((P ++ [fetch_from w wk]) ≫= updated_keys) ∪ A') s' ∧
    if trig then ev_state s0 (needed ∪ A') D' (bk_ev s') ∧ called (P ++ [fetch_from w wk]) A' D'
    else A' = ∅ ∧ bk_ev s' = bk_ev s0) ∨
  byKeyStateFetchExecutor s w wk trig = Crash Panic ∧ late_call.
Proof.
  intros Hp Hrest HPwf Hw [Hne Hwk]. unfold byKeyStateFetchExecutor, peer.
  destruct (peer_of w wk Hwk Hne) as (b & Hb & Hc). rewrite (pr_peers _ _ _ _ Hp), Hb, bind_Ok.
  destruct (fetch_stage op n s0 _ _ s w wk b Hwf Hp Hb Hne Hc) as (vals & b' & -> & Hrec & Hrun & Hp1).
  { intros k Hk. by apply (group_keys w wk k Hwk). }
  rewrite bind_Ok, Hrun, bind_Ok. cbn [bk_set_backend bk_ev].
  destruct (ev_Enabled (bk_ev s0)) eqn:Htr; cbn [andb].
  2:{ left. rewrite bind_Ok. eexists _, vals, A, D. split_and!; [done..| | |apply Hrest].
      - rewrite !set_snoc. eapply progress_eq; [exact Hp1|set_solver..].
      - apply Hrest. }
  destruct Hrest as (Hst & Hcall). pose proof Hst as (HAff & _). rewrite HAff.
  destruct (leavers !! w) as [bs|] eqn:Hbs.
  - rewrite bool_decide_eq_true_2 by eauto.
    destruct (leave_step A D _ _ (bk_set_backend s b') w bs (list_to_set (request_keys wk)) Htr Hst Hbs Hp1)
      as [(s' & K & D' & Hrun' & Hp' & Hst' & HD' & HK')|(Hrun' & HwD & Hbs0)].
    { pose proof (updated_needed P HPwf). set_solver. }
    { intros k [Hk Hpl]%elem_of_list_to_set%(group_keys w wk k Hwk). apply elem_of_filter. rewrite elem_of_list_to_set. by subst w. }
    2:{ right. cbn [bk_set_backend] in Hrun'. rewrite Hrun'. split; [done|]. split; [done|]. exists w, bs.
        destruct (proj1 Hcall w HwD); done. }
    left. cbn [bk_set_backend] in Hrun'. rewrite Hrun', bind_Ok. eexists s', vals, (K ∪ A), D'. split_and!; [done..| | |].
    + rewrite !set_snoc. eapply progress_eq; [exact Hp'|set_solver..].
    + done.
    + by apply (called_leave P _ A D K D' w).
  - rewrite bool_decide_eq_false_2, bind_Ok by by intros [? ?].
    left. eexists _, vals, A, D. split_and!; [done..| |done|].
    + rewrite !set_snoc. eapply progress_eq; [exact Hp1|set_solver..].
    + by apply (called_other P _ A D w).
Qed.

Lemma run_fetch P w wk st :
  tasks_inv P st → Forall wf_task P → w ∉ omap task_worker P → wf_task (fetch_from w wk) →
  (∃ st', run_task trig st (fetch_from w wk) = Ok st' ∧ tasks_inv (P ++ [fetch_from w wk]) st') ∨
  run_task trig st (fetch_from w wk) = Crash Panic ∧ late_call.
Proof.
  destruct st as [s R]. intros (A & D & Hp & HR & HP & Hrest) HPwf Hw Hwt. cbn [fst snd] in *. cbn [run_task].
  destruct (executor_Ok P A D s w wk Hp Hrest HPwf Hw Hwt) 
    as [(s' & vals & A' & D' & -> & Hrec & Hp' & Hrest')|[-> Hlate]]; [|by right].
  left. rewrite bind_Ok, Hrec. eexists. split; [done|]. destruct Hwt as [Hne Hwk].
  destruct (answered P (fetch_from w wk) R (<[w := (λ kl : list bytes, rd s0 w <$> kl) <$> wk]> R) w wk)
    as [HR' HP']; [|done..|].
  { unfold worker_task. simpl. by destruct (Z.eqb_spec w me). }
  exists A', D'. cbn [fst snd]. done.
Qed.

Lemma run_task_Ok P t st :
  tasks_inv P st → Forall wf_task P → wf_task t → NoDup (omap task_worker (P ++ [t])) →
  (∃ st', run_task trig st t = Ok st' ∧ tasks_inv (P ++ [t]) st') ∨ run_task trig st t = Crash Panic ∧ late_call.
Proof.
  intros Hinv HP Ht Hnd. rewrite omap_app in Hnd.
  assert (Hw : ∀ w, task_worker t = Some w → w ∉ omap task_worker P).
  { intros w Hw Hin. apply NoDup_app in Hnd as (_ & Hnd & _). apply (Hnd w Hin). simpl. rewrite Hw. by left. }
  destruct t as [wk|w wk|w|k b].
  - left. by apply run_local.
  - apply run_fetch; [done..| |done]. by apply Hw.
  - apply run_further; [done..| |done]. by apply Hw.
  - left. destruct Ht. by apply run_update.
Qed.

(** Any order of the tasks succeeds, but for a late call. *)
Lemma run_tasks (T : list read_task) :
  Forall wf_task T → NoDup (omap task_worker T) →
  (∃ st, foldM (run_task trig) (s0, ∅) T = Ok st ∧ tasks_inv T st) ∨
  foldM (run_task trig) (s0, ∅) T = Crash Panic ∧ late_call.
Proof.
  intros HT Hnd. apply foldM_total_or.
  - exists ∅, done0. cbn [fst snd]. split_and!.
    + eapply progress_eq; [by eapply progress_refl|set_solver..].
    + intros w wr Hw. by apply lookup_empty_Some in Hw.
    + by intros w wk ?%not_elem_of_nil.
    + destruct (ev_Enabled (bk_ev s0)) eqn:Htr; [|done]. destruct (Hev Htr) as [_ Hst].
      split_and!; [|by left|by intros w ?%not_elem_of_nil]. apply (ev_state_mono _ _ _ _ _ Hst). set_solver.
  - intros P t st [suf ->] Hinv. rewrite omap_app in Hnd. apply NoDup_app in Hnd as (Hnd & _ & _).
    apply Forall_app in HT as [HT _]. apply Forall_app in HT as [HP Ht]. apply Forall_cons in Ht as [Ht _]. by apply run_task_Ok.
Qed.

(** *** The tasks of a read *)

Context (IT : gmap Z (keyed nat)) (bids : list Z).
Context (HIT : ∀ w id, at2 IT w id = grouped (places_at (place s0) w) keys id).
Context (Hown : ∀ id kl, keys !! id = Some kl → Forall2 (own_key op n s0) kl bids).

Definition with_bucket (k : bytes) : bytes * Z := (k, Z.of_nat (key_bucket k)).

Lemma state_updates_Ok w id kl : keys !! id = Some kl →
  state_updates bids (places_at (place s0) w kl) (keys_at (place s0) w kl) =
    Ok (with_bucket <$> keys_at (place s0) w kl).
Proof.
  intros Hkl. unfold state_updates.
  rewrite (mapR_total _ (λ x, with_bucket x.2)).
  - f_equal. rewrite fmap_imap. exact (imap_const with_bucket _).
  - intros [j k] (j' & k' & [= -> ->] & Hj)%elem_of_lookup_imap. cbn [fst snd].
    destruct (Forall2_lookup_l _ _ _ _ _ (keys_at_places _ _ _) Hj) as (i & Hi & Hk).
    rewrite (proj2 (idx_Ok _ _ _) Hi), bind_Ok.
    destruct (Forall2_lookup_l _ _ _ _ _ (Hown id kl Hkl) Hk) as (b & Hb & [Hat _]).
    rewrite (proj2 (idx_Ok _ _ _) Hb), bind_Ok. unfold with_bucket.
    pose proof (bw_n _ _ _ Hwf). by rewrite (key_at_bucket op n k' b) by (done || lia).
Qed.

Lemma worker_updates_Ok w wk : KBW !! w = Some wk →
  worker_updates bids (default ∅ (IT !! w)) wk = Ok (with_bucket <$> (go_range wk ≫= snd)).
Proof.
  intros Hw. unfold worker_updates.
  rewrite (mapR_total _ (λ x, with_bucket <$> x.2)).
  - rewrite bind_Ok. f_equal. induction (go_range wk) as [|x l IHl]; [done|].
    rewrite fmap_cons, bind_cons, fmap_app. simpl. by rewrite IHl.
  - intros [id kl] Hin%elem_of_go_range. rewrite (group_lookup w wk id Hw) in Hin. unfold grouped in Hin.
    destruct (keys !! id) as [full|] eqn:Hfull; [|done]. cbn [fst snd].
    assert (kl = keys_at (place s0) w full) as -> by (by destruct (keys_at _ _ full); simplify_eq/=).
    rewrite (grouped_places (place s0) keys IT HIT w id full Hfull). by apply (state_updates_Ok w id).
Qed.

Lemma updates_Ok : ∃ updates, updateAddrForFetchedNeededRemoteKeys s0 KBW IT bids = Ok updates ∧
  ∀ u, u ∈ updates ↔ u.1 ∈ needed ∧ u = with_bucket u.1.
Proof.
  unfold updateAddrForFetchedNeededRemoteKeys.
  rewrite (mapR_total _ (λ x, if (x.1 =? me)%Z then [] else with_bucket <$> (go_range x.2 ≫= snd))).
  2:{ intros [w wk] Hin%elem_of_go_range. cbn [fst snd]. destruct (w =? me)%Z; [done|]. by apply worker_updates_Ok. }
  rewrite bind_Ok. eexists. split; [done|]. intros u. rewrite elem_of_concat. split.
  - intros (l & Hu & ([w wk] & -> & Hin%elem_of_go_range)%list_elem_of_fmap). cbn [fst snd] in Hu.
    destruct (Z.eqb_spec w me) as [->|Hw]; [by apply not_elem_of_nil in Hu|].
    apply list_elem_of_fmap in Hu as (k & -> & Hk). simpl. split; [|done].
    apply go_range_request_keys in Hk. apply (group_keys w wk k Hin) in Hk as [Hk Hpl].
    apply elem_of_filter. rewrite elem_of_list_to_set. by subst w.
  - intros [[Hpl Hk%elem_of_list_to_set]%elem_of_filter ->]. destruct u as [k b]. cbn [fst] in *.
    destruct (group_some k Hk) as (wk & Hwk & Hin).
    exists (with_bucket <$> (go_range wk ≫= snd)). split.
    + apply list_elem_of_fmap. exists k. split; [done|]. by apply go_range_request_keys.
    + apply list_elem_of_fmap. exists (place s0 k, wk). cbn [fst snd]. rewrite elem_of_go_range. split; [|done].
      by destruct (Z.eqb_spec (place s0 k) me).
Qed.

Context (updates : list (bytes * Z)) (Hup : ∀ u, u ∈ updates ↔ u.1 ∈ needed ∧ u = with_bucket u.1).

Definition read_tasks : list read_task :=
  (worker_task me <$> go_range KBW) ++
  (if trig then fetch_further <$> filter (λ w, KBW !! w = None) (go_range leavers).*1 else []) ++
  ((λ u : bytes * Z, update_addr u.1 u.2) <$> updates).

Lemma needed_at k : k ∈ needed → key_at op n k (Z.of_nat (key_bucket k)).
Proof.
  intros [_ Hk%elem_of_list_to_set]%elem_of_filter. apply elem_of_request_keys in Hk as (id & kl & Hkl & Hk).
  apply list_elem_of_lookup in Hk as [i Hi]. destruct (Forall2_lookup_l _ _ _ _ _ (Hown id kl Hkl) Hi) as (b & _ & [Hat _]).
  pose proof (bw_n _ _ _ Hwf). by rewrite <-(key_at_bucket op n k b) by (done || lia).
Qed.

Lemma worker_task_wf x : KBW !! x.1 = Some x.2 → wf_task (worker_task me x).
Proof.
  destruct x as [w wk]. intros Hw. unfold worker_task. simpl in *. by destruct (Z.eqb_spec w me) as [->|].
Qed.

Lemma read_tasks_wf : Forall wf_task read_tasks.
Proof.
  unfold read_tasks. rewrite !Forall_app. split_and!; apply Forall_forall; intros t Ht.
  - apply list_elem_of_fmap in Ht as ([w wk] & -> & Hin%elem_of_go_range). by apply worker_task_wf.
  - destruct trig eqn:Htr; [|by apply not_elem_of_nil in Ht].
    apply list_elem_of_fmap in Ht as (w & -> & [_ Hin]%list_elem_of_filter). apply go_range_keys in Hin. done.
  - apply list_elem_of_fmap in Ht as (u & -> & [Hn ->]%Hup). simpl. split; [done|]. by apply needed_at.
Qed.

(** No two tasks call for the same worker. *)
Lemma read_tasks_NoDup : NoDup (omap task_worker read_tasks).
Proof.
  unfold read_tasks. rewrite !omap_app.
  assert (Hws : omap task_worker (worker_task me <$> go_range KBW) = filter (λ w, w ≠ me) (go_range KBW).*1).
  { induction (go_range KBW) as [|[w wk] l IH]; [done|]. rewrite !fmap_cons, filter_cons. cbn [fst omap list_omap].
    unfold worker_task at 1. cbn [fst snd]. destruct (Z.eqb_spec w me) as [->|Hw]; simpl.
    - rewrite decide_False by (intros Hc; by apply Hc). exact IH.
    - rewrite decide_True by done. f_equal. exact IH. }
  assert (Hfs : ∀ l : list Z, omap task_worker (fetch_further <$> l) = l).
  { induction l as [|w l IH]; [done|]. simpl. f_equal. exact IH. }
  assert (Hus : omap task_worker ((λ u : bytes * Z, update_addr u.1 u.2) <$> updates) = []).
  { clear. induction updates as [|u l IH]; [done|]. exact IH. }
  rewrite Hws, Hus, app_nil_r. apply NoDup_app. split_and!.
  - apply NoDup_filter, NoDup_go_range.
  - intros w [_ Hw%go_range_keys]%list_elem_of_filter Hin. destruct trig; [|by apply not_elem_of_nil in Hin].
    rewrite Hfs in Hin. apply list_elem_of_filter in Hin as [Hnone _]. rewrite Hnone in Hw. by destruct Hw.
  - destruct trig; [|constructor]. rewrite Hfs. apply NoDup_filter, NoDup_go_range.
Qed.

(** What the tasks of a read fetch and record. *)
Lemma read_tasks_fetched : list_to_set (read_tasks ≫= fetched_keys) = needed.
Proof.
  apply set_eq. intros k. rewrite elem_of_list_to_set, list_elem_of_bind. split.
  - intros (t & Hk & Ht). pose proof read_tasks_wf as Hall. rewrite Forall_forall in Hall. specialize (Hall t Ht).
    destruct t as [|w wk| |]; simpl in *; try by apply not_elem_of_nil in Hk. destruct Hall as [Hw Hwk].
    apply (group_keys w wk k Hwk) in Hk as [Hk <-]. apply elem_of_filter. by rewrite elem_of_list_to_set.
  - intros [Hpl Hk%elem_of_list_to_set]%elem_of_filter. destruct (group_some k Hk) as (wk & Hwk & Hin).
    exists (fetch_from (place s0 k) wk). split; [done|]. unfold read_tasks. apply elem_of_app. left.
    apply list_elem_of_fmap. exists (place s0 k, wk). rewrite elem_of_go_range. split; [|done].
    unfold worker_task. simpl. by destruct (Z.eqb_spec (place s0 k) me).
Qed.

Lemma read_tasks_updated : list_to_set (read_tasks ≫= updated_keys) = needed.
Proof.
  apply set_eq. intros k. rewrite elem_of_list_to_set, list_elem_of_bind. split.
  - intros (t & Hk & Ht). pose proof read_tasks_wf as Hall. rewrite Forall_forall in Hall. specialize (Hall t Ht).
    destruct t; simpl in *; try by apply not_elem_of_nil in Hk. apply list_elem_of_singleton in Hk as ->. apply Hall.
  - intros Hk. exists (update_addr k (Z.of_nat (key_bucket k))). split; [by left|].
    unfold read_tasks. rewrite !elem_of_app. do 2 right. apply list_elem_of_fmap. exists (with_bucket k).
    split; [done|]. by apply Hup.
Qed.

Lemma read_tasks_called w : trig = true → is_Some (leavers !! w) → w ≠ me → w ∈ omap task_worker read_tasks.
Proof.
  intros Htr Hw Hne. apply list_elem_of_omap. destruct (KBW !! w) as [wk|] eqn:Hwk.
  - exists (fetch_from w wk). split; [|done]. unfold read_tasks. apply elem_of_app. left.
    apply list_elem_of_fmap. exists (w, wk). rewrite elem_of_go_range. split; [|done].
    unfold worker_task. simpl. by destruct (Z.eqb_spec w me).
  - exists (fetch_further w). split; [|done]. unfold read_tasks. rewrite !elem_of_app. right. left. rewrite Htr.
    apply list_elem_of_fmap. exists w. split; [done|]. apply list_elem_of_filter. split; [done|]. by apply go_range_keys.
Qed.
End Tasks.
