(* ===== verification/ByKeyApi.v ===== *)
(** * Lazy-by-key migration: the properties

    A read of the by-key service returns every requested value, keeps all
    values and makes the requested keys local, whatever the order of its
    goroutines; writes go to the local store and are recorded; the eventual
    migration from a leaving worker completes. *)

From stdpp Require Import prelude gmap strings list.
From Stdlib Require Import ZArith Lia.
From S2P Require Import Prelude Partition PartitionTable KeyMap Backend StateService Cluster NoMigration TcpFrames ByKey ByKeyRead ByKeyMigration ByKeyTasks.

Section Read.
Context `{GoRange} `{Schedule} `{TransportLaws B}.
Implicit Types (s : ByKeyService B) (keys : keyed bytes) (bids : list Z).

Abbreviation leavers s := (ev_AffectedBuckets (bk_ev s)).

(** A request for keys of the worker's buckets, of a service that can serve
    it. *)
Record readable (op n : Z) s keys bids : Prop := {
  rq_wf : bk_wf op n s;
  rq_keys : ∀ id kl, keys !! id = Some kl → Forall2 (own_key op n s) kl bids;
  rq_fetch : reachable_for s keys;
  rq_more : reachable_more s;
  rq_ev : ev_ok s
}.

(** What a read does: [A] are the keys taken along. *)
Lemma read_Ok op n s keys bids :
  readable op n s keys bids →
  (∃ s' A, bk_GetManyMultiState s keys bids =
      Ok (s', (λ kl : list bytes, (λ k, rd s (place s k) k) <$> kl) <$> keys) ∧
    progress s (needed s keys ∪ A) (needed s keys ∪ A) s' ∧
    if ev_Enabled (bk_ev s)
    then ∃ D, ev_state s (needed s keys ∪ A) D (bk_ev s') ∧
      ∀ w, is_Some (leavers s !! w) → w ≠ bk_WorkerID s → w ∉ D → ∃ k, k ∈ A ∧ recorded s k = Some w
    else A = ∅ ∧ bk_ev s' = bk_ev s) ∨
  bk_GetManyMultiState s keys bids = Crash Panic ∧ late_call s.
Proof.
  intros [Hwf Hown Hfor Hmore Hev]. unfold bk_GetManyMultiState, remoteReadWithByKeyMigration.
  destruct (groupKeysByWorker_Ok s (place s) keys bids) as (KBW & IT & -> & Hused & Hspec).
  { intros id kl Hkl. eapply Forall2_impl; [exact (Hown id kl Hkl)|]. intros k b Hk. by apply (GetWorkerID_place op n). }
  rewrite bind_Ok. assert (HK := λ w id, proj1 (Hspec w id)). assert (HI := λ w id, proj2 (Hspec w id)).
  destruct (updates_Ok op n s keys KBW Hwf HK IT bids HI Hown) as (updates & -> & Hup). rewrite bind_Ok.
  fold (read_tasks s KBW updates). set (T := read_tasks s KBW updates).
  assert (schedule T ≡ₚ T) as Hperm by apply schedule_perm.
  destruct (run_tasks op n s keys KBW Hwf Hfor Hmore Hev HK Hused (schedule T))
    as [([s' R] & -> & A & D & Hp & HR & HP & Hrest)|[-> Hlate]]; [..|by right].
  { rewrite Hperm. by eapply read_tasks_wf. }
  { rewrite Hperm. by eapply read_tasks_NoDup. }
  left. rewrite bind_Ok. cbn [fst snd] in *.
  rewrite (mergeLazyByKey_Ok (place s) (rd s) keys IT HI R HR), bind_Ok.
  2:{ intros id kl k Hkl Hk. destruct (group_some s keys KBW HK k) as (wk & Hwk & _).
      { apply elem_of_request_keys. eauto. }
      apply (HP _ wk). rewrite Hperm. unfold T, read_tasks. apply elem_of_app. left.
      apply list_elem_of_fmap. exists (place s k, wk). by rewrite elem_of_go_range. }
  exists s', A. split; [done|]. split.
  - assert (Hset : ∀ f, list_to_set (schedule T ≫= f) = list_to_set (T ≫= f) :> gset bytes).
    { intros f. apply list_to_set_perm_L. by rewrite Hperm. }
    rewrite !Hset in Hp. unfold T in Hp. rewrite (read_tasks_fetched op n s keys KBW Hwf HK bids Hown updates Hup) in Hp.
    by rewrite (read_tasks_updated op n s keys KBW Hwf bids Hown updates Hup) in Hp.
  - destruct (ev_Enabled (bk_ev s)) eqn:Htr; [|done]. destruct Hrest as (Hst & _ & Hcall). exists D. split; [done|].
    intros w Hw Hne HwD. apply Hcall; [|done..]. rewrite Hperm. by eapply read_tasks_called.
Qed.

(** *** After a read *)

Lemma leaver_other s w : ev_ok s → ev_Enabled (bk_ev s) = true → is_Some (leavers s !! w) → w ≠ bk_WorkerID s.
Proof.
  intros Hev Htr [bs Hbs]. destruct (Hev Htr) as (_ & HA & _ & _ & _ & _ & Hrest).
  destruct (decide _); [destruct Hrest; congruence|]. destruct Hrest as (_ & _ & L & f & _ & _ & Hall). by apply (Hall w bs).
Qed.

Lemma covered_after s X s' w c :
  progress s X X s' → w ≠ bk_WorkerID s → covered s w X c → covered s' w ∅ c.
Proof.
  intros Hp Hw Hc k -> Hk. apply (recorded_still _ _ _ _ _ _ Hp Hw) in Hk as [Hk HX]. destruct HX. by apply Hc.
Qed.

(** Once the read is over, its moves are part of the migration's state. *)
Lemma ev_state_after s X s' D :
  (∀ w, is_Some (leavers s !! w) → w ≠ bk_WorkerID s) → progress s X X s' →
  ev_state s X D (bk_ev s') → ev_state s' ∅ D (bk_ev s').
Proof.
  intros Hne Hp (HA & HD & Hsub & Hrem & Hcov & Hrest). unfold ev_state. rewrite !HA. split_and!; [done..| |].
  - intros w bs c Hw Hbs Hc. eapply covered_after; [done|by eauto|by eapply Hcov].
  - case_decide; [done|]. destruct Hrest as (? & ? & L & f & HL & Hf & Hall). split_and!; [done..|].
    exists L, f. split_and!; [done..|]. rewrite HA. intros w bs Hbs.
    destruct (Hall w bs Hbs) as (Hw & Hpe & Hl & fin & Hfin & Hc & HwD).
    rewrite (pr_self _ _ _ _ Hp), (pr_peers _ _ _ _ Hp). split_and!; [done..| |].
    + intros c Hin. destruct (Hl c Hin). split; [done|]. by apply (progress_local _ _ _ _ _ Hp).
    + exists fin. split_and!; [done| |done]. intros c Hin. eapply covered_after; [done..|by apply Hc].
Qed.

(** A read in any order leaves a service of which the same is true. *)
Lemma read_after op n s keys bids :
  readable op n s keys bids →
  (∃ s' A, bk_GetManyMultiState s keys bids =
      Ok (s', (λ kl : list bytes, (λ k, rd s (place s k) k) <$> kl) <$> keys) ∧
    progress s (needed s keys ∪ A) (needed s keys ∪ A) s' ∧ bk_wf op n s' ∧ ev_ok s' ∧
    if ev_Enabled (bk_ev s)
    then ∃ D, ev_state s' ∅ D (bk_ev s') ∧ leavers s' = leavers s ∧
      ∀ w, is_Some (leavers s !! w) → w ∉ D → ∃ k, k ∈ A ∧ recorded s k = Some w
    else bk_ev s' = bk_ev s) ∨
  bk_GetManyMultiState s keys bids = Crash Panic ∧ late_call s.
Proof.
  intros Hr. destruct (read_Ok op n s keys bids Hr) as [(s' & A & Hrun & Hp & Hrest)|]; [left|by right].
  pose proof (rq_wf _ _ _ _ _ Hr) as Hwf. pose proof (rq_ev _ _ _ _ _ Hr) as Hev.
  exists s', A. split; [done|]. split; [done|]. split; [by eapply progress_end|].
  destruct (ev_Enabled (bk_ev s)) eqn:Htr.
  - destruct Hrest as (D & Hst & Hcall). pose proof Hst as (HA & HD & _).
    assert (Hst' : ev_state s' ∅ D (bk_ev s')).
    { eapply ev_state_after; [|done..]. intros w Hw. by apply leaver_other. }
    split.
    + intros _. rewrite HD. split; [|done]. rewrite HA. by apply Hev.
    + exists D. split_and!; [done..|]. intros w Hw HwD. apply Hcall; [done| |done]. by apply leaver_other.
  - destruct Hrest as [_ Hrest]. split; [|done]. rewrite <-Hrest in Htr. intros Ht. congruence.
Qed.

(** C7: reads of the by-key service.  A read returns, in request order, the
    value each key has where its state is recorded (an absent value as an empty
    one); afterwards the requested keys are local, every key has the value it
    had, and the service is well-formed again.  This holds whatever the order in
    which the goroutines of the read run, also with an eventual migration from
    any number of leaving workers under way.  The one exception is a panic, and
    that needs a migration under way in which a leaving worker with affected
    buckets was recorded as done by an earlier read (the race of
    [done_worker_race]): a read that finds none of them done succeeds. *)
Theorem by_key_read op n s keys bids (Hr : readable op n s keys bids) :
  (∃ s' vals, bk_GetManyMultiState s keys bids = Ok (s', vals) ∧
    bk_wf op n s' ∧ ev_ok s' ∧ (∀ k, bk_value s' k = bk_value s k) ∧
    (∀ k, k ∈ request_keys keys → place s' k = bk_WorkerID s') ∧
    (∀ id, is_Some (vals !! id) ↔ is_Some (keys !! id)) ∧
    ∀ id kl vs, keys !! id = Some kl → vals !! id = Some vs → Forall2 (λ k v, default [] v = bk_value s k) kl vs) ∨
  bk_GetManyMultiState s keys bids = Crash Panic ∧ ev_Enabled (bk_ev s) = true ∧
    ∃ w bs, w ∈ ev_DoneWorkers (bk_ev s) ∧ leavers s !! w = Some bs ∧ bs ≠ [].
Proof.
  destruct (read_after op n s keys bids Hr) as [(s' & A & Hrun & Hp & Hwf' & Hev' & _)|]; [left|by right].
  destruct (progress_end op n s _ s' (rq_wf _ _ _ _ _ Hr) Hp) as (_ & Hval & Hpl).
  eexists s', _. split; [exact Hrun|]. split_and!; [done..| | |].
  - intros k Hk. destruct (decide (place s k = bk_WorkerID s)) as [Hl|Hl].
    + destruct (decide (k ∈ needed s keys ∪ A)); [by apply Hpl|]. unfold place in *.
      rewrite (progress_recorded _ _ _ _ _ Hp), (pr_self _ _ _ _ Hp).
      destruct (recorded s k); simpl in *; [|done]. by rewrite bool_decide_eq_false_2.
    + apply Hpl. apply elem_of_union. left. apply elem_of_filter. by rewrite elem_of_list_to_set.
  - intros id. rewrite lookup_fmap. by rewrite fmap_is_Some.
  - intros id kl vs Hkl. rewrite lookup_fmap, Hkl. intros [= <-]. apply Forall2_fmap_r, Forall_Forall2_diag, Forall_true.
    intros k. apply rd_value.
Qed.
End Read.

(** ** Eventual migration completes *)

Section Eventual.
Context `{GoRange} `{Schedule} `{TransportLaws B}.
Implicit Types (s : ByKeyService B) (reqs : list (keyed bytes * list Z)).

Abbreviation leavers s := (ev_AffectedBuckets (bk_ev s)).

(** The keys recorded at a worker. *)
Definition keys_held (w : Z) (bucket : BucketV2) : list bytes :=
  match Map bucket with
  | Some m => (filter (λ e : bytes * Z, e.2 = w) (map_to_list m)).*1
  | None => []
  end.

Definition held_by s (w : Z) : gset bytes := list_to_set (bk_buckets s ≫= keys_held w).

Lemma elem_of_held_by op n s w k : bk_wf op n s → k ∈ held_by s w ↔ recorded s k = Some w.
Proof.
  intros Hwf. unfold held_by, keys_held. rewrite elem_of_list_to_set, list_elem_of_bind. unfold recorded. rewrite recorded_Some. split.
  - intros (bucket & Hk & [i Hi]%list_elem_of_lookup). destruct (Map bucket) as [m|] eqn:Hm; [|by apply not_elem_of_nil in Hk].
    apply list_elem_of_fmap in Hk as ([k' w'] & -> & [Hw Hin%elem_of_map_to_list]%list_elem_of_filter). simpl in *. subst w'.
    pose proof (key_at_bucket _ _ _ _ (bw_keys _ _ _ Hwf i bucket m k' w Hi Hm Hin)) as Hkb.
    pose proof (bw_n _ _ _ Hwf). exists bucket, m. by replace (key_bucket k') with i by lia.
  - intros (bucket & m & Hb & Hm & Hk). exists bucket. rewrite Hm. split; [|by eapply list_elem_of_lookup_2].
    apply list_elem_of_fmap. exists (k, w). split; [done|]. apply list_elem_of_filter. by rewrite elem_of_map_to_list.
Qed.

(** A sequence of reads. *)
Definition reads s reqs : res (ByKeyService B) :=
  foldM (λ s (r : keyed bytes * list Z), x ← bk_GetManyMultiState s r.1 r.2; Ok x.1) s reqs.

Record servable (op n : Z) s reqs : Prop := {
  sv_wf : bk_wf op n s;
  sv_more : reachable_more s;
  sv_reqs : ∀ r, r ∈ reqs →
    (∀ id kl, r.1 !! id = Some kl → Forall2 (own_key op n s) kl r.2) ∧ reachable_for s r.1
}.

Lemma servable_after op n s X s' r reqs :
  servable op n s (r :: reqs) → progress s X X s' → leavers s' = leavers s → bk_wf op n s' → servable op n s' reqs.
Proof.
  intros [Hwf Hmore Hreqs] Hp Hl Hwf'. split; [done|..].
  - intros w b ks. rewrite Hl, (pr_self _ _ _ _ Hp), (pr_peers _ _ _ _ Hp). intros Hw Hne Hb Hnd Hk.
    apply (Hmore w b ks Hw Hne Hb Hnd). intros k Hin. by apply (recorded_still _ _ _ _ _ _ Hp Hne), Hk.
  - intros r' Hr'. destruct (Hreqs r') as [Hown Hfor]; [by right|]. split.
    + intros id kl Hkl. eapply Forall2_impl; [exact (Hown id kl Hkl)|]. intros k b [Hat Hloc].
      split; [done|]. by apply (progress_local _ _ _ _ _ Hp).
    + intros w b part. rewrite (pr_peers _ _ _ _ Hp). apply Hfor.
Qed.

(** The migration from [w] of the buckets [bs]: under way, with fewer keys
    left at [w] than [m], or over. *)
Definition migrating s (w : Z) (bs : list Z) (m : nat) : Prop :=
  w ≠ bk_WorkerID s ∧ leavers s = {[w := bs]} ∧ ev_ok s ∧
  if ev_Enabled (bk_ev s)
  then ev_DoneWorkers (bk_ev s) = ∅ ∧ size (held_by s w) < m
  else ev_Done (bk_ev s) = true ∧ ∀ c, c ∈ bs → covered s w ∅ c.

Lemma migrating_read op n s w bs m r reqs :
  migrating s w bs (S m) → servable op n s (r :: reqs) →
  ∃ x, bk_GetManyMultiState s r.1 r.2 = Ok x ∧ migrating x.1 w bs m ∧ servable op n x.1 reqs ∧
    ∀ k, bk_value x.1 k = bk_value s k.
Proof.
  intros (Hw & Hl & Hev & Hm) Hs. destruct (sv_reqs _ _ _ _ Hs r) as [Hown Hfor]; [by left|].
  destruct (read_after op n s r.1 r.2) as [(s' & A & Hrun & Hp & Hwf' & Hev' & Hrest)|(_ & Htr & w' & _ & Hd & _)].
  { split; try done; apply Hs. }
  2:{ rewrite Htr in Hm. destruct Hm as [Hm _]. set_solver. }
  destruct (progress_end op n s _ s' (sv_wf _ _ _ _ Hs) Hp) as (_ & Hval & _).
  assert (leavers s' = leavers s) as Hl'.
  { destruct (ev_Enabled (bk_ev s)); [|by rewrite Hrest]. by destruct Hrest as (D & _ & ? & _). }
  eexists. split; [exact Hrun|]. cbn [fst]. split_and!; [|by eapply servable_after|done].
  unfold migrating. rewrite (pr_self _ _ _ _ Hp), Hl'. split_and!; [done..|].
  destruct (ev_Enabled (bk_ev s)) eqn:Htr.
  - destruct Hrest as (D & Hst & _ & Hcall). destruct Hm as [_ Hsize].
    destruct Hst as (_ & HD & Hsub & _ & Hcov & Hif). rewrite Hl', Hl, dom_singleton_L in *.
    destruct (decide (D = {[w]})) as [->|Hne].
    + destruct Hif as (-> & -> & _). split; [done|]. intros c Hc. apply (Hcov w bs c); [set_solver| |done]. by rewrite lookup_singleton_eq.
    + destruct Hif as (-> & _ & _). assert (D = ∅) as -> by set_solver. split; [done|].
      destruct (Hcall w) as (k & Hk & Hrec); [by rewrite lookup_singleton_eq|set_solver|].
      apply Nat.lt_le_trans with (size (held_by s w)); [|lia]. apply subset_size. split.
      * intros k'. rewrite !(elem_of_held_by op n) by (done || apply Hs). by intros [? _]%(recorded_still _ _ _ _ _ _ Hp Hw).
      * intros Hin. specialize (Hin k). rewrite !(elem_of_held_by op n) in Hin by (done || apply Hs).
        apply (recorded_still _ _ _ _ _ _ Hp Hw) in Hin as [_ Hin]; [|done]. set_solver.
  - rewrite Hrest, Htr. destruct Hm as [? Hc]. split; [done|]. intros c Hin k -> Hk.
    apply (recorded_still _ _ _ _ _ _ Hp Hw) in Hk as [Hk _]. by apply (Hc _ Hin k).
Qed.

Lemma migrating_reads op n s w bs reqs :
  migrating s w bs (length reqs) → servable op n s reqs →
  ∃ s', reads s reqs = Ok s' ∧ migrating s' w bs 0 ∧ ∀ k, bk_value s' k = bk_value s k.
Proof.
  revert s. induction reqs as [|r reqs IH]; intros s Hm Hs; [by exists s|].
  destruct (migrating_read op n s w bs (length reqs) r reqs Hm Hs) as (x & Hrun & Hm' & Hs' & Hval).
  destruct (IH x.1 Hm' Hs') as (s' & Hrun' & Hm'' & Hval'). exists s'. unfold reads. cbn [foldM]. rewrite Hrun, bind_Ok.
  split_and!; [done..|]. intros k. by rewrite Hval'.
Qed.

Lemma SetEventualMigrationMeta_single s w bs :
  is_u16 w → bs ≠ [] → ev_RemainingWorkers (bk_ev s) = 0%Z →
  SetEventualMigrationMeta s ((λ b, (b, [w])) <$> bs) =
    Ok (bk_set_ev s (MkEv true {[w := bs]} (Some (list_to_set bs)) (Some {[w := ∅]}) ∅ 1 false)).
Proof.
  intros Hw Hbs Hrem. unfold SetEventualMigrationMeta. rewrite length_fmap, Hrem.
  assert (Hfold : ∀ l pre, foldl group_affected {[w := pre]} ((λ b, (b, [w])) <$> l) = {[w := pre ++ l]}).
  { induction l as [|b l IH]; intros pre; [by rewrite app_nil_r|]. simpl. unfold group_affected at 2. simpl.
    unfold append_at. rewrite u16_id, lookup_singleton_eq by done. simpl. rewrite insert_singleton_eq, IH, <-app_assoc. done. }
  assert (foldl group_affected ∅ ((λ b, (b, [w])) <$> bs) = {[w := bs]}) as ->.
  { destruct bs as [|b bs]; [done|]. simpl. unfold group_affected at 2. simpl. unfold append_at.
    rewrite u16_id, lookup_empty by done. simpl. rewrite insert_empty. apply (Hfold bs [b]). }
  rewrite (proj2 (Nat.eqb_neq _ _)) by (by destruct bs). rewrite bind_fatal_false. cbn [Z.eqb negb]. rewrite bind_fatal_false.
  rewrite map_fmap_singleton, map_size_singleton, <-list_fmap_compose. unfold compose. simpl. by rewrite list_fmap_id.
Qed.

(** C8: eventual migration completes.  Once the worker is told to take over
    the buckets [bs] from a worker [w] that leaves, any sequence of reads that is
    longer than the number of keys still held by [w] ends the migration (also when
    no read asks for a key of [w]) for every positive or unlimited batch size and
    every goroutine order: the completion is signalled, no key of those buckets is
    recorded at [w] any more, and every key has the value it had before. *)
Theorem eventual_migration_completes op n s w bs reqs
    (Hw : is_u16 w) (Hne : w ≠ bk_WorkerID s) (Hpeer : is_Some (bk_peers s !! w))
    (Hbs : bs ≠ []) (Hloc : Forall (is_local s) bs) (Hidle : ev_RemainingWorkers (bk_ev s) = 0%Z)
    (Hs : ∀ s1, SetEventualMigrationMeta s ((λ b, (b, [w])) <$> bs) = Ok s1 → servable op n s1 reqs)
    (Hlen : size (held_by s w) < length reqs) :
  ∃ s1 s2, SetEventualMigrationMeta s ((λ b, (b, [w])) <$> bs) = Ok s1 ∧ reads s1 reqs = Ok s2 ∧
    ev_Enabled (bk_ev s2) = false ∧ ev_Done (bk_ev s2) = true ∧
    (∀ k, recorded s2 k = Some w → Z.of_nat (key_bucket k) ∉ bs) ∧
    ∀ k, bk_value s2 k = bk_value s k.
Proof.
  rewrite SetEventualMigrationMeta_single in * by done. eexists. specialize (Hs _ eq_refl). set (s1 := bk_set_ev s _) in *.
  destruct (migrating_reads op n s1 w bs reqs) as (s2 & Hrun & (_ & _ & _ & Hm) & Hval); [|done|].
  { split_and!; [done|done| |done]. intros _. unfold ev_state, ev_maps. cbn [s1 bk_set_ev bk_ev ev_AffectedBuckets ev_DoneWorkers].
    split; [by rewrite map_size_singleton|]. rewrite dom_singleton_L, map_size_singleton. split_and!; [done..|set_solver|done|set_solver|].
    rewrite decide_False by set_solver. split_and!; [done..|]. eexists _, _. split_and!; [done..|].
    intros w' bs' [<- <-]%lookup_singleton_Some. rewrite Forall_forall in Hloc. split_and!; [done..| |].
    - intros c Hc. split; [by apply elem_of_list_to_set|]. by apply Hloc.
    - exists ∅. rewrite lookup_singleton_eq. split_and!; [done|set_solver..]. }
  exists s2. split_and!; [done..| | | |].
  all: destruct (ev_Enabled (bk_ev s2)); [destruct Hm; lia|]; destruct Hm as [Hd Hc]; try done.
  intros k Hk Hin. apply (not_elem_of_empty (C := gset bytes) k). by apply (Hc _ Hin k).
Qed.
End Eventual.

(** ** A worker that was done before *)

Section Race.
Context `{GoRange} `{TransportLaws B}.
Implicit Types s : ByKeyService B.

Abbreviation leavers s := (ev_AffectedBuckets (bk_ev s)).

(** C35: a race at the end of an eventual migration.  A worker [w1] whose keys
    were all moved in an earlier read keeps being called in every later one.  As
    long as the migration is on, that call does nothing; but when the goroutine of
    the last remaining worker [w2] ends the migration first, the call for [w1] in
    the same read finds the lock map reset and panics. *)
Theorem done_worker_race op n s w1 w2 b bs bs2
    (Hwf : bk_wf op n s) (Hev : ev_ok s) (Hon : ev_Enabled (bk_ev s) = true) (Hmore : reachable_more s)
    (Hd1 : w1 ∈ ev_DoneWorkers (bk_ev s)) (Hb1 : leavers s !! w1 = Some (b :: bs))
    (Hd2 : w2 ∉ ev_DoneWorkers (bk_ev s)) (Hb2 : leavers s !! w2 = Some bs2) :
  fetchAdditionalKeys s w1 ∅ = Ok s ∧
  ∃ s', fetchAdditionalKeys s w2 ∅ = Ok s' ∧
    (ev_Enabled (bk_ev s') = false → fetchAdditionalKeys s' w1 ∅ = Crash Panic).
Proof.
  destruct (Hev Hon) as [Hsize (_ & _ & Hsub & Hrem & _ & Hrest)].
  rewrite decide_False in Hrest by (intros Heq; apply Hd2; rewrite Heq; apply elem_of_dom; eauto).
  destruct Hrest as (_ & _ & L & f & HL & Hf & Hall). split.
  - destruct (Hall w1 _ Hb1) as (_ & _ & _ & fin & Hfin & _ & Hdone).
    apply (fetch_done s w1 (b :: bs) f fin); [done..|by apply Hdone|done].
  - destruct (Hall w2 _ Hb2) as (Hne & [p Hp] & Hloc & fin & Hfin & _ & _).
    destruct (fetchAdditionalKeys_Ok op n s ∅ ∅ s w2 p bs2 L f fin ∅)
      as (s' & K & fin' & allDone & Hrun & Hp' & Hev' & _); try done; [by eapply progress_refl|].
    exists s'. split; [done|]. intros Hoff.
    assert (Hloc1 : is_local s' b).
    { apply (progress_local _ _ _ _ _ Hp'). destruct (Hall w1 _ Hb1) as (_ & _ & Hl & _). by apply Hl; left. }
    destruct allDone; rewrite Hev' in Hoff; [|simpl in Hoff; congruence].
    unfold finish_worker in Hoff, Hev'. cbn [ev_DoneWorkers ev_set_finished] in Hoff, Hev'.
    rewrite bool_decide_eq_false_2 in Hoff, Hev' by done.
    destruct (_ =? 0)%Z in Hoff, Hev'; [|simpl in Hoff; congruence].
    apply (fetch_after_reset s' w1 b bs); [by rewrite Hev'..|done].
Qed.
End Race.

(** ** Examples *)

(** Two keys of bucket 0 are held by worker 2, which leaves. *)
Definition leave_demo : ByKeyService (PebbleStateBackend store) :=
  small_service {[ small_key 65 := 2%Z; small_key 66 := 2%Z; small_key 67 := 1%Z ]} {[ small_key 67 := [3]%Z ]}
    {[ 2%Z := {[ small_key 65 := [1]%Z; small_key 66 := [2]%Z ]} ]} 1 no_migration.

Lemma leave_demo_places (k : bytes) (w : Z) :
  ({[ small_key 65 := 2%Z; small_key 66 := 2%Z; small_key 67 := 1%Z ]} : gmap bytes Z) !! k = Some w →
  (k = small_key 65 ∧ w = 2%Z) ∨ (k = small_key 66 ∧ w = 2%Z) ∨ (k = small_key 67 ∧ w = 1%Z).
Proof.
  intros [[<- <-]|[_ [[<- <-]|[_ [<- <-]%lookup_singleton_Some]]%lookup_insert_Some]]%lookup_insert_Some; auto.
Qed.

Lemma leave_demo_wf ev : bk_wf 7 2 (bk_set_ev leave_demo ev).
Proof.
  apply (small_wf _ _ _ _ ev). intros k w [[-> ->]|[[-> ->]|[-> ->]]]%leave_demo_places;
    (split; [apply small_key_at|]); [right; by eexists|right; by eexists|by left].
Qed.

Lemma by_key_read_witness :
  ∃ s' vals, @bk_GetManyMultiState _ _ _ _ rpc_transport leave_demo {[ 3%Z := [small_key 66; small_key 67] ]} [0; 0]%Z =
      Ok (s', vals) ∧ place s' (small_key 66) = bk_WorkerID s' ∧
    ∀ vs, vals !! 3%Z = Some vs → Forall2 (λ v x, default [] v = x) vs [[2]; [3]]%Z.
Proof.
  destruct (@by_key_read _ _ (PebbleStateBackend store) _ _ rpc_transport rpc_laws 7 2 leave_demo
    {[ 3%Z := [small_key 66; small_key 67] ]} [0; 0]%Z) as [(s' & vals & Hrun & _ & _ & _ & Hpl & _ & Hvals)|(_ & Hon & _)].
  - split.
    + apply (leave_demo_wf no_migration).
    + intros id kl [<- <-]%lookup_singleton_Some. constructor; [apply small_own|].
      constructor; [apply small_own|constructor].
    + intros w b part _ _ _. exact I.
    + intros w b ks [bs Hbs] _ _ _. discriminate Hbs.
    + intros Hon. discriminate Hon.
  - exists s', vals. split; [exact Hrun|]. split.
    + apply Hpl. apply elem_of_request_keys. exists 3%Z, [small_key 66; small_key 67]. split; [reflexivity|]. left.
    + intros vs Hvs. specialize (Hvals 3%Z [small_key 66; small_key 67] vs). rewrite lookup_singleton_eq in Hvals.
      specialize (Hvals eq_refl Hvs). inversion Hvals as [|? v1 ? vs1 Hv1 Hrest]; subst.
      inversion Hrest as [|? v2 ? vs2 Hv2 Hnil]; subst. inversion Hnil; subst.
      constructor; [exact Hv1|]. constructor; [exact Hv2|constructor].
  - discriminate Hon.
Defined.

Abbreviation demo_tcp := (tcp_transport [] []).
Abbreviation demo_laws := (tcp_laws [] []).

(** A request for the local key only. *)
Definition local_read : keyed bytes * list Z := ({[ 3%Z := [small_key 67] ]}, [0%Z]).

Lemma local_read_part (part : keyed bytes) :
  part ≠ ∅ → sub_request part local_read.1 → part = local_read.1.
Proof.
  intros (id & kl & Hkl)%map_choose Hsub.
  assert (Hall : ∀ id kl, part !! id = Some kl → id = 3%Z ∧ kl = [small_key 67]).
  { intros id' kl' Hkl'. destruct (Hsub id' kl' Hkl') as [Hne (full & Hfull & Hs)].
    cbn [local_read fst] in Hfull. apply lookup_singleton_Some in Hfull as [<- <-].
    split; [done|]. apply sublist_cons_r in Hs as [Hs|(l & -> & Hs)].
    - by apply sublist_nil_r in Hs.
    - by apply sublist_nil_r in Hs as ->. }
  apply map_eq. intros id'. destruct (Hall id kl Hkl) as [-> ->]. unfold local_read. simpl.
  destruct (decide (id' = 3%Z)) as [->|Hne]; [by rewrite lookup_singleton_eq|].
  rewrite lookup_singleton_ne by done. destruct (part !! id') eqn:E; [|done]. by destruct (Hall _ _ E).
Qed.

Lemma leave_demo_reachable (ks : list bytes) :
  NoDup ks → (∀ k, k ∈ ks → recorded leave_demo k = Some 2%Z) →
  @carries_all _ _ _ demo_tcp demo_laws (small_backend {[ small_key 65 := [1]%Z; small_key 66 := [2]%Z ]}) ks.
Proof.
  intros Hnd Hk.
  assert (Hin : ∀ k, k ∈ ks → k = small_key 65 ∨ k = small_key 66).
  { intros k (bucket & m & Hb & Hm & Hw)%Hk%recorded_Some. unfold bk_buckets in Hb.
    destruct (key_bucket k) as [|[|i]]; simpl in Hb; [..|done]; injection Hb as <-; [|done]. injection Hm as <-.
    destruct (leave_demo_places _ _ Hw) as [[-> _]|[[-> _]|[_ ?]]]; [by left|by right|done]. }
  clear Hk. destruct ks as [|k1 [|k2 [|k3 ks]]].
  - split_and!; [by constructor|by vm_compute|by constructor].
  - destruct (Hin k1) as [-> | ->]; [by left|..]; (split_and!; [by repeat constructor|by vm_compute|by repeat constructor]).
  - apply NoDup_cons in Hnd as [Hn _]. destruct (Hin k1) as [-> | ->]; [by left|..];
      (destruct (Hin k2) as [-> | ->]; [by right; left|..]); try (destruct Hn; by left);
      (split_and!; [by repeat constructor|by vm_compute|by repeat constructor]).
  - exfalso. apply NoDup_cons in Hnd as [H1 Hnd]. apply NoDup_cons in Hnd as [H2 Hnd].
    destruct (Hin k1), (Hin k2), (Hin k3); set_solver.
Qed.

Lemma eventual_migration_completes_witness :
  ∃ s1 s2, SetEventualMigrationMeta leave_demo [(0%Z, [2%Z])] = Ok s1 ∧
    @reads _ _ _ _ demo_tcp s1 [local_read; local_read; local_read] = Ok s2 ∧
    ev_Done (bk_ev s2) = true ∧ bk_value s2 (small_key 65) = [1]%Z.
Proof.
  destruct (@eventual_migration_completes _ _ (PebbleStateBackend store) _ _ demo_tcp demo_laws 7 2 leave_demo 2 [0%Z]
    [local_read; local_read; local_read]) as (s1 & s2 & Hset & Hrun & _ & Hdone & _ & Hval).
  - unfold is_u16. lia.
  - discriminate.
  - by eexists.
  - discriminate.
  - constructor; [|constructor]. apply (small_own _ _ _ _ _ 65).
  - reflexivity.
  - intros s1 Hs1. rewrite (SetEventualMigrationMeta_single leave_demo 2 [0%Z]) in Hs1; [|unfold is_u16; lia|discriminate|reflexivity].
    injection Hs1 as <-. split.
    + apply leave_demo_wf.
    + intros w b ks [bs Hbs] _ Hb Hnd Hk. simpl in Hbs, Hb. apply lookup_singleton_Some in Hbs as [<- _].
      rewrite lookup_fmap, lookup_singleton_eq in Hb. injection Hb as <-. by apply leave_demo_reachable.
    + intros r Hr. assert (r = local_read) as -> by set_solver. cbn [local_read fst snd]. split.
      * intros id kl [<- <-]%lookup_singleton_Some. constructor; [apply small_own|constructor].
      * intros w b part Hb Hne Hsub. rewrite (local_read_part part Hne Hsub). cbn [local_read fst].
        simpl in Hb. apply lookup_fmap_Some in Hb as (d & <- & [<- <-]%lookup_singleton_Some).
        split_and!.
        -- split; [by vm_compute|]. intros id l [<- <-]%lookup_singleton_Some. split_and!; [done..|]. by repeat constructor.
        -- by intros id l [<- <-]%lookup_singleton_Some.
        -- split; [by vm_compute|]. intros id l. simpl. rewrite map_fmap_singleton.
           intros [<- <-]%lookup_singleton_Some. split_and!; [done..|]. by repeat constructor.
        -- by vm_compute.
        -- by vm_compute.
  - by vm_compute.
  - exists s1, s2. split; [exact Hset|]. split; [exact Hrun|]. split; [exact Hdone|]. rewrite Hval. vm_compute. reflexivity.
Defined.

(** Worker 2 is done, worker 3 has one key left. *)
Definition race_demo : ByKeyService (PebbleStateBackend store) :=
  small_service {[ small_key 65 := 3%Z ]} ∅ {[ 2%Z := ∅; 3%Z := {[ small_key 65 := [1]%Z ]} ]} (-1)
    (MkEv true {[ 2%Z := [0%Z]; 3%Z := [0%Z] ]} (Some {[0%Z]}) (Some {[ 2%Z := {[0%Z]}; 3%Z := ∅ ]}) {[2%Z]} 1 false).

Lemma race_demo_recorded k w : recorded race_demo k = Some w → k = small_key 65 ∧ w = 3%Z.
Proof.
  intros (bucket & m & Hb & Hm & Hk)%recorded_Some. unfold bk_buckets in Hb.
  destruct (key_bucket k) as [|[|i]]; simpl in Hb; [..|done]; injection Hb as <-; [|done]. injection Hm as <-.
  by apply lookup_singleton_Some in Hk as [<- <-].
Qed.

Lemma race_demo_wf : bk_wf 7 2 race_demo.
Proof.
  apply small_wf. intros k w [<- <-]%lookup_singleton_Some. split; [apply small_key_at|right]. by eexists.
Qed.

Lemma race_demo_ev : ev_ok race_demo.
Proof.
  intros _. split; [by vm_compute|]. split_and!; [done|done|set_solver|by vm_compute| |].
  - intros w bs c Hw _ _ k _ Hk. simpl in Hw. apply elem_of_singleton in Hw as ->. by destruct (race_demo_recorded _ _ Hk).
  - rewrite decide_False by (intros Heq; apply (f_equal size) in Heq; vm_compute in Heq; discriminate).
    split_and!; [done..|]. eexists _, _. split_and!; [done..|]. simpl. intros w bs Hbs.
    assert (Hbs' : bs = [0%Z] ∧ (w = 2%Z ∨ w = 3%Z)).
    { apply lookup_insert_Some in Hbs as [[<- <-]|[_ [<- <-]%lookup_singleton_Some]]; auto. }
    destruct Hbs' as [-> Hw]. split_and!.
    + by destruct Hw as [-> | ->].
    + destruct Hw as [-> | ->]; by eexists.
    + intros c ->%list_elem_of_singleton. split; [set_solver|]. apply (small_own _ _ _ _ _ 65).
    + destruct Hw as [-> | ->]; eexists; (split; [reflexivity|]); split.
      * intros c _ k _ Hk. by destruct (race_demo_recorded _ _ Hk).
      * intros _ c ->%list_elem_of_singleton. set_solver.
      * intros c Hc. by apply not_elem_of_empty in Hc.
      * intros Hd. simpl in Hd. by apply elem_of_singleton in Hd.
Qed.

Lemma done_worker_race_witness :
  ∃ s', @fetchAdditionalKeys _ _ _ demo_tcp race_demo 3 ∅ = Ok s' ∧
    @fetchAdditionalKeys _ _ _ demo_tcp s' 2 ∅ = Crash Panic.
Proof.
  destruct (@done_worker_race _ (PebbleStateBackend store) _ _ demo_tcp demo_laws 7 2 race_demo 2 3 0 [] [0%Z])
    as (_ & s' & Hrun & Hrace).
  - exact race_demo_wf.
  - exact race_demo_ev.
  - reflexivity.
  - intros w b ks _ _ Hb Hnd Hk. destruct ks as [|k1 [|k2 ks]].
    + split_and!; [by constructor|by vm_compute|by constructor].
    + destruct (race_demo_recorded k1 w) as [-> ->]; [apply Hk; by left|]. vm_compute in Hb. injection Hb as <-.
      split_and!; [by repeat constructor|by vm_compute|by repeat constructor].
    + exfalso. apply NoDup_cons in Hnd as [Hn _]. destruct (race_demo_recorded k1 w) as [-> _]; [apply Hk; by left|].
      destruct (race_demo_recorded k2 w) as [-> _]; [apply Hk; by right; left|]. apply Hn. by left.
  - set_solver.
  - reflexivity.
  - set_solver.
  - reflexivity.
  - exists s'. split; [exact Hrun|]. apply Hrace.
    assert (match @fetchAdditionalKeys _ _ _ demo_tcp race_demo 3 ∅ with
            | Ok s => ev_Enabled (bk_ev s) | Crash _ => true end = false) as Hoff by (vm_compute; reflexivity).
    rewrite Hrun in Hoff. exact Hoff.
Defined.
