(* ===== verification/Window.v ===== *)
(** * Window operators: tumbling and sliding windows

    [api/dataflow/tumblingWindow.go] and [api/dataflow/slidingWindow.go] with
    their indices of active windows, the user's aggregator
    ([api/dataflow/aggregator.go]) and what they use of the collector.  The
    state of a window (of a pane, in a sliding window) is kept in the state
    service and worked on through the state client. *)

From stdpp Require Import prelude gmap strings list.
From Stdlib Require Import ZArith Lia.
From S2P Require Import Prelude Partition Codec WorkUnit StateType StateCache Backend StateService StateClient StateBatch.

(** ** What the operators use *)

(** The user's functions.  [NewFunc] allocates a new accumulator per call; the
    others may change the accumulator they return, and no other. *)
Record Aggregator := NewAggregator {
  NewFunc : StateType;
  AddFunc : StateType → Tuple → StateType;
  OutFunc : StateType → Tuple;
  MergeFunc : StateType → StateType → StateType
}.

(** A collector without watermark generator: the timestamp it gives to the
    records and the records emitted so far. *)
Record Collector := MkCollector { CurrentTimestamp : Z; emitted : list Tuple }.

Definition SetCurrentTimestamp (c : Collector) (ts : Z) : Collector := MkCollector ts (emitted c).

Definition SetTimestamp (t : Tuple) (ts : Z) : Tuple := MkTuple (fields t) ts.

Definition Emit (c : Collector) (t : Tuple) : Collector :=
  MkCollector (CurrentTimestamp c) (emitted c ++ [SetTimestamp t (CurrentTimestamp c)]).

(** The work unit an operator is given. *)
Definition as_batch (w : WorkUnit) : res (list Tuple) :=
  match w with
  | BatchUnit records => Ok records
  | _ => Crash (Fatal "Input to ProcessBatch() should be Batch[T]")
  end.

(** The type assertion [.(V)] on a state. *)
Definition as_state (k : state_kind) (s : StateType) : res StateType :=
  match k, s with
  | SValue, ValueState _ _ | SList, ListState _ _ _ _ => Ok s
  | _, _ => Crash (Fatal "Fetched state failed for type assertion")
  end.

(** The fields both operators have: those of [StatefulOperatorBase1Upstream]
    they use, the state they registered, the user's functions. *)
Record WindowBase (S : Type) := MkWindowBase {
  wb_StateClient : StateClient S;
  wb_KeyAssigner : Tuple → field;
  wb_StateID : Z;
  wb_kind : state_kind;
  wb_Aggregator : Aggregator;
  wb_Collector : Collector
}.
Arguments MkWindowBase {S}.
Arguments wb_StateClient {S}.
Arguments wb_KeyAssigner {S}.
Arguments wb_StateID {S}.
Arguments wb_kind {S}.
Arguments wb_Aggregator {S}.
Arguments wb_Collector {S}.

Section Base.
Context {S : Type}.
Implicit Types w : WindowBase S.

Definition wb_set_client w (sc : StateClient S) : WindowBase S :=
  MkWindowBase sc (wb_KeyAssigner w) (wb_StateID w) (wb_kind w) (wb_Aggregator w) (wb_Collector w).

Definition wb_set_collector w (c : Collector) : WindowBase S :=
  MkWindowBase (wb_StateClient w) (wb_KeyAssigner w) (wb_StateID w) (wb_kind w) (wb_Aggregator w) c.
End Base.

(** ** The loop over a batch

    Both operators fetch the states of the batch, and for each record create
    the window (or pane) if it has no state, with an index entry, and apply
    the aggregator through the cached state. *)

Section Records.
Context `{Mus} `{GoRange} {S : Type} `{StateServiceOps S}.
Context {I : Type} (startOf : Z → Z) (addToIndex : I → field → Z → res I).
Implicit Types w : WindowBase S.

Definition process_record w (st : StateClient S * I) (x : field * Tuple) : res (StateClient S * I) :=
  let '(sc, index) := st in
  let '(key, record) := x in
  let start := startOf (timestamp record) in
  let call op sc := user_op sc (wb_StateID w, (key, Some start), op) in
  curState ← GetWindowState sc (wb_StateID w) key start;
  _ ← as_state (wb_kind w) curState;
  '(sc, index) ←
    (if HasValue curState then Ok (sc, index)
     else
       sc ← call (OCopyFrom (NewFunc (wb_Aggregator w))) sc;
       index ← addToIndex index key start;
       Ok (sc, index));
  curState ← GetWindowState sc (wb_StateID w) key start;
  sc ← call (OCopyFrom (AddFunc (wb_Aggregator w) curState record)) sc;
  Ok (sc, index).

Definition process_records w (index : I) (records : list Tuple) : res (WindowBase S * I) :=
  let keys := wb_KeyAssigner w <$> records in
  let starts := startOf ∘ timestamp <$> records in
  '(sc, _) ← FetchWindowState (wb_StateClient w) keys starts [wb_StateID w];
  '(sc, index) ← foldM (process_record w) (sc, index) (zip keys records);
  '(sc, _) ← FlushWindowState sc;
  Ok (wb_set_client w sc, index).
End Records.

(** ** Tumbling windows *)

(** [map[int64]map[K]struct{}]: the active windows by start time. *)
Abbreviation TumblingWindowIndex := (gmap Z (gmap field unit)) (only parsing).

Definition NewTumblingWindowIndex : TumblingWindowIndex := ∅.

Definition tw_Exists (index : TumblingWindowIndex) (key : field) (ts : Z) : bool :=
  match index !! ts with
  | None => false
  | Some windows => bool_decide (is_Some (windows !! key))
  end.

Definition tw_Add (index : TumblingWindowIndex) (key : field) (ts : Z) : TumblingWindowIndex :=
  let index := match index !! ts with None => <[ts := ∅]> index | Some _ => index end in
  alter (λ windows, <[key := tt]> windows) ts index.

(** Both indices: the key is removed, and a start time without keys too. *)
Definition index_Remove {A} (index : gmap Z (gmap field A)) (key : field) (ts : Z) : gmap Z (gmap field A) :=
  match index !! ts with
  | Some windows =>
      let windows := delete key windows in
      if size windows =? 0 then delete ts index else <[ts := windows]> index
  | None => index
  end.

Definition tw_GetWindowsToBeFired `{GoRange} (index : TumblingWindowIndex) (curTime winDuration : Z)
    : list field * list Z :=
  let threshold := i64 (curTime - winDuration) in
  foldl (λ st x,
      if (x.1 <=? threshold)%Z
      then foldl (λ st y, (st.1 ++ [y.1], st.2 ++ [x.1])) st (go_range x.2)
      else st) ([], []) (go_range index).

Record TumblingWindow (S : Type) := MkTumbling {
  tw_Base : WindowBase S;
  tw_Duration : Z;
  tw_Index : TumblingWindowIndex
}.
Arguments MkTumbling {S}.
Arguments tw_Base {S}.
Arguments tw_Duration {S}.
Arguments tw_Index {S}.

(** Go's [%] truncates; [NewTumblingWindow] excludes a zero duration. *)
Definition getWindowStartTime (duration ts : Z) : Z := i64 (ts - Z.rem ts duration).

Section Tumbling.
Context `{Mus} `{GoRange} {S : Type} `{StateServiceOps S}.
Implicit Types tw : TumblingWindow S.

Definition NewTumblingWindow (b : WindowBase S) (duration : Z) : res (TumblingWindow S) :=
  fatal_if (duration <=? 0)%Z "Duration should be positive";;
  Ok (MkTumbling b duration NewTumblingWindowIndex).

Definition tw_ProcessBatch tw (workUnit : WorkUnit) : res (TumblingWindow S) :=
  records ← as_batch workUnit;
  '(b, index) ← process_records (getWindowStartTime (tw_Duration tw)) (λ i k t, Ok (tw_Add i k t))
                  (tw_Base tw) (tw_Index tw) records;
  Ok (MkTumbling b (tw_Duration tw) index).

(** Firing one closed window. *)
Definition tw_fire tw (sc : StateClient S) (st : Collector * TumblingWindowIndex) (x : field * Z)
    : res (Collector * TumblingWindowIndex) :=
  let '(c, index) := st in
  let '(key, ts) := x in
  closedWindow ← GetWindowState sc (wb_StateID (tw_Base tw)) key ts;
  _ ← as_state (wb_kind (tw_Base tw)) closedWindow;
  let c := SetCurrentTimestamp c (i64 (ts + tw_Duration tw)) in
  let c := Emit c (OutFunc (wb_Aggregator (tw_Base tw)) closedWindow) in
  Ok (c, index_Remove index key ts).

Definition tw_ProcessProgressedWatermark tw (wm : Z) : res (TumblingWindow S) :=
  let b := tw_Base tw in
  let '(keys, timestamps) := tw_GetWindowsToBeFired (tw_Index tw) wm (tw_Duration tw) in
  if length keys =? 0 then Ok tw
  else
    '(sc, _) ← FetchWindowState (wb_StateClient b) keys timestamps [wb_StateID b];
    '(c, index) ← foldM (tw_fire tw sc) (wb_Collector b, tw_Index tw) (zip keys timestamps);
    sc ← DeleteAllAndFlush sc;
    Ok (MkTumbling (wb_set_collector (wb_set_client b sc) c) (tw_Duration tw) index).
End Tumbling.

(** ** Sliding windows *)

(** A pane: a key and the start time of a slide. *)
Abbreviation Pane := (field * Z)%type (only parsing).

(** [map[int64]map[K][]Pane[K]]: the active windows by start time and key, with
    their panes. *)
Abbreviation SlidingIndexMap := (gmap Z (gmap field (list (field * Z)))) (only parsing).

Record SlidingWindowIndex := NewSlidingWindowIndex {
  sw_IndexMap : SlidingIndexMap;
  si_Duration : Z;
  si_Slide : Z
}.

Definition sw_ExistsWindow (w : SlidingWindowIndex) (key : field) (ts : Z) : bool :=
  match sw_IndexMap w !! ts with
  | None => false
  | Some windows => bool_decide (is_Some (windows !! key))
  end.

(** [for i := lower; i <= upper; i += slide] *)
Fixpoint start_times (fuel : nat) (i upper slide : Z) : res (list Z) :=
  if (i <=? upper)%Z then
    match fuel with
    | 0 => Crash Diverge
    | S fuel => rest ← start_times fuel (i64 (i + slide)) upper slide; Ok (i :: rest)
    end
  else Ok [].

Definition GetSlidingWindowStartTimes (paneStartTime duration slide : Z) : res (list Z) :=
  panic_if (slide =? 0)%Z;;
  fatal_if (negb (Z.rem duration slide =? 0)%Z) "Duration must be a multiple of slide";;
  start_times (Z.to_nat duration) (i64 (paneStartTime - duration + slide)) paneStartTime slide.

Definition GetPaneStartTime (ts slide : Z) : Z := i64 (ts - Z.rem ts slide).

(** Appending panes to the window of a key; [make] for a new start time. *)
Definition append_panes (m : SlidingIndexMap) (ts : Z) (key : field) (panes : list Pane) : SlidingIndexMap :=
  let m := match m !! ts with None => <[ts := ∅]> m | Some _ => m end in
  foldl (λ m pane, alter (λ windows, <[key := default [] (windows !! key) ++ [pane]]> windows) ts m) m panes.

Definition sw_with_map (w : SlidingWindowIndex) (m : SlidingIndexMap) : SlidingWindowIndex :=
  NewSlidingWindowIndex m (si_Duration w) (si_Slide w).

Definition sw_AddPane (w : SlidingWindowIndex) (key : field) (paneStartTime : Z) : res SlidingWindowIndex :=
  windowStartTimes ← GetSlidingWindowStartTimes paneStartTime (si_Duration w) (si_Slide w);
  Ok (sw_with_map w (foldl (λ m ts, append_panes m ts key [(key, paneStartTime)])
                       (sw_IndexMap w) windowStartTimes)).

Definition sw_Add (w : SlidingWindowIndex) (key : field) (startTime : Z) (paneStartTimes : list Z)
    : SlidingWindowIndex :=
  sw_with_map w (append_panes (sw_IndexMap w) startTime key (pair key <$> paneStartTimes)).

Definition sw_Remove (w : SlidingWindowIndex) (key : field) (ts : Z) : SlidingWindowIndex :=
  sw_with_map w (index_Remove (sw_IndexMap w) key ts).

Record WindowsToBeFired := MkFired { wf_Key : field; wf_StartTime : Z; wf_Panes : list Pane }.

Definition sw_GetWindowsToBeFired `{GoRange} (w : SlidingWindowIndex) (wm : Z)
    : list WindowsToBeFired * gmap Pane bool :=
  let threshold := i64 (wm - si_Duration w) in
  foldl (λ st x,
      if (x.1 <=? threshold)%Z
      then foldl (λ st y, (st.1 ++ [MkFired y.1 x.1 y.2],
                           foldl (λ panes pane, <[pane := true]> panes) st.2 y.2)) st (go_range x.2)
      else st) ([], ∅) (go_range (sw_IndexMap w)).

Record SlidingWindow (S : Type) := MkSliding {
  sw_Base : WindowBase S;
  sw_Duration : Z;
  sw_Slide : Z;
  sw_Index : SlidingWindowIndex
}.
Arguments MkSliding {S}.
Arguments sw_Base {S}.
Arguments sw_Duration {S}.
Arguments sw_Slide {S}.
Arguments sw_Index {S}.

Section Sliding.
Context `{Mus} `{GoRange} {S : Type} `{StateServiceOps S}.
Implicit Types sw : SlidingWindow S.

Definition NewSlidingWindow (b : WindowBase S) (duration slide : Z) : res (SlidingWindow S) :=
  fatal_if (duration <=? 0)%Z "Duration should be positive";;
  fatal_if (slide <=? 0)%Z "Slide should be positive";;
  fatal_if (negb (Z.rem duration slide =? 0)%Z) "Duration must be a multiple of slide";;
  Ok (MkSliding b duration slide (NewSlidingWindowIndex ∅ duration slide)).

Definition sw_ProcessBatch sw (workUnit : WorkUnit) : res (SlidingWindow S) :=
  records ← as_batch workUnit;
  '(b, index) ← process_records (λ ts, GetPaneStartTime ts (sw_Slide sw)) sw_AddPane
                  (sw_Base sw) (sw_Index sw) records;
  Ok (MkSliding b (sw_Duration sw) (sw_Slide sw) index).

(** One pane of a window that fires: its state is merged into the result, and
    it is noted for removal when no later window needs it. *)
Definition sw_pane sw (sc : StateClient S) (wm : Z) (st : StateType * gset Pane) (pane : Pane)
    : res (StateType * gset Pane) :=
  let '(result, panesToRemove) := st in
  paneState ← GetWindowState sc (wb_StateID (sw_Base sw)) pane.1 pane.2;
  _ ← as_state (wb_kind (sw_Base sw)) paneState;
  let result := MergeFunc (wb_Aggregator (sw_Base sw)) result paneState in
  Ok (result, if (pane.2 <=? i64 (wm - sw_Duration sw))%Z then {[pane]} ∪ panesToRemove else panesToRemove).

Definition sw_fire sw (sc : StateClient S) (wm : Z)
    (st : Collector * SlidingWindowIndex * gset Pane) (window : WindowsToBeFired)
    : res (Collector * SlidingWindowIndex * gset Pane) :=
  let '(c, index, panesToRemove) := st in
  '(result, panesToRemove) ← foldM (sw_pane sw sc wm)
      (NewFunc (wb_Aggregator (sw_Base sw)), panesToRemove) (wf_Panes window);
  let c := SetCurrentTimestamp c (i64 (wf_StartTime window + sw_Duration sw)) in
  let c := Emit c (OutFunc (wb_Aggregator (sw_Base sw)) result) in
  Ok (c, sw_Remove index (wf_Key window) (wf_StartTime window), panesToRemove).

Definition sw_ProcessProgressedWatermark sw (wm : Z) : res (SlidingWindow S) :=
  let b := sw_Base sw in
  let '(windowsToFire, panes) := sw_GetWindowsToBeFired (sw_Index sw) wm in
  if length windowsToFire =? 0 then Ok sw
  else
    fatal_if (size panes =? 0) "Panes to be fired should exist";;
    let fetch_panes := (go_range panes).*1 in
    '(sc, _) ← FetchWindowState (wb_StateClient b) fetch_panes.*1 fetch_panes.*2 [wb_StateID b];
    '(c, index, panesToRemove) ← foldM (sw_fire sw sc wm) (wb_Collector b, sw_Index sw, ∅) windowsToFire;
    let sw' sc := MkSliding (wb_set_collector (wb_set_client b sc) c) (sw_Duration sw) (sw_Slide sw) index in
    if size panesToRemove =? 0 then Ok (sw' sc)
    else
      sc ← DeleteManyAndFlush sc panesToRemove;
      Ok (sw' sc).
End Sliding.
