(* ===== verification/WindowIndex.v ===== *)
(** * Window operators: the index of active windows

    Both operators keep a map from start time to key to what they record of
    the window.  Here it is a map from windows ([at_window]); adding, removing
    and the scan for windows that close. *)

From stdpp Require Import prelude gmap strings list.
From Stdlib Require Import ZArith Lia.
From S2P Require Import Prelude Codec Window.

Lemma fmap_bind_list {A B C} (f : B → C) (g : A → list B) (l : list A) :
  f <$> (l ≫= g) = l ≫= λ x, f <$> g x.
Proof. induction l as [|x l IH]; [done|]. by rewrite !bind_cons, fmap_app, IH. Qed.

Lemma filter_nothing {A} (P : A → Prop) `{∀ x, Decision (P x)} (l : list A) :
  (∀ x, x ∈ l → ¬ P x) → filter P l = [].
Proof.
  induction l as [|x l IH]; intros Hl; [done|]. rewrite filter_cons_False by (apply Hl; by left).
  apply IH. intros y Hy. apply Hl. by right.
Qed.

Lemma concat_Permutation {A} (l l' : list (list A)) : Forall2 (≡ₚ) l l' → concat l ≡ₚ concat l'.
Proof. induction 1 as [|x y l l' Hx _ IH]; [done|]. cbn [concat]. by rewrite Hx, IH. Qed.

Section Index.
Context {A : Type}.
Implicit Types index : gmap Z (gmap field A).

(** What is recorded of a window. *)
Definition at_window index (p : field * Z) : option A := index !! p.2 ≫= lookup p.1.

(** No start time without keys. *)
Definition index_wf index : Prop := ∀ t m, index !! t = Some m → m ≠ ∅.

Lemma at_window_insert index (p q : field * Z) (a : A) (m : gmap field A) :
  m = default ∅ (index !! q.2) →
  at_window (<[q.2 := <[q.1 := a]> m]> index) p = if decide (p = q) then Some a else at_window index p.
Proof.
  intros ->. unfold at_window. destruct (decide (p = q)) as [->|Hne].
  - rewrite lookup_insert_eq. simpl. by rewrite lookup_insert_eq.
  - destruct (decide (p.2 = q.2)) as [Ht|Ht]; [|by rewrite lookup_insert_ne].
    assert (q.1 ≠ p.1) by (destruct p, q; simpl in *; congruence).
    rewrite Ht, lookup_insert_eq. simpl. rewrite lookup_insert_ne by done.
    by destruct (index !! q.2); simpl; rewrite ?lookup_empty.
Qed.

Lemma index_wf_insert index t k (a : A) m : index_wf index → index_wf (<[t := <[k := a]> m]> index).
Proof.
  intros Hwf t' m' [[_ <-]|[_ Hm]]%lookup_insert_Some; [apply insert_non_empty|by eapply Hwf].
Qed.

Lemma index_Remove_at index key ts p :
  at_window (index_Remove index key ts) p = if decide (p = (key, ts)) then None else at_window index p.
Proof.
  unfold index_Remove, at_window. destruct (index !! ts) as [m|] eqn:E; simpl.
  2:{ case_decide; subst; [by simpl; rewrite E|done]. }
  destruct (Nat.eqb_spec (size (delete key m)) 0) as [Hz|Hz].
  - apply map_size_empty_inv in Hz. destruct (decide (p.2 = ts)) as [<-|Hne].
    + rewrite lookup_delete_eq. simpl. case_decide as Hp; [done|]. rewrite E. simpl.
      assert (key ≠ p.1) by (intros ->; apply Hp; by destruct p).
      by rewrite <-(lookup_delete_ne m key p.1), Hz, lookup_empty by done.
    + rewrite lookup_delete_ne by done. rewrite decide_False; [done|]. by intros ->.
  - destruct (decide (p.2 = ts)) as [<-|Hne].
    + rewrite lookup_insert_eq, E. simpl. case_decide as Hp.
      * rewrite Hp. simpl. apply lookup_delete_eq.
      * apply lookup_delete_ne. intros ->. apply Hp. by destruct p.
    + rewrite lookup_insert_ne by done. rewrite decide_False; [done|]. by intros ->.
Qed.

Lemma index_Remove_wf index key ts : index_wf index → index_wf (index_Remove index key ts).
Proof.
  intros Hwf. unfold index_Remove. destruct (index !! ts) as [m|]; [|done].
  destruct (Nat.eqb_spec (size (delete key m)) 0) as [Hz|Hz]; intros t m'.
  - intros [_ Hm]%lookup_delete_Some. by eapply Hwf.
  - intros [[_ <-]|[_ Hm]]%lookup_insert_Some; [|by eapply Hwf]. intros Hm. apply Hz. by rewrite Hm, map_size_empty.
Qed.

(** ** Windows that close *)

Context `{GoRange}.

(** The windows up to a start time, in the order of the scan. *)
Definition closing index (threshold : Z) : list (field * Z * A) :=
  go_range index ≫= λ x,
    if (x.1 <=? threshold)%Z then (λ y, (y.1, x.1, y.2)) <$> go_range x.2 else [].

Lemma elem_of_closing index th x :
  x ∈ closing index th ↔ at_window index x.1 = Some x.2 ∧ (x.1.2 ≤ th)%Z.
Proof.
  destruct x as [[k t] a]. unfold closing, at_window. rewrite list_elem_of_bind. cbn [fst snd]. split.
  - intros ([t' m] & Hx & Hin%elem_of_go_range). cbn [fst snd] in Hx. destruct (Z.leb_spec t' th); [|by apply elem_of_nil in Hx].
    apply list_elem_of_fmap in Hx as ([k' a'] & [= -> -> ->] & Hy%elem_of_go_range). by rewrite Hin.
  - intros [(m & Hm & Ha)%bind_Some Ht]. exists (t, m). cbn [fst snd]. split; [|by apply elem_of_go_range].
    rewrite (proj2 (Z.leb_le _ _)) by done. apply list_elem_of_fmap. exists (k, a). split; [done|]. by apply elem_of_go_range.
Qed.

Lemma NoDup_closing index th : NoDup (closing index th).*1.
Proof.
  unfold closing. rewrite fmap_bind_list. apply NoDup_bind.
  - intros [t m] [t' m'] [k s] Hx Hx'. simpl. intros Hin Hin'.
    assert (t = s ∧ t' = s) as [-> ->].
    { destruct (t <=? th)%Z; [|by apply elem_of_nil in Hin]. destruct (t' <=? th)%Z; [|by apply elem_of_nil in Hin'].
      rewrite <-list_fmap_compose in Hin, Hin'. set_solver. }
    apply elem_of_go_range in Hx, Hx'. congruence.
  - intros [t m] _. simpl. destruct (t <=? th)%Z; [|constructor]. rewrite <-list_fmap_compose.
    change (fst ∘ (λ y : field * A, (y.1, t, y.2))) with ((λ k, (k, t)) ∘ @fst field A).
    rewrite list_fmap_compose. apply NoDup_fmap_2; [by intros ?? [= ->]|]. apply NoDup_go_range.
  - apply (NoDup_fmap_1 fst), NoDup_go_range.
Qed.

(** Both scans accumulate [f] over the closing windows. *)
Lemma foldl_closing {B} (f : B → field * Z * A → B) index th (b : B) :
  foldl (λ st x, if (x.1 <=? th)%Z then foldl (λ st y, f st (y.1, x.1, y.2)) st (go_range x.2) else st)
    b (go_range index) = foldl f b (closing index th).
Proof.
  unfold closing. generalize (go_range index). intros l. revert b.
  induction l as [|[t m] l IH]; intros b; [done|]. cbn [foldl fst snd]. rewrite bind_cons, foldl_app, IH. f_equal. cbn [fst snd].
  destruct (t <=? th)%Z; [|done]. by rewrite foldl_fmap.
Qed.
End Index.

(** ** Tumbling *)

Lemma tw_Add_at index key ts p :
  at_window (tw_Add index key ts) p = if decide (p = (key, ts)) then Some tt else at_window index p.
Proof.
  rewrite <-(at_window_insert index p (key, ts) tt (default ∅ (index !! ts))) by done.
  unfold tw_Add. destruct (index !! ts) as [m|] eqn:E; simpl; f_equal; apply map_eq; intros t;
    destruct (decide (t = ts)) as [->|Hne];
    by rewrite ?lookup_alter_eq, ?lookup_alter_ne, ?lookup_insert_eq, ?lookup_insert_ne, ?E by done.
Qed.

Lemma tw_Add_wf index key ts : index_wf index → index_wf (tw_Add index key ts).
Proof.
  intros Hwf t m Hm. destruct (decide (t = ts)) as [->|Hne].
  - assert (Hat : at_window (tw_Add index key ts) (key, ts) = Some tt) by by rewrite tw_Add_at, decide_True.
    unfold at_window in Hat. simpl in Hat. rewrite Hm in Hat. intros ->. simpl in Hat. by rewrite lookup_empty in Hat.
  - apply (Hwf t). rewrite <-Hm. unfold tw_Add. destruct (index !! ts); by rewrite lookup_alter_ne, ?lookup_insert_ne.
Qed.

Lemma tw_fired_spec `{GoRange} index wm d :
  tw_GetWindowsToBeFired index wm d =
    let l := (closing index (i64 (wm - d))).*1 in (l.*1, l.*2).
Proof.
  unfold tw_GetWindowsToBeFired.
  rewrite (foldl_closing (λ st x, (st.1 ++ [x.1.1], st.2 ++ [x.1.2])) index).
  generalize (closing index (i64 (wm - d))). intros l. simpl.
  assert (Hl : ∀ a b, foldl (λ st x, (st.1 ++ [x.1.1], st.2 ++ [x.1.2])) (a, b) l = (a ++ l.*1.*1, b ++ l.*1.*2)).
  { induction l as [|x l IH]; intros a b; cbn [foldl fmap list_fmap fst snd]; [by rewrite !app_nil_r|].
    by rewrite IH, <-!app_assoc. }
  apply Hl.
Qed.
