(* ===== verification/WindowStore.v ===== *)
(** * Window operators: the aggregator and the stored accumulators

    What the user's functions are expected to do ([agg_ok]), what the service
    of a window operator holds ([window_store]: an accumulator per key and
    start time), and the effect of a batch on it, for both kinds of windows. *)

From stdpp Require Import prelude gmap strings list.
From Stdlib Require Import ZArith Lia.
From S2P Require Import Prelude Partition Codec StateType StateCache Backend StateService StateClient StateBatch Window.

(** ** Aggregators *)

(** The functions of an aggregator on the tuples of the accumulator. *)
Record AggSpec := MkAggSpec {
  a_new : list Tuple;
  a_add : list Tuple → Tuple → list Tuple;
  a_out : list Tuple → Tuple;
  a_merge : list Tuple → list Tuple → list Tuple
}.

(** A state with a value, whose tuples are [l]. *)
Definition acc_value (k : state_kind) (s : StateType) (l : list Tuple) : Prop :=
  kind_of_state s = k ∧ HasValue s = true ∧ state_tuples s = l.

(** Such a state in the cache, fetched as [l0] and not cleared. *)
Definition acc_state (k : state_kind) (tys : list Kind) (l0 : list Tuple) (s : StateType) (l : list Tuple) : Prop :=
  acc_value k s l ∧ tracks l0 s ∧ IsDeleted s = false ∧ Forall (well_typed tys) l.

(** The user's functions compute [spec] on the tuples, whatever the flags of
    the states they are given, and return states that can be flushed.
    [input] are the records they are meant for. *)
Record agg_ok (agg : Aggregator) (k : state_kind) (tys : list Kind) (input : Tuple → Prop) (spec : AggSpec) : Prop := {
  ag_new : acc_value k (NewFunc agg) (a_new spec);
  ag_first : ∀ r, input r → acc_state k tys [] (AddFunc agg (NewFunc agg) r) (a_add spec (a_new spec) r);
  ag_add : ∀ l0 s l r, acc_state k tys l0 s l → input r →
    acc_state k tys l0 (AddFunc agg s r) (a_add spec l r);
  ag_out : ∀ s l, acc_value k s l → OutFunc agg s = a_out spec l;
  ag_merge : ∀ s s' l l', acc_value k s l → acc_value k s' l' →
    acc_value k (MergeFunc agg s s') (a_merge spec l l')
}.

Lemma acc_state_fetched k tys l s :
  fetched k l s → l ≠ [] → Forall (well_typed tys) l → acc_state k tys l s l.
Proof.
  intros Hf Hne Hwt. pose proof (fetched_tracks _ _ _ Hf) as Ht. destruct Hf as (Hl & Hk & Hb & _).
  unfold acc_state, acc_value, HasValue, IsDeleted. rewrite Hb. simpl. by rewrite bool_decide_true.
Qed.

Lemma acc_state_nonempty k tys l0 s l : acc_state k tys l0 s l → l ≠ [].
Proof. intros ((_ & Hv & <-) & [Ht _] & _). by rewrite Hv in Ht. Qed.

(** An accumulator fits the cache it is kept in. *)
Lemma acc_state_storable c k tys l0 s l :
  acc_state k tys l0 s l → valueKind (cache_base c) = k → valueType (cache_base c) = tys →
  storable (cache_base c) l.
Proof.
  intros ((Hk & _ & Hl) & _ & _ & Hwt) Hck Hct. split; [by rewrite Hct|]. rewrite Hck. intros ->.
  destruct s as [b o|]; [|done]. simpl in Hl. subst. destruct o; simpl; lia.
Qed.

Lemma as_state_Ok k s : kind_of_state s = k → as_state k s = Ok s.
Proof. by destruct s; intros <-. Qed.

Lemma CopyFrom_kind s s' : kind_of_state s = kind_of_state s' → CopyFrom s s' = Ok s'.
Proof. by destruct s, s'. Qed.

Section Store.
Context `{MusLaws} `{GoRange} {S : Type} `{ServiceLaws S}.
Implicit Types sc : StateClient S.
Implicit Types w : WindowBase S.

Lemma same_conf_trans sc1 sc2 sc3 : same_conf sc1 sc2 → same_conf sc2 sc3 → same_conf sc1 sc3.
Proof. intros (?&?&?&?&?&?&?) (?&?&?&?&?&?&?). split_and!; congruence. Qed.

(** ** States under their own names *)

Definition wslot (p : field * Z) : slot := (p.1, Some p.2).

#[local] Instance wslot_inj : Inj (=) (=) wslot.
Proof. by intros [k t] [k' t'] [= -> ->]. Qed.

Lemma wslot_fst (ps : list (field * Z)) : (wslot <$> ps).*1 = ps.*1.
Proof. by rewrite <-list_fmap_compose. Qed.

Lemma wslot_snd (ps : list (field * Z)) : default 0%Z <$> (wslot <$> ps).*2 = ps.*2.
Proof. by rewrite <-!list_fmap_compose. Qed.

(** What a client's service holds for a slot is determined. *)
Lemma stored_unique sc id c sl l l' :
  client_ok sc → sc_cache sc !! id = Some c → storable (cache_base c) l → storable (cache_base c) l' →
  stored sc id sl l → stored sc id sl l' → l = l'.
Proof.
  intros Hok Hc [Hl _] [Hl' _] Hs Hs'.
  destruct (ok_caches _ Hok id c Hc) as (_ & (enc & dec & siz & _ & Hcodec) & Hsup & _).
  eapply (list_bytes_inj Hcodec Hsup); [done..|]. congruence.
Qed.

Lemma set_cached_twice c sl s s' : set_cached (set_cached c sl s) sl s' = set_cached c sl s'.
Proof.
  destruct c, sl as [k [t|]]; unfold set_cached; simpl; try done.
  - by rewrite insert_insert_eq.
  - by rewrite lookup_insert_eq; simpl; rewrite !insert_insert_eq.
Qed.

(** Copying twice is copying once. *)
Lemma copy_twice sc ids id sl s a b sc1 :
  batch_inv sc ids → id ∈ ids → sl ∈ slots sc → get_state sc id sl = Ok s →
  kind_of_state a = kind_of_state s → kind_of_state b = kind_of_state s →
  user_op sc (id, sl, OCopyFrom a) = Ok sc1 →
  get_state sc1 id sl = Ok a ∧ user_op sc1 (id, sl, OCopyFrom b) = user_op sc (id, sl, OCopyFrom b).
Proof.
  intros Hbi Hid Hsl Hs Ha Hb.
  destruct (get_cached sc ids Hbi id sl Hid Hsl) as (c & s' & Hc & Hcs & Hg & _).
  assert (s' = s) as -> by congruence.
  pose proof (slots_for sc ids Hbi sl Hsl) as Hfor.
  pose proof (slot_shape_for sc id c sl (bi_ok _ _ Hbi) Hc Hfor) as Hsh.
  destruct (cached_set c sl a Hsh) as (Hself & _ & Hsame & Hun).
  unfold user_op. rewrite Hs, !bind_Ok. simpl. rewrite !CopyFrom_kind, !bind_Ok, Hc by done.
  intros [= <-]. simpl. rewrite lookup_insert_eq.
  assert (Hget : get_state (set_caches sc (<[id:=set_cached c sl a]> (sc_cache sc))) id sl = Ok a).
  { eapply (get_state_Ok _ id (set_cached c sl a)); simpl; [|done| |done|done].
    - eapply (client_ok_same sc); [apply Hbi|done|]. intros j. simpl.
      destruct (decide (j = id)) as [->|Hne]; [rewrite Hc, lookup_insert_eq; eauto|].
      rewrite lookup_insert_ne by done. destruct (sc_cache sc !! j) as [x|]; [|done]. exists x. by split.
    - by rewrite lookup_insert_eq. }
  split; [done|]. rewrite Hget, bind_Ok, CopyFrom_kind, bind_Ok by congruence.
  by rewrite insert_insert_eq, set_cached_twice.
Qed.

(** ** What the operator's service holds *)

Section Operator.
Context (tys : list Kind).

(** The cache of the operator's state. *)
Definition state_cache w sc : Prop :=
  ∃ c, sc_cache sc !! wb_StateID w = Some c ∧
    valueKind (cache_base c) = wb_kind w ∧ valueType (cache_base c) = tys.

(** Tuples the operator's state can hold. *)
Definition acc_fits w (l : list Tuple) : Prop :=
  Forall (well_typed tys) l ∧ (wb_kind w = SValue → length l ≤ 1).

(** The service holds the accumulators [W], by key and start time, and no
    other state of this operator. *)
Record window_store w (W : gmap (field * Z) (list Tuple)) : Prop := {
  ws_ok : client_ok (wb_StateClient w);
  ws_typed : store_typed (wb_StateClient w);
  ws_type : stateClientType (wb_StateClient w) = WindowStateClient;
  ws_cache : state_cache w (wb_StateClient w);
  ws_stored : ∀ p, slot_for (wb_StateClient w) (wslot p) →
    stored (wb_StateClient w) (wb_StateID w) (wslot p) (default [] (W !! p));
  ws_accs : ∀ p l, W !! p = Some l → l ≠ [] ∧ acc_fits w l ∧ slot_for (wb_StateClient w) (wslot p)
}.

Lemma window_store_collector w W c : window_store w W → window_store (wb_set_collector w c) W.
Proof. intros []. by split. Qed.

Lemma acc_fits_storable w sc c l :
  sc_cache sc !! wb_StateID w = Some c → state_cache w sc → acc_fits w l → storable (cache_base c) l.
Proof.
  intros Hc (c' & Hc' & Hk & Ht) Hl. assert (c' = c) as -> by congruence.
  unfold storable. by rewrite Hk, Ht.
Qed.

Lemma state_cache_same w sc sc' : same_caches sc sc' → state_cache w sc → state_cache w sc'.
Proof.
  intros Hcs (c & Hc & Hk & Ht). specialize (Hcs (wb_StateID w)). rewrite Hc in Hcs.
  destruct Hcs as (c' & Hc' & Hb & _). exists c'. by rewrite Hb.
Qed.

Lemma store_fits w W p : window_store w W → acc_fits w (default [] (W !! p)).
Proof.
  intros Hw. destruct (W !! p) as [l|] eqn:E; simpl; [by apply (ws_accs _ _ Hw p l E)|].
  split; [constructor|simpl; lia].
Qed.

(** ** A batch in progress *)

(** [sc] is between the fetch of a batch, when the service held [W0], and its
    flush; the cached states are the accumulators [W]. *)
Record working w (W0 : gmap (field * Z) (list Tuple)) (W : gmap (field * Z) (list Tuple)) sc : Prop := {
  wk_inv : batch_inv sc [wb_StateID w];
  wk_cache : state_cache w sc;
  wk_base : ∀ p, wslot p ∈ slots sc →
    stored sc (wb_StateID w) (wslot p) (default [] (W0 !! p)) ∧ acc_fits w (default [] (W0 !! p));
  wk_states : ∀ p, wslot p ∈ slots sc →
    ∃ s, get_state sc (wb_StateID w) (wslot p) = Ok s ∧ kind_of_state s = wb_kind w ∧
      match W !! p with
      | Some l => acc_state (wb_kind w) tys (default [] (W0 !! p)) s l
      | None => HasValue s = false ∧ W0 !! p = None
      end;
  wk_rest : ∀ p, wslot p ∉ slots sc → W !! p = W0 !! p
}.

(** The fetch of a batch of windows. *)
Lemma fetch_working w W (ps : list (field * Z)) :
  window_store w W → ps ≠ [] → Forall (λ p, slot_for (wb_StateClient w) (wslot p)) ps →
  ∃ sc n, FetchWindowState (wb_StateClient w) ps.*1 ps.*2 [wb_StateID w] = Ok (sc, n) ∧
    working w W W sc ∧ same_conf (wb_StateClient w) sc ∧
    (∀ p, wslot p ∈ slots sc ↔ p ∈ ps) ∧ (∀ sl, sl ∈ slots sc → ∃ p, sl = wslot p) ∧
    same_values (stateService (wb_StateClient w)) (stateService sc).
Proof.
  intros Hw Hne Hps. pose proof (ws_ok _ _ Hw) as Hok. pose proof (ws_typed _ _ Hw) as Hst.
  destruct (ws_cache _ _ Hw) as (c & Hc & Hk & Ht).
  destruct (fetch_batch_inv (wb_StateClient w) (wslot <$> ps) [wb_StateID w]) as (sc & n & Hrun & Hbi & Haf & Hin);
    try done.
  { by destruct ps. }
  { by apply Forall_fmap. }
  { apply NoDup_singleton. }
  { intros id ->%list_elem_of_singleton. eauto. }
  unfold fetch in Hrun. rewrite (ws_type _ _ Hw), wslot_fst, wslot_snd in Hrun.
  exists sc, n. split; [done|]. pose proof Haf as (Hconf & Hcs & Hfill & Hcont & _).
  assert (Hinp : ∀ p, wslot p ∈ slots sc ↔ p ∈ ps).
  { intros p. rewrite Hin, list_elem_of_fmap. split; [|by eexists].
    by intros (q & ->%(inj wslot) & Hq). }
  rewrite Forall_forall in Hps. split_and!; [|done..| |done].
  2:{ intros sl Hsl. apply Hin, list_elem_of_fmap in Hsl as (p & -> & _). by exists p. }
  split; [done|eapply state_cache_same; [done|apply Hw]| | |done].
  - intros p Hp%Hinp. split; [|by apply store_fits].
    apply (stored_same (wb_StateClient w) sc); [done..|]. by apply (ws_stored _ _ Hw), Hps.
  - intros p Hp. apply Hinp in Hp as Hpp.
    destruct (Hfill (wb_StateID w)) as (c0 & c' & Hc0 & Hc' & _ & Hu & Hlook); [by left|].
    assert (c0 = c) as -> by congruence.
    destruct (Hlook (wslot p) (default [] (W !! p)) Hp) as (s & Hs & Hf).
    { eapply acc_fits_storable; [done|apply Hw|by apply store_fits]. }
    { by apply (ws_stored _ _ Hw), Hps. }
    rewrite Hk in Hf. exists s. split_and!.
    + eapply get_state_Ok; try done; [apply Hbi|]. by eapply slots_for.
    + by destruct Hf as (_ & ? & _).
    + destruct (W !! p) as [l|] eqn:E; simpl in *.
      * destruct (ws_accs _ _ Hw p l E) as (Hl & [Hwt _] & _). by apply acc_state_fetched.
      * split; [|done]. destruct Hf as (_ & _ & Hb & _). unfold HasValue. by rewrite Hb.
Qed.

(** The aggregate of a record in its window. *)
Definition spec_add (spec : AggSpec) (W : gmap (field * Z) (list Tuple)) (p : field * Z) (r : Tuple)
    : gmap (field * Z) (list Tuple) :=
  <[p := a_add spec (default (a_new spec) (W !! p)) r]> W.

(** A state of the batch is replaced by an accumulator. *)
Lemma copy_working w W0 W sc p s s' l :
  working w W0 W sc → wslot p ∈ slots sc → get_state sc (wb_StateID w) (wslot p) = Ok s →
  acc_state (wb_kind w) tys (default [] (W0 !! p)) s' l →
  ∃ sc', user_op sc (wb_StateID w, wslot p, OCopyFrom s') = Ok sc' ∧
    working w W0 (<[p := l]> W) sc' ∧ slots sc' = slots sc ∧ same_conf sc sc' ∧
    stateService sc' = stateService sc.
Proof.
  intros Hwk Hp Hs Hacc. pose proof (wk_inv _ _ _ _ Hwk) as Hbi.
  destruct (wk_states _ _ _ _ Hwk p Hp) as (s1 & Hs1 & Hk & _). assert (s1 = s) as -> by congruence.
  destruct (wk_base _ _ _ _ Hwk p Hp) as [Hst Hfit].
  assert (Hrun : is_ok (user_op sc (wb_StateID w, wslot p, OCopyFrom s')) = true).
  { unfold user_op. rewrite Hs, bind_Ok. simpl. destruct Hacc as ((Hk' & _) & _).
    rewrite CopyFrom_kind, bind_Ok by congruence. by destruct (wk_cache _ _ _ _ Hwk) as (c & -> & _). }
  destruct (user_op sc (wb_StateID w, wslot p, OCopyFrom s')) as [sc'|] eqn:Erun; [|done]. clear Hrun.
  destruct (user_op_inv sc [wb_StateID w] (wb_StateID w) (wslot p) (OCopyFrom s') sc' Hbi) as
    (Hbi' & Hsl' & Hconf & Hcs & Hsv & t & t' & Ht & Happ & Hget & Hother); [by left|done| |done|].
  { intros c l0 Hc Hl0 Hst0. destruct Hacc as ((_ & _ & <-) & Htr & _ & Hwt).
    assert (l0 = default [] (W0 !! p)) as ->.
    { eapply stored_unique; try done; [apply Hbi|by eapply acc_fits_storable; [|apply Hwk|]]. }
    simpl. split; [done|]. destruct (wk_cache _ _ _ _ Hwk) as (c' & Hc' & _ & Hty).
    assert (c' = c) as -> by congruence. by rewrite Hty. }
  exists sc'. split; [done|]. split_and!; try done.
  assert (Hss : same_values (stateService sc) (stateService sc')) by (intros k; by rewrite Hsv).
  split; [done|by eapply state_cache_same; [|apply Hwk]| | |].
  - rewrite Hsl'. intros q Hq. destruct (wk_base _ _ _ _ Hwk q Hq). split; [|done].
    by apply (stored_same sc sc').
  - rewrite Hsl'. intros q Hq. destruct (decide (q = p)) as [->|Hne].
    + exists s'. rewrite lookup_insert_eq. assert (t = s) as -> by congruence.
      simpl in Happ. destruct Hacc as ((Hk' & Hv) & Hrest). rewrite CopyFrom_kind in Happ by congruence.
      injection Happ as <-. by split_and!.
    + rewrite lookup_insert_ne by done. destruct (wk_states _ _ _ _ Hwk q Hq) as (sq & Hsq & Hrest).
      exists sq. split; [|done]. rewrite <-Hsq. apply Hother; [by left|done|]. intros [= Hq1 Hq2].
      apply Hne. by destruct p, q; simplify_eq/=.
  - rewrite Hsl'. intros q Hq. rewrite lookup_insert_ne by congruence. by apply (wk_rest _ _ _ _ Hwk).
Qed.

Section Aggregate.
Context (input : Tuple → Prop) (spec : AggSpec).
Context {I : Type} (startOf : Z → Z) (addToIndex : I → field → Z → res I).

Definition window_of w (r : Tuple) : field * Z := (wb_KeyAssigner w r, startOf (timestamp r)).

(** The index after a record: extended when the window is new. *)
Definition index_after (W : gmap (field * Z) (list Tuple)) (index : I) (p : field * Z) : res I :=
  match W !! p with
  | Some _ => Ok index
  | None => addToIndex index p.1 p.2
  end.

Lemma process_record_Ok w W0 W sc index index' r :
  agg_ok (wb_Aggregator w) (wb_kind w) tys input spec →
  working w W0 W sc → wslot (window_of w r) ∈ slots sc → input r →
  index_after W index (window_of w r) = Ok index' →
  ∃ sc', process_record startOf addToIndex w (sc, index) (wb_KeyAssigner w r, r) = Ok (sc', index') ∧
    working w W0 (spec_add spec W (window_of w r) r) sc' ∧ slots sc' = slots sc ∧ same_conf sc sc' ∧
    stateService sc' = stateService sc.
Proof.
  intros Hagg Hwk Hp Hr Hidx. set (p := window_of w r) in *.
  destruct (wk_states _ _ _ _ Hwk p Hp) as (s & Hs & Hk & Hcase).
  unfold process_record. change (wb_KeyAssigner w r) with p.1.
  change (startOf (timestamp r)) with p.2. change (p.1, Some p.2) with (wslot p).
  change (GetWindowState sc (wb_StateID w) p.1 p.2) with (get_state sc (wb_StateID w) (wslot p)).
  rewrite Hs, bind_Ok, as_state_Ok, bind_Ok by done.
  clearbody p. unfold spec_add. unfold index_after in Hidx.
  destruct (W !! p) as [l|] eqn:EW; cbn [from_option id].
  - injection Hidx as <-. pose proof Hcase as ((_ & -> & _) & _). rewrite bind_Ok.
    change (GetWindowState sc (wb_StateID w) p.1 p.2) with (get_state sc (wb_StateID w) (wslot p)).
    rewrite Hs, bind_Ok. pose proof (ag_add _ _ _ _ _ Hagg _ _ _ r Hcase Hr) as Hacc.
    destruct (copy_working w W0 W sc p s _ _ Hwk Hp Hs Hacc) as (sc' & -> & Hrest).
    rewrite bind_Ok. by exists sc'.
  - destruct Hcase as [-> HW0].
    pose proof (ag_first _ _ _ _ _ Hagg r Hr) as Hacc. destruct (ag_new _ _ _ _ _ Hagg) as (Hkn & _ & _).
    assert (Hacc' := Hacc). replace (@nil Tuple) with (default [] (W0 !! p)) in Hacc' at 1 by by rewrite HW0.
    destruct (copy_working w W0 W sc p s _ _ Hwk Hp Hs Hacc') as (sc' & Hrun & Hrest).
    assert (Hnew : is_ok (user_op sc (wb_StateID w, wslot p, OCopyFrom (NewFunc (wb_Aggregator w)))) = true).
    { unfold user_op. rewrite Hs, bind_Ok. simpl. rewrite CopyFrom_kind, bind_Ok by congruence.
      by destruct (wk_cache _ _ _ _ Hwk) as (c & -> & _). }
    destruct (user_op sc (wb_StateID w, wslot p, OCopyFrom (NewFunc (wb_Aggregator w)))) as [sc1|] eqn:E1; [|done].
    destruct (copy_twice sc [wb_StateID w] (wb_StateID w) (wslot p) s (NewFunc (wb_Aggregator w))
      (AddFunc (wb_Aggregator w) (NewFunc (wb_Aggregator w)) r) sc1) as [Hg1 Htw]; try done.
    { apply Hwk. } { by left. } { congruence. } { destruct Hacc as ((-> & _) & _). congruence. }
    rewrite !bind_Ok, Hidx, !bind_Ok.
    change (GetWindowState sc1 (wb_StateID w) p.1 p.2) with (get_state sc1 (wb_StateID w) (wslot p)).
    rewrite Hg1, bind_Ok, Htw, Hrun, bind_Ok. by exists sc'.
Qed.

(** A batch on the accumulators and the index. *)
Definition spec_record w (st : gmap (field * Z) (list Tuple) * I) (r : Tuple)
    : res (gmap (field * Z) (list Tuple) * I) :=
  let p := window_of w r in
  index ← index_after st.1 st.2 p;
  Ok (spec_add spec st.1 p r, index).

Lemma process_loop_Ok w W0 W sc index records st :
  agg_ok (wb_Aggregator w) (wb_kind w) tys input spec →
  working w W0 W sc → Forall (λ r, wslot (window_of w r) ∈ slots sc ∧ input r) records →
  foldM (spec_record w) (W, index) records = Ok st →
  ∃ sc', foldM (process_record startOf addToIndex w) (sc, index)
           (zip (wb_KeyAssigner w <$> records) records) = Ok (sc', st.2) ∧
    working w W0 st.1 sc' ∧ slots sc' = slots sc ∧ same_conf sc sc' ∧ stateService sc' = stateService sc.
Proof.
  intros Hagg. revert W sc index. induction records as [|r records IH]; intros W sc index Hwk Hrec.
  { intros [= <-]. exists sc. by split_and!. }
  apply Forall_cons in Hrec as [[Hp Hr] Hrec]. cbn [foldM fmap list_fmap zip zip_with].
  unfold spec_record at 1. cbn [fst snd]. intros ([W1 index1] & Hidx & Hrest)%bind_Ok_inv.
  apply bind_Ok_inv in Hidx as (index2 & Hidx & [= <- <-]).
  destruct (process_record_Ok w W0 W sc index index2 r) as (sc1 & -> & Hwk1 & Hsl1 & Hconf1 & Hsv1); try done.
  rewrite bind_Ok.
  destruct (IH _ sc1 index2 Hwk1 ltac:(by rewrite Hsl1) Hrest) as (sc2 & Hrun & Hwk2 & Hsl2 & Hconf2 & Hsv2).
  exists sc2. split_and!; try done; [congruence|by eapply same_conf_trans|congruence].
Qed.

(** The flush stores the accumulators. *)
Lemma flush_working w W0 W sc :
  window_store w W0 → working w W0 W sc → same_conf (wb_StateClient w) sc →
  same_values (stateService (wb_StateClient w)) (stateService sc) →
  (∀ sl, sl ∈ slots sc → ∃ p, sl = wslot p) →
  ∃ sc' cnt, FlushWindowState sc = Ok (sc', cnt) ∧ window_store (wb_set_client w sc') W ∧
    same_conf sc sc'.
Proof.
  intros Hw Hwk Hconf Hsv Hall. pose proof (wk_inv _ _ _ _ Hwk) as Hbi.
  destruct (flush_stored sc [wb_StateID w] Hbi) as (s' & cnt & Hfl & Hok & Hst & Hin & Hout).
  assert (Hty : stateClientType sc = WindowStateClient) by (destruct Hconf as (_ & -> & _); apply Hw).
  unfold flush in Hfl. rewrite Hty in Hfl. exists (set_service sc s'), cnt. split; [done|]. split; [|done].
  assert (Hacc : ∀ p l, W !! p = Some l → wslot p ∈ slots sc → l ≠ [] ∧ acc_fits w l).
  { intros p l Hl Hp. destruct (wk_states _ _ _ _ Hwk p Hp) as (s & _ & _ & Hs). rewrite Hl in Hs.
    split; [by eapply acc_state_nonempty|]. destruct (wk_cache _ _ _ _ Hwk) as (c & _ & Hck & Hct).
    destruct (acc_state_storable c _ _ _ _ _ Hs Hck Hct) as [H1' H2']. rewrite Hck in H2'. rewrite Hct in H1'.
    by split. }
  split; simpl; try done.
  - apply Hwk.
  - intros p Hp. change (slot_for sc (wslot p)) in Hp.
    destruct (decide (wslot p ∈ slots sc)) as [Hsl|Hsl].
    + destruct (wk_states _ _ _ _ Hwk p Hsl) as (s & Hs & _ & Hcase).
      specialize (Hin (wb_StateID w) (wslot p) s). rewrite list_elem_of_singleton in Hin.
      specialize (Hin eq_refl Hsl Hs). destruct (W !! p) as [l|]; simpl.
      * destruct Hcase as ((_ & Hv & <-) & _ & Hd & _). by rewrite Hv, Hd in Hin.
      * destruct Hcase as [Hv _]. by rewrite Hv in Hin.
    + rewrite (wk_rest _ _ _ _ Hwk p Hsl).
      pose proof (ws_stored _ _ Hw p) as Hold. rewrite <-(same_conf_slot _ _ _ Hconf) in Hold.
      specialize (Hold Hp). unfold stored in *. simpl.
      change (slot_bytes (set_service sc s')) with (slot_bytes sc). rewrite Hout, Hsv.
      * by rewrite (same_conf_bytes (wb_StateClient w) sc).
      * intros id sl ->%list_elem_of_singleton Hsl' Heq.
        pose proof (ids_u16 sc _ Hbi (wb_StateID w) ltac:(by left)) as Hu.
        apply (slot_bytes_inj sc) in Heq as [_ <-]; [done|done|done|done|by eapply slots_for].
  - intros p l Hl. change (slot_for (set_service sc s') (wslot p)) with (slot_for sc (wslot p)).
    destruct (decide (wslot p ∈ slots sc)) as [Hsl|Hsl].
    + destruct (Hacc p l Hl Hsl). split_and!; [done..|]. by eapply slots_for.
    + rewrite (wk_rest _ _ _ _ Hwk p Hsl) in Hl. destruct (ws_accs _ _ Hw p l Hl) as (? & ? & Hs).
      split_and!; [done..|]. by apply (same_conf_slot _ _ _ Hconf).
Qed.

(** A batch of records: the accumulators of their windows are updated in the
    service, and the index where windows are new. *)
Lemma process_records_Ok w W index records st :
  agg_ok (wb_Aggregator w) (wb_kind w) tys input spec →
  window_store w W → records ≠ [] →
  Forall (λ r, slot_for (wb_StateClient w) (wslot (window_of w r)) ∧ input r) records →
  foldM (spec_record w) (W, index) records = Ok st →
  ∃ sc', process_records startOf addToIndex w index records = Ok (wb_set_client w sc', st.2) ∧
    window_store (wb_set_client w sc') st.1 ∧ same_conf (wb_StateClient w) sc'.
Proof.
  intros Hagg Hw Hne Hrec Hspec. unfold process_records.
  destruct (fetch_working w W (window_of w <$> records)) as (sc & n & Hf & Hwk & Hconf & Hin & Hall & Hsv); [done| | |].
  { by destruct records. }
  { apply Forall_fmap. eapply Forall_impl; [exact Hrec|]. by intros r []. }
  rewrite <-!list_fmap_compose in Hf. change (fst ∘ window_of w) with (wb_KeyAssigner w) in Hf.
  change (snd ∘ window_of w) with (startOf ∘ timestamp) in Hf. rewrite Hf, bind_Ok.
  destruct (process_loop_Ok w W W sc index records st) as (sc1 & -> & Hwk1 & Hsl1 & Hconf1 & Hsv1); try done.
  { apply Forall_forall. intros r Hr. rewrite Forall_forall in Hrec. split; [|by apply Hrec].
    apply Hin, list_elem_of_fmap. by exists r. }
  rewrite bind_Ok. pose proof (same_conf_trans _ _ _ Hconf Hconf1) as Hconf'.
  destruct (flush_working w W st.1 sc1) as (sc2 & cnt & Hfl & Hw2 & Hconf2); try done.
  { intros k. by rewrite Hsv1. } { by rewrite Hsl1. }
  rewrite Hfl, bind_Ok. exists sc2. split; [done|]. split; [done|]. by eapply same_conf_trans.
Qed.
End Aggregate.

(** ** Removing windows *)

(** The client after keys of the operator were deleted: those of the windows
    [D], all of them of the current batch. *)
Lemma delete_working w (W : gmap (field * Z) (list Tuple)) sc (s' : S) (D : gset (field * Z)) :
  window_store w W → working w W W sc → same_conf (wb_StateClient w) sc →
  (∀ sl, sl ∈ slots sc → ∃ p, sl = wslot p) →
  serving (set_service sc s') → (∀ p, p ∈ D → wslot p ∈ slots sc) →
  same_values (stateService (wb_StateClient w)) (stateService sc) →
  (∀ p, wslot p ∈ slots sc → value_of s' (slot_bytes sc (wb_StateID w) (wslot p)) =
     if decide (p ∈ D) then [] else value_of (stateService sc) (slot_bytes sc (wb_StateID w) (wslot p))) →
  (∀ k, (∀ sl, sl ∈ slots sc → k ≠ slot_bytes sc (wb_StateID w) sl) → value_of s' k = value_of (stateService sc) k) →
  window_store (wb_set_client w (set_service sc s')) (filter (λ x, x.1 ∉ D) W).
Proof.
  intros Hw Hwk Hconf Hall Hsv HD Hsame Hin Hout. pose proof (wk_inv _ _ _ _ Hwk) as Hbi.
  pose proof (ids_u16 sc _ Hbi (wb_StateID w) ltac:(by left)) as Hu.
  assert (Hmem : ∀ p, wslot p ∈ wslot <$> elements D ↔ p ∈ D).
  { intros p. rewrite list_elem_of_fmap. setoid_rewrite elem_of_elements. split; [|by eexists].
    by intros (q & ->%(inj wslot) & Hq). }
  assert (Hkey : ∀ id sl, is_u16 id → slot_for sc sl → value_of s' (slot_bytes sc id sl) =
    if decide (id = wb_StateID w ∧ sl ∈ wslot <$> elements D) then []
    else value_of (stateService sc) (slot_bytes sc id sl)).
  { intros id sl Hid Hsl. destruct (decide (id = wb_StateID w ∧ sl ∈ slots sc)) as [[-> Hs]|Hn].
    - destruct (Hall sl Hs) as [p ->]. rewrite (Hin p Hs). specialize (Hmem p). repeat case_decide; tauto.
    - rewrite decide_False; [apply Hout|]; [|intros (-> & (p & -> & Hp)%list_elem_of_fmap); apply Hn; split; [done|by apply HD, elem_of_elements]].
      intros sl' Hsl' [-> ->]%(slot_bytes_inj sc); [by destruct Hn|done..|by eapply slots_for]. }
  assert (Hst : store_typed (set_service sc s')).
  { split; [done|]. intros id c sl Hc Hsl.
    destruct (st_states _ (bi_typed _ _ Hbi) id c sl Hc Hsl) as (l & Hl & Hs).
    destruct (ok_caches _ (bi_ok _ _ Hbi) id c Hc) as (Hid & _). specialize (Hkey id sl Hid Hsl).
    unfold stored in *. simpl. change (slot_bytes (set_service sc s')) with (slot_bytes sc).
    rewrite Hkey. case_decide; [|by exists l]. exists []. split; [split; [constructor|simpl; lia]|done]. }
  split; simpl; try done.
  - eapply (client_ok_same sc); [apply Hbi|done|]. intros id. simpl.
    destruct (sc_cache sc !! id) as [c|]; [|done]. exists c. by split.
  - destruct Hconf as (_ & -> & _). apply Hw.
  - apply Hwk.
  - intros p Hp. change (slot_for sc (wslot p)) in Hp. unfold stored. simpl.
    change (slot_bytes (set_service sc s')) with (slot_bytes sc). rewrite Hkey by done.
    destruct (decide (p ∈ D)) as [HpD|HpD].
    + rewrite decide_True by (by rewrite Hmem). by rewrite map_lookup_filter_None_2 by naive_solver.
    + rewrite decide_False by (rewrite Hmem; tauto).
      assert (filter (λ x, x.1 ∉ D) W !! p = W !! p) as ->.
      { destruct (W !! p) eqn:E; [by apply map_lookup_filter_Some_2|apply map_lookup_filter_None_2; by left]. }
      rewrite Hsame, (same_conf_bytes (wb_StateClient w) sc) by done.
      apply (ws_stored _ _ Hw p). by apply (same_conf_slot _ _ _ Hconf).
  - intros p l [Hl _]%map_lookup_filter_Some. destruct (ws_accs _ _ Hw p l Hl) as (? & ? & Hs).
    split_and!; [done..|]. by apply (same_conf_slot _ _ _ Hconf).
Qed.

(** A fetch alone keeps the store. *)
Lemma fetched_store w W sc :
  window_store w W → working w W W sc → same_conf (wb_StateClient w) sc →
  same_values (stateService (wb_StateClient w)) (stateService sc) →
  window_store (wb_set_client w sc) W.
Proof.
  intros Hw Hwk Hconf Hsv. pose proof (wk_inv _ _ _ _ Hwk) as Hbi.
  split; simpl; try apply Hbi.
  - destruct Hconf as (_ & -> & _). apply Hw.
  - apply Hwk.
  - intros p Hp. apply (stored_same (wb_StateClient w) sc); [done..|].
    apply (ws_stored _ _ Hw). by apply (same_conf_slot _ _ _ Hconf).
  - intros p l Hl. destruct (ws_accs _ _ Hw p l Hl) as (? & ? & Hs). split_and!; [done..|].
    by apply (same_conf_slot _ _ _ Hconf).
Qed.
End Operator.
End Store.

(** ** A sum over a value state *)

Definition num_at (i : nat) (t : Tuple) : Z :=
  match fields t !! i with Some (FNum _ z) => z | _ => 0%Z end.

Definition sum_tuple (z : Z) : Tuple := MkTuple [FNum KInt64 (i64 z)] 0.

Definition plus_state (s : StateType) (z : Z) : StateType :=
  match s with
  | ValueState b (Some t) => vs_Set b (sum_tuple (num_at 0 t + z))
  | _ => s
  end.

Definition sum_of (l : list Tuple) : Z := match l with [t] => num_at 0 t | _ => 0%Z end.

(** The second field of the records is added up. *)
Definition sum_aggregator : Aggregator := {|
  NewFunc := NewValueState (sum_tuple 0);
  AddFunc s r := plus_state s (num_at 1 r);
  OutFunc s := sum_tuple (sum_of (state_tuples s));
  MergeFunc s s' := plus_state s (sum_of (state_tuples s'))
|}.

Definition plus_tuples (l : list Tuple) (z : Z) : list Tuple :=
  match l with [t] => [sum_tuple (num_at 0 t + z)] | _ => l end.

Definition sum_spec : AggSpec := {|
  a_new := [sum_tuple 0];
  a_add l r := plus_tuples l (num_at 1 r);
  a_out l := sum_tuple (sum_of l);
  a_merge l l' := plus_tuples l (sum_of l')
|}.

Lemma plus_state_value s l z : acc_value SValue s l → acc_value SValue (plus_state s z) (plus_tuples l z).
Proof. intros (Hk & Hv & <-). destruct s as [b [t|]|]; try done. Qed.

Lemma sum_tuple_typed z : well_typed [KInt64] (sum_tuple z).
Proof.
  pose proof (i64_range z) as Hr. unfold is_i64 in Hr. split; [|unfold is_i64; simpl; lia].
  constructor; [|constructor]. simpl. by rewrite (proj2 (Z.leb_le _ _)), (proj2 (Z.ltb_lt _ _)) by lia.
Qed.

Lemma plus_state_acc l0 s l z :
  acc_value SValue s l → l ≠ [] → IsDeleted s = false →
  acc_state SValue [KInt64] l0 (plus_state s z) (plus_tuples l z).
Proof.
  intros Hv Hne Hd. split; [by apply plus_state_value|]. destruct Hv as (Hk & Hv & <-).
  destruct s as [b [t|]|]; [|done..]. split_and!; [by split|done|]. constructor; [apply sum_tuple_typed|constructor].
Qed.

Lemma sum_aggregator_ok input : agg_ok sum_aggregator SValue [KInt64] input sum_spec.
Proof.
  split.
  - done.
  - intros r _. by apply plus_state_acc.
  - intros l0 s l r Hs _. pose proof (acc_state_nonempty _ _ _ _ _ Hs). destruct Hs as (Hv & _ & Hd & _). by apply plus_state_acc.
  - by intros s l (_ & _ & <-).
  - intros s s' l l' Hs (_ & _ & <-). by apply plus_state_value.
Qed.

(** The first field is the key. *)
Definition demo_key (r : Tuple) : field := FNum KInt64 (i64 (num_at 0 r)).

Lemma demo_key_kind r : has_kind KInt64 (demo_key r) = true.
Proof.
  pose proof (i64_range (num_at 0 r)) as Hr. unfold is_i64 in Hr. simpl.
  by rewrite (proj2 (Z.leb_le _ _)), (proj2 (Z.ltb_lt _ _)) by lia.
Qed.

Definition demo_base : WindowBase (LocalService MemoryStateBackend) :=
  MkWindowBase demo_client demo_key 0 SValue sum_aggregator (MkCollector (-1) []).

Lemma demo_store : window_store [KInt64] demo_base ∅.
Proof.
  destruct demo_client_ready as (Hok & Hst & _). split; simpl; try done.
  - assert (Hc : (λ c, (valueKind (cache_base c), valueType (cache_base c))) <$> sc_cache demo_client !! 0%Z
      = Some (SValue, [KInt64])) by by vm_compute.
    apply fmap_Some in Hc as (c & Hc & [= Hk Ht]). exists c. by rewrite <-Hk, <-Ht.
Qed.
