(* ===== verification/WindowRun.v ===== *)
(** * Window operators: sequences of events

    An operator is given batches and watermarks.  Two facts about running an
    abstract operator over them, used for both kinds of windows: a simulation
    of single events carries over to runs ([run_simulates]), and without late
    records the results of a run are those of the closed windows
    ([run_exact]). *)

From stdpp Require Import prelude gmap strings list.
From Stdlib Require Import ZArith Lia.
From S2P Require Import Prelude Codec WindowIndex.

Inductive event := EBatch (records : list Tuple) | EWatermark (wm : Z).

(** Times are far from the bounds of [int64]. *)
Definition time_ok (t : Z) : Prop := (0 ≤ t < 2 ^ 62)%Z.

Definition records_of (events : list event) : list Tuple :=
  events ≫= λ e, match e with EBatch records => records | EWatermark _ => [] end.

(** No record is older than the last watermark, and watermarks do not go
    back. *)
Fixpoint on_time (wm : Z) (events : list event) : Prop :=
  match events with
  | [] => True
  | EBatch records :: events => Forall (λ r, wm ≤ timestamp r)%Z records ∧ on_time wm events
  | EWatermark wm' :: events => (wm ≤ wm')%Z ∧ on_time wm' events
  end.

Fixpoint last_watermark (wm : Z) (events : list event) : Z :=
  match events with
  | [] => wm
  | EBatch _ :: events => last_watermark wm events
  | EWatermark wm' :: events => last_watermark wm' events
  end.

Lemma last_watermark_ge wm events : on_time wm events → (wm ≤ last_watermark wm events)%Z.
Proof.
  revert wm. induction events as [|[rs|wm'] events IH]; intros wm; simpl; [lia|by intros [_ ?%IH]|].
  intros [? ?%IH]. lia.
Qed.

Lemma on_time_records wm events : on_time wm events → Forall (λ r, wm ≤ timestamp r)%Z (records_of events).
Proof.
  revert wm. induction events as [|[rs|wm'] events IH]; intros wm; simpl; [done|..].
  - intros [Hrs Ht]. change (records_of (EBatch rs :: events)) with (rs ++ records_of events).
    apply Forall_app. split; [done|by apply IH].
  - intros [Hle Ht]. change (records_of (EWatermark wm' :: events)) with (records_of events).
    eapply Forall_impl; [by apply (IH wm')|]. simpl. lia.
Qed.

Section Run.
Context {St : Type} (step : St → event → St * list Tuple).

Fixpoint run_events (st : St) (events : list event) : St * list (list Tuple) :=
  match events with
  | [] => (st, [])
  | e :: events =>
      let '(st', out) := step st e in
      let '(st'', outs) := run_events st' events in (st'', out :: outs)
  end.

(** ** Simulation *)

Section Simulation.
Context {Op : Type} (run1 : Op → event → res Op) (emits : Op → list Tuple).
Context (R : Op → St → Prop) (ok : Op → event → Prop).
Context (Hsim : ∀ op st e, R op st → ok op e → ∃ op' out, run1 op e = Ok op' ∧ R op' (step st e).1 ∧
  (∀ e', ok op e' → ok op' e') ∧ emits op' = emits op ++ out ∧ out ≡ₚ (step st e).2).

Lemma run_simulates op st events :
  R op st → Forall (ok op) events →
  ∃ op' outs, foldM run1 op events = Ok op' ∧ R op' (run_events st events).1 ∧
    emits op' = emits op ++ concat outs ∧ Forall2 (≡ₚ) outs (run_events st events).2.
Proof.
  revert op st. induction events as [|e events IH]; intros op st HR Hev; cbn [foldM run_events].
  { exists op, []. by rewrite app_nil_r. }
  apply Forall_cons in Hev as [He Hev].
  destruct (Hsim op st e HR He) as (op1 & out & -> & HR1 & Hok & Hem & Hout). rewrite bind_Ok.
  destruct (step st e) as [st1 out1]. cbn [fst snd] in HR1, Hout.
  destruct (IH op1 st1 HR1) as (op2 & outs & Hrun & HR2 & Hem2 & Houts); [by eapply Forall_impl|].
  destruct (run_events st1 events) as [st2 outs2]. cbn [fst snd] in *.
  exists op2, (out :: outs). split_and!; [done..|by rewrite Hem2, Hem, <-app_assoc|by constructor].
Qed.
End Simulation.

(** ** Results without late records

    [wins rs] are the windows of the records [rs], [value rs w] the result of
    one of them, and [shut wm w] says that it ends by [wm].  [Open wm rs st]:
    [st] holds the windows of [rs] that are open at [wm]. *)

Section Exact.
Context {Win : Type} `{Countable Win} (wins : list Tuple → gset Win) (value : list Tuple → Win → Tuple).
Context (shut : Z → Win → Prop) `{∀ wm w, Decision (shut wm w)} (Open : Z → list Tuple → St → Prop).
Context (good : Tuple → Prop).
Context (wins_app : ∀ rs rs', wins (rs ++ rs') = wins rs ∪ wins rs').
Context (value_app : ∀ rs rs' w, w ∈ wins rs → w ∉ wins rs' → value (rs ++ rs') w = value rs w).
Context (shut_mono : ∀ wm wm' w, (wm ≤ wm')%Z → shut wm w → shut wm' w).
Context (wins_open : ∀ wm rs w, Forall (λ r, wm ≤ timestamp r)%Z rs → w ∈ wins rs → ¬ shut wm w).
Context (step_batch : ∀ wm rs st batch, Open wm rs st → Forall (λ r, wm ≤ timestamp r)%Z batch → Forall good batch →
  (step st (EBatch batch)).2 = [] ∧ Open wm (rs ++ batch) (step st (EBatch batch)).1).
Context (step_watermark : ∀ wm wm' rs st, Open wm rs st → (wm ≤ wm')%Z → Forall good rs →
  (step st (EWatermark wm')).2 ≡ₚ (value rs <$> elements (filter (λ w, shut wm' w ∧ ¬ shut wm w) (wins rs))) ∧
  Open wm' rs (step st (EWatermark wm')).1).

Lemma run_exact wm rs st events :
  Open wm rs st → on_time wm events → Forall good (rs ++ records_of events) →
  Open (last_watermark wm events) (rs ++ records_of events) (run_events st events).1 ∧
  concat (run_events st events).2 ≡ₚ (value (rs ++ records_of events) <$>
    elements (filter (λ w, shut (last_watermark wm events) w ∧ ¬ shut wm w) (wins (rs ++ records_of events)))).
Proof.
  revert wm rs st. induction events as [|[batch|wm'] events IH]; intros wm rs st Hop Hon Hgood; cbn [run_events].
  - change (records_of []) with (@nil Tuple). rewrite app_nil_r. split; [done|]. simpl.
    assert (filter (λ w, shut wm w ∧ ¬ shut wm w) (wins rs) = ∅) as ->; [|by rewrite elements_empty].
    apply set_eq. intros w. rewrite elem_of_filter. set_solver.
  - destruct Hon as [Hb Hon]. change (records_of (EBatch batch :: events)) with (batch ++ records_of events) in *.
    assert (Hgb : Forall good batch) by (rewrite !Forall_app in Hgood; naive_solver).
    destruct (step_batch wm rs st batch Hop Hb Hgb) as [Hout Hop'].
    destruct (step st (EBatch batch)) as [st1 out]. cbn [fst snd] in *. subst out. rewrite app_assoc in *.
    destruct (IH wm (rs ++ batch) st1) as [IH1 IH2]; [done..|].
    destruct (run_events st1 events) as [st2 outs]. cbn [fst snd] in *. by split.
  - destruct Hon as [Hle Hon]. change (records_of (EWatermark wm' :: events)) with (records_of events) in *.
    assert (Hgr : Forall good rs) by (rewrite Forall_app in Hgood; naive_solver).
    destruct (step_watermark wm wm' rs st Hop Hle Hgr) as [Hout Hop'].
    destruct (step st (EWatermark wm')) as [st1 out]. cbn [fst snd] in *.
    destruct (IH wm' rs st1) as [IH1 IH2]; [done..|].
    destruct (run_events st1 events) as [st2 outs]. cbn [fst snd] in *. split; [done|]. cbn [concat last_watermark].
    rewrite IH2, Hout.
    set (all := rs ++ records_of events) in *. set (wm'' := last_watermark wm' events).
    pose proof (last_watermark_ge wm' events Hon) as Hge. fold wm'' in Hge.
    assert (Hlate : ∀ w, w ∈ wins all → shut wm' w → w ∈ wins rs ∧ w ∉ wins (records_of events)).
    { intros w Hw Hc. pose proof (wins_open wm' (records_of events) w (on_time_records _ _ Hon)) as Hn.
      unfold all in Hw. rewrite wins_app in Hw. set_solver. }
    assert (Hsplit : filter (λ w, shut wm'' w ∧ ¬ shut wm w) (wins all) =
      filter (λ w, shut wm' w ∧ ¬ shut wm w) (wins rs) ∪ filter (λ w, shut wm'' w ∧ ¬ shut wm' w) (wins all)).
    { apply set_eq. intros w. rewrite elem_of_union, !elem_of_filter. specialize (Hlate w).
      assert (w ∈ wins rs → w ∈ wins all) by (unfold all; rewrite wins_app; set_solver).
      pose proof (shut_mono wm wm' w Hle). pose proof (shut_mono wm' wm'' w Hge).
      destruct (decide (shut wm' w)); naive_solver. }
    rewrite Hsplit, elements_disj_union, fmap_app by set_solver. apply Permutation_app; [|done].
    apply reflexive_eq, list_fmap_ext. intros _ w Hw%list_elem_of_lookup_2.
    apply elem_of_elements, elem_of_filter in Hw as [[Hc _] Hw]. symmetry. apply value_app; [done|].
    apply Hlate; [|done]. unfold all. rewrite wins_app. set_solver.
Qed.
End Exact.
End Run.
