(* ===== verification/TumblingWindow.v ===== *)
(** * Tumbling windows are correct

    The tumbling window operator of [Window.v], with its state in a state
    service, refines a map from windows to accumulators ([tumbling_refines]);
    for records that are not late it emits exactly one result per window, the
    aggregate of the window's records ([tumbling_exact]). *)

From stdpp Require Import prelude gmap strings list.
From Stdlib Require Import ZArith Lia.
From S2P Require Import Prelude Partition Codec WorkUnit StateType StateCache Backend StateService StateClient StateBatch Window WindowStore WindowIndex WindowRun.

(** ** The abstract operator *)

Section Spec.
Context (key : Tuple → field) (D : Z) (spec : AggSpec).
Implicit Types W : gmap (field * Z) (list Tuple).

(** The window of a record: the multiple of the duration before it. *)
Definition tumble (r : Tuple) : field * Z := (key r, timestamp r - timestamp r mod D)%Z.

Definition closed (wm : Z) (p : field * Z) : Prop := (p.2 + D ≤ wm)%Z.

#[export] Instance closed_dec wm p : Decision (closed wm p).
Proof. unfold closed. apply _. Defined.

(** The result of a window, stamped with the end of the window. *)
Definition result (x : field * Z * list Tuple) : Tuple := SetTimestamp (a_out spec x.2) (x.1.2 + D).

Definition spec_batch W (records : list Tuple) : gmap (field * Z) (list Tuple) :=
  foldl (λ W r, spec_add spec W (tumble r) r) W records.

Definition spec_event W (e : event) : gmap (field * Z) (list Tuple) * list Tuple :=
  match e with
  | EBatch records => (spec_batch W records, [])
  | EWatermark wm =>
      (filter (λ x, ¬ closed wm x.1) W, result <$> map_to_list (filter (λ x, closed wm x.1) W))
  end.

Definition spec_run W (events : list event) : gmap (field * Z) (list Tuple) * list (list Tuple) :=
  run_events spec_event W events.
End Spec.

(** ** Streams without late records *)

Section Exact.
Context (key : Tuple → field) (D : Z) (spec : AggSpec) (HD : (0 < D)%Z).

(** The windows of the records. *)
Definition windows (rs : list Tuple) : gset (field * Z) := list_to_set (tumble key D <$> rs).

(** The aggregate of the records of a window, in the order they came. *)
Definition aggregate (rs : list Tuple) (p : field * Z) : list Tuple :=
  foldl (a_add spec) (a_new spec) (filter (λ r, tumble key D r = p) rs).

Definition window_result (rs : list Tuple) (p : field * Z) : Tuple := result D spec (p, aggregate rs p).

Lemma elem_of_windows rs p : p ∈ windows rs ↔ ∃ r, r ∈ rs ∧ p = tumble key D r.
Proof. unfold windows. rewrite elem_of_list_to_set, list_elem_of_fmap. naive_solver. Qed.

Lemma windows_app rs rs' : windows (rs ++ rs') = windows rs ∪ windows rs'.
Proof. unfold windows. by rewrite fmap_app, list_to_set_app_L. Qed.

Lemma aggregate_later rs rs' p : p ∉ windows rs' → aggregate (rs ++ rs') p = aggregate rs p.
Proof.
  intros Hp. unfold aggregate. rewrite filter_app, foldl_app.
  assert (filter (λ r, tumble key D r = p) rs' = []) as ->; [|done].
  apply filter_nothing. intros r Hr Heq. apply Hp, elem_of_windows. eauto.
Qed.

(** Windows that are held for [C] after their start. *)
Section Open.
Context (C : Z) (HC : (D ≤ C)%Z).

(** A window of records that are not late is open. *)
Lemma window_open wm r : (wm ≤ timestamp r)%Z → ¬ closed C wm (tumble key D r).
Proof. intros Hle. unfold closed, tumble. simpl. pose proof (Z.mod_pos_bound (timestamp r) D HD). lia. Qed.

Lemma windows_open wm rs p : Forall (λ r, wm ≤ timestamp r)%Z rs → p ∈ windows rs → ¬ closed C wm p.
Proof. intros Hrs (r & Hr & ->)%elem_of_windows. rewrite Forall_forall in Hrs. by apply window_open, Hrs. Qed.

(** [W] holds the windows of [rs] that are open at [wm]. *)
Definition open_windows (wm : Z) (rs : list Tuple) (W : gmap (field * Z) (list Tuple)) : Prop :=
  ∀ p, W !! p = if decide (p ∈ windows rs ∧ ¬ closed C wm p) then Some (aggregate rs p) else None.

Lemma open_windows_record wm rs W r :
  open_windows wm rs W → (wm ≤ timestamp r)%Z → open_windows wm (rs ++ [r]) (spec_add spec W (tumble key D r) r).
Proof.
  intros Hop Hle p. unfold spec_add. set (q := tumble key D r).
  pose proof (window_open wm r Hle) as Hq. fold q in Hq.
  assert (Hr : windows [r] = {[q]}) by (unfold windows; simpl; set_solver).
  assert (Hagg : aggregate (rs ++ [r]) q = a_add spec (aggregate rs q) r).
  { unfold aggregate. rewrite filter_app, foldl_app, (filter_cons_True _ r []) by done. done. }
  rewrite windows_app, Hr. destruct (decide (p = q)) as [->|Hne].
  - rewrite lookup_insert_eq, decide_True by set_solver. f_equal. rewrite Hagg. f_equal. rewrite Hop.
    case_decide as Hd; [done|]. simpl. unfold aggregate.
    assert (filter (λ r0, tumble key D r0 = q) rs = []) as ->; [|done].
    apply filter_nothing. intros r' Hr' Heq. apply Hd. split; [|done]. apply elem_of_windows. eauto.
  - rewrite lookup_insert_ne, Hop by done. rewrite (aggregate_later rs [r]) by (rewrite Hr; set_solver).
    by repeat case_decide; set_solver.
Qed.

Lemma open_windows_batch wm rs W batch :
  open_windows wm rs W → Forall (λ r, wm ≤ timestamp r)%Z batch →
  open_windows wm (rs ++ batch) (spec_batch key D spec W batch).
Proof.
  revert rs W. induction batch as [|r batch IH]; intros rs W Hop Hb; [by rewrite app_nil_r|].
  apply Forall_cons in Hb as [Hr Hb]. rewrite cons_middle, app_assoc.
  apply IH; [by apply open_windows_record|done].
Qed.

Lemma open_windows_watermark wm wm' rs W :
  (wm ≤ wm')%Z → open_windows wm rs W → open_windows wm' rs (filter (λ x, ¬ closed C wm' x.1) W).
Proof.
  intros Hle Hop p. apply option_eq. intros l. rewrite map_lookup_filter_Some, Hop. simpl. unfold closed.
  repeat case_decide; naive_solver lia.
Qed.
End Open.

(** The windows a watermark closes. *)
Lemma watermark_results wm wm' rs W :
  open_windows D wm rs W →
  (result D spec <$> map_to_list (filter (λ x, closed D wm' x.1) W)) ≡ₚ
  (window_result rs <$> elements (filter (λ p, closed D wm' p ∧ ¬ closed D wm p) (windows rs))).
Proof.
  intros Hop. change (window_result rs) with (result D spec ∘ (λ p, (p, aggregate rs p))). rewrite list_fmap_compose.
  apply Permutation_map, NoDup_Permutation; [apply NoDup_map_to_list| |].
  - apply NoDup_fmap_2; [by intros ?? [= ->]|apply NoDup_elements].
  - intros [p l]. rewrite elem_of_map_to_list, map_lookup_filter_Some, list_elem_of_fmap. cbn [fst].
    setoid_rewrite elem_of_elements. setoid_rewrite elem_of_filter. rewrite Hop. split.
    + intros [Hl Hc]. case_decide; [|done]. injection Hl as <-. exists p. naive_solver.
    + intros (q & [= -> ->] & (Hc & Hn) & Hq). by rewrite decide_True.
Qed.

Lemma spec_run_exact events :
  on_time (-1) events → Forall (λ r, time_ok (timestamp r)) (records_of events) →
  open_windows D (last_watermark (-1) events) (records_of events) (spec_run key D spec ∅ events).1 ∧
  concat (spec_run key D spec ∅ events).2 ≡ₚ (window_result (records_of events) <$>
    elements (filter (closed D (last_watermark (-1) events)) (windows (records_of events)))).
Proof.
  intros Hon Hts.
  destruct (run_exact (spec_event key D spec) windows window_result (closed D) (open_windows D) (λ _, True))
    with (wm := (-1)%Z) (rs := @nil Tuple) (st := ∅ : gmap (field * Z) (list Tuple)) (events := events) as [Hop Hperm].
  - apply windows_app.
  - intros rs rs' w _ Hw. unfold window_result. by rewrite aggregate_later.
  - intros wm wm' w Hle. unfold closed. lia.
  - intros wm rs w. by apply windows_open.
  - intros wm rs W batch Hop Hb _. split; [done|]. by apply open_windows_batch.
  - intros wm wm' rs W Hop Hle _. split; [by apply watermark_results|by eapply open_windows_watermark].
  - intros p. by rewrite decide_False by (intros [(r & Hr & _)%elem_of_windows _]; by apply elem_of_nil in Hr).
  - done.
  - by apply Forall_true.
  - split; [done|]. etransitivity; [exact Hperm|]. apply reflexive_eq. cbn [app]. do 2 f_equal.
    apply set_eq. intros p. rewrite !elem_of_filter. split; [naive_solver|]. intros [Hc (r & Hr & ->)%elem_of_windows].
    split_and!; [done| |by apply elem_of_windows; exists r].
    apply window_open; [done|]. rewrite Forall_forall in Hts. specialize (Hts r Hr). unfold time_ok in Hts. lia.
Qed.
End Exact.

Section Tumbling.
Context `{MusLaws} `{GoRange} {S : Type} `{ServiceLaws S}.
Context (tys : list Kind) (input : Tuple → Prop) (spec : AggSpec).
Implicit Types tw : TumblingWindow S.
Implicit Types W : gmap (field * Z) (list Tuple).

Definition tw_event tw (e : event) : res (TumblingWindow S) :=
  match e with
  | EBatch records => tw_ProcessBatch tw (BatchUnit records)
  | EWatermark wm => tw_ProcessProgressedWatermark tw wm
  end.

(** The index has exactly the windows with an accumulator. *)
Definition index_of (index : gmap Z (gmap field unit)) W : Prop :=
  index_wf index ∧ ∀ p, at_window index p = (λ _, tt) <$> W !! p.

(** The operator with accumulators [W]. *)
Record tumbling tw W : Prop := {
  tu_agg : agg_ok (wb_Aggregator (tw_Base tw)) (wb_kind (tw_Base tw)) tys input spec;
  tu_store : window_store tys (tw_Base tw) W;
  tu_index : index_of (tw_Index tw) W;
  tu_duration : (0 < tw_Duration tw < 2 ^ 62)%Z;
  tu_times : ∀ p l, W !! p = Some l → time_ok p.2
}.

(** Records of the operator's input with times in range; a batch has one at
    least. *)
Definition record_ok (w : WindowBase S) (r : Tuple) : Prop :=
  has_kind (keyKind (wb_StateClient w)) (wb_KeyAssigner w r) = true ∧
  time_ok (timestamp r) ∧ input r.

Definition event_ok (w : WindowBase S) (e : event) : Prop :=
  match e with
  | EBatch records => records ≠ [] ∧ Forall (record_ok w) records
  | EWatermark wm => (-1 ≤ wm < 2 ^ 62)%Z
  end.

Lemma events_ok (w : WindowBase S) events : Forall (event_ok w) events → Forall (record_ok w) (records_of events).
Proof.
  induction 1 as [|e events He _ IH]; [constructor|]. apply Forall_app. split; [|done].
  destruct e; [apply He|constructor].
Qed.

Lemma events_times (w : WindowBase S) events :
  Forall (event_ok w) events → Forall (λ r, time_ok (timestamp r)) (records_of events).
Proof. intros Hev%events_ok. eapply Forall_impl; [exact Hev|]. intros r Hr. apply Hr. Qed.

(** What an event leaves as it is. *)
Definition same_base (w w' : WindowBase S) : Prop :=
  wb_KeyAssigner w' = wb_KeyAssigner w ∧ same_conf (wb_StateClient w) (wb_StateClient w').

Definition same_operator tw tw' : Prop :=
  same_base (tw_Base tw) (tw_Base tw') ∧ tw_Duration tw' = tw_Duration tw.

Lemma event_ok_same w w' e : same_base w w' → event_ok w e → event_ok w' e.
Proof.
  intros (Hk & (_ & _ & _ & _ & Hkind & _)). destruct e; [|done]. unfold event_ok, record_ok. by rewrite Hk, Hkind.
Qed.

Lemma same_operator_trans tw1 tw2 tw3 : same_operator tw1 tw2 → same_operator tw2 tw3 → same_operator tw1 tw3.
Proof.
  intros ((?&?)&?) ((?&?)&?). split; [split; [congruence|by eapply same_conf_trans]|congruence].
Qed.

(** The slots of records in range. *)
Lemma record_slot w W (r : Tuple) (t : Z) :
  window_store tys w W → record_ok w r → time_ok t → slot_for (wb_StateClient w) (wslot (wb_KeyAssigner w r, t)).
Proof.
  intros Hw (Hk & _) Ht. unfold slot_for. rewrite (ws_type _ _ _ Hw). split; [|by eexists].
  split; [done|]. simpl. unfold time_ok, is_i64 in *. lia.
Qed.

(** ** Batches *)

Abbreviation tw_spec_batch tw := (spec_batch (wb_KeyAssigner (tw_Base tw)) (tw_Duration tw) spec) (only parsing).

Lemma start_time (d ts : Z) :
  (0 < d)%Z → time_ok ts → getWindowStartTime d ts = (ts - ts mod d)%Z ∧ time_ok (ts - ts mod d).
Proof.
  intros Hd Hts. unfold time_ok in *. pose proof (Z.mod_pos_bound ts d Hd).
  pose proof (Z.mod_le ts d). unfold getWindowStartTime.
  rewrite Z.rem_mod_nonneg, i64_id by (unfold is_i64; lia). lia.
Qed.

Lemma window_of_tumble tw r :
  (0 < tw_Duration tw)%Z → record_ok (tw_Base tw) r →
  window_of (getWindowStartTime (tw_Duration tw)) (tw_Base tw) r =
    tumble (wb_KeyAssigner (tw_Base tw)) (tw_Duration tw) r.
Proof. intros Hd (_ & Ht & _). unfold window_of, tumble. by destruct (start_time (tw_Duration tw) (timestamp r)) as [-> _]. Qed.

Lemma spec_records_Ok tw W index records :
  (0 < tw_Duration tw)%Z → index_of index W → Forall (record_ok (tw_Base tw)) records →
  ∃ index', foldM (spec_record spec (getWindowStartTime (tw_Duration tw)) (λ i k t, Ok (tw_Add i k t)) (tw_Base tw))
      (W, index) records =
    Ok (tw_spec_batch tw W records, index') ∧
    index_of index' (tw_spec_batch tw W records).
Proof.
  intros Hd. revert W index. induction records as [|r records IH]; intros W index Hidx Hrec; cbn [foldM].
  { by exists index. }
  apply Forall_cons in Hrec as [Hr Hrec]. unfold spec_record at 2. cbn [fst snd].
  rewrite window_of_tumble by done. set (p := tumble _ _ r).
  assert (∃ index1, index_after (λ i k t, Ok (tw_Add i k t)) W index p = Ok index1 ∧
    index_of index1 (spec_add spec W p r)) as (index1 & -> & Hidx1).
  { destruct Hidx as [Hwf Hat]. unfold index_after, index_of, spec_add. specialize (Hat p) as Hp.
    destruct (W !! p) as [l|] eqn:E; simpl in Hp |- *.
    - exists index. split; [done|]. split; [done|]. intros q. destruct (decide (q = p)) as [->|Hne];
        [by rewrite lookup_insert_eq|by rewrite lookup_insert_ne].
    - exists (tw_Add index p.1 p.2). split; [done|]. split; [by apply tw_Add_wf|]. intros q. rewrite tw_Add_at, <-surjective_pairing.
      case_decide; [subst; by rewrite lookup_insert_eq|]. by rewrite lookup_insert_ne, Hat. }
  rewrite bind_Ok. by apply IH.
Qed.

Lemma foldl_windows tw W records p l :
  tw_spec_batch tw W records !! p = Some l →
  is_Some (W !! p) ∨ ∃ r, r ∈ records ∧ p = tumble (wb_KeyAssigner (tw_Base tw)) (tw_Duration tw) r.
Proof.
  revert W. induction records as [|r records IH]; intros W; [by eauto|]. change (tw_spec_batch tw W (r :: records)) with
    (tw_spec_batch tw (spec_add spec W (tumble (wb_KeyAssigner (tw_Base tw)) (tw_Duration tw) r) r) records).
  intros [[l' Hl]|(r' & Hr' & ->)]%IH; [|right; exists r'; set_solver].
  unfold spec_add in Hl. apply lookup_insert_Some in Hl as [[<- _]|[_ Hl]]; [right; exists r; set_solver|left; eauto].
Qed.

Lemma batch_refines tw W records :
  tumbling tw W → event_ok (tw_Base tw) (EBatch records) →
  ∃ tw', tw_ProcessBatch tw (BatchUnit records) = Ok tw' ∧
    tumbling tw' (spec_event (wb_KeyAssigner (tw_Base tw)) (tw_Duration tw) spec W (EBatch records)).1 ∧
    same_operator tw tw' ∧ wb_Collector (tw_Base tw') = wb_Collector (tw_Base tw).
Proof.
  intros Htu [Hne Hrec]. destruct (tu_duration _ _ Htu) as [Hd Hd2].
  destruct (spec_records_Ok tw W (tw_Index tw) records Hd (tu_index _ _ Htu) Hrec) as (index' & Hspec & Hidx').
  rewrite Forall_forall in Hrec.
  destruct (process_records_Ok tys input spec (getWindowStartTime (tw_Duration tw)) (λ i k t, Ok (tw_Add i k t))
    (tw_Base tw) W (tw_Index tw) records (tw_spec_batch tw W records, index') (tu_agg _ _ Htu) (tu_store _ _ Htu) Hne)
    as (sc' & Hrun & Hst & Hconf); [|exact Hspec|].
  { apply Forall_forall. intros r Hr. pose proof (Hrec r Hr) as (Hk & Ht & Hi). split; [|done].
    rewrite window_of_tumble by eauto. destruct (start_time (tw_Duration tw) (timestamp r) Hd Ht) as [_ Ht'].
    eapply record_slot; [apply Htu|done|done]. }
  unfold tw_ProcessBatch. simpl. rewrite Hrun, bind_Ok. eexists. split; [done|]. split; [|by split_and!].
  split; try apply Htu; try done. intros p l [[l' Hl']|(r & Hr & ->)]%foldl_windows.
  - by apply (tu_times _ _ Htu p l').
  - apply start_time; [done|]. by destruct (Hrec r Hr) as (_ & ? & _).
Qed.

(** ** Watermarks *)

Abbreviation tw_result tw := (result (tw_Duration tw) spec) (only parsing).

(** The loop over the closed windows emits their results and removes them from
    the index. *)
Lemma fire_loop tw W sc c index (ps : list (field * Z)) :
  tumbling tw W → working tys (tw_Base tw) W W sc →
  Forall (λ p, wslot p ∈ slots sc ∧ is_Some (W !! p)) ps →
  ∃ c', foldM (tw_fire tw sc) (c, index) ps = Ok (c', foldl (λ i p, index_Remove i p.1 p.2) index ps) ∧
    emitted c' = emitted c ++ ((λ p, tw_result tw (p, default [] (W !! p))) <$> ps).
Proof.
  intros Htu Hwk. destruct (tu_duration _ _ Htu) as [Hd Hd2].
  revert c index. induction ps as [|p ps IH]; intros c index Hps; cbn [foldM foldl fmap list_fmap].
  { exists c. by rewrite app_nil_r. }
  apply Forall_cons in Hps as [[Hsl [l Hl]] Hps].
  destruct (wk_states _ _ _ _ _ Hwk p Hsl) as (s & Hs & Hk & Hacc). rewrite Hl in Hacc.
  unfold tw_fire at 2. destruct p as [k t]. cbn [fst snd].
  change (GetWindowState sc (wb_StateID (tw_Base tw)) k t) with (get_state sc (wb_StateID (tw_Base tw)) (wslot (k, t))).
  rewrite Hs, bind_Ok, as_state_Ok, !bind_Ok by done. destruct Hacc as [Hacc _].
  rewrite (ag_out _ _ _ _ _ (tu_agg _ _ Htu) s l Hacc).
  pose proof (tu_times _ _ Htu (k, t) l Hl) as Ht. unfold time_ok in Ht. simpl in Ht.
  destruct (IH (Emit (SetCurrentTimestamp c (i64 (t + tw_Duration tw))) (a_out spec l)) (index_Remove index k t) Hps)
    as (c' & -> & Hc').
  exists c'. split; [done|]. rewrite Hc'. simpl. rewrite <-app_assoc, Hl. unfold result. simpl.
  by rewrite i64_id by (unfold is_i64; lia).
Qed.

Lemma index_of_Remove index W (ps : list (field * Z)) :
  index_of index W →
  index_of (foldl (λ i p, index_Remove i p.1 p.2) index ps) (filter (λ x, x.1 ∉ ps) W).
Proof.
  revert index W. induction ps as [|p ps IH]; intros index W [Hwf Hat]; cbn [foldl].
  { rewrite map_filter_id; [done|]. intros ?? _. apply not_elem_of_nil. }
  assert (Hf : filter (λ x, x.1 ∉ p :: ps) W = filter (λ x, x.1 ∉ ps) (delete p W)).
  { apply map_eq. intros q. apply option_eq. intros l.
    rewrite !map_lookup_filter_Some, lookup_delete_Some, not_elem_of_cons. simpl. naive_solver. }
  rewrite Hf. apply IH. split; [by apply index_Remove_wf|]. intros q.
  rewrite index_Remove_at, <-surjective_pairing. case_decide as Hq; [subst; by rewrite lookup_delete_eq|].
  by rewrite lookup_delete_ne, Hat.
Qed.

Lemma results_perm tw W wm (ps : list (field * Z)) :
  NoDup ps → (∀ p, p ∈ ps ↔ is_Some (W !! p) ∧ closed (tw_Duration tw) wm p) →
  ((λ p, tw_result tw (p, default [] (W !! p))) <$> ps) ≡ₚ
    (tw_result tw <$> map_to_list (filter (λ x, closed (tw_Duration tw) wm x.1) W)).
Proof.
  intros Hnd Hps. change (λ p, tw_result tw (p, default [] (W !! p))) with
    (tw_result tw ∘ (λ p, (p, default [] (W !! p)))).
  rewrite list_fmap_compose. apply Permutation_map, NoDup_Permutation.
  - apply NoDup_fmap_2; [by intros ?? [= ->]|done].
  - apply NoDup_map_to_list.
  - intros [p l]. rewrite list_elem_of_fmap, elem_of_map_to_list, map_lookup_filter_Some. cbn [fst]. split.
    + intros (q & [= -> ->] & Hq). apply Hps in Hq as [[l' Hl'] Hc]. by rewrite Hl'.
    + intros [Hl Hc]. exists p. rewrite Hl. split; [done|]. apply Hps. eauto.
Qed.

Lemma watermark_refines tw W wm :
  tumbling tw W → event_ok (tw_Base tw) (EWatermark wm) →
  ∃ tw' out, tw_ProcessProgressedWatermark tw wm = Ok tw' ∧
    tumbling tw' (spec_event (wb_KeyAssigner (tw_Base tw)) (tw_Duration tw) spec W (EWatermark wm)).1 ∧
    same_operator tw tw' ∧
    emitted (wb_Collector (tw_Base tw')) = emitted (wb_Collector (tw_Base tw)) ++ out ∧
    out ≡ₚ (spec_event (wb_KeyAssigner (tw_Base tw)) (tw_Duration tw) spec W (EWatermark wm)).2.
Proof.
  intros Htu Hwm. simpl in Hwm. destruct (tu_duration _ _ Htu) as [Hd Hd2].
  destruct (tu_index _ _ Htu) as [Hwf Hat].
  unfold tw_ProcessProgressedWatermark. rewrite tw_fired_spec. rewrite i64_id by (unfold is_i64; lia). cbn zeta.
  set (ps := (closing (tw_Index tw) (wm - tw_Duration tw)).*1).
  assert (Hnd : NoDup ps) by apply NoDup_closing.
  assert (Hps : ∀ p, p ∈ ps ↔ is_Some (W !! p) ∧ closed (tw_Duration tw) wm p).
  { intros p. unfold ps, closed. rewrite list_elem_of_fmap. setoid_rewrite elem_of_closing. split.
    - intros ([q u] & -> & Hq & Hle). simpl in *. rewrite Hat in Hq. split; [|lia].
      destruct (W !! q); [eauto|done].
    - intros [[l Hl] Hle]. exists (p, tt). simpl. rewrite Hat, Hl. split_and!; [done..|lia]. }
  pose proof (results_perm tw W wm ps Hnd Hps) as Hperm. simpl.
  assert (Hkeep : filter (λ x, ¬ closed (tw_Duration tw) wm x.1) W = filter (λ x, x.1 ∉ ps) W).
  { apply map_filter_ext. intros p l Hl. simpl. rewrite Hps. split; [tauto|]. intros Hn Hc. apply Hn. eauto. }
  rewrite length_fmap. destruct (Nat.eqb_spec (length ps) 0) as [Hz|Hz].
  - apply length_zero_iff_nil in Hz. exists tw, []. rewrite app_nil_r.
    split_and!; try done; [|by rewrite <-Hperm, Hz].
    rewrite Hkeep, Hz, map_filter_id; [done|]. intros ?? _. apply not_elem_of_nil.
  - assert (Hslot : ∀ p, p ∈ ps → slot_for (wb_StateClient (tw_Base tw)) (wslot p)).
    { intros p [[l Hl] _]%Hps. by destruct (ws_accs _ _ _ (tu_store _ _ Htu) p l Hl) as (_ & _ & ?). }
    destruct (fetch_working tys (tw_Base tw) W ps) as (sc & n & Hf & Hwk & Hconf & Hin & Hall & Hsv).
    { apply Htu. } { by destruct ps. } { by apply Forall_forall. }
    rewrite Hf, bind_Ok. rewrite zip_fst_snd.
    destruct (fire_loop tw W sc (wb_Collector (tw_Base tw)) (tw_Index tw) ps Htu Hwk) as (c & -> & Hc).
    { apply Forall_forall. intros p Hp. split; [by apply Hin|by apply Hps]. }
    rewrite bind_Ok.
    destruct (DeleteAllAndFlush_Ok sc [wb_StateID (tw_Base tw)] (wk_inv _ _ _ _ _ Hwk)) as (s' & -> & Hserv & Hval); [done|].
    rewrite bind_Ok. do 2 eexists. split; [done|]. split_and!; [|split; [split; [done|]|done]; by eapply same_conf_trans|done|done].
    rewrite Hkeep. split; simpl; try apply Htu; [| |].
    + assert (filter (λ x, x.1 ∉ ps) W = filter (λ x, x.1 ∉ (list_to_set ps : gset (field * Z))) W) as ->.
      { apply map_filter_ext. intros p l _. simpl. by rewrite elem_of_list_to_set. }
      apply window_store_collector, delete_working; try done; [apply Htu| | |].
      * intros p Hp%elem_of_list_to_set. by apply Hin.
      * intros p Hp. rewrite Hval, bool_decide_true, decide_True; [done|by apply elem_of_list_to_set, Hin|].
        apply (skeys_keys sc [wb_StateID (tw_Base tw)] (wk_inv _ _ _ _ _ Hwk)). exists (wb_StateID (tw_Base tw)), (wslot p).
        split; [by left|done].
      * intros k Hk. rewrite Hval, bool_decide_false; [done|].
        intros (id & sl & ->%list_elem_of_singleton & Hsl & ->)%(skeys_keys sc [wb_StateID (tw_Base tw)] (wk_inv _ _ _ _ _ Hwk)).
        by apply (Hk sl).
    + by apply index_of_Remove, Htu.
    + intros p l [Hl _]%map_lookup_filter_Some. by apply (tu_times _ _ Htu p l).
Qed.

Lemma event_refines tw W e :
  tumbling tw W → event_ok (tw_Base tw) e →
  ∃ tw' out, tw_event tw e = Ok tw' ∧
    tumbling tw' (spec_event (wb_KeyAssigner (tw_Base tw)) (tw_Duration tw) spec W e).1 ∧
    same_operator tw tw' ∧
    emitted (wb_Collector (tw_Base tw')) = emitted (wb_Collector (tw_Base tw)) ++ out ∧
    out ≡ₚ (spec_event (wb_KeyAssigner (tw_Base tw)) (tw_Duration tw) spec W e).2.
Proof.
  intros Htu He. destruct e as [records|wm]; [|by apply watermark_refines].
  destruct (batch_refines tw W records Htu He) as (tw' & Hrun & Htu' & Hsame & Hc).
  exists tw', []. by rewrite Hc, app_nil_r.
Qed.

Lemma run_refines tw W events :
  tumbling tw W → Forall (event_ok (tw_Base tw)) events →
  let run := spec_run (wb_KeyAssigner (tw_Base tw)) (tw_Duration tw) spec W events in
  ∃ tw' outs, foldM tw_event tw events = Ok tw' ∧ tumbling tw' run.1 ∧
    emitted (wb_Collector (tw_Base tw')) = emitted (wb_Collector (tw_Base tw)) ++ concat outs ∧
    Forall2 (≡ₚ) outs run.2.
Proof.
  intros Htu Hev.
  destruct (run_simulates (spec_event (wb_KeyAssigner (tw_Base tw)) (tw_Duration tw) spec) tw_event
    (λ tw, emitted (wb_Collector (tw_Base tw))) (λ tw' W, tumbling tw' W ∧ same_operator tw tw')
    (λ tw e, event_ok (tw_Base tw) e)) with (op := tw) (st := W) (events := events) as (tw' & outs & Hrun & [Htu' _] & Hem & Houts).
  - intros tw1 W1 e [Htu1 Hsame] He.
    destruct (event_refines tw1 W1 e Htu1 He) as (tw2 & out & Hrun & Htu2 & Hsame2 & Hem & Hout).
    pose proof Hsame as ((Hk & _) & HD). rewrite Hk, HD in Htu2, Hout. exists tw2, out.
    split_and!; try done; [by eapply same_operator_trans|]. intros e'. by apply event_ok_same, Hsame2.
  - by split.
  - done.
  - by exists tw', outs.
Qed.
End Tumbling.

Section Claims.
Context `{MusLaws} `{GoRange} {S : Type} `{ServiceLaws S}.
Context (tys : list Kind) (input : Tuple → Prop) (spec : AggSpec).

(** Tumbling windows refine a map of accumulators.  An operator whose
    service and index hold the accumulators [W], given any sequence of
    non-empty batches and watermarks (records may be late), processes all of
    it; what it emits for each event is, up to the order inside one watermark,
    what the map does: a record is added to the accumulator of its window, a
    watermark emits the result of every window that ends by then, stamped with
    its end, and forgets it.  Service and index again hold the resulting map. *)
Theorem tumbling_refines (tw : TumblingWindow S) W events
    (Htu : tumbling tys input spec tw W) (Hev : Forall (event_ok input (tw_Base tw)) events) :
  let run := spec_run (wb_KeyAssigner (tw_Base tw)) (tw_Duration tw) spec W events in
  ∃ tw' outs, foldM tw_event tw events = Ok tw' ∧ tumbling tys input spec tw' run.1 ∧
    emitted (wb_Collector (tw_Base tw')) = emitted (wb_Collector (tw_Base tw)) ++ concat outs ∧
    Forall2 (≡ₚ) outs run.2.
Proof. by apply run_refines. Qed.

(** C29: every window fires exactly once with the aggregate of its records.  A
    new operator is given events in which no record is older than the last
    watermark and watermarks do not go back.  It has then emitted exactly one
    record for each window of the input that ends by the last watermark: the
    aggregate of all records of the window, in the order they came, stamped
    with the end of the window.  The other windows are still held, with the
    aggregates of their records. *)
Theorem tumbling_exact (tw : TumblingWindow S) events
    (Htu : tumbling tys input spec tw ∅) (Hev : Forall (event_ok input (tw_Base tw)) events) (Hon : on_time (-1) events) :
  let key := wb_KeyAssigner (tw_Base tw) in
  let D := tw_Duration tw in
  let rs := records_of events in
  let wm := last_watermark (-1) events in
  ∃ tw' W, foldM tw_event tw events = Ok tw' ∧
    (∃ out, emitted (wb_Collector (tw_Base tw')) = emitted (wb_Collector (tw_Base tw)) ++ out ∧
       out ≡ₚ (window_result key D spec rs <$> elements (filter (closed D wm) (windows key D rs)))) ∧
    tumbling tys input spec tw' W ∧ open_windows key D spec D wm rs W.
Proof.
  intros key D rs wm. destruct (tu_duration _ _ _ _ _ Htu) as [HD _].
  destruct (run_refines tys input spec tw ∅ events Htu Hev) as (tw' & outs & Hrun & Htu' & Hem & Houts).
  destruct (spec_run_exact key D spec HD events Hon) as [Hop Hperm].
  { by eapply events_times. }
  exists tw', (spec_run key D spec ∅ events).1. split; [done|]. split; [|done].
  exists (concat outs). split; [done|]. etransitivity; [apply concat_Permutation, Houts|exact Hperm].
Qed.
End Claims.

(** ** Two windows of two keys *)

Definition demo_tumbling : TumblingWindow (LocalService MemoryStateBackend) := MkTumbling demo_base 10 ∅.

Definition demo_record (key value ts : Z) : Tuple := MkTuple [FNum KInt64 key; FNum KInt64 value] ts.

Definition demo_events : list event :=
  [EBatch [demo_record 7 1 3; demo_record 8 5 4; demo_record 7 2 9]; EBatch [demo_record 7 10 12]; EWatermark 11].

Lemma demo_tumbling_ok input : tumbling [KInt64] input sum_spec demo_tumbling ∅.
Proof. split; simpl; [apply sum_aggregator_ok|apply demo_store|done|lia|done]. Qed.

Lemma demo_events_ok : Forall (event_ok (λ _, True) (tw_Base demo_tumbling)) demo_events.
Proof.
  repeat constructor; try done; try apply demo_key_kind; unfold time_ok; simpl; lia.
Qed.

Lemma tumbling_refines_witness :
  ∃ tw' outs, foldM tw_event demo_tumbling demo_events = Ok tw' ∧ emitted (wb_Collector (tw_Base tw')) = concat outs ∧
    Forall2 (≡ₚ) outs (spec_run demo_key 10 sum_spec ∅ demo_events).2.
Proof.
  destruct (tumbling_refines [KInt64] (λ _, True) sum_spec demo_tumbling ∅ demo_events) as (tw' & outs & Hrun & _ & Hem & Houts).
  - apply demo_tumbling_ok.
  - apply demo_events_ok.
  - exists tw', outs. split; [exact Hrun|]. split; [exact Hem|exact Houts].
Defined.

Lemma tumbling_exact_witness :
  ∃ tw', foldM tw_event demo_tumbling demo_events = Ok tw' ∧
    emitted (wb_Collector (tw_Base tw')) ≡ₚ
      [SetTimestamp (sum_tuple 3) 10; SetTimestamp (sum_tuple 5) 10].
Proof.
  destruct (tumbling_exact [KInt64] (λ _, True) sum_spec demo_tumbling demo_events) as (tw' & W & Hrun & (out & Hem & Hout) & _).
  - apply demo_tumbling_ok.
  - apply demo_events_ok.
  - repeat constructor; simpl; lia.
  - exists tw'. split; [exact Hrun|]. rewrite Hem. etransitivity; [exact Hout|].
    vm_compute. first [apply Permutation_refl | apply perm_swap].
Defined.
