(* ===== verification/SlidingWindow.v ===== *)
(** * Sliding windows are correct

    The sliding window operator of [Window.v] keeps one state per pane and
    lists the panes of every window in its index.  It refines a map of panes
    with a map of windows ([sliding_refines]); for records that are not late
    it emits exactly what keeping the records of each window would give
    ([sliding_exact]). *)

From stdpp Require Import prelude gmap strings list.
From Stdlib Require Import ZArith Lia.
From S2P Require Import Prelude Partition Codec WorkUnit StateType StateCache Backend StateService StateClient StateBatch Window WindowStore WindowIndex WindowRun TumblingWindow.

(** ** The windows of a pane *)

(** Start times of the windows of duration [D] that the pane at [s] is in. *)
Definition pane_windows (D S s : Z) : list Z :=
  (λ j, s - D + S + Z.of_nat j * S)%Z <$> seq 0 (Z.to_nat (D / S)).

Record geometry (D S : Z) : Prop := {
  g_slide : (0 < S)%Z;
  g_multiple : (S | D)%Z;
  g_duration : (0 < D < 2 ^ 60)%Z
}.

Lemma elem_of_pane_windows D S s t :
  geometry D S → t ∈ pane_windows D S s ↔ (s - D < t ≤ s)%Z ∧ (S | s - t)%Z.
Proof.
  intros [HS [n Hn] HD]. unfold pane_windows. rewrite Hn, Z.div_mul by lia. subst D.
  rewrite list_elem_of_fmap. setoid_rewrite elem_of_seq. split.
  - intros (j & -> & Hj). split; [nia|]. exists (n - 1 - Z.of_nat j)%Z. nia.
  - intros [Ht [m Hm]]. exists (Z.to_nat (n - 1 - m)). assert (0 ≤ m < n)%Z by nia. split; [|lia].
    rewrite Z2Nat.id by lia. nia.
Qed.

Lemma NoDup_pane_windows D S s : (0 < S)%Z → NoDup (pane_windows D S s).
Proof. intros HS. apply NoDup_fmap_2; [|apply NoDup_seq]. intros i j Heq. nia. Qed.

Lemma pane_windows_self D S s : geometry D S → s ∈ pane_windows D S s.
Proof. intros Hg. apply elem_of_pane_windows; [done|]. destruct (g_duration _ _ Hg). split; [lia|]. exists 0%Z. lia. Qed.

(** The loop of the code computes them. *)
Lemma start_times_Ok (S i : Z) (n fuel : nat) :
  (0 < S < 2 ^ 60)%Z → n ≤ fuel → (- 2 ^ 62 ≤ i)%Z → (i + Z.of_nat n * S < 2 ^ 63)%Z →
  start_times fuel i (i + (Z.of_nat n - 1) * S) S = Ok ((λ j, i + Z.of_nat j * S)%Z <$> seq 0 n).
Proof.
  revert i fuel. induction n as [|n IH]; intros i fuel HS Hle Hi Hu.
  - destruct fuel; cbn [start_times]; (destruct (Z.leb_spec i (i + (Z.of_nat 0 - 1) * S)); [lia|done]).
  - destruct fuel as [|fuel]; [lia|]. cbn [start_times].
    destruct (Z.leb_spec i (i + (Z.of_nat (Datatypes.S n) - 1) * S)) as [_|?]; [|nia].
    rewrite i64_id by (unfold is_i64; nia).
    replace (i + (Z.of_nat (Datatypes.S n) - 1) * S)%Z with (i + S + (Z.of_nat n - 1) * S)%Z by lia.
    rewrite IH by nia. rewrite bind_Ok. cbn [seq fmap list_fmap]. f_equal. f_equal; [lia|].
    rewrite <-fmap_S_seq, <-list_fmap_compose. apply list_fmap_ext. intros _ j _. simpl. lia.
Qed.

Lemma GetSlidingWindowStartTimes_Ok (D S s : Z) :
  geometry D S → time_ok s → GetSlidingWindowStartTimes s D S = Ok (pane_windows D S s).
Proof.
  intros Hg Hs. destruct Hg as [HS [n Hn] HD]. unfold time_ok in Hs. unfold GetSlidingWindowStartTimes.
  destruct (Z.eqb_spec S 0) as [?|_]; [lia|]. cbn [panic_if]. rewrite bind_Ok.
  assert (Hr : Z.rem D S = 0%Z) by (rewrite Hn; apply Z.rem_mul; lia). rewrite Hr. cbn [Z.eqb negb]. rewrite bind_fatal_false.
  assert (Hnp : (0 < n)%Z) by nia. assert (HSb : (S ≤ D)%Z) by nia.
  rewrite i64_id by (unfold is_i64; lia). unfold pane_windows. rewrite Hn, Z.div_mul by lia.
  replace s with (s - n * S + S + (Z.of_nat (Z.to_nat n) - 1) * S)%Z at 2 by nia.
  apply start_times_Ok; [lia|nia|lia|]. rewrite Z2Nat.id by lia. nia.
Qed.

(** ** The index *)

Section Append.
Implicit Types m : gmap Z (gmap field (list (field * Z))).

Lemma append_loop m ts key (ws : gmap field (list (field * Z))) panes :
  m !! ts = Some ws → panes ≠ [] →
  foldl (λ m pane, alter (λ windows, <[key := default [] (windows !! key) ++ [pane]]> windows) ts m) m panes =
    <[ts := <[key := default [] (ws !! key) ++ panes]> ws]> m.
Proof.
  revert m ws. induction panes as [|pane panes IH]; intros m ws Hm Hne; [done|]. cbn [foldl].
  assert (Hm' : alter (λ windows, <[key := default [] (windows !! key) ++ [pane]]> windows) ts m =
    <[ts := <[key := default [] (ws !! key) ++ [pane]]> ws]> m).
  { apply map_eq. intros t. destruct (decide (t = ts)) as [->|Ht];
      by rewrite ?lookup_alter_eq, ?lookup_alter_ne, ?lookup_insert_eq, ?lookup_insert_ne, ?Hm by done. }
  rewrite Hm'. destruct panes as [|pane' panes]; [done|].
  erewrite IH; [|apply lookup_insert_eq|done]. rewrite insert_insert_eq. f_equal.
  by rewrite lookup_insert_eq, insert_insert_eq; simpl; rewrite <-app_assoc.
Qed.

Lemma append_panes_eq m ts key panes :
  panes ≠ [] → append_panes m ts key panes =
    <[ts := <[key := default [] (default ∅ (m !! ts) !! key) ++ panes]> (default ∅ (m !! ts))]> m.
Proof.
  intros Hne. unfold append_panes. destruct (m !! ts) as [ws|] eqn:E; [by rewrite (append_loop m ts key ws)|].
  rewrite (append_loop _ ts key ∅) by (done || apply lookup_insert_eq). by rewrite insert_insert_eq.
Qed.

Lemma append_panes_at m ts key panes w :
  panes ≠ [] → at_window (append_panes m ts key panes) w =
    if decide (w = (key, ts)) then Some (default [] (at_window m (key, ts)) ++ panes) else at_window m w.
Proof.
  intros Hne. rewrite append_panes_eq by done.
  rewrite (at_window_insert m w (key, ts) _ (default ∅ (m !! ts))) by done. case_decide; [|done]. do 2 f_equal.
  unfold at_window. simpl. by destruct (m !! ts); simpl; rewrite ?lookup_empty.
Qed.

Lemma append_panes_wf m ts key panes : panes ≠ [] → index_wf m → index_wf (append_panes m ts key panes).
Proof. intros Hne Hwf. rewrite append_panes_eq by done. by apply index_wf_insert. Qed.

(** A new pane is appended to each of its windows. *)
Lemma add_pane_at m key s (ts : list Z) w :
  NoDup ts →
  at_window (foldl (λ m t, append_panes m t key [(key, s)]) m ts) w =
    if decide (w.1 = key ∧ w.2 ∈ ts) then Some (default [] (at_window m w) ++ [(key, s)]) else at_window m w.
Proof.
  revert m. induction ts as [|t ts IH]; intros m Hnd; cbn [foldl].
  { rewrite decide_False; [done|]. by intros [_ ?%elem_of_nil]. }
  apply NoDup_cons in Hnd as [Ht Hnd]. rewrite IH, append_panes_at by done.
  destruct w as [k t']. cbn [fst snd].
  destruct (decide (k = key)) as [->|Hk]; [|by rewrite !decide_False by naive_solver].
  destruct (decide (t' = t)) as [->|Htt].
  - rewrite (decide_False (P := key = key ∧ t ∈ ts)), !decide_True by (naive_solver || set_solver). done.
  - rewrite (decide_False (P := (key, t') = (key, t))) by congruence. by repeat case_decide; set_solver.
Qed.

Lemma add_pane_wf m key s (ts : list Z) :
  index_wf m → index_wf (foldl (λ m t, append_panes m t key [(key, s)]) m ts).
Proof. revert m. induction ts as [|t ts IH]; intros m Hwf; [done|]. by apply IH, append_panes_wf. Qed.
End Append.

(** ** The abstract operator *)

(** The panes with their accumulators, and the windows with their panes in the
    order they were created. *)
Record panes_state := MkPanes {
  ps_panes : gmap (field * Z) (list Tuple);
  ps_windows : gmap (field * Z) (list (field * Z))
}.

Section Spec.
Context (key : Tuple → field) (D S : Z) (spec : AggSpec).
Implicit Types st : panes_state.

Definition in_pane (p w : field * Z) : Prop := w.1 = p.1 ∧ w.2 ∈ pane_windows D S p.2.

#[local] Instance in_pane_dec p w : Decision (in_pane p w).
Proof. unfold in_pane. apply _. Defined.

(** A new pane enters all its windows. *)
Definition enter (M : gmap (field * Z) (list (field * Z))) (p : field * Z) : gmap (field * Z) (list (field * Z)) :=
  foldl (λ M t, <[(p.1, t) := default [] (M !! (p.1, t)) ++ [p]]> M) M (pane_windows D S p.2).

Definition sl_record st (r : Tuple) : panes_state :=
  let p := tumble key S r in
  MkPanes (spec_add spec (ps_panes st) p r)
    (match ps_panes st !! p with Some _ => ps_windows st | None => enter (ps_windows st) p end).

Definition sl_batch st (records : list Tuple) : panes_state := foldl sl_record st records.

(** The accumulators of a window's panes, merged. *)
Definition merged (P : gmap (field * Z) (list Tuple)) (panes : list (field * Z)) : list Tuple :=
  foldl (λ acc p, a_merge spec acc (default [] (P !! p))) (a_new spec) panes.

Definition sl_result (P : gmap (field * Z) (list Tuple)) (x : field * Z * list (field * Z)) : Tuple :=
  SetTimestamp (a_out spec (merged P x.2)) (x.1.2 + D).

Definition sl_event st (e : event) : panes_state * list Tuple :=
  match e with
  | EBatch records => (sl_batch st records, [])
  | EWatermark wm =>
      (MkPanes (filter (λ x, ¬ closed D wm x.1) (ps_panes st)) (filter (λ x, ¬ closed D wm x.1) (ps_windows st)),
       sl_result (ps_panes st) <$> map_to_list (filter (λ x, closed D wm x.1) (ps_windows st)))
  end.

Definition sl_run st (events : list event) : panes_state * list (list Tuple) := run_events sl_event st events.

Lemma enter_lookup M p w (HS : (0 < S)%Z) :
  enter M p !! w = if decide (in_pane p w) then Some (default [] (M !! w) ++ [p]) else M !! w.
Proof.
  assert (Hgen : ∀ ts (M : gmap (field * Z) (list (field * Z))), NoDup ts →
    foldl (λ M t, <[(p.1, t) := default [] (M !! (p.1, t)) ++ [p]]> M) M ts !! w =
      if decide (w.1 = p.1 ∧ w.2 ∈ ts) then Some (default [] (M !! w) ++ [p]) else M !! w).
  { clear M. induction ts as [|t ts IH]; intros M Hnd; cbn [foldl].
    { rewrite decide_False; [done|]. by intros [_ ?%elem_of_nil]. }
    apply NoDup_cons in Hnd as [Ht Hnd]. rewrite IH by done. destruct w as [k t']. cbn [fst snd].
    destruct (decide (k = p.1)) as [->|Hk];
      [|rewrite !decide_False by naive_solver; apply lookup_insert_ne; congruence].
    destruct (decide (t' = t)) as [->|Htt].
    - by rewrite (decide_False (P := p.1 = p.1 ∧ t ∈ ts)), decide_True, lookup_insert_eq by (naive_solver || set_solver).
    - rewrite lookup_insert_ne by congruence. by repeat case_decide; set_solver. }
  unfold enter. rewrite Hgen by by apply NoDup_pane_windows. unfold in_pane. by repeat case_decide.
Qed.

(** *** Its invariant *)

(** A window lists panes of its own that exist, without repetition; every pane
    is in the window that starts with it, so that it goes when that window
    does. *)
Record panes_inv st : Prop := {
  pi_window : ∀ w l, ps_windows st !! w = Some l → l ≠ [] ∧ NoDup l ∧
    ∀ p, p ∈ l → in_pane p w ∧ is_Some (ps_panes st !! p);
  pi_pane : ∀ p a, ps_panes st !! p = Some a → ∃ l, ps_windows st !! p = Some l ∧ p ∈ l;
  pi_times : ∀ p a, ps_panes st !! p = Some a → time_ok p.2
}.

Context (Hg : geometry D S).

Lemma in_pane_bounds p w : in_pane p w → (p.2 - D < w.2 ≤ p.2)%Z.
Proof. intros [_ Hw]. by apply elem_of_pane_windows in Hw as [? _]. Qed.

Lemma in_pane_self p : in_pane p p.
Proof. split; [done|]. by apply pane_windows_self. Qed.

Lemma tumble_time r : time_ok (timestamp r) → time_ok (tumble key S r).2.
Proof. intros Ht. simpl. apply start_time; [apply Hg|done]. Qed.

Lemma sl_record_inv st r : panes_inv st → time_ok (timestamp r) → panes_inv (sl_record st r).
Proof.
  intros Hi Ht. pose proof (tumble_time r Ht) as Htp. unfold sl_record. set (p := tumble key S r) in *. clearbody p.
  assert (Hsome : ∀ q, is_Some (spec_add spec (ps_panes st) p r !! q) ↔ q = p ∨ is_Some (ps_panes st !! q)).
  { intros q. unfold spec_add. rewrite lookup_insert_is_Some'. naive_solver. }
  assert (Hpt : ∀ q a, spec_add spec (ps_panes st) p r !! q = Some a → time_ok q.2).
  { intros q a Hq. destruct (proj1 (Hsome q)) as [->|[a' Ha']]; [eauto|done|]. by apply (pi_times _ Hi q a'). }
  destruct (ps_panes st !! p) as [a0|] eqn:Ep; split; simpl; try done.
  - intros w l (Hl & Hnd & Hin)%(pi_window _ Hi). split_and!; [done..|]. intros q Hq.
    destruct (Hin q Hq). split; [done|]. apply Hsome. by right.
  - intros q a Hq. destruct (proj1 (Hsome q)) as [->|[a' Ha']]; [eauto|..]; by eapply (pi_pane _ Hi).
  - intros w l. rewrite enter_lookup by apply Hg. case_decide as Hw.
    + intros [= <-]. destruct (ps_windows st !! w) as [l0|] eqn:Ew; simpl.
      * destruct (pi_window _ Hi w l0 Ew) as (Hl & Hnd & Hin). split_and!; [by destruct l0| |].
        -- apply NoDup_app. split_and!; [done| |apply NoDup_singleton].
           intros q Hq ->%list_elem_of_singleton. destruct (Hin _ Hq) as [_ Hs]. rewrite Ep in Hs. by destruct Hs.
        -- intros q [Hq| ->%list_elem_of_singleton]%elem_of_app; [|split; [done|apply Hsome; by left]].
           destruct (Hin q Hq). split; [done|]. apply Hsome. by right.
      * split_and!; [done|apply NoDup_singleton|]. intros q ->%list_elem_of_singleton. split; [done|apply Hsome; by left].
    + intros (Hl & Hnd & Hin)%(pi_window _ Hi). split_and!; [done..|]. intros q Hq.
      destruct (Hin q Hq). split; [done|]. apply Hsome. by right.
  - intros q a Hq. rewrite enter_lookup by apply Hg. destruct (proj1 (Hsome q)) as [->|[a' Ha']]; [eauto|..].
    + rewrite decide_True by apply in_pane_self. eexists. split; [done|]. set_solver.
    + destruct (pi_pane _ Hi q a' Ha') as (l & Hl & Hql). rewrite Hl. case_decide; eexists; split; [done|set_solver|done|done].
Qed.

Lemma sl_batch_inv st rs : panes_inv st → Forall (λ r, time_ok (timestamp r)) rs → panes_inv (sl_batch st rs).
Proof.
  revert st. induction rs as [|r rs IH]; intros st Hi Hrs; [done|]. apply Forall_cons in Hrs as [Hr Hrs].
  apply IH; [by apply sl_record_inv|done].
Qed.

Lemma sl_watermark_inv st wm : panes_inv st → panes_inv (sl_event st (EWatermark wm)).1.
Proof.
  intros Hi. split; simpl.
  - intros w l [Hl Hw]%map_lookup_filter_Some. destruct (pi_window _ Hi w l Hl) as (Hne & Hnd & Hin). split_and!; [done..|].
    intros p Hp. destruct (Hin p Hp) as [Hpw [a Ha]]. split; [done|]. exists a. apply map_lookup_filter_Some. split; [done|].
    apply in_pane_bounds in Hpw. simpl in *. unfold closed in *. lia.
  - intros p a [Ha Hp]%map_lookup_filter_Some. destruct (pi_pane _ Hi p a Ha) as (l & Hl & Hpl). exists l.
    split; [|done]. by apply map_lookup_filter_Some.
  - intros p a [Ha _]%map_lookup_filter_Some. by apply (pi_times _ Hi p a).
Qed.
End Spec.

Section Sliding.
Context `{MusLaws} `{GoRange} {Srv : Type} `{ServiceLaws Srv}.
Context (tys : list Kind) (input : Tuple → Prop) (spec : AggSpec).
Implicit Types sw : SlidingWindow Srv.
Implicit Types st : panes_state.

Definition sw_event sw (e : event) : res (SlidingWindow Srv) :=
  match e with
  | EBatch records => sw_ProcessBatch sw (BatchUnit records)
  | EWatermark wm => sw_ProcessProgressedWatermark sw wm
  end.

(** The index lists the windows with their panes. *)
Record sl_index_of (index : SlidingWindowIndex) (D S : Z) (M : gmap (field * Z) (list (field * Z))) : Prop := {
  si_wf : index_wf (sw_IndexMap index);
  si_at : ∀ w, at_window (sw_IndexMap index) w = M !! w;
  si_dur : si_Duration index = D;
  si_sli : si_Slide index = S
}.

(** The operator with the panes and windows [st]. *)
Record sliding sw st : Prop := {
  sl_agg : agg_ok (wb_Aggregator (sw_Base sw)) (wb_kind (sw_Base sw)) tys input spec;
  sl_store : window_store tys (sw_Base sw) (ps_panes st);
  sl_index : sl_index_of (sw_Index sw) (sw_Duration sw) (sw_Slide sw) (ps_windows st);
  sl_geometry : geometry (sw_Duration sw) (sw_Slide sw);
  sl_inv : panes_inv (sw_Duration sw) (sw_Slide sw) st
}.

Definition sl_same sw sw' : Prop :=
  same_base (sw_Base sw) (sw_Base sw') ∧ sw_Duration sw' = sw_Duration sw ∧ sw_Slide sw' = sw_Slide sw.

(** ** Batches *)

Lemma window_of_pane sw r :
  geometry (sw_Duration sw) (sw_Slide sw) → record_ok input (sw_Base sw) r →
  window_of (λ ts, GetPaneStartTime ts (sw_Slide sw)) (sw_Base sw) r = tumble (wb_KeyAssigner (sw_Base sw)) (sw_Slide sw) r.
Proof.
  intros Hg (_ & Ht & _). unfold window_of, tumble.
  change (GetPaneStartTime (timestamp r) (sw_Slide sw)) with (getWindowStartTime (sw_Slide sw) (timestamp r)).
  by destruct (start_time (sw_Slide sw) (timestamp r) (g_slide _ _ Hg) Ht) as [-> _].
Qed.

Lemma sw_AddPane_Ok index D S M p :
  geometry D S → time_ok p.2 → sl_index_of index D S M →
  ∃ index', sw_AddPane index p.1 p.2 = Ok index' ∧ sl_index_of index' D S (enter D S M p).
Proof.
  intros Hg Ht Hi. unfold sw_AddPane. rewrite (si_dur _ _ _ _ Hi), (si_sli _ _ _ _ Hi), GetSlidingWindowStartTimes_Ok, bind_Ok by done.
  eexists. split; [done|]. split; simpl; [apply add_pane_wf, Hi| |apply Hi|apply Hi].
  intros w. rewrite add_pane_at, enter_lookup, (si_at _ _ _ _ Hi), <-surjective_pairing; [|apply Hg|apply NoDup_pane_windows, Hg].
  unfold in_pane. by repeat case_decide.
Qed.

Lemma sl_records_Ok sw P M index records :
  geometry (sw_Duration sw) (sw_Slide sw) → sl_index_of index (sw_Duration sw) (sw_Slide sw) M →
  Forall (record_ok input (sw_Base sw)) records →
  let st := sl_batch (wb_KeyAssigner (sw_Base sw)) (sw_Duration sw) (sw_Slide sw) spec (MkPanes P M) records in
  ∃ index', foldM (spec_record spec (λ ts, GetPaneStartTime ts (sw_Slide sw)) sw_AddPane (sw_Base sw)) (P, index) records =
      Ok (ps_panes st, index') ∧ sl_index_of index' (sw_Duration sw) (sw_Slide sw) (ps_windows st).
Proof.
  intros Hg. revert P M index. induction records as [|r records IH]; intros P M index Hi Hrec.
  { by exists index. }
  apply Forall_cons in Hrec as [Hr Hrec]. cbn [foldM]. unfold spec_record at 2. cbn [fst snd].
  rewrite window_of_pane by done.
  assert (Hp : time_ok (tumble (wb_KeyAssigner (sw_Base sw)) (sw_Slide sw) r).2).
  { eapply tumble_time; [done|]. by destruct Hr as (_ & ? & _). }
  cbn zeta. set (st1 := sl_record (wb_KeyAssigner (sw_Base sw)) (sw_Duration sw) (sw_Slide sw) spec (MkPanes P M) r).
  change (sl_batch _ _ _ _ (MkPanes P M) (r :: records)) with
    (sl_batch (wb_KeyAssigner (sw_Base sw)) (sw_Duration sw) (sw_Slide sw) spec st1 records).
  assert (∃ index1, index_after sw_AddPane P index (tumble (wb_KeyAssigner (sw_Base sw)) (sw_Slide sw) r) = Ok index1 ∧
    sl_index_of index1 (sw_Duration sw) (sw_Slide sw) (ps_windows st1)) as (index1 & -> & Hi1).
  { unfold index_after, st1, sl_record. simpl ps_panes. destruct (P !! _); [by exists index|]. by apply sw_AddPane_Ok. }
  rewrite bind_Ok. destruct st1 as [P1 M1] eqn:E1. simpl in Hi1.
  assert (P1 = spec_add spec P (tumble (wb_KeyAssigner (sw_Base sw)) (sw_Slide sw) r) r) as <- by by injection E1.
  by apply IH.
Qed.

Lemma sl_batch_refines sw st records :
  sliding sw st → event_ok input (sw_Base sw) (EBatch records) →
  ∃ sw', sw_ProcessBatch sw (BatchUnit records) = Ok sw' ∧
    sliding sw' (sl_event (wb_KeyAssigner (sw_Base sw)) (sw_Duration sw) (sw_Slide sw) spec st (EBatch records)).1 ∧
    sl_same sw sw' ∧ wb_Collector (sw_Base sw') = wb_Collector (sw_Base sw).
Proof.
  intros Hsl [Hne Hrec]. pose proof (sl_geometry _ _ Hsl) as Hg. destruct st as [P M].
  destruct (sl_records_Ok sw P M (sw_Index sw) records Hg (sl_index _ _ Hsl) Hrec) as (index' & Hspec & Hidx').
  assert (Hslots : Forall (λ r, slot_for (wb_StateClient (sw_Base sw))
    (wslot (window_of (λ ts, GetPaneStartTime ts (sw_Slide sw)) (sw_Base sw) r)) ∧ input r) records).
  { eapply Forall_impl; [exact Hrec|]. intros r Hr. split; [|by apply Hr]. rewrite window_of_pane by done.
    eapply record_slot; [apply Hsl|done|]. apply (tumble_time (wb_KeyAssigner (sw_Base sw)) (sw_Duration sw)); [done|apply Hr]. }
  destruct (process_records_Ok tys input spec (λ ts, GetPaneStartTime ts (sw_Slide sw)) sw_AddPane (sw_Base sw) P
    (sw_Index sw) records _ (sl_agg _ _ Hsl) (sl_store _ _ Hsl) Hne Hslots Hspec)
    as (sc' & Hrun & Hst & Hconf).
  unfold sw_ProcessBatch. simpl. rewrite Hrun, bind_Ok. eexists. split; [done|]. split; [|by split_and!].
  split; simpl; try apply Hsl; try done. apply sl_batch_inv; [done|apply Hsl|].
  eapply Forall_impl; [exact Hrec|]. intros r Hr. apply Hr.
Qed.

(** ** Watermarks *)

Definition fired (x : field * Z * list (field * Z)) : WindowsToBeFired := MkFired x.1.1 x.1.2 x.2.

Lemma sw_fired_spec (index : SlidingWindowIndex) wm :
  let l := closing (sw_IndexMap index) (i64 (wm - si_Duration index)) in
  ∃ panes, sw_GetWindowsToBeFired index wm = (fired <$> l, panes) ∧
    ∀ q, is_Some (panes !! q) ↔ ∃ x, x ∈ l ∧ q ∈ x.2.
Proof.
  cbn zeta. unfold sw_GetWindowsToBeFired.
  rewrite (foldl_closing (λ acc x, (acc.1 ++ [fired x], foldl (λ panes pane, <[pane := true]> panes) acc.2 x.2)) (sw_IndexMap index)).
  generalize (closing (sw_IndexMap index) (i64 (wm - si_Duration index))). intros l.
  assert (Hin : ∀ (ps : list (field * Z)) (m : gmap (field * Z) bool) q,
    is_Some (foldl (λ panes pane, <[pane := true]> panes) m ps !! q) ↔ is_Some (m !! q) ∨ q ∈ ps).
  { induction ps as [|p ps IH]; intros m q; cbn [foldl]; [set_solver|]. rewrite IH, lookup_insert_is_Some'. set_solver. }
  assert (Hl : ∀ a (m : gmap (field * Z) bool), ∃ panes,
    foldl (λ acc x, (acc.1 ++ [fired x], foldl (λ panes pane, <[pane := true]> panes) acc.2 x.2)) (a, m) l = (a ++ (fired <$> l), panes) ∧
    ∀ q, is_Some (panes !! q) ↔ is_Some (m !! q) ∨ ∃ x, x ∈ l ∧ q ∈ x.2).
  { induction l as [|x l IH]; intros a m; cbn [foldl fmap list_fmap fst snd].
    - exists m. rewrite app_nil_r. set_solver.
    - destruct (IH (a ++ [fired x]) (foldl (λ panes pane, <[pane := true]> panes) m x.2)) as (panes & -> & Hp).
      exists panes. rewrite <-app_assoc. split; [done|]. intros q. rewrite Hp, Hin. set_solver. }
  destruct (Hl [] ∅) as (panes & -> & Hp). exists panes. split; [done|]. intros q. rewrite Hp, lookup_empty. split; [|by right].
  by intros [[? ?]|?].
Qed.

Lemma pane_loop sw st sc wm s l rem (panes : list (field * Z)) :
  sliding sw st → working tys (sw_Base sw) (ps_panes st) (ps_panes st) sc → (-1 ≤ wm < 2 ^ 62)%Z →
  acc_value (wb_kind (sw_Base sw)) s l →
  Forall (λ p, wslot p ∈ slots sc ∧ is_Some (ps_panes st !! p)) panes →
  ∃ s' rem', foldM (sw_pane sw sc wm) (s, rem) panes = Ok (s', rem') ∧
    acc_value (wb_kind (sw_Base sw)) s' (foldl (λ acc p, a_merge spec acc (default [] (ps_panes st !! p))) l panes) ∧
    ∀ q, q ∈ rem' ↔ q ∈ rem ∨ q ∈ panes ∧ closed (sw_Duration sw) wm q.
Proof.
  intros Hsl Hwk Hwm. destruct (g_duration _ _ (sl_geometry _ _ Hsl)) as [HD HD2].
  revert s l rem. induction panes as [|p panes IH]; intros s l rem Hs Hps; cbn [foldM foldl].
  { exists s, rem. split; [done|]. split; [done|]. set_solver. }
  apply Forall_cons in Hps as [[Hp [a Ha]] Hps].
  destruct (wk_states _ _ _ _ _ Hwk p Hp) as (s1 & Hs1 & Hk & Hacc). rewrite Ha in Hacc.
  unfold sw_pane at 2. change (GetWindowState sc (wb_StateID (sw_Base sw)) p.1 p.2) with (get_state sc (wb_StateID (sw_Base sw)) (wslot p)).
  rewrite Hs1, bind_Ok, as_state_Ok, !bind_Ok by done. destruct Hacc as [Hacc _].
  pose proof (ag_merge _ _ _ _ _ (sl_agg _ _ Hsl) _ _ _ _ Hs Hacc) as Hm.
  edestruct (IH _ _ (if (p.2 <=? i64 (wm - sw_Duration sw))%Z then {[p]} ∪ rem else rem) Hm Hps) as (s' & rem' & Hrun & Hv & Hrem).
  exists s', rem'. split; [exact Hrun|]. rewrite Ha. split; [done|]. intros q. rewrite Hrem.
  rewrite i64_id by (unfold is_i64; lia). unfold closed.
  destruct (Z.leb_spec p.2 (wm - sw_Duration sw)); [|set_solver by lia].
  rewrite elem_of_union, elem_of_singleton, elem_of_cons. split; [|tauto]. intros [[->|?]|?]; [right; split; [by left|lia]|tauto|tauto].
Qed.

Abbreviation sl_key sw := (wb_KeyAssigner (sw_Base sw)) (only parsing).

Lemma sl_fire_loop sw st sc wm c index rem (l : list (field * Z * list (field * Z))) :
  sliding sw st → working tys (sw_Base sw) (ps_panes st) (ps_panes st) sc → (-1 ≤ wm < 2 ^ 62)%Z →
  Forall (λ x, (- 2 ^ 62 ≤ x.1.2 < 2 ^ 62)%Z ∧ Forall (λ p, wslot p ∈ slots sc ∧ is_Some (ps_panes st !! p)) x.2) l →
  ∃ c' rem', foldM (sw_fire sw sc wm) (c, index, rem) (fired <$> l) =
      Ok (c', foldl (λ i x, sw_Remove i x.1.1 x.1.2) index l, rem') ∧
    emitted c' = emitted c ++ (sl_result (sw_Duration sw) spec (ps_panes st) <$> l) ∧
    ∀ q, q ∈ rem' ↔ q ∈ rem ∨ (∃ x, x ∈ l ∧ q ∈ x.2) ∧ closed (sw_Duration sw) wm q.
Proof.
  intros Hsl Hwk Hwm. destruct (g_duration _ _ (sl_geometry _ _ Hsl)) as [HD HD2].
  revert c index rem. induction l as [|x l IH]; intros c index rem Hl; cbn [foldM foldl fmap list_fmap].
  { exists c, rem. rewrite app_nil_r. set_solver. }
  apply Forall_cons in Hl as [[Ht Hx] Hl]. unfold sw_fire at 2.
  destruct (pane_loop sw st sc wm (NewFunc (wb_Aggregator (sw_Base sw))) (a_new spec) rem x.2 Hsl Hwk Hwm) as (s & rem1 & Hrun & Hv & Hrem);
    [apply Hsl|done|].
  cbn [fired wf_Panes wf_Key wf_StartTime]. rewrite Hrun, !bind_Ok.
  rewrite (ag_out _ _ _ _ _ (sl_agg _ _ Hsl) s _ Hv), i64_id by (unfold is_i64; lia).
  destruct (IH (Emit (SetCurrentTimestamp c (x.1.2 + sw_Duration sw)) (a_out spec (merged spec (ps_panes st) x.2)))
    (sw_Remove index x.1.1 x.1.2) rem1 Hl) as (c' & rem' & Hrun' & Hem & Hrem'). exists c', rem'. split; [exact Hrun'|]. split.
  - rewrite Hem. simpl. by rewrite <-app_assoc.
  - intros q. rewrite Hrem', Hrem. set_solver.
Qed.

Lemma sl_index_Remove index D S M (l : list (field * Z * list (field * Z))) :
  sl_index_of index D S M →
  sl_index_of (foldl (λ i x, sw_Remove i x.1.1 x.1.2) index l) D S (filter (λ x, x.1 ∉ l.*1) M).
Proof.
  revert index M. induction l as [|x l IH]; intros index M Hi; cbn [foldl].
  { rewrite map_filter_id; [done|]. intros ?? _. apply not_elem_of_nil. }
  assert (Hf : filter (λ y, y.1 ∉ (x :: l).*1) M = filter (λ y, y.1 ∉ l.*1) (delete x.1 M)).
  { apply map_eq. intros q. apply option_eq. intros a. cbn [fmap list_fmap].
    rewrite !map_lookup_filter_Some, lookup_delete_Some, not_elem_of_cons. simpl. naive_solver. }
  rewrite Hf. apply IH. split; simpl; [apply index_Remove_wf, Hi| |apply Hi|apply Hi]. intros q.
  rewrite index_Remove_at, <-surjective_pairing. case_decide as Hq; [subst; by rewrite lookup_delete_eq|].
  rewrite lookup_delete_ne by done. apply Hi.
Qed.

Lemma closing_perm (index : gmap Z (gmap field (list (field * Z)))) (M : gmap (field * Z) (list (field * Z))) D wm :
  (∀ w, at_window index w = M !! w) →
  closing index (wm - D) ≡ₚ map_to_list (filter (λ x, closed D wm x.1) M).
Proof.
  intros Hat. apply NoDup_Permutation; [apply (NoDup_fmap_1 fst), NoDup_closing|apply NoDup_map_to_list|].
  intros [w l]. rewrite elem_of_closing, elem_of_map_to_list, map_lookup_filter_Some. unfold closed. simpl. rewrite Hat.
  split; intros [? ?]; (split; [done|lia]).
Qed.

(** Deleting the panes of the fired windows that no later window needs. *)
Lemma remove_panes sw (P : gmap (field * Z) (list Tuple)) (sc : StateClient Srv) (rem : gset (field * Z)) :
  window_store tys (sw_Base sw) P → working tys (sw_Base sw) P P sc → same_conf (wb_StateClient (sw_Base sw)) sc →
  (∀ sl, sl ∈ slots sc → ∃ p, sl = wslot p) → slots sc ≠ [] →
  same_values (stateService (wb_StateClient (sw_Base sw))) (stateService sc) →
  rem ≠ ∅ → (∀ q, q ∈ rem → wslot q ∈ slots sc) →
  ∃ sc', DeleteManyAndFlush sc rem = Ok sc' ∧ same_conf sc sc' ∧
    window_store tys (wb_set_client (sw_Base sw) sc') (filter (λ x, x.1 ∉ rem) P).
Proof.
  intros Hw Hwk Hconf Hall Hslots Hsv Hne Hrem.
  assert (Hty : stateClientType sc = WindowStateClient) by (destruct Hconf as (_ & -> & _); apply Hw).
  pose proof (DeleteManyAndFlush_Ok sc [wb_StateID (sw_Base sw)] (wk_inv _ _ _ _ _ Hwk) ltac:(done) Hslots rem Hty Hne) as Hdel.
  rewrite decide_True in Hdel.
  2:{ intros q Hq. apply elem_of_list_to_set, list_elem_of_fmap. exists (wslot q). split; [by destruct q|by apply Hrem]. }
  destruct Hdel as (s' & Hrun & Hserv & Hin & Hout). exists (set_service sc s'). split; [done|]. split; [done|].
  apply delete_working; try done.
  - intros p Hp. rewrite (Hin (wb_StateID (sw_Base sw)) (wslot p)) by (done || by left). by destruct p.
  - intros k Hk. apply Hout. intros id sl ->%list_elem_of_singleton Hsl. by apply Hk.
Qed.

(** The windows the scan finds for a watermark. *)
Record fires sw st (wm : Z) (l : list (field * Z * list (field * Z))) : Prop := {
  fi_elem : ∀ x, x ∈ l ↔ ps_windows st !! x.1 = Some x.2 ∧ closed (sw_Duration sw) wm x.1;
  fi_perm : l ≡ₚ map_to_list (filter (λ x, closed (sw_Duration sw) wm x.1) (ps_windows st))
}.

Section Fires.
Context sw st (wm : Z) (l : list (field * Z * list (field * Z))) (Hsl : sliding sw st) (Hfi : fires sw st wm l).

Lemma fires_windows :
  filter (λ x, ¬ closed (sw_Duration sw) wm x.1) (ps_windows st) = filter (λ x, x.1 ∉ l.*1) (ps_windows st).
Proof.
  apply map_filter_ext. intros w ps Hw. simpl. rewrite list_elem_of_fmap. setoid_rewrite (fi_elem _ _ _ _ Hfi). split.
  - by intros Hn ([w' ps'] & -> & [_ Hc]).
  - intros Hn Hc. apply Hn. by exists (w, ps).
Qed.

Lemma fires_pane x q : x ∈ l → q ∈ x.2 → in_pane (sw_Duration sw) (sw_Slide sw) q x.1 ∧ is_Some (ps_panes st !! q).
Proof. intros [Hx _]%(fi_elem _ _ _ _ Hfi). by apply (pi_window _ _ _ (sl_inv _ _ Hsl) x.1 x.2 Hx). Qed.

Lemma fires_closed q a : ps_panes st !! q = Some a → closed (sw_Duration sw) wm q → ∃ x, x ∈ l ∧ q ∈ x.2.
Proof.
  intros Ha Hc. destruct (pi_pane _ _ _ (sl_inv _ _ Hsl) q a Ha) as (ps & Hps & Hq). exists (q, ps).
  by rewrite (fi_elem _ _ _ _ Hfi).
Qed.

Lemma fires_panes (rem : gset (field * Z)) :
  (∀ q, q ∈ rem ↔ (∃ x, x ∈ l ∧ q ∈ x.2) ∧ closed (sw_Duration sw) wm q) →
  filter (λ x, x.1 ∉ rem) (ps_panes st) = filter (λ x, ¬ closed (sw_Duration sw) wm x.1) (ps_panes st).
Proof.
  intros Hrem. apply map_filter_ext. intros q a Ha. simpl. rewrite Hrem. split; [|tauto].
  intros Hn Hc. apply Hn. split; [|done]. by eapply fires_closed.
Qed.

Lemma fires_times x : x ∈ l → (- 2 ^ 62 ≤ x.1.2 < 2 ^ 62)%Z ∧ x.2 ≠ [].
Proof.
  intros Hx. pose proof Hx as [Hw _]%(fi_elem _ _ _ _ Hfi).
  destruct (pi_window _ _ _ (sl_inv _ _ Hsl) _ _ Hw) as (Hne & _ & Hin). split; [|done].
  destruct x as [w [|q ps]]; [done|]. destruct (Hin q) as [Hq [a Ha]]; [by left|].
  apply in_pane_bounds in Hq; [|apply Hsl]. pose proof (pi_times _ _ _ (sl_inv _ _ Hsl) q a Ha) as Ht.
  destruct (g_duration _ _ (sl_geometry _ _ Hsl)). unfold time_ok in Ht. simpl in *. lia.
Qed.

Lemma fires_none : l = [] →
  MkPanes (filter (λ x, ¬ closed (sw_Duration sw) wm x.1) (ps_panes st))
    (filter (λ x, ¬ closed (sw_Duration sw) wm x.1) (ps_windows st)) = st.
Proof.
  intros Hl. transitivity (MkPanes (ps_panes st) (ps_windows st)); [|by destruct st]. f_equal; apply map_filter_id.
  - intros q a Ha Hc. simpl in Hc. destruct (fires_closed q a Ha Hc) as (x & Hx & _). rewrite Hl in Hx. by apply elem_of_nil in Hx.
  - intros w ps Hw Hc. apply (not_elem_of_nil (w, ps)). rewrite <-Hl. by apply (fi_elem _ _ _ _ Hfi).
Qed.
(** There is a pane to fetch. *)
Lemma fires_some : length l ≠ 0 → ∃ q x, x ∈ l ∧ q ∈ x.2.
Proof.
  intros Hz. assert (∃ x, x ∈ l) as [x Hx] by (destruct l as [|x l']; [done|exists x; by left]).
  destruct (fires_times x Hx) as [_ Hne].
  destruct (x.2) as [|q ps] eqn:Ex; [done|]. exists q, x. rewrite Ex. split; [done|by left].
Qed.

(** The operator after the windows have fired. *)
Lemma fires_done (rem : gset (field * Z)) (sc' : StateClient Srv) (c : Collector) :
  (∀ q, q ∈ rem ↔ (∃ x, x ∈ l ∧ q ∈ x.2) ∧ closed (sw_Duration sw) wm q) →
  window_store tys (wb_set_client (sw_Base sw) sc') (filter (λ x, x.1 ∉ rem) (ps_panes st)) →
  sliding (MkSliding (wb_set_collector (wb_set_client (sw_Base sw) sc') c) (sw_Duration sw) (sw_Slide sw)
      (foldl (λ i x, sw_Remove i x.1.1 x.1.2) (sw_Index sw) l))
    (MkPanes (filter (λ x, ¬ closed (sw_Duration sw) wm x.1) (ps_panes st))
      (filter (λ x, ¬ closed (sw_Duration sw) wm x.1) (ps_windows st))).
Proof.
  intros Hrem Hst'. rewrite (fires_panes rem Hrem) in Hst'.
  pose proof (sl_watermark_inv (wb_KeyAssigner (sw_Base sw)) _ _ spec (sl_geometry _ _ Hsl) st wm (sl_inv _ _ Hsl)) as Hinv'.
  split; simpl; try apply Hsl; [by apply window_store_collector| |done].
  rewrite fires_windows. apply sl_index_Remove, Hsl.
Qed.
End Fires.

Lemma sl_watermark_refines sw st wm :
  sliding sw st → event_ok input (sw_Base sw) (EWatermark wm) →
  ∃ sw' out, sw_ProcessProgressedWatermark sw wm = Ok sw' ∧
    sliding sw' (sl_event (sl_key sw) (sw_Duration sw) (sw_Slide sw) spec st (EWatermark wm)).1 ∧ sl_same sw sw' ∧
    emitted (wb_Collector (sw_Base sw')) = emitted (wb_Collector (sw_Base sw)) ++ out ∧
    out ≡ₚ (sl_event (sl_key sw) (sw_Duration sw) (sw_Slide sw) spec st (EWatermark wm)).2.
Proof.
  intros Hsl Hwm. simpl in Hwm. pose proof (sl_geometry _ _ Hsl) as Hg. destruct (g_duration _ _ Hg) as [HD HD2].
  pose proof (sl_index _ _ Hsl) as Hidx. pose proof (sl_store _ _ Hsl) as Hst.
  cbn [sl_event fst snd] in *.
  unfold sw_ProcessProgressedWatermark. destruct (sw_fired_spec (sw_Index sw) wm) as (panes & -> & Hpanes).
  rewrite (si_dur _ _ _ _ Hidx), i64_id in * by (unfold is_i64; lia).
  set (l := closing _ _) in *. assert (Hfi : fires sw st wm l).
  { split; [|by apply closing_perm, Hidx]. intros x. unfold l. rewrite elem_of_closing, (si_at _ _ _ _ Hidx).
    unfold closed. split; intros [? ?]; (split; [done|lia]). }
  clearbody l. rewrite length_fmap. destruct (Nat.eqb_spec (length l) 0) as [Hz|Hz].
  { apply length_zero_iff_nil in Hz. exists sw, []. rewrite app_nil_r, (fires_none sw st wm l Hsl Hfi Hz).
    split_and!; try done. by rewrite <-(fi_perm _ _ _ _ Hfi), Hz. }
  destruct (fires_some sw st wm l Hsl Hfi Hz) as (q0 & x0 & Hx0 & Hq0).
  assert (Hnz : size panes ≠ 0).
  { intros ->%map_size_empty_inv. assert (Hq : is_Some ((∅ : gmap (field * Z) bool) !! q0)) by (apply Hpanes; eauto).
    rewrite lookup_empty in Hq. by destruct Hq. }
  destruct (Nat.eqb_spec (size panes) 0) as [|_]; [done|]. cbn [fatal_if]. rewrite bind_Ok.
  assert (Hps : ∀ q, q ∈ (go_range panes).*1 ↔ ∃ x, x ∈ l ∧ q ∈ x.2) by (intros q; by rewrite go_range_keys, Hpanes).
  destruct (fetch_working tys (sw_Base sw) (ps_panes st) (go_range panes).*1) as (sc & n & Hf & Hwk & Hconf & Hin & Hall & Hsv); [done|..].
  { intros Hnil. apply Hnz. apply map_size_empty_iff, map_eq. intros q. rewrite lookup_empty. apply eq_None_not_Some.
    intros Hq%go_range_keys. rewrite Hnil in Hq. by apply elem_of_nil in Hq. }
  { apply Forall_forall. intros q (x & Hx & Hq)%Hps. destruct (fires_pane sw st wm l Hsl Hfi x q Hx Hq) as [_ [a Ha]].
    by destruct (ws_accs _ _ _ Hst q a Ha) as (_ & _ & ?). }
  rewrite Hf, bind_Ok.
  destruct (sl_fire_loop sw st sc wm (wb_Collector (sw_Base sw)) (sw_Index sw) ∅ l Hsl Hwk Hwm) as (c & rem & -> & Hem & Hrem).
  { apply Forall_forall. intros x Hx. split; [by apply (fires_times sw st wm l Hsl Hfi)|]. apply Forall_forall. intros q Hq.
    split; [apply Hin, Hps; eauto|]. by apply (fires_pane sw st wm l Hsl Hfi x q). }
  rewrite bind_Ok. assert (Hrem' : ∀ q, q ∈ rem ↔ (∃ x, x ∈ l ∧ q ∈ x.2) ∧ closed (sw_Duration sw) wm q) by set_solver.
  destruct (Nat.eqb_spec (size rem) 0) as [Hr0|Hr0].
  - apply size_empty_inv, leibniz_equiv in Hr0. do 2 eexists. split; [done|].
    split; [|split; [by split|split; [exact Hem|apply Permutation_map, Hfi]]].
    apply (fires_done sw st wm l Hsl Hfi rem); [done|]. rewrite Hr0, map_filter_id; [by apply fetched_store|set_solver].
  - destruct (remove_panes sw (ps_panes st) sc rem) as (sc' & -> & Hconf' & Hst'); try done.
    + intros Hnil. assert (Hq : wslot q0 ∈ slots sc) by (apply Hin, Hps; eauto). rewrite Hnil in Hq. by apply elem_of_nil in Hq.
    + intros ->. by rewrite size_empty in Hr0.
    + intros q [? _]%Hrem'. by apply Hin, Hps.
    + rewrite bind_Ok. do 2 eexists. split; [done|].
      split; [by apply (fires_done sw st wm l Hsl Hfi rem)|split; [|split; [exact Hem|apply Permutation_map, Hfi]]].
      split; [|done]. split; [done|]. by eapply same_conf_trans.
Qed.

Lemma sl_event_refines sw st e :
  sliding sw st → event_ok input (sw_Base sw) e →
  ∃ sw' out, sw_event sw e = Ok sw' ∧
    sliding sw' (sl_event (sl_key sw) (sw_Duration sw) (sw_Slide sw) spec st e).1 ∧ sl_same sw sw' ∧
    emitted (wb_Collector (sw_Base sw')) = emitted (wb_Collector (sw_Base sw)) ++ out ∧
    out ≡ₚ (sl_event (sl_key sw) (sw_Duration sw) (sw_Slide sw) spec st e).2.
Proof.
  intros Hsl He. destruct e as [records|wm]; [|by apply sl_watermark_refines].
  destruct (sl_batch_refines sw st records Hsl He) as (sw1 & Hrun & Hsl1 & Hsame & Hc).
  exists sw1, []. by rewrite Hc, app_nil_r.
Qed.

Lemma sl_same_trans sw1 sw2 sw3 : sl_same sw1 sw2 → sl_same sw2 sw3 → sl_same sw1 sw3.
Proof.
  intros ((?&?)&?&?) ((?&?)&?&?). split_and!; [split; [congruence|by eapply same_conf_trans]|congruence..].
Qed.

Lemma sl_run_refines sw st events :
  sliding sw st → Forall (event_ok input (sw_Base sw)) events →
  let run := sl_run (sl_key sw) (sw_Duration sw) (sw_Slide sw) spec st events in
  ∃ sw' outs, foldM sw_event sw events = Ok sw' ∧ sliding sw' run.1 ∧
    emitted (wb_Collector (sw_Base sw')) = emitted (wb_Collector (sw_Base sw)) ++ concat outs ∧
    Forall2 (≡ₚ) outs run.2.
Proof.
  intros Hsl Hev.
  destruct (run_simulates (sl_event (sl_key sw) (sw_Duration sw) (sw_Slide sw) spec) sw_event
    (λ sw, emitted (wb_Collector (sw_Base sw))) (λ sw' st, sliding sw' st ∧ sl_same sw sw')
    (λ sw e, event_ok input (sw_Base sw) e)) with (op := sw) (st := st) (events := events) as (sw' & outs & Hrun & [Hsl' _] & Hem & Houts).
  - intros sw1 st1 e [Hsl1 Hsame] He.
    destruct (sl_event_refines sw1 st1 e Hsl1 He) as (sw2 & out & Hrun & Hsl2 & Hsame2 & Hem & Hout).
    pose proof Hsame as ((Hk & _) & HD & HS). rewrite Hk, HD, HS in Hsl2, Hout. exists sw2, out.
    split_and!; try done; [by eapply sl_same_trans|]. intros e'. by apply event_ok_same, Hsame2.
  - by split.
  - done.
  - by exists sw', outs.
Qed.

(** Sliding windows refine a map of panes and a map of windows.  Given any
    sequence of non-empty batches and watermarks (records may be late), the
    operator processes all of it; a record is added to the state of its pane,
    a new pane is entered into each window it overlaps; a watermark emits for
    every window that ends by then the merge of its panes' states, stamped
    with the window's end, and drops these windows and exactly the panes that
    are in no later window.  Service and index again hold the result, and the
    invariant that ties panes and windows together. *)
Theorem sliding_refines sw st events
    (Hsl : sliding sw st) (Hev : Forall (event_ok input (sw_Base sw)) events) :
  let run := sl_run (sl_key sw) (sw_Duration sw) (sw_Slide sw) spec st events in
  ∃ sw' outs, foldM sw_event sw events = Ok sw' ∧ sliding sw' run.1 ∧
    emitted (wb_Collector (sw_Base sw')) = emitted (wb_Collector (sw_Base sw)) ++ concat outs ∧
    Forall2 (≡ₚ) outs run.2.
Proof. by apply sl_run_refines. Qed.
End Sliding.
