(* ===== verification/SlidingExact.v ===== *)
(** * Sliding windows: equivalence with keeping the records of every window

    Without late records, and for an aggregator whose merge agrees with adding
    the records and does not depend on their order, the pane-based operator
    emits for each window the aggregate of exactly the window's records. *)

From stdpp Require Import prelude gmap strings list.
From Stdlib Require Import ZArith Lia.
From S2P Require Import Prelude Codec WorkUnit StateType Backend StateService StateClient StateBatch Window WindowStore WindowIndex WindowRun TumblingWindow SlidingWindow.

(** The aggregate of a list of records. *)
Definition total (spec : AggSpec) (rs : list Tuple) : list Tuple := foldl (a_add spec) (a_new spec) rs.

(** Merging agrees with adding, in any order. *)
Record mergeable (spec : AggSpec) (input : Tuple → Prop) : Prop := {
  mg_app : ∀ l l', Forall input l → Forall input l' → a_merge spec (total spec l) (total spec l') = total spec (l ++ l');
  mg_perm : ∀ l l', Forall input l → l ≡ₚ l' → total spec l = total spec l'
}.

Lemma filter_or_perm {A} (P Q : A → Prop) `{∀ x, Decision (P x), ∀ x, Decision (Q x)} (l : list A) :
  (∀ x, x ∈ l → P x → Q x → False) → filter (λ x, P x ∨ Q x) l ≡ₚ filter P l ++ filter Q l.
Proof.
  induction l as [|x l IH]; intros Hd; [done|]. specialize (IH (λ y Hy, Hd y (list_elem_of_further _ _ _ Hy))).
  rewrite !filter_cons. destruct (decide (P x)) as [HP|HP], (decide (Q x)) as [HQ|HQ].
  - exfalso. apply (Hd x); [by left|done..].
  - rewrite decide_True by auto. cbn [app]. by rewrite IH.
  - rewrite decide_True by auto. by rewrite IH, Permutation_middle.
  - rewrite decide_False by naive_solver. done.
Qed.

Lemma filter_ext_in {A} (P Q : A → Prop) `{∀ x, Decision (P x), ∀ x, Decision (Q x)} (l : list A) :
  (∀ x, x ∈ l → P x ↔ Q x) → filter P l = filter Q l.
Proof.
  induction l as [|x l IH]; intros Hl; [done|]. rewrite !filter_cons, IH by (intros y Hy; apply Hl; by right).
  specialize (Hl x (list_elem_of_here _ _)). by repeat case_decide; naive_solver.
Qed.

Section Exact.
Context (key : Tuple → field) (D S : Z) (spec : AggSpec) (input : Tuple → Prop).
Context (Hg : geometry D S) (Hmg : mergeable spec input).

Abbreviation pane := (tumble key S).
Abbreviation panes := (windows key S).
#[local] Instance in_pane_dec' p w : Decision (in_pane D S p w).
Proof. unfold in_pane. apply _. Defined.

(** The records of a window. *)
Definition in_window (w : field * Z) (r : Tuple) : Prop :=
  key r = w.1 ∧ (w.2 ≤ timestamp r < w.2 + D)%Z.

#[export] Instance in_window_dec w r : Decision (in_window w r).
Proof. unfold in_window. apply _. Defined.

(** The windows with a record: starts are multiples of the slide. *)
Definition swindows (rs : list Tuple) : gset (field * Z) :=
  list_to_set (rs ≫= λ r, (λ t, (key r, t)) <$> pane_windows D S (pane r).2).

Definition swindow_result (rs : list Tuple) (w : field * Z) : Tuple :=
  SetTimestamp (a_out spec (total spec (filter (in_window w) rs))) (w.2 + D).

Lemma in_pane_window r w : in_pane D S (pane r) w ↔ in_window w r ∧ (S | w.2)%Z.
Proof.
  destruct Hg as [HS HSD HD]. unfold in_pane, in_window. rewrite elem_of_pane_windows by done.
  simpl. pose proof (Z.mod_pos_bound (timestamp r) S HS) as Hm.
  assert (Hs : (S | timestamp r - timestamp r mod S)%Z).
  { exists (timestamp r / S)%Z. rewrite Z.mod_eq by lia. ring. }
  split.
  - intros (-> & Hw & Hd). assert (Hw2 : (S | w.2)%Z).
    { replace w.2 with ((timestamp r - timestamp r mod S) - ((timestamp r - timestamp r mod S) - w.2))%Z by lia.
      by apply Z.divide_sub_r. }
    split; [|done]. split; [done|]. split; [lia|].
    destruct Hs as [a Ha], Hw2 as [b Hb], HSD as [c Hc]. assert (a - c < b)%Z by nia.
    assert ((a + 1) * S ≤ (b + c) * S)%Z by (apply Z.mul_le_mono_nonneg_r; lia). lia.
  - intros [[-> Hw] Hd]. split; [done|]. split; [|by apply Z.divide_sub_r].
    destruct Hs as [a Ha], Hd as [b Hb]. assert (b < a + 1)%Z by nia.
    assert (b * S ≤ a * S)%Z by (apply Z.mul_le_mono_nonneg_r; lia). lia.
Qed.

Lemma elem_of_swindows rs w : w ∈ swindows rs ↔ ∃ r, r ∈ rs ∧ in_pane D S (pane r) w.
Proof.
  unfold swindows, in_pane. rewrite elem_of_list_to_set, list_elem_of_bind. destruct w as [k t]. simpl.
  split.
  - intros (r & (t' & [= -> ->] & Ht)%list_elem_of_fmap & Hr). exists r. by split_and!.
  - intros (r & Hr & -> & Ht). exists r. split; [|done]. apply list_elem_of_fmap. by exists t.
Qed.

Lemma swindows_app rs rs' : swindows (rs ++ rs') = swindows rs ∪ swindows rs'.
Proof. unfold swindows. by rewrite bind_app, list_to_set_app_L. Qed.

Lemma swindow_open wm r w : (wm ≤ timestamp r)%Z → in_pane D S (pane r) w → ¬ closed D wm w.
Proof. intros Hle [[_ Hw] _]%in_pane_window. unfold closed. lia. Qed.

(** ** The open panes and windows *)

Record open_panes (wm : Z) (rs : list Tuple) (st : panes_state) : Prop := {
  op_panes : open_windows key S spec D wm rs (ps_panes st);
  op_windows : ∀ w, match ps_windows st !! w with
    | Some l => w ∈ swindows rs ∧ ¬ closed D wm w ∧ NoDup l ∧ ∀ q, q ∈ l ↔ q ∈ panes rs ∧ in_pane D S q w
    | None => w ∈ swindows rs → closed D wm w
    end
}.

Lemma slide_le : (S ≤ D)%Z.
Proof. apply Z.divide_pos_le; apply Hg. Qed.

Lemma open_panes_record wm rs st r :
  open_panes wm rs st → (wm ≤ timestamp r)%Z → open_panes wm (rs ++ [r]) (sl_record key D S spec st r).
Proof.
  intros [HP HW] Hle. split; [apply open_windows_record; [apply Hg|apply slide_le|done|done]|].
  assert (Hsw : ∀ w, w ∈ swindows (rs ++ [r]) ↔ w ∈ swindows rs ∨ in_pane D S (pane r) w).
  { intros w. rewrite !elem_of_swindows. setoid_rewrite elem_of_app. setoid_rewrite list_elem_of_singleton. naive_solver. }
  assert (Hpn : ∀ q, q ∈ panes (rs ++ [r]) ↔ q ∈ panes rs ∨ q = pane r).
  { intros q. rewrite !elem_of_windows. setoid_rewrite elem_of_app. setoid_rewrite list_elem_of_singleton. naive_solver. }
  assert (Hpo : ¬ closed D wm (pane r)) by (eapply swindow_open; [done|apply in_pane_self, Hg]).
  assert (Hsame : ∀ w l, w ∈ swindows rs ∧ ¬ closed D wm w ∧ NoDup l ∧ (∀ q, q ∈ l ↔ q ∈ panes rs ∧ in_pane D S q w) →
    (pane r ∈ panes rs ∨ ¬ in_pane D S (pane r) w) → w ∈ swindows (rs ++ [r]) ∧ ¬ closed D wm w ∧ NoDup l ∧
      (∀ q, q ∈ l ↔ q ∈ panes (rs ++ [r]) ∧ in_pane D S q w)).
  { intros w l (H1 & H2 & H3 & H4) Hp. split_and!; [by apply Hsw; left|done|done|]. intros q. rewrite H4, Hpn. naive_solver. }
  intros w. unfold sl_record. cbn [ps_panes ps_windows]. specialize (HW w).
  specialize (HP (pane r)). case_decide as Hp; rewrite HP; [|rewrite enter_lookup by apply Hg].
  - destruct Hp as [Hp _]. destruct (ps_windows st !! w) as [l|]; [by apply Hsame; [|left]|].
    intros [?|Hw]%Hsw; [by apply HW|]. apply HW. apply elem_of_windows in Hp as (r' & Hr' & Heq).
    apply elem_of_swindows. exists r'. by rewrite <-Heq.
  - assert (Hnew : pane r ∉ panes rs) by tauto. case_decide as Hw.
    + pose proof (swindow_open wm r w Hle Hw) as Hwo.
      destruct (ps_windows st !! w) as [l|]; simpl.
      * destruct HW as (H1 & H2 & H3 & H4). split_and!; [by apply Hsw; right|done| |].
        -- apply NoDup_app. split_and!; [done| |apply NoDup_singleton].
           intros q [Hq _]%H4 ->%list_elem_of_singleton. done.
        -- intros q. rewrite elem_of_app, list_elem_of_singleton, H4, Hpn. naive_solver.
      * split_and!; [by apply Hsw; right|done|apply NoDup_singleton|]. intros q. rewrite list_elem_of_singleton, Hpn.
        split; [intros ->; split; [by right|done]|]. intros [[Hq| ->] Hqw]; [|done].
        destruct Hwo. apply HW. apply elem_of_windows in Hq as (r' & Hr' & ->). apply elem_of_swindows. eauto.
    + destruct (ps_windows st !! w) as [l|]; [by apply Hsame; [|right]|]. intros [?|?]%Hsw; [by apply HW|done].
Qed.

Lemma open_panes_batch wm rs st batch :
  open_panes wm rs st → Forall (λ r, wm ≤ timestamp r)%Z batch → open_panes wm (rs ++ batch) (sl_batch key D S spec st batch).
Proof.
  revert rs st. induction batch as [|r batch IH]; intros rs st Hop Hb; [by rewrite app_nil_r|].
  apply Forall_cons in Hb as [Hr Hb]. rewrite cons_middle, app_assoc. apply IH; [by apply open_panes_record|done].
Qed.

Lemma open_panes_watermark wm wm' rs st :
  (wm ≤ wm')%Z → open_panes wm rs st → open_panes wm' rs (sl_event key D S spec st (EWatermark wm')).1.
Proof.
  intros Hle [HP HW]. split; simpl; [by eapply open_windows_watermark|]. intros w. specialize (HW w).
  rewrite map_lookup_filter. destruct (ps_windows st !! w) as [l|]; simpl.
  - destruct HW as (H1 & H2 & H3 & H4). case_guard as Hc; simpl; [by split_and!|]. intros _. unfold closed in *. lia.
  - intros Hw%HW. unfold closed in *. lia.
Qed.

(** ** Results *)

(** Merging panes one after another is adding their records. *)
Lemma merged_total (P : gmap (field * Z) (list Tuple)) rs0 (rs : list Tuple) (l : list (field * Z)) :
  Forall input rs0 → Forall input rs → (∀ q, q ∈ l → default [] (P !! q) = aggregate key S spec rs q) →
  foldl (λ acc q, a_merge spec acc (default [] (P !! q))) (total spec rs0) l =
    total spec (rs0 ++ (l ≫= λ q, filter (λ r, pane r = q) rs)).
Proof.
  revert rs0. induction l as [|q l IH]; intros rs0 Hin0 Hin HP; cbn [foldl].
  { change ([] ≫= _) with (@nil Tuple). by rewrite app_nil_r. }
  rewrite (HP q) by by left. change (aggregate key S spec rs q) with (total spec (filter (λ r, pane r = q) rs)).
  assert (Hq : Forall input (filter (λ r, pane r = q) rs)).
  { apply Forall_forall. intros r [_ Hr]%list_elem_of_filter. rewrite Forall_forall in Hin. by apply Hin. }
  rewrite (mg_app _ _ Hmg) by done. rewrite IH, bind_cons, app_assoc; [done|by apply Forall_app|done|].
  intros q' Hq'. apply HP. by right.
Qed.

(** The panes of a window have exactly its records. *)
Lemma panes_records rs w (l : list (field * Z)) :
  NoDup l → (S | w.2)%Z → (∀ q, q ∈ l ↔ q ∈ panes rs ∧ in_pane D S q w) →
  (l ≫= λ q, filter (λ r, pane r = q) rs) ≡ₚ filter (in_window w) rs.
Proof.
  intros Hnd Hw Hl. transitivity (filter (λ r, pane r ∈ l) rs).
  - clear Hl. induction Hnd as [|q l Hq Hnd IH].
    + rewrite filter_nothing; [done|]. intros r _. apply not_elem_of_nil.
    + rewrite bind_cons, IH, <-filter_or_perm by (by intros r _ <- ?).
      apply reflexive_eq, list_filter_iff. intros r. by rewrite elem_of_cons.
  - apply reflexive_eq, filter_ext_in. intros r Hr. rewrite Hl, in_pane_window. split; [naive_solver|].
    intros ?. split; [|done]. apply elem_of_windows. eauto.
Qed.

Lemma sl_result_window wm rs st w l :
  open_panes wm rs st → Forall input rs → ps_windows st !! w = Some l →
  sl_result D spec (ps_panes st) (w, l) = swindow_result rs w.
Proof.
  intros [HP HW] Hin Hl. specialize (HW w). rewrite Hl in HW. destruct HW as (Hw & Hwo & Hnd & Hq).
  unfold sl_result, swindow_result. cbn [fst snd]. do 2 f_equal. unfold merged.
  assert (Hdiv : (S | w.2)%Z) by (apply elem_of_swindows in Hw as (r & _ & [_ ?]%in_pane_window); done).
  assert (Hacc : ∀ q, q ∈ l → default [] (ps_panes st !! q) = aggregate key S spec rs q).
  { intros q [Hqp Hqw]%Hq. rewrite (HP q), decide_True; [done|]. split; [done|].
    apply in_pane_bounds in Hqw; [|done]. unfold closed in *. lia. }
  rewrite (merged_total _ [] rs l) by done. cbn [app].
  apply (mg_perm _ _ Hmg); [|by apply panes_records].
  apply Forall_forall. intros r (q & [_ Hr]%list_elem_of_filter & _)%list_elem_of_bind. rewrite Forall_forall in Hin. by apply Hin.
Qed.

Lemma swatermark_results wm wm' rs st :
  open_panes wm rs st → Forall input rs →
  (sl_event key D S spec st (EWatermark wm')).2 ≡ₚ
    (swindow_result rs <$> elements (filter (λ w, closed D wm' w ∧ ¬ closed D wm w) (swindows rs))).
Proof.
  intros Hop Hin. simpl. set (M := filter (λ x, closed D wm' x.1) (ps_windows st)).
  transitivity (swindow_result rs <$> (map_to_list M).*1).
  - rewrite <-list_fmap_compose. apply reflexive_eq, list_fmap_ext. intros _ [w l] Hx%list_elem_of_lookup_2.
    apply elem_of_map_to_list, map_lookup_filter_Some in Hx as [Hl _]. by eapply sl_result_window.
  - apply Permutation_map, NoDup_Permutation; [apply NoDup_fst_map_to_list|apply NoDup_elements|]. intros w.
    rewrite elem_of_elements, elem_of_filter, list_elem_of_fmap. pose proof (op_windows _ _ _ Hop w) as HW. split.
    + intros ([w' l] & -> & [Hl Hc]%elem_of_map_to_list%map_lookup_filter_Some). simpl in *. rewrite Hl in HW. naive_solver.
    + intros ((Hc & Hno) & Hw). destruct (ps_windows st !! w) as [l|] eqn:El; [|naive_solver].
      exists (w, l). split; [done|]. by apply elem_of_map_to_list, map_lookup_filter_Some.
Qed.

Lemma sl_run_exact events :
  on_time (-1) events → Forall input (records_of events) → Forall (λ r, time_ok (timestamp r)) (records_of events) →
  open_panes (last_watermark (-1) events) (records_of events) (sl_run key D S spec (MkPanes ∅ ∅) events).1 ∧
  concat (sl_run key D S spec (MkPanes ∅ ∅) events).2 ≡ₚ (swindow_result (records_of events) <$>
    elements (filter (closed D (last_watermark (-1) events)) (swindows (records_of events)))).
Proof.
  intros Hon Hin Hts.
  destruct (run_exact (sl_event key D S spec) swindows swindow_result (closed D) open_panes input)
    with (wm := (-1)%Z) (rs := @nil Tuple) (st := MkPanes ∅ ∅) (events := events) as [Hop Hperm].
  - apply swindows_app.
  - intros rs rs' w (r0 & _ & [_ Hdiv]%in_pane_window)%elem_of_swindows Hw. unfold swindow_result.
    rewrite filter_app, (filter_nothing (in_window w) rs'), app_nil_r; [done|].
    intros r Hr Hrw. apply Hw, elem_of_swindows. exists r. split; [done|]. by apply in_pane_window.
  - intros wm wm' w Hle. unfold closed. lia.
  - intros wm rs w Hrs (r & Hr & Hw)%elem_of_swindows. rewrite Forall_forall in Hrs. by eapply swindow_open; [apply Hrs|].
  - intros wm rs st batch Hop Hb _. split; [done|]. by apply open_panes_batch.
  - intros wm wm' rs st Hop Hle Hr. split; [by apply swatermark_results|by eapply open_panes_watermark].
  - split; [intros p; by rewrite decide_False by (intros [(r & Hr & _)%elem_of_windows _]; by apply elem_of_nil in Hr)|].
    intros w. simpl. rewrite lookup_empty. intros (r & Hr & _)%elem_of_swindows. by apply elem_of_nil in Hr.
  - done.
  - done.
  - split; [done|]. etransitivity; [exact Hperm|]. apply reflexive_eq. cbn [app]. do 2 f_equal.
    apply set_eq. intros w. rewrite !elem_of_filter. split; [naive_solver|]. intros [Hc Hw].
    split_and!; [done| |done]. apply elem_of_swindows in Hw as (r & Hr & Hw). eapply swindow_open; [|done].
    rewrite Forall_forall in Hts. specialize (Hts r Hr). unfold time_ok in Hts. lia.
Qed.
End Exact.

Section Claims.
Context `{MusLaws} `{GoRange} {Srv : Type} `{ServiceLaws Srv}.
Context (tys : list Kind) (input : Tuple → Prop) (spec : AggSpec).

(** C9: sliding over panes is the same as keeping the records of every window.
    A new operator is given events in which no record is older than the last
    watermark and watermarks do not go back, and its merge function agrees
    with adding the records one by one in any order.  It has then emitted
    exactly one record for each window (a start that is a multiple of the
    slide) that has a record and ends by the last watermark: the aggregate of
    all records of the window, stamped with its end.  The panes and windows
    that are still open are held. *)
Theorem sliding_exact (sw : SlidingWindow Srv) events
    (Hsl : sliding tys input spec sw (MkPanes ∅ ∅)) (Hev : Forall (event_ok input (sw_Base sw)) events)
    (Hon : on_time (-1) events) (Hmg : mergeable spec input) :
  let key := wb_KeyAssigner (sw_Base sw) in
  let D := sw_Duration sw in
  let S := sw_Slide sw in
  let rs := records_of events in
  let wm := last_watermark (-1) events in
  ∃ sw' st, foldM sw_event sw events = Ok sw' ∧
    (∃ out, emitted (wb_Collector (sw_Base sw')) = emitted (wb_Collector (sw_Base sw)) ++ out ∧
       out ≡ₚ (swindow_result key D spec rs <$> elements (filter (closed D wm) (swindows key D S rs)))) ∧
    sliding tys input spec sw' st ∧ open_panes key D S spec wm rs st.
Proof.
  intros key D S rs wm.
  destruct (sl_run_refines tys input spec sw (MkPanes ∅ ∅) events Hsl Hev) as (sw' & outs & Hrun & Hsl' & Hem & Houts).
  destruct (sl_run_exact key D S spec input (sl_geometry _ _ _ _ _ Hsl) Hmg events Hon) as [Hop Hperm].
  { apply events_ok in Hev. eapply Forall_impl; [exact Hev|]. intros r Hr. apply Hr. }
  { by eapply events_times. }
  exists sw', (sl_run key D S spec (MkPanes ∅ ∅) events).1. split; [done|]. split; [|done].
  exists (concat outs). split; [done|]. etransitivity; [apply concat_Permutation, Houts|exact Hperm].
Qed.
End Claims.

(** ** Windows of twenty that slide by ten *)

Definition sum_fields (l : list Tuple) : Z := foldr (λ r, Z.add (num_at 1 r)) 0%Z l.

Lemma sum_total l : total sum_spec l = [sum_tuple (sum_fields l)].
Proof.
  assert (Hgen : ∀ z, foldl (a_add sum_spec) [sum_tuple z] l = [sum_tuple (z + sum_fields l)]); [|apply (Hgen 0%Z)].
  induction l as [|r l IH]; intros z; [by rewrite Z.add_0_r|]. cbn [foldl sum_fields foldr].
  change (a_add sum_spec [sum_tuple z] r) with [sum_tuple (i64 z + num_at 1 r)].
  assert (sum_tuple (i64 z + num_at 1 r) = sum_tuple (z + num_at 1 r)) as -> by (unfold sum_tuple; by rewrite i64_add_l).
  rewrite IH. by rewrite <-Z.add_assoc.
Qed.

Lemma sum_mergeable input : mergeable sum_spec input.
Proof.
  split.
  - intros l l' _ _. rewrite !sum_total.
    change ([sum_tuple (i64 (sum_fields l) + i64 (sum_fields l'))] = [sum_tuple (sum_fields (l ++ l'))]).
    assert (sum_fields (l ++ l') = sum_fields l + sum_fields l')%Z as ->.
    { induction l as [|r l IH]; simpl; [done|]. unfold sum_fields in *. lia. }
    unfold sum_tuple. by rewrite i64_add_l, Z.add_comm, i64_add_l, Z.add_comm.
  - intros l l' _ Hp. rewrite !sum_total. do 2 f_equal. induction Hp; simpl in *; lia.
Qed.

Definition demo_sliding : SlidingWindow (LocalService MemoryStateBackend) :=
  MkSliding demo_base 20 10 (NewSlidingWindowIndex ∅ 20 10).

Lemma demo_sliding_ok input : sliding [KInt64] input sum_spec demo_sliding (MkPanes ∅ ∅).
Proof.
  split; simpl; [apply sum_aggregator_ok|apply demo_store|..].
  - split; done.
  - split; simpl; [lia|by exists 2%Z|lia].
  - split; done.
Qed.

Lemma sliding_refines_witness :
  ∃ sw' outs, foldM sw_event demo_sliding demo_events = Ok sw' ∧ emitted (wb_Collector (sw_Base sw')) = concat outs ∧
    Forall2 (≡ₚ) outs (sl_run demo_key 20 10 sum_spec (MkPanes ∅ ∅) demo_events).2.
Proof.
  destruct (sliding_refines [KInt64] (λ _, True) sum_spec demo_sliding (MkPanes ∅ ∅) demo_events) as (sw' & outs & Hrun & _ & Hem & Houts).
  - apply demo_sliding_ok.
  - apply demo_events_ok.
  - exists sw', outs. split; [exact Hrun|]. split; [exact Hem|exact Houts].
Defined.

(** The windows that start at -10. *)
Lemma sliding_exact_witness :
  ∃ sw', foldM sw_event demo_sliding demo_events = Ok sw' ∧
    emitted (wb_Collector (sw_Base sw')) ≡ₚ
      [SetTimestamp (sum_tuple 3) 10; SetTimestamp (sum_tuple 5) 10].
Proof.
  destruct (sliding_exact [KInt64] (λ _, True) sum_spec demo_sliding demo_events) as (sw' & st & Hrun & (out & Hem & Hout) & _).
  - apply demo_sliding_ok.
  - apply demo_events_ok.
  - repeat constructor; simpl; lia.
  - apply sum_mergeable.
  - exists sw'. split; [exact Hrun|]. rewrite Hem. etransitivity; [exact Hout|].
    vm_compute. first [apply Permutation_refl | apply perm_swap].
Defined.
