(* ===== verification/WindowBounds.v ===== *)
(** * Which windows a record belongs to

    The start times the window operators compute from a timestamp, at the width
    of the machine: [getWindowStartTime] of [tumblingWindow.go], and
    [GetPaneStartTime] with [GetSlidingWindowStartTimes] of
    [slidingWindow.go]. *)

From stdpp Require Import prelude gmap strings list.
From Stdlib Require Import ZArith Lia.
From S2P Require Import Prelude Window SlidingWindow WindowRun.

(** Go's remainder has the sign of the dividend: rounding goes towards zero. *)
Lemma trunc_bounds ts d : (0 < d)%Z →
  (d | ts - Z.rem ts d)%Z ∧ (0 ≤ ts → 0 ≤ Z.rem ts d < d ∧ Z.rem ts d ≤ ts)%Z ∧ (ts < 0 → - d < Z.rem ts d ≤ 0 ∧ ts ≤ Z.rem ts d)%Z.
Proof.
  intros Hd. split_and!; [exists (Z.quot ts d); pose proof (Z.quot_rem' ts d); lia| |].
  - intros Hp. split; [by apply Z.rem_bound_pos|by apply Z.rem_le].
  - intros Hn. pose proof (Z.rem_opp_l ts d ltac:(lia)). pose proof (Z.rem_bound_pos (- ts) d ltac:(lia) Hd).
    pose proof (Z.rem_le (- ts) d ltac:(lia) Hd). lia.
Qed.

Lemma start_time_exact ts d : (0 < d)%Z → is_i64 ts → i64 (ts - Z.rem ts d) = (ts - Z.rem ts d)%Z.
Proof.
  intros Hd Hts. apply i64_id. destruct (trunc_bounds ts d Hd) as (_ & Hp & Hn). unfold is_i64 in *.
  destruct (Z.lt_ge_cases ts 0) as [H|H]; [specialize (Hn H)|specialize (Hp H)]; lia.
Qed.

(** The windows of length [D] that start at multiples of [S]. *)
Definition covers (D S start ts : Z) : Prop := (S | start)%Z ∧ (start ≤ ts < start + D)%Z.

(** C34: the windows of a record.  A tumbling window starts at a multiple of its
    duration, computed without overflow from any timestamp.  From time zero on
    it is the only such window that contains the record.  Below zero the start
    is rounded up instead of down: unless it is a multiple of the duration, the
    record lies before the start of the window it is counted in.  A sliding
    operator puts a record, from time zero on, into exactly the windows that
    contain it, of which there are as many as slides in the duration, each
    once. *)
Theorem window_bounds (D S ts : Z) (HD : (0 < D)%Z) (Hts : is_i64 ts) :
  let start := getWindowStartTime D ts in
  is_i64 start ∧
  (0 ≤ ts → ∀ t, covers D D t ts ↔ t = start)%Z ∧
  (ts < 0 → (D | start) ∧ (ts ≤ start < ts + D) ∧ (¬ (D | ts) → ts < start))%Z ∧
  (geometry D S → time_ok ts → ∃ starts, GetSlidingWindowStartTimes (GetPaneStartTime ts S) D S = Ok starts ∧
     NoDup starts ∧ Z.of_nat (length starts) = (D / S)%Z ∧ Forall is_i64 starts ∧ ∀ t, t ∈ starts ↔ covers D S t ts).
Proof.
  destruct (trunc_bounds ts D HD) as (Hdiv & Hp & Hn). cbn zeta. unfold getWindowStartTime, covers.
  pose proof (start_time_exact ts D HD Hts) as Hex. split_and!.
  - apply i64_range.
  - rewrite Hex. intros H t. destruct (Hp H) as [Hb _]. destruct Hdiv as [q Hq]. split; [|intros ->; split; [by exists q|lia]].
    intros [[q' ->] Ht]. rewrite Hq. assert (q' = q) as ->; [nia|done].
  - rewrite Hex. intros H. destruct (Hn H) as [Hb _]. split_and!; [done|lia|lia|]. intros Hnd.
    destruct (Z.eq_dec (Z.rem ts D) 0) as [E|E]; [|lia]. destruct Hnd. by rewrite E, Z.sub_0_r in Hdiv.
  - intros Hg Hok. pose proof (g_slide _ _ Hg) as HS. destruct (trunc_bounds ts S HS) as (Hdiv' & Hp' & _).
    unfold GetPaneStartTime. rewrite start_time_exact by done. set (p := (ts - Z.rem ts S)%Z) in *.
    assert (Hpane : (p ≤ ts < p + S)%Z ∧ (0 ≤ p)%Z) by (unfold time_ok in Hok; destruct (Hp' ltac:(lia)); unfold p; lia).
    rewrite GetSlidingWindowStartTimes_Ok by (done || unfold time_ok in *; lia).
    exists (pane_windows D S p). split; [done|]. split; [by apply NoDup_pane_windows|].
    destruct (g_multiple _ _ Hg) as [n Hn']. destruct Hdiv' as [q Hq]. unfold time_ok in Hok. pose proof (g_duration _ _ Hg).
    split_and!.
    + unfold pane_windows. rewrite length_fmap, length_seq, Z2Nat.id; [done|]. apply Z.div_pos; lia.
    + apply Forall_forall. intros t [Ht _]%elem_of_pane_windows; [|done]. unfold is_i64. lia.
    + intros t. rewrite elem_of_pane_windows by done. rewrite Hq. split.
      * intros [Ht [m Hm]]. split; [exists (q - m)%Z; lia|]. split; [lia|].
        assert (m < n)%Z as Hmn by (apply (Z.mul_lt_mono_pos_r S); lia).
        assert ((m + 1) * S ≤ n * S)%Z by (apply Z.mul_le_mono_nonneg_r; lia). lia.
      * intros [[m ->] Ht]. split; [|exists (q - m)%Z; lia].
        assert (m < q + 1)%Z as Hm1 by (apply (Z.mul_lt_mono_pos_r S); lia).
        assert (q < m + n)%Z as Hm2 by (apply (Z.mul_lt_mono_pos_r S); lia).
        assert (m * S ≤ q * S)%Z by (apply Z.mul_le_mono_nonneg_r; lia).
        assert ((q + 1) * S ≤ (m + n) * S)%Z by (apply Z.mul_le_mono_nonneg_r; lia). lia.
Qed.

Lemma window_bounds_witness :
  getWindowStartTime 10 25 = 20%Z ∧ (-5 < getWindowStartTime 10 (-5))%Z ∧
  ∃ starts, GetSlidingWindowStartTimes (GetPaneStartTime 25 10) 20 10 = Ok starts ∧ ∀ t, t ∈ starts ↔ covers 20 10 t 25.
Proof.
  destruct (window_bounds 10 10 (-5)) as (_ & _ & Hneg & _); [lia|unfold is_i64; lia|].
  destruct (window_bounds 20 10 25) as (_ & _ & _ & Hsl); [lia|unfold is_i64; lia|].
  split; [reflexivity|]. split.
  - apply Hneg; [lia|]. intros [q Hq]. lia.
  - destruct Hsl as (starts & Hrun & _ & _ & _ & Hin).
    + split; [lia|exists 2%Z; lia|lia].
    + unfold time_ok. lia.
    + exists starts. split; [exact Hrun|exact Hin].
Defined.
