(* ===== verification/Tuples.v ===== *)
(** * Tuple types

    [api/tuple/tuple_gen.go] declares the types [Tuple1] to [Tuple20] from one
    template ([tuple_gen.py]); a tuple type is the list of the types of its
    fields.  Here are the operations that report errors and the comparison: what
    a tuple holds after a sequence of operations, and that comparing tuples is
    comparing the values of their fields, floats as numbers. *)

From stdpp Require Import prelude gmap strings list.
From Stdlib Require Import ZArith Lia.
From S2P Require Import Prelude Codec Window.

Inductive TupleError := ErrExtraField | ErrWrongFieldType.

(** [NewTupleN(v1, ..., vN)]; its timestamp is the zero value. *)
Definition NewTuple (vs : list field) : Tuple := MkTuple vs 0.

(** [t.New()]: the zero value of every field type. *)
Definition zero_of (ty : GoType) : field :=
  match gt_Name ty with None => zero_field (gt_Kind ty) | Some n => FNamed n (zero_field (gt_Kind ty)) end.

Definition New (tupleType : list GoType) : Tuple := MkTuple (zero_of <$> tupleType) 0.

(** [t.SetField(i, val)]: the type assertion [val.(T)] succeeds if the dynamic
    type of [val] is the type of the field. *)
Definition set_field (tupleType : list GoType) (t : Tuple) (i : nat) (val : field) : Tuple * option TupleError :=
  match tupleType !! i with
  | Some ty => if decide (type_of val = ty) then (MkTuple (<[i := val]> (fields t)) (timestamp t), None) else (t, Some ErrWrongFieldType)
  | None => (t, Some ErrExtraField)
  end.

Definition Copy (t : Tuple) : Tuple := MkTuple (fields t) (timestamp t).

(** ** Comparison *)

(** [!=] on two values of one field type.  Floats are compared as numbers: a
    NaN differs from every value, itself included, and the zeros are equal.
    The sign bit and the bits of infinity. *)
Definition float_max (kind : Kind) : option (Z * Z) :=
  match kind with
  | KFloat32 => Some (2 ^ 31, 255 * 2 ^ 23)%Z
  | KFloat64 => Some (2 ^ 63, 2047 * 2 ^ 52)%Z
  | _ => None
  end.

(** The bits without the sign are above those of infinity. *)
Fixpoint is_nan (f : field) : bool :=
  match f with
  | FNum k z => match float_max k with Some (sign, inf) => (inf <? z mod sign)%Z | None => false end
  | FNamed _ f => is_nan f
  | _ => false
  end.

Fixpoint is_zero (f : field) : bool :=
  match f with
  | FNum k z => match float_max k with Some (sign, _) => (z mod sign =? 0)%Z | None => false end
  | FNamed _ f => is_zero f
  | _ => false
  end.

Definition go_equal (f g : field) : bool :=
  if is_nan f || is_nan g then false
  else bool_decide (f = g) || (is_zero f && is_zero g && bool_decide (type_of f = type_of g)).

(** [t.Equal(other)]: a tuple of another type is different; timestamps do not
    count. *)
Fixpoint fields_equal (fs gs : list field) : bool :=
  match fs, gs with
  | f :: fs, g :: gs => if go_equal f g then fields_equal fs gs else false
  | _, _ => true
  end.

Definition Equal (tupleType otherType : list GoType) (t other : Tuple) : bool :=
  if decide (otherType = tupleType) then fields_equal (fields t) (fields other) else false.

(** ** The values of fields *)

(** The number that IEEE 754 gives bits with [mbits] of fraction and [ebits] of
    exponent, scaled so that the smallest positive one is 1. *)
Inductive number := NaN | Infinite (neg : bool) | Finite (z : Z).

Section Float.
Context (mbits ebits : Z) (Hm : (0 < mbits)%Z) (He : (0 < ebits)%Z).

Definition magnitude (r : Z) : Z :=
  let e := (r / 2 ^ mbits)%Z in
  let m := (r mod 2 ^ mbits)%Z in
  if (e =? 0)%Z then m else ((2 ^ mbits + m) * 2 ^ (e - 1))%Z.

Definition float_value (bits : Z) : number :=
  let neg := (2 ^ (mbits + ebits) <=? bits)%Z in
  let r := (bits mod 2 ^ (mbits + ebits))%Z in
  let e := (r / 2 ^ mbits)%Z in
  if (e =? 2 ^ ebits - 1)%Z then (if (r mod 2 ^ mbits =? 0)%Z then Infinite neg else NaN)
  else Finite (if neg then - magnitude r else magnitude r).

Lemma magnitude_lt r r' : (0 ≤ r < r')%Z → (magnitude r < magnitude r')%Z.
Proof.
  intros Hr. unfold magnitude. set (M := (2 ^ mbits)%Z). assert (HM : (0 < M)%Z) by (apply Z.pow_pos_nonneg; lia).
  pose proof (Z.div_mod r M ltac:(lia)) as Hd. pose proof (Z.div_mod r' M ltac:(lia)) as Hd'.
  pose proof (Z.mod_pos_bound r M HM) as Hb. pose proof (Z.mod_pos_bound r' M HM) as Hb'.
  set (e := (r / M)%Z) in *. set (e' := (r' / M)%Z) in *. set (m := (r mod M)%Z) in *. set (m' := (r' mod M)%Z) in *.
  assert (0 ≤ e ∧ e ≤ e')%Z as [He0 Hee] by (split; [apply Z.div_pos|apply Z.div_le_mono]; lia).
  assert (∀ k, 0 ≤ k → 0 < 2 ^ k)%Z as Hpow by (intros; apply Z.pow_pos_nonneg; lia).
  destruct (Z.eqb_spec e 0) as [E0|E0], (Z.eqb_spec e' 0) as [E0'|E0']; [nia| |lia|].
  - specialize (Hpow (e' - 1)%Z ltac:(lia)). nia.
  - destruct (Z.eq_dec e e') as [<-|Hne]; [specialize (Hpow (e - 1)%Z ltac:(lia)); nia|].
    assert (2 ^ (e' - 1) = 2 ^ (e - 1) * 2 * 2 ^ (e' - 1 - e))%Z as ->.
    { replace (e' - 1)%Z with (e - 1 + 1 + (e' - 1 - e))%Z at 1 by lia. by rewrite !Z.pow_add_r by lia. }
    assert (0 < 2 ^ (e - 1))%Z by (apply Hpow; lia). assert (0 < 2 ^ (e' - 1 - e))%Z by (apply Hpow; lia). nia.
Qed.

Lemma magnitude_inj r r' : (0 ≤ r)%Z → (0 ≤ r')%Z → magnitude r = magnitude r' → r = r'.
Proof.
  intros Hr Hr' Heq. destruct (Z.lt_trichotomy r r') as [Hlt|[?|Hlt]]; [|done|].
  - pose proof (magnitude_lt r r' ltac:(lia)). lia.
  - pose proof (magnitude_lt r' r ltac:(lia)). lia.
Qed.

Lemma magnitude_0 : magnitude 0 = 0%Z.
Proof. unfold magnitude. by rewrite Z.div_0_l, Zmod_0_l by (apply Z.pow_nonzero; lia). Qed.

Lemma magnitude_nonneg r : (0 ≤ r)%Z → (0 ≤ magnitude r)%Z.
Proof. intros Hr. destruct (Z.eq_dec r 0) as [->|]; [by rewrite magnitude_0|]. rewrite <-magnitude_0. apply Z.lt_le_incl, magnitude_lt. lia. Qed.

Local Notation sign := (2 ^ (mbits + ebits))%Z.
Local Notation inf := ((2 ^ ebits - 1) * 2 ^ mbits)%Z.

Lemma exponent_spec r : (0 ≤ r < sign)%Z →
  if (r / 2 ^ mbits =? 2 ^ ebits - 1)%Z then (r = inf + r mod 2 ^ mbits)%Z ∧ (inf ≤ r)%Z else (r < inf)%Z.
Proof.
  intros Hr. rewrite Z.pow_add_r in Hr by lia.
  assert (HM : (0 < 2 ^ mbits)%Z) by (apply Z.pow_pos_nonneg; lia).
  pose proof (Z.div_mod r (2 ^ mbits) ltac:(lia)) as Hd. pose proof (Z.mod_pos_bound r _ HM) as Hb.
  assert (r / 2 ^ mbits < 2 ^ ebits)%Z by (apply Z.div_lt_upper_bound; lia).
  destruct (Z.eqb_spec (r / 2 ^ mbits) (2 ^ ebits - 1)) as [E|E]; nia.
Qed.

Lemma sign_pos : (0 < sign)%Z.
Proof. apply Z.pow_pos_nonneg; lia. Qed.

(** A NaN is above infinity. *)
Lemma float_nan z : float_value z = NaN ↔ (inf < z mod sign)%Z.
Proof.
  pose proof (Z.mod_pos_bound z sign sign_pos) as Hr. pose proof (exponent_spec _ Hr) as Hs. unfold float_value.
  destruct (_ =? _)%Z; [destruct (Z.eqb_spec ((z mod sign) mod 2 ^ mbits) 0)|]; split; (done || lia).
Qed.

(** Two patterns that are not NaN have the same value if they are the same or
    both are zeros. *)
Lemma float_same z z' : (0 ≤ z < 2 * sign)%Z → (0 ≤ z' < 2 * sign)%Z → float_value z ≠ NaN → float_value z' ≠ NaN →
  float_value z = float_value z' ↔ z = z' ∨ (z mod sign = 0 ∧ z' mod sign = 0)%Z.
Proof.
  intros Hz Hz' Hn Hn'. pose proof sign_pos as Hs.
  assert (Hdec : ∀ x, (0 ≤ x < 2 * sign)%Z → x = (if (sign <=? x)%Z then sign + x mod sign else x mod sign)%Z).
  { intros x Hx. destruct (Z.leb_spec sign x); [|by rewrite Z.mod_small by lia].
    rewrite <-(Z.mod_unique x sign 1 (x - sign)) by lia. lia. }
  pose proof (Hdec z Hz) as Dz. pose proof (Hdec z' Hz') as Dz'. clear Hdec.
  pose proof (Z.mod_pos_bound z sign Hs) as Hr. pose proof (Z.mod_pos_bound z' sign Hs) as Hr'.
  rewrite float_nan in Hn, Hn'. pose proof (exponent_spec _ Hr) as Es. pose proof (exponent_spec _ Hr') as Es'.
  pose proof (magnitude_nonneg (z mod sign) ltac:(lia)) as Hp. pose proof (magnitude_nonneg (z' mod sign) ltac:(lia)) as Hp'.
  pose proof magnitude_0 as H0. pose proof (λ H, magnitude_inj (z mod sign) 0 (proj1 Hr) (Z.le_refl 0) H) as Iz.
  pose proof (λ H, magnitude_inj (z' mod sign) 0 (proj1 Hr') (Z.le_refl 0) H) as Iz'.
  pose proof (magnitude_inj (z mod sign) (z' mod sign) (proj1 Hr) (proj1 Hr')) as I.
  assert (inf ≠ 0)%Z as Hinf.
  { assert (2 ^ ebits > 1)%Z by (apply Z.lt_gt, Z.pow_gt_1; lia). assert (0 < 2 ^ mbits)%Z by (apply Z.pow_pos_nonneg; lia). nia. }
  unfold float_value.
  destruct (_ =? _)%Z, (_ =? _)%Z.
  - rewrite !(proj2 (Z.eqb_eq _ _)) by lia. split; [intros [= Heq]; left|intros [->|?]; [done|lia]].
    rewrite Dz, Dz', Heq. destruct (sign <=? z')%Z; lia.
  - destruct (_ =? 0)%Z; (split; [done|]); intros [->|?]; lia.
  - destruct (_ =? 0)%Z; (split; [done|]); intros [->|?]; lia.
  - split.
    + intros [= Heq]. destruct (sign <=? z)%Z, (sign <=? z')%Z; [left|right|right|left].
      * rewrite Dz, Dz', I by lia. done.
      * split; [apply Iz|apply Iz']; lia.
      * split; [apply Iz|apply Iz']; lia.
      * rewrite Dz, Dz', I by lia. done.
    + intros [->|[E E']]; [done|]. rewrite E, E', H0. by destruct (sign <=? z)%Z, (sign <=? z')%Z.
Qed.
End Float.

Definition float_bits (kind : Kind) : option (Z * Z) :=
  match kind with KFloat32 => Some (23, 8)%Z | KFloat64 => Some (52, 11)%Z | _ => None end.

(** Two fields of one type have the same value; a NaN has none. *)
Definition same_value (f g : field) : Prop :=
  type_of f = type_of g ∧
  match underlying f, underlying g with
  | FNum k z, FNum _ z' =>
      match float_bits k with
      | Some (mbits, ebits) => float_value mbits ebits z = float_value mbits ebits z' ∧ float_value mbits ebits z ≠ NaN
      | None => z = z'
      end
  | f, g => f = g
  end.

(** ** Sequences of operations *)

Inductive tuple_op := TSet (i : nat) (v : field) | TStamp (ts : Z) | TCopy.

Definition tuple_step (tupleType : list GoType) (t : Tuple) (op : tuple_op) : Tuple * option TupleError :=
  match op with
  | TSet i v => set_field tupleType t i v
  | TStamp ts => (SetTimestamp t ts, None)
  | TCopy => (Copy t, None)
  end.

Definition tuple_run (tupleType : list GoType) (t : Tuple) (ops : list tuple_op) : Tuple :=
  foldl (λ t op, (tuple_step tupleType t op).1) t ops.

(** The value that was last set for field [i] among those of its type, and the
    last timestamp. *)
Definition last_set (ty : GoType) (i : nat) (v0 : field) (ops : list tuple_op) : field :=
  foldl (λ v op, match op with TSet j v' => if decide (j = i ∧ type_of v' = ty) then v' else v | _ => v end) v0 ops.
Definition last_stamp (ts0 : Z) (ops : list tuple_op) : Z :=
  foldl (λ ts op, match op with TStamp ts' => ts' | _ => ts end) ts0 ops.

(** Operations of Go: values of their own dynamic types. *)
Definition tuple_op_ok (op : tuple_op) : Prop :=
  match op with TSet _ v => has_type (type_of v) v = true | TStamp ts => is_i64 ts | TCopy => True end.

(** ** Facts *)

Lemma zero_of_typed ty : SupportedKind (gt_Kind ty) = true → has_type ty (zero_of ty) = true.
Proof.
  destruct ty as [[n|] k]; intros Hk; unfold has_type, zero_of; simpl; [rewrite bool_decide_true by done|]; by apply zero_has_kind.
Qed.

Lemma New_typed tys : Forall (λ ty, SupportedKind (gt_Kind ty) = true) tys → typed tys (New tys).
Proof.
  intros Hsup. split; [|unfold is_i64; simpl; lia]. simpl. apply Forall2_fmap_r, Forall_Forall2_diag.
  eapply Forall_impl; [exact Hsup|]. apply zero_of_typed.
Qed.

(** The model's other allocations are of predeclared types. *)
Lemma New_predeclared kinds : New (predeclared <$> kinds) = Tuple_New kinds.
Proof. unfold New, Tuple_New. by rewrite <-list_fmap_compose. Qed.

Lemma set_field_typed tys t i v : typed tys t → has_type (type_of v) v = true → typed tys (set_field tys t i v).1.
Proof.
  intros [Hf Hts] Hv. unfold set_field. destruct (tys !! i) as [ty|] eqn:Hty; [|done]. case_decide as Heq; [|done].
  split; [|done]. simpl. rewrite <-(list_insert_id tys i ty Hty). apply Forall2_insert; [done|]. by rewrite <-Heq.
Qed.

Lemma tuple_step_typed tys t op : typed tys t → tuple_op_ok op → typed tys (tuple_step tys t op).1.
Proof. intros Ht Hop. destruct op as [i v|ts|]; simpl in *; [by apply set_field_typed|by destruct Ht|done]. Qed.

(** What the decoder does with a field, ignoring the error. *)
Lemma SetField_set_field tys t i v : typed tys t → SetField t i v = (set_field tys t i v).1.
Proof.
  intros [Hf _]. unfold SetField, set_field. destruct (fields t !! i) as [f|] eqn:Ef.
  - destruct (Forall2_lookup_r _ _ _ _ _ Hf Ef) as (ty & -> & [_ <-]%has_type_carries).
    case_bool_decide; case_decide; simpl; congruence.
  - destruct (tys !! i) as [ty|] eqn:Ek; [|done]. destruct (Forall2_lookup_l _ _ _ _ _ Hf Ek) as (f & Ef' & _). congruence.
Qed.

Lemma tuple_run_field tys t ops i ty f : typed tys t → Forall tuple_op_ok ops → tys !! i = Some ty → fields t !! i = Some f →
  fields (tuple_run tys t ops) !! i = Some (last_set ty i f ops).
Proof.
  intros Ht Hops Hty. revert t f Ht. induction Hops as [|op ops Hop _ IH]; intros t f Ht Hf; [done|].
  unfold tuple_run, last_set in *. cbn [foldl].
  assert (∃ f', fields (tuple_step tys t op).1 !! i = Some f' ∧
    f' = match op with TSet j v' => if decide (j = i ∧ type_of v' = ty) then v' else f | _ => f end) as (f' & Hf' & <-);
    [|by apply IH; [apply tuple_step_typed|]].
  destruct op as [j v|ts|]; simpl; [|by exists f..]. unfold set_field. destruct (tys !! j) as [tyj|] eqn:Hj.
  - destruct (decide (type_of v = tyj)) as [Hv|Hv]; simpl.
    + destruct (decide (j = i)) as [->|Hne].
      * assert (tyj = ty) as -> by congruence. rewrite decide_True by done. exists v. split; [|done].
        apply list_lookup_insert_eq. by eapply lookup_lt_Some.
      * rewrite decide_False by naive_solver. exists f. split; [|done]. by rewrite list_lookup_insert_ne.
    + rewrite decide_False; [by exists f|]. intros [-> Hv']. congruence.
  - simpl. rewrite decide_False; [by exists f|]. intros [-> _]. congruence.
Qed.

Lemma tuple_run_stamp tys t ops : timestamp (tuple_run tys t ops) = last_stamp (timestamp t) ops.
Proof.
  revert t. induction ops as [|op ops IH]; intros t; [done|]. unfold tuple_run, last_stamp in *. cbn [foldl].
  rewrite IH. f_equal. destruct op as [j v|ts|]; [|done..]. simpl. unfold set_field.
  destruct (tys !! j); [|done]. by case_decide.
Qed.

Lemma is_nan_underlying f : is_nan f = is_nan (underlying f) ∧ is_zero f = is_zero (underlying f).
Proof. induction f as [| | |n f IH]; [done..|]. exact IH. Qed.

Lemma num_equal_same k z z' : in_range k z → in_range k z' →
  (if is_nan (FNum k z) || is_nan (FNum k z') then false
   else bool_decide (FNum k z = FNum k z') || (is_zero (FNum k z) && is_zero (FNum k z'))) = true ↔
  match float_bits k with
  | Some (mbits, ebits) => float_value mbits ebits z = float_value mbits ebits z' ∧ float_value mbits ebits z ≠ NaN
  | None => z = z'
  end.
Proof.
  intros (lo & hi & Hr & Hz) (lo' & hi' & Hr' & Hz'). rewrite Hr in Hr'. injection Hr' as <- <-.
  assert (∀ m e : Z, (0 < m)%Z → (0 < e)%Z → lo = 0%Z → hi = (2 * 2 ^ (m + e))%Z →
    float_max k = Some (2 ^ (m + e), (2 ^ e - 1) * 2 ^ m)%Z → float_bits k = Some (m, e) →
    (if is_nan (FNum k z) || is_nan (FNum k z') then false
     else bool_decide (FNum k z = FNum k z') || (is_zero (FNum k z) && is_zero (FNum k z'))) = true ↔
    float_value m e z = float_value m e z' ∧ float_value m e z ≠ NaN) as Hfloat.
  { intros m e Hm He -> -> Hmax Hbits. cbn [is_nan is_zero]. rewrite Hmax. pose proof (float_nan m e Hm He z) as Nz. pose proof (float_nan m e Hm He z') as Nz'.
    destruct (Z.ltb_spec ((2 ^ e - 1) * 2 ^ m) (z mod 2 ^ (m + e))) as [L|L]; simpl; [split; [done|]; intros [_ Hn]; destruct Hn; by apply Nz|].
    destruct (Z.ltb_spec ((2 ^ e - 1) * 2 ^ m) (z' mod 2 ^ (m + e))) as [L'|L']; simpl.
    { split; [done|]. intros [Heq Hn]. destruct Hn. rewrite Heq. by apply Nz'. }
    rewrite (float_same m e Hm He z z') by (done || rewrite ?Nz, ?Nz'; lia).
    rewrite orb_true_iff, andb_true_iff, bool_decide_eq_true, !Z.eqb_eq. split; [|naive_solver].
    intros Heq. split; [naive_solver|]. rewrite Nz. lia. }
  destruct k; try done; simpl in Hr; injection Hr as <- <-;
    try (simpl; rewrite orb_false_r, bool_decide_eq_true; naive_solver).
  - by apply (Hfloat 23%Z 8%Z).
  - by apply (Hfloat 52%Z 11%Z).
Qed.

(** Comparing two fields of a type compares their values. *)
Lemma go_equal_same ty f g : has_type ty f = true → has_type ty g = true → go_equal f g = true ↔ same_value f g.
Proof.
  intros Hf Hg. destruct (has_type_carries _ _ Hf) as [Cf Tf], (has_type_carries _ _ Hg) as [Cg Tg].
  unfold go_equal, same_value. rewrite Tf, Tg, (bool_decide_true (ty = ty)), andb_true_r by done.
  destruct (is_nan_underlying f) as [-> ->], (is_nan_underlying g) as [-> ->].
  assert (f = g ↔ underlying f = underlying g) as Hinj.
  { split; [by intros ->|]. destruct ty as [[n|] k]; unfold has_type in Hf, Hg; simpl in Hf, Hg.
    - destruct f, g; try done. apply andb_true_iff in Hf as [->%bool_decide_eq_true Hf], Hg as [->%bool_decide_eq_true Hg].
      simpl. rewrite (proj2 (has_kind_carries _ _ Hf)), (proj2 (has_kind_carries _ _ Hg)). by intros ->.
    - by rewrite (proj2 (has_kind_carries _ _ Hf)), (proj2 (has_kind_carries _ _ Hg)). }
  rewrite (bool_decide_ext _ _ Hinj). clear Hinj Hf Hg Tf Tg. unfold carries in Cf, Cg.
  destruct (underlying f) as [b|k z|s|n f'], (underlying g) as [b'|k' z'|s'|n' g']; try done;
    try (split; [|by intros [_ ?]]; destruct (is_nan _ || is_nan _); [done|]; rewrite bool_decide_false by done; simpl; by rewrite ?andb_false_r).
  - simpl. rewrite orb_false_r, bool_decide_eq_true. naive_solver.
  - apply has_kind_num in Cf as [-> Rf], Cg as [-> Rg]. rewrite (num_equal_same _ _ _ Rf Rg). naive_solver.
  - simpl. rewrite orb_false_r, bool_decide_eq_true. naive_solver.
Qed.

Lemma fields_equal_same tys fs : ∀ gs, Forall2 (λ ty f, has_type ty f = true) tys fs → Forall2 (λ ty f, has_type ty f = true) tys gs →
  fields_equal fs gs = true ↔ Forall2 same_value fs gs.
Proof.
  induction tys as [|ty tys IH] in fs |- *; intros gs Hf Hg.
  - apply Forall2_nil_inv_l in Hf as ->. apply Forall2_nil_inv_l in Hg as ->. by split.
  - apply Forall2_cons_inv_l in Hf as (f & fs' & Hf & Hfs & ->). apply Forall2_cons_inv_l in Hg as (g & gs' & Hg & Hgs & ->).
    simpl. pose proof (go_equal_same ty f g Hf Hg) as Heq. specialize (IH fs' gs' Hfs Hgs). rewrite Forall2_cons.
    destruct (go_equal f g); [rewrite IH; naive_solver|]. split; [done|]. intros [Hs _]. by apply Heq in Hs.
Qed.

(** C33: what a tuple holds and when two are equal.  After any sequence of
    [SetField], [SetTimestamp] and [Copy] on a new tuple of supported kinds, the
    tuple is one of its type: field [i] holds the last value of its very type
    that was set for it, or the zero value, and the timestamp is the last one
    set; the decoder's calls, which ignore the reported errors, are among these.
    An operation reports an error exactly if it is a [SetField] at an index that
    is no field or with a value of another type.  [Equal] holds of two tuples
    exactly if they have the same type and all their fields the same values,
    where floats are compared as the numbers that IEEE 754 gives their bits and
    a NaN equals nothing. *)
Theorem tuple_ops_typed (tys : list GoType) (ops : list tuple_op) (Hsup : Forall (λ ty, SupportedKind (gt_Kind ty) = true) tys)
    (Hops : Forall tuple_op_ok ops) :
  let t := tuple_run tys (New tys) ops in
  typed tys t ∧
  (∀ i ty, tys !! i = Some ty → fields t !! i = Some (last_set ty i (zero_of ty) ops)) ∧
  timestamp t = last_stamp 0 ops ∧
  (∀ op, (tuple_step tys t op).2 = match op with
     | TSet i v => match tys !! i with
                   | Some ty => if decide (type_of v = ty) then None else Some ErrWrongFieldType
                   | None => Some ErrExtraField
                   end
     | _ => None
     end) ∧
  (∀ i v, SetField t i v = (tuple_step tys t (TSet i v)).1) ∧
  (∀ tys' t', typed tys' t' → Equal tys tys' t t' = true ↔ tys' = tys ∧ Forall2 same_value (fields t) (fields t')).
Proof.
  cbv zeta. pose proof (New_typed tys Hsup) as Hnew.
  assert (Ht : typed tys (tuple_run tys (New tys) ops)).
  { unfold tuple_run. clear Hsup. revert Hnew. generalize (New tys). induction Hops as [|op ops Hop _ IH]; intros t Ht; [done|].
    apply IH. by apply tuple_step_typed. }
  split_and!; [done| |apply tuple_run_stamp|..].
  - intros i ty Hty. apply tuple_run_field; [done..|]. simpl. by rewrite list_lookup_fmap, Hty.
  - intros [i v|ts|]; [|done..]. simpl. unfold set_field. destruct (tys !! i); [|done]. by case_decide.
  - intros i v. by apply SetField_set_field.
  - intros tys' t' Ht'. unfold Equal. case_decide as Heq; [|naive_solver]. subst tys'.
    rewrite (fields_equal_same tys); [naive_solver|apply Ht|apply Ht'].
Qed.

(** A number and a float; a NaN differs from itself and the zeros are equal. *)
Definition demo_nan : Z := (2047 * 2 ^ 52 + 1)%Z.
Definition demo_pair_type : list GoType := [predeclared KInt64; predeclared KFloat64].
Definition demo_pair (x : Z) : Tuple := MkTuple [FNum KInt64 6; FNum KFloat64 x] 3.

Definition demo_tuple_ops : list tuple_op :=
  [TSet 0 (FNum KInt64 6); TStamp 3; TSet 1 (FBool true); TSet 0 (FNamed "time.Duration" (FNum KInt64 5))].

Lemma demo_pair_typed x : (0 ≤ x < 2 ^ 64)%Z → typed demo_pair_type (demo_pair x).
Proof.
  intros Hx. split; [|vm_compute; split; congruence]. apply Forall2_cons. split; [reflexivity|]. apply Forall2_cons.
  split; [|constructor]. unfold has_type. simpl. rewrite (proj2 (Z.leb_le _ _)), (proj2 (Z.ltb_lt _ _)) by lia. reflexivity.
Qed.

Lemma demo_pair_same x : Forall2 same_value [FNum KInt64 6; FNum KFloat64 0] (fields (demo_pair x)) ↔
  float_value 52 11 0 = float_value 52 11 x ∧ float_value 52 11 0 ≠ NaN.
Proof. simpl. rewrite !Forall2_cons. unfold same_value. cbn [underlying float_bits]. naive_solver. Qed.

Lemma tuple_ops_typed_witness :
  typed demo_pair_type (tuple_run demo_pair_type (New demo_pair_type) demo_tuple_ops) ∧
  fields (tuple_run demo_pair_type (New demo_pair_type) demo_tuple_ops) !! 0 = Some (FNum KInt64 6) ∧
  Equal demo_pair_type demo_pair_type (tuple_run demo_pair_type (New demo_pair_type) demo_tuple_ops) (demo_pair (2 ^ 63)) = true ∧
  Equal demo_pair_type demo_pair_type (tuple_run demo_pair_type (New demo_pair_type) demo_tuple_ops) (demo_pair demo_nan) = false.
Proof.
  destruct (tuple_ops_typed demo_pair_type demo_tuple_ops) as (Ht & Hf & _ & _ & _ & Heq).
  - repeat constructor.
  - repeat (apply Forall_cons; split; [first [reflexivity|exact I|vm_compute; split; congruence]|]). apply Forall_nil. exact I.
  - assert (Hfs : fields (tuple_run demo_pair_type (New demo_pair_type) demo_tuple_ops) = [FNum KInt64 6; FNum KFloat64 0]) by (vm_compute; reflexivity).
    rewrite Hfs in Heq. split; [exact Ht|]. split; [rewrite Hfs; reflexivity|]. split.
    + apply (Heq demo_pair_type (demo_pair (2 ^ 63))); [apply demo_pair_typed; lia|]. split; [reflexivity|].
      apply demo_pair_same. split; [vm_compute; reflexivity|vm_compute; discriminate].
    + apply not_true_iff_false. intros Hc. apply (Heq demo_pair_type (demo_pair demo_nan)) in Hc as [_ Hc]; [|apply demo_pair_typed; unfold demo_nan; lia].
      apply demo_pair_same in Hc as [Hc _]. vm_compute in Hc. discriminate Hc.
Defined.
