(* ===== verification/Keyed.v ===== *)
(** * Keyed operators

    The operators that keep a state per key in the state service:
    [api/dataflow/statefulMap.go], [statefulMap2State.go], [statefulFlatmap.go]
    and [join.go].  All of them fetch the states of the keys of a batch, call
    the user's function on one record at a time with the cached states of its
    key, and flush the caches.  [process] is this cycle for any number of
    states; the specification ([spec_batch]) has no caches: a map from keys to
    tuples that every record reads and changes at once. *)

From stdpp Require Import prelude gmap strings list.
From Stdlib Require Import ZArith Lia.
From S2P Require Import Prelude Partition Codec WorkUnit StateType StateCache Backend StateService StateClient StateBatch.
From S2P Require Import Window WindowStore.

(** What [Get] returns of a state. *)
Definition st_Get (s : StateType) : list Tuple :=
  match s with
  | ValueState b v => if hasValue b then option_list v else []
  | ListState _ l _ _ => l
  end.

(** A state an operator registered: its id, the type of [V], and the message
    when a fetched state is not of that type. *)
Record StateDecl := MkState { sd_ID : Z; sd_kind : state_kind; sd_type : list Kind; sd_mismatch : string }.

(** The methods a user function calls, in order, each on one of the states it
    is given. *)
Abbreviation calls := (list (nat * state_op)) (only parsing).

Section Process.
Context `{Mus} `{GoRange} {S : Type} `{StateServiceOps S}.
(** [X] is what the user's function is called for (a record, a timer), [E] what
    it does besides changing states, [T] where this goes to. *)
Context {X T E : Type} (decls : list StateDecl) (key : X → field)
  (udf : X → list (list Tuple) → calls * E) (act : T → X → E → T).
Implicit Types sc : StateClient S.

Definition assert_state (d : StateDecl) (s : StateType) : res StateType :=
  match sd_kind d, s with
  | SValue, ValueState _ _ | SList, ListState _ _ _ _ => Ok s
  | _, _ => Crash (Fatal (sd_mismatch d))
  end.

Definition get_states sc (k : field) : res (list StateType) :=
  mapR (λ d, s ← GetSimpleState sc (sd_ID d) k; assert_state d s) decls.

Definition run_call (k : field) sc (x : nat * state_op) : res (StateClient S) :=
  d ← idx decls x.1;
  user_op sc (sd_ID d, (k, None), x.2).

Definition visit (st : StateClient S * T) (x : X) : res (StateClient S * T) :=
  states ← get_states st.1 (key x);
  let '(cs, e) := udf x (st_Get <$> states) in
  sc ← foldM (run_call (key x)) st.1 cs;
  Ok (sc, act st.2 x e).

Definition process sc (t : T) (xs : list X) : res (StateClient S * T) :=
  '(sc, _) ← FetchSimpleState sc (key <$> xs) (sd_ID <$> decls);
  '(sc, t) ← foldM visit (sc, t) xs;
  '(sc, _) ← FlushSimpleState sc;
  Ok (sc, t).

End Process.

(** ** Without caches

    The tuples by key and state.  Within a batch a cleared state can still be
    read and changed, but at the end it is gone: [C] are the cleared ones. *)

Abbreviation store := (gmap (field * Z) (list Tuple)) (only parsing).

Definition spec_op (l : list Tuple) (op : state_op) : list Tuple :=
  match op with
  | OSet v => [v]
  | OUpdate vs => vs
  | OAdd v => l ++ [v]
  | OAddAll vs => l ++ vs
  | OClear => l
  | OCopyFrom other => state_tuples other
  end.

Section Spec.
Context {X T E : Type} (decls : list StateDecl) (key : X → field)
  (udf : X → list (list Tuple) → calls * E) (act : T → X → E → T).

Definition spec_call (k : field) (st : store * gset (field * Z)) (x : nat * state_op) : store * gset (field * Z) :=
  match decls !! x.1 with
  | None => st
  | Some d =>
      let p := (k, sd_ID d) in
      (<[p := spec_op (st.1 !!! p) x.2]> st.1, match x.2 with OClear => {[p]} ∪ st.2 | _ => st.2 end)
  end.

Definition views (Σ : store) (k : field) : list (list Tuple) := (λ d, Σ !!! (k, sd_ID d)) <$> decls.

Definition spec_visit (st : store * gset (field * Z) * T) (x : X) : store * gset (field * Z) * T :=
  let '(cs, e) := udf x (views st.1.1 (key x)) in
  (foldl (spec_call (key x)) st.1 cs, act st.2 x e).

Definition spec_batch (st : store * T) (xs : list X) : store * T :=
  let st' := foldl spec_visit (st.1, ∅, st.2) xs in
  (filter (λ x, x.1 ∉ st'.1.2) st'.1.1, st'.2).
End Spec.

(** Two ways to record what the user's function does. *)
Lemma spec_batch_rel {X T T' E : Type} decls (key : X → field) (udf : X → list (list Tuple) → calls * E)
    (act : T → X → E → T) (act' : T' → X → E → T') (R : T → T' → Prop) Σ t t' xs :
  (∀ t t' x e, x ∈ xs → R t t' → R (act t x e) (act' t' x e)) → R t t' →
  (spec_batch decls key udf act (Σ, t) xs).1 = (spec_batch decls key udf act' (Σ, t') xs).1 ∧
  R (spec_batch decls key udf act (Σ, t) xs).2 (spec_batch decls key udf act' (Σ, t') xs).2.
Proof.
  intros Hact HR. unfold spec_batch. cbn [fst snd].
  enough (Hl : ∀ xs' Σ C t t', (∀ x, x ∈ xs' → x ∈ xs) → R t t' →
    (foldl (spec_visit decls key udf act) (Σ, C, t) xs').1 = (foldl (spec_visit decls key udf act') (Σ, C, t') xs').1 ∧
    R (foldl (spec_visit decls key udf act) (Σ, C, t) xs').2 (foldl (spec_visit decls key udf act') (Σ, C, t') xs').2).
  { destruct (Hl xs Σ ∅ t t') as [-> ?]; done. }
  clear Σ t t' HR. induction xs' as [|x xs' IH]; intros Σ C t t' Hin HR; [done|]. cbn [foldl]. unfold spec_visit at 2 4 6 8.
  cbn [fst snd]. destruct (udf x _) as [cs e]. destruct (foldl (spec_call decls (key x)) (Σ, C) cs) as [Σ1 C1].
  apply IH; [intros y Hy; apply Hin; by right|]. apply Hact; [|done]. apply Hin. by left.
Qed.

(** ** What the service of a keyed operator holds *)

Definition kslot (k : field) : slot := (k, None).

#[local] Instance kslot_inj : Inj (=) (=) kslot.
Proof. by intros k k' [= ->]. Qed.

(** Tuples a state can hold, and calls that keep them so: no empty list is
    written, and user functions do not copy whole states. *)
Definition decl_fits (d : StateDecl) (l : list Tuple) : Prop :=
  Forall (well_typed (sd_type d)) l ∧ (sd_kind d = SValue → length l ≤ 1).

Definition op_fits (d : StateDecl) (op : state_op) : Prop :=
  match op, sd_kind d with
  | OSet v, SValue | OAdd v, SList => well_typed (sd_type d) v
  | OUpdate l, SList | OAddAll l, SList => l ≠ [] ∧ Forall (well_typed (sd_type d)) l
  | OClear, _ => True
  | _, _ => False
  end.

Lemma apply_op_fits d s op :
  kind_of_state s = sd_kind d → op_fits d op →
  ∃ s', apply_op s op = Ok s' ∧ kind_of_state s' = sd_kind d ∧
    state_tuples s' = spec_op (state_tuples s) op ∧
    IsDeleted s' = (if op is OClear then true else IsDeleted s).
Proof.
  unfold op_fits. intros <- Hop. destruct op, s; try done; simpl in *; by eexists.
Qed.

Lemma op_fits_ok d l0 op : op_fits d op → op_ok (sd_type d) l0 op.
Proof. unfold op_fits. destruct op, (sd_kind d); naive_solver. Qed.

Lemma op_fits_decl d l op : decl_fits d l → op_fits d op → decl_fits d (spec_op l op).
Proof.
  intros [Hl Hn]. unfold op_fits, decl_fits. destruct op, (sd_kind d) eqn:E; try done; simpl.
  - intros. split; [by constructor|lia].
  - naive_solver.
  - intros. split; [|done]. by apply Forall_app; rewrite Forall_singleton.
  - intros []. split; [|done]. by apply Forall_app.
Qed.

Lemma assert_state_Ok d s : kind_of_state s = sd_kind d → assert_state d s = Ok s.
Proof. unfold assert_state. by intros <-; destruct s. Qed.

(** [Get] of a state that tracks what was fetched. *)
Lemma st_Get_tracks l0 s : tracks l0 s → st_Get s = state_tuples s.
Proof.
  intros [Hv _]. destruct s as [b v|]; [|done]. unfold HasValue in Hv. simpl in *.
  destruct (hasValue b); [done|]. by destruct Hv as [-> _].
Qed.

Section Store.
Context `{MusLaws} `{GoRange} {S : Type} `{ServiceLaws S}.
Context (decls : list StateDecl).
Implicit Types sc : StateClient S.
Implicit Types Σ : gmap (field * Z) (list Tuple).

Abbreviation ids := (sd_ID <$> decls).

Definition decl_cache sc (d : StateDecl) : Prop :=
  ∃ c, sc_cache sc !! sd_ID d = Some c ∧ valueKind (cache_base c) = sd_kind d ∧ valueType (cache_base c) = sd_type d.

Lemma decl_storable sc d c l : decl_cache sc d → sc_cache sc !! sd_ID d = Some c → storable (cache_base c) l ↔ decl_fits d l.
Proof.
  intros (c' & Hc' & Hk & Ht) Hc. assert (c' = c) as -> by congruence. unfold storable. by rewrite Hk, Ht.
Qed.

Lemma decl_cache_same sc sc' d : same_caches sc sc' → decl_cache sc d → decl_cache sc' d.
Proof.
  intros Hcs (c & Hc & Hk & Ht). specialize (Hcs (sd_ID d)). rewrite Hc in Hcs.
  destruct Hcs as (c' & Hc' & Hb & _). exists c'. by rewrite Hb.
Qed.

(** The client holds the states of [decls], with the tuples [Σ]. *)
Record keyed_store sc Σ : Prop := {
  ks_ok : client_ok sc;
  ks_typed : store_typed sc;
  ks_type : stateClientType sc = SimpleStateClient;
  ks_ids : decls ≠ [] ∧ NoDup ids;
  ks_cache : ∀ d, d ∈ decls → decl_cache sc d;
  ks_stored : ∀ d k, d ∈ decls → slot_for sc (kslot k) → stored sc (sd_ID d) (kslot k) (Σ !!! (k, sd_ID d));
  ks_fits : ∀ d k, d ∈ decls → decl_fits d (Σ !!! (k, sd_ID d))
}.

(** A cached state of a batch: [l0] was fetched, and it holds [l]. *)
Definition cached_state (d : StateDecl) (l0 : list Tuple) (cleared : bool) (l : list Tuple) (s : StateType) : Prop :=
  kind_of_state s = sd_kind d ∧ tracks l0 s ∧ IsDeleted s = cleared ∧ state_tuples s = l.

(** Between the fetch, when the service held [Σ0], and the flush; [C] are the
    states cleared so far. *)
Record keyed_working Σ0 Σ (C : gset (field * Z)) sc : Prop := {
  kw_inv : batch_inv sc ids;
  kw_cache : ∀ d, d ∈ decls → decl_cache sc d;
  kw_base : ∀ d k, d ∈ decls → kslot k ∈ slots sc → stored sc (sd_ID d) (kslot k) (Σ0 !!! (k, sd_ID d));
  kw_fits0 : ∀ d k, d ∈ decls → decl_fits d (Σ0 !!! (k, sd_ID d));
  kw_fits : ∀ d k, d ∈ decls → decl_fits d (Σ !!! (k, sd_ID d));
  kw_states : ∀ d k, d ∈ decls → kslot k ∈ slots sc → ∃ s, get_state sc (sd_ID d) (kslot k) = Ok s ∧
    cached_state d (Σ0 !!! (k, sd_ID d)) (bool_decide ((k, sd_ID d) ∈ C)) (Σ !!! (k, sd_ID d)) s;
  kw_cleared : ∀ k id, (k, id) ∈ C → kslot k ∈ slots sc;
  kw_rest : ∀ d k, d ∈ decls → kslot k ∉ slots sc → Σ !!! (k, sd_ID d) = Σ0 !!! (k, sd_ID d)
}.

Lemma keyed_ids id : id ∈ ids ↔ ∃ d, d ∈ decls ∧ id = sd_ID d.
Proof. rewrite list_elem_of_fmap. naive_solver. Qed.

Lemma keyed_decl d d' : NoDup ids → d ∈ decls → d' ∈ decls → sd_ID d = sd_ID d' → d = d'.
Proof.
  intros Hnd [i Hi]%list_elem_of_lookup_1 [j Hj]%list_elem_of_lookup_1 Heq.
  assert (i = j) as ->; [|congruence].
  eapply (NoDup_lookup _ _ _ (sd_ID d) Hnd); rewrite list_lookup_fmap; [by rewrite Hi|by rewrite Hj, Heq].
Qed.

(** The fetch of the states of a batch of keys. *)
Lemma fetch_keyed sc Σ (ks : list field) :
  keyed_store sc Σ → ks ≠ [] → Forall (λ k, slot_for sc (kslot k)) ks →
  ∃ sc' n, FetchSimpleState sc ks ids = Ok (sc', n) ∧ keyed_working Σ Σ ∅ sc' ∧ same_conf sc sc' ∧
    (∀ k, kslot k ∈ slots sc' ↔ k ∈ ks) ∧ same_values (stateService sc) (stateService sc').
Proof.
  intros Hs Hne Hks. pose proof (ks_ok _ _ Hs) as Hok. destruct (ks_ids _ _ Hs) as [Hdne Hnd].
  destruct (fetch_batch_inv sc (kslot <$> ks) ids) as (sc' & n & Hrun & Hbi & Haf & Hin); try done.
  { apply Hs. } { by destruct ks. } { by apply Forall_fmap. } { by destruct decls. }
  { intros id (d & Hd & ->)%keyed_ids. destruct (ks_cache _ _ Hs d Hd) as (c & Hc & _). by exists c. }
  unfold fetch in Hrun. rewrite (ks_type _ _ Hs), <-list_fmap_compose in Hrun. unfold compose in Hrun. simpl in Hrun.
  rewrite list_fmap_id in Hrun. exists sc', n. split; [done|]. pose proof Haf as (Hconf & Hcs & Hfill & Hsv & _).
  assert (Hink : ∀ k, kslot k ∈ slots sc' ↔ k ∈ ks).
  { intros k. rewrite Hin. apply list_elem_of_fmap_inj. apply _. }
  rewrite Forall_forall in Hks. split_and!; [|done..]. split; try done; try apply Hs.
  - intros d Hd. eapply decl_cache_same; [done|by apply Hs].
  - intros d k Hd Hk%Hink. apply (stored_same sc sc'); [done..|]. by apply (ks_stored _ _ Hs), Hks.
  - intros d k Hd Hk. apply Hink in Hk as Hkk.
    destruct (Hfill (sd_ID d)) as (c & c' & Hc & Hc' & _ & Hu & Hlook); [apply keyed_ids; eauto|].
    destruct (Hlook (kslot k) (Σ !!! (k, sd_ID d)) Hk) as (s & Hcs' & Hf).
    { eapply decl_storable; [by apply Hs|done|by apply (ks_fits _ _ Hs)]. }
    { by apply (ks_stored _ _ Hs), Hks. }
    exists s. split; [eapply get_state_Ok; try done; [apply Hbi|by eapply slots_for]|].
    pose proof (fetched_tracks _ _ _ Hf) as Htr. destruct Hf as (Hl & Hkind & Hb & _).
    destruct (ks_cache _ _ Hs d Hd) as (c2 & Hc2 & Hk2 & _). assert (c2 = c) as -> by congruence.
    rewrite Hk2 in Hkind.
    rewrite bool_decide_false by set_solver. unfold cached_state, IsDeleted. by rewrite Hb.
Qed.

(** The user's function sees the tuples of its states. *)
Lemma get_states_Ok Σ0 Σ C sc k :
  keyed_working Σ0 Σ C sc → kslot k ∈ slots sc →
  ∃ ss, get_states decls sc k = Ok ss ∧ st_Get <$> ss = views decls Σ k.
Proof.
  intros Hw Hk.
  assert (Hall : Forall (λ d, ∃ s, (s ← GetSimpleState sc (sd_ID d) k; assert_state d s) = Ok s ∧
    st_Get s = Σ !!! (k, sd_ID d)) decls).
  { apply Forall_forall. intros d Hd. destruct (kw_states _ _ _ _ Hw d k Hd Hk) as (s & Hs & Hkind & Htr & _ & Hl).
    exists s. change (GetSimpleState sc (sd_ID d) k) with (get_state sc (sd_ID d) (kslot k)).
    rewrite Hs, bind_Ok, assert_state_Ok by done. split; [done|]. by rewrite (st_Get_tracks _ _ Htr), Hl. }
  apply Forall_choice in Hall as [ss Hss]. exists ss. split.
  - unfold get_states. apply mapR_Ok. eapply Forall2_impl; [exact Hss|]. by intros d s [].
  - unfold views. clear -Hss. induction Hss as [|d s ds ss [_ Hs] _ IH]; [done|]. rewrite !fmap_cons. by f_equal.
Qed.

(** One call. *)
Lemma call_working Σ0 Σ C sc k x d :
  keyed_working Σ0 Σ C sc → NoDup ids → kslot k ∈ slots sc → decls !! x.1 = Some d → op_fits d x.2 →
  ∃ sc', run_call decls k sc x = Ok sc' ∧
    keyed_working Σ0 (spec_call decls k (Σ, C) x).1 (spec_call decls k (Σ, C) x).2 sc' ∧ slots sc' = slots sc ∧
    same_conf sc sc' ∧ stateService sc' = stateService sc.
Proof.
  intros Hw Hndi Hk Hdi Hfit. destruct x as [i op]. unfold spec_call, run_call. cbn [fst snd] in *. rewrite Hdi.
  apply list_elem_of_lookup_2 in Hdi as Hd. replace (idx decls i) with (Ok d) by (symmetry; by apply idx_Ok).
  rewrite bind_Ok. cbn [fst snd].
  pose proof (kw_inv _ _ _ _ Hw) as Hbi.
  destruct (kw_states _ _ _ _ Hw d k Hd Hk) as (s & Hs & Hkind & Htr & Hdel & Htup).
  destruct (apply_op_fits d s op Hkind Hfit) as (s' & Happ & Hkind' & Htup' & Hdel').
  destruct (kw_cache _ _ _ _ Hw d Hd) as (c & Hc & Hck & Hct).
  assert (Hok : ∃ sc', user_op sc (sd_ID d, kslot k, op) = Ok sc').
  { unfold user_op. rewrite Hs, bind_Ok, Happ, bind_Ok, Hc. by eexists. }
  destruct Hok as [sc' Hrun]. exists sc'. split; [done|].
  destruct (user_op_inv sc ids (sd_ID d) (kslot k) op sc' Hbi) as
    (Hbi' & Hsl' & Hconf & Hcs & Hsv & t & t' & Ht & Happ2 & Hget & Hother); [apply keyed_ids; eauto|done| |done|].
  { intros c' l0 Hc' _ _. assert (c' = c) as -> by congruence. rewrite Hct. by apply op_fits_ok. }
  assert (t = s) as -> by congruence. assert (t' = s') as -> by congruence. split_and!; try done.
  assert (Hss : same_values (stateService sc) (stateService sc')) by (intros j; by rewrite Hsv).
  assert (Htr' : tracks (Σ0 !!! (k, sd_ID d)) s').
  { eapply (apply_op_tracks (sd_type d)); [done| |by apply op_fits_ok|done]. rewrite Htup. by apply (kw_fits _ _ _ _ Hw). }
  assert (Hdist : ∀ d' k', d' ∈ decls → (k', sd_ID d') ≠ (k, sd_ID d) → (sd_ID d', kslot k') ≠ (sd_ID d, kslot k)).
  { intros d' k' _ Hne [= H1' H2']. by apply Hne; rewrite H1', H2'. }
  split; try done.
  - intros d' Hd'. eapply decl_cache_same; [done|by apply Hw].
  - rewrite Hsl'. intros d' k' Hd' Hk'. apply (stored_same sc sc'); [done..|]. by apply (kw_base _ _ _ _ Hw).
  - apply Hw.
  - intros d' k' Hd'. destruct (decide ((k', sd_ID d') = (k, sd_ID d))) as [Heq|Hne].
    + rewrite Heq, lookup_total_insert_eq. assert (d' = d) as -> by (apply keyed_decl; congruence).
      apply op_fits_decl; [|done]. by apply (kw_fits _ _ _ _ Hw).
    + rewrite lookup_total_insert_ne by congruence. by apply (kw_fits _ _ _ _ Hw).
  - rewrite Hsl'. intros d' k' Hd' Hk'. destruct (decide ((k', sd_ID d') = (k, sd_ID d))) as [Heq|Hne].
    + assert (d' = d) as -> by (apply keyed_decl; congruence).
      injection Heq as ->. exists s'. split; [done|]. rewrite lookup_total_insert_eq. split_and!; [done..| |by rewrite Htup', Htup].
      rewrite Hdel', Hdel. destruct op; try done. by rewrite bool_decide_true by set_solver.
    + rewrite lookup_total_insert_ne by congruence.
      destruct (kw_states _ _ _ _ Hw d' k' Hd' Hk') as (s2 & Hs2 & Hk2 & Htr2 & Hd2 & Hl2). exists s2.
      split; [by rewrite Hother by (done || (apply keyed_ids; eauto) || by apply Hdist)|]. split_and!; [done..| |done].
      rewrite Hd2. apply bool_decide_ext. destruct op; set_solver.
  - rewrite Hsl'. intros k' id' Hin. destruct op; try by eapply kw_cleared.
    apply elem_of_union in Hin as [[= -> ->]%elem_of_singleton|Hin]; [done|by eapply kw_cleared].
  - rewrite Hsl'. intros d' k' Hd' Hk'. rewrite lookup_total_insert_ne by congruence. by apply (kw_rest _ _ _ _ Hw).
Qed.

Lemma calls_working Σ0 k cs : ∀ Σ C sc,
  keyed_working Σ0 Σ C sc → NoDup ids → kslot k ∈ slots sc →
  Forall (λ x, ∃ d, decls !! x.1 = Some d ∧ op_fits d x.2) cs →
  ∃ sc', foldM (run_call decls k) sc cs = Ok sc' ∧
    keyed_working Σ0 (foldl (spec_call decls k) (Σ, C) cs).1 (foldl (spec_call decls k) (Σ, C) cs).2 sc' ∧ slots sc' = slots sc ∧
    same_conf sc sc' ∧ stateService sc' = stateService sc.
Proof.
  induction cs as [|x cs IH]; intros Σ C sc Hw Hnd Hk Hfit; cbn [foldM foldl].
  { exists sc. by split_and!. }
  apply Forall_cons in Hfit as [(d & Hd & Hop) Hfit].
  destruct (call_working Σ0 Σ C sc k x d) as (sc1 & -> & Hw1 & Hsl1 & Hconf1 & Hsv1); try done.
  destruct (spec_call decls k (Σ, C) x) as [Σ1 C1].
  destruct (IH Σ1 C1 sc1) as (sc2 & Hrun & Hw2 & Hsl2 & Hconf2 & Hsv2); try done; [by rewrite Hsl1|].
  exists sc2. rewrite bind_Ok. split_and!; [done..|congruence|by eapply same_conf_trans|congruence].
Qed.

(** The flush stores the states of the batch. *)
Lemma flush_keyed sc0 sc Σ0 Σ C :
  keyed_store sc0 Σ0 → keyed_working Σ0 Σ C sc → same_conf sc0 sc →
  same_values (stateService sc0) (stateService sc) →
  ∃ sc' cnt, FlushSimpleState sc = Ok (sc', cnt) ∧ keyed_store sc' (filter (λ x, x.1 ∉ C) Σ) ∧ same_conf sc sc'.
Proof.
  intros Hs Hw Hconf Hsv. pose proof (kw_inv _ _ _ _ Hw) as Hbi.
  destruct (flush_stored sc ids Hbi) as (s' & cnt & Hfl & Hok & Hst & Hin & Hout).
  assert (Hty : stateClientType sc = SimpleStateClient) by (destruct Hconf as (_ & -> & _); apply Hs).
  unfold flush in Hfl. rewrite Hty in Hfl. exists (set_service sc s'), cnt. split; [done|]. split; [|done].
  assert (Hlook : ∀ p, filter (λ x, x.1 ∉ C) Σ !!! p = if decide (p ∈ C) then [] else Σ !!! p).
  { intros p. rewrite !lookup_total_alt, map_lookup_filter. case_decide; by destruct (Σ !! p); simplify_option_eq. }
  split; try done; try apply Hs; try apply Hw.
  2:{ intros d k Hd. rewrite Hlook. case_decide; [by split; [constructor|simpl; lia]|by apply (kw_fits _ _ _ _ Hw)]. }
  intros d k Hd Hk. change (slot_for sc (kslot k)) in Hk. rewrite Hlook. destruct (decide (kslot k ∈ slots sc)) as [Hsl|Hsl].
  - destruct (kw_states _ _ _ _ Hw d k Hd Hsl) as (s & Hget & _ & [Htr _] & Hdel & Htup).
    assert (Hid : sd_ID d ∈ ids) by (apply keyed_ids; eauto). specialize (Hin (sd_ID d) (kslot k) s Hid Hsl Hget).
    rewrite Hdel in Hin. case_decide as HC; [by rewrite bool_decide_true, andb_false_r in Hin|].
    rewrite bool_decide_false, andb_true_r in Hin by done. destruct (HasValue s); [by rewrite <-Htup|].
    destruct Htr as [Hnil _]. by rewrite <-Htup, Hnil.
  - rewrite decide_False by (intros HC; by apply Hsl; eapply kw_cleared). rewrite (kw_rest _ _ _ _ Hw) by done.
    pose proof (ks_stored _ _ Hs d k Hd) as Hold.
    rewrite <-(same_conf_slot _ _ _ Hconf) in Hold. specialize (Hold Hk). unfold stored in *. simpl.
    change (slot_bytes (set_service sc s')) with (slot_bytes sc). rewrite Hout, Hsv.
    + by rewrite (same_conf_bytes sc0 sc).
    + intros id sl Hid Hsl' Heq. apply (slot_bytes_inj sc) in Heq as [_ <-]; [done| | |done|by eapply slots_for].
      * apply (ids_u16 sc _ Hbi). apply keyed_ids. eauto.
      * by apply (ids_u16 sc _ Hbi).
Qed.

Section Udf.
Context {X T E : Type} (key : X → field) (udf : X → list (list Tuple) → calls * E) (act : T → X → E → T).

(** The user's function, given tuples its states can hold, makes calls that
    keep them so. *)
Definition udf_ok (x : X) : Prop := ∀ vs, Forall2 decl_fits decls vs →
  Forall (λ y, ∃ d, decls !! y.1 = Some d ∧ op_fits d y.2) (udf x vs).1.

Lemma visit_Ok Σ0 Σ C sc t x st :
  keyed_working Σ0 Σ C sc → NoDup ids → kslot (key x) ∈ slots sc → udf_ok x →
  spec_visit decls key udf act (Σ, C, t) x = st →
  ∃ sc', visit decls key udf act (sc, t) x = Ok (sc', st.2) ∧ keyed_working Σ0 st.1.1 st.1.2 sc' ∧
    slots sc' = slots sc ∧ same_conf sc sc' ∧ stateService sc' = stateService sc.
Proof.
  intros Hw Hnd Hk Hudf <-. unfold spec_visit, visit. cbn [fst snd].
  destruct (get_states_Ok Σ0 Σ C sc (key x) Hw Hk) as (ss & -> & Hss).
  rewrite bind_Ok, Hss. specialize (Hudf (views decls Σ (key x))).
  destruct (udf x _) as [cs e].
  destruct (calls_working Σ0 (key x) cs Σ C sc) as (sc' & -> & Hrest); try done; [|by exists sc'].
  apply Hudf, Forall2_fmap_r, Forall_Forall2_diag, Forall_forall. intros d' Hd'. by apply (kw_fits _ _ _ _ Hw).
Qed.

Lemma visits_Ok Σ0 xs : ∀ Σ C sc t st,
  keyed_working Σ0 Σ C sc → NoDup ids → Forall (λ x, kslot (key x) ∈ slots sc ∧ udf_ok x) xs →
  foldl (spec_visit decls key udf act) (Σ, C, t) xs = st →
  ∃ sc', foldM (visit decls key udf act) (sc, t) xs = Ok (sc', st.2) ∧ keyed_working Σ0 st.1.1 st.1.2 sc' ∧
    slots sc' = slots sc ∧ same_conf sc sc' ∧ stateService sc' = stateService sc.
Proof.
  induction xs as [|x xs IH]; intros Σ C sc t st Hw Hnd Hxs; cbn [foldM foldl].
  { intros <-. exists sc. by split_and!. }
  apply Forall_cons in Hxs as [[Hk Hudf] Hxs]. destruct (spec_visit _ _ _ _ _ x) as [[Σ1 C1] t1] eqn:Hv. intros Hrest.
  destruct (visit_Ok Σ0 Σ C sc t x _ Hw Hnd Hk Hudf Hv) as (sc1 & -> & Hw1 & Hsl1 & Hconf1 & Hsv1).
  destruct (IH Σ1 C1 sc1 t1 st Hw1 Hnd ltac:(by rewrite Hsl1) Hrest) as (sc2 & Hrun & Hw2 & Hsl2 & Hconf2 & Hsv2).
  exists sc2. rewrite bind_Ok. split_and!; [done..|congruence|by eapply same_conf_trans|congruence].
Qed.

(** What a batch does, whatever keys it repeats. *)
Lemma process_Ok sc Σ t xs :
  keyed_store sc Σ → xs ≠ [] → Forall (λ x, slot_for sc (kslot (key x)) ∧ udf_ok x) xs →
  let st := spec_batch decls key udf act (Σ, t) xs in
  ∃ sc', process decls key udf act sc t xs = Ok (sc', st.2) ∧ keyed_store sc' st.1 ∧ same_conf sc sc'.
Proof.
  intros Hs Hne Hxs. unfold spec_batch, process. cbn [fst snd].
  destruct (fetch_keyed sc Σ (key <$> xs)) as (sc1 & n & -> & Hw1 & Hconf1 & Hin & Hsv1); [done|by destruct xs| |].
  { apply Forall_fmap. eapply Forall_impl; [exact Hxs|]. by intros x []. }
  rewrite bind_Ok. destruct (ks_ids _ _ Hs) as [_ Hnd].
  destruct (visits_Ok Σ xs Σ ∅ sc1 t (foldl (spec_visit decls key udf act) (Σ, ∅, t) xs) Hw1 Hnd) as (sc2 & Hrun & Hw2 & Hsl2 & Hconf2 & Hsv2).
  { apply Forall_forall. intros x Hx. rewrite Forall_forall in Hxs. split; [|by apply Hxs]. by apply Hin, list_elem_of_fmap_2. }
  { done. }
  rewrite Hrun, bind_Ok. pose proof (same_conf_trans _ _ _ Hconf1 Hconf2) as Hconf.
  destruct (flush_keyed sc sc2 Σ _ _ Hs Hw2 Hconf) as (sc3 & cnt & Hfl & Hs3 & Hconf3).
  { intros k. by rewrite Hsv2. }
  rewrite Hfl, bind_Ok. exists sc3. split_and!; [done..|]. by eapply same_conf_trans.
Qed.

(** ** Functions that never clear a state

    Then it does not matter how the inputs are cut into batches. *)

Definition no_clear (x : X) : Prop := ∀ vs, Forall (λ y, y.2 ≠ OClear) (udf x vs).1.

(** One input, without batches. *)
Definition apply_call (k : field) (Σ : gmap (field * Z) (list Tuple)) (y : nat * state_op) : gmap (field * Z) (list Tuple) :=
  match decls !! y.1 with
  | None => Σ
  | Some d => <[(k, sd_ID d) := spec_op (Σ !!! (k, sd_ID d)) y.2]> Σ
  end.

Definition apply_input (st : gmap (field * Z) (list Tuple) * T) (x : X) : gmap (field * Z) (list Tuple) * T :=
  let '(cs, e) := udf x (views decls st.1 (key x)) in
  (foldl (apply_call (key x)) st.1 cs, act st.2 x e).

Lemma calls_no_clear k cs : ∀ Σ, Forall (λ y : nat * state_op, y.2 ≠ OClear) cs →
  foldl (spec_call decls k) (Σ, ∅) cs = (foldl (apply_call k) Σ cs, ∅).
Proof.
  induction cs as [|y cs IH]; intros Σ; [done|]. intros [Hy Hcs]%Forall_cons. cbn [foldl]. rewrite <-IH by done. f_equal.
  unfold spec_call, apply_call. destruct (decls !! y.1) as [d|]; [|done]. by destruct y as [i []].
Qed.

Lemma spec_batch_no_clear st xs : Forall no_clear xs → spec_batch decls key udf act st xs = foldl apply_input st xs.
Proof.
  intros Hxs. destruct st as [Σ t]. unfold spec_batch. cbn [fst snd].
  assert (Hfold : foldl (spec_visit decls key udf act) (Σ, ∅, t) xs =
    ((foldl apply_input (Σ, t) xs).1, ∅, (foldl apply_input (Σ, t) xs).2)).
  { revert Σ t. induction Hxs as [|x xs Hx _ IH]; intros Σ t; [done|]. cbn [foldl].
    unfold spec_visit at 2. unfold apply_input at 2 4. cbn [fst snd]. specialize (Hx (views decls Σ (key x))).
    destruct (udf x _) as [cs e]. by rewrite calls_no_clear, IH. }
  rewrite Hfold. cbn [fst snd]. rewrite map_filter_id by set_solver. symmetry. apply surjective_pairing.
Qed.
End Udf.

(** A client that was just set up over a service without values. *)
Lemma setup_keyed kind opID (s : S) h numBuckets backend :
  decls ≠ [] → (∀ i d, decls !! i = Some d → sd_ID d = Z.of_nat i) → (Z.of_nat (length decls) ≤ 2 ^ 16)%Z →
  SupportedKind kind = true → Forall (λ d, Forall (λ k, SupportedKind k = true) (sd_type d)) decls →
  is_u16 opID → (0 < numBuckets ≤ 2 ^ 32)%Z → hash_ok h → serves s opID numBuckets → (∀ k, value_of s k = []) →
  ∃ sc, Setup (declare SimpleStateClient kind ((λ d, (sd_kind d, sd_type d)) <$> decls)) opID s h numBuckets backend = Ok sc ∧
    keyed_store sc ∅ ∧ keyKind sc = kind ∧ stateService sc = s ∧ operatorID sc = opID.
Proof.
  intros Hne Hid Hlen Hkind Hsup Hop Hnb Hh Hserves Hempty.
  destruct (Setup_Ok SimpleStateClient kind ((λ d, (sd_kind d, sd_type d)) <$> decls) opID s h numBuckets backend) as
    (sc & Hset & Hok & Hs & Hopid & Ht & Hk & _ & Hcaches); try done.
  { by destruct decls. } { by rewrite length_fmap. } { by apply Forall_fmap. }
  exists sc. split; [done|]. split_and!; try done.
  assert (Hst : ∀ id sl, stored sc id sl []) by (intros id sl; unfold stored; by rewrite Hs, Hempty).
  split; try done.
  - split; [|intros id c sl _ _; exists []; split; [split; [constructor|simpl; lia]|done]].
    unfold serving. rewrite Hs, Hopid. enough (sc_numBuckets sc = numBuckets) as -> by done.
    unfold Setup in Hset. inv_res. by subst.
  - split; [done|]. apply NoDup_alt. intros i j id.
    rewrite !list_lookup_fmap. intros (d & Hi & Hd)%fmap_Some (d' & Hj & Hd')%fmap_Some.
    rewrite (Hid i d Hi) in Hd. rewrite (Hid j d' Hj) in Hd'. lia.
  - intros d [i Hi]%list_elem_of_lookup_1. destruct (Hcaches i (sd_kind d, sd_type d)) as (c & Hc & Hck & Hct & _).
    { by rewrite list_lookup_fmap, Hi. }
    exists c. by rewrite (Hid i d Hi).
  - intros d k _. change (decl_fits d []). split; [constructor|simpl; lia].
Qed.
End Store.
