(* ===== verification/Operators.v ===== *)
(** * Operators without windows

    The stateless operators ([api/dataflow/map.go], [flatmap.go], [filter.go])
    and the keyed ones ([statefulMap.go], [statefulMap2State.go],
    [statefulFlatmap.go], [join.go]), whose batches are cycles of [Keyed.v].
    A user function is given as the tuples it sees in its states, and answers
    with the calls it makes on them and the records it emits. *)

From stdpp Require Import prelude gmap strings list.
From Stdlib Require Import ZArith Lia.
From S2P Require Import Prelude Partition Codec WorkUnit StateType StateCache Backend StateService StateClient StateBatch.
From S2P Require Import Window WindowStore Tuples Keyed.

(** The output records of an input record get its time. *)
Definition emit_all (c : Collector) (ts : Z) (outs : list Tuple) : Collector := foldl Emit (SetCurrentTimestamp c ts) outs.

(** ** Stateless operators *)

Record Mapper := NewMapper { mapper_F : Tuple → Tuple; mapper_Collector : Collector }.

Definition mapper_ProcessBatch (mapper : Mapper) (workUnit : WorkUnit) : res Mapper :=
  records ← as_batch workUnit;
  Ok (NewMapper (mapper_F mapper)
        (foldl (λ c record, let output := mapper_F mapper record in
                            Emit (SetCurrentTimestamp c (timestamp record)) output) (mapper_Collector mapper) records)).

Record Flatmap := NewFlatmap { flatmap_F : Tuple → list Tuple; flatmap_Collector : Collector }.

Definition flatmap_ProcessBatch (flatmap : Flatmap) (workUnit : WorkUnit) : res Flatmap :=
  records ← as_batch workUnit;
  Ok (NewFlatmap (flatmap_F flatmap)
        (foldl (λ c record, emit_all c (timestamp record) (flatmap_F flatmap record)) (flatmap_Collector flatmap) records)).

(** A filter is a flat map that emits a copy of a record or nothing. *)
Definition NewFilter (f : Tuple → bool) (c : Collector) : Flatmap :=
  NewFlatmap (λ record, if f record then [Copy record] else []) c.

(** ** One state *)

Abbreviation state_failed := "Fetched state failed for type assertion" (only parsing).

(** The first view of a function of one state. *)
Definition only (views : list (list Tuple)) : list Tuple := default [] (views !! 0).

Record StatefulMapper (S : Type) := MkStatefulMapper {
  sm_StateClient : StateClient S;
  sm_KeyAssigner : Tuple → field;
  sm_State : StateDecl;
  sm_F : Tuple → list Tuple → list state_op * Tuple;
  sm_Collector : Collector
}.
Arguments MkStatefulMapper {S}.
Arguments sm_StateClient {S}.
Arguments sm_KeyAssigner {S}.
Arguments sm_State {S}.
Arguments sm_F {S}.
Arguments sm_Collector {S}.

Record StatefulFlatmap (S : Type) := MkStatefulFlatmap {
  sfm_StateClient : StateClient S;
  sfm_KeyAssigner : Tuple → field;
  sfm_State : StateDecl;
  sfm_F : Tuple → list Tuple → list state_op * list Tuple;
  sfm_Collector : Collector
}.
Arguments MkStatefulFlatmap {S}.
Arguments sfm_StateClient {S}.
Arguments sfm_KeyAssigner {S}.
Arguments sfm_State {S}.
Arguments sfm_F {S}.
Arguments sfm_Collector {S}.

(** ** Two states *)

Definition first (views : list (list Tuple)) : list Tuple := default [] (views !! 0).
Definition second (views : list (list Tuple)) : list Tuple := default [] (views !! 1).

Record StatefulMapper2 (S : Type) := MkStatefulMapper2 {
  sm2_StateClient : StateClient S;
  sm2_KeyAssigner : Tuple → field;
  sm2_State1 : StateDecl;
  sm2_State2 : StateDecl;
  sm2_F : Tuple → list Tuple → list Tuple → list (nat * state_op) * Tuple;
  sm2_Collector : Collector
}.
Arguments MkStatefulMapper2 {S}.
Arguments sm2_StateClient {S}.
Arguments sm2_KeyAssigner {S}.
Arguments sm2_State1 {S}.
Arguments sm2_State2 {S}.
Arguments sm2_F {S}.
Arguments sm2_Collector {S}.

(** The user's functions of a join are given a record of their stream and both
    states. *)
Record Join (S : Type) := MkJoin {
  j_StateClient : StateClient S;
  j_UpstreamName1 : string;
  j_KeyAssigner1 : Tuple → field;
  j_UpstreamName2 : string;
  j_KeyAssigner2 : Tuple → field;
  j_State1 : StateDecl;
  j_State2 : StateDecl;
  j_F1 : Tuple → list Tuple → list Tuple → list (nat * state_op) * list Tuple;
  j_F2 : Tuple → list Tuple → list Tuple → list (nat * state_op) * list Tuple;
  j_Collector : Collector
}.
Arguments MkJoin {S}.
Arguments j_StateClient {S}.
Arguments j_UpstreamName1 {S}.
Arguments j_KeyAssigner1 {S}.
Arguments j_UpstreamName2 {S}.
Arguments j_KeyAssigner2 {S}.
Arguments j_State1 {S}.
Arguments j_State2 {S}.
Arguments j_F1 {S}.
Arguments j_F2 {S}.
Arguments j_Collector {S}.

(** The work unit of a join. *)
Definition join_batch (w : WorkUnit) : res (list Tuple) :=
  match w with
  | BatchUnit records => Ok records
  | _ => Crash (Fatal "Failed to convert workUnit to Batch[IN]")
  end.

(** Collecting what a record causes. *)
Definition collect (c : Collector) (record : Tuple) (outs : list Tuple) : Collector := emit_all c (timestamp record) outs.

(** The user's functions as functions of a list of states. *)
Definition one_state {O} (F : Tuple → list Tuple → list state_op * O) (record : Tuple) (views : list (list Tuple))
    : list (nat * state_op) * O :=
  let '(ops, o) := F record (only views) in (pair 0 <$> ops, o).

Definition two_states {O} (F : Tuple → list Tuple → list Tuple → list (nat * state_op) * O) (record : Tuple)
    (views : list (list Tuple)) : list (nat * state_op) * O :=
  F record (first views) (second views).

Definition emit_one (c : Collector) (record out : Tuple) : Collector := collect c record [out].

Section Keyed.
Context `{Mus} `{GoRange} {S : Type} `{StateServiceOps S}.

Definition sm_ProcessBatch (sm : StatefulMapper S) (workUnit : WorkUnit) : res (StatefulMapper S) :=
  records ← as_batch workUnit;
  '(sc, c) ← process [sm_State sm] (sm_KeyAssigner sm) (one_state (sm_F sm)) emit_one (sm_StateClient sm) (sm_Collector sm) records;
  Ok (MkStatefulMapper sc (sm_KeyAssigner sm) (sm_State sm) (sm_F sm) c).

Definition sfm_ProcessBatch (sfm : StatefulFlatmap S) (workUnit : WorkUnit) : res (StatefulFlatmap S) :=
  records ← as_batch workUnit;
  '(sc, c) ← process [sfm_State sfm] (sfm_KeyAssigner sfm) (one_state (sfm_F sfm)) collect (sfm_StateClient sfm) (sfm_Collector sfm) records;
  Ok (MkStatefulFlatmap sc (sfm_KeyAssigner sfm) (sfm_State sfm) (sfm_F sfm) c).

Definition sm2_ProcessBatch (sm : StatefulMapper2 S) (workUnit : WorkUnit) : res (StatefulMapper2 S) :=
  records ← as_batch workUnit;
  '(sc, c) ← process [sm2_State1 sm; sm2_State2 sm] (sm2_KeyAssigner sm) (two_states (sm2_F sm)) emit_one
               (sm2_StateClient sm) (sm2_Collector sm) records;
  Ok (MkStatefulMapper2 sc (sm2_KeyAssigner sm) (sm2_State1 sm) (sm2_State2 sm) (sm2_F sm) c).

Definition processBatchJoin (workUnit : WorkUnit) (keyAssigner : Tuple → field) (sc : StateClient S) (state1 state2 : StateDecl)
    (f : Tuple → list Tuple → list Tuple → list (nat * state_op) * list Tuple) (c : Collector) : res (StateClient S * Collector) :=
  records ← join_batch workUnit;
  process [state1; state2] keyAssigner (two_states f) collect sc c records.

Definition with_client (j : Join S) (sc : StateClient S) (c : Collector) : Join S :=
  MkJoin sc (j_UpstreamName1 j) (j_KeyAssigner1 j) (j_UpstreamName2 j) (j_KeyAssigner2 j) (j_State1 j) (j_State2 j) (j_F1 j) (j_F2 j) c.

Definition join_ProcessBatch (j : Join S) (workUnit : WorkUnit) (subSupplierName : string) : res (Join S) :=
  let run keyAssigner f :=
    '(sc, c) ← processBatchJoin workUnit keyAssigner (j_StateClient j) (j_State1 j) (j_State2 j) f (j_Collector j);
    Ok (with_client j sc c) in
  if decide (subSupplierName = j_UpstreamName1 j) then run (j_KeyAssigner1 j) (j_F1 j)
  else if decide (subSupplierName = j_UpstreamName2 j) then run (j_KeyAssigner2 j) (j_F2 j)
  else Crash (Fatal "Join: workUnit comes from unexpected SubSupplier").

End Keyed.

(** ** Construction

    What the constructors register with the state client. *)

Definition declare_state (d : ClientDecl) (kind : state_kind) (type : list Kind) (msg : string) : ClientDecl * StateDecl :=
  let '(d, id) := RegisterState d kind type in (d, MkState id kind type msg).

Definition NewStatefulMapper (keyKind : Kind) (kind : state_kind) (type : list Kind) : ClientDecl * StateDecl :=
  declare_state (NewStateClient SimpleStateClient keyKind) kind type state_failed.

Definition NewStatefulFlatmap (keyKind : Kind) (kind : state_kind) (type : list Kind) : ClientDecl * StateDecl :=
  declare_state (NewStateClient SimpleStateClient keyKind) kind type state_failed.

Definition declare_two (keyKind : Kind) (V1 V2 : state_kind * list Kind) : ClientDecl * StateDecl * StateDecl :=
  let '(d, state1) := declare_state (NewStateClient SimpleStateClient keyKind) V1.1 V1.2 "Fetched state1 failed for type assertion" in
  let '(d, state2) := declare_state d V2.1 V2.2 "Fetched state2 failed for type assertion" in
  (d, state1, state2).

Definition NewStatefulMapper2 := declare_two.
Definition NewJoin := declare_two.

(** ** Batches of a stateful map *)

Section MapperFacts.
Context `{MusLaws} `{GoRange} {S : Type} `{ServiceLaws S}.
Implicit Types sm : StatefulMapper S.
Implicit Types Σ : gmap (field * Z) (list Tuple).

Abbreviation sm_store sm Σ := (keyed_store [sm_State sm] (sm_StateClient sm) Σ).

(** A record the operator can be given: its key is of the client's kind, and
    the user's function makes calls that fit the state. *)
Definition sm_input sm (r : Tuple) : Prop :=
  slot_for (sm_StateClient sm) (kslot (sm_KeyAssigner sm r)) ∧
  ∀ l, decl_fits (sm_State sm) l → Forall (op_fits (sm_State sm)) (sm_F sm r l).1.

Lemma one_state_ok {O} (d : StateDecl) (F : Tuple → list Tuple → list state_op * O) r :
  (∀ l, decl_fits d l → Forall (op_fits d) (F r l).1) → udf_ok [d] (one_state F) r.
Proof.
  intros HF vs Hvs. unfold one_state. apply Forall2_cons_inv_l in Hvs as (l & ls & Hl & _ & ->). cbn.
  specialize (HF l Hl). destruct (F r l) as [ops o]. simpl in *. apply Forall_fmap.
  eapply Forall_impl; [exact HF|]. intros op Hop. by exists d.
Qed.

(** One batch. *)
Lemma sm_batch_Ok sm Σ records :
  sm_store sm Σ → records ≠ [] → Forall (sm_input sm) records →
  let st := spec_batch [sm_State sm] (sm_KeyAssigner sm) (one_state (sm_F sm)) emit_one (Σ, sm_Collector sm) records in
  ∃ sc, sm_ProcessBatch sm (BatchUnit records) =
      Ok (MkStatefulMapper sc (sm_KeyAssigner sm) (sm_State sm) (sm_F sm) st.2) ∧
    keyed_store [sm_State sm] sc st.1 ∧ same_conf (sm_StateClient sm) sc.
Proof.
  intros Hs Hne Hin st. unfold sm_ProcessBatch. cbn [as_batch]. rewrite bind_Ok.
  destruct (process_Ok [sm_State sm] (sm_KeyAssigner sm) (one_state (sm_F sm)) emit_one (sm_StateClient sm) Σ (sm_Collector sm) records)
    as (sc & -> & Hs' & Hconf); try done.
  - eapply Forall_impl; [exact Hin|]. intros r [Hk HF]. split; [done|]. by apply one_state_ok.
  - rewrite bind_Ok. by exists sc.
Qed.

(** The operator on one record, without batches: the tuples of the key and the
    record that is emitted. *)
Definition map_record sm (st : gmap (field * Z) (list Tuple) * list Tuple) (r : Tuple) : gmap (field * Z) (list Tuple) * list Tuple :=
  let p := (sm_KeyAssigner sm r, sd_ID (sm_State sm)) in
  let '(ops, out) := sm_F sm r (st.1 !!! p) in
  (foldl (λ Σ op, <[p := spec_op (Σ !!! p) op]> Σ) st.1 ops, st.2 ++ [SetTimestamp out (timestamp r)]).

Lemma apply_input_map sm Σ outs c r :
  let st := apply_input [sm_State sm] (sm_KeyAssigner sm) (one_state (sm_F sm)) emit_one (Σ, c) r in
  let st' := map_record sm (Σ, outs) r in
  st.1 = st'.1 ∧ ∃ out, st'.2 = outs ++ out ∧ emitted st.2 = emitted c ++ out.
Proof.
  unfold apply_input, map_record, one_state. cbn. destruct (sm_F sm r _) as [ops out]. cbn. split; [|by eexists].
  rewrite foldl_fmap. done.
Qed.

Lemma apply_inputs_map sm rs : ∀ Σ outs c,
  let st := foldl (apply_input [sm_State sm] (sm_KeyAssigner sm) (one_state (sm_F sm)) emit_one) (Σ, c) rs in
  let st' := foldl (map_record sm) (Σ, outs) rs in
  st.1 = st'.1 ∧ ∃ out, st'.2 = outs ++ out ∧ emitted st.2 = emitted c ++ out.
Proof.
  induction rs as [|r rs IH]; intros Σ outs c; cbn [foldl].
  { split; [done|]. exists []. by rewrite !app_nil_r. }
  destruct (apply_input_map sm Σ outs c r) as (H1' & out & H2' & H3').
  destruct (apply_input _ _ _ _ (Σ, c) r) as [Σ1 c1], (map_record sm (Σ, outs) r) as [Σ1' outs1]. simpl in *. subst.
  destruct (IH Σ1' (outs ++ out) c1) as (H4' & out' & H5' & H6'). split; [done|].
  exists (out ++ out'). by rewrite H5', H6', H3', <-!app_assoc.
Qed.

Lemma sm_batches_Ok batches : ∀ sm Σ,
  sm_store sm Σ → Forall (λ b, b ≠ []) batches → Forall (sm_input sm) (concat batches) →
  (∀ r l op, r ∈ concat batches → op ∈ (sm_F sm r l).1 → op ≠ OClear) →
  let st := foldl (apply_input [sm_State sm] (sm_KeyAssigner sm) (one_state (sm_F sm)) emit_one) (Σ, sm_Collector sm) (concat batches) in
  ∃ sc, foldM sm_ProcessBatch sm (BatchUnit <$> batches) =
      Ok (MkStatefulMapper sc (sm_KeyAssigner sm) (sm_State sm) (sm_F sm) st.2) ∧ keyed_store [sm_State sm] sc st.1.
Proof.
  induction batches as [|b batches IH]; intros sm Σ Hs Hne Hin Hnc; cbn [foldM fmap list_fmap concat].
  { exists (sm_StateClient sm). by destruct sm. }
  apply Forall_cons in Hne as [Hb Hne]. apply Forall_app in Hin as [Hinb Hin].
  destruct (sm_batch_Ok sm Σ b Hs Hb Hinb) as (sc & -> & Hs1 & Hconf). rewrite bind_Ok. rewrite spec_batch_no_clear in *.
  2,3: apply Forall_forall; intros r Hr vs; unfold one_state; specialize (Hnc r (only vs)); destruct (sm_F sm r _);
    apply Forall_fmap, Forall_forall; intros op Hop; apply Hnc; [apply elem_of_app; by left|done].
  rewrite foldl_app. destruct (foldl _ (Σ, sm_Collector sm) b) as [Σ1 c1].
  apply (IH (MkStatefulMapper sc (sm_KeyAssigner sm) (sm_State sm) (sm_F sm) c1) Σ1); try done.
  - eapply Forall_impl; [exact Hin|]. intros r [Hk HF]. split; [by apply (same_conf_slot _ _ _ Hconf)|done].
  - intros r l op Hr. apply Hnc. apply elem_of_app. by right.
Qed.

(** C17: a stateful map does not depend on how its input is cut into batches.
    When the user's function does not clear states, then for every way to cut a
    stream of records into non-empty batches the operator succeeds, has emitted
    exactly the records that the function gives on one record after the other,
    each reading the state its key was left in, in the order of the stream and
    with the times of the input records, and the state service holds for every
    key the tuples of that run. *)
Theorem stateful_map_batching sm Σ (batches : list (list Tuple))
    (Hstore : sm_store sm Σ) (Hne : Forall (λ b, b ≠ []) batches) (Hin : Forall (sm_input sm) (concat batches))
    (Hclear : ∀ r l op, r ∈ concat batches → op ∈ (sm_F sm r l).1 → op ≠ OClear) :
  let st := foldl (map_record sm) (Σ, []) (concat batches) in
  ∃ sm', foldM sm_ProcessBatch sm (BatchUnit <$> batches) = Ok sm' ∧
    emitted (sm_Collector sm') = emitted (sm_Collector sm) ++ st.2 ∧ keyed_store [sm_State sm] (sm_StateClient sm') st.1.
Proof.
  destruct (sm_batches_Ok batches sm Σ Hstore Hne Hin Hclear) as (sc & Hrun & Hs).
  destruct (apply_inputs_map sm (concat batches) Σ [] (sm_Collector sm)) as (HΣ & out & Hout & Hem).
  destruct (foldl (map_record sm) (Σ, []) (concat batches)) as [Σ' outs]. simpl in *. subst outs.
  eexists. split; [done|]. simpl. split; [done|]. by rewrite <-HΣ.
Qed.

(** C38: a state that is cleared and set again within a batch is lost.  Let the
    user's function clear the state of a key on a record [r1], and set it to [v]
    on the next record [r2] of that key.  In two batches the second call sees an
    empty state and [v] is stored.  In one batch the second call still sees the
    old tuples, and when the batch is flushed the state is deleted: the key has
    no state afterwards although the last call set one. *)
Theorem cleared_then_set_lost sm Σ r1 r2 v o1 (o2 : list Tuple → Tuple)
    (Hstore : sm_store sm Σ) (Hin : Forall (sm_input sm) [r1; r2]) (Hkey : sm_KeyAssigner sm r2 = sm_KeyAssigner sm r1)
    (Hr1 : ∀ l, sm_F sm r1 l = ([OClear], o1)) (Hr2 : ∀ l, sm_F sm r2 l = ([OSet v], o2 l)) :
  let p := (sm_KeyAssigner sm r1, sd_ID (sm_State sm)) in
  let out2 l := SetTimestamp (o2 l) (timestamp r2) in
  (∃ sm' Σ', foldM sm_ProcessBatch sm [BatchUnit [r1]; BatchUnit [r2]] = Ok sm' ∧ keyed_store [sm_State sm] (sm_StateClient sm') Σ' ∧
     Σ' !!! p = [v] ∧ last (emitted (sm_Collector sm')) = Some (out2 [])) ∧
  (∃ sm' Σ', sm_ProcessBatch sm (BatchUnit [r1; r2]) = Ok sm' ∧ keyed_store [sm_State sm] (sm_StateClient sm') Σ' ∧
     Σ' !!! p = [] ∧ last (emitted (sm_Collector sm')) = Some (out2 (Σ !!! p))).
Proof.
  intros p out2. pose proof (proj1 (Forall_cons _ _ _) Hin) as [Hi1 Hi2]. split.
  - cbn [foldM]. destruct (sm_batch_Ok sm Σ [r1]) as (sc1 & -> & Hs1 & Hconf1); [done..|by constructor|]. rewrite bind_Ok.
    set (sm1 := MkStatefulMapper _ _ _ _ _).
    destruct (sm_batch_Ok sm1 _ [r2] Hs1) as (sc2 & -> & Hs2 & _); [done| |].
    { apply Forall_singleton in Hi2 as [Hk HF]. apply Forall_singleton. split; [|done]. by apply (same_conf_slot _ _ _ Hconf1). }
    rewrite bind_Ok. eexists _, _. split; [done|]. split; [exact Hs2|]. unfold sm1, spec_batch, spec_visit, one_state. cbn.
    rewrite Hr1. cbn. rewrite Hr2, Hkey. cbn. rewrite last_snoc. split.
    + rewrite lookup_total_alt, map_lookup_filter, lookup_insert_eq. simpl. by rewrite option_guard_True by set_solver.
    + do 3 f_equal. rewrite lookup_total_alt, map_lookup_filter_None_2; [done|]. right. set_solver.
  - destruct (sm_batch_Ok sm Σ [r1; r2]) as (sc1 & -> & Hs1 & _); [done..|].
    eexists _, _. split; [done|]. split; [exact Hs1|]. unfold spec_batch, spec_visit, one_state. cbn.
    rewrite Hr1. cbn. rewrite Hr2, Hkey. cbn. rewrite last_snoc. split.
    + rewrite lookup_total_alt, map_lookup_filter_None_2; [done|]. right. set_solver.
    + do 3 f_equal. by rewrite lookup_total_insert_eq.
Qed.
End MapperFacts.

(** ** The incremental join *)

Lemma emit_all_emitted c ts outs : emitted (emit_all c ts outs) = emitted c ++ ((λ t, SetTimestamp t ts) <$> outs).
Proof.
  unfold emit_all. change ts with (CurrentTimestamp (SetCurrentTimestamp c ts)) at 2. change (emitted c) with (emitted (SetCurrentTimestamp c ts)).
  generalize (SetCurrentTimestamp c ts). clear c. induction outs as [|o outs IH]; intros c; simpl; [by rewrite app_nil_r|].
  rewrite IH. simpl. by rewrite <-app_assoc.
Qed.

(** The user's functions of an equi-join: a record is added to the state of its
    stream and combined with what the state of the other stream holds. *)
Definition inc_F1 (combine : Tuple → Tuple → Tuple) (r : Tuple) (l1 l2 : list Tuple) : list (nat * state_op) * list Tuple :=
  ([(0, OAdd r)], (λ r2, combine r r2) <$> l2).
Definition inc_F2 (combine : Tuple → Tuple → Tuple) (r : Tuple) (l1 l2 : list Tuple) : list (nat * state_op) * list Tuple :=
  ([(1, OAdd r)], (λ r1, combine r1 r) <$> l1).

(** The pairs of two streams with equal keys. *)
Definition join_pairs (combine : Tuple → Tuple → Tuple) (key1 key2 : Tuple → field) (s1 s2 : list Tuple) : list Tuple :=
  s1 ≫= λ r1, (λ r2, combine r1 r2) <$> filter (λ r2, key2 r2 = key1 r1) s2.

Section Pairs.
Context (combine : Tuple → Tuple → Tuple) (key1 key2 : Tuple → field).

Lemma join_pairs_snoc1 s1 s2 r : join_pairs combine key1 key2 (s1 ++ [r]) s2 =
  join_pairs combine key1 key2 s1 s2 ++ ((λ r2, combine r r2) <$> filter (λ r2, key2 r2 = key1 r) s2).
Proof. unfold join_pairs. rewrite bind_app, bind_cons. simpl. by rewrite app_nil_r. Qed.

Lemma join_pairs_snoc2 s1 s2 r : join_pairs combine key1 key2 s1 (s2 ++ [r]) ≡ₚ
  join_pairs combine key1 key2 s1 s2 ++ ((λ r1, combine r1 r) <$> filter (λ r1, key1 r1 = key2 r) s1).
Proof.
  unfold join_pairs. induction s1 as [|r1 s1 IH]; [done|]. rewrite !bind_cons, IH, filter_app, fmap_app, filter_cons.
  rewrite <-!app_assoc. f_equiv. rewrite filter_cons, filter_nil. repeat case_decide; try congruence; [|done].
  rewrite fmap_cons. simpl. by rewrite Permutation_middle.
Qed.
End Pairs.

#[local] Arguments collect : simpl never.

Section JoinFacts.
Context `{MusLaws} `{GoRange} {S : Type} `{ServiceLaws S}.
Context (combine : Tuple → Tuple → Tuple).
Implicit Types j : Join S.

Abbreviation j_decls j := [j_State1 j; j_State2 j].

(** A batch of the first ([true]) or second upstream. *)
Abbreviation j_event := (bool * list Tuple)%type (only parsing).

Definition j_step j (ev : j_event) : res (Join S) :=
  join_ProcessBatch j (BatchUnit ev.2) (if ev.1 then j_UpstreamName1 j else j_UpstreamName2 j).

(** The records of one stream. *)
Definition j_stream (b : bool) (evs : list j_event) : list Tuple := evs ≫= λ ev, if Bool.eqb ev.1 b then ev.2 else [].

(** Both states are lists that can hold the records of their stream. *)
Record inc_join j : Prop := {
  ij_F1 : j_F1 j = inc_F1 combine;
  ij_F2 : j_F2 j = inc_F2 combine;
  ij_kind1 : sd_kind (j_State1 j) = SList;
  ij_kind2 : sd_kind (j_State2 j) = SList;
  ij_names : j_UpstreamName1 j ≠ j_UpstreamName2 j
}.

Definition j_key j (b : bool) : Tuple → field := if b then j_KeyAssigner1 j else j_KeyAssigner2 j.
Definition j_F j (b : bool) := if b then j_F1 j else j_F2 j.

Definition j_input j (ev : j_event) : Prop :=
  ev.2 ≠ [] ∧ Forall (λ r, slot_for (j_StateClient j) (kslot (j_key j ev.1 r)) ∧
    well_typed (sd_type (if ev.1 then j_State1 j else j_State2 j)) r) ev.2.

(** What the join has seen and emitted. *)
Record joined j (c0 : list Tuple) (s1 s2 : list Tuple) (st : gmap (field * Z) (list Tuple) * Collector) : Prop := {
  jd_1 : ∀ k, st.1 !!! (k, sd_ID (j_State1 j)) = filter (λ r, j_KeyAssigner1 j r = k) s1;
  jd_2 : ∀ k, st.1 !!! (k, sd_ID (j_State2 j)) = filter (λ r, j_KeyAssigner2 j r = k) s2;
  jd_out : fields <$> emitted st.2 ≡ₚ
    (fields <$> c0) ++ (fields <$> join_pairs combine (j_KeyAssigner1 j) (j_KeyAssigner2 j) s1 s2)
}.

Lemma filter_snoc_key (key : Tuple → field) (k : field) s r :
  filter (λ x, key x = k) (s ++ [r]) = filter (λ x, key x = k) s ++ (if decide (key r = k) then [r] else []).
Proof. rewrite filter_app, filter_cons, filter_nil. by case_decide. Qed.

Lemma fields_stamped ts (l : list Tuple) : fields <$> ((λ t, SetTimestamp t ts) <$> l) = (fields <$> l).
Proof. rewrite <-list_fmap_compose. done. Qed.

Lemma joined_record j c0 s1 s2 st (b : bool) r :
  inc_join j → sd_ID (j_State1 j) ≠ sd_ID (j_State2 j) → joined j c0 s1 s2 st →
  joined j c0 (if b then s1 ++ [r] else s1) (if b then s2 else s2 ++ [r])
    (apply_input (j_decls j) (j_key j b) (two_states (j_F j b)) collect st r).
Proof.
  intros Hj Hids [H1' H2' Hout]. destruct st as [Σ c]. unfold apply_input, two_states, j_F, j_key. cbn [fst snd] in *.
  destruct b; [rewrite (ij_F1 _ Hj)|rewrite (ij_F2 _ Hj)]; cbn; (split; cbn [fst snd]).
  - intros k. rewrite filter_snoc_key, H1'. case_decide as Hk; [subst; by rewrite lookup_total_insert_eq|].
    rewrite lookup_total_insert_ne, app_nil_r by congruence. apply H1'.
  - intros k. rewrite lookup_total_insert_ne by congruence. apply H2'.
  - unfold collect. rewrite emit_all_emitted, fmap_app, fields_stamped, Hout, join_pairs_snoc1, fmap_app, <-app_assoc.
    by rewrite H2'.
  - intros k. rewrite lookup_total_insert_ne by congruence. apply H1'.
  - intros k. rewrite filter_snoc_key, H2'. case_decide as Hk; [subst; by rewrite lookup_total_insert_eq|].
    rewrite lookup_total_insert_ne, app_nil_r by congruence. apply H2'.
  - unfold collect. rewrite emit_all_emitted, fmap_app, fields_stamped, Hout, join_pairs_snoc2, fmap_app, <-app_assoc.
    by rewrite H1'.
Qed.

Lemma joined_records j c0 (b : bool) rs : ∀ s1 s2 st,
  inc_join j → sd_ID (j_State1 j) ≠ sd_ID (j_State2 j) → joined j c0 s1 s2 st →
  joined j c0 (if b then s1 ++ rs else s1) (if b then s2 else s2 ++ rs)
    (foldl (apply_input (j_decls j) (j_key j b) (two_states (j_F j b)) collect) st rs).
Proof.
  induction rs as [|r rs IH]; intros s1 s2 st Hj Hids Hst; cbn [foldl].
  { destruct b; by rewrite app_nil_r. }
  specialize (IH _ _ _ Hj Hids (joined_record j c0 s1 s2 st b r Hj Hids Hst)).
  destruct b; by rewrite <-app_assoc in IH.
Qed.

Lemma j_udf_ok j ev r :
  inc_join j → r ∈ ev.2 → j_input j ev →
  udf_ok (j_decls j) (two_states (j_F j ev.1)) r ∧ no_clear (two_states (j_F j ev.1)) r.
Proof.
  intros Hj Hr [_ Hin]. rewrite Forall_forall in Hin. destruct (Hin r Hr) as [_ Hwt]. unfold two_states, j_F.
  destruct ev as [b rs]. cbn [fst snd] in *.
  destruct b; [rewrite (ij_F1 _ Hj)|rewrite (ij_F2 _ Hj)]; (split; intros vs; [intros _|]; cbn; apply Forall_singleton; [|done]).
  - exists (j_State1 j). split; [done|]. unfold op_fits. cbn. by rewrite (ij_kind1 _ Hj).
  - exists (j_State2 j). split; [done|]. unfold op_fits. cbn. by rewrite (ij_kind2 _ Hj).
Qed.

(** One batch of either stream. *)
Lemma j_step_Ok j Σ ev :
  inc_join j → keyed_store (j_decls j) (j_StateClient j) Σ → j_input j ev →
  let st := foldl (apply_input (j_decls j) (j_key j ev.1) (two_states (j_F j ev.1)) collect) (Σ, j_Collector j) ev.2 in
  ∃ sc, j_step j ev = Ok (with_client j sc st.2) ∧ keyed_store (j_decls j) sc st.1 ∧ same_conf (j_StateClient j) sc.
Proof.
  intros Hj Hs Hin. rewrite <-(spec_batch_no_clear (j_decls j)).
  2:{ apply Forall_forall. intros r Hr. by apply (j_udf_ok j ev r). }
  destruct (process_Ok (j_decls j) (j_key j ev.1) (two_states (j_F j ev.1)) collect (j_StateClient j) Σ (j_Collector j) ev.2)
    as (sc & Hrun & Hs' & Hconf); [done|by apply Hin| |].
  { destruct Hin as [Hne Hin]. pose proof Hin as Hin'. rewrite Forall_forall in Hin. apply Forall_forall. intros r Hr.
    split; [by apply Hin|]. by apply (j_udf_ok j ev r). }
  intros st. exists sc. split; [|done].
  unfold j_step, join_ProcessBatch, processBatchJoin. destruct ev as [b rs]. cbn [fst snd] in *. destruct b.
  - rewrite decide_True by done. cbn [join_batch]. rewrite bind_Ok. unfold j_key, j_F in Hrun. by rewrite Hrun.
  - rewrite decide_False by (intros Heq; by apply (ij_names _ Hj)). rewrite decide_True by done.
    cbn [join_batch]. rewrite bind_Ok. unfold j_key, j_F in Hrun. by rewrite Hrun.
Qed.

Lemma j_steps_Ok c0 evs : ∀ j Σ s1 s2,
  inc_join j → keyed_store (j_decls j) (j_StateClient j) Σ → Forall (j_input j) evs →
  joined j c0 s1 s2 (Σ, j_Collector j) →
  ∃ j' Σ', foldM j_step j evs = Ok j' ∧ keyed_store (j_decls j) (j_StateClient j') Σ' ∧
    joined j c0 (s1 ++ j_stream true evs) (s2 ++ j_stream false evs) (Σ', j_Collector j').
Proof.
  induction evs as [|ev evs IH]; intros j Σ s1 s2 Hj Hs Hin Hjd; cbn [foldM].
  { exists j, Σ. by rewrite !app_nil_r. }
  apply Forall_cons in Hin as [Hev Hin]. destruct (j_step_Ok j Σ ev Hj Hs Hev) as (sc & -> & Hs1 & Hconf). rewrite bind_Ok.
  assert (Hids : sd_ID (j_State1 j) ≠ sd_ID (j_State2 j)).
  { destruct (ks_ids _ _ _ Hs) as [_ [Hnin _]%NoDup_cons]. intros Heq. apply Hnin. rewrite Heq. by left. }
  pose proof (joined_records j c0 ev.1 ev.2 s1 s2 _ Hj Hids Hjd) as Hjd1.
  destruct (foldl _ (Σ, j_Collector j) ev.2) as [Σ1 c1]. cbn [fst snd] in *.
  assert (Hj1 : inc_join (with_client j sc c1)) by by destruct Hj.
  destruct (IH (with_client j sc c1) Σ1 (if ev.1 then s1 ++ ev.2 else s1) (if ev.1 then s2 else s2 ++ ev.2) Hj1 Hs1) as (j' & Σ' & Hrun & Hs' & Hjd').
  { eapply Forall_impl; [exact Hin|]. intros e [Hne He]. split; [done|]. eapply Forall_impl; [exact He|].
    intros r [Hk Hr]. split; [by apply (same_conf_slot _ _ _ Hconf)|done]. }
  { destruct Hjd1 as [A1 A2 A3]. by split; [exact A1|exact A2|exact A3]. }
  exists j', Σ'. split_and!; [done..|]. destruct Hjd' as [A1 A2 A3]. destruct ev as [[] rs]; cbn in *; rewrite <-!app_assoc in *; by split.
Qed.

(** C15: the incremental join computes the join.  Let the two user functions add
    each record to the state of its stream and combine it with what the other
    state holds for its key.  However the records of the two streams are cut
    into batches, and however these interleave, the operator has emitted exactly
    one record per pair of records with equal keys, one of each stream, and the
    state service holds for every key the records of each stream with that key,
    in order.  A batch of an unknown upstream ends the process. *)
Theorem incremental_join_exact j evs
    (Hj : inc_join j) (Hs : keyed_store (j_decls j) (j_StateClient j) ∅) (Hin : Forall (j_input j) evs) :
  let s1 := j_stream true evs in
  let s2 := j_stream false evs in
  (∃ j' Σ', foldM j_step j evs = Ok j' ∧
    fields <$> emitted (j_Collector j') ≡ₚ
      (fields <$> emitted (j_Collector j)) ++ (fields <$> join_pairs combine (j_KeyAssigner1 j) (j_KeyAssigner2 j) s1 s2) ∧
    keyed_store (j_decls j) (j_StateClient j') Σ' ∧
    ∀ k, Σ' !!! (k, sd_ID (j_State1 j)) = filter (λ r, j_KeyAssigner1 j r = k) s1 ∧
         Σ' !!! (k, sd_ID (j_State2 j)) = filter (λ r, j_KeyAssigner2 j r = k) s2) ∧
  ∀ workUnit name, name ≠ j_UpstreamName1 j → name ≠ j_UpstreamName2 j →
    join_ProcessBatch j workUnit name = Crash (Fatal "Join: workUnit comes from unexpected SubSupplier").
Proof.
  intros s1 s2. split.
  - destruct (j_steps_Ok (emitted (j_Collector j)) evs j ∅ [] [] Hj Hs Hin) as (j' & Σ' & Hrun & Hs' & [A1 A2 A3]).
    { split; [done..|]. cbn. by rewrite app_nil_r. }
    exists j', Σ'. by split_and!.
  - intros w name H1' H2'. unfold join_ProcessBatch. by rewrite !decide_False.
Qed.
End JoinFacts.

(** ** Concrete operators

    A running sum per key, and the join of two streams of pairs. *)

Lemma demo_keyed decls :
  decls ≠ [] → (∀ i d, decls !! i = Some d → sd_ID d = Z.of_nat i) → (Z.of_nat (length decls) ≤ 2 ^ 16)%Z →
  Forall (λ d, Forall (λ k, SupportedKind k = true) (sd_type d)) decls →
  ∃ sc : StateClient (LocalService MemoryStateBackend), keyed_store decls sc ∅ ∧ keyKind sc = KInt64.
Proof.
  intros Hne Hid Hlen Hsup.
  destruct (setup_keyed (S := LocalService MemoryStateBackend) decls KInt64 3 (MkLocal NewMemoryStateBackend) (toy_hash 5) 128 "pebble")
    as (sc & _ & Hs & Hk & _); [done..|unfold is_u16; lia|lia|apply toy_hash_ok|done|done|]. by exists sc.
Qed.

Lemma demo_slot (sc : StateClient (LocalService MemoryStateBackend)) decls r :
  keyed_store decls sc ∅ → keyKind sc = KInt64 → slot_for sc (kslot (WindowStore.demo_key r)).
Proof.
  intros Hs Hk. unfold slot_for, slot_ok. rewrite Hk, (ks_type _ _ _ Hs). split; [|done]. split; [|done]. apply demo_key_kind.
Qed.

Definition demo_sum : StateDecl := MkState 0 SValue [KInt64] state_failed.

Definition sum_F (r : Tuple) (l : list Tuple) : list state_op * Tuple :=
  let t := sum_tuple (sum_of l + num_at 1 r) in ([OSet t], t).

Definition demo_record (k v ts : Z) : Tuple := MkTuple [FNum KInt64 k; FNum KInt64 v] ts.

Lemma stateful_map_batching_witness :
  ∃ sm sm1 sm2 : StatefulMapper (LocalService MemoryStateBackend),
    let r1 := demo_record 7 1 10 in let r2 := demo_record 7 2 11 in let r3 := demo_record 8 5 12 in
    foldM sm_ProcessBatch sm (BatchUnit <$> [[r1; r2]; [r3]]) = Ok sm1 ∧
    foldM sm_ProcessBatch sm (BatchUnit <$> [[r1]; [r2; r3]]) = Ok sm2 ∧
    emitted (sm_Collector sm1) = [MkTuple [FNum KInt64 1] 10; MkTuple [FNum KInt64 3] 11; MkTuple [FNum KInt64 5] 12] ∧
    emitted (sm_Collector sm2) = emitted (sm_Collector sm1).
Proof.
  destruct (demo_keyed [demo_sum]) as (sc & Hs & Hk); [done|by intros [|[]] d [= <-]|simpl; lia|by repeat constructor|].
  set (sm := MkStatefulMapper sc WindowStore.demo_key demo_sum sum_F (MkCollector (-1) [])). exists sm.
  assert (Hin : ∀ r, sm_input sm r).
  { intros r. split; [by eapply demo_slot|]. intros l _. constructor; [|constructor]. apply sum_tuple_typed. }
  assert (Hnc : ∀ r l op, op ∈ (sm_F sm r l).1 → op ≠ OClear) by (intros r l op ->%list_elem_of_singleton; done).
  set (r1 := demo_record 7 1 10). set (r2 := demo_record 7 2 11). set (r3 := demo_record 8 5 12).
  pose proof (stateful_map_batching sm ∅ [[r1; r2]; [r3]] Hs) as W1. pose proof (stateful_map_batching sm ∅ [[r1]; [r2; r3]] Hs) as W2.
  destruct W1 as (sm1 & Hr1 & He1 & _); [by rewrite !Forall_cons|by apply Forall_forall|by intros; eapply Hnc|].
  destruct W2 as (sm2 & Hr2 & He2 & _); [by rewrite !Forall_cons|by apply Forall_forall|by intros; eapply Hnc|].
  exists sm1, sm2. cbn zeta. split; [exact Hr1|]. split; [exact Hr2|]. split.
  - rewrite He1. reflexivity.
  - rewrite He2, He1. reflexivity.
Defined.

(** A record with a negative value ends the sum of its key. *)
Definition reset_F (r : Tuple) (l : list Tuple) : list state_op * Tuple :=
  if (num_at 1 r <? 0)%Z then ([OClear], r) else sum_F (demo_record 0 (num_at 1 r) 0) [].

Lemma cleared_then_set_lost_witness :
  ∃ sm : StatefulMapper (LocalService MemoryStateBackend),
    let r1 := demo_record 7 (-1) 10 in let r2 := demo_record 7 4 11 in
    (∃ sm' Σ', foldM sm_ProcessBatch sm [BatchUnit [r1]; BatchUnit [r2]] = Ok sm' ∧
       keyed_store [demo_sum] (sm_StateClient sm') Σ' ∧ Σ' !!! (FNum KInt64 7, 0%Z) = [sum_tuple 4]) ∧
    (∃ sm' Σ', sm_ProcessBatch sm (BatchUnit [r1; r2]) = Ok sm' ∧
       keyed_store [demo_sum] (sm_StateClient sm') Σ' ∧ Σ' !!! (FNum KInt64 7, 0%Z) = []).
Proof.
  destruct (demo_keyed [demo_sum]) as (sc & Hs & Hk); [done|by intros [|[]] d [= <-]|simpl; lia|by repeat constructor|].
  set (sm := MkStatefulMapper sc WindowStore.demo_key demo_sum reset_F (MkCollector (-1) [])). exists sm.
  assert (Hin : ∀ r, sm_input sm r).
  { intros r. split; [by eapply demo_slot|]. intros l _. simpl. unfold reset_F.
    destruct (_ <? 0)%Z; (constructor; [|constructor]); [done|]. apply sum_tuple_typed. }
  destruct (cleared_then_set_lost sm ∅ (demo_record 7 (-1) 10) (demo_record 7 4 11) (sum_tuple 4) (demo_record 7 (-1) 10)
    (λ _, sum_tuple 4) Hs) as [(sma & Σa & Ha1 & Ha2 & Ha3 & _) (smb & Σb & Hb1 & Hb2 & Hb3 & _)].
  - by apply Forall_forall.
  - reflexivity.
  - reflexivity.
  - reflexivity.
  - cbn zeta.
    split; [by exists sma, Σa|by exists smb, Σb].
Defined.

Definition demo_list1 : StateDecl := MkState 0 SList [KInt64; KInt64] "Fetched state1 failed for type assertion".
Definition demo_list2 : StateDecl := MkState 1 SList [KInt64; KInt64] "Fetched state2 failed for type assertion".

Definition demo_combine (r1 r2 : Tuple) : Tuple := MkTuple (fields r1 ++ fields r2) 0.

Lemma demo_record_typed k v ts : is_i64 k → is_i64 v → is_i64 ts → well_typed [KInt64; KInt64] (demo_record k v ts).
Proof.
  unfold is_i64. intros Hk Hv Hts. split; [|done]. repeat constructor; simpl;
    by rewrite (proj2 (Z.leb_le _ _)), (proj2 (Z.ltb_lt _ _)) by lia.
Qed.

Lemma incremental_join_exact_witness :
  ∃ j j' : Join (LocalService MemoryStateBackend),
    foldM j_step j [(true, [demo_record 7 1 10; demo_record 8 2 11]); (false, [demo_record 7 3 12]); (true, [demo_record 7 4 13])] = Ok j' ∧
    fields <$> emitted (j_Collector j') ≡ₚ
      [[FNum KInt64 7; FNum KInt64 1; FNum KInt64 7; FNum KInt64 3]; [FNum KInt64 7; FNum KInt64 4; FNum KInt64 7; FNum KInt64 3]].
Proof.
  destruct (demo_keyed [demo_list1; demo_list2]) as (sc & Hs & Hk);
    [done|by intros [|[|[]]] d [= <-]|simpl; lia|by repeat constructor|].
  set (j := MkJoin sc "a" WindowStore.demo_key "b" WindowStore.demo_key demo_list1 demo_list2 (inc_F1 demo_combine) (inc_F2 demo_combine) (MkCollector (-1) [])).
  assert (Hj : inc_join demo_combine j) by done.
  destruct (incremental_join_exact demo_combine j
    [(true, [demo_record 7 1 10; demo_record 8 2 11]); (false, [demo_record 7 3 12]); (true, [demo_record 7 4 13])] Hj Hs)
    as [(j' & Σ' & Hrun & Hout & _) _].
  - rewrite !Forall_cons. unfold j_input. cbn [fst snd]. rewrite !Forall_cons, !Forall_nil. split_and!; try done;
      try (by eapply demo_slot); apply demo_record_typed; unfold is_i64; lia.
  - exists j, j'. split; [exact Hrun|]. exact Hout.
Defined.
