(* ===== verification/RingBuffer.v ===== *)
(** * The ring buffer of a channel and its batch pool

    [internal/buffer/ringBuffer.go] and [batchPool.go].  One routine enqueues
    and one dequeues, without a lock: the operations are given as the steps
    they take on the shared memory, and [producer] and [consumer] run them
    interleaved.  The producer is the network routine
    [Upstream.SupplyInputBuffer] from the decoded message on: it takes the next
    batch of the pool, writes the records into it and enqueues it.  The
    consumer dequeues, reads the records of the batch one after another and
    dequeues again.  The interleaving is sequentially consistent: [count] is
    atomic and the other cells are shown to be used by one routine at a
    time. *)

From stdpp Require Import prelude strings list.
From Stdlib Require Import ZArith Lia.
From S2P Require Import Prelude Codec WorkUnit.

(** ** Batch pool and ring buffer *)

(** A batch in the buffer is a pointer into the pool. *)
Inductive unit_ref := RBatch (b : nat) | RUnit (w : WorkUnit).

Record BatchPool := MkPool { nextBatch : Z; bp_capacity : Z; pool : list Batch }.

Definition NewBatchPool (tys : list Kind) (batchPoolSize batchInitCapacity : nat) : BatchPool :=
  MkPool 0 (Z.of_nat batchPoolSize) (replicate batchPoolSize (PreAllocateBatch tys batchInitCapacity)).

(** The pointer handed out, and the pool with its next one. *)
Definition bp_Get (bp : BatchPool) : res (nat * BatchPool) :=
  _ ← idxZ (pool bp) (nextBatch bp);
  let next := i64 (nextBatch bp + 1) in
  let next := if (next =? bp_capacity bp)%Z then 0%Z else next in
  Ok (Z.to_nat (nextBatch bp), MkPool next (bp_capacity bp) (pool bp)).

Record RingBuffer := MkRing {
  rb_capacity : Z;
  count : Z;
  read_idx : Z;
  write_idx : Z;
  buffer : list (option unit_ref)
}.

Definition NewRingBuffer (BufferSize : nat) : RingBuffer :=
  MkRing (Z.of_nat BufferSize) 0 0 0 (replicate BufferSize None).

(** The steps of [Enqueue]. *)
Definition enq_full (rb : RingBuffer) : bool := (count rb =? rb_capacity rb)%Z.

Definition enq_write (rb : RingBuffer) (workUnit : unit_ref) : res RingBuffer :=
  buffer' ← set_idxZ (buffer rb) (write_idx rb) (Some workUnit);
  Ok (MkRing (rb_capacity rb) (count rb) (read_idx rb) (write_idx rb) buffer').

Definition next_idx (rb : RingBuffer) (i : Z) : Z :=
  let i := i64 (i + 1) in if (i =? rb_capacity rb)%Z then 0%Z else i.

Definition enq_bump (rb : RingBuffer) : RingBuffer :=
  MkRing (rb_capacity rb) (count rb) (read_idx rb) (next_idx rb (write_idx rb)) (buffer rb).

Definition add_count (rb : RingBuffer) (n : Z) : RingBuffer :=
  MkRing (rb_capacity rb) (i64 (count rb + n)) (read_idx rb) (write_idx rb) (buffer rb).

Definition Enqueue (rb : RingBuffer) (workUnit : unit_ref) : res (RingBuffer * bool) :=
  if enq_full rb then Ok (rb, false)
  else
    rb ← enq_write rb workUnit;
    Ok (add_count (enq_bump rb) 1, true).

(** The steps of [Dequeue]; a slot that was never written is a nil work unit,
    which the caller dereferences. *)
Definition deq_empty (rb : RingBuffer) : bool := (count rb =? 0)%Z.

Definition deq_read (rb : RingBuffer) : res unit_ref :=
  slot ← idxZ (buffer rb) (read_idx rb);
  match slot with Some u => Ok u | None => Crash Panic end.

Definition deq_bump (rb : RingBuffer) : RingBuffer :=
  MkRing (rb_capacity rb) (count rb) (next_idx rb (read_idx rb)) (write_idx rb) (buffer rb).

Definition Dequeue (rb : RingBuffer) : res (RingBuffer * option unit_ref) :=
  if deq_empty rb then Ok (rb, None)
  else
    next ← deq_read rb;
    Ok (add_count (deq_bump rb) (-1), Some next).

(** ** The two routines *)

Inductive producer_pc :=
  | PNext
  | PFill (b : nat) (i : nat) (records : list Tuple)
  | PTry (u : unit_ref)
  | PWrite (u : unit_ref)
  | PBump (u : unit_ref)
  | PAdd (u : unit_ref).

Inductive consumer_pc :=
  | CIdle
  | CRead
  | CBump (u : unit_ref)
  | CSub (u : unit_ref)
  | CGot (u : unit_ref) (acc : list Tuple).

(** [todo]: the messages still to arrive; [processed]: what the consumer has
    seen. *)
Record Channel := MkChannel {
  ch_rb : RingBuffer;
  ch_bp : BatchPool;
  ch_ppc : producer_pc;
  ch_cpc : consumer_pc;
  todo : list WorkUnit;
  processed : list WorkUnit
}.

Definition ch_producer (c : Channel) (rb : RingBuffer) (bp : BatchPool) (pc : producer_pc) (todo' : list WorkUnit) : Channel :=
  MkChannel rb bp pc (ch_cpc c) todo' (processed c).

Definition ch_consumer (c : Channel) (rb : RingBuffer) (pc : consumer_pc) (done : list WorkUnit) : Channel :=
  MkChannel rb (ch_bp c) (ch_ppc c) pc (todo c) done.

Definition NewChannel (tys : list Kind) (BufferSize batchInitCapacity : nat) (messages : list WorkUnit) : Channel :=
  MkChannel (NewRingBuffer BufferSize) (NewBatchPool tys (BufferSize + 2) batchInitCapacity)
    PNext CIdle messages [].

(** A change of one batch of the pool. *)
Definition bp_alter (bp : BatchPool) (b : nat) (f : Batch → Batch) : res BatchPool :=
  batch ← idx (pool bp) b;
  Ok (MkPool (nextBatch bp) (bp_capacity bp) (<[b := f batch]> (pool bp))).

(** Space for [numRecords] records. *)
Definition make_space (tys : list Kind) (numRecords : nat) (batch : Batch) : Batch :=
  if Capacity batch <? numRecords then ExpandBatchCapacity tys batch (numRecords - Capacity batch) else batch.

Definition write_record (i : nat) (r : Tuple) (batch : Batch) : Batch :=
  MkBatch (TotalNumBytes batch) (TotalNumRecords batch) (Capacity batch) (<[i := r]> (Records batch)).

Definition set_num_records (n : nat) (batch : Batch) : Batch :=
  MkBatch (TotalNumBytes batch) n (Capacity batch) (Records batch).

(** One step of the network routine. *)
Definition producer (tys : list Kind) (c : Channel) : res Channel :=
  let rb := ch_rb c in
  let bp := ch_bp c in
  match ch_ppc c with
  | PNext =>
      match todo c with
      | [] => Ok c
      | BatchUnit records :: todo' =>
          '(b, bp) ← bp_Get bp;
          bp ← bp_alter bp b (make_space tys (length records));
          Ok (ch_producer c rb bp (PFill b 0 records) todo')
      | w :: todo' => Ok (ch_producer c rb bp (PTry (RUnit w)) todo')
      end
  | PFill b i records =>
      match records !! i with
      | Some r =>
          batch ← idx (pool bp) b;
          _ ← idx (Records batch) i;
          bp ← bp_alter bp b (write_record i r);
          Ok (ch_producer c rb bp (PFill b (S i) records) (todo c))
      | None =>
          bp ← bp_alter bp b (set_num_records (length records));
          Ok (ch_producer c rb bp (PTry (RBatch b)) (todo c))
      end
  | PTry u => Ok (ch_producer c rb bp (if enq_full rb then PTry u else PWrite u) (todo c))
  | PWrite u => rb ← enq_write rb u; Ok (ch_producer c rb bp (PBump u) (todo c))
  | PBump u => Ok (ch_producer c (enq_bump rb) bp (PAdd u) (todo c))
  | PAdd u => Ok (ch_producer c (add_count rb 1) bp PNext (todo c))
  end.

(** One step of the task's routine. *)
Definition consumer (c : Channel) : res Channel :=
  let rb := ch_rb c in
  match ch_cpc c with
  | CIdle => Ok (ch_consumer c rb (if deq_empty rb then CIdle else CRead) (processed c))
  | CRead => u ← deq_read rb; Ok (ch_consumer c rb (CBump u) (processed c))
  | CBump u => Ok (ch_consumer c (deq_bump rb) (CSub u) (processed c))
  | CSub u => Ok (ch_consumer c (add_count rb (-1)) (CGot u []) (processed c))
  | CGot (RUnit w) _ => Ok (ch_consumer c rb CIdle (processed c ++ [w]))
  | CGot (RBatch b) acc =>
      batch ← idx (pool (ch_bp c)) b;
      if length acc <? TotalNumRecords batch then
        r ← idx (Records batch) (length acc);
        Ok (ch_consumer c rb (CGot (RBatch b) (acc ++ [r])) (processed c))
      else Ok (ch_consumer c rb CIdle (processed c ++ [BatchUnit acc]))
  end.

(** An interleaving: [true] is a step of the producer. *)
Definition channel_run (tys : list Kind) (schedule : list bool) (c : Channel) : res Channel :=
  foldM (λ c p, if p : bool then producer tys c else consumer c) c schedule.

(** ** Invariant

    [R] counts the completed dequeues; [q] is the queue, the next element
    first; [K] counts the batches handed out. *)

Definition batch_id (u : unit_ref) : option nat := match u with RBatch b => Some b | RUnit _ => None end.

Definition batch_ids (l : list unit_ref) : list nat := omap batch_id l.

(** What a pointer stands for, in the pool's memory. *)
Definition content (pl : list Batch) (u : unit_ref) : WorkUnit :=
  match u with
  | RUnit w => w
  | RBatch b => BatchUnit (default [] (batch_records <$> pl !! b))
  end.

Definition whole (pl : list Batch) (u : unit_ref) : Prop :=
  match u with
  | RUnit _ => True
  | RBatch b => ∃ batch, pl !! b = Some batch ∧ TotalNumRecords batch ≤ length (Records batch)
  end.

Definition prod_ref (pc : producer_pc) : list unit_ref :=
  match pc with
  | PNext => []
  | PFill b _ _ => [RBatch b]
  | PTry u | PWrite u | PBump u | PAdd u => [u]
  end.

Definition prod_units (pl : list Batch) (pc : producer_pc) : list WorkUnit :=
  match pc with
  | PFill _ _ records => [BatchUnit records]
  | _ => content pl <$> prod_ref pc
  end.

Definition cons_ref (pc : consumer_pc) : list unit_ref :=
  match pc with CGot u _ => [u] | _ => [] end.

(** Where the routines are relative to the queue. *)
Definition prod_ahead (pc : producer_pc) : nat := match pc with PAdd _ => 1 | _ => 0 end.
Definition cons_ahead (pc : consumer_pc) : nat := match pc with CSub _ => 1 | _ => 0 end.

Definition prod_ok (cap : nat) (pl : list Batch) (buf : list (option unit_ref)) (W : nat) (q : list unit_ref) (pc : producer_pc) : Prop :=
  match pc with
  | PNext => True
  | PFill b i records => ∃ batch, pl !! b = Some batch ∧ i ≤ length records ≤ length (Records batch) ∧
      take i (Records batch) = take i records
  | PTry u => whole pl u
  | PWrite u => whole pl u ∧ length q < cap
  | PBump u | PAdd u => whole pl u ∧ length q < cap ∧ buf !! (W mod cap) = Some (Some u)
  end.

Definition cons_ok (pl : list Batch) (q : list unit_ref) (pc : consumer_pc) : Prop :=
  match pc with
  | CIdle => True
  | CRead => q ≠ []
  | CBump u | CSub u => head q = Some u
  | CGot u acc => whole pl u ∧ match u with
      | RUnit _ => acc = []
      | RBatch b => ∃ batch, pl !! b = Some batch ∧ acc `prefix_of` batch_records batch
      end
  end.

Record channel_inv (cap : nat) (msgs : list WorkUnit) (c : Channel) (R : nat) (q : list unit_ref) (K J : nat) : Prop := {
  ci_cap : rb_capacity (ch_rb c) = Z.of_nat cap;
  ci_buf : length (buffer (ch_rb c)) = cap;
  ci_count : count (ch_rb c) = Z.of_nat (length q);
  ci_full : length q ≤ cap;
  ci_read : read_idx (ch_rb c) = Z.of_nat ((R + cons_ahead (ch_cpc c)) mod cap);
  ci_write : write_idx (ch_rb c) = Z.of_nat ((R + length q + prod_ahead (ch_ppc c)) mod cap);
  ci_slots : ∀ i u, q !! i = Some u → buffer (ch_rb c) !! ((R + i) mod cap) = Some (Some u);
  ci_prod : prod_ok cap (pool (ch_bp c)) (buffer (ch_rb c)) (R + length q) q (ch_ppc c);
  ci_cons : cons_ok (pool (ch_bp c)) q (ch_cpc c);
  ci_whole : Forall (whole (pool (ch_bp c))) q;
  ci_pool : length (pool (ch_bp c)) = cap + 2;
  ci_pcap : bp_capacity (ch_bp c) = Z.of_nat (cap + 2);
  ci_next : nextBatch (ch_bp c) = Z.of_nat (K mod (cap + 2));
  ci_JK : J ≤ K;
  ci_ids : batch_ids (cons_ref (ch_cpc c) ++ q ++ prod_ref (ch_ppc c)) = (λ j, j mod (cap + 2)) <$> seq J (K - J);
  ci_caps : Forall (λ b, Capacity b = length (Records b)) (pool (ch_bp c));
  ci_msgs : msgs = processed c ++ (content (pool (ch_bp c)) <$> cons_ref (ch_cpc c)) ++
    (content (pool (ch_bp c)) <$> q) ++ prod_units (pool (ch_bp c)) (ch_ppc c) ++ todo c
}.

Lemma mod_eq_near x y n : x mod n = y mod n → x < y + n → y < x + n → x = y.
Proof.
  intros Heq Hx Hy. pose proof (Nat.div_mod_eq x n) as Ex. pose proof (Nat.div_mod_eq y n) as Ey. rewrite <-Heq in Ey.
  destruct (Nat.lt_trichotomy (x / n) (y / n)) as [H|[H|H]]; [nia| |nia]. rewrite H in Ex. lia.
Qed.

Lemma NoDup_mod_seq J len n : len ≤ n → NoDup ((λ j, j mod n) <$> seq J len).
Proof.
  intros Hn. apply NoDup_fmap_2_strong; [|apply NoDup_seq].
  intros x y Hx%elem_of_seq Hy%elem_of_seq Heq.
  apply (mod_eq_near x y n Heq); lia.
Qed.

Lemma next_idx_mod rb cap i :
  0 < cap → is_i64 (Z.of_nat cap) → rb_capacity rb = Z.of_nat cap →
  next_idx rb (Z.of_nat (i mod cap)) = Z.of_nat ((i + 1) mod cap).
Proof.
  intros Hc Hi Hrb. unfold next_idx. rewrite Hrb. pose proof (Nat.mod_upper_bound i cap ltac:(lia)).
  unfold is_i64 in Hi. rewrite i64_id by (unfold is_i64; lia).
  rewrite <-(Nat.Div0.add_mod_idemp_l i 1 cap).
  destruct (Z.eqb_spec (Z.of_nat (i mod cap) + 1) (Z.of_nat cap)) as [He|He].
  - replace (i mod cap + 1) with cap by lia. by rewrite Nat.Div0.mod_same.
  - rewrite (Nat.mod_small (i mod cap + 1)) by lia. lia.
Qed.

(** Slots of the queue and the next free slot are different. *)
Lemma slot_ne cap R i W : i < cap → R + i < W → W < R + cap → (R + i) mod cap ≠ W mod cap.
Proof.
  intros Hi Hlt Hw Heq. apply mod_eq_near in Heq; lia.
Qed.

(** A change of one batch does not show through other pointers. *)
Lemma content_frame pl b batch l :
  b ∉ batch_ids l → content (<[b := batch]> pl) <$> l = content pl <$> l.
Proof.
  intros Hb. apply list_fmap_ext. intros i u Hu. destruct u as [b'|w]; [|done]. simpl.
  rewrite list_lookup_insert_ne; [done|]. intros ->. apply Hb. apply list_elem_of_omap.
  exists (RBatch b'). split; [by eapply list_elem_of_lookup_2|done].
Qed.

Lemma whole_frame pl b batch u : b ∉ batch_ids [u] → whole pl u → whole (<[b := batch]> pl) u.
Proof.
  destruct u as [b'|w]; [|done]. simpl. intros Hb (x & Hx & Hle). exists x.
  rewrite list_lookup_insert_ne by set_solver. done.
Qed.

Lemma wholes_frame pl b batch l : b ∉ batch_ids l → Forall (whole pl) l → Forall (whole (<[b := batch]> pl)) l.
Proof.
  rewrite !Forall_forall. intros Hb Hl u Hu. apply whole_frame; [|by apply Hl]. intros Hbu. apply Hb.
  apply list_elem_of_omap in Hbu as (v & ->%list_elem_of_singleton & Hv). apply list_elem_of_omap. eauto.
Qed.

Lemma batch_ids_app l l' : batch_ids (l ++ l') = batch_ids l ++ batch_ids l'.
Proof. apply omap_app. Qed.

Lemma length_batch_ids l : length (batch_ids l) ≤ length l.
Proof. induction l as [|[b|w] l IH]; simpl; lia. Qed.

Section Preserved.
Context (tys : list Kind) (cap : nat) (msgs : list WorkUnit).
Context (Hcap : 0 < cap) (Hi64 : is_i64 (Z.of_nat (cap + 2))).

Abbreviation inv c := (∃ R q K J, channel_inv cap msgs c R q K J).

(** The batches in use are different ones, and the next one is none of them as
    long as the producer has none. *)
Lemma ids_facts c R q K J :
  channel_inv cap msgs c R q K J →
  let ids := batch_ids (cons_ref (ch_cpc c) ++ q ++ prod_ref (ch_ppc c)) in
  NoDup ids ∧ (prod_ref (ch_ppc c) = [] → K mod (cap + 2) ∉ ids).
Proof.
  intros Hinv. pose proof (ci_ids _ _ _ _ _ _ _ Hinv) as Hids. pose proof (ci_full _ _ _ _ _ _ _ Hinv) as Hf.
  pose proof (length_batch_ids (cons_ref (ch_cpc c) ++ q ++ prod_ref (ch_ppc c))) as Hlen.
  assert (length (cons_ref (ch_cpc c)) ≤ 1) by (destruct (ch_cpc c); simpl; lia).
  assert (length (prod_ref (ch_ppc c)) ≤ 1) by (destruct (ch_ppc c); simpl; lia).
  rewrite Hids, length_fmap, length_seq, !length_app in Hlen. simpl. rewrite Hids. split.
  - apply NoDup_mod_seq. lia.
  - intros Hp. rewrite Hp in Hlen. simpl in Hlen. intros (j & Hj & Hin%elem_of_seq)%list_elem_of_fmap.
    apply mod_eq_near in Hj; lia.
Qed.

Lemma ids_in_pool c R q K J b :
  channel_inv cap msgs c R q K J → b ∈ batch_ids (cons_ref (ch_cpc c) ++ q ++ prod_ref (ch_ppc c)) → b < cap + 2.
Proof.
  intros Hinv. rewrite (ci_ids _ _ _ _ _ _ _ Hinv). intros (j & -> & _)%list_elem_of_fmap.
  apply Nat.mod_upper_bound. lia.
Qed.

(** A step of the producer that only moves its program counter. *)
Lemma producer_moves c R q K J pc :
  channel_inv cap msgs c R q K J → prod_ref pc = prod_ref (ch_ppc c) → prod_ahead pc = prod_ahead (ch_ppc c) →
  prod_units (pool (ch_bp c)) pc = prod_units (pool (ch_bp c)) (ch_ppc c) →
  prod_ok cap (pool (ch_bp c)) (buffer (ch_rb c)) (R + length q) q pc →
  channel_inv cap msgs (ch_producer c (ch_rb c) (ch_bp c) pc (todo c)) R q K J.
Proof.
  intros [] Hr Ha Hu Hok. split; simpl; try done; rewrite ?Hr, ?Ha, ?Hu; done.
Qed.

Lemma producer_write c R q K J u :
  channel_inv cap msgs c R q K J → ch_ppc c = PWrite u →
  ∃ rb, enq_write (ch_rb c) u = Ok rb ∧ channel_inv cap msgs (ch_producer c rb (ch_bp c) (PBump u) (todo c)) R q K J.
Proof.
  intros Hinv Hpc. destruct Hinv. rewrite Hpc in *. cbn [prod_ahead prod_ref prod_ok prod_units] in *.
  destruct ci_prod0 as [Hw Hlt]. rewrite Nat.add_0_r in ci_write0.
  pose proof (Nat.mod_upper_bound (R + length q) cap ltac:(lia)) as Hmod.
  unfold enq_write, set_idxZ, set_idx. rewrite ci_write0. rewrite (proj2 (Z.ltb_ge _ _)) by lia.
  rewrite Nat2Z.id, bool_decide_true by lia. rewrite bind_Ok. eexists. split; [done|].
  split; simpl; rewrite ?Nat.add_0_r, ?length_insert; try done.
  - intros i v Hv. rewrite list_lookup_insert_ne; [by apply ci_slots0|]. apply lookup_lt_Some in Hv. symmetry.
    apply slot_ne; lia.
  - split_and!; [done..|]. rewrite list_lookup_insert_eq by lia. done.
Qed.

Lemma producer_add c R q K J u :
  channel_inv cap msgs c R q K J → ch_ppc c = PAdd u →
  channel_inv cap msgs (ch_producer c (add_count (ch_rb c) 1) (ch_bp c) PNext (todo c)) R (q ++ [u]) K J.
Proof.
  intros Hinv Hpc. destruct Hinv. rewrite Hpc in *. cbn [prod_ahead prod_ref prod_ok prod_units] in *.
  destruct ci_prod0 as (Hw & Hlt & Hslot). unfold is_i64 in Hi64.
  split; simpl; rewrite ?app_nil_r, ?length_app, ?Nat.add_0_r, ?fmap_app; simpl; try done.
  - rewrite ci_count0, i64_id by (unfold is_i64; lia). lia.
  - lia.
  - by rewrite Nat.add_assoc.
  - intros i v [Hv|[Hge [Hi0 <-]%list_lookup_singleton_Some]]%lookup_app_Some; [by apply ci_slots0|].
    by replace (R + i) with (R + length q) by lia.
  - destruct (ch_cpc c); simpl in *; try done; by destruct q.
  - apply Forall_app. split; [done|by constructor].
  - by rewrite <-app_assoc in *.
Qed.

Lemma cons_ok_frame pl q pc b batch : b ∉ batch_ids (cons_ref pc) → cons_ok pl q pc → cons_ok (<[b := batch]> pl) q pc.
Proof.
  destruct pc as [| | | |[b'|w] acc]; simpl; try done. intros Hb [Hw (x & Hx & Hp)].
  split; [by apply (whole_frame _ _ _ (RBatch b'))|]. exists x. by rewrite list_lookup_insert_ne by set_solver.
Qed.

(** A step of the producer in which only its own batch changes. *)
Lemma producer_fills c R q K J b batch batch' pc rest :
  channel_inv cap msgs c R q K J → prod_ref (ch_ppc c) = [RBatch b] → prod_ahead (ch_ppc c) = 0 →
  pool (ch_bp c) !! b = Some batch → Capacity batch' = length (Records batch') →
  prod_ref pc = [RBatch b] → prod_ahead pc = 0 →
  prod_ok cap (<[b := batch']> (pool (ch_bp c))) (buffer (ch_rb c)) (R + length q) q pc →
  prod_units (<[b := batch']> (pool (ch_bp c))) pc = [BatchUnit rest] →
  prod_units (pool (ch_bp c)) (ch_ppc c) = [BatchUnit rest] →
  channel_inv cap msgs (ch_producer c (ch_rb c)
    (MkPool (nextBatch (ch_bp c)) (bp_capacity (ch_bp c)) (<[b := batch']> (pool (ch_bp c)))) pc (todo c)) R q K J.
Proof.
  intros Hinv Hr Ha Hb Hcapb Hr' Ha' Hok Hu' Hu. pose proof (ids_facts c R q K J Hinv) as [Hnd _].
  destruct Hinv. rewrite Hr in *. rewrite app_assoc, batch_ids_app, (NoDup_app (batch_ids (cons_ref (ch_cpc c) ++ q))) in Hnd.
  destruct Hnd as (_ & Hnot & _). assert (Hb' : b ∉ batch_ids (cons_ref (ch_cpc c) ++ q)) by (intros Hin; apply (Hnot b Hin); simpl; by left).
  rewrite batch_ids_app in Hb'. apply not_elem_of_app in Hb' as [Hbc Hbq].
  split; simpl; rewrite ?Hr', ?Ha', ?length_insert; try done.
  - by rewrite Ha in ci_write0.
  - by apply cons_ok_frame.
  - by apply wholes_frame.
  - apply Forall_insert; done.
  - rewrite !content_frame, Hu' by done. rewrite ci_msgs0, Hu. done.
Qed.

Lemma producer_get c R q K J records todo' :
  channel_inv cap msgs c R q K J → ch_ppc c = PNext → todo c = BatchUnit records :: todo' →
  ∃ b bp bp', bp_Get (ch_bp c) = Ok (b, bp) ∧ bp_alter bp b (make_space tys (length records)) = Ok bp' ∧
    channel_inv cap msgs (ch_producer c (ch_rb c) bp' (PFill b 0 records) todo') R q (S K) J.
Proof.
  intros Hinv Hpc Htodo. pose proof (ids_facts c R q K J Hinv) as [_ Hnew].
  destruct Hinv. rewrite Hpc in *. cbn [prod_ahead prod_ref prod_ok prod_units] in *. specialize (Hnew eq_refl).
  rewrite app_nil_r in *. set (b := K mod (cap + 2)) in *.
  assert (Hb : b < length (pool (ch_bp c))) by (rewrite ci_pool0; apply Nat.mod_upper_bound; lia).
  destruct (lookup_lt_is_Some_2 (pool (ch_bp c)) b Hb) as [batch Hbatch].
  pose proof (Forall_lookup_1 _ _ _ _ ci_caps0 Hbatch) as Hcapb. simpl in Hcapb.
  rewrite batch_ids_app in Hnew. apply not_elem_of_app in Hnew as [Hbc Hbq].
  unfold bp_Get, idxZ, idx. rewrite ci_next0. rewrite (proj2 (Z.ltb_ge _ _)) by lia. rewrite Nat2Z.id, Hbatch, bind_Ok.
  do 3 eexists. split; [done|]. unfold bp_alter, idx. cbn [pool nextBatch bp_capacity]. rewrite Hbatch, bind_Ok. split; [done|].
  assert (Hsp : length records ≤ length (Records (make_space tys (length records) batch)) ∧
    Capacity (make_space tys (length records) batch) = length (Records (make_space tys (length records) batch))).
  { unfold make_space. destruct (Nat.ltb_spec (Capacity batch) (length records)); simpl; [|lia].
    rewrite length_app, length_replicate. lia. }
  destruct Hsp as [Hsp Hsp2]. unfold is_i64 in Hi64.
  split; simpl; rewrite ?length_insert; try done.
  - exists (make_space tys (length records) batch). rewrite list_lookup_insert_eq by done. by split_and!; [|lia|..].
  - by apply cons_ok_frame.
  - by apply wholes_frame.
  - change (next_idx (MkRing (bp_capacity (ch_bp c)) 0 0 0 []) (Z.of_nat b) = Z.of_nat (S K mod (cap + 2))).
    unfold b. rewrite (next_idx_mod _ (cap + 2)); [|lia|done|done]. by rewrite Nat.add_1_r.
  - lia.
  - rewrite app_assoc, batch_ids_app, ci_ids0. replace (S K - J) with (K - J + 1) by lia.
    rewrite seq_app, fmap_app. simpl. by replace (J + (K - J)) with K by lia.
  - by apply Forall_insert.
  - rewrite !content_frame by done. by rewrite ci_msgs0, Htodo.
Qed.

Lemma producer_fill c R q K J b i records :
  channel_inv cap msgs c R q K J → ch_ppc c = PFill b i records →
  ∃ c', producer tys c = Ok c' ∧ channel_inv cap msgs c' R q K J.
Proof.
  intros Hinv Hpc. pose proof (ci_prod _ _ _ _ _ _ _ Hinv) as Hok. rewrite Hpc in Hok.
  destruct Hok as (batch & Hb & Hi & Htake). pose proof (Forall_lookup_1 _ _ _ _ (ci_caps _ _ _ _ _ _ _ Hinv) Hb) as Hcapb.
  simpl in Hcapb. assert (Hbl : b < length (pool (ch_bp c))) by by eapply lookup_lt_Some.
  unfold producer, bp_alter, idx. rewrite Hpc, Hb. destruct (records !! i) as [r|] eqn:Hr; rewrite ?bind_Ok.
  - apply lookup_lt_Some in Hr as Hlt. destruct (lookup_lt_is_Some_2 (Records batch) i ltac:(lia)) as [old Hold].
    rewrite Hold, bind_Ok. eexists. split; [done|].
    eapply (producer_fills c R q K J b batch _ (PFill b (S i) records) records); rewrite ?Hpc; try done; simpl.
    + by rewrite length_insert.
    + exists (write_record i r batch). rewrite list_lookup_insert_eq by done. simpl. rewrite length_insert.
      split_and!; [done|lia|lia|].
      rewrite (take_S_r _ i r), (take_S_r records i r) by (try done; apply list_lookup_insert_eq; lia).
      by rewrite take_insert_ge, Htake by lia.
  - apply lookup_ge_None in Hr. assert (i = length records) as -> by lia. eexists. split; [done|].
    eapply (producer_fills c R q K J b batch _ (PTry (RBatch b)) records); rewrite ?Hpc; try done; simpl.
    + exists (set_num_records (length records) batch). rewrite list_lookup_insert_eq by done. simpl. split; [done|lia].
    + rewrite list_lookup_insert_eq by done. simpl. unfold batch_records. simpl. by rewrite Htake, firstn_all.
Qed.

Lemma producer_preserves c : inv c → ∃ c', producer tys c = Ok c' ∧ inv c'.
Proof.
  intros (R & q & K & J & Hinv). pose proof Hinv as Hinv0. unfold producer. destruct (ch_ppc c) as [|b i records|u|u|u|u] eqn:Hpc.
  - destruct (todo c) as [|w todo'] eqn:Htodo; [by eauto 10|].
    destruct w as [records| | | | | | |];
      [destruct (producer_get c R q K J records todo' Hinv Hpc Htodo) as (b & bp & bp' & -> & Halt & Hinv');
       rewrite bind_Ok, Halt, bind_Ok; by eauto 10|..];
    (eexists; split; [done|]; exists R, q, K, J; destruct Hinv; rewrite Hpc in *;
     split; simpl in *; try done;
     [by rewrite app_nil_r in ci_ids0; rewrite app_assoc, batch_ids_app, ci_ids0, app_nil_r|by rewrite ci_msgs0, Htodo]).
  - destruct (producer_fill c R q K J b i records Hinv Hpc) as (c' & Hrun & Hinv'). unfold producer in Hrun.
    rewrite Hpc in Hrun. eauto 10.
  - eexists. split; [done|]. exists R, q, K, J. pose proof (ci_prod _ _ _ _ _ _ _ Hinv) as Hok. rewrite Hpc in Hok.
    apply producer_moves; [done|by destruct (enq_full _); rewrite Hpc..|].
    unfold enq_full. rewrite (ci_count _ _ _ _ _ _ _ Hinv), (ci_cap _ _ _ _ _ _ _ Hinv).
    pose proof (ci_full _ _ _ _ _ _ _ Hinv). destruct (Z.eqb_spec (Z.of_nat (length q)) (Z.of_nat cap)); [done|]. split; [done|lia].
  - destruct (producer_write c R q K J u Hinv Hpc) as (rb & -> & Hinv'). rewrite bind_Ok. eauto 10.
  - eexists. split; [done|]. exists R, q, K, J. destruct Hinv. rewrite Hpc in *. split; simpl in *; try done.
    rewrite Nat.add_0_r in ci_write0. rewrite ci_write0. unfold is_i64 in Hi64. apply next_idx_mod; [lia|unfold is_i64; lia|done].
  - eexists. split; [done|]. exists R, (q ++ [u]), K, J. by apply producer_add.
Qed.

(** A step of the consumer that only moves its program counter. *)
Lemma consumer_moves c R q K J pc :
  channel_inv cap msgs c R q K J → cons_ref pc = cons_ref (ch_cpc c) → cons_ahead pc = cons_ahead (ch_cpc c) →
  cons_ok (pool (ch_bp c)) q pc → channel_inv cap msgs (ch_consumer c (ch_rb c) pc (processed c)) R q K J.
Proof. intros [] Hr Ha Hok. split; simpl; try done; rewrite ?Hr, ?Ha; done. Qed.

Lemma consumer_read c R q K J :
  channel_inv cap msgs c R q K J → ch_cpc c = CRead →
  ∃ u, deq_read (ch_rb c) = Ok u ∧ channel_inv cap msgs (ch_consumer c (ch_rb c) (CBump u) (processed c)) R q K J.
Proof.
  intros Hinv Hpc. pose proof (ci_cons _ _ _ _ _ _ _ Hinv) as Hok. rewrite Hpc in Hok.
  destruct q as [|u q]; [done|]. exists u. split; [|by apply consumer_moves; rewrite ?Hpc].
  unfold deq_read, idxZ, idx. rewrite (ci_read _ _ _ _ _ _ _ Hinv), Hpc. simpl.
  rewrite (proj2 (Z.ltb_ge _ _)) by lia. rewrite Nat2Z.id, (ci_slots _ _ _ _ _ _ _ Hinv 0 u) by done. done.
Qed.

Lemma consumer_sub c R q K J u :
  channel_inv cap msgs c R q K J → ch_cpc c = CSub u →
  ∃ q', channel_inv cap msgs (ch_consumer c (add_count (ch_rb c) (-1)) (CGot u []) (processed c)) (S R) q' K J.
Proof.
  intros Hinv Hpc. destruct Hinv. rewrite Hpc in *. simpl in *. destruct q as [|u' q]; [done|]. injection ci_cons0 as ->.
  apply Forall_cons in ci_whole0 as [Hw Hws]. unfold is_i64 in Hi64. exists q.
  split; simpl in *; try done.
  - rewrite ci_count0, i64_id by (unfold is_i64; lia). lia.
  - lia.
  - by rewrite ci_read0, Nat.add_1_r, Nat.add_0_r.
  - by rewrite ci_write0, <-Nat.add_succ_comm.
  - intros i v Hv. replace (S (R + i)) with (R + S i) by lia. by apply (ci_slots0 (S i)).
  - replace (S (R + length q)) with (R + S (length q)) by lia. destruct (ch_ppc c); simpl in *; try done; naive_solver lia.
  - split; [done|]. destruct u as [b|w]; [|done]. destruct Hw as (batch & Hb & Hle). exists batch. split; [done|apply prefix_nil].
Qed.

(** The consumer is done with a work unit. *)
Lemma consumer_done c R q K J u acc :
  channel_inv cap msgs c R q K J → ch_cpc c = CGot u acc →
  ∃ J', channel_inv cap msgs (ch_consumer c (ch_rb c) CIdle (processed c ++ [content (pool (ch_bp c)) u])) R q K J'.
Proof.
  intros Hinv Hpc. destruct Hinv. rewrite Hpc in *. cbn [cons_ref cons_ok cons_ahead fmap list_fmap] in *.
  exists (match u with RBatch _ => S J | RUnit _ => J end).
  assert (HJ : match u with RBatch _ => S J | RUnit _ => J end ≤ K ∧ batch_ids (q ++ prod_ref (ch_ppc c)) =
    (λ j, j mod (cap + 2)) <$> seq (match u with RBatch _ => S J | RUnit _ => J end) (K - match u with RBatch _ => S J | RUnit _ => J end)).
  { destruct u as [b|w]; [|done]. destruct (K - J) as [|n] eqn:HK; [done|]. split; [lia|].
    replace (K - S J) with n by lia. simpl in ci_ids0. by injection ci_ids0. }
  destruct HJ as [HJ Hids]. split; simpl; try done. rewrite ci_msgs0, <-app_assoc. done.
Qed.

Lemma consumer_preserves c : inv c → ∃ c', consumer c = Ok c' ∧ inv c'.
Proof.
  intros (R & q & K & J & Hinv). unfold consumer. destruct (ch_cpc c) as [| |u|u|u acc] eqn:Hpc.
  - eexists. split; [done|]. exists R, q, K, J. apply consumer_moves; [done|by destruct (deq_empty _); rewrite Hpc..|].
    unfold deq_empty. rewrite (ci_count _ _ _ _ _ _ _ Hinv). by destruct q.
  - destruct (consumer_read c R q K J Hinv Hpc) as (u & -> & Hinv'). rewrite bind_Ok. eauto 10.
  - eexists. split; [done|]. exists R, q, K, J. destruct Hinv. rewrite Hpc in *. split; simpl in *; try done.
    rewrite Nat.add_0_r in ci_read0. rewrite ci_read0. unfold is_i64 in Hi64. apply next_idx_mod; [lia|unfold is_i64; lia|done].
  - destruct (consumer_sub c R q K J u Hinv Hpc) as [q' Hinv']. eauto 10.
  - destruct (consumer_done c R q K J u acc Hinv Hpc) as [J' Hdone]. pose proof (ci_cons _ _ _ _ _ _ _ Hinv) as Hok.
    rewrite Hpc in Hok. destruct u as [b|w]; [|by eauto 10]. destruct Hok as [(x & Hx & Hle) (batch & Hb & Hpre)].
    assert (x = batch) as -> by congruence. unfold idx. rewrite Hb, bind_Ok. cbn [content] in Hdone. rewrite Hb in Hdone. cbn [fmap option_fmap option_map default] in Hdone.
    pose proof (prefix_length _ _ Hpre) as Hlen. destruct Hpre as [rest Hrest]. unfold batch_records in Hlen. rewrite length_take in Hlen.
    destruct (Nat.ltb_spec (length acc) (TotalNumRecords batch)) as [Hlt|Hge].
    + destruct (lookup_lt_is_Some_2 (Records batch) (length acc) ltac:(lia)) as [r Hr]. rewrite Hr, bind_Ok.
      eexists. split; [done|]. exists R, q, K, J. apply consumer_moves; [done|by rewrite Hpc..|]. simpl. split; [eauto|].
      exists batch. split; [done|]. assert (Hr' : batch_records batch !! length acc = Some r).
      { unfold batch_records. by rewrite lookup_take_lt. }
      rewrite Hrest, lookup_app_r, Nat.sub_diag in Hr' by done. destruct rest as [|r' rest]; [done|]. injection Hr' as ->.
      rewrite Hrest. exists rest. by rewrite <-app_assoc.
    + assert (acc = batch_records batch) as ->; [|by eauto 10]. destruct rest as [|r' rest]; [by rewrite app_nil_r in Hrest|].
      assert (length (batch_records batch) = length (acc ++ r' :: rest)) as Hl by by rewrite Hrest.
      unfold batch_records in Hl. rewrite length_take, length_app in Hl. simpl in Hl. lia.
Qed.
End Preserved.

(** ** Progress

    What is left to do: the producer's steps for the messages it has not
    enqueued, the consumer's for those it has not processed. *)

Definition unit_records (w : WorkUnit) : Z := match w with BatchUnit records => Z.of_nat (length records) | _ => 0%Z end.

Definition cost (l : list WorkUnit) : Z := foldr (λ w, Z.add (6 + unit_records w)) 0%Z l.

Definition prod_left (pc : producer_pc) : Z :=
  match pc with
  | PNext => 0
  | PFill _ i records => 5 + (Z.of_nat (length records) - Z.of_nat i)
  | PTry _ => 4
  | PWrite _ => 3
  | PBump _ => 2
  | PAdd _ => 1
  end.

Definition cons_done (pc : consumer_pc) : Z :=
  match pc with
  | CIdle => 0
  | CRead => 1
  | CBump _ => 2
  | CSub _ => 3
  | CGot _ acc => 4 + Z.of_nat (length acc)
  end.

Definition work_left (msgs : list WorkUnit) (c : Channel) : Z :=
  cost (todo c) + prod_left (ch_ppc c) + cost msgs - cost (processed c) - cons_done (ch_cpc c).

(** The routine's next step is not a failed attempt. *)
Definition prod_enabled (c : Channel) : Prop :=
  match ch_ppc c with PNext => todo c ≠ [] | PTry _ => enq_full (ch_rb c) = false | _ => True end.

Definition cons_enabled (c : Channel) : Prop :=
  match ch_cpc c with CIdle => deq_empty (ch_rb c) = false | _ => True end.

Lemma cost_cons w l : cost (w :: l) = (6 + unit_records w + cost l)%Z.
Proof. done. Qed.

Lemma unit_records_nonneg w : (0 ≤ unit_records w)%Z.
Proof. destruct w; simpl; lia. Qed.

Lemma cost_app l l' : cost (l ++ l') = (cost l + cost l')%Z.
Proof. induction l as [|w l IH]; [done|]. cbn [app]. rewrite !cost_cons, IH. lia. Qed.

Lemma cost_nonneg l : (0 ≤ cost l)%Z.
Proof. induction l as [|w l IH]; [done|]. rewrite cost_cons. pose proof (unit_records_nonneg w). lia. Qed.

Section Progress.
Context (tys : list Kind) (cap : nat) (msgs : list WorkUnit).
Context (Hcap : 0 < cap) (Hi64 : is_i64 (Z.of_nat (cap + 2))).

Abbreviation inv c := (∃ R q K J, channel_inv cap msgs c R q K J).
Abbreviation left := (work_left msgs).

Lemma work_left_nonneg c : inv c → (0 ≤ left c)%Z.
Proof.
  intros (R & q & K & J & Hinv). unfold work_left. rewrite (ci_msgs _ _ _ _ _ _ _ Hinv), !cost_app.
  pose proof (ci_cons _ _ _ _ _ _ _ Hinv) as Hc. pose proof (ci_prod _ _ _ _ _ _ _ Hinv) as Hp.
  pose proof (cost_nonneg (todo c)). pose proof (cost_nonneg (prod_units (pool (ch_bp c)) (ch_ppc c))).
  pose proof (cost_nonneg (content (pool (ch_bp c)) <$> q)) as Hq.
  assert (Hpl : (0 ≤ prod_left (ch_ppc c))%Z).
  { destruct (ch_ppc c); simpl in *; try lia. destruct Hp as (? & _ & ? & _). lia. }
  assert (Hne : q ≠ [] → (6 ≤ cost (content (pool (ch_bp c)) <$> q))%Z).
  { destruct q as [|u q']; [done|]. intros _. rewrite fmap_cons, cost_cons.
    pose proof (cost_nonneg (content (pool (ch_bp c)) <$> q')). pose proof (unit_records_nonneg (content (pool (ch_bp c)) u)). lia. }
  destruct (ch_cpc c) as [| |u|u|u acc]; simpl in *; try lia; try (destruct q; [done|specialize (Hne ltac:(done)); lia]).
  destruct Hc as [_ Hc]. destruct u as [b|w]; simpl; [|subst; pose proof (unit_records_nonneg w); simpl; lia].
  destruct Hc as (batch & -> & Hpre%prefix_length). simpl. lia.
Qed.

(** Every step of the producer leaves the consumer's part alone; one that is not
    a failed attempt is progress. *)
Lemma producer_left c c' : inv c → producer tys c = Ok c' →
  ch_cpc c' = ch_cpc c ∧ (left c' ≤ left c)%Z ∧ (prod_enabled c → left c' < left c)%Z.
Proof.
  intros (R & q & K & J & Hinv). pose proof (ci_prod _ _ _ _ _ _ _ Hinv) as Hok.
  unfold producer, prod_enabled, work_left. destruct (ch_ppc c) as [|b i records|u|u|u|u] eqn:Hpc.
  - destruct (todo c) as [|w todo'] eqn:Htodo; [intros [= <-]; rewrite Hpc, Htodo; split_and!; [done|lia|done]|].
    destruct w as [records| | | | | | |];
      [intros ([b bp] & _ & (bp' & _ & [= <-])%bind_Ok_inv)%bind_Ok_inv|intros [= <-]..];
      cbn [todo processed ch_ppc ch_cpc ch_producer prod_left]; rewrite cost_cons; cbn [unit_records]; split_and!; lia || done.
  - destruct Hok as (batch & _ & Hi & _). destruct (records !! i).
    + intros (? & _ & (? & _ & (? & _ & [= <-])%bind_Ok_inv)%bind_Ok_inv)%bind_Ok_inv. simpl. split_and!; [done|lia..].
    + intros (? & _ & [= <-])%bind_Ok_inv. simpl. split_and!; [done|lia..].
  - intros [= <-]. simpl. destruct (enq_full (ch_rb c)); simpl; split_and!; [done|lia|done|done|lia..].
  - intros (? & _ & [= <-])%bind_Ok_inv. simpl. split_and!; [done|lia..].
  - intros [= <-]. simpl. split_and!; [done|lia..].
  - intros [= <-]. simpl. split_and!; [done|lia..].
Qed.

Lemma consumer_left c c' : inv c → consumer c = Ok c' →
  ch_ppc c' = ch_ppc c ∧ todo c' = todo c ∧ (left c' ≤ left c)%Z ∧ (cons_enabled c → left c' < left c)%Z.
Proof.
  intros (R & q & K & J & Hinv). pose proof (ci_cons _ _ _ _ _ _ _ Hinv) as Hok.
  unfold consumer, cons_enabled, work_left. destruct (ch_cpc c) as [| |u|u|u acc] eqn:Hpc.
  - intros [= <-]. simpl. destruct (deq_empty (ch_rb c)); simpl; split_and!; try done; lia.
  - intros (? & _ & [= <-])%bind_Ok_inv. simpl. split_and!; [done..|lia|lia].
  - intros [= <-]. simpl. split_and!; [done..|lia|lia].
  - intros [= <-]. simpl. split_and!; [done..|lia|lia].
  - destruct u as [b|w].
    + intros (batch & Hb & Hrun)%bind_Ok_inv. destruct (Nat.ltb_spec (length acc) (TotalNumRecords batch)).
      * apply bind_Ok_inv in Hrun as (r & _ & [= <-]). simpl. rewrite length_app. simpl. split_and!; [done..|lia|lia].
      * injection Hrun as <-. simpl. rewrite cost_app, cost_cons. simpl. split_and!; [done..|lia|lia].
    + intros [= <-]. destruct Hok as [_ ->]. simpl. rewrite cost_app, cost_cons. pose proof (unit_records_nonneg w).
      simpl. split_and!; [done..|lia|lia].
Qed.

(** A routine stays enabled while the other one runs. *)
Lemma cons_stays_enabled c c' : inv c → producer tys c = Ok c' → cons_enabled c → cons_enabled c'.
Proof.
  intros Hinv Hrun. destruct (producer_left c c' Hinv Hrun) as [Hcpc _]. unfold cons_enabled. rewrite Hcpc.
  destruct (ch_cpc c); try done. destruct Hinv as (R & q & K & J & Hinv).
  pose proof (ci_prod _ _ _ _ _ _ _ Hinv) as Hok. pose proof (ci_full _ _ _ _ _ _ _ Hinv).
  assert (count (ch_rb c') = count (ch_rb c) ∨ count (ch_rb c') = i64 (count (ch_rb c) + 1)) as Hcount.
  { unfold producer in Hrun. destruct (ch_ppc c) as [|b i records|u|u|u|u]; [|destruct (records !! i)|..].
    - destruct (todo c) as [|[] ?]; [by injection Hrun as <-; left| |by injection Hrun as <-; left..].
      apply bind_Ok_inv in Hrun as ([b bp] & _ & (bp' & _ & [= <-])%bind_Ok_inv). by left.
    - apply bind_Ok_inv in Hrun as (? & _ & (? & _ & (? & _ & [= <-])%bind_Ok_inv)%bind_Ok_inv). by left.
    - apply bind_Ok_inv in Hrun as (? & _ & [= <-]). by left.
    - injection Hrun as <-. by left.
    - apply bind_Ok_inv in Hrun as (? & (? & _ & [= <-])%bind_Ok_inv & [= <-]). by left.
    - injection Hrun as <-. by left.
    - injection Hrun as <-. by right. }
  unfold deq_empty. unfold is_i64 in Hi64. rewrite (ci_count _ _ _ _ _ _ _ Hinv) in *. intros Hc%Z.eqb_neq. apply Z.eqb_neq.
  rewrite i64_id in Hcount by (unfold is_i64; lia). lia.
Qed.

Lemma prod_stays_enabled c c' : inv c → consumer c = Ok c' → prod_enabled c → prod_enabled c'.
Proof.
  intros Hinv Hrun. destruct (consumer_left c c' Hinv Hrun) as (Hppc & Htodo & _). unfold prod_enabled. rewrite Hppc, Htodo.
  destruct (ch_ppc c); try done. destruct Hinv as (R & q & K & J & Hinv).
  pose proof (ci_cons _ _ _ _ _ _ _ Hinv) as Hok. pose proof (ci_full _ _ _ _ _ _ _ Hinv).
  assert (rb_capacity (ch_rb c') = rb_capacity (ch_rb c) ∧
    (count (ch_rb c') = count (ch_rb c) ∨ q ≠ [] ∧ count (ch_rb c') = i64 (count (ch_rb c) + -1))) as [Hcp Hcount].
  { unfold consumer in Hrun. destruct (ch_cpc c) as [| |u'|u'|[b|w] acc]; [|apply bind_Ok_inv in Hrun as (? & _ & Hrun)| | | |];
      [injection Hrun as <-; split; [done|by left]..| | |].
    - injection Hrun as <-. split; [done|right]. split; [|done]. by intros ->.
    - apply bind_Ok_inv in Hrun as (batch & _ & Hrun). destruct (length acc <? TotalNumRecords batch).
      + apply bind_Ok_inv in Hrun as (? & _ & [= <-]). split; [done|by left].
      + injection Hrun as <-. split; [done|by left].
    - injection Hrun as <-. split; [done|by left]. }
  unfold enq_full. unfold is_i64 in Hi64. rewrite Hcp. rewrite (ci_count _ _ _ _ _ _ _ Hinv), (ci_cap _ _ _ _ _ _ _ Hinv) in *.
  intros Hc%Z.eqb_neq. apply Z.eqb_neq. destruct Hcount as [->|[Hq ->]]; [done|]. destruct q; [done|]. simpl in *.
  rewrite i64_id by (unfold is_i64; lia). lia.
Qed.

(** As long as something is unprocessed, one of the routines is enabled. *)
Lemma some_enabled c : inv c → processed c = msgs ∨ prod_enabled c ∨ cons_enabled c.
Proof.
  intros (R & q & K & J & Hinv). pose proof (ci_msgs _ _ _ _ _ _ _ Hinv) as Hm.
  unfold prod_enabled, cons_enabled, enq_full, deq_empty. rewrite (ci_count _ _ _ _ _ _ _ Hinv), (ci_cap _ _ _ _ _ _ _ Hinv).
  destruct (ch_cpc c); try (by right; right). destruct q as [|u q]; [|by right; right].
  destruct (ch_ppc c); try (by right; left).
  - destruct (todo c); [|by right; left]. left. simpl in Hm. by rewrite app_nil_r in Hm.
  - right; left. apply Z.eqb_neq. simpl. lia.
Qed.

Lemma run_left c schedule : inv c →
  ∃ c', channel_run tys schedule c = Ok c' ∧ inv c' ∧ (left c' ≤ left c)%Z ∧
    (prod_enabled c → true ∈ schedule → left c' < left c)%Z ∧ (cons_enabled c → false ∈ schedule → left c' < left c)%Z.
Proof.
  revert c. induction schedule as [|p schedule IH]; intros c Hinv.
  { exists c. split_and!; [done|done|lia|by intros _ ?%elem_of_nil..]. }
  unfold channel_run. cbn [foldM]. destruct p.
  - destruct (producer_preserves tys cap msgs Hcap Hi64 c Hinv) as (c1 & Hrun & Hinv1). rewrite Hrun, bind_Ok.
    destruct (producer_left c c1 Hinv Hrun) as (_ & Hle & Hlt).
    destruct (IH c1 Hinv1) as (c' & Hrun' & Hinv' & Hle' & _ & Hlt'). exists c'. split_and!; [done|done|lia| |].
    + intros Hen _. specialize (Hlt Hen). lia.
    + intros Hen [?|Hin]%elem_of_cons; [done|]. specialize (Hlt' (cons_stays_enabled c c1 Hinv Hrun Hen) Hin). lia.
  - destruct (consumer_preserves cap msgs Hcap Hi64 c Hinv) as (c1 & Hrun & Hinv1). rewrite Hrun, bind_Ok.
    destruct (consumer_left c c1 Hinv Hrun) as (_ & _ & Hle & Hlt).
    destruct (IH c1 Hinv1) as (c' & Hrun' & Hinv' & Hle' & Hlt' & _). exists c'. split_and!; [done|done|lia| |].
    + intros Hen [?|Hin]%elem_of_cons; [done|]. specialize (Hlt' (prod_stays_enabled c c1 Hinv Hrun Hen) Hin). lia.
    + intros Hen _. specialize (Hlt Hen). lia.
Qed.

Lemma producer_processed c c' : producer tys c = Ok c' → processed c' = processed c.
Proof.
  unfold producer. intros Hrun. destruct (ch_ppc c) as [|b i records|u|u|u|u]; [|destruct (records !! i)|..];
    [destruct (todo c) as [|[] ?]|..]; repeat (apply bind_Ok_inv in Hrun as ([] & _ & Hrun)); by injection Hrun as <-.
Qed.

Lemma consumer_processed c c' : consumer c = Ok c' → processed c `prefix_of` processed c'.
Proof.
  unfold consumer. intros Hrun. destruct (ch_cpc c) as [| |u|u|[b|w] acc]; try (injection Hrun as <-; simpl; first [done|by eexists]).
  - apply bind_Ok_inv in Hrun as (u & _ & [= <-]). done.
  - apply bind_Ok_inv in Hrun as (batch & _ & Hrun). destruct (length acc <? TotalNumRecords batch).
    + apply bind_Ok_inv in Hrun as (r & _ & [= <-]). done.
    + injection Hrun as <-. by eexists.
Qed.

Lemma run_processed c c' schedule : channel_run tys schedule c = Ok c' → processed c `prefix_of` processed c'.
Proof.
  revert c. induction schedule as [|p schedule IH]; intros c; unfold channel_run; cbn [foldM]; [by intros [= <-]|].
  intros (c1 & Hc1 & Hrun)%bind_Ok_inv. specialize (IH c1 Hrun). destruct p; [by apply producer_processed in Hc1 as <-|].
  apply consumer_processed in Hc1. by etransitivity.
Qed.

Lemma processed_prefix c : inv c → processed c `prefix_of` msgs.
Proof. intros (R & q & K & J & Hinv). rewrite (ci_msgs _ _ _ _ _ _ _ Hinv). by eexists. Qed.

(** In a schedule of rounds in which both routines get a step, each round is
    progress. *)
Lemma rounds_complete c rounds :
  inv c → Forall (λ r, true ∈ r ∧ false ∈ r) rounds → (left c ≤ Z.of_nat (length rounds))%Z →
  ∃ c', channel_run tys (concat rounds) c = Ok c' ∧ inv c' ∧ processed c' = msgs.
Proof.
  intros Hinv Hr. revert c Hinv. induction Hr as [|r rounds [Ht Hf] Hr IH]; intros c Hinv Hle.
  - exists c. split_and!; [done..|]. destruct (some_enabled c Hinv) as [?|Hen]; [done|].
    destruct (run_left c [true; false] Hinv) as (c' & _ & Hinv' & _ & Hp & Hc). pose proof (work_left_nonneg c' Hinv').
    exfalso. simpl in Hle. destruct Hen as [Hen|Hen]; [specialize (Hp Hen ltac:(by left))|specialize (Hc Hen ltac:(right; by left))]; lia.
  - cbn [concat]. unfold channel_run. rewrite foldM_app. destruct (run_left c r Hinv) as (c1 & Hrun & Hinv1 & Hle1 & Hp & Hc).
    unfold channel_run in Hrun. rewrite Hrun, bind_Ok. destruct (some_enabled c Hinv) as [Hdone|Hen].
    + destruct (run_left c1 (concat rounds) Hinv1) as (c' & Hrun' & Hinv' & _). exists c'. split_and!; [done..|].
      apply run_processed in Hrun, Hrun'. rewrite Hdone in Hrun. pose proof (processed_prefix c' Hinv') as Hpre.
      apply (anti_symm prefix); [done|]. by etransitivity.
    + apply IH; [done|]. simpl in Hle. destruct Hen as [Hen|Hen]; [specialize (Hp Hen Ht)|specialize (Hc Hen Hf)]; lia.
Qed.
End Progress.

Lemma new_channel_inv tys cap n msgs : 0 < cap → channel_inv cap msgs (NewChannel tys cap n msgs) 0 [] 0 0.
Proof.
  intros Hcap. split; simpl; rewrite ?length_replicate, ?Nat.Div0.mod_0_l; try done; [lia|].
  apply Forall_replicate. simpl. by rewrite length_replicate.
Qed.

(** C23: a channel delivers its messages in order and unharmed, without a lock.
    The network routine and the task run interleaved in any way on the ring
    buffer and the pool of [BufferSize + 2] batches.  Neither ever panics.  What
    the task has processed is at any time the beginning of what was sent, what
    has not arrived is its end, and at most [BufferSize + 2] messages are in
    between.  A batch the task is reading is the next message: the records read
    so far are its first ones, although the routine fills other batches of the
    pool meanwhile. *)
Theorem channel_delivers (tys : list Kind) (BufferSize batchInitCapacity : nat) (msgs : list WorkUnit) (schedule : list bool)
    (Hsize : 0 < BufferSize) (Hi64 : is_i64 (Z.of_nat (BufferSize + 2))) :
  ∃ c, channel_run tys schedule (NewChannel tys BufferSize batchInitCapacity msgs) = Ok c ∧
    (∃ between, msgs = processed c ++ between ++ todo c ∧ length between ≤ BufferSize + 2) ∧
    (∀ b acc, ch_cpc c = CGot (RBatch b) acc →
       ∃ records, msgs !! length (processed c) = Some (BatchUnit records) ∧ acc `prefix_of` records).
Proof.
  destruct (run_left tys BufferSize msgs Hsize Hi64 (NewChannel tys BufferSize batchInitCapacity msgs) schedule)
    as (c & Hrun & (R & q & K & J & Hinv) & _); [by eauto 10 using new_channel_inv|].
  exists c. split; [done|]. pose proof (ci_msgs _ _ _ _ _ _ _ Hinv) as Hm. pose proof (ci_full _ _ _ _ _ _ _ Hinv) as Hf. split.
  - eexists. split; [rewrite Hm at 1; by rewrite !(app_assoc _ _ (todo c))|]. rewrite !length_app, !length_fmap.
    assert (length (cons_ref (ch_cpc c)) ≤ 1) by (destruct (ch_cpc c); simpl; lia).
    assert (length (prod_units (pool (ch_bp c)) (ch_ppc c)) ≤ 1) by (destruct (ch_ppc c); simpl; lia). lia.
  - intros b acc Hpc. pose proof (ci_cons _ _ _ _ _ _ _ Hinv) as Hok. rewrite Hpc in Hok, Hm.
    destruct Hok as [_ (batch & Hb & Hpre)]. exists (batch_records batch). split; [|done].
    rewrite Hm, lookup_app_r, Nat.sub_diag by done. simpl. by rewrite Hb.
Qed.

(** A channel delivers everything.  However the two routines are scheduled,
    once both have had a turn often enough (twice the number of messages times
    six plus the number of records), the task has processed all messages. *)
Theorem channel_completes (tys : list Kind) (BufferSize batchInitCapacity : nat) (msgs : list WorkUnit) (rounds : list (list bool))
    (Hsize : 0 < BufferSize) (Hi64 : is_i64 (Z.of_nat (BufferSize + 2)))
    (Hrounds : Forall (λ r, true ∈ r ∧ false ∈ r) rounds) (Hmany : (2 * cost msgs ≤ Z.of_nat (length rounds))%Z) :
  ∃ c, channel_run tys (concat rounds) (NewChannel tys BufferSize batchInitCapacity msgs) = Ok c ∧ processed c = msgs.
Proof.
  destruct (rounds_complete tys BufferSize msgs Hsize Hi64 (NewChannel tys BufferSize batchInitCapacity msgs) rounds)
    as (c & Hrun & _ & Hdone); [by eauto 10 using new_channel_inv|done| |by eauto].
  unfold work_left. simpl. lia.
Qed.

(** ** A buffer of one, two batches and a watermark *)

Definition demo_messages : list WorkUnit :=
  [BatchUnit [MkTuple [FNum KInt64 1] 5; MkTuple [FNum KInt64 2] 6]; WatermarkUnit 6; BatchUnit [MkTuple [FNum KInt64 3] 7]].

Lemma channel_delivers_witness :
  ∃ c, channel_run [KInt64] (replicate 9 true ++ [false; false; true; false; true; false; false]) (NewChannel [KInt64] 1 1 demo_messages) = Ok c ∧
    ch_cpc c = CGot (RBatch 0) [MkTuple [FNum KInt64 1] 5] ∧ ∃ between, demo_messages = processed c ++ between ++ todo c.
Proof.
  destruct (channel_delivers [KInt64] 1 1 demo_messages (replicate 9 true ++ [false; false; true; false; true; false; false]))
    as (c & Hrun & (between & Hm & _) & _).
  - lia.
  - unfold is_i64. lia.
  - exists c. split; [exact Hrun|]. split; [|by exists between]. vm_compute in Hrun. by injection Hrun as <-.
Defined.

Lemma channel_completes_witness :
  ∃ c, channel_run [KInt64] (concat (replicate 42 [true; false])) (NewChannel [KInt64] 1 1 demo_messages) = Ok c ∧ processed c = demo_messages.
Proof.
  apply (channel_completes [KInt64] 1 1 demo_messages (replicate 42 [true; false])).
  - lia.
  - unfold is_i64. lia.
  - apply Forall_replicate. split; [by left|right; by left].
  - vm_compute. done.
Defined.
