(* ===== verification/Supplier.v ===== *)
(** * Suppliers: the input side of a task

    [internal/supplier]: a supplier has one sub-supplier per upstream operator
    and each of these one channel per upstream task.  Work units are read round
    robin; watermarks, drain barriers, in-flight barriers and terminations are
    handled inside the supplier and handed to the task when they are complete.
    A channel is what its connection still delivers and what has arrived in its
    input buffer, in order ([RingBuffer.v]). *)

From stdpp Require Import prelude gmap strings list.
From Stdlib Require Import ZArith Lia.
From S2P Require Import Prelude Codec WorkUnit KeyMap.

(** ** Channels and sub-suppliers *)

Record Upstream := NewUpstream {
  UpstreamWorkerId : Z;
  Connection : list WorkUnit;
  InputBuffer : list WorkUnit;
  up_WM : Z
}.

Definition ReadFromBufferNonblock (u : Upstream) : option (WorkUnit * Upstream) :=
  match InputBuffer u with
  | [] => None
  | w :: buf => Some (w, NewUpstream (UpstreamWorkerId u) (Connection u) buf (up_WM u))
  end.

(** The network routine has received the next unit. *)
Definition arrive (u : Upstream) : Upstream :=
  match Connection u with
  | [] => u
  | w :: conn => NewUpstream (UpstreamWorkerId u) conn (InputBuffer u ++ [w]) (up_WM u)
  end.

Record SubSupplier := MkSub {
  ss_OperatorName : string;
  Upstreams : list Upstream;
  IsShuttingDown : bool;
  IsWarmUpRun : bool;
  NextUpstreamIdx : Z
}.

Definition NewSubSupplier (operatorName : string) : SubSupplier := MkSub operatorName [] false false (-1).

Definition ss_set (ss : SubSupplier) (us : list Upstream) (i : Z) : SubSupplier :=
  MkSub (ss_OperatorName ss) us (IsShuttingDown ss) (IsWarmUpRun ss) i.

Definition AddUpstream (ss : SubSupplier) (conn : list WorkUnit) (upstreamWorkerId : Z) : SubSupplier :=
  ss_set ss (Upstreams ss ++ [NewUpstream upstreamWorkerId conn [] (-1)]) (NextUpstreamIdx ss).

Definition GetNumUpstreams (ss : SubSupplier) : Z := Z.of_nat (length (Upstreams ss)).

(** The minimum of the channels' watermarks; unset if one is. *)
Fixpoint min_wm (curMinWM : Z) (us : list Upstream) : option Z :=
  match us with
  | [] => Some curMinWM
  | u :: us => if wm_Unset (up_WM u) then None else min_wm (wm_SetMin curMinWM (up_WM u)) us
  end.

Definition GetSubSupplierWM (ss : SubSupplier) : option Z :=
  if length (Upstreams ss) =? 0 then None else min_wm MaxInt64 (Upstreams ss).

Definition incrementNextUpstreamIdx (ss : SubSupplier) : res (SubSupplier * Upstream) :=
  let i := (NextUpstreamIdx ss + 1)%Z in
  let i := if (Z.of_nat (length (Upstreams ss)) <=? i)%Z then 0%Z else i in
  u ← idxZ (Upstreams ss) i;
  Ok (ss_set ss (Upstreams ss) i, u).

(** [n] more turns of the loop over the channels. *)
Fixpoint scan_upstreams (n : nat) (ss : SubSupplier) : res (SubSupplier * option WorkUnit) :=
  match n with
  | O => Ok (ss, None)
  | S n =>
      '(ss, u) ← incrementNextUpstreamIdx ss;
      match ReadFromBufferNonblock u with
      | Some (w, u') =>
          us ← set_idxZ (Upstreams ss) (NextUpstreamIdx ss) u';
          Ok (ss_set ss us (NextUpstreamIdx ss), Some w)
      | None => scan_upstreams n ss
      end
  end.

Definition ss_GetWorkUnit (ss : SubSupplier) : res (SubSupplier * option WorkUnit) :=
  if length (Upstreams ss) =? 0 then Ok (ss, None) else scan_upstreams (length (Upstreams ss)) ss.

Definition UpdateWatermark (ss : SubSupplier) (watermark : Z) : res SubSupplier :=
  u ← idxZ (Upstreams ss) (NextUpstreamIdx ss);
  wm ← wm_Update (up_WM u) watermark;
  us ← set_idxZ (Upstreams ss) (NextUpstreamIdx ss)
         (NewUpstream (UpstreamWorkerId u) (Connection u) (InputBuffer u) wm);
  Ok (ss_set ss us (NextUpstreamIdx ss)).

(** The rest of the list slides to the left; the pointer moves to the previous
    channel. *)
Definition RemoveUpstream (ss : SubSupplier) : res SubSupplier :=
  let i := NextUpstreamIdx ss in
  let n := Z.of_nat (length (Upstreams ss)) in
  fatal_if ((i <? 0) || (n <=? i))%Z "RemoveUpstream: invalid index";;
  fatal_if ((n <? 2)%Z && negb (IsShuttingDown ss) && negb (IsWarmUpRun ss))
    "RemoveUpstream: shouldn't remove the last upstream";;
  Ok (ss_set ss (delete (Z.to_nat i) (Upstreams ss))
        (if (i =? 0)%Z then n - 2 else i - 1)%Z).

Definition ss_NotifyShuttingDown (ss : SubSupplier) : SubSupplier :=
  MkSub (ss_OperatorName ss) (Upstreams ss) true (IsWarmUpRun ss) (NextUpstreamIdx ss).

Definition ss_NotifyIsWarmUpRun (ss : SubSupplier) : SubSupplier :=
  MkSub (ss_OperatorName ss) (Upstreams ss) (IsShuttingDown ss) true (NextUpstreamIdx ss).

(** [RoundRobinSubSupplier.Setup] *)
Definition ss_Setup (ss : SubSupplier) : SubSupplier := ss_set ss [] (-1).

(** ** The supplier *)

(** What is tracked of a lazy reconfiguration.  The two flags are sync flags;
    [PeerChannelSyncMap] maps the worker of a primary peer channel to whether
    it has been unblocked. *)
Record Reconfig := MkReconfig {
  InflightBarrierCounter : Z;
  ExpectedInflightBarriers : Z;
  InboundPeerCounter : Z;
  ExpectedInboundPeers : Z;
  AllInboundPeersConnected : bool;
  ReconfigTerminated : bool;
  PeerChannelSyncMap : gmap Z bool
}.

Record Supplier := MkSupplier {
  sp_ByKey : bool;
  SubSuppliers : gmap string SubSupplier;
  ExpectedNumSubSuppliers : nat;
  TaskWatermark : Z;
  ExpectNumUpstream : Z;
  TaskDeploymentPhasePassed : bool;
  DrainBarrierCounter : Z;
  reconfig : Reconfig;
  NextSubSupplierIdx : Z;
  SubSupplierList : list string
}.

Definition sp_set_subs (s : Supplier) (subs : gmap string SubSupplier) : Supplier :=
  MkSupplier (sp_ByKey s) subs (ExpectedNumSubSuppliers s) (TaskWatermark s) (ExpectNumUpstream s)
    (TaskDeploymentPhasePassed s) (DrainBarrierCounter s) (reconfig s) (NextSubSupplierIdx s) (SubSupplierList s).

Definition sp_set_wm (s : Supplier) (wm : Z) : Supplier :=
  MkSupplier (sp_ByKey s) (SubSuppliers s) (ExpectedNumSubSuppliers s) wm (ExpectNumUpstream s)
    (TaskDeploymentPhasePassed s) (DrainBarrierCounter s) (reconfig s) (NextSubSupplierIdx s) (SubSupplierList s).

Definition sp_set_deployed (s : Supplier) (b : bool) : Supplier :=
  MkSupplier (sp_ByKey s) (SubSuppliers s) (ExpectedNumSubSuppliers s) (TaskWatermark s) (ExpectNumUpstream s)
    b (DrainBarrierCounter s) (reconfig s) (NextSubSupplierIdx s) (SubSupplierList s).

Definition sp_set_drain (s : Supplier) (n : Z) : Supplier :=
  MkSupplier (sp_ByKey s) (SubSuppliers s) (ExpectedNumSubSuppliers s) (TaskWatermark s) (ExpectNumUpstream s)
    (TaskDeploymentPhasePassed s) n (reconfig s) (NextSubSupplierIdx s) (SubSupplierList s).

Definition sp_set_reconfig (s : Supplier) (r : Reconfig) : Supplier :=
  MkSupplier (sp_ByKey s) (SubSuppliers s) (ExpectedNumSubSuppliers s) (TaskWatermark s) (ExpectNumUpstream s)
    (TaskDeploymentPhasePassed s) (DrainBarrierCounter s) r (NextSubSupplierIdx s) (SubSupplierList s).

Definition sp_set_next (s : Supplier) (i : Z) : Supplier :=
  MkSupplier (sp_ByKey s) (SubSuppliers s) (ExpectedNumSubSuppliers s) (TaskWatermark s) (ExpectNumUpstream s)
    (TaskDeploymentPhasePassed s) (DrainBarrierCounter s) (reconfig s) i (SubSupplierList s).

Definition NewReconfig : Reconfig := MkReconfig 0 (-1) 0 (-1) false false ∅.

Definition NewSupplier (byKey : bool) (expectedNumSubSuppliers : nat) : Supplier :=
  MkSupplier byKey ∅ expectedNumSubSuppliers (-1) 0 false 0 NewReconfig 0 [].

Definition AddSubSupplier (s : Supplier) (subSupplier : SubSupplier) : res Supplier :=
  fatal_if (ExpectedNumSubSuppliers s <=? size (SubSuppliers s)) "cannot add more SubSuppliers than expected";;
  fatal_if (bool_decide (is_Some (SubSuppliers s !! ss_OperatorName subSupplier))) "SubSupplier already exists";;
  Ok (sp_set_subs s (<[ss_OperatorName subSupplier := subSupplier]> (SubSuppliers s))).

(** A method call on a sub-supplier that is not in the map. *)
Definition get_sub (s : Supplier) (name : string) : res SubSupplier :=
  match SubSuppliers s !! name with Some ss => Ok ss | None => Crash Panic end.

Definition put_sub (s : Supplier) (name : string) (ss : SubSupplier) : Supplier :=
  sp_set_subs s (<[name := ss]> (SubSuppliers s)).

Section Supplier.
Context `{GoRange}.

(** Both setups: that of the base and that of the round-robin supplier. *)
Definition sp_Setup (s : Supplier) (expectNumUpstream : Z) (isWarmup : bool) : res Supplier :=
  fatal_if (size (SubSuppliers s) =? 0) "SubSuppliers cannot be empty.";;
  fatal_if (negb (size (SubSuppliers s) =? ExpectedNumSubSuppliers s)) "unexpected number of SubSuppliers";;
  let subs := (λ ss, let ss := ss_Setup ss in if isWarmup then ss_NotifyIsWarmUpRun ss else ss) <$> SubSuppliers s in
  Ok (MkSupplier (sp_ByKey s) subs (ExpectedNumSubSuppliers s) (-1) expectNumUpstream
        (TaskDeploymentPhasePassed s) (DrainBarrierCounter s) (reconfig s) (-1)
        (ss_OperatorName <$> (go_range subs).*2)).

Definition getNumUpstreams (s : Supplier) : Z :=
  foldl (λ total x, (total + GetNumUpstreams x.2)%Z) 0%Z (go_range (SubSuppliers s)).

Definition handleDrainBarrier (s : Supplier) : res (Supplier * bool) :=
  let n := (DrainBarrierCounter s + 1)%Z in
  let total := getNumUpstreams s in
  if (n =? total)%Z then Ok (sp_set_drain s 0, true)
  else
    fatal_if (total <? n)%Z "DrainBarrierCounter > Total number of upstreams";;
    Ok (sp_set_drain s n, false).

Definition handleInflightBarrier (s : Supplier) : res (Supplier * bool) :=
  let r := reconfig s in
  fatal_if (ExpectedInflightBarriers r <=? 0)%Z "unexpected InflightBarrier received";;
  let n := (InflightBarrierCounter r + 1)%Z in
  if (n =? ExpectedInflightBarriers r)%Z then
    Ok (sp_set_reconfig s (MkReconfig 0 (-1) (InboundPeerCounter r) (ExpectedInboundPeers r) (AllInboundPeersConnected r)
          (if (ExpectedInboundPeers r =? -1)%Z then true else ReconfigTerminated r) (PeerChannelSyncMap r)), true)
  else
    Ok (sp_set_reconfig s (MkReconfig n (ExpectedInflightBarriers r) (InboundPeerCounter r) (ExpectedInboundPeers r)
          (AllInboundPeersConnected r) (ReconfigTerminated r) (PeerChannelSyncMap r)), false).

Fixpoint min_sub_wm (curMinWM : Z) (subs : list (string * SubSupplier)) : option Z :=
  match subs with
  | [] => Some curMinWM
  | (_, ss) :: subs =>
      match GetSubSupplierWM ss with
      | None => None
      | Some wm => min_sub_wm (wm_SetMin curMinWM wm) subs
      end
  end.

Definition checkTaskWatermarkProgress (s : Supplier) : res (Supplier * option Z) :=
  match min_sub_wm MaxInt64 (go_range (SubSuppliers s)) with
  | None => Ok (s, None)
  | Some curMinWM =>
      if wm_LargerThan curMinWM (TaskWatermark s) then
        wm ← wm_Update (TaskWatermark s) curMinWM;
        Ok (sp_set_wm s wm, Some curMinWM)
      else Ok (s, None)
  end.

Definition handleWatermark (s : Supplier) (wm : Z) (name : string) : res (Supplier * option Z) :=
  ss ← get_sub s name;
  ss ← UpdateWatermark ss wm;
  let s := put_sub s name ss in
  if negb (TaskDeploymentPhasePassed s) then Ok (s, None) else checkTaskWatermarkProgress s.

(** The accounting for a closed peer channel. *)
Definition peer_closed (s : Supplier) : res Supplier :=
  let r := reconfig s in
  fatal_if (negb (ExpectedInboundPeers r =? -2)%Z) "RemoveUpstream: unexpected inbound peer termination";;
  let n := (InboundPeerCounter r - 1)%Z in
  Ok (sp_set_reconfig s
    (if (n =? 0)%Z then
       MkReconfig (InflightBarrierCounter r) (ExpectedInflightBarriers r) n (-1) (AllInboundPeersConnected r)
         (if (ExpectedInflightBarriers r =? -1)%Z then true else ReconfigTerminated r) (PeerChannelSyncMap r)
     else
       MkReconfig (InflightBarrierCounter r) (ExpectedInflightBarriers r) n (ExpectedInboundPeers r)
         (AllInboundPeersConnected r) (ReconfigTerminated r) (PeerChannelSyncMap r))).

Definition handleTermination (s : Supplier) (name : string) (isPeer : bool) : res (Supplier * option Z) :=
  fatal_if (negb (TaskDeploymentPhasePassed s))
    "RemoveUpstream: shouldn't remove an upstream while TaskDeploymentPhase is not passed";;
  ss ← get_sub s name;
  ss ← RemoveUpstream ss;
  let s := put_sub s name ss in
  if isPeer then s ← peer_closed s; checkTaskWatermarkProgress s
  else Ok (s, None).

(** The work unit to hand to the task, if any. *)
Definition preprocessWorkUnit (s : Supplier) (workUnit : WorkUnit) (name : string) : res (Supplier * option WorkUnit) :=
  match workUnit with
  | BatchUnit _ => Ok (s, Some workUnit)
  | DrainBarrier =>
      '(s', aligned) ← handleDrainBarrier s; Ok (s', if (aligned : bool) then Some workUnit else None)
  | WatermarkUnit ts =>
      '(s', wm) ← handleWatermark s ts name; Ok (s', option_map WatermarkUnit wm)
  | InflightBarrier =>
      '(s', aligned) ← handleInflightBarrier s; Ok (s', if (aligned : bool) then Some workUnit else None)
  | TerminationSignal isPeer =>
      '(s', wm) ← handleTermination s name isPeer; Ok (s', option_map WatermarkUnit wm)
  | FastForwardMetadata _ => Ok (s, Some workUnit)
  | CheckpointBarrier => Crash (Fatal "CheckpointBarrierWorkUnit not implemented")
  | MigratingKeyMap _ => Crash (Fatal "Unknown WorkUnit type")
  end.

Definition incrementNextSubSupplierIdx (s : Supplier) : res (Supplier * string) :=
  let i := (NextSubSupplierIdx s + 1)%Z in
  let i := if (Z.of_nat (size (SubSuppliers s)) <=? i)%Z then 0%Z else i in
  name ← idxZ (SubSupplierList s) i;
  Ok (sp_set_next s i, name).

(** One turn of the loop of [GetWorkUnit].  The loop returns the first unit
    that is to be handed to the task; between turns the lock is free and units
    arrive. *)
Definition get_turn (s : Supplier) : res (Supplier * option (WorkUnit * string)) :=
  '(s, name) ← incrementNextSubSupplierIdx s;
  ss ← get_sub s name;
  '(ss, next) ← ss_GetWorkUnit ss;
  let s := put_sub s name ss in
  match next with
  | None => Ok (s, None)
  | Some workUnit =>
      '(s, ret) ← preprocessWorkUnit s workUnit name;
      Ok (s, option_map (λ w, (w, name)) ret)
  end.

(** ** Lazy reconfiguration *)

Definition sp_InitLazyReconfig (s : Supplier) (expectedDrainBarriers expectedInboundPeers : Z) : res Supplier :=
  let r := reconfig s in
  fatal_if (negb (ExpectedInflightBarriers r =? -1)%Z || negb (ExpectedInboundPeers r =? -1)%Z)
    "InitLazyReconfig: lazy reconfiguration metadata not clean";;
  fatal_if (expectedDrainBarriers <=? 0)%Z "InitLazyReconfig: expectedDrainBarriers should be > 0";;
  Ok (sp_set_reconfig s (MkReconfig (InflightBarrierCounter r) expectedDrainBarriers (InboundPeerCounter r) expectedInboundPeers
        (AllInboundPeersConnected r) (ReconfigTerminated r) (PeerChannelSyncMap r))).

(** Waiting on a sync flag, then resetting it. *)
Definition sp_WaitAllInboundPeersToConnect (s : Supplier) : res Supplier :=
  let r := reconfig s in
  if AllInboundPeersConnected r then
    Ok (sp_set_reconfig s (MkReconfig (InflightBarrierCounter r) (ExpectedInflightBarriers r) (InboundPeerCounter r)
          (ExpectedInboundPeers r) false (ReconfigTerminated r) (PeerChannelSyncMap r)))
  else Crash Blocked.

Definition WaitTasksReconfigDone (s : Supplier) : res Supplier :=
  let r := reconfig s in
  if ReconfigTerminated r then
    Ok (sp_set_reconfig s (MkReconfig (InflightBarrierCounter r) (ExpectedInflightBarriers r) (InboundPeerCounter r)
          (ExpectedInboundPeers r) (AllInboundPeersConnected r) false (PeerChannelSyncMap r)))
  else Crash Blocked.

Definition sp_NotifyShuttingDown (s : Supplier) : Supplier :=
  sp_set_subs s (ss_NotifyShuttingDown <$> SubSuppliers s).

Definition rc_set_sync (r : Reconfig) (m : gmap Z bool) : Reconfig :=
  MkReconfig (InflightBarrierCounter r) (ExpectedInflightBarriers r) (InboundPeerCounter r) (ExpectedInboundPeers r)
    (AllInboundPeersConnected r) (ReconfigTerminated r) m.

Definition UnblockSecondaryPeerChannel (s : Supplier) (upstreamWorkerID : Z) : Supplier :=
  sp_set_reconfig s (rc_set_sync (reconfig s) (<[upstreamWorkerID := true]> (PeerChannelSyncMap (reconfig s)))).

(** Registering to wait, and whether the wait is over. *)
Definition WaitPrimaryPeerChannel (s : Supplier) (upstreamWorkerID : Z) : Supplier * bool :=
  match PeerChannelSyncMap (reconfig s) !! upstreamWorkerID with
  | Some b => (s, b)
  | None => (sp_set_reconfig s (rc_set_sync (reconfig s) (<[upstreamWorkerID := false]> (PeerChannelSyncMap (reconfig s)))), false)
  end.

Definition ValidateAndResetPeerChannelSyncMap (r : Reconfig) (channelType : Z) (numExpectedInboundPeers : Z) : res Reconfig :=
  fatal_if ((channelType =? 1)%Z && negb (size (PeerChannelSyncMap r) =? 0))
    "PeerChannelSyncMap should be empty for single-upstream operator";;
  if ((channelType =? 2) || (channelType =? 3))%Z then
    fatal_if (negb (Z.rem numExpectedInboundPeers 2 =? 0)%Z) "number of expected inbound peers should be even";;
    fatal_if (negb (Z.of_nat (size (PeerChannelSyncMap r)) =? Z.quot numExpectedInboundPeers 2)%Z)
      "PeerChannelSyncMap size not equal to expected size";;
    Ok (rc_set_sync r ∅)
  else Ok r.

(** A new connection, with the metadata it starts with. *)
Record Conn := MkConn {
  cn_Name : string;
  channelType : Z;
  cn_WorkerID : Z;
  cn_Units : list WorkUnit
}.

(** The counters for a new peer. *)
Definition count_peer (s : Supplier) (channelType : Z) : res Supplier :=
  let r := reconfig s in
  fatal_if (ExpectedInboundPeers r <=? 0)%Z "InitNewUpstream: unexpected inbound peer connection";;
  let n := (InboundPeerCounter r + 1)%Z in
  let r' := MkReconfig (InflightBarrierCounter r) (ExpectedInflightBarriers r) n (ExpectedInboundPeers r)
              (AllInboundPeersConnected r) (ReconfigTerminated r) (PeerChannelSyncMap r) in
  if (n =? ExpectedInboundPeers r)%Z then
    r' ← (if sp_ByKey s then ValidateAndResetPeerChannelSyncMap r' channelType (ExpectedInboundPeers r) else Ok r');
    Ok (sp_set_reconfig s (MkReconfig (InflightBarrierCounter r') (ExpectedInflightBarriers r') n (-2) true
          (ReconfigTerminated r') (PeerChannelSyncMap r')))
  else Ok (sp_set_reconfig s r').

(** [InitNewUpstream] from the lock on. *)
Definition add_connection (s : Supplier) (c : Conn) : res Supplier :=
  match SubSuppliers s !! cn_Name c with
  | None => Crash (Fatal "New upstream connection is not expected")
  | Some ss =>
      let s := put_sub s (cn_Name c) (AddUpstream ss (cn_Units c) (cn_WorkerID c)) in
      let s := if (getNumUpstreams s =? ExpectNumUpstream s)%Z then sp_set_deployed s true else s in
      if (channelType c =? 0)%Z then Ok s else count_peer s (channelType c)
  end.

(** [InitNewUpstream] before the lock: the key maps of a primary peer channel
    go into the key lookup table.  The result is [None] while a secondary
    channel waits for its primary. *)
Definition connection_setup `{Schedule} (s : Supplier) (table : KeyLookupTableV2) (localWorkerId : Z) (c : Conn)
    : res (Supplier * KeyLookupTableV2 * option Conn) :=
  match SubSuppliers s !! cn_Name c with
  | None => Crash (Fatal "New upstream connection is not expected")
  | Some _ =>
      if ((channelType c =? 1) || (channelType c =? 2))%Z && sp_ByKey s then
        match cn_Units c with
        | MigratingKeyMap keyMap :: units =>
            fatal_if (length keyMap - 6 <=? 4) "Invalid migratingKeyMap work unit length";;
            table ← DeserializeMigratingKeyMaps table (drop 6 keyMap) localWorkerId;
            Ok (if (channelType c =? 2)%Z then UnblockSecondaryPeerChannel s (cn_WorkerID c) else s, table,
                Some (MkConn (cn_Name c) (channelType c) (cn_WorkerID c) units))
        | _ => Crash (Fatal "Expected MigratingKeyMap work unit at the beginning of primary peer channel")
        end
      else if (channelType c =? 3)%Z && sp_ByKey s then
        let '(s, ready) := WaitPrimaryPeerChannel s (cn_WorkerID c) in
        Ok (s, table, if (ready : bool) then Some c else None)
      else Ok (s, table, Some c)
  end.
End Supplier.
