(* ===== verification/SupplierTime.v ===== *)
(** * Suppliers: watermarks and time

    The channels of a task are merged: whatever the order in which units arrive
    and are read, the task is given no record older than its watermark. *)

From stdpp Require Import prelude gmap strings list.
From Stdlib Require Import ZArith Lia.
From S2P Require Import Prelude Codec WorkUnit WindowRun KeyMap Supplier.

(** ** Runs *)

(** A unit arrives on a channel, or the task's routine takes a turn. *)
Inductive sp_event := Arrives (name : string) (i : nat) | Turn.

Definition sp_arrive (s : Supplier) (name : string) (i : nat) : Supplier :=
  match SubSuppliers s !! name with
  | None => s
  | Some ss => put_sub s name (ss_set ss (alter arrive i (Upstreams ss)) (NextUpstreamIdx ss))
  end.

Definition sp_step `{GoRange} (s : Supplier) (e : sp_event) : res (Supplier * list WorkUnit) :=
  match e with
  | Arrives name i => Ok (sp_arrive s name i, [])
  | Turn => '(s', out) ← get_turn s; Ok (s', match out with Some (w, _) => [w] | None => [] end)
  end.

(** The units the task is given. *)
Definition sp_run `{GoRange} (s : Supplier) (events : list sp_event) : res (Supplier * list WorkUnit) :=
  foldM (λ st e, '(s', out) ← sp_step st.1 e; Ok (s', st.2 ++ out)) (s, []) events.

(** What a task sees of them as records and watermarks. *)
Definition time_event (w : WorkUnit) : list event :=
  match w with
  | BatchUnit records => [EBatch records]
  | WatermarkUnit ts => [EWatermark ts]
  | _ => []
  end.

Abbreviation time_events l := (l ≫= time_event).

(** ** Channels

    [T] is the task's watermark and [wm] the channel's: records are not older
    than both, watermarks increase. *)
Fixpoint chan_ok (T wm : Z) (l : list WorkUnit) : Prop :=
  match l with
  | [] => True
  | BatchUnit records :: l => Forall (λ r, Z.max T wm ≤ timestamp r)%Z records ∧ chan_ok T wm l
  | WatermarkUnit ts :: l => (wm < ts)%Z ∧ chan_ok T ts l
  | (DrainBarrier | InflightBarrier | FastForwardMetadata _) :: l => chan_ok T wm l
  | TerminationSignal _ :: l => l = []
  | (CheckpointBarrier | MigratingKeyMap _) :: _ => False
  end.

Definition up_units (u : Upstream) : list WorkUnit := InputBuffer u ++ Connection u.

Definition sub_ok (T : Z) (ss : SubSupplier) : Prop :=
  Forall (λ u, chan_ok T (up_WM u) (up_units u)) (Upstreams ss).

Definition sup_ok (s : Supplier) : Prop :=
  ∀ name ss, SubSuppliers s !! name = Some ss → sub_ok (TaskWatermark s) ss.

Lemma chan_ok_weaken T T' wm l : (T' ≤ wm)%Z → chan_ok T wm l → chan_ok T' wm l.
Proof.
  revert wm. induction l as [|[] l IH]; intros wm Hle; simpl; try done; try by apply IH.
  - intros [Hr Hl]. split; [|by apply IH]. eapply Forall_impl; [exact Hr|]. simpl. lia.
  - intros [Hlt Hl]. split; [done|]. apply IH; [lia|done].
Qed.

Lemma chan_ok_lower T wm wm' l : (wm' ≤ wm)%Z → chan_ok T wm l → chan_ok T wm' l.
Proof.
  revert wm wm'. induction l as [|[] l IH]; intros wm wm' Hle; simpl; try done; try by apply IH.
  - intros [Hr Hl]. split; [|by eapply IH]. eapply Forall_impl; [exact Hr|]. simpl. lia.
  - intros [Hlt Hl]. split; [lia|done].
Qed.

Lemma chan_ok_tail T wm w l : chan_ok T wm (w :: l) → chan_ok T wm l.
Proof.
  destruct w; simpl; try done; [by intros [_ ?]| |by intros ->]. intros [Hlt Hl]. eapply chan_ok_lower; [|exact Hl]. lia.
Qed.

Lemma up_units_arrive u : up_units (arrive u) = up_units u.
Proof. destruct u as [? [|w conn] buf ?]; unfold up_units; simpl; [done|]. by rewrite <-app_assoc. Qed.

Lemma up_WM_arrive u : up_WM (arrive u) = up_WM u.
Proof. by destruct u as [? [|w conn] buf ?]. Qed.

(** ** Reading a channel *)

(** The sub-supplier has read [w] from the channel its pointer is at. *)
Definition has_read (ss ss' : SubSupplier) (w : WorkUnit) : Prop :=
  ∃ i u u', NextUpstreamIdx ss' = Z.of_nat i ∧ Upstreams ss !! i = Some u ∧
    ReadFromBufferNonblock u = Some (w, u') ∧ ss' = ss_set ss (<[i := u']> (Upstreams ss)) (Z.of_nat i).

Lemma incrementNextUpstreamIdx_Ok ss : (-1 ≤ NextUpstreamIdx ss)%Z → Upstreams ss ≠ [] →
  ∃ i u, incrementNextUpstreamIdx ss = Ok (ss_set ss (Upstreams ss) (Z.of_nat i), u) ∧ Upstreams ss !! i = Some u ∧
    i = (if decide (NextUpstreamIdx ss + 1 < Z.of_nat (length (Upstreams ss)))%Z then Z.to_nat (NextUpstreamIdx ss + 1) else 0).
Proof.
  intros Hi Hne. unfold incrementNextUpstreamIdx, idxZ, idx.
  assert (Hlen : 0 < length (Upstreams ss)) by (destruct (Upstreams ss); simpl; [done|lia]).
  set (i := if decide _ then _ else 0). exists i.
  assert (Hil : i < length (Upstreams ss)) by (unfold i; case_decide; lia).
  destruct (lookup_lt_is_Some_2 _ _ Hil) as [u Hu]. exists u.
  assert ((if (Z.of_nat (length (Upstreams ss)) <=? NextUpstreamIdx ss + 1)%Z then 0%Z else (NextUpstreamIdx ss + 1)%Z) = Z.of_nat i) as ->.
  { unfold i. destruct (Z.leb_spec (Z.of_nat (length (Upstreams ss))) (NextUpstreamIdx ss + 1)); case_decide; lia. }
  rewrite (proj2 (Z.ltb_ge _ _)) by lia. by rewrite Nat2Z.id, Hu.
Qed.

Lemma scan_upstreams_Ok n ss : (-1 ≤ NextUpstreamIdx ss)%Z → Upstreams ss ≠ [] →
  ∃ ss' next, scan_upstreams n ss = Ok (ss', next) ∧ (-1 ≤ NextUpstreamIdx ss')%Z ∧
    match next with
    | None => ∃ j, ss' = ss_set ss (Upstreams ss) j
    | Some w => has_read ss ss' w
    end.
Proof.
  revert ss. induction n as [|n IH]; intros ss Hi Hne; simpl.
  { exists ss, None. split_and!; [done..|]. exists (NextUpstreamIdx ss). by destruct ss. }
  destruct (incrementNextUpstreamIdx_Ok ss Hi Hne) as (i & u & -> & Hu & _). rewrite bind_Ok.
  destruct (ReadFromBufferNonblock u) as [[w u']|] eqn:Hread.
  - unfold set_idxZ, set_idx. cbn [NextUpstreamIdx ss_set Upstreams]. rewrite (proj2 (Z.ltb_ge _ _)), Nat2Z.id by lia.
    rewrite bool_decide_true by (by eapply lookup_lt_Some). rewrite bind_Ok. do 2 eexists. split; [done|]. simpl. split; [lia|].
    exists i, u, u'. by split_and!.
  - destruct (IH (ss_set ss (Upstreams ss) (Z.of_nat i))) as (ss' & next & -> & Hi' & Hnext); [simpl; lia|done|].
    exists ss', next. split_and!; [done..|]. destruct next; [|done].
    destruct Hnext as (j & u1 & u2 & Hj & Hu1 & Hr & ->). exists j, u1, u2. by split_and!.
Qed.

Lemma ss_GetWorkUnit_Ok ss : (-1 ≤ NextUpstreamIdx ss)%Z →
  ∃ ss' next, ss_GetWorkUnit ss = Ok (ss', next) ∧ (-1 ≤ NextUpstreamIdx ss')%Z ∧
    match next with
    | None => ∃ j, ss' = ss_set ss (Upstreams ss) j
    | Some w => has_read ss ss' w
    end.
Proof.
  intros Hi. unfold ss_GetWorkUnit. destruct (Nat.eqb_spec (length (Upstreams ss)) 0) as [Hz|Hz].
  - exists ss, None. split_and!; [done..|]. exists (NextUpstreamIdx ss). by destruct ss.
  - apply scan_upstreams_Ok; [done|]. by destruct (Upstreams ss).
Qed.

Lemma read_units u w u' : ReadFromBufferNonblock u = Some (w, u') → up_units u = w :: up_units u' ∧ up_WM u' = up_WM u.
Proof. destruct u as [? conn [|x buf] ?]; simpl; [done|]. by intros [= -> <-]. Qed.

(** ** Minimum of the watermarks *)

Lemma min_wm_Some cur us m : min_wm cur us = Some m →
  (m ≤ cur)%Z ∧ Forall (λ u, m ≤ up_WM u)%Z us ∧ (m = cur ∨ ∃ u, u ∈ us ∧ m = up_WM u) ∧ Forall (λ u, up_WM u ≠ -1)%Z us.
Proof.
  revert cur. induction us as [|u us IH]; intros cur; simpl; [intros [= ->]; split_and!; [lia|done|by left|done]|].
  unfold wm_Unset, wm_SetMin. destruct (Z.eqb_spec (up_WM u) (-1)) as [|Hne]; [done|].
  intros (Hm & Hall & Hat & Hset)%IH. destruct (Z.ltb_spec (up_WM u) cur).
  - split_and!; [lia|constructor; [lia|done]| |by constructor]. right. destruct Hat as [->|(u' & Hu' & ->)]; [exists u|exists u']; split; try done; [by left|by right].
  - split_and!; [lia|constructor; [lia|done]| |by constructor]. destruct Hat as [->|(u' & Hu' & ->)]; [by left|]. right. exists u'. split; [by right|done].
Qed.

Lemma min_wm_set cur us : Forall (λ u, up_WM u ≠ -1)%Z us → is_Some (min_wm cur us).
Proof.
  revert cur. induction us as [|u us IH]; intros cur; simpl; [by eauto|]. intros [Hu Hus]%Forall_cons.
  unfold wm_Unset. rewrite (proj2 (Z.eqb_neq _ _)) by done. by apply IH.
Qed.

Lemma min_sub_wm_Some cur subs m : min_sub_wm cur subs = Some m →
  (m ≤ cur)%Z ∧ ∀ name ss u, (name, ss) ∈ subs → u ∈ Upstreams ss → (m ≤ up_WM u)%Z.
Proof.
  revert cur. induction subs as [|[name ss] subs IH]; intros cur; simpl.
  { intros [= ->]. split; [lia|]. by intros ??? ?%elem_of_nil. }
  destruct (GetSubSupplierWM ss) as [wm|] eqn:Hwm; [|done]. intros [Hm Hall]%IH. unfold wm_SetMin in Hm. split.
  { destruct (Z.ltb_spec wm cur); lia. }
  intros name' ss' u [[= -> ->]|Hin]%elem_of_cons Hu; [|by eapply Hall]. unfold GetSubSupplierWM in Hwm.
  destruct (length (Upstreams ss) =? 0); [done|]. apply min_wm_Some in Hwm as (_ & Hle & _). rewrite Forall_forall in Hle.
  specialize (Hle u Hu). simpl in Hle. destruct (Z.ltb_spec wm cur); lia.
Qed.

Section Time.
Context `{GoRange}.

Lemma checkTaskWatermarkProgress_Ok s :
  ∃ s' wm, checkTaskWatermarkProgress s = Ok (s', wm) ∧
    match wm with
    | None => s' = s
    | Some m => s' = sp_set_wm s m ∧ (TaskWatermark s < m)%Z ∧
        ∀ name ss u, SubSuppliers s !! name = Some ss → u ∈ Upstreams ss → (m ≤ up_WM u)%Z
    end.
Proof.
  unfold checkTaskWatermarkProgress. destruct (min_sub_wm MaxInt64 (go_range (SubSuppliers s))) as [m|] eqn:Hm; [|by do 2 eexists].
  unfold wm_LargerThan, wm_Update. destruct (Z.ltb_spec (TaskWatermark s) m); [|by do 2 eexists].
  rewrite (proj2 (Z.leb_gt _ _)) by done. cbn [fatal_if]. rewrite !bind_Ok. do 2 eexists. split; [done|]. split_and!; [done..|].
  intros name ss u Hss Hu. apply min_sub_wm_Some in Hm as [_ Hall]. eapply Hall; [|done]. by apply elem_of_go_range.
Qed.

(** The pointers of the sub-suppliers. *)
Definition pointers_ok (s : Supplier) : Prop :=
  ∀ name ss, SubSuppliers s !! name = Some ss → (-1 ≤ NextUpstreamIdx ss)%Z.

Lemma sup_ok_put s name ss : sup_ok s → sub_ok (TaskWatermark s) ss → sup_ok (put_sub s name ss).
Proof.
  intros Hok Hss name' ss'. unfold put_sub. simpl. rewrite lookup_insert_Some. intros [[_ <-]|[_ Hl]]; [done|]. by apply (Hok name').
Qed.

Lemma pointers_put s name ss : pointers_ok s → (-1 ≤ NextUpstreamIdx ss)%Z → pointers_ok (put_sub s name ss).
Proof.
  intros Hok Hss name' ss'. unfold put_sub. simpl. rewrite lookup_insert_Some. intros [[_ <-]|[_ Hl]]; [done|]. by apply (Hok name').
Qed.

Lemma progress_ok s s' wm :
  sup_ok s → pointers_ok s → checkTaskWatermarkProgress s = Ok (s', wm) →
  sup_ok s' ∧ pointers_ok s' ∧ on_time (TaskWatermark s) (time_events (from_option (λ m, [WatermarkUnit m]) [] wm)) ∧
  TaskWatermark s' = last_watermark (TaskWatermark s) (time_events (from_option (λ m, [WatermarkUnit m]) [] wm)).
Proof.
  intros Hok Hp Hrun. destruct (checkTaskWatermarkProgress_Ok s) as (s1 & wm1 & Hrun1 & Hcase). rewrite Hrun in Hrun1.
  injection Hrun1 as <- <-. destruct wm as [m|]; [|by subst]. destruct Hcase as (-> & Hlt & Hle). split_and!; [|done|simpl; split; [lia|done]|done].
  intros name ss Hss. unfold sub_ok. apply Forall_forall. intros u Hu. specialize (Hok name ss Hss).
  unfold sub_ok in Hok. rewrite Forall_forall in Hok. eapply chan_ok_weaken; [|by apply Hok]. simpl. by eapply Hle.
Qed.

Lemma UpdateWatermark_inv ss wm ss' : UpdateWatermark ss wm = Ok ss' →
  ∃ i u, NextUpstreamIdx ss = Z.of_nat i ∧ Upstreams ss !! i = Some u ∧ (up_WM u < wm)%Z ∧
    ss' = ss_set ss (<[i := NewUpstream (UpstreamWorkerId u) (Connection u) (InputBuffer u) wm]> (Upstreams ss)) (Z.of_nat i).
Proof.
  unfold UpdateWatermark, idxZ, idx, set_idxZ, set_idx, wm_Update. destruct (Z.ltb_spec (NextUpstreamIdx ss) 0); [done|].
  destruct (Upstreams ss !! Z.to_nat (NextUpstreamIdx ss)) as [u|] eqn:Hu; [|done]. rewrite bind_Ok.
  destruct (Z.leb_spec wm (up_WM u)); [done|]. cbn [fatal_if]. rewrite !bind_Ok.
  rewrite bool_decide_true by (by eapply lookup_lt_Some). rewrite bind_Ok. intros [= <-].
  exists (Z.to_nat (NextUpstreamIdx ss)), u. split_and!; [lia|done..|]. by rewrite Z2Nat.id by lia.
Qed.

Lemma RemoveUpstream_inv ss ss' : RemoveUpstream ss = Ok ss' →
  ∃ i j, NextUpstreamIdx ss = Z.of_nat i ∧ i < length (Upstreams ss) ∧ (-1 ≤ j)%Z ∧ ss' = ss_set ss (delete i (Upstreams ss)) j.
Proof.
  unfold RemoveUpstream. intros (? & Hi%fatal_if_Ok & (? & _ & [= <-])%bind_Ok_inv)%bind_Ok_inv.
  apply orb_false_iff in Hi as [Hi1%Z.ltb_ge Hi2%Z.leb_gt]. eexists (Z.to_nat (NextUpstreamIdx ss)), _. split_and!; [lia|lia| |done].
  destruct (NextUpstreamIdx ss =? 0)%Z eqn:E; [|apply Z.eqb_neq in E]; lia.
Qed.

Lemma has_read_ok T ss ss' w : sub_ok T ss → has_read ss ss' w → sub_ok T ss' ∧
  ∃ i u', NextUpstreamIdx ss' = Z.of_nat i ∧ Upstreams ss' !! i = Some u' ∧ chan_ok T (up_WM u') (w :: up_units u').
Proof.
  intros Hok (i & u & u' & Hi & Hu & Hread & ->). apply read_units in Hread as [Hun Hwm].
  pose proof (Forall_lookup_1 _ _ _ _ Hok Hu) as Hc. simpl in Hc. rewrite Hun, <-Hwm in Hc. split.
  - unfold sub_ok. simpl. apply Forall_insert; [done|]. by eapply chan_ok_tail.
  - exists i, u'. split_and!; [done| |done]. simpl. apply list_lookup_insert_eq. by eapply lookup_lt_Some.
Qed.

Lemma handleWatermark_ok s name ss i u ts s' wm :
  sup_ok s → pointers_ok s → SubSuppliers s !! name = Some ss → NextUpstreamIdx ss = Z.of_nat i → Upstreams ss !! i = Some u →
  chan_ok (TaskWatermark s) ts (up_units u) → handleWatermark s ts name = Ok (s', wm) →
  sup_ok s' ∧ pointers_ok s' ∧ on_time (TaskWatermark s) (time_events (from_option (λ m, [WatermarkUnit m]) [] wm)) ∧
  TaskWatermark s' = last_watermark (TaskWatermark s) (time_events (from_option (λ m, [WatermarkUnit m]) [] wm)).
Proof.
  intros Hok Hp Hss Hi Hu Hc. unfold handleWatermark, get_sub. rewrite Hss, bind_Ok.
  intros (ss' & (i' & u1 & Hi' & Hu1 & Hlt & ->)%UpdateWatermark_inv & Hrun)%bind_Ok_inv. assert (i' = i) as -> by lia.
  rewrite Hu in Hu1. injection Hu1 as <-. set (s1 := put_sub _ _ _) in *.
  assert (Hok1 : sup_ok s1).
  { apply sup_ok_put; [done|]. unfold sub_ok. simpl. apply Forall_insert; [by apply (Hok name)|done]. }
  assert (Hp1 : pointers_ok s1) by (apply pointers_put; [done|simpl; lia]).
  destruct (negb (TaskDeploymentPhasePassed s1)); [by injection Hrun as <- <-|]. by apply (progress_ok s1).
Qed.

Lemma handleTermination_ok s name isPeer s' wm :
  sup_ok s → pointers_ok s → handleTermination s name isPeer = Ok (s', wm) →
  sup_ok s' ∧ pointers_ok s' ∧ on_time (TaskWatermark s) (time_events (from_option (λ m, [WatermarkUnit m]) [] wm)) ∧
  TaskWatermark s' = last_watermark (TaskWatermark s) (time_events (from_option (λ m, [WatermarkUnit m]) [] wm)).
Proof.
  intros Hok Hp. unfold handleTermination, get_sub. intros (? & _ & Hrun)%bind_Ok_inv.
  destruct (SubSuppliers s !! name) as [ss|] eqn:Hss; [|done]. rewrite bind_Ok in Hrun.
  apply bind_Ok_inv in Hrun as (ss' & (i & j & Hi & Hlt & Hj & ->)%RemoveUpstream_inv & Hrun). set (s1 := put_sub _ _ _) in *.
  assert (Hok1 : sup_ok s1).
  { apply sup_ok_put; [done|]. unfold sub_ok. simpl. apply Forall_delete. by apply (Hok name). }
  assert (Hp1 : pointers_ok s1) by (by apply pointers_put).
  destruct isPeer; [|by injection Hrun as <- <-]. apply bind_Ok_inv in Hrun as (s2 & Hs2 & Hrun).
  unfold peer_closed in Hs2. apply bind_Ok_inv in Hs2 as (? & _ & [= <-]). by apply progress_ok in Hrun.
Qed.

Lemma get_turn_ok s s' out :
  sup_ok s → pointers_ok s → get_turn s = Ok (s', out) →
  let units := match out with Some (w, _) => [w] | None => [] end in
  sup_ok s' ∧ pointers_ok s' ∧ on_time (TaskWatermark s) (time_events units) ∧
  TaskWatermark s' = last_watermark (TaskWatermark s) (time_events units).
Proof.
  intros Hok Hp. unfold get_turn, incrementNextSubSupplierIdx.
  intros ([s0 name] & (name' & _ & [= <- <-])%bind_Ok_inv & Hrun)%bind_Ok_inv. unfold get_sub in Hrun. simpl in Hrun.
  destruct (SubSuppliers s !! name') as [ss|] eqn:Hss; [|done]. rewrite bind_Ok in Hrun.
  destruct (ss_GetWorkUnit_Ok ss) as (ss' & next & Hget & Hi & Hnext); [by apply (Hp name')|]. rewrite Hget, bind_Ok in Hrun.
  set (s1 := put_sub _ _ _) in *.
  destruct next as [w|].
  - destruct (has_read_ok (TaskWatermark s) ss ss' w) as [Hok' (i & u' & Hi' & Hu' & Hc)]; [by apply (Hok name')|done|].
    assert (Hok1 : sup_ok s1) by (by apply sup_ok_put). assert (Hp1 : pointers_ok s1) by (by apply pointers_put).
    assert (Hss1 : SubSuppliers s1 !! name' = Some ss') by (unfold s1; simpl; apply lookup_insert_eq).
    apply bind_Ok_inv in Hrun as ([s2 ret] & Hpre & [= <- <-]).
    unfold preprocessWorkUnit in Hpre. destruct w as [rs| |ts| | |isPeer|md|km]; simpl in Hc; try done.
    + injection Hpre as <- <-. split_and!; try done. simpl. split; [|done]. destruct Hc as [Hc _].
      eapply Forall_impl; [exact Hc|]. simpl. lia.
    + apply bind_Ok_inv in Hpre as ([s3 al] & Hd & [= <- <-]). unfold handleDrainBarrier in Hd.
      destruct (_ =? _)%Z; [injection Hd as <- <-|apply bind_Ok_inv in Hd as (? & _ & [= <- <-])]; done.
    + apply bind_Ok_inv in Hpre as ([s3 wm] & Hw & [= <- <-]). destruct Hc as [Hlt Hc].
      pose proof (handleWatermark_ok s1 name' ss' i u' ts s3 wm Hok1 Hp1 Hss1 Hi' Hu' Hc Hw) as Hres. by destruct wm.
    + apply bind_Ok_inv in Hpre as ([s3 al] & Hd & [= <- <-]). unfold handleInflightBarrier in Hd.
      apply bind_Ok_inv in Hd as (? & _ & Hd). destruct (_ =? _)%Z; injection Hd as <- <-; done.
    + apply bind_Ok_inv in Hpre as ([s3 wm] & Hw & [= <- <-]).
      pose proof (handleTermination_ok s1 name' isPeer s3 wm Hok1 Hp1 Hw) as Hres. by destruct wm.
    + injection Hpre as <- <-. done.
  - injection Hrun as <- <-. destruct Hnext as [j ->]. split_and!; try done; [|by apply pointers_put].
    apply sup_ok_put; [done|]. exact (Hok name' ss Hss).
Qed.

Lemma sp_arrive_ok s name i : sup_ok s → pointers_ok s →
  sup_ok (sp_arrive s name i) ∧ pointers_ok (sp_arrive s name i) ∧ TaskWatermark (sp_arrive s name i) = TaskWatermark s.
Proof.
  intros Hok Hp. unfold sp_arrive. destruct (SubSuppliers s !! name) as [ss|] eqn:Hss; [|done]. split_and!; [| |done].
  - apply sup_ok_put; [done|]. specialize (Hok name ss Hss). unfold sub_ok. simpl. apply Forall_alter; [done|].
    intros u Hu _. pose proof (Forall_lookup_1 _ _ _ _ Hok Hu) as Hc. simpl in Hc. by rewrite up_units_arrive, up_WM_arrive.
  - apply pointers_put; [done|]. exact (Hp name ss Hss).
Qed.

Lemma on_time_app wm l l' : on_time wm (l ++ l') ↔ on_time wm l ∧ on_time (last_watermark wm l) l'.
Proof. revert wm. induction l as [|[rs|ts] l IH]; intros wm; simpl; [naive_solver|rewrite IH; naive_solver..]. Qed.

Lemma last_watermark_app wm l l' : last_watermark wm (l ++ l') = last_watermark (last_watermark wm l) l'.
Proof. revert wm. induction l as [|[rs|ts] l IH]; intros wm; simpl; [done|apply IH..]. Qed.

Lemma sp_run_ok s events s' outs :
  sup_ok s → pointers_ok s → sp_run s events = Ok (s', outs) →
  sup_ok s' ∧ pointers_ok s' ∧ on_time (TaskWatermark s) (time_events outs) ∧
  TaskWatermark s' = last_watermark (TaskWatermark s) (time_events outs).
Proof.
  intros Hok Hp Hrun. apply (foldM_inv _ (λ _ st, sup_ok st.1 ∧ pointers_ok st.1 ∧ on_time (TaskWatermark s) (time_events st.2) ∧
    TaskWatermark st.1 = last_watermark (TaskWatermark s) (time_events st.2))) in Hrun; [done|done|].
  intros pre e [s1 o1] [s2 o2] _ (Hok1 & Hp1 & Hon & HT) ([s3 out] & Hstep & [= <- <-])%bind_Ok_inv. cbn [fst snd] in *.
  rewrite bind_app, on_time_app, last_watermark_app, <-HT.
  destruct e as [name i|]; simpl in Hstep.
  - injection Hstep as <- <-. destruct (sp_arrive_ok s1 name i Hok1 Hp1) as (? & ? & ?). by split_and!.
  - apply bind_Ok_inv in Hstep as ([s4 o] & Hturn & [= <- <-]). destruct (get_turn_ok s1 s4 o Hok1 Hp1 Hturn) as (? & ? & ? & ?). by split_and!.
Qed.

(** A new channel, whose records are not older than the task's watermark. *)
Lemma add_connection_ok s c s' :
  sup_ok s → pointers_ok s → chan_ok (TaskWatermark s) (-1) (cn_Units c) → add_connection s c = Ok s' →
  sup_ok s' ∧ pointers_ok s' ∧ TaskWatermark s' = TaskWatermark s.
Proof.
  intros Hok Hp Hc. unfold add_connection. destruct (SubSuppliers s !! cn_Name c) as [ss|] eqn:Hss; [|done].
  set (s1 := put_sub _ _ _). assert (Hok1 : sup_ok s1).
  { apply sup_ok_put; [done|]. unfold sub_ok. simpl. apply Forall_app. split; [by apply (Hok (cn_Name c))|]. by constructor. }
  assert (Hp1 : pointers_ok s1) by (apply pointers_put; [done|exact (Hp (cn_Name c) ss Hss)]).
  set (s2 := if (getNumUpstreams s1 =? _)%Z then _ else _). assert (Hs2 : sup_ok s2 ∧ pointers_ok s2 ∧ TaskWatermark s2 = TaskWatermark s) by (unfold s2; by case_match).
  destruct (channelType c =? 0)%Z; [by intros [= <-]|]. clearbody s2. unfold count_peer. intros (? & _ & Hrun)%bind_Ok_inv.
  destruct (_ =? _)%Z; [|by injection Hrun as <-]. apply bind_Ok_inv in Hrun as (r & _ & [= <-]). done.
Qed.
End Time.

Section Claims.
Context `{GoRange}.

(** The merged input of a task is on time.  On each channel no record is
    older than the channel's last watermark or the task's, and watermarks
    increase.  Whatever units arrive when and however the channels are read,
    batches, barriers, terminations and all: as long as the supplier does not
    end the process, no record handed to the task is older than the last
    watermark handed to it, and these watermarks increase; the last one is the
    supplier's task watermark, and the channels are again on time. *)
Theorem supplier_on_time (s : Supplier) (events : list sp_event) (s' : Supplier) (outs : list WorkUnit)
    (Hok : sup_ok s) (Hp : pointers_ok s) (Hrun : sp_run s events = Ok (s', outs)) :
  on_time (TaskWatermark s) (time_events outs) ∧
  TaskWatermark s' = last_watermark (TaskWatermark s) (time_events outs) ∧ sup_ok s' ∧ pointers_ok s'.
Proof. destruct (sp_run_ok s events s' outs Hok Hp Hrun) as (? & ? & ? & ?). by split_and!. Qed.
End Claims.

(** ** Two upstream operators, one with two tasks *)

Definition demo_batch (ts : Z) : WorkUnit := BatchUnit [MkTuple [FNum KInt64 ts] ts].

Definition demo_channel (buf conn : list WorkUnit) : Upstream := NewUpstream 0 conn buf (-1).

Definition demo_supplier : Supplier :=
  MkSupplier false
    {[ "a"%string := MkSub "a" [demo_channel [demo_batch 5; WatermarkUnit 4] [demo_batch 9];
                                demo_channel [WatermarkUnit 7] [demo_batch 8]] false false (-1);
       "b"%string := MkSub "b" [demo_channel [WatermarkUnit 6; demo_batch 6] []] false false (-1) ]}
    2 (-1) 3 true 0 NewReconfig (-1) ["a"%string; "b"%string].

Definition demo_sp_events : list sp_event :=
  [Turn; Turn; Arrives "a" 0; Turn; Turn; Turn; Turn; Arrives "a" 1; Turn; Turn].

Lemma demo_supplier_ok : sup_ok demo_supplier ∧ pointers_ok demo_supplier.
Proof.
  split; intros name ss; unfold demo_supplier; cbn [SubSuppliers]; rewrite lookup_insert_Some, lookup_singleton_Some;
    intros [[_ <-]|[_ [_ <-]]]; simpl; try lia; unfold sub_ok; cbn [Upstreams];
    repeat constructor; vm_compute; done.
Qed.

Lemma supplier_on_time_witness :
  ∃ s' outs, sp_run demo_supplier demo_sp_events = Ok (s', outs) ∧
    outs = [demo_batch 5; demo_batch 6; WatermarkUnit 4; demo_batch 8] ∧ on_time (-1) (time_events outs).
Proof.
  assert (Hrun : ∃ s', sp_run demo_supplier demo_sp_events = Ok (s', [demo_batch 5; demo_batch 6; WatermarkUnit 4; demo_batch 8])).
  { eexists. vm_compute. reflexivity. }
  destruct Hrun as [s' Hrun]. destruct demo_supplier_ok as [Hok Hp].
  destruct (supplier_on_time demo_supplier demo_sp_events _ _ Hok Hp Hrun) as [Hon _].
  eexists _, _. split; [exact Hrun|]. split; [reflexivity|exact Hon].
Defined.
