(* ===== verification/SupplierMerge.v ===== *)
(** * Suppliers: nothing lost, nothing starved

    A task whose channels carry batches and watermarks: the supplier never ends
    the process, its task watermark is the minimum of the channels', every
    record read is handed on exactly once, and all that has arrived is read
    within a bounded number of turns. *)

From stdpp Require Import prelude gmap strings list.
From Stdlib Require Import ZArith Lia.
From S2P Require Import Prelude Codec WorkUnit WindowRun KeyMap Supplier SupplierTime.

(** All channels, in no particular order. *)
Definition channels (s : Supplier) : list Upstream := map_to_list (SubSuppliers s) ≫= λ x, Upstreams x.2.

Definition data_unit (w : WorkUnit) : Prop :=
  match w with BatchUnit _ | WatermarkUnit _ => True | _ => False end.

(** A channel with batches and increasing watermarks. *)
Record data_channel (u : Upstream) : Prop := {
  dc_units : Forall data_unit (up_units u);
  dc_time : chan_ok (-1) (up_WM u) (up_units u);
  dc_wm : (-1 ≤ up_WM u)%Z;
  dc_max : Forall (λ w, match w with WatermarkUnit ts => ts ≤ MaxInt64 | _ => True end)%Z (up_units u)
}.

Definition min_all (us : list Upstream) : Z := foldr (λ u, Z.min (up_WM u)) MaxInt64 us.

(** A supplier set up for its sub-suppliers, each with a channel. *)
Record sup_wf (s : Supplier) : Prop := {
  wf_list : SubSupplierList s ≡ₚ (map_to_list (SubSuppliers s)).*1;
  wf_next : (-1 ≤ NextSubSupplierIdx s)%Z;
  wf_some : SubSuppliers s ≠ ∅;
  wf_subs : ∀ name ss, SubSuppliers s !! name = Some ss → Upstreams ss ≠ [] ∧ (-1 ≤ NextUpstreamIdx ss)%Z;
  wf_deployed : TaskDeploymentPhasePassed s = true;
  wf_channels : Forall data_channel (channels s);
  wf_watermark : TaskWatermark s = min_all (channels s)
}.

#[export] Instance min_all_perm : Proper ((≡ₚ) ==> (=)) min_all.
Proof. intros us us' Hp. unfold min_all. induction Hp; simpl in *; lia. Qed.

Lemma min_all_le us u : u ∈ us → (min_all us ≤ up_WM u)%Z.
Proof. unfold min_all. induction 1 as [us|u' us u Hin IH]; simpl; lia. Qed.

Lemma min_all_ge us : Forall (λ u, -1 ≤ up_WM u)%Z us → (-1 ≤ min_all us)%Z.
Proof. unfold min_all. induction 1; simpl in *; [unfold MaxInt64|]; lia. Qed.

(** Replacing one sub-supplier. *)
Lemma channels_put s name ss : SubSuppliers s !! name = Some ss →
  ∃ rest, channels s ≡ₚ Upstreams ss ++ rest ∧ ∀ ss', channels (put_sub s name ss') ≡ₚ Upstreams ss' ++ rest.
Proof.
  intros Hss. exists (map_to_list (delete name (SubSuppliers s)) ≫= λ x, Upstreams x.2). unfold channels, put_sub. simpl. split.
  - rewrite <-(insert_delete_id (SubSuppliers s) name ss) at 1 by done.
    rewrite map_to_list_insert by apply lookup_delete_eq. done.
  - intros ss'. rewrite <-insert_delete_eq. rewrite map_to_list_insert by apply lookup_delete_eq. done.
Qed.

Lemma elem_of_channels s u : u ∈ channels s ↔ ∃ name ss, SubSuppliers s !! name = Some ss ∧ u ∈ Upstreams ss.
Proof.
  unfold channels. rewrite list_elem_of_bind. split.
  - intros ([name ss] & Hu & Hin%elem_of_map_to_list). eauto.
  - intros (name & ss & Hss & Hu). exists (name, ss). split; [done|]. by apply elem_of_map_to_list.
Qed.

Section Merge.
Context `{GoRange}.

(** ** The task watermark *)

Lemma min_all_app us us' : min_all (us ++ us') = Z.min (min_all us) (min_all us').
Proof. assert (∀ l, min_all l ≤ MaxInt64)%Z as Hm. { intros l. unfold min_all. induction l; simpl; lia. }
  specialize (Hm us'). unfold min_all in *. induction us as [|u us IH]; simpl; lia. Qed.

Lemma min_wm_all cur us : (cur ≤ MaxInt64)%Z →
  match min_wm cur us with
  | None => ∃ u, u ∈ us ∧ up_WM u = (-1)%Z
  | Some m => m = Z.min cur (min_all us) ∧ Forall (λ u, up_WM u ≠ -1)%Z us
  end.
Proof.
  revert cur. induction us as [|u us IH]; intros cur Hcur; simpl; [split; [unfold min_all; simpl; lia|done]|].
  unfold wm_Unset. destruct (Z.eqb_spec (up_WM u) (-1)) as [Hu|Hu]; [exists u; split; [by left|done]|].
  assert (wm_SetMin cur (up_WM u) = Z.min cur (up_WM u)) as -> by (unfold wm_SetMin; destruct (Z.ltb_spec (up_WM u) cur); lia).
  specialize (IH (Z.min cur (up_WM u)) ltac:(lia)). destruct (min_wm _ us) as [m|].
  - destruct IH as [-> Hset]. split; [|by constructor]. change (min_all (u :: us)) with (Z.min (up_WM u) (min_all us)). lia.
  - destruct IH as (u' & Hu' & ?). exists u'. split; [by right|done].
Qed.

Lemma min_sub_wm_all cur subs :
  (∀ name ss, (name, ss) ∈ subs → Upstreams ss ≠ []) → (cur ≤ MaxInt64)%Z →
  match min_sub_wm cur subs with
  | None => ∃ u, u ∈ (subs ≫= λ x, Upstreams x.2) ∧ up_WM u = (-1)%Z
  | Some m => m = Z.min cur (min_all (subs ≫= λ x, Upstreams x.2))
  end.
Proof.
  intros Hne. revert cur. induction subs as [|[name ss] subs IH]; intros cur Hcur; [simpl; unfold min_all; simpl; lia|].
  cbn [min_sub_wm]. rewrite bind_cons. cbn [snd]. rewrite min_all_app.
  assert (Hss : Upstreams ss ≠ []) by (apply (Hne name); by left). unfold GetSubSupplierWM.
  destruct (Nat.eqb_spec (length (Upstreams ss)) 0) as [Hz|_]; [by destruct (Upstreams ss)|].
  pose proof (min_wm_all MaxInt64 (Upstreams ss) ltac:(lia)) as Hm. destruct (min_wm MaxInt64 (Upstreams ss)) as [wm|].
  - destruct Hm as [Hm _]. assert (Hwm : wm = min_all (Upstreams ss)).
    { rewrite Hm. pose proof (min_all_app (Upstreams ss) []) as Ha. rewrite app_nil_r in Ha. unfold min_all at 3 in Ha. simpl in Ha. lia. }
    assert (wm_SetMin cur wm = Z.min cur wm) as -> by (unfold wm_SetMin; destruct (Z.ltb_spec wm cur); lia).
    specialize (IH (λ n s' Hin, Hne n s' (list_elem_of_further _ _ _ Hin)) (Z.min cur wm) ltac:(lia)).
    destruct (min_sub_wm _ subs) as [m|]; [lia|]. destruct IH as (u & Hu & ?). exists u. split; [|done]. apply elem_of_app. by right.
  - destruct Hm as (u & Hu & ?). exists u. split; [|done]. apply elem_of_app. by left.
Qed.

(** The check sets the watermark to the minimum, if that is not less. *)
Lemma check_watermark s :
  (∀ name ss, SubSuppliers s !! name = Some ss → Upstreams ss ≠ []) →
  Forall (λ u, -1 ≤ up_WM u)%Z (channels s) → (-1 ≤ TaskWatermark s ≤ min_all (channels s))%Z →
  ∃ wm, checkTaskWatermarkProgress s = Ok (sp_set_wm s (min_all (channels s)), wm) ∧
    wm = (if decide (TaskWatermark s = min_all (channels s)) then None else Some (min_all (channels s))).
Proof.
  intros Hne Hge HT. unfold checkTaskWatermarkProgress.
  pose proof (min_sub_wm_all MaxInt64 (go_range (SubSuppliers s))) as Hm.
  assert (Hch : (go_range (SubSuppliers s) ≫= λ x, Upstreams x.2) ≡ₚ channels s) by (unfold channels; by rewrite go_range_perm).
  assert (Hmax : Z.min MaxInt64 (min_all (channels s)) = min_all (channels s)).
  { pose proof (min_all_app (channels s) []) as Ha. rewrite app_nil_r in Ha. unfold min_all at 3 in Ha. simpl in Ha. lia. }
  assert (Hid : TaskWatermark s = min_all (channels s) → s = sp_set_wm s (min_all (channels s))) by (intros <-; by destruct s).
  destruct (min_sub_wm MaxInt64 (go_range (SubSuppliers s))) as [m|].
  - rewrite Hch, Hmax in Hm. rewrite Hm by (try lia; intros name ss Hin%elem_of_go_range; by apply (Hne name)). unfold wm_LargerThan, wm_Update.
    case_decide as Hd.
    + rewrite (proj2 (Z.ltb_ge _ _)) by lia. rewrite <-(Hid Hd). by eexists.
    + rewrite (proj2 (Z.ltb_lt _ _)), (proj2 (Z.leb_gt _ _)) by lia. cbn [fatal_if]. rewrite !bind_Ok. by eexists.
  - destruct Hm as (u & Hu & Hum); [by intros name ss Hin%elem_of_go_range; apply (Hne name)|lia|]. rewrite Hch in Hu.
    pose proof (min_all_le _ _ Hu). rewrite decide_True by lia. rewrite <-Hid by lia. by eexists.
Qed.

(** ** Going round *)

(** The position after [i] in a round of [n]. *)
Definition after (i : Z) (n : nat) : nat := if decide (i + 1 < Z.of_nat n)%Z then Z.to_nat (i + 1) else 0.

Lemma after_mod i n : 0 < n → i < n → after (Z.of_nat i) n = (i + 1) mod n.
Proof.
  intros Hn Hi. unfold after. case_decide; [rewrite Nat.mod_small; lia|].
  replace (i + 1) with n by lia. by rewrite Nat.Div0.mod_same.
Qed.

Lemma after_lt i n : (-1 ≤ i)%Z → 0 < n → after i n < n.
Proof. intros Hi Hn. unfold after. case_decide; lia. Qed.

(** [n] steps of a round of [n] reach every position. *)
Lemma round_covers p n i : p < n → i < n → ∃ k, k < n ∧ (p + k) mod n = i.
Proof.
  intros Hp Hi. destruct (decide (p ≤ i)).
  - exists (i - p). split; [lia|]. replace (p + (i - p)) with i by lia. by apply Nat.mod_small.
  - exists (i + n - p). split; [lia|]. replace (p + (i + n - p)) with (i + 1 * n) by lia.
    rewrite Nat.Div0.mod_add. by apply Nat.mod_small.
Qed.

Lemma scan_None n ss ss' :
  (-1 ≤ NextUpstreamIdx ss)%Z → scan_upstreams n ss = Ok (ss', None) →
  ∀ k, k < n → ∃ u, Upstreams ss !! ((after (NextUpstreamIdx ss) (length (Upstreams ss)) + k) mod length (Upstreams ss)) = Some u ∧ InputBuffer u = [].
Proof.
  revert ss. induction n as [|n IH]; intros ss Hi; [lia|]. cbn [scan_upstreams].
  destruct (decide (Upstreams ss = [])) as [Hnil|Hne].
  { intros ([ss1 u] & Hinc & _)%bind_Ok_inv. unfold incrementNextUpstreamIdx in Hinc. rewrite Hnil in Hinc.
    apply bind_Ok_inv in Hinc as (u' & Hu' & _). unfold idxZ, idx in Hu'. destruct (_ <? 0)%Z; [done|]. by rewrite lookup_nil in Hu'. }
  destruct (incrementNextUpstreamIdx_Ok ss Hi Hne) as (i & u & -> & Hu & Hpos). rewrite bind_Ok.
  assert (Hil : i < length (Upstreams ss)) by by eapply lookup_lt_Some.
  change (i = after (NextUpstreamIdx ss) (length (Upstreams ss))) in Hpos. rewrite <-Hpos.
  destruct (ReadFromBufferNonblock u) as [[w u']|] eqn:Hread; [by intros (? & _ & ?)%bind_Ok_inv|].
  intros Hscan k Hk. assert (HIH := IH (ss_set ss (Upstreams ss) (Z.of_nat i)) ltac:(simpl; lia) Hscan). simpl in HIH. rewrite after_mod in HIH by lia.
  destruct k as [|k].
  - exists u. rewrite Nat.add_0_r, Nat.mod_small by done. split; [done|]. unfold ReadFromBufferNonblock in Hread. by destruct (InputBuffer u).
  - destruct (HIH k ltac:(lia)) as (u1 & Hu1 & Hb). exists u1. split; [|done]. rewrite Nat.Div0.add_mod_idemp_l in Hu1.
    by replace (i + S k) with (i + 1 + k) by lia.
Qed.

Lemma get_None ss ss' u : (-1 ≤ NextUpstreamIdx ss)%Z → ss_GetWorkUnit ss = Ok (ss', None) → u ∈ Upstreams ss → InputBuffer u = [].
Proof.
  intros Hi. unfold ss_GetWorkUnit. destruct (Nat.eqb_spec (length (Upstreams ss)) 0) as [Hz|Hz].
  { apply length_zero_iff_nil in Hz. rewrite Hz. by intros _ ?%elem_of_nil. }
  intros Hscan [i Hu]%list_elem_of_lookup_1. pose proof (lookup_lt_Some _ _ _ Hu) as Hil.
  destruct (round_covers (after (NextUpstreamIdx ss) (length (Upstreams ss))) (length (Upstreams ss)) i) as (k & Hk & Hki);
    [apply after_lt; lia|done|].
  destruct (scan_None _ _ _ Hi Hscan k Hk) as (u' & Hu' & Hb). rewrite Hki, Hu in Hu'. by injection Hu' as <-.
Qed.

(** ** One turn *)

Lemma keys_put s name ss ss' : SubSuppliers s !! name = Some ss →
  (map_to_list (<[name := ss']> (SubSuppliers s))).*1 ≡ₚ (map_to_list (SubSuppliers s)).*1.
Proof.
  intros Hss. rewrite <-(insert_delete_id (SubSuppliers s) name ss) at 2 by done. rewrite <-insert_delete_eq.
  rewrite !map_to_list_insert by apply lookup_delete_eq. done.
Qed.

(** What a turn does to the channels. *)
Definition same_channels (s s' : Supplier) : Prop :=
  ∀ name, Upstreams <$> SubSuppliers s' !! name = Upstreams <$> SubSuppliers s !! name.

Definition idle_at (s : Supplier) (j : nat) : Prop :=
  ∀ name ss u, SubSupplierList s !! j = Some name → SubSuppliers s !! name = Some ss → u ∈ Upstreams ss → InputBuffer u = [].

Definition quiet (s s' : Supplier) (out : list WorkUnit) : Prop :=
  channels s' ≡ₚ channels s ∧ out = [] ∧ TaskWatermark s' = TaskWatermark s ∧ same_channels s s' ∧
  idle_at s (after (NextSubSupplierIdx s) (size (SubSuppliers s))).

Definition reads (s s' : Supplier) (out : list WorkUnit) : Prop :=
  ∃ u w u' rest, channels s ≡ₚ u :: rest ∧ channels s' ≡ₚ u' :: rest ∧
    InputBuffer u = w :: InputBuffer u' ∧ Connection u' = Connection u ∧
    match w with
    | BatchUnit _ => up_WM u' = up_WM u ∧ out = [w] ∧ TaskWatermark s' = TaskWatermark s
    | WatermarkUnit ts => up_WM u' = ts ∧
        out = (if decide (TaskWatermark s = TaskWatermark s') then [] else [WatermarkUnit (TaskWatermark s')])
    | _ => False
    end.

(** A supplier with one sub-supplier replaced. *)
Lemma sup_wf_put s s' name ss ss' :
  sup_wf s → SubSuppliers s !! name = Some ss → SubSuppliers s' = <[name := ss']> (SubSuppliers s) →
  SubSupplierList s' = SubSupplierList s → (-1 ≤ NextSubSupplierIdx s')%Z → TaskDeploymentPhasePassed s' = true →
  Upstreams ss' ≠ [] → (-1 ≤ NextUpstreamIdx ss')%Z → Forall data_channel (channels s') → TaskWatermark s' = min_all (channels s') →
  sup_wf s'.
Proof.
  intros Hwf Hss Hsubs Hlist Hnext Hdep Hne Hi Hch HT. split; [| |..|done|done|done].
  - rewrite Hlist, Hsubs, (keys_put s name ss ss' Hss). apply Hwf.
  - done.
  - rewrite Hsubs. apply insert_non_empty.
  - intros name' ss1. rewrite Hsubs, lookup_insert_Some. intros [[_ <-]|[_ Hl]]; [done|]. by apply (wf_subs _ Hwf name').
Qed.

Lemma delete_insert_same {A} (l : list A) i x : delete i (<[i := x]> l) = delete i l.
Proof. revert i. induction l as [|y l IH]; intros [|i]; simpl; try done. f_equal. apply IH. Qed.

Lemma replace_channel (ss ss' : SubSupplier) i u u' rest :
  Upstreams ss !! i = Some u → Upstreams ss' = <[i := u']> (Upstreams ss) →
  ∃ rest', Upstreams ss ++ rest ≡ₚ u :: rest' ∧ Upstreams ss' ++ rest ≡ₚ u' :: rest'.
Proof.
  intros Hu ->. exists (delete i (Upstreams ss) ++ rest). split.
  - rewrite (delete_Permutation (Upstreams ss) i u) at 1 by done. done.
  - rewrite (delete_Permutation (<[i := u']> (Upstreams ss)) i u') at 1 by (apply list_lookup_insert_eq; by eapply lookup_lt_Some).
    by rewrite delete_insert_same.
Qed.

Lemma data_channel_read u w u' :
  data_channel u → InputBuffer u = w :: InputBuffer u' → Connection u' = Connection u →
  match w with
  | BatchUnit rs => up_WM u' = up_WM u → data_channel u'
  | WatermarkUnit ts => (up_WM u < ts ≤ MaxInt64)%Z ∧ (up_WM u' = ts → data_channel u')
  | _ => False
  end.
Proof.
  intros [Hu Ht Hw Hm] Hbuf Hconn. assert (Hun : up_units u = w :: up_units u') by (unfold up_units; by rewrite Hbuf, Hconn).
  rewrite Hun in *. apply Forall_cons in Hu as [Hw0 Hu]. apply Forall_cons in Hm as [Hm0 Hm].
  destruct w as [rs| |ts| | | | |]; try done; simpl in Ht.
  - intros HW. split; rewrite ?HW; try done. by apply Ht.
  - destruct Ht as [Hlt Ht]. split; [lia|]. intros HW. split; rewrite ?HW; try done. lia.
Qed.

Lemma get_sub_put s name ss : get_sub (put_sub s name ss) name = Ok ss.
Proof. unfold get_sub, put_sub. simpl. by rewrite lookup_insert_eq. Qed.

Lemma put_put s name ss ss' : put_sub (put_sub s name ss) name ss' = put_sub s name ss'.
Proof. unfold put_sub, sp_set_subs. simpl. by rewrite insert_insert_eq. Qed.

Lemma UpdateWatermark_Ok ss i u ts :
  NextUpstreamIdx ss = Z.of_nat i → Upstreams ss !! i = Some u → (up_WM u < ts)%Z →
  UpdateWatermark ss ts = Ok (ss_set ss (<[i := NewUpstream (UpstreamWorkerId u) (Connection u) (InputBuffer u) ts]> (Upstreams ss)) (Z.of_nat i)).
Proof.
  intros Hi Hu Hlt. unfold UpdateWatermark, idxZ, idx, set_idxZ, set_idx, wm_Update. rewrite Hi, (proj2 (Z.ltb_ge _ _)), Nat2Z.id by lia.
  rewrite Hu, bind_Ok, (proj2 (Z.leb_gt _ _)) by done. cbn [fatal_if]. rewrite !bind_Ok. by rewrite bool_decide_true by by eapply lookup_lt_Some.
Qed.

(** A watermark that was read from the channel at the pointer. *)
Lemma turn_watermark s j name ss ss' i u u' rest ts :
  sup_wf s → SubSuppliers s !! name = Some ss → NextUpstreamIdx ss' = Z.of_nat i → Upstreams ss !! i = Some u → (-1 ≤ j)%Z →
  ss' = ss_set ss (<[i := u']> (Upstreams ss)) (Z.of_nat i) → InputBuffer u = WatermarkUnit ts :: InputBuffer u' →
  Connection u' = Connection u → up_WM u' = up_WM u → channels s ≡ₚ u :: rest →
  ∃ s' wm, handleWatermark (put_sub (sp_set_next s j) name ss') ts name = Ok (s', wm) ∧ sup_wf s' ∧
    reads s s' (option_list (option_map WatermarkUnit wm)) ∧ NextSubSupplierIdx s' = j ∧ SubSupplierList s' = SubSupplierList s.
Proof.
  intros Hwf Hss Hi Hu Hj Hss' Hbuf Hconn HWM Hch. pose proof (wf_channels _ Hwf) as Hall. rewrite Hch in Hall.
  apply Forall_cons in Hall as [Hdu Hrest]. set (u2 := NewUpstream (UpstreamWorkerId u') (Connection u') (InputBuffer u') ts).
  destruct (data_channel_read u (WatermarkUnit ts) u2 Hdu Hbuf Hconn) as [Hlt Hd2]. specialize (Hd2 eq_refl).
  assert (Hlen : i < length (Upstreams ss)) by by eapply lookup_lt_Some.
  set (ss2 := ss_set ss (<[i := u2]> (Upstreams ss)) (Z.of_nat i)). set (s2 := put_sub (sp_set_next s j) name ss2).
  assert (Hss2 : Upstreams ss2 ≠ []).
  { simpl. intros Hnil%(f_equal length). rewrite length_insert in Hnil. simpl in Hnil. lia. }
  assert (Hstep : handleWatermark (put_sub (sp_set_next s j) name ss') ts name = checkTaskWatermarkProgress s2).
  { unfold handleWatermark. rewrite get_sub_put, bind_Ok, (UpdateWatermark_Ok ss' i u' ts);
      [|done|rewrite Hss'; by apply list_lookup_insert_eq|lia]. rewrite bind_Ok, put_put. unfold s2, ss2. rewrite Hss'. simpl.
    by rewrite list_insert_insert_eq, (wf_deployed _ Hwf). }
  assert (Hch2 : channels s2 ≡ₚ u2 :: rest).
  { destruct (channels_put s name ss Hss) as (rest0 & Hc0 & Hput). destruct (replace_channel ss ss2 i u u2 rest0) as (r & Hr1 & Hr2); [done..|].
    change (channels s2) with (channels (put_sub s name ss2)). rewrite Hput, Hr2. apply (Permutation_cons_inv (a := u)).
    rewrite perm_swap, <-Hr1, <-Hc0, Hch. apply perm_swap. }
  assert (Hmin : (min_all (u :: rest) ≤ min_all (u2 :: rest))%Z) by (unfold min_all; simpl; lia).
  assert (Hge : Forall (λ u, -1 ≤ up_WM u)%Z (u2 :: rest)).
  { constructor; [apply Hd2|]. eapply Forall_impl; [exact Hrest|]. intros v Hv. apply Hv. }
  assert (HT : TaskWatermark s2 = min_all (u :: rest)) by (rewrite <-Hch; apply Hwf).
  assert (-1 ≤ min_all (u :: rest))%Z by (rewrite <-Hch; apply min_all_ge; eapply Forall_impl; [apply Hwf|]; intros v Hv; apply Hv).
  destruct (check_watermark s2) as (wm & Hrun & Hwm).
  - intros name' ss1. unfold s2. simpl. rewrite lookup_insert_Some. intros [[_ <-]|[_ Hl]]; [done|]. by apply (wf_subs _ Hwf name').
  - by rewrite Hch2.
  - rewrite HT, Hch2. lia.
  - rewrite Hstep, Hrun. do 2 eexists. split; [done|]. split_and!; [| |done|done].
    + apply (sup_wf_put s _ name ss ss2); try done; [apply Hwf|simpl; lia|].
      change (Forall data_channel (channels s2)). rewrite Hch2. by constructor.
    + exists u, (WatermarkUnit ts), u2, rest. split_and!; try done. rewrite Hwm. change (TaskWatermark s) with (TaskWatermark s2).
      cbn [TaskWatermark sp_set_wm]. by case_decide.
Qed.

Lemma turn_reads s j name ss ss' w :
  sup_wf s → SubSuppliers s !! name = Some ss → has_read ss ss' w → (-1 ≤ NextUpstreamIdx ss')%Z → (-1 ≤ j)%Z →
  ∃ s' out, preprocessWorkUnit (put_sub (sp_set_next s j) name ss') w name = Ok (s', out) ∧ sup_wf s' ∧
    reads s s' (option_list out) ∧ NextSubSupplierIdx s' = j ∧ SubSupplierList s' = SubSupplierList s.
Proof.
  intros Hwf Hss (i & u & u' & Hi & Hu & Hread & Hss') Hptr Hj.
  assert (Hbuf : InputBuffer u = w :: InputBuffer u' ∧ Connection u' = Connection u ∧ up_WM u' = up_WM u).
  { destruct u as [? conn [|x buf] ?]; [done|]. simpl in Hread. by injection Hread as <- <-. }
  destruct Hbuf as (Hbuf & Hconn & HWM). destruct (channels_put s name ss Hss) as (rest0 & Hch & Hput).
  destruct (replace_channel ss ss' i u u' rest0) as (rest & Hr1 & Hr2); [done|by rewrite Hss'|]. rewrite Hr1 in Hch.
  pose proof (wf_channels _ Hwf) as Hall. rewrite Hch in Hall. apply Forall_cons in Hall as [Hdu Hrest].
  pose proof (data_channel_read u w u' Hdu Hbuf Hconn) as Hd. unfold preprocessWorkUnit. destruct w as [rs| |ts| | | | |]; try done.
  - do 2 eexists. split; [done|].
    assert (Hch1 : channels (put_sub (sp_set_next s j) name ss') ≡ₚ u' :: rest) by (rewrite <-Hr2; apply (Hput ss')).
    split_and!; [|exists u, (BatchUnit rs), u', rest; by split_and!|done|done].
    apply (sup_wf_put s _ name ss ss'); try done; [apply Hwf| | |].
    + rewrite Hss'. simpl. intros Hnil%(f_equal length). rewrite length_insert in Hnil. apply lookup_lt_Some in Hu. simpl in Hnil. lia.
    + rewrite Hch1. constructor; [by apply Hd|done].
    + rewrite Hch1. simpl. rewrite (wf_watermark _ Hwf), Hch. unfold min_all. simpl. by rewrite HWM.
  - destruct (turn_watermark s j name ss ss' i u u' rest ts) as (s' & wm & -> & Hw & Hr & Hn & Hl); try done.
    rewrite bind_Ok. by do 2 eexists.
Qed.

Lemma turn_total s : sup_wf s →
  ∃ s' out, sp_step s Turn = Ok (s', out) ∧ sup_wf s' ∧ SubSupplierList s' = SubSupplierList s ∧
    NextSubSupplierIdx s' = Z.of_nat (after (NextSubSupplierIdx s) (size (SubSuppliers s))) ∧ (quiet s s' out ∨ reads s s' out).
Proof.
  intros Hwf. pose proof (wf_next _ Hwf) as Hn. cbn [sp_step]. unfold get_turn, incrementNextSubSupplierIdx.
  assert (Hsize : 0 < size (SubSuppliers s)).
  { assert (size (SubSuppliers s) ≠ 0) by (intros ?%map_size_empty_inv; by apply (wf_some _ Hwf)). lia. }
  assert (Hlen : length (SubSupplierList s) = size (SubSuppliers s)).
  { rewrite (wf_list _ Hwf), length_fmap. apply length_map_to_list. }
  set (j := if (Z.of_nat (size (SubSuppliers s)) <=? NextSubSupplierIdx s + 1)%Z then 0%Z else (NextSubSupplierIdx s + 1)%Z).
  assert (Hjr : (0 ≤ j < Z.of_nat (size (SubSuppliers s)))%Z) by (unfold j; destruct (Z.leb_spec (Z.of_nat (size (SubSuppliers s))) (NextSubSupplierIdx s + 1)); lia).
  assert (Hjd : j = Z.of_nat (after (NextSubSupplierIdx s) (size (SubSuppliers s)))).
  { unfold j, after. destruct (Z.leb_spec (Z.of_nat (size (SubSuppliers s))) (NextSubSupplierIdx s + 1)); case_decide; lia. }
  destruct (lookup_lt_is_Some_2 (SubSupplierList s) (Z.to_nat j)) as [name Hname]; [lia|].
  unfold idxZ, idx. rewrite (proj2 (Z.ltb_ge _ _)) by lia. rewrite Hname, !bind_Ok.
  assert (is_Some (SubSuppliers s !! name)) as [ss Hss].
  { apply list_elem_of_lookup_2 in Hname. rewrite (wf_list _ Hwf) in Hname. apply list_elem_of_fmap in Hname as ([n' ss] & -> & Hin%elem_of_map_to_list). eauto. }
  unfold get_sub. cbn [SubSuppliers sp_set_next]. rewrite Hss, bind_Ok.
  destruct (wf_subs _ Hwf name ss Hss) as [Hne Hptr]. destruct (ss_GetWorkUnit_Ok ss Hptr) as (ss' & next & Hget & Hptr' & Hnext). rewrite Hget, bind_Ok.
  destruct next as [w|].
  - destruct (turn_reads s j name ss ss' w) as (s' & out & -> & Hw & Hr & Hn' & Hl); try done; [lia|]. rewrite !bind_Ok.
    do 2 eexists. split; [done|]. split_and!; [done|done|by rewrite Hn'|right]. by destruct out.
  - rewrite bind_Ok. do 2 eexists. split; [done|]. destruct Hnext as [k ->].
    destruct (channels_put s name ss Hss) as (rest & Hch & Hput).
    assert (Hsame : channels (put_sub (sp_set_next s j) name (ss_set ss (Upstreams ss) k)) ≡ₚ channels s) by (rewrite Hch; apply (Hput (ss_set ss (Upstreams ss) k))).
    split; [|split_and!; [done|done|left; split_and!; try done]].
    + apply (sup_wf_put s _ name ss (ss_set ss (Upstreams ss) k)); try done; [simpl; lia|apply Hwf|rewrite Hsame; apply Hwf|].
      rewrite Hsame. apply Hwf.
    + intros n. simpl. destruct (decide (n = name)) as [->|Hn']; [by rewrite lookup_insert_eq, Hss|by rewrite lookup_insert_ne].
    + intros name' ss1 u Hn' Hss1 Hu. rewrite Hjd, Nat2Z.id in Hname. rewrite Hname in Hn'. injection Hn' as <-.
      rewrite Hss in Hss1. injection Hss1 as <-. exact (get_None ss _ u Hptr Hget Hu).
Qed.

(** ** Runs *)

Definition left_records (us : list Upstream) : list Tuple := us ≫= λ u, records_of (time_events (up_units u)).

(** The channel's watermark when all of it has been read. *)
Definition final_wm (u : Upstream) : Z := last_watermark (up_WM u) (time_events (up_units u)).

#[export] Instance left_records_perm : Proper ((≡ₚ) ==> (≡ₚ)) left_records.
Proof. intros us us' Hp. unfold left_records. by rewrite Hp. Qed.

(** Records and final watermarks are conserved. *)
Definition conserved (s s' : Supplier) (outs : list WorkUnit) : Prop :=
  records_of (time_events outs) ++ left_records (channels s') ≡ₚ left_records (channels s) ∧
  final_wm <$> channels s' ≡ₚ final_wm <$> channels s.

Lemma conserved_step s s' u u' rest outs :
  channels s ≡ₚ u :: rest → channels s' ≡ₚ u' :: rest →
  records_of (time_events outs) ++ records_of (time_events (up_units u')) = records_of (time_events (up_units u)) →
  final_wm u' = final_wm u → conserved s s' outs.
Proof.
  intros Hc Hc' Hr Hf. split; rewrite Hc, Hc'; [|by rewrite !fmap_cons, Hf].
  unfold left_records. rewrite !bind_cons, app_assoc. by rewrite Hr.
Qed.

Lemma reads_conserved s s' out : reads s s' out → conserved s s' out.
Proof.
  intros (u & w & u' & rest & Hc & Hc' & Hbuf & Hconn & Hw). apply (conserved_step s s' u u' rest); [done..| |].
  - assert (up_units u = w :: up_units u') as -> by (unfold up_units; by rewrite Hbuf, Hconn). destruct w as [rs| |ts| | | | |]; try done.
    + destruct Hw as (_ & -> & _). change (records_of (time_events [BatchUnit rs])) with (rs ++ []). by rewrite app_nil_r.
    + destruct Hw as [_ ->]. by case_decide.
  - unfold final_wm. assert (up_units u = w :: up_units u') as -> by (unfold up_units; by rewrite Hbuf, Hconn).
    destruct w as [rs| |ts| | | | |]; try done; simpl; [by destruct Hw as [-> _]|by destruct Hw as [-> _]].
Qed.

Lemma quiet_conserved s s' out : quiet s s' out → conserved s s' out.
Proof. intros (Hc & -> & _). split; by rewrite Hc. Qed.

Lemma arrive_channels s name i :
  channels (sp_arrive s name i) ≡ₚ channels s ∨
  ∃ u rest, channels s ≡ₚ u :: rest ∧ channels (sp_arrive s name i) ≡ₚ arrive u :: rest.
Proof.
  unfold sp_arrive. destruct (SubSuppliers s !! name) as [ss|] eqn:Hss; [|by left].
  destruct (channels_put s name ss Hss) as (rest & Hch & Hput). destruct (Upstreams ss !! i) as [u|] eqn:Hu.
  - right. destruct (replace_channel ss (ss_set ss (alter arrive i (Upstreams ss)) (NextUpstreamIdx ss)) i u (arrive u) rest) as (r & Hr1 & Hr2); [done| |].
    { simpl. rewrite list_insert_alter. apply list_alter_ext; [|done]. intros x Hx. congruence. }
    exists u, r. by rewrite Hch, Hput.
  - left. rewrite Hput, Hch. simpl.
    rewrite (list_alter_ext arrive id (Upstreams ss) (Upstreams ss)) by (done || intros ? Hx; congruence). by rewrite list_alter_id.
Qed.

Lemma arrive_data u : data_channel u → data_channel (arrive u).
Proof. intros []. split; by rewrite ?up_units_arrive, ?up_WM_arrive. Qed.

Lemma arrive_wf s name i : sup_wf s →
  sup_wf (sp_arrive s name i) ∧ conserved s (sp_arrive s name i) [] ∧ TaskWatermark (sp_arrive s name i) = TaskWatermark s.
Proof.
  intros Hwf. assert (HT : TaskWatermark (sp_arrive s name i) = TaskWatermark s) by (unfold sp_arrive; by case_match).
  assert (Hch : Forall data_channel (channels (sp_arrive s name i)) ∧ min_all (channels (sp_arrive s name i)) = min_all (channels s) ∧
    conserved s (sp_arrive s name i) []).
  { destruct (arrive_channels s name i) as [Hc|(u & rest & Hc & Hc')].
    - rewrite Hc. split_and!; [apply Hwf|done|]. split; by rewrite Hc.
    - pose proof (wf_channels _ Hwf) as Hall. rewrite Hc in Hall. apply Forall_cons in Hall as [Hu Hrest]. rewrite Hc', Hc. split_and!.
      + constructor; [by apply arrive_data|done].
      + unfold min_all. simpl. by rewrite up_WM_arrive.
      + apply (conserved_step _ _ u (arrive u) rest); [done..| |]; unfold final_wm; by rewrite ?up_units_arrive, ?up_WM_arrive. }
  destruct Hch as (Hch & Hmin & Hcon). split; [|done]. unfold sp_arrive in *. destruct (SubSuppliers s !! name) as [ss|] eqn:Hss; [|done].
  destruct (wf_subs _ Hwf name ss Hss) as [Hne Hptr].
  eapply (sup_wf_put s _ name ss); try done; [apply Hwf|apply Hwf| |].
  - simpl. intros Hnil%(f_equal length). rewrite length_alter in Hnil. by destruct (Upstreams ss).
  - by rewrite HT, Hmin, (wf_watermark _ Hwf).
Qed.

Lemma step_total s e : sup_wf s → ∃ s' out, sp_step s e = Ok (s', out) ∧ sup_wf s' ∧ conserved s s' out.
Proof.
  intros Hwf. destruct e as [name i|].
  - destruct (arrive_wf s name i Hwf) as (? & ? & _). by do 2 eexists.
  - destruct (turn_total s Hwf) as (s' & out & Hrun & Hwf' & _ & _ & Hq). exists s', out. split_and!; [done..|].
    destruct Hq; [by apply quiet_conserved|by apply reads_conserved].
Qed.

Lemma conserved_trans s s1 s2 o1 o2 : conserved s s1 o1 → conserved s1 s2 o2 → conserved s s2 (o1 ++ o2).
Proof.
  intros [Hr1 Hf1] [Hr2 Hf2]. split; [|by rewrite Hf2, Hf1]. rewrite <-Hr1, <-Hr2. unfold records_of. by rewrite !bind_app, app_assoc.
Qed.

Lemma run_total s events : sup_wf s →
  ∃ s' outs, sp_run s events = Ok (s', outs) ∧ sup_wf s' ∧ conserved s s' outs.
Proof.
  intros Hwf. destruct (foldM_total (λ st e, '(s', out) ← sp_step st.1 e; Ok (s', st.2 ++ out))
    (λ _ st, sup_wf st.1 ∧ conserved s st.1 st.2) events (s, [])) as ([s' outs] & Hrun & Hwf' & Hc).
  - by split.
  - intros pre e [s1 o1] _ [Hw1 Hc1]. cbn [fst snd] in *. destruct (step_total s1 e Hw1) as (s2 & o2 & -> & Hw2 & Hc2). rewrite bind_Ok.
    eexists. split; [done|]. split; [done|]. by eapply conserved_trans.
  - by exists s', outs.
Qed.

Lemma wf_sup_ok s : sup_wf s → sup_ok s ∧ pointers_ok s.
Proof.
  intros Hwf. split; intros name ss Hss; [|by apply (wf_subs _ Hwf name)]. apply Forall_forall. intros u Hu.
  assert (Hin : u ∈ channels s) by (apply elem_of_channels; eauto). pose proof (wf_channels _ Hwf) as Hall. rewrite Forall_forall in Hall.
  apply chan_ok_weaken with (T := (-1)%Z); [rewrite (wf_watermark _ Hwf); by apply min_all_le|]. by apply (Hall u).
Qed.

(** ** Everything that has arrived is read *)

Definition arrived (s : Supplier) : nat := sum_list ((λ u, length (InputBuffer u)) <$> channels s).

Lemma reads_arrived s s' out : reads s s' out → arrived s = S (arrived s').
Proof.
  intros (u & w & u' & rest & Hc & Hc' & Hbuf & _). unfold arrived. rewrite Hc, Hc'. simpl. by rewrite Hbuf.
Qed.

Lemma same_idle s s' j : SubSupplierList s' = SubSupplierList s → same_channels s s' → idle_at s j → idle_at s' j.
Proof.
  intros Hl Hs Hi name ss u Hn Hss Hu. rewrite Hl in Hn. specialize (Hs name). rewrite Hss in Hs. simpl in Hs.
  destruct (SubSuppliers s !! name) as [ss0|] eqn:Hss0; [|done]. injection Hs as Hus. rewrite Hus in Hu. by apply (Hi name ss0).
Qed.

Lemma same_size s s' : sup_wf s → sup_wf s' → SubSupplierList s' = SubSupplierList s → size (SubSuppliers s') = size (SubSuppliers s).
Proof.
  intros Hw Hw' Hl. rewrite <-!length_map_to_list, <-(length_fmap fst (map_to_list (SubSuppliers s'))), <-(length_fmap fst (map_to_list (SubSuppliers s))).
  by rewrite <-(wf_list _ Hw), <-(wf_list _ Hw'), Hl.
Qed.

Lemma sp_run_cons s e events :
  sp_run s (e :: events) = ('(s1, o) ← sp_step s e; '(s2, os) ← sp_run s1 events; Ok (s2, o ++ os)).
Proof.
  assert (Hacc : ∀ l s acc, foldM (λ st e, '(s', out) ← sp_step st.1 e; Ok (s', st.2 ++ out)) (s, acc) l =
    ('(s', o) ← sp_run s l; Ok (s', acc ++ o))).
  { induction l as [|e' l IH]; intros s0 acc; unfold sp_run; cbn [foldM]; [by rewrite bind_Ok, app_nil_r|]. cbn [fst snd].
    destruct (sp_step s0 e') as [[s1 o]|]; [|done]. rewrite !bind_Ok, !IH. destruct (sp_run s1 l) as [[s2 os]|]; [|done].
    rewrite !bind_Ok. by rewrite app_assoc. }
  unfold sp_run at 1. cbn [foldM fst snd]. destruct (sp_step s e) as [[s1 o]|]; [|done]. by rewrite !bind_Ok, Hacc.
Qed.

Lemma sp_run_app s l l' : sp_run s (l ++ l') = ('(s1, o) ← sp_run s l; '(s2, os) ← sp_run s1 l'; Ok (s2, o ++ os)).
Proof.
  revert s. induction l as [|e l IH]; intros s; cbn [app].
  { change (sp_run s []) with (Ok (s, @nil WorkUnit)). rewrite bind_Ok. destruct (sp_run s l') as [[s2 os]|]; [|done]. by rewrite bind_Ok. }
  rewrite !sp_run_cons. destruct (sp_step s e) as [[s1 o]|]; [|done]. rewrite !bind_Ok, IH. destruct (sp_run s1 l) as [[s2 o2]|]; [|done].
  rewrite !bind_Ok. destruct (sp_run s2 l') as [[s3 o3]|]; [|done]. rewrite !bind_Ok. by rewrite app_assoc.
Qed.

Lemma turn_connections s s' out : quiet s s' out ∨ reads s s' out → (Connection <$> channels s') ≡ₚ (Connection <$> channels s).
Proof.
  intros [(Hc & _)|(u & w & u' & rest & Hc & Hc' & _ & Hconn & _)]; [by rewrite Hc|]. rewrite Hc, Hc', !fmap_cons. by rewrite Hconn.
Qed.

(** [k] turns read something, or the sub-suppliers they visited are idle. *)
Lemma turns_read s k : sup_wf s →
  ∃ s' outs, sp_run s (replicate k Turn) = Ok (s', outs) ∧ sup_wf s' ∧ SubSupplierList s' = SubSupplierList s ∧
    arrived s' ≤ arrived s ∧ (Connection <$> channels s') ≡ₚ (Connection <$> channels s) ∧
    (arrived s' < arrived s ∨ ∀ m, m < k → idle_at s ((after (NextSubSupplierIdx s) (size (SubSuppliers s)) + m) mod size (SubSuppliers s))).
Proof.
  revert s. induction k as [|k IH]; intros s Hwf; cbn [replicate].
  { exists s, []. split_and!; [done..|]. right. lia. }
  rewrite sp_run_cons. destruct (turn_total s Hwf) as (s1 & o & -> & Hwf1 & Hl1 & Hn1 & Hq). rewrite bind_Ok.
  destruct (IH s1 Hwf1) as (s' & os & -> & Hwf' & Hl' & Hle & Hconn & Hcase). rewrite bind_Ok.
  pose proof (turn_connections s s1 o Hq) as Hconn1. pose proof (same_size s s1 Hwf Hwf1 Hl1) as Hsz.
  assert (Hpos : 0 < size (SubSuppliers s)).
  { assert (size (SubSuppliers s) ≠ 0) by (intros ?%map_size_empty_inv; by apply (wf_some _ Hwf)). lia. }
  pose proof (after_lt (NextSubSupplierIdx s) _ (wf_next _ Hwf) Hpos) as Ha.
  assert (Harr : arrived s1 ≤ arrived s ∧ (reads s s1 o → arrived s1 < arrived s)).
  { destruct Hq as [(Hc & _)|Hr]; [unfold arrived; rewrite Hc; split; [done|]|apply reads_arrived in Hr; lia]. intros Hr%reads_arrived.
    unfold arrived in Hr. rewrite Hc in Hr. lia. }
  eexists _, _. split; [done|]. split_and!; [done|by rewrite Hl'|lia|by rewrite Hconn|].
  destruct Hq as [Hquiet|Hr]; [|left; destruct Harr as [_ Harr]; specialize (Harr Hr); lia].
  destruct Hcase as [?|Hidle]; [left; lia|]. destruct Hquiet as (_ & _ & _ & Hsame & Hid). right.
  intros [|m] Hm; [by rewrite Nat.add_0_r, Nat.mod_small|]. specialize (Hidle m ltac:(lia)). rewrite Hsz, Hn1, after_mod in Hidle by lia.
  rewrite Nat.Div0.add_mod_idemp_l in Hidle. replace (after (NextSubSupplierIdx s) (size (SubSuppliers s)) + S m) with
    (after (NextSubSupplierIdx s) (size (SubSuppliers s)) + 1 + m) by lia.
  apply (same_idle s1 s); [done|by intros n; rewrite (Hsame n)|done].
Qed.

(** A round of turns reads something if anything has arrived. *)
Lemma round_reads s : sup_wf s →
  ∃ s' outs, sp_run s (replicate (size (SubSuppliers s)) Turn) = Ok (s', outs) ∧ sup_wf s' ∧ SubSupplierList s' = SubSupplierList s ∧
    (Connection <$> channels s') ≡ₚ (Connection <$> channels s) ∧ arrived s' ≤ arrived s - 1.
Proof.
  intros Hwf. destruct (turns_read s (size (SubSuppliers s)) Hwf) as (s' & outs & Hrun & Hwf' & Hl & Hle & Hconn & Hcase).
  exists s', outs. split_and!; [done..|]. destruct Hcase as [?|Hidle]; [lia|].
  assert (Hall : ∀ u, u ∈ channels s → InputBuffer u = []).
  { intros u (name & ss & Hss & Hu)%elem_of_channels.
    assert (Hname : name ∈ SubSupplierList s) by (rewrite (wf_list _ Hwf); apply list_elem_of_fmap; exists (name, ss); by rewrite elem_of_map_to_list).
    apply list_elem_of_lookup_1 in Hname as [j Hj]. assert (Hjs : j < size (SubSuppliers s)).
    { apply lookup_lt_Some in Hj. by rewrite (wf_list _ Hwf), length_fmap, length_map_to_list in Hj. }
    destruct (round_covers (after (NextSubSupplierIdx s) (size (SubSuppliers s))) (size (SubSuppliers s)) j) as (k & Hk & Hkj);
      [apply after_lt; [apply Hwf|lia]|done|]. specialize (Hidle k Hk). rewrite Hkj in Hidle. by apply (Hidle name ss u). }
  assert (arrived s = 0); [|lia]. unfold arrived. clear -Hall. induction (channels s) as [|u us IH]; [done|]. simpl.
  rewrite (Hall u) by by left. apply IH. intros v Hv. apply Hall. by right.
Qed.

Lemma rounds_drain s n : sup_wf s → arrived s ≤ n →
  ∃ s' outs, sp_run s (replicate (n * size (SubSuppliers s)) Turn) = Ok (s', outs) ∧ sup_wf s' ∧
    (Connection <$> channels s') ≡ₚ (Connection <$> channels s) ∧ arrived s' = 0.
Proof.
  revert s. induction n as [|n IH]; intros s Hwf Hn; [exists s, []; split_and!; [done..|lia]|].
  cbn [Nat.mul]. rewrite replicate_add, sp_run_app. destruct (round_reads s Hwf) as (s1 & o & -> & Hwf1 & Hl1 & Hc1 & Ha1). rewrite bind_Ok.
  rewrite <-(same_size s s1 Hwf Hwf1 Hl1). destruct (IH s1 Hwf1) as (s' & os & -> & Hwf' & Hc & Ha); [lia|]. rewrite bind_Ok.
  eexists _, _. split_and!; [done|done|by rewrite Hc|done].
Qed.

Lemma all_read s s' outs :
  sup_wf s' → conserved s s' outs → Forall (λ u, up_units u = []) (channels s') →
  records_of (time_events outs) ≡ₚ left_records (channels s) ∧
  TaskWatermark s' = foldr Z.min MaxInt64 (final_wm <$> channels s).
Proof.
  intros Hwf [Hr Hf] Hall. split.
  - rewrite <-Hr. assert (left_records (channels s') = []) as ->; [|by rewrite app_nil_r].
    unfold left_records. clear -Hall. induction Hall as [|u us Hu Hus IH]; [done|]. rewrite bind_cons, Hu. by apply IH.
  - rewrite (wf_watermark _ Hwf). assert (Hp : ∀ l l', l ≡ₚ l' → foldr Z.min MaxInt64 l = foldr Z.min MaxInt64 l').
    { intros l l' Hl. induction Hl; simpl in *; lia. }
    rewrite <-(Hp _ _ Hf). unfold min_all. clear -Hall. induction Hall as [|u us Hu Hus IH]; [done|]. simpl. rewrite IH.
    by assert (final_wm u = up_WM u) as -> by (unfold final_wm; by rewrite Hu).
Qed.

(** ** The reference: an interleaving *)

(** What a channel still has, with its watermark. *)
Definition seen (u : Upstream) : list WorkUnit * Z := (up_units u, up_WM u).

Definition min_seen (cs : list (list WorkUnit * Z)) : Z := foldr (λ c, Z.min c.2) MaxInt64 cs.

(** [interleaves cs outs cs']: units are taken from the fronts of the channels
    [cs] until [cs'] is left.  A batch is handed on as it is; a watermark becomes
    that of its channel, and the minimum over all channels is handed on if it
    has changed. *)
Inductive interleaves : list (list WorkUnit * Z) → list WorkUnit → list (list WorkUnit * Z) → Prop :=
  | interleaves_end cs cs' : cs ≡ₚ cs' → interleaves cs [] cs'
  | interleaves_batch cs rs us wm rest outs cs' :
      cs ≡ₚ (BatchUnit rs :: us, wm) :: rest → interleaves ((us, wm) :: rest) outs cs' →
      interleaves cs (BatchUnit rs :: outs) cs'
  | interleaves_watermark cs ts us wm rest outs cs' :
      cs ≡ₚ (WatermarkUnit ts :: us, wm) :: rest → interleaves ((us, ts) :: rest) outs cs' →
      interleaves cs ((if decide (min_seen cs = min_seen ((us, ts) :: rest)) then []
                       else [WatermarkUnit (min_seen ((us, ts) :: rest))]) ++ outs) cs'.

#[export] Instance min_seen_perm : Proper ((≡ₚ) ==> (=)) min_seen.
Proof. intros cs cs' Hp. unfold min_seen. induction Hp; simpl in *; lia. Qed.

#[export] Instance interleaves_perm : Proper ((≡ₚ) ==> (=) ==> (=) ==> iff) interleaves.
Proof.
  cut (∀ cs1 cs2 outs cs', cs1 ≡ₚ cs2 → interleaves cs1 outs cs' → interleaves cs2 outs cs').
  { intros Hp cs1 cs2 Hcs outs ? <- cs' ? <-. split; by apply Hp. }
  intros cs1 cs2 outs cs' Hp Hi. destruct Hi as [cs cs' He|cs rs us wm rest outs cs' He Hi|cs ts us wm rest outs cs' He Hi].
  - constructor. by rewrite <-Hp.
  - econstructor; [|exact Hi]. by rewrite <-Hp.
  - rewrite (min_seen_perm _ _ Hp). econstructor; [|exact Hi]. by rewrite <-Hp.
Qed.

Lemma min_all_seen us : min_all us = min_seen (seen <$> us).
Proof. unfold min_all, min_seen. induction us as [|u us IH]; [done|]. simpl. by rewrite IH. Qed.

Lemma step_interleaves s e s' out outs cs' : sup_wf s → sp_step s e = Ok (s', out) →
  interleaves (seen <$> channels s') outs cs' → interleaves (seen <$> channels s) (out ++ outs) cs'.
Proof.
  intros Hwf Hstep Hi. destruct e as [name i|].
  - simpl in Hstep. injection Hstep as <- <-. destruct (arrive_channels s name i) as [Hc|(u & rest & Hc & Hc')]; [by rewrite Hc in Hi|].
    rewrite Hc' in Hi. rewrite Hc. rewrite fmap_cons in Hi |- *. unfold seen at 1 in Hi. by rewrite up_units_arrive, up_WM_arrive in Hi.
  - destruct (turn_total s Hwf) as (s1 & o1 & Hrun & Hwf1 & _ & _ & Hq). rewrite Hrun in Hstep. injection Hstep as <- <-.
    destruct Hq as [(Hc & -> & _)|(u & w & u' & rest & Hc & Hc' & Hbuf & Hconn & Hw)]; [by rewrite Hc in Hi|].
    assert (Hun : up_units u = w :: up_units u') by (unfold up_units; by rewrite Hbuf, Hconn).
    assert (HT : TaskWatermark s = min_seen (seen <$> u :: rest)) by (by rewrite (wf_watermark _ Hwf), Hc, min_all_seen).
    assert (HT' : TaskWatermark s1 = min_seen (seen <$> u' :: rest)) by (by rewrite (wf_watermark _ Hwf1), Hc', min_all_seen).
    rewrite Hc. rewrite Hc' in Hi. rewrite fmap_cons in *. change (seen u) with (up_units u, up_WM u) in *. change (seen u') with (up_units u', up_WM u') in *. rewrite Hun in *.
    destruct w as [rs| |ts| | | | |]; try done.
    + destruct Hw as (HW & -> & _). rewrite HW in Hi. by eapply interleaves_batch.
    + destruct Hw as [HW ->]. rewrite HW in *. rewrite HT, HT'. by eapply interleaves_watermark.
Qed.

Lemma run_interleaves s events s' outs : sup_wf s → sp_run s events = Ok (s', outs) → interleaves (seen <$> channels s) outs (seen <$> channels s').
Proof.
  revert s outs. induction events as [|e events IH]; intros s outs Hwf Hrun.
  - injection Hrun as <- <-. by constructor.
  - rewrite sp_run_cons in Hrun. destruct (step_total s e Hwf) as (s1 & o & Hstep & Hwf1 & _). rewrite Hstep, bind_Ok in Hrun.
    apply bind_Ok_inv in Hrun as ([s2 os] & Hrun & [= <- <-]). eapply step_interleaves; [done|exact Hstep|]. by apply IH.
Qed.


(** No channel is starved.  When everything has arrived, a number of turns
    that is the number of units times the number of upstream operators reads
    it all: the task has been given every record, and its watermark is the
    minimum of the channels' last ones. *)
Theorem supplier_drains (s : Supplier) (n : nat) (Hwf : sup_wf s)
    (Harrived : Forall (λ u, Connection u = []) (channels s)) (Hn : arrived s ≤ n) :
  ∃ s' outs, sp_run s (replicate (n * size (SubSuppliers s)) Turn) = Ok (s', outs) ∧
    Forall (λ u, up_units u = []) (channels s') ∧
    records_of (time_events outs) ≡ₚ left_records (channels s) ∧
    TaskWatermark s' = foldr Z.min MaxInt64 (final_wm <$> channels s).
Proof.
  destruct (rounds_drain s n Hwf Hn) as (s' & outs & Hrun & Hwf' & Hc & Ha).
  destruct (run_total s (replicate (n * size (SubSuppliers s)) Turn) Hwf) as (s1 & o1 & Hrun1 & _ & Hcons).
  rewrite Hrun in Hrun1. injection Hrun1 as <- <-.
  assert (Hconn : Forall (λ u, Connection u = []) (channels s')).
  { apply (Forall_fmap Connection (λ c, c = [])). apply (Forall_fmap Connection (λ c, c = [])) in Harrived. by rewrite Hc. }
  assert (Hempty : Forall (λ u, up_units u = []) (channels s')).
  { unfold arrived in Ha. clear -Ha Hconn. induction Hconn as [|u us Hu Hus IH]; [done|]. rewrite fmap_cons in Ha.
    apply Nat.eq_add_0 in Ha as [Hb Ha]. constructor; [|by apply IH]. unfold up_units. rewrite Hu. by destruct (InputBuffer u). }
  destruct (all_read s s' outs Hwf' Hcons Hempty) as [Hr HT]. by exists s', outs.
Qed.
End Merge.

(** ** The channels of the example *)

Definition demo_channels : list Upstream :=
  [demo_channel [demo_batch 5; WatermarkUnit 4] [demo_batch 9]; demo_channel [WatermarkUnit 7] [demo_batch 8];
   demo_channel [WatermarkUnit 6; demo_batch 6] []].

Lemma demo_channels_eq : channels demo_supplier ≡ₚ demo_channels.
Proof. vm_compute. first [reflexivity|solve_Permutation]. Qed.

Lemma demo_sup_wf : sup_wf demo_supplier.
Proof.
  split.
  - vm_compute. reflexivity.
  - simpl. lia.
  - apply insert_non_empty.
  - intros name ss. unfold demo_supplier. cbn [SubSuppliers]. rewrite lookup_insert_Some, lookup_singleton_Some.
    intros [[_ <-]|[_ [_ <-]]]; simpl; (split; [done|lia]).
  - done.
  - rewrite demo_channels_eq. repeat constructor; vm_compute; done.
  - rewrite demo_channels_eq. done.
Qed.


Definition demo_full : Supplier := sp_arrive (sp_arrive demo_supplier "a" 0) "a" 1.

Lemma demo_full_wf : sup_wf demo_full.
Proof. unfold demo_full. apply arrive_wf, arrive_wf, demo_sup_wf. Qed.

Lemma supplier_drains_witness :
  ∃ s' outs, sp_run demo_full (replicate 14 Turn) = Ok (s', outs) ∧ length (records_of (time_events outs)) = 4 ∧ TaskWatermark s' = 4%Z.
Proof.
  destruct (supplier_drains demo_full 7 demo_full_wf) as (s' & outs & Hrun & _ & Hr & HT).
  - vm_compute. repeat constructor.
  - vm_compute. lia.
  - exists s', outs. split; [exact Hrun|]. split; [rewrite Hr; vm_compute; reflexivity|]. rewrite HT. vm_compute. reflexivity.
Defined.
