(* ===== verification/SupplierReconfig.v ===== *)
(** * Suppliers: tracking a lazy reconfiguration

    What a supplier keeps of a reconfiguration is a small automaton: the
    in-flight barriers still expected, and the peers that connect and later
    close.  The code's counters refine it, its log.Fatal calls are exactly the
    events it does not allow, and the flags the control plane waits for are
    raised exactly when everything has happened. *)

From stdpp Require Import prelude gmap strings list.
From Stdlib Require Import ZArith Lia.
From S2P Require Import Prelude Codec WorkUnit KeyMap Supplier.

(** What happens during a reconfiguration: an in-flight barrier is read, a peer
    channel connects, one closes. *)
Inductive rc_event := Barrier | PeerConnects (channelType : Z) | PeerCloses.

Definition rc_step (s : Supplier) (e : rc_event) : res Supplier :=
  match e with
  | Barrier => '(s', _) ← handleInflightBarrier s; Ok s'
  | PeerConnects channelType => count_peer s channelType
  | PeerCloses => peer_closed s
  end.

Fixpoint rc_run (s : Supplier) (es : list rc_event) : res Supplier :=
  match es with
  | [] => Ok s
  | e :: es => s ← rc_step s e; rc_run s es
  end.

(** ** The specification *)

(** How many barriers were read, peers connected, peers closed. *)
Record tally := MkTally { barriers : nat; connects : nat; closes : nat }.

(** With [b] barriers and [p] peers expected: no barrier and no peer more than
    that, and no peer closes before all of them have connected. *)
Definition tally_step (b p : nat) (t : tally) (e : rc_event) : option tally :=
  match e with
  | Barrier => if bool_decide (barriers t < b) then Some (MkTally (S (barriers t)) (connects t) (closes t)) else None
  | PeerConnects _ =>
      if bool_decide (connects t < p) then Some (MkTally (barriers t) (S (connects t)) (closes t)) else None
  | PeerCloses =>
      if bool_decide (connects t = p ∧ closes t < p) then Some (MkTally (barriers t) (connects t) (S (closes t))) else None
  end.

Fixpoint tally_run (b p : nat) (t : tally) (es : list rc_event) : option tally :=
  match es with
  | [] => Some t
  | e :: es => t ← tally_step b p t e; tally_run b p t es
  end.

Definition all_connected (p : nat) (t : tally) : bool := bool_decide (0 < p ∧ connects t = p).
Definition finished (b p : nat) (t : tally) : bool := bool_decide (barriers t = b ∧ closes t = p).

(** The counters and flags of a supplier, given the tally; the record is clean
    before and after a reconfiguration. *)
Definition counters (b p : nat) (t : tally) (sm : gmap Z bool) : Reconfig :=
  MkReconfig
    (if bool_decide (barriers t = b) then 0 else Z.of_nat (barriers t))
    (if bool_decide (barriers t = b) then -1 else Z.of_nat b)
    (if bool_decide (connects t = p) then Z.of_nat (p - closes t) else Z.of_nat (connects t))
    (if bool_decide (closes t = p) then -1 else if bool_decide (connects t = p) then -2 else Z.of_nat p)
    (all_connected p t) (finished b p t) sm.

Definition tally_wf (b p : nat) (t : tally) : Prop :=
  barriers t ≤ b ∧ connects t ≤ p ∧ closes t ≤ p ∧ (closes t = 0 ∨ connects t = p).

(** The channels of a join operator come in pairs, and the sync map has an
    entry for each pair; other operators have no entries. *)
Definition sync_ok (byKey : bool) (sm : gmap Z bool) (p : nat) (e : rc_event) : Prop :=
  match e with
  | PeerConnects ct =>
      byKey = true → ct = 1%Z ∧ sm = ∅ ∨ (ct = 2 ∨ ct = 3)%Z ∧ p = 2 * size sm
  | _ => True
  end.

Ltac rc_cases :=
  repeat match goal with
  | |- context [bool_decide ?P] => case_bool_decide; try lia
  | |- context [(?x <=? ?y)%Z] => destruct (Z.leb_spec x y); try lia
  | |- context [(?x =? ?y)%Z] => destruct (Z.eqb_spec x y); try lia
  end; try lia; simpl.

Lemma validate_ok byKey r ct p :
  sync_ok byKey (PeerChannelSyncMap r) p (PeerConnects ct) →
  ∃ sm, (if byKey then ValidateAndResetPeerChannelSyncMap r ct (Z.of_nat p) else Ok r) = Ok (rc_set_sync r sm).
Proof.
  destruct byKey; [|by exists (PeerChannelSyncMap r); destruct r]. destruct r as [ic ie pc pe ac rt sm]. unfold ValidateAndResetPeerChannelSyncMap. simpl.
  intros [[-> ->]|[Hct Hp]]; [done| |]; simpl.
  - rewrite map_size_empty. simpl. by eexists.
  - assert ((Z.of_nat p `rem` 2 = 0)%Z ∧ (Z.of_nat p ÷ 2 = Z.of_nat (size sm))%Z) as [-> ->]
      by (replace (Z.of_nat p) with (Z.of_nat (size sm) * 2)%Z by lia; by rewrite Z.quot_mul, Z.rem_mul).
    destruct Hct as [-> | ->]; simpl; rewrite Z.eqb_refl; simpl; by eexists.
Qed.

Ltac rc_conclude :=
  refine (ex_intro _ _ (ex_intro _ _ (conj eq_refl (conj _ _))));
  [simpl; rc_cases; f_equal; first [lia | reflexivity] | simpl; repeat split; first [done | lia | intros; exfalso; lia]].

Lemma rc_step_tally s b p t sm e :
  reconfig s = counters b p t sm → tally_wf b p t → (connects t < p → sync_ok (sp_ByKey s) sm p e) →
  match tally_step b p t e with
  | Some t' => ∃ s' sm', rc_step s e = Ok s' ∧ reconfig s' = counters b p t' sm' ∧ tally_wf b p t' ∧
      sp_ByKey s' = sp_ByKey s ∧ (connects t' < p → sm' = sm)
  | None => ∃ msg, rc_step s e = Crash (Fatal msg)
  end.
Proof.
  destruct s as [bk subs ns wm en dp dr r nx sl]. simpl. intros -> Hwf Hns. destruct t as [nb nc nd].
  unfold tally_wf in *. simpl in *. destruct Hwf as (H1 & H2 & H3 & H4).
  destruct e as [|ct|]; unfold tally_step; simpl.
  - case_bool_decide; unfold handleInflightBarrier, counters, all_connected, finished; simpl; rc_cases; try by eexists.
    all: rc_conclude.
  - case_bool_decide; unfold count_peer, counters, all_connected, finished; simpl; rc_cases; try by eexists.
    all: try match goal with |- context [if ?c then _ _ _ _ else Ok ?r] => destruct (validate_ok c r ct p (Hns ltac:(lia))) as [sm' ->] end.
    all: rc_conclude.
  - case_bool_decide; unfold peer_closed, counters, all_connected, finished; simpl; rc_cases; try by eexists.
    all: rc_conclude.
Qed.

Lemma tally_run_wf es b p t t' : tally_wf b p t → tally_run b p t es = Some t' → tally_wf b p t'.
Proof.
  revert t. induction es as [|e es IH]; simpl; intros t Hwf; [by intros [= ->]|].
  destruct (tally_step b p t e) as [t1|] eqn:Et; simpl; [|done]. apply IH. unfold tally_wf, tally_step in *.
  destruct e; case_bool_decide; simplify_eq/=; lia.
Qed.

Lemma rc_run_tally es s b p t sm :
  reconfig s = counters b p t sm → tally_wf b p t → (connects t < p → Forall (sync_ok (sp_ByKey s) sm p) es) →
  match tally_run b p t es with
  | Some t' => ∃ s' sm', rc_run s es = Ok s' ∧ reconfig s' = counters b p t' sm'
  | None => ∃ msg, rc_run s es = Crash (Fatal msg)
  end.
Proof.
  revert s t sm. induction es as [|e es IH]; intros s t sm Hr Hwf Hs; simpl; [eauto|].
  pose proof (rc_step_tally s b p t sm e Hr Hwf (λ Hc, Forall_inv (Hs Hc))) as Hstep.
  destruct (tally_step b p t e) as [t'|] eqn:Et; simpl; [|destruct Hstep as [msg ->]; by exists msg].
  destruct Hstep as (s' & sm' & -> & Hr' & Hwf' & Hbk & Hsm). simpl. apply (IH s' t' sm'); [done|done|].
  intros Hc. rewrite Hbk, (Hsm Hc). apply (Forall_inv_tail (a := e)), Hs. 
  unfold tally_step in Et. destruct e; repeat case_bool_decide; simplify_eq/=; lia.
Qed.

(** The argument of [InitLazyReconfig] for [p] peers: minus one for none. *)
Definition peers_arg (p : nat) : Z := if bool_decide (p = 0) then (-1)%Z else Z.of_nat p.

(** C22: a lazy reconfiguration for which [b] in-flight barriers and [p] peer
    channels are announced.  Whatever happens at the supplier is accepted as
    long as there are no more barriers and peers than that and no peer closes
    before all have connected; anything else ends the process.  On the way,
    [AllInboundPeersConnected] is raised exactly when the last peer connects,
    [ReconfigTerminated] exactly when all barriers have been read and all peers
    have closed, and then the record is clean for the next reconfiguration. *)
Theorem reconfig_tracking (s : Supplier) (sm : gmap Z bool) (b p : nat) (es : list rc_event) :
  reconfig s = MkReconfig 0 (-1) 0 (-1) false false sm → 0 < b → Forall (sync_ok (sp_ByKey s) sm p) es →
  ∃ s1, sp_InitLazyReconfig s (Z.of_nat b) (peers_arg p) = Ok s1 ∧
  match tally_run b p (MkTally 0 0 0) es with
  | None => ∃ msg, rc_run s1 es = Crash (Fatal msg)
  | Some t => ∃ s' sm', rc_run s1 es = Ok s' ∧
      AllInboundPeersConnected (reconfig s') = bool_decide (0 < p ∧ connects t = p) ∧
      ReconfigTerminated (reconfig s') = bool_decide (barriers t = b ∧ closes t = p) ∧
      (barriers t = b → closes t = p → reconfig s' = MkReconfig 0 (-1) 0 (-1) (bool_decide (0 < p)) true sm')
  end.
Proof.
  intros Hr Hb Hs. eexists. split.
  { unfold sp_InitLazyReconfig. rewrite Hr. simpl. rewrite (proj2 (Z.leb_gt _ _)) by lia. done. }
  match goal with |- context [rc_run ?x es] => set (s1 := x) end.
  assert (reconfig s1 = counters b p (MkTally 0 0 0) sm) as Hr1.
  { unfold s1, counters, all_connected, finished, peers_arg. simpl. rc_cases; f_equal; lia. }
  pose proof (rc_run_tally es s1 b p (MkTally 0 0 0) sm Hr1) as Hrun. unfold tally_wf in Hrun. simpl in Hrun.
  specialize (Hrun ltac:(lia) (λ _, Hs)). destruct (tally_run b p _ es) as [t|] eqn:Et; [|done].
  destruct Hrun as (s' & sm' & Hrun & Hfin). exists s', sm'. rewrite Hfin. split_and!; try done.
  intros Hbt Hct. pose proof (tally_run_wf es b p (MkTally 0 0 0) _ ltac:(unfold tally_wf; simpl; lia) Et) as (? & ? & ? & ?).
  unfold counters, all_connected, finished. rc_cases; f_equal; lia.
Qed.

(** Two barriers and one peer; the peer connects between the barriers and
    closes at the end. *)
Lemma reconfig_tracking_witness :
  ∃ s1, sp_InitLazyReconfig (NewSupplier true 1) 2 1 = Ok s1 ∧
    ∃ s', rc_run s1 [Barrier; PeerConnects 1; Barrier; PeerCloses] = Ok s' ∧
      AllInboundPeersConnected (reconfig s') = true ∧ ReconfigTerminated (reconfig s') = true.
Proof.
  destruct (reconfig_tracking (NewSupplier true 1) ∅ 2 1 [Barrier; PeerConnects 1; Barrier; PeerCloses])
    as (s1 & Hinit & s' & sm' & Hrun & Hc & Ht & _).
  - reflexivity.
  - lia.
  - repeat constructor; by left.
  - exists s1. split; [exact Hinit|]. exists s'. by rewrite Hc, Ht.
Defined.
