(* ===== verification/Network.v ===== *)
(** * The data plane on the wire

    [internal/network/downstream.go] writes the units of an output buffer to a
    TCP connection, [internal/network/upstream.go] and the connection setup of
    [internal/supplier/supplier.go] read them back.  The bytes of a tuple are
    those of [Codec.v]; the fixed-width numbers are written by mus-go's raw
    package, a parameter with its documented laws.  The result is that a
    connection carries exactly its units ([Supplier.v] sees a connection as
    such a list), and that at any moment, whatever part of the bytes has
    arrived, what was decoded is a prefix of them. *)

From stdpp Require Import prelude gmap strings list.
From Stdlib Require Import ZArith Lia Ascii.
From S2P Require Import Prelude Codec WorkUnit KeyMap TcpFrames Supplier.

(** ** The raw encodings of mus-go *)

(** [raw.Marshal<Kind>] writes the bytes it returns here; [raw.Unmarshal<Kind>]
    returns the number and the error. *)
Class RawMus := {
  raw_Marshal : Kind → Z → bytes;
  raw_Unmarshal : Kind → bytes → Z * option string
}.

Definition raw_size (kind : Kind) : nat :=
  match kind with
  | KBool | KInt8 | KUint8 => 1
  | KInt16 | KUint16 => 2
  | KInt32 | KUint32 | KFloat32 => 4
  | _ => 8
  end.

(** Documented behaviour: as many bytes as the number has, and unmarshalling
    inverts marshalling whatever follows. *)
Class RawMusLaws `{RawMus} := {
  raw_length : ∀ k z, length (raw_Marshal k z) = raw_size k;
  raw_roundtrip : ∀ k z rest, in_range k z → raw_Unmarshal k (raw_Marshal k z ++ rest) = (z, None)
}.

(** ** Strings

    A Go string is its bytes. *)
Definition string_bytes (s : string) : bytes := (λ a, Z.of_N (N_of_ascii a)) <$> String.list_ascii_of_string s.

Definition bytes_string (l : bytes) : string := String.string_of_list_ascii ((λ z, ascii_of_N (Z.to_N z)) <$> l).

(** ** Sending *)

(** A unit of an output buffer.  The batches of a collector know their size. *)
Inductive out_unit := OBatch (b : Batch) | OUnit (w : WorkUnit).

Section Network.
Context `{Mus, RawMus}.
(** The configured batch size: both sides allocate a buffer of this size and 18
    more bytes once and use it for every unit. *)
Context (BatchSize : nat).

(** [buf := make([]byte, n)], filled from the start. *)
Definition fresh (n : nat) (bs : bytes) : res bytes := write_at (replicate n 0%Z) 0 bs.

(** The metadata a connection starts with. *)
Definition connection_header (OperatorName : string) (channelType workerId : Z) : res bytes :=
  let name := string_bytes OperatorName in
  let operatorIDLength := mus_SizeString name in
  b1 ← fresh 8 (raw_Marshal KUint64 (u64 (Z.of_nat operatorIDLength)));
  b2 ← fresh operatorIDLength (MarshalString name);
  b3 ← fresh 1 (raw_Marshal KUint8 channelType);
  b4 ← fresh 2 (raw_Marshal KUint16 workerId);
  Ok (b1 ++ b2 ++ b3 ++ b4).

(** The loop over the records of a batch: [offset += encoder(record, buf[offset:])]. *)
Definition encode_record (encoder : TupleEncoder) (st : bytes * nat) (record : Tuple) : res (bytes * nat) :=
  let '(buf, offset) := st in
  tail ← go_slice buf offset (length buf);
  '(tail, n) ← encoder record tail;
  Ok (take offset buf ++ tail, offset + n).

(** One unit: the buffer afterwards and the bytes written to the connection;
    [None] closes it.  [consumeTime] is the clock. *)
Definition send_unit (encoder : TupleEncoder) (buf : bytes) (workUnit : out_unit) (consumeTime : Z)
    : res (bytes * option bytes) :=
  match workUnit with
  | OBatch value =>
      buf ← write_at buf 0 (raw_Marshal KUint16 (GetType (BatchUnit [])));
      buf ← write_at buf 2 (raw_Marshal KUint32 (u32 (TotalNumBytes value)));
      buf ← write_at buf 6 (raw_Marshal KUint32 (u32 (Z.of_nat (TotalNumRecords value))));
      buf ← write_at buf 10 (raw_Marshal KInt64 consumeTime);
      '(buf, offset) ← foldM (encode_record encoder) (buf, 18) (Records value);
      Ok (buf, Some (take offset buf))
  | OUnit DrainBarrier =>
      buf ← write_at buf 0 (raw_Marshal KUint16 (GetType DrainBarrier));
      Ok (buf, Some (take 2 buf))
  | OUnit (WatermarkUnit ts) =>
      buf ← write_at buf 0 (raw_Marshal KUint16 (GetType (WatermarkUnit ts)));
      buf ← write_at buf 2 (raw_Marshal KInt64 ts);
      Ok (buf, Some (take 10 buf))
  | OUnit InflightBarrier =>
      buf ← write_at buf 0 (raw_Marshal KUint16 (GetType InflightBarrier));
      Ok (buf, Some (take 2 buf))
  | OUnit (TerminationSignal _) => Ok (buf, None)
  | OUnit (FastForwardMetadata bs) => Ok (buf, Some bs)
  | OUnit (MigratingKeyMap bs) => Ok (buf, Some bs)
  | OUnit _ => Crash (Fatal "Unknown WorkUnit type")
  end.

(** [ConsumeOutputBuffer] over the units it dequeues, each with the time it is
    consumed: all bytes written, and whether the connection was closed. *)
Fixpoint consume_units (encoder : TupleEncoder) (buf : bytes) (units : list (out_unit * Z)) : res (bytes * bool) :=
  match units with
  | [] => Ok ([], false)
  | (workUnit, consumeTime) :: units =>
      '(buf, sent) ← send_unit encoder buf workUnit consumeTime;
      match sent with
      | None => Ok ([], true)
      | Some bs => '(rest, closed) ← consume_units encoder buf units; Ok (bs ++ rest, closed)
      end
  end.

Definition ConsumeOutputBuffer (encoder : TupleEncoder) (OperatorName : string) (channelType workerId : Z)
    (units : list (out_unit * Z)) : res (bytes * bool) :=
  header ← connection_header OperatorName channelType workerId;
  '(bs, closed) ← consume_units encoder (replicate (BatchSize + 18) 0%Z) units;
  Ok (header ++ bs, closed).

(** ** Receiving

    [conn] is what has arrived and was not read yet; a read that needs more
    blocks. *)

(** [ReadAll(conn, buf[offset:], n)] *)
Definition read_at (buf : bytes) (offset n : nat) (conn : bytes) : res (bytes * bytes) :=
  panic_if (bool_decide (length buf < offset + n));;
  '(bs, conn) ← ReadAll conn n;
  buf ← write_at buf offset bs;
  Ok (buf, conn).

(** A number of the metadata. *)
Definition read_num (kind : Kind) (buf : bytes) (offset : nat) (conn : bytes) : res (Z * bytes * bytes) :=
  '(buf, conn) ← read_at buf offset (raw_size kind) conn;
  tail ← go_slice buf offset (length buf);
  let '(v, err) := raw_Unmarshal kind tail in
  match err with
  | Some _ => Crash (Fatal "Error decoding")
  | None => Ok (v, buf, conn)
  end.

(** The records of a batch, decoded into the slots of a pooled batch. *)
Fixpoint decode_records (decoder : TupleDecoder) (slots : nat → Tuple) (buf : bytes) (offset i n : nat) : res (list Tuple) :=
  match n with
  | O => Ok []
  | S n =>
      tail ← go_slice buf offset (length buf);
      '(t, k, err) ← decoder (slots i) tail;
      match err with
      | Some _ => Crash (Fatal "Error decoding batch data")
      | None => ts ← decode_records decoder slots buf (offset + k) (S i) n; Ok (t :: ts)
      end
  end.

Definition receive_unit (decoder : TupleDecoder) (slots : nat → Tuple) (buf conn : bytes) : res (WorkUnit * bytes * bytes) :=
  '(workUnitType, buf, conn) ← read_num KUint16 buf 0 conn;
  if (workUnitType =? GetType (BatchUnit []))%Z then
    '(batchSize, buf, conn) ← read_num KUint32 buf 2 conn;
    '(numRecords, buf, conn) ← read_num KUint32 buf 6 conn;
    '(_, buf, conn) ← read_num KInt64 buf 10 conn;
    '(buf, conn) ← read_at buf 18 (Z.to_nat batchSize) conn;
    records ← decode_records decoder slots buf 18 0 (Z.to_nat numRecords);
    Ok (BatchUnit records, buf, conn)
  else if (workUnitType =? GetType DrainBarrier)%Z then Ok (DrainBarrier, buf, conn)
  else if (workUnitType =? GetType (WatermarkUnit 0))%Z then
    '(timestamp, buf, conn) ← read_num KInt64 buf 2 conn;
    Ok (WatermarkUnit timestamp, buf, conn)
  else if (workUnitType =? GetType InflightBarrier)%Z then Ok (InflightBarrier, buf, conn)
  else if (workUnitType =? GetType (FastForwardMetadata []))%Z then
    '(metadataSize, buf, conn) ← read_num KUint32 buf 2 conn;
    '(metadataBuf, conn) ← ReadAll conn (Z.to_nat metadataSize);
    Ok (FastForwardMetadata metadataBuf, buf, conn)
  else Crash (Fatal "Unsupported WorkUnit type").

(** [SupplyInputBuffer]: the units it enqueues, as far as the bytes go.  The end
    of a closed connection is a termination; [fuel] bounds the number of units,
    each of which takes at least two bytes. *)
Fixpoint supply_units (decoder : TupleDecoder) (slots : nat → nat → Tuple) (closed isPeer : bool) (fuel : nat) (buf conn : bytes)
    : res (list WorkUnit) :=
  match fuel with
  | O => Ok []
  | S fuel =>
      match receive_unit decoder (slots fuel) buf conn with
      | Ok (w, buf, conn) => ws ← supply_units decoder slots closed isPeer fuel buf conn; Ok (w :: ws)
      | Crash Blocked =>
          if closed then
            if length conn <? 2 then Ok [TerminationSignal isPeer] else Crash (Fatal "Error tcp reading")
          else Ok []
      | Crash c => Crash c
      end
  end.

Definition SupplyInputBuffer (decoder : TupleDecoder) (slots : nat → nat → Tuple) (closed isPeer : bool) (conn : bytes) : res (list WorkUnit) :=
  supply_units decoder slots closed isPeer (S (length conn)) (replicate (BatchSize + 18) 0%Z) conn.

Definition getConnectionMetadata (conn : bytes) : res (string * Z * Z * bytes) :=
  '(len, _, conn) ← read_num KUint64 (replicate 8 0%Z) 0 conn;
  '(buf, conn) ← ReadAll conn (Z.to_nat len);
  let '(upstreamName, _, err) := UnmarshalString buf in
  fatal_if (bool_decide (is_Some err)) "Error decoding operatorID";;
  '(channelType, _, conn) ← read_num KUint8 (replicate 1 0%Z) 0 conn;
  '(upstreamWorkerID, _, conn) ← read_num KUint16 (replicate 2 0%Z) 0 conn;
  Ok (bytes_string upstreamName, channelType, upstreamWorkerID, conn).

(** The key maps at the start of a primary peer channel, as one unit with its
    header; the setup of the connection checks its length. *)
Definition read_key_map (conn : bytes) : res (WorkUnit * bytes) :=
  '(workUnitType, buf, conn) ← read_num KUint16 (replicate 2 0%Z) 0 conn;
  fatal_if (negb (workUnitType =? MigratingKeyMapWorkUnit)%Z)
    "Expected MigratingKeyMap work unit at the beginning of primary peer channel";;
  '(len, conn) ← ReadAll conn 4;
  '(keyMap, conn) ← ReadAll conn (Z.to_nat (be_decode len));
  Ok (MigratingKeyMap (buf ++ len ++ keyMap), conn).

(** The channel types that start with key maps. *)
Definition has_key_map (byKey : bool) (channelType : Z) : bool := ((channelType =? 1) || (channelType =? 2))%Z && byKey.

(** A connection as [Supplier.v] takes it. *)
Definition receive_connection (decoder : TupleDecoder) (slots : nat → nat → Tuple) (byKey closed : bool) (conn : bytes) : res Conn :=
  '(name, channelType, workerId, conn) ← getConnectionMetadata conn;
  '(first, conn) ← (if has_key_map byKey channelType then '(w, conn) ← read_key_map conn; Ok ([w], conn) else Ok ([], conn));
  units ← SupplyInputBuffer decoder slots closed (negb (channelType =? 0)%Z) conn;
  Ok (MkConn name channelType workerId (first ++ units)).
End Network.

(** ** Reading is monotone

    A read that has all it needs does not depend on what arrives later. *)

Definition reads_mono {A} (f : bytes → res (A * bytes)) : Prop := ∀ p q,
  match f p with
  | Ok (a, c) => f (p ++ q) = Ok (a, c ++ q)
  | Crash Blocked => True
  | Crash e => f (p ++ q) = Crash e
  end.

Lemma mono_ReadAll n : reads_mono (λ conn, ReadAll conn n).
Proof.
  intros p q. unfold ReadAll. destruct (Nat.ltb_spec (length p) n); [done|].
  rewrite (proj2 (Nat.ltb_ge _ _)) by (rewrite length_app; lia). by rewrite take_app_le, drop_app_le by lia.
Qed.

Lemma mono_ret {A} (a : A) : reads_mono (λ conn, Ok (a, conn)).
Proof. by intros p q. Qed.

Lemma mono_crash {A} e : reads_mono (λ conn, Crash e : res (A * bytes)).
Proof. by intros p q; destruct e. Qed.

Lemma mono_bind {A B} (f : bytes → res (A * bytes)) (g : A * bytes → res (B * bytes)) :
  reads_mono f → (∀ a, reads_mono (λ c, g (a, c))) → reads_mono (λ conn, f conn ≫= g).
Proof.
  intros Hf Hg p q. specialize (Hf p q). simpl in *. destruct (f p) as [[a c]|e]; simpl.
  - specialize (Hg a c q). rewrite Hf. simpl. simpl in Hg. destruct (g (a, c)) as [[b c']|[]]; done.
  - destruct e; try done; by rewrite Hf.
Qed.

Lemma mono_bind_pure {A B} (m : res A) (g : A → bytes → res (B * bytes)) :
  (∀ a, reads_mono (g a)) → reads_mono (λ conn, a ← m; g a conn).
Proof. intros Hg p q. destruct m as [a|e]; simpl; [apply Hg|by destruct e]. Qed.

Create HintDb mono.
#[export] Hint Resolve mono_ReadAll mono_ret mono_crash : mono.

Ltac mono :=
  repeat first
    [ solve [auto with mono]
    | apply mono_bind_pure; intros ?
    | apply mono_bind; [|intros ?; simpl]
    | progress intros [] ].

Section Mono.
Context `{Mus, RawMus}.

Lemma mono_read_at buf offset n : reads_mono (read_at buf offset n).
Proof.
  unfold read_at. intros p q. case_bool_decide; [done|]. revert p q. change (reads_mono (λ conn, '(bs, conn) ← ReadAll conn n;
    buf ← write_at buf offset bs; Ok (buf, conn))). mono.
Qed.

Lemma mono_read_num kind buf offset : reads_mono (read_num kind buf offset).
Proof.
  unfold read_num. apply mono_bind; [apply mono_read_at|]. intros b. apply mono_bind_pure. intros tail.
  destruct (raw_Unmarshal kind tail) as [v [e|]]; mono.
Qed.

Lemma mono_receive_unit decoder slots buf : reads_mono (receive_unit decoder slots buf).
Proof.
  unfold receive_unit. apply mono_bind; [apply mono_read_num|]. intros [ty b]. simpl.
  repeat case_match; try solve [mono].
  all: repeat (apply mono_bind; [first [apply mono_read_num | apply mono_read_at | apply mono_ReadAll]|]; intros a;
    repeat match goal with x : _ * _ |- _ => destruct x end; simpl); mono.
Qed.

Lemma mono_metadata : reads_mono getConnectionMetadata.
Proof.
  unfold getConnectionMetadata. apply mono_bind; [apply mono_read_num|]. intros [len b]. simpl.
  apply mono_bind; [apply mono_ReadAll|]. intros buf. destruct (UnmarshalString buf) as [[nm n] e].
  apply mono_bind_pure. intros [].
  apply mono_bind; [apply mono_read_num|]. intros [ct ?]. simpl.
  apply mono_bind; [apply mono_read_num|]. intros [wid ?]. simpl. mono.
Qed.

Lemma mono_key_map : reads_mono read_key_map.
Proof.
  unfold read_key_map. apply mono_bind; [apply mono_read_num|]. intros [ty b]. simpl. mono.
Qed.
End Mono.

(** ** What a unit looks like on the wire *)

Section Wire.
Context `{MusLaws, RawMusLaws}.
Context {tys : list Kind} {enc : TupleEncoder} {dec : TupleDecoder} {siz : TupleSizer}.
Context (Hcodec : codec_of tys enc dec siz).
Context (BatchSize : nat).

Definition records_bytes (records : list Tuple) : bytes := records ≫= tuple_bytes.

Definition unit_bytes (u : out_unit) (consumeTime : Z) : bytes :=
  match u with
  | OBatch b => raw_Marshal KUint16 1 ++ raw_Marshal KUint32 (TotalNumBytes b) ++
      raw_Marshal KUint32 (Z.of_nat (TotalNumRecords b)) ++ raw_Marshal KInt64 consumeTime ++ records_bytes (Records b)
  | OUnit (WatermarkUnit ts) => raw_Marshal KUint16 3 ++ raw_Marshal KInt64 ts
  | OUnit (FastForwardMetadata bs) => bs
  | OUnit w => raw_Marshal KUint16 (GetType w)
  end.

(** What a collector puts into its output buffers. *)
Definition batch_ok (b : Batch) : Prop :=
  Forall (well_typed tys) (Records b) ∧ TotalNumBytes b = Z.of_nat (length (records_bytes (Records b))) ∧
  TotalNumRecords b = length (Records b) ∧ (TotalNumBytes b ≤ Z.of_nat BatchSize)%Z.

(** [SerializeToFastForwardMetadata]: the header and the metadata. *)
Definition metadata_ok (bs : bytes) : Prop :=
  ∃ meta, bs = raw_Marshal KUint16 7 ++ raw_Marshal KUint32 (Z.of_nat (length meta)) ++ meta ∧
    is_u32 (Z.of_nat (length meta)).

Definition out_ok (u : out_unit) : Prop :=
  match u with
  | OBatch b => batch_ok b
  | OUnit (WatermarkUnit ts) => is_i64 ts
  | OUnit (FastForwardMetadata bs) => metadata_ok bs
  | OUnit DrainBarrier | OUnit InflightBarrier => True
  | OUnit _ => False
  end.

(** The unit that the other side sees. *)
Definition delivered (u : out_unit) : WorkUnit :=
  match u with
  | OBatch b => BatchUnit (Records b)
  | OUnit (FastForwardMetadata bs) => FastForwardMetadata (drop 6 bs)
  | OUnit w => w
  end.

Context (Hsize : is_u32 (Z.of_nat BatchSize)).

Lemma write_at_Ok (a b c bs : bytes) offset :
  length a = offset → length b = length bs → write_at (a ++ b ++ c) offset bs = Ok (a ++ bs ++ c).
Proof.
  intros <- Hb. unfold write_at. rewrite bool_decide_false by (rewrite !length_app; lia). simpl.
  rewrite take_app_length, (app_assoc a b c), (drop_app_length' (a ++ b)) by (rewrite length_app; lia). done.
Qed.

(** The buffer after a write at the end of the part written so far. *)
Lemma write_next (a buf bs : bytes) offset :
  length a = offset → offset + length bs ≤ length buf →
  write_at (a ++ drop offset buf) offset bs = Ok ((a ++ bs) ++ drop (offset + length bs) buf).
Proof.
  intros Ha Hl. replace (drop offset buf) with (take (length bs) (drop offset buf) ++ drop (offset + length bs) buf)
    by by rewrite <-drop_drop, take_drop.
  rewrite write_at_Ok by (done || rewrite length_take, length_drop; lia). by rewrite app_assoc.
Qed.

Lemma write_first (buf bs : bytes) : length bs ≤ length buf → write_at buf 0 bs = Ok (bs ++ drop (length bs) buf).
Proof. intros Hl. apply (write_next [] buf bs 0 eq_refl). done. Qed.

Lemma records_bytes_cons r rs : records_bytes (r :: rs) = tuple_bytes r ++ records_bytes rs.
Proof. done. Qed.

Lemma encode_records_Ok rs : ∀ a buf offset,
  Forall (well_typed tys) rs → length a = offset → offset + length (records_bytes rs) ≤ length buf →
  foldM (encode_record enc) (a ++ drop offset buf, offset) rs =
    Ok ((a ++ records_bytes rs) ++ drop (offset + length (records_bytes rs)) buf, offset + length (records_bytes rs)).
Proof.
  induction rs as [|r rs IH]; intros a buf offset Hwt Ha Hl; [simpl; by rewrite app_nil_r, Nat.add_0_r|].
  apply Forall_cons in Hwt as [Hr Hrs]. rewrite records_bytes_cons in *. rewrite length_app in *.
  subst offset. cbn [foldM encode_record]. rewrite go_slice_tail, bind_Ok.
  rewrite (codec_encode Hcodec) by (done || rewrite length_drop; lia).
  rewrite bind_Ok. cbv beta iota. rewrite bind_Ok.
  rewrite drop_drop, take_app_length, (app_assoc a (tuple_bytes r) (drop _ _)).
  rewrite (IH (a ++ tuple_bytes r) buf (length a + length (tuple_bytes r))) by (done || rewrite ?length_app; lia).
  rewrite <-!app_assoc, Nat.add_assoc. done.
Qed.

Lemma records_count rs : Forall (well_typed tys) rs → length rs ≤ length (records_bytes rs).
Proof.
  induction 1 as [|r rs Hr _ IH]; [done|]. rewrite records_bytes_cons, length_app.
  pose proof (tuple_bytes_nonempty r (proj2 Hr)). simpl. lia.
Qed.

Lemma batch_numbers b : batch_ok b → is_u32 (TotalNumBytes b) ∧ is_u32 (Z.of_nat (TotalNumRecords b)).
Proof.
  intros (Hwt & Hbytes & Hnum & Hle). pose proof (records_count _ Hwt). unfold is_u32 in *. lia.
Qed.

Lemma write_num (k : Kind) (z : Z) (a buf : bytes) offset :
  length a = offset → offset + raw_size k ≤ length buf →
  write_at (a ++ drop offset buf) offset (raw_Marshal k z) = Ok ((a ++ raw_Marshal k z) ++ drop (offset + raw_size k) buf).
Proof. intros Ha Hl. rewrite write_next by (rewrite ?raw_length; done). by rewrite raw_length. Qed.

(** A written prefix of the buffer, sent. *)
Lemma take_sent (a buf : bytes) n : length a = n → take n (a ++ drop n buf) = a.
Proof. intros <-. apply take_app_length. Qed.

Lemma length_written (a buf : bytes) n : length a = n → n ≤ length buf → length (a ++ drop n buf) = length buf.
Proof. intros <- ?. rewrite length_app, length_drop. lia. Qed.

Lemma send_batch_Ok b consumeTime buf :
  batch_ok b → length buf = BatchSize + 18 →
  ∃ buf', send_unit enc buf (OBatch b) consumeTime = Ok (buf', Some (unit_bytes (OBatch b) consumeTime)) ∧
    length buf' = BatchSize + 18.
Proof.
  intros Hok Hb. destruct (batch_numbers b Hok) as [Hn1 Hn2]. destruct Hok as (Hwt & Hbytes & Hnum & Hle).
  unfold send_unit. rewrite !u32_id by done.
  rewrite (write_num KUint16 _ [] buf 0), bind_Ok by (simpl; lia).
  rewrite (write_num KUint32), bind_Ok by (rewrite ?length_app, ?raw_length; simpl; lia).
  rewrite (write_num KUint32), bind_Ok by (rewrite ?length_app, ?raw_length; simpl; lia).
  rewrite (write_num KInt64), bind_Ok by (rewrite ?length_app, ?raw_length; simpl; lia).
  cbn [raw_size Nat.add]. rewrite encode_records_Ok, bind_Ok by (done || rewrite ?length_app, ?raw_length; simpl; lia).
  eexists. split; [do 3 f_equal|].
  - rewrite take_sent by (rewrite !length_app, !raw_length; simpl; lia). unfold unit_bytes. by rewrite <-!app_assoc.
  - by rewrite length_written by (rewrite ?length_app, ?raw_length; simpl; lia).
Qed.

Lemma send_unit_Ok u consumeTime buf :
  out_ok u → length buf = BatchSize + 18 →
  ∃ buf', send_unit enc buf u consumeTime = Ok (buf', Some (unit_bytes u consumeTime)) ∧ length buf' = BatchSize + 18.
Proof.
  intros Hu Hb. destruct u as [b|w]; [by apply send_batch_Ok|].
  destruct w as [| |ts| | | |bs|]; try done; cbn [send_unit unit_bytes]; [| | |by exists buf];
    rewrite (write_num KUint16 _ [] buf 0), bind_Ok by (simpl; lia).
  2: rewrite (write_num KInt64), bind_Ok by (rewrite ?length_app, ?raw_length; simpl; lia).
  all: eexists; split; [do 3 f_equal; cbn [raw_size Nat.add];
      rewrite take_sent by (rewrite ?length_app, ?raw_length; done); done
    |rewrite length_written; rewrite ?length_app, ?raw_length; simpl; lia].
Qed.

(** ** Receiving what was sent *)

Lemma read_at_Ok (a buf bs rest : bytes) offset :
  length a = offset → offset + length bs ≤ length buf →
  read_at (a ++ drop offset buf) offset (length bs) (bs ++ rest) = Ok ((a ++ bs) ++ drop (offset + length bs) buf, rest).
Proof.
  intros Ha Hl. unfold read_at. rewrite bool_decide_false by (rewrite length_written by lia; lia). simpl.
  rewrite ReadAll_app, bind_Ok by done. rewrite write_next by done. done.
Qed.

Lemma read_num_Ok k z (a buf rest : bytes) offset :
  length a = offset → offset + raw_size k ≤ length buf → in_range k z →
  read_num k (a ++ drop offset buf) offset (raw_Marshal k z ++ rest) =
    Ok (z, (a ++ raw_Marshal k z) ++ drop (offset + raw_size k) buf, rest).
Proof.
  intros Ha Hl Hz. unfold read_num. rewrite <-(raw_length k z) at 1. rewrite read_at_Ok by (rewrite ?raw_length; done).
  rewrite bind_Ok, raw_length. rewrite <-(app_assoc a). subst offset. rewrite go_slice_tail, bind_Ok.
  rewrite raw_roundtrip by done. done.
Qed.

Section Slots.
Context (slots : nat → Tuple) (Hslots : ∀ i, Forall2 (λ k o, type_of o = predeclared k) tys (fields (slots i))).

Lemma decode_records_Ok rs : ∀ (a tail : bytes) offset i,
  Forall (well_typed tys) rs → length a = offset →
  decode_records dec slots (a ++ records_bytes rs ++ tail) offset i (length rs) = Ok rs.
Proof.
  induction rs as [|r rs IH]; intros a tail offset i Hwt Ha; [done|]. apply Forall_cons in Hwt as [Hr Hrs].
  subst offset. cbn [length decode_records]. rewrite go_slice_tail, bind_Ok, records_bytes_cons, <-app_assoc.
  rewrite (codec_decode Hcodec) by done. rewrite bind_Ok.
  rewrite (app_assoc a), IH by (done || by rewrite length_app). done.
Qed.

Lemma in_range16 z : is_u16 z → in_range KUint16 z.
Proof. by exists 0%Z, (2 ^ 16)%Z. Qed.

Lemma in_range32 z : is_u32 z → in_range KUint32 z.
Proof. by exists 0%Z, (2 ^ 32)%Z. Qed.

Ltac wire_side :=
  rewrite ?length_app, ?raw_length;
  first [done | simpl; lia | apply in_range16; unfold is_u16; simpl; lia | by apply in_range32 | by apply in_range_ts].

Lemma receive_batch_Ok b consumeTime buf rest :
  batch_ok b → is_i64 consumeTime → length buf = BatchSize + 18 →
  ∃ buf', receive_unit dec slots buf (unit_bytes (OBatch b) consumeTime ++ rest) = Ok (BatchUnit (Records b), buf', rest) ∧
    length buf' = BatchSize + 18.
Proof.
  intros Hok Ht Hb. destruct (batch_numbers b Hok) as [Hn1 Hn2]. destruct Hok as (Hwt & Hbytes & Hnum & Hle).
  unfold receive_unit, unit_bytes. rewrite <-!app_assoc.
  rewrite (read_num_Ok KUint16 _ [] buf _ 0), bind_Ok by wire_side. cbn [GetType Z.eqb Pos.eqb].
  rewrite (read_num_Ok KUint32), bind_Ok by wire_side.
  rewrite (read_num_Ok KUint32), bind_Ok by wire_side.
  rewrite (read_num_Ok KInt64), bind_Ok by wire_side.
  cbn [raw_size Nat.add]. rewrite Hbytes, Hnum, !Nat2Z.id.
  rewrite read_at_Ok, bind_Ok by wire_side.
  rewrite <-(app_assoc _ (records_bytes _)), decode_records_Ok, bind_Ok by wire_side.
  eexists. split; [done|]. rewrite app_assoc, length_written by wire_side. done.
Qed.

Lemma receive_unit_Ok u consumeTime buf rest :
  out_ok u → is_i64 consumeTime → length buf = BatchSize + 18 →
  ∃ buf', receive_unit dec slots buf (unit_bytes u consumeTime ++ rest) = Ok (delivered u, buf', rest) ∧
    length buf' = BatchSize + 18.
Proof.
  intros Hu Ht Hb. destruct u as [b|w]; [by apply receive_batch_Ok|].
  destruct w as [| |ts| | | |bs|]; try done; cbn [unit_bytes delivered].
  - unfold receive_unit. rewrite (read_num_Ok KUint16 _ [] buf _ 0), bind_Ok by wire_side.
    cbn [GetType Z.eqb Pos.eqb]. eexists. split; [done|]. rewrite length_written; wire_side.
  - unfold receive_unit. rewrite <-app_assoc, (read_num_Ok KUint16 _ [] buf _ 0), bind_Ok by wire_side.
    cbn [GetType Z.eqb Pos.eqb].
    rewrite (read_num_Ok KInt64), bind_Ok by wire_side.
    eexists. split; [done|]. rewrite length_written; wire_side.
  - unfold receive_unit. rewrite (read_num_Ok KUint16 _ [] buf _ 0), bind_Ok by wire_side.
    cbn [GetType Z.eqb Pos.eqb]. eexists. split; [done|]. rewrite length_written; wire_side.
  - destruct Hu as (meta & -> & Hm). unfold receive_unit. rewrite <-!app_assoc.
    rewrite (read_num_Ok KUint16 _ [] buf _ 0), bind_Ok by wire_side. cbn [GetType Z.eqb Pos.eqb].
    rewrite (read_num_Ok KUint32), bind_Ok by wire_side.
    rewrite ReadAll_app, bind_Ok by by rewrite Nat2Z.id.
    eexists. split; [do 4 f_equal|rewrite length_written; wire_side].
    rewrite app_assoc, drop_app_length' by (rewrite length_app, !raw_length; done). done.
Qed.
End Slots.

(** ** Whole connections *)

Definition timed_ok (x : out_unit * Z) : Prop := out_ok x.1 ∧ is_i64 x.2.

Definition stream (units : list (out_unit * Z)) : bytes := units ≫= λ x, unit_bytes x.1 x.2.

Lemma stream_cons u t units : stream ((u, t) :: units) = unit_bytes u t ++ stream units.
Proof. done. Qed.

Definition terminated (units : list (out_unit * Z)) (peer : bool) (t : Z) : list (out_unit * Z) :=
  units ++ [(OUnit (TerminationSignal peer), t)].

Lemma consume_units_Ok units peer t buf :
  Forall timed_ok units → length buf = BatchSize + 18 →
  consume_units enc buf units = Ok (stream units, false) ∧
  consume_units enc buf (terminated units peer t) = Ok (stream units, true).
Proof.
  intros Hu. revert buf. induction Hu as [|[u c] units [Hok Hc] _ IH]; intros buf Hb; [done|].
  destruct (send_unit_Ok u c buf Hok Hb) as (buf' & Hs & Hb'). destruct (IH buf' Hb') as [IH1 IH2].
  unfold terminated in *. rewrite stream_cons. cbn [consume_units app]. rewrite Hs, !bind_Ok, IH1, IH2. done.
Qed.

Lemma unit_bytes_length u c : out_ok u → 2 ≤ length (unit_bytes u c).
Proof.
  destruct u as [b|[]]; try done; cbn [out_ok unit_bytes]; intros Hu; try destruct Hu as (meta & -> & _);
    rewrite ?length_app, raw_length; simpl; lia.
Qed.

Section Stream.
Context (slots : nat → nat → Tuple) (Hslots : ∀ n i, Forall2 (λ k o, type_of o = predeclared k) tys (fields (slots n i))).

Lemma supply_units_all units closed isPeer fuel buf :
  Forall timed_ok units → length buf = BatchSize + 18 → length (stream units) < fuel →
  supply_units dec slots closed isPeer fuel buf (stream units) =
    Ok ((delivered <$> units.*1) ++ (if closed then [TerminationSignal isPeer] else [])).
Proof.
  intros Hu. revert fuel buf. induction Hu as [|[u c] units [Hok Hc] _ IH]; intros fuel buf Hb Hf;
    (destruct fuel as [|fuel]; [simpl in Hf; lia|]).
  - simpl. unfold receive_unit, read_num, read_at. rewrite bool_decide_false by (simpl; lia). simpl. by destruct closed.
  - rewrite stream_cons in *. rewrite length_app in Hf. pose proof (unit_bytes_length u c Hok).
    destruct (receive_unit_Ok (slots fuel) (Hslots fuel) u c buf (stream units) Hok Hc Hb) as (buf' & Hr & Hb').
    cbn [supply_units]. rewrite Hr, IH by (done || lia). done.
Qed.

(** A unit of which a part is missing. *)
Lemma receive_unit_part sl u c buf p q :
  (∀ i, Forall2 (λ k o, type_of o = predeclared k) tys (fields (sl i))) → timed_ok (u, c) → length buf = BatchSize + 18 →
  unit_bytes u c = p ++ q → q ≠ [] → receive_unit dec sl buf p = Crash Blocked.
Proof.
  intros Hsl [Hok Hc] Hb Heq Hq. destruct (receive_unit_Ok sl Hsl u c buf [] Hok Hc Hb) as (buf' & Hr & _).
  rewrite app_nil_r, Heq in Hr. pose proof (mono_receive_unit dec sl buf p q) as Hm. simpl in Hm.
  destruct (receive_unit dec sl buf p) as [[a cn]|e].
  - rewrite Hr in Hm. injection Hm as _ Hnil. by destruct cn, q.
  - destruct e; try done; by rewrite Hr in Hm.
Qed.

Lemma supply_units_part units isPeer fuel buf p q :
  Forall timed_ok units → length buf = BatchSize + 18 → stream units = p ++ q → length p < fuel →
  ∃ n, supply_units dec slots false isPeer fuel buf p = Ok (take n (delivered <$> units.*1)).
Proof.
  intros Hu. revert fuel buf p. induction Hu as [|[u c] units [Hok Hc] _ IH]; intros fuel buf p Hb Heq Hf;
    (destruct fuel as [|fuel]; [simpl in Hf; lia|]).
  - simpl in Heq. symmetry in Heq. apply app_nil in Heq as [-> ->]. exists 0.
    exact (supply_units_all [] false isPeer (S fuel) buf (Forall_nil_2 _) Hb Hf).
  - rewrite stream_cons in Heq. cbn [supply_units].
    apply app_eq_inv in Heq as [(k & Hk & ->)|(k & -> & Hk)].
    + destruct (decide (k = [])) as [->|Hne].
      * rewrite app_nil_r in Hk. subst p. exists 1.
        destruct (receive_unit_Ok (slots fuel) (Hslots fuel) u c buf [] Hok Hc Hb) as (buf' & Hr & Hb').
        rewrite app_nil_r in Hr. rewrite Hr. pose proof (unit_bytes_length u c Hok).
        pose proof (supply_units_all [] false isPeer fuel buf' (Forall_nil_2 _) Hb') as Hnil. simpl in Hnil.
        change (stream []) with (@nil Z) in Hnil. rewrite Hnil by lia. done.
      * exists 0. by rewrite (receive_unit_part (slots fuel) u c buf p k).
    + destruct (receive_unit_Ok (slots fuel) (Hslots fuel) u c buf k Hok Hc Hb) as (buf' & Hr & Hb').
      rewrite Hr. rewrite length_app in Hf. pose proof (unit_bytes_length u c Hok).
      destruct (IH fuel buf' k) as (n & Hn); [done..|lia|]. rewrite Hn. by exists (S n).
Qed.

(** ** Connection headers *)

Definition header_bytes (name : string) (channelType workerId : Z) : bytes :=
  raw_Marshal KUint64 (Z.of_nat (length (MarshalString (string_bytes name)))) ++ MarshalString (string_bytes name) ++
  raw_Marshal KUint8 channelType ++ raw_Marshal KUint16 workerId.

(** An operator name is a string whose encoding has a length that fits. *)
Definition name_ok (name : string) : Prop :=
  (Z.of_nat (length (string_bytes name)) < 2 ^ 63)%Z ∧ is_u64 (Z.of_nat (length (MarshalString (string_bytes name)))).

Lemma fresh_Ok bs : fresh (length bs) bs = Ok bs.
Proof.
  unfold fresh. rewrite write_first by (rewrite length_replicate; lia).
  by rewrite drop_ge, app_nil_r by (rewrite length_replicate; lia).
Qed.

Lemma fresh_num k z : fresh (raw_size k) (raw_Marshal k z) = Ok (raw_Marshal k z).
Proof. rewrite <-(raw_length k z). apply fresh_Ok. Qed.

Lemma header_Ok name ct wid : name_ok name → connection_header name ct wid = Ok (header_bytes name ct wid).
Proof.
  intros [Hn Hl]. unfold connection_header. rewrite string_size, u64_id by done.
  rewrite (fresh_num KUint64), bind_Ok, fresh_Ok, bind_Ok, (fresh_num KUint8), bind_Ok, (fresh_num KUint16). done.
Qed.

Lemma bytes_string_bytes s : bytes_string (string_bytes s) = s.
Proof.
  unfold bytes_string, string_bytes. rewrite <-list_fmap_compose.
  rewrite <-(String.string_of_list_ascii_of_string s) at 2. f_equal. rewrite <-(list_fmap_id (String.list_ascii_of_string s)) at 2.
  apply list_fmap_ext. intros i a _. simpl. by rewrite N2Z.id, ascii_N_embedding.
Qed.

Lemma read_fresh_num k z rest : in_range k z →
  ∃ buf, read_num k (replicate (raw_size k) 0%Z) 0 (raw_Marshal k z ++ rest) = Ok (z, buf, rest) ∧ buf = raw_Marshal k z.
Proof.
  intros Hz. pose proof (read_num_Ok k z [] (replicate (raw_size k) 0%Z) rest 0 eq_refl) as Hr.
  rewrite length_replicate in Hr. specialize (Hr (le_n _) Hz). simpl in Hr. eexists. split; [exact Hr|].
  by rewrite drop_ge, app_nil_r by (rewrite length_replicate; lia).
Qed.

Lemma metadata_Ok name ct wid rest :
  name_ok name → in_range KUint8 ct → is_u16 wid →
  getConnectionMetadata (header_bytes name ct wid ++ rest) = Ok (name, ct, wid, rest).
Proof.
  intros [Hn Hl] Hct Hw. unfold getConnectionMetadata, header_bytes. rewrite <-!app_assoc.
  edestruct (read_fresh_num KUint64) as (b1 & Hr & _); [by exists 0%Z, (2 ^ 64)%Z|]. simpl in Hr. rewrite Hr, bind_Ok. clear Hr.
  rewrite ReadAll_app, bind_Ok by by rewrite Nat2Z.id.
  rewrite <-(app_nil_r (MarshalString _)), string_roundtrip by done. cbn [bind_fatal_false].
  edestruct (read_fresh_num KUint8) as (b2 & Hr & _); [exact Hct|]. simpl in Hr. simpl. rewrite Hr, bind_Ok. clear Hr.
  edestruct (read_fresh_num KUint16) as (b3 & Hr & _); [by apply in_range16|]. simpl in Hr. rewrite Hr, bind_Ok.
  by rewrite bytes_string_bytes.
Qed.

(** A message of [skm_Done]: its type, its length and the key maps. *)
Definition key_map_ok (km : bytes) : Prop :=
  ∃ payload, km = raw_Marshal KUint16 MigratingKeyMapWorkUnit ++ be_encode 4 (Z.of_nat (length payload)) ++ payload ∧
    is_u32 (Z.of_nat (length payload)).

Lemma read_key_map_Ok km rest : key_map_ok km → read_key_map (km ++ rest) = Ok (MigratingKeyMap km, rest).
Proof.
  intros (payload & -> & Hl). unfold read_key_map. rewrite <-!app_assoc.
  edestruct (read_fresh_num KUint16 MigratingKeyMapWorkUnit) as (b & Hr & ->); [by apply in_range16|]. simpl in Hr. rewrite Hr, bind_Ok. clear Hr.
  rewrite Z.eqb_refl. cbn [negb]. rewrite bind_fatal_false.
  rewrite ReadAll_app, bind_Ok by by rewrite length_be_encode.
  rewrite be_decode_encode32, Nat2Z.id, ReadAll_app, bind_Ok by done. done.
Qed.

(** The unit a primary peer channel starts with. *)
Definition first_unit (byKey : bool) (channelType : Z) (km : bytes) : list (out_unit * Z) :=
  if has_key_map byKey channelType then [(OUnit (MigratingKeyMap km), 0%Z)] else [].

Definition channel_bytes (byKey : bool) (name : string) (ct wid : Z) (km : bytes) (units : list (out_unit * Z)) : bytes :=
  header_bytes name ct wid ++ (if has_key_map byKey ct then km else []) ++ stream units.

Lemma send_connection byKey name ct wid km units peer t :
  name_ok name → Forall timed_ok units →
  ConsumeOutputBuffer BatchSize enc name ct wid (terminated (first_unit byKey ct km ++ units) peer t) =
    Ok (channel_bytes byKey name ct wid km units, true).
Proof.
  intros Hn Hu. unfold ConsumeOutputBuffer, channel_bytes, first_unit. rewrite header_Ok, bind_Ok by done.
  destruct (consume_units_Ok units peer t (replicate (BatchSize + 18) 0%Z) Hu (length_replicate _ _)) as [_ Hc].
  destruct (has_key_map byKey ct); unfold terminated in *; simpl; rewrite Hc; done.
Qed.

Lemma receive_all byKey name ct wid km units :
  name_ok name → in_range KUint8 ct → is_u16 wid → key_map_ok km → Forall timed_ok units →
  receive_connection BatchSize dec slots byKey true (channel_bytes byKey name ct wid km units) =
    Ok (MkConn name ct wid ((delivered <$> (first_unit byKey ct km ++ units).*1) ++ [TerminationSignal (negb (ct =? 0)%Z)])).
Proof.
  intros Hn Hct Hw Hkm Hu. unfold receive_connection, channel_bytes, first_unit.
  rewrite metadata_Ok, bind_Ok by done. unfold SupplyInputBuffer.
  destruct (has_key_map byKey ct).
  - rewrite read_key_map_Ok, !bind_Ok by done. rewrite supply_units_all by (done || rewrite ?length_replicate; lia). done.
  - rewrite bind_Ok. rewrite app_nil_l, supply_units_all by (done || rewrite ?length_replicate; lia). done.
Qed.

(** A read of which a part is missing. *)
Lemma mono_part {A} (f : bytes → res (A * bytes)) full a p q :
  reads_mono f → f full = Ok (a, []) → full = p ++ q → q ≠ [] → f p = Crash Blocked.
Proof.
  intros Hm Hf -> Hq. specialize (Hm p q). destruct (f p) as [[b c]|e].
  - rewrite Hf in Hm. injection Hm as _ Hnil. by destruct c, q.
  - destruct e; try done; by rewrite Hf in Hm.
Qed.

Lemma supply_part units isPeer p q :
  Forall timed_ok units → stream units = p ++ q →
  ∃ n, SupplyInputBuffer BatchSize dec slots false isPeer p = Ok (take n (delivered <$> units.*1)).
Proof. intros Hu Heq. eapply supply_units_part; [done|apply length_replicate|done|lia]. Qed.

Lemma receive_part byKey name ct wid km units p q :
  name_ok name → in_range KUint8 ct → is_u16 wid → key_map_ok km → Forall timed_ok units →
  channel_bytes byKey name ct wid km units = p ++ q →
  receive_connection BatchSize dec slots byKey false p = Crash Blocked ∨
  ∃ n, receive_connection BatchSize dec slots byKey false p =
    Ok (MkConn name ct wid (take n (delivered <$> (first_unit byKey ct km ++ units).*1))).
Proof.
  intros Hn Hct Hw Hkm Hu Heq. unfold channel_bytes in Heq. unfold receive_connection.
  assert (getConnectionMetadata (header_bytes name ct wid) = Ok (name, ct, wid, [])) as Hmeta.
  { rewrite <-(app_nil_r (header_bytes _ _ _)). by apply metadata_Ok. }
  assert (read_key_map km = Ok (MigratingKeyMap km, [])) as Hkm'.
  { rewrite <-(app_nil_r km) at 1. by apply read_key_map_Ok. }
  apply app_eq_inv in Heq as [(k & Hk & ->)|(k & -> & Hk)].
  { destruct (decide (k = [])) as [->|Hne].
    2:{ left. by rewrite (mono_part _ _ _ _ _ mono_metadata Hmeta Hk Hne). }
    rewrite app_nil_r in Hk. subst p. rewrite Hmeta, bind_Ok. unfold first_unit.
    destruct (has_key_map byKey ct); [by left|]. right. rewrite bind_Ok.
    destruct (supply_part units (negb (ct =? 0)%Z) [] (stream units)) as (n & ->); [done..|]. by exists n. }
  rewrite metadata_Ok, bind_Ok by done. unfold first_unit. destruct (has_key_map byKey ct).
  - apply app_eq_inv in Hk as [(k' & Hk' & ->)|(k' & -> & Hk')].
    + destruct (decide (k' = [])) as [->|Hne].
      2:{ left. by rewrite (mono_part _ _ _ _ _ mono_key_map Hkm' Hk' Hne). }
      rewrite app_nil_r in Hk'. subst k. rewrite Hkm', !bind_Ok. right.
      destruct (supply_part units (negb (ct =? 0)%Z) [] (stream units)) as (n & ->); [done..|]. by exists (S n).
    + right. rewrite read_key_map_Ok, !bind_Ok by done.
      destruct (supply_part units (negb (ct =? 0)%Z) k' q) as (n & ->); [done..|]. by exists (S n).
  - right. rewrite bind_Ok. rewrite app_nil_l in Hk.
    destruct (supply_part units (negb (ct =? 0)%Z) k q) as (n & ->); [done..|]. by exists n.
Qed.
End Stream.
End Wire.

(** C12: the wire.  For every tuple type of predeclared field types, connection metadata and list of units
    of a collector (batches whose sizes are right and within the batch size,
    barriers, watermarks, metadata; key maps first on a primary peer channel),
    closing the connection after them: the sender writes bytes from which the
    receiver recovers the operator name, the channel type, the worker and
    exactly these units, followed by a termination that says whether the
    channel is one of a peer.  While only some of the bytes have arrived, it
    has either not read the metadata yet or delivered a prefix of the units:
    it never fails and never delivers anything else. *)
Theorem wire_delivers `{MusLaws, RawMusLaws} (tys : list Kind) (BatchSize : nat) (slots : nat → nat → Tuple)
    (byKey : bool) (name : string) (ct wid : Z) (km : bytes) (units : list (out_unit * Z)) (peer : bool) (t : Z) :
  Forall (λ k, SupportedKind k = true) tys → is_u32 (Z.of_nat BatchSize) →
  (∀ n i, Forall2 (λ k o, type_of o = predeclared k) tys (fields (slots n i))) →
  name_ok name → in_range KUint8 ct → is_u16 wid → key_map_ok km → Forall (timed_ok (tys := tys) BatchSize) units →
  ∃ enc dec bs, CreateEncoder tys = Ok enc ∧ CreateDecoder tys = Ok dec ∧
    ConsumeOutputBuffer BatchSize enc name ct wid (terminated (first_unit byKey ct km ++ units) peer t) = Ok (bs, true) ∧
    receive_connection BatchSize dec slots byKey true bs =
      Ok (MkConn name ct wid ((delivered <$> (first_unit byKey ct km ++ units).*1) ++ [TerminationSignal (negb (ct =? 0)%Z)])) ∧
    ∀ p q, bs = p ++ q →
      receive_connection BatchSize dec slots byKey false p = Crash Blocked ∨
      ∃ n, receive_connection BatchSize dec slots byKey false p =
        Ok (MkConn name ct wid (take n (delivered <$> (first_unit byKey ct km ++ units).*1))).
Proof.
  intros Htys Hsize Hslots Hn Hct Hw Hkm Hu. destruct (codec_exists tys Htys) as (enc & dec & siz & Hcodec).
  exists enc, dec, (channel_bytes byKey name ct wid km units). split_and!; [apply Hcodec..| | |].
  - by apply (send_connection Hcodec).
  - by eapply (receive_all Hcodec).
  - intros p q Heq. by eapply (receive_part Hcodec).
Qed.

Lemma wrap_signed (m z : Z) : (0 < m → - m ≤ 2 * z < m →
  (if m <=? 2 * (z mod m) then z mod m - m else z mod m) = z)%Z.
Proof.
  intros Hm Hz. destruct (Z.leb_spec 0 z) as [Hp|Hn].
  - rewrite Z.mod_small by lia. destruct (Z.leb_spec m (2 * z)); lia.
  - replace (z mod m)%Z with (z + m)%Z by (apply (Z.mod_unique_pos z m (-1)); lia).
    destruct (Z.leb_spec m (2 * (z + m))); lia.
Qed.

(** Big-endian raw numbers: the laws can hold. *)
#[export] Instance be_raw : RawMus := {|
  raw_Marshal k z := be_encode (raw_size k) (z mod 256 ^ Z.of_nat (raw_size k));
  raw_Unmarshal k l :=
    let v := be_decode (take (raw_size k) l) in
    (if fixed_signed k && (256 ^ Z.of_nat (raw_size k) <=? 2 * v)%Z then v - 256 ^ Z.of_nat (raw_size k) else v, None)%Z
|}.

#[export] Instance be_raw_laws : RawMusLaws.
Proof.
  split; [intros; apply length_be_encode|].
  intros k z rest Hz. cbn [raw_Unmarshal raw_Marshal be_raw]. f_equal.
  rewrite take_app_le, take_ge by (rewrite length_be_encode; lia).
  rewrite be_decode_encode by (apply Z.mod_pos_bound; lia).
  destruct Hz as (lo & hi & Hr & Hz).
  destruct k; try discriminate Hr; vm_compute in Hr; injection Hr as <- <-; cbn [raw_size Z.of_nat];
    match goal with |- context [(256 ^ ?e)%Z] => let v := eval vm_compute in (256 ^ e)%Z in change (256 ^ e)%Z with v end;
    cbn [fixed_signed num_range andb]; try (change (_ <? 0)%Z with false; cbn [andb]; rewrite Z.mod_small; lia).
  all: cbv [fixed_signed num_range]; try (change (0 <? 0)%Z with false; cbn [andb]; apply Z.mod_small; lia).
  all: change (- 2 ^ _ <? 0)%Z with true; cbn [andb].
  all: apply wrap_signed; lia.
Qed.

Definition demo_units : list (out_unit * Z) :=
  [(OUnit DrainBarrier, 5%Z); (OBatch (MkBatch 34 1 0 [demo_tuple]), 6%Z); (OUnit (WatermarkUnit 7), 8%Z)].

Lemma demo_units_ok : Forall (timed_ok (tys := demo_type) 100) demo_units.
Proof.
  repeat constructor; simpl; try done; lia.
Qed.

Definition demo_key_map : bytes := raw_Marshal KUint16 8 ++ be_encode 4 5 ++ [1; 2; 3; 4; 5]%Z.

Lemma wire_delivers_witness :
  ∃ enc dec bs, CreateEncoder demo_type = Ok enc ∧ CreateDecoder demo_type = Ok dec ∧
    ConsumeOutputBuffer 100 enc "map" 1 7 ((OUnit (MigratingKeyMap demo_key_map), 0%Z) :: demo_units ++ [(OUnit (TerminationSignal false), 9%Z)])
      = Ok (bs, true) ∧
    receive_connection 100 dec (λ _ _, Tuple_New demo_type) true true bs =
      Ok (MkConn "map" 1 7 [MigratingKeyMap demo_key_map; DrainBarrier; BatchUnit [demo_tuple]; WatermarkUnit 7; TerminationSignal true]).
Proof.
  destruct (wire_delivers demo_type 100 (λ _ _, Tuple_New demo_type) true "map" 1 7 demo_key_map demo_units false 9)
    as (enc & dec & bs & He & Hd & Hs & Hr & _).
  - repeat constructor.
  - split; lia.
  - intros _ _. repeat constructor.
  - split; vm_compute; [done|split; congruence].
  - by exists 0%Z, (2 ^ 8)%Z.
  - split; lia.
  - exists [1; 2; 3; 4; 5]%Z. split; [reflexivity|split; simpl; lia].
  - apply demo_units_ok.
  - exists enc, dec, bs. split_and!; assumption.
Defined.
