(* ===== verification/Collector.v ===== *)
(** * Collectors: the output side of a task

    [api/collector]: a collector puts the records a task emits into batches and
    pushes these, watermarks and barriers into the output buffers of its
    downstream tasks.  The key-by collector routes a record by its key and
    keeps a pending batch per downstream.  The result is that batching is
    invisible: every downstream receives what an unbatched collector would send
    to it, in the same order.

    An output buffer is the list of everything pushed into it ([Network.v] and
    [RingBuffer.v] carry it on).  A record is a value: the user's functions are
    taken not to change a tuple after they have emitted it. *)

From stdpp Require Import prelude gmap strings list.
From Stdlib Require Import ZArith Lia.
From S2P Require Import Prelude Partition PartitionTable Codec WorkUnit Window Network.

(** ** Watermark generators *)

Record PeriodicWatermarkGenerator := MkGenerator {
  LastGeneratedTime : Z;
  CurrentMaxTime : Z;
  MaxAllowedDelay : Z
}.

Definition NewPeriodicWatermarkGenerator (maxAllowedDelay : Z) : PeriodicWatermarkGenerator :=
  MkGenerator (-1) (-1) maxAllowedDelay.

Definition GenerateWatermark (g : PeriodicWatermarkGenerator) : PeriodicWatermarkGenerator * option Z :=
  if (CurrentMaxTime g =? -1)%Z then (g, None)
  else
    let newWMTime := i64 (CurrentMaxTime g - MaxAllowedDelay g) in
    if (newWMTime =? LastGeneratedTime g)%Z then (g, None)
    else (MkGenerator newWMTime (CurrentMaxTime g) (MaxAllowedDelay g), Some newWMTime).

Definition UpdateMaxRecordTimestamp (g : PeriodicWatermarkGenerator) (newTimestamp : Z) : PeriodicWatermarkGenerator :=
  if (CurrentMaxTime g <? newTimestamp)%Z
  then MkGenerator (LastGeneratedTime g) newTimestamp (MaxAllowedDelay g) else g.

(** ** Output buffers and pending batches *)

Record Outputs := MkOutputs {
  Downstreams : gmap Z (list out_unit);
  CurBatches : gmap Z Batch
}.

Definition getDownstreamByWorkerID (o : Outputs) (workerID : Z) : res (list out_unit) :=
  match Downstreams o !! workerID with
  | Some d => Ok d
  | None => Crash (Fatal "Downstream not found by worker id")
  end.

Definition getPendingBatchByWorkerID (o : Outputs) (workerId : Z) : res Batch :=
  match CurBatches o !! workerId with
  | Some b => Ok b
  | None => Crash (Fatal "CurBatches: worker id not found")
  end.

(** A push into every buffer. *)
Definition broadcast (o : Outputs) (w : WorkUnit) : Outputs :=
  MkOutputs ((λ d, d ++ [OUnit w]) <$> Downstreams o) (CurBatches o).

Section Outputs.
Context `{GoRange}.
Context (BatchSize : nat) (GetSize : TupleSizer).

(** The pending batch of the downstream is pushed if it has no room for the
    record. *)
Definition emit_to (o : Outputs) (workerId : Z) (t : Tuple) : res Outputs :=
  downstream ← getDownstreamByWorkerID o workerId;
  targetBatch ← getPendingBatchByWorkerID o workerId;
  recordSize ← GetSize t;
  let size := Z.of_nat recordSize in
  if (Z.of_nat BatchSize <? size + TotalNumBytes targetBatch)%Z then
    let ds := <[workerId := downstream ++ [OBatch targetBatch]]> (Downstreams o) in
    fatal_if (Z.of_nat BatchSize <? size)%Z "Record size exceeds batch size limit - no support!";;
    Ok (MkOutputs ds (<[workerId := AddRecord AllocateOutputBatch t size]> (CurBatches o)))
  else Ok (MkOutputs (Downstreams o) (<[workerId := AddRecord targetBatch t size]> (CurBatches o))).

(** One turn of the loop over the pending batches; a missing downstream is a
    nil pointer. *)
Definition flush_batch (o : Outputs) (x : Z * Batch) : res Outputs :=
  let '(workerId, batch) := x in
  if 0 <? TotalNumRecords batch then
    match Downstreams o !! workerId with
    | None => Crash Panic
    | Some d => Ok (MkOutputs (<[workerId := d ++ [OBatch batch]]> (Downstreams o))
                              (<[workerId := AllocateOutputBatch]> (CurBatches o)))
    end
  else Ok o.

Definition flushAllPendingBatches (o : Outputs) : res Outputs := foldM flush_batch o (go_range (CurBatches o)).
End Outputs.

Definition new_outputs (workers : list Z) : Outputs :=
  MkOutputs (list_to_map ((λ w, (w, [])) <$> workers)) (list_to_map ((λ w, (w, AllocateOutputBatch)) <$> workers)).

(** ** The key-by collector *)

(** [kb_removed] keeps what was pushed to downstreams that are no longer in the
    map; their network routines still send it.  [Paused] is set from
    [PauseEmit] to [ResumeEmit], and the lock is held as long. *)
Record KeybyCollector := MkKeyby {
  kb_out : Outputs;
  kb_removed : list (Z * list out_unit);
  RoutingTable : PartitionTable;
  Paused : bool;
  WatermarkGenerator : option PeriodicWatermarkGenerator;
  kb_Timestamp : Z
}.

Definition kb_with (c : KeybyCollector) (o : Outputs) : KeybyCollector :=
  MkKeyby o (kb_removed c) (RoutingTable c) (Paused c) (WatermarkGenerator c) (kb_Timestamp c).

Definition kb_with_gen (c : KeybyCollector) (g : option PeriodicWatermarkGenerator) : KeybyCollector :=
  MkKeyby (kb_out c) (kb_removed c) (RoutingTable c) (Paused c) g (kb_Timestamp c).

Definition kb_set_paused (c : KeybyCollector) (p : bool) : KeybyCollector :=
  MkKeyby (kb_out c) (kb_removed c) (RoutingTable c) p (WatermarkGenerator c) (kb_Timestamp c).

(** Taking the lock. *)
Definition kb_Lock (c : KeybyCollector) : res unit := if Paused c then Crash Blocked else Ok tt.

(** What a collector is configured with: the batch size, whether the protocol is
    lazy, the tuple type's functions, those of the key and the user's
    extractors. *)
Record CollectorConfig := MkCollectorConfig {
  cc_BatchSize : nat;
  cc_lazy : bool;
  cc_hash : HashFunc;
  cc_numBuckets : Z;
  GetSize : TupleSizer;
  GetKey : Tuple → field;
  kb_keyEncoder : EncodeFunc;
  kb_keySizer : SizeFunc;
  GetTimestamp : Tuple → Z
}.

(** [NewKeybyCollector]: the functions from the tuple type and the key kind. *)
Definition NewCollectorConfig `{Mus} (tys : list Kind) (keyKind : Kind) (batchSize : nat) (isLazy : bool)
    (hash : HashFunc) (numBuckets : Z) (keyExtractor : Tuple → field) (timestampExtractor : Tuple → Z) : res CollectorConfig :=
  sizer ← CreateSizer tys;
  encoder ← EncodeFuncFromKind keyKind;
  keySizer ← TupleSizeFuncFromKind keyKind;
  Ok (MkCollectorConfig batchSize isLazy hash numBuckets sizer keyExtractor encoder keySizer timestampExtractor).

Section Keyby.
Context `{GoRange}.
Context (cfg : CollectorConfig).

Definition kb_Setup (downstreams : list Z) (routingTable : option PartitionTable)
    (g : option PeriodicWatermarkGenerator) : res KeybyCollector :=
  match routingTable with
  | None => Crash (Fatal "KeybyCollector: keyby routing table is needed")
  | Some table => Ok (MkKeyby (new_outputs downstreams) [] table false g (-1))
  end.

(** The source takes the timestamp from the record, a task the current one. *)
Definition updateRecordTimestamp (g : option PeriodicWatermarkGenerator) (Timestamp : Z) (record : Tuple) : Tuple :=
  SetTimestamp record (match g with Some _ => GetTimestamp cfg record | None => Timestamp end).

Definition key_bytes (key : field) : res bytes :=
  n ← kb_keySizer cfg key;
  bs ← kb_keyEncoder cfg key;
  fresh n bs.

Definition kb_flush (c : KeybyCollector) : res KeybyCollector :=
  o ← flushAllPendingBatches (kb_out c); Ok (kb_with c o).

Definition kb_Emit (c : KeybyCollector) (t : Tuple) : res KeybyCollector :=
  let t := updateRecordTimestamp (WatermarkGenerator c) (kb_Timestamp c) t in
  serializedKey ← key_bytes (GetKey cfg t);
  kb_Lock c;;
  downstreamWorkerId ← KeyToWorkerID (RoutingTable c) serializedKey;
  o ← emit_to (cc_BatchSize cfg) (GetSize cfg) (kb_out c) downstreamWorkerId t;
  Ok (kb_with_gen (kb_with c o)
        ((λ g, UpdateMaxRecordTimestamp g (GetTimestamp cfg t)) <$> WatermarkGenerator c)).

Definition kb_PauseEmit (c : KeybyCollector) : res KeybyCollector :=
  kb_Lock c;;
  c ← kb_flush (kb_set_paused c true);
  Ok (kb_with c (broadcast (kb_out c) DrainBarrier)).

(** Unlocking a free mutex ends the process. *)
Definition kb_ResumeEmit (c : KeybyCollector) : res KeybyCollector :=
  fatal_if (negb (Paused c)) "sync: unlock of unlocked mutex";;
  Ok (kb_set_paused c false).

Definition connectToNewDownstreamsHelper {U} (ds : gmap Z (list U)) (newDownstreamList : list Z) : res (gmap Z (list U)) :=
  foldM (λ ds w,
    fatal_if (bool_decide (is_Some (ds !! w))) "Worker already exists in downstreams";;
    Ok (<[w := []]> ds)) ds newDownstreamList.

Definition removeDownstreamsHelper {U} (termination : U) (st : gmap Z (list U) * list (Z * list U)) (downstreamsToRemove : list Z)
    : res (gmap Z (list U) * list (Z * list U)) :=
  foldM (λ '(ds, gone) w,
    match ds !! w with
    | None => Crash (Fatal "Worker not found in downstreams")
    | Some d => Ok (delete w ds, gone ++ [(w, d ++ [termination])])
    end) st downstreamsToRemove.

(** Paused or not, the caller has the lock; the map of pending batches is built
    anew. *)
Definition kb_UpdateRouting (c : KeybyCollector) (downstreamsToAdd downstreamsToRemove : list Z)
    (newDownstreamKR : option (list BucketRange)) : res KeybyCollector :=
  match newDownstreamKR with
  | None => Crash (Fatal "KeybyCollector: new KeyPartition is needed")
  | Some bucketRanges =>
      c ← kb_flush c;
      ds ← connectToNewDownstreamsHelper (Downstreams (kb_out c)) downstreamsToAdd;
      let ds := if cc_lazy cfg then (λ d, d ++ [OUnit InflightBarrier]) <$> ds else ds in
      '(ds, gone) ← removeDownstreamsHelper (OUnit (TerminationSignal false)) (ds, kb_removed c) downstreamsToRemove;
      table ← DeserializePartitionTable (cc_hash cfg) (cc_numBuckets cfg) bucketRanges;
      Ok (MkKeyby (MkOutputs ds ((λ _, AllocateOutputBatch) <$> ds)) gone table (Paused c) (WatermarkGenerator c) (kb_Timestamp c))
  end.

Definition kb_Terminate (c : KeybyCollector) : res KeybyCollector :=
  kb_Lock c;;
  c ← kb_flush c;
  Ok (kb_with c (broadcast (kb_out c) (TerminationSignal false))).

(** Called by the task ([needSync]) or by the generator, which has the lock. *)
Definition kb_BroadcastWatermark (c : KeybyCollector) (wm : Z) (needSync : bool) : res KeybyCollector :=
  (if needSync then kb_Lock c else Ok tt);;
  c ← kb_flush c;
  Ok (kb_with c (broadcast (kb_out c) (WatermarkUnit wm))).

(** A turn of the timer routine and of the watermark generator routine. *)
Definition kb_timer (c : KeybyCollector) : res KeybyCollector := kb_Lock c;; kb_flush c.

Definition kb_generate (c : KeybyCollector) : res KeybyCollector :=
  match WatermarkGenerator c with
  | None => Ok c
  | Some g =>
      kb_Lock c;;
      let '(g, wm) := GenerateWatermark g in
      let c := kb_with_gen c (Some g) in
      match wm with
      | None => Ok c
      | Some wm => kb_BroadcastWatermark c wm false
      end
  end.

Definition kb_SetCurrentTimestamp (c : KeybyCollector) (ts : Z) : KeybyCollector :=
  MkKeyby (kb_out c) (kb_removed c) (RoutingTable c) (Paused c) (WatermarkGenerator c) ts.

(** What happens to a collector. *)
Inductive kb_op :=
  | CEmit (t : Tuple)
  | CTimer
  | CGenerate
  | CWatermark (wm : Z)
  | CSetTimestamp (ts : Z)
  | CPause
  | CResume
  | CUpdateRouting (add remove : list Z) (table : option (list BucketRange))
  | CTerminate.

Definition kb_step (c : KeybyCollector) (op : kb_op) : res KeybyCollector :=
  match op with
  | CEmit t => kb_Emit c t
  | CTimer => kb_timer c
  | CGenerate => kb_generate c
  | CWatermark wm => kb_BroadcastWatermark c wm true
  | CSetTimestamp ts => Ok (kb_SetCurrentTimestamp c ts)
  | CPause => kb_PauseEmit c
  | CResume => kb_ResumeEmit c
  | CUpdateRouting add remove table => kb_UpdateRouting c add remove table
  | CTerminate => kb_Terminate c
  end.
End Keyby.
