(* ===== verification/CollectorSpec.v ===== *)
(** * Key-by collectors refine unbatched ones

    The specification of a key-by collector appends each record to what its
    downstream receives; batches, pending or full, do not appear in it.  Every
    operation of [Collector.v] implements it, and all batches pushed are ones
    that [Network.v] can send. *)

From stdpp Require Import prelude gmap strings list.
From Stdlib Require Import ZArith Lia.
From S2P Require Import Prelude Partition PartitionTable Codec WorkUnit Window Network Collector.

(** ** What a downstream receives *)

Inductive item := IRec (t : Tuple) | IUnit (w : WorkUnit).

Definition unit_items (u : out_unit) : list item :=
  match u with OBatch b => IRec <$> Records b | OUnit w => [IUnit w] end.

Definition flat (d : list out_unit) : list item := d ≫= unit_items.

Definition pending (b : option Batch) : list item := match b with Some b => IRec <$> Records b | None => [] end.

Definition view (o : Outputs) : gmap Z (list item) :=
  map_imap (λ w d, Some (flat d ++ pending (CurBatches o !! w))) (Downstreams o).

Lemma lookup_view o w : view o !! w = (λ d, flat d ++ pending (CurBatches o !! w)) <$> Downstreams o !! w.
Proof. unfold view. rewrite map_lookup_imap. by destruct (Downstreams o !! w). Qed.

Lemma flat_app d1 d2 : flat (d1 ++ d2) = flat d1 ++ flat d2.
Proof. unfold flat. apply bind_app. Qed.

Lemma flat_snoc d u : flat (d ++ [u]) = flat d ++ unit_items u.
Proof. rewrite flat_app. unfold flat. simpl. by rewrite app_nil_r. Qed.

(** ** The invariant of output buffers *)

Section Outputs.
Context `{MusLaws, !GoRange}.
Context {tys : list Kind} {enc : TupleEncoder} {dec : TupleDecoder} {siz : TupleSizer}.
Context (Hcodec : codec_of tys enc dec siz).
Context (BatchSize : nat) (Hsize : is_u32 (Z.of_nat BatchSize)).

Definition pushed_ok (u : out_unit) : Prop :=
  match u with OBatch b => batch_ok (tys := tys) BatchSize b ∧ Records b ≠ [] | OUnit _ => True end.

Record out_inv (o : Outputs) : Prop := {
  oi_dom : ∀ w, is_Some (Downstreams o !! w) ↔ is_Some (CurBatches o !! w);
  oi_pending : ∀ w b, CurBatches o !! w = Some b → batch_ok (tys := tys) BatchSize b;
  oi_pushed : ∀ w d, Downstreams o !! w = Some d → Forall pushed_ok d
}.

(** No record waits in a pending batch. *)
Definition flushed (o : Outputs) : Prop := ∀ w b, CurBatches o !! w = Some b → Records b = [].

Lemma empty_batch_ok : batch_ok (tys := tys) BatchSize AllocateOutputBatch.
Proof. unfold batch_ok. simpl. split_and!; try done. lia. Qed.

Lemma new_outputs_inv workers : out_inv (new_outputs workers) ∧ flushed (new_outputs workers).
Proof.
  split; [split|]; unfold new_outputs; simpl.
  - intros w. rewrite <-!elem_of_dom, !dom_list_to_map_L, <-!list_fmap_compose. done.
  - intros w b Hb. apply elem_of_list_to_map_2, list_elem_of_fmap in Hb as (? & [= -> ->] & _). apply empty_batch_ok.
  - intros w d Hd. apply elem_of_list_to_map_2, list_elem_of_fmap in Hd as (? & [= -> ->] & _). done.
  - intros w b Hb. by apply elem_of_list_to_map_2, list_elem_of_fmap in Hb as (? & [= -> ->] & _).
Qed.

Lemma add_record_ok b t :
  batch_ok (tys := tys) BatchSize b → well_typed tys t →
  (Z.of_nat (length (tuple_bytes t)) + TotalNumBytes b ≤ Z.of_nat BatchSize)%Z →
  batch_ok (tys := tys) BatchSize (AddRecord b t (Z.of_nat (length (tuple_bytes t)))).
Proof.
  intros (Hwt & Hb & Hn & Hle) Ht Hfit. unfold is_u32 in Hsize. unfold batch_ok, AddRecord. simpl.
  assert (records_bytes (Records b ++ [t]) = records_bytes (Records b) ++ tuple_bytes t) as Hrb.
  { unfold records_bytes. rewrite bind_app. simpl. by rewrite app_nil_r. }
  rewrite Hrb, !length_app, !u64_id by (unfold is_u64; rewrite ?u64_id by (unfold is_u64; lia); lia). simpl.
  split_and!; [apply Forall_app; split; [done|by constructor]|lia..].
Qed.

Lemma AddRecord_Records b t n : Records (AddRecord b t n) = Records b ++ [t].
Proof. done. Qed.

(** Emitting to a downstream appends the record to what it receives. *)
Lemma emit_to_Ok o w t l :
  out_inv o → well_typed tys t → view o !! w = Some l → length (tuple_bytes t) ≤ BatchSize →
  ∃ o', emit_to BatchSize siz o w t = Ok o' ∧ out_inv o' ∧ view o' = <[w := l ++ [IRec t]]> (view o).
Proof.
  intros [Hdom Hp Hd] Ht Hl Hfit. rewrite lookup_view in Hl. destruct (Downstreams o !! w) as [d|] eqn:Ed; [|done].
  simpl in Hl. injection Hl as <-. destruct (proj1 (Hdom w)) as [b Eb]; [by rewrite Ed|].
  pose proof (Hp w b Eb) as Hb. unfold emit_to, getDownstreamByWorkerID, getPendingBatchByWorkerID.
  rewrite Ed, Eb, !bind_Ok, (codec_size Hcodec) by done. rewrite bind_Ok.
  rewrite (proj2 (Z.ltb_ge (Z.of_nat BatchSize) (Z.of_nat (length (tuple_bytes t))))) by lia.
  destruct (Z.ltb_spec (Z.of_nat BatchSize) (Z.of_nat (length (tuple_bytes t)) + TotalNumBytes b)) as [Hfull|Hroom];
    rewrite ?bind_fatal_false; eexists; (split; [done|]).
  - split.
    + split; simpl.
      * intros w'. rewrite !lookup_insert_is_Some'. destruct (Hdom w'). tauto.
      * intros w' b' [[<- <-]|[_ ?]]%lookup_insert_Some; [|eauto].
        apply add_record_ok; [apply empty_batch_ok|done|simpl; lia].
      * intros w' d' [[<- <-]|[_ ?]]%lookup_insert_Some; [|eauto]. apply Forall_app. split; [eauto|].
        constructor; [|done]. split; [done|]. intros Hnil. destruct Hb as (_ & Hb & _). rewrite Hnil in Hb. simpl in Hb. lia.
    + apply map_eq. intros w'. rewrite lookup_view. simpl. destruct (decide (w = w')) as [<-|Hne].
      * rewrite !lookup_insert_eq. simpl. by rewrite flat_snoc.
      * by rewrite !lookup_insert_ne, lookup_view by done.
  - split.
    + split; simpl; [|intros w' b' [[<- <-]|[_ ?]]%lookup_insert_Some; [|eauto]|done].
      * intros w'. rewrite lookup_insert_is_Some'. destruct (Hdom w'). destruct (decide (w = w')) as [<-|]; [|tauto].
        rewrite Ed, Eb. split; eauto.
      * apply add_record_ok; [done|done|lia].
    + apply map_eq. intros w'. rewrite lookup_view. simpl. destruct (decide (w = w')) as [<-|Hne].
      * rewrite !lookup_insert_eq, Ed. simpl. by rewrite fmap_app, app_assoc.
      * by rewrite !lookup_insert_ne, lookup_view by done.
Qed.

Lemma emit_to_missing o w t : view o !! w = None → emit_to BatchSize siz o w t = Crash (Fatal "Downstream not found by worker id").
Proof.
  rewrite lookup_view. unfold emit_to, getDownstreamByWorkerID. by destruct (Downstreams o !! w).
Qed.

Lemma emit_to_big o w t l :
  out_inv o → well_typed tys t → view o !! w = Some l → BatchSize < length (tuple_bytes t) →
  emit_to BatchSize siz o w t = Crash (Fatal "Record size exceeds batch size limit - no support!").
Proof.
  intros [Hdom Hp Hd] Ht Hl Hbig. rewrite lookup_view in Hl. destruct (Downstreams o !! w) as [d|] eqn:Ed; [|done].
  destruct (proj1 (Hdom w)) as [b Eb]; [by rewrite Ed|]. destruct (Hp w b Eb) as (_ & Hb & _).
  unfold emit_to, getDownstreamByWorkerID, getPendingBatchByWorkerID.
  rewrite Ed, Eb, !bind_Ok, (codec_size Hcodec) by done. rewrite bind_Ok.
  by rewrite !(proj2 (Z.ltb_lt _ _)) by lia.
Qed.

Lemma flush_batch_Ok o w b : out_inv o → CurBatches o !! w = Some b →
  ∃ o' b', flush_batch o (w, b) = Ok o' ∧ out_inv o' ∧ view o' = view o ∧
    CurBatches o' = <[w := b']> (CurBatches o) ∧ Records b' = [].
Proof.
  intros [Hdom Hp Hd] Eb. destruct (Hp w b Eb) as (Hwt & Hb & Hn & Hle). unfold flush_batch. simpl.
  destruct (TotalNumRecords b) as [|n] eqn:En; simpl.
  { exists o, b. split_and!; [done|by split|done|by rewrite insert_id|]. by destruct (Records b). }
  destruct (proj2 (Hdom w)) as [d Ed]; [by rewrite Eb|]. rewrite Ed. eexists _, AllocateOutputBatch.
  split_and!; [done| | |done|done].
  - split; simpl.
    + intros w'. rewrite !lookup_insert_is_Some'. destruct (Hdom w'). tauto.
    + intros w' b' [[<- <-]|[_ ?]]%lookup_insert_Some; [apply empty_batch_ok|eauto].
    + intros w' d' [[<- <-]|[_ ?]]%lookup_insert_Some; [|eauto]. apply Forall_app. split; [eauto|].
      constructor; [|done]. split; [split_and!; done || by rewrite En|]. intros Hnil. by rewrite Hnil in Hn.
  - apply map_eq. intros w'. rewrite !lookup_view. simpl. destruct (decide (w = w')) as [<-|Hne].
    + rewrite !lookup_insert_eq, Ed, Eb. simpl. by rewrite flat_snoc, app_nil_r.
    + by rewrite !lookup_insert_ne by done.
Qed.

(** Flushing changes nothing that a downstream receives. *)
Lemma flushAll_Ok o : out_inv o →
  ∃ o', flushAllPendingBatches o = Ok o' ∧ out_inv o' ∧ flushed o' ∧ view o' = view o.
Proof.
  clear Hcodec Hsize. intros Hinv. unfold flushAllPendingBatches.
  destruct (foldM_total flush_batch (λ seen o', out_inv o' ∧ view o' = view o ∧
      (∀ w, w ∉ seen.*1 → CurBatches o' !! w = CurBatches o !! w) ∧
      (∀ w b, w ∈ seen.*1 → CurBatches o' !! w = Some b → Records b = []))
    (go_range (CurBatches o)) o) as (o' & Hrun & Hinv' & Hview & Hout & Hin).
  - split_and!; try done. intros w b Hw. by apply not_elem_of_nil in Hw.
  - intros seen [w b] o1 [tl Hpre] (Hinv1 & Hview1 & Hout1 & Hin1).
    assert (CurBatches o !! w = Some b) as Eb.
    { apply elem_of_go_range. rewrite Hpre. set_solver. }
    assert (w ∉ seen.*1) as Hw.
    { pose proof (NoDup_go_range (CurBatches o)) as Hnd. rewrite Hpre, !fmap_app in Hnd.
      apply NoDup_app in Hnd as [Hnd _]. apply NoDup_app in Hnd as (_ & Hnd & _). intros Hin. apply (Hnd w Hin). set_solver. }
    destruct (flush_batch_Ok o1 w b Hinv1) as (o2 & b' & Hf & Hinv2 & Hview2 & Hcur & Hnil); [by rewrite Hout1|].
    exists o2. rewrite fmap_app. split_and!; [done|done|by rewrite Hview2| |].
    + intros w' Hw'. rewrite Hcur, lookup_insert_ne by set_solver. apply Hout1. set_solver.
    + intros w' b0 Hw' Hb0. rewrite Hcur in Hb0. apply lookup_insert_Some in Hb0 as [[<- <-]|[Hne Hb0]]; [done|].
      apply (Hin1 w'); [set_solver|done].
  - exists o'. split_and!; try done. intros w b Hb. apply (Hin w b); [|done].
    rewrite go_range_keys. destruct (decide (w ∈ (go_range (CurBatches o)).*1)) as [Hi|Hni]; [by apply go_range_keys|].
    rewrite <-(Hout w Hni). by rewrite Hb.
Qed.

(** A broadcast to flushed buffers. *)
Lemma broadcast_Ok o u : out_inv o → flushed o →
  out_inv (broadcast o u) ∧ view (broadcast o u) = (λ l, l ++ [IUnit u]) <$> view o.
Proof.
  intros [Hdom Hp Hd] Hfl. split.
  - split; simpl; [|done|].
    + intros w. by rewrite lookup_fmap, fmap_is_Some.
    + intros w d. rewrite lookup_fmap. intros (d0 & Hd0 & ->)%fmap_Some. apply Forall_app. split; [eauto|by constructor].
  - apply map_eq. intros w. rewrite lookup_fmap, !lookup_view. simpl. rewrite lookup_fmap.
    destruct (Downstreams o !! w) as [d|]; [|done]. simpl. rewrite flat_snoc. simpl.
    assert (pending (CurBatches o !! w) = []) as ->; [|by rewrite !app_nil_r].
    destruct (CurBatches o !! w) as [b|] eqn:Eb; [|done]. simpl. by rewrite (Hfl w b Eb).
Qed.
End Outputs.

(** ** The unbatched collector *)

Record Ideal := MkIdeal {
  id_out : gmap Z (list item);
  id_removed : list (Z * list item);
  id_table : PartitionTable;
  id_paused : bool;
  id_gen : option PeriodicWatermarkGenerator;
  id_ts : Z
}.

Definition id_send (i : Ideal) (out : gmap Z (list item)) : Ideal :=
  MkIdeal out (id_removed i) (id_table i) (id_paused i) (id_gen i) (id_ts i).

Definition id_set_gen (i : Ideal) (g : option PeriodicWatermarkGenerator) : Ideal :=
  MkIdeal (id_out i) (id_removed i) (id_table i) (id_paused i) g (id_ts i).

Definition id_set_paused (i : Ideal) (p : bool) : Ideal :=
  MkIdeal (id_out i) (id_removed i) (id_table i) p (id_gen i) (id_ts i).

Definition to_all (w : WorkUnit) (out : gmap Z (list item)) : gmap Z (list item) := (λ l, l ++ [IUnit w]) <$> out.

(** Blocked while paused. *)
Definition id_free (i : Ideal) : res unit := if id_paused i then Crash Blocked else Ok tt.

Section Ideal.
Context `{Mus}.
Context (cfg : CollectorConfig).

(** A record goes to the owner of its key. *)
Definition id_emit (i : Ideal) (t : Tuple) : res Ideal :=
  let t := SetTimestamp t (match id_gen i with Some _ => GetTimestamp cfg t | None => id_ts i end) in
  id_free i;;
  w ← KeyToWorkerID (id_table i) (field_bytes (GetKey cfg t));
  match id_out i !! w with
  | None => Crash (Fatal "Downstream not found by worker id")
  | Some l =>
      fatal_if (cc_BatchSize cfg <? length (tuple_bytes t)) "Record size exceeds batch size limit - no support!";;
      Ok (id_set_gen (id_send i (<[w := l ++ [IRec t]]> (id_out i)))
            ((λ g, UpdateMaxRecordTimestamp g (GetTimestamp cfg t)) <$> id_gen i))
  end.

Definition id_generate (i : Ideal) : res Ideal :=
  match id_gen i with
  | None => Ok i
  | Some g =>
      id_free i;;
      let '(g, wm) := GenerateWatermark g in
      let i := id_set_gen i (Some g) in
      Ok (match wm with None => i | Some wm => id_send i (to_all (WatermarkUnit wm) (id_out i)) end)
  end.

Definition id_update_routing (i : Ideal) (add remove : list Z) (table : option (list BucketRange)) : res Ideal :=
  match table with
  | None => Crash (Fatal "KeybyCollector: new KeyPartition is needed")
  | Some bucketRanges =>
      out ← connectToNewDownstreamsHelper (id_out i) add;
      let out := if cc_lazy cfg then to_all InflightBarrier out else out in
      '(out, gone) ← removeDownstreamsHelper (IUnit (TerminationSignal false)) (out, id_removed i) remove;
      table ← DeserializePartitionTable (cc_hash cfg) (cc_numBuckets cfg) bucketRanges;
      Ok (MkIdeal out gone table (id_paused i) (id_gen i) (id_ts i))
  end.

Definition id_step (i : Ideal) (op : kb_op) : res Ideal :=
  match op with
  | CEmit t => id_emit i t
  | CTimer => id_free i;; Ok i
  | CGenerate => id_generate i
  | CWatermark wm => id_free i;; Ok (id_send i (to_all (WatermarkUnit wm) (id_out i)))
  | CSetTimestamp ts => Ok (MkIdeal (id_out i) (id_removed i) (id_table i) (id_paused i) (id_gen i) ts)
  | CPause => id_free i;; Ok (id_set_paused (id_send i (to_all DrainBarrier (id_out i))) true)
  | CResume => fatal_if (negb (id_paused i)) "sync: unlock of unlocked mutex";; Ok (id_set_paused i false)
  | CUpdateRouting add remove table => id_update_routing i add remove table
  | CTerminate => id_free i;; Ok (id_send i (to_all (TerminationSignal false) (id_out i)))
  end.
End Ideal.

(** What a collector stands for. *)
Definition ideal_of (c : KeybyCollector) : Ideal :=
  MkIdeal (view (kb_out c)) ((λ x, (x.1, flat x.2)) <$> kb_removed c) (RoutingTable c) (Paused c) (WatermarkGenerator c) (kb_Timestamp c).

(** ** Helpers over mapped buffers *)

Section Helpers.
Context {U V : Type} (f : list U → list V).

Lemma connect_fmap (ds : gmap Z (list U)) ws : f [] = [] →
  connectToNewDownstreamsHelper (f <$> ds) ws = ds' ← connectToNewDownstreamsHelper ds ws; Ok (f <$> (ds' : gmap Z (list U))).
Proof.
  intros Hf. unfold connectToNewDownstreamsHelper. revert ds. induction ws as [|w ws IH]; intros ds; [done|]. simpl.
  rewrite lookup_fmap. destruct (ds !! w) as [d|]; simpl; [done|].
  replace (<[w := []]> (f <$> ds)) with (f <$> <[w := []]> ds) by by rewrite fmap_insert, Hf. apply IH.
Qed.

Definition map_st (st : gmap Z (list U) * list (Z * list U)) : gmap Z (list V) * list (Z * list V) :=
  (f <$> st.1, (λ x, (x.1, f x.2)) <$> st.2).

Lemma remove_fmap t t' st ws : (∀ d, f (d ++ [t]) = f d ++ [t']) →
  removeDownstreamsHelper t' (map_st st) ws = st' ← removeDownstreamsHelper t st ws; Ok (map_st st').
Proof.
  intros Hf. unfold removeDownstreamsHelper. revert st. induction ws as [|w ws IH]; intros [ds gone]; [done|]. simpl.
  rewrite lookup_fmap. destruct (ds !! w) as [d|]; simpl; [|done].
  rewrite <-IH. unfold map_st. simpl. by rewrite fmap_delete, fmap_app, <-Hf.
Qed.
End Helpers.

Lemma view_flushed o : flushed o → view o = flat <$> Downstreams o.
Proof.
  intros Hfl. apply map_eq. intros w. rewrite lookup_view, lookup_fmap.
  destruct (Downstreams o !! w) as [d|]; [|done]. simpl.
  destruct (CurBatches o !! w) as [b|] eqn:Eb; simpl; [rewrite (Hfl w b Eb)|]; by rewrite app_nil_r.
Qed.

(** ** Refinement *)

Section Refinement.
Context `{MusLaws, !GoRange}.
Context {tys : list Kind} {enc : TupleEncoder} {dec : TupleDecoder} (cfg : CollectorConfig).
Context (Hcodec : codec_of tys enc dec (GetSize cfg)) (keyKind : Kind).
Context (Hkey : EncodeFuncFromKind keyKind = Ok (kb_keyEncoder cfg)) (Hsizer : TupleSizeFuncFromKind keyKind = Ok (kb_keySizer cfg)).
Context (Hsize : is_u32 (Z.of_nat (cc_BatchSize cfg))).

(** The records an operator emits have the tuple type and a key of the key
    type; timestamps are 64-bit numbers. *)
Definition op_ok (op : kb_op) : Prop :=
  match op with
  | CEmit t => Forall2 (λ k f, has_kind k f = true) tys (fields t) ∧
      (∀ ts, has_kind keyKind (GetKey cfg (SetTimestamp t ts)) = true) ∧
      is_i64 (GetTimestamp cfg t)
  | CSetTimestamp ts => is_i64 ts
  | _ => True
  end.

Record kb_inv (c : KeybyCollector) : Prop := {
  ki_out : out_inv (tys := tys) (cc_BatchSize cfg) (kb_out c);
  ki_removed : Forall (λ x, Forall (pushed_ok (tys := tys) (cc_BatchSize cfg)) x.2) (kb_removed c);
  ki_ts : is_i64 (kb_Timestamp c)
}.

Definition implements (r : res KeybyCollector) (i : res Ideal) : Prop :=
  match r with
  | Ok c => i = Ok (ideal_of c) ∧ kb_inv c
  | Crash e => i = Crash e
  end.

Lemma key_bytes_Ok key : has_kind keyKind key = true → key_bytes cfg key = Ok (field_bytes key).
Proof.
  intros Hk. unfold key_bytes.
  destruct (field_codec keyKind key Hk) as ((e & He & Henc) & _ & (sz & Hs & Hsz)).
  rewrite Hkey in He. rewrite Hsizer in Hs. injection He as ->. injection Hs as ->.
  rewrite Hsz, bind_Ok, Henc, bind_Ok. apply fresh_Ok.
Qed.

Lemma stamped_ok c t : kb_inv c → op_ok (CEmit t) →
  well_typed tys (updateRecordTimestamp cfg (WatermarkGenerator c) (kb_Timestamp c) t) ∧ has_kind keyKind (GetKey cfg (updateRecordTimestamp cfg (WatermarkGenerator c) (kb_Timestamp c) t)) = true.
Proof.
  intros [_ _ Hts] (Hf & Hk & Ht). unfold updateRecordTimestamp. split; [|apply Hk].
  split; [done|]. simpl. by destruct (WatermarkGenerator c).
Qed.

Lemma emit_implements c t : kb_inv c → op_ok (CEmit t) → implements (kb_Emit cfg c t) (id_emit cfg (ideal_of c) t).
Proof.
  intros Hinv Hop. destruct (stamped_ok c t Hinv Hop) as [Hwt Hk]. destruct Hinv as [Ho Hr Hts].
  unfold kb_Emit, id_emit, kb_Lock, id_free. rewrite key_bytes_Ok, bind_Ok by done. cbn [ideal_of id_paused id_gen id_ts id_table id_out].
  change (SetTimestamp t _) with (updateRecordTimestamp cfg (WatermarkGenerator c) (kb_Timestamp c) t). set (t' := updateRecordTimestamp cfg (WatermarkGenerator c) (kb_Timestamp c) t) in *.
  destruct (Paused c) eqn:Ep; [done|]. rewrite !bind_Ok.
  destruct (KeyToWorkerID (RoutingTable c) (field_bytes (GetKey cfg t'))) as [w|e]; [|done]. rewrite !bind_Ok.
  destruct (view (kb_out c) !! w) as [l|] eqn:El; [|by rewrite emit_to_missing].
  destruct (Nat.ltb_spec (cc_BatchSize cfg) (length (tuple_bytes t'))) as [Hbig|Hfit].
  - by rewrite (emit_to_big Hcodec _ _ _ _ l).
  - destruct (emit_to_Ok Hcodec (cc_BatchSize cfg) Hsize (kb_out c) w t' l Ho Hwt El Hfit) as (o' & -> & Ho' & Hv).
    rewrite bind_Ok, bind_fatal_false. split; [|by split]. unfold ideal_of, id_set_gen, id_send. simpl. by rewrite Hv.
Qed.

(** A flush, then a broadcast. *)
Lemma flush_implements c (k : KeybyCollector → res KeybyCollector) (i : res Ideal) :
  kb_inv c →
  (∀ o, out_inv (tys := tys) (cc_BatchSize cfg) o → flushed o → view o = view (kb_out c) →
    implements (k (kb_with c o)) i) →
  implements (c' ← kb_flush c; k c') i.
Proof.
  intros [Ho Hr Hts] Hk. destruct (flushAll_Ok (cc_BatchSize cfg) (kb_out c) Ho) as (o' & Hf & Ho' & Hfl & Hv).
  unfold kb_flush. rewrite Hf, !bind_Ok. by apply Hk.
Qed.

Lemma broadcast_implements c w : kb_inv c →
  implements (c' ← kb_flush c; Ok (kb_with c' (broadcast (kb_out c') w))) (Ok (id_send (ideal_of c) (to_all w (id_out (ideal_of c))))).
Proof.
  intros Hinv. apply flush_implements; [done|]. intros o Ho Hfl Hv. destruct Hinv as [_ Hr Hts].
  destruct (broadcast_Ok (cc_BatchSize cfg) o w Ho Hfl) as [Hb Hbv]. split; [|by split].
  unfold ideal_of, id_send, to_all. simpl. by rewrite Hbv, Hv.
Qed.

Lemma implements_crash e : implements (Crash e) (Crash e).
Proof. done. Qed.

Lemma lock_implements c k i : (Paused c = false → implements (k tt) (i tt)) →
  implements (kb_Lock c ≫= k) (id_free (ideal_of c) ≫= i).
Proof. intros Hk. unfold kb_Lock, id_free. simpl. destruct (Paused c); [done|]. by apply Hk. Qed.

Lemma pushed_ok_snoc (d : list out_unit) w :
  Forall (pushed_ok (tys := tys) (cc_BatchSize cfg)) d → Forall (pushed_ok (tys := tys) (cc_BatchSize cfg)) (d ++ [OUnit w]).
Proof. intros Hd. apply Forall_app. split; [done|by constructor]. Qed.

(** The invariant of a map of buffers. *)
Definition bufs_ok (ds : gmap Z (list out_unit)) : Prop :=
  ∀ w d, ds !! w = Some d → Forall (pushed_ok (tys := tys) (cc_BatchSize cfg)) d.

Lemma connect_ok ds ws ds' : bufs_ok ds → connectToNewDownstreamsHelper ds ws = Ok ds' → bufs_ok ds'.
Proof.
  intros Hds. unfold connectToNewDownstreamsHelper. revert ds Hds. induction ws as [|w ws IH]; simpl; intros ds Hds.
  - by intros [= <-].
  - destruct (ds !! w) as [d|]; simpl; [done|]. apply IH. intros w' d' [[<- <-]|[_ ?]]%lookup_insert_Some; [done|eauto].
Qed.

Lemma remove_ok ds gone ws ds' gone' :
  bufs_ok ds → Forall (λ x, Forall (pushed_ok (tys := tys) (cc_BatchSize cfg)) x.2) gone →
  removeDownstreamsHelper (OUnit (TerminationSignal false)) (ds, gone) ws = Ok (ds', gone') →
  bufs_ok ds' ∧ Forall (λ x, Forall (pushed_ok (tys := tys) (cc_BatchSize cfg)) x.2) gone'.
Proof.
  unfold removeDownstreamsHelper. revert ds gone. induction ws as [|w ws IH]; simpl; intros ds gone Hds Hg.
  - by intros [= <- <-].
  - destruct (ds !! w) as [d|] eqn:Ed; simpl; [|done]. apply IH.
    + intros w' d' [_ ?]%lookup_delete_Some. eauto.
    + apply Forall_app. split; [done|]. constructor; [|done]. simpl. apply pushed_ok_snoc. eauto.
Qed.

Lemma update_routing_implements c add remove table :
  kb_inv c → implements (kb_UpdateRouting cfg c add remove table) (id_update_routing cfg (ideal_of c) add remove table).
Proof.
  intros Hinv. unfold kb_UpdateRouting, id_update_routing. destruct table as [ranges|]; [|done].
  apply flush_implements; [done|]. intros o Ho Hfl Hv. destruct Hinv as [_ Hr Hts]. cbn [kb_with kb_out kb_removed ideal_of id_out id_removed].
  rewrite <-Hv, view_flushed, connect_fmap by done.
  destruct (connectToNewDownstreamsHelper (Downstreams o) add) as [ds|e] eqn:Ec; [|done]. rewrite !bind_Ok.
  assert (bufs_ok ds) as Hds by exact (connect_ok _ _ _ (oi_pushed _ _ Ho) Ec).
  set (ds1 := if cc_lazy cfg then _ else ds : gmap Z (list out_unit)).
  assert (bufs_ok ds1) as Hds1.
  { unfold ds1. destruct (cc_lazy cfg); [|done]. intros w d. rewrite lookup_fmap. intros (d0 & Hd0 & ->)%fmap_Some.
    apply pushed_ok_snoc. eauto. }
  replace (if cc_lazy cfg then to_all InflightBarrier (flat <$> ds) else flat <$> ds) with (flat <$> ds1).
  2:{ unfold ds1, to_all. destruct (cc_lazy cfg); [|done]. rewrite <-!map_fmap_compose. apply map_fmap_ext.
      intros w d _. simpl. by rewrite flat_snoc. }
  pose proof (remove_fmap flat (OUnit (TerminationSignal false)) (IUnit (TerminationSignal false)) (ds1, kb_removed c) remove) as Hrm.
  unfold map_st in Hrm. simpl in Hrm. rewrite Hrm by (intros d; by rewrite flat_snoc). clear Hrm. simpl.
  destruct (removeDownstreamsHelper _ (ds1, kb_removed c) remove) as [[ds' gone]|e] eqn:Er; [|done]. simpl.
  destruct (remove_ok _ _ _ _ _ Hds1 Hr Er) as [Hds' Hg].
  destruct (DeserializePartitionTable _ _ ranges) as [tab|e]; [|done]. simpl. split.
  - unfold ideal_of. simpl. f_equal. f_equal. rewrite view_flushed; [done|]. intros w b. simpl. rewrite lookup_fmap.
    by intros (d & _ & ->)%fmap_Some.
  - split; simpl; [|done|done]. split; simpl.
    + intros w. by rewrite lookup_fmap, fmap_is_Some.
    + intros w b. rewrite lookup_fmap. intros (d & _ & ->)%fmap_Some. apply empty_batch_ok.
    + exact Hds'.
Qed.

Lemma step_implements c op : kb_inv c → op_ok op → implements (kb_step cfg c op) (id_step cfg (ideal_of c) op).
Proof.
  intros Hinv Hop. destruct op as [t| | |wm|ts| | |add remove table|]; cbn [kb_step id_step].
  - by apply emit_implements.
  - unfold kb_timer. apply lock_implements. intros _. destruct (flushAll_Ok (cc_BatchSize cfg) (kb_out c) (ki_out c Hinv)) as (o & Hf & Ho & _ & Hv).
    unfold kb_flush. rewrite Hf, bind_Ok. destruct Hinv. split; [|by split]. unfold ideal_of. simpl. by rewrite Hv.
  - unfold kb_generate, id_generate. cbn [ideal_of id_gen]. destruct (WatermarkGenerator c) as [g|]; [|done].
    apply lock_implements. intros _. destruct (GenerateWatermark g) as [g' [wm|]].
    + destruct Hinv as [Ho Hr Hts]. unfold kb_BroadcastWatermark. simpl.
      exact (broadcast_implements (kb_with_gen c (Some g')) (WatermarkUnit wm) (Build_kb_inv (kb_with_gen c (Some g')) Ho Hr Hts)).
    + destruct Hinv. split; [done|by split].
  - unfold kb_BroadcastWatermark. apply lock_implements. intros _. by apply broadcast_implements.
  - destruct Hinv. split; [done|by split].
  - unfold kb_PauseEmit. apply lock_implements. intros _. destruct Hinv as [Ho Hr Hts].
    exact (broadcast_implements (kb_set_paused c true) DrainBarrier (Build_kb_inv (kb_set_paused c true) Ho Hr Hts)).
  - unfold kb_ResumeEmit. cbn [ideal_of id_paused]. destruct (Paused c); [|done]. simpl. destruct Hinv. split; [done|by split].
  - by apply update_routing_implements.
  - unfold kb_Terminate. apply lock_implements. intros _. by apply broadcast_implements.
Qed.

Lemma run_implements ops c : kb_inv c → Forall op_ok ops → implements (foldM (kb_step cfg) c ops) (foldM (id_step cfg) (ideal_of c) ops).
Proof.
  intros Hinv Hops. revert c Hinv. induction Hops as [|op ops Hop _ IH]; intros c Hinv; [by split|]. simpl.
  pose proof (step_implements c op Hinv Hop) as Hs. destruct (kb_step cfg c op) as [c'|e]; simpl in Hs |- *.
  - destruct Hs as [-> Hinv']. simpl. by apply IH.
  - by rewrite Hs.
Qed.
End Refinement.

(** The specification at the start: every downstream has received nothing. *)
Definition ideal_start (downstreams : list Z) (table : PartitionTable) (g : option PeriodicWatermarkGenerator) : Ideal :=
  MkIdeal (list_to_map ((λ w, (w, [])) <$> downstreams)) [] table false g (-1).

Lemma view_new ws : view (new_outputs ws) = list_to_map ((λ w, (w, [])) <$> ws).
Proof.
  rewrite view_flushed.
  - unfold new_outputs. simpl. induction ws as [|w ws IH]; [done|]. simpl. rewrite fmap_insert. f_equal. exact IH.
  - intros w b Hb. by apply elem_of_list_to_map_2, list_elem_of_fmap in Hb as (? & [= -> ->] & _).
Qed.

Lemma setup_inv `{MusLaws} (tys : list Kind) cfg downstreams table g :
  let c := MkKeyby (new_outputs downstreams) [] table false g (-1) in
  kb_inv (tys := tys) cfg c ∧ ideal_of c = ideal_start downstreams table g.
Proof.
  split.
  - split; [|done|done]. apply (new_outputs_inv (tys := tys)).
  - unfold ideal_of, ideal_start. simpl. by rewrite view_new.
Qed.

Lemma codec_from_sizer `{MusLaws} tys siz : CreateSizer tys = Ok siz → ∃ enc dec, codec_of tys enc dec siz.
Proof.
  intros Hs. destruct (decide (Forall (λ k, SupportedKind k = true) tys)) as [Hall|Hn].
  - destruct (codec_exists tys Hall) as (enc & dec & siz' & Hc). exists enc, dec.
    pose proof (codec_siz _ _ _ _ Hc) as Hs'. rewrite Hs in Hs'. by injection Hs' as ->.
  - unfold CreateSizer in Hs. rewrite field_funcs_unsupported in Hs; [done|intros k Hk; apply (fromKind_supported k Hk)|done].
Qed.

Lemma setup_refines `{MusLaws, !GoRange} (tys : list Kind) (keyKind : Kind) (batchSize : nat) (isLazy : bool) (hash : HashFunc)
    (numBuckets : Z) (keyExtractor : Tuple → field) (timestampExtractor : Tuple → Z)
    (cfg : CollectorConfig) (downstreams : list Z) (table : PartitionTable) (g : option PeriodicWatermarkGenerator)
    (c : KeybyCollector) (ops : list kb_op) :
  NewCollectorConfig tys keyKind batchSize isLazy hash numBuckets keyExtractor timestampExtractor = Ok cfg →
  is_u32 (Z.of_nat batchSize) → kb_Setup downstreams (Some table) g = Ok c →
  Forall (op_ok (tys := tys) cfg keyKind) ops →
  cc_BatchSize cfg = batchSize ∧
  implements (tys := tys) cfg (foldM (kb_step cfg) c ops) (foldM (id_step cfg) (ideal_start downstreams table g) ops).
Proof.
  intros Hcfg Hsize Hsetup Hops. unfold NewCollectorConfig in Hcfg.
  destruct (CreateSizer tys) as [siz|] eqn:Esiz; [|done]. destruct (EncodeFuncFromKind keyKind) as [e|] eqn:Ee; [|done].
  destruct (TupleSizeFuncFromKind keyKind) as [s|] eqn:Es; [|done]. simpl in Hcfg. injection Hcfg as <-.
  set (cfg := MkCollectorConfig _ _ _ _ _ _ _ _ _) in *. simpl in Hsetup. injection Hsetup as <-. split; [done|].
  destruct (setup_inv tys cfg downstreams table g) as [Hinv <-].
  destruct (codec_from_sizer tys siz Esiz) as (enc & dec & Hcodec).
  exact (run_implements cfg Hcodec keyKind Ee Es Hsize ops _ Hinv Hops).
Qed.

(** C11: batching is invisible.  A key-by collector, from its setup through any
    sequence of emits, timer flushes, watermarks (of the task or of the
    generator), pauses, resumes, routing updates and termination, behaves as
    the collector that appends each stamped record to what the owner of its key
    receives, each watermark and barrier to what all receive: in the same
    order, for downstreams that stay and for those that were removed, with the
    same failures.  Every batch it pushed is typed, has the size it says and
    fits the batch size, so that it can be sent. *)
Theorem keyby_refines `{MusLaws, !GoRange} (tys : list Kind) (keyKind : Kind) (batchSize : nat) (isLazy : bool) (hash : HashFunc)
    (numBuckets : Z) (keyExtractor : Tuple → field) (timestampExtractor : Tuple → Z)
    (cfg : CollectorConfig) (downstreams : list Z) (table : PartitionTable) (g : option PeriodicWatermarkGenerator)
    (c : KeybyCollector) (ops : list kb_op) :
  NewCollectorConfig tys keyKind batchSize isLazy hash numBuckets keyExtractor timestampExtractor = Ok cfg →
  is_u32 (Z.of_nat batchSize) → kb_Setup downstreams (Some table) g = Ok c →
  Forall (op_ok (tys := tys) cfg keyKind) ops →
  match foldM (kb_step cfg) c ops with
  | Crash e => foldM (id_step cfg) (ideal_start downstreams table g) ops = Crash e
  | Ok c' =>
      foldM (id_step cfg) (ideal_start downstreams table g) ops = Ok (ideal_of c') ∧
      (∀ w d, Downstreams (kb_out c') !! w = Some d → Forall (pushed_ok (tys := tys) batchSize) d) ∧
      Forall (λ x, Forall (pushed_ok (tys := tys) batchSize) x.2) (kb_removed c')
  end.
Proof.
  intros Hcfg Hsize Hsetup Hops.
  edestruct setup_refines as [Hbs Hrun]; [exact Hcfg|exact Hsize|exact Hsetup|exact Hops|]. unfold implements in Hrun.
  destruct (foldM (kb_step cfg) c ops) as [c'|e']; [|done]. rewrite <-Hbs.
  destruct Hrun as [-> [Ho Hr _]]. split_and!; [done|apply Ho|done].
Qed.

Lemma keyby_run `{MusLaws, !GoRange} (tys : list Kind) (keyKind : Kind) (batchSize : nat) (isLazy : bool) (hash : HashFunc)
    (numBuckets : Z) (keyExtractor : Tuple → field) (timestampExtractor : Tuple → Z)
    (cfg : CollectorConfig) (downstreams : list Z) (table : PartitionTable) (g : option PeriodicWatermarkGenerator)
    (c : KeybyCollector) (ops : list kb_op) :
  NewCollectorConfig tys keyKind batchSize isLazy hash numBuckets keyExtractor timestampExtractor = Ok cfg →
  is_u32 (Z.of_nat batchSize) → kb_Setup downstreams (Some table) g = Ok c →
  Forall (op_ok (tys := tys) cfg keyKind) ops →
  ∀ c', foldM (kb_step cfg) c ops = Ok c' →
  foldM (id_step cfg) (ideal_start downstreams table g) ops = Ok (ideal_of c') ∧
  (∀ w d, Downstreams (kb_out c') !! w = Some d → Forall (pushed_ok (tys := tys) batchSize) d) ∧
  Forall (λ x, Forall (pushed_ok (tys := tys) batchSize) x.2) (kb_removed c').
Proof.
  intros Hcfg Hsize Hsetup Hops c' Hrun.
  edestruct setup_refines as [Hbs Himp]; [exact Hcfg|exact Hsize|exact Hsetup|exact Hops|]. rewrite Hrun in Himp.
  rewrite <-Hbs. destruct Himp as [-> [Ho Hr _]]. split_and!; [done|apply Ho|done].
Qed.

Definition demo_hash : HashFunc := MkHashFunc (λ key, be_decode (take 8 key)).

(** A worker is added and another removed between two records of the same key. *)
Definition demo_collector_ops : list kb_op :=
  [CEmit demo_tuple; CWatermark 3; CEmit demo_tuple; CTimer;
   CUpdateRouting [2%Z] [1%Z] (Some [MkRange 2 0 1]); CEmit demo_tuple; CPause; CResume].

Definition demo_key (t : Tuple) : field := default (FNum KInt64 0) (fields t !! 0).
Definition demo_cfg : CollectorConfig :=
  MkCollectorConfig 100 true demo_hash 2 (match CreateSizer demo_type with Ok s => s | Crash _ => λ _, Ok 0 end)
    demo_key (EncodeNum KInt64) (SizeNumFunc KInt64) timestamp.
Definition demo_table : PartitionTable := MkTable demo_hash [1; 1]%Z.
Definition demo_collector : KeybyCollector := MkKeyby (new_outputs [1%Z]) [] demo_table false None (-1).

Lemma demo_emit_ok : op_ok (tys := demo_type) demo_cfg KInt64 (CEmit demo_tuple).
Proof. split; [apply demo_tuple_typed|]. split; [done|]. split; simpl; lia. Qed.

Lemma keyby_refines_witness :
  ∃ c', foldM (kb_step demo_cfg) demo_collector demo_collector_ops = Ok c' ∧
    foldM (id_step demo_cfg) (ideal_start [1%Z] demo_table None) demo_collector_ops = Ok (ideal_of c') ∧
    (∀ w d, Downstreams (kb_out c') !! w = Some d → Forall (pushed_ok (tys := demo_type) 100) d).
Proof.
  pose proof (keyby_refines demo_type KInt64 100 true demo_hash 2 demo_key timestamp demo_cfg [1%Z] demo_table None
    demo_collector demo_collector_ops eq_refl) as Hrun.
  destruct (foldM (kb_step demo_cfg) demo_collector demo_collector_ops) as [c'|e] eqn:Erun; [|vm_compute in Erun; discriminate Erun].
  destruct Hrun as (Hspec & Hpush & _).
  - split; lia.
  - reflexivity.
  - repeat (apply Forall_cons; split; [first [exact demo_emit_ok | exact I]|]). by apply Forall_nil.
  - exists c'. split_and!; [reflexivity|exact Hspec|exact Hpush].
Defined.
