(* ===== verification/CollectorTime.v ===== *)
(** * Sources: watermarks and time

    The watermark generator of a source follows the largest event time by the
    allowed delay.  When events are no more out of order than that, every
    channel of the source is one on which no record is behind a watermark,
    which is what [SupplierTime.v] asks of the channels of a task. *)

From stdpp Require Import prelude gmap strings list.
From Stdlib Require Import ZArith Lia.
From S2P Require Import Prelude Partition PartitionTable Codec WorkUnit Window Network Supplier SupplierTime Collector CollectorSpec.

(** ** The watermark of a channel, item by item

    [None] once a record was behind the watermark or a watermark did not
    advance. *)
Definition track (wm : option Z) (x : item) : option Z :=
  wm ← wm;
  match x with
  | IRec t => if bool_decide (wm ≤ timestamp t)%Z then Some wm else None
  | IUnit (WatermarkUnit ts) => if bool_decide (wm < ts)%Z then Some ts else None
  | IUnit (DrainBarrier | InflightBarrier | FastForwardMetadata _) => Some wm
  | IUnit _ => None
  end.

Definition tracked (l : list item) : option Z := foldl track (Some (-1)%Z) l.

Lemma tracked_snoc l x : tracked (l ++ [x]) = track (tracked l) x.
Proof. unfold tracked. by rewrite foldl_app. Qed.

Lemma track_None l : foldl track None l = None.
Proof. by induction l. Qed.

Lemma tracked_app l1 l2 x : tracked (l1 ++ l2) = Some x → ∃ y, tracked l1 = Some y.
Proof. unfold tracked. rewrite foldl_app. destruct (foldl track _ l1); [eauto|]. by rewrite track_None. Qed.

Lemma track_records wm rs l :
  foldl track (Some wm) (IRec <$> rs) = Some l → l = wm ∧ Forall (λ r, wm ≤ timestamp r)%Z rs.
Proof.
  induction rs as [|r rs IH]; simpl; [by intros [= ->]|]. case_bool_decide; [|by rewrite track_None].
  intros Hl. destruct (IH Hl) as [-> Hrs]. split; [done|by constructor].
Qed.

(** A tracked channel is one of [SupplierTime.v], also once it is terminated. *)
Lemma chan_ok_tracked d : ∀ wm x fin, (-1 ≤ wm)%Z → foldl track (Some wm) (flat d) = Some x →
  fin = [] ∨ fin = [TerminationSignal false] → chan_ok (-1) wm ((delivered <$> d) ++ fin).
Proof.
  induction d as [|u d IH]; intros wm x fin Hwm Hx Hfin; [by destruct Hfin as [-> | ->]|].
  change (flat (u :: d)) with (unit_items u ++ flat d) in Hx. rewrite foldl_app in Hx.
  destruct (foldl track (Some wm) (unit_items u)) as [y|] eqn:Ey; [|by rewrite track_None in Hx].
  destruct u as [b|w].
  - apply track_records in Ey as [-> Hrs]. simpl. split; [|by eapply IH].
    eapply Forall_impl; [exact Hrs|]. simpl. lia.
  - simpl in Ey. destruct w; simpl in Ey; try done; try (injection Ey as <-; simpl; by eapply IH).
    case_bool_decide; [|done]. injection Ey as <-. simpl. split; [done|]. eapply IH; [lia|done..].
Qed.

(** ** The source *)

Section Source.
Context `{Mus}.
Context (cfg : CollectorConfig) (D : Z) (HD : (0 ≤ D)%Z).
(** The extractor reads the event time from the fields. *)
Context (Hext : ∀ t ts, GetTimestamp cfg (SetTimestamp t ts) = GetTimestamp cfg t).

(** The operations of a source whose events are at most [D] out of order; [m] is
    the largest event time so far. *)
Fixpoint source_ops (m : Z) (ops : list kb_op) : Prop :=
  match ops with
  | [] => True
  | CEmit t :: ops =>
      let ts := GetTimestamp cfg t in
      (D ≤ ts < 2 ^ 63)%Z ∧ (m - D ≤ ts)%Z ∧ source_ops (Z.max m ts) ops
  | (CWatermark _ | CTerminate) :: _ => False
  | _ :: ops => source_ops m ops
  end.

Record source_inv (i : Ideal) (m : Z) : Prop := {
  si_gen : ∃ last, id_gen i = Some (MkGenerator last m D) ∧ (-1 ≤ last)%Z ∧
    (m = -1 ∧ last = -1 ∨ D ≤ m < 2 ^ 63 ∧ last ≤ m - D)%Z ∧
    ∀ w l, id_out i !! w = Some l → ∃ x, tracked l = Some x ∧ (x ≤ last)%Z;
  si_removed : Forall (λ y, ∃ l x, y.2 = l ++ [IUnit (TerminationSignal false)] ∧ tracked l = Some x) (id_removed i)
}.

(** What the step keeps of the buffers: every one tracked up to [last]. *)
Definition bufs_tracked (last : Z) (out : gmap Z (list item)) : Prop :=
  ∀ w l, out !! w = Some l → ∃ x, tracked l = Some x ∧ (x ≤ last)%Z.

Lemma bufs_insert last out w l x : bufs_tracked last out → tracked l = Some x → (x ≤ last)%Z → bufs_tracked last (<[w := l]> out).
Proof. intros Ho Hl Hx w' l' [[<- <-]|[_ ?]]%lookup_insert_Some; eauto. Qed.

Lemma bufs_to_all last last' out w :
  bufs_tracked last out → (last ≤ last')%Z →
  (∀ x, (x ≤ last)%Z → ∃ y, track (Some x) (IUnit w) = Some y ∧ (y ≤ last')%Z) → bufs_tracked last' (to_all w out).
Proof.
  intros Ho Hle Hw w' l'. unfold to_all. rewrite lookup_fmap. intros (l & Hl & ->)%fmap_Some.
  destruct (Ho w' l Hl) as (x & Hx & Hxl). rewrite tracked_snoc, Hx. by apply Hw.
Qed.

Lemma bufs_connect last ws : (-1 ≤ last)%Z → ∀ out out',
  bufs_tracked last out → connectToNewDownstreamsHelper out ws = Ok out' → bufs_tracked last out'.
Proof.
  intros Hlast. unfold connectToNewDownstreamsHelper. induction ws as [|w ws IH]; simpl; intros out out' Ho; [by intros [= <-]|].
  destruct (out !! w); simpl; [done|]. apply IH. by eapply bufs_insert.
Qed.

Definition removed_ok (gone : list (Z * list item)) : Prop :=
  Forall (λ y, ∃ l x, y.2 = l ++ [IUnit (TerminationSignal false)] ∧ tracked l = Some x) gone.

Lemma bufs_remove last ws : ∀ out gone out' gone',
  bufs_tracked last out → removed_ok gone →
  removeDownstreamsHelper (IUnit (TerminationSignal false)) (out, gone) ws = Ok (out', gone') →
  bufs_tracked last out' ∧ removed_ok gone'.
Proof.
  unfold removeDownstreamsHelper. induction ws as [|w ws IH]; simpl; intros out gone out' gone' Ho Hg; [by intros [= <- <-]|].
  destruct (out !! w) as [l|] eqn:El; simpl; [|done]. apply IH.
  - intros w' l' [_ ?]%lookup_delete_Some. eauto.
  - apply Forall_app. split; [done|]. destruct (Ho w l El) as (x & Hx & _). constructor; [|done]. by exists l, x.
Qed.

Lemma id_emit_source i m t i' ops :
  source_inv i m → source_ops m (CEmit t :: ops) → id_emit cfg i t = Ok i' →
  source_inv i' (Z.max m (GetTimestamp cfg t)).
Proof.
  intros [(last & Hg & Hl & Hm & Ho) Hr] (Ht & Hd & _). unfold id_emit. rewrite Hg. cbn [SetTimestamp].
  set (ts := GetTimestamp cfg t) in *. set (t' := SetTimestamp t ts).
  intros ([] & Hf & Hrest)%bind_Ok_inv. apply bind_Ok_inv in Hrest as (w & _ & Hrest).
  destruct (id_out i !! w) as [l|] eqn:El; [|done]. apply bind_Ok_inv in Hrest as ([] & _ & [= <-]).
  split; [|done]. destruct (Ho w l El) as (x & Hx & Hxl). exists last. simpl.
  change (MkTuple (fields t) ts) with t'. replace (GetTimestamp cfg t') with ts by (symmetry; apply Hext).
  split_and!; [|done|right; lia|].
  - unfold UpdateMaxRecordTimestamp. simpl. destruct (Z.ltb_spec m ts); do 2 f_equal; lia.
  - apply (bufs_insert last _ w (l ++ [IRec t']) x); [exact Ho| |done]. rewrite tracked_snoc, Hx. simpl.
    rewrite bool_decide_true by (simpl; lia). done.
Qed.

Lemma id_generate_source i m i' : source_inv i m → id_generate i = Ok i' → source_inv i' m.
Proof.
  intros [(last & Hg & Hl & Hm & Ho) Hr]. unfold id_generate. rewrite Hg. intros ([] & _ & Hrest)%bind_Ok_inv.
  unfold GenerateWatermark in Hrest. simpl in Hrest. destruct (Z.eqb_spec m (-1)) as [->|Hne].
  { injection Hrest as <-. split; [|done]. by exists last. }
  rewrite i64_id in Hrest by (unfold is_i64; lia). destruct (Z.eqb_spec (m - D) last) as [Heq|Hneq].
  { injection Hrest as <-. split; [|done]. by exists last. }
  injection Hrest as <-. split; [|done]. exists (m - D)%Z. simpl. split_and!; [done|lia|lia|].
  apply (bufs_to_all last); [exact Ho|lia|]. intros x Hx. exists (m - D)%Z. simpl.
  rewrite bool_decide_true by lia. split; [done|lia].
Qed.

Lemma source_step i m op ops i' :
  source_inv i m → source_ops m (op :: ops) → id_step cfg i op = Ok i' → ∃ m', source_inv i' m' ∧ source_ops m' ops.
Proof.
  intros Hinv Hops. destruct op as [t| | |wm|ts| | |add remove table|]; cbn [id_step]; try done.
  - intros Hstep. eexists. split; [by eapply id_emit_source|]. by destruct Hops as (_ & _ & ?).
  - intros ([] & _ & [= <-])%bind_Ok_inv. eauto.
  - intros Hstep. exists m. split; [by eapply id_generate_source|done].
  - intros [= <-]. exists m. split; [|done]. destruct Hinv as [Hg Hr]. by split.
  - intros ([] & _ & [= <-])%bind_Ok_inv. exists m. split; [|done]. destruct Hinv as [(last & Hg & Hl & Hm & Ho) Hr].
    split; [|done]. exists last. split_and!; try done. apply (bufs_to_all last); [exact Ho|lia|]. intros x Hx. by exists x.
  - intros ([] & _ & [= <-])%bind_Ok_inv. exists m. split; [|done]. destruct Hinv as [Hg Hr]. by split.
  - unfold id_update_routing. destruct table as [ranges|]; [|done]. intros (out & Hc & Hrest)%bind_Ok_inv.
    apply bind_Ok_inv in Hrest as ([out2 gone] & Hrm & Hrest). apply bind_Ok_inv in Hrest as (tab & _ & [= <-]).
    exists m. split; [|done]. destruct Hinv as [(last & Hg & Hl & Hm & Ho) Hr].
    assert (bufs_tracked last (if cc_lazy cfg then to_all InflightBarrier out else out)) as Hb.
    { pose proof (bufs_connect last add Hl _ _ Ho Hc). destruct (cc_lazy cfg); [|done].
      apply (bufs_to_all last); [done|lia|]. intros x Hx. by exists x. }
    destruct (bufs_remove last remove _ _ _ _ Hb Hr Hrm) as [Hb' Hg']. split; [|done]. by exists last.
Qed.

Lemma source_run ops : ∀ i m i',
  source_inv i m → source_ops m ops → foldM (id_step cfg) i ops = Ok i' → ∃ m', source_inv i' m'.
Proof.
  induction ops as [|op ops IH]; simpl; intros i m i' Hinv Hops; [intros [= <-]; eauto|].
  intros (i1 & Hstep & Hrest)%bind_Ok_inv. destruct (source_step i m op ops i1 Hinv Hops Hstep) as (m' & Hinv' & Hops').
  by eapply IH.
Qed.
End Source.

(** ** Channels of a source *)

Section Channels.
Context `{Mus} {tys : list Kind} (BatchSize : nat).

Lemma flat_nil d : Forall (pushed_ok (tys := tys) BatchSize) d → flat d = [] → d = [].
Proof.
  destruct d as [|[b|w] d]; [done| |done]. intros [[_ Hne] _]%Forall_cons Hf. simpl in Hf.
  apply app_nil in Hf as [Hf _]. by destruct (Records b).
Qed.

(** What a removed downstream was sent. *)
Lemma flat_terminated d l : Forall (pushed_ok (tys := tys) BatchSize) d → flat d = l ++ [IUnit (TerminationSignal false)] →
  ∃ d', d = d' ++ [OUnit (TerminationSignal false)] ∧ flat d' = l.
Proof.
  induction d as [|u d' _] using rev_ind; [by destruct l|]. intros [_ Hu]%Forall_app. rewrite flat_snoc.
  apply Forall_inv in Hu. destruct u as [b|w]; simpl.
  - destruct Hu as [_ Hne]. induction (Records b) as [|r rs _] using rev_ind; [done|].
    rewrite fmap_app, app_assoc. intros [_ Heq]%app_inj_tail. done.
  - intros [<- [= ->]]%app_inj_tail. by exists d'.
Qed.
End Channels.

(** C13: the channels of a source.  When the events a source emits are at most
    [MaxAllowedDelay] behind the latest one (and none is earlier than that
    delay), then whatever the timer, the generator, pauses and routing updates
    do, on every channel to a downstream, removed ones included, watermarks
    increase and no record is behind a watermark sent before it: the condition
    under which the receiving task is given no late record. *)
Theorem source_on_time `{MusLaws, !GoRange} (tys : list Kind) (keyKind : Kind) (batchSize : nat) (isLazy : bool) (hash : HashFunc)
    (numBuckets : Z) (keyExtractor : Tuple → field) (timestampExtractor : Tuple → Z)
    (cfg : CollectorConfig) (downstreams : list Z) (table : PartitionTable) (delay : Z) (c c' : KeybyCollector) (ops : list kb_op) :
  NewCollectorConfig tys keyKind batchSize isLazy hash numBuckets keyExtractor timestampExtractor = Ok cfg →
  is_u32 (Z.of_nat batchSize) → (0 ≤ delay)%Z →
  (∀ t ts, timestampExtractor (SetTimestamp t ts) = timestampExtractor t) →
  kb_Setup downstreams (Some table) (Some (NewPeriodicWatermarkGenerator delay)) = Ok c →
  Forall (op_ok (tys := tys) cfg keyKind) ops → source_ops cfg delay (-1) ops →
  foldM (kb_step cfg) c ops = Ok c' →
  (∀ w d, Downstreams (kb_out c') !! w = Some d → chan_ok (-1) (-1) (delivered <$> d)) ∧
  Forall (λ x, chan_ok (-1) (-1) (delivered <$> x.2)) (kb_removed c').
Proof.
  intros Hcfg Hsize HD Hext Hsetup Hops Hsrc Hrun.
  assert (∀ t ts, GetTimestamp cfg (SetTimestamp t ts) = GetTimestamp cfg t) as Hext'.
  { unfold NewCollectorConfig in Hcfg. repeat (apply bind_Ok_inv in Hcfg as (? & _ & Hcfg)). by injection Hcfg as <-. }
  destruct (keyby_run tys keyKind batchSize isLazy hash numBuckets keyExtractor timestampExtractor cfg downstreams table
    _ c ops Hcfg Hsize Hsetup Hops c' Hrun) as (Hspec & Hpush & Hgone).
  edestruct (source_run cfg delay HD Hext' ops) as (m & Hinv); [|exact Hsrc|exact Hspec|].
  { split; [|done]. exists (-1)%Z. split_and!; [done|lia|by left|]. intros w l Hl.
    apply elem_of_list_to_map_2, list_elem_of_fmap in Hl as (? & [= -> ->] & _). by exists (-1)%Z. }
  destruct Hinv as [(last & _ & _ & _ & Hout) Hrem]. split.
  - intros w d Hd. destruct (Hout w (flat d ++ pending (CurBatches (kb_out c') !! w))) as (x & Hx & _).
    { simpl. by rewrite lookup_view, Hd. }
    apply tracked_app in Hx as (y & Hy). pose proof (chan_ok_tracked d (-1) y [] ltac:(lia) Hy (or_introl eq_refl)) as Hok.
    by rewrite app_nil_r in Hok.
  - simpl in Hrem. rewrite Forall_fmap in Hrem. apply Forall_forall. intros [w d] Hin.
    rewrite Forall_forall in Hrem, Hgone. destruct (Hrem _ Hin) as (l & x & Hl & Hx). simpl in Hl.
    destruct (flat_terminated batchSize d l (Hgone _ Hin) Hl) as (d' & -> & <-). simpl. rewrite fmap_app.
    apply (chan_ok_tracked d' (-1) x); [lia|exact Hx|by right].
Qed.

(** Records of times 20, 15 and 30 with a delay of 5; the generator runs in
    between. *)
Definition demo_event (z : Z) : Tuple := MkTuple [FNum KInt64 z; FString []; FBool true] 0.
Definition demo_event_time (t : Tuple) : Z := match fields t !! 0 with Some (FNum _ z) => z | _ => 0%Z end.
Definition demo_source_cfg : CollectorConfig :=
  MkCollectorConfig 100 true demo_hash 2 (match CreateSizer demo_type with Ok s => s | Crash _ => λ _, Ok 0 end)
    demo_key (EncodeNum KInt64) (SizeNumFunc KInt64) demo_event_time.
Definition demo_source : KeybyCollector :=
  MkKeyby (new_outputs [1%Z]) [] demo_table false (Some (NewPeriodicWatermarkGenerator 5)) (-1).
Definition demo_source_ops : list kb_op :=
  [CEmit (demo_event 20); CGenerate; CEmit (demo_event 15); CTimer; CEmit (demo_event 30); CGenerate].

Lemma demo_event_ok z : (0 ≤ z < 100)%Z → op_ok (tys := demo_type) demo_source_cfg KInt64 (CEmit (demo_event z)).
Proof.
  intros Hz. assert (has_kind KInt64 (FNum KInt64 z) = true) as Hk.
  { simpl. rewrite (proj2 (Z.leb_le _ _)), (proj2 (Z.ltb_lt _ _)) by lia. done. }
  split; [by repeat constructor|]. split; [intros ts; exact Hk|]. unfold is_i64, demo_source_cfg, demo_event_time, demo_event. simpl. lia.
Qed.

Lemma source_on_time_witness :
  ∃ c' d, foldM (kb_step demo_source_cfg) demo_source demo_source_ops = Ok c' ∧ Downstreams (kb_out c') !! 1%Z = Some d ∧
    d ≠ [] ∧ chan_ok (-1) (-1) (delivered <$> d).
Proof.
  destruct (foldM (kb_step demo_source_cfg) demo_source demo_source_ops) as [c'|e] eqn:Erun; [|vm_compute in Erun; discriminate Erun].
  destruct (source_on_time demo_type KInt64 100 true demo_hash 2 demo_key demo_event_time demo_source_cfg [1%Z] demo_table 5
    demo_source c' demo_source_ops eq_refl) as [Hok _].
  - split; lia.
  - lia.
  - reflexivity.
  - reflexivity.
  - repeat (apply Forall_cons; split; [first [exact I | apply demo_event_ok; lia]|]). by apply Forall_nil.
  - simpl. unfold demo_event_time. simpl. lia.
  - exact Erun.
  - destruct (Downstreams (kb_out c') !! 1%Z) as [d|] eqn:Ed.
    + exists c', d. split_and!; [reflexivity|exact Ed| |exact (Hok _ _ Ed)].
      intros ->. apply (f_equal (λ r, match r with Ok c => Some (Downstreams (kb_out c) !! 1%Z) | Crash _ => None end)) in Erun.
      rewrite Ed in Erun. vm_compute in Erun. discriminate Erun.
    + apply (f_equal (λ r, match r with Ok c => Some (Downstreams (kb_out c) !! 1%Z) | Crash _ => None end)) in Erun.
      rewrite Ed in Erun. vm_compute in Erun. discriminate Erun.
Defined.

(** ** Event times smaller than the delay *)

(** C37: the first watermark may be one that no task accepts.  If the largest
    event time so far is more than one below the allowed delay, the generator
    produces a watermark below minus one, which stands for unset; the task that
    receives it, on a channel without a watermark yet, ends its process. *)
Theorem early_watermark_fatal `{!GoRange} (g : PeriodicWatermarkGenerator) (s : Supplier) (name : string) (ss : SubSupplier) (u : Upstream) :
  LastGeneratedTime g = (-1)%Z → (0 ≤ CurrentMaxTime g)%Z → (CurrentMaxTime g + 1 < MaxAllowedDelay g)%Z → (MaxAllowedDelay g < 2 ^ 63)%Z →
  SubSuppliers s !! name = Some ss → (0 ≤ NextUpstreamIdx ss)%Z →
  Upstreams ss !! Z.to_nat (NextUpstreamIdx ss) = Some u → up_WM u = (-1)%Z →
  ∃ g' wm, GenerateWatermark g = (g', Some wm) ∧ (wm < -1)%Z ∧
    handleWatermark s wm name = Crash (Fatal "Watermark timestamp should only increase").
Proof.
  intros Hlast Hmax Hdelay Hd Hss Hi Hu Hwm. unfold GenerateWatermark.
  rewrite (proj2 (Z.eqb_neq _ _)) by lia. rewrite i64_id by (unfold is_i64; lia). rewrite (proj2 (Z.eqb_neq _ _)) by lia.
  do 2 eexists. split; [done|]. split; [lia|]. unfold handleWatermark, get_sub. rewrite Hss, bind_Ok.
  unfold UpdateWatermark, idxZ, idx. rewrite (proj2 (Z.ltb_ge _ _)) by lia. rewrite Hu, bind_Ok.
  unfold wm_Update. rewrite Hwm, (proj2 (Z.leb_le _ _)) by lia. done.
Qed.

Lemma early_watermark_fatal_witness :
  ∃ g' wm, GenerateWatermark (MkGenerator (-1) 5 10) = (g', Some wm) ∧ wm = (-5)%Z ∧
    handleWatermark (put_sub (NewSupplier false 1) "src" (ss_set (AddUpstream (NewSubSupplier "src") [] 1) 
      [NewUpstream 1 [] [] (-1)] 0)) wm "src" = Crash (Fatal "Watermark timestamp should only increase").
Proof.
  destruct (early_watermark_fatal (MkGenerator (-1) 5 10)
    (put_sub (NewSupplier false 1) "src" (ss_set (AddUpstream (NewSubSupplier "src") [] 1) [NewUpstream 1 [] [] (-1)] 0))
    "src" (ss_set (AddUpstream (NewSubSupplier "src") [] 1) [NewUpstream 1 [] [] (-1)] 0) (NewUpstream 1 [] [] (-1)))
    as (g' & wm & Hg & _ & Hh); try reflexivity; try (simpl; lia).
  exists g', wm. injection Hg as <- <-. split_and!; [reflexivity|reflexivity|exact Hh].
Defined.
