(* ===== verification/RoundRobin.v ===== *)
(** * Round-robin collectors

    [api/collector/roundRobinCollector.go], for downstreams without keys: one
    pending batch, and whole batches go to the downstreams in turn.  The
    specification is a collector without batches that is told where each record
    goes; the collector follows it for some choice of downstreams, and without
    routing updates every downstream gets the same number of batches up to one. *)

From stdpp Require Import prelude gmap strings list.
From Stdlib Require Import ZArith Lia.
From S2P Require Import Prelude Partition PartitionTable Codec WorkUnit Window Network Collector CollectorSpec.

Record RoundRobinCollector := MkRR {
  rr_Downstreams : gmap Z (list out_unit);
  rr_removed : list (Z * list out_unit);
  CurBatch : Batch;
  DownstreamList : list Z;
  NextDownstreamIdx : Z;
  rr_Paused : bool;
  rr_WatermarkGenerator : option PeriodicWatermarkGenerator;
  rr_Timestamp : Z
}.

Definition rr_with_gen (c : RoundRobinCollector) (g : option PeriodicWatermarkGenerator) : RoundRobinCollector :=
  MkRR (rr_Downstreams c) (rr_removed c) (CurBatch c) (DownstreamList c) (NextDownstreamIdx c) (rr_Paused c) g (rr_Timestamp c).

Definition rr_with_batch (c : RoundRobinCollector) (b : Batch) : RoundRobinCollector :=
  MkRR (rr_Downstreams c) (rr_removed c) b (DownstreamList c) (NextDownstreamIdx c) (rr_Paused c) (rr_WatermarkGenerator c) (rr_Timestamp c).

Definition rr_set_paused (c : RoundRobinCollector) (p : bool) : RoundRobinCollector :=
  MkRR (rr_Downstreams c) (rr_removed c) (CurBatch c) (DownstreamList c) (NextDownstreamIdx c) p (rr_WatermarkGenerator c) (rr_Timestamp c).

Definition rr_broadcast (c : RoundRobinCollector) (w : WorkUnit) : RoundRobinCollector :=
  MkRR ((λ d, d ++ [OUnit w]) <$> rr_Downstreams c) (rr_removed c) (CurBatch c) (DownstreamList c) (NextDownstreamIdx c)
    (rr_Paused c) (rr_WatermarkGenerator c) (rr_Timestamp c).

Section RoundRobin.
Context `{GoRange}.
Context (cfg : CollectorConfig).
Implicit Types c : RoundRobinCollector.

Definition rr_Setup (downstreams : list Z) (g : option PeriodicWatermarkGenerator) : RoundRobinCollector :=
  MkRR (list_to_map ((λ w, (w, [])) <$> downstreams)) [] AllocateOutputBatch downstreams (-1) false g (-1).

Definition rr_Lock c : res unit := if rr_Paused c then Crash Blocked else Ok tt.

(** The new index with the buffer it stands for. *)
Definition incrementNextDownstreamIdx c : res (Z * Z * list out_unit) :=
  let next := (NextDownstreamIdx c + 1)%Z in
  let next := if (Z.of_nat (length (DownstreamList c)) <=? next)%Z then 0%Z else next in
  w ← idxZ (DownstreamList c) next;
  match rr_Downstreams c !! w with
  | Some d => Ok (next, w, d)
  | None => Crash (Fatal "Downstream not found by worker id")
  end.

Definition flushPendingBatch c : res RoundRobinCollector :=
  if 0 <? TotalNumRecords (CurBatch c) then
    '(next, w, d) ← incrementNextDownstreamIdx c;
    Ok (MkRR (<[w := d ++ [OBatch (CurBatch c)]]> (rr_Downstreams c)) (rr_removed c) AllocateOutputBatch (DownstreamList c) next
          (rr_Paused c) (rr_WatermarkGenerator c) (rr_Timestamp c))
  else Ok c.

Definition rr_Emit c (t : Tuple) : res RoundRobinCollector :=
  let t := updateRecordTimestamp cfg (rr_WatermarkGenerator c) (rr_Timestamp c) t in
  recordSize ← GetSize cfg t;
  let size := Z.of_nat recordSize in
  rr_Lock c;;
  c ← (if (Z.of_nat (cc_BatchSize cfg) <? size + TotalNumBytes (CurBatch c))%Z then
         c ← flushPendingBatch c;
         fatal_if (Z.of_nat (cc_BatchSize cfg) <? size)%Z "Record size exceeds batch size limit - no support!";;
         Ok c
       else Ok c);
  Ok (rr_with_gen (rr_with_batch c (AddRecord (CurBatch c) t size))
        ((λ g, UpdateMaxRecordTimestamp g (GetTimestamp cfg t)) <$> rr_WatermarkGenerator c)).

Definition rr_PauseEmit c : res RoundRobinCollector :=
  rr_Lock c;;
  c ← flushPendingBatch (rr_set_paused c true);
  Ok (rr_broadcast c DrainBarrier).

Definition rr_ResumeEmit c : res RoundRobinCollector :=
  fatal_if (negb (rr_Paused c)) "sync: unlock of unlocked mutex";;
  Ok (rr_set_paused c false).

(** The list is rebuilt from the map, in the order in which it is traversed. *)
Definition rr_UpdateRouting c (downstreamsToAdd downstreamsToRemove : list Z) (newDownstreamKR : option (list BucketRange))
    : res RoundRobinCollector :=
  match newDownstreamKR with
  | Some _ => Crash (Fatal "RoundRobinCollector: new KeyPartition is not needed")
  | None =>
      c ← flushPendingBatch c;
      ds ← connectToNewDownstreamsHelper (rr_Downstreams c) downstreamsToAdd;
      '(ds, gone) ← removeDownstreamsHelper (OUnit (TerminationSignal false)) (ds, rr_removed c) downstreamsToRemove;
      Ok (MkRR ds gone (CurBatch c) (go_range ds).*1 (-1) (rr_Paused c) (rr_WatermarkGenerator c) (rr_Timestamp c))
  end.

Definition rr_Terminate c : res RoundRobinCollector :=
  rr_Lock c;;
  c ← flushPendingBatch c;
  Ok (rr_broadcast c (TerminationSignal false)).

Definition rr_BroadcastWatermark c (wm : Z) (needSync : bool) : res RoundRobinCollector :=
  (if needSync then rr_Lock c else Ok tt);;
  c ← flushPendingBatch c;
  Ok (rr_broadcast c (WatermarkUnit wm)).

Definition rr_timer c : res RoundRobinCollector := rr_Lock c;; flushPendingBatch c.

Definition rr_generate c : res RoundRobinCollector :=
  match rr_WatermarkGenerator c with
  | None => Ok c
  | Some g =>
      rr_Lock c;;
      let '(g, wm) := GenerateWatermark g in
      let c := rr_with_gen c (Some g) in
      match wm with
      | None => Ok c
      | Some wm => rr_BroadcastWatermark c wm false
      end
  end.

Definition rr_SetCurrentTimestamp c (ts : Z) : RoundRobinCollector :=
  MkRR (rr_Downstreams c) (rr_removed c) (CurBatch c) (DownstreamList c) (NextDownstreamIdx c) (rr_Paused c) (rr_WatermarkGenerator c) ts.

Definition rr_step c (op : kb_op) : res RoundRobinCollector :=
  match op with
  | CEmit t => rr_Emit c t
  | CTimer => rr_timer c
  | CGenerate => rr_generate c
  | CWatermark wm => rr_BroadcastWatermark c wm true
  | CSetTimestamp ts => Ok (rr_SetCurrentTimestamp c ts)
  | CPause => rr_PauseEmit c
  | CResume => rr_ResumeEmit c
  | CUpdateRouting add remove table => rr_UpdateRouting c add remove table
  | CTerminate => rr_Terminate c
  end.
End RoundRobin.

(** ** The collector that is told where records go *)

Record RRIdeal := MkRRIdeal {
  ri_out : gmap Z (list item);
  ri_removed : list (Z * list item);
  ri_paused : bool;
  ri_gen : option PeriodicWatermarkGenerator;
  ri_ts : Z
}.

Definition ri_send (i : RRIdeal) (out : gmap Z (list item)) : RRIdeal :=
  MkRRIdeal out (ri_removed i) (ri_paused i) (ri_gen i) (ri_ts i).

Definition ri_set_gen (i : RRIdeal) (g : option PeriodicWatermarkGenerator) : RRIdeal :=
  MkRRIdeal (ri_out i) (ri_removed i) (ri_paused i) g (ri_ts i).

Definition ri_set_paused (i : RRIdeal) (p : bool) : RRIdeal :=
  MkRRIdeal (ri_out i) (ri_removed i) p (ri_gen i) (ri_ts i).

Definition ri_free (i : RRIdeal) : res unit := if ri_paused i then Crash Blocked else Ok tt.

Section Ideal.
Context `{Mus}.
Context (cfg : CollectorConfig).

(** A record goes to the downstream given; to none only if there is none. *)
Definition ri_emit (i : RRIdeal) (t : Tuple) (target : option Z) : res RRIdeal :=
  let t := SetTimestamp t (match ri_gen i with Some _ => GetTimestamp cfg t | None => ri_ts i end) in
  ri_free i;;
  fatal_if (cc_BatchSize cfg <? length (tuple_bytes t)) "Record size exceeds batch size limit - no support!";;
  out ← match target with
        | Some w => match ri_out i !! w with Some l => Ok (<[w := l ++ [IRec t]]> (ri_out i)) | None => Crash Panic end
        | None => if decide (ri_out i = ∅) then Ok ∅ else Crash Panic
        end;
  Ok (ri_set_gen (ri_send i out) ((λ g, UpdateMaxRecordTimestamp g (GetTimestamp cfg t)) <$> ri_gen i)).

Definition ri_generate (i : RRIdeal) : res RRIdeal :=
  match ri_gen i with
  | None => Ok i
  | Some g =>
      ri_free i;;
      let '(g, wm) := GenerateWatermark g in
      let i := ri_set_gen i (Some g) in
      Ok (match wm with None => i | Some wm => ri_send i (to_all (WatermarkUnit wm) (ri_out i)) end)
  end.

Definition ri_update_routing (i : RRIdeal) (add remove : list Z) (table : option (list BucketRange)) : res RRIdeal :=
  match table with
  | Some _ => Crash (Fatal "RoundRobinCollector: new KeyPartition is not needed")
  | None =>
      out ← connectToNewDownstreamsHelper (ri_out i) add;
      '(out, gone) ← removeDownstreamsHelper (IUnit (TerminationSignal false)) (out, ri_removed i) remove;
      Ok (MkRRIdeal out gone (ri_paused i) (ri_gen i) (ri_ts i))
  end.

Definition ri_step (i : RRIdeal) (x : kb_op * option Z) : res RRIdeal :=
  match x.1 with
  | CEmit t => ri_emit i t x.2
  | CTimer => ri_free i;; Ok i
  | CGenerate => ri_generate i
  | CWatermark wm => ri_free i;; Ok (ri_send i (to_all (WatermarkUnit wm) (ri_out i)))
  | CSetTimestamp ts => Ok (MkRRIdeal (ri_out i) (ri_removed i) (ri_paused i) (ri_gen i) ts)
  | CPause => ri_free i;; Ok (ri_set_paused (ri_send i (to_all DrainBarrier (ri_out i))) true)
  | CResume => fatal_if (negb (ri_paused i)) "sync: unlock of unlocked mutex";; Ok (ri_set_paused i false)
  | CUpdateRouting add remove table => ri_update_routing i add remove table
  | CTerminate => ri_free i;; Ok (ri_send i (to_all (TerminationSignal false) (ri_out i)))
  end.
End Ideal.

(** ** What a collector stands for *)

(** The downstream that the pending batch will go to. *)
Definition next_idx (c : RoundRobinCollector) : Z :=
  if (Z.of_nat (length (DownstreamList c)) <=? NextDownstreamIdx c + 1)%Z then 0%Z else (NextDownstreamIdx c + 1)%Z.

Definition next_target (c : RoundRobinCollector) : option Z := DownstreamList c !! Z.to_nat (next_idx c).

Definition rr_view (c : RoundRobinCollector) : gmap Z (list item) :=
  map_imap (λ w d, Some (flat d ++ if decide (next_target c = Some w) then IRec <$> Records (CurBatch c) else [])) (rr_Downstreams c).

Lemma lookup_rr_view c w : rr_view c !! w =
  (λ d, flat d ++ if decide (next_target c = Some w) then IRec <$> Records (CurBatch c) else []) <$> rr_Downstreams c !! w.
Proof. unfold rr_view. rewrite map_lookup_imap. by destruct (rr_Downstreams c !! w). Qed.

Definition ri_of (c : RoundRobinCollector) : RRIdeal :=
  MkRRIdeal (rr_view c) ((λ x, (x.1, flat x.2)) <$> rr_removed c) (rr_Paused c) (rr_WatermarkGenerator c) (rr_Timestamp c).

Lemma rr_view_flushed c : Records (CurBatch c) = [] → rr_view c = flat <$> rr_Downstreams c.
Proof.
  intros Hc. apply map_eq. intros w. rewrite lookup_rr_view, lookup_fmap, Hc. destruct (rr_Downstreams c !! w); [|done]. simpl.
  case_decide; by rewrite app_nil_r.
Qed.

(** ** Refinement *)

Section Refinement.
Context `{MusLaws, !GoRange}.
Context {tys : list Kind} {enc : TupleEncoder} {dec : TupleDecoder} (cfg : CollectorConfig).
Context (Hcodec : codec_of tys enc dec (GetSize cfg)).
Context (Hsize : is_u32 (Z.of_nat (cc_BatchSize cfg))).
Implicit Types c : RoundRobinCollector.

Definition rr_op_ok (op : kb_op) : Prop :=
  match op with
  | CEmit t => Forall2 (λ k f, has_kind k f = true) tys (fields t) ∧ is_i64 (GetTimestamp cfg t)
  | CSetTimestamp ts => is_i64 ts
  | _ => True
  end.

Record rr_inv c : Prop := {
  rv_bufs : bufs_ok (tys := tys) cfg (rr_Downstreams c);
  rv_removed : Forall (λ x, Forall (pushed_ok (tys := tys) (cc_BatchSize cfg)) x.2) (rr_removed c);
  rv_batch : batch_ok (tys := tys) (cc_BatchSize cfg) (CurBatch c);
  rv_ts : is_i64 (rr_Timestamp c);
  rv_list : ∀ w, w ∈ DownstreamList c ↔ is_Some (rr_Downstreams c !! w);
  rv_idx : (-1 ≤ NextDownstreamIdx c)%Z
}.

Lemma no_downstream c : rr_inv c → DownstreamList c = [] → rr_Downstreams c = ∅.
Proof.
  intros Hinv Hnil. apply map_eq. intros w. rewrite lookup_empty. destruct (rr_Downstreams c !! w) eqn:E; [|done].
  exfalso. apply (not_elem_of_nil w). rewrite <-Hnil. apply (rv_list c Hinv). by rewrite E.
Qed.

Lemma next_target_Some c : rr_inv c → DownstreamList c ≠ [] →
  ∃ w d, next_target c = Some w ∧ rr_Downstreams c !! w = Some d ∧ incrementNextDownstreamIdx c = Ok (next_idx c, w, d).
Proof.
  intros Hinv Hne. unfold next_target, incrementNextDownstreamIdx. fold (next_idx c). pose proof (rv_idx c Hinv).
  assert (0 ≤ next_idx c < Z.of_nat (length (DownstreamList c)))%Z as Hi.
  { unfold next_idx. assert (length (DownstreamList c) ≠ 0) by (by intros ?%nil_length_inv). destruct (Z.leb_spec (Z.of_nat (length (DownstreamList c))) (NextDownstreamIdx c + 1)); lia. }
  destruct (lookup_lt_is_Some_2 (DownstreamList c) (Z.to_nat (next_idx c))) as [w Hw]; [lia|].
  destruct (proj1 (rv_list c Hinv w)) as [d Hd]; [by eapply list_elem_of_lookup_2|]. exists w, d. split_and!; [done|done|].
  unfold idxZ, idx. rewrite (proj2 (Z.ltb_ge _ _)) by lia. by rewrite Hw, bind_Ok, Hd.
Qed.

(** A flush changes nothing that a downstream receives; without downstreams it
    panics unless nothing is pending. *)
Lemma rr_flush_Ok c : rr_inv c →
  match flushPendingBatch c with
  | Ok c' => rr_inv c' ∧ Records (CurBatch c') = [] ∧ ri_of c' = ri_of c ∧ TotalNumBytes (CurBatch c') = 0%Z
  | Crash e => e = Panic ∧ rr_view c = ∅
  end.
Proof.
  intros Hinv. pose proof Hinv as [Hb Hr (Hwt & Hby & Hn & Hle) Hts Hl Hi]. unfold flushPendingBatch.
  destruct (TotalNumRecords (CurBatch c)) as [|n] eqn:En; simpl.
  { destruct (Records (CurBatch c)) eqn:Er; [|done]. split_and!; [done|done|done|done]. }
  destruct (decide (DownstreamList c = [])) as [Hnil|Hne].
  { unfold incrementNextDownstreamIdx. rewrite Hnil. simpl.
    match goal with |- context [idxZ [] ?z] => assert (idxZ (A := Z) [] z = Crash Panic) as -> by (unfold idxZ, idx; by case_match) end.
    simpl. split; [done|]. unfold rr_view. by rewrite (no_downstream c). }
  destruct (next_target_Some c Hinv Hne) as (w & d & Hw & Hd & ->). simpl. split_and!; [split; simpl|done| |done].
  - intros w' d' [[<- <-]|[_ ?]]%lookup_insert_Some; [|eauto]. apply Forall_app. split; [eauto|]. constructor; [|done].
    split; [by split_and!; rewrite ?En|]. intros Hnil. rewrite Hnil in Hn. simpl in Hn. lia.
  - done.
  - apply empty_batch_ok.
  - done.
  - intros w'. rewrite Hl, lookup_insert_is_Some'. split; [tauto|]. intros [<-|?]; [by rewrite Hd|done].
  - unfold next_idx. destruct (_ <=? _)%Z; lia.
  - unfold ri_of. simpl. f_equal. apply map_eq. intros w'. rewrite !lookup_rr_view. simpl.
    destruct (decide (w = w')) as [<-|Hn'].
    + rewrite lookup_insert_eq, Hd. simpl. rewrite (decide_True _ _ Hw), flat_snoc. simpl. case_decide; by rewrite app_nil_r.
    + rewrite lookup_insert_ne by done. destruct (rr_Downstreams c !! w'); [|done]. simpl. rewrite (decide_False (P := next_target c = Some w')) by congruence.
      by case_decide.
Qed.

(** Putting a record into a pending batch with room appends it to what the next
    downstream receives. *)
Lemma rr_add_Ok c t :
  rr_inv c → well_typed tys t → (Z.of_nat (length (tuple_bytes t)) + TotalNumBytes (CurBatch c) ≤ Z.of_nat (cc_BatchSize cfg))%Z →
  let c' := rr_with_batch c (AddRecord (CurBatch c) t (Z.of_nat (length (tuple_bytes t)))) in
  rr_inv c' ∧ match next_target c with
    | Some w => ∃ l, rr_view c !! w = Some l ∧ rr_view c' = <[w := l ++ [IRec t]]> (rr_view c)
    | None => rr_view c = ∅ ∧ rr_view c' = ∅
    end.
Proof.
  intros Hinv Ht Hfit c'. split.
  { destruct Hinv. split; try done. by apply (add_record_ok (cc_BatchSize cfg) Hsize). }
  destruct (decide (DownstreamList c = [])) as [Hnil|Hne].
  { assert (next_target c = None) as -> by (unfold next_target; by rewrite Hnil).
    pose proof (no_downstream c Hinv Hnil) as He. unfold rr_view. simpl. by rewrite He. }
  destruct (next_target_Some c Hinv Hne) as (w & d & Hw & Hd & _). rewrite Hw. eexists. split.
  - rewrite lookup_rr_view, Hd. simpl. by rewrite decide_True.
  - apply map_eq. intros w'. rewrite lookup_rr_view. subst c'. cbn [rr_Downstreams rr_with_batch CurBatch].
    change (next_target (rr_with_batch c _)) with (next_target c). destruct (decide (w = w')) as [<-|Hn].
    + rewrite lookup_insert_eq, Hd. simpl. rewrite (decide_True _ _ Hw). by rewrite fmap_app, app_assoc.
    + rewrite lookup_insert_ne, lookup_rr_view by done. simpl. rewrite !(decide_False (P := next_target c = Some w')) by congruence. done.
Qed.

(** A step follows the specification for some target, with the same failure;
    only a flush without downstreams panics. *)
Definition follows (r : res RoundRobinCollector) (i : RRIdeal) (spec : option Z → res RRIdeal) : Prop :=
  match r with
  | Ok c' => (∃ w, spec w = Ok (ri_of c')) ∧ rr_inv c'
  | Crash e => (∃ w, spec w = Crash e) ∨ e = Panic ∧ ri_out i = ∅
  end.

Lemma follows_lock c k i spec : (rr_Paused c = false → follows (k tt) i (λ w, spec tt w)) →
  follows (rr_Lock c ≫= k) i (λ w, ri_free (ri_of c) ≫= λ u, spec u w).
Proof.
  intros Hk. unfold rr_Lock, ri_free. simpl. destruct (rr_Paused c); [left; by exists None|]. by apply Hk.
Qed.

Lemma follows_flush c k spec : rr_inv c →
  (∀ c', rr_inv c' → Records (CurBatch c') = [] → ri_of c' = ri_of c → follows (k c') (ri_of c) spec) →
  follows (c' ← flushPendingBatch c; k c') (ri_of c) spec.
Proof.
  intros Hinv Hk. pose proof (rr_flush_Ok c Hinv) as Hf. destruct (flushPendingBatch c) as [c'|e]; simpl.
  - destruct Hf as (Hinv' & Hnil & Hri & _). by apply Hk.
  - by right.
Qed.

Lemma follows_broadcast c u : rr_inv c →
  follows (c' ← flushPendingBatch c; Ok (rr_broadcast c' u)) (ri_of c) (λ _, Ok (ri_send (ri_of c) (to_all u (ri_out (ri_of c))))).
Proof.
  intros Hinv. apply follows_flush; [done|]. intros c' Hinv' Hnil <-. split.
  - exists None. f_equal. unfold ri_of, ri_send. simpl. f_equal. rewrite !rr_view_flushed by done. unfold to_all.
    unfold rr_broadcast. simpl. rewrite <-!map_fmap_compose. apply map_fmap_ext. intros w d _. simpl. by rewrite flat_snoc.
  - destruct Hinv'. split; simpl; try done.
    + intros w d. rewrite lookup_fmap. intros (d0 & Hd0 & ->)%fmap_Some. apply pushed_ok_snoc. eauto.
    + intros w. by rewrite lookup_fmap, fmap_is_Some.
Qed.

Lemma rr_stamped c t : rr_inv c → rr_op_ok (CEmit t) →
  well_typed tys (updateRecordTimestamp cfg (rr_WatermarkGenerator c) (rr_Timestamp c) t).
Proof.
  intros [_ _ _ Hts _ _] (Hf & Ht). split; [done|]. unfold updateRecordTimestamp. simpl. by destruct (rr_WatermarkGenerator c).
Qed.

Lemma follows_add c c0 t :
  rr_inv c → ri_of c = ri_of c0 → well_typed tys t →
  (Z.of_nat (length (tuple_bytes t)) + TotalNumBytes (CurBatch c) ≤ Z.of_nat (cc_BatchSize cfg))%Z →
  let c' := rr_with_gen (rr_with_batch c (AddRecord (CurBatch c) t (Z.of_nat (length (tuple_bytes t)))))
        ((λ g, UpdateMaxRecordTimestamp g (GetTimestamp cfg t)) <$> rr_WatermarkGenerator c) in
  (∃ w, (out ← match w with
        | Some w => match ri_out (ri_of c0) !! w with Some l => Ok (<[w := l ++ [IRec t]]> (ri_out (ri_of c0))) | None => Crash Panic end
        | None => if decide (ri_out (ri_of c0) = ∅) then Ok ∅ else Crash Panic
        end;
        Ok (ri_set_gen (ri_send (ri_of c0) out) ((λ g, UpdateMaxRecordTimestamp g (GetTimestamp cfg t)) <$> ri_gen (ri_of c0)))) =
      Ok (ri_of c')) ∧ rr_inv c'.
Proof.
  intros Hinv <- Ht Hfit c'. destruct (rr_add_Ok c t Hinv Ht Hfit) as [Hinv' Hv]. split; [|by destruct Hinv'; split].
  exists (next_target c). destruct (next_target c) as [w|]; cbn [ri_out ri_of].
  - destruct Hv as (l & -> & Hv). rewrite bind_Ok. unfold ri_set_gen, ri_send, ri_of. simpl. do 2 f_equal. symmetry. exact Hv.
  - destruct Hv as [He Hv]. rewrite decide_True, bind_Ok by done. unfold ri_set_gen, ri_send, ri_of. simpl. do 2 f_equal. symmetry. exact Hv.
Qed.

Lemma emit_follows c t : rr_inv c → rr_op_ok (CEmit t) → follows (rr_Emit cfg c t) (ri_of c) (ri_emit cfg (ri_of c) t).
Proof.
  intros Hinv Hop. pose proof (rr_stamped c t Hinv Hop) as Hwt. unfold rr_Emit, ri_emit. cbn [ri_of ri_gen ri_ts].
  change (SetTimestamp t _) with (updateRecordTimestamp cfg (rr_WatermarkGenerator c) (rr_Timestamp c) t).
  set (t' := updateRecordTimestamp cfg (rr_WatermarkGenerator c) (rr_Timestamp c) t) in *.
  rewrite (codec_size Hcodec), bind_Ok by done. apply (follows_lock c). intros _. cbn [ri_of ri_out].
  pose proof (rv_batch c Hinv) as (_ & Hby & _).
  destruct (Z.ltb_spec (Z.of_nat (cc_BatchSize cfg)) (Z.of_nat (length (tuple_bytes t')) + TotalNumBytes (CurBatch c))) as [Hfull|Hroom].
  - pose proof (rr_flush_Ok c Hinv) as Hf. destruct (flushPendingBatch c) as [c1|e]; simpl; [|by right].
    destruct Hf as (Hinv1 & Hnil & Hri & Hz). destruct (Nat.ltb_spec (cc_BatchSize cfg) (length (tuple_bytes t'))) as [Hbig|Hfit].
    + rewrite (proj2 (Z.ltb_lt _ _)) by lia. left. by exists None.
    + rewrite (proj2 (Z.ltb_ge _ _)) by lia. simpl. apply (follows_add c1 c t' Hinv1 Hri Hwt). lia.
  - destruct (Nat.ltb_spec (cc_BatchSize cfg) (length (tuple_bytes t'))) as [Hbig|Hfit]; [lia|].
    simpl. by apply (follows_add c c t' Hinv eq_refl Hwt).
Qed.

Lemma update_follows c add remove table :
  rr_inv c → follows (rr_UpdateRouting c add remove table) (ri_of c) (λ _, ri_update_routing (ri_of c) add remove table).
Proof.
  intros Hinv. unfold rr_UpdateRouting, ri_update_routing. destruct table as [ranges|]; [left; by exists None|].
  apply follows_flush; [done|]. intros c' [Hb Hr Hcur Hts Hl Hi] Hnil <-. cbn [ri_of ri_out ri_removed].
  rewrite rr_view_flushed, connect_fmap by done.
  destruct (connectToNewDownstreamsHelper (rr_Downstreams c') add) as [ds|e] eqn:Ec; [|left; by exists None]. rewrite !bind_Ok.
  assert (bufs_ok (tys := tys) cfg ds) as Hds by exact (connect_ok cfg _ _ _ Hb Ec).
  pose proof (remove_fmap flat (OUnit (TerminationSignal false)) (IUnit (TerminationSignal false)) (ds, rr_removed c') remove) as Hrm.
  unfold map_st in Hrm. simpl in Hrm. rewrite Hrm by (intros d; by rewrite flat_snoc). clear Hrm.
  destruct (removeDownstreamsHelper _ (ds, rr_removed c') remove) as [[ds' gone]|e] eqn:Er; simpl; [|left; by exists None].
  destruct (remove_ok cfg _ _ _ _ _ Hds Hr Er) as [Hds' Hg]. split.
  - exists None. unfold ri_of. simpl. do 2 f_equal. by rewrite rr_view_flushed.
  - split; simpl; try done. intros w. by rewrite go_range_keys.
Qed.

Lemma step_follows c op : rr_inv c → rr_op_ok op → follows (rr_step cfg c op) (ri_of c) (λ w, ri_step cfg (ri_of c) (op, w)).
Proof.
  intros Hinv Hop. destruct op as [t| | |wm|ts| | |add remove table|]; cbn [rr_step ri_step fst snd].
  - by apply emit_follows.
  - apply (follows_lock c). intros _. pose proof (rr_flush_Ok c Hinv) as Hf. destruct (flushPendingBatch c) as [c'|e]; [|by right].
    destruct Hf as (Hinv' & _ & <- & _). split; [by exists None|done].
  - unfold rr_generate, ri_generate. cbn [ri_of ri_gen]. destruct (rr_WatermarkGenerator c) as [g|]; [|split; [by exists None|done]].
    apply (follows_lock c). intros _. destruct (GenerateWatermark g) as [g' [wm|]].
    + assert (rr_inv (rr_with_gen c (Some g'))) as Hinv' by (by destruct Hinv; split).
      exact (follows_broadcast (rr_with_gen c (Some g')) (WatermarkUnit wm) Hinv').
    + split; [by exists None|]. by destruct Hinv; split.
  - unfold rr_BroadcastWatermark. apply (follows_lock c). intros _. by apply follows_broadcast.
  - split; [by exists None|]. by destruct Hinv; split.
  - unfold rr_PauseEmit. apply (follows_lock c). intros _.
    assert (rr_inv (rr_set_paused c true)) as Hinv' by (by destruct Hinv; split).
    exact (follows_broadcast (rr_set_paused c true) DrainBarrier Hinv').
  - unfold rr_ResumeEmit. cbn [ri_of ri_paused]. destruct (rr_Paused c); simpl; [|left; by exists None].
    split; [by exists None|]. by destruct Hinv; split.
  - by apply update_follows.
  - unfold rr_Terminate. apply (follows_lock c). intros _. by apply follows_broadcast.
Qed.

Lemma run_follows ops : ∀ c, rr_inv c → Forall rr_op_ok ops →
  match foldM (rr_step cfg) c ops with
  | Ok c' => (∃ ws, length ws = length ops ∧ foldM (ri_step cfg) (ri_of c) (zip ops ws) = Ok (ri_of c')) ∧ rr_inv c'
  | Crash e => (∃ ws, length ws = length ops ∧ foldM (ri_step cfg) (ri_of c) (zip ops ws) = Crash e) ∨
      e = Panic ∧ ∃ ws i, length ws ≤ length ops ∧ foldM (ri_step cfg) (ri_of c) (zip ops ws) = Ok i ∧ ri_out i = ∅
  end.
Proof.
  induction ops as [|op ops IH]; intros c Hinv Hops; simpl; [split; [by exists []|done]|].
  apply Forall_cons in Hops as [Hop Hops]. pose proof (step_follows c op Hinv Hop) as Hs.
  destruct (rr_step cfg c op) as [c1|e]; simpl in Hs |- *.
  - destruct Hs as [[w Hw] Hinv1]. specialize (IH c1 Hinv1 Hops). destruct (foldM (rr_step cfg) c1 ops) as [c'|e].
    + destruct IH as [(ws & Hlen & Hrun) Hinv']. split; [|done]. exists (w :: ws). simpl. rewrite Hw, bind_Ok. auto.
    + destruct IH as [(ws & Hlen & Hrun)|(-> & ws & i & Hlen & Hrun & Hi)].
      * left. exists (w :: ws). simpl. rewrite Hw, bind_Ok. auto.
      * right. split; [done|]. exists (w :: ws), i. simpl. rewrite Hw, bind_Ok. split; [lia|done].
  - destruct Hs as [[w Hw]|[-> Hi]].
    + left. exists (w :: replicate (length ops) None). simpl. rewrite length_replicate, Hw. done.
    + right. split; [done|]. exists [], (ri_of c). split; [simpl; lia|done].
Qed.
End Refinement.

(** ** Batches go in turn *)

Definition is_batch (u : out_unit) : bool := match u with OBatch _ => true | OUnit _ => false end.
Definition num_batches (d : list out_unit) : nat := length (filter is_batch d).

Lemma num_batches_snoc d u : num_batches (d ++ [u]) = num_batches d + (if is_batch u then 1 else 0).
Proof. unfold num_batches. rewrite filter_app, length_app. f_equal. by destruct u. Qed.

(** Every downstream up to the pointer is one batch ahead of those behind it. *)
Definition in_turn (c : RoundRobinCollector) : Prop :=
  NoDup (DownstreamList c) ∧ (-1 ≤ NextDownstreamIdx c < Z.of_nat (length (DownstreamList c)))%Z ∧
  (∀ w, is_Some (rr_Downstreams c !! w) → w ∈ DownstreamList c) ∧
  ∃ k, ∀ j w d, DownstreamList c !! j = Some w → rr_Downstreams c !! w = Some d →
    num_batches d = k + (if (Z.of_nat j <=? NextDownstreamIdx c)%Z then 1 else 0).

Lemma in_turn_broadcast c u : in_turn c → in_turn (rr_broadcast c u).
Proof.
  intros (Hnd & Hi & Hdom & k & Hk). split_and!; simpl; [done|lia..| |].
  - intros w. simpl. rewrite lookup_fmap, fmap_is_Some. apply Hdom.
  - exists k. intros j w d Hj. simpl. rewrite lookup_fmap. intros (d0 & Hd0 & ->)%fmap_Some.
    rewrite num_batches_snoc. simpl. rewrite (Hk j w d0 Hj Hd0). lia.
Qed.

Ltac zcase := repeat match goal with |- context [Z.leb ?a ?b] => destruct (Z.leb_spec a b) end.

Lemma in_turn_flush c c' : in_turn c → flushPendingBatch c = Ok c' → in_turn c'.
Proof.
  intros Hc. pose proof Hc as (Hnd & Hi & Hdom & k & Hk). unfold flushPendingBatch. destruct (0 <? _); [|by intros [= <-]].
  unfold incrementNextDownstreamIdx. fold (next_idx c).
  intros ([[next w] d] & Hinc & [= <-])%bind_Ok_inv. apply bind_Ok_inv in Hinc as (w' & Hw & Hinc).
  destruct (rr_Downstreams c !! w') as [d'|] eqn:Ed; [|done]. injection Hinc as <- <- <-.
  unfold idxZ, idx in Hw. destruct (Z.ltb_spec (next_idx c) 0); [done|].
  destruct (DownstreamList c !! Z.to_nat (next_idx c)) as [w''|] eqn:El; [|done]. injection Hw as ->.
  pose proof (lookup_lt_Some _ _ _ El) as Hlt. split_and!; simpl; [done|lia|lia| |].
  - intros w2. rewrite lookup_insert_is_Some'. intros [<-|?]; [|by apply Hdom]. by eapply list_elem_of_lookup_2.
  - exists (if (Z.of_nat (length (DownstreamList c)) <=? NextDownstreamIdx c + 1)%Z then S k else k).
    intros j w2 d2 Hj. pose proof (lookup_lt_Some _ _ _ Hj). intros [[<- <-]|[Hne Hd2]]%lookup_insert_Some.
    + assert (j = Z.to_nat (next_idx c)) as -> by (by eapply NoDup_lookup). rewrite num_batches_snoc, (Hk _ _ _ El Ed). cbn [is_batch].
      unfold next_idx. destruct (Z.leb_spec (Z.of_nat (length (DownstreamList c))) (NextDownstreamIdx c + 1)); zcase; lia.
    + rewrite (Hk _ _ _ Hj Hd2). assert (j ≠ Z.to_nat (next_idx c)) as Hjn by (intros ->; congruence). revert Hjn. clear Hlt.
      unfold next_idx. destruct (Z.leb_spec (Z.of_nat (length (DownstreamList c))) (NextDownstreamIdx c + 1)); zcase; lia.
Qed.

Definition not_routing (op : kb_op) : Prop := match op with CUpdateRouting _ _ _ => False | _ => True end.

Lemma in_turn_step `{GoRange} cfg c op c' : in_turn c → not_routing op → rr_step cfg c op = Ok c' → in_turn c'.
Proof.
  intros Hc Hop. assert (∀ c0 u, in_turn c0 → (c1 ← flushPendingBatch c0; Ok (rr_broadcast c1 u)) = Ok c' → in_turn c') as Hbc.
  { intros c0 u Hc0 (c1 & Hf & [= <-])%bind_Ok_inv. by eapply in_turn_broadcast, in_turn_flush. }
  destruct op as [t| | |wm|ts| | |add remove table|]; cbn [rr_step]; try done.
  - unfold rr_Emit. intros (n & _ & Hrest)%bind_Ok_inv. apply bind_Ok_inv in Hrest as ([] & _ & Hrest).
    apply bind_Ok_inv in Hrest as (c1 & Hc1 & [= <-]). change (in_turn c1).
    destruct (_ <? _)%Z; [|by injection Hc1 as <-]. apply bind_Ok_inv in Hc1 as (c2 & Hf & Hc1).
    apply bind_Ok_inv in Hc1 as ([] & _ & [= <-]). by eapply in_turn_flush.
  - intros ([] & _ & Hf)%bind_Ok_inv. by eapply in_turn_flush.
  - unfold rr_generate. destruct (rr_WatermarkGenerator c) as [g|]; [|by intros [= <-]]. intros ([] & _ & Hrest)%bind_Ok_inv.
    destruct (GenerateWatermark g) as [g' [wm|]]; [|by injection Hrest as <-]. by apply (Hbc (rr_with_gen c (Some g')) (WatermarkUnit wm)).
  - intros ([] & _ & Hf)%bind_Ok_inv. by apply (Hbc c (WatermarkUnit wm)).
  - by intros [= <-].
  - intros ([] & _ & Hf)%bind_Ok_inv. by apply (Hbc (rr_set_paused c true) DrainBarrier).
  - intros ([] & _ & [= <-])%bind_Ok_inv. done.
  - intros ([] & _ & Hf)%bind_Ok_inv. by apply (Hbc c (TerminationSignal false)).
Qed.

Lemma in_turn_run `{GoRange} cfg ops : ∀ c c', in_turn c → Forall not_routing ops → foldM (rr_step cfg) c ops = Ok c' → in_turn c'.
Proof.
  induction ops as [|op ops IH]; simpl; intros c c' Hc Hops; [by intros [= <-]|]. apply Forall_cons in Hops as [Hop Hops].
  intros (c1 & Hs & Hrun)%bind_Ok_inv. eapply IH; [|done|exact Hrun]. by eapply in_turn_step.
Qed.

Lemma in_turn_setup downstreams g : NoDup downstreams → in_turn (rr_Setup downstreams g).
Proof.
  intros Hnd. unfold rr_Setup. split_and!; simpl; [done|lia..| |].
  - intros w [d Hd]. by apply elem_of_list_to_map_2, list_elem_of_fmap in Hd as (? & [= -> ->] & ?).
  - exists 0. intros j w d _ Hd. apply elem_of_list_to_map_2, list_elem_of_fmap in Hd as (? & [= -> ->] & _).
    rewrite (proj2 (Z.leb_gt _ _)) by lia. done.
Qed.

Lemma in_turn_balanced c w1 w2 d1 d2 : in_turn c → rr_Downstreams c !! w1 = Some d1 → rr_Downstreams c !! w2 = Some d2 →
  num_batches d1 ≤ num_batches d2 + 1.
Proof.
  intros (_ & _ & Hdom & k & Hk) H1 H2. destruct (list_elem_of_lookup_1 _ _ (Hdom w1 ltac:(by rewrite H1))) as [j1 Hj1].
  destruct (list_elem_of_lookup_1 _ _ (Hdom w2 ltac:(by rewrite H2))) as [j2 Hj2].
  rewrite (Hk j1 w1 d1), (Hk j2 w2 d2) by done. zcase; lia.
Qed.

Definition ri_start (downstreams : list Z) (g : option PeriodicWatermarkGenerator) : RRIdeal :=
  MkRRIdeal (list_to_map ((λ w, (w, [])) <$> downstreams)) [] false g (-1).

Lemma rr_setup_inv `{MusLaws} (tys : list Kind) cfg downstreams g :
  rr_inv (tys := tys) cfg (rr_Setup downstreams g) ∧ ri_of (rr_Setup downstreams g) = ri_start downstreams g.
Proof.
  assert (∀ w d, rr_Downstreams (rr_Setup downstreams g) !! w = Some d → w ∈ downstreams ∧ d = []) as Hnil.
  { intros w d Hd. by apply elem_of_list_to_map_2, list_elem_of_fmap in Hd as (? & [= -> ->] & ?). }
  split; [split; simpl|].
  - intros w d Hd. by destruct (Hnil w d Hd) as [_ ->].
  - done.
  - apply empty_batch_ok.
  - by split.
  - intros w. rewrite <-elem_of_dom, dom_list_to_map_L, <-list_fmap_compose. simpl.
    rewrite elem_of_list_to_set, list_elem_of_fmap. naive_solver.
  - done.
  - unfold ri_of, ri_start, rr_Setup. rewrite rr_view_flushed by done. cbn [rr_Downstreams rr_removed rr_Paused rr_WatermarkGenerator rr_Timestamp fmap list_fmap].
    f_equal. clear Hnil. induction downstreams as [|w ws IH]; [done|]. simpl. rewrite fmap_insert. f_equal. exact IH.
Qed.

(** C19: round-robin distribution.  A round-robin collector, from its setup
    through any operations, sends every record to exactly one downstream: there
    is a choice of a downstream for each record such that every downstream,
    removed ones included, receives what a collector without batches sends to
    it, in the same order between watermarks and barriers, with the same
    failures (a flush without any downstream apart, which panics).  Every batch
    can be sent, and as long as the routing is not updated the numbers of
    batches of any two downstreams differ by at most one. *)
Theorem round_robin_refines `{MusLaws, !GoRange} (tys : list Kind) (cfg : CollectorConfig) (downstreams : list Z) (g : option PeriodicWatermarkGenerator) (ops : list kb_op) :
  CreateSizer tys = Ok (GetSize cfg) → is_u32 (Z.of_nat (cc_BatchSize cfg)) → Forall (rr_op_ok (tys := tys) cfg) ops →
  match foldM (rr_step cfg) (rr_Setup downstreams g) ops with
  | Ok c' =>
      (∃ ws, length ws = length ops ∧ foldM (ri_step cfg) (ri_start downstreams g) (zip ops ws) = Ok (ri_of c')) ∧
      (∀ w d, rr_Downstreams c' !! w = Some d → Forall (pushed_ok (tys := tys) (cc_BatchSize cfg)) d) ∧
      Forall (λ x, Forall (pushed_ok (tys := tys) (cc_BatchSize cfg)) x.2) (rr_removed c') ∧
      (NoDup downstreams → Forall not_routing ops → ∀ w1 w2 d1 d2,
        rr_Downstreams c' !! w1 = Some d1 → rr_Downstreams c' !! w2 = Some d2 → num_batches d1 ≤ num_batches d2 + 1)
  | Crash e =>
      (∃ ws, length ws = length ops ∧ foldM (ri_step cfg) (ri_start downstreams g) (zip ops ws) = Crash e) ∨
      e = Panic ∧ ∃ ws i, length ws ≤ length ops ∧ foldM (ri_step cfg) (ri_start downstreams g) (zip ops ws) = Ok i ∧ ri_out i = ∅
  end.
Proof.
  intros Hsiz Hsize Hops. destruct (codec_from_sizer tys _ Hsiz) as (enc & dec & Hcodec).
  destruct (rr_setup_inv tys cfg downstreams g) as [Hinv <-].
  pose proof (run_follows cfg Hcodec Hsize ops _ Hinv Hops) as Hrun.
  destruct (foldM (rr_step cfg) (rr_Setup downstreams g) ops) as [c'|e] eqn:Erun; [|done].
  destruct Hrun as [Hspec [Hb Hr _ _ _ _]]. split_and!; [done|done|done|].
  intros Hnd Hnr w1 w2 d1 d2. eapply in_turn_balanced, in_turn_run; [by apply in_turn_setup|exact Hnr|exact Erun].
Qed.

(** Two downstreams, a batch size of one record. *)
Definition demo_rr_ops : list kb_op :=
  [CEmit (demo_tuple); CEmit demo_tuple; CWatermark 3; CEmit demo_tuple; CPause; CResume].
Definition demo_rr_cfg : CollectorConfig :=
  MkCollectorConfig 40 true demo_hash 2 (match CreateSizer demo_type with Ok s => s | Crash _ => λ _, Ok 0 end)
    demo_key (EncodeNum KInt64) (SizeNumFunc KInt64) timestamp.

Lemma round_robin_refines_witness :
  ∃ c' d1 d2 ws, foldM (rr_step demo_rr_cfg) (rr_Setup [1; 2]%Z None) demo_rr_ops = Ok c' ∧
    foldM (ri_step demo_rr_cfg) (ri_start [1; 2]%Z None) (zip demo_rr_ops ws) = Ok (ri_of c') ∧
    rr_Downstreams c' !! 1%Z = Some d1 ∧ rr_Downstreams c' !! 2%Z = Some d2 ∧
    num_batches d1 = 2 ∧ num_batches d2 = 1 ∧ num_batches d1 ≤ num_batches d2 + 1.
Proof.
  pose proof (round_robin_refines demo_type demo_rr_cfg [1; 2]%Z None demo_rr_ops eq_refl) as Hrun.
  assert (Hc : ∃ c' d1 d2, foldM (rr_step demo_rr_cfg) (rr_Setup [1; 2]%Z None) demo_rr_ops = Ok c' ∧
    rr_Downstreams c' !! 1%Z = Some d1 ∧ rr_Downstreams c' !! 2%Z = Some d2 ∧ num_batches d1 = 2 ∧ num_batches d2 = 1).
  { do 3 eexists. split; [vm_compute; reflexivity|]. split_and!; vm_compute; reflexivity. }
  destruct Hc as (c' & d1 & d2 & Hc' & H1 & H2 & Hn1 & Hn2). rewrite Hc' in Hrun.
  destruct Hrun as ((ws & _ & Hspec) & _ & _ & Hbal).
  - split; simpl; lia.
  - destruct demo_tuple_typed as [Hf _]. repeat (apply Forall_cons; split; [first [exact I | split; [exact Hf|vm_compute; split; congruence]]|]). by apply Forall_nil.
  - exists c', d1, d2, ws. split_and!; [exact Hc'|exact Hspec|exact H1|exact H2|exact Hn1|exact Hn2|].
    apply (Hbal) with (w1 := 1%Z) (w2 := 2%Z); [|repeat (apply Forall_cons; split; [exact I|]); by apply Forall_nil|exact H1|exact H2].
    apply NoDup_cons. split; [rewrite list_elem_of_singleton; lia|apply NoDup_singleton].
Defined.
