(* ===== verification/Task.v ===== *)
(** * Tasks: the main loop and fast forwarding

    [worker/worker.go] runs a task: it takes the units its supplier hands out
    and gives them to the operator.  During a lazy reconfiguration it sends the
    records of keys that have a new owner on to that owner over the peer
    channels of [internal/lazy/peerCollector.go].  The operator is an interface
    ([OperatorOps]): what the loop does is the same for all. *)

From stdpp Require Import prelude gmap strings list.
From Stdlib Require Import ZArith Lia.
From S2P Require Import Prelude Partition PartitionTable Codec WorkUnit KeyMap Window Network Collector.
From S2P Require Import Tuples.

(** ** Peer collectors *)

(** [pc_out] is nil unless the collector is active; [pc_closed] keeps what was
    pushed into the channels that the last deactivation closed. *)
Record PeerCollector := MkPeer {
  pc_out : option Outputs;
  pc_closed : gmap Z (list out_unit)
}.

Definition NewPeerCollector : PeerCollector := MkPeer None ∅.

Definition pc_Activate (c : PeerCollector) (peerList : list Z) : PeerCollector :=
  MkPeer (Some (new_outputs peerList)) (pc_closed c).

(** The maps of an inactive collector are nil, which are empty to a read. *)
Definition pc_outputs (c : PeerCollector) : Outputs := default (MkOutputs ∅ ∅) (pc_out c).

Definition pc_with (c : PeerCollector) (o : Outputs) : PeerCollector := MkPeer (Some o) (pc_closed c).

(** Sending one unit to each of some peers. *)
Definition send_each {A} (mk : A → WorkUnit) (o : Outputs) (x : Z * A) : res Outputs :=
  downstream ← getDownstreamByWorkerID o x.1;
  Ok (MkOutputs (<[x.1 := downstream ++ [OUnit (mk x.2)]]> (Downstreams o)) (CurBatches o)).

Section Peers.
Context `{GoRange}.
Context (cfg : CollectorConfig).

Definition pc_Deactivate (c : PeerCollector) : res PeerCollector :=
  o ← flushAllPendingBatches (pc_outputs c);
  Ok (MkPeer None (Downstreams (broadcast o (TerminationSignal false)))).

Definition pc_Emit (c : PeerCollector) (record : Tuple) (workerId : Z) : res PeerCollector :=
  o ← emit_to (cc_BatchSize cfg) (GetSize cfg) (pc_outputs c) workerId record;
  Ok (pc_with c o).

Definition pc_SendFastForwardMetadata (c : PeerCollector) (metadata : gmap Z bytes) : res PeerCollector :=
  o ← foldM (send_each FastForwardMetadata) (pc_outputs c) (go_range metadata);
  Ok (pc_with c o).

Definition pc_BroadcastWatermark (c : PeerCollector) (wm : Z) : res PeerCollector :=
  o ← flushAllPendingBatches (pc_outputs c);
  Ok (pc_with c (broadcast o (WatermarkUnit wm))).

Definition pc_SendKeyMaps (c : PeerCollector) (serializedKeyMaps : gmap Z bytes) : res PeerCollector :=
  o ← foldM (send_each MigratingKeyMap) (pc_outputs c) (go_range serializedKeyMaps);
  Ok (pc_with c o).

(** A turn of the timer routine. *)
Definition pc_timer (c : PeerCollector) : res PeerCollector :=
  match pc_out c with
  | None => Ok c
  | Some o => o ← flushAllPendingBatches o; Ok (pc_with c o)
  end.
End Peers.

(** ** Fast forwarding *)

Section FastForward.
Context `{GoRange}.
Context (cfg : CollectorConfig) (WorkerId : Z).

(** The owner of a key under the new routing table. *)
Definition GetOwnerWorkerUponReconfig (routingTable : option PartitionTable) (key : field) : res Z :=
  serializedKey ← key_bytes cfg key;
  match routingTable with
  | None => Crash Panic
  | Some table => KeyToWorkerID table serializedKey
  end.

Definition forward_record (routingTable : option PartitionTable) (st : PeerCollector * Batch) (record : Tuple) : res (PeerCollector * Batch) :=
  let '(peers, remainingBatch) := st in
  ownerWorkerId ← GetOwnerWorkerUponReconfig routingTable (GetKey cfg record);
  if (ownerWorkerId =? WorkerId)%Z then Ok (peers, AddRecord remainingBatch record (-1))
  else
    peers ← pc_Emit cfg peers (Copy record) ownerWorkerId;
    Ok (peers, remainingBatch).

(** The remaining batch, [None] if all records were forwarded. *)
Definition fastForwardToPeerCollector (routingTable : option PartitionTable) (peers : PeerCollector) (records : list Tuple)
    : res (PeerCollector * option (list Tuple)) :=
  '(peers, remainingBatch) ← foldM (forward_record routingTable) (peers, AllocateOutputBatch) records;
  Ok (peers, if 0 <? TotalNumRecords remainingBatch then Some (batch_records remainingBatch) else None).
End FastForward.

(** ** The task *)

(** What the loop calls of an operator: [ProcessBatch] with the name of the
    sub-supplier, [ProcessProgressedWatermark] followed by
    [BroadcastWatermark], and the two sides of fast-forward metadata, which the
    operator takes out of its state with the new routing table. *)
Record OperatorOps (S : Type) := MkOperatorOps {
  op_ProcessBatch : S → list Tuple → string → res S;
  op_ProcessWatermark : S → Z → res S;
  op_ProcessFastForwardMetadata : S → bytes → res S;
  op_ConstructFastForwardMetadata : S → option PartitionTable → res (S * option (gmap Z bytes))
}.
Arguments op_ProcessBatch {S}.
Arguments op_ProcessWatermark {S}.
Arguments op_ProcessFastForwardMetadata {S}.
Arguments op_ConstructFastForwardMetadata {S}.

(** [tk_TaskWatermark] is the one the supplier keeps: that of the last watermark
    it has handed out.  [tk_started] and [tk_drained] count the signals to the
    control plane. *)
Record Task (S : Type) := MkTask {
  tk_op : S;
  tk_peers : PeerCollector;
  tk_RoutingTable : option PartitionTable;
  tk_TaskWatermark : Z;
  StateLookupTableV2 : KeyLookupTableV2;
  LazyProtocolPhase : bool;
  inTransition : bool;
  tk_started : nat;
  tk_drained : nat
}.
Arguments MkTask {S}.
Arguments tk_op {S}.
Arguments tk_peers {S}.
Arguments tk_RoutingTable {S}.
Arguments tk_TaskWatermark {S}.
Arguments StateLookupTableV2 {S}.
Arguments LazyProtocolPhase {S}.
Arguments inTransition {S}.
Arguments tk_started {S}.
Arguments tk_drained {S}.

Section Task.
Context `{Mus, RawMus, !GoRange} {S : Type} (ops : OperatorOps S).
(** The orders in which the key maps are traversed. *)
Context (R : GoRange * GoRange).
Context (cfg : CollectorConfig) (WorkerId : Z) (lazy byKey : bool).
Implicit Types st : Task S.

Definition tk_with_peers st (p : PeerCollector) : Task S :=
  MkTask (tk_op st) p (tk_RoutingTable st) (tk_TaskWatermark st) (StateLookupTableV2 st) (LazyProtocolPhase st) (inTransition st)
    (tk_started st) (tk_drained st).

Definition tk_with_op st (s : S) : Task S :=
  MkTask s (tk_peers st) (tk_RoutingTable st) (tk_TaskWatermark st) (StateLookupTableV2 st) (LazyProtocolPhase st) (inTransition st)
    (tk_started st) (tk_drained st).

Definition tk_set_transition st (b : bool) : Task S :=
  MkTask (tk_op st) (tk_peers st) (tk_RoutingTable st) (tk_TaskWatermark st) (StateLookupTableV2 st) (LazyProtocolPhase st) b
    (tk_started st) (tk_drained st).

(** The control plane's handler, up to the wait for the main loop. *)
Definition HandleStartFastForward (IsStatefulOperator : bool) st (peerInfoList : list Z) (bucketRanges : list BucketRange) : res (Task S) :=
  fatal_if (negb lazy) "Fast forward is only allowed under lazy protocol";;
  fatal_if (LazyProtocolPhase st) "Worker is already in reconfiguration phase";;
  fatal_if (negb IsStatefulOperator) "Fast forward is only allowed for stateful operators";;
  table ← DeserializePartitionTable (cc_hash cfg) (cc_numBuckets cfg) bucketRanges;
  Ok (MkTask (tk_op st) (pc_Activate (tk_peers st) peerInfoList) (Some table) (tk_TaskWatermark st) (StateLookupTableV2 st) true
        (inTransition st) (tk_started st) (tk_drained st)).

(** The given watermark, or the current one if it is set. *)
Definition BroadcastWatermarkToPeers st (wm : option Z) : res (Task S) :=
  match wm with
  | Some wm => p ← pc_BroadcastWatermark (tk_peers st) wm; Ok (tk_with_peers st p)
  | None =>
      if wm_Unset (tk_TaskWatermark st) then Ok st
      else p ← pc_BroadcastWatermark (tk_peers st) (tk_TaskWatermark st); Ok (tk_with_peers st p)
  end.

Definition ConstructAndSendKeyMaps st : res (Task S) :=
  match tk_RoutingTable st with
  | None => Crash Panic
  | Some routing =>
      '(table, serializedKeyMaps) ← SerializeMigratingKeyMaps (raw_Marshal KUint16) R.1 R.2 (StateLookupTableV2 st) WorkerId routing;
      p ← pc_SendKeyMaps (tk_peers st) serializedKeyMaps;
      Ok (MkTask (tk_op st) p (tk_RoutingTable st) (tk_TaskWatermark st) table (LazyProtocolPhase st) (inTransition st)
            (tk_started st) (tk_drained st))
  end.

Definition SendFastForwardMetadata st (metadata : option (gmap Z bytes)) : res (Task S) :=
  match metadata with
  | None => Ok st
  | Some metadata => p ← pc_SendFastForwardMetadata (tk_peers st) metadata; Ok (tk_with_peers st p)
  end.

Definition NotifyReconfigStart st : Task S :=
  MkTask (tk_op st) (tk_peers st) (tk_RoutingTable st) (tk_TaskWatermark st) (StateLookupTableV2 st) (LazyProtocolPhase st) (inTransition st)
    (Datatypes.S (tk_started st)) (tk_drained st).

Definition updateInTransitionFlag st : res (Task S) :=
  if LazyProtocolPhase st then
    st ← (if inTransition st then Ok st
          else
            let st := NotifyReconfigStart st in
            st ← (if byKey then ConstructAndSendKeyMaps st else Ok st);
            '(s, fastForwardMetadata) ← op_ConstructFastForwardMetadata ops (tk_op st) (tk_RoutingTable st);
            st ← SendFastForwardMetadata (tk_with_op st s) fastForwardMetadata;
            BroadcastWatermarkToPeers st None);
    Ok (tk_set_transition st true)
  else Ok (tk_set_transition st false).

(** The flag of the loop changes at its next turn. *)
Definition exitTransitionPhase st : res (Task S) :=
  p ← pc_Deactivate (tk_peers st);
  Ok (MkTask (tk_op st) p None (tk_TaskWatermark st) (StateLookupTableV2 st) false (inTransition st) (tk_started st) (tk_drained st)).

Definition process_unit st (workUnit : WorkUnit) (subSupplierName : string) : res (Task S) :=
  match workUnit with
  | BatchUnit records =>
      '(st, remaining) ← (if inTransition st then
          '(p, remaining) ← fastForwardToPeerCollector cfg WorkerId (tk_RoutingTable st) (tk_peers st) records;
          Ok (tk_with_peers st p, remaining)
        else Ok (st, Some records));
      match remaining with
      | None => Ok st
      | Some records => s ← op_ProcessBatch ops (tk_op st) records subSupplierName; Ok (tk_with_op st s)
      end
  | WatermarkUnit wm =>
      let st := MkTask (tk_op st) (tk_peers st) (tk_RoutingTable st) wm (StateLookupTableV2 st) (LazyProtocolPhase st)
                  (inTransition st) (tk_started st) (tk_drained st) in
      st ← (if inTransition st then BroadcastWatermarkToPeers st (Some wm) else Ok st);
      s ← op_ProcessWatermark ops (tk_op st) wm;
      Ok (tk_with_op st s)
  | InflightBarrier => if inTransition st then exitTransitionPhase st else Ok st
  | DrainBarrier =>
      Ok (MkTask (tk_op st) (tk_peers st) (tk_RoutingTable st) (tk_TaskWatermark st) (StateLookupTableV2 st) (LazyProtocolPhase st)
            (inTransition st) (tk_started st) (Datatypes.S (tk_drained st)))
  | CheckpointBarrier => Crash (Fatal "CheckpointBarrierWorkUnit is not implemented yet")
  | FastForwardMetadata bs => s ← op_ProcessFastForwardMetadata ops (tk_op st) bs; Ok (tk_with_op st s)
  | TerminationSignal _ | MigratingKeyMap _ => Crash (Fatal "Unknown WorkUnit type in Worker main loop")
  end.

(** A turn of the main loop, with the unit it is handed. *)
Definition loop_turn st (x : WorkUnit * string) : res (Task S) :=
  st ← (if lazy then updateInTransitionFlag st else Ok st);
  process_unit st x.1 x.2.
End Task.
