(* ===== verification/TaskForward.v ===== *)
(** * Fast forwarding splits the input by owner

    What a task does between the start of a lazy reconfiguration and the
    in-flight barrier: its operator processes exactly the records it still owns,
    and every peer is sent exactly the records it owns now, both in the order in
    which they came, with the watermarks at the same places. *)

From stdpp Require Import prelude gmap strings list.
From Stdlib Require Import ZArith Lia.
From S2P Require Import Prelude Partition PartitionTable Codec WorkUnit KeyMap Window Network Collector CollectorSpec Task.
From S2P Require Import Tuples.

(** ** Appending to every buffer *)

Definition append_map (f : Z → list item) (m : gmap Z (list item)) : gmap Z (list item) :=
  map_imap (λ w l, Some (l ++ f w)) m.

Lemma lookup_append_map f m w : append_map f m !! w = (λ l, l ++ f w) <$> m !! w.
Proof. unfold append_map. rewrite map_lookup_imap. by destruct (m !! w). Qed.

Lemma append_map_nil m : append_map (λ _, []) m = m.
Proof. apply map_eq. intros w. rewrite lookup_append_map. destruct (m !! w); simpl; [by rewrite app_nil_r|done]. Qed.

Lemma append_map_app f g m : append_map g (append_map f m) = append_map (λ w, f w ++ g w) m.
Proof.
  apply map_eq. intros w. rewrite !lookup_append_map. destruct (m !! w); simpl; [by rewrite app_assoc|done].
Qed.

Lemma append_map_ext f g m : (∀ w, is_Some (m !! w) → f w = g w) → append_map f m = append_map g m.
Proof.
  intros Hfg. apply map_eq. intros w. rewrite !lookup_append_map. destruct (m !! w) eqn:E; simpl; [|done].
  by rewrite Hfg by eauto.
Qed.

Lemma insert_append m w l x : m !! w = Some l → <[w := l ++ x]> m = append_map (λ w', if decide (w = w') then x else []) m.
Proof.
  intros Hl. apply map_eq. intros w'. rewrite lookup_append_map. destruct (decide (w = w')) as [<-|Hne].
  - by rewrite lookup_insert_eq, Hl.
  - rewrite lookup_insert_ne by done. destruct (m !! w'); simpl; [by rewrite app_nil_r|done].
Qed.

Lemma to_all_append w m : to_all w m = append_map (λ _, [IUnit w]) m.
Proof. apply map_eq. intros w'. unfold to_all. by rewrite lookup_fmap, lookup_append_map. Qed.

(** Buffers of new channels. *)
Definition no_items (peers : list Z) : gmap Z (list item) := list_to_map ((λ w, (w, [])) <$> peers).

Lemma lookup_no_items peers w : no_items peers !! w = if decide (w ∈ peers) then Some [] else None.
Proof.
  unfold no_items. induction peers as [|p peers IH]; [done|]. cbn [fmap list_fmap list_to_map foldr uncurry].
  destruct (decide (p = w)) as [->|Hne]; [by rewrite lookup_insert_eq, decide_True by set_solver|].
  rewrite lookup_insert_ne by done. unfold list_to_map in IH. etrans; [exact IH|]. destruct (decide (w ∈ peers)).
  - by rewrite decide_True by set_solver.
  - by rewrite decide_False by set_solver.
Qed.

(** ** Splitting records *)

Section Forward.
Context `{MusLaws, !GoRange}.
Context {tys : list Kind} {enc : TupleEncoder} {dec : TupleDecoder} (cfg : CollectorConfig).
Context (Hcodec : codec_of tys enc dec (GetSize cfg)) (keyKind : Kind).
Context (Hkey : EncodeFuncFromKind keyKind = Ok (kb_keyEncoder cfg)) (Hsizer : TupleSizeFuncFromKind keyKind = Ok (kb_keySizer cfg)).
Context (Hsize : is_u32 (Z.of_nat (cc_BatchSize cfg))).
Context (WorkerId : Z) (table : PartitionTable) (peers : list Z).
(** The owners of the buckets before; the workers that get buckets from this
    one are peers. *)
Context (old : list Z) (Hold : length old = length (Buckets table)) (Hpeers : ∀ d, bucket_moved old (Buckets table) WorkerId d → d ∈ peers).

Definition owner (t : Tuple) : Z :=
  match KeyToWorkerID table (field_bytes (GetKey cfg t)) with Ok w => w | Crash _ => WorkerId end.

(** The record was routed to this worker: by the owners before, or by the new
    table. *)
Definition routed_here (t : Tuple) : Prop :=
  KeyToWorkerID (MkTable (H table) old) (field_bytes (GetKey cfg t)) = Ok WorkerId ∨
  KeyToWorkerID table (field_bytes (GetKey cfg t)) = Ok WorkerId.

(** The records of an input batch: typed, with a key, small enough to have
    come in a batch, and routed to this worker. *)
Definition record_ok (t : Tuple) : Prop :=
  well_typed tys t ∧ has_kind keyKind (GetKey cfg t) = true ∧ length (tuple_bytes t) ≤ cc_BatchSize cfg ∧ routed_here t.

Lemma owner_Ok t : record_ok t →
  GetOwnerWorkerUponReconfig cfg (Some table) (GetKey cfg t) = Ok (owner t) ∧ (owner t = WorkerId ∨ owner t ∈ peers).
Proof.
  intros (_ & Hk & _ & Hhere). unfold GetOwnerWorkerUponReconfig, owner.
  rewrite (key_bytes_Ok cfg keyKind Hkey Hsizer) by done. rewrite bind_Ok.
  destruct Hhere as [Hhere|Hhere]; [|rewrite Hhere; split; [done|by left]].
  unfold KeyToWorkerID in *. cbn [Buckets H] in Hhere. rewrite Hold in Hhere.
  apply bind_Ok_inv in Hhere as (i & -> & Hi%idx_Ok). rewrite bind_Ok.
  destruct (lookup_lt_is_Some_2 (Buckets table) i) as [w Hw]; [rewrite <-Hold; by eapply lookup_lt_Some|].
  rewrite (proj2 (idx_Ok _ _ _) Hw). split; [done|]. destruct (decide (WorkerId = w)) as [->|Hne]; [by left|].
  right. apply Hpeers. by exists i.
Qed.

(** An active peer collector to these peers. *)
Definition active (p : PeerCollector) : Prop :=
  ∃ o, pc_out p = Some o ∧ out_inv (tys := tys) (cc_BatchSize cfg) o ∧ ∀ w, is_Some (view o !! w) ↔ w ∈ peers.

Definition peer_view (p : PeerCollector) : gmap Z (list item) := view (pc_outputs p).

Definition mine (rs : list Tuple) : list Tuple := filter (λ t, owner t = WorkerId) rs.
Definition theirs (w : Z) (rs : list Tuple) : list item := IRec <$> filter (λ t, owner t = w) rs.

Lemma Copy_id t : Copy t = t.
Proof. by destruct t. Qed.

Lemma forward_record_Ok p b t :
  active p → record_ok t → output_batch b →
  ∃ p' b', forward_record cfg WorkerId (Some table) (p, b) t = Ok (p', b') ∧ active p' ∧ output_batch b' ∧ pc_closed p' = pc_closed p ∧
    Records b' = Records b ++ mine [t] ∧
    peer_view p' = append_map (λ w, if decide (w = WorkerId) then [] else theirs w [t]) (peer_view p).
Proof.
  intros (o & Hp & Hinv & Hdom) Hr Hb. destruct (owner_Ok t Hr) as [Ho Hin]. unfold forward_record. rewrite Ho, bind_Ok.
  unfold mine, theirs. destruct (Z.eqb_spec (owner t) WorkerId) as [Heq|Hne].
  - eexists p, _. split; [done|]. rewrite filter_cons_True by done. split_and!; [by exists o| |done|done|].
    + unfold output_batch in *. simpl. rewrite length_app, Hb. simpl. lia.
    + symmetry. erewrite append_map_ext; [apply append_map_nil|]. intros w _. simpl. case_decide; [done|].
      by rewrite filter_cons_False by congruence.
  - destruct Hin as [?|Hin]; [done|]. destruct (proj2 (Hdom (owner t)) Hin) as [l Hl]. destruct Hr as (Hwt & Hk & Hfit & _).
    rewrite Copy_id. unfold pc_Emit, pc_outputs. rewrite Hp. simpl.
    destruct (emit_to_Ok Hcodec (cc_BatchSize cfg) Hsize o (owner t) t l Hinv Hwt Hl Hfit) as (o' & -> & Hinv' & Hv).
    rewrite !bind_Ok. eexists _, b. split; [done|]. rewrite filter_cons_False by done.
    split_and!; [|done|done|by rewrite app_nil_r|].
    + exists o'. split_and!; [done|done|]. intros w. rewrite Hv. rewrite <-Hdom. rewrite lookup_insert_is_Some'.
      split; [intros [<-|?]; eauto|tauto].
    + unfold peer_view, pc_outputs. simpl. rewrite Hp. simpl. rewrite Hv, (insert_append _ _ l) by done. apply append_map_ext.
      intros w _. destruct (decide (owner t = w)) as [<-|Hn].
      * rewrite decide_False by done. by rewrite filter_cons_True by done.
      * rewrite filter_cons_False by done. by case_decide.
Qed.

(** What a peer receives from a batch; this worker is not its own peer. *)
Definition sent_to (w : Z) (rs : list Tuple) : list item := if decide (w = WorkerId) then [] else theirs w rs.

Lemma sent_to_app w rs1 rs2 : sent_to w (rs1 ++ rs2) = sent_to w rs1 ++ sent_to w rs2.
Proof. unfold sent_to, theirs. case_decide; [done|]. by rewrite filter_app, fmap_app. Qed.

Lemma forward_records_Ok rs : ∀ p b,
  active p → Forall record_ok rs → output_batch b →
  ∃ p' b', foldM (forward_record cfg WorkerId (Some table)) (p, b) rs = Ok (p', b') ∧ active p' ∧ output_batch b' ∧
    pc_closed p' = pc_closed p ∧ Records b' = Records b ++ mine rs ∧ peer_view p' = append_map (λ w, sent_to w rs) (peer_view p).
Proof.
  induction rs as [|t rs IH]; intros p b Hp Hrs Hb; simpl.
  - eexists _, _. split; [done|]. split_and!; try done; [by rewrite app_nil_r|]. symmetry.
    erewrite append_map_ext; [apply append_map_nil|]. intros w _. unfold sent_to, theirs. by case_decide.
  - apply Forall_cons in Hrs as [Ht Hrs].
    destruct (forward_record_Ok p b t Hp Ht Hb) as (p1 & b1 & Hf & Hp1 & Hb1 & Hc1 & Hr1 & Hv1). unfold forward_record in Hf.
    rewrite Hf, bind_Ok.
    destruct (IH p1 b1 Hp1 Hrs Hb1) as (p2 & b2 & Hf2 & Hp2 & Hb2 & Hc2 & Hr2 & Hv2). eexists _, _. split; [exact Hf2|].
    split_and!; [done|done|by rewrite Hc2| |].
    + rewrite Hr2, Hr1, <-app_assoc. unfold mine. by rewrite <-filter_app.
    + rewrite Hv2, Hv1, append_map_app. apply append_map_ext. intros w _. change (t :: rs) with ([t] ++ rs).
      by rewrite sent_to_app.
Qed.

Lemma fast_forward_Ok p rs : active p → Forall record_ok rs →
  ∃ p', fastForwardToPeerCollector cfg WorkerId (Some table) p rs =
      Ok (p', match mine rs with [] => None | l => Some l end) ∧ active p' ∧ pc_closed p' = pc_closed p ∧
    peer_view p' = append_map (λ w, sent_to w rs) (peer_view p).
Proof.
  intros Hp Hrs. destruct (forward_records_Ok rs p AllocateOutputBatch Hp Hrs eq_refl) as (p' & b' & Hf & Hp' & Hb' & Hc & Hr & Hv).
  unfold fastForwardToPeerCollector. rewrite Hf, bind_Ok. exists p'. split_and!; try done.
  do 2 f_equal. rewrite output_batch_records, Hb', Hr by done. simpl. by destruct (mine rs).
Qed.

(** ** Other pushes *)

Lemma send_each_Ok {A} (mk : A → WorkUnit) (m : gmap Z A) o :
  out_inv (tys := tys) (cc_BatchSize cfg) o → flushed o → (∀ w, is_Some (m !! w) → is_Some (Downstreams o !! w)) →
  ∃ o', foldM (send_each mk) o (go_range m) = Ok o' ∧ out_inv (tys := tys) (cc_BatchSize cfg) o' ∧ flushed o' ∧
    view o' = append_map (λ w, match m !! w with Some x => [IUnit (mk x)] | None => [] end) (view o).
Proof.
  clear Hcodec Hsize Hold Hpeers Hkey Hsizer. intros [Hdom Hpend Hpush] Hfl Hm.
  destruct (foldM_total (send_each mk) (λ seen o', CurBatches o' = CurBatches o ∧
      ∀ w, Downstreams o' !! w = (if decide (w ∈ seen.*1)
        then (λ d, d ++ match m !! w with Some x => [OUnit (mk x)] | None => [] end) <$> Downstreams o !! w else Downstreams o !! w))
    (go_range m) o) as (o' & Hrun & Hcur & Hds).
  - split; [done|]. intros w. by rewrite decide_False by apply not_elem_of_nil.
  - intros seen [w x] o1 [tl Hpre] (Hcur1 & Hds1).
    assert (m !! w = Some x) as Hx by (apply elem_of_go_range; rewrite Hpre; set_solver).
    assert (w ∉ seen.*1) as Hw.
    { pose proof (NoDup_go_range m) as Hnd. rewrite Hpre, !fmap_app in Hnd.
      apply NoDup_app in Hnd as [Hnd _]. apply NoDup_app in Hnd as (_ & Hnd & _). intros Hin. apply (Hnd w Hin). set_solver. }
    destruct (Hm w) as [d Hd]; [by rewrite Hx|]. unfold send_each, getDownstreamByWorkerID. simpl.
    rewrite Hds1, decide_False, Hd by done. eexists. split; [done|]. simpl. split; [done|]. intros w'.
    rewrite fmap_app. simpl. destruct (decide (w = w')) as [<-|Hne].
    + by rewrite lookup_insert_eq, decide_True, Hd, Hx by set_solver.
    + rewrite lookup_insert_ne, Hds1 by done. destruct (decide (w' ∈ seen.*1)); [by rewrite decide_True by set_solver|].
      by rewrite decide_False by set_solver.
  - assert (∀ w, Downstreams o' !! w = (λ d, d ++ match m !! w with Some x => [OUnit (mk x)] | None => [] end) <$> Downstreams o !! w) as Hds'.
    { intros w. rewrite Hds. case_decide as Hw; [done|]. rewrite go_range_keys in Hw.
      destruct (m !! w); [destruct Hw; eauto|]. destruct (Downstreams o !! w); simpl; [by rewrite app_nil_r|done]. }
    exists o'. split_and!; [done| | |].
    + split; rewrite ?Hcur; [|done|].
      * intros w. by rewrite Hds', fmap_is_Some.
      * intros w d. rewrite Hds'. intros (d0 & Hd0 & ->)%fmap_Some. apply Forall_app. split; [eauto|].
        destruct (m !! w); [by constructor|done].
    + intros w b. rewrite Hcur. apply Hfl.
    + apply map_eq. intros w. rewrite lookup_append_map, !lookup_view, Hds', Hcur. destruct (Downstreams o !! w) as [d|]; [|done]. simpl.
      assert (pending (CurBatches o !! w) = []) as ->.
      { destruct (CurBatches o !! w) as [b|] eqn:Eb; [|done]. simpl. by rewrite (Hfl w b Eb). }
      rewrite flat_app, !app_nil_r. do 2 f_equal. destruct (m !! w); [|done]. done.
Qed.

Lemma active_dom o : (∀ w, is_Some (view o !! w) ↔ w ∈ peers) → ∀ w, is_Some (Downstreams o !! w) ↔ w ∈ peers.
Proof. intros Hdom w. rewrite <-Hdom, lookup_view, fmap_is_Some. done. Qed.

Lemma view_append_dom f (m : gmap Z (list item)) w : is_Some (append_map f m !! w) ↔ is_Some (m !! w).
Proof. by rewrite lookup_append_map, fmap_is_Some. Qed.

Lemma peers_watermark p wm : active p →
  ∃ p', pc_BroadcastWatermark p wm = Ok p' ∧ active p' ∧ pc_closed p' = pc_closed p ∧
    peer_view p' = append_map (λ _, [IUnit (WatermarkUnit wm)]) (peer_view p).
Proof.
  intros (o & Hp & Hinv & Hdom). unfold pc_BroadcastWatermark, pc_outputs. rewrite Hp. simpl.
  destruct (flushAll_Ok (cc_BatchSize cfg) o Hinv) as (o1 & -> & Hinv1 & Hfl1 & Hv1). rewrite bind_Ok.
  destruct (broadcast_Ok (cc_BatchSize cfg) o1 (WatermarkUnit wm) Hinv1 Hfl1) as [Hinv2 Hv2].
  assert (view (broadcast o1 (WatermarkUnit wm)) = append_map (λ _, [IUnit (WatermarkUnit wm)]) (view o)) as Hv.
  { rewrite Hv2, Hv1. apply to_all_append. }
  eexists. split; [done|]. split_and!; [|done|].
  - exists (broadcast o1 (WatermarkUnit wm)). split_and!; [done|done|]. intros w. rewrite Hv, view_append_dom. apply Hdom.
  - unfold peer_view, pc_outputs. simpl. by rewrite Hp, Hv.
Qed.

(** At the end every channel is flushed and terminated. *)
Lemma peers_deactivate p : active p →
  ∃ p', pc_Deactivate p = Ok p' ∧ pc_out p' = None ∧
    (flat <$> pc_closed p') = append_map (λ _, [IUnit (TerminationSignal false)]) (peer_view p) ∧
    map_Forall (λ _ d, Forall (pushed_ok (tys := tys) (cc_BatchSize cfg)) d) (pc_closed p').
Proof.
  intros (o & Hp & Hinv & Hdom). unfold pc_Deactivate, peer_view, pc_outputs. rewrite Hp. simpl.
  destruct (flushAll_Ok (cc_BatchSize cfg) o Hinv) as (o1 & -> & Hinv1 & Hfl1 & Hv1). rewrite bind_Ok.
  destruct (broadcast_Ok (cc_BatchSize cfg) o1 (TerminationSignal false) Hinv1 Hfl1) as [Hinv2 Hv2].
  eexists. split; [done|]. split_and!; [done| |].
  - simpl. rewrite <-to_all_append, <-Hv1. unfold to_all. rewrite <-Hv2. symmetry. apply view_flushed. exact Hfl1.
  - intros w d Hd. by eapply (oi_pushed _ _ Hinv2).
Qed.

(** ** The main loop in transition *)

Context `{RawMus} {S : Type} (ops : OperatorOps S) (R : GoRange * GoRange) (byKey : bool).

(** What the operator is given of a unit, and what a peer is sent. *)
Definition op_event (s : S) (x : WorkUnit * string) : res S :=
  match x.1 with
  | BatchUnit rs => match mine rs with [] => Ok s | l => op_ProcessBatch ops s l x.2 end
  | WatermarkUnit wm => op_ProcessWatermark ops s wm
  | FastForwardMetadata bs => op_ProcessFastForwardMetadata ops s bs
  | _ => Ok s
  end.

Definition forwarded (w : Z) (x : WorkUnit * string) : list item :=
  match x.1 with
  | BatchUnit rs => sent_to w rs
  | WatermarkUnit ts => [IUnit (WatermarkUnit ts)]
  | _ => []
  end.

Definition input_ok (x : WorkUnit * string) : Prop :=
  match x.1 with
  | BatchUnit rs => Forall record_ok rs
  | WatermarkUnit _ | FastForwardMetadata _ | DrainBarrier => True
  | _ => False
  end.

(** The task is in transition with this table and these peers. *)
Record transit (st : Task S) : Prop := {
  tr_phase : LazyProtocolPhase st = true;
  tr_flag : inTransition st = true;
  tr_table : tk_RoutingTable st = Some table;
  tr_active : active (tk_peers st)
}.

Lemma loop_turn_Ok st x : transit st → input_ok x →
  match op_event (tk_op st) x with
  | Crash e => loop_turn ops R cfg WorkerId true byKey st x = Crash e
  | Ok s => ∃ st', loop_turn ops R cfg WorkerId true byKey st x = Ok st' ∧ transit st' ∧ tk_op st' = s ∧
      tk_started st' = tk_started st ∧
      peer_view (tk_peers st') = append_map (λ w, forwarded w x) (peer_view (tk_peers st))
  end.
Proof.
  intros [Hph Hfl Htab Hact] Hx. destruct st as [s p rt T lt ph it ns nd]. simpl in Hph, Hfl, Htab, Hact. subst ph it rt.
  destruct x as [u name]. unfold loop_turn, updateInTransitionFlag. simpl.
  unfold op_event, forwarded, input_ok in *. simpl in *. destruct u as [rs| |wm| | | |bs|]; try done; simpl.
  - destruct (fast_forward_Ok p rs Hact Hx) as (p' & -> & Hact' & _ & Hv). simpl.
    destruct (mine rs) as [|r l]; simpl; [eexists; split; [done|]; split; [by split|done]|].
    destruct (op_ProcessBatch ops s (r :: l) name) as [s'|e]; [|done]. eexists. split; [done|]. split; [by split|done].
  - eexists. split; [done|]. split; [by split|]. simpl. split_and!; try done. by rewrite append_map_nil.
  - destruct (peers_watermark p wm Hact) as (p' & -> & Hact' & _ & Hv). simpl.
    destruct (op_ProcessWatermark ops s wm) as [s'|e]; [|done]. eexists. split; [done|]. split; [by split|done].
  - destruct (op_ProcessFastForwardMetadata ops s bs) as [s'|e]; [|done]. eexists. split; [done|]. split; [by split|].
    simpl. split_and!; try done. by rewrite append_map_nil.
Qed.

Lemma loop_Ok xs : ∀ st, transit st → Forall input_ok xs →
  match foldM op_event (tk_op st) xs with
  | Crash e => foldM (loop_turn ops R cfg WorkerId true byKey) st xs = Crash e
  | Ok s => ∃ st', foldM (loop_turn ops R cfg WorkerId true byKey) st xs = Ok st' ∧ transit st' ∧ tk_op st' = s ∧
      tk_started st' = tk_started st ∧
      peer_view (tk_peers st') = append_map (λ w, xs ≫= forwarded w) (peer_view (tk_peers st))
  end.
Proof.
  induction xs as [|x xs IH]; intros st Hst Hxs; simpl.
  - exists st. split_and!; try done. by rewrite append_map_nil.
  - apply Forall_cons in Hxs as [Hx Hxs]. pose proof (loop_turn_Ok st x Hst Hx) as Hturn.
    destruct (op_event (tk_op st) x) as [s1|e]; simpl; [|by rewrite Hturn].
    destruct Hturn as (st1 & Hl & Hst1 & <- & Hs1 & Hv1). unfold loop_turn in Hl |- *. rewrite Hl. simpl.
    specialize (IH st1 Hst1 Hxs). unfold loop_turn in IH. destruct (foldM op_event (tk_op st1) xs) as [s2|e]; [|done].
    destruct IH as (st2 & Hl2 & Hst2 & Hop & Hs2 & Hv2). exists st2. split_and!; try done; [by rewrite Hs2|].
    by rewrite Hv2, Hv1, append_map_app.
Qed.

(** ** Entering the transition *)

Definition opt_items {A} (mk : A → WorkUnit) (x : option A) : list item := match x with Some a => [IUnit (mk a)] | None => [] end.

(** What a peer is sent first: key maps, metadata, the current watermark. *)
Definition first_items (kms : gmap Z bytes) (ff : option (gmap Z bytes)) (T : Z) (w : Z) : list item :=
  opt_items MigratingKeyMap (kms !! w) ++ opt_items FastForwardMetadata (ff ≫= (.!! w)) ++
  (if wm_Unset T then [] else [IUnit (WatermarkUnit T)]).

Definition idle (p : PeerCollector) : Prop :=
  ∃ o, pc_out p = Some o ∧ out_inv (tys := tys) (cc_BatchSize cfg) o ∧ flushed o ∧ ∀ w, is_Some (view o !! w) ↔ w ∈ peers.

Lemma idle_active p : idle p → active p.
Proof. intros (o & ? & ? & _ & ?). by exists o. Qed.

Lemma activate_idle p : idle (pc_Activate p peers) ∧ peer_view (pc_Activate p peers) = no_items peers.
Proof.
  destruct (new_outputs_inv (tys := tys) (cc_BatchSize cfg) peers) as [Hinv Hfl].
  split; [|apply view_new]. exists (new_outputs peers). split_and!; [done|done|done|]. intros w. rewrite view_new.
  change (list_to_map _) with (no_items peers). rewrite lookup_no_items. case_decide; split; try done; by intros [? [=]].
Qed.

Lemma send_idle {A} (mk : A → WorkUnit) (m : gmap Z A) p : idle p → (∀ w, is_Some (m !! w) → w ∈ peers) →
  ∃ o, foldM (send_each mk) (pc_outputs p) (go_range m) = Ok o ∧ idle (pc_with p o) ∧
    peer_view (pc_with p o) = append_map (λ w, opt_items mk (m !! w)) (peer_view p).
Proof.
  intros (o & Hp & Hinv & Hfl & Hdom) Hm. unfold peer_view, pc_outputs. rewrite Hp. simpl.
  destruct (send_each_Ok mk m o Hinv Hfl) as (o' & -> & Hinv' & Hfl' & Hv).
  { intros w Hw. apply active_dom; [done|]. by apply Hm. }
  exists o'. split; [done|]. split; [|done]. exists o'. split_and!; [done..|]. intros w. rewrite Hv, view_append_dom. apply Hdom.
Qed.

(** The key maps this worker has for its peers; its buckets in the lookup table
    are those it owned. *)
Definition key_maps_ok (lt lt' : KeyLookupTableV2) (kms : gmap Z bytes) : Prop :=
  if byKey then SerializeMigratingKeyMaps (raw_Marshal KUint16) R.1 R.2 lt WorkerId table = Ok (lt', kms) ∧
    ∀ i b, t2_Buckets lt !! i = Some b → WorkerID b = WorkerId → old !! i = Some WorkerId
  else kms = ∅ ∧ lt' = lt.

Lemma enter_Ok st p lt' kms s0 ff :
  LazyProtocolPhase st = true → inTransition st = false → tk_RoutingTable st = Some table → tk_peers st = pc_Activate p peers →
  key_maps_ok (StateLookupTableV2 st) lt' kms →
  op_ConstructFastForwardMetadata ops (tk_op st) (Some table) = Ok (s0, ff) →
  (∀ m w, ff = Some m → is_Some (m !! w) → w ∈ peers) →
  ∃ st', updateInTransitionFlag ops R WorkerId byKey st = Ok st' ∧ transit st' ∧ tk_op st' = s0 ∧
    tk_started st' = Datatypes.S (tk_started st) ∧ StateLookupTableV2 st' = lt' ∧
    peer_view (tk_peers st') = append_map (first_items kms ff (tk_TaskWatermark st))
      (no_items peers).
Proof.
  destruct st as [s p0 rt T lt ph it ns nd]. simpl. intros -> -> -> -> Hkm Hcons Hff. destruct (activate_idle p) as [Hidle Hv0].
  unfold updateInTransitionFlag. simpl.
  assert (∃ p1, (if byKey then ConstructAndSendKeyMaps R WorkerId (NotifyReconfigStart (MkTask s (pc_Activate p peers) (Some table) T lt true false ns nd))
      else Ok (NotifyReconfigStart (MkTask s (pc_Activate p peers) (Some table) T lt true false ns nd))) =
      Ok (MkTask s p1 (Some table) T lt' true false (Datatypes.S ns) nd) ∧ idle p1 ∧
      peer_view p1 = append_map (λ w, opt_items MigratingKeyMap (kms !! w)) (no_items peers))
    as (p1 & -> & Hidle1 & Hv1).
  { unfold key_maps_ok in Hkm. destruct byKey.
    - destruct Hkm as [Hser Hlt].
      assert (∀ w, is_Some (kms !! w) → w ∈ peers) as Hdom.
      { intros w Hw. edestruct serialize_dom as (i & b & Hb & Hbw & Hr & Hne); [exact Hser|exact Hw|]. apply Hpeers. exists i. split_and!; eauto. }
      unfold ConstructAndSendKeyMaps. simpl. rewrite Hser. simpl.
      destruct (send_idle MigratingKeyMap kms _ Hidle Hdom) as (o & Hs & Hi & Hv). unfold pc_SendKeyMaps. rewrite Hs. simpl.
      eexists. split; [done|]. split; [done|]. by rewrite Hv, Hv0.
    - destruct Hkm as [-> ->]. exists (pc_Activate p peers). split; [done|]. split; [done|]. rewrite Hv0. symmetry.
      erewrite append_map_ext; [apply append_map_nil|]. intros w _. by rewrite lookup_empty. }
  rewrite bind_Ok. cbn [tk_op tk_RoutingTable]. rewrite Hcons, bind_Ok.
  assert (∃ p2, SendFastForwardMetadata (tk_with_op (MkTask s p1 (Some table) T lt' true false (Datatypes.S ns) nd) s0) ff =
      Ok (MkTask s0 p2 (Some table) T lt' true false (Datatypes.S ns) nd) ∧ idle p2 ∧
      peer_view p2 = append_map (λ w, opt_items FastForwardMetadata (ff ≫= (.!! w))) (peer_view p1))
    as (p2 & -> & Hidle2 & Hv2).
  { destruct ff as [ff|]; simpl.
    - destruct (send_idle FastForwardMetadata ff p1 Hidle1) as (o & Hs & Hi & Hv); [intros w; by apply Hff|].
      unfold pc_SendFastForwardMetadata. rewrite Hs. simpl. by eexists.
    - eexists. split; [done|]. split; [done|]. by rewrite append_map_nil. }
  rewrite bind_Ok. unfold BroadcastWatermarkToPeers, first_items. cbn [tk_TaskWatermark tk_peers].
  destruct (wm_Unset T).
  - simpl. eexists. split; [done|]. split; [by split; [..|apply idle_active]|]. simpl. split_and!; try done.
    rewrite Hv2, Hv1, append_map_app. apply append_map_ext. intros w _. by rewrite app_nil_r.
  - destruct (peers_watermark p2 T (idle_active _ Hidle2)) as (p3 & -> & Hact3 & _ & Hv3). simpl.
    eexists. split; [done|]. split; [by split|]. simpl. split_and!; try done.
    rewrite Hv3, Hv2, Hv1, !append_map_app. apply append_map_ext. intros w _. by rewrite <-?app_assoc.
Qed.

(** The in-flight barrier ends the transition. *)
Lemma barrier_turn st name : transit st →
  ∃ st', loop_turn ops R cfg WorkerId true byKey st (InflightBarrier, name) = Ok st' ∧ tk_op st' = tk_op st ∧
    LazyProtocolPhase st' = false ∧ tk_RoutingTable st' = None ∧ pc_out (tk_peers st') = None ∧ tk_started st' = tk_started st ∧
    (flat <$> pc_closed (tk_peers st')) = append_map (λ _, [IUnit (TerminationSignal false)]) (peer_view (tk_peers st)) ∧
    map_Forall (λ _ d, Forall (pushed_ok (tys := tys) (cc_BatchSize cfg)) d) (pc_closed (tk_peers st')).
Proof.
  intros [Hph Hfl Htab Hact]. destruct st as [s p rt T lt ph it ns nd]. simpl in *. subst.
  unfold loop_turn, updateInTransitionFlag. simpl. unfold exitTransitionPhase. simpl.
  destruct (peers_deactivate p Hact) as (p' & -> & Hout & Hcl & Hpush). simpl. eexists. by split_and!.
Qed.

Lemma transition_run st p lt' kms s0 ff xs name :
  LazyProtocolPhase st = true → inTransition st = false → tk_RoutingTable st = Some table → tk_peers st = pc_Activate p peers →
  key_maps_ok (StateLookupTableV2 st) lt' kms →
  op_ConstructFastForwardMetadata ops (tk_op st) (Some table) = Ok (s0, ff) →
  (∀ m w, ff = Some m → is_Some (m !! w) → w ∈ peers) →
  Forall input_ok xs →
  match foldM op_event s0 xs with
  | Crash e => foldM (loop_turn ops R cfg WorkerId true byKey) st (xs ++ [(InflightBarrier, name)]) = Crash e
  | Ok s => ∃ st', foldM (loop_turn ops R cfg WorkerId true byKey) st (xs ++ [(InflightBarrier, name)]) = Ok st' ∧
      tk_op st' = s ∧ LazyProtocolPhase st' = false ∧ tk_RoutingTable st' = None ∧ pc_out (tk_peers st') = None ∧
      tk_started st' = Datatypes.S (tk_started st) ∧
      (∀ w, w ∉ peers → pc_closed (tk_peers st') !! w = None) ∧
      (∀ w, w ∈ peers → ∃ d, pc_closed (tk_peers st') !! w = Some d ∧ Forall (pushed_ok (tys := tys) (cc_BatchSize cfg)) d ∧
        flat d = first_items kms ff (tk_TaskWatermark st) w ++
          (xs ≫= forwarded w) ++ [IUnit (TerminationSignal false)])
  end.
Proof.
  intros Hph Hit Hrt Hp Hkm Hcons Hff Hxs.
  destruct (enter_Ok st p lt' kms s0 ff Hph Hit Hrt Hp Hkm Hcons Hff) as (st1 & Henter & Hst1 & Hop1 & Hs1 & _ & Hv1).
  assert (∀ x, loop_turn ops R cfg WorkerId true byKey st x = loop_turn ops R cfg WorkerId true byKey st1 x) as Hfirst.
  { intros x. unfold loop_turn. rewrite Henter. unfold updateInTransitionFlag at 1. destruct Hst1 as [-> Hfl _ _]. rewrite Hfl. simpl.
    f_equal. destruct st1. simpl in *. by subst. }
  assert (∀ l y, foldM (loop_turn ops R cfg WorkerId true byKey) st (l ++ [y]) = foldM (loop_turn ops R cfg WorkerId true byKey) st1 (l ++ [y]))
    as -> by (intros [|x l] y; cbn [app foldM]; by rewrite Hfirst).
  rewrite foldM_app. rewrite <-Hop1. pose proof (loop_Ok xs st1 Hst1 Hxs) as Hloop.
  destruct (foldM op_event (tk_op st1) xs) as [s|e]; [|by rewrite Hloop].
  destruct Hloop as (st2 & -> & Hst2 & Hop2 & Hs2 & Hv2). rewrite bind_Ok. cbn [foldM].
  destruct (barrier_turn st2 name Hst2) as (st3 & -> & Hop3 & Hph3 & Hrt3 & Hout3 & Hs3 & Hcl & Hpush). exists st3.
  split_and!; [done|by rewrite Hop3|done|done|done|by rewrite Hs3, Hs2| |].
  - intros w Hw. rewrite Hv2, Hv1, !append_map_app in Hcl. apply (f_equal (.!! w)) in Hcl.
    rewrite lookup_fmap, lookup_append_map, lookup_no_items, decide_False in Hcl by done. by apply fmap_None in Hcl.
  - intros w Hw. rewrite Hv2, Hv1, !append_map_app in Hcl. apply (f_equal (.!! w)) in Hcl.
    rewrite lookup_fmap, lookup_append_map, lookup_no_items, decide_True in Hcl by done. simpl in Hcl.
    apply fmap_Some in Hcl as (d & Hd & Hfd). exists d. split_and!; [done|by eapply Hpush|].
    rewrite <-Hfd. by rewrite <-?app_assoc.
Qed.
End Forward.

(** ** From the control plane's request *)

Lemma config_inv `{MusLaws} (tys : list Kind) (keyKind : Kind) batchSize isLazy hash numBuckets keyExtractor timestampExtractor cfg :
  NewCollectorConfig tys keyKind batchSize isLazy hash numBuckets keyExtractor timestampExtractor = Ok cfg →
  ∃ enc dec, codec_of tys enc dec (GetSize cfg) ∧ EncodeFuncFromKind keyKind = Ok (kb_keyEncoder cfg) ∧
    TupleSizeFuncFromKind keyKind = Ok (kb_keySizer cfg) ∧ cc_BatchSize cfg = batchSize ∧ cc_numBuckets cfg = numBuckets.
Proof.
  unfold NewCollectorConfig. intros (siz & Hsiz & Hrest)%bind_Ok_inv. apply bind_Ok_inv in Hrest as (e & He & Hrest).
  apply bind_Ok_inv in Hrest as (s & Hs & [= <-]). destruct (codec_from_sizer tys siz Hsiz) as (enc & dec & Hc).
  by exists enc, dec.
Qed.

Lemma start_inv {S} cfg (st st1 : Task S) peers ranges : HandleStartFastForward cfg true true st peers ranges = Ok st1 →
  ∃ table, tk_RoutingTable st1 = Some table ∧ H table = cc_hash cfg ∧ Z.of_nat (length (Buckets table)) = cc_numBuckets cfg ∧ LazyProtocolPhase st1 = true ∧ tk_peers st1 = pc_Activate (tk_peers st) peers ∧
    inTransition st1 = inTransition st ∧ tk_op st1 = tk_op st ∧ tk_TaskWatermark st1 = tk_TaskWatermark st ∧
    StateLookupTableV2 st1 = StateLookupTableV2 st ∧ tk_started st1 = tk_started st.
Proof.
  unfold HandleStartFastForward. simpl. intros ([] & _ & Hrest)%bind_Ok_inv. apply bind_Ok_inv in Hrest as (table & Ht & [= <-]). exists table.
  unfold DeserializePartitionTable in Ht. apply bind_Ok_inv in Ht as (bs & _ & Ht). apply bind_Ok_inv in Ht as (bs' & _ & Ht).
  apply bind_Ok_inv in Ht as ([] & Hlen%fatal_if_Ok & [= <-]). apply negb_false_iff, Z.eqb_eq in Hlen. done.
Qed.

(** C10: a lazy reconfiguration of a task, from the control plane's request to the
    in-flight barrier.  The request names as peers, as the coordinator does, the
    workers that get buckets of this worker, and the input has records that were
    routed here by the owners before or by the new table.  Whatever batches, watermarks, metadata and drain
    barriers come in between, in whatever order, the operator is given exactly
    the records whose keys stay here, with all watermarks; a peer is sent the
    key map and the metadata meant for it, then the current watermark, then
    exactly the records whose keys it owns now and all watermarks, and at last
    the termination; every record goes to one place, in the order in which it
    came.  Metadata is what the operator takes out of its state at the start, for
    peers only; the task fails only if its operator does on what it is given, and
    when it does not fail it has left the transition with its channels to the
    peers closed. *)
Theorem fast_forward_exact `{MusLaws, !RawMus, !GoRange} {S : Type} (ops : OperatorOps S) (R : GoRange * GoRange) (byKey : bool)
    (tys : list Kind) (keyKind : Kind) (batchSize : nat) (hash : HashFunc)
    (numBuckets : Z) (keyExtractor : Tuple → field) (timestampExtractor : Tuple → Z) (cfg : CollectorConfig)
    (WorkerId : Z) (st st1 : Task S) (peers : list Z) (ranges : list BucketRange) (table : PartitionTable) (old : list Z)
    (lt' : KeyLookupTableV2) (kms : gmap Z bytes) (s0 : S) (ff : option (gmap Z bytes)) (xs : list (WorkUnit * string)) (name : string) :
  NewCollectorConfig tys keyKind batchSize true hash numBuckets keyExtractor timestampExtractor = Ok cfg →
  is_u32 (Z.of_nat batchSize) →
  inTransition st = false → HandleStartFastForward cfg true true st peers ranges = Ok st1 → tk_RoutingTable st1 = Some table →
  Z.of_nat (length old) = numBuckets → (∀ d, bucket_moved old (Buckets table) WorkerId d → d ∈ peers) →
  key_maps_ok WorkerId table old R byKey (StateLookupTableV2 st) lt' kms →
  op_ConstructFastForwardMetadata ops (tk_op st) (Some table) = Ok (s0, ff) →
  (∀ m w, ff = Some m → is_Some (m !! w) → w ∈ peers) →
  Forall (input_ok (tys := tys) cfg keyKind WorkerId table old) xs →
  match foldM (op_event cfg WorkerId table ops) s0 xs with
  | Crash e => foldM (loop_turn ops R cfg WorkerId true byKey) st1 (xs ++ [(InflightBarrier, name)]) = Crash e
  | Ok s => ∃ st', foldM (loop_turn ops R cfg WorkerId true byKey) st1 (xs ++ [(InflightBarrier, name)]) = Ok st' ∧
      tk_op st' = s ∧ LazyProtocolPhase st' = false ∧ tk_RoutingTable st' = None ∧ pc_out (tk_peers st') = None ∧
      tk_started st' = Datatypes.S (tk_started st) ∧
      (∀ w, w ∉ peers → pc_closed (tk_peers st') !! w = None) ∧
      (∀ w, w ∈ peers → ∃ d, pc_closed (tk_peers st') !! w = Some d ∧ Forall (pushed_ok (tys := tys) batchSize) d ∧
        flat d = first_items kms ff (tk_TaskWatermark st) w ++
          (xs ≫= forwarded cfg WorkerId table w) ++ [IUnit (TerminationSignal false)])
  end.
Proof.
  intros Hcfg Hsize Hit Hstart Hrt Hold Hpeers Hkm Hcons Hff Hxs.
  destruct (config_inv _ _ _ _ _ _ _ _ _ Hcfg) as (enc & dec & Hcodec & Hkey & Hsizer & <- & <-).
  destruct (start_inv _ _ _ _ _ Hstart) as (table' & Hrt' & _ & Hlen & Hph & Hp & Hit' & Hop & HT & Hlt & Hs). rewrite Hit in Hit'.
  rewrite <-Hop, <-HT, <-Hs, <-Hlt in *.
  assert (table' = table) as -> by congruence. apply (transition_run cfg Hcodec keyKind Hkey Hsizer Hsize WorkerId table peers old ltac:(lia) Hpeers ops R byKey st1 (tk_peers st) lt'); done.
Qed.

(** An operator that keeps what it is given, on the first of two workers, 1 and
    3, that are joined by worker 2: of six buckets each of them hands one to it. *)
Definition demo_six : CollectorConfig :=
  MkCollectorConfig 100 true demo_hash 6 (GetSize demo_cfg) (GetKey demo_cfg) (kb_keyEncoder demo_cfg) (kb_keySizer demo_cfg) timestamp.
Definition demo_old : list Z := [1; 1; 1; 3; 3; 3]%Z.
Definition demo_new : PartitionTable := MkTable demo_hash [1; 1; 2; 3; 3; 2]%Z.
Definition demo_op : OperatorOps (list WorkUnit) :=
  MkOperatorOps _ (λ s rs _, Ok (s ++ [BatchUnit rs])) (λ s wm, Ok (s ++ [WatermarkUnit wm]))
    (λ s bs, Ok (s ++ [FastForwardMetadata bs])) (λ s _, Ok (s, None)).
Definition demo_task : Task (list WorkUnit) :=
  MkTask [] NewPeerCollector None 3 (MkTableV2 demo_hash []) false false 0 0.
Definition demo_rec (z ts : Z) : Tuple := MkTuple [FNum KInt64 z; FString []; FBool true] ts.
Definition demo_ranges : list BucketRange := [MkRange 1 0 1; MkRange 2 2 2; MkRange 3 3 4; MkRange 2 5 5].
Definition demo_units : list (WorkUnit * string) :=
  [(BatchUnit [demo_rec 0 5; demo_rec 2 6], "src"); (WatermarkUnit 6, "src"); (BatchUnit [demo_rec 2 7], "src")].
Definition demo_started : Task (list WorkUnit) :=
  match HandleStartFastForward demo_six true true demo_task [2%Z] demo_ranges with Ok st => st | Crash _ => demo_task end.

Lemma demo_rec_ok z ts : (z = 0 ∨ z = 2)%Z → (0 ≤ ts < 100)%Z → record_ok (tys := demo_type) demo_six KInt64 1 demo_new demo_old (demo_rec z ts).
Proof.
  intros Hz Hts. split; [|split; [by destruct Hz as [->| ->]|split; [unfold demo_six; simpl; lia|]]].
  - split; [|unfold is_i64; simpl; lia]. by destruct Hz as [->| ->]; repeat (apply Forall2_cons; split; [done|]).
  - left. by destruct Hz as [->| ->].
Qed.

Lemma demo_task_units_ok : Forall (input_ok (tys := demo_type) demo_six KInt64 1 demo_new demo_old) demo_units.
Proof.
  unfold demo_units, input_ok. simpl.
  repeat (apply Forall_cons; split; [simpl; first [exact I | repeat (apply Forall_cons; split; [apply demo_rec_ok; lia|]); by apply Forall_nil]|]).
  by apply Forall_nil.
Qed.

Lemma demo_peers d : bucket_moved demo_old (Buckets demo_new) 1 d → d ∈ [2%Z].
Proof. intros (i & Ho & Hn & Hne). do 6 (destruct i as [|i]; [simpl in Ho, Hn; simplify_eq; set_solver|]). done. Qed.

Lemma fast_forward_exact_witness :
  ∃ st' d, foldM (loop_turn demo_op (go_range_elements, go_range_elements) demo_six 1 true false) demo_started
      (demo_units ++ [(InflightBarrier, "src"%string)]) = Ok st' ∧
    tk_op st' = [BatchUnit [demo_rec 0 5]; WatermarkUnit 6] ∧ pc_closed (tk_peers st') !! 2%Z = Some d ∧
    flat d = [IUnit (WatermarkUnit 3); IRec (demo_rec 2 6); IUnit (WatermarkUnit 6); IRec (demo_rec 2 7);
              IUnit (TerminationSignal false)].
Proof.
  pose proof (fast_forward_exact demo_op (go_range_elements, go_range_elements) false demo_type KInt64 100 demo_hash 6 demo_key timestamp
    demo_six 1 demo_task demo_started [2%Z] demo_ranges demo_new demo_old (MkTableV2 demo_hash []) ∅ [] None demo_units "src") as Hrun.
  assert (foldM (op_event demo_six 1 demo_new demo_op) [] demo_units =
    Ok [BatchUnit [demo_rec 0 5]; WatermarkUnit 6]) as Hop by (vm_compute; reflexivity).
  rewrite Hop in Hrun. destruct Hrun as (st' & Hst & Hs & _ & _ & _ & _ & _ & Hd).
  - reflexivity.
  - split; simpl; lia.
  - reflexivity.
  - vm_compute. reflexivity.
  - vm_compute. reflexivity.
  - reflexivity.
  - exact demo_peers.
  - split; reflexivity.
  - reflexivity.
  - intros m w Hm. discriminate Hm.
  - exact demo_task_units_ok.
  - destruct (Hd 2%Z) as (d & Hcl & _ & Hfl); [apply list_elem_of_here|]. exists st', d. split_and!; [exact Hst|exact Hs|exact Hcl|].
    rewrite Hfl. vm_compute. reflexivity.
Defined.
