(* ===== verification/TaskTime.v ===== *)
(** * Peer channels and time

    A task in transition forwards records and watermarks in the order in which
    its supplier hands them out.  When its own channels are on time, so are the
    channels to its peers. *)

From stdpp Require Import prelude gmap strings list.
From Stdlib Require Import ZArith Lia.
From S2P Require Import Prelude Partition PartitionTable Codec WorkUnit WindowRun KeyMap Window Network Supplier SupplierTime.
From S2P Require Import Collector CollectorSpec CollectorTime Task TaskForward.

(** ** The watermarks a supplier hands out increase *)

Fixpoint wms_increase (wm : Z) (l : list WorkUnit) : Prop :=
  match l with
  | [] => True
  | WatermarkUnit ts :: l => (wm < ts)%Z ∧ wms_increase ts l
  | _ :: l => wms_increase wm l
  end.

(** The last watermark among units. *)
Definition last_wm (wm : Z) (l : list WorkUnit) : Z := foldl (λ wm u, match u with WatermarkUnit ts => ts | _ => wm end) wm l.

Lemma wms_increase_app wm l l' : wms_increase wm (l ++ l') ↔ wms_increase wm l ∧ wms_increase (last_wm wm l) l'.
Proof. revert wm. induction l as [|[] l IH]; intros wm; simpl; rewrite ?IH; unfold last_wm; simpl; tauto. Qed.

Lemma last_wm_app wm l l' : last_wm wm (l ++ l') = last_wm (last_wm wm l) l'.
Proof. unfold last_wm. apply foldl_app. Qed.

Section Increase.
Context `{GoRange}.

Lemma progress_increases s s' wm : checkTaskWatermarkProgress s = Ok (s', wm) →
  wms_increase (TaskWatermark s) (from_option (λ m, [WatermarkUnit m]) [] wm) ∧
  TaskWatermark s' = last_wm (TaskWatermark s) (from_option (λ m, [WatermarkUnit m]) [] wm).
Proof.
  unfold checkTaskWatermarkProgress. destruct (min_sub_wm MaxInt64 _) as [m|]; [|by intros [= <- <-]].
  unfold wm_LargerThan. destruct (Z.ltb_spec (TaskWatermark s) m); [|by intros [= <- <-]].
  intros (t & Hu & [= <- <-])%bind_Ok_inv. unfold wm_Update in Hu. apply bind_Ok_inv in Hu as (? & _ & [= <-]). done.
Qed.

Lemma get_turn_increases s s' out : get_turn s = Ok (s', out) →
  let units := match out with Some (w, _) => [w] | None => [] end in
  wms_increase (TaskWatermark s) units ∧ TaskWatermark s' = last_wm (TaskWatermark s) units.
Proof.
  unfold get_turn, incrementNextSubSupplierIdx.
  intros ([s0 name] & (name' & _ & [= <- <-])%bind_Ok_inv & Hrun)%bind_Ok_inv.
  apply bind_Ok_inv in Hrun as (ss & _ & Hrun). apply bind_Ok_inv in Hrun as ([ss' next] & _ & Hrun).
  destruct next as [w|]; [|by injection Hrun as <- <-]. apply bind_Ok_inv in Hrun as ([s2 ret] & Hpre & [= <- <-]).
  unfold preprocessWorkUnit in Hpre. destruct w as [rs| |ts| | |isPeer|md|km]; simpl in Hpre; try done.
  - by injection Hpre as <- <-.
  - apply bind_Ok_inv in Hpre as ([s3 al] & Hd & [= <- <-]). unfold handleDrainBarrier in Hd.
    destruct (_ =? _)%Z; [injection Hd as <- <-|apply bind_Ok_inv in Hd as (? & _ & [= <- <-])]; done.
  - apply bind_Ok_inv in Hpre as ([s3 wm] & Hw & [= <- <-]). unfold handleWatermark in Hw.
    apply bind_Ok_inv in Hw as (ss1 & _ & Hw). apply bind_Ok_inv in Hw as (ss2 & _ & Hw).
    destruct (negb _); [by injection Hw as <- <-|]. apply progress_increases in Hw. by destruct wm.
  - apply bind_Ok_inv in Hpre as ([s3 al] & Hd & [= <- <-]). unfold handleInflightBarrier in Hd.
    apply bind_Ok_inv in Hd as (? & _ & Hd). destruct (_ =? _)%Z; injection Hd as <- <-; done.
  - apply bind_Ok_inv in Hpre as ([s3 wm] & Hw & [= <- <-]). unfold handleTermination in Hw.
    apply bind_Ok_inv in Hw as (? & _ & Hw). apply bind_Ok_inv in Hw as (ss1 & _ & Hw). apply bind_Ok_inv in Hw as (ss2 & _ & Hw).
    destruct isPeer; [|by injection Hw as <- <-]. apply bind_Ok_inv in Hw as (s4 & Hp & Hw).
    unfold peer_closed in Hp. apply bind_Ok_inv in Hp as (? & _ & [= <-]). apply progress_increases in Hw. by destruct wm.
  - by injection Hpre as <- <-.
Qed.

Lemma sp_run_increases s events s' outs : sp_run s events = Ok (s', outs) →
  wms_increase (TaskWatermark s) outs ∧ TaskWatermark s' = last_wm (TaskWatermark s) outs.
Proof.
  intros Hrun. apply (foldM_inv _ (λ _ st, wms_increase (TaskWatermark s) st.2 ∧ TaskWatermark st.1 = last_wm (TaskWatermark s) st.2)) in Hrun;
    [done|done|].
  intros pre e [s1 o1] [s2 o2] _ (Hw & HT) ([s3 out] & Hstep & [= <- <-])%bind_Ok_inv. cbn [fst snd] in *.
  rewrite wms_increase_app, last_wm_app, <-HT. destruct e as [name i|]; simpl in Hstep.
  - injection Hstep as <- <-. unfold sp_arrive. by destruct (SubSuppliers s1 !! name).
  - apply bind_Ok_inv in Hstep as ([s4 o] & Hturn & [= <- <-]). by destruct (get_turn_increases s1 s4 o Hturn).
Qed.
End Increase.

(** ** What is forwarded is tracked *)

Lemma track_recs wm rs : Forall (λ r, wm ≤ timestamp r)%Z rs → foldl track (Some wm) (IRec <$> rs) = Some wm.
Proof. induction 1 as [|r rs Hr _ IH]; [done|]. simpl. by rewrite bool_decide_true. Qed.

Section Forwarded.
Context `{Mus} {tys : list Kind} (cfg : CollectorConfig) (keyKind : Kind) (WorkerId : Z) (table : PartitionTable) (old : list Z) (w : Z).

Lemma track_sent wm rs : Forall (λ r, wm ≤ timestamp r)%Z rs → foldl track (Some wm) (sent_to cfg WorkerId table w rs) = Some wm.
Proof.
  intros Hrs. unfold sent_to, theirs. case_decide; [done|]. apply track_recs. apply Forall_forall. intros r [_ Hr]%list_elem_of_filter.
  by apply (proj1 (Forall_forall _ _) Hrs).
Qed.

Lemma track_forwarded xs : ∀ wm,
  on_time wm (time_events xs.*1) → wms_increase wm xs.*1 → Forall (input_ok (tys := tys) cfg keyKind WorkerId table old) xs →
  ∃ y, foldl track (Some wm) (xs ≫= forwarded cfg WorkerId table w) = Some y.
Proof.
  induction xs as [|[u name] xs IH]; intros wm Hon Hinc Hxs; [by exists wm|]. apply Forall_cons in Hxs as [Hx Hxs].
  change (((u, name) :: xs) ≫= forwarded cfg WorkerId table w) with
    (forwarded cfg WorkerId table w (u, name) ++ (xs ≫= forwarded cfg WorkerId table w)). rewrite foldl_app.
  unfold input_ok in Hx. simpl in Hx, Hon, Hinc. unfold forwarded at 1. simpl. destruct u as [rs| |ts| | | |bs|]; simpl in Hx; try done.
  - destruct Hon as [Hrs Hon]. rewrite track_sent by done. by apply IH.
  - by apply IH.
  - destruct Hon as [_ Hon], Hinc as [Hlt Hinc]. simpl. rewrite bool_decide_true by done. by apply IH.
  - by apply IH.
Qed.

Lemma track_first kms ff T : (-1 ≤ T)%Z → ∃ l, first_items kms ff T w = opt_items MigratingKeyMap (kms !! w) ++ l ∧
  foldl track (Some (-1)%Z) l = Some T.
Proof.
  intros HT. eexists. split; [done|]. unfold wm_Unset. rewrite foldl_app.
  assert (foldl track (Some (-1)%Z) (opt_items FastForwardMetadata (ff ≫= (.!! w))) = Some (-1)%Z) as -> by by destruct (ff ≫= _).
  destruct (Z.eqb_spec T (-1)) as [->|Hne]; [done|]. simpl. by rewrite bool_decide_true by lia.
Qed.
End Forwarded.

Definition km_units (km : option bytes) : list out_unit := match km with Some km => [OUnit (MigratingKeyMap km)] | None => [] end.

Lemma flat_key_map `{Mus} {tys : list Kind} BatchSize km d l : Forall (pushed_ok (tys := tys) BatchSize) d →
  flat d = opt_items MigratingKeyMap km ++ l → ∃ d', d = km_units km ++ d' ∧ flat d' = l ∧ Forall (pushed_ok (tys := tys) BatchSize) d'.
Proof.
  destruct km as [km|]; simpl; [|by exists d]. destruct d as [|[b|u] d]; [done| |].
  - intros [[_ Hne] _]%Forall_cons. simpl. by destruct (Records b).
  - intros [_ Hd]%Forall_cons. simpl. intros [= -> <-]. by exists d.
Qed.

(** C14: peer channels are on time.  A task is told to start fast forwarding
    with the workers that get buckets of it as peers, and its records were routed
    to it by the owners before or by the new table.  While its supplier, whose channels are on
    time, hands out units in whatever interleaving, a task in transition sends
    to every peer, after the key map that opens the channel, a stream on which
    watermarks increase and no record is behind one, ending with the
    termination: the condition under which the peer is given no late record
    and is not ended by a watermark. *)
Theorem peers_on_time `{MusLaws, !RawMus, !GoRange} {S : Type} (ops : OperatorOps S) (R : GoRange * GoRange) (byKey : bool)
    (tys : list Kind) (keyKind : Kind) (batchSize : nat) (hash : HashFunc)
    (numBuckets : Z) (keyExtractor : Tuple → field) (timestampExtractor : Tuple → Z) (cfg : CollectorConfig)
    (WorkerId : Z) (st st1 st' : Task S) (peers : list Z) (ranges : list BucketRange) (table : PartitionTable) (old : list Z)
    (lt' : KeyLookupTableV2) (kms : gmap Z bytes) (s0 : S) (ff : option (gmap Z bytes)) (s s' : Supplier) (events : list sp_event)
    (xs : list (WorkUnit * string)) (name : string) :
  NewCollectorConfig tys keyKind batchSize true hash numBuckets keyExtractor timestampExtractor = Ok cfg →
  is_u32 (Z.of_nat batchSize) →
  inTransition st = false → HandleStartFastForward cfg true true st peers ranges = Ok st1 → tk_RoutingTable st1 = Some table →
  Z.of_nat (length old) = numBuckets → (∀ d, bucket_moved old (Buckets table) WorkerId d → d ∈ peers) →
  key_maps_ok WorkerId table old R byKey (StateLookupTableV2 st) lt' kms →
  op_ConstructFastForwardMetadata ops (tk_op st) (Some table) = Ok (s0, ff) →
  (∀ m w, ff = Some m → is_Some (m !! w) → w ∈ peers) →
  sup_ok s → pointers_ok s → (-1 ≤ TaskWatermark s)%Z → tk_TaskWatermark st = TaskWatermark s →
  sp_run s events = Ok (s', xs.*1) → Forall (input_ok (tys := tys) cfg keyKind WorkerId table old) xs →
  foldM (loop_turn ops R cfg WorkerId true byKey) st1 (xs ++ [(InflightBarrier, name)]) = Ok st' →
  ∀ w, w ∈ peers → ∃ d, pc_closed (tk_peers st') !! w = Some (km_units (kms !! w) ++ d) ∧
    last d = Some (OUnit (TerminationSignal false)) ∧ chan_ok (-1) (-1) (delivered <$> d).
Proof.
  intros Hcfg Hsize Hit Hstart Hrt Hold Hpeers Hkm Hcons Hff Hok Hptr HT HTs Hsp Hxs Hrun w Hw.
  destruct (config_inv _ _ _ _ _ _ _ _ _ Hcfg) as (enc & dec & Hcodec & Hkey & Hsizer & <- & <-).
  destruct (start_inv _ _ _ _ _ Hstart) as (table' & Hrt' & _ & Hlen & Hph & Hp & Hit' & Hop & HT' & Hlt & _). rewrite Hit in Hit'.
  rewrite HTs in HT'. rewrite <-Hop in Hcons. rewrite <-Hlt in Hkm.
  assert (table' = table) as -> by congruence.
  pose proof (transition_run cfg Hcodec keyKind Hkey Hsizer Hsize WorkerId table peers old ltac:(lia) Hpeers ops R byKey st1 (tk_peers st) lt'
    kms s0 ff xs name Hph Hit' Hrt Hp Hkm Hcons Hff Hxs) as Htr.
  destruct (foldM (op_event cfg WorkerId table ops) s0 xs) as [o|e]; [|by rewrite Hrun in Htr].
  destruct Htr as (st2 & Hrun2 & _ & _ & _ & _ & _ & _ & Hcl). rewrite Hrun in Hrun2. injection Hrun2 as <-.
  destruct (Hcl w Hw) as (d & Hd & Hpush & Hflat). rewrite HT' in Hflat.
  destruct (track_first w kms ff (TaskWatermark s) HT) as (l & Hl & Htl).
  rewrite Hl, <-app_assoc in Hflat. destruct (flat_key_map _ _ _ _ Hpush Hflat) as (d1 & -> & Hfl1 & Hpush1).
  rewrite app_assoc in Hfl1. destruct (flat_terminated _ d1 _ Hpush1 Hfl1) as (d2 & -> & Hfl2).
  destruct (sp_run_ok s events s' _ Hok Hptr Hsp) as (_ & _ & Hon & _). destruct (sp_run_increases s events s' _ Hsp) as [Hinc _].
  destruct (track_forwarded cfg keyKind WorkerId table old w xs (TaskWatermark s) Hon Hinc Hxs) as (y & Hy).
  exists (d2 ++ [OUnit (TerminationSignal false)]). split; [exact Hd|]. split; [by rewrite last_snoc|].
  rewrite fmap_app. apply (chan_ok_tracked d2 (-1) y); [lia| |by right]. by rewrite Hfl2, foldl_app, Htl.
Qed.

(** One upstream, whose watermark is the task's. *)
Definition demo_input : Supplier :=
  MkSupplier true
    {[ "src"%string := MkSub "src" [NewUpstream 0 [WatermarkUnit 6; BatchUnit [demo_rec 2 7]] [BatchUnit [demo_rec 0 5; demo_rec 2 6]] 3]
         false false (-1) ]}
    1 3 1 true 0 NewReconfig (-1) ["src"%string].
Definition demo_input_events : list sp_event := [Arrives "src" 0; Turn; Turn; Arrives "src" 0; Turn].

Lemma demo_input_ok : sup_ok demo_input ∧ pointers_ok demo_input.
Proof.
  split; intros name ss; unfold demo_input; cbn [SubSuppliers]; rewrite lookup_singleton_Some; intros [_ <-]; simpl; [|lia].
  unfold sub_ok. cbn [Upstreams]. apply Forall_singleton. vm_compute. repeat split; repeat constructor; discriminate.
Qed.

Lemma peers_on_time_witness :
  ∃ s' st' d, sp_run demo_input demo_input_events = Ok (s', demo_units.*1) ∧
    foldM (loop_turn demo_op (go_range_elements, go_range_elements) demo_six 1 true false) demo_started
      (demo_units ++ [(InflightBarrier, "src"%string)]) = Ok st' ∧
    pc_closed (tk_peers st') !! 2%Z = Some d ∧ chan_ok (-1) (-1) (delivered <$> d).
Proof.
  assert (Hsp : ∃ s', sp_run demo_input demo_input_events = Ok (s', demo_units.*1)) by (eexists; vm_compute; reflexivity).
  destruct Hsp as [s' Hsp]. destruct demo_input_ok as [Hok Hp].
  assert (Hrun : ∃ st', foldM (loop_turn demo_op (go_range_elements, go_range_elements) demo_six 1 true false) demo_started
      (demo_units ++ [(InflightBarrier, "src"%string)]) = Ok st') by (eexists; vm_compute; reflexivity).
  destruct Hrun as [st' Hrun].
  destruct (peers_on_time demo_op (go_range_elements, go_range_elements) false demo_type KInt64 100 demo_hash 6 demo_key timestamp
    demo_six 1 demo_task demo_started st' [2%Z] demo_ranges demo_new demo_old (MkTableV2 demo_hash []) ∅ [] None
    demo_input s' demo_input_events demo_units "src") with (w := 2%Z) as (d & Hd & _ & Hc).
  - reflexivity.
  - split; simpl; lia.
  - reflexivity.
  - vm_compute. reflexivity.
  - vm_compute. reflexivity.
  - reflexivity.
  - exact demo_peers.
  - split; reflexivity.
  - reflexivity.
  - intros m w Hm. discriminate Hm.
  - exact Hok.
  - exact Hp.
  - discriminate.
  - reflexivity.
  - exact Hsp.
  - exact demo_task_units_ok.
  - exact Hrun.
  - apply list_elem_of_here.
  - exists s', st', d. split_and!; [exact Hsp|exact Hrun|exact Hd|exact Hc].
Defined.
