(* ===== verification/WindowMigration.v ===== *)
(** * Moving window indices between workers

    When keys change their owner, the active windows of these keys move with
    them: as bytes that the new owner asks for (stop-and-restart), or as the
    metadata that opens the channel to a peer (lazy protocol).  The functions
    are those of [api/dataflow/tumblingWindow.go] and [slidingWindow.go]; the
    bytes are JSON, written by [encoding/json]. *)

From stdpp Require Import prelude gmap strings list.
From Stdlib Require Import ZArith Lia.
From S2P Require Import Prelude Partition PartitionTable Codec WorkUnit StateType StateCache Backend StateService StateClient StateBatch.
From S2P Require Import Window WindowIndex WindowStore SlidingWindow Network Collector CollectorSpec Task.

(** ** JSON *)

(** The kinds that [encoding/json] accepts as keys of a map: strings and
    integers. *)
Definition json_key_kind (kind : Kind) : bool :=
  match kind with KBool | KFloat32 | KFloat64 | KOther _ => false | _ => true end.

Definition between (lo hi b : Z) : bool := ((lo <=? b) && (b <=? hi))%Z.

(** A string in valid UTF-8. *)
Fixpoint valid_utf8 (l : bytes) : bool :=
  match l with
  | [] => true
  | b0 :: l0 =>
      if between 0 127 b0 then valid_utf8 l0
      else match l0 with
      | [] => false
      | b1 :: l1 =>
          if between 194 223 b0 && between 128 191 b1 then valid_utf8 l1
          else match l1 with
          | [] => false
          | b2 :: l2 =>
              if between 224 239 b0 && between (if (b0 =? 224)%Z then 160 else 128) (if (b0 =? 237)%Z then 159 else 191) b1 &&
                 between 128 191 b2 then valid_utf8 l2
              else match l2 with
              | [] => false
              | b3 :: l3 =>
                  between 240 244 b0 && between (if (b0 =? 240)%Z then 144 else 128) (if (b0 =? 244)%Z then 143 else 191) b1 &&
                  between 128 191 b2 && between 128 191 b3 && valid_utf8 l3
              end
          end
      end
  end.

Definition json_key (key : field) : bool := match key with FString s => valid_utf8 s | _ => true end.

(** [json.Marshal] and [json.Unmarshal] at a map from start times to maps from
    keys of a kind to [B]. *)
Class GoJson (B : Type) := {
  json_Marshal : Kind → gmap Z (gmap field B) → option bytes;
  json_Unmarshal : Kind → bytes → option (gmap Z (gmap field B))
}.

(** Documented behaviour: a map with keys of another kind is an error; a map
    whose keys are integers or strings in UTF-8 is read back (other strings are
    changed), white space after it is ignored; the text of a value is never
    empty. *)
Class GoJsonLaws (B : Type) `{GoJson B} := {
  json_nonempty : ∀ kind m bs, json_Marshal kind m = Some bs → bs ≠ [];
  json_unsupported : ∀ kind m, json_key_kind kind = false → m ≠ ∅ → json_Marshal kind m = None;
  json_roundtrip : ∀ kind m, json_key_kind kind = true →
    (∀ ts ws key, m !! ts = Some ws → is_Some (ws !! key) → is_i64 ts ∧ has_kind kind key = true ∧ json_key key = true) →
    ∃ bs, json_Marshal kind m = Some bs ∧ json_Unmarshal kind bs = Some m ∧ json_Unmarshal kind (bs ++ [10%Z]) = Some m
}.

(** ** Taking windows out of an index

    [A] is what an index keeps of a window, [B] what is sent of it. *)

Section Scan.
Context `{GoRange} {A B : Type}.
(** A number for a key, asked for once per key; where windows of that number
    go; adding a window to what is sent. *)
Context (classify : field → res Z) (target : Z → option Z) (put : option B → A → option B).

Definition examine (keysExamined : gmap field Z) (key : field) : res (gmap field Z * Z) :=
  match keysExamined !! key with
  | Some n => Ok (keysExamined, n)
  | None => n ← classify key; Ok (<[key := n]> keysExamined, n)
  end.

Definition transfer (m : gmap Z (gmap Z (gmap field B))) (dest ts : Z) (key : field) (window : A) : gmap Z (gmap Z (gmap field B)) :=
  let perWorker := default ∅ (m !! dest) in
  let perStartTime := default ∅ (perWorker !! ts) in
  let perStartTime := match put (perStartTime !! key) window with
                      | Some b => <[key := b]> perStartTime
                      | None => perStartTime
                      end in
  <[dest := <[ts := perStartTime]> perWorker]> m.

(** [keysExamined], [indexToBeTransferred] and the index. *)
Abbreviation scan_state := (gmap field Z * gmap Z (gmap Z (gmap field B)) * gmap Z (gmap field A))%type (only parsing).

Definition scan_window (ts : Z) (st : scan_state) (x : field * A) : res scan_state :=
  '(keysExamined, n) ← examine st.1.1 x.1;
  Ok match target n with
     | None => (keysExamined, st.1.2, st.2)
     | Some dest => (keysExamined, transfer st.1.2 dest ts x.1 x.2, index_Remove st.2 x.1 ts)
     end.

Definition scan_index (index : gmap Z (gmap field A)) : res (gmap Z (gmap Z (gmap field B)) * gmap Z (gmap field A)) :=
  '(_, indexToBeTransferred, index') ←
    foldM (λ st x, foldM (scan_window x.1) st (go_range x.2)) (∅, ∅, index) (go_range index);
  Ok (indexToBeTransferred, index').

(** Adding received windows. *)
Context {I : Type} (add : I → field → Z → B → I).

Definition insert_windows (index : I) (received : gmap Z (gmap field B)) : I :=
  foldl (λ index x, foldl (λ index y, add index y.1 x.1 y.2) index (go_range x.2)) index (go_range received).
End Scan.

Section Metadata.
Context `{RawMus} {B : Type} `{GoJson B}.

Definition json_or_fatal (kind : Kind) (m : gmap Z (gmap field B)) (msg : string) : res bytes :=
  match json_Marshal kind m with Some bs => Ok bs | None => Crash (Fatal msg) end.

(** The type of the unit and the length of the metadata come first; the encoder
    ends its output with a newline. *)
Definition SerializeToFastForwardMetadata (kind : Kind) (data : gmap Z (gmap field B)) : res bytes :=
  bs ← json_or_fatal kind data "Failed to encode FastForwardMetadata";
  let bs := bs ++ [10%Z] in
  Ok (raw_Marshal KUint16 (GetType (FastForwardMetadata [])) ++ raw_Marshal KUint32 (u32 (Z.of_nat (length bs))) ++ bs).

Definition serialize_all `{GoRange} (kind : Kind) (indexToBeTransferred : gmap Z (gmap Z (gmap field B))) : res (gmap Z bytes) :=
  foldM (λ (result : gmap Z bytes) '(destWorkerId, indices),
    bs ← SerializeToFastForwardMetadata kind indices; Ok (<[destWorkerId := bs]> result)) ∅ (go_range indexToBeTransferred).

Definition received_index (kind : Kind) (metadata : bytes) (msg : string) : res (gmap Z (gmap field B)) :=
  match json_Unmarshal kind metadata with Some m => Ok m | None => Crash (Fatal msg) end.
End Metadata.

(** Where windows go: under stop-and-restart those of the affected buckets are
    sent, as one map (here the one for number 0); under the lazy protocol those
    of keys that another worker owns now. *)
Definition affected (affectedBuckets : gset Z) (bucketId : Z) : option Z := if decide (bucketId ∈ affectedBuckets) then Some 0%Z else None.
Definition elsewhere (WorkerId : Z) (destWorker : Z) : option Z := if (destWorker =? WorkerId)%Z then None else Some destWorker.

(** ** Tumbling windows *)

Definition put_key (_ : option bool) (_ : unit) : option bool := Some true.

Section Tumbling.
Context `{Mus, RawMus, !GoRange, GoJson bool} {S : Type}.
Context (cfg : CollectorConfig) (WorkerId : Z).
Implicit Types tw : TumblingWindow S.

Definition tw_kind tw : Kind := keyKind (wb_StateClient (tw_Base tw)).
Definition tw_with_index tw (index : gmap Z (gmap field unit)) : TumblingWindow S := MkTumbling (tw_Base tw) (tw_Duration tw) index.

Definition tw_FetchMetadataForMigration tw (affectedBuckets : gset Z) : res (TumblingWindow S * bytes) :=
  '(indexToBeTransferred, index) ←
    scan_index (GetBucketIdx (wb_StateClient (tw_Base tw))) (affected affectedBuckets) put_key (tw_Index tw);
  bs ← json_or_fatal (tw_kind tw) (default ∅ (indexToBeTransferred !! 0%Z)) "Failed to serialize window index for migration";
  Ok (tw_with_index tw index, bs).

Definition tw_insert (index : gmap Z (gmap field unit)) (received : gmap Z (gmap field bool)) : gmap Z (gmap field unit) :=
  insert_windows (λ index key ts _, tw_Add index key ts) index received.

Definition tw_InsertMigratedMetadata tw (metadata : bytes) : res (TumblingWindow S) :=
  received ← received_index (tw_kind tw) metadata "Failed to deserialize migrated window index";
  Ok (tw_with_index tw (tw_insert (tw_Index tw) received)).

Definition tw_ConstructFastForwardMetadata tw (RoutingTable : option PartitionTable) : res (TumblingWindow S * option (gmap Z bytes)) :=
  '(indexToBeTransferred, index) ←
    scan_index (GetOwnerWorkerUponReconfig cfg RoutingTable) (elsewhere WorkerId) put_key (tw_Index tw);
  result ← serialize_all (tw_kind tw) indexToBeTransferred;
  Ok (tw_with_index tw index, Some result).

Definition tw_ProcessFastForwardMetadata tw (metadata : bytes) : res (TumblingWindow S) :=
  received ← received_index (tw_kind tw) metadata "Failed to decode FastForwardMetadata";
  Ok (tw_with_index tw (tw_insert (tw_Index tw) received)).
End Tumbling.

(** ** Sliding windows *)

(** The start times of the panes are sent. *)
Definition put_panes (old : option (list Z)) (panes : list (field * Z)) : option (list Z) :=
  foldl (λ acc (pane : field * Z), Some (default [] acc ++ [pane.2])) old panes.

Section Sliding.
Context `{Mus, RawMus, !GoRange, GoJson (list Z)} {S : Type}.
Context (cfg : CollectorConfig) (WorkerId : Z).
Implicit Types sw : SlidingWindow S.

Definition sw_kind sw : Kind := keyKind (wb_StateClient (sw_Base sw)).
Definition sw_with_index sw (index : SlidingWindowIndex) : SlidingWindow S := MkSliding (sw_Base sw) (sw_Duration sw) (sw_Slide sw) index.

Definition sw_FetchMetadataForMigration sw (affectedBuckets : gset Z) : res (SlidingWindow S * bytes) :=
  '(indexToBeTransferred, index) ←
    scan_index (GetBucketIdx (wb_StateClient (sw_Base sw))) (affected affectedBuckets) put_panes (sw_IndexMap (sw_Index sw));
  bs ← json_or_fatal (sw_kind sw) (default ∅ (indexToBeTransferred !! 0%Z)) "Failed to serialize sliding window metadata";
  Ok (sw_with_index sw (sw_with_map (sw_Index sw) index), bs).

Definition sw_insert (index : SlidingWindowIndex) (received : gmap Z (gmap field (list Z))) : SlidingWindowIndex :=
  insert_windows sw_Add index received.

Definition sw_InsertMigratedMetadata sw (metadata : bytes) : res (SlidingWindow S) :=
  received ← received_index (sw_kind sw) metadata "Failed to deserialize sliding window metadata";
  Ok (sw_with_index sw (sw_insert (sw_Index sw) received)).

Definition sw_ConstructFastForwardMetadata sw (RoutingTable : option PartitionTable) : res (SlidingWindow S * option (gmap Z bytes)) :=
  '(indexToBeTransferred, index) ←
    scan_index (GetOwnerWorkerUponReconfig cfg RoutingTable) (elsewhere WorkerId) put_panes (sw_IndexMap (sw_Index sw));
  result ← serialize_all (sw_kind sw) indexToBeTransferred;
  Ok (sw_with_index sw (sw_with_map (sw_Index sw) index), Some result).

Definition sw_ProcessFastForwardMetadata sw (metadata : bytes) : res (SlidingWindow S) :=
  received ← received_index (sw_kind sw) metadata "Failed to decode FastForwardMetadata";
  Ok (sw_with_index sw (sw_insert (sw_Index sw) received)).
End Sliding.

(** ** What a scan takes out *)

Definition entries `{GoRange} {A} (index : gmap Z (gmap field A)) : list (field * Z * A) :=
  go_range index ≫= λ x, (λ y, (y.1, x.1, y.2)) <$> go_range x.2.

Lemma elem_of_entries `{GoRange} {A} (index : gmap Z (gmap field A)) x : x ∈ entries index ↔ at_window index x.1 = Some x.2.
Proof.
  destruct x as [[k t] a]. unfold entries, at_window. rewrite list_elem_of_bind. simpl. split.
  - intros ([t' m] & ([k' a'] & [= -> -> ->] & Hin%elem_of_go_range)%list_elem_of_fmap & Hm%elem_of_go_range). simpl in *. by rewrite Hm.
  - intros (m & Hm & Hk)%bind_Some. exists (t, m). split; [|by apply elem_of_go_range].
    apply list_elem_of_fmap. exists (k, a). split; [done|]. by apply elem_of_go_range.
Qed.

Lemma NoDup_entries `{GoRange} {A} (index : gmap Z (gmap field A)) : NoDup (entries index).*1.
Proof.
  unfold entries. rewrite fmap_bind_list. apply NoDup_bind.
  - intros [t m] [t' m'] [k s] Hx Hx'. simpl. rewrite <-!list_fmap_compose, !list_elem_of_fmap. simpl.
    intros (y & [= -> ->] & _) (y' & [= _ ->] & _). apply elem_of_go_range in Hx, Hx'. simpl in *. by simplify_eq.
  - intros [t m] _. simpl. rewrite <-list_fmap_compose. 
    replace (fst ∘ _ <$> go_range m) with ((λ k, (k, t)) <$> (go_range m).*1) by (by rewrite <-list_fmap_compose).
    apply NoDup_fmap_2; [by intros ?? [=]|apply NoDup_go_range].
  - apply (NoDup_fmap_1 fst), NoDup_go_range.
Qed.

Section ScanSpec.
Context `{GoRange} {A B : Type}.
Context (classify : field → res Z) (cls : field → Z) (target : Z → option Z) (put : option B → A → option B) (conv : A → B).
Context (index : gmap Z (gmap field A)).
Context (Hcls : ∀ p a, at_window index p = Some a → classify p.1 = Ok (cls p.1)).
Context (Hput : ∀ p a, at_window index p = Some a → put None a = Some (conv a)).

(** What was sent of a window to a destination. *)
Definition sent_window (m : gmap Z (gmap Z (gmap field B))) (dest : Z) (p : field * Z) : option B := m !! dest ≫= λ w, at_window w p.

Lemma transfer_sent m dest ts key a b dest' p :
  sent_window m dest (key, ts) = None → put None a = Some b →
  sent_window (transfer put m dest ts key a) dest' p =
    if decide (dest' = dest ∧ p = (key, ts)) then Some b else sent_window m dest' p.
Proof.
  intros Hnone Hb. unfold transfer, sent_window in *. set (w := default ∅ (m !! dest)).
  assert (default ∅ (w !! ts) !! key = None) as Hk.
  { unfold w. destruct (m !! dest) as [w'|]; simpl in *; [|done]. unfold at_window in Hnone. simpl in Hnone. by destruct (w' !! ts). }
  rewrite Hk, Hb. destruct (decide (dest' = dest)) as [->|Hne].
  - rewrite lookup_insert_eq. simpl. rewrite (at_window_insert w p (key, ts) b) by done.
    destruct (decide (p = (key, ts))) as [->|Hp]; [by rewrite decide_True|]. rewrite decide_False by naive_solver.
    unfold w. by destruct (m !! dest).
  - rewrite lookup_insert_ne by done. by rewrite decide_False by naive_solver.
Qed.

Record scanned (seen : list (field * Z)) (st : gmap field Z * gmap Z (gmap Z (gmap field B)) * gmap Z (gmap field A)) : Prop := {
  sc_examined : ∀ key n, st.1.1 !! key = Some n → classify key = Ok n;
  sc_index : ∀ p, at_window st.2 p = if decide (p ∈ seen ∧ is_Some (target (cls p.1))) then None else at_window index p;
  sc_wf : index_wf index → index_wf st.2;
  sc_sent : ∀ dest p, sent_window st.1.2 dest p =
    if decide (p ∈ seen ∧ target (cls p.1) = Some dest) then conv <$> at_window index p else None;
  sc_dom : ∀ dest, is_Some (st.1.2 !! dest) ↔ ∃ p, p ∈ seen ∧ target (cls p.1) = Some dest
}.

Lemma examine_Ok examined key : (∀ k n, examined !! k = Some n → classify k = Ok n) → classify key = Ok (cls key) →
  ∃ examined', examine classify examined key = Ok (examined', cls key) ∧ ∀ k n, examined' !! k = Some n → classify k = Ok n.
Proof.
  intros He Hk. unfold examine. destruct (examined !! key) as [n|] eqn:E.
  - specialize (He key n E) as Hn. rewrite Hk in Hn. injection Hn as <-. by exists examined.
  - rewrite Hk, bind_Ok. eexists. split; [done|]. intros k n [[<- <-]|[_ ?]]%lookup_insert_Some; [done|eauto].
Qed.

Lemma scan_step seen st p a : scanned seen st → p ∉ seen → at_window index p = Some a →
  ∃ st', scan_window classify target put p.2 st (p.1, a) = Ok st' ∧ scanned (seen ++ [p]) st'.
Proof.
  intros [He Hi Hw Hs Hd] Hp Ha. destruct st as [[examined m] ix]. simpl in *. unfold scan_window. simpl.
  destruct (examine_Ok examined p.1 He (Hcls p a Ha)) as (examined' & -> & He'). rewrite bind_Ok.
  eexists. split; [done|]. destruct (target (cls p.1)) as [dest|] eqn:Et; split; simpl.
  - done.
  - intros q. rewrite index_Remove_at, Hi. rewrite <-surjective_pairing. destruct (decide (q = p)) as [->|Hne].
    + rewrite decide_True; [done|]. split; [set_solver|by rewrite Et].
    + apply decide_ext. set_solver.
  - intros Hwf. apply index_Remove_wf. auto.
  - intros dest' q. rewrite (transfer_sent m dest p.2 p.1 a (conv a)); [|rewrite <-surjective_pairing, Hs; by rewrite decide_False by tauto|by eapply Hput].
    rewrite <-surjective_pairing. destruct (decide (dest' = dest ∧ q = p)) as [[-> ->]|Hn].
    + rewrite decide_True by set_solver. by rewrite Ha.
    + rewrite Hs. apply decide_ext. split; [set_solver|]. rewrite elem_of_app, list_elem_of_singleton. intros [[?| ->] Ht]; [done|].
      destruct Hn. split; [congruence|done].
  - intros dest'. unfold transfer. rewrite lookup_insert_is_Some', Hd. split.
    + intros [<-|(q & ? & ?)]; [exists p; set_solver|exists q; set_solver].
    + intros (q & [Hq|Hq%list_elem_of_singleton]%elem_of_app & Ht); [right; eauto|left; congruence].
  - done.
  - intros q. rewrite Hi. apply decide_ext. split; [set_solver|]. rewrite elem_of_app, list_elem_of_singleton.
    intros [[?| ->] Ht]; [done|]. rewrite Et in Ht. by destruct Ht.
  - auto.
  - intros dest' q. rewrite Hs. apply decide_ext. split; [set_solver|]. rewrite elem_of_app, list_elem_of_singleton.
    intros [[?| ->] Ht]; [done|]. congruence.
  - intros dest'. rewrite Hd. split.
    + intros (q & ? & ?). exists q. set_solver.
    + intros (q & [Hq|Hq%list_elem_of_singleton]%elem_of_app & Ht); [eauto|congruence].
Qed.

(** The scan sends every window whose key has a destination to it and keeps the
    others, in whatever order it meets them. *)
Lemma scan_index_Ok : ∃ m index', scan_index classify target put index = Ok (m, index') ∧
  (∀ p, at_window index' p = if target (cls p.1) then None else at_window index p) ∧
  (index_wf index → index_wf index') ∧
  (∀ dest p, sent_window m dest p = if decide (target (cls p.1) = Some dest) then conv <$> at_window index p else None) ∧
  (∀ dest, is_Some (m !! dest) ↔ ∃ p, is_Some (at_window index p) ∧ target (cls p.1) = Some dest).
Proof.
  unfold scan_index.
  assert (∀ st, foldM (λ st x, foldM (scan_window classify target put x.1) st (go_range x.2)) st (go_range index) =
    foldM (λ st e, scan_window classify target put e.1.2 st (e.1.1, e.2)) st (entries index)) as ->.
  { intros st. unfold entries. rewrite foldM_bind. apply foldM_ext. intros st' [t ws] _. simpl. rewrite foldM_fmap.
    apply foldM_ext. by intros st'' [k a] _. }
  destruct (foldM_total (λ st e, scan_window classify target put e.1.2 st (e.1.1, e.2)) (λ seen st, scanned seen.*1 st)
    (entries index) (∅, ∅, index)) as ([[examined m] ix] & -> & [He Hi Hw Hs Hd]).
  - split; cbn [fst snd fmap list_fmap]; [done| |done| |].
    + intros p. by rewrite decide_False by set_solver.
    + intros dest p. rewrite decide_False by set_solver. unfold sent_window. by rewrite lookup_empty.
    + intros dest. rewrite lookup_empty. split; [by intros [? [=]]|]. set_solver.
  - intros seen [p a] st [tl Hpre] Hst. rewrite fmap_app. simpl. apply scan_step; [done| |].
    + pose proof (NoDup_entries index) as Hnd. rewrite Hpre, !fmap_app in Hnd.
      apply NoDup_app in Hnd as [Hnd _]. apply NoDup_app in Hnd as (_ & Hnd & _). intros Hin. apply (Hnd p Hin). set_solver.
    + apply (elem_of_entries index (p, a)). rewrite Hpre. set_solver.
  - rewrite bind_Ok. simpl in *. exists m, ix. split; [done|].
    assert (∀ p, p ∈ (entries index).*1 ↔ is_Some (at_window index p)) as Hent.
    { intros p. rewrite list_elem_of_fmap. split.
      - intros ([q a] & -> & Hin%elem_of_entries). by exists a.
      - intros [a Ha]. exists (p, a). split; [done|]. by apply elem_of_entries. }
    split_and!.
    + intros p. rewrite Hi. destruct (target (cls p.1)) as [dest|].
      * destruct (at_window index p) eqn:E; [|by case_decide]. rewrite decide_True; [done|]. split; [apply Hent; by rewrite E|eauto].
      * by rewrite decide_False by (intros [_ [? [=]]]).
    + done.
    + intros dest p. rewrite Hs. destruct (at_window index p) eqn:E; simpl; [|by repeat case_decide].
      apply decide_ext. split; [tauto|]. intros Ht. split; [apply Hent; by rewrite E|done].
    + intros dest. rewrite Hd. by setoid_rewrite Hent.
Qed.
End ScanSpec.

(** ** Adding received windows *)

Section Insert.
Context `{GoRange} {A B I : Type}.
Context (view : I → gmap Z (gmap field A)) (add : I → field → Z → B → I) (merge : field → option A → B → A) (good : B → Prop).
Context (Hadd : ∀ i key ts b p, good b →
  at_window (view (add i key ts b)) p = if decide (p = (key, ts)) then Some (merge key (at_window (view i) p) b) else at_window (view i) p).
Context (Hwf : ∀ i key ts b, good b → index_wf (view i) → index_wf (view (add i key ts b))).

Lemma insert_windows_at (received : gmap Z (gmap field B)) i :
  (∀ p b, at_window received p = Some b → good b) →
  (∀ p, at_window (view (insert_windows add i received)) p =
    match at_window received p with
    | Some b => Some (merge p.1 (at_window (view i) p) b)
    | None => at_window (view i) p
    end) ∧
  (index_wf (view i) → index_wf (view (insert_windows add i received))).
Proof.
  intros Hgood. assert (insert_windows add i received = foldl (λ i e, add i e.1.1 e.1.2 e.2) i (entries received)) as ->.
  { unfold insert_windows, entries. generalize (go_range received). intros l. revert i. induction l as [|[t ws] l IH]; intros i; [done|].
    rewrite bind_cons, foldl_app. simpl. rewrite IH. f_equal. generalize (go_range ws). clear. intros l. revert i.
    induction l as [|y l IH]; intros i; [done|]. simpl. by rewrite IH. }
  assert (∀ x, x ∈ entries received → good x.2) as Hg by (intros x Hx%elem_of_entries; by eapply Hgood).
  assert (∀ p, at_window received p = None ∨ ∃ b, at_window received p = Some b ∧ (p, b) ∈ entries received) as Hcase.
  { intros p. destruct (at_window received p) as [b|] eqn:E; [right|by left]. exists b. split; [done|]. by apply elem_of_entries. }
  assert (∀ p b, (p, b) ∈ entries received → at_window received p = Some b) as Hin by (intros p b Hb; by apply (elem_of_entries received (p, b))).
  pose proof (NoDup_entries received) as Hnd. split.
  - intros p. specialize (Hcase p). revert Hcase.
    assert (∀ b, (p, b) ∈ entries received → at_window received p = Some b) as Hinp by auto. clear Hin. revert Hg Hnd Hinp.
    generalize (at_window received p) as ob, (entries received) as l. intros ob l. revert i.
    induction l as [|[q c] l IH]; intros i Hg Hnd Hinp Hcase; simpl.
    { destruct Hcase as [->|(b & _ & Hb)]; [done|]. by apply elem_of_nil in Hb. }
    apply NoDup_cons in Hnd as [Hq Hnd]. simpl in Hq. destruct (decide (p = q)) as [<-|Hne].
    + assert (ob = Some c) as -> by (apply Hinp; set_solver).
      assert (∀ l', (∀ x, x ∈ l' → good x.2) → p ∉ l'.*1 → ∀ i', at_window (view (foldl (λ i e, add i e.1.1 e.1.2 e.2) i' l')) p = at_window (view i') p) as Hother.
      { clear -Hadd. induction l' as [|[q' c'] l' IH']; intros Hg Hp i'; [done|]. simpl. rewrite IH'; [|set_solver..].
        rewrite Hadd by (by apply (Hg (q', c')); left). rewrite decide_False; [done|]. intros ->. apply Hp. simpl. rewrite <-surjective_pairing. set_solver. }
      rewrite Hother by set_solver. rewrite Hadd by (by apply (Hg (p, c)); left). by rewrite decide_True by by rewrite <-surjective_pairing.
    + rewrite IH; [|set_solver|done|set_solver|].
      * rewrite Hadd by (by apply (Hg (q, c)); left). rewrite decide_False; [done|]. rewrite <-surjective_pairing. done.
      * destruct Hcase as [?|(b & ? & Hb)]; [by left|right]. exists b. split; [done|]. apply elem_of_cons in Hb as [[= -> ->]|?]; [done|done].
  - clear Hcase Hin Hnd. revert i. induction (entries received) as [|[q c] l IH]; intros i Hi; [done|]. simpl. apply IH; [set_solver|].
    apply Hwf; [|done]. apply (Hg (q, c)). by left.
Qed.
End Insert.

(** ** From one worker to another *)

Section Move.
Context `{GoRange, RawMusLaws} {A B : Type} `{GoJsonLaws B}.
Context (classify : field → res Z) (cls : field → Z) (target : Z → option Z) (put : option B → A → option B) (conv : A → B).
Context (kind : Kind) (Hkind : json_key_kind kind = true).
Context (index : gmap Z (gmap field A)).

(** The windows of an index as JSON can carry them. *)
Definition json_index {A'} (index : gmap Z (gmap field A')) : Prop :=
  ∀ p, is_Some (at_window index p) → is_i64 p.2 ∧ has_kind kind p.1 = true ∧ json_key p.1 = true.

Context (Hcls : ∀ p a, at_window index p = Some a → classify p.1 = Ok (cls p.1)).
Context (Hput : ∀ p a, at_window index p = Some a → put None a = Some (conv a)).
Context (Hkeys : json_index index).

Lemma json_index_Ok (m : gmap Z (gmap field B)) : json_index m →
  ∃ bs, json_Marshal kind m = Some bs ∧ json_Unmarshal kind bs = Some m ∧ json_Unmarshal kind (bs ++ [10%Z]) = Some m.
Proof.
  intros Hm. apply json_roundtrip; [done|]. intros ts ws key Hts Hk. apply (Hm (key, ts)). unfold at_window. simpl. by rewrite Hts.
Qed.

Lemma serialize_Ok (m : gmap Z (gmap field B)) : json_index m →
  ∃ bs, SerializeToFastForwardMetadata kind m = Ok bs ∧ json_Unmarshal kind (drop 6 bs) = Some m.
Proof.
  intros Hm. destruct (json_index_Ok m Hm) as (bs & Hmar & _ & Hun). unfold SerializeToFastForwardMetadata, json_or_fatal. rewrite Hmar, bind_Ok.
  eexists. split; [done|]. by rewrite app_assoc, drop_app_length' by (rewrite length_app, !raw_length; done).
Qed.

(** What a destination is sent, if windows go there. *)
Definition carries (dest : Z) (received : gmap Z (gmap field B)) : Prop :=
  ∀ p, at_window received p = if decide (target (cls p.1) = Some dest) then conv <$> at_window index p else None.

Lemma carries_json dest received : carries dest received → json_index received.
Proof.
  intros Hc p. rewrite Hc. case_decide; [|by intros [? [=]]]. rewrite fmap_is_Some. apply Hkeys.
Qed.

Lemma forward_Ok : ∃ m index' metas,
  scan_index classify target put index = Ok (m, index') ∧ serialize_all kind m = Ok metas ∧
  (∀ p, at_window index' p = if target (cls p.1) then None else at_window index p) ∧
  (index_wf index → index_wf index') ∧
  (∀ dest, is_Some (metas !! dest) ↔ ∃ p, is_Some (at_window index p) ∧ target (cls p.1) = Some dest) ∧
  (∀ dest meta, metas !! dest = Some meta → ∃ received, json_Unmarshal kind (drop 6 meta) = Some received ∧ carries dest received).
Proof.
  destruct (scan_index_Ok classify cls target put conv index Hcls Hput) as (m & index' & Hscan & Hix & Hwf & Hsent & Hdom).
  assert (∀ dest idx, m !! dest = Some idx → carries dest idx) as Hcar.
  { intros dest idx Hd p. specialize (Hsent dest p). unfold sent_window in Hsent. by rewrite Hd in Hsent. }
  assert (∀ dest idx, m !! dest = Some idx → ∃ bs, SerializeToFastForwardMetadata kind idx = Ok bs ∧ json_Unmarshal kind (drop 6 bs) = Some idx) as Hser.
  { intros dest idx Hd. apply serialize_Ok. eapply carries_json. eauto. }
  set (ser idx := match SerializeToFastForwardMetadata kind idx with Ok bs => bs | Crash _ => [] end).
  destruct (range_modify (λ _ idx _, SerializeToFastForwardMetadata kind idx) (λ _ idx (_ : option bytes), ser idx) m ∅) as (metas & Hall & Hmetas).
  { intros dest idx Hd. unfold ser. by destruct (Hser dest idx Hd) as (bs & -> & _). }
  exists m, index', metas. split_and!; [done|done|done|done| |].
  - intros dest. rewrite Hmetas, <-Hdom. destruct (m !! dest); [split; eauto|]. by rewrite lookup_empty.
  - intros dest meta. rewrite Hmetas. destruct (m !! dest) as [idx|] eqn:Ed; [|by rewrite lookup_empty]. intros [= <-].
    exists idx. split; [|eauto]. unfold ser. by destruct (Hser dest idx Ed) as (bs & -> & ?).
Qed.

(** A transfer as one map. *)
Lemma migrate_Ok : ∃ m index' bs,
  scan_index classify target put index = Ok (m, index') ∧ json_Marshal kind (default ∅ (m !! 0%Z)) = Some bs ∧
  (∀ p, at_window index' p = if target (cls p.1) then None else at_window index p) ∧
  (index_wf index → index_wf index') ∧
  ∃ received, json_Unmarshal kind bs = Some received ∧ carries 0 received.
Proof.
  destruct (scan_index_Ok classify cls target put conv index Hcls Hput) as (m & index' & Hscan & Hix & Hwf & Hsent & Hdom).
  assert (carries 0 (default ∅ (m !! 0%Z))) as Hc.
  { intros p. rewrite <-Hsent. unfold sent_window. by destruct (m !! 0%Z). }
  destruct (json_index_Ok _ (carries_json _ _ Hc)) as (bs & Hmar & Hun & _). exists m, index', bs. by split_and!; eauto.
Qed.
End Move.

(** ** The operators *)

Definition key_owner `{Mus} (table : PartitionTable) (key : field) : Z :=
  match KeyToWorkerID table (field_bytes key) with Ok w => w | Crash _ => 0%Z end.

Lemma key_owner_Ok `{MusLaws} cfg kind table key :
  EncodeFuncFromKind kind = Ok (kb_keyEncoder cfg) → TupleSizeFuncFromKind kind = Ok (kb_keySizer cfg) → Buckets table ≠ [] →
  has_kind kind key = true → GetOwnerWorkerUponReconfig cfg (Some table) key = Ok (key_owner table key).
Proof.
  intros He Hs Ht Hk. unfold GetOwnerWorkerUponReconfig, key_owner. rewrite (key_bytes_Ok cfg kind He Hs) by done. rewrite bind_Ok.
  destruct table as [h bs]. destruct (KeyToWorkerID_Ok h bs (field_bytes key) Ht) as (i & w & _ & _ & ->). done.
Qed.

Lemma elsewhere_Some WorkerId w dest : elsewhere WorkerId w = Some dest ↔ w = dest ∧ w ≠ WorkerId.
Proof. unfold elsewhere. destruct (Z.eqb_spec w WorkerId); naive_solver. Qed.

Lemma put_panes_start panes : panes ≠ [] → put_panes None panes = Some panes.*2.
Proof.
  intros Hne. unfold put_panes. destruct panes as [|q panes]; [done|]. simpl.
  assert (∀ acc l, foldl (λ acc (pane : field * Z), Some (default [] acc ++ [pane.2])) (Some acc) l = Some (acc ++ l.*2)) as Hacc.
  { intros acc l. revert acc. induction l as [|x l IH]; intros acc; simpl; [by rewrite app_nil_r|]. by rewrite IH, <-app_assoc. }
  apply Hacc.
Qed.

(** Windows of a sliding index have panes, all of their own key. *)
Definition panes_ok (index : SlidingWindowIndex) : Prop :=
  ∀ p panes, at_window (sw_IndexMap index) p = Some panes → panes ≠ [] ∧ Forall (λ pane, pane.1 = p.1) panes.

Lemma panes_of_key key (panes : list (field * Z)) : Forall (λ pane, pane.1 = key) panes → pair key <$> panes.*2 = panes.
Proof. induction 1 as [|[k t] panes Hk _ IH]; [done|]. simpl in *. f_equal; [by rewrite Hk|exact IH]. Qed.

Lemma sw_insert_at `{GoRange} index received : (∀ p starts, at_window received p = Some starts → starts ≠ []) →
  (∀ p, at_window (sw_IndexMap (sw_insert index received)) p =
    match at_window received p with
    | Some starts => Some (default [] (at_window (sw_IndexMap index) p) ++ (pair p.1 <$> starts))
    | None => at_window (sw_IndexMap index) p
    end) ∧
  (index_wf (sw_IndexMap index) → index_wf (sw_IndexMap (sw_insert index received))).
Proof.
  intros Hg. apply (insert_windows_at sw_IndexMap sw_Add (λ key old starts, default [] old ++ (pair key <$> starts)) (λ starts, starts ≠ [])).
  - intros i key ts starts p Hs. simpl. rewrite append_panes_at by (by destruct starts). case_decide; [by subst|done].
  - intros i key ts starts Hs. simpl. apply append_panes_wf. by destruct starts.
  - done.
Qed.

Lemma tw_insert_at `{GoRange} index received :
  (∀ p, at_window (tw_insert index received) p = if at_window received p then Some tt else at_window index p) ∧
  (index_wf index → index_wf (tw_insert index received)).
Proof.
  destruct (insert_windows_at id (λ index key ts (_ : bool), tw_Add index key ts) (λ _ _ _, tt) (λ _, True)) with (received := received) (i := index) as [Hat Hwf].
  - intros i key ts b p _. simpl. apply tw_Add_at.
  - intros i key ts b _. simpl. apply tw_Add_wf.
  - done.
  - split; [|exact Hwf]. intros p. etrans; [exact (Hat p)|]. by destruct (at_window received p).
Qed.

(** A receiver has its own windows and those sent to it. *)
Lemma sw_receive `{GoRange} cls target (index : SlidingWindowIndex) dest received peer p :
  panes_ok index → carries cls target (λ panes : list (field * Z), panes.*2) (sw_IndexMap index) dest received →
  at_window (sw_IndexMap (sw_insert peer received)) p =
    match at_window (sw_IndexMap index) p with
    | Some panes => if decide (target (cls p.1) = Some dest) then Some (default [] (at_window (sw_IndexMap peer) p) ++ panes)
                    else at_window (sw_IndexMap peer) p
    | None => at_window (sw_IndexMap peer) p
    end.
Proof.
  intros Hp Hcar. destruct (sw_insert_at peer received) as [Hat _].
  { intros q starts. rewrite Hcar. case_decide; [|done]. intros (panes & Hq & ->)%fmap_Some. destruct (Hp q panes Hq) as [? _]. by destruct panes. }
  rewrite Hat, Hcar. destruct (at_window (sw_IndexMap index) p) as [panes|] eqn:Ep; [|by case_decide]. simpl.
  case_decide; [|done]. do 2 f_equal. apply panes_of_key. by destruct (Hp p panes Ep).
Qed.

Lemma tw_receive `{GoRange} cls target (index : gmap Z (gmap field unit)) dest received peer p :
  carries cls target (λ _, true) index dest received →
  at_window (tw_insert peer received) p =
    if decide (is_Some (at_window index p) ∧ target (cls p.1) = Some dest) then Some tt else at_window peer p.
Proof.
  intros Hcar. rewrite (proj1 (tw_insert_at peer received)), Hcar. destruct (at_window index p) as [[]|] eqn:Ep; simpl.
  - repeat case_decide; naive_solver.
  - repeat case_decide; naive_solver.
Qed.

(** C20: the windows of a sliding operator when its keys change owners.  At the
    start of fast forwarding the operator keeps exactly the windows of keys that
    stay and sends exactly the others, to the owners of their keys: a peer that
    processes the metadata has all windows sent to it, with their panes in
    order, and its own. *)
Theorem sliding_windows_forwarded `{MusLaws, RawMusLaws, !GoRange, GoJsonLaws (list Z)} {S : Type} (cfg : CollectorConfig) (WorkerId : Z)
    (table : PartitionTable) (sw : SlidingWindow S) :
  EncodeFuncFromKind (sw_kind sw) = Ok (kb_keyEncoder cfg) → TupleSizeFuncFromKind (sw_kind sw) = Ok (kb_keySizer cfg) →
  Buckets table ≠ [] → json_key_kind (sw_kind sw) = true → json_index (sw_kind sw) (sw_IndexMap (sw_Index sw)) →
  panes_ok (sw_Index sw) →
  ∃ sw' metas, sw_ConstructFastForwardMetadata cfg WorkerId sw (Some table) = Ok (sw', Some metas) ∧
    (∀ p, at_window (sw_IndexMap (sw_Index sw')) p =
      if (key_owner table p.1 =? WorkerId)%Z then at_window (sw_IndexMap (sw_Index sw)) p else None) ∧
    (∀ w, is_Some (metas !! w) ↔ w ≠ WorkerId ∧ ∃ p, is_Some (at_window (sw_IndexMap (sw_Index sw)) p) ∧ key_owner table p.1 = w) ∧
    ∀ w meta (peer : SlidingWindow S), metas !! w = Some meta → sw_kind peer = sw_kind sw →
      ∃ peer', sw_ProcessFastForwardMetadata peer (drop 6 meta) = Ok peer' ∧
        ∀ p, at_window (sw_IndexMap (sw_Index peer')) p =
          match at_window (sw_IndexMap (sw_Index sw)) p with
          | Some panes => if (key_owner table p.1 =? w)%Z then Some (default [] (at_window (sw_IndexMap (sw_Index peer)) p) ++ panes)
                          else at_window (sw_IndexMap (sw_Index peer)) p
          | None => at_window (sw_IndexMap (sw_Index peer)) p
          end.
Proof.
  intros He Hs Ht Hk Hj Hpanes. set (index := sw_IndexMap (sw_Index sw)) in *.
  destruct (forward_Ok (GetOwnerWorkerUponReconfig cfg (Some table)) (key_owner table) (elsewhere WorkerId) put_panes (λ panes, panes.*2)
    (sw_kind sw) Hk index) as (m & index' & metas & Hscan & Hser & Hix & _ & Hdom & Hrecv).
  - intros p a Hp. apply (key_owner_Ok cfg (sw_kind sw)); [done..|]. by apply Hj.
  - intros p panes Hp. apply put_panes_start. by destruct (Hpanes p panes Hp).
  - done.
  - unfold sw_ConstructFastForwardMetadata. fold index. rewrite Hscan, bind_Ok, Hser, bind_Ok. eexists _, metas. split; [done|].
    split_and!.
    + intros p. simpl. rewrite Hix. unfold elsewhere. by destruct (_ =? _)%Z.
    + intros w. rewrite Hdom. setoid_rewrite elsewhere_Some. naive_solver.
    + intros w meta peer Hm Hkp. destruct (Hrecv w meta Hm) as (received & Hun & Hcar).
      unfold sw_ProcessFastForwardMetadata, received_index. rewrite Hkp, Hun, bind_Ok. eexists. split; [done|]. intros p. simpl.
      assert (w ≠ WorkerId) as Hw by (destruct (proj1 (Hdom w)) as (q & _ & [<- ?]%elsewhere_Some); [by rewrite Hm|done]).
      rewrite (sw_receive (key_owner table) (elsewhere WorkerId) (sw_Index sw) w received) by done. fold index.
      destruct (at_window index p); [|done]. destruct (Z.eqb_spec (key_owner table p.1) w).
      * by rewrite decide_True by (apply elsewhere_Some; split; congruence).
      * by rewrite decide_False by (rewrite elsewhere_Some; naive_solver).
Qed.

(** Fetching the windows of some buckets, and inserting them elsewhere. *)
Lemma tw_migrate_Ok `{MusLaws, !GoRange, GoJsonLaws bool} {S : Type} (tw : TumblingWindow S) (affectedBuckets : gset Z) :
  client_ok (wb_StateClient (tw_Base tw)) → json_key_kind (tw_kind tw) = true → json_index (tw_kind tw) (tw_Index tw) →
  ∃ tw' metadata, tw_FetchMetadataForMigration tw affectedBuckets = Ok (tw', metadata) ∧ metadata ≠ [] ∧ tw_Base tw' = tw_Base tw ∧
    (∀ p, at_window (tw_Index tw') p =
      if decide (bucket_of (wb_StateClient (tw_Base tw)) p.1 ∈ affectedBuckets) then None else at_window (tw_Index tw) p) ∧
    ∀ (other : TumblingWindow S), tw_kind other = tw_kind tw → ∃ other', tw_InsertMigratedMetadata other metadata = Ok other' ∧
      tw_Base other' = tw_Base other ∧ ∀ p, at_window (tw_Index other') p =
        if decide (is_Some (at_window (tw_Index tw) p) ∧ bucket_of (wb_StateClient (tw_Base tw)) p.1 ∈ affectedBuckets)
        then Some tt else at_window (tw_Index other) p.
Proof.
  intros Hc Hk Hj. set (sc := wb_StateClient (tw_Base tw)) in *.
  destruct (migrate_Ok (GetBucketIdx sc) (bucket_of sc) (affected affectedBuckets) put_key (λ _, true) (tw_kind tw) Hk (tw_Index tw))
    as (m & index' & bs & Hscan & Hmar & Hix & _ & received & Hun & Hcar).
  - intros p a Hp. apply GetBucketIdx_Ok; [done|]. by apply Hj.
  - done.
  - done.
  - assert (∀ n, affected affectedBuckets n = Some 0%Z ↔ n ∈ affectedBuckets) as Haff.
    { intros n. unfold affected. case_decide; split; done. }
    unfold tw_FetchMetadataForMigration, json_or_fatal. fold sc. rewrite Hscan, bind_Ok, Hmar, bind_Ok. eexists _, bs. split; [done|]. split; [by eapply json_nonempty|]. split; [done|]. split.
    + intros p. simpl. rewrite Hix. unfold affected. by case_decide.
    + intros other Hko. unfold tw_InsertMigratedMetadata, received_index. rewrite Hko, Hun, bind_Ok. eexists. split; [done|]. split; [done|]. intros p. simpl.
      rewrite (tw_receive _ _ _ _ _ _ _ Hcar). apply decide_ext. by rewrite Haff.
Qed.

(** The windows of a tumbling operator under stop-and-restart.  The worker
    that is asked for the windows of some buckets gives up exactly the windows
    of keys in these buckets, and the worker that inserts the answer has exactly
    these besides its own. *)
Theorem tumbling_windows_migrated `{MusLaws, !GoRange, GoJsonLaws bool} {S : Type} (tw : TumblingWindow S) (affectedBuckets : gset Z) :
  client_ok (wb_StateClient (tw_Base tw)) → json_key_kind (tw_kind tw) = true → json_index (tw_kind tw) (tw_Index tw) →
  ∃ tw' metadata, tw_FetchMetadataForMigration tw affectedBuckets = Ok (tw', metadata) ∧
    (∀ p, at_window (tw_Index tw') p =
      if decide (bucket_of (wb_StateClient (tw_Base tw)) p.1 ∈ affectedBuckets) then None else at_window (tw_Index tw) p) ∧
    ∀ (other : TumblingWindow S), tw_kind other = tw_kind tw → ∃ other', tw_InsertMigratedMetadata other metadata = Ok other' ∧
      ∀ p, at_window (tw_Index other') p =
        if decide (is_Some (at_window (tw_Index tw) p) ∧ bucket_of (wb_StateClient (tw_Base tw)) p.1 ∈ affectedBuckets)
        then Some tt else at_window (tw_Index other) p.
Proof.
  intros Hc Hk Hj. destruct (tw_migrate_Ok tw affectedBuckets Hc Hk Hj) as (tw' & metadata & Hf & _ & _ & Hix & Hother).
  exists tw', metadata. split_and!; [done..|]. intros other Hko. destruct (Hother other Hko) as (other' & Hin & _ & Hat). by exists other'.
Qed.

(** C39: keys that cannot be keys of a JSON object.  If the keys are booleans or
    floating-point numbers, a worker that has to give a window away ends its
    process instead, at the start of fast forwarding as well as when it is asked
    for the windows of a bucket. *)
Theorem unsupported_key_fatal `{MusLaws, RawMus, !GoRange, GoJsonLaws bool} {S : Type} (cfg : CollectorConfig) (WorkerId : Z)
    (table : PartitionTable) (affectedBuckets : gset Z) (tw : TumblingWindow S) (p : field * Z) :
  json_key_kind (tw_kind tw) = false → client_ok (wb_StateClient (tw_Base tw)) →
  EncodeFuncFromKind (tw_kind tw) = Ok (kb_keyEncoder cfg) → TupleSizeFuncFromKind (tw_kind tw) = Ok (kb_keySizer cfg) → Buckets table ≠ [] →
  (∀ q, is_Some (at_window (tw_Index tw) q) → has_kind (tw_kind tw) q.1 = true) → is_Some (at_window (tw_Index tw) p) →
  (key_owner table p.1 ≠ WorkerId →
    tw_ConstructFastForwardMetadata cfg WorkerId tw (Some table) = Crash (Fatal "Failed to encode FastForwardMetadata")) ∧
  (bucket_of (wb_StateClient (tw_Base tw)) p.1 ∈ affectedBuckets →
    tw_FetchMetadataForMigration tw affectedBuckets = Crash (Fatal "Failed to serialize window index for migration")).
Proof.
  intros Hk Hc He Hs Ht Hkeys Hp. set (sc := wb_StateClient (tw_Base tw)) in *. split.
  - intros Ho. destruct (scan_index_Ok (GetOwnerWorkerUponReconfig cfg (Some table)) (key_owner table) (elsewhere WorkerId) put_key (λ _, true)
      (tw_Index tw)) as (m & index' & Hscan & _ & _ & Hsent & Hdom).
    { intros q a Hq. apply (key_owner_Ok cfg (tw_kind tw)); [done..|]. by apply Hkeys. }
    { done. }
    unfold tw_ConstructFastForwardMetadata. rewrite Hscan, bind_Ok. unfold serialize_all.
    destruct (go_range m) as [|[dest idx] l] eqn:Em.
    + exfalso. destruct (proj2 (Hdom (key_owner table p.1))) as [idx Hi].
      { exists p. split; [done|]. by apply elsewhere_Some. }
      apply elem_of_go_range in Hi. rewrite Em in Hi. by apply elem_of_nil in Hi.
    + simpl. assert (m !! dest = Some idx) as Hd by (apply elem_of_go_range; rewrite Em; left).
      assert (idx ≠ ∅) as Hne.
      { intros ->. destruct (proj1 (Hdom dest)) as (q & Hq & Hto); [by rewrite Hd|]. specialize (Hsent dest q). unfold sent_window in Hsent.
        rewrite Hd, decide_True in Hsent by done. simpl in Hsent. destruct Hq as [a Ha]. by rewrite Ha in Hsent. }
      unfold SerializeToFastForwardMetadata, json_or_fatal. by rewrite json_unsupported.
  - intros Hb. destruct (scan_index_Ok (GetBucketIdx sc) (bucket_of sc) (affected affectedBuckets) put_key (λ _, true) (tw_Index tw))
      as (m & index' & Hscan & _ & _ & Hsent & Hdom).
    { intros q a Hq. apply GetBucketIdx_Ok; [done|]. by apply Hkeys. }
    { done. }
    unfold tw_FetchMetadataForMigration, json_or_fatal. fold sc. rewrite Hscan, bind_Ok, json_unsupported; [done|done|].
    intros Hnil. specialize (Hsent 0%Z p). unfold sent_window in Hsent.
    rewrite decide_True in Hsent by (unfold affected; by rewrite decide_True).
    destruct Hp as [a Ha]. rewrite Ha in Hsent. destruct (m !! 0%Z) as [w|]; [|done].
    simpl in Hnil, Hsent. subst w. done.
Qed.

(** ** Examples

    JSON as an injective encoding into one number. *)

#[export] Instance toy_json {B} `{Countable B} : GoJson B := {|
  json_Marshal kind m := if json_key_kind kind || bool_decide (m = ∅) then Some [Z.pos (encode m)] else None;
  json_Unmarshal kind bs := match bs with Z.pos x :: _ => decode x | _ => None end
|}.

#[export] Instance toy_json_laws {B} `{Countable B} : GoJsonLaws B.
Proof.
  split.
  - intros kind m bs. cbn [json_Marshal toy_json]. by destruct (_ || _); intros [= <-].
  - intros kind m Hk Hm. cbn [json_Marshal toy_json]. by rewrite Hk, bool_decide_false.
  - intros kind m Hk _. exists [Z.pos (encode m)]. cbn [json_Marshal json_Unmarshal toy_json app]. rewrite Hk, decode_encode. done.
Qed.

Definition key0 : field := FNum KInt64 0.
Definition key1 : field := FNum KInt64 1.

(** Windows of two keys; worker 2 owns the second key in the new table. *)
Definition demo_windows : SlidingWindow (LocalService MemoryStateBackend) :=
  MkSliding WindowStore.demo_base 20 10
    (NewSlidingWindowIndex {[ 0%Z := {[ key0 := [(key0, 0%Z)]; key1 := [(key1, 0%Z); (key1, 10%Z)] ]} ]} 20 10).
Definition demo_peer : SlidingWindow (LocalService MemoryStateBackend) :=
  MkSliding WindowStore.demo_base 20 10 (NewSlidingWindowIndex ∅ 20 10).

Lemma demo_windows_at p l : at_window (sw_IndexMap (sw_Index demo_windows)) p = Some l →
  p = (key0, 0%Z) ∧ l = [(key0, 0%Z)] ∨ p = (key1, 0%Z) ∧ l = [(key1, 0%Z); (key1, 10%Z)].
Proof.
  destruct p as [k t]. unfold at_window. simpl. intros (ws & [<- <-]%lookup_singleton_Some & Hk)%bind_Some.
  apply lookup_insert_Some in Hk as [[<- <-]|[_ [<- <-]%lookup_singleton_Some]]; [by left|by right].
Qed.

Lemma sliding_windows_forwarded_witness :
  ∃ sw' metas meta peer', sw_ConstructFastForwardMetadata demo_cfg 1 demo_windows (Some (MkTable demo_hash [1; 2]%Z)) = Ok (sw', Some metas) ∧
    at_window (sw_IndexMap (sw_Index sw')) (key1, 0%Z) = None ∧ metas !! 2%Z = Some meta ∧
    sw_ProcessFastForwardMetadata demo_peer (drop 6 meta) = Ok peer' ∧
    at_window (sw_IndexMap (sw_Index peer')) (key1, 0%Z) = Some [(key1, 0%Z); (key1, 10%Z)].
Proof.
  assert (sw_kind demo_windows = KInt64) as Hk by (vm_compute; reflexivity).
  destruct (sliding_windows_forwarded demo_cfg 1 (MkTable demo_hash [1; 2]%Z) demo_windows) as (sw' & metas & Hrun & Hix & Hdom & Hpeer).
  - rewrite Hk. reflexivity.
  - rewrite Hk. reflexivity.
  - discriminate.
  - rewrite Hk. reflexivity.
  - rewrite Hk. intros p [l Hl]. apply demo_windows_at in Hl as [[-> _]|[-> _]]; vm_compute; by repeat split.
  - intros p l Hl. apply demo_windows_at in Hl as [[-> ->]|[-> ->]]; (split; [discriminate|by repeat constructor]).
  - destruct (proj2 (Hdom 2%Z)) as [meta Hm].
    { split; [discriminate|]. exists (key1, 0%Z). split; [vm_compute; eauto|vm_compute; reflexivity]. }
    destruct (Hpeer 2%Z meta demo_peer Hm) as (peer' & Hp & Hat); [vm_compute; reflexivity|].
    exists sw', metas, meta, peer'. split_and!; [exact Hrun| |exact Hm|exact Hp|].
    + rewrite Hix. vm_compute. reflexivity.
    + rewrite Hat. vm_compute. reflexivity.
Defined.

Definition demo_tw : TumblingWindow (LocalService MemoryStateBackend) := MkTumbling WindowStore.demo_base 10 {[ 0%Z := {[ key0 := tt; key1 := tt ]} ]}.

Definition demo_tw_peer : TumblingWindow (LocalService MemoryStateBackend) := MkTumbling WindowStore.demo_base 10 NewTumblingWindowIndex.

Lemma demo_tw_at p : is_Some (at_window (tw_Index demo_tw) p) → p = (key0, 0%Z) ∨ p = (key1, 0%Z).
Proof.
  destruct p as [k t]. unfold at_window. simpl. intros [u (ws & [<- <-]%lookup_singleton_Some & Hk)%bind_Some].
  apply lookup_insert_Some in Hk as [[<- _]|[_ [<- _]%lookup_singleton_Some]]; [by left|by right].
Qed.

Lemma tumbling_windows_migrated_witness :
  ∃ tw' metadata other', tw_FetchMetadataForMigration demo_tw {[ bucket_of (wb_StateClient (tw_Base demo_tw)) key1 ]} = Ok (tw', metadata) ∧
    at_window (tw_Index tw') (key1, 0%Z) = None ∧ at_window (tw_Index tw') (key0, 0%Z) = Some tt ∧
    tw_InsertMigratedMetadata demo_tw_peer metadata = Ok other' ∧ at_window (tw_Index other') (key1, 0%Z) = Some tt.
Proof.
  assert (tw_kind demo_tw = KInt64) as Hk by (vm_compute; reflexivity).
  destruct (tumbling_windows_migrated demo_tw {[ bucket_of (wb_StateClient (tw_Base demo_tw)) key1 ]}) as (tw' & metadata & Hrun & Hix & Hother).
  - exact (proj1 demo_client_ready).
  - rewrite Hk. reflexivity.
  - rewrite Hk. intros p Hp. apply demo_tw_at in Hp as [->| ->]; vm_compute; by repeat split.
  - destruct (Hother demo_tw_peer eq_refl) as (other' & Hin & Hat). exists tw', metadata, other'.
    split_and!; [exact Hrun| | |exact Hin|].
    + rewrite Hix, decide_True; [reflexivity|]. by apply elem_of_singleton.
    + rewrite Hix, decide_False; [vm_compute; reflexivity|]. rewrite elem_of_singleton. vm_compute. discriminate.
    + rewrite Hat, decide_True; [reflexivity|]. split; [vm_compute; eauto|by apply elem_of_singleton].
Defined.

(** A boolean key. *)
Definition bool_cfg : CollectorConfig :=
  MkCollectorConfig 100 true demo_hash 2 (λ _, Ok 0) (λ _, FBool true) EncodeBool SizeBool timestamp.
Definition bool_tw (sc : StateClient (LocalService MemoryStateBackend)) : TumblingWindow (LocalService MemoryStateBackend) :=
  MkTumbling (wb_set_client WindowStore.demo_base sc) 10 {[ 0%Z := {[ FBool true := tt ]} ]}.

Lemma unsupported_key_fatal_witness :
  ∃ sc : StateClient (LocalService MemoryStateBackend), client_ok sc ∧ keyKind sc = KBool ∧
    tw_ConstructFastForwardMetadata bool_cfg 1 (bool_tw sc) (Some (MkTable demo_hash [2%Z])) =
      Crash (Fatal "Failed to encode FastForwardMetadata").
Proof.
  destruct (Setup_Ok (S := LocalService MemoryStateBackend) WindowStateClient KBool demo_specs 3 (MkLocal NewMemoryStateBackend)
    (toy_hash 5) 128 "pebble") as (sc & Hsc & Hok & Hs & _ & Ht & Hk & _ & Hcaches);
    [done|simpl; lia|done|apply demo_specs_supported|unfold is_u16; lia|lia|apply toy_hash_ok|].
  exists sc. split_and!; [exact Hok|exact Hk|].
  refine (proj1 (unsupported_key_fatal bool_cfg 1 (MkTable demo_hash [2%Z]) ∅ (bool_tw sc) (FBool true, 0%Z) _ _ _ _ _ _ _) _).
  - unfold tw_kind. simpl. by rewrite Hk.
  - exact Hok.
  - unfold tw_kind. simpl. by rewrite Hk.
  - unfold tw_kind. simpl. by rewrite Hk.
  - discriminate.
  - intros [k t] [u Hu]. unfold at_window in Hu. simpl in Hu. apply bind_Some in Hu as (ws & [<- <-]%lookup_singleton_Some & [<- _]%lookup_singleton_Some).
    unfold tw_kind. simpl. rewrite Hk. reflexivity.
  - vm_compute. eauto.
  - vm_compute. discriminate.
Defined.
