(* ===== verification/CustomJoin.v ===== *)
(** * Joins with custom windows

    [api/dataflow/customWindowJoin.go]: a join of two streams whose user
    functions may register timers for the key they work on; when a watermark
    passes a timer, a third user function is called with the states of its key.
    Batches and timers are cycles of [Keyed.v].  The specification keeps a set
    of timers, and fires those that are due in the order of their times.  Timers
    move between workers as tumbling windows do ([WindowMigration.v]). *)

From stdpp Require Import prelude gmap strings list sorting.
From Stdlib Require Import ZArith Lia.
From S2P Require Import Prelude Partition PartitionTable Codec WorkUnit StateType StateCache Backend StateService StateClient StateBatch.
From S2P Require Import Window WindowIndex WindowStore Keyed Operators Network Collector CollectorSpec Task WindowMigration.

(** ** Timers *)

Record Timer := MkTimer { currentKey : field; ActiveTimers : gmap Z (gmap field unit) }.

(** The zero value of the key type is the first current key. *)
Definition NewTimer (zero : field) : Timer := MkTimer zero ∅.

Definition setCurrentKey (t : Timer) (key : field) : Timer := MkTimer key (ActiveTimers t).

Definition timer_add (t : Timer) (key : field) (ts : Z) : Timer :=
  let m := match ActiveTimers t !! ts with None => <[ts := ∅]> (ActiveTimers t) | Some _ => ActiveTimers t end in
  MkTimer (currentKey t) (alter (λ keys, <[key := tt]> keys) ts m).

Definition RegisterTimer (t : Timer) (ts : Z) : Timer := timer_add t (currentKey t) ts.

Definition timer_remove (t : Timer) (key : field) (ts : Z) : Timer :=
  MkTimer (currentKey t)
    match ActiveTimers t !! ts with
    | Some keys =>
        let keys := delete key keys in
        if size keys =? 0 then delete ts (ActiveTimers t) else <[ts := keys]> (ActiveTimers t)
    | None => ActiveTimers t
    end.

Definition getExpiredTimers `{GoRange} (t : Timer) (curTime : Z) : list field * list Z :=
  let timestamps := foldl (λ l x, if (x.1 <=? curTime)%Z then l ++ [x.1] else l) [] (go_range (ActiveTimers t)) in
  let sortedTimestamps := merge_sort Z.le timestamps in
  foldl (λ st ts, foldl (λ st y, (st.1 ++ [y.1], st.2 ++ [ts])) st (go_range (default ∅ (ActiveTimers t !! ts))))
    ([], []) sortedTimestamps.

(** ** The operator *)

(** A user function on a record answers with the calls on the two states, the
    timers it registers and the records it emits; on a timer, with calls and
    records. *)
Record CustomWindowJoin (S : Type) := MkWindowJoin {
  wj_StateClient : StateClient S;
  wj_UpstreamName1 : string;
  wj_KeyAssigner1 : Tuple → field;
  wj_UpstreamName2 : string;
  wj_KeyAssigner2 : Tuple → field;
  wj_State1 : StateDecl;
  wj_State2 : StateDecl;
  wj_Timer : Timer;
  wj_F1 : Tuple → list Tuple → list Tuple → list (nat * state_op) * (list Z * list Tuple);
  wj_F2 : Tuple → list Tuple → list Tuple → list (nat * state_op) * (list Z * list Tuple);
  wj_OnTimer : Z → list Tuple → list Tuple → list (nat * state_op) * list Tuple;
  wj_Collector : Collector
}.
Arguments MkWindowJoin {S}.
Arguments wj_StateClient {S}.
Arguments wj_UpstreamName1 {S}.
Arguments wj_KeyAssigner1 {S}.
Arguments wj_UpstreamName2 {S}.
Arguments wj_KeyAssigner2 {S}.
Arguments wj_State1 {S}.
Arguments wj_State2 {S}.
Arguments wj_Timer {S}.
Arguments wj_F1 {S}.
Arguments wj_F2 {S}.
Arguments wj_OnTimer {S}.
Arguments wj_Collector {S}.

Definition wj_with {S} (w : CustomWindowJoin S) (sc : StateClient S) (st : Collector * Timer) : CustomWindowJoin S :=
  MkWindowJoin sc (wj_UpstreamName1 w) (wj_KeyAssigner1 w) (wj_UpstreamName2 w) (wj_KeyAssigner2 w) (wj_State1 w) (wj_State2 w)
    st.2 (wj_F1 w) (wj_F2 w) (wj_OnTimer w) st.1.

(** What a record causes besides state changes: the collector gets its time,
    the timer its key. *)
Definition act_record (keyAssigner : Tuple → field) (st : Collector * Timer) (record : Tuple) (e : list Z * list Tuple)
    : Collector * Timer :=
  (emit_all st.1 (timestamp record) e.2, foldl RegisterTimer (setCurrentKey st.2 (keyAssigner record)) e.1).

(** What a timer causes: it is removed after the call. *)
Definition act_timer (st : Collector * Timer) (x : field * Z) (outs : list Tuple) : Collector * Timer :=
  (emit_all st.1 x.2 outs, timer_remove st.2 x.1 x.2).

Definition on_timer (OnTimer : Z → list Tuple → list Tuple → list (nat * state_op) * list Tuple) (x : field * Z)
    (views : list (list Tuple)) : list (nat * state_op) * list Tuple :=
  OnTimer x.2 (first views) (second views).

Section CustomJoin.
Context `{Mus} `{GoRange} {S : Type} `{StateServiceOps S}.
Implicit Types w : CustomWindowJoin S.

Definition processBatchCustomWindowJoin w (workUnit : WorkUnit) (keyAssigner : Tuple → field)
    (f : Tuple → list Tuple → list Tuple → list (nat * state_op) * (list Z * list Tuple)) : res (CustomWindowJoin S) :=
  records ← join_batch workUnit;
  '(sc, st) ← process [wj_State1 w; wj_State2 w] keyAssigner (two_states f) (act_record keyAssigner)
                (wj_StateClient w) (wj_Collector w, wj_Timer w) records;
  Ok (wj_with w sc st).

Definition wj_ProcessBatch w (workUnit : WorkUnit) (subSupplierName : string) : res (CustomWindowJoin S) :=
  if decide (subSupplierName = wj_UpstreamName1 w) then processBatchCustomWindowJoin w workUnit (wj_KeyAssigner1 w) (wj_F1 w)
  else if decide (subSupplierName = wj_UpstreamName2 w) then processBatchCustomWindowJoin w workUnit (wj_KeyAssigner2 w) (wj_F2 w)
  else Crash (Fatal "CustomWindowJoin: workUnit comes from unexpected SubSupplier").

Definition wj_ProcessProgressedWatermark w (wm : Z) : res (CustomWindowJoin S) :=
  let '(keys, timestamps) := getExpiredTimers (wj_Timer w) wm in
  if length keys =? 0 then Ok w
  else
    '(sc, st) ← process [wj_State1 w; wj_State2 w] fst (on_timer (wj_OnTimer w)) act_timer
                  (wj_StateClient w) (wj_Collector w, wj_Timer w) (zip keys timestamps);
    Ok (wj_with w sc st).
End CustomJoin.

(** What the constructor registers, and its timers. *)
Definition NewCustomWindowJoin (keyKind : Kind) (V1 V2 : state_kind * list Kind) : ClientDecl * StateDecl * StateDecl * Timer :=
  (declare_two keyKind V1 V2, NewTimer (zero_field keyKind)).

(** ** Moving timers *)

Section Migration.
Context `{Mus, RawMus, !GoRange, GoJson bool} {S : Type}.
Context (cfg : CollectorConfig) (WorkerId : Z).
Implicit Types w : CustomWindowJoin S.

Definition wj_kind w : Kind := keyKind (wj_StateClient w).
Definition wj_with_timers w (timers : gmap Z (gmap field unit)) : CustomWindowJoin S :=
  wj_with w (wj_StateClient w) (wj_Collector w, MkTimer (currentKey (wj_Timer w)) timers).

Definition wj_FetchMetadataForMigration w (affectedBuckets : gset Z) : res (CustomWindowJoin S * bytes) :=
  '(timersToBeTransferred, timers) ←
    scan_index (GetBucketIdx (wj_StateClient w)) (affected affectedBuckets) put_key (ActiveTimers (wj_Timer w));
  bs ← json_or_fatal (wj_kind w) (default ∅ (timersToBeTransferred !! 0%Z)) "Failed to serialize timers for migration";
  Ok (wj_with_timers w timers, bs).

(** [w.Timer.add] for every received timer. *)
Definition add_timers (t : Timer) (received : gmap Z (gmap field bool)) : Timer :=
  insert_windows (λ t key ts _, timer_add t key ts) t received.

Definition wj_InsertMigratedMetadata w (metadata : bytes) : res (CustomWindowJoin S) :=
  received ← received_index (wj_kind w) metadata "Failed to deserialize migrated timers";
  Ok (wj_with w (wj_StateClient w) (wj_Collector w, add_timers (wj_Timer w) received)).

Definition wj_ConstructFastForwardMetadata w (RoutingTable : option PartitionTable) : res (CustomWindowJoin S * option (gmap Z bytes)) :=
  '(timersToBeTransferred, timers) ←
    scan_index (GetOwnerWorkerUponReconfig cfg RoutingTable) (elsewhere WorkerId) put_key (ActiveTimers (wj_Timer w));
  result ← serialize_all (wj_kind w) timersToBeTransferred;
  Ok (wj_with_timers w timers, Some result).

Definition wj_ProcessFastForwardMetadata w (metadata : bytes) : res (CustomWindowJoin S) :=
  received ← received_index (wj_kind w) metadata "Failed to decode FastForwardMetadata";
  Ok (wj_with w (wj_StateClient w) (wj_Collector w, add_timers (wj_Timer w) received)).
End Migration.

(** ** Expired timers *)

Section Timers.
Context `{GoRange}.

Definition due_times (t : Timer) (wm : Z) : list Z :=
  merge_sort Z.le (filter (λ ts, (ts ≤ wm)%Z) (go_range (ActiveTimers t)).*1).

Definition at_time (ts : Z) (l : list (field * unit)) : list (field * Z) := (λ y, (y.1, ts)) <$> l.

(** The timers that are due, in the order in which they fire. *)
Definition due (t : Timer) (wm : Z) : list (field * Z) :=
  due_times t wm ≫= λ ts, at_time ts (go_range (default ∅ (ActiveTimers t !! ts))).

Lemma getExpiredTimers_due t wm : getExpiredTimers t wm = ((due t wm).*1, (due t wm).*2).
Proof.
  unfold getExpiredTimers, due, due_times.
  assert (Hts : ∀ (m : list (Z * gmap field unit)) l, foldl (λ l x, if (x.1 <=? wm)%Z then l ++ [x.1] else l) l m =
    l ++ filter (λ ts, (ts ≤ wm)%Z) m.*1).
  { induction m as [|x m IH]; intros l; simpl; [by rewrite app_nil_r|]. rewrite IH. rewrite filter_cons.
    destruct (Z.leb_spec x.1 wm); case_decide; try lia; [|done]. by rewrite <-app_assoc. }
  rewrite Hts, app_nil_l. generalize (merge_sort Z.le (filter (λ ts, (ts ≤ wm)%Z) (go_range (ActiveTimers t)).*1)). intros tss.
  assert (Hin : ∀ ts (l : list (field * unit)) (st : list field * list Z), foldl (λ st y, (st.1 ++ [y.1], st.2 ++ [ts])) st l =
    (st.1 ++ (at_time ts l).*1, st.2 ++ (at_time ts l).*2)).
  { intros ts. induction l as [|y l IH]; intros [a b]; [by rewrite !app_nil_r|].
    cbn [foldl]. by rewrite IH; simpl; rewrite <-!app_assoc. }
  assert (Hout : ∀ st : list field * list Z,
    foldl (λ st ts, foldl (λ st y, (st.1 ++ [y.1], st.2 ++ [ts])) st (go_range (default ∅ (ActiveTimers t !! ts)))) st tss =
    (st.1 ++ (tss ≫= λ ts, at_time ts (go_range (default ∅ (ActiveTimers t !! ts)))).*1,
     st.2 ++ (tss ≫= λ ts, at_time ts (go_range (default ∅ (ActiveTimers t !! ts)))).*2)); [|apply Hout].
  induction tss as [|ts tss IH]; intros [a b]; cbn [foldl]; [by rewrite !app_nil_r|].
  by rewrite Hin, IH, bind_cons, !fmap_app; simpl; rewrite <-!app_assoc.
Qed.

Lemma elem_of_due_times t wm ts : ts ∈ due_times t wm ↔ is_Some (ActiveTimers t !! ts) ∧ (ts ≤ wm)%Z.
Proof.
  unfold due_times. rewrite merge_sort_Permutation, list_elem_of_filter, list_elem_of_fmap. split.
  - intros [Hle ([ts' m] & -> & Hin%elem_of_go_range)]. split; [by exists m|done].
  - intros [[m Hm] Hle]. split; [done|]. exists (ts, m). split; [done|]. by apply elem_of_go_range.
Qed.

Lemma NoDup_due_times t wm : NoDup (due_times t wm).
Proof. unfold due_times. rewrite merge_sort_Permutation. apply NoDup_filter, NoDup_go_range. Qed.

Lemma elem_of_due t wm p : p ∈ due t wm ↔ is_Some (at_window (ActiveTimers t) p) ∧ (p.2 ≤ wm)%Z.
Proof.
  destruct p as [k ts]. unfold due, at_window. rewrite list_elem_of_bind. cbn [fst snd]. split.
  - intros (ts' & ([k' []] & [= -> ->] & Hk%elem_of_go_range)%list_elem_of_fmap & [[m Hm] Hle]%elem_of_due_times).
    rewrite Hm in *. simpl in *. by rewrite Hk.
  - intros [[[] (m & Hm & Hk)%bind_Some] Hle]. exists ts. split; [|apply elem_of_due_times; by rewrite Hm].
    rewrite Hm. apply list_elem_of_fmap. exists (k, tt). split; [done|]. by apply elem_of_go_range.
Qed.

Lemma NoDup_due t wm : NoDup (due t wm).
Proof.
  apply NoDup_bind; [|intros ts _|apply NoDup_due_times].
  - intros ts ts' p _ _ (? & -> & _)%list_elem_of_fmap (? & [= ? ?] & _)%list_elem_of_fmap. congruence.
  - unfold at_time. change (λ y : field * unit, (y.1, ts)) with ((λ k : field, (k, ts)) ∘ @fst field unit). rewrite list_fmap_compose.
    apply NoDup_fmap_2; [by intros ?? [= ->]|]. apply NoDup_go_range.
Qed.

(** Timers fire in the order of their times. *)
Lemma due_sorted t wm : StronglySorted (λ x y, (x.2 ≤ y.2)%Z) (due t wm).
Proof.
  unfold due. assert (Hs : StronglySorted Z.le (due_times t wm)) by (apply StronglySorted_merge_sort; apply _).
  induction Hs as [|ts tss Hs IH Hle]; [constructor|]. rewrite bind_cons. apply StronglySorted_app. split_and!; [|  |done].
  - intros x y (? & -> & _)%list_elem_of_fmap (ts' & (? & -> & _)%list_elem_of_fmap & Hin)%list_elem_of_bind.
    rewrite Forall_forall in Hle. by apply Hle.
  - generalize (go_range (default ∅ (ActiveTimers t !! ts))). intros l. induction l as [|y l IHl]; [constructor|].
    constructor; [done|]. apply Forall_forall. by intros x (? & -> & _)%list_elem_of_fmap.
Qed.
End Timers.

(** ** The specification: a set of timers *)

(** The tuples by key and state, what was emitted and the active timers. *)
Abbreviation wj_state := (gmap (field * Z) (list Tuple) * (Collector * gset (field * Z)))%type (only parsing).

Definition spec_act_record (key : Tuple → field) (st : Collector * gset (field * Z)) (record : Tuple) (e : list Z * list Tuple)
    : Collector * gset (field * Z) :=
  (emit_all st.1 (timestamp record) e.2, list_to_set (pair (key record) <$> e.1) ∪ st.2).

Definition spec_act_timer (st : Collector * gset (field * Z)) (x : field * Z) (outs : list Tuple) : Collector * gset (field * Z) :=
  (emit_all st.1 x.2 outs, st.2 ∖ {[x]}).

(** A batch of one of the upstreams (the first for [true]), or a watermark. *)
Inductive wj_event :=
  | WBatch (b : bool) (records : list Tuple)
  | WWatermark (wm : Z).

Section Spec.
Context {S : Type} (w : CustomWindowJoin S).

Definition wj_decls : list StateDecl := [wj_State1 w; wj_State2 w].
Definition wj_key (b : bool) : Tuple → field := if b then wj_KeyAssigner1 w else wj_KeyAssigner2 w.
Definition wj_F (b : bool) := if b then wj_F1 w else wj_F2 w.

(** A watermark fires exactly the timers that are due, earlier ones first, each
    on the states the one before left. *)
Inductive wj_spec_step : wj_state → wj_event → wj_state → Prop :=
  | spec_wj_batch st b records :
      wj_spec_step st (WBatch b records)
        (spec_batch wj_decls (wj_key b) (two_states (wj_F b)) (spec_act_record (wj_key b)) st records)
  | spec_wj_watermark st wm L :
      NoDup L → StronglySorted (λ x y, (x.2 ≤ y.2)%Z) L → (∀ p, p ∈ L ↔ p ∈ st.2.2 ∧ (p.2 ≤ wm)%Z) →
      wj_spec_step st (WWatermark wm) (spec_batch wj_decls fst (on_timer (wj_OnTimer w)) spec_act_timer st L).

Inductive wj_spec_run : wj_state → list wj_event → wj_state → Prop :=
  | spec_run_nil st : wj_spec_run st [] st
  | spec_run_cons st ev st1 evs st2 : wj_spec_step st ev st1 → wj_spec_run st1 evs st2 → wj_spec_run st (ev :: evs) st2.
End Spec.

Section Refinement.
Context `{MusLaws} `{GoRange} {S : Type} `{ServiceLaws S}.
Implicit Types w : CustomWindowJoin S.

Definition wj_step w (ev : wj_event) : res (CustomWindowJoin S) :=
  match ev with
  | WBatch b records => wj_ProcessBatch w (BatchUnit records) (if b then wj_UpstreamName1 w else wj_UpstreamName2 w)
  | WWatermark wm => wj_ProcessProgressedWatermark w wm
  end.

Definition timers_are (t : Timer) (A : gset (field * Z)) : Prop := ∀ p, is_Some (at_window (ActiveTimers t) p) ↔ p ∈ A.

Record wj_refines w (st : wj_state) : Prop := {
  wr_store : keyed_store (wj_decls w) (wj_StateClient w) st.1;
  wr_collector : wj_Collector w = st.2.1;
  wr_timers : timers_are (wj_Timer w) st.2.2;
  wr_keys : ∀ p, p ∈ st.2.2 → slot_for (wj_StateClient w) (kslot p.1)
}.

(** The user functions keep the states well typed; keys are of the client's
    kind. *)
Record wj_ok w : Prop := {
  wo_names : wj_UpstreamName1 w ≠ wj_UpstreamName2 w;
  wo_timer : ∀ x, udf_ok (wj_decls w) (on_timer (wj_OnTimer w)) x
}.

Definition wj_input w (ev : wj_event) : Prop :=
  match ev with
  | WBatch b records => records ≠ [] ∧
      Forall (λ r, slot_for (wj_StateClient w) (kslot (wj_key w b r)) ∧ udf_ok (wj_decls w) (two_states (wj_F w b)) r) records
  | WWatermark _ => True
  end.

Lemma register_timers t A key tss : timers_are t A →
  timers_are (foldl RegisterTimer (setCurrentKey t key) tss) (list_to_set (pair key <$> tss) ∪ A).
Proof.
  intros Ht. assert (Hg : timers_are (setCurrentKey t key) A) by done.
  change key with (currentKey (setCurrentKey t key)) at 2. revert Hg. generalize (setCurrentKey t key). clear t Ht. intros t.
  revert t A. induction tss as [|ts tss IH]; intros t A Ht; cbn [foldl].
  { intros p. rewrite (Ht p). set_solver. }
  assert (Ht1 : timers_are (RegisterTimer t ts) ({[(currentKey t, ts)]} ∪ A)).
  { intros q. change (ActiveTimers (RegisterTimer t ts)) with (tw_Add (ActiveTimers t) (currentKey t) ts). rewrite tw_Add_at.
    case_decide as Hq; [subst; split; [set_solver|by eexists]|]. rewrite (Ht q). set_solver. }
  intros p. rewrite (IH _ _ Ht1 p). set_solver.
Qed.

Lemma remove_timer t A x : timers_are t A → timers_are (timer_remove t x.1 x.2) (A ∖ {[x]}).
Proof.
  intros Ht p. change (ActiveTimers (timer_remove t x.1 x.2)) with (index_Remove (ActiveTimers t) x.1 x.2). rewrite index_Remove_at.
  destruct x as [k ts]. case_decide as Hp; [subst; split; [by intros []|set_solver]|]. rewrite (Ht p). set_solver.
Qed.

(** What the code keeps of a collector and the timers, against the set. *)
Definition tracked_timers (sc : StateClient S) (t : Collector * Timer) (t' : Collector * gset (field * Z)) : Prop :=
  t.1 = t'.1 ∧ timers_are t.2 t'.2 ∧ ∀ p, p ∈ t'.2 → slot_for sc (kslot p.1).

Lemma tracked_record sc key t t' r e :
  slot_for sc (kslot (key r)) → tracked_timers sc t t' → tracked_timers sc (act_record key t r e) (spec_act_record key t' r e).
Proof.
  intros Hk (Hc & Ht & Hs). unfold act_record, spec_act_record. split_and!; simpl; [by rewrite Hc|by apply register_timers|].
  intros p [(ts & -> & _)%elem_of_list_to_set%list_elem_of_fmap|Hp]%elem_of_union; [done|by apply Hs].
Qed.

Lemma tracked_timer sc t t' x outs : tracked_timers sc t t' → tracked_timers sc (act_timer t x outs) (spec_act_timer t' x outs).
Proof.
  intros (Hc & Ht & Hs). unfold act_timer, spec_act_timer. split_and!; simpl; [by rewrite Hc|by apply remove_timer|].
  intros p Hp. apply Hs. set_solver.
Qed.

(** A cycle on the records of a batch or on the expired timers. *)
Lemma wj_process {X E} w st (key : X → field) (udf : X → list (list Tuple) → list (nat * state_op) * E) act spec_act xs :
  wj_refines w st → xs ≠ [] → Forall (λ x, slot_for (wj_StateClient w) (kslot (key x)) ∧ udf_ok (wj_decls w) udf x) xs →
  (∀ t t' x e, x ∈ xs → tracked_timers (wj_StateClient w) t t' → tracked_timers (wj_StateClient w) (act t x e) (spec_act t' x e)) →
  ∃ sc' t', process (wj_decls w) key udf act (wj_StateClient w) (wj_Collector w, wj_Timer w) xs = Ok (sc', t') ∧
    same_conf (wj_StateClient w) sc' ∧ wj_refines (wj_with w sc' t') (spec_batch (wj_decls w) key udf spec_act st xs).
Proof.
  intros [Hs Hc Ht Hk] Hne Hxs Hact. destruct st as [Σ [c A]]. cbn [fst snd] in *.
  destruct (process_Ok (wj_decls w) key udf act (wj_StateClient w) Σ (wj_Collector w, wj_Timer w) xs Hs Hne Hxs) as (sc' & Hrun & Hs' & Hconf).
  destruct (spec_batch_rel (wj_decls w) key udf act spec_act (tracked_timers (wj_StateClient w)) Σ (wj_Collector w, wj_Timer w) (c, A) xs)
    as (HΣ & Hc' & Ht' & Hk'); [done|done|].
  eexists sc', _. split; [exact Hrun|]. split; [done|].
  split; [by rewrite <-HΣ|done|done|]. intros p Hp. apply (same_conf_slot _ _ _ Hconf). by apply Hk'.
Qed.

Lemma wj_step_Ok w st ev :
  wj_ok w → wj_refines w st → wj_input w ev →
  ∃ w' st', wj_step w ev = Ok w' ∧ wj_spec_step w st ev st' ∧ wj_refines w' st' ∧
    ∃ sc' t', w' = wj_with w sc' t' ∧ same_conf (wj_StateClient w) sc'.
Proof.
  intros Hok Hr. destruct ev as [b rs|wm]; cbn [wj_step wj_input].
  - intros [Hne Hrs].
    destruct (wj_process w st (wj_key w b) (two_states (wj_F w b)) (act_record (wj_key w b)) (spec_act_record (wj_key w b)) rs)
      as (sc' & t' & Hrun & Hconf & Hr'); [done..| |].
    { intros t t' r e Hin. rewrite Forall_forall in Hrs. apply tracked_record. by apply Hrs. }
    assert (Hcode : wj_ProcessBatch w (BatchUnit rs) (if b then wj_UpstreamName1 w else wj_UpstreamName2 w) = Ok (wj_with w sc' t')).
    { unfold wj_ProcessBatch, processBatchCustomWindowJoin. cbn [join_batch]. fold (wj_decls w). destruct b.
      - rewrite decide_True by done. rewrite bind_Ok. unfold wj_key, wj_F in Hrun. by rewrite Hrun.
      - rewrite decide_False by (intros Heq; by apply (wo_names _ Hok)). rewrite decide_True by done.
        rewrite bind_Ok. unfold wj_key, wj_F in Hrun. by rewrite Hrun. }
    eexists _, _. split; [exact Hcode|]. split; [constructor|]. split; [done|]. eauto.
  - intros _. unfold wj_ProcessProgressedWatermark. rewrite getExpiredTimers_due, zip_fst_snd.
    assert (Hdue : wj_spec_step w st (WWatermark wm)
      (spec_batch (wj_decls w) fst (on_timer (wj_OnTimer w)) spec_act_timer st (due (wj_Timer w) wm))).
    { constructor; [apply NoDup_due|apply due_sorted|]. intros p. by rewrite elem_of_due, (wr_timers _ _ Hr p). }
    destruct (Nat.eqb_spec (length (due (wj_Timer w) wm).*1) 0) as [Hz|Hz].
    + exists w, st. split; [done|]. split; [|split; [done|]].
      * rewrite length_fmap in Hz. apply nil_length_inv in Hz. rewrite Hz in Hdue. destruct st as [Σ [c A]].
        unfold spec_batch in Hdue. cbn in Hdue. by rewrite map_filter_id in Hdue by set_solver.
      * exists (wj_StateClient w), (wj_Collector w, wj_Timer w). by destruct w.
    + destruct (wj_process w st fst (on_timer (wj_OnTimer w)) act_timer spec_act_timer (due (wj_Timer w) wm))
        as (sc' & t' & Hrun & Hconf & Hr'); [done|by destruct (due _ _)| | |].
      * apply Forall_forall. intros p [Hp _]%elem_of_due. split; [|apply Hok]. apply (wr_keys _ _ Hr). by apply (wr_timers _ _ Hr).
      * intros t t' x e _. apply tracked_timer.
      * fold (wj_decls w). rewrite Hrun, bind_Ok. eexists _, _. split; [done|]. split; [exact Hdue|]. split; [done|]. eauto.
Qed.

(** C16: the custom window join refines a join with a set of timers.  On any
    sequence of batches of the two streams and watermarks the operator succeeds
    and does what the specification does: every record reads the states of its
    key as the batch left them and may change both, emit records with its time
    and register timers for its key; a watermark calls the timer function
    exactly once for every registered timer that is due and for no other, in the
    order of the timers' times, with the states of the timer's key, and drops
    these timers. *)
Theorem custom_join_refines w st evs (Hok : wj_ok w) (Hr : wj_refines w st) (Hin : Forall (wj_input w) evs) :
  ∃ w' st', foldM wj_step w evs = Ok w' ∧ wj_spec_run w st evs st' ∧ wj_refines w' st'.
Proof.
  revert w st Hok Hr Hin. induction evs as [|ev evs IH]; intros w st Hok Hr Hin; cbn [foldM].
  { exists w, st. split; [done|]. split; [constructor|done]. }
  apply Forall_cons in Hin as [Hev Hin].
  destruct (wj_step_Ok w st ev Hok Hr Hev) as (w1 & st1 & -> & Hstep & Hr1 & sc' & t' & -> & Hconf). rewrite bind_Ok.
  destruct (IH (wj_with w sc' t') st1) as (w' & st' & Hrun & Hspec & Hr'); [by destruct Hok|done| |].
  { eapply Forall_impl; [exact Hin|]. intros [b rs|] He; [|done]. destruct He as [Hne He]. split; [done|].
    eapply Forall_impl; [exact He|]. intros r [Hk Hu]. split; [by apply (same_conf_slot _ _ _ Hconf)|done]. }
  exists w', st'. split; [done|]. split; [|done]. econstructor; [done|].
  clear -Hspec. induction Hspec as [|? ? ? ? ? Hs ? IH]; [constructor|]. econstructor; [|done].
  destruct Hs; [apply (spec_wj_batch w)|by apply (spec_wj_watermark w)].
Qed.
End Refinement.

(** ** Timers that move *)

Lemma add_timers_index `{GoRange} t received : ActiveTimers (add_timers t received) = tw_insert (ActiveTimers t) received.
Proof.
  unfold add_timers, tw_insert, insert_windows. generalize (go_range received). intros l. revert t.
  induction l as [|x l IH]; intros t; [done|]. cbn [foldl]. rewrite IH. f_equal. generalize (go_range x.2). clear. intros l.
  revert t. induction l as [|y l IH]; intros t; [done|]. cbn [foldl]. by rewrite IH.
Qed.

(** The timers of a custom window join when its keys change owners.  At the
    start of fast forwarding the operator keeps exactly the timers of keys that
    stay, and every worker that now owns keys with timers is sent exactly these:
    after it has processed the metadata its timers are its own and those. *)
Theorem timers_forwarded `{MusLaws, RawMusLaws, !GoRange, GoJsonLaws bool} {S : Type} (cfg : CollectorConfig) (WorkerId : Z)
    (table : PartitionTable) (w : CustomWindowJoin S) (A : gset (field * Z))
    (He : EncodeFuncFromKind (wj_kind w) = Ok (kb_keyEncoder cfg)) (Hsz : TupleSizeFuncFromKind (wj_kind w) = Ok (kb_keySizer cfg))
    (Ht : Buckets table ≠ []) (Hk : json_key_kind (wj_kind w) = true) (Hj : json_index (wj_kind w) (ActiveTimers (wj_Timer w)))
    (HA : timers_are (wj_Timer w) A) :
  ∃ w' metas, wj_ConstructFastForwardMetadata cfg WorkerId w (Some table) = Ok (w', Some metas) ∧
    timers_are (wj_Timer w') (filter (λ p, key_owner table p.1 = WorkerId) A) ∧
    (∀ dest, is_Some (metas !! dest) ↔ dest ≠ WorkerId ∧ ∃ p, p ∈ A ∧ key_owner table p.1 = dest) ∧
    ∀ dest meta (peer : CustomWindowJoin S) B, metas !! dest = Some meta → wj_kind peer = wj_kind w → timers_are (wj_Timer peer) B →
      ∃ peer', wj_ProcessFastForwardMetadata peer (drop 6 meta) = Ok peer' ∧
        timers_are (wj_Timer peer') (filter (λ p, key_owner table p.1 = dest) A ∪ B).
Proof.
  set (index := ActiveTimers (wj_Timer w)) in *.
  destruct (forward_Ok (GetOwnerWorkerUponReconfig cfg (Some table)) (key_owner table) (elsewhere WorkerId) put_key (λ _, true)
    (wj_kind w) Hk index) as (m & index' & metas & Hscan & Hser & Hix & _ & Hdom & Hrecv); [|done|done|].
  { intros p a Hp. apply (key_owner_Ok cfg (wj_kind w)); [done..|]. by apply Hj. }
  unfold wj_ConstructFastForwardMetadata. fold index. rewrite Hscan, bind_Ok, Hser, bind_Ok. eexists _, metas. split; [done|].
  assert (Hdest : ∀ dest, is_Some (metas !! dest) ↔ dest ≠ WorkerId ∧ ∃ p, p ∈ A ∧ key_owner table p.1 = dest).
  { intros dest. rewrite Hdom. setoid_rewrite elsewhere_Some. split; [intros (p & Hp%HA & <- & ?)|intros (? & p & Hp%HA & <-)]; eauto 6. }
  split_and!; [|done|].
  - intros p. simpl. rewrite Hix, elem_of_filter, <-(HA p). unfold elsewhere. destruct (Z.eqb_spec (key_owner table p.1) WorkerId).
    + naive_solver.
    + split; [by intros []|naive_solver].
  - intros dest meta peer B Hm Hkp HB. destruct (Hrecv dest meta Hm) as (received & Hun & Hcar).
    unfold wj_ProcessFastForwardMetadata, received_index. rewrite Hkp, Hun, bind_Ok. eexists. split; [done|]. intros p. simpl.
    rewrite add_timers_index, (tw_receive _ _ _ _ _ _ _ Hcar), elem_of_union, elem_of_filter, <-(HB p), <-(HA p).
    assert (dest ≠ WorkerId) as Hw by (apply Hdest; by rewrite Hm). fold index.
    case_decide as Hd; rewrite elsewhere_Some in Hd; [split; [naive_solver|by eexists]|naive_solver congruence].
Qed.

(** ** Examples

    A record of the first stream is kept until ten time units later; then what
    was kept for its key is emitted and dropped. *)

Definition keep_F (r : Tuple) (l1 l2 : list Tuple) : list (nat * state_op) * (list Z * list Tuple) :=
  ([(0, OAdd r)], ([(timestamp r + 10)%Z], [])).
Definition pass_F (r : Tuple) (l1 l2 : list Tuple) : list (nat * state_op) * (list Z * list Tuple) := ([], ([], l1)).
Definition drop_T (ts : Z) (l1 l2 : list Tuple) : list (nat * state_op) * list Tuple := ([(0, OClear)], l1).

Definition demo_wj (sc : StateClient (LocalService MemoryStateBackend)) : CustomWindowJoin (LocalService MemoryStateBackend) :=
  MkWindowJoin sc "a" WindowStore.demo_key "b" WindowStore.demo_key demo_list1 demo_list2 (NewTimer (FNum KInt64 0)) keep_F pass_F drop_T (MkCollector (-1) []).

Definition demo_wj_events : list wj_event :=
  [WBatch true [demo_record 7 1 10; demo_record 7 2 11]; WBatch false [demo_record 7 0 12]; WWatermark 20; WWatermark 30].

Lemma custom_join_refines_witness :
  ∃ (w w' : CustomWindowJoin (LocalService MemoryStateBackend)) st',
    foldM wj_step w demo_wj_events = Ok w' ∧ wj_spec_run w (∅, (MkCollector (-1) [], ∅)) demo_wj_events st' ∧ wj_refines w' st'.
Proof.
  destruct (demo_keyed [demo_list1; demo_list2]) as (sc & Hs & Hk);
    [done|by intros [|[|[]]] d [= <-]|simpl; lia|by repeat constructor|].
  destruct (custom_join_refines (demo_wj sc) (∅, (MkCollector (-1) [], ∅)) demo_wj_events) as (w' & st' & Hrun & Hspec & Hr).
  - split; [discriminate|]. intros x vs _. apply Forall_singleton. by exists demo_list1.
  - split; [exact Hs|reflexivity| |set_solver]. intros p. split; [by intros []|set_solver].
  - assert (Ht : ∀ k v ts, is_i64 k → is_i64 v → is_i64 ts → udf_ok [demo_list1; demo_list2] (two_states keep_F) (demo_record k v ts)).
    { intros k v ts ? ? ? vs _. apply Forall_singleton. exists demo_list1. split; [done|]. by apply demo_record_typed. }
    unfold demo_wj_events. rewrite !Forall_cons. split_and!; try done; (split; [discriminate|]); rewrite !Forall_cons; split_and!;
      try (by eapply demo_slot); try (apply Ht; unfold is_i64; lia); try done. intros vs _. by apply Forall_nil.
  - exists (demo_wj sc), w', st'. split; [exact Hrun|]. split; [exact Hspec|exact Hr].
Defined.

Definition demo_timers : CustomWindowJoin (LocalService MemoryStateBackend) :=
  wj_with (demo_wj demo_client) demo_client (MkCollector (-1) [], MkTimer key0 {[ 5%Z := {[ key0 := tt; key1 := tt ]} ]}).

Lemma demo_timers_are : timers_are (wj_Timer demo_timers) {[ (key0, 5%Z); (key1, 5%Z) ]}.
Proof.
  intros [k t]. unfold at_window. simpl. split.
  - intros [u (ws & [<- <-]%lookup_singleton_Some & Hk)%bind_Some].
    apply lookup_insert_Some in Hk as [[<- _]|[_ [<- _]%lookup_singleton_Some]]; set_solver.
  - intros [[= -> ->]%elem_of_singleton|[= -> ->]%elem_of_singleton]%elem_of_union; vm_compute; by eexists.
Qed.

Lemma timers_forwarded_witness :
  ∃ w' metas meta peer', wj_ConstructFastForwardMetadata demo_cfg 1 demo_timers (Some (MkTable demo_hash [1; 2]%Z)) = Ok (w', Some metas) ∧
    at_window (ActiveTimers (wj_Timer w')) (key1, 5%Z) = None ∧ metas !! 2%Z = Some meta ∧
    wj_ProcessFastForwardMetadata (demo_wj demo_client) (drop 6 meta) = Ok peer' ∧
    is_Some (at_window (ActiveTimers (wj_Timer peer')) (key1, 5%Z)).
Proof.
  assert (wj_kind demo_timers = KInt64) as Hk by (vm_compute; reflexivity).
  assert (key_owner (MkTable demo_hash [1; 2]%Z) key1 = 2%Z) as Ho by (vm_compute; reflexivity).
  destruct (timers_forwarded demo_cfg 1 (MkTable demo_hash [1; 2]%Z) demo_timers {[ (key0, 5%Z); (key1, 5%Z) ]})
    as (w' & metas & Hrun & Hix & Hdom & Hpeer).
  - rewrite Hk. reflexivity.
  - rewrite Hk. reflexivity.
  - discriminate.
  - rewrite Hk. reflexivity.
  - rewrite Hk. intros p Hp%demo_timers_are. apply elem_of_union in Hp as [->%elem_of_singleton| ->%elem_of_singleton]; vm_compute; by repeat split.
  - exact demo_timers_are.
  - destruct (proj2 (Hdom 2%Z)) as [meta Hm].
    { split; [discriminate|]. exists (key1, 5%Z). split; [set_solver|exact Ho]. }
    destruct (Hpeer 2%Z meta (demo_wj demo_client) ∅ Hm) as (peer' & Hp & Hat); [vm_compute; reflexivity| |].
    { intros p. split; [by intros []|set_solver]. }
    exists w', metas, meta, peer'. split_and!; [exact Hrun| |exact Hm|exact Hp|].
    + destruct (at_window _ (key1, 5%Z)) as [[]|] eqn:E; [|reflexivity]. exfalso.
      assert (Hin : (key1, 5%Z) ∈ filter (λ p, key_owner (MkTable demo_hash [1; 2]%Z) p.1 = 1%Z) ({[ (key0, 5%Z); (key1, 5%Z) ]} : gset (field * Z)))
        by (apply Hix; by rewrite E).
      apply elem_of_filter in Hin as [Hin _]. cbn [fst] in Hin. by rewrite Ho in Hin.
    + apply Hat, elem_of_union_l, elem_of_filter. split; [exact Ho|set_solver].
Defined.
