(* ===== verification/StopRestart.v ===== *)
(** * Stop-and-restart: state pulled between workers

    Under stop-and-restart the coordinator tells a worker from which workers it
    has to pull which buckets ([HandleStateMigration] of
    [worker/controlPlane.go], [worker/controlUtil.go]).  The asked workers
    answer with the records of these buckets ([PullStatePartition]) and with
    the metadata of their task, such as its open windows
    ([MigrateTaskMetadata] of [worker/stateCommRpcApi.go]). *)

From stdpp Require Import prelude gmap strings list.
From Stdlib Require Import ZArith Lia.
From S2P Require Import Prelude Partition PartitionTable Codec WorkUnit Coordinator StateType StateCache Backend StateService StateClient StateBatch.
From S2P Require Import Chunks Window WindowStore WindowIndex WindowRun TumblingWindow KeyMap Network Collector Task WindowMigration.

(** ** The worker

    [T] is the task; its state client shares the worker's state service, of
    which [sr_Backend] is the backend. *)
Record SrWorker (B T : Type) := MkSrWorker {
  sr_Backend : B;
  sr_OperatorID : Z;
  AssignedTask : option T;
  TaskInitMetadata : list bytes
}.
Arguments MkSrWorker {B T}.
Arguments sr_Backend {B T}.
Arguments sr_OperatorID {B T}.
Arguments AssignedTask {B T}.
Arguments TaskInitMetadata {B T}.

(** What a task implements of the operator interface for migration. *)
Record MetadataOps (T : Type) := MkMetadataOps {
  FetchMetadataForMigration : T → gset Z → res (T * bytes);
  InsertMigratedMetadata : T → bytes → res T
}.
Arguments MkMetadataOps {T}.
Arguments FetchMetadataForMigration {T}.
Arguments InsertMigratedMetadata {T}.

Section Migration.
Context `{StateBackendOps B} {T : Type} (ops : MetadataOps T).
(** Whether the backend is the in-memory or the Pebble one, and the
    configured chunk size. *)
Context (embedded : bool) (StateMigrationChunkSize : Z).
Implicit Types w : SrWorker B T.

Definition sr_with_backend w (b : B) : SrWorker B T := MkSrWorker b (sr_OperatorID w) (AssignedTask w) (TaskInitMetadata w).
Definition sr_with_task w (t : T) : SrWorker B T := MkSrWorker (sr_Backend w) (sr_OperatorID w) (Some t) (TaskInitMetadata w).

(** The server: one range of buckets after the other, then the end. *)
Definition send_range w (sender : StateChunkSender) (r : BucketRange) : res StateChunkSender :=
  '(resKeys, resValues) ← ReadLocalBucketRange (sr_Backend w) (sr_OperatorID w) (LowerBucketIdx r) (UpperBucketIdx r);
  chunk_Send sender resKeys resValues.

Definition PullStatePartition w (bucketRanges : list BucketRange) : res (list StateChunk) :=
  fatal_if (negb embedded) "Unsupported state service type for PullStatePartition()";;
  sender ← foldM (send_range w) (NewStateChunkSender StateMigrationChunkSize) bucketRanges;
  Ok (sent_chunks (chunk_Flush sender)).

Definition affected_buckets (bucketRanges : list BucketRange) : gset Z :=
  list_to_set (bucketRanges ≫= λ r, seqZ (LowerBucketIdx r) (UpperBucketIdx r - LowerBucketIdx r + 1)).

Definition MigrateTaskMetadata w (bucketRanges : list BucketRange) : res (SrWorker B T * bytes) :=
  match AssignedTask w with
  | None => Crash Panic
  | Some task =>
      '(task, metadata) ← FetchMetadataForMigration ops task (affected_buckets bucketRanges);
      Ok (sr_with_task w task, metadata)
  end.

(** The client: the chunks are written to the local backend. *)
Definition applyStateMigration w (stream : list StateChunk) : res (SrWorker B T) :=
  '(b, _) ← receive_loop (λ chunk,
    fatal_if (negb (length (Keys chunk) =? length (Values chunk)) || (length (Keys chunk) =? 0)) "Invalid state chunk")
    (sr_Backend w) stream;
  Ok (sr_with_backend w b).

(** Metadata is kept for later if the worker has no task yet. *)
Definition take_metadata w (metadata : bytes) : res (SrWorker B T) :=
  if 0 <? length metadata then
    match AssignedTask w with
    | None => Ok (MkSrWorker (sr_Backend w) (sr_OperatorID w) None (TaskInitMetadata w ++ [metadata]))
    | Some task => task ← InsertMigratedMetadata ops task metadata; Ok (sr_with_task w task)
    end
  else Ok w.

(** The other workers by the address of their state service. *)
Definition requestMigration (st : gmap string (SrWorker B T) * SrWorker B T) (migrationInfo : MigrationInfo)
    : res (gmap string (SrWorker B T) * SrWorker B T) :=
  let '(peers, w) := st in
  match peers !! TargetWorkerAddr migrationInfo with
  | None => Crash (Fatal "Failed to migrate in-memory task metadata from the remote worker")
  | Some peer =>
      '(peer, metadata) ← MigrateTaskMetadata peer (mi_BucketRanges migrationInfo);
      w ← take_metadata w metadata;
      w ← (if embedded then
             stream ← PullStatePartition peer (mi_BucketRanges migrationInfo);
             applyStateMigration w stream
           else Ok w);
      Ok (<[TargetWorkerAddr migrationInfo := peer]> peers, w)
  end.

(** The handler, with its acknowledgement. *)
Definition HandleStateMigration (peers : gmap string (SrWorker B T)) w (migrationInfoList : list MigrationInfo)
    : res (gmap string (SrWorker B T) * SrWorker B T * string) :=
  fatal_if (length migrationInfoList =? 0) "Invalid state migration info list";;
  '(peers, w) ← foldM requestMigration (peers, w) migrationInfoList;
  Ok (peers, w, "State migration done"%string).

(** The end of [HandleTaskAssignment]: a new task takes the metadata that was
    kept for it. *)
Definition load_metadata w (task : T) : res (SrWorker B T) :=
  task ← foldM (InsertMigratedMetadata ops) task (TaskInitMetadata w);
  Ok (sr_with_task w task).
End Migration.

Definition tumbling_metadata `{Mus, !GoRange, GoJson bool} {S : Type} : MetadataOps (TumblingWindow S) :=
  MkMetadataOps tw_FetchMetadataForMigration tw_InsertMigratedMetadata.

(** ** What a pull leaves

    [new] is [old] with the entries that the sources have for the affected
    keys. *)
Definition taken {K V} (affects : MigrationInfo → K → Prop) (source : MigrationInfo → K → option V)
    (infos : list MigrationInfo) (old new : K → option V) : Prop :=
  (∀ info k, info ∈ infos → affects info k → new k = match source info k with Some v => Some v | None => old k end) ∧
  (∀ k, (∀ info, info ∈ infos → ¬ affects info k) → new k = old k).

Lemma taken_nil {K V} (affects : MigrationInfo → K → Prop) source (old : K → option V) : taken affects source [] old old.
Proof. split; [|done]. by intros info k ?%elem_of_nil. Qed.

Lemma taken_snoc {K V} (affects : MigrationInfo → K → Prop) source infos info (old mid new : K → option V) :
  (∀ info' k, info' ∈ infos → affects info k → ¬ affects info' k) →
  taken affects source infos old mid → taken affects source [info] mid new → taken affects source (infos ++ [info]) old new.
Proof.
  intros Hdis [Hin Hout] [Hin1 Hout1]. split.
  - intros info' k [Hi| ->%list_elem_of_singleton]%elem_of_app Ha.
    + rewrite Hout1 by (intros i ->%list_elem_of_singleton Hai; by apply (Hdis info' k)). by apply Hin.
    + rewrite (Hin1 info k) by (done || by left). by rewrite (Hout k) by (intros i Hi; by apply Hdis).
  - intros k Hk. rewrite Hout1, Hout; [done|..]; intros i Hi; apply Hk; set_solver.
Qed.

(** ** Records *)

Lemma write_pairs_lookup (src d : store) l k :
  (∀ k v, (k, v) ∈ l → src !! k = Some v) →
  foldl write_pair d l !! k = if decide (k ∈ l.*1) then src !! k else d !! k.
Proof.
  revert d. induction l as [|[k0 v0] l IH]; intros d Hl; [done|]. cbn [foldl]. rewrite IH by (intros; apply Hl; by right).
  rewrite fmap_cons. cbn [fst]. destruct (decide (k ∈ l.*1)) as [Hk|Hk]; [by rewrite decide_True by by right|].
  unfold write_pair. cbn [fst snd]. destruct (decide (k = k0)) as [->|Hne].
  - rewrite lookup_insert_eq, decide_True by by left. symmetry. apply Hl. by left.
  - by rewrite lookup_insert_ne, decide_False by (done || set_solver).
Qed.

Lemma elem_of_affected ranges b : b ∈ affected_buckets ranges ↔ ∃ r, r ∈ ranges ∧ (LowerBucketIdx r ≤ b ≤ UpperBucketIdx r)%Z.
Proof.
  unfold affected_buckets. rewrite elem_of_list_to_set, list_elem_of_bind. setoid_rewrite elem_of_seqZ.
  split; intros (r & ?); exists r; (split; [tauto|lia]) || (split; [lia|tauto]).
Qed.

Section Pull.
Context `{RangeQueryLaws B} {T : Type}.
Context (op n limit : Z) (Hn : (n < 2 ^ 32)%Z) (Hlimit : (0 ≤ limit < 2 ^ 62)%Z).

(** A worker with records of the operator, each of which fits a chunk. *)
Record source_ok (w : SrWorker B T) : Prop := {
  so_backend : backend_ok (sr_Backend w);
  so_operator : sr_OperatorID w = op;
  so_keys : ∀ k v, data_of (sr_Backend w) !! k = Some v → (∃ b, key_at op n k b) ∧ (0 < record_size (k, v) ≤ limit)%Z
}.

Definition ranges_ok (ranges : list BucketRange) : Prop :=
  Forall (λ r, 0 ≤ LowerBucketIdx r ∧ LowerBucketIdx r ≤ UpperBucketIdx r ∧ UpperBucketIdx r < n)%Z ranges.

Definition affected_key (info : MigrationInfo) (k : bytes) : Prop :=
  ∃ b, key_at op n k b ∧ b ∈ affected_buckets (mi_BucketRanges info).

Lemma key_at_unique k b b' : key_at op n k b → key_at op n k b' → b = b'.
Proof.
  intros [Hb [rest ->]] [Hb' [rest' Heq]]. apply app_inv_head in Heq. apply app_inj_1 in Heq as [Heq _]; [|by rewrite !length_be_encode].
  apply (f_equal be_decode) in Heq. by rewrite !be_decode_encode32 in Heq by (unfold is_u32; lia).
Qed.

(** The reads of a request. *)
Lemma ranges_read w ranges : source_ok w → ranges_ok ranges →
  ∃ reads, Forall2 (λ r x, ReadLocalBucketRange (sr_Backend w) op (LowerBucketIdx r) (UpperBucketIdx r) = Ok x) ranges reads ∧
    Forall (λ x, length x.1 = length x.2) reads ∧
    ∀ k v, (k, v) ∈ (reads ≫= λ x, zip x.1 x.2) ↔
      data_of (sr_Backend w) !! k = Some v ∧ ∃ b, key_at op n k b ∧ b ∈ affected_buckets ranges.
Proof.
  intros [Hb Hop Hk] Hr. setoid_rewrite elem_of_affected. induction Hr as [|r ranges (Hlo & Hle & Hhi) _ IH].
  { exists []. split_and!; [done..|]. intros k v. split; [by intros ?%elem_of_nil|]. intros (_ & b & _ & r & ?%elem_of_nil & _). done. }
  destruct IH as (reads & Hreads & Hlen & Hin).
  destruct (RangeQuery_law (sr_Backend w) (bucket_bound op (LowerBucketIdx r)) (bucket_bound op (UpperBucketIdx r + 1)) Hb)
    as (keys & values & Hq & Hl & _ & Hkv).
  exists ((keys, values) :: reads). split_and!; [by constructor|by constructor|]. intros k v.
  rewrite bind_cons, elem_of_app, Hin, Hkv. cbn [fst snd]. split.
  - intros [[Hd Hrange]|(Hd & b & Hkb & r' & Hr' & Hb')].
    + split; [done|]. destruct (Hk k v Hd) as [[b Hkb] _]. exists b. split; [done|]. exists r. split; [by left|].
      rewrite (in_range_buckets op n k b) in Hrange by done. lia.
    + split; [done|]. exists b. split; [done|]. exists r'. split; [by right|done].
  - intros (Hd & b & Hkb & r' & [->|Hr']%elem_of_cons & Hb').
    + left. split; [done|]. rewrite (in_range_buckets op n k b) by done. lia.
    + right. split; [done|]. exists b. split; [done|]. by exists r'.
Qed.

Lemma pull_Ok w ranges : source_ok w → ranges_ok ranges →
  ∃ chunks, PullStatePartition true limit w ranges = Ok (chunks ++ [MkChunk true [] []]) ∧ Forall (good_chunk limit) chunks ∧
    ∀ k v, (k, v) ∈ (chunks ≫= chunk_pairs) ↔ data_of (sr_Backend w) !! k = Some v ∧ ∃ b, key_at op n k b ∧ b ∈ affected_buckets ranges.
Proof.
  intros Hw Hr. destruct (ranges_read w ranges Hw Hr) as (reads & Hreads & Hlen & Hin).
  destruct (send_all_Ok limit (NewStateChunkSender limit) reads Hlimit) as (s' & chunks & Hrun & _ & Hsent & Hgood & Hl); [by repeat split|done| |].
  { apply Forall_forall. intros [k v] [Hd _]%Hin. by apply (so_keys w Hw). }
  exists chunks. rewrite <-Hl. split_and!; [|done|done]. unfold PullStatePartition. cbn [negb fatal_if]. rewrite bind_Ok.
  assert (foldM (send_range w) (NewStateChunkSender limit) ranges = Ok s') as ->; [|rewrite bind_Ok, Hsent; done].
  rewrite <-Hrun. generalize (NewStateChunkSender limit). clear -Hreads Hw. induction Hreads as [|r [ks vs] ranges reads Hx _ IH]; intros s; [done|].
  cbn [foldM fst snd]. assert (send_range w s r = chunk_Send s ks vs) as -> by (unfold send_range; by rewrite (so_operator w Hw), Hx).
  destruct (chunk_Send s ks vs); [apply IH|done].
Qed.

(** What a pull does to the puller. *)
Lemma apply_Ok me w info chunks : backend_ok (sr_Backend me) → Forall (good_chunk limit) chunks →
  (∀ k v, (k, v) ∈ (chunks ≫= chunk_pairs) ↔ data_of (sr_Backend w) !! k = Some v ∧ affected_key info k) →
  ∃ b', applyStateMigration (me : SrWorker B T) (chunks ++ [MkChunk true [] []]) = Ok (sr_with_backend me b') ∧ backend_ok b' ∧
    taken affected_key (λ _ k, data_of (sr_Backend (w : SrWorker B T)) !! k) [info] (λ k, data_of (sr_Backend me) !! k) (λ k, data_of b' !! k).
Proof.
  intros Hb Hgood Hin. unfold applyStateMigration.
  edestruct (receive_loop_Ok limit) as (b' & Hrecv & Hb' & Hd); [|exact Hb|exact Hgood|].
  2:{ rewrite Hrecv, bind_Ok. exists b'. split; [done|]. split; [done|].
      assert (Hl : ∀ k, data_of b' !! k = if decide (k ∈ (chunks ≫= chunk_pairs).*1) then data_of (sr_Backend w) !! k else data_of (sr_Backend me) !! k).
      { intros k. rewrite Hd. apply write_pairs_lookup. intros k' v Hkv. by apply Hin. }
      split.
      - intros info' k ->%list_elem_of_singleton Ha. rewrite Hl. destruct (data_of (sr_Backend w) !! k) as [v|] eqn:Ek.
        + rewrite decide_True; [done|]. apply list_elem_of_fmap. exists (k, v). split; [done|]. by apply Hin.
        + rewrite decide_False; [done|]. intros ([k' v] & -> & [Hv _]%Hin)%list_elem_of_fmap. simpl in Ek. congruence.
      - intros k Hk. rewrite Hl, decide_False; [done|]. intros ([k' v] & -> & [_ Ha]%Hin)%list_elem_of_fmap.
        by apply (Hk info (list_elem_of_here _ _)). }
  intros c (_ & Hlen & Hne & _). rewrite Hlen, Nat.eqb_refl. destruct (Keys c); [done|]. by rewrite <-Hlen.
Qed.
End Pull.

(** ** Windows and their state *)

Section Windows.
Context `{MusLaws, !GoRange, GoJsonLaws bool, RangeQueryLaws B} {S : Type}.
Context (op n limit : Z) (Hn : (n < 2 ^ 32)%Z) (Hlimit : (0 ≤ limit < 2 ^ 62)%Z).
(** The buckets of keys are the same for all tasks of the operator. *)
Context (kind : Kind) (Hkind : json_key_kind kind = true) (bucket : field → Z).

Abbreviation worker := (SrWorker B (TumblingWindow S)).

Definition index_at (w : worker) (p : field * Z) : option unit :=
  match AssignedTask w with Some tw => at_window (tw_Index tw) p | None => None end.

(** A worker whose tumbling windows can be asked for. *)
Record window_source (w : worker) : Prop := {
  wsrc_records : source_ok op n limit w;
  wsrc_task : ∃ tw, AssignedTask w = Some tw ∧ client_ok (wb_StateClient (tw_Base tw)) ∧ tw_kind tw = kind ∧
    json_index kind (tw_Index tw) ∧ ∀ key, bucket_of (wb_StateClient (tw_Base tw)) key = bucket key
}.

Definition affected_window (info : MigrationInfo) (p : field * Z) : Prop := bucket p.1 ∈ affected_buckets (mi_BucketRanges info).

#[export] Instance affected_window_dec info p : Decision (affected_window info p).
Proof. unfold affected_window. apply _. Defined.

Definition peer_record (peers : gmap string worker) (info : MigrationInfo) (k : bytes) : option bytes :=
  peers !! TargetWorkerAddr info ≫= λ w, data_of (sr_Backend w) !! k.
Definition peer_window (peers : gmap string worker) (info : MigrationInfo) (p : field * Z) : option unit :=
  peers !! TargetWorkerAddr info ≫= λ w, index_at w p.

(** The task of a worker; [tw0] is the one it is going to be given. *)
Definition task_of (w : worker) (tw0 : TumblingWindow S) : res (TumblingWindow S) :=
  match AssignedTask w with
  | Some tw => Ok tw
  | None => foldM tw_InsertMigratedMetadata tw0 (TaskInitMetadata w)
  end.

Lemma fetch_metadata_Ok w ranges : window_source w →
  ∃ tw tw' metadata, AssignedTask w = Some tw ∧ MigrateTaskMetadata tumbling_metadata w ranges = Ok (sr_with_task w tw', metadata) ∧ metadata ≠ [] ∧
    (∀ p, at_window (tw_Index tw') p = if decide (bucket p.1 ∈ affected_buckets ranges) then None else at_window (tw_Index tw) p) ∧
    ∀ other : TumblingWindow S, tw_kind other = kind → ∃ other', tw_InsertMigratedMetadata other metadata = Ok other' ∧ tw_kind other' = kind ∧
      ∀ p, at_window (tw_Index other') p =
        if decide (bucket p.1 ∈ affected_buckets ranges) then match at_window (tw_Index tw) p with Some u => Some u | None => at_window (tw_Index other) p end
        else at_window (tw_Index other) p.
Proof.
  intros [_ (tw & Htw & Hc & Hk & Hj & Hb)]. rewrite <-Hk in Hkind, Hj.
  destruct (tw_migrate_Ok tw (affected_buckets ranges) Hc Hkind Hj) as (tw' & metadata & Hf & Hne & _ & Hix & Hother).
  exists tw, tw', metadata. split; [done|]. split; [unfold MigrateTaskMetadata; rewrite Htw; simpl; by rewrite Hf|]. split; [done|]. split.
  - intros p. by rewrite Hix, Hb.
  - intros other Hko. rewrite <-Hk in Hko. destruct (Hother other Hko) as (other' & Hin & Hbase & Hat). exists other'. split; [done|].
    split; [unfold tw_kind; by rewrite Hbase, <-Hk|]. intros p. rewrite Hat, Hb. destruct (at_window (tw_Index tw) p) as [[]|]; repeat case_decide; naive_solver.
Qed.

Lemma take_Ok (me : worker) tw0 tw metadata tw' : task_of me tw0 = Ok tw → metadata ≠ [] → tw_InsertMigratedMetadata tw metadata = Ok tw' →
  ∃ me', take_metadata tumbling_metadata me metadata = Ok me' ∧ task_of me' tw0 = Ok tw' ∧ sr_Backend me' = sr_Backend me.
Proof.
  intros Ht Hne Hin. unfold take_metadata. rewrite (proj2 (Nat.ltb_lt _ _)) by (destruct metadata; simpl; [done|lia]).
  unfold task_of in *. destruct (AssignedTask me) as [tw1|]; simpl.
  - injection Ht as ->. rewrite Hin, bind_Ok. by eexists.
  - eexists. split; [done|]. simpl. split; [|done]. rewrite foldM_app, Ht, bind_Ok. simpl. by rewrite Hin.
Qed.

Lemma request_Ok peers (me : worker) info w tw0 tw :
  peers !! TargetWorkerAddr info = Some w → window_source w → ranges_ok n (mi_BucketRanges info) →
  backend_ok (sr_Backend me) → task_of me tw0 = Ok tw → tw_kind tw = kind →
  ∃ w' me' tw', requestMigration tumbling_metadata true limit (peers, me) info = Ok (<[TargetWorkerAddr info := w']> peers, me') ∧
    backend_ok (sr_Backend me') ∧ task_of me' tw0 = Ok tw' ∧ tw_kind tw' = kind ∧
    taken (affected_key op n) (peer_record peers) [info] (λ k, data_of (sr_Backend me) !! k) (λ k, data_of (sr_Backend me') !! k) ∧
    taken affected_window (peer_window peers) [info] (at_window (tw_Index tw)) (at_window (tw_Index tw')) ∧
    sr_Backend w' = sr_Backend w ∧ ∀ p, index_at w' p = if decide (affected_window info p) then None else index_at w p.
Proof.
  intros Hw Hsrc Hr Hb Ht Hk. destruct (fetch_metadata_Ok w (mi_BucketRanges info) Hsrc) as (tws & tws' & metadata & Htws & Hfetch & Hne & Hix & Hother).
  destruct (Hother tw Hk) as (tw' & Hin & Hk' & Hat). destruct (take_Ok me tw0 tw metadata tw' Ht Hne Hin) as (me1 & Htake & Ht1 & Hb1).
  assert (Hsrc' : source_ok op n limit (sr_with_task w tws')) by (destruct (wsrc_records w Hsrc); by split).
  destruct (pull_Ok op n limit Hn Hlimit _ _ Hsrc' Hr) as (chunks & Hpull & Hgood & Hkv).
  destruct (apply_Ok op n limit me1 (sr_with_task w tws') info chunks) as (b' & Happly & Hb' & Htaken); [by rewrite Hb1|done|done|].
  eexists _, _, tw'. split. { unfold requestMigration. rewrite Hw, Hfetch, bind_Ok, Htake, bind_Ok, Hpull, bind_Ok, Happly, bind_Ok. done. }
  split_and!; [done|done|done| | |done|].
  - rewrite Hb1 in Htaken. destruct Htaken as [Hi Ho]. split; [|exact Ho]. intros info' k Hinf Ha. etransitivity; [exact (Hi info' k Hinf Ha)|].
    apply list_elem_of_singleton in Hinf as ->. unfold peer_record. by rewrite Hw.
  - split.
    + intros info' p ->%list_elem_of_singleton Ha. rewrite Hat, decide_True by done. unfold peer_window, index_at. rewrite Hw. simpl. by rewrite Htws.
    + intros p Hp. rewrite Hat, decide_False; [done|]. apply (Hp info), list_elem_of_here.
  - intros p. unfold index_at. simpl. rewrite Hix, Htws. done.
Qed.

Record pulled (peers peers' : gmap string worker) (me me' : worker) (tw0 tw tw' : TumblingWindow S) (infos : list MigrationInfo) : Prop := {
  pl_backend : backend_ok (sr_Backend me');
  pl_task : task_of me' tw0 = Ok tw';
  pl_kind : tw_kind tw' = kind;
  pl_records : taken (affected_key op n) (peer_record peers) infos (λ k, data_of (sr_Backend me) !! k) (λ k, data_of (sr_Backend me') !! k);
  pl_windows : taken affected_window (peer_window peers) infos (at_window (tw_Index tw)) (at_window (tw_Index tw'));
  pl_others : ∀ a, a ∉ TargetWorkerAddr <$> infos → peers' !! a = peers !! a;
  pl_sources : ∀ info, info ∈ infos → ∃ w w', peers !! TargetWorkerAddr info = Some w ∧ peers' !! TargetWorkerAddr info = Some w' ∧
    sr_Backend w' = sr_Backend w ∧ ∀ p, index_at w' p = if decide (affected_window info p) then None else index_at w p
}.

(** No bucket is pulled twice. *)
Definition disjoint_buckets (infos : list MigrationInfo) : Prop :=
  ∀ i j info info' b, infos !! i = Some info → infos !! j = Some info' →
    b ∈ affected_buckets (mi_BucketRanges info) → b ∈ affected_buckets (mi_BucketRanges info') → i = j.

Lemma disjoint_snoc infos info : disjoint_buckets (infos ++ [info]) → disjoint_buckets infos ∧
  ∀ info' b, info' ∈ infos → b ∈ affected_buckets (mi_BucketRanges info) → b ∉ affected_buckets (mi_BucketRanges info').
Proof.
  intros Hd. split.
  - intros i j x y b Hi Hj. apply Hd; by apply lookup_app_l_Some.
  - intros info' b [i Hi]%list_elem_of_lookup_1 Hb Hb'. pose proof (lookup_lt_Some _ _ _ Hi).
    assert (i = length infos); [|lia]. apply (Hd i (length infos) info' info b); [by apply lookup_app_l_Some|by apply list_lookup_middle|done|done].
Qed.

Lemma pulls_Ok peers (me : worker) tw0 tw infos :
  NoDup (TargetWorkerAddr <$> infos) → disjoint_buckets infos →
  Forall (λ info, ranges_ok n (mi_BucketRanges info) ∧ ∃ w, peers !! TargetWorkerAddr info = Some w ∧ window_source w) infos →
  backend_ok (sr_Backend me) → task_of me tw0 = Ok tw → tw_kind tw = kind →
  ∃ peers' me' tw', foldM (requestMigration tumbling_metadata true limit) (peers, me) infos = Ok (peers', me') ∧
    pulled peers peers' me me' tw0 tw tw' infos.
Proof.
  intros Hnd Hdis Hall Hb Ht Hk. induction infos as [|info infos IH] using rev_ind.
  { exists peers, me, tw. split; [done|]. split; try done; [apply taken_nil..|]. by intros info ?%elem_of_nil. }
  rewrite fmap_app in Hnd. apply NoDup_app in Hnd as (Hnd & Hfresh & _). apply disjoint_snoc in Hdis as [Hdis Hnew].
  apply Forall_app in Hall as [Hall Hinfo]. apply Forall_inv in Hinfo as (Hr & w & Hw & Hsrc).
  destruct (IH Hnd Hdis Hall) as (peers1 & me1 & tw1 & Hrun & [Hb1 Ht1 Hk1 Hrec1 Hwin1 Hoth1 Hsrc1]).
  assert (Hnotin : TargetWorkerAddr info ∉ TargetWorkerAddr <$> infos) by (intros Hin; apply (Hfresh _ Hin); by left).
  assert (Hw1 : peers1 !! TargetWorkerAddr info = Some w) by by rewrite Hoth1.
  destruct (request_Ok peers1 me1 info w tw0 tw1) as (w' & me' & tw' & Hreq & Hb' & Ht' & Hk' & Hrec & Hwin & Hbk & Hix); [done..|].
  exists (<[TargetWorkerAddr info := w']> peers1), me', tw'. split; [rewrite foldM_app, Hrun, bind_Ok; cbn [foldM]; by rewrite Hreq|].
  assert (Hsame : ∀ V (f : worker → option V), peers1 !! TargetWorkerAddr info ≫= f = peers !! TargetWorkerAddr info ≫= f) by (intros V f; by rewrite Hw1, Hw).
  split; [done..| | | |].
  - eapply taken_snoc; [|exact Hrec1|].
    + intros info' k Hi (b & Hkb & Ha) (b' & Hkb' & Ha'). rewrite (key_at_unique op n Hn k b' b Hkb' Hkb) in Ha'. by apply (Hnew info' b).
    + destruct Hrec as [Hi Ho]. split; [|exact Ho]. intros i k Hin Ha. rewrite (Hi i k Hin Ha). apply list_elem_of_singleton in Hin as ->.
      unfold peer_record. by rewrite Hsame.
  - eapply taken_snoc; [|exact Hwin1|].
    + intros info' p Hi Ha. by apply Hnew.
    + destruct Hwin as [Hi Ho]. split; [|exact Ho]. intros i p Hin Ha. rewrite (Hi i p Hin Ha). apply list_elem_of_singleton in Hin as ->.
      unfold peer_window. by rewrite Hsame.
  - intros a Ha. rewrite fmap_app in Ha. rewrite lookup_insert_ne by set_solver. apply Hoth1. set_solver.
  - intros info' [Hi| ->%list_elem_of_singleton]%elem_of_app.
    + destruct (Hsrc1 info' Hi) as (v & v' & Hv & Hv' & ?). exists v, v'. split; [done|]. split; [|done].
      rewrite lookup_insert_ne; [done|]. intros Heq. apply Hnotin. rewrite Heq. by apply list_elem_of_fmap_2.
    + exists w, w'. split_and!; [done|by rewrite lookup_insert_eq|done|done].
Qed.

(** C18: stop-and-restart moves the buckets of a rescale.  A worker of a tumbling
    window operator, running or still to be given its task, is told to pull
    buckets from other workers, no bucket twice.  Then it has, for every key of
    a pulled bucket, the record of the worker it asked, and for every key of
    such a bucket the open windows of that worker; a key that the other worker
    has nothing for, and everything else, stays as it was.  The workers that
    were asked keep their records and give up exactly these windows.  The
    coordinator is sent the acknowledgement it waits for. *)
Theorem stop_restart_pulls peers (me : worker) tw0 tw infos (id : Z) :
  infos ≠ [] → NoDup (TargetWorkerAddr <$> infos) → disjoint_buckets infos →
  Forall (λ info, ranges_ok n (mi_BucketRanges info) ∧ ∃ w, peers !! TargetWorkerAddr info = Some w ∧ window_source w) infos →
  backend_ok (sr_Backend me) → task_of me tw0 = Ok tw → tw_kind tw = kind →
  ∃ peers' me' tw', HandleStateMigration tumbling_metadata true limit peers me infos =
      Ok (peers', me', expectedAckMsg (StateMigration id infos)) ∧
    task_of me' tw0 = Ok tw' ∧
    taken (affected_key op n) (peer_record peers) infos (λ k, data_of (sr_Backend me) !! k) (λ k, data_of (sr_Backend me') !! k) ∧
    taken affected_window (peer_window peers) infos (at_window (tw_Index tw)) (at_window (tw_Index tw')) ∧
    ∀ info, info ∈ infos → ∃ w w', peers !! TargetWorkerAddr info = Some w ∧ peers' !! TargetWorkerAddr info = Some w' ∧
      sr_Backend w' = sr_Backend w ∧ ∀ p, index_at w' p = if decide (affected_window info p) then None else index_at w p.
Proof.
  intros Hne Hnd Hdis Hall Hb Ht Hk. destruct (pulls_Ok peers me tw0 tw infos Hnd Hdis Hall Hb Ht Hk) as (peers' & me' & tw' & Hrun & []).
  exists peers', me', tw'. split_and!; try done. unfold HandleStateMigration. rewrite (proj2 (Nat.eqb_neq _ _)) by by destruct infos.
  cbn [fatal_if]. rewrite bind_Ok, Hrun. done.
Qed.
End Windows.

(** ** Buckets that come back

    The worker that was asked for a bucket keeps its records.  If the bucket
    comes back after the other worker has deleted one of them, the deleted
    record is there again. *)
Theorem returned_bucket_stale `{MusLaws, !GoRange, GoJsonLaws bool, RangeQueryLaws B} {S : Type} (op n limit : Z) (kind : Kind) (bucket : field → Z)
    (a b : SrWorker B (TumblingWindow S)) (tw0 tw : TumblingWindow S) (info : MigrationInfo) (k v : bytes) :
  (n < 2 ^ 32)%Z → (0 ≤ limit < 2 ^ 62)%Z → json_key_kind kind = true →
  window_source op n limit kind bucket b → ranges_ok n (mi_BucketRanges info) → affected_key op n info k →
  backend_ok (sr_Backend a) → task_of a tw0 = Ok tw → tw_kind tw = kind →
  data_of (sr_Backend a) !! k = Some v → data_of (sr_Backend b) !! k = None →
  ∃ peers' a' ack, HandleStateMigration tumbling_metadata true limit {[ TargetWorkerAddr info := b ]} a [info] = Ok (peers', a', ack) ∧
    data_of (sr_Backend a') !! k = Some v.
Proof.
  intros Hn Hl Hkind Hb Hr Ha Hok Ht Hk Hav Hbv.
  destruct (request_Ok op n limit Hn Hl kind Hkind bucket {[ TargetWorkerAddr info := b ]} a info b tw0 tw)
    as (w' & a' & tw' & Hreq & _ & _ & _ & [Hrec _] & _); [by rewrite lookup_singleton_eq|done..|].
  eexists _, a', _. split; [unfold HandleStateMigration; cbn [length Nat.eqb fatal_if foldM]; rewrite bind_Ok, Hreq; done|].
  rewrite (Hrec info k) by (done || by left). unfold peer_record. rewrite lookup_singleton_eq. simpl. by rewrite Hbv.
Qed.

(** ** A new worker takes one of two buckets *)

Definition state_key (key : field) : bytes := slot_bytes demo_client 0 (key, Some 0%Z).

(** The worker with both windows and their states. *)
Definition old_worker : SrWorker (PebbleStateBackend store) (TumblingWindow (LocalService MemoryStateBackend)) :=
  MkSrWorker (MkPebble {[ state_key key0 := [1; 2]%Z; state_key key1 := [3]%Z ]} false 1 1) 3 (Some demo_tw) [].
Definition new_worker : SrWorker (PebbleStateBackend store) (TumblingWindow (LocalService MemoryStateBackend)) :=
  MkSrWorker (MkPebble ∅ false 1 1) 0 None [].
Definition demo_info : MigrationInfo := MkMigrationInfo "old" [MkRange 1 40 50].

Lemma state_key_at key : key_at 3 128 (state_key key) (bucket_of demo_client key).
Proof. exact (slot_key_at demo_client 0 (key, Some 0%Z) (proj1 demo_client_ready)). Qed.

Lemma old_worker_source : window_source 3 128 100 KInt64 (bucket_of demo_client) old_worker.
Proof.
  split; [split; [done..|]|].
  - intros k v Hk. change (({[ state_key key0 := [1; 2]%Z; state_key key1 := [3]%Z ]} : store) !! k = Some v) in Hk.
    apply lookup_insert_Some in Hk as [[<- <-]|[_ [<- <-]%lookup_singleton_Some]]; (split; [eexists; apply state_key_at|vm_compute; done]).
  - exists demo_tw. split_and!; [done|exact (proj1 demo_client_ready)|vm_compute; reflexivity| |done].
    intros p Hp. apply demo_tw_at in Hp as [->| ->]; vm_compute; by repeat split.
Qed.

Lemma stop_restart_pulls_witness :
  ∃ peers' me' tw', HandleStateMigration tumbling_metadata true 100 {[ "old"%string := old_worker ]} new_worker [demo_info] =
      Ok (peers', me', "State migration done"%string) ∧
    data_of (sr_Backend me') !! state_key key1 = Some [3]%Z ∧ data_of (sr_Backend me') !! state_key key0 = None ∧
    task_of me' demo_tw_peer = Ok tw' ∧ at_window (tw_Index tw') (key1, 0%Z) = Some tt ∧ at_window (tw_Index tw') (key0, 0%Z) = None.
Proof.
  assert (Hb1 : bucket_of demo_client key1 = 42%Z) by (vm_compute; reflexivity).
  assert (Hb0 : bucket_of demo_client key0 = 5%Z) by (vm_compute; reflexivity).
  assert (Hin : ∀ b, b ∈ affected_buckets (mi_BucketRanges demo_info) ↔ (40 ≤ b ≤ 50)%Z).
  { intros b. rewrite elem_of_affected. split; [intros (r & ->%list_elem_of_singleton & ?); done|]. intros Hb. eexists. split; [by left|done]. }
  destruct (stop_restart_pulls 3 128 100 ltac:(lia) ltac:(lia) KInt64 eq_refl (bucket_of demo_client) {[ "old"%string := old_worker ]}
    new_worker demo_tw_peer demo_tw_peer [demo_info] 2) as (peers' & me' & tw' & Hrun & Htask & [Hrec Hrec'] & [Hwin Hwin'] & _).
  - done.
  - by apply NoDup_singleton.
  - intros i j x y b Hi Hj _ _. apply lookup_lt_Some in Hi, Hj. simpl in Hi, Hj. lia.
  - apply Forall_singleton. split; [by repeat constructor|]. exists old_worker. split; [reflexivity|exact old_worker_source].
  - done.
  - reflexivity.
  - vm_compute. reflexivity.
  - exists peers', me', tw'. split; [exact Hrun|]. split_and!; [| |exact Htask| |].
    + rewrite (Hrec demo_info) by (by left || (exists 42%Z; split; [rewrite <-Hb1; apply state_key_at|apply Hin; lia])). reflexivity.
    + rewrite Hrec'; [reflexivity|]. intros info ->%list_elem_of_singleton (b & Hk & Hb%Hin).
      pose proof (key_at_unique 3 128 ltac:(lia) _ _ _ Hk (state_key_at key0)) as ->. rewrite Hb0 in Hb. lia.
    + rewrite (Hwin demo_info) by (by left || (unfold affected_window; apply Hin; simpl; rewrite Hb1; lia)). vm_compute. reflexivity.
    + rewrite Hwin'; [vm_compute; reflexivity|]. intros info ->%list_elem_of_singleton Hb%Hin. simpl in Hb. rewrite Hb0 in Hb. lia.
Defined.
