(* ===== verification/ControlPlane.v ===== *)
(** * The control plane of a worker

    [worker/controlPlane.go]: the handlers of the coordinator's messages, over
    the methods that all operators share ([api/dataflow/operator.go]).  The
    start of fast forwarding is in [Task.v], the state migration of
    stop-and-restart in [StopRestart.v]. *)

From stdpp Require Import prelude gmap strings list.
From Stdlib Require Import ZArith Lia.
From S2P Require Import Prelude Partition PartitionTable Codec WorkUnit Coordinator Window KeyMap Network Supplier Collector CollectorSpec.

(** ** Operators *)

(** A collector before and after its setup. *)
Inductive CollectorSlot :=
  | NotSetUp (g : option PeriodicWatermarkGenerator)
  | Running (c : KeybyCollector).

(** A source has no supplier and a sink no collector. *)
Record OperatorBase := MkOperatorBase {
  ob_Name : string;
  ob_Id : Z;
  ob_Parallelism : Z;
  ob_Collector : option CollectorSlot;
  ob_Supplier : option Supplier;
  IsStateful : bool
}.

Definition NewOperatorBase (operatorName : string) : OperatorBase := MkOperatorBase operatorName 0 1 None None false.

Definition ob_IsSource (op : OperatorBase) : bool := match ob_Supplier op with None => true | Some _ => false end.
Definition ob_IsSink (op : OperatorBase) : bool := match ob_Collector op with None => true | Some _ => false end.

Definition ob_with_collector (op : OperatorBase) (c : KeybyCollector) : OperatorBase :=
  MkOperatorBase (ob_Name op) (ob_Id op) (ob_Parallelism op) (Some (Running c)) (ob_Supplier op) (IsStateful op).
Definition ob_with_supplier (op : OperatorBase) (s : Supplier) : OperatorBase :=
  MkOperatorBase (ob_Name op) (ob_Id op) (ob_Parallelism op) (ob_Collector op) (Some s) (IsStateful op).

(** A method call on a nil collector or supplier panics. *)
Definition ob_collector (op : OperatorBase) : res KeybyCollector :=
  match ob_Collector op with Some (Running c) => Ok c | _ => Crash Panic end.
Definition ob_supplier (op : OperatorBase) : res Supplier :=
  match ob_Supplier op with Some s => Ok s | None => Crash Panic end.

(** What a task is set up with. *)
Record OperatorSetupParas := MkSetupParas {
  pa_DownstreamInfoList : list DownstreamInfo;
  pa_ExpectNumUpstream : Z;
  pa_KeybyCollectorRoutingTable : option PartitionTable;
  pa_ExpectedDrainBarriers : option Z;
  pa_ExpectedInboundPeers : option Z
}.

Section Operator.
Context `{GoRange}.
Context (cfg : CollectorConfig) (isWarmup : bool).
Implicit Types op : OperatorBase.

Definition ob_Pause op : res OperatorBase := c ← ob_collector op; c ← kb_PauseEmit c; Ok (ob_with_collector op c).
Definition ob_Resume op : res OperatorBase := c ← ob_collector op; c ← kb_ResumeEmit c; Ok (ob_with_collector op c).

Definition ob_AddSubSupplier op (subSupplier : SubSupplier) : res OperatorBase :=
  fatal_if (ob_IsSource op) "Source operator cannot add SubSupplier";;
  s ← ob_supplier op; s ← AddSubSupplier s subSupplier; Ok (ob_with_supplier op s).

Definition ob_UpdateDownstreamRouting op (downstreamsToAdd downstreamsToRemove : list DownstreamInfo)
    (newDownstreamKR : option (list BucketRange)) : res OperatorBase :=
  fatal_if (ob_IsSink op) "Sink cannot UpdateDownstreamRouting()";;
  c ← ob_collector op;
  c ← kb_UpdateRouting cfg c (u16 ∘ di_WorkerId <$> downstreamsToAdd) (u16 ∘ di_WorkerId <$> downstreamsToRemove) newDownstreamKR;
  Ok (ob_with_collector op c).

Definition ob_InitLazyReconfig op (expectedDrainBarriers expectedInboundPeers : Z) (isShuttingDown : bool) : res OperatorBase :=
  s ← ob_supplier op;
  s ← sp_InitLazyReconfig s expectedDrainBarriers expectedInboundPeers;
  Ok (ob_with_supplier op (if isShuttingDown then sp_NotifyShuttingDown s else s)).

Definition ob_WaitAllInboundPeersToConnect op : res OperatorBase :=
  s ← ob_supplier op; s ← sp_WaitAllInboundPeersToConnect s; Ok (ob_with_supplier op s).
Definition ob_WaitTasksReconfigDone op : res OperatorBase :=
  s ← ob_supplier op; s ← WaitTasksReconfigDone s; Ok (ob_with_supplier op s).

Definition ob_Terminate op : res OperatorBase :=
  fatal_if (ob_IsSource op) "Source task cannot be terminated";;
  s ← ob_supplier op;
  let op := ob_with_supplier op (sp_NotifyShuttingDown s) in
  c ← ob_collector op;
  c ← kb_Terminate c;
  Ok (ob_with_collector op c).

Definition ob_BroadcastWatermark op (wm : Z) : res OperatorBase :=
  if ob_IsSink op then Ok op
  else c ← ob_collector op; c ← kb_BroadcastWatermark c wm true; Ok (ob_with_collector op c).

Definition ob_GetTaskWatermarkForTesting op : res Z :=
  fatal_if (ob_IsSource op) "Source operator has no TaskWatermark";;
  s ← ob_supplier op; Ok (TaskWatermark s).

(** The supplier, then the collector; a task that starts during a lazy rescale
    is told what to expect. *)
Definition ob_Setup op (para : OperatorSetupParas) : res OperatorBase :=
  op ← match ob_Supplier op with
    | None => Ok op
    | Some s =>
        s ← sp_Setup s (pa_ExpectNumUpstream para) isWarmup;
        s ← match pa_ExpectedDrainBarriers para, pa_ExpectedInboundPeers para with
          | Some drain, Some peers => sp_InitLazyReconfig s drain peers
          | _, _ => Ok s
          end;
        Ok (ob_with_supplier op s)
    end;
  match ob_Collector op with
  | None => Ok op
  | Some slot =>
      let g := match slot with NotSetUp g => g | Running c => WatermarkGenerator c end in
      c ← kb_Setup (u16 ∘ di_WorkerId <$> pa_DownstreamInfoList para) (pa_KeybyCollectorRoutingTable para) g;
      Ok (ob_with_collector op c)
  end.
End Operator.

(** ** Workers *)

Record WorkerConfig := MkWorkerConfig {
  wc_LazyProtocolVersion : string;
  LazyByKeyStateCommAPIType : string;
  wc_IsWarmup : bool
}.

(** [cp_Conns] are the peers whose state services are connected; [cp_Signalled]
    says that the main routine and waiting connections may proceed. *)
Record CpWorker := MkCpWorker {
  cp_WorkerId : Z;
  cp_Operators : gmap string OperatorBase;
  cp_AssignedTask : option OperatorBase;
  cp_StateLookupTable : option KeyLookupTable;
  cp_StateLookupTableV2 : option KeyLookupTableV2;
  cp_Conns : gset Z;
  cp_OperatorID : Z;
  cp_Signalled : bool
}.

Section Handlers.
Context `{GoRange}.
Context (cfg : CollectorConfig) (wcfg : WorkerConfig).
Implicit Types w : CpWorker.

(** The protocol versions that have connections. *)
Definition check_version : res unit :=
  let v := wc_LazyProtocolVersion wcfg in
  if bool_decide (v = "by-key") then
    fatal_if (negb (bool_decide (LazyByKeyStateCommAPIType wcfg = "grpc") || bool_decide (LazyByKeyStateCommAPIType wcfg = "tcp")))
      "Unknown lazy-by-key state comm API type"
  else fatal_if (negb (bool_decide (v = "basic") || bool_decide (v = "optimized") || bool_decide (v = "no-migration")))
      "Unknown lazy protocol version".

Definition cp_task w : res OperatorBase :=
  match cp_AssignedTask w with Some op => Ok op | None => Crash Panic end.
Definition cp_with_task w (op : OperatorBase) : CpWorker :=
  MkCpWorker (cp_WorkerId w) (cp_Operators w) (Some op) (cp_StateLookupTable w) (cp_StateLookupTableV2 w) (cp_Conns w) (cp_OperatorID w) (cp_Signalled w).

(** The tables of the state service. *)
Definition set_lookup_table w (bucketRanges : list BucketRange) : res CpWorker :=
  if bool_decide (wc_LazyProtocolVersion wcfg = "by-key") then
    t ← DeserializeKeyLookupTableV2 (cc_hash cfg) (cc_numBuckets cfg) bucketRanges (cp_WorkerId w);
    Ok (MkCpWorker (cp_WorkerId w) (cp_Operators w) (cp_AssignedTask w) (cp_StateLookupTable w) (Some t) (cp_Conns w) (cp_OperatorID w) (cp_Signalled w))
  else
    t ← DeserializeKeyLookupTable (cc_hash cfg) (cc_numBuckets cfg) bucketRanges;
    Ok (MkCpWorker (cp_WorkerId w) (cp_Operators w) (cp_AssignedTask w) (Some t) (cp_StateLookupTableV2 w) (cp_Conns w) (cp_OperatorID w) (cp_Signalled w)).

Definition cp_with_conns w (conns : gset Z) : CpWorker :=
  MkCpWorker (cp_WorkerId w) (cp_Operators w) (cp_AssignedTask w) (cp_StateLookupTable w) (cp_StateLookupTableV2 w) conns (cp_OperatorID w) (cp_Signalled w).

(** A new map of connections, to all peers but the worker itself. *)
Definition connect_peers w (peers : list PeerStateServiceInfo) : res CpWorker :=
  check_version;;
  Ok (cp_with_conns w (list_to_set (filter (λ id, id ≠ cp_WorkerId w) (u16 ∘ ps_WorkerId <$> peers)))).

(** A task that is not in the dataflow is a nil operator.  The warm-up file is
    not read, and metadata of a stop-and-restart is [load_metadata] of
    [StopRestart.v]. *)
Definition HandleTaskAssignment w (taskAssignment : TaskAssignment) : res (CpWorker * string) :=
  routing ← match KeybyCollectorRoutingTable taskAssignment with
    | None => Ok None
    | Some ranges => t ← DeserializePartitionTable (cc_hash cfg) (cc_numBuckets cfg) ranges; Ok (Some t)
    end;
  w ← match ta_StateLookupTable taskAssignment with None => Ok w | Some ranges => set_lookup_table w ranges end;
  w ← match ta_PeerStateService taskAssignment with None => Ok w | Some peers => connect_peers w peers end;
  match cp_Operators w !! TaskId taskAssignment with
  | None => Crash Panic
  | Some op =>
      op ← ob_Setup (wc_IsWarmup wcfg) op (MkSetupParas (DownstreamInfoList taskAssignment) (ExpectedNumUpstream taskAssignment) routing
             (ta_ExpectedDrainBarriers taskAssignment) (ta_ExpectedInboundPeers taskAssignment));
      Ok (MkCpWorker (cp_WorkerId w) (cp_Operators w) (Some op) (cp_StateLookupTable w) (cp_StateLookupTableV2 w) (cp_Conns w) (ob_Id op) true,
          "Task ready to run"%string)
  end.

Definition HandlePause w : res (CpWorker * string) :=
  op ← cp_task w; op ← ob_Pause op; Ok (cp_with_task w op, "Task successfully paused"%string).

Definition HandleRestart w : res (CpWorker * string) :=
  op ← cp_task w; op ← ob_Resume op; Ok (cp_with_task w op, "Task restarted"%string).

Definition HandleUpdateDownstreamRouting w (add remove : list DownstreamInfo) (table : option (list BucketRange)) : res (CpWorker * string) :=
  op ← cp_task w; op ← ob_UpdateDownstreamRouting cfg op add remove table;
  Ok (cp_with_task w op, "Downstream routing updated"%string).

Definition HandleTerminate w : res (CpWorker * string) :=
  op ← cp_task w; op ← ob_Terminate op; Ok (cp_with_task w op, "Task terminated"%string).

(** New peers are added to the connections. *)
Definition HandleInitLazyReconfig w (drain inbound : Z) (isShuttingDown : bool) (peers : list PeerStateServiceInfo) : res (CpWorker * string) :=
  check_version;;
  let w := cp_with_conns w (cp_Conns w ∪ list_to_set (u16 ∘ ps_WorkerId <$> peers)) in
  op ← cp_task w; op ← ob_InitLazyReconfig op drain inbound isShuttingDown;
  Ok (cp_with_task w op, "Lazy reconfiguration initialized"%string).

Definition HandleWaitInboundPeers w : res (CpWorker * string) :=
  op ← cp_task w; op ← ob_WaitAllInboundPeersToConnect op; Ok (cp_with_task w op, "All inbound peers connected"%string).

Definition HandleWaitReconfigDone w : res (CpWorker * string) :=
  op ← cp_task w; op ← ob_WaitTasksReconfigDone op; Ok (cp_with_task w op, "Reconfiguration done"%string).

(** The messages handled here. *)
Definition handle_message w (m : ControlMsg) : option (res (CpWorker * string)) :=
  match m with
  | DeployTask _ msg => Some (HandleTaskAssignment w msg)
  | Pause _ => Some (HandlePause w)
  | Resume _ => Some (HandleRestart w)
  | UpdateDownstreamRouting _ add remove table => Some (HandleUpdateDownstreamRouting w add remove table)
  | StopTask _ => Some (HandleTerminate w)
  | InitLazyReconfig _ drain inbound down peers => Some (HandleInitLazyReconfig w drain inbound down peers)
  | WaitAllInboundPeersToConnect _ => Some (HandleWaitInboundPeers w)
  | WaitAllTasksReconfigDone _ => Some (HandleWaitReconfigDone w)
  | _ => None
  end.
End Handlers.

(** ** Acknowledgements *)

(** The answer of a handler is the one that the coordinator's call waits for,
    and the worker keeps its identity. *)
Theorem handlers_acknowledge `{GoRange} (cfg : CollectorConfig) (wcfg : WorkerConfig) (w : CpWorker) (m : ControlMsg) (w' : CpWorker) (ack : string) :
  handle_message cfg wcfg w m = Some (Ok (w', ack)) → ack = expectedAckMsg m ∧ cp_WorkerId w' = cp_WorkerId w.
Proof.
  destruct m as [id msg| | | | | |id add remove table|id drain inbound down peers| | | |]; try done; intros [= Hm].
  - unfold HandleTaskAssignment in Hm. apply bind_Ok_inv in Hm as (routing & _ & Hm). apply bind_Ok_inv in Hm as (w1 & Hw1 & Hm).
    apply bind_Ok_inv in Hm as (w2 & Hw2 & Hm). destruct (cp_Operators w2 !! TaskId msg) as [op|]; [|done].
    apply bind_Ok_inv in Hm as (op' & _ & [= <- <-]). split; [done|]. simpl.
    assert (cp_WorkerId w2 = cp_WorkerId w1) as ->.
    { destruct (ta_PeerStateService msg); [|by injection Hw2 as <-]. unfold connect_peers in Hw2. by apply bind_Ok_inv in Hw2 as (? & _ & [= <-]). }
    destruct (ta_StateLookupTable msg); [|by injection Hw1 as <-]. unfold set_lookup_table in Hw1.
    case_bool_decide; by apply bind_Ok_inv in Hw1 as (? & _ & [= <-]).
  - unfold HandleTerminate in Hm. apply bind_Ok_inv in Hm as (op & _ & Hm). by apply bind_Ok_inv in Hm as (op' & _ & [= <- <-]).
  - unfold HandlePause in Hm. apply bind_Ok_inv in Hm as (op & _ & Hm). by apply bind_Ok_inv in Hm as (op' & _ & [= <- <-]).
  - unfold HandleRestart in Hm. apply bind_Ok_inv in Hm as (op & _ & Hm). by apply bind_Ok_inv in Hm as (op' & _ & [= <- <-]).
  - unfold HandleUpdateDownstreamRouting in Hm. apply bind_Ok_inv in Hm as (op & _ & Hm). by apply bind_Ok_inv in Hm as (op' & _ & [= <- <-]).
  - unfold HandleInitLazyReconfig in Hm. apply bind_Ok_inv in Hm as ([] & _ & Hm). apply bind_Ok_inv in Hm as (op & _ & Hm).
    by apply bind_Ok_inv in Hm as (op' & _ & [= <- <-]).
  - unfold HandleWaitInboundPeers in Hm. apply bind_Ok_inv in Hm as (op & _ & Hm). by apply bind_Ok_inv in Hm as (op' & _ & [= <- <-]).
  - unfold HandleWaitReconfigDone in Hm. apply bind_Ok_inv in Hm as (op & _ & Hm). by apply bind_Ok_inv in Hm as (op' & _ & [= <- <-]).
Qed.

(** ** Deployment *)

Section Deployment.
Context `{GoRange} (cfg : CollectorConfig) (wcfg : WorkerConfig).

(** A task is deployed as the coordinator planned it.  The coordinator has
    serialized its routing table for the collector and its owner table for the
    state service.  The worker that handles the assignment then routes every
    key as the coordinator's table does, to output buffers that are exactly
    those of the announced downstreams; its state service has the owner table;
    it is connected to all peers but itself; its supplier expects the announced
    number of upstreams; and it sends the acknowledgement that the coordinator
    waits for. *)
Theorem deployed_as_planned (w : CpWorker) (id : Z) (msg : TaskAssignment) (op : OperatorBase) (s : Supplier) (g : option PeriodicWatermarkGenerator)
    (owners stateOwners : list Z) (ranges stateRanges : list BucketRange) (peers : list PeerStateServiceInfo) :
  cp_Operators w !! TaskId msg = Some op → ob_Supplier op = Some s → ob_Collector op = Some (NotSetUp g) →
  0 < size (SubSuppliers s) → size (SubSuppliers s) = ExpectedNumSubSuppliers s →
  owners ≠ [] → Forall is_u16 owners → cc_numBuckets cfg = Z.of_nat (length owners) →
  length stateOwners = length owners → Forall is_u16 stateOwners →
  Serialize (MkTable (cc_hash cfg) owners) = Ok ranges → Serialize (MkTable (cc_hash cfg) stateOwners) = Ok stateRanges →
  KeybyCollectorRoutingTable msg = Some ranges → ta_StateLookupTable msg = Some stateRanges → ta_PeerStateService msg = Some peers →
  ta_ExpectedDrainBarriers msg = None → wc_LazyProtocolVersion wcfg = "basic"%string →
  ∃ w' op' c s', HandleTaskAssignment cfg wcfg w msg = Ok (w', expectedAckMsg (DeployTask id msg)) ∧
    cp_AssignedTask w' = Some op' ∧ ob_Collector op' = Some (Running c) ∧ ob_Supplier op' = Some s' ∧
    (∀ key, KeyToWorkerID (RoutingTable c) key = KeyToWorkerID (MkTable (cc_hash cfg) owners) key) ∧
    dom (Downstreams (kb_out c)) = list_to_set (u16 ∘ di_WorkerId <$> DownstreamInfoList msg) ∧
    cp_StateLookupTable w' = Some (MkKeyTable (cc_hash cfg) (mkBucket <$> stateOwners)) ∧
    (∀ p, p ∈ cp_Conns w' ↔ p ≠ cp_WorkerId w ∧ ∃ info, info ∈ peers ∧ p = u16 (ps_WorkerId info)) ∧
    ExpectNumUpstream s' = ExpectedNumUpstream msg ∧ TaskWatermark s' = (-1)%Z.
Proof.
  intros Hop Hs Hc Hsz Hexp Hne Hu Hn Hlen Hu' Hser Hser' Hr Hl Hp Hd Hv.
  destruct (partition_table_roundtrip (cc_hash cfg) owners Hne Hu) as (rs & Hrs & _ & _ & Hdes & _). rewrite Hser in Hrs. injection Hrs as <-.
  destruct (partition_table_roundtrip (cc_hash cfg) stateOwners) as (rs & Hrs & _ & _ & _ & Hdes'); [by intros ->; destruct owners|done|].
  rewrite Hser' in Hrs. injection Hrs as <-. rewrite Hlen, <-Hn in Hdes'. rewrite <-Hn in Hdes.
  unfold HandleTaskAssignment. rewrite Hr, Hdes, !bind_Ok, Hl. unfold set_lookup_table. rewrite Hv, bool_decide_false by done. rewrite Hdes', !bind_Ok, Hp.
  unfold connect_peers, check_version. rewrite Hv. cbn [bool_decide fatal_if]. rewrite bool_decide_false, bool_decide_true by done. cbn [orb negb fatal_if].
  rewrite !bind_Ok. cbn [cp_with_conns cp_Operators]. rewrite Hop. unfold ob_Setup. rewrite Hs. unfold sp_Setup.
  rewrite (proj2 (Nat.eqb_neq (size (SubSuppliers s)) 0)), Hexp, Nat.eqb_refl by lia. cbn [negb fatal_if pa_ExpectedDrainBarriers]. rewrite !bind_Ok, Hd, !bind_Ok.
  cbn [ob_with_supplier ob_Collector pa_KeybyCollectorRoutingTable pa_DownstreamInfoList]. rewrite Hc. cbn [kb_Setup]. rewrite !bind_Ok.
  do 4 eexists. split; [done|]. split; [done|]. split; [done|]. split; [done|]. cbn [RoutingTable kb_out]. split_and!; [done| |done| |done|done].
  - cbn [new_outputs Downstreams]. rewrite dom_list_to_map_L, <-list_fmap_compose. by rewrite list_fmap_id.
  - intros p. cbn [cp_Conns cp_WorkerId cp_with_conns]. rewrite elem_of_list_to_set, list_elem_of_filter, list_elem_of_fmap. naive_solver.
Qed.
End Deployment.

(** ** Termination

    A task is stopped when its operator is scaled down.  A source ends its
    process; so does a sink, with a nil dereference, because its collector is
    not checked.  Any other running task flushes its batches, ends all its
    output channels and tells its supplier to expect the end of the input. *)
Theorem terminate_outcomes `{MusLaws, !GoRange} (tys : list Kind) (batchSize : nat) (op : OperatorBase) :
  match ob_Supplier op, ob_Collector op with
  | None, _ => ob_Terminate op = Crash (Fatal "Source task cannot be terminated")
  | Some _, None => ob_Terminate op = Crash Panic
  | Some s, Some (Running c) =>
      out_inv (tys := tys) batchSize (kb_out c) → Paused c = false →
      ∃ op' c', ob_Terminate op = Ok op' ∧ ob_Collector op' = Some (Running c') ∧
        view (kb_out c') = to_all (TerminationSignal false) (view (kb_out c)) ∧ flushed (kb_out c') ∧
        ob_Supplier op' = Some (sp_NotifyShuttingDown s)
  | Some _, Some (NotSetUp _) => ob_Terminate op = Crash Panic
  end.
Proof.
  unfold ob_Terminate, ob_IsSource, ob_supplier, ob_collector. destruct (ob_Supplier op) as [s|]; [|done].
  cbn [fatal_if]. rewrite !bind_Ok. cbn [ob_with_supplier ob_Collector]. destruct (ob_Collector op) as [[g|c]|]; [done| |done].
  intros Hinv Hp. rewrite bind_Ok. unfold kb_Terminate, kb_Lock. rewrite Hp, bind_Ok.
  destruct (flushAll_Ok batchSize (kb_out c) Hinv) as (o & Hf & Ho & Hfl & Hv). unfold kb_flush. rewrite Hf, !bind_Ok.
  destruct (broadcast_Ok batchSize o (TerminationSignal false) Ho Hfl) as [_ Hb].
  do 2 eexists. split; [done|]. split; [done|]. cbn [kb_with kb_out]. split_and!; [by rewrite Hb, Hv|exact Hfl|done].
Qed.

(** ** A worker with one operator *)

Definition cp_config : CollectorConfig :=
  MkCollectorConfig 100 true demo_hash 2 (λ _, Ok 0) (λ t, FNum KInt64 (timestamp t)) (EncodeNum KInt64) (SizeNumFunc KInt64) timestamp.
Definition cp_supplier : Supplier :=
  match AddSubSupplier (NewSupplier false 1) (NewSubSupplier "src") with Ok s => s | Crash _ => NewSupplier false 1 end.
Definition cp_operator : OperatorBase := MkOperatorBase "map" 4 2 (Some (NotSetUp None)) (Some cp_supplier) true.
Definition cp_demo : CpWorker := MkCpWorker 1 {[ "map"%string := cp_operator ]} None None None ∅ 0 false.
Definition cp_assignment : TaskAssignment :=
  MkTaskAssignment "map" [MkDownstreamInfo 5 "a"; MkDownstreamInfo 6 "b"] 3 (Some [MkRange 5 0 0; MkRange 6 1 1]) (Some [MkRange 1 0 1])
    (Some [MkPeerInfo 1 "x"; MkPeerInfo 2 "y"]) None None None.

Lemma deployed_as_planned_witness :
  ∃ w' op' c, HandleTaskAssignment cp_config (MkWorkerConfig "basic" "grpc" false) cp_demo cp_assignment = Ok (w', "Task ready to run"%string) ∧
    cp_AssignedTask w' = Some op' ∧ ob_Collector op' = Some (Running c) ∧
    (∀ key, KeyToWorkerID (RoutingTable c) key = KeyToWorkerID (MkTable demo_hash [5; 6]%Z) key) ∧ 2%Z ∈ cp_Conns w' ∧ 1%Z ∉ cp_Conns w'.
Proof.
  destruct (deployed_as_planned cp_config (MkWorkerConfig "basic" "grpc" false) cp_demo 1 cp_assignment cp_operator cp_supplier None
    [5; 6]%Z [1; 1]%Z [MkRange 5 0 0; MkRange 6 1 1] [MkRange 1 0 1] [MkPeerInfo 1 "x"; MkPeerInfo 2 "y"])
    as (w' & op' & c & s' & Hrun & Htask & Hc & _ & Hroute & _ & _ & Hconns & _);
    [vm_compute; reflexivity|reflexivity|reflexivity|vm_compute; lia|vm_compute; reflexivity|discriminate
    |repeat constructor; unfold is_u16; lia|reflexivity|reflexivity|repeat constructor; unfold is_u16; lia
    |vm_compute; reflexivity|vm_compute; reflexivity|reflexivity|reflexivity|reflexivity|reflexivity|reflexivity|].
  exists w', op', c. split_and!; [exact Hrun|exact Htask|exact Hc|exact Hroute| |].
  - apply Hconns. split; [discriminate|]. exists (MkPeerInfo 2 "y"). split; [by right; left|reflexivity].
  - intros Hin. apply Hconns in Hin as [Hne _]. apply Hne. reflexivity.
Defined.
