(* ===== verification/Pipeline.v ===== *)
(** * A job from its sources to its results

    Sources send keyed records to the workers of a tumbling window operator:
    their collectors ([Collector.v]), the channels, the suppliers of the
    workers ([Supplier.v]), the main loops ([Task.v]) and the operators
    ([Window.v]) put together.  Whatever the batching, the interleaving of the
    channels and the number of workers, the results are those of the windows of
    all the records. *)

From stdpp Require Import prelude gmap strings list.
From Stdlib Require Import ZArith Lia.
From S2P Require Import Prelude Partition PartitionTable Codec WorkUnit StateType StateCache Backend StateService StateClient StateBatch.
From S2P Require Import Window WindowStore WindowIndex WindowRun TumblingWindow KeyMap Network Supplier SupplierTime SupplierMerge.
From S2P Require Import Collector CollectorSpec CollectorTime Task WindowMigration.

(** ** Windows of records in any order *)

(** The order in which records are added does not matter. *)
Definition commutative (spec : AggSpec) : Prop :=
  ∀ l r r', a_add spec (a_add spec l r) r' = a_add spec (a_add spec l r') r.

Lemma foldl_comm {A B} (f : A → B → A) l l' :
  (∀ a x y, f (f a x) y = f (f a y) x) → l ≡ₚ l' → ∀ a, foldl f a l = foldl f a l'.
Proof. intros Hf. induction 1 as [|x l l' _ IH|x y l|l l1 l2 _ IH1 _ IH2]; intros a; simpl; [done|apply IH|by rewrite Hf|by rewrite IH1]. Qed.

Lemma fmap_bind {A B C} (f : B → C) (g : A → list B) l : f <$> (l ≫= g) = l ≫= λ x, f <$> g x.
Proof. induction l as [|x l IH]; [done|]. rewrite !bind_cons, fmap_app. by f_equal. Qed.

Lemma Forall2_choice {A B} (P : A → B → Prop) l : (∀ x, x ∈ l → ∃ y, P x y) → ∃ l', Forall2 P l l'.
Proof.
  induction l as [|x l IH]; intros HP; [by exists []|]. destruct (HP x (list_elem_of_here _ _)) as [y Hy].
  destruct IH as [l' Hl]; [|by exists (y :: l'); constructor]. intros z Hz. apply HP. by right.
Qed.

Section Shards.
Context (key : Tuple → field) (D : Z) (spec : AggSpec) (Hcomm : commutative spec).

#[export] Instance windows_perm : Proper ((≡ₚ) ==> (=)) (windows key D).
Proof. intros rs rs' Hp. unfold windows. by rewrite Hp. Qed.

Lemma window_result_perm rs rs' p : rs ≡ₚ rs' → window_result key D spec rs p = window_result key D spec rs' p.
Proof. intros Hp. unfold window_result, aggregate. do 2 f_equal. apply foldl_comm; [apply Hcomm|by rewrite Hp]. Qed.

(** Records are sent where their key belongs. *)
Context (owner : field → option Z).

Definition routed (w : Z) (rs : list Tuple) : list Tuple := filter (λ r, owner (key r) = Some w) rs.

Lemma elem_of_routed_windows w rs p : p ∈ windows key D (routed w rs) ↔ p ∈ windows key D rs ∧ owner p.1 = Some w.
Proof.
  rewrite !elem_of_windows. unfold routed. setoid_rewrite list_elem_of_filter. split.
  - intros (r & [Ho Hr] & ->). split; [by exists r|done].
  - intros [(r & Hr & ->) Ho]. by exists r.
Qed.

(** A window's records are all with one worker. *)
Lemma routed_result w rs p : owner p.1 = Some w → window_result key D spec (routed w rs) p = window_result key D spec rs p.
Proof.
  intros Ho. unfold window_result, aggregate. do 3 f_equal. unfold routed. rewrite list_filter_filter.
  apply list_filter_iff. intros r. split; [by intros [? _]|]. intros <-. by split.
Qed.

Definition shard_results (wm : Z) (rs : list Tuple) : list Tuple :=
  window_result key D spec rs <$> elements (filter (closed D wm) (windows key D rs)).

Lemma shard_results_perm wm rs rs' : rs ≡ₚ rs' → shard_results wm rs = shard_results wm rs'.
Proof. intros Hp. unfold shard_results. rewrite (windows_perm rs rs' Hp). apply list_fmap_ext. intros _ p _. by apply window_result_perm. Qed.

(** The results of the workers are those of all records. *)
Lemma shards_complete wm ws rs : NoDup ws → Forall (λ r, ∃ w, owner (key r) = Some w ∧ w ∈ ws) rs →
  (ws ≫= λ w, shard_results wm (routed w rs)) ≡ₚ shard_results wm rs.
Proof.
  intros Hnd Hall. unfold shard_results. set (closed_in := λ w, elements (filter (closed D wm) (windows key D (routed w rs)))).
  transitivity (window_result key D spec rs <$> (ws ≫= closed_in)).
  - rewrite fmap_bind. apply reflexive_eq, list_bind_ext; [|done]. intros w. apply list_fmap_ext. intros _ p Hp%list_elem_of_lookup_2.
    unfold closed_in in Hp. apply elem_of_elements, elem_of_filter in Hp as [_ [_ Ho]%elem_of_routed_windows]. by apply routed_result.
  - apply Permutation_map, NoDup_Permutation; [apply NoDup_bind; [|intros; unfold closed_in; apply NoDup_elements|done]|apply NoDup_elements|].
    + intros w w' p _ _ Hp Hp'. unfold closed_in in *.
      apply elem_of_elements, elem_of_filter in Hp as [_ [_ Ho]%elem_of_routed_windows].
      apply elem_of_elements, elem_of_filter in Hp' as [_ [_ Ho']%elem_of_routed_windows]. congruence.
    + intros p. unfold closed_in. rewrite list_elem_of_bind, elem_of_elements, elem_of_filter. setoid_rewrite elem_of_elements.
      setoid_rewrite elem_of_filter. setoid_rewrite elem_of_routed_windows. split; [naive_solver|].
      intros [Hc Hp]. apply elem_of_windows in Hp as Hr. destruct Hr as (r & Hr & ->). rewrite Forall_forall in Hall.
      destruct (Hall r Hr) as (w & Ho & Hw). exists w. naive_solver.
Qed.
End Shards.

(** ** Sources *)

(** The records of a channel and its last watermark. *)
Definition item_records (l : list item) : list Tuple := l ≫= λ x, match x with IRec t => [t] | IUnit _ => [] end.

Definition item_watermark (l : list item) : Z :=
  foldl (λ wm x, match x with IUnit (WatermarkUnit ts) => ts | _ => wm end) (-1)%Z l.

Definition data_item (x : item) : Prop :=
  match x with IRec _ => True | IUnit (WatermarkUnit ts) => (ts < 2 ^ 62)%Z | IUnit _ => False end.

(** The last watermark of a source. *)
Definition source_watermark (c : KeybyCollector) : Z :=
  match WatermarkGenerator c with Some g => LastGeneratedTime g | None => (-1)%Z end.

Section Source.
Context `{MusLaws, !GoRange}.
Context (cfg : CollectorConfig) (table : PartitionTable) (downstreams : list Z) (delay : Z) (Hdelay : (0 ≤ delay)%Z).

(** What a source that is not rescaled does. *)
Definition job_op (op : kb_op) : Prop :=
  match op with
  | CEmit t => (delay ≤ GetTimestamp cfg t < 2 ^ 62)%Z
  | CTimer | CGenerate => True
  | _ => False
  end.

(** The records, stamped with their event times. *)
Definition op_records (op : kb_op) : list Tuple :=
  match op with CEmit t => [SetTimestamp t (GetTimestamp cfg t)] | _ => [] end.
Definition source_records (ops : list kb_op) : list Tuple := ops ≫= op_records.

(** The worker of a key. *)
Definition key_worker (key : field) : option Z :=
  match KeyToWorkerID table (field_bytes key) with Ok w => Some w | Crash _ => None end.

Abbreviation worker_records := (routed (GetKey cfg) key_worker).

Record channel_holds (rs : list Tuple) (last : Z) (l : list item) : Prop := {
  ch_records : item_records l = rs;
  ch_watermark : item_watermark l = last;
  ch_data : Forall data_item l
}.

(** After the operations [ops]. *)
Record source_state (ops : list kb_op) (i : Ideal) : Prop := {
  ss_table : id_table i = table;
  ss_dom : ∀ w, is_Some (id_out i !! w) ↔ w ∈ downstreams;
  ss_gen : ∃ last m, id_gen i = Some (MkGenerator last m delay) ∧ (m = -1 ∨ delay ≤ m < 2 ^ 62)%Z ∧
    ∀ w l, id_out i !! w = Some l → channel_holds (worker_records w (source_records ops)) last l;
  ss_routed : Forall (λ r, ∃ w, key_worker (GetKey cfg r) = Some w ∧ w ∈ downstreams) (source_records ops)
}.

Lemma item_records_snoc l x : item_records (l ++ [x]) = item_records l ++ item_records [x].
Proof. unfold item_records. apply bind_app. Qed.

Lemma item_watermark_snoc l x :
  item_watermark (l ++ [x]) = match x with IUnit (WatermarkUnit ts) => ts | _ => item_watermark l end.
Proof. unfold item_watermark. by rewrite foldl_app. Qed.

Lemma source_records_snoc ops op : source_records (ops ++ [op]) = source_records ops ++ op_records op.
Proof. unfold source_records. rewrite bind_app, bind_cons. simpl. by rewrite app_nil_r. Qed.

Lemma emit_source ops i t i' :
  source_state ops i → job_op (CEmit t) → (∀ t ts, GetTimestamp cfg (SetTimestamp t ts) = GetTimestamp cfg t) →
  id_emit cfg i t = Ok i' → source_state (ops ++ [CEmit t]) i'.
Proof.
  intros [Htab Hdom (last & m & Hg & Hm & Hch) Hr] Hts Hext. unfold id_emit. rewrite Hg, Htab.
  set (r := SetTimestamp t (GetTimestamp cfg t)). intros ([] & _ & Hrest)%bind_Ok_inv.
  apply bind_Ok_inv in Hrest as (w & Hw & Hrest). destruct (id_out i !! w) as [l|] eqn:El; [|done].
  apply bind_Ok_inv in Hrest as ([] & _ & [= <-]).
  assert (Hown : key_worker (GetKey cfg r) = Some w) by (unfold key_worker; by rewrite Hw).
  split; simpl; rewrite ?source_records_snoc; cbn [op_records]; fold r; [done| | |].
  - intros w'. rewrite lookup_insert_is_Some', <-Hdom. split; [intros [<-|?]; [by rewrite El|done]|by right].
  - exists last, (Z.max m (GetTimestamp cfg t)). split_and!.
    + unfold r. rewrite Hext. unfold UpdateMaxRecordTimestamp. simpl. destruct (Z.ltb_spec m (GetTimestamp cfg t)); do 2 f_equal; lia.
    + simpl in Hts. lia.
    + intros w' l' [[<- <-]|[Hne Hl]]%lookup_insert_Some.
      * destruct (Hch w l El) as [Hrs Hwm Hd]. split.
        -- rewrite item_records_snoc, Hrs. unfold routed. rewrite filter_app, filter_cons_True by done. done.
        -- by rewrite item_watermark_snoc.
        -- apply Forall_app. split; [done|by constructor].
      * destruct (Hch w' l' Hl) as [Hrs Hwm Hd]. split; [|done..]. rewrite Hrs. unfold routed.
        rewrite filter_app, (filter_cons_False _ _ []), filter_nil by congruence. by rewrite app_nil_r.
  - apply Forall_app. split; [done|]. constructor; [|done]. exists w. split; [done|]. apply Hdom. by rewrite El.
Qed.

Lemma generate_source ops i i' :
  source_state ops i → id_generate i = Ok i' → source_state (ops ++ [CGenerate]) i'.
Proof.
  intros [Htab Hdom (last & m & Hg & Hm & Hch) Hr]. unfold id_generate. rewrite Hg. intros ([] & _ & Hrest)%bind_Ok_inv.
  assert (Hsame : source_records (ops ++ [CGenerate]) = source_records ops) by (rewrite source_records_snoc; apply app_nil_r).
  unfold GenerateWatermark in Hrest. simpl in Hrest.
  destruct (Z.eqb_spec m (-1)) as [->|Hne].
  { injection Hrest as <-. split; rewrite ?Hsame; [done..|by exists last, (-1)%Z|done]. }
  rewrite i64_id in Hrest by (unfold is_i64; lia). destruct (Z.eqb_spec (m - delay) last) as [Heq|Hneq].
  { injection Hrest as <-. split; rewrite ?Hsame; [done..|by exists last, m|done]. }
  injection Hrest as <-. split; rewrite ?Hsame; simpl; [done| | |done].
  - intros w. unfold to_all. by rewrite lookup_fmap, fmap_is_Some.
  - exists (m - delay)%Z, m. split_and!; [done|done|]. intros w l'. unfold to_all. rewrite lookup_fmap. intros (l & Hl & ->)%fmap_Some.
    destruct (Hch w l Hl) as [Hrs Hwm Hd]. split.
    + by rewrite item_records_snoc, Hrs, app_nil_r.
    + by rewrite item_watermark_snoc.
    + apply Forall_app. split; [done|]. constructor; [simpl; lia|done].
Qed.

Lemma start_source g : g = NewPeriodicWatermarkGenerator delay → source_state [] (ideal_start downstreams table (Some g)).
Proof.
  intros ->. split; simpl; [done| | |done].
  - intros w. rewrite <-elem_of_dom, dom_list_to_map_L, elem_of_list_to_set, <-list_fmap_compose, list_fmap_id. done.
  - exists (-1)%Z, (-1)%Z. split_and!; [done|by left|]. intros w l Hl.
    by apply elem_of_list_to_map_2, list_elem_of_fmap in Hl as (? & [= -> ->] & _).
Qed.

Lemma job_source i ops i' :
  source_state [] i → Forall job_op ops → (∀ t ts, GetTimestamp cfg (SetTimestamp t ts) = GetTimestamp cfg t) →
  foldM (id_step cfg) i ops = Ok i' → source_state ops i'.
Proof.
  intros Hstart Hops Hext. revert i'. induction ops as [|op ops IH] using rev_ind; intros i'; [by intros [= <-]|].
  apply Forall_app in Hops as [Hops Hop]. apply Forall_inv in Hop. rewrite foldM_app. intros (i1 & Hrun & Hrest)%bind_Ok_inv.
  pose proof (IH Hops i1 Hrun) as Hinv. simpl in Hrest. apply bind_Ok_inv in Hrest as (i2 & Hstep & [= <-]).
  destruct op as [t| | |wm|ts| | |add remove tab|]; try done.
  - by eapply emit_source.
  - simpl in Hstep. apply bind_Ok_inv in Hstep as ([] & _ & [= <-]). destruct Hinv. split; rewrite ?source_records_snoc, ?app_nil_r; done.
  - by eapply generate_source.
Qed.
End Source.

(** ** Channels *)

(** Batches with a property and watermarks in range. *)
Definition unit_ok (P : list Tuple → Prop) (w : WorkUnit) : Prop :=
  match w with BatchUnit rs => P rs | WatermarkUnit ts => (ts < 2 ^ 62)%Z | _ => False end.

Lemma channel_records d : Forall data_item (flat d) → records_of (time_events (delivered <$> d)) = item_records (flat d).
Proof.
  induction d as [|u d IH]; [done|]. change (flat (u :: d)) with (unit_items u ++ flat d). unfold item_records, records_of in *.
  intros [Hu Hd]%Forall_app. rewrite fmap_cons, bind_cons, !bind_app, IH by done. f_equal.
  destruct u as [b|[]]; try done; try by apply Forall_inv in Hu. simpl. rewrite app_nil_r.
  clear. induction (Records b) as [|r rs IHr]; [done|]. rewrite fmap_cons, bind_cons, <-IHr. done.
Qed.

Lemma channel_watermark d : Forall data_item (flat d) → last_watermark (-1) (time_events (delivered <$> d)) = item_watermark (flat d).
Proof.
  unfold item_watermark. generalize (-1)%Z. induction d as [|u d IH]; intros wm Hd; [done|].
  change (flat (u :: d)) with (unit_items u ++ flat d) in *. apply Forall_app in Hd as [Hu Hd]. rewrite foldl_app, fmap_cons, bind_cons.
  destruct u as [b|[]]; try by apply Forall_inv in Hu.
  - change (last_watermark wm (time_event (delivered (OBatch b)) ++ time_events (delivered <$> d)))
      with (last_watermark wm (time_events (delivered <$> d))). rewrite IH by done. f_equal. clear.
    simpl. induction (Records b); [done|]. done.
  - simpl. by apply IH.
Qed.

Lemma channel_units {tys : list Kind} `{Mus} (BatchSize : nat) (P : list Tuple → Prop) d :
  Forall (pushed_ok (tys := tys) BatchSize) d → Forall data_item (flat d) →
  (∀ rs, rs ≠ [] → (∀ r, r ∈ rs → r ∈ item_records (flat d)) → P rs) → Forall (unit_ok P) (delivered <$> d).
Proof.
  intros Hp Hd HP. apply Forall_fmap, Forall_forall. intros u Hu.
  assert (Hin : ∀ x, x ∈ unit_items u → x ∈ flat d) by (intros x Hx; apply list_elem_of_bind; eauto).
  rewrite Forall_forall in Hp. rewrite Forall_forall in Hd. specialize (Hp u Hu). destruct u as [b|w].
  - destruct Hp as [_ Hne]. simpl. apply HP; [done|]. intros r Hr. apply list_elem_of_bind. exists (IRec r). split; [by left|].
    apply Hin, list_elem_of_fmap_2, Hr.
  - specialize (Hd (IUnit w) (Hin _ (list_elem_of_here _ _))). by destruct w.
Qed.

(** ** Suppliers *)

Section Given.
Context `{GoRange} (P : list Tuple → Prop).

Definition within_range (s : Supplier) : Prop :=
  Forall (λ u, Forall (unit_ok P) (up_units u) ∧ (up_WM u < 2 ^ 62)%Z) (channels s).

(** What the task is given. *)
Definition given (w : WorkUnit) : Prop :=
  match w with BatchUnit rs => P rs | WatermarkUnit ts => (-1 ≤ ts < 2 ^ 62)%Z | _ => False end.

Lemma reads_given s s' out : sup_wf s' → within_range s → reads s s' out → within_range s' ∧ Forall given out.
Proof.
  intros Hwf' Hr (u & w & u' & rest & Hc & Hc' & Hbuf & Hconn & Hw). unfold within_range in *. rewrite Hc in Hr. rewrite Hc'.
  apply Forall_cons in Hr as [[Hu HW] Hrest]. assert (Hun : up_units u = w :: up_units u') by (unfold up_units; by rewrite Hbuf, Hconn).
  rewrite Hun in Hu. apply Forall_cons in Hu as [Hw0 Hu]. destruct w as [rs| |ts| | | | |]; try done.
  - destruct Hw as (HWM & -> & _). split; [constructor; [split; [done|by rewrite HWM]|done]|by repeat constructor].
  - destruct Hw as [Hts ->]. split; [constructor; [split; [done|by rewrite Hts]|done]|]. case_decide; [done|]. constructor; [|done].
    assert (-1 ≤ min_all (channels s') ≤ up_WM u')%Z as Hmin.
    { split; [apply min_all_ge; eapply Forall_impl; [apply Hwf'|]; intros v Hv; apply Hv|]. apply min_all_le. rewrite Hc'. by left. }
    simpl. rewrite (wf_watermark _ Hwf'). simpl in Hw0. lia.
Qed.

Lemma step_given s e s' out : sup_wf s → within_range s → sp_step s e = Ok (s', out) → sup_wf s' ∧ within_range s' ∧ Forall given out.
Proof.
  intros Hwf Hr. destruct e as [name i|].
  - intros [= <- <-]. destruct (arrive_wf s name i Hwf) as [Hwf' _]. split_and!; [done| |done]. unfold within_range in *.
    destruct (arrive_channels s name i) as [Hc|(u & rest & Hc & Hc')]; [by rewrite Hc|]. rewrite Hc'. rewrite Hc in Hr.
    apply Forall_cons in Hr as [Hu Hrest]. constructor; [by rewrite up_units_arrive, up_WM_arrive|done].
  - intros Hrun. destruct (turn_total s Hwf) as (s1 & o & Hrun1 & Hwf1 & _ & _ & Hq). rewrite Hrun in Hrun1. injection Hrun1 as <- <-.
    split; [done|]. destruct Hq as [(Hc & -> & _)|Hrd]; [|by eapply reads_given]. unfold within_range in *. by rewrite Hc.
Qed.

Lemma run_given events : ∀ s s' outs, sup_wf s → within_range s → sp_run s events = Ok (s', outs) → Forall given outs.
Proof.
  induction events as [|e events IH]; intros s s' outs Hwf Hr; [by intros [= <- <-]|]. rewrite sp_run_cons.
  intros ([s1 o] & Hstep & Hrest)%bind_Ok_inv. apply bind_Ok_inv in Hrest as ([s2 os] & Hrun & [= <- <-]).
  destruct (step_given s e s1 o Hwf Hr Hstep) as (Hwf1 & Hr1 & Ho). apply Forall_app. split; [done|by eapply IH].
Qed.
End Given.

(** ** Workers *)

(** A supplier whose channels deliver [chans], before it has read any of it. *)
Record connected (s : Supplier) (chans : list (list WorkUnit)) : Prop := {
  cn_list : SubSupplierList s ≡ₚ (map_to_list (SubSuppliers s)).*1;
  cn_next : (-1 ≤ NextSubSupplierIdx s)%Z;
  cn_subs : ∀ name ss, SubSuppliers s !! name = Some ss → Upstreams ss ≠ [] ∧ (-1 ≤ NextUpstreamIdx ss)%Z;
  cn_deployed : TaskDeploymentPhasePassed s = true;
  cn_channels : ((λ u, (up_units u, up_WM u)) <$> channels s) ≡ₚ ((λ l, (l, (-1)%Z)) <$> chans);
  cn_watermark : TaskWatermark s = (-1)%Z
}.

Section Connected.
Context (P : list Tuple → Prop) (s : Supplier) (chans : list (list WorkUnit)).
Context (Hcn : connected s chans) (Hne : chans ≠ []).
Context (Hok : Forall (λ l, Forall (unit_ok P) l ∧ chan_ok (-1) (-1) l) chans).

Lemma connected_channel u : u ∈ channels s → up_units u ∈ chans ∧ up_WM u = (-1)%Z.
Proof.
  intros Hu. assert ((up_units u, up_WM u) ∈ ((λ l, (l, (-1)%Z)) <$> chans)) as Hin.
  { rewrite <-(cn_channels _ _ Hcn). apply list_elem_of_fmap. by exists u. }
  apply list_elem_of_fmap in Hin as (l & [= -> ->] & Hl). done.
Qed.

Lemma connected_data : Forall data_channel (channels s) ∧ within_range P s.
Proof.
  rewrite Forall_forall in Hok. split; apply Forall_forall; intros u Hu; destruct (connected_channel u Hu) as [Hin HW];
    destruct (Hok _ Hin) as [Hun Hch]; [split|split].
  - eapply Forall_impl; [exact Hun|]. by intros [].
  - by rewrite HW.
  - lia.
  - eapply Forall_impl; [exact Hun|]. intros []; try done. simpl. unfold MaxInt64. lia.
  - done.
  - lia.
Qed.

Lemma connected_wf : sup_wf s.
Proof.
  destruct connected_data as [Hdata _]. destruct Hcn as [Hl Hn Hs Hd Hc HT]. split; try done.
  - intros Hempty. apply Hne. unfold channels in Hc. rewrite Hempty, map_to_list_empty in Hc. apply Permutation_length in Hc.
    rewrite !length_fmap in Hc. by destruct chans.
  - rewrite HT. assert (Hall : ∀ us, us ≠ [] → Forall (λ u, up_WM u = -1)%Z us → min_all us = (-1)%Z).
    { intros us Hus Hw. unfold min_all. assert (Hge : (-1 ≤ foldr (λ u, Z.min (up_WM u)) MaxInt64 us)%Z).
      { apply min_all_ge. eapply Forall_impl; [exact Hw|]. simpl. lia. }
      destruct Hw as [|u us Hu Hw]; [done|]. simpl in *. lia. }
    symmetry. apply Hall.
    + intros Hnil. rewrite Hnil in Hc. apply Permutation_length in Hc. rewrite !length_fmap in Hc. by destruct chans.
    + apply Forall_forall. intros u Hu. by apply connected_channel.
Qed.

Lemma connected_records : left_records (channels s) ≡ₚ chans ≫= λ l, records_of (time_events l).
Proof.
  unfold left_records. pose proof (cn_channels _ _ Hcn) as Hc.
  transitivity (((λ u, (up_units u, up_WM u)) <$> channels s) ≫= λ x, records_of (time_events x.1)).
  - by rewrite list_fmap_bind.
  - rewrite Hc, list_fmap_bind. done.
Qed.

Lemma connected_watermarks : final_wm <$> channels s ≡ₚ (λ l, last_watermark (-1) (time_events l)) <$> chans.
Proof.
  pose proof (Permutation_map (λ x, last_watermark x.2 (time_events x.1)) (cn_channels _ _ Hcn)) as Hc.
  change (map ?f) with (fmap (M := list) f) in Hc. rewrite <-!list_fmap_compose in Hc. exact Hc.
Qed.
End Connected.

(** The main loop's view of a tumbling window operator. *)
Definition tumbling_ops `{Mus, RawMus, !GoRange, GoJson bool} {S : Type} `{StateServiceOps S} (cfg : CollectorConfig) (WorkerId : Z)
    : OperatorOps (TumblingWindow S) :=
  MkOperatorOps _ (λ tw rs _, tw_ProcessBatch tw (BatchUnit rs)) tw_ProcessProgressedWatermark
    tw_ProcessFastForwardMetadata (tw_ConstructFastForwardMetadata cfg WorkerId).

(** A worker: its supplier, its task, and the arrivals and turns that happen. *)
Record Worker (S : Type) := MkWorker {
  jw_id : Z;
  jw_supplier : Supplier;
  jw_task : Task (TumblingWindow S);
  jw_schedule : list sp_event
}.
Arguments MkWorker {S}.
Arguments jw_id {S}.
Arguments jw_supplier {S}.
Arguments jw_task {S}.
Arguments jw_schedule {S}.

Section Worker.
Context `{MusLaws, RawMus, !GoRange, GoJson bool} {S : Type} `{ServiceLaws S}.
Context (R : GoRange * GoRange) (lazy byKey : bool) (cfg : CollectorConfig).
Implicit Types k : Worker S.

(** The main loop runs on what the supplier hands out; the operator does not
    look at the name of the sub-supplier. *)
Definition run_worker (name : string) k : res (Supplier * Task (TumblingWindow S)) :=
  '(s, units) ← sp_run (jw_supplier k) (jw_schedule k);
  task ← foldM (loop_turn (tumbling_ops cfg (jw_id k)) R cfg (jw_id k) lazy byKey) (jw_task k) ((λ u, (u, name)) <$> units);
  Ok (s, task).

Definition results (x : Supplier * Task (TumblingWindow S)) : list Tuple := emitted (wb_Collector (tw_Base (tk_op x.2))).

(** Outside a rescale the loop only calls the operator. *)
Lemma loop_data P w name (units : list WorkUnit) : ∀ (st : Task (TumblingWindow S)) tw,
  Forall (given P) units → LazyProtocolPhase st = false → inTransition st = false →
  foldM tw_event (tk_op st) (time_events units) = Ok tw →
  ∃ st', foldM (loop_turn (tumbling_ops cfg w) R cfg w lazy byKey) st ((λ u, (u, name)) <$> units) = Ok st' ∧ tk_op st' = tw.
Proof.
  induction units as [|u units IH]; intros st tw Hu Hl Ht; [intros [= <-]; by exists st|].
  apply Forall_cons in Hu as [Hu Hus]. rewrite fmap_cons, bind_cons, foldM_app. intros (tw1 & Htw1 & Hrest)%bind_Ok_inv. cbn [foldM].
  assert (∃ st1, loop_turn (tumbling_ops cfg w) R cfg w lazy byKey st (u, name) = Ok st1 ∧ tk_op st1 = tw1 ∧
    LazyProtocolPhase st1 = false ∧ inTransition st1 = false) as (st1 & -> & Hop & Hl1 & Ht1).
  { unfold loop_turn. assert (Hflag : (if lazy then updateInTransitionFlag (tumbling_ops cfg w) R w byKey st else Ok st) =
      Ok (tk_set_transition st false)).
    { unfold updateInTransitionFlag. rewrite Hl. destruct lazy; [done|]. destruct st. simpl in Ht. by rewrite Ht. }
    rewrite Hflag, bind_Ok. destruct u as [rs| |ts| | | | |]; try done; simpl in Htw1 |- *;
      apply bind_Ok_inv in Htw1 as (tw2 & Htw2 & [= ->]); rewrite Htw2; simpl; by eexists. }
  rewrite bind_Ok. apply (IH st1 tw); [done..|]. by rewrite Hop.
Qed.

Context (tys : list Kind) (input : Tuple → Prop) (spec : AggSpec) (Hcomm : commutative spec).

(** A new worker outside a rescale. *)
Record worker_ready (key : Tuple → field) (D : Z) (kind : Kind) k (chans : list (list WorkUnit)) : Prop := {
  wr_connected : connected (jw_supplier k) chans;
  wr_phase : LazyProtocolPhase (jw_task k) = false ∧ inTransition (jw_task k) = false;
  wr_op : tumbling tys input spec (tk_op (jw_task k)) ∅;
  wr_key : wb_KeyAssigner (tw_Base (tk_op (jw_task k))) = key;
  wr_kind : keyKind (wb_StateClient (tw_Base (tk_op (jw_task k)))) = kind;
  wr_duration : tw_Duration (tk_op (jw_task k)) = D;
  wr_new : emitted (wb_Collector (tw_Base (tk_op (jw_task k)))) = []
}.

Lemma worker_exact name key D kind k chans :
  worker_ready key D kind k chans → chans ≠ [] →
  Forall (λ l, Forall (unit_ok (λ rs, rs ≠ [] ∧ Forall (record_ok input (tw_Base (tk_op (jw_task k)))) rs)) l ∧ chan_ok (-1) (-1) l) chans →
  ∃ x, run_worker name k = Ok x ∧
    (Forall (λ u, up_units u = []) (channels x.1) →
     results x ≡ₚ shard_results key D spec (foldr Z.min MaxInt64 ((λ l, last_watermark (-1) (time_events l)) <$> chans))
       (chans ≫= λ l, records_of (time_events l))).
Proof.
  intros [Hcn [Hl Ht] Htu Hkey _ HD Hnew] Hne Hok. set (tw := tk_op (jw_task k)) in *.
  set (P := λ rs, rs ≠ [] ∧ Forall (record_ok input (tw_Base tw)) rs) in *.
  pose proof (connected_wf P _ _ Hcn Hne Hok) as Hwf. destruct (connected_data P _ _ Hcn Hok) as [_ Hrange].
  destruct (run_total (jw_supplier k) (jw_schedule k) Hwf) as (s' & units & Hrun & Hwf' & Hcons).
  pose proof (run_given P _ _ _ _ Hwf Hrange Hrun) as Hgiven. destruct (wf_sup_ok _ Hwf) as [Hsok Hptr].
  destruct (sp_run_ok _ _ _ _ Hsok Hptr Hrun) as (_ & _ & Hon & HT). rewrite (cn_watermark _ _ Hcn) in Hon, HT.
  assert (Hev : Forall (event_ok input (tw_Base tw)) (time_events units)).
  { clear -Hgiven. induction Hgiven as [|u units Hu _ IH]; [constructor|]. rewrite bind_cons. apply Forall_app. split; [|done].
    destruct u; try done; (constructor; [exact Hu|constructor]). }
  destruct (run_refines tys input spec tw ∅ (time_events units) Htu Hev) as (tw' & outs & Hfold & _ & Hem & Houts).
  destruct (tu_duration _ _ _ _ _ Htu) as [HDpos _].
  destruct (spec_run_exact key D spec ltac:(by rewrite <-HD) (time_events units) Hon) as [_ Hperm]; [by eapply events_times|].
  destruct (loop_data P (jw_id k) name units (jw_task k) tw' Hgiven Hl Ht Hfold) as (st' & Hloop & Hop).
  exists (s', st'). split; [unfold run_worker; by rewrite Hrun, bind_Ok, Hloop|]. intros Hread. simpl in Hread.
  destruct (all_read _ _ _ Hwf' Hcons Hread) as [Hrs Hwm]. unfold results. simpl. rewrite Hop, Hem. fold tw in Hnew. rewrite Hnew.
  simpl. fold tw in Hkey. rewrite Hkey, HD in Houts. rewrite (concat_Permutation _ _ Houts). etransitivity; [exact Hperm|].
  change (window_result key D spec ?rs <$> _) with (shard_results key D spec (last_watermark (-1) (time_events units)) rs).
  apply reflexive_eq. rewrite <-HT, Hwm. rewrite (shard_results_perm key D spec Hcomm _ _ _ (transitivity Hrs (connected_records _ _ Hcn))).
  f_equal. assert (Hp : ∀ l l', l ≡ₚ l' → foldr Z.min MaxInt64 l = foldr Z.min MaxInt64 l').
  { intros l l' Hll. induction Hll; simpl in *; lia. }
  apply Hp, connected_watermarks, Hcn.
Qed.
End Worker.

(** ** The job *)

Section Job.
Context `{MusLaws, RawMus, !GoRange, GoJson bool} {S : Type} `{ServiceLaws S}.
Context (R : GoRange * GoRange) (lazy byKey : bool).
(** The stream between the sources and the operator. *)
Context (tys : list Kind) (kind : Kind) (batchSize : nat) (isLazy : bool) (hash : HashFunc) (numBuckets : Z).
Context (keyExtractor : Tuple → field) (timestampExtractor : Tuple → Z) (cfg : CollectorConfig).
Context (Hcfg : NewCollectorConfig tys kind batchSize isLazy hash numBuckets keyExtractor timestampExtractor = Ok cfg).
Context (Hsize : is_u32 (Z.of_nat batchSize)).
Context (Hext : ∀ t ts, timestampExtractor (SetTimestamp t ts) = timestampExtractor t).
Context (table : PartitionTable) (downstreams : list Z) (delay : Z) (Hdelay : (0 ≤ delay)%Z) (c : KeybyCollector).
Context (Hsetup : kb_Setup downstreams (Some table) (Some (NewPeriodicWatermarkGenerator delay)) = Ok c).

(** The operations of a source: typed records whose event times are in range and
    at most the delay behind the latest. *)
Definition job_ops (ops : list kb_op) : Prop :=
  Forall (op_ok (tys := tys) cfg kind) ops ∧ Forall (job_op cfg delay) ops ∧ source_ops cfg delay (-1) ops.

(** The source has done [ops] and then flushed its batches. *)
Definition source_done (ops : list kb_op) (c' : KeybyCollector) : Prop := foldM (kb_step cfg) c (ops ++ [CTimer]) = Ok c'.

Definition channel_to (w : Z) (c' : KeybyCollector) : list WorkUnit := delivered <$> default [] (Downstreams (kb_out c') !! w).

Lemma config_fields : GetKey cfg = keyExtractor ∧ GetTimestamp cfg = timestampExtractor.
Proof.
  clear -Hcfg. unfold NewCollectorConfig in Hcfg. repeat (apply bind_Ok_inv in Hcfg as (? & _ & Hcfg)). by injection Hcfg as <-.
Qed.

Record channel_facts (w : Z) (ops : list kb_op) (c' : KeybyCollector) (d : list out_unit) : Prop := {
  cf_channel : Downstreams (kb_out c') !! w = Some d;
  cf_pushed : Forall (pushed_ok (tys := tys) batchSize) d;
  cf_holds : channel_holds (routed keyExtractor (key_worker table) w (source_records cfg ops)) (source_watermark c') (flat d);
  cf_time : chan_ok (-1) (-1) (delivered <$> d)
}.

Lemma source_channels ops c' : job_ops ops → source_done ops c' →
  Forall (λ r, ∃ w, key_worker table (keyExtractor r) = Some w ∧ w ∈ downstreams) (source_records cfg ops) ∧
  ∀ w, w ∈ downstreams → ∃ d, channel_facts w ops c' d.
Proof.
  destruct config_fields as [Hkey Hts]. assert (Hext' : ∀ t ts, GetTimestamp cfg (SetTimestamp t ts) = GetTimestamp cfg t) by by rewrite Hts.
  intros (Hops & Hjob & Hsrc). unfold source_done. rewrite foldM_app. intros (c1 & Hrun & Hrest)%bind_Ok_inv.
  simpl in Hrest. apply bind_Ok_inv in Hrest as (c2 & Htimer & [= ->]).
  edestruct setup_refines as [Hbs Himp]; [exact Hcfg|exact Hsize|exact Hsetup|exact Hops|]. rewrite Hrun in Himp. destruct Himp as [Hideal Hinv].
  unfold kb_timer in Htimer. apply bind_Ok_inv in Htimer as ([] & _ & Hfl).
  destruct (flushAll_Ok (cc_BatchSize cfg) (kb_out c1) (ki_out _ _ Hinv)) as (o & Hf & Ho & Hflushed & Hview).
  unfold kb_flush in Hfl. rewrite Hf, bind_Ok in Hfl. injection Hfl as <-.
  destruct (job_source cfg table downstreams delay Hdelay _ ops _ (start_source cfg table downstreams delay _ eq_refl) Hjob Hext' Hideal)
    as [_ Hdom (last & m & Hg & _ & Hch) Hrouted].
  edestruct (source_run cfg delay Hdelay Hext' ops) as (m' & [(last' & _ & _ & _ & Htr) _]); [|exact Hsrc|exact Hideal|].
  { split; [|done]. exists (-1)%Z. split_and!; [done|lia|by left|]. intros w l Hl.
    apply elem_of_list_to_map_2, list_elem_of_fmap in Hl as (? & [= -> ->] & _). by exists (-1)%Z. }
  rewrite Hkey in Hrouted, Hch. split; [done|]. intros w Hw. destruct (proj2 (Hdom w) Hw) as [l Hl].
  pose proof Hl as Hl'. simpl in Hl'. rewrite <-Hview, (view_flushed o Hflushed), lookup_fmap in Hl'. apply fmap_Some in Hl' as (d & Hd & ->).
  exists d. destruct (Htr w (flat d) Hl) as (x & Hx & _). split; simpl.
  - done.
  - rewrite <-Hbs. by apply (oi_pushed _ _ Ho w).
  - unfold source_watermark. simpl in Hg |- *. rewrite Hg. by apply Hch.
  - pose proof (chan_ok_tracked d (-1) x [] ltac:(lia) Hx (or_introl eq_refl)) as Hc. by rewrite app_nil_r in Hc.
Qed.

Lemma all_routed opss cs : Forall job_ops opss → Forall2 source_done opss cs →
  Forall (λ r, ∃ w, key_worker table (keyExtractor r) = Some w ∧ w ∈ downstreams) (opss ≫= source_records cfg).
Proof.
  intros Hjobs Hdone. induction Hdone as [|ops c' opss cs Hc _ IH]; [constructor|].
  apply Forall_cons in Hjobs as [Hjob Hjobs]. rewrite bind_cons. apply Forall_app. split; [by eapply source_channels|by apply IH].
Qed.

(** What a worker's channels deliver, taken together. *)
Lemma all_channels w opss cs : w ∈ downstreams → Forall job_ops opss → Forall2 source_done opss cs →
  ((channel_to w <$> cs) ≫= λ l, records_of (time_events l)) =
    routed keyExtractor (key_worker table) w (opss ≫= source_records cfg) ∧
  ((λ l, last_watermark (-1) (time_events l)) <$> (channel_to w <$> cs)) = source_watermark <$> cs ∧
  ∀ P, (∀ rs, rs ≠ [] → (∀ r, r ∈ rs → r ∈ opss ≫= source_records cfg) → P rs) →
    Forall (λ l, Forall (unit_ok P) l ∧ chan_ok (-1) (-1) l) (channel_to w <$> cs).
Proof.
  intros Hw Hjobs Hdone. induction Hdone as [|ops c' opss cs Hc _ IH]; [by repeat split|].
  apply Forall_cons in Hjobs as [Hjob Hjobs]. destruct (IH Hjobs) as (Hr & Hwm & HP).
  destruct (source_channels ops c' Hjob Hc) as [_ Hchan]. destruct (Hchan w Hw) as (d & [Hd Hp [Hrs Hlast Hdata] Ht]).
  assert (Hto : channel_to w c' = delivered <$> d) by (unfold channel_to; by rewrite Hd). rewrite !fmap_cons, !bind_cons, Hto, Hr, Hwm.
  rewrite channel_records, channel_watermark, Hrs, Hlast by done. split_and!; [|done|].
  - unfold routed. by rewrite filter_app.
  - intros P HP0. constructor; [split; [|done]|].
    + eapply channel_units; [exact Hp|exact Hdata|]. intros rs Hne Hin. apply HP0; [done|]. intros r Hr0%Hin.
      rewrite Hrs in Hr0. unfold routed in Hr0. apply list_elem_of_filter in Hr0 as [_ Hr0]. apply elem_of_app. by left.
    + apply HP. intros rs Hne Hin. apply HP0; [done|]. intros r Hr0. apply elem_of_app. right. by apply Hin.
Qed.

(** The records have keys of the key type and times in range. *)
Lemma job_records opss r : Forall job_ops opss → r ∈ opss ≫= source_records cfg → has_kind kind (keyExtractor r) = true ∧ time_ok (timestamp r).
Proof.
  destruct config_fields as [Hkey _]. intros Hjobs (ops & Hr & Hops)%list_elem_of_bind. rewrite Forall_forall in Hjobs.
  destruct (Hjobs ops Hops) as (Hok & Hjob & _). apply list_elem_of_bind in Hr as (op & Hr & Hop).
  rewrite Forall_forall in Hok, Hjob. specialize (Hok op Hop). specialize (Hjob op Hop). destruct op as [t| | | | | | | |]; try by apply elem_of_nil in Hr.
  apply list_elem_of_singleton in Hr as ->. destruct Hok as (_ & Hk & _). rewrite Hkey in Hk. split; [apply Hk|]. unfold time_ok. simpl in *. lia.
Qed.

Context (stateTypes : list Kind) (input : Tuple → Prop) (spec : AggSpec) (D : Z).

(** C3: a job from its sources to its results.  Any number of source tasks emit
    keyed records whose event times are at most the allowed delay behind the
    latest, at least the allowed delay (an earlier one can end a task's process,
    see [early_watermark_fatal]) and below 2^62, to the workers of a tumbling
    window operator whose aggregator does not depend on the order of its
    records; nothing is rescaled meanwhile.  Then, for any batching and timers of the
    collectors, any arrivals and turns at the suppliers, no task ends its
    process; and once each has read what was sent to it, the results of all
    workers together are, each exactly once, those of the windows of all the
    records that end by the minimum of the sources' last watermarks: what one
    operator would compute from the whole stream. *)
Theorem pipeline_exact (name : string) (opss : list (list kb_op)) (cs : list KeybyCollector) (workers : list (Worker S)) :
  commutative spec → opss ≠ [] → Forall job_ops opss → Forall2 source_done opss cs →
  NoDup downstreams → jw_id <$> workers = downstreams →
  Forall (λ k, worker_ready stateTypes input spec keyExtractor D kind k (channel_to (jw_id k) <$> cs)) workers →
  Forall input (opss ≫= source_records cfg) →
  ∃ final, Forall2 (λ k x, run_worker R lazy byKey cfg name k = Ok x) workers final ∧
    (Forall (λ x, Forall (λ u, up_units u = []) (channels x.1)) final →
     (final ≫= results) ≡ₚ
       shard_results keyExtractor D spec (foldr Z.min MaxInt64 (source_watermark <$> cs)) (opss ≫= source_records cfg)).
Proof.
  intros Hcomm Hne Hjobs Hdone Hnd Hids Hready Hinput. set (rs := opss ≫= source_records cfg) in *.
  set (wm := foldr Z.min MaxInt64 (source_watermark <$> cs)).
  assert (Hworker : ∀ k, k ∈ workers → ∃ x, run_worker R lazy byKey cfg name k = Ok x ∧
    (Forall (λ u, up_units u = []) (channels x.1) →
     results x ≡ₚ shard_results keyExtractor D spec wm (routed keyExtractor (key_worker table) (jw_id k) rs))).
  { intros k Hk. rewrite Forall_forall in Hready. pose proof (Hready k Hk) as Hr.
    assert (Hw : jw_id k ∈ downstreams) by (rewrite <-Hids; by apply list_elem_of_fmap_2).
    destruct (all_channels (jw_id k) opss cs Hw Hjobs Hdone) as (Hrs & Hwm & HP). fold rs in Hrs. rewrite <-Hrs. unfold wm. rewrite <-Hwm.
    apply (worker_exact R lazy byKey cfg stateTypes input spec Hcomm name keyExtractor D kind k); [done| |].
    - destruct Hdone; [done|done].
    - apply HP. intros rs' Hne' Hin. split; [done|]. apply Forall_forall. intros r Hr'%Hin. rewrite Forall_forall in Hinput.
      destruct (job_records opss r Hjobs Hr') as [Hkind Htime]. split_and!; [|done|by apply Hinput].
      by rewrite (wr_key _ _ _ _ _ _ _ _ Hr), (wr_kind _ _ _ _ _ _ _ _ Hr). }
  destruct (Forall2_choice _ workers Hworker) as (final & Hfinal). exists final. split.
  { eapply Forall2_impl; [exact Hfinal|]. by intros k x [? _]. }
  intros Hread. etransitivity; [|apply (shards_complete keyExtractor D spec (key_worker table) wm downstreams rs Hnd)].
  - rewrite <-Hids. clear -Hfinal Hread. revert Hread. induction Hfinal as [|k x ks xs [_ Hx] _ IH]; intros Hread; [done|].
    apply Forall_cons in Hread as [Hr Hread]. rewrite fmap_cons, !bind_cons. apply Permutation_app; [by apply Hx|by apply IH].
  - by apply (all_routed opss cs).
Qed.
End Job.

(** ** Two sources and two workers *)

Definition job_type : list Kind := [KInt64; KInt64; KInt64].
Definition job_record (key value time : Z) : Tuple := MkTuple [FNum KInt64 key; FNum KInt64 value; FNum KInt64 time] 0.
Definition job_time (t : Tuple) : Z := num_at 2 t.
Definition job_cfg : CollectorConfig :=
  MkCollectorConfig 100 true demo_hash 2 (match CreateSizer job_type with Ok s => s | Crash _ => λ _, Ok 0 end)
    WindowStore.demo_key (EncodeNum KInt64) (SizeNumFunc KInt64) job_time.
Definition job_table : PartitionTable := MkTable demo_hash [1; 2]%Z.
Definition source_start : KeybyCollector :=
  MkKeyby (new_outputs [1; 2]%Z) [] job_table false (Some (NewPeriodicWatermarkGenerator 5)) (-1).

Definition job_sources : list (list kb_op) :=
  [[CEmit (job_record 7 1 13); CEmit (job_record 8 5 14); CGenerate; CEmit (job_record 7 2 19); CTimer; CEmit (job_record 7 10 27); CGenerate];
   [CEmit (job_record 8 4 12); CGenerate; CEmit (job_record 7 100 31); CGenerate]].

Definition job_collectors : list KeybyCollector :=
  (λ ops, match foldM (kb_step job_cfg) source_start (ops ++ [CTimer]) with Ok c => c | Crash _ => source_start end) <$> job_sources.

(** All that was sent to a worker is on its way to it. *)
Definition job_supplier (w : Z) : Supplier :=
  MkSupplier false {[ "src"%string := MkSub "src" ((λ c, NewUpstream 0 (channel_to w c) [] (-1)) <$> job_collectors) false false (-1) ]}
    2 (-1) 3 true 0 NewReconfig (-1) ["src"%string].

Definition job_worker (w : Z) : Worker (LocalService MemoryStateBackend) :=
  MkWorker w (job_supplier w) (MkTask demo_tumbling NewPeerCollector None (-1) (MkTableV2 demo_hash []) false false 0 0)
    (concat (replicate 8 [Arrives "src" 0; Turn; Arrives "src" 1; Turn])).

Definition all_was_read (r : res (Supplier * Task (TumblingWindow (LocalService MemoryStateBackend)))) : bool :=
  match r with Ok x => forallb (λ u, match up_units u with [] => true | _ => false end) (channels x.1) | Crash _ => false end.

Lemma all_was_read_Ok x : all_was_read (Ok x) = true → Forall (λ u, up_units u = []) (channels x.1).
Proof.
  simpl. intros Hall. apply Forall_forall. intros u Hu. rewrite forallb_forall in Hall. specialize (Hall u).
  destruct (up_units u); [done|]. discriminate Hall. by apply list_elem_of_In.
Qed.

Lemma sum_commutative : commutative sum_spec.
Proof.
  intros l r r'. simpl. unfold plus_tuples. destruct l as [|t [|t' l]]; try done.
  change (num_at 0 (sum_tuple ?z)) with (i64 z). unfold sum_tuple. rewrite !i64_add_l. do 5 f_equal. lia.
Qed.

Lemma job_emit_ok key value time : (0 ≤ key < 1000)%Z → (0 ≤ value < 1000)%Z → (5 ≤ time < 1000)%Z →
  op_ok (tys := job_type) job_cfg KInt64 (CEmit (job_record key value time)) ∧ job_op job_cfg 5 (CEmit (job_record key value time)).
Proof.
  intros Hk Hv Ht. assert (Hi : ∀ z, (0 ≤ z < 1000)%Z → has_kind KInt64 (FNum KInt64 z) = true).
  { intros z Hz. simpl. by rewrite (proj2 (Z.leb_le _ _)), (proj2 (Z.ltb_lt _ _)) by lia. }
  split; [split_and!|].
  - repeat (apply Forall2_cons; split; [apply Hi; lia|]). by apply Forall2_nil.
  - intros ts. apply demo_key_kind.
  - unfold is_i64. unfold job_cfg, job_time, job_record, num_at. simpl. lia.
  - unfold job_op, job_cfg, job_time, job_record, num_at. simpl. lia.
Qed.

Lemma job_sources_ok : Forall (job_ops job_type KInt64 job_cfg 5) job_sources.
Proof.
  assert (Hall : ∀ ops, Forall (λ op, op_ok (tys := job_type) job_cfg KInt64 op ∧ job_op job_cfg 5 op) ops → source_ops job_cfg 5 (-1) ops →
    job_ops job_type KInt64 job_cfg 5 ops).
  { intros ops [Hok Hjob]%Forall_and Hsrc. by split_and!. }
  unfold job_sources. repeat (apply Forall_cons; split; [apply Hall|]); [..|by apply Forall_nil].
  1,3: repeat (apply Forall_cons; split; [first [by split|apply job_emit_ok; lia]|]); by apply Forall_nil.
  all: simpl; unfold job_time, num_at; simpl; lia.
Qed.

Lemma job_sources_done : Forall2 (source_done job_cfg source_start) job_sources job_collectors.
Proof.
  assert (Hok : Forall (λ ops, is_ok (foldM (kb_step job_cfg) source_start (ops ++ [CTimer])) = true) job_sources).
  { unfold job_sources. repeat (apply Forall_cons; split; [vm_compute; reflexivity|]). by apply Forall_nil. }
  unfold job_collectors. apply Forall2_fmap_r, Forall_Forall2_diag. eapply Forall_impl; [exact Hok|].
  intros ops. unfold source_done, compose. cbv beta. destruct (foldM (kb_step job_cfg) source_start (ops ++ [CTimer])); [reflexivity|discriminate].
Qed.

Lemma job_connected w : connected (job_supplier w) (channel_to w <$> job_collectors).
Proof.
  assert (Hch : channels (job_supplier w) = (λ c, NewUpstream 0 (channel_to w c) [] (-1)) <$> job_collectors).
  { unfold channels, job_supplier. cbn [SubSuppliers]. rewrite map_to_list_singleton. apply app_nil_r. }
  split; [| | |reflexivity| |reflexivity].
  - unfold job_supplier. cbn [SubSuppliers SubSupplierList]. rewrite map_to_list_singleton. reflexivity.
  - cbn [NextSubSupplierIdx job_supplier]. lia.
  - intros name ss. unfold job_supplier. cbn [SubSuppliers]. intros [_ <-]%lookup_singleton_Some. split; [discriminate|].
    cbn [NextUpstreamIdx]. lia.
  - rewrite Hch, <-!list_fmap_compose. reflexivity.
Qed.

Lemma job_worker_ready w :
  worker_ready [KInt64] (λ _, True) sum_spec WindowStore.demo_key 10 KInt64 (job_worker w) (channel_to w <$> job_collectors).
Proof. split; [apply job_connected|split; reflexivity|apply demo_tumbling_ok|reflexivity..]. Qed.

Lemma job_drains k : k ∈ job_worker <$> [1; 2]%Z →
  all_was_read (run_worker (go_range_elements, go_range_elements) true false job_cfg "src" k) = true.
Proof.
  intros (w & -> & Hw)%list_elem_of_fmap. apply elem_of_cons in Hw as [->|Hw%list_elem_of_singleton]; [|subst w]; vm_compute; reflexivity.
Qed.

Lemma pipeline_exact_witness :
  ∃ final, Forall2 (λ k x, run_worker (go_range_elements, go_range_elements) true false job_cfg "src" k = Ok x)
      (job_worker <$> [1; 2]%Z) final ∧
    (final ≫= results) ≡ₚ [SetTimestamp (sum_tuple 9) 20; SetTimestamp (sum_tuple 3) 20].
Proof.
  destruct (pipeline_exact (go_range_elements, go_range_elements) true false job_type KInt64 100 true demo_hash 2 WindowStore.demo_key
    job_time job_cfg eq_refl ltac:(split; lia) ltac:(reflexivity) job_table [1; 2]%Z 5 ltac:(lia) source_start eq_refl [KInt64] (λ _, True)
    sum_spec 10 "src" job_sources job_collectors (job_worker <$> [1; 2]%Z)) as (final & Hrun & Hres).
  - exact sum_commutative.
  - discriminate.
  - exact job_sources_ok.
  - exact job_sources_done.
  - repeat constructor; set_solver.
  - reflexivity.
  - apply Forall_fmap, Forall_forall. intros w _. apply job_worker_ready.
  - by apply Forall_true.
  - exists final. split; [exact Hrun|]. etransitivity; [apply Hres|].
    + apply Forall_forall. intros x [i Hx]%list_elem_of_lookup_1.
      destruct (Forall2_lookup_r _ _ _ _ _ Hrun Hx) as (k & Hk%list_elem_of_lookup_2 & Hrk).
      apply all_was_read_Ok. rewrite <-Hrk. apply job_drains, Hk.
    + vm_compute. first [apply Permutation_refl|apply perm_swap].
Defined.
